(* ===== verification/_CoqProject ===== *)
-Q . S2P
Prelude.v
AsmReg.v
AsmBitmask.v
AsmOperand.v
AsmInst.v
AsmWf.v
AsmEncode.v
AsmSpec.v
AsmRoundtrip.v
AsmProps.v
QueryKey.v
QueryDb.v
QueryInv.v
QueryCorrect.v
QueryOps.v
QueryProps.v
Token.v
Utf8.v
Lexer.v
LexScan.v
LexerProps.v
LexTheorems.v
PatStore.v
Exhaust.v
ExhaustSpec.v
ExhaustMatrix.v
ExhaustProps.v
ExhaustCheck.v
Reduce.v
ReduceProps.v
InterpArith.v
InterpArithProps.v
InterpFrem.v
InterpFloat.v
InterpFloatProps.v
InterpReduce.v
Layout.v
FmtDoc.v
FmtDocProps.v
FmtRelex.v
FmtTokens.v
FmtDiff.v
FmtDiffProps.v
SynTree.v
FmtEmit.v
FmtEmitSteps.v
FmtEmitWalk.v
FmtLexed.v
FmtTree.v
FmtProps.v
SynBuilder.v
SynFinish.v
SynCursor.v
SynParse.v
SynFile.v
SynSteps.v
SynRules.v
SynWalk.v
SynDecls.v
SynValid.v
SynTotal.v
FmirData.v
InterpState.v
InterpHost.v
InterpMachine.v
InterpExec.v
InterpRun.v
InterpWp.v
InterpStep.v
InterpSafety.v
InterpRuns.v
InterpReplay.v
InterpRecord.v
InterpMemory.v
TyCons.v
TyStore.v
TyTerms.v
TySubst.v
TyMatch.v
TyMemo.v
