(* ===== verification/Prelude.v ===== *)
(** * A verification library for the Fors compiler

    Fors is a compiler written in Rust as a set of crates under [src/crates].
    This library models, definition by definition, the crates whose answers
    everything else relies on, and proves what makes them correct:

    - [fors-asm], the AArch64 assembler the development backend emits through;
    - [fors-query], the incremental engine every phase of the compiler is
      demanded through;
    - [fors-lex], the lexer every file goes through;
    - the exhaustiveness checker of [fors-check], which decides what a [match]
      may leave out;
    - the normative reduce tree of [fors-fmir];
    - [fors-interp], the reference interpreter the native backend is tested
      against: its numeric semantics, its reduce trees and the whole machine,
      from memory and borrows to capabilities, replay and comptime runs, over
      the data model of [fors-fmir];
    - [fors-layout], the sizes, offsets and tags that the interpreter, the
      comptime evaluator and the backends share;
    - the type universe of [fors-fir]: hash-consed types, substitution and
      the one-way match that infers type arguments;
    - [fors-syntax], the syntax tree, its builder and the parser;
    - [fors-fmt], the formatter, over that tree.

    They are near the leaves of the crate graph, so each is a group of files
    over this prelude.  Where one calls another its file requires it: the
    interpreter's reduce (InterpReduce) runs the tree of Reduce with the
    operations of InterpArith and InterpFloat.  Where one asks tables that
    another phase fills, the question is a class: PatStore's [Fir] (the type
    and signature tables) and [Names] (the interner); FmtProps's [Front]
    (the parser).  The formatter lexes its input and its own output with the model
    of the lexer, and its proofs rest on the theorems about it.

    ** The assembler (crates/fors-asm/src)

    - AsmReg: reg.rs and error.rs, the registers and the errors.
    - AsmBitmask: bitmask.rs, the decoder and the search of the logical
      immediates.  [encode_bitmask_exact]: the search finds a value if and
      only if it is a replicated rotated run of ones, and finds its fields.
    - AsmOperand: operand.rs and fpimm.rs, the validated immediates and
      offsets.  [branch_offset_exact], [adr_adrp_exact],
      [simm9_exact], [scaled_imm12_exact], [simm7_scaled_exact],
      [uimm12_lsl_exact], [fp_imm8_exact]: each constructor accepts exactly
      what its field can express, and the field reads back as the operand.
    - AsmInst: inst.rs and fp.rs, the instruction type and every constructor
      with its checks in source order.  AsmWf: [built], what those
      constructors can return, and [constructors_sound]; [agrees], the operand
      sizes they do not compare with the instruction.
    - AsmEncode: encode.rs, one definition per arm of [encode].
    - AsmSpec: the reference, the instruction tables as data (a template of
      fixed bits and fields for every form) with a generic packer and a
      disassembler.
    - AsmRoundtrip and AsmProps: [encode] implements the tables without error
      on everything the constructors build from operands of the sizes the
      instruction has, the disassembler recovers such an instruction, encoding
      is injective on them, no word matches two forms, and what the
      constructors do not check (the spelling of register 31 in some forms,
      access sizes, branch widths).

    ** The query engine (crates/fors-query/src)

    - QueryKey: key.rs, stats.rs and fingerprint.rs, with the injectivity of
      the hash fold and the fingerprint policy.
    - QueryDb: db.rs and cycle.rs.  A [Db] has the table of nodes (a list of
      rows for the column vectors), the key index, the dependency arena, the
      in-flight stack, the counters and the window.  A query body is a tree of
      the reads and polls it makes; the cancellation flag, which another
      thread sets, is an arbitrary function of the number of the poll.
      Recursion is bounded by fuel, the depth of nested demands; the results
      tell running out of fuel, a panic and a value apart.
    - QueryInv: the abstract engine, a from-scratch evaluation of pure query
      bodies over the inputs, with a rank that excludes cycles; then the
      invariant of a database (every verified node holds a value its body
      computes from dependencies not newer than it) and its step relation.
      QueryCorrect: a demand with more fuel than the rank of its key keeps the
      invariant and returns the from-scratch answer, whatever the flag does;
      fuel above the rank is enough, so no theorem is about runs that end
      only by assumption.  QueryOps: inputs, planning, compaction and whole
      sessions of operations.
    - QueryProps: the guarantees at the level of sessions, the synthetic
      query set of the crate's tests as their witness, and five behaviours
      the crate's documentation describes differently.

    ** The lexer (crates/fors-lex/src)

    - Token: token.rs and diag.rs.  Utf8: the validation of UTF-8 of Rust's
      library, which decides the Unicode definition of well-formed text.
    - Lexer: lexer.rs, scanner by scanner; a suffix of the source stands for a
      position in it.  The loops that do not advance by one byte have the
      length of the source as fuel.
    - LexScan: how far each scanner goes, that its fuel is enough, and that it
      reads nothing past its end.  LexerProps: each construct emits items
      (tokens with a length, errors with a code), and the stream is theirs.
    - LexTheorems: the stream is lossless; the diagnostics are one for each
      [Error] token, with the code its text calls for, and at most one for
      invalid UTF-8 ([lex_diagnostics]); a token's text alone lexes to that
      token.

    ** Exhaustiveness (crates/fors-check/src/exhaust.rs and pat.rs)

    - PatStore: the arena of lowered patterns and the questions the checker
      asks the type tables.  Exhaust: the usefulness query with its witnesses
      and step budget, and [check_match] with its diagnostics.
    - ExhaustSpec: the meaning of types, patterns and witnesses as sets of
      values, an abstract usefulness query on rows ([useful_spec]) and the
      plain algorithm without a budget ([runs]).  ExhaustMatrix: the lemmas on
      specialised and default rows.  ExhaustProps and ExhaustCheck: the query
      and the loop over the arms against that meaning, with
      [usefulness_refines], [check_match_decides] (T0053 and T0054
      are reported exactly when a value is missed or an arm matches nothing
      new, with the reported example missed by every arm; the values are those
      R53 counts, with integer and string columns never complete) and
      [check_match_budget] (T0055 exactly when the plain step count is over
      the budget).  Fuel is a measure of the rows, proved to be enough.

    ** The reduce tree (crates/fors-fmir/src/reduce.rs and
    crates/fors-interp/src/reduce.rs)

    - Reduce: both derivations of the tree, the run-time partition with its
      evaluation and the explicit expression, and the table hash.  A combining
      closure runs in a monad of its captured state and its error.
    - ReduceProps: the two forms make the same calls on the same values up to
      the order in which errors appear; each element is used once and the
      operation is applied [n - 1] times; the tree is the serial fold exactly
      up to three elements.
    - InterpReduce: the operations the interpreter reduces with, and the trap
      that depends on the form.

    ** The interpreter's numbers (crates/fors-interp/src/arith.rs)

    - InterpArith: the integer instructions in the four overflow modes, on
      64-bit slots, with the host's 128-bit arithmetic written out.
      InterpArithProps: one reference on mathematical integers,
      [exact_binop], and the proof that the code equals it for every
      operation, mode, kind and slot; negation, comparison, conversions.
    - InterpFrem: the float remainder by long division on mantissas, on bit
      patterns.  The binary exponentiation has 32 turns of fuel, proved enough
      for every exponent of an [i32]; the result is exact.
    - InterpFloat: the float operations and conversions on the Standard
      Library's specification of IEEE 754 ([SpecFloat]), between bit patterns.
      InterpFloatProps: conversions from a float saturate or trap exactly
      outside the range of the target; what [wrap_as] does to negative values
      and [as] to integers a float cannot hold.

    ** The interpreter's machine (crates/fors-interp/src, the data model of
    crates/fors-fmir/src)

    - FmirData: the rows and pools of a declaration.  InterpState: mem.rs,
      value.rs, ub.rs and budget.rs, the objects of the memory, the borrow
      stacks and the meters.  InterpHost: host.rs, shim.rs and intrinsic.rs,
      the oracle in its three modes, the entry plan and the table of doors;
      what the real clock, the entropy device and the descriptors answer is a
      [HostWorld], a function of the number of the question.
    - InterpMachine: the [Machine] of exec.rs with its frames and tables, in a
      monad whose calls keep the state they reached when they fault.
      InterpExec: places, accesses, and a definition per arm of [exec_inst]
      and [exec_intrinsic].  InterpRun: render.rs, terminators, the exit
      sequence, the dispatch loop and the entry points, with sample programs.
      The dispatch loop has fuel; every turn charges a step, and one turn more
      than the step cap is enough ([runs_end]).  The rendering of an error has
      the code's bound on its depth.
    - InterpWp and InterpStep: the fuel inside the float remainder and the
      reduce tree never runs out, a weakest precondition for the monad and the
      relation [evolves] (tables only grow, dead objects stay as
      they are, generations rise, capability cells are fixed, the log gets
      answers to granted questions), kept by every instruction, terminator and
      turn.
    - InterpState: [exclusive_use_revokes] for the borrow stack and
      [meter_is_exact] for the budget.  InterpSafety: [stale_references_trap],
      [freed_objects_stay_dead], and a pointer that escapes the first.
      InterpRuns: [runs_end], [comptime_is_hermetic],
      [host_answers_were_granted], [capabilities_are_unforgeable].
      InterpReplay: a live run and the replay of its log go through the same
      machines but for their oracles ([replay_reproduces_the_run]).
      InterpRecord: the text of a record and its parser, which accepts exactly
      the canonical records ([parse_record_exact]); a live run, written to
      text, parsed and replayed is the same run ([recorded_run_replays]).
      InterpMemory: [memory_stays_well_formed], [load_after_store].

    ** The type universe (crates/fors-fir/src)

    - TyCons: cons.rs, the hash table that maps the key of an entry to its id,
      with open addressing and growth ([lookup_spec], [insert_spec]).
    - TyStore: ty.rs, a [TyStore] with its rows, pools and tables, one
      definition per interning operation; the invariant [store_ok] and the
      judgement [does], a call that keeps it and makes a bounded number of
      entries.
    - TyTerms: the term an id stands for.  [ids_are_types]: equality of ids is
      equality of types, and the flags of a row are those of its term;
      [constructors_mean]: every constructor returns the id of the type it is
      asked for, as long as the columns have fewer than 2^32 - 1 entries.
    - TySubst: subst.rs, bindings and [subst_norm], with the solver of
      projections a parameter; [subst_norm_substitutes]: it is substitution on
      terms.  Ids of components are below the id of a row, so the id is
      enough fuel.  TyMatch: the one-way match; [match_inverts_substitution]:
      without projections it finds the least binding under which substitution
      gives the target, or there is none.
      TyMemo: the memo of substitutions, sound as long as the hashed keys of
      the bindings in use differ ([cached_substitution_agrees]), and
      [first_unbound], which looks 65 levels deep ([first_unbound_exact]).

    ** Layout (crates/fors-layout/src)

    - Layout: layout.rs, ty.rs, target.rs and mono.rs, with a 64-bit host
      [usize] and its saturating arithmetic, then the natural rule in
      unbounded arithmetic, the proof that the code is that rule capped at
      [usize::MAX], the placement of fields and payloads, the discriminant
      codec.

    ** The syntax tree (crates/fors-syntax/src/tree.rs, node_kind.rs, lib.rs)

    - SynTree: the flat pre-order columns with their queries, [reconstruct]
      and [validate].  FmtTree: a tree that [validate] accepts is well nested,
      so that its children lists partition each node's tokens.
    - SynBuilder: [TreeBuilder] on its columns; then what a builder means, a
      stack of open nodes with the finished trees under each, and
      that every operation is the one of that forest.  SynFinish: [finish]
      writes the forest in pre-order, wrappers first ([builder_builds]).

    ** The parser (crates/fors-syntax/src/parser.rs and diag.rs)

    - SynCursor: the state of the parser in a monad with panics and fuel, the
      token cursor, the synchronisation sets, recovery, delimited lists, the
      diagnostics.  SynParse: types, expressions, patterns and statements, a
      definition per production; the productions entered by recursion go
      through one argument, and [production] ties the knot.  SynFile:
      declarations, the file and the entry points.  The loops have the number
      of significant tokens as fuel and the recursion twice the code's own
      bound on nesting.
    - SynSteps: a weakest-precondition calculus on a state of the parser with
      the forest of its builder, and the judgement [runs], which counts the
      nodes and levels a step leaves open.  SynRules: a rule of it per
      construct of the productions, for the loops and for recovery.
      SynWalk and SynDecls: every production, the knot with its fuel
      (twice the levels left, and two) and the file, which leaves one root.
    - SynValid: nested trees pass [validate].  SynTotal: [parse_total], the
      parser ends on every string of bytes; [parse_tree_valid], its tree is
      nested under one root, and [validate] accepts it up to declarations inside
      [Error] nodes; results of the parser that
      its documentation excludes.

    ** The formatter (crates/fors-fmt/src)

    - FmtDoc: doc.rs, the layout operations and their renderer.  FmtDiff:
      diff.rs, the line diff.  FmtEmit: emit.rs, the walk of the tree that
      produces the operations; the emitter is a state in a monad with panics,
      the recursion has the number of nodes as fuel and each loop the number
      of tokens and nodes.
    - FmtEmitSteps and FmtEmitWalk: a weakest-precondition calculus for the
      emitter; its invariant says that the operations so far print exactly the
      tokens before the cursor, each once and in order, with a break after
      each that needs one.  [node_walks]: every production keeps it and ends
      at the end of its node, with the fuel given.
    - FmtDiffProps: [diff_correct], the edits turn the old text into the new
      one, through the furthest points of Myers' search.
    - FmtDocProps: what the renderer prints is the printed texts in order with
      white space between them ([render_laid]).  FmtRelex: the lexer run over
      such a text.  FmtTokens: what may stand side by side, and that the
      guard's table covers it; the rendered text lexes to the tokens printed.
      FmtLexed: what the tokens of a lexed source satisfy.
    - FmtProps: lib.rs, with the self-check; [emit_lossless],
      [format_source_safe], [format_never_bails] (the status the code calls one
      that must never happen happens only when the output is over the lexer's
      size limit) and [same_tokens_exact].

    ** Conventions

    A [w]-bit integer is a [Z]; [wrap w] and [to_signed w] are the casts, and
    a shift or product that can wrap is wrapped where the code computes it.
    Rust's [Result] is [result], with [bind]; a panic is a value of its own
    where the code can panic.  Definitions keep the names of the source, in a
    Module per type where Rust has an [impl].

    ** Not modelled

    Text rendering (display.rs, the statistics table, the witness of a
    non-exhaustive match).  Of the interpreter: the
    memo of comptime results, backtraces, the messages of errors, process
    signals and the sleep of a real clock.  Of the type universe: the
    linearity walks, the digest, the signature and implementation tables.  The other crates: the rest of the
    checker, the tables behind [Fir], the index and its interner behind
    [Names], the encoder, parser and verifier of FMIR, lowering, object files,
    the code generator, the language server.  Query node ids and revisions are
    unbounded: the engine stores 32-bit ids and a 64-bit revision. *)

From Stdlib Require Export ZArith Lia.
From stdpp Require Export base numbers list option strings sets.

#[global] Set Default Goal Selector "!".
#[global] Open Scope Z_scope.

(** ** Fallible code: Rust's [Result] *)

Inductive result (E A : Type) : Type :=
  | Ok (a : A)
  | Err (e : E).
Arguments Ok {E A} a.
Arguments Err {E A} e.

#[export] Instance result_ret {E} : MRet (result E) := λ A a, Ok a.
#[export] Instance result_bind {E} : MBind (result E) := λ A B f r,
  match r with Ok a => f a | Err e => Err e end.
#[export] Instance result_fmap {E} : FMap (result E) := λ A B f r,
  match r with Ok a => Ok (f a) | Err e => Err e end.

(** [if b { return Err(e) }], Rust's early return. *)
Definition fail_if {E} (b : bool) (e : E) : result E unit :=
  if b then Err e else Ok ().

(** [o.ok_or(e)] *)
Definition ok_or {E A} (o : option A) (e : E) : result E A :=
  match o with Some a => Ok a | None => Err e end.

#[export] Instance result_eq_dec {E A} `{EqDecision E, EqDecision A} :
  EqDecision (result E A).
Proof. solve_decision. Defined.

Section result.
Context {E A B : Type}.
Implicit Types (r : result E A) (f : A → result E B).

Lemma bind_Ok r f b : r ≫= f = Ok b ↔ ∃ a, r = Ok a ∧ f a = Ok b.
Proof.
  destruct r as [a|e]; simpl; split.
  - intros H. by exists a.
  - by intros (a' & [= ->] & H).
  - done.
  - by intros (a' & [=] & _).
Qed.

Lemma fail_if_Ok (b : bool) (e : E) u : fail_if b e = Ok u ↔ b = false.
Proof. by destruct b, u. Qed.

Lemma ok_or_Ok (o : option A) (e : E) a : ok_or o e = Ok a ↔ o = Some a.
Proof. destruct o; simpl; split; congruence. Qed.
End result.

(** [inv_ok] turns a hypothesis [c1; c2; .. = Ok i] of a fallible constructor
    into the guards that let it through and the value it built. *)
Ltac inv_ok_step :=
  match goal with
  | H : mbind _ _ = Ok _ |- _ => apply bind_Ok in H as (? & ? & H)
  | H : fail_if _ _ = Ok _ |- _ => apply fail_if_Ok in H
  | H : ok_or _ _ = Ok _ |- _ => apply ok_or_Ok in H
  | H : Ok _ = Ok _ |- _ => injection H as H
  | H : mret _ = Ok _ |- _ => injection H as H
  | H : Err _ = Ok _ |- _ => discriminate H
  end.
Ltac inv_ok := repeat (inv_ok_step; try subst; simpl in * ).

(** ** Calls that may not return

    The three ways a call of the model ends: out of fuel (the model's bound on
    a recursion), a panic of the code, or a result. *)
Inductive res (A : Type) : Type := OutOfFuel | Panic | Done (a : A).
Arguments OutOfFuel {A}.
Arguments Panic {A}.
Arguments Done {A} a.
#[export] Instance res_ret : MRet res := λ A a, Done a.
#[export] Instance res_bind : MBind res := λ A B f r,
  match r with Done a => f a | Panic => Panic | OutOfFuel => OutOfFuel end.

#[export] Instance res_fmap : FMap res := λ A B f r,
  match r with Done a => Done (f a) | Panic => Panic | OutOfFuel => OutOfFuel end.

(** [xs[i]], which panics out of range. *)
Definition get_ix {A} (o : option A) : res A :=
  match o with Some a => Done a | None => Panic end.

Lemma bind_Done {A B} (r : res A) (f : A → res B) b :
  r ≫= f = Done b ↔ ∃ a, r = Done a ∧ f a = Done b.
Proof.
  destruct r as [| |a]; simpl; split; try done.
  - by intros (a & [=] & _).
  - by intros (a & [=] & _).
  - intros H. by exists a.
  - by intros (a' & [= ->] & H).
Qed.

(** ** Machine integers

    A [w]-bit integer is a [Z]; [wrap] is the cast to the unsigned type of
    width [w], [to_signed] the cast to the signed one. *)

Definition wrap (w x : Z) : Z := x mod 2 ^ w.

Definition to_signed (w x : Z) : Z :=
  let y := wrap w x in
  if y <? 2 ^ (w - 1) then y else y - 2 ^ w.

Definition unsigned (w x : Z) : Prop := 0 ≤ x < 2 ^ w.
Definition signed (w x : Z) : Prop := - 2 ^ (w - 1) ≤ x < 2 ^ (w - 1).

#[export] Instance unsigned_dec w x : Decision (unsigned w x).
Proof. unfold unsigned. apply _. Defined.
#[export] Instance signed_dec w x : Decision (signed w x).
Proof. unfold signed. apply _. Defined.

(** Rust's [x << k] and [x | y] on [u32]. *)
Definition shl32 (x k : Z) : Z := wrap 32 (Z.shiftl x k).

Declare Scope u32_scope.
Delimit Scope u32_scope with u32.
Infix "<<" := shl32 (at level 35) : u32_scope.
Infix ".|" := Z.lor (at level 50, left associativity) : u32_scope.

(** [bool as u32] *)
Definition b2z (b : bool) : Z := if b then 1 else 0.

Section words.
Context (w : Z) (Hw : 0 < w).
Implicit Types x : Z.

Lemma pow2_pos n : 0 ≤ n → 0 < 2 ^ n.
Proof. intros. apply Z.pow_pos_nonneg; lia. Qed.

Lemma pow2_half : 2 ^ w = 2 * 2 ^ (w - 1).
Proof using Hw. rewrite <- Z.pow_succ_r by lia. f_equal. lia. Qed.

Lemma wrap_range x : unsigned w (wrap w x).
Proof using Hw. apply Z.mod_pos_bound, pow2_pos. lia. Qed.

Lemma wrap_small x : unsigned w x → wrap w x = x.
Proof. apply Z.mod_small. Qed.

Lemma wrap_idem x : wrap w (wrap w x) = wrap w x.
Proof. apply Zmod_mod. Qed.

Lemma to_signed_range x : signed w (to_signed w x).
Proof using Hw.
  pose proof (wrap_range x) as Hx. pose proof pow2_half as Hp.
  unfold to_signed, signed, unsigned in *. case_match; lia.
Qed.

Lemma to_signed_small x : signed w x → to_signed w x = x.
Proof using Hw.
  unfold to_signed, wrap, signed. intros Hx. pose proof pow2_half as Hp.
  destruct (decide (0 ≤ x)).
  - rewrite Z.mod_small by lia. case_match; lia.
  - rewrite <- (Z.mod_unique x (2 ^ w) (-1) (x + 2 ^ w)) by lia.
    case_match; lia.
Qed.

Lemma wrap_to_signed x : wrap w (to_signed w x) = wrap w x.
Proof using Hw.
  unfold to_signed. case_match; [apply wrap_idem|].
  unfold wrap. rewrite Zminus_mod, Z_mod_same_full, Z.sub_0_r, !Zmod_mod. done.
Qed.

Lemma to_signed_wrap x : to_signed w (wrap w x) = to_signed w x.
Proof using Hw. unfold to_signed. by rewrite wrap_idem. Qed.

Lemma to_signed_wrap_small x : signed w x → to_signed w (wrap w x) = x.
Proof using Hw. intros. rewrite to_signed_wrap. by apply to_signed_small. Qed.
End words.

Lemma shl32_small x k :
  0 ≤ k ≤ 32 → unsigned (32 - k) x → shl32 x k = Z.shiftl x k.
Proof.
  intros Hk Hx. unfold shl32. apply wrap_small. unfold unsigned in *.
  rewrite Z.shiftl_mul_pow2 by lia.
  pose proof (pow2_pos k ltac:(lia)).
  replace (2 ^ 32) with (2 ^ (32 - k) * 2 ^ k) by (rewrite <- Z.pow_add_r by lia; f_equal; lia).
  nia.
Qed.

Lemma unsigned_weaken w w' x : 0 ≤ w ≤ w' → unsigned w x → unsigned w' x.
Proof.
  unfold unsigned. intros Hw [??].
  pose proof (Z.pow_le_mono_r 2 w w'). lia.
Qed.

Lemma b2z_unsigned w b : 0 < w → unsigned w (b2z b).
Proof.
  intros. apply (unsigned_weaken 1); [lia|].
  unfold unsigned. destruct b; simpl; lia.
Qed.

Lemma land_mask_unsigned w x m :
  0 ≤ w → m = Z.ones w → unsigned w (Z.land x m).
Proof.
  intros Hw ->. rewrite Z.land_ones by lia.
  apply Z.mod_pos_bound, pow2_pos. lia.
Qed.

Lemma lor_unsigned w x y :
  0 ≤ w → unsigned w x → unsigned w y → unsigned w (Z.lor x y).
Proof.
  unfold unsigned. intros Hw [??] [??].
  split; [by apply Z.lor_nonneg|].
  destruct (decide (x = 0)) as [->|]; [by rewrite Z.lor_0_l|].
  destruct (decide (y = 0)) as [->|]; [by rewrite Z.lor_0_r|].
  assert (Z.lor x y ≠ 0) by (intros [-> _]%Z.lor_eq_0_iff; done).
  assert (0 ≤ Z.lor x y) by (by apply Z.lor_nonneg).
  apply Z.log2_lt_pow2; [lia|]. rewrite Z.log2_lor by lia.
  apply Z.max_lub_lt; apply Z.log2_lt_pow2; lia.
Qed.

(** Concatenation of a high part and a [k]-bit low part. *)
Lemma lor_shiftl_add x y k : 0 ≤ k → unsigned k y → Z.lor (Z.shiftl x k) y = x * 2 ^ k + y.
Proof.
  intros Hk Hy. rewrite <- Z.shiftl_mul_pow2 by done.
  assert (Z.land (Z.shiftl x k) y = 0) as Hdisj.
  { apply Z.bits_inj'. intros n Hn.
    rewrite Z.land_spec, Z.shiftl_spec, Z.bits_0 by done.
    destruct (Z.ltb_spec n k); [by rewrite Z.testbit_neg_r by lia|].
    unfold unsigned in Hy. rewrite <- (Z.mod_small y (2 ^ k)) by done.
    rewrite Z.mod_pow2_bits_high by lia. apply andb_false_r. }
  by rewrite <- Z.lxor_lor, Z.add_nocarry_lxor by done.
Qed.

(** A signed field: the low [w] bits of a two's-complement [i32]. *)
Lemma signed_field w x m :
  0 < w ≤ 32 → m = Z.ones w → signed w x →
  unsigned w (Z.land (wrap 32 x) m) ∧ to_signed w (Z.land (wrap 32 x) m) = x.
Proof.
  intros Hw -> Hx. rewrite Z.land_ones by lia.
  assert (wrap 32 x mod 2 ^ w = wrap w x) as ->.
  { unfold wrap. apply Z.mod_mod_divide. exists (2 ^ (32 - w)).
    rewrite <- Z.pow_add_r by lia. f_equal. lia. }
  split; [apply wrap_range; lia|apply to_signed_wrap_small; [lia|done]].
Qed.

Create HintDb words.
#[export] Hint Resolve wrap_range to_signed_range b2z_unsigned : words.
#[export] Hint Extern 1 (_ ≤ _) => lia : words.
#[export] Hint Extern 1 (_ < _) => lia : words.

(** ** Lists *)

Lemma find_Some_elem {A} (p : A → bool) l x :
  List.find p l = Some x → x ∈ l ∧ p x = true.
Proof.
  intros [Hin Hp]%List.find_some. split; [by apply list_elem_of_In|done].
Qed.

Lemma find_None_elem {A} (p : A → bool) l :
  List.find p l = None ↔ ∀ x, x ∈ l → p x = false.
Proof.
  split.
  - intros H x Hx%list_elem_of_In. by eapply List.find_none.
  - intros H. destruct (List.find p l) eqn:E; [|done].
    apply find_Some_elem in E as [? ?]. naive_solver congruence.
Qed.

Lemma elem_of_seqZ_range m n k : k ∈ seqZ m n ↔ m ≤ k < m + n.
Proof. apply elem_of_seqZ. Qed.

(** The numbers [0 .. 2^w - 1]: an exhaustive check over them is a proof
    about every [w]-bit field. *)
Lemma forallb_seqZ (p : Z → bool) m n :
  forallb p (seqZ m n) = true → ∀ k, m ≤ k < m + n → p k = true.
Proof.
  rewrite forallb_forall. intros H k Hk. apply H.
  apply list_elem_of_In, elem_of_seqZ. done.
Qed.
