(* ===== verification/AsmReg.v ===== *)
(** * Register operands and encoding errors

    Models [src/crates/fors-asm/src/reg.rs] and [error.rs]: a general-purpose
    register carries its number, its width and which of the two meanings of
    number 31 (stack pointer or zero register) it stands for.  The panicking
    constructors [Reg::x], [Reg::w], [FpReg::s], [FpReg::d] return [None]
    where the code's [assert!] fails. *)

From S2P Require Import Prelude.

(** [EncodeError], error.rs. *)
Inductive EncodeError : Type :=
  | ImmediateOutOfRange (what : string) (value : Z)
  | UnencodableLogicalImmediate (value : Z) (is64 : bool)
  | MisalignedOffset (what : string) (value : Z)
  | InvalidShiftForForm (what : string)
  | RegisterWidthMismatch (what : string)
  | InvalidRegisterForForm (what : string).

#[global] Instance EncodeError_eq_dec : EqDecision EncodeError.
Proof. solve_decision. Defined.

(** ** General-purpose registers *)

Module Reg.
(** [num] 0-31; [sp] is the code's [is_sp] field, meaningful for 31 only. *)
Record Reg : Type := mk { num : Z; is64 : bool; sp : bool }.

#[global] Instance Reg_eq_dec : EqDecision Reg.
Proof. solve_decision. Defined.

Definition x (n : Z) : option Reg :=
  if n <=? 30 then Some (mk n true false) else None.
Definition w (n : Z) : option Reg :=
  if n <=? 30 then Some (mk n false false) else None.
Definition sp_ : Reg := mk 31 true true.
Definition wsp : Reg := mk 31 false true.
Definition xzr : Reg := mk 31 true false.
Definition wzr : Reg := mk 31 false false.

Definition is_sp (r : Reg) : bool := (num r =? 31) && sp r.
Definition is_zr (r : Reg) : bool := (num r =? 31) && negb (sp r).
Definition encoding (r : Reg) : Z := num r.
Definition with64 (r : Reg) (b : bool) : Reg := mk (num r) b (sp r).

(** What every register built through the constructors satisfies. *)
Definition wf (r : Reg) : Prop :=
  0 ≤ num r ≤ 31 ∧ (num r ≠ 31 → sp r = false).

(** The architectural register an operand field denotes: its number and
    width, the meaning of 31 forgotten. *)
Definition erase (r : Reg) : Reg := mk (num r) (is64 r) false.

#[global] Instance wf_dec r : Decision (wf r).
Proof. unfold wf. apply _. Defined.

Lemma Reg_x_wf n r : 0 ≤ n → x n = Some r → wf r.
Proof. unfold x, wf. intros. case_match; simplify_eq/=. split; [lia|done]. Qed.
Lemma Reg_w_wf n r : 0 ≤ n → w n = Some r → wf r.
Proof. unfold w, wf. intros. case_match; simplify_eq/=. split; [lia|done]. Qed.
Lemma Reg_wf_31 b s : wf (mk 31 b s).
Proof. split; simpl; [lia|done]. Qed.
Lemma Reg_with64_wf r b : wf r → wf (with64 r b).
Proof. done. Qed.

Lemma Reg_encoding_unsigned r : wf r → unsigned 5 (encoding r).
Proof. unfold wf, unsigned, encoding. lia. Qed.

(** The two meanings of 31 are exclusive and cover it. *)
Lemma Reg_is_sp_xor_is_zr r : num r = 31 → is_zr r = negb (is_sp r).
Proof. unfold is_sp, is_zr. intros ->. done. Qed.

Lemma Reg_eq_erase r r' :
  wf r → wf r' → erase r = erase r' → is_sp r = is_sp r' → r = r'.
Proof.
  destruct r as [n b s], r' as [n' b' s']; unfold wf, erase, is_sp; simpl.
  intros [_ H1] [_ H2] [= -> ->] Hsp. f_equal.
  destruct (Z.eqb_spec n' 31); simpl in Hsp; [done|].
  by rewrite H1, H2.
Qed.
End Reg.
Abbreviation Reg := Reg.Reg.

(** The zero register of [r]'s width: the [if r.is64() { xzr } else { wzr }]
    the alias constructors share. *)
Definition zr_like (r : Reg) : Reg := if Reg.is64 r then Reg.xzr else Reg.wzr.

Lemma zr_like_wf r : Reg.wf (zr_like r).
Proof. unfold zr_like. case_match; apply Reg.Reg_wf_31. Qed.
Lemma zr_like_is64 r : Reg.is64 (zr_like r) = Reg.is64 r.
Proof. unfold zr_like. by case_match. Qed.
Lemma zr_like_is_sp r : Reg.is_sp (zr_like r) = false.
Proof. unfold zr_like. by case_match. Qed.

(** ** Scalar floating-point registers *)

Inductive FpWidth : Type := FpS | FpD.

#[global] Instance FpWidth_eq_dec : EqDecision FpWidth.
Proof. solve_decision. Defined.

Module FpReg.
Record FpReg : Type := mk { num : Z; width : FpWidth }.

#[global] Instance FpReg_eq_dec : EqDecision FpReg.
Proof. solve_decision. Defined.

Definition s (n : Z) : option FpReg := if n <=? 31 then Some (mk n FpS) else None.
Definition d (n : Z) : option FpReg := if n <=? 31 then Some (mk n FpD) else None.
Definition is_double (r : FpReg) : bool :=
  match width r with FpD => true | FpS => false end.
Definition encoding (r : FpReg) : Z := num r.
Definition with_width (r : FpReg) (w : FpWidth) : FpReg := mk (num r) w.

Definition wf (r : FpReg) : Prop := 0 ≤ num r ≤ 31.
#[global] Instance wf_dec r : Decision (wf r).
Proof. unfold wf. apply _. Defined.

(** [FpReg] from its number and [is_double]. *)
Definition of_bits (n : Z) (dbl : bool) : FpReg := mk n (if dbl then FpD else FpS).

Lemma FpReg_of_bits_id r : of_bits (encoding r) (is_double r) = r.
Proof. by destruct r as [? []]. Qed.
Lemma FpReg_encoding_unsigned r : wf r → unsigned 5 (encoding r).
Proof. unfold wf, unsigned, encoding. lia. Qed.
End FpReg.
Abbreviation FpReg := FpReg.FpReg.

#[export] Hint Resolve Reg.Reg_encoding_unsigned FpReg.FpReg_encoding_unsigned
  Reg.Reg_x_wf Reg.Reg_w_wf Reg.Reg_wf_31 Reg.Reg_with64_wf zr_like_wf : words.
