(* ===== verification/AsmBitmask.v ===== *)
(** * AArch64 bitmask immediates

    Models [src/crates/fors-asm/src/bitmask.rs]: [decode_bitmask], a
    transcription of the architecture's DecodeBitMasks, and [encode_bitmask],
    the search that inverts it.  [u64] and [u32] values are [Z]s; each shift
    that can push bits out of the word is wrapped. *)

From S2P Require Import Prelude.

Definition u64_max : Z := 2 ^ 64 - 1.

(** [x << k] on [u64] for [k < 64]. *)
Definition shl64 (x k : Z) : Z := wrap 64 (Z.shiftl x k).

Definition ror (x amount width : Z) : Z :=
  let mask := if width =? 64 then u64_max else shl64 1 width - 1 in
  let x := Z.land x mask in
  let amount := amount mod width in
  if amount =? 0 then x
  else Z.lor (Z.shiftr x amount) (Z.land (shl64 x (width - amount)) mask).

(** The [while filled < total] loop; [fuel] bounds its doublings. *)
Fixpoint replicate_loop (fuel : nat) (result filled total : Z) : Z :=
  match fuel with
  | O => result
  | S fuel =>
      if filled <? total
      then replicate_loop fuel (Z.lor result (shl64 result filled)) (filled * 2) total
      else result
  end.

(** Six doublings take any width of at least 1 past 63 bits. *)
Definition replicate_fuel : nat := 6.

Definition replicate (pattern width total : Z) : Z :=
  let result := replicate_loop replicate_fuel pattern width total in
  if total =? 64 then result else Z.land result (shl64 1 total - 1).

Definition decode_bitmask (n immr imms reg_size : Z) : option Z :=
  let n := Z.land n 1 in
  let immr := Z.land immr 0x3f in
  let imms := Z.land imms 0x3f in
  let concat := Z.lor (shl32 n 6) (Z.land (wrap 32 (Z.lnot imms)) 0x3f) in
  if concat =? 0 then None else
  (* 31 - leading_zeros of a nonzero u32 *)
  let len := Z.log2 concat in
  if len <? 1 then None else
  let size := shl32 1 len in
  if reg_size <? size then None else
  let levels := size - 1 in
  let s := Z.land imms levels in
  let r := Z.land immr levels in
  if s =? levels then None else
  let welem := shl64 1 (s + 1) - 1 in
  let telem := ror welem r size in
  Some (replicate telem size reg_size).

(** The [(n, immr, imms)] triples in the order the nested loops try them. *)
Definition candidates (reg_size : Z) : list (Z * Z * Z) :=
  let n_choices := if reg_size =? 64 then [1; 0] else [0] in
  n ← n_choices; immr ← seqZ 0 64; imms ← seqZ 0 64; [(n, immr, imms)].

Definition encode_bitmask (value reg_size : Z) : option (Z * Z * Z) :=
  let all_ones := if reg_size =? 64 then u64_max else shl64 1 reg_size - 1 in
  if (value =? 0) || (value =? all_ones) then None
  else List.find
         (λ '(n, immr, imms), bool_decide (decode_bitmask n immr imms reg_size = Some value))
         (candidates reg_size).

Example encode_single_bit : encode_bitmask 1 64 = Some (1, 0, 0).
Proof. reflexivity. Qed.
Example encode_alternating :
  encode_bitmask 0x55555555 32 = Some (0, 0, 60).
Proof. vm_compute. reflexivity. Qed.


(** ** Bit-level meaning *)

(** Prelude-style facts about single bits of a bounded word. *)
Lemma testbit_above w x j : unsigned w x → w ≤ j → Z.testbit x j = false.
Proof.
  intros [Hx Hx'] Hj. destruct (decide (x = 0)) as [->|]; [apply Z.bits_0|].
  destruct (decide (w < 0)); [rewrite Z.pow_neg_r in Hx' by lia; lia|].
  apply Z.bits_above_log2; [done|].
  apply Z.lt_le_trans with w; [|done]. apply Z.log2_lt_pow2; lia.
Qed.

Lemma wrap_testbit w x j :
  0 ≤ w → 0 ≤ j → Z.testbit (wrap w x) j = (j <? w) && Z.testbit x j.
Proof.
  intros Hw Hj. unfold wrap. destruct (Z.ltb_spec j w).
  - by rewrite Z.mod_pow2_bits_low.
  - by rewrite Z.mod_pow2_bits_high by lia.
Qed.

Lemma shl64_testbit x k j :
  0 ≤ j → Z.testbit (shl64 x k) j = (j <? 64) && Z.testbit x (j - k).
Proof.
  intros. unfold shl64. rewrite wrap_testbit by lia. f_equal.
  by apply Z.shiftl_spec.
Qed.

Lemma ones_testbit w j : 0 ≤ w → 0 ≤ j → Z.testbit (Z.ones w) j = (j <? w).
Proof.
  intros. destruct (Z.ltb_spec j w).
  - by rewrite Z.ones_spec_low by lia.
  - by rewrite Z.ones_spec_high by lia.
Qed.

(** Every mask of the file, [u64::MAX] included, is a run of ones. *)
Lemma shl64_ones w : 0 ≤ w < 64 → shl64 1 w - 1 = Z.ones w.
Proof.
  intros Hw. unfold shl64. rewrite Z.shiftl_1_l, wrap_small, Z.ones_equiv; [lia|].
  split; [pose proof (pow2_pos w); lia|]. apply Z.pow_lt_mono_r; lia.
Qed.
Lemma mask_ones w :
  0 ≤ w ≤ 64 → (if w =? 64 then u64_max else shl64 1 w - 1) = Z.ones w.
Proof.
  intros. destruct (Z.eqb_spec w 64) as [->|]; [done|]. apply shl64_ones. lia.
Qed.

(** [ror] rotates: bit [j] of the result is bit [j + amount] of the operand,
    counted round a ring of [width] bits. *)
Lemma ror_testbit x amount width j :
  2 ≤ width ≤ 64 → unsigned width x → 0 ≤ j < width →
  Z.testbit (ror x amount width) j = Z.testbit x ((j + amount) mod width).
Proof.
  intros Hw Hx Hj. unfold ror. rewrite mask_ones by lia.
  rewrite (Z.land_ones x), (Z.mod_small x) by (unfold unsigned in Hx; lia).
  pose proof (Z.mod_pos_bound amount width ltac:(lia)) as Ha.
  rewrite <- Zplus_mod_idemp_r. set (a := amount mod width) in *.
  destruct (Z.eqb_spec a 0) as [->|].
  { by rewrite Z.add_0_r, Z.mod_small by lia. }
  rewrite Z.lor_spec, Z.shiftr_spec, Z.land_spec, shl64_testbit, ones_testbit by lia.
  rewrite (proj2 (Z.ltb_lt j 64)), (proj2 (Z.ltb_lt j width)), andb_true_r by lia.
  simpl. destruct (decide (j + a < width)).
  - rewrite Z.mod_small by lia.
    rewrite (Z.testbit_neg_r x (j - (width - a))) by lia. apply orb_false_r.
  - rewrite (testbit_above width x (j + a)) by (done || lia). simpl. f_equal.
    apply (Z.mod_unique _ _ 1); lia.
Qed.

(** The tiling loop keeps [result] a [filled]-bit periodic copy of the
    pattern; [filled] doubles, so [fuel] steps reach [filled * 2 ^ fuel]. *)
Lemma replicate_loop_testbit fuel pattern width total result filled :
  0 < width → 0 < filled → (width | filled) → total ≤ 64 →
  total ≤ filled * 2 ^ Z.of_nat fuel →
  (∀ j, 0 ≤ j < 64 →
    Z.testbit result j = (j <? filled) && Z.testbit pattern (j mod width)) →
  ∀ j, 0 ≤ j < total →
    Z.testbit (replicate_loop fuel result filled total) j
    = Z.testbit pattern (j mod width).
Proof.
  revert result filled.
  induction fuel as [|fuel IH]; intros result filled Hw Hf Hdiv Htot Hfuel Hres j Hj; simpl.
  { rewrite Hres by lia. by rewrite (proj2 (Z.ltb_lt j filled)) by (simpl in Hfuel; lia). }
  destruct (Z.ltb_spec filled total).
  2:{ rewrite Hres by lia. by rewrite (proj2 (Z.ltb_lt j filled)) by lia. }
  apply IH; [done|lia|by apply Z.divide_mul_l|done| |..|done].
  { rewrite Nat2Z.inj_succ, Z.pow_succ_r in Hfuel by lia. lia. }
  intros i Hi. rewrite Z.lor_spec, shl64_testbit, Hres by lia.
  rewrite (proj2 (Z.ltb_lt i 64)) by lia. simpl.
  destruct (Z.ltb_spec i filled).
  - rewrite (proj2 (Z.ltb_lt i (filled * 2))), (Z.testbit_neg_r result) by lia.
    simpl. apply orb_false_r.
  - simpl. rewrite Hres by lia. destruct Hdiv as [k ->].
    rewrite <- (Z_mod_plus_full (i - k * width) k width).
    replace (i - k * width + k * width) with i by lia.
    f_equal.
    destruct (Z.ltb_spec (i - k * width) (k * width)), (Z.ltb_spec i (k * width * 2));
      done || lia.
Qed.

Lemma replicate_testbit pattern width total j :
  2 ≤ width → width ≤ total ≤ 64 → unsigned width pattern → 0 ≤ j < total →
  Z.testbit (replicate pattern width total) j = Z.testbit pattern (j mod width).
Proof.
  intros Hw Ht Hp Hj. unfold replicate.
  assert (Z.testbit (replicate_loop replicate_fuel pattern width total) j
          = Z.testbit pattern (j mod width)) as Hloop.
  { apply replicate_loop_testbit; [lia|lia|done|lia|unfold replicate_fuel; lia| |done].
    intros i Hi. destruct (Z.ltb_spec i width); simpl.
    - by rewrite Z.mod_small by lia.
    - by apply (testbit_above width). }
  destruct (Z.eqb_spec total 64); [done|].
  rewrite shl64_ones by lia.
  by rewrite Z.land_spec, ones_testbit, (proj2 (Z.ltb_lt j total)), andb_true_r by lia.
Qed.

Lemma replicate_loop_unsigned fuel result filled total :
  unsigned 64 result → unsigned 64 (replicate_loop fuel result filled total).
Proof.
  revert result filled. induction fuel as [|fuel IH]; intros result filled Hr; simpl; [done|].
  case_match; [|done]. apply IH, lor_unsigned; [lia|done|apply wrap_range; lia].
Qed.

Lemma replicate_unsigned pattern width total :
  0 ≤ total ≤ 64 → unsigned 64 pattern → unsigned total (replicate pattern width total).
Proof.
  intros Ht Hp. unfold replicate.
  destruct (Z.eqb_spec total 64) as [->|]; [by apply replicate_loop_unsigned|].
  apply land_mask_unsigned; [lia|]. apply shl64_ones. lia.
Qed.

Lemma ror_unsigned x amount width :
  2 ≤ width ≤ 64 → unsigned width x → unsigned width (ror x amount width).
Proof.
  intros Hw Hx. unfold ror. rewrite mask_ones by lia.
  assert (unsigned width (Z.land x (Z.ones width))) as Hm
    by (by apply land_mask_unsigned; [lia|]).
  pose proof (Z.mod_pos_bound amount width ltac:(lia)) as Ha.
  case_match; [done|].
  apply lor_unsigned; [lia| |by apply land_mask_unsigned; [lia|]].
  unfold unsigned in *. pose proof (pow2_pos (amount mod width) ltac:(lia)).
  rewrite Z.shiftr_div_pow2 by lia. split; [apply Z.div_pos; lia|].
  apply Z.div_lt_upper_bound; [lia|]. nia.
Qed.

(** The seven-bit concatenation [N:NOT(imms)]. *)
Definition concat_field (n imms : Z) : Z := n mod 2 * 64 + (63 - imms mod 64).

Lemma concat_field_eq n imms :
  Z.lor (shl32 (Z.land n 1) 6) (Z.land (wrap 32 (Z.lnot (Z.land imms 0x3f))) 0x3f)
  = concat_field n imms.
Proof.
  unfold concat_field.
  change 1 with (Z.ones 1). change 0x3f with (Z.ones 6) at 1.
  rewrite !Z.land_ones by lia. change (2 ^ 1) with 2. change (2 ^ 6) with 64.
  pose proof (Z.mod_pos_bound n 2 ltac:(lia)).
  pose proof (Z.mod_pos_bound imms 64 ltac:(lia)).
  set (p := λ n', forallb (λ s,
    Z.lor (shl32 n' 6) (Z.land (wrap 32 (Z.lnot s)) 0x3f) =? n' * 64 + (63 - s))
    (seqZ 0 64)).
  assert (forallb p (seqZ 0 2) = true) as Hp by (vm_compute; done).
  pose proof (forallb_seqZ _ _ _ Hp (n mod 2) ltac:(lia)) as Hn.
  by apply Z.eqb_eq, (forallb_seqZ _ _ _ Hn (imms mod 64) ltac:(lia)).
Qed.

(** What a triple decodes to, read off the fields: the element size, and the
    run of [s + 1] ones rotated right by [r] within each element. *)
Definition element_len (n imms : Z) : Z := Z.log2 (concat_field n imms).

Lemma concat_field_bounds n imms : 0 ≤ concat_field n imms < 2 ^ 7.
Proof.
  unfold concat_field. pose proof (Z.mod_pos_bound n 2 ltac:(lia)).
  pose proof (Z.mod_pos_bound imms 64 ltac:(lia)). lia.
Qed.

Lemma element_len_le n imms : element_len n imms ≤ 6.
Proof.
  unfold element_len. pose proof (concat_field_bounds n imms).
  destruct (decide (concat_field n imms = 0)) as [->|]; [done|].
  apply Z.lt_succ_r, Z.log2_lt_pow2; lia.
Qed.

(** [decode_bitmask] with its masks read as remainders. *)
Lemma decode_bitmask_eq n immr imms reg_size :
  decode_bitmask n immr imms reg_size =
  let len := element_len n imms in
  let size := 2 ^ len in
  if decide (concat_field n imms ≠ 0 ∧ 1 ≤ len ∧ size ≤ reg_size ∧ imms mod size ≠ size - 1)
  then Some (replicate (ror (shl64 1 (imms mod size + 1) - 1) (immr mod size) size) size reg_size)
  else None.
Proof.
  unfold decode_bitmask. rewrite concat_field_eq. fold (element_len n imms). cbv zeta.
  pose proof (element_len_le n imms) as Hlen. set (len := element_len n imms) in *.
  destruct (Z.eqb_spec (concat_field n imms) 0) as [H0|H0]; [case_decide; [lia|done]|].
  destruct (Z.ltb_spec len 1) as [H1|H1]; [case_decide; [lia|done]|].
  assert (shl32 1 len = 2 ^ len) as ->.
  { unfold shl32. rewrite Z.shiftl_1_l, wrap_small; [done|].
    split; [pose proof (pow2_pos len); lia|]. apply Z.pow_lt_mono_r; lia. }
  destruct (Z.ltb_spec reg_size (2 ^ len)) as [H2|H2]; [case_decide; [lia|done]|].
  replace (2 ^ len - 1) with (Z.ones len) by (rewrite Z.ones_equiv; lia).
  rewrite !Z.land_ones by lia. rewrite <- (Z.ones_equiv 6 : Z.ones 6 = 63).
  rewrite !Z.land_ones by lia.
  assert (∀ x, (x mod 2 ^ 6) mod 2 ^ len = x mod 2 ^ len) as Hmod.
  { intros x. apply Z.mod_mod_divide.
    exists (2 ^ (6 - len)). rewrite <- Z.pow_add_r by lia. f_equal. lia. }
  rewrite !Hmod. destruct (Z.eqb_spec (imms mod 2 ^ len) (Z.ones len)) as [H3|H3];
    case_decide; try done; rewrite ?Z.ones_equiv in *; lia.
Qed.

Lemma decode_bitmask_inv n immr imms reg_size v :
  decode_bitmask n immr imms reg_size = Some v →
  let len := element_len n imms in
  let size := 2 ^ len in
  1 ≤ len ≤ 6 ∧ size ≤ reg_size ∧ imms mod size < size - 1 ∧
  v = replicate (ror (shl64 1 (imms mod size + 1) - 1) (immr mod size) size) size reg_size.
Proof.
  rewrite decode_bitmask_eq. cbv zeta. case_decide as H; [|done].
  destruct H as (_ & ? & ? & ?). intros [= <-].
  pose proof (element_len_le n imms).
  pose proof (Z.mod_pos_bound imms (2 ^ element_len n imms) ltac:(apply pow2_pos; lia)).
  split_and!; done || lia.
Qed.

(** ** The architecture's patterns *)

(** [v] repeats, over [reg_size] bits, an element of [2 ^ len] bits in which
    the [k + 1] low ones are rotated right by [r]. *)
Definition bitmask_pattern (reg_size v len k r : Z) : Prop :=
  1 ≤ len ≤ 6 ∧ 2 ^ len ≤ reg_size ∧ 0 ≤ k < 2 ^ len - 1 ∧ 0 ≤ r < 2 ^ len ∧
  unsigned reg_size v ∧
  ∀ j, 0 ≤ j < reg_size → Z.testbit v j = ((j mod 2 ^ len + r) mod 2 ^ len <=? k).

(** ** Properties *)

Lemma decode_bitmask_pattern n immr imms reg_size v :
  reg_size = 32 ∨ reg_size = 64 →
  decode_bitmask n immr imms reg_size = Some v →
  let len := element_len n imms in
  bitmask_pattern reg_size v len (imms mod 2 ^ len) (immr mod 2 ^ len).
Proof.
  intros Hsz Hd. apply decode_bitmask_inv in Hd as (Hlen & Hle & Hs & ->).
  unfold bitmask_pattern. set (len := element_len n imms) in *. set (size := 2 ^ len) in *.
  assert (2 ^ 1 ≤ size) by (apply Z.pow_le_mono_r; lia).
  pose proof (Z.mod_pos_bound imms size ltac:(lia)) as Hi.
  pose proof (Z.mod_pos_bound immr size ltac:(lia)) as Hr.
  rewrite shl64_ones by lia. set (k := imms mod size) in *.
  assert (unsigned size (Z.ones (k + 1))) as Hu.
  { apply (unsigned_weaken (k + 1)); [lia|]. unfold unsigned.
    rewrite Z.ones_equiv. pose proof (pow2_pos (k + 1)). lia. }
  assert (unsigned size (ror (Z.ones (k + 1)) (immr mod size) size)) as Hror
    by (apply ror_unsigned; [lia|done]).
  split; [lia|]. split; [lia|]. split; [lia|]. split; [lia|]. split.
  - apply replicate_unsigned; [lia|]. apply (unsigned_weaken size); [lia|done].
  - intros j Hj. pose proof (Z.mod_pos_bound j size ltac:(lia)).
    rewrite replicate_testbit, ror_testbit, ones_testbit;
      try first [done | lia | apply Z.mod_pos_bound; lia].
Qed.

(** An all-zeros or all-ones word is no triple's pattern. *)
Lemma decode_bitmask_mixed n immr imms reg_size v :
  reg_size = 32 ∨ reg_size = 64 →
  decode_bitmask n immr imms reg_size = Some v → v ≠ 0 ∧ v ≠ Z.ones reg_size.
Proof.
  intros Hsz Hd.
  apply decode_bitmask_pattern in Hd as (Hlen & Hle & Hs & Hr & _ & Hbits); [|done].
  set (size := 2 ^ element_len n imms) in *. assert (2 ^ 1 ≤ size) by (apply Z.pow_le_mono_r; lia).
  assert (∀ p, 0 ≤ p < size → ∃ j, 0 ≤ j < reg_size ∧ Z.testbit v j = (p <=? imms mod size))
    as Hex.
  { intros p Hp. exists ((p - immr mod size) mod size).
    pose proof (Z.mod_pos_bound (p - immr mod size) size ltac:(lia)).
    split; [lia|]. rewrite Hbits by lia. f_equal.
    rewrite Zmod_mod, Zplus_mod_idemp_l. replace (p - _ + _) with p by lia.
    by apply Z.mod_small. }
  split; intros ->.
  - destruct (Hex 0) as (j & Hj & Hb); [lia|].
    rewrite Z.bits_0 in Hb. symmetry in Hb. apply Z.leb_gt in Hb. lia.
  - destruct (Hex (size - 1)) as (j & Hj & Hb); [lia|].
    rewrite ones_testbit, (proj2 (Z.ltb_lt _ _)) in Hb by lia.
    symmetry in Hb. apply Z.leb_le in Hb. lia.
Qed.

Ltac elem_of_In := rewrite list_elem_of_In in *; simpl in *; lia.
Lemma elem_of_candidates n immr imms reg_size :
  (n, immr, imms) ∈ candidates reg_size ↔
  (n = 0 ∨ n = 1 ∧ reg_size = 64) ∧ 0 ≤ immr < 64 ∧ 0 ≤ imms < 64.
Proof.
  unfold candidates. rewrite list_elem_of_bind. split.
  - intros (n' & Hin & Hn).
    apply list_elem_of_bind in Hin as (r & Hin & Hr%elem_of_seqZ).
    apply list_elem_of_bind in Hin as (s & [= -> -> ->]%list_elem_of_singleton & Hs%elem_of_seqZ).
    split; [clear Hr Hs|lia]. destruct (Z.eqb_spec reg_size 64); elem_of_In.
  - intros (Hn & Hr & Hs). exists n. split.
    + apply list_elem_of_bind. exists immr. split; [|apply elem_of_seqZ; lia].
      apply list_elem_of_bind. exists imms. split; [by apply list_elem_of_singleton|apply elem_of_seqZ; lia].
    + clear Hr Hs. destruct (Z.eqb_spec reg_size 64); elem_of_In.
Qed.

(** [decode_bitmask] looks at the low bits of its fields only. *)
Lemma decode_bitmask_mask n immr imms reg_size :
  decode_bitmask n immr imms reg_size
  = decode_bitmask (n mod 2) (immr mod 64) (imms mod 64) reg_size.
Proof.
  unfold decode_bitmask.
  assert (∀ x, Z.land x 1 = x mod 2) as H1 by (intros; apply (Z.land_ones _ 1); lia).
  assert (∀ x, Z.land x 0x3f = x mod 64) as H6 by (intros; apply (Z.land_ones _ 6); lia).
  rewrite (H1 n), (H1 (n mod 2)), (H6 immr), (H6 (immr mod 64)), (H6 imms), (H6 (imms mod 64)).
  by rewrite !Zmod_mod.
Qed.

(** The search inverts [decode_bitmask]. *)
Lemma encode_bitmask_inverts value reg_size :
  reg_size = 32 ∨ reg_size = 64 →
  match encode_bitmask value reg_size with
  | Some (n, immr, imms) =>
      decode_bitmask n immr imms reg_size = Some value ∧
      unsigned 1 n ∧ unsigned 6 immr ∧ unsigned 6 imms ∧ (reg_size = 32 → n = 0)
  | None => ∀ n immr imms, decode_bitmask n immr imms reg_size ≠ Some value
  end.
Proof.
  intros Hsz. unfold encode_bitmask. rewrite mask_ones by lia.
  destruct (_ || _) eqn:Htriv.
  { intros n immr imms Hd. apply decode_bitmask_mixed in Hd; [|done].
    apply orb_true_iff in Htriv as [->%Z.eqb_eq| ->%Z.eqb_eq]; tauto. }
  destruct (find _ _) as [[[n immr] imms]|] eqn:Hf.
  - apply find_Some_elem in Hf as [Hin Hd%bool_decide_eq_true].
    apply elem_of_candidates in Hin as (Hn & Hr & Hs).
    unfold unsigned. change (2 ^ 1) with 2. change (2 ^ 6) with 64. split_and!; done || lia.
  - intros n immr imms Hd. rewrite find_None_elem in Hf.
    rewrite decode_bitmask_mask in Hd.
    pose proof (Z.mod_pos_bound n 2 ltac:(lia)).
    pose proof (Z.mod_pos_bound immr 64 ltac:(lia)).
    pose proof (Z.mod_pos_bound imms 64 ltac:(lia)).
    assert (bool_decide (decode_bitmask (n mod 2) (immr mod 64) (imms mod 64) reg_size
                         = Some value) = false) as Hno%bool_decide_eq_false; [|done].
    apply (Hf (n mod 2, immr mod 64, imms mod 64)), elem_of_candidates.
    split_and!; try lia.
    destruct (decide (n mod 2 = 0)); [by left|right]. split; [lia|].
    destruct Hsz as [->|]; [|done]. exfalso.
    apply decode_bitmask_inv in Hd as (Hlen & Hle & _).
    assert (6 ≤ element_len (n mod 2) (imms mod 64)).
    { unfold element_len. apply Z.log2_le_pow2; unfold concat_field; rewrite !Zmod_mod; lia. }
    pose proof (Z.pow_le_mono_r 2 6 (element_len (n mod 2) (imms mod 64))). lia.
Qed.

(** The fields of a pattern. *)
Definition pattern_n (len : Z) : Z := if len =? 6 then 1 else 0.
Definition pattern_imms (len k : Z) : Z := if len =? 6 then k else 64 - 2 ^ (len + 1) + k.

Lemma pattern_fields len k :
  1 ≤ len ≤ 6 → 0 ≤ k < 2 ^ len - 1 →
  element_len (pattern_n len) (pattern_imms len k) = len ∧
  concat_field (pattern_n len) (pattern_imms len k) ≠ 0 ∧
  pattern_imms len k mod 2 ^ len = k.
Proof.
  intros Hl Hk. unfold element_len, concat_field, pattern_n, pattern_imms.
  destruct (Z.eqb_spec len 6) as [->|].
  - change (2 ^ 6) with 64 in *. rewrite !(Z.mod_small k) by lia.
    change (1 mod 2) with 1. split_and!; [|lia|done].
    apply Z.log2_unique; [lia|]. change (2 ^ Z.succ 6) with 128. change (2 ^ 6) with 64. lia.
  - assert (2 ^ len ≤ 2 ^ 5) by (apply Z.pow_le_mono_r; lia).
    change (2 ^ 5) with 32 in *. change (0 mod 2) with 0.
    rewrite Z.pow_add_r by lia. change (2 ^ 1) with 2.
    rewrite (Z.mod_small (_ + k) 64) by lia. split_and!; [|lia|].
    + apply Z.log2_unique; [lia|]. rewrite Z.pow_succ_r by lia. lia.
    + assert (64 = 2 ^ (6 - len) * 2 ^ len) as Heq
        by (rewrite <- Z.pow_add_r by lia; by replace (6 - len + len) with 6 by lia).
      replace (64 - 2 ^ len * 2 + k) with (k + (2 ^ (6 - len) - 2) * 2 ^ len) by lia.
      rewrite Z.mod_add by lia. apply Z.mod_small. lia.
Qed.

(** Every pattern is decoded from its fields. *)
Lemma pattern_decodes reg_size v len k r :
  reg_size = 32 ∨ reg_size = 64 → bitmask_pattern reg_size v len k r →
  decode_bitmask (pattern_n len) r (pattern_imms len k) reg_size = Some v.
Proof.
  intros Hsz (Hl & Hle & Hk & Hr & Hv & Hbits).
  destruct (pattern_fields len k Hl Hk) as (Hlen & Hc & Hmod).
  destruct (decode_bitmask _ _ _ _) as [v'|] eqn:Hd.
  - apply decode_bitmask_pattern in Hd; [|done]. cbv zeta in Hd. rewrite Hlen, Hmod in Hd.
    destruct Hd as (_ & _ & _ & _ & Hv' & Hbits').
    rewrite (Z.mod_small r) in Hbits' by done. f_equal.
    apply Z.bits_inj'. intros j Hj. destruct (Z.ltb_spec j reg_size).
    + by rewrite Hbits, Hbits' by lia.
    + by rewrite !(testbit_above reg_size) by done.
  - rewrite decode_bitmask_eq in Hd. cbv zeta in Hd. rewrite Hlen, Hmod in Hd.
    case_decide as Hno; [done|]. destruct Hno. split_and!; done || lia.
Qed.

(** C37: The search is exact and complete: it returns fields of the encoding's
    widths whose decoding is the value asked for and is the architecture's
    pattern for them, and it gives up only on a value that is no such pattern at
    all. *)
Theorem encode_bitmask_exact value reg_size :
  reg_size = 32 ∨ reg_size = 64 →
  match encode_bitmask value reg_size with
  | Some (n, immr, imms) =>
      unsigned 1 n ∧ unsigned 6 immr ∧ unsigned 6 imms ∧ (reg_size = 32 → n = 0) ∧
      decode_bitmask n immr imms reg_size = Some value ∧
      let len := element_len n imms in
      bitmask_pattern reg_size value len (imms mod 2 ^ len) (immr mod 2 ^ len)
  | None => ∀ len k r, ¬ bitmask_pattern reg_size value len k r
  end.
Proof.
  intros Hsz. pose proof (encode_bitmask_inverts value reg_size Hsz) as H.
  destruct (encode_bitmask value reg_size) as [[[n immr] imms]|].
  - destruct H as (Hd & ? & ? & ? & ?). split_and!; try done.
    by apply decode_bitmask_pattern.
  - intros len k r Hp. by eapply H, pattern_decodes.
Qed.

Lemma encode_bitmask_exact_witness :
  encode_bitmask 0x0f0f0f0f 32 = Some (0, 0, 0x33) ∧
  bitmask_pattern 32 0x0f0f0f0f 3 3 0.
Proof.
  split; [vm_compute; reflexivity|].
  assert (encode_bitmask 0x0f0f0f0f 32 = Some (0, 0, 0x33)) as He by (vm_compute; reflexivity).
  pose proof (encode_bitmask_exact 0x0f0f0f0f 32 (or_introl eq_refl)) as H.
  rewrite He in H. destruct H as (_ & _ & _ & _ & _ & H). exact H.
Defined.
