(* ===== verification/AsmOperand.v ===== *)
(** * Operands

    Models [src/crates/fors-asm/src/operand.rs] and [fpimm.rs]: condition
    codes, shifts, extends and the validated immediates.  Each [new] is the
    code's validating constructor, each [encoding] the field [encode] places;
    a [wf] predicate says which values [new] can return. *)

From S2P Require Import Prelude AsmReg AsmBitmask.

(** Rust's [1i64 << k] for the widths used here. *)
Definition shl_i64 (x k : Z) : Z := to_signed 64 (Z.shiftl x k).

Lemma shl_i64_1 k : 0 ≤ k < 63 → shl_i64 1 k = 2 ^ k.
Proof.
  intros Hk. unfold shl_i64. rewrite Z.shiftl_1_l. apply to_signed_small; [lia|].
  unfold signed. pose proof (pow2_pos k). pose proof (Z.pow_lt_mono_r 2 k (64 - 1)). lia.
Qed.

Lemma shl32_1 k : 0 ≤ k < 32 → shl32 1 k = 2 ^ k.
Proof.
  intros Hk. rewrite shl32_small, Z.shiftl_1_l; [done|lia|].
  unfold unsigned. pose proof (Z.pow_lt_mono_r 2 0 (32 - k)). lia.
Qed.

(** ** Condition codes *)

Module Cond.
Record Cond : Type := mk { bits : Z }.
#[global] Instance Cond_eq_dec : EqDecision Cond.
Proof. solve_decision. Defined.

Definition EQ : Cond := mk 0x0.
Definition NE : Cond := mk 0x1.
Definition CS : Cond := mk 0x2.
Definition CC : Cond := mk 0x3.
Definition MI : Cond := mk 0x4.
Definition PL : Cond := mk 0x5.
Definition VS : Cond := mk 0x6.
Definition VC : Cond := mk 0x7.
Definition HI : Cond := mk 0x8.
Definition LS : Cond := mk 0x9.
Definition GE : Cond := mk 0xa.
Definition LT : Cond := mk 0xb.
Definition GT : Cond := mk 0xc.
Definition LE : Cond := mk 0xd.
Definition AL : Cond := mk 0xe.
Definition NV : Cond := mk 0xf.

Definition ALL : list Cond :=
  [EQ; NE; CS; CC; MI; PL; VS; VC; HI; LS; GE; LT; GT; LE; AL; NV].

Definition code (c : Cond) : Z := bits c.
Definition inverted (c : Cond) : Cond := mk (Z.lxor (bits c) 1).

Definition wf (c : Cond) : Prop := c ∈ ALL.
#[global] Instance wf_dec c : Decision (wf c).
Proof. unfold wf. apply _. Defined.

Lemma Cond_code_unsigned c : wf c → unsigned 4 (code c).
Proof.
  unfold wf. intros H. revert c H. apply Forall_forall.
  repeat constructor; done.
Qed.

Lemma Cond_inverted_wf c : wf c → wf (inverted c).
Proof.
  unfold wf. intros H. revert c H. apply Forall_forall.
  repeat (apply Forall_cons; split; [apply (bool_decide_unpack _); done|]). done.
Qed.
Lemma Cond_inverted_involutive c : inverted (inverted c) = c.
Proof. destruct c as [b]. unfold inverted. simpl. f_equal. by rewrite Z.lxor_assoc, Z.lxor_0_r. Qed.
End Cond.
Abbreviation Cond := Cond.Cond.

(** ** Shifts and extends *)

Inductive ShiftKind : Type := Lsl | Lsr | Asr | Ror.
#[global] Instance ShiftKind_eq_dec : EqDecision ShiftKind.
Proof. solve_decision. Defined.

Definition ShiftKind_encoding (k : ShiftKind) : Z :=
  match k with Lsl => 0 | Lsr => 1 | Asr => 2 | Ror => 3 end.

Module RegShift.
Record RegShift : Type := mk { kind : ShiftKind; amount : Z }.
#[global] Instance RegShift_eq_dec : EqDecision RegShift.
Proof. solve_decision. Defined.

Definition new (kind : ShiftKind) (amount : Z) (is64 : bool) : result EncodeError RegShift :=
  let max := if is64 then 63 else 31 in
  fail_if (max <? amount) (ImmediateOutOfRange "shifted-register amount" amount);;
  Ok (mk kind amount).
Definition none : RegShift := mk Lsl 0.

(** [new] bounds the amount by the operand width; the width is not kept. *)
Definition wf (s : RegShift) : Prop := unsigned 6 (amount s).
#[global] Instance wf_dec s : Decision (wf s).
Proof. unfold wf. apply _. Defined.

Lemma RegShift_new_wf k a b s : 0 ≤ a → new k a b = Ok s → wf s.
Proof.
  unfold new. intros Ha H. inv_ok. unfold wf, unsigned. simpl. change (2 ^ 6) with 64.
  destruct b; lia.
Qed.
Lemma RegShift_none_wf : wf none.
Proof. done. Qed.
End RegShift.
Abbreviation RegShift := RegShift.RegShift.

Inductive ExtendKind : Type := Uxtb | Uxth | Uxtw | Uxtx | Sxtb | Sxth | Sxtw | Sxtx.
#[global] Instance ExtendKind_eq_dec : EqDecision ExtendKind.
Proof. solve_decision. Defined.

Definition ExtendKind_encoding (k : ExtendKind) : Z :=
  match k with
  | Uxtb => 0 | Uxth => 1 | Uxtw => 2 | Uxtx => 3
  | Sxtb => 4 | Sxth => 5 | Sxtw => 6 | Sxtx => 7
  end.

Module RegExtend.
Record RegExtend : Type := mk { kind : ExtendKind; amount : Z }.
#[global] Instance RegExtend_eq_dec : EqDecision RegExtend.
Proof. solve_decision. Defined.

Definition new (kind : ExtendKind) (amount : Z) : result EncodeError RegExtend :=
  fail_if (4 <? amount) (ImmediateOutOfRange "extended-register amount" amount);;
  Ok (mk kind amount).

Definition wf (e : RegExtend) : Prop := 0 ≤ amount e ≤ 4.
#[global] Instance wf_dec e : Decision (wf e).
Proof. unfold wf. apply _. Defined.

Lemma RegExtend_new_wf k a e : 0 ≤ a → new k a = Ok e → wf e.
Proof. unfold new. intros Ha H. inv_ok. unfold wf. simpl. lia. Qed.
Lemma RegExtend_amount_unsigned e : wf e → unsigned 3 (amount e).
Proof. unfold wf, unsigned. change (2 ^ 3) with 8. lia. Qed.
End RegExtend.
Abbreviation RegExtend := RegExtend.RegExtend.

(** ** Unsigned 12-bit immediate with optional [LSL #12] *)

Module Uimm12Lsl.
Record Uimm12Lsl : Type := mk { raw : Z; shift12 : bool }.
#[global] Instance Uimm12Lsl_eq_dec : EqDecision Uimm12Lsl.
Proof. solve_decision. Defined.

(** [value] is a [u64]. *)
Definition new (value : Z) : result EncodeError Uimm12Lsl :=
  if value <=? 0xFFF then Ok (mk (wrap 16 value) false)
  else if (Z.land value 0xFFF =? 0) && (Z.shiftr value 12 <=? 0xFFF)
  then Ok (mk (wrap 16 (Z.shiftr value 12)) true)
  else Err (ImmediateOutOfRange "ADD/SUB immediate" (to_signed 64 value)).

Definition value (i : Uimm12Lsl) : Z :=
  if shift12 i then shl64 (raw i) 12 else raw i.

Definition wf (i : Uimm12Lsl) : Prop := unsigned 12 (raw i).
#[global] Instance wf_dec i : Decision (wf i).
Proof. unfold wf. apply _. Defined.
End Uimm12Lsl.
Abbreviation Uimm12Lsl := Uimm12Lsl.Uimm12Lsl.

(** ** Bitmask immediate *)

Module LogicalImm.
Record LogicalImm : Type := mk { n : Z; immr : Z; imms : Z; is64 : bool; value : Z }.
#[global] Instance LogicalImm_eq_dec : EqDecision LogicalImm.
Proof. solve_decision. Defined.

Definition size (is64 : bool) : Z := if is64 then 64 else 32.

Definition new (value : Z) (is64 : bool) : result EncodeError LogicalImm :=
  let reg_size := if is64 then 64 else 32 in
  let target := if is64 then value else wrap 32 value in
  match encode_bitmask target reg_size with
  | Some (n, immr, imms) => Ok (mk n immr imms is64 target)
  | None => Err (UnencodableLogicalImmediate target is64)
  end.

Definition wf (i : LogicalImm) : Prop :=
  unsigned 1 (n i) ∧ unsigned 6 (immr i) ∧ unsigned 6 (imms i) ∧
  decode_bitmask (n i) (immr i) (imms i) (size (is64 i)) = Some (value i).
#[global] Instance wf_dec i : Decision (wf i).
Proof. unfold wf. apply _. Defined.

Lemma LogicalImm_new_wf v b i : new v b = Ok i → wf i ∧ is64 i = b.
Proof.
  unfold new. intros H.
  pose proof (encode_bitmask_inverts (if b then v else wrap 32 v) (if b then 64 else 32)
    ltac:(destruct b; auto)) as Hx.
  destruct (encode_bitmask _ _) as [[[n' r'] s']|]; [|done]. injection H as <-.
  destruct Hx as (Hd & ? & ? & ? & _). unfold wf, size. simpl. destruct b; done.
Qed.
End LogicalImm.
Abbreviation LogicalImm := LogicalImm.LogicalImm.

(** ** PC-relative offsets *)

Module BranchOffset.
Record BranchOffset : Type := mk { bits : Z; word_off : Z }.
#[global] Instance BranchOffset_eq_dec : EqDecision BranchOffset.
Proof. solve_decision. Defined.

(** [bytes] is an [i64]; [%] and [/] truncate.  [bits] is from 1 to 63: outside,
    the code's shift overflows. *)
Definition new (bytes bits : Z) (what : string) : result EncodeError BranchOffset :=
  fail_if (negb (Z.rem bytes 4 =? 0)) (MisalignedOffset what bytes);;
  let word_off := Z.quot bytes 4 in
  let min := - shl_i64 1 (bits - 1) in
  let max := shl_i64 1 (bits - 1) - 1 in
  fail_if ((word_off <? min) || (max <? word_off)) (ImmediateOutOfRange what bytes);;
  Ok (mk bits (to_signed 32 word_off)).

Definition encoding (o : BranchOffset) : Z :=
  Z.land (wrap 32 (word_off o)) (shl32 1 (bits o) - 1).
Definition bytes (o : BranchOffset) : Z := word_off o * 4.

(** An offset whose field is [b] bits wide. *)
Definition wf (b : Z) (o : BranchOffset) : Prop := bits o = b ∧ signed b (word_off o).
#[global] Instance wf_dec b o : Decision (wf b o).
Proof. unfold wf. apply _. Defined.
End BranchOffset.
Abbreviation BranchOffset := BranchOffset.BranchOffset.

(** [ADR] and [ADRP] offsets share their range and their split field. *)
Definition imm21 (x : Z) : Z := Z.land (wrap 32 x) 0x1FFFFF.
Definition imm21_fields (x : Z) : Z * Z := (Z.land (imm21 x) 3, Z.shiftr (imm21 x) 2).

Module AdrOffset.
Record AdrOffset : Type := mk { off : Z }.
#[global] Instance AdrOffset_eq_dec : EqDecision AdrOffset.
Proof. solve_decision. Defined.

Definition new (bytes : Z) : result EncodeError AdrOffset :=
  fail_if (negb ((- shl_i64 1 20 <=? bytes) && (bytes <? shl_i64 1 20)))
    (ImmediateOutOfRange "ADR offset" bytes);;
  Ok (mk (to_signed 32 bytes)).
Definition encoding (o : AdrOffset) : Z * Z := imm21_fields (off o).
Definition bytes (o : AdrOffset) : Z := off o.

Definition wf (o : AdrOffset) : Prop := signed 21 (off o).
#[global] Instance wf_dec o : Decision (wf o).
Proof. unfold wf. apply _. Defined.
End AdrOffset.
Abbreviation AdrOffset := AdrOffset.AdrOffset.

Module AdrpOffset.
Record AdrpOffset : Type := mk { off : Z }.
#[global] Instance AdrpOffset_eq_dec : EqDecision AdrpOffset.
Proof. solve_decision. Defined.

Definition new (pages : Z) : result EncodeError AdrpOffset :=
  fail_if (negb ((- shl_i64 1 20 <=? pages) && (pages <? shl_i64 1 20)))
    (ImmediateOutOfRange "ADRP page offset" pages);;
  Ok (mk (to_signed 32 pages)).
Definition encoding (o : AdrpOffset) : Z * Z := imm21_fields (off o).
Definition pages (o : AdrpOffset) : Z := off o.

Definition wf (o : AdrpOffset) : Prop := signed 21 (off o).
#[global] Instance wf_dec o : Decision (wf o).
Proof. unfold wf. apply _. Defined.
End AdrpOffset.
Abbreviation AdrpOffset := AdrpOffset.AdrpOffset.

(** ** Load/store offsets *)

(** Rust's [a / b] and [a % b] on [i64], which panic when [b] is 0; the one
    overflow, [i64::MIN / -1], needs a negative [b], and an access size is
    unsigned. *)
Definition div (a b : Z) : res Z := if b =? 0 then Panic else Done (Z.quot a b).
Definition rem (a b : Z) : res Z := if b =? 0 then Panic else Done (Z.rem a b).

Module Simm9.
Record Simm9 : Type := mk { off : Z }.
#[global] Instance Simm9_eq_dec : EqDecision Simm9.
Proof. solve_decision. Defined.

Definition new (bytes : Z) : result EncodeError Simm9 :=
  fail_if (negb ((-256 <=? bytes) && (bytes <? 256)))
    (ImmediateOutOfRange "unscaled/indexed offset (simm9)" bytes);;
  Ok (mk (to_signed 16 bytes)).
Definition encoding (o : Simm9) : Z := Z.land (wrap 32 (off o)) 0x1FF.
Definition value (o : Simm9) : Z := off o.

Definition wf (o : Simm9) : Prop := signed 9 (off o).
#[global] Instance wf_dec o : Decision (wf o).
Proof. unfold wf. apply _. Defined.
End Simm9.
Abbreviation Simm9 := Simm9.Simm9.

Module UScaledImm12.
Record UScaledImm12 : Type := mk { scaled : Z; access_size : Z }.
#[global] Instance UScaledImm12_eq_dec : EqDecision UScaledImm12.
Proof. solve_decision. Defined.

(** Rust's [a.is_multiple_of(b)] on [u64]: only 0 is a multiple of 0. *)
Definition is_multiple_of (a b : Z) : bool :=
  if b =? 0 then a =? 0 else Z.rem a b =? 0.

(** An access size of 0 passes the first check for an offset of 0, and the
    division panics. *)
Definition new (bytes access_size : Z) : res (result EncodeError UScaledImm12) :=
  if (bytes <? 0) || negb (is_multiple_of bytes access_size) then
    Done (Err (MisalignedOffset "LDR/STR unsigned-offset" bytes))
  else
    scaled ← div bytes access_size;
    Done (fail_if (0xFFF <? scaled) (ImmediateOutOfRange "LDR/STR unsigned-offset" bytes);;
          Ok (mk (wrap 16 scaled) access_size)).
Definition encoding (o : UScaledImm12) : Z := scaled o.
Definition bytes (o : UScaledImm12) : Z := scaled o * access_size o.

Definition wf (size : Z) (o : UScaledImm12) : Prop :=
  access_size o = size ∧ unsigned 12 (scaled o).
#[global] Instance wf_dec size o : Decision (wf size o).
Proof. unfold wf. apply _. Defined.
End UScaledImm12.
Abbreviation UScaledImm12 := UScaledImm12.UScaledImm12.

Module SImm7Scaled.
Record SImm7Scaled : Type := mk { scaled : Z; access_size : Z }.
#[global] Instance SImm7Scaled_eq_dec : EqDecision SImm7Scaled.
Proof. solve_decision. Defined.

(** The remainder panics at an access size of 0. *)
Definition new (bytes access_size : Z) : res (result EncodeError SImm7Scaled) :=
  rest ← rem bytes access_size;
  if negb (rest =? 0) then Done (Err (MisalignedOffset "LDP/STP offset" bytes))
  else
    scaled ← div bytes access_size;
    Done (fail_if (negb ((-64 <=? scaled) && (scaled <? 64)))
            (ImmediateOutOfRange "LDP/STP offset" bytes);;
          Ok (mk (to_signed 8 scaled) access_size)).
Definition encoding (o : SImm7Scaled) : Z := Z.land (wrap 32 (scaled o)) 0x7F.
Definition bytes (o : SImm7Scaled) : Z := scaled o * access_size o.

Definition wf (size : Z) (o : SImm7Scaled) : Prop :=
  access_size o = size ∧ signed 7 (scaled o).
#[global] Instance wf_dec size o : Decision (wf size o).
Proof. unfold wf. apply _. Defined.
End SImm7Scaled.
Abbreviation SImm7Scaled := SImm7Scaled.SImm7Scaled.

(** ** The 8-bit floating-point immediate (fpimm.rs) *)

Module FpImm8.
Record FpImm8 : Type := mk { imm8 : Z; is64 : bool; bits : Z }.
#[global] Instance FpImm8_eq_dec : EqDecision FpImm8.
Proof. solve_decision. Defined.

Definition expand (imm8 : Z) (is64 : bool) : Z :=
  let sign := Z.land (Z.shiftr imm8 7) 1 in
  let b := Z.land (Z.shiftr imm8 6) 1 in
  let cd := Z.land (Z.shiftr imm8 4) 3 in
  let efgh := Z.land imm8 0xF in
  let not_b := Z.land (1 - b) 1 in
  if is64 then
    let rep_b := if b =? 1 then 0xFF else 0 in
    let exp := Z.lor (Z.lor (shl64 not_b 10) (shl64 rep_b 2)) cd in
    let frac := shl64 efgh 48 in
    Z.lor (Z.lor (shl64 sign 63) (shl64 exp 52)) frac
  else
    let rep_b := if b =? 1 then 0x1F else 0 in
    let exp := Z.lor (Z.lor (shl64 not_b 7) (shl64 rep_b 2)) cd in
    let frac := shl64 efgh 19 in
    Z.lor (Z.lor (shl64 sign 31) (shl64 exp 23)) frac.

(** [from_f64] and [from_f32] are [from_bits] of the value's IEEE-754 bit
    pattern, the argument here. *)
Definition from_bits (bits : Z) (is64 : bool) : result EncodeError FpImm8 :=
  let target := if is64 then bits else Z.land bits 0xFFFFFFFF in
  match List.find (λ imm8, expand imm8 is64 =? target) (seqZ 0 256) with
  | Some imm8 => Ok (mk imm8 is64 target)
  | None => Err (ImmediateOutOfRange
                   "FMOV immediate (not one of the 256 representable values)"
                   (to_signed 64 target))
  end.
Definition encoding (i : FpImm8) : Z := imm8 i.

Definition wf (i : FpImm8) : Prop :=
  unsigned 8 (imm8 i) ∧ bits i = expand (imm8 i) (is64 i).
#[global] Instance wf_dec i : Decision (wf i).
Proof. unfold wf. apply _. Defined.

Lemma FpImm8_from_bits_wf v b i : from_bits v b = Ok i → wf i ∧ is64 i = b.
Proof.
  unfold from_bits. intros H. destruct (find _ _) as [k|] eqn:Hf; [|done].
  injection H as <-. apply find_Some_elem in Hf as [Hk%elem_of_seqZ He%Z.eqb_eq].
  unfold wf, unsigned. simpl. change (2 ^ 8) with 256. split_and!; done || lia.
Qed.
End FpImm8.
Abbreviation FpImm8 := FpImm8.FpImm8.

(** ** Properties *)

Lemma quot_exact a b : 0 < b → Z.rem a b = 0 → a = b * Z.quot a b.
Proof. intros Hb Hr. pose proof (Z.quot_rem' a b). lia. Qed.

(** [BranchOffset::new] accepts exactly the word-aligned byte offsets that
    fit the field, and the field it produces reads back, sign-extended and
    scaled, as the offset asked for; the two errors tell the two reasons apart. *)
Theorem branch_offset_exact bytes bits what :
  1 ≤ bits ≤ 31 →
  match BranchOffset.new bytes bits what with
  | Ok o => BranchOffset.wf bits o ∧ BranchOffset.bytes o = bytes ∧
            unsigned bits (BranchOffset.encoding o) ∧
            4 * to_signed bits (BranchOffset.encoding o) = bytes
  | Err (MisalignedOffset w v) => w = what ∧ v = bytes ∧ ¬ (4 | bytes)
  | Err (ImmediateOutOfRange w v) =>
      w = what ∧ v = bytes ∧ (4 | bytes) ∧ ¬ signed (bits + 2) bytes
  | Err _ => False
  end.
Proof.
  intros Hbits. unfold BranchOffset.new. rewrite shl_i64_1 by lia.
  destruct (Z.eqb_spec (Z.rem bytes 4) 0) as [Hr|Hr]; simpl.
  2:{ split_and!; [done..|]. by rewrite <- Z.rem_divide by lia. }
  pose proof (quot_exact bytes 4 ltac:(lia) Hr) as Hq. set (q := Z.quot bytes 4) in *.
  assert (signed (bits + 2) bytes ↔ signed bits q) as Hsigned.
  { unfold signed. replace (bits + 2 - 1) with (2 + (bits - 1)) by lia.
    rewrite Z.pow_add_r by lia. lia. }
  destruct (_ || _) eqn:Hrange; simpl.
  { split_and!; [done..|exists q; lia|]. rewrite Hsigned. unfold signed. lia. }
  assert (signed bits q) as Hfit by (unfold signed; lia).
  assert (signed 32 q) as Hfit32.
  { unfold signed in *. pose proof (Z.pow_le_mono_r 2 (bits - 1) (32 - 1)). lia. }
  unfold BranchOffset.wf, BranchOffset.bytes, BranchOffset.encoding. simpl.
  rewrite to_signed_small by (done || lia). rewrite shl32_1 by lia.
  pose proof (signed_field bits q (2 ^ bits - 1) ltac:(lia)
    ltac:(rewrite Z.ones_equiv; lia) Hfit) as [Hu Hs].
  rewrite Hs. split_and!; done || lia.
Qed.

(** The page or byte offset of [ADRP]/[ADR], from its split field. *)
Definition imm21_value (f : Z * Z) : Z := to_signed 21 (snd f * 4 + fst f).

Lemma imm21_fields_spec x :
  signed 21 x →
  unsigned 2 (fst (imm21_fields x)) ∧ unsigned 19 (snd (imm21_fields x)) ∧
  imm21_value (imm21_fields x) = x.
Proof.
  intros Hx. unfold imm21_value, imm21_fields. simpl.
  pose proof (signed_field 21 x 0x1FFFFF ltac:(lia) eq_refl Hx) as [Hu Hs].
  fold (imm21 x) in Hu, Hs. unfold unsigned in *.
  change 3 with (Z.ones 2). rewrite Z.land_ones, Z.shiftr_div_pow2 by lia.
  pose proof (Z.div_mod (imm21 x) (2 ^ 2) ltac:(lia)).
  pose proof (Z.mod_pos_bound (imm21 x) (2 ^ 2) ltac:(lia)).
  split_and!; try lia. transitivity (to_signed 21 (imm21 x)); [f_equal; lia|done].
Qed.

(** [ADR] byte offsets and [ADRP] page offsets: accepted exactly in the
    signed 21-bit range, and recovered from the two parts of the split field. *)
Theorem adr_adrp_exact x :
  (match AdrOffset.new x with
   | Ok o => signed 21 x ∧ unsigned 2 (fst (AdrOffset.encoding o)) ∧
             unsigned 19 (snd (AdrOffset.encoding o)) ∧
             imm21_value (AdrOffset.encoding o) = x ∧ AdrOffset.bytes o = x
   | Err e => e = ImmediateOutOfRange "ADR offset" x ∧ ¬ signed 21 x
   end) ∧
  (match AdrpOffset.new x with
   | Ok o => signed 21 x ∧ unsigned 2 (fst (AdrpOffset.encoding o)) ∧
             unsigned 19 (snd (AdrpOffset.encoding o)) ∧
             imm21_value (AdrpOffset.encoding o) = x ∧ AdrpOffset.pages o = x
   | Err e => e = ImmediateOutOfRange "ADRP page offset" x ∧ ¬ signed 21 x
   end).
Proof.
  unfold AdrOffset.new, AdrpOffset.new. rewrite shl_i64_1 by lia.
  destruct (negb _) eqn:Hr; simpl.
  { split; (split; [done|]); unfold signed; simpl in *; lia. }
  assert (signed 21 x) as Hx by (unfold signed; simpl in *; lia).
  unfold AdrOffset.encoding, AdrpOffset.encoding, AdrOffset.bytes, AdrpOffset.pages. simpl.
  rewrite to_signed_small by (unfold signed in *; simpl in *; lia).
  pose proof (imm21_fields_spec x Hx) as (? & ? & ?). naive_solver.
Qed.

(** [Simm9::new] accepts exactly the byte offsets of its field. *)
Theorem simm9_exact bytes :
  match Simm9.new bytes with
  | Ok o => signed 9 bytes ∧ unsigned 9 (Simm9.encoding o) ∧
            to_signed 9 (Simm9.encoding o) = bytes
  | Err _ => ¬ signed 9 bytes
  end.
Proof.
  unfold Simm9.new. destruct (negb _) eqn:Hr; simpl; [unfold signed; simpl; lia|].
  assert (signed 9 bytes) as Hx by (unfold signed; simpl; lia).
  unfold Simm9.encoding. simpl.
  rewrite to_signed_small by (unfold signed in *; simpl in *; lia).
  split; [done|]. by apply signed_field.
Qed.

(** The scaled unsigned 12-bit offset accepts exactly the byte offsets its
    field can express at the access size, and expresses them faithfully; it
    panics exactly for an offset of 0 at an access size of 0. *)
Theorem scaled_imm12_exact bytes size :
  unsigned 32 size →
  match UScaledImm12.new bytes size with
  | Done (Ok o) => 0 < size ∧ UScaledImm12.wf size o ∧ UScaledImm12.encoding o * size = bytes
  | Done (Err _) => ∀ k, unsigned 12 k → k * size ≠ bytes
  | Panic => size = 0 ∧ bytes = 0
  | OutOfFuel => False
  end.
Proof.
  intros [Hs _]. unfold UScaledImm12.new, UScaledImm12.is_multiple_of, div.
  destruct (Z.eqb_spec size 0) as [->|Hz].
  { destruct (_ || _) eqn:Hr; simpl; [intros k _ Hk; lia|]. split; [done|lia]. }
  destruct (_ || _) eqn:Hr; simpl.
  { intros k [Hk _] <-. rewrite Z.rem_mul in Hr by lia. lia. }
  assert (Z.rem bytes size = 0) as Hrem by lia.
  pose proof (quot_exact bytes size ltac:(lia) Hrem) as Hq. set (q := Z.quot bytes size) in *.
  destruct (Z.ltb_spec 0xFFF q); simpl.
  { unfold unsigned. intros k Hk Heq. assert (k = q) by nia. lia. }
  assert (0 ≤ q) by nia.
  unfold UScaledImm12.wf, UScaledImm12.encoding. simpl.
  rewrite wrap_small by (unfold unsigned; lia).
  split_and!; [lia|done|unfold unsigned; lia|lia].
Qed.

(** The scaled signed 7-bit pair offset likewise; it panics exactly at an
    access size of 0. *)
Theorem simm7_scaled_exact bytes size :
  unsigned 32 size →
  match SImm7Scaled.new bytes size with
  | Done (Ok o) => 0 < size ∧ SImm7Scaled.wf size o ∧ unsigned 7 (SImm7Scaled.encoding o) ∧
                   to_signed 7 (SImm7Scaled.encoding o) * size = bytes
  | Done (Err _) => 0 < size ∧ ∀ k, signed 7 k → k * size ≠ bytes
  | Panic => size = 0
  | OutOfFuel => False
  end.
Proof.
  intros [Hs _]. unfold SImm7Scaled.new, rem, div.
  destruct (Z.eqb_spec size 0) as [->|Hz]; simpl; [done|].
  destruct (negb (Z.rem _ _ =? 0)) eqn:Hr; simpl.
  { split; [lia|]. intros k _ <-. rewrite Z.rem_mul in Hr by lia. done. }
  assert (Z.rem bytes size = 0) as Hrem by lia.
  pose proof (quot_exact bytes size ltac:(lia) Hrem) as Hq. set (q := Z.quot bytes size) in *.
  destruct (negb (_ && _)) eqn:Hr2; simpl.
  { unfold signed. split; [lia|]. intros k Hk Heq. assert (k = q) by nia. simpl in *. lia. }
  assert (signed 7 q) as Hx by (unfold signed; simpl; lia).
  unfold SImm7Scaled.wf, SImm7Scaled.encoding. simpl.
  rewrite to_signed_small by (unfold signed in *; simpl in *; lia).
  pose proof (signed_field 7 q 0x7F ltac:(lia) eq_refl Hx) as [Hu Hs'].
  split_and!; [lia|done..|]. rewrite Hs'. lia.
Qed.

(** The [ADD]/[SUB] immediate: [new] accepts a [u64] exactly when some
    12-bit field, shifted by 12 or not, has that value, and the operand it
    returns has it. *)
Theorem uimm12_lsl_exact v :
  unsigned 64 v →
  match Uimm12Lsl.new v with
  | Ok i => Uimm12Lsl.wf i ∧ Uimm12Lsl.value i = v
  | Err _ => ∀ i, Uimm12Lsl.wf i → Uimm12Lsl.value i ≠ v
  end.
Proof.
  intros [Hv0 Hv]. unfold Uimm12Lsl.new, Uimm12Lsl.wf, Uimm12Lsl.value, shl64.
  assert (Z.land v 0xFFF = v mod 2 ^ 12) as -> by (apply (Z.land_ones _ 12); lia).
  rewrite Z.shiftr_div_pow2 by lia.
  pose proof (Z.div_mod v (2 ^ 12) ltac:(lia)) as Hdm.
  pose proof (Z.mod_pos_bound v (2 ^ 12) ltac:(lia)) as Hm.
  pose proof (Z.div_pos v (2 ^ 12) ltac:(lia) ltac:(lia)).
  destruct (Z.leb_spec v 0xFFF); simpl Uimm12Lsl.shift12; simpl Uimm12Lsl.raw.
  { rewrite wrap_small by (unfold unsigned; lia). split; [unfold unsigned; lia|done]. }
  destruct (_ && _) eqn:Hs; simpl Uimm12Lsl.shift12; simpl Uimm12Lsl.raw.
  - rewrite (wrap_small 16) by (unfold unsigned; lia). split; [unfold unsigned; lia|].
    rewrite Z.shiftl_mul_pow2, wrap_small by (unfold unsigned; lia). lia.
  - intros [r sh] [Hr0 Hr]. simpl in Hr0, Hr |- *. destruct sh; [|lia].
    rewrite Z.shiftl_mul_pow2, wrap_small by (unfold unsigned; lia). intros <-.
    rewrite Z.mod_mul, Z.div_mul in Hs by lia. lia.
Qed.

(** [expand] is injective: these are the 8 bits of [imm8] it copies. *)
Definition unexpand (bits : Z) (is64 : bool) : Z :=
  let top := if is64 then 63 else 31 in
  let exp_msb := if is64 then 62 else 30 in
  let frac := if is64 then 48 else 19 in
  b2z (Z.testbit bits top) * 128 + (1 - b2z (Z.testbit bits exp_msb)) * 64
  + Z.land (Z.shiftr bits frac) 0x3F.

Lemma unexpand_expand k b :
  0 ≤ k < 256 → unexpand (FpImm8.expand k b) b = k.
Proof.
  intros Hk. apply Z.eqb_eq.
  apply (forallb_seqZ (λ k, unexpand (FpImm8.expand k b) b =? k) 0 256); [|lia].
  destruct b; vm_compute; done.
Qed.

(** The search over the 256 immediates inverts [expand]: every immediate is
    found again from its expansion, and a failure means that no immediate
    expands to the value. *)
Theorem fp_imm8_exact v b :
  match FpImm8.from_bits v b with
  | Ok i => FpImm8.wf i ∧ FpImm8.is64 i = b ∧
            FpImm8.bits i = (if b then v else v mod 2 ^ 32) ∧
            ∀ k, unsigned 8 k → FpImm8.expand k b = FpImm8.bits i → k = FpImm8.imm8 i
  | Err _ => ∀ k, unsigned 8 k → FpImm8.expand k b ≠ (if b then v else v mod 2 ^ 32)
  end.
Proof.
  assert (Z.land v 0xFFFFFFFF = v mod 2 ^ 32) as Hl by (apply (Z.land_ones _ 32); lia).
  destruct (FpImm8.from_bits v b) as [i|e] eqn:Hi.
  - pose proof (FpImm8.FpImm8_from_bits_wf _ _ _ Hi) as [Hwf Hb].
    split_and!; [done|done| |].
    + unfold FpImm8.from_bits in Hi. destruct (find _ _); [|done].
      injection Hi as <-. simpl. by rewrite Hl.
    + intros k Hk He. destruct Hwf as [Hw Hx]. rewrite Hx, Hb in He.
      unfold unsigned in *. rewrite <- (unexpand_expand k b), He, unexpand_expand; lia.
  - unfold FpImm8.from_bits in Hi. destruct (find _ _) eqn:Hf; [done|].
    rewrite find_None_elem in Hf. rewrite Hl in Hf. intros k Hk He.
    assert ((FpImm8.expand k b =? (if b then v else v mod 2 ^ 32)) = false) as Hne.
    { apply (Hf k), elem_of_seqZ. unfold unsigned in Hk. lia. }
    rewrite He, Z.eqb_refl in Hne. done.
Qed.

Lemma branch_offset_exact_witness :
  ∃ o, BranchOffset.new (-8) 19 "b.cond" = Ok o ∧ BranchOffset.wf 19 o ∧
       4 * to_signed 19 (BranchOffset.encoding o) = -8.
Proof.
  pose proof (branch_offset_exact (-8) 19 "b.cond" ltac:(lia)) as H.
  exists (BranchOffset.mk 19 (-2)). split; [reflexivity|].
  change (BranchOffset.new (-8) 19 "b.cond") with (@Ok EncodeError _ (BranchOffset.mk 19 (-2)))
    in H.
  destruct H as (Hwf & _ & _ & Hs). exact (conj Hwf Hs).
Defined.

Lemma scaled_imm12_exact_witness :
  UScaledImm12.new 0 0 = Panic ∧
  ∃ o, UScaledImm12.new 16 8 = Done (Ok o) ∧ UScaledImm12.encoding o * 8 = 16.
Proof.
  split; [reflexivity|].
  pose proof (scaled_imm12_exact 16 8 ltac:(unfold unsigned; lia)) as H.
  change (UScaledImm12.new 16 8)
    with (Done (@Ok EncodeError _ (UScaledImm12.mk 2 8))) in H |- *.
  destruct H as (_ & _ & H). eexists. exact (conj eq_refl H).
Defined.

Lemma simm7_scaled_exact_witness :
  SImm7Scaled.new 12 8 = Done (Err (MisalignedOffset "LDP/STP offset" 12)) ∧ 1 * 8 ≠ 12.
Proof.
  pose proof (simm7_scaled_exact 12 8 ltac:(unfold unsigned; lia)) as H.
  change (SImm7Scaled.new 12 8)
    with (Done (@Err EncodeError SImm7Scaled (MisalignedOffset "LDP/STP offset" 12))) in H.
  exact (conj eq_refl (proj2 H 1 ltac:(unfold signed; simpl; lia))).
Defined.

Lemma uimm12_lsl_exact_witness :
  ∃ i, Uimm12Lsl.new 0x3000 = Ok i ∧ Uimm12Lsl.wf i ∧ Uimm12Lsl.value i = 0x3000.
Proof.
  pose proof (uimm12_lsl_exact 0x3000 ltac:(unfold unsigned; lia)) as H.
  change (Uimm12Lsl.new 0x3000) with (@Ok EncodeError _ (Uimm12Lsl.mk 3 true)) in H |- *.
  exists (Uimm12Lsl.mk 3 true). exact (conj eq_refl H).
Defined.
