(* ===== verification/AsmInst.v ===== *)
(** * The instruction type and its constructors

    Models [src/crates/fors-asm/src/inst.rs] and [fp.rs]: the [Inst] enum, one
    variant per encoding shape, and every constructor function of [impl Inst]
    with its guards in source order.  The [alias] fields record which alias
    built an instruction and are read by the printer only. *)

From S2P Require Import Prelude AsmReg AsmBitmask AsmOperand.

(** ** Opcode enums *)

Inductive MovWideOp : Type := Movz | Movn | Movk.
Inductive AddSubOp : Type := Add | Sub.
Inductive AddSubAlias : Type := AS_None | AS_Cmp | AS_Cmn | AS_Neg | AS_Negs | AS_Mov.
Inductive LogicalShiftOp : Type :=
  LS_And | LS_Bic | LS_Orr | LS_Orn | LS_Eor | LS_Eon | LS_Ands | LS_Bics.
Inductive LogicalImmOp : Type := LI_And | LI_Orr | LI_Eor | LI_Ands.
Inductive LogicalAlias : Type := LA_None | LA_Mvn | LA_Tst | LA_Mov.
Inductive BitfieldOp : Type := Sbfm | Bfm | Ubfm.
Inductive BitfieldAlias : Type :=
  BA_None | BA_Lsl | BA_Lsr | BA_Asr | BA_Sxtb | BA_Sxth | BA_Sxtw | BA_Uxtb | BA_Uxth.
Inductive DataProc2Op : Type := Udiv | Sdiv | Lslv | Lsrv | Asrv | Rorv.
Inductive DataProc3Op : Type := Madd | Msub | Smulh | Umulh.
Inductive DataProc1Op : Type := Rbit | Clz | Rev.
Inductive CondSelectOp : Type := Csel | Csinc | Csinv | Csneg.
Inductive CondSelectAlias : Type :=
  CA_None | CA_Cset | CA_Csetm | CA_Cinc | CA_Cinv | CA_Cneg.
Inductive PairIndex : Type := PI_Offset | PI_PreIndex | PI_PostIndex.
Inductive FpUnaryOp : Type := Fmov | Fabs | Fneg | Fsqrt.
Inductive FpBinOp : Type := Fadd | Fsub | Fmul | Fdiv.
Inductive FpIntConvertOp : Type := Scvtf | Ucvtf | Fcvtzs | Fcvtzu.

#[global] Instance MovWideOp_eq_dec : EqDecision MovWideOp.
Proof. solve_decision. Defined.
#[global] Instance AddSubOp_eq_dec : EqDecision AddSubOp.
Proof. solve_decision. Defined.
#[global] Instance AddSubAlias_eq_dec : EqDecision AddSubAlias.
Proof. solve_decision. Defined.
#[global] Instance LogicalShiftOp_eq_dec : EqDecision LogicalShiftOp.
Proof. solve_decision. Defined.
#[global] Instance LogicalImmOp_eq_dec : EqDecision LogicalImmOp.
Proof. solve_decision. Defined.
#[global] Instance LogicalAlias_eq_dec : EqDecision LogicalAlias.
Proof. solve_decision. Defined.
#[global] Instance BitfieldOp_eq_dec : EqDecision BitfieldOp.
Proof. solve_decision. Defined.
#[global] Instance BitfieldAlias_eq_dec : EqDecision BitfieldAlias.
Proof. solve_decision. Defined.
#[global] Instance DataProc2Op_eq_dec : EqDecision DataProc2Op.
Proof. solve_decision. Defined.
#[global] Instance DataProc3Op_eq_dec : EqDecision DataProc3Op.
Proof. solve_decision. Defined.
#[global] Instance DataProc1Op_eq_dec : EqDecision DataProc1Op.
Proof. solve_decision. Defined.
#[global] Instance CondSelectOp_eq_dec : EqDecision CondSelectOp.
Proof. solve_decision. Defined.
#[global] Instance CondSelectAlias_eq_dec : EqDecision CondSelectAlias.
Proof. solve_decision. Defined.
#[global] Instance PairIndex_eq_dec : EqDecision PairIndex.
Proof. solve_decision. Defined.
#[global] Instance FpUnaryOp_eq_dec : EqDecision FpUnaryOp.
Proof. solve_decision. Defined.
#[global] Instance FpBinOp_eq_dec : EqDecision FpBinOp.
Proof. solve_decision. Defined.
#[global] Instance FpIntConvertOp_eq_dec : EqDecision FpIntConvertOp.
Proof. solve_decision. Defined.

(** ** Loads and stores *)

Inductive LdStOp : Type :=
  | StrB | LdrB | LdrSb (is64 : bool)
  | StrH | LdrH | LdrSh (is64 : bool)
  | StrW | LdrW | LdrSw | StrX | LdrX.
#[global] Instance LdStOp_eq_dec : EqDecision LdStOp.
Proof. solve_decision. Defined.

Definition size_opc (o : LdStOp) : Z * Z :=
  match o with
  | StrB => (0, 0) | LdrB => (0, 1) | LdrSb true => (0, 2) | LdrSb false => (0, 3)
  | StrH => (1, 0) | LdrH => (1, 1) | LdrSh true => (1, 2) | LdrSh false => (1, 3)
  | StrW => (2, 0) | LdrW => (2, 1) | LdrSw => (2, 2)
  | StrX => (3, 0) | LdrX => (3, 1)
  end.

Definition access_size (o : LdStOp) : Z :=
  match o with
  | StrB | LdrB | LdrSb _ => 1
  | StrH | LdrH | LdrSh _ => 2
  | StrW | LdrW | LdrSw => 4
  | StrX | LdrX => 8
  end.

Definition rt_is64 (o : LdStOp) : bool :=
  match o with
  | LdrSb is64 | LdrSh is64 => is64
  | LdrSw | StrX | LdrX => true
  | _ => false
  end.

Inductive LdStExtend : Type := LE_Uxtw | LE_Lsl | LE_Sxtw | LE_Sxtx.
#[global] Instance LdStExtend_eq_dec : EqDecision LdStExtend.
Proof. solve_decision. Defined.

Definition ext_option (e : LdStExtend) : Z :=
  match e with LE_Uxtw => 2 | LE_Lsl => 3 | LE_Sxtw => 6 | LE_Sxtx => 7 end.
Definition rm_is64 (e : LdStExtend) : bool :=
  match e with LE_Lsl | LE_Sxtx => true | _ => false end.

Module RegOffset.
Record RegOffset : Type := mk { rm : Reg; extend : LdStExtend; shifted : bool }.
#[global] Instance RegOffset_eq_dec : EqDecision RegOffset.
Proof. solve_decision. Defined.

Definition new (rm : Reg) (extend : LdStExtend) (shifted : bool) :
    result EncodeError RegOffset :=
  fail_if (negb (Bool.eqb (Reg.is64 rm) (rm_is64 extend)))
    (RegisterWidthMismatch "load/store register offset");;
  Ok (mk rm extend shifted).

Definition wf (o : RegOffset) : Prop :=
  Reg.wf (rm o) ∧ Reg.is64 (rm o) = rm_is64 (extend o).
#[global] Instance wf_dec o : Decision (wf o).
Proof. unfold wf. apply _. Defined.
End RegOffset.
Abbreviation RegOffset := RegOffset.RegOffset.

Inductive AddrMode : Type :=
  | UnsignedOffset (imm : UScaledImm12)
  | Unscaled (imm : Simm9)
  | PreIndex (imm : Simm9)
  | PostIndex (imm : Simm9)
  | AM_RegOffset (ro : RegOffset).
#[global] Instance AddrMode_eq_dec : EqDecision AddrMode.
Proof. solve_decision. Defined.

Inductive SysOp : Type := Nop | Brk (imm16 : Z) | Svc (imm16 : Z) | Udf (imm16 : Z).
#[global] Instance SysOp_eq_dec : EqDecision SysOp.
Proof. solve_decision. Defined.

(** ** The instruction type *)

Inductive Inst : Type :=
  | MovWide (op : MovWideOp) (rd : Reg) (imm16 shift : Z)
  | AddSubImm (op : AddSubOp) (set_flags : bool) (rd rn : Reg) (imm : Uimm12Lsl)
      (alias : AddSubAlias)
  | AddSubShiftedReg (op : AddSubOp) (set_flags : bool) (rd rn rm : Reg) (shift : RegShift)
      (alias : AddSubAlias)
  | AddSubExtendedReg (op : AddSubOp) (set_flags : bool) (rd rn rm : Reg) (extend : RegExtend)
      (alias : AddSubAlias)
  | LogicalImmInst (op : LogicalImmOp) (rd rn : Reg) (imm : LogicalImm) (alias : LogicalAlias)
  | LogicalShiftedReg (op : LogicalShiftOp) (rd rn rm : Reg) (shift : RegShift)
      (alias : LogicalAlias)
  | Bitfield (op : BitfieldOp) (rd rn : Reg) (immr imms : Z) (alias : BitfieldAlias)
  | DataProc2Source (op : DataProc2Op) (rd rn rm : Reg)
  | DataProc3Source (op : DataProc3Op) (rd rn rm ra : Reg) (is_mul_alias : bool)
  | DataProc1Source (op : DataProc1Op) (rd rn : Reg)
  | CondSelect (op : CondSelectOp) (rd rn rm : Reg) (cond : Cond) (alias : CondSelectAlias)
  | Adr (rd : Reg) (offset : AdrOffset)
  | Adrp (rd : Reg) (offset : AdrpOffset)
  | Branch (link : bool) (offset : BranchOffset)
  | BranchCond (cond : Cond) (offset : BranchOffset)
  | CompareBranch (is64 is_nonzero : bool) (rt : Reg) (offset : BranchOffset)
  | TestBranch (is_nonzero : bool) (rt : Reg) (bit : Z) (offset : BranchOffset)
  | BranchReg (rn : Reg)
  | BranchLinkReg (rn : Reg)
  | Ret (rn : Reg)
  | LoadStoreImm (op : LdStOp) (rt rn : Reg) (mode : AddrMode)
  | LoadStorePair (is_load is64 : bool) (rt1 rt2 rn : Reg) (imm : SImm7Scaled)
      (index : PairIndex)
  | FpLoadStoreImm (is_load : bool) (rt : FpReg) (rn : Reg) (mode : AddrMode)
  | System (op : SysOp)
  | FpDataProc1 (op : FpUnaryOp) (rd rn : FpReg)
  | FpConvert (rd rn : FpReg)
  | FpDataProc2 (op : FpBinOp) (rd rn rm : FpReg)
  | FpCompare (rn rm : FpReg)
  | FpCondSelect (rd rn rm : FpReg) (cond : Cond)
  | FpImmMove (rd : FpReg) (imm : FpImm8)
  | FpToGp (rd : Reg) (rn : FpReg)
  | GpToFp (rd : FpReg) (rn : Reg)
  | FpIntConvert (op : FpIntConvertOp) (gp : Reg) (fp : FpReg)
  | FpMadd (rd rn rm ra : FpReg).

#[global] Instance Inst_eq_dec : EqDecision Inst.
Proof. solve_decision. Defined.

Abbreviation fallible := (result EncodeError Inst).

Definition check_same_width (a b : Reg) (what : string) : result EncodeError unit :=
  if negb (Bool.eqb (Reg.is64 a) (Reg.is64 b)) then Err (RegisterWidthMismatch what) else Ok ().

Definition check_same_fp_width (a b : FpReg) (what : string) : result EncodeError unit :=
  if negb (Bool.eqb (FpReg.is_double a) (FpReg.is_double b))
  then Err (RegisterWidthMismatch what) else Ok ().

(** ** Constructors ([impl Inst])

    [Uimm12Lsl::new(0).expect(..)] and [RegShift::none()] are values; every
    other operand is validated by the caller through its own [new]. *)

Module Inst.

(** *** MOVZ/MOVN/MOVK *)

Definition mov_wide (op : MovWideOp) (rd : Reg) (imm16 shift : Z) : fallible :=
  let max_shift := if Reg.is64 rd then 48 else 16 in
  fail_if ((max_shift <? shift) || negb (shift mod 16 =? 0))
    (ImmediateOutOfRange "MOVZ/MOVN/MOVK shift" shift);;
  Ok (MovWide op rd imm16 shift).
Definition movz (rd : Reg) (imm16 shift : Z) : fallible := mov_wide Movz rd imm16 shift.
Definition movn (rd : Reg) (imm16 shift : Z) : fallible := mov_wide Movn rd imm16 shift.
Definition movk (rd : Reg) (imm16 shift : Z) : fallible := mov_wide Movk rd imm16 shift.

(** *** ADD/SUB *)

Definition add_sub_imm_common (set_flags : bool) (rd rn : Reg) (what : string) :
    result EncodeError unit :=
  check_same_width rd rn what;;
  fail_if (Reg.is_zr rn) (InvalidRegisterForForm
    "ADD/SUB immediate Rn (field 31 is always SP here, never XZR/WZR)");;
  if set_flags then
    fail_if (Reg.is_sp rd) (InvalidRegisterForForm
      "ADDS/SUBS Rd (field 31 is always XZR/WZR here, never SP; use ADD/SUB for an SP destination)")
  else
    fail_if (Reg.is_zr rd) (InvalidRegisterForForm
      "ADD/SUB Rd (field 31 is always SP here, never XZR/WZR; use ADDS/SUBS for a discarded/flags-only result)").

Definition add_imm (rd rn : Reg) (imm : Uimm12Lsl) : fallible :=
  add_sub_imm_common false rd rn "ADD (immediate)";;
  Ok (AddSubImm Add false rd rn imm AS_None).
Definition adds_imm (rd rn : Reg) (imm : Uimm12Lsl) : fallible :=
  add_sub_imm_common true rd rn "ADDS (immediate)";;
  Ok (AddSubImm Add true rd rn imm AS_None).
Definition sub_imm (rd rn : Reg) (imm : Uimm12Lsl) : fallible :=
  add_sub_imm_common false rd rn "SUB (immediate)";;
  Ok (AddSubImm Sub false rd rn imm AS_None).
Definition subs_imm (rd rn : Reg) (imm : Uimm12Lsl) : fallible :=
  add_sub_imm_common true rd rn "SUBS (immediate)";;
  Ok (AddSubImm Sub true rd rn imm AS_None).
Definition cmp_imm (rn : Reg) (imm : Uimm12Lsl) : fallible :=
  let rd := zr_like rn in
  add_sub_imm_common true rd rn "CMP (immediate)";;
  Ok (AddSubImm Sub true rd rn imm AS_Cmp).
Definition cmn_imm (rn : Reg) (imm : Uimm12Lsl) : fallible :=
  let rd := zr_like rn in
  add_sub_imm_common true rd rn "CMN (immediate)";;
  Ok (AddSubImm Add true rd rn imm AS_Cmn).

Definition add_sub_shifted (op : AddSubOp) (set_flags : bool) (rd rn rm : Reg)
    (shift : RegShift) (alias : AddSubAlias) : fallible :=
  fail_if (bool_decide (RegShift.kind shift = Ror)) (InvalidShiftForForm
    "ADD/SUB shifted-register (ROR is not legal here)");;
  check_same_width rd rn "ADD/SUB shifted-register";;
  check_same_width rd rm "ADD/SUB shifted-register";;
  fail_if (Reg.is_sp rd || Reg.is_sp rn || Reg.is_sp rm) (InvalidRegisterForForm
    "ADD/SUB shifted-register (no SP operand; use extended-register form)");;
  Ok (AddSubShiftedReg op set_flags rd rn rm shift alias).

Definition add_shifted (rd rn rm : Reg) (shift : RegShift) : fallible :=
  add_sub_shifted Add false rd rn rm shift AS_None.
Definition adds_shifted (rd rn rm : Reg) (shift : RegShift) : fallible :=
  add_sub_shifted Add true rd rn rm shift AS_None.
Definition sub_shifted (rd rn rm : Reg) (shift : RegShift) : fallible :=
  add_sub_shifted Sub false rd rn rm shift AS_None.
Definition subs_shifted (rd rn rm : Reg) (shift : RegShift) : fallible :=
  add_sub_shifted Sub true rd rn rm shift AS_None.
Definition cmp_shifted (rn rm : Reg) (shift : RegShift) : fallible :=
  add_sub_shifted Sub true (zr_like rn) rn rm shift AS_Cmp.
Definition cmn_shifted (rn rm : Reg) (shift : RegShift) : fallible :=
  add_sub_shifted Add true (zr_like rn) rn rm shift AS_Cmn.
Definition neg (rd rm : Reg) (shift : RegShift) : fallible :=
  add_sub_shifted Sub false rd (zr_like rd) rm shift AS_Neg.
Definition negs (rd rm : Reg) (shift : RegShift) : fallible :=
  add_sub_shifted Sub true rd (zr_like rd) rm shift AS_Negs.

Definition add_sub_extended (op : AddSubOp) (set_flags : bool) (rd rn rm : Reg)
    (extend : RegExtend) (alias : AddSubAlias) : fallible :=
  fail_if (Reg.is_sp rm) (InvalidRegisterForForm "ADD/SUB extended-register Rm");;
  fail_if (negb (Bool.eqb (Reg.is64 rd) (Reg.is64 rn)))
    (RegisterWidthMismatch "ADD/SUB extended-register");;
  let rm_must_be_64 :=
    match RegExtend.kind extend with Uxtx | Sxtx => true | _ => false end in
  fail_if (negb (Bool.eqb (Reg.is64 rm) rm_must_be_64)) (RegisterWidthMismatch
    "ADD/SUB extended-register Rm width vs extend kind (UXTB/UXTH/UXTW/SXTB/SXTH/SXTW need Wm; UXTX/SXTX need Xm)");;
  fail_if (rm_must_be_64 && negb (Reg.is64 rd)) (RegisterWidthMismatch
    "ADD/SUB extended-register: UXTX/SXTX require a 64-bit (X) destination");;
  Ok (AddSubExtendedReg op set_flags rd rn rm extend alias).

Definition add_extended (rd rn rm : Reg) (extend : RegExtend) : fallible :=
  add_sub_extended Add false rd rn rm extend AS_None.
Definition adds_extended (rd rn rm : Reg) (extend : RegExtend) : fallible :=
  add_sub_extended Add true rd rn rm extend AS_None.
Definition sub_extended (rd rn rm : Reg) (extend : RegExtend) : fallible :=
  add_sub_extended Sub false rd rn rm extend AS_None.
Definition subs_extended (rd rn rm : Reg) (extend : RegExtend) : fallible :=
  add_sub_extended Sub true rd rn rm extend AS_None.
Definition cmp_extended (rn rm : Reg) (extend : RegExtend) : fallible :=
  add_sub_extended Sub true (zr_like rn) rn rm extend AS_Cmp.
Definition cmn_extended (rn rm : Reg) (extend : RegExtend) : fallible :=
  add_sub_extended Add true (zr_like rn) rn rm extend AS_Cmn.

Definition mov_sp (rd rn : Reg) : fallible :=
  add_sub_imm_common false rd rn "MOV (to/from SP)";;
  imm ← Uimm12Lsl.new 0;
  Ok (AddSubImm Add false rd rn imm AS_Mov).

(** *** Logical *)

Definition logical_imm (op : LogicalImmOp) (rd rn : Reg) (imm : LogicalImm)
    (alias : LogicalAlias) : fallible :=
  check_same_width rd rn "AND/ORR/EOR/ANDS (immediate)";;
  fail_if (negb (Bool.eqb (Reg.is64 rd) (LogicalImm.is64 imm)))
    (RegisterWidthMismatch "logical immediate width vs register width");;
  fail_if (Reg.is_sp rn) (InvalidRegisterForForm "AND/ORR/EOR/ANDS (immediate) Rn (no SP)");;
  fail_if (bool_decide (op = LI_Ands) && Reg.is_sp rd)
    (InvalidRegisterForForm "ANDS (immediate) Rd (no SP; flag-setting form)");;
  Ok (LogicalImmInst op rd rn imm alias).

Definition and_imm (rd rn : Reg) (imm : LogicalImm) : fallible :=
  logical_imm LI_And rd rn imm LA_None.
Definition orr_imm (rd rn : Reg) (imm : LogicalImm) : fallible :=
  logical_imm LI_Orr rd rn imm LA_None.
Definition eor_imm (rd rn : Reg) (imm : LogicalImm) : fallible :=
  logical_imm LI_Eor rd rn imm LA_None.
Definition ands_imm (rd rn : Reg) (imm : LogicalImm) : fallible :=
  logical_imm LI_Ands rd rn imm LA_None.
Definition tst_imm (rn : Reg) (imm : LogicalImm) : fallible :=
  logical_imm LI_Ands (zr_like rn) rn imm LA_Tst.

Definition logical_shifted (op : LogicalShiftOp) (rd rn rm : Reg) (shift : RegShift)
    (alias : LogicalAlias) : fallible :=
  check_same_width rd rn "logical shifted-register";;
  check_same_width rd rm "logical shifted-register";;
  fail_if (Reg.is_sp rd || Reg.is_sp rn || Reg.is_sp rm)
    (InvalidRegisterForForm "logical shifted-register (no SP operand)");;
  Ok (LogicalShiftedReg op rd rn rm shift alias).

Definition and_shifted (rd rn rm : Reg) (shift : RegShift) : fallible :=
  logical_shifted LS_And rd rn rm shift LA_None.
Definition orr_shifted (rd rn rm : Reg) (shift : RegShift) : fallible :=
  logical_shifted LS_Orr rd rn rm shift LA_None.
Definition eor_shifted (rd rn rm : Reg) (shift : RegShift) : fallible :=
  logical_shifted LS_Eor rd rn rm shift LA_None.
Definition ands_shifted (rd rn rm : Reg) (shift : RegShift) : fallible :=
  logical_shifted LS_Ands rd rn rm shift LA_None.
Definition bic_shifted (rd rn rm : Reg) (shift : RegShift) : fallible :=
  logical_shifted LS_Bic rd rn rm shift LA_None.
Definition orn_shifted (rd rn rm : Reg) (shift : RegShift) : fallible :=
  logical_shifted LS_Orn rd rn rm shift LA_None.
Definition eon_shifted (rd rn rm : Reg) (shift : RegShift) : fallible :=
  logical_shifted LS_Eon rd rn rm shift LA_None.
Definition bics_shifted (rd rn rm : Reg) (shift : RegShift) : fallible :=
  logical_shifted LS_Bics rd rn rm shift LA_None.
Definition mvn (rd rm : Reg) (shift : RegShift) : fallible :=
  logical_shifted LS_Orn rd (zr_like rd) rm shift LA_Mvn.
Definition tst_reg (rn rm : Reg) (shift : RegShift) : fallible :=
  logical_shifted LS_Ands (zr_like rn) rn rm shift LA_Tst.
Definition mov_reg (rd rm : Reg) : fallible :=
  logical_shifted LS_Orr rd (zr_like rd) rm RegShift.none LA_Mov.

(** *** Bitfield *)

Definition bitfield_raw (op : BitfieldOp) (rd rn : Reg) (immr imms : Z)
    (alias : BitfieldAlias) : fallible :=
  check_same_width rd rn "UBFM/SBFM/BFM";;
  let max := if Reg.is64 rd then 63 else 31 in
  fail_if (max <? immr) (ImmediateOutOfRange "immr" immr);;
  fail_if (max <? imms) (ImmediateOutOfRange "imms" imms);;
  fail_if (Reg.is_sp rd || Reg.is_sp rn)
    (InvalidRegisterForForm "UBFM/SBFM/BFM (no SP operand)");;
  Ok (Bitfield op rd rn immr imms alias).

Definition ubfm (rd rn : Reg) (immr imms : Z) : fallible :=
  bitfield_raw Ubfm rd rn immr imms BA_None.
Definition sbfm (rd rn : Reg) (immr imms : Z) : fallible :=
  bitfield_raw Sbfm rd rn immr imms BA_None.
Definition bfm (rd rn : Reg) (immr imms : Z) : fallible :=
  bitfield_raw Bfm rd rn immr imms BA_None.

Definition reg_width (rd : Reg) : Z := if Reg.is64 rd then 64 else 32.

Definition lsl_imm (rd rn : Reg) (shift : Z) : fallible :=
  let width := reg_width rd in
  fail_if (width <=? shift) (ImmediateOutOfRange "LSL immediate shift" shift);;
  let immr := wrap 8 ((width - shift) mod width) in
  let imms := wrap 8 (width - 1 - shift) in
  bitfield_raw Ubfm rd rn immr imms BA_Lsl.
Definition lsr_imm (rd rn : Reg) (shift : Z) : fallible :=
  let width := reg_width rd in
  fail_if (width <=? shift) (ImmediateOutOfRange "LSR immediate shift" shift);;
  bitfield_raw Ubfm rd rn shift (wrap 8 (width - 1)) BA_Lsr.
Definition asr_imm (rd rn : Reg) (shift : Z) : fallible :=
  let width := reg_width rd in
  fail_if (width <=? shift) (ImmediateOutOfRange "ASR immediate shift" shift);;
  bitfield_raw Sbfm rd rn shift (wrap 8 (width - 1)) BA_Asr.
Definition sxtb (rd rn : Reg) : fallible := bitfield_raw Sbfm rd rn 0 7 BA_Sxtb.
Definition sxth (rd rn : Reg) : fallible := bitfield_raw Sbfm rd rn 0 15 BA_Sxth.
Definition sxtw (rd rn : Reg) : fallible :=
  fail_if (negb (Reg.is64 rd) || Reg.is64 rn) (RegisterWidthMismatch "SXTW (Xd, Wn)");;
  let rn64 := Reg.with64 rn true in
  bitfield_raw Sbfm rd rn64 0 31 BA_Sxtw.
Definition uxtb (rd rn : Reg) : fallible :=
  fail_if (Reg.is64 rd || Reg.is64 rn) (RegisterWidthMismatch "UXTB is a 32-bit-only alias");;
  bitfield_raw Ubfm rd rn 0 7 BA_Uxtb.
Definition uxth (rd rn : Reg) : fallible :=
  fail_if (Reg.is64 rd || Reg.is64 rn) (RegisterWidthMismatch "UXTH is a 32-bit-only alias");;
  bitfield_raw Ubfm rd rn 0 15 BA_Uxth.

(** *** Data-processing: two, three and one source *)

Definition data_proc_2 (op : DataProc2Op) (rd rn rm : Reg) : fallible :=
  check_same_width rd rn "data-processing (2 source)";;
  check_same_width rd rm "data-processing (2 source)";;
  fail_if (Reg.is_sp rd || Reg.is_sp rn || Reg.is_sp rm)
    (InvalidRegisterForForm "data-processing (2 source), no SP operand");;
  Ok (DataProc2Source op rd rn rm).
Definition udiv (rd rn rm : Reg) : fallible := data_proc_2 Udiv rd rn rm.
Definition sdiv (rd rn rm : Reg) : fallible := data_proc_2 Sdiv rd rn rm.
Definition lslv (rd rn rm : Reg) : fallible := data_proc_2 Lslv rd rn rm.
Definition lsrv (rd rn rm : Reg) : fallible := data_proc_2 Lsrv rd rn rm.
Definition asrv (rd rn rm : Reg) : fallible := data_proc_2 Asrv rd rn rm.
Definition rorv (rd rn rm : Reg) : fallible := data_proc_2 Rorv rd rn rm.

Definition madd (rd rn rm ra : Reg) : fallible :=
  check_same_width rd rn "MADD";;
  check_same_width rd rm "MADD";;
  check_same_width rd ra "MADD";;
  fail_if (existsb Reg.is_sp [rd; rn; rm; ra]) (InvalidRegisterForForm "MADD (no SP operand)");;
  Ok (DataProc3Source Madd rd rn rm ra false).
Definition msub (rd rn rm ra : Reg) : fallible :=
  check_same_width rd rn "MSUB";;
  check_same_width rd rm "MSUB";;
  check_same_width rd ra "MSUB";;
  fail_if (existsb Reg.is_sp [rd; rn; rm; ra]) (InvalidRegisterForForm "MSUB (no SP operand)");;
  Ok (DataProc3Source Msub rd rn rm ra false).
Definition mul (rd rn rm : Reg) : fallible :=
  let ra := zr_like rd in
  check_same_width rd rn "MUL";;
  check_same_width rd rm "MUL";;
  Ok (DataProc3Source Madd rd rn rm ra true).
Definition mulh (op : DataProc3Op) (rd rn rm : Reg) : fallible :=
  fail_if (negb (Reg.is64 rd) || negb (Reg.is64 rn) || negb (Reg.is64 rm))
    (RegisterWidthMismatch "SMULH/UMULH is 64-bit only");;
  Ok (DataProc3Source op rd rn rm Reg.xzr false).
Definition smulh (rd rn rm : Reg) : fallible := mulh Smulh rd rn rm.
Definition umulh (rd rn rm : Reg) : fallible := mulh Umulh rd rn rm.

Definition data_proc_1 (op : DataProc1Op) (rd rn : Reg) : fallible :=
  check_same_width rd rn "CLZ/RBIT/REV";;
  fail_if (Reg.is_sp rd || Reg.is_sp rn)
    (InvalidRegisterForForm "CLZ/RBIT/REV (no SP operand)");;
  Ok (DataProc1Source op rd rn).
Definition clz (rd rn : Reg) : fallible := data_proc_1 Clz rd rn.
Definition rbit (rd rn : Reg) : fallible := data_proc_1 Rbit rd rn.
Definition rev (rd rn : Reg) : fallible := data_proc_1 Rev rd rn.

(** *** Conditional select *)

Definition cond_select (op : CondSelectOp) (rd rn rm : Reg) (cond : Cond)
    (alias : CondSelectAlias) : fallible :=
  check_same_width rd rn "CSEL/CSINC/CSINV/CSNEG";;
  check_same_width rd rm "CSEL/CSINC/CSINV/CSNEG";;
  fail_if (Reg.is_sp rd || Reg.is_sp rn || Reg.is_sp rm)
    (InvalidRegisterForForm "CSEL/CSINC/CSINV/CSNEG (no SP operand)");;
  Ok (CondSelect op rd rn rm cond alias).
Definition csel (rd rn rm : Reg) (cond : Cond) : fallible :=
  cond_select Csel rd rn rm cond CA_None.
Definition csinc (rd rn rm : Reg) (cond : Cond) : fallible :=
  cond_select Csinc rd rn rm cond CA_None.
Definition csinv (rd rn rm : Reg) (cond : Cond) : fallible :=
  cond_select Csinv rd rn rm cond CA_None.
Definition csneg (rd rn rm : Reg) (cond : Cond) : fallible :=
  cond_select Csneg rd rn rm cond CA_None.

Definition require_conditional (cond : Cond) (what : string) : result EncodeError unit :=
  if bool_decide (cond = Cond.AL) || bool_decide (cond = Cond.NV)
  then Err (InvalidShiftForForm what) else Ok ().

Definition cset (rd : Reg) (cond : Cond) : fallible :=
  require_conditional cond "CSET";;
  let z := zr_like rd in
  cond_select Csinc rd z z (Cond.inverted cond) CA_Cset.
Definition csetm (rd : Reg) (cond : Cond) : fallible :=
  require_conditional cond "CSETM";;
  let z := zr_like rd in
  cond_select Csinv rd z z (Cond.inverted cond) CA_Csetm.
Definition cinc (rd rn : Reg) (cond : Cond) : fallible :=
  require_conditional cond "CINC";;
  cond_select Csinc rd rn rn (Cond.inverted cond) CA_Cinc.
Definition cinv (rd rn : Reg) (cond : Cond) : fallible :=
  require_conditional cond "CINV";;
  cond_select Csinv rd rn rn (Cond.inverted cond) CA_Cinv.
Definition cneg (rd rn : Reg) (cond : Cond) : fallible :=
  require_conditional cond "CNEG";;
  cond_select Csneg rd rn rn (Cond.inverted cond) CA_Cneg.

(** *** PC-relative addresses and branches *)

Definition adr (rd : Reg) (offset : AdrOffset) : fallible :=
  fail_if (negb (Reg.is64 rd)) (RegisterWidthMismatch "ADR destination is always 64-bit");;
  Ok (Adr rd offset).
Definition adrp (rd : Reg) (offset : AdrpOffset) : fallible :=
  fail_if (negb (Reg.is64 rd)) (RegisterWidthMismatch "ADRP destination is always 64-bit");;
  Ok (Adrp rd offset).
Definition b (offset : BranchOffset) : Inst := Branch false offset.
Definition bl (offset : BranchOffset) : Inst := Branch true offset.
Definition b_cond (cond : Cond) (offset : BranchOffset) : Inst := BranchCond cond offset.
Definition cbz (rt : Reg) (offset : BranchOffset) : Inst :=
  CompareBranch (Reg.is64 rt) false rt offset.
Definition cbnz (rt : Reg) (offset : BranchOffset) : Inst :=
  CompareBranch (Reg.is64 rt) true rt offset.
Definition test_branch (is_nonzero : bool) (rt : Reg) (bit : Z) (offset : BranchOffset) :
    fallible :=
  let max_bit := if Reg.is64 rt then 63 else 31 in
  fail_if (max_bit <? bit) (ImmediateOutOfRange "TBZ/TBNZ bit index" bit);;
  Ok (TestBranch is_nonzero rt bit offset).
Definition tbz (rt : Reg) (bit : Z) (offset : BranchOffset) : fallible :=
  test_branch false rt bit offset.
Definition tbnz (rt : Reg) (bit : Z) (offset : BranchOffset) : fallible :=
  test_branch true rt bit offset.
Definition br (rn : Reg) : fallible :=
  fail_if (negb (Reg.is64 rn)) (RegisterWidthMismatch "BR target is always 64-bit");;
  Ok (BranchReg rn).
Definition blr (rn : Reg) : fallible :=
  fail_if (negb (Reg.is64 rn)) (RegisterWidthMismatch "BLR target is always 64-bit");;
  Ok (BranchLinkReg rn).
Definition ret (rn : Reg) : fallible :=
  fail_if (negb (Reg.is64 rn)) (RegisterWidthMismatch "RET target is always 64-bit");;
  Ok (Ret rn).

(** *** Loads and stores *)

Definition load_store (op : LdStOp) (rt rn : Reg) (mode : AddrMode) : fallible :=
  fail_if (negb (Bool.eqb (Reg.is64 rt) (rt_is64 op)))
    (RegisterWidthMismatch "load/store Rt width vs mnemonic");;
  fail_if (negb (Reg.is_sp rn) && Reg.is_zr rn) (InvalidRegisterForForm
    "load/store base register (XZR is not a real base; use an explicit address)");;
  fail_if (negb (Reg.is64 rn))
    (RegisterWidthMismatch "load/store base register is always 64-bit");;
  let has_writeback := match mode with PreIndex _ | PostIndex _ => true | _ => false end in
  fail_if (has_writeback && (Reg.encoding rt =? Reg.encoding rn)) (InvalidRegisterForForm
    "load/store writeback: Rt and Rn name the same register");;
  Ok (LoadStoreImm op rt rn mode).

Definition ldr (rt rn : Reg) (mode : AddrMode) : fallible :=
  load_store (if Reg.is64 rt then LdrX else LdrW) rt rn mode.
Definition str_ (rt rn : Reg) (mode : AddrMode) : fallible :=
  load_store (if Reg.is64 rt then StrX else StrW) rt rn mode.
Definition ldrb (rt rn : Reg) (mode : AddrMode) : fallible := load_store LdrB rt rn mode.
Definition strb (rt rn : Reg) (mode : AddrMode) : fallible := load_store StrB rt rn mode.
Definition ldrh (rt rn : Reg) (mode : AddrMode) : fallible := load_store LdrH rt rn mode.
Definition strh (rt rn : Reg) (mode : AddrMode) : fallible := load_store StrH rt rn mode.
Definition ldrsb (rt rn : Reg) (mode : AddrMode) : fallible :=
  load_store (LdrSb (Reg.is64 rt)) rt rn mode.
Definition ldrsh (rt rn : Reg) (mode : AddrMode) : fallible :=
  load_store (LdrSh (Reg.is64 rt)) rt rn mode.
Definition ldrsw (rt rn : Reg) (mode : AddrMode) : fallible := load_store LdrSw rt rn mode.

Definition load_store_pair (is_load : bool) (rt1 rt2 rn : Reg) (imm : SImm7Scaled)
    (index : PairIndex) : fallible :=
  check_same_width rt1 rt2 "LDP/STP";;
  fail_if (negb (Reg.is64 rn)) (RegisterWidthMismatch "LDP/STP base register is always 64-bit");;
  let has_writeback :=
    match index with PI_PreIndex | PI_PostIndex => true | PI_Offset => false end in
  fail_if (has_writeback && ((Reg.encoding rt1 =? Reg.encoding rn)
                             || (Reg.encoding rt2 =? Reg.encoding rn)))
    (InvalidRegisterForForm "LDP/STP writeback: Rt1/Rt2 and Rn name the same register");;
  fail_if (is_load && (Reg.encoding rt1 =? Reg.encoding rt2))
    (InvalidRegisterForForm "LDP Rt1 and Rt2 name the same register");;
  Ok (LoadStorePair is_load (Reg.is64 rt1) rt1 rt2 rn imm index).
Definition ldp (rt1 rt2 rn : Reg) (imm : SImm7Scaled) (index : PairIndex) : fallible :=
  load_store_pair true rt1 rt2 rn imm index.
Definition stp (rt1 rt2 rn : Reg) (imm : SImm7Scaled) (index : PairIndex) : fallible :=
  load_store_pair false rt1 rt2 rn imm index.

(** *** System *)

Definition nop : Inst := System Nop.
Definition brk (imm16 : Z) : Inst := System (Brk imm16).
Definition svc (imm16 : Z) : Inst := System (Svc imm16).
Definition udf (imm16 : Z) : Inst := System (Udf imm16).

(** *** Scalar floating point (fp.rs) *)

Definition fmov_reg (rd rn : FpReg) : fallible :=
  check_same_fp_width rd rn "FMOV (register)";; Ok (FpDataProc1 Fmov rd rn).
Definition fabs (rd rn : FpReg) : fallible :=
  check_same_fp_width rd rn "FABS";; Ok (FpDataProc1 Fabs rd rn).
Definition fneg (rd rn : FpReg) : fallible :=
  check_same_fp_width rd rn "FNEG";; Ok (FpDataProc1 Fneg rd rn).
Definition fsqrt (rd rn : FpReg) : fallible :=
  check_same_fp_width rd rn "FSQRT";; Ok (FpDataProc1 Fsqrt rd rn).
Definition fcvt (rd rn : FpReg) : fallible :=
  fail_if (Bool.eqb (FpReg.is_double rd) (FpReg.is_double rn)) (RegisterWidthMismatch
    "FCVT requires differing S/D widths (use FMOV for same-width)");;
  Ok (FpConvert rd rn).
Definition fp_binop (op : FpBinOp) (rd rn rm : FpReg) : fallible :=
  check_same_fp_width rd rn "FADD/FSUB/FMUL/FDIV";;
  check_same_fp_width rd rm "FADD/FSUB/FMUL/FDIV";;
  Ok (FpDataProc2 op rd rn rm).
Definition fadd (rd rn rm : FpReg) : fallible := fp_binop Fadd rd rn rm.
Definition fsub (rd rn rm : FpReg) : fallible := fp_binop Fsub rd rn rm.
Definition fmul (rd rn rm : FpReg) : fallible := fp_binop Fmul rd rn rm.
Definition fdiv (rd rn rm : FpReg) : fallible := fp_binop Fdiv rd rn rm.
Definition fmadd (rd rn rm ra : FpReg) : fallible :=
  check_same_fp_width rd rn "FMADD";;
  check_same_fp_width rd rm "FMADD";;
  check_same_fp_width rd ra "FMADD";;
  Ok (FpMadd rd rn rm ra).
Definition fcmp (rn rm : FpReg) : fallible :=
  check_same_fp_width rn rm "FCMP";; Ok (FpCompare rn rm).
Definition fcsel (rd rn rm : FpReg) (cond : Cond) : fallible :=
  check_same_fp_width rd rn "FCSEL";;
  check_same_fp_width rd rm "FCSEL";;
  Ok (FpCondSelect rd rn rm cond).
Definition fmov_imm (rd : FpReg) (imm : FpImm8) : fallible :=
  fail_if (negb (Bool.eqb (FpReg.is_double rd) (FpImm8.is64 imm)))
    (RegisterWidthMismatch "FMOV immediate width vs destination register");;
  Ok (FpImmMove rd imm).
Definition fmov_to_gp (rd : Reg) (rn : FpReg) : fallible :=
  fail_if (negb (Bool.eqb (Reg.is64 rd) (FpReg.is_double rn)))
    (RegisterWidthMismatch "FMOV Xd/Wd, Dn/Sn width mismatch");;
  Ok (FpToGp rd rn).
Definition fmov_from_gp (rd : FpReg) (rn : Reg) : fallible :=
  fail_if (negb (Bool.eqb (FpReg.is_double rd) (Reg.is64 rn)))
    (RegisterWidthMismatch "FMOV Dd/Sd, Xn/Wn width mismatch");;
  Ok (GpToFp rd rn).
Definition scvtf (rd : FpReg) (rn : Reg) : fallible := Ok (FpIntConvert Scvtf rn rd).
Definition ucvtf (rd : FpReg) (rn : Reg) : fallible := Ok (FpIntConvert Ucvtf rn rd).
Definition fcvtzs (rd : Reg) (rn : FpReg) : fallible := Ok (FpIntConvert Fcvtzs rd rn).
Definition fcvtzu (rd : Reg) (rn : FpReg) : fallible := Ok (FpIntConvert Fcvtzu rd rn).
Definition ldr_fp (rt : FpReg) (rn : Reg) (mode : AddrMode) : fallible :=
  fail_if (negb (Reg.is64 rn))
    (RegisterWidthMismatch "load/store base register is always 64-bit");;
  Ok (FpLoadStoreImm true rt rn mode).
Definition str_fp (rt : FpReg) (rn : Reg) (mode : AddrMode) : fallible :=
  fail_if (negb (Reg.is64 rn))
    (RegisterWidthMismatch "load/store base register is always 64-bit");;
  Ok (FpLoadStoreImm false rt rn mode).

End Inst.
