(* ===== verification/AsmWf.v ===== *)
(** * Well-formed instructions

    What the constructors of [AsmInst] establish about every instruction they
    return: each field in the range of the bits it is encoded into, register
    widths in agreement.  [built] lists the public constructors, each applied
    to any operands that the operands' own constructors return.

    Three operand types carry a size the constructors do not compare with the
    instruction ([BranchOffset]'s field width, the access size of
    [UScaledImm12] and [SImm7Scaled]).  So the constructors establish only
    [wf_core], where such an operand is in the range of its own size
    ([built_core]); an instruction is well formed, [wf_inst], when moreover
    the sizes agree, [agrees] ([built_wf]).  [branch_offset_width_unchecked]
    and [access_size_unchecked] of [AsmProps] are instructions that do not
    agree. *)

From S2P Require Import Prelude AsmReg AsmBitmask AsmOperand AsmInst.

Definition mode_wf (size : Z) (m : AddrMode) : Prop :=
  match m with
  | UnsignedOffset imm => UScaledImm12.wf size imm
  | Unscaled imm | PreIndex imm | PostIndex imm => Simm9.wf imm
  | AM_RegOffset ro => RegOffset.wf ro
  end.

#[global] Instance mode_wf_dec size m : Decision (mode_wf size m).
Proof. destruct m; simpl; apply _. Defined.

(** Two operands of one width. *)
Definition wf2 (rd rn : Reg) : Prop :=
  Reg.wf rd ∧ Reg.wf rn ∧ Reg.is64 rn = Reg.is64 rd.
Definition fwf2 (rd rn : FpReg) : Prop :=
  FpReg.wf rd ∧ FpReg.wf rn ∧ FpReg.is_double rn = FpReg.is_double rd.

Definition ext_is64 (k : ExtendKind) : bool :=
  match k with Uxtx | Sxtx => true | _ => false end.

Definition wf_inst (i : Inst) : Prop :=
  match i with
  | MovWide _ rd imm16 shift =>
      Reg.wf rd ∧ unsigned 16 imm16 ∧ shift mod 16 = 0 ∧
      0 ≤ shift ≤ (if Reg.is64 rd then 48 else 16)
  | AddSubImm _ _ rd rn imm _ => wf2 rd rn ∧ Uimm12Lsl.wf imm
  | AddSubShiftedReg _ _ rd rn rm shift _ =>
      wf2 rd rn ∧ wf2 rd rm ∧ RegShift.wf shift ∧ RegShift.kind shift ≠ Ror
  | AddSubExtendedReg _ _ rd rn rm extend _ =>
      wf2 rd rn ∧ Reg.wf rm ∧ RegExtend.wf extend ∧
      Reg.is64 rm = ext_is64 (RegExtend.kind extend)
  | LogicalImmInst _ rd rn imm _ =>
      wf2 rd rn ∧ LogicalImm.wf imm ∧ LogicalImm.is64 imm = Reg.is64 rd
  | LogicalShiftedReg _ rd rn rm shift _ => wf2 rd rn ∧ wf2 rd rm ∧ RegShift.wf shift
  | Bitfield _ rd rn immr imms _ => wf2 rd rn ∧ unsigned 6 immr ∧ unsigned 6 imms
  | DataProc2Source _ rd rn rm => wf2 rd rn ∧ wf2 rd rm
  | DataProc3Source _ rd rn rm ra _ => wf2 rd rn ∧ wf2 rd rm ∧ wf2 rd ra
  | DataProc1Source _ rd rn => wf2 rd rn
  | CondSelect _ rd rn rm cond _ => wf2 rd rn ∧ wf2 rd rm ∧ Cond.wf cond
  | Adr rd offset => Reg.wf rd ∧ Reg.is64 rd = true ∧ AdrOffset.wf offset
  | Adrp rd offset => Reg.wf rd ∧ Reg.is64 rd = true ∧ AdrpOffset.wf offset
  | Branch _ offset => BranchOffset.wf 26 offset
  | BranchCond cond offset => Cond.wf cond ∧ BranchOffset.wf 19 offset
  | CompareBranch is64 _ rt offset =>
      Reg.wf rt ∧ Reg.is64 rt = is64 ∧ BranchOffset.wf 19 offset
  | TestBranch _ rt bit offset =>
      Reg.wf rt ∧ 0 ≤ bit ≤ (if Reg.is64 rt then 63 else 31) ∧ BranchOffset.wf 14 offset
  | BranchReg rn | BranchLinkReg rn | Ret rn => Reg.wf rn ∧ Reg.is64 rn = true
  | LoadStoreImm op rt rn mode =>
      Reg.wf rt ∧ Reg.is64 rt = rt_is64 op ∧ Reg.wf rn ∧ Reg.is64 rn = true ∧
      mode_wf (access_size op) mode
  | LoadStorePair _ is64 rt1 rt2 rn imm _ =>
      wf2 rt1 rt2 ∧ Reg.is64 rt1 = is64 ∧ Reg.wf rn ∧ Reg.is64 rn = true ∧
      SImm7Scaled.wf (if is64 then 8 else 4) imm
  | FpLoadStoreImm _ rt rn mode =>
      FpReg.wf rt ∧ Reg.wf rn ∧ Reg.is64 rn = true ∧
      mode_wf (if FpReg.is_double rt then 8 else 4) mode
  | System (Brk imm16 | Svc imm16 | Udf imm16) => unsigned 16 imm16
  | System Nop => True
  | FpDataProc1 _ rd rn => fwf2 rd rn
  | FpConvert rd rn =>
      FpReg.wf rd ∧ FpReg.wf rn ∧ FpReg.is_double rn = negb (FpReg.is_double rd)
  | FpDataProc2 _ rd rn rm => fwf2 rd rn ∧ fwf2 rd rm
  | FpCompare rn rm => fwf2 rn rm
  | FpCondSelect rd rn rm cond => fwf2 rd rn ∧ fwf2 rd rm ∧ Cond.wf cond
  | FpImmMove rd imm => FpReg.wf rd ∧ FpImm8.wf imm ∧ FpImm8.is64 imm = FpReg.is_double rd
  | FpToGp rd rn => Reg.wf rd ∧ FpReg.wf rn ∧ FpReg.is_double rn = Reg.is64 rd
  | GpToFp rd rn => FpReg.wf rd ∧ Reg.wf rn ∧ Reg.is64 rn = FpReg.is_double rd
  | FpIntConvert _ gp fp => Reg.wf gp ∧ FpReg.wf fp
  | FpMadd rd rn rm ra => fwf2 rd rn ∧ fwf2 rd rm ∧ fwf2 rd ra
  end.

#[global] Instance wf_inst_dec i : Decision (wf_inst i).
Proof.
  unfold wf2, fwf2.
  destruct i; simpl; unfold wf2, fwf2; try apply _.
  destruct op; apply _.
Defined.

(** The sizes that the constructors do not compare: the width a branch offset
    was validated for against the field of the form, the access size of a
    scaled offset against that of the access. *)
Definition mode_agrees (size : Z) (m : AddrMode) : Prop :=
  match m with
  | UnsignedOffset imm => UScaledImm12.access_size imm = size
  | _ => True
  end.

Definition agrees (i : Inst) : Prop :=
  match i with
  | Branch _ offset => BranchOffset.bits offset = 26
  | BranchCond _ offset | CompareBranch _ _ _ offset => BranchOffset.bits offset = 19
  | TestBranch _ _ _ offset => BranchOffset.bits offset = 14
  | LoadStoreImm op _ _ mode => mode_agrees (access_size op) mode
  | LoadStorePair _ is64 _ _ _ imm _ => SImm7Scaled.access_size imm = if is64 then 8 else 4
  | FpLoadStoreImm _ rt _ mode => mode_agrees (if FpReg.is_double rt then 8 else 4) mode
  | _ => True
  end.

(** An operand in the range of the size it carries. *)
Definition offset_core (o : BranchOffset) : Prop := BranchOffset.wf (BranchOffset.bits o) o.
Definition pair_core (imm : SImm7Scaled) : Prop :=
  SImm7Scaled.wf (SImm7Scaled.access_size imm) imm.
Definition mode_core (m : AddrMode) : Prop :=
  match m with
  | UnsignedOffset imm => UScaledImm12.wf (UScaledImm12.access_size imm) imm
  | _ => mode_wf 0 m
  end.

(** [wf_inst] up to those sizes. *)
Definition wf_core (i : Inst) : Prop :=
  match i with
  | Branch _ offset => offset_core offset
  | BranchCond cond offset => Cond.wf cond ∧ offset_core offset
  | CompareBranch is64 _ rt offset => Reg.wf rt ∧ Reg.is64 rt = is64 ∧ offset_core offset
  | TestBranch _ rt bit offset =>
      Reg.wf rt ∧ 0 ≤ bit ≤ (if Reg.is64 rt then 63 else 31) ∧ offset_core offset
  | LoadStoreImm op rt rn mode =>
      Reg.wf rt ∧ Reg.is64 rt = rt_is64 op ∧ Reg.wf rn ∧ Reg.is64 rn = true ∧ mode_core mode
  | LoadStorePair _ is64 rt1 rt2 rn imm _ =>
      wf2 rt1 rt2 ∧ Reg.is64 rt1 = is64 ∧ Reg.wf rn ∧ Reg.is64 rn = true ∧ pair_core imm
  | FpLoadStoreImm _ rt rn mode =>
      FpReg.wf rt ∧ Reg.wf rn ∧ Reg.is64 rn = true ∧ mode_core mode
  | _ => wf_inst i
  end.

Lemma offset_core_wf b o : BranchOffset.wf b o ↔ offset_core o ∧ BranchOffset.bits o = b.
Proof.
  unfold offset_core, BranchOffset.wf.
  split; [by intros [-> ?]|by intros [[_ ?] <-]].
Qed.
Lemma pair_core_wf size imm :
  SImm7Scaled.wf size imm ↔ pair_core imm ∧ SImm7Scaled.access_size imm = size.
Proof.
  unfold pair_core, SImm7Scaled.wf.
  split; [by intros [-> ?]|by intros [[_ ?] <-]].
Qed.
Lemma mode_core_wf size m : mode_wf size m ↔ mode_core m ∧ mode_agrees size m.
Proof.
  destruct m; simpl; try tauto. unfold UScaledImm12.wf.
  split; [by intros [-> ?]|by intros [[_ ?] <-]].
Qed.

(** Well-formedness is the two together. *)
Lemma wf_inst_split i : wf_inst i ↔ wf_core i ∧ agrees i.
Proof.
  destruct i; simpl; rewrite ?mode_core_wf, ?offset_core_wf, ?pair_core_wf; tauto.
Qed.

Lemma wf_inst_core i : wf_inst i → wf_core i.
Proof. by intros [H _]%wf_inst_split. Qed.

(** ** The instructions the API can build

    Each rule stands for the constructors of one signature.  A branch or a
    scaled offset is whatever [new] of its type returned, at any width (for
    which the shift in [new] does not overflow) and any access size. *)

Definition offset_built (o : BranchOffset) : Prop :=
  ∃ bytes bits what, 1 ≤ bits ≤ 63 ∧ BranchOffset.new bytes bits what = Ok o.
Definition pair_built (imm : SImm7Scaled) : Prop :=
  ∃ bytes size, unsigned 32 size ∧ SImm7Scaled.new bytes size = Done (Ok imm).
Definition mode_built (m : AddrMode) : Prop :=
  match m with
  | UnsignedOffset imm =>
      ∃ bytes size, unsigned 32 size ∧ UScaledImm12.new bytes size = Done (Ok imm)
  | _ => mode_core m
  end.

Inductive built : Inst → Prop :=
  | built_mov_wide f rd imm16 shift i :
      f ∈ [Inst.movz; Inst.movn; Inst.movk] →
      Reg.wf rd → unsigned 16 imm16 → unsigned 8 shift →
      f rd imm16 shift = Ok i → built i
  | built_add_sub_imm f rd rn imm i :
      f ∈ [Inst.add_imm; Inst.adds_imm; Inst.sub_imm; Inst.subs_imm] →
      Reg.wf rd → Reg.wf rn → Uimm12Lsl.wf imm → f rd rn imm = Ok i → built i
  | built_cmp_imm f rn imm i :
      f ∈ [Inst.cmp_imm; Inst.cmn_imm] →
      Reg.wf rn → Uimm12Lsl.wf imm → f rn imm = Ok i → built i
  | built_shifted f rd rn rm shift i :
      f ∈ [Inst.add_shifted; Inst.adds_shifted; Inst.sub_shifted; Inst.subs_shifted;
           Inst.and_shifted; Inst.orr_shifted; Inst.eor_shifted; Inst.ands_shifted;
           Inst.bic_shifted; Inst.orn_shifted; Inst.eon_shifted; Inst.bics_shifted] →
      Reg.wf rd → Reg.wf rn → Reg.wf rm → RegShift.wf shift →
      f rd rn rm shift = Ok i → built i
  | built_shifted_alias f r1 r2 shift i :
      f ∈ [Inst.cmp_shifted; Inst.cmn_shifted; Inst.neg; Inst.negs; Inst.mvn; Inst.tst_reg] →
      Reg.wf r1 → Reg.wf r2 → RegShift.wf shift → f r1 r2 shift = Ok i → built i
  | built_extended f rd rn rm extend i :
      f ∈ [Inst.add_extended; Inst.adds_extended; Inst.sub_extended; Inst.subs_extended] →
      Reg.wf rd → Reg.wf rn → Reg.wf rm → RegExtend.wf extend →
      f rd rn rm extend = Ok i → built i
  | built_extended_alias f rn rm extend i :
      f ∈ [Inst.cmp_extended; Inst.cmn_extended] →
      Reg.wf rn → Reg.wf rm → RegExtend.wf extend → f rn rm extend = Ok i → built i
  | built_rr f rd rn i :
      f ∈ [Inst.mov_sp; Inst.mov_reg; Inst.sxtb; Inst.sxth; Inst.sxtw; Inst.uxtb; Inst.uxth;
           Inst.clz; Inst.rbit; Inst.rev] →
      Reg.wf rd → Reg.wf rn → f rd rn = Ok i → built i
  | built_logical_imm f rd rn imm i :
      f ∈ [Inst.and_imm; Inst.orr_imm; Inst.eor_imm; Inst.ands_imm] →
      Reg.wf rd → Reg.wf rn → LogicalImm.wf imm → f rd rn imm = Ok i → built i
  | built_tst_imm rn imm i :
      Reg.wf rn → LogicalImm.wf imm → Inst.tst_imm rn imm = Ok i → built i
  | built_bitfield f rd rn immr imms i :
      f ∈ [Inst.ubfm; Inst.sbfm; Inst.bfm] →
      Reg.wf rd → Reg.wf rn → unsigned 8 immr → unsigned 8 imms →
      f rd rn immr imms = Ok i → built i
  | built_shift_imm f rd rn shift i :
      f ∈ [Inst.lsl_imm; Inst.lsr_imm; Inst.asr_imm] →
      Reg.wf rd → Reg.wf rn → unsigned 8 shift → f rd rn shift = Ok i → built i
  | built_rrr f rd rn rm i :
      f ∈ [Inst.udiv; Inst.sdiv; Inst.lslv; Inst.lsrv; Inst.asrv; Inst.rorv;
           Inst.mul; Inst.smulh; Inst.umulh] →
      Reg.wf rd → Reg.wf rn → Reg.wf rm → f rd rn rm = Ok i → built i
  | built_rrrr f rd rn rm ra i :
      f ∈ [Inst.madd; Inst.msub] →
      Reg.wf rd → Reg.wf rn → Reg.wf rm → Reg.wf ra → f rd rn rm ra = Ok i → built i
  | built_csel f rd rn rm cond i :
      f ∈ [Inst.csel; Inst.csinc; Inst.csinv; Inst.csneg] →
      Reg.wf rd → Reg.wf rn → Reg.wf rm → Cond.wf cond → f rd rn rm cond = Ok i → built i
  | built_cset f rd cond i :
      f ∈ [Inst.cset; Inst.csetm] → Reg.wf rd → Cond.wf cond → f rd cond = Ok i → built i
  | built_cinc f rd rn cond i :
      f ∈ [Inst.cinc; Inst.cinv; Inst.cneg] →
      Reg.wf rd → Reg.wf rn → Cond.wf cond → f rd rn cond = Ok i → built i
  | built_adr rd offset i :
      Reg.wf rd → AdrOffset.wf offset → Inst.adr rd offset = Ok i → built i
  | built_adrp rd offset i :
      Reg.wf rd → AdrpOffset.wf offset → Inst.adrp rd offset = Ok i → built i
  | built_branch f offset :
      f ∈ [Inst.b; Inst.bl] → offset_built offset → built (f offset)
  | built_b_cond cond offset :
      Cond.wf cond → offset_built offset → built (Inst.b_cond cond offset)
  | built_compare_branch f rt offset :
      f ∈ [Inst.cbz; Inst.cbnz] → Reg.wf rt → offset_built offset →
      built (f rt offset)
  | built_test_branch f rt bit offset i :
      f ∈ [Inst.tbz; Inst.tbnz] → Reg.wf rt → unsigned 8 bit → offset_built offset →
      f rt bit offset = Ok i → built i
  | built_branch_reg f rn i :
      f ∈ [Inst.br; Inst.blr; Inst.ret] → Reg.wf rn → f rn = Ok i → built i
  | built_load_store f rt rn mode i :
      f ∈ [Inst.ldr; Inst.str_; Inst.ldrb; Inst.strb; Inst.ldrh; Inst.strh;
           Inst.ldrsb; Inst.ldrsh; Inst.ldrsw] →
      Reg.wf rt → Reg.wf rn → mode_built mode → f rt rn mode = Ok i → built i
  | built_load_store_pair f rt1 rt2 rn imm index i :
      f ∈ [Inst.ldp; Inst.stp] →
      Reg.wf rt1 → Reg.wf rt2 → Reg.wf rn → pair_built imm →
      f rt1 rt2 rn imm index = Ok i → built i
  | built_nop : built Inst.nop
  | built_sys f imm16 :
      f ∈ [Inst.brk; Inst.svc; Inst.udf] → unsigned 16 imm16 → built (f imm16)
  | built_fp_unary f rd rn i :
      f ∈ [Inst.fmov_reg; Inst.fabs; Inst.fneg; Inst.fsqrt; Inst.fcvt; Inst.fcmp] →
      FpReg.wf rd → FpReg.wf rn → f rd rn = Ok i → built i
  | built_fp_binary f rd rn rm i :
      f ∈ [Inst.fadd; Inst.fsub; Inst.fmul; Inst.fdiv] →
      FpReg.wf rd → FpReg.wf rn → FpReg.wf rm → f rd rn rm = Ok i → built i
  | built_fmadd rd rn rm ra i :
      FpReg.wf rd → FpReg.wf rn → FpReg.wf rm → FpReg.wf ra →
      Inst.fmadd rd rn rm ra = Ok i → built i
  | built_fcsel rd rn rm cond i :
      FpReg.wf rd → FpReg.wf rn → FpReg.wf rm → Cond.wf cond →
      Inst.fcsel rd rn rm cond = Ok i → built i
  | built_fmov_imm rd imm i :
      FpReg.wf rd → FpImm8.wf imm → Inst.fmov_imm rd imm = Ok i → built i
  | built_to_gp f rd rn i :
      f ∈ [Inst.fmov_to_gp; Inst.fcvtzs; Inst.fcvtzu] →
      Reg.wf rd → FpReg.wf rn → f rd rn = Ok i → built i
  | built_from_gp f rd rn i :
      f ∈ [Inst.fmov_from_gp; Inst.scvtf; Inst.ucvtf] →
      FpReg.wf rd → Reg.wf rn → f rd rn = Ok i → built i
  | built_fp_load_store f rt rn mode i :
      f ∈ [Inst.ldr_fp; Inst.str_fp] →
      FpReg.wf rt → Reg.wf rn → mode_built mode → f rt rn mode = Ok i → built i.

(** What [new] of those operands returns is in the range of its own size. *)
Lemma offset_built_core o : offset_built o → offset_core o.
Proof.
  intros (bytes & bits & what & Hb & H). unfold BranchOffset.new in H.
  rewrite shl_i64_1 in H by lia. inv_ok.
  match goal with H : _ || _ = false |- _ => apply orb_false_iff in H as [??] end.
  unfold offset_core, BranchOffset.wf. simpl. split; [done|]. set (q := Z.quot bytes 4) in *.
  assert (signed bits q) as Hq by (unfold signed; lia).
  pose proof (to_signed_range 32 ltac:(lia) q) as H32.
  destruct (Z.le_gt_cases bits 32) as [Hs|Hs].
  - rewrite to_signed_small; [done|lia|]. unfold signed in *.
    pose proof (Z.pow_le_mono_r 2 (bits - 1) (32 - 1)). lia.
  - unfold signed in *. pose proof (Z.pow_le_mono_r 2 (32 - 1) (bits - 1)). lia.
Qed.
Lemma pair_built_core imm : pair_built imm → pair_core imm.
Proof.
  intros (bytes & size & Hs & H). pose proof (simm7_scaled_exact bytes size Hs) as Hx.
  rewrite H in Hx. destruct Hx as (_ & [Ha Hw] & _). by split.
Qed.
Lemma mode_built_core m : mode_built m → mode_core m.
Proof.
  destruct m; simpl; try done. intros (bytes & size & Hs & H).
  pose proof (scaled_imm12_exact bytes size Hs) as Hx.
  rewrite H in Hx. destruct Hx as (_ & [Ha Hw] & _). by split.
Qed.

(** ** What the constructors' guards say *)

Lemma negb_eqb_false a b : negb (Bool.eqb a b) = false → a = b.
Proof. by destruct a, b. Qed.
Lemma eqb_false_negb a b : Bool.eqb a b = false → b = negb a.
Proof. by destruct a, b. Qed.

Lemma check_same_width_Ok a b what u :
  check_same_width a b what = Ok u → Reg.is64 b = Reg.is64 a.
Proof. unfold check_same_width. by destruct (Reg.is64 a), (Reg.is64 b). Qed.

Lemma check_same_fp_width_Ok a b what u :
  check_same_fp_width a b what = Ok u → FpReg.is_double b = FpReg.is_double a.
Proof. unfold check_same_fp_width. by destruct (FpReg.is_double a), (FpReg.is_double b). Qed.

Lemma add_sub_imm_common_Ok sf rd rn what u :
  Inst.add_sub_imm_common sf rd rn what = Ok u → Reg.is64 rn = Reg.is64 rd.
Proof. unfold Inst.add_sub_imm_common. intros H. inv_ok. by eapply check_same_width_Ok. Qed.

(** [f ∈ [f1; .. ; fn]] case by case, the guards of the chosen constructor
    turned into equations. *)
Ltac each_constructor :=
  repeat match goal with
  | H : _ ∈ _ :: _ |- _ => apply elem_of_cons in H as [H|H]; [simplify_eq|]
  | H : _ ∈ [] |- _ => by apply not_elem_of_nil in H
  end.
Ltac guards_step :=
  match goal with
  | H : check_same_width _ _ _ = Ok _ |- _ => apply check_same_width_Ok in H
  | H : check_same_fp_width _ _ _ = Ok _ |- _ => apply check_same_fp_width_Ok in H
  | H : Inst.add_sub_imm_common _ _ _ _ = Ok _ |- _ => apply add_sub_imm_common_Ok in H
  | H : Inst.require_conditional _ _ = Ok _ |- _ => clear H
  | H : negb (Bool.eqb _ _) = false |- _ => apply negb_eqb_false in H
  | H : negb ?b = false |- _ => assert (b = true) by (by destruct b); clear H
  | H : _ || _ = false |- _ => apply orb_false_iff in H as [??]
  | H : Bool.eqb _ _ = false |- _ => apply eqb_false_negb in H
  | H : bool_decide _ = false |- _ => apply bool_decide_eq_false in H
  | H : (_ <? _) = false |- _ => apply Z.ltb_ge in H
  | H : (_ <=? _) = false |- _ => apply Z.leb_gt in H
  end.
Ltac guards := repeat (inv_ok_step || guards_step; try subst; simpl in * ).

Ltac head_of t := lazymatch t with ?f _ => head_of f | _ => t end.
(** Unfold the constructor on the left of [H : constructor .. = Ok i]. *)
Ltac unfold_head H :=
  lazymatch type of H with
  | mbind _ _ = _ => fail
  | ?t = _ => let h := head_of t in unfold h in H
  end.

Lemma wf2_intro rd rn : Reg.wf rd → Reg.wf rn → Reg.is64 rn = Reg.is64 rd → wf2 rd rn.
Proof. done. Qed.
Lemma fwf2_intro rd rn :
  FpReg.wf rd → FpReg.wf rn → FpReg.is_double rn = FpReg.is_double rd → fwf2 rd rn.
Proof. done. Qed.

Create HintDb wf.
#[export] Hint Resolve wf2_intro fwf2_intro zr_like_wf zr_like_is64 RegShift.RegShift_none_wf
  Cond.Cond_inverted_wf Reg.Reg_wf_31 Reg.Reg_with64_wf : wf.

Ltac case_width :=
  match goal with
  | H : context [if Reg.is64 ?r then _ else _] |- _ => destruct (Reg.is64 r)
  | |- context [Reg.is64 ?r] => destruct (Reg.is64 r)
  end.
Ltac solve_wf :=
  guards; split_and?; try done; auto 4 with wf;
  try (unfold unsigned in *; try case_width; simpl in *; lia).

(** One lemma per shared constructor body. *)
Lemma mov_wide_wf op rd imm16 shift i :
  Reg.wf rd → unsigned 16 imm16 → unsigned 8 shift →
  Inst.mov_wide op rd imm16 shift = Ok i → wf_inst i.
Proof. intros ??? H. unfold_head H. solve_wf. Qed.

Lemma add_sub_imm_wf op sf rd rn imm al what i :
  Reg.wf rd → Reg.wf rn → Uimm12Lsl.wf imm →
  (Inst.add_sub_imm_common sf rd rn what;; Ok (AddSubImm op sf rd rn imm al)) = Ok i →
  wf_inst i.
Proof. intros. solve_wf. Qed.

Lemma add_sub_shifted_wf op sf rd rn rm shift al i :
  Reg.wf rd → Reg.wf rn → Reg.wf rm → RegShift.wf shift →
  Inst.add_sub_shifted op sf rd rn rm shift al = Ok i → wf_inst i.
Proof. intros ???? H. unfold_head H. solve_wf. Qed.

Lemma add_sub_extended_wf op sf rd rn rm ext al i :
  Reg.wf rd → Reg.wf rn → Reg.wf rm → RegExtend.wf ext →
  Inst.add_sub_extended op sf rd rn rm ext al = Ok i → wf_inst i.
Proof. intros ???? H. unfold_head H. solve_wf. Qed.

Lemma logical_imm_wf op rd rn imm al i :
  Reg.wf rd → Reg.wf rn → LogicalImm.wf imm →
  Inst.logical_imm op rd rn imm al = Ok i → wf_inst i.
Proof. intros ??? H. unfold_head H. solve_wf. Qed.

Lemma logical_shifted_wf op rd rn rm shift al i :
  Reg.wf rd → Reg.wf rn → Reg.wf rm → RegShift.wf shift →
  Inst.logical_shifted op rd rn rm shift al = Ok i → wf_inst i.
Proof. intros ???? H. unfold_head H. solve_wf. Qed.

Lemma bitfield_raw_wf op rd rn immr imms al i :
  Reg.wf rd → Reg.wf rn → 0 ≤ immr → 0 ≤ imms →
  Inst.bitfield_raw op rd rn immr imms al = Ok i → wf_inst i.
Proof. intros ???? H. unfold_head H. solve_wf. Qed.

Lemma data_proc_2_wf op rd rn rm i :
  Reg.wf rd → Reg.wf rn → Reg.wf rm → Inst.data_proc_2 op rd rn rm = Ok i → wf_inst i.
Proof. intros ??? H. unfold_head H. solve_wf. Qed.

Lemma mulh_wf op rd rn rm i :
  Reg.wf rd → Reg.wf rn → Reg.wf rm → Inst.mulh op rd rn rm = Ok i → wf_inst i.
Proof. intros ??? H. unfold_head H. solve_wf; apply wf2_intro; auto with wf; congruence. Qed.

Lemma data_proc_1_wf op rd rn i :
  Reg.wf rd → Reg.wf rn → Inst.data_proc_1 op rd rn = Ok i → wf_inst i.
Proof. intros ?? H. unfold_head H. solve_wf. Qed.

Lemma cond_select_wf op rd rn rm cond al i :
  Reg.wf rd → Reg.wf rn → Reg.wf rm → Cond.wf cond →
  Inst.cond_select op rd rn rm cond al = Ok i → wf_inst i.
Proof. intros ???? H. unfold_head H. solve_wf. Qed.

Lemma test_branch_core nz rt bit offset i :
  Reg.wf rt → unsigned 8 bit → offset_core offset →
  Inst.test_branch nz rt bit offset = Ok i → wf_core i.
Proof. intros ??? H. unfold_head H. solve_wf. Qed.

Lemma load_store_core op rt rn mode i :
  Reg.wf rt → Reg.wf rn → mode_core mode →
  Inst.load_store op rt rn mode = Ok i → wf_core i.
Proof. intros ??? H. unfold_head H. solve_wf. Qed.

Lemma load_store_pair_core ld rt1 rt2 rn imm index i :
  Reg.wf rt1 → Reg.wf rt2 → Reg.wf rn → pair_core imm →
  Inst.load_store_pair ld rt1 rt2 rn imm index = Ok i → wf_core i.
Proof. intros ???? H. unfold_head H. solve_wf. Qed.

Lemma fp_binop_wf op rd rn rm i :
  FpReg.wf rd → FpReg.wf rn → FpReg.wf rm → Inst.fp_binop op rd rn rm = Ok i → wf_inst i.
Proof. intros ??? H. unfold_head H. solve_wf. Qed.

Lemma rr_wf f rd rn i :
  f ∈ [Inst.mov_sp; Inst.mov_reg; Inst.sxtb; Inst.sxth; Inst.sxtw; Inst.uxtb; Inst.uxth;
       Inst.clz; Inst.rbit; Inst.rev] →
  Reg.wf rd → Reg.wf rn → f rd rn = Ok i → wf_inst i.
Proof.
  intros Hf Hd Hn Hx. each_constructor; unfold_head Hx.
  - solve_wf.
  - eapply logical_shifted_wf, Hx; auto with wf.
  - eapply bitfield_raw_wf, Hx; auto with wf; lia.
  - eapply bitfield_raw_wf, Hx; auto with wf; lia.
  - inv_ok. eapply bitfield_raw_wf, Hx; auto with wf; lia.
  - inv_ok. eapply bitfield_raw_wf, Hx; auto with wf; lia.
  - inv_ok. eapply bitfield_raw_wf, Hx; auto with wf; lia.
  - eapply data_proc_1_wf, Hx; done.
  - eapply data_proc_1_wf, Hx; done.
  - eapply data_proc_1_wf, Hx; done.
Qed.

Lemma shift_imm_wf f rd rn shift i :
  f ∈ [Inst.lsl_imm; Inst.lsr_imm; Inst.asr_imm] →
  Reg.wf rd → Reg.wf rn → unsigned 8 shift → f rd rn shift = Ok i → wf_inst i.
Proof.
  intros Hf Hd Hn [? _] Hx. pose proof (wrap_range 8) as Hw. unfold unsigned in Hw.
  each_constructor; unfold_head Hx; inv_ok; (eapply bitfield_raw_wf, Hx; auto);
    apply Hw; lia.
Qed.

Lemma rrr_wf f rd rn rm i :
  f ∈ [Inst.udiv; Inst.sdiv; Inst.lslv; Inst.lsrv; Inst.asrv; Inst.rorv;
       Inst.mul; Inst.smulh; Inst.umulh] →
  Reg.wf rd → Reg.wf rn → Reg.wf rm → f rd rn rm = Ok i → wf_inst i.
Proof.
  intros Hf ??? Hx. each_constructor; unfold_head Hx;
    first [by eapply data_proc_2_wf, Hx | by eapply mulh_wf, Hx | solve_wf].
Qed.

Lemma shifted_wf f rd rn rm shift i :
  f ∈ [Inst.add_shifted; Inst.adds_shifted; Inst.sub_shifted; Inst.subs_shifted;
       Inst.and_shifted; Inst.orr_shifted; Inst.eor_shifted; Inst.ands_shifted;
       Inst.bic_shifted; Inst.orn_shifted; Inst.eon_shifted; Inst.bics_shifted] →
  Reg.wf rd → Reg.wf rn → Reg.wf rm → RegShift.wf shift →
  f rd rn rm shift = Ok i → wf_inst i.
Proof.
  intros Hf ???? Hx.
  each_constructor; first [by eapply add_sub_shifted_wf, Hx | by eapply logical_shifted_wf, Hx].
Qed.

Lemma shifted_alias_wf f r1 r2 shift i :
  f ∈ [Inst.cmp_shifted; Inst.cmn_shifted; Inst.neg; Inst.negs; Inst.mvn; Inst.tst_reg] →
  Reg.wf r1 → Reg.wf r2 → RegShift.wf shift → f r1 r2 shift = Ok i → wf_inst i.
Proof.
  intros Hf ??? Hx. pose proof (zr_like_wf r1).
  each_constructor; unfold_head Hx;
    (first [eapply add_sub_shifted_wf, Hx | eapply logical_shifted_wf, Hx]); done.
Qed.

(** *** Every constructor *)

Lemma built_core i : built i → wf_core i.
Proof.
  intros H.
  destruct H; repeat match goal with
    | H : offset_built _ |- _ => apply offset_built_core in H
    | H : pair_built _ |- _ => apply pair_built_core in H
    | H : mode_built _ |- _ => apply mode_built_core in H
    end; eauto using wf_inst_core, rr_wf, shift_imm_wf, rrr_wf, shifted_wf, shifted_alias_wf;
    each_constructor; try done; try match goal with H : _ = Ok _ |- _ => unfold_head H end.
  all: eauto 2 using load_store_core, load_store_pair_core, test_branch_core.
  all: try by solve_wf.
  all: apply wf_inst_core.
  all: try by match goal with
    | H : Inst.bitfield_raw _ _ _ _ _ _ = Ok _ |- _ =>
        eapply bitfield_raw_wf, H; unfold unsigned in *; auto; lia
    | H : Inst.cond_select _ _ _ _ _ _ = Ok _ |- _ =>
        eapply cond_select_wf, H; auto with wf
    | H : Inst.add_sub_extended _ _ _ _ _ _ _ = Ok _ |- _ =>
        eapply add_sub_extended_wf, H; auto with wf
    | H : Inst.logical_imm _ _ _ _ _ = Ok _ |- _ =>
        eapply logical_imm_wf, H; auto with wf
    | H : Inst.require_conditional _ _ ≫= _ = Ok _ |- _ =>
        inv_ok; eapply cond_select_wf, H; auto with wf
    end.
  all: eauto 2 using mov_wide_wf, add_sub_imm_wf, fp_binop_wf.
Qed.

Lemma built_wf i : built i → agrees i → wf_inst i.
Proof. intros H ?. apply wf_inst_split. split; [by apply built_core|done]. Qed.

(** The register overlaps the architecture leaves (constrained) unpredictable
    for the loads and stores of this subset: a writeback base that is also
    transferred, and a load pair into one register. *)
Definition unpredictable (i : Inst) : bool :=
  match i with
  | LoadStoreImm _ rt rn (PreIndex _ | PostIndex _) => Reg.encoding rt =? Reg.encoding rn
  | LoadStorePair is_load _ rt1 rt2 rn _ index =>
      (bool_decide (index ≠ PI_Offset) &&
       ((Reg.encoding rt1 =? Reg.encoding rn) || (Reg.encoding rt2 =? Reg.encoding rn)))
      || (is_load && (Reg.encoding rt1 =? Reg.encoding rt2))
  | _ => false
  end.

Lemma load_store_predictable op rt rn mode i :
  Inst.load_store op rt rn mode = Ok i → unpredictable i = false.
Proof. intros H. unfold_head H. guards. by destruct mode. Qed.

Lemma load_store_pair_predictable ld rt1 rt2 rn imm index i :
  Inst.load_store_pair ld rt1 rt2 rn imm index = Ok i → unpredictable i = false.
Proof.
  intros H. unfold_head H. inv_ok.
  by destruct index; simpl in *; repeat match goal with H : _ = false |- _ => rewrite H; clear H end.
Qed.

Lemma built_predictable i : built i → unpredictable i = false.
Proof.
  intros H.
  destruct H; each_constructor; try done;
    match goal with H : _ = Ok _ |- _ => try unfold_head H end.
  all: try by eapply load_store_predictable.
  all: try by eapply load_store_pair_predictable.
  all: match goal with H : _ = Ok _ |- _ => repeat unfold_head H end.
  all: inv_ok; try done.
  all: match goal with H : _ = Ok _ |- _ => repeat unfold_head H end; by inv_ok.
Qed.

(** C39: Every instruction the public constructors return has agreeing register
    widths, each of its fields in the range of the bits the field is encoded
    into, and no register overlap the architecture leaves unpredictable; only a
    branch offset or a scaled load or store offset is in the range of the width
    or access size it was itself validated for, which the constructors do not
    compare with the instruction's. Where that size is the instruction's, and
    only there, the whole instruction is well formed. *)
Theorem constructors_sound i :
  built i → wf_core i ∧ (wf_inst i ↔ agrees i) ∧ unpredictable i = false.
Proof.
  intros H. split_and!; [by apply built_core| |by apply built_predictable].
  rewrite wf_inst_split. pose proof (built_core i H). tauto.
Qed.

Lemma constructors_sound_witness :
  ∃ i, Inst.add_imm Reg.sp_ Reg.sp_ (Uimm12Lsl.mk 16 false) = Ok i ∧
       wf_inst i ∧ unpredictable i = false.
Proof.
  eexists. split; [reflexivity|].
  refine (let H := constructors_sound (AddSubImm Add false Reg.sp_ Reg.sp_ (Uimm12Lsl.mk 16 false) AS_None) _ in
          conj (proj2 (proj1 (proj2 H)) I) (proj2 (proj2 H))).
  apply (built_add_sub_imm Inst.add_imm Reg.sp_ Reg.sp_ (Uimm12Lsl.mk 16 false)).
  - left.
  - apply (bool_decide_unpack _). reflexivity.
  - apply (bool_decide_unpack _). reflexivity.
  - apply (bool_decide_unpack _). reflexivity.
  - reflexivity.
Defined.
