(* ===== verification/AsmEncode.v ===== *)
(** * The encoder

    Models [src/crates/fors-asm/src/encode.rs]: [encode] packs an instruction
    into its 32-bit word.  Each definition below is one arm of the [match] (or
    one of the three load/store helpers), with the code's [u32] shifts and
    ors in the code's order. *)

From S2P Require Import Prelude AsmReg AsmBitmask AsmOperand AsmInst.

Local Open Scope u32_scope.

Definition sf (r : Reg) : Z := b2z (Reg.is64 r).

Definition is_sub (op : AddSubOp) : bool := match op with Sub => true | Add => false end.

Definition mov_wide_opc (op : MovWideOp) : Z :=
  match op with Movn => 0 | Movz => 2 | Movk => 3 end.
Definition encode_mov_wide (op : MovWideOp) (rd : Reg) (imm16 shift : Z) : Z :=
  let opc := mov_wide_opc op in
  let hw := shift / 16 in
  (sf rd << 31) .| (opc << 29) .| (0x25 << 23) .| (hw << 21) .| (imm16 << 5)
  .| Reg.encoding rd.

Definition encode_add_sub_imm (op : AddSubOp) (set_flags : bool) (rd rn : Reg)
    (imm : Uimm12Lsl) : Z :=
  let opbit := b2z (is_sub op) in
  (sf rd << 31) .| (opbit << 30) .| (b2z set_flags << 29) .| (0x22 << 23)
  .| (b2z (Uimm12Lsl.shift12 imm) << 22) .| (Uimm12Lsl.raw imm << 10)
  .| (Reg.encoding rn << 5) .| Reg.encoding rd.

Definition encode_add_sub_shifted (op : AddSubOp) (set_flags : bool) (rd rn rm : Reg)
    (shift : RegShift) : Z :=
  let opbit := b2z (is_sub op) in
  (sf rd << 31) .| (opbit << 30) .| (b2z set_flags << 29) .| (0xb << 24)
  .| (ShiftKind_encoding (RegShift.kind shift) << 22) .| (Reg.encoding rm << 16)
  .| (RegShift.amount shift << 10) .| (Reg.encoding rn << 5) .| Reg.encoding rd.

Definition encode_add_sub_extended (op : AddSubOp) (set_flags : bool) (rd rn rm : Reg)
    (extend : RegExtend) : Z :=
  let opbit := b2z (is_sub op) in
  (sf rd << 31) .| (opbit << 30) .| (b2z set_flags << 29) .| (0xb << 24) .| (1 << 21)
  .| (Reg.encoding rm << 16) .| (ExtendKind_encoding (RegExtend.kind extend) << 13)
  .| (RegExtend.amount extend << 10) .| (Reg.encoding rn << 5) .| Reg.encoding rd.

Definition logical_imm_opc (op : LogicalImmOp) : Z :=
  match op with LI_And => 0 | LI_Orr => 1 | LI_Eor => 2 | LI_Ands => 3 end.
Definition encode_logical_imm (op : LogicalImmOp) (rd rn : Reg) (imm : LogicalImm) : Z :=
  let opc := logical_imm_opc op in
  (sf rd << 31) .| (opc << 29) .| (0x24 << 23) .| (LogicalImm.n imm << 22)
  .| (LogicalImm.immr imm << 16) .| (LogicalImm.imms imm << 10)
  .| (Reg.encoding rn << 5) .| Reg.encoding rd.

Definition logical_shift_opc (op : LogicalShiftOp) : Z * Z :=
  match op with
  | LS_And => (0, 0) | LS_Bic => (0, 1) | LS_Orr => (1, 0) | LS_Orn => (1, 1)
  | LS_Eor => (2, 0) | LS_Eon => (2, 1) | LS_Ands => (3, 0) | LS_Bics => (3, 1)
  end.
Definition encode_logical_shifted (op : LogicalShiftOp) (rd rn rm : Reg)
    (shift : RegShift) : Z :=
  let '(opc, n) := logical_shift_opc op in
  (sf rd << 31) .| (opc << 29) .| (0xa << 24)
  .| (ShiftKind_encoding (RegShift.kind shift) << 22) .| (n << 21)
  .| (Reg.encoding rm << 16) .| (RegShift.amount shift << 10)
  .| (Reg.encoding rn << 5) .| Reg.encoding rd.

Definition bitfield_opc (op : BitfieldOp) : Z :=
  match op with Sbfm => 0 | Bfm => 1 | Ubfm => 2 end.
Definition encode_bitfield (op : BitfieldOp) (rd rn : Reg) (immr imms : Z) : Z :=
  let opc := bitfield_opc op in
  let n := sf rd in
  (sf rd << 31) .| (opc << 29) .| (0x26 << 23) .| (n << 22) .| (immr << 16)
  .| (imms << 10) .| (Reg.encoding rn << 5) .| Reg.encoding rd.

Definition data_proc_2_opcode (op : DataProc2Op) : Z :=
  match op with
  | Udiv => 0x2 | Sdiv => 0x3 | Lslv => 0x8 | Lsrv => 0x9 | Asrv => 0xa | Rorv => 0xb
  end.
Definition encode_data_proc_2 (op : DataProc2Op) (rd rn rm : Reg) : Z :=
  let opcode := data_proc_2_opcode op in
  (sf rd << 31) .| (0xd6 << 21) .| (Reg.encoding rm << 16) .| (opcode << 10)
  .| (Reg.encoding rn << 5) .| Reg.encoding rd.

Definition data_proc_3_opcode (op : DataProc3Op) : Z * Z :=
  match op with Madd => (0, 0) | Msub => (0, 1) | Smulh => (2, 0) | Umulh => (6, 0) end.
Definition encode_data_proc_3 (op : DataProc3Op) (rd rn rm ra : Reg) : Z :=
  let '(op31, o0) := data_proc_3_opcode op in
  (sf rd << 31) .| (0x1b << 24) .| (op31 << 21) .| (Reg.encoding rm << 16)
  .| (o0 << 15) .| (Reg.encoding ra << 10) .| (Reg.encoding rn << 5) .| Reg.encoding rd.

Definition data_proc_1_opcode (op : DataProc1Op) (is64 : bool) : Z :=
  match op with Rbit => 0 | Clz => 4 | Rev => if is64 then 3 else 2 end.
Definition encode_data_proc_1 (op : DataProc1Op) (rd rn : Reg) : Z :=
  let opcode := data_proc_1_opcode op (Reg.is64 rd) in
  (sf rd << 31) .| (1 << 30) .| (0xd6 << 21) .| (opcode << 10)
  .| (Reg.encoding rn << 5) .| Reg.encoding rd.

Definition cond_select_bits (op : CondSelectOp) : Z * Z :=
  match op with Csel => (0, 0) | Csinc => (0, 1) | Csinv => (1, 0) | Csneg => (1, 1) end.
Definition encode_cond_select (op : CondSelectOp) (rd rn rm : Reg) (cond : Cond) : Z :=
  let '(opbit, op2) := cond_select_bits op in
  (sf rd << 31) .| (opbit << 30) .| (0xd4 << 21) .| (Reg.encoding rm << 16)
  .| (Cond.code cond << 12) .| (op2 << 10) .| (Reg.encoding rn << 5) .| Reg.encoding rd.

Definition encode_adr (rd : Reg) (offset : AdrOffset) : Z :=
  let '(immlo, immhi) := AdrOffset.encoding offset in
  (immlo << 29) .| (0x10 << 24) .| (immhi << 5) .| Reg.encoding rd.

Definition encode_adrp (rd : Reg) (offset : AdrpOffset) : Z :=
  let '(immlo, immhi) := AdrpOffset.encoding offset in
  (1 << 31) .| (immlo << 29) .| (0x10 << 24) .| (immhi << 5) .| Reg.encoding rd.

Definition encode_branch (link : bool) (offset : BranchOffset) : Z :=
  (b2z link << 31) .| (0x5 << 26) .| BranchOffset.encoding offset.

Definition encode_branch_cond (cond : Cond) (offset : BranchOffset) : Z :=
  (0x2a << 25) .| (BranchOffset.encoding offset << 5) .| Cond.code cond.

Definition encode_compare_branch (is64 is_nonzero : bool) (rt : Reg)
    (offset : BranchOffset) : Z :=
  (b2z is64 << 31) .| (0x1a << 25) .| (b2z is_nonzero << 24)
  .| (BranchOffset.encoding offset << 5) .| Reg.encoding rt.

Definition encode_test_branch (is_nonzero : bool) (rt : Reg) (bit : Z)
    (offset : BranchOffset) : Z :=
  let b5 := Z.land (Z.shiftr bit 5) 1 in
  let b40 := Z.land bit 0x1F in
  (b5 << 31) .| (0x1b << 25) .| (b2z is_nonzero << 24) .| (b40 << 19)
  .| (BranchOffset.encoding offset << 5) .| Reg.encoding rt.

Definition encode_branch_reg (rn : Reg) : Z := 0xD61F0000 .| (Reg.encoding rn << 5).
Definition encode_branch_link_reg (rn : Reg) : Z := 0xD63F0000 .| (Reg.encoding rn << 5).
Definition encode_ret (rn : Reg) : Z := 0xD65F0000 .| (Reg.encoding rn << 5).

Definition encode_load_store_common (size v opc rt : Z) (rn : Reg) (mode : AddrMode) : Z :=
  match mode with
  | UnsignedOffset imm =>
      (size << 30) .| (0x7 << 27) .| (v << 26) .| (0x1 << 24) .| (opc << 22)
      .| (UScaledImm12.encoding imm << 10) .| (Reg.encoding rn << 5) .| rt
  | Unscaled imm =>
      (size << 30) .| (0x7 << 27) .| (v << 26) .| (opc << 22)
      .| (Simm9.encoding imm << 12) .| (Reg.encoding rn << 5) .| rt
  | PostIndex imm =>
      (size << 30) .| (0x7 << 27) .| (v << 26) .| (opc << 22)
      .| (Simm9.encoding imm << 12) .| (0x1 << 10) .| (Reg.encoding rn << 5) .| rt
  | PreIndex imm =>
      (size << 30) .| (0x7 << 27) .| (v << 26) .| (opc << 22)
      .| (Simm9.encoding imm << 12) .| (0x3 << 10) .| (Reg.encoding rn << 5) .| rt
  | AM_RegOffset ro =>
      (size << 30) .| (0x7 << 27) .| (v << 26) .| (opc << 22) .| (1 << 21)
      .| (Reg.encoding (RegOffset.rm ro) << 16) .| (ext_option (RegOffset.extend ro) << 13)
      .| (b2z (RegOffset.shifted ro) << 12) .| (0x2 << 10) .| (Reg.encoding rn << 5) .| rt
  end.

Definition encode_load_store_gp (op : LdStOp) (rt rn : Reg) (mode : AddrMode) : Z :=
  let '(size, opc) := size_opc op in
  encode_load_store_common size 0 opc (Reg.encoding rt) rn mode.

Definition encode_load_store_fp (is_load : bool) (rt : FpReg) (rn : Reg)
    (mode : AddrMode) : Z :=
  let size := if FpReg.is_double rt then 3 else 2 in
  let opc := if is_load then 1 else 0 in
  encode_load_store_common size 1 opc (FpReg.encoding rt) rn mode.

Definition pair_index_mode (index : PairIndex) : Z :=
  match index with PI_PostIndex => 1 | PI_Offset => 2 | PI_PreIndex => 3 end.
Definition encode_load_store_pair (is_load is64 : bool) (rt1 rt2 rn : Reg)
    (imm : SImm7Scaled) (index : PairIndex) : Z :=
  let opc := if is64 then 2 else 0 in
  let mode := pair_index_mode index in
  (opc << 30) .| (0x5 << 27) .| (mode << 23) .| (b2z is_load << 22)
  .| (SImm7Scaled.encoding imm << 15) .| (Reg.encoding rt2 << 10)
  .| (Reg.encoding rn << 5) .| Reg.encoding rt1.

Definition encode_system (op : SysOp) : Z :=
  match op with
  | Nop => 0xD503201F
  | Brk imm16 => 0xD4200000 .| (imm16 << 5)
  | Svc imm16 => 0xD4000001 .| (imm16 << 5)
  | Udf imm16 => imm16
  end.

Definition fp_unary_opcode (op : FpUnaryOp) : Z :=
  match op with Fmov => 0 | Fabs => 1 | Fneg => 2 | Fsqrt => 3 end.
Definition encode_fp_data_proc_1 (op : FpUnaryOp) (rd rn : FpReg) : Z :=
  let opcode := fp_unary_opcode op in
  let ty := b2z (FpReg.is_double rd) in
  (0x1e << 24) .| (ty << 22) .| (1 << 21) .| (opcode << 15) .| (0x10 << 10)
  .| (FpReg.encoding rn << 5) .| FpReg.encoding rd.

Definition encode_fp_convert (rd rn : FpReg) : Z :=
  let '(ty, opcode) := if FpReg.is_double rd then (0, 5) else (1, 4) in
  (0x1e << 24) .| (ty << 22) .| (1 << 21) .| (opcode << 15) .| (0x10 << 10)
  .| (FpReg.encoding rn << 5) .| FpReg.encoding rd.

Definition fp_bin_opcode (op : FpBinOp) : Z :=
  match op with Fmul => 0 | Fdiv => 1 | Fadd => 2 | Fsub => 3 end.
Definition encode_fp_data_proc_2 (op : FpBinOp) (rd rn rm : FpReg) : Z :=
  let opcode := fp_bin_opcode op in
  let ty := b2z (FpReg.is_double rd) in
  (0x1e << 24) .| (ty << 22) .| (1 << 21) .| (FpReg.encoding rm << 16)
  .| (opcode << 12) .| (0x2 << 10) .| (FpReg.encoding rn << 5) .| FpReg.encoding rd.

Definition encode_fp_compare (rn rm : FpReg) : Z :=
  let ty := b2z (FpReg.is_double rn) in
  (0x1e << 24) .| (ty << 22) .| (1 << 21) .| (FpReg.encoding rm << 16)
  .| (0x8 << 10) .| (FpReg.encoding rn << 5).

Definition encode_fp_cond_select (rd rn rm : FpReg) (cond : Cond) : Z :=
  let ty := b2z (FpReg.is_double rd) in
  (0x1e << 24) .| (ty << 22) .| (1 << 21) .| (FpReg.encoding rm << 16)
  .| (Cond.code cond << 12) .| (0x3 << 10) .| (FpReg.encoding rn << 5)
  .| FpReg.encoding rd.

Definition encode_fp_imm_move (rd : FpReg) (imm : FpImm8) : Z :=
  let ty := b2z (FpReg.is_double rd) in
  (0x1e << 24) .| (ty << 22) .| (1 << 21) .| (FpImm8.encoding imm << 13)
  .| (0x4 << 10) .| FpReg.encoding rd.

Definition encode_fp_to_gp (rd : Reg) (rn : FpReg) : Z :=
  let ty := b2z (FpReg.is_double rn) in
  (sf rd << 31) .| (0x1e << 24) .| (ty << 22) .| (1 << 21) .| (0x6 << 16)
  .| (FpReg.encoding rn << 5) .| Reg.encoding rd.

Definition encode_gp_to_fp (rd : FpReg) (rn : Reg) : Z :=
  let ty := b2z (FpReg.is_double rd) in
  (sf rn << 31) .| (0x1e << 24) .| (ty << 22) .| (1 << 21) .| (0x7 << 16)
  .| (Reg.encoding rn << 5) .| FpReg.encoding rd.

Definition int_convert_bits (op : FpIntConvertOp) : Z * Z :=
  match op with Scvtf => (0, 2) | Ucvtf => (0, 3) | Fcvtzs => (3, 0) | Fcvtzu => (3, 1) end.
Definition encode_fp_int_convert (op : FpIntConvertOp) (gp : Reg) (fp : FpReg) : Z :=
  let ty := b2z (FpReg.is_double fp) in
  let '(rmode, opcode) := int_convert_bits op in
  let is_int_to_fp := match op with Scvtf | Ucvtf => true | _ => false end in
  let '(rn_enc, rd_enc, sf_bit) :=
    if is_int_to_fp then (Reg.encoding gp, FpReg.encoding fp, sf gp)
    else (FpReg.encoding fp, Reg.encoding gp, sf gp) in
  (sf_bit << 31) .| (0x1e << 24) .| (ty << 22) .| (1 << 21) .| (rmode << 19)
  .| (opcode << 16) .| (rn_enc << 5) .| rd_enc.

Definition encode_fp_madd (rd rn rm ra : FpReg) : Z :=
  let ty := b2z (FpReg.is_double rd) in
  (0x1f << 24) .| (ty << 22) .| (FpReg.encoding rm << 16) .| (FpReg.encoding ra << 10)
  .| (FpReg.encoding rn << 5) .| FpReg.encoding rd.

Definition encode (inst : Inst) : result EncodeError Z :=
  Ok (match inst with
  | MovWide op rd imm16 shift => encode_mov_wide op rd imm16 shift
  | AddSubImm op set_flags rd rn imm _ => encode_add_sub_imm op set_flags rd rn imm
  | AddSubShiftedReg op set_flags rd rn rm shift _ =>
      encode_add_sub_shifted op set_flags rd rn rm shift
  | AddSubExtendedReg op set_flags rd rn rm extend _ =>
      encode_add_sub_extended op set_flags rd rn rm extend
  | LogicalImmInst op rd rn imm _ => encode_logical_imm op rd rn imm
  | LogicalShiftedReg op rd rn rm shift _ => encode_logical_shifted op rd rn rm shift
  | Bitfield op rd rn immr imms _ => encode_bitfield op rd rn immr imms
  | DataProc2Source op rd rn rm => encode_data_proc_2 op rd rn rm
  | DataProc3Source op rd rn rm ra _ => encode_data_proc_3 op rd rn rm ra
  | DataProc1Source op rd rn => encode_data_proc_1 op rd rn
  | CondSelect op rd rn rm cond _ => encode_cond_select op rd rn rm cond
  | Adr rd offset => encode_adr rd offset
  | Adrp rd offset => encode_adrp rd offset
  | Branch link offset => encode_branch link offset
  | BranchCond cond offset => encode_branch_cond cond offset
  | CompareBranch is64 is_nonzero rt offset => encode_compare_branch is64 is_nonzero rt offset
  | TestBranch is_nonzero rt bit offset => encode_test_branch is_nonzero rt bit offset
  | BranchReg rn => encode_branch_reg rn
  | BranchLinkReg rn => encode_branch_link_reg rn
  | Ret rn => encode_ret rn
  | LoadStoreImm op rt rn mode => encode_load_store_gp op rt rn mode
  | FpLoadStoreImm is_load rt rn mode => encode_load_store_fp is_load rt rn mode
  | LoadStorePair is_load is64 rt1 rt2 rn imm index =>
      encode_load_store_pair is_load is64 rt1 rt2 rn imm index
  | System op => encode_system op
  | FpDataProc1 op rd rn => encode_fp_data_proc_1 op rd rn
  | FpConvert rd rn => encode_fp_convert rd rn
  | FpDataProc2 op rd rn rm => encode_fp_data_proc_2 op rd rn rm
  | FpCompare rn rm => encode_fp_compare rn rm
  | FpCondSelect rd rn rm cond => encode_fp_cond_select rd rn rm cond
  | FpImmMove rd imm => encode_fp_imm_move rd imm
  | FpToGp rd rn => encode_fp_to_gp rd rn
  | GpToFp rd rn => encode_gp_to_fp rd rn
  | FpIntConvert op gp fp => encode_fp_int_convert op gp fp
  | FpMadd rd rn rm ra => encode_fp_madd rd rn rm ra
  end).
