(* ===== verification/AsmSpec.v ===== *)
(** * Bit templates

    An instruction format as a list of fields, most significant first: fixed
    bits and variable ones.  [pack] lays values out in the variable fields,
    [unpack] reads them back, [matches] tests the fixed bits, and
    [conflict] finds a bit on which two templates disagree. *)

From S2P Require Import Prelude AsmReg AsmBitmask AsmOperand AsmInst AsmWf AsmEncode.


Inductive field : Type := Fixed (w v : Z) | Var (w : Z).

Definition fwidth (f : field) : Z := match f with Fixed w _ | Var w => w end.

Definition total (fs : list field) : Z := foldr (λ f n, fwidth f + n) 0 fs.

Fixpoint pack (fs : list field) (vs : list Z) : Z :=
  match fs with
  | [] => 0
  | Fixed _ v :: fs' => Z.lor (Z.shiftl v (total fs')) (pack fs' vs)
  | Var _ :: fs' =>
      match vs with
      | v :: vs' => Z.lor (Z.shiftl v (total fs')) (pack fs' vs')
      | [] => 0
      end
  end.

(** The [w] bits of [word] above its low [k]. *)
Definition extract (word k w : Z) : Z := Z.land (Z.shiftr word k) (Z.ones w).

Fixpoint unpack (fs : list field) (word : Z) : list Z :=
  match fs with
  | [] => []
  | Fixed _ _ :: fs' => unpack fs' word
  | Var w :: fs' => extract word (total fs') w :: unpack fs' word
  end.

Fixpoint matches (fs : list field) (word : Z) : bool :=
  match fs with
  | [] => true
  | Fixed w v :: fs' => (extract word (total fs') w =? v) && matches fs' word
  | Var _ :: fs' => matches fs' word
  end.

Fixpoint mask (fs : list field) : Z :=
  match fs with
  | [] => 0
  | Fixed w _ :: fs' => Z.lor (Z.shiftl (Z.ones w) (total fs')) (mask fs')
  | Var _ :: fs' => mask fs'
  end.

Fixpoint fixed_bits (fs : list field) : Z :=
  match fs with
  | [] => 0
  | Fixed w v :: fs' => Z.lor (Z.shiftl v (total fs')) (fixed_bits fs')
  | Var _ :: fs' => fixed_bits fs'
  end.

Definition conflict (fs gs : list field) : bool :=
  negb (Z.land (Z.lxor (fixed_bits fs) (fixed_bits gs)) (Z.land (mask fs) (mask gs)) =? 0).

(** Values that fit their fields. *)
Fixpoint fits (fs : list field) (vs : list Z) : Prop :=
  match fs, vs with
  | [], [] => True
  | Fixed w v :: fs', _ => 0 ≤ w ∧ unsigned w v ∧ fits fs' vs
  | Var w :: fs', v :: vs' => 0 ≤ w ∧ unsigned w v ∧ fits fs' vs'
  | _, _ => False
  end.

Lemma fits_total fs vs : fits fs vs → 0 ≤ total fs.
Proof.
  revert vs. induction fs as [|[w v|w] fs IH]; intros vs H; simpl in *; [lia| |].
  - destruct H as (? & ? & ?%IH). lia.
  - destruct vs; [done|]. destruct H as (? & ? & ?%IH). lia.
Qed.

Lemma pack_cons_unsigned w v k y :
  0 ≤ w → 0 ≤ k → unsigned w v → unsigned k y →
  unsigned (w + k) (Z.lor (Z.shiftl v k) y).
Proof.
  intros Hw Hk Hv Hy. rewrite lor_shiftl_add by done. unfold unsigned in *.
  rewrite Z.pow_add_r by done. nia.
Qed.

Lemma pack_unsigned fs vs : fits fs vs → unsigned (total fs) (pack fs vs).
Proof.
  revert vs. induction fs as [|[w v|w] fs IH]; intros vs H; simpl.
  - done.
  - destruct H as (? & ? & H). apply pack_cons_unsigned; eauto using fits_total.
  - destruct vs; [done|]. destruct H as (? & ? & H).
    apply pack_cons_unsigned; eauto using fits_total.
Qed.

Lemma extract_spec h w v k y :
  0 ≤ w → 0 ≤ k → unsigned w v → unsigned k y →
  extract (h * 2 ^ (w + k) + Z.lor (Z.shiftl v k) y) k w = v.
Proof.
  intros Hw Hk Hv Hy. unfold extract. rewrite lor_shiftl_add by done.
  rewrite Z.shiftr_div_pow2, Z.land_ones by done.
  rewrite Z.pow_add_r by done.
  replace (h * (2 ^ w * 2 ^ k) + (v * 2 ^ k + y))
    with (y + (h * 2 ^ w + v) * 2 ^ k) by ring.
  rewrite Z.div_add by (pose proof (pow2_pos k); lia).
  rewrite (Z.div_small y) by done.
  replace (0 + (h * 2 ^ w + v)) with (v + h * 2 ^ w) by ring.
  rewrite Z.mod_add by (pose proof (pow2_pos w); lia). by apply Z.mod_small.
Qed.

(** Reading back under any higher bits [h]. *)
Lemma unpack_pack_high fs vs h :
  fits fs vs →
  matches fs (h * 2 ^ total fs + pack fs vs) = true ∧
  unpack fs (h * 2 ^ total fs + pack fs vs) = vs.
Proof.
  revert vs h. induction fs as [|[w v|w] fs IH]; intros vs h H; simpl.
  - by destruct vs.
  - destruct H as (Hw & Hv & H). pose proof (fits_total _ _ H) as Hk.
    pose proof (pack_unsigned _ _ H) as Hp.
    rewrite extract_spec, Z.eqb_refl by done. simpl.
    rewrite lor_shiftl_add, Z.pow_add_r by done.
    replace (h * (2 ^ w * 2 ^ total fs) + (v * 2 ^ total fs + pack fs vs))
      with ((h * 2 ^ w + v) * 2 ^ total fs + pack fs vs) by ring.
    by apply IH.
  - destruct vs as [|v vs]; [done|].
    destruct H as (Hw & Hv & H). pose proof (fits_total _ _ H) as Hk.
    pose proof (pack_unsigned _ _ H) as Hp.
    rewrite extract_spec by done.
    rewrite lor_shiftl_add, Z.pow_add_r by done.
    replace (h * (2 ^ w * 2 ^ total fs) + (v * 2 ^ total fs + pack fs vs))
      with ((h * 2 ^ w + v) * 2 ^ total fs + pack fs vs) by ring.
    destruct (IH vs (h * 2 ^ w + v) H) as [-> ->]. done.
Qed.

Lemma unpack_pack fs vs : fits fs vs → unpack fs (pack fs vs) = vs.
Proof. intros H. by destruct (unpack_pack_high fs vs 0 H). Qed.
Lemma matches_pack fs vs : fits fs vs → matches fs (pack fs vs) = true.
Proof. intros H. by destruct (unpack_pack_high fs vs 0 H). Qed.

Lemma total_nonneg fs : Forall (λ f, 0 ≤ fwidth f) fs → 0 ≤ total fs.
Proof. induction 1; simpl; lia. Qed.

Lemma matches_fixed_bits fs word :
  Forall (λ f, 0 ≤ fwidth f) fs →
  matches fs word = true → Z.land word (mask fs) = fixed_bits fs.
Proof.
  induction 1 as [|[w v|w] fs Hw Hfs IH]; simpl; intros H.
  - apply Z.land_0_r.
  - apply andb_prop in H as [<-%Z.eqb_eq H]. pose proof (total_nonneg fs Hfs).
    rewrite Z.land_lor_distr_r, IH by done. f_equal.
    apply Z.bits_inj'. intros n Hn. unfold extract.
    rewrite Z.land_spec, !Z.shiftl_spec by done.
    destruct (Z.ltb_spec n (total fs)).
    { rewrite !(Z.testbit_neg_r _ (n - total fs)) by lia. apply andb_false_r. }
    rewrite Z.land_spec, Z.shiftr_spec by lia. by replace (n - total fs + total fs) with n by lia.
  - by apply IH.
Qed.

(** No word matches two conflicting templates. *)
Lemma conflict_not_both fs gs word :
  Forall (λ f, 0 ≤ fwidth f) fs → Forall (λ f, 0 ≤ fwidth f) gs →
  conflict fs gs = true → matches fs word = true → matches gs word = false.
Proof.
  intros Hfs Hgs Hc Hf. destruct (matches gs word) eqn:Hg; [|done].
  apply matches_fixed_bits in Hf, Hg; [|done..].
  unfold conflict in Hc. rewrite <- Hf, <- Hg in Hc.
  rewrite (proj2 (Z.eqb_eq _ 0)) in Hc; [done|].
  apply Z.bits_inj'. intros n Hn. rewrite Z.bits_0, !Z.land_spec, Z.lxor_spec, !Z.land_spec.
  by destruct (Z.testbit word n), (Z.testbit (mask fs) n), (Z.testbit (mask gs) n).
Qed.

(** * The encoding tables and the decoder

    An independent description of the instruction set the encoder covers: one
    bit template per form, the values an instruction puts in its variable
    fields, and a decoder that inverts them.  [encode_packs] (AsmRoundtrip)
    shows that [AsmEncode.encode] implements the tables. *)

(** ** Forms *)

Inductive Form : Type :=
  | F_MovWide | F_AddSubImm | F_AddSubShifted | F_AddSubExtended | F_LogicalImm
  | F_LogicalShifted | F_Bitfield | F_DataProc2 | F_DataProc3 | F_DataProc1
  | F_CondSelect | F_Adr | F_Adrp | F_Branch | F_BranchCond | F_CompareBranch
  | F_TestBranch | F_BranchReg | F_BranchLinkReg | F_Ret
  | F_LdStUnsigned | F_LdStUnscaled | F_LdStPre | F_LdStPost | F_LdStReg
  | F_FpLdStUnsigned | F_FpLdStUnscaled | F_FpLdStPre | F_FpLdStPost | F_FpLdStReg
  | F_LdStPair | F_Nop | F_Brk | F_Svc | F_Udf
  | F_FpDataProc1 | F_FcvtToD | F_FcvtToS | F_FpDataProc2 | F_FpCompare
  | F_FpCondSelect | F_FpImmMove | F_FpToGp | F_GpToFp | F_FpIntConvert | F_FpMadd.

Definition all_forms : list Form :=
  [F_MovWide; F_AddSubImm; F_AddSubShifted; F_AddSubExtended; F_LogicalImm;
   F_LogicalShifted; F_Bitfield; F_DataProc2; F_DataProc3; F_DataProc1;
   F_CondSelect; F_Adr; F_Adrp; F_Branch; F_BranchCond; F_CompareBranch;
   F_TestBranch; F_BranchReg; F_BranchLinkReg; F_Ret;
   F_LdStUnsigned; F_LdStUnscaled; F_LdStPre; F_LdStPost; F_LdStReg;
   F_FpLdStUnsigned; F_FpLdStUnscaled; F_FpLdStPre; F_FpLdStPost; F_FpLdStReg;
   F_LdStPair; F_Nop; F_Brk; F_Svc; F_Udf;
   F_FpDataProc1; F_FcvtToD; F_FcvtToS; F_FpDataProc2; F_FpCompare;
   F_FpCondSelect; F_FpImmMove; F_FpToGp; F_GpToFp; F_FpIntConvert; F_FpMadd].

#[global] Instance Form_eq_dec : EqDecision Form.
Proof. solve_decision. Defined.

Definition ldst_mid (v : Z) : list field :=
  [Var 2; Fixed 3 0x7; Fixed 1 v].
Definition ldst_form (v : Z) (k : Z) : list field :=
  ldst_mid v ++
  match k with
  | 0 => [Fixed 2 1; Var 2; Var 12]
  | 1 => [Fixed 2 0; Var 2; Fixed 1 0; Var 9; Fixed 2 0]
  | 2 => [Fixed 2 0; Var 2; Fixed 1 0; Var 9; Fixed 2 3]
  | 3 => [Fixed 2 0; Var 2; Fixed 1 0; Var 9; Fixed 2 1]
  | _ => [Fixed 2 0; Var 2; Fixed 1 1; Var 5; Var 3; Var 1; Fixed 2 2]
  end ++ [Var 5; Var 5].

(** The fields of each form, from bit 31 down. *)
Definition template (f : Form) : list field :=
  match f with
  | F_MovWide => [Var 1; Var 2; Fixed 6 0x25; Var 2; Var 16; Var 5]
  | F_AddSubImm => [Var 1; Var 1; Var 1; Fixed 6 0x22; Var 1; Var 12; Var 5; Var 5]
  | F_AddSubShifted =>
      [Var 1; Var 1; Var 1; Fixed 5 0xb; Var 2; Fixed 1 0; Var 5; Var 6; Var 5; Var 5]
  | F_AddSubExtended =>
      [Var 1; Var 1; Var 1; Fixed 5 0xb; Fixed 2 0; Fixed 1 1; Var 5; Var 3; Var 3;
       Var 5; Var 5]
  | F_LogicalImm => [Var 1; Var 2; Fixed 6 0x24; Var 1; Var 6; Var 6; Var 5; Var 5]
  | F_LogicalShifted =>
      [Var 1; Var 2; Fixed 5 0xa; Var 2; Var 1; Var 5; Var 6; Var 5; Var 5]
  | F_Bitfield => [Var 1; Var 2; Fixed 6 0x26; Var 1; Var 6; Var 6; Var 5; Var 5]
  | F_DataProc2 => [Var 1; Fixed 10 0xd6; Var 5; Var 6; Var 5; Var 5]
  | F_DataProc3 => [Var 1; Fixed 2 0; Fixed 5 0x1b; Var 3; Var 5; Var 1; Var 5; Var 5; Var 5]
  | F_DataProc1 => [Var 1; Fixed 1 1; Fixed 9 0xd6; Fixed 5 0; Var 6; Var 5; Var 5]
  | F_CondSelect =>
      [Var 1; Var 1; Fixed 1 0; Fixed 8 0xd4; Var 5; Var 4; Var 2; Var 5; Var 5]
  | F_Adr => [Fixed 1 0; Var 2; Fixed 5 0x10; Var 19; Var 5]
  | F_Adrp => [Fixed 1 1; Var 2; Fixed 5 0x10; Var 19; Var 5]
  | F_Branch => [Var 1; Fixed 5 5; Var 26]
  | F_BranchCond => [Fixed 7 0x2a; Fixed 1 0; Var 19; Fixed 1 0; Var 4]
  | F_CompareBranch => [Var 1; Fixed 6 0x1a; Var 1; Var 19; Var 5]
  | F_TestBranch => [Var 1; Fixed 6 0x1b; Var 1; Var 5; Var 14; Var 5]
  | F_BranchReg => [Fixed 22 0x3587C0; Var 5; Fixed 5 0]
  | F_BranchLinkReg => [Fixed 22 0x358FC0; Var 5; Fixed 5 0]
  | F_Ret => [Fixed 22 0x3597C0; Var 5; Fixed 5 0]
  | F_LdStUnsigned => ldst_form 0 0
  | F_LdStUnscaled => ldst_form 0 1
  | F_LdStPre => ldst_form 0 2
  | F_LdStPost => ldst_form 0 3
  | F_LdStReg => ldst_form 0 4
  | F_FpLdStUnsigned => ldst_form 1 0
  | F_FpLdStUnscaled => ldst_form 1 1
  | F_FpLdStPre => ldst_form 1 2
  | F_FpLdStPost => ldst_form 1 3
  | F_FpLdStReg => ldst_form 1 4
  | F_LdStPair => [Var 2; Fixed 3 5; Fixed 2 0; Var 2; Var 1; Var 7; Var 5; Var 5; Var 5]
  | F_Nop => [Fixed 32 0xD503201F]
  | F_Brk => [Fixed 11 0x6A1; Var 16; Fixed 5 0]
  | F_Svc => [Fixed 11 0x6A0; Var 16; Fixed 5 1]
  | F_Udf => [Fixed 16 0; Var 16]
  | F_FpDataProc1 =>
      [Fixed 8 0x1e; Fixed 1 0; Var 1; Fixed 1 1; Fixed 4 0; Var 2; Fixed 5 0x10; Var 5; Var 5]
  | F_FcvtToD =>
      [Fixed 8 0x1e; Fixed 1 0; Fixed 1 0; Fixed 1 1; Fixed 6 5; Fixed 5 0x10; Var 5; Var 5]
  | F_FcvtToS =>
      [Fixed 8 0x1e; Fixed 1 0; Fixed 1 1; Fixed 1 1; Fixed 6 4; Fixed 5 0x10; Var 5; Var 5]
  | F_FpDataProc2 =>
      [Fixed 8 0x1e; Fixed 1 0; Var 1; Fixed 1 1; Var 5; Fixed 2 0; Var 2; Fixed 2 2; Var 5;
       Var 5]
  | F_FpCompare =>
      [Fixed 8 0x1e; Fixed 1 0; Var 1; Fixed 1 1; Var 5; Fixed 6 8; Var 5; Fixed 5 0]
  | F_FpCondSelect =>
      [Fixed 8 0x1e; Fixed 1 0; Var 1; Fixed 1 1; Var 5; Var 4; Fixed 2 3; Var 5; Var 5]
  | F_FpImmMove =>
      [Fixed 8 0x1e; Fixed 1 0; Var 1; Fixed 1 1; Var 8; Fixed 3 4; Fixed 5 0; Var 5]
  | F_FpToGp =>
      [Var 1; Fixed 7 0x1e; Fixed 1 0; Var 1; Fixed 1 1; Fixed 5 6; Fixed 6 0; Var 5; Var 5]
  | F_GpToFp =>
      [Var 1; Fixed 7 0x1e; Fixed 1 0; Var 1; Fixed 1 1; Fixed 5 7; Fixed 6 0; Var 5; Var 5]
  | F_FpIntConvert =>
      [Var 1; Fixed 7 0x1e; Fixed 1 0; Var 1; Fixed 1 1; Var 2; Fixed 1 0; Var 2; Fixed 6 0;
       Var 5; Var 5]
  | F_FpMadd =>
      [Fixed 8 0x1f; Fixed 1 0; Var 1; Fixed 1 0; Var 5; Fixed 1 0; Var 5; Var 5; Var 5]
  end.

Definition ldst_mode_form (fp : bool) (mode : AddrMode) : Form :=
  match mode with
  | UnsignedOffset _ => if fp then F_FpLdStUnsigned else F_LdStUnsigned
  | Unscaled _ => if fp then F_FpLdStUnscaled else F_LdStUnscaled
  | PreIndex _ => if fp then F_FpLdStPre else F_LdStPre
  | PostIndex _ => if fp then F_FpLdStPost else F_LdStPost
  | AM_RegOffset _ => if fp then F_FpLdStReg else F_LdStReg
  end.

Definition form_of (i : Inst) : Form :=
  match i with
  | MovWide _ _ _ _ => F_MovWide
  | AddSubImm _ _ _ _ _ _ => F_AddSubImm
  | AddSubShiftedReg _ _ _ _ _ _ _ => F_AddSubShifted
  | AddSubExtendedReg _ _ _ _ _ _ _ => F_AddSubExtended
  | LogicalImmInst _ _ _ _ _ => F_LogicalImm
  | LogicalShiftedReg _ _ _ _ _ _ => F_LogicalShifted
  | Bitfield _ _ _ _ _ _ => F_Bitfield
  | DataProc2Source _ _ _ _ => F_DataProc2
  | DataProc3Source _ _ _ _ _ _ => F_DataProc3
  | DataProc1Source _ _ _ => F_DataProc1
  | CondSelect _ _ _ _ _ _ => F_CondSelect
  | Adr _ _ => F_Adr
  | Adrp _ _ => F_Adrp
  | Branch _ _ => F_Branch
  | BranchCond _ _ => F_BranchCond
  | CompareBranch _ _ _ _ => F_CompareBranch
  | TestBranch _ _ _ _ => F_TestBranch
  | BranchReg _ => F_BranchReg
  | BranchLinkReg _ => F_BranchLinkReg
  | Ret _ => F_Ret
  | LoadStoreImm _ _ _ mode => ldst_mode_form false mode
  | FpLoadStoreImm _ _ _ mode => ldst_mode_form true mode
  | LoadStorePair _ _ _ _ _ _ _ => F_LdStPair
  | System Nop => F_Nop
  | System (Brk _) => F_Brk
  | System (Svc _) => F_Svc
  | System (Udf _) => F_Udf
  | FpDataProc1 _ _ _ => F_FpDataProc1
  | FpConvert rd _ => if FpReg.is_double rd then F_FcvtToD else F_FcvtToS
  | FpDataProc2 _ _ _ _ => F_FpDataProc2
  | FpCompare _ _ => F_FpCompare
  | FpCondSelect _ _ _ _ => F_FpCondSelect
  | FpImmMove _ _ => F_FpImmMove
  | FpToGp _ _ => F_FpToGp
  | GpToFp _ _ => F_GpToFp
  | FpIntConvert _ _ _ => F_FpIntConvert
  | FpMadd _ _ _ _ => F_FpMadd
  end.

(** ** The values of the variable fields *)

Abbreviation re := Reg.encoding (only parsing).
Abbreviation fe := FpReg.encoding (only parsing).
Abbreviation ftype r := (b2z (FpReg.is_double r)) (only parsing).

Definition mode_fields (opc : Z) (rn : Reg) (rt : Z) (mode : AddrMode) : list Z :=
  match mode with
  | UnsignedOffset imm => [opc; UScaledImm12.encoding imm; re rn; rt]
  | Unscaled imm | PreIndex imm | PostIndex imm => [opc; Simm9.encoding imm; re rn; rt]
  | AM_RegOffset ro =>
      [opc; re (RegOffset.rm ro); ext_option (RegOffset.extend ro);
       b2z (RegOffset.shifted ro); re rn; rt]
  end.

Definition fields (i : Inst) : list Z :=
  match i with
  | MovWide op rd imm16 shift => [sf rd; mov_wide_opc op; shift / 16; imm16; re rd]
  | AddSubImm op set_flags rd rn imm _ =>
      [sf rd; b2z (is_sub op); b2z set_flags; b2z (Uimm12Lsl.shift12 imm); Uimm12Lsl.raw imm;
       re rn; re rd]
  | AddSubShiftedReg op set_flags rd rn rm shift _ =>
      [sf rd; b2z (is_sub op); b2z set_flags; ShiftKind_encoding (RegShift.kind shift); re rm;
       RegShift.amount shift; re rn; re rd]
  | AddSubExtendedReg op set_flags rd rn rm extend _ =>
      [sf rd; b2z (is_sub op); b2z set_flags; re rm;
       ExtendKind_encoding (RegExtend.kind extend); RegExtend.amount extend; re rn; re rd]
  | LogicalImmInst op rd rn imm _ =>
      [sf rd; logical_imm_opc op; LogicalImm.n imm; LogicalImm.immr imm; LogicalImm.imms imm;
       re rn; re rd]
  | LogicalShiftedReg op rd rn rm shift _ =>
      [sf rd; fst (logical_shift_opc op); ShiftKind_encoding (RegShift.kind shift);
       snd (logical_shift_opc op); re rm; RegShift.amount shift; re rn; re rd]
  | Bitfield op rd rn immr imms _ =>
      [sf rd; bitfield_opc op; sf rd; immr; imms; re rn; re rd]
  | DataProc2Source op rd rn rm => [sf rd; re rm; data_proc_2_opcode op; re rn; re rd]
  | DataProc3Source op rd rn rm ra _ =>
      [sf rd; fst (data_proc_3_opcode op); re rm; snd (data_proc_3_opcode op); re ra; re rn;
       re rd]
  | DataProc1Source op rd rn => [sf rd; data_proc_1_opcode op (Reg.is64 rd); re rn; re rd]
  | CondSelect op rd rn rm cond _ =>
      [sf rd; fst (cond_select_bits op); re rm; Cond.code cond; snd (cond_select_bits op);
       re rn; re rd]
  | Adr rd offset =>
      [fst (AdrOffset.encoding offset); snd (AdrOffset.encoding offset); re rd]
  | Adrp rd offset =>
      [fst (AdrpOffset.encoding offset); snd (AdrpOffset.encoding offset); re rd]
  | Branch link offset => [b2z link; BranchOffset.encoding offset]
  | BranchCond cond offset => [BranchOffset.encoding offset; Cond.code cond]
  | CompareBranch is64 is_nonzero rt offset =>
      [b2z is64; b2z is_nonzero; BranchOffset.encoding offset; re rt]
  | TestBranch is_nonzero rt bit offset =>
      [Z.land (Z.shiftr bit 5) 1; b2z is_nonzero; Z.land bit 0x1F;
       BranchOffset.encoding offset; re rt]
  | BranchReg rn | BranchLinkReg rn | Ret rn => [re rn]
  | LoadStoreImm op rt rn mode =>
      fst (size_opc op) :: mode_fields (snd (size_opc op)) rn (re rt) mode
  | FpLoadStoreImm is_load rt rn mode =>
      (if FpReg.is_double rt then 3 else 2) :: mode_fields (b2z is_load) rn (fe rt) mode
  | LoadStorePair is_load is64 rt1 rt2 rn imm index =>
      [if is64 then 2 else 0; pair_index_mode index; b2z is_load; SImm7Scaled.encoding imm;
       re rt2; re rn; re rt1]
  | System Nop => []
  | System (Brk imm16 | Svc imm16 | Udf imm16) => [imm16]
  | FpDataProc1 op rd rn => [ftype rd; fp_unary_opcode op; fe rn; fe rd]
  | FpConvert rd rn => [fe rn; fe rd]
  | FpDataProc2 op rd rn rm => [ftype rd; fe rm; fp_bin_opcode op; fe rn; fe rd]
  | FpCompare rn rm => [ftype rn; fe rm; fe rn]
  | FpCondSelect rd rn rm cond => [ftype rd; fe rm; Cond.code cond; fe rn; fe rd]
  | FpImmMove rd imm => [ftype rd; FpImm8.encoding imm; fe rd]
  | FpToGp rd rn => [sf rd; ftype rn; fe rn; re rd]
  | GpToFp rd rn => [sf rn; ftype rd; re rn; fe rd]
  | FpIntConvert op gp fp =>
      let '(rmode, opcode) := int_convert_bits op in
      match op with
      | Scvtf | Ucvtf => [sf gp; ftype fp; rmode; opcode; re gp; fe fp]
      | _ => [sf gp; ftype fp; rmode; opcode; fe fp; re gp]
      end
  | FpMadd rd rn rm ra => [ftype rd; fe rm; fe ra; fe rn; fe rd]
  end.

Definition pack_inst (i : Inst) : Z := pack (template (form_of i)) (fields i).

(** ** Decoding *)

Definition z2b (z : Z) : bool := z =? 1.

Definition of_code {A} (code : A → Z) (l : list A) (z : Z) : option A :=
  List.find (λ a, code a =? z) l.
Definition of_code2 {A} (code : A → Z * Z) (l : list A) (x y : Z) : option A :=
  List.find (λ a, (fst (code a) =? x) && (snd (code a) =? y)) l.

(** Register 31 reads as the zero register ([rz]) or as the stack pointer
    ([rs]), depending on the operand's position. *)
Definition rz (n : Z) (b : bool) : Reg := Reg.mk n b false.
Definition rs (n : Z) (b : bool) : Reg := Reg.mk n b (n =? 31).

Definition branch_of (b z : Z) : BranchOffset := BranchOffset.mk b (to_signed b z).
Definition simm9_of (z : Z) : Simm9 := Simm9.mk (to_signed 9 z).
Definition add_sub_of (z : Z) : AddSubOp := if z2b z then Sub else Add.

Definition mov_wide_ops := [Movn; Movz; Movk].
Definition logical_imm_ops := [LI_And; LI_Orr; LI_Eor; LI_Ands].
Definition logical_shift_ops :=
  [LS_And; LS_Bic; LS_Orr; LS_Orn; LS_Eor; LS_Eon; LS_Ands; LS_Bics].
Definition bitfield_ops := [Sbfm; Bfm; Ubfm].
Definition data_proc_2_ops := [Udiv; Sdiv; Lslv; Lsrv; Asrv; Rorv].
Definition data_proc_3_ops := [Madd; Msub; Smulh; Umulh].
Definition data_proc_1_ops := [Rbit; Clz; Rev].
Definition cond_select_ops := [Csel; Csinc; Csinv; Csneg].
Definition shift_kinds := [Lsl; Lsr; Asr; Ror].
Definition extend_kinds := [Uxtb; Uxth; Uxtw; Uxtx; Sxtb; Sxth; Sxtw; Sxtx].
Definition ldst_ops :=
  [StrB; LdrB; LdrSb true; LdrSb false; StrH; LdrH; LdrSh true; LdrSh false; StrW; LdrW;
   LdrSw; StrX; LdrX].
Definition ldst_extends := [LE_Uxtw; LE_Lsl; LE_Sxtw; LE_Sxtx].
Definition pair_indexes := [PI_PostIndex; PI_Offset; PI_PreIndex].
Definition fp_unary_ops := [Fmov; Fabs; Fneg; Fsqrt].
Definition fp_bin_ops := [Fmul; Fdiv; Fadd; Fsub].
Definition int_convert_ops := [Scvtf; Ucvtf; Fcvtzs; Fcvtzu].

Definition fz (n ty : Z) : FpReg := FpReg.of_bits n (z2b ty).

Definition reg_offset_of (rm opt shifted : Z) : option RegOffset :=
  e ← of_code ext_option ldst_extends opt;
  Some (RegOffset.mk (rz rm (rm_is64 e)) e (z2b shifted)).

Definition ldst_of (size opc rn rt : Z) (mode : LdStOp → AddrMode) : option Inst :=
  op ← of_code2 size_opc ldst_ops size opc;
  Some (LoadStoreImm op (rz rt (rt_is64 op)) (rs rn true) (mode op)).

Definition fp_ldst_of (size opc rn rt : Z) (mode : AddrMode) : option Inst :=
  Some (FpLoadStoreImm (z2b opc) (FpReg.of_bits rt (size =? 3)) (rs rn true) mode).

(** The instruction a form's field values stand for. *)
Definition rebuild (f : Form) (vs : list Z) : option Inst :=
  match f, vs with
  | F_MovWide, [s; opc; hw; imm16; rd] =>
      op ← of_code mov_wide_opc mov_wide_ops opc;
      Some (MovWide op (rz rd (z2b s)) imm16 (hw * 16))
  | F_AddSubImm, [s; o; fl; sh; imm12; rn; rd] =>
      let b := z2b s in
      Some (AddSubImm (add_sub_of o) (z2b fl) (if z2b fl then rz rd b else rs rd b) (rs rn b)
              (Uimm12Lsl.mk imm12 (z2b sh)) AS_None)
  | F_AddSubShifted, [s; o; fl; k; rm; a; rn; rd] =>
      let b := z2b s in
      kind ← of_code ShiftKind_encoding shift_kinds k;
      Some (AddSubShiftedReg (add_sub_of o) (z2b fl) (rz rd b) (rz rn b) (rz rm b)
              (RegShift.mk kind a) AS_None)
  | F_AddSubExtended, [s; o; fl; rm; k; a; rn; rd] =>
      let b := z2b s in
      kind ← of_code ExtendKind_encoding extend_kinds k;
      Some (AddSubExtendedReg (add_sub_of o) (z2b fl) (if z2b fl then rz rd b else rs rd b)
              (rs rn b) (rz rm (ext_is64 kind)) (RegExtend.mk kind a) AS_None)
  | F_LogicalImm, [s; opc; n; immr; imms; rn; rd] =>
      let b := z2b s in
      op ← of_code logical_imm_opc logical_imm_ops opc;
      v ← decode_bitmask n immr imms (LogicalImm.size b);
      Some (LogicalImmInst op (if bool_decide (op = LI_Ands) then rz rd b else rs rd b)
              (rz rn b) (LogicalImm.mk n immr imms b v) LA_None)
  | F_LogicalShifted, [s; opc; k; n; rm; a; rn; rd] =>
      let b := z2b s in
      op ← of_code2 logical_shift_opc logical_shift_ops opc n;
      kind ← of_code ShiftKind_encoding shift_kinds k;
      Some (LogicalShiftedReg op (rz rd b) (rz rn b) (rz rm b) (RegShift.mk kind a) LA_None)
  | F_Bitfield, [s; opc; n; immr; imms; rn; rd] =>
      let b := z2b s in
      op ← of_code bitfield_opc bitfield_ops opc;
      if n =? s then Some (Bitfield op (rz rd b) (rz rn b) immr imms BA_None) else None
  | F_DataProc2, [s; rm; opc; rn; rd] =>
      let b := z2b s in
      op ← of_code data_proc_2_opcode data_proc_2_ops opc;
      Some (DataProc2Source op (rz rd b) (rz rn b) (rz rm b))
  | F_DataProc3, [s; op31; rm; o0; ra; rn; rd] =>
      let b := z2b s in
      op ← of_code2 data_proc_3_opcode data_proc_3_ops op31 o0;
      Some (DataProc3Source op (rz rd b) (rz rn b) (rz rm b) (rz ra b) false)
  | F_DataProc1, [s; opc; rn; rd] =>
      let b := z2b s in
      op ← of_code (λ o, data_proc_1_opcode o b) data_proc_1_ops opc;
      Some (DataProc1Source op (rz rd b) (rz rn b))
  | F_CondSelect, [s; o; rm; cond; op2; rn; rd] =>
      let b := z2b s in
      op ← of_code2 cond_select_bits cond_select_ops o op2;
      Some (CondSelect op (rz rd b) (rz rn b) (rz rm b) (Cond.mk cond) CA_None)
  | F_Adr, [lo; hi; rd] => Some (Adr (rz rd true) (AdrOffset.mk (imm21_value (lo, hi))))
  | F_Adrp, [lo; hi; rd] => Some (Adrp (rz rd true) (AdrpOffset.mk (imm21_value (lo, hi))))
  | F_Branch, [link; imm] => Some (Branch (z2b link) (branch_of 26 imm))
  | F_BranchCond, [imm; cond] => Some (BranchCond (Cond.mk cond) (branch_of 19 imm))
  | F_CompareBranch, [s; nz; imm; rt] =>
      Some (CompareBranch (z2b s) (z2b nz) (rz rt (z2b s)) (branch_of 19 imm))
  | F_TestBranch, [b5; nz; b40; imm; rt] =>
      Some (TestBranch (z2b nz) (rz rt true) (b5 * 32 + b40) (branch_of 14 imm))
  | F_BranchReg, [rn] => Some (BranchReg (rz rn true))
  | F_BranchLinkReg, [rn] => Some (BranchLinkReg (rz rn true))
  | F_Ret, [rn] => Some (Ret (rz rn true))
  | F_LdStUnsigned, [size; opc; imm; rn; rt] =>
      ldst_of size opc rn rt (λ op, UnsignedOffset (UScaledImm12.mk imm (access_size op)))
  | F_LdStUnscaled, [size; opc; imm; rn; rt] =>
      ldst_of size opc rn rt (λ _, Unscaled (simm9_of imm))
  | F_LdStPre, [size; opc; imm; rn; rt] =>
      ldst_of size opc rn rt (λ _, PreIndex (simm9_of imm))
  | F_LdStPost, [size; opc; imm; rn; rt] =>
      ldst_of size opc rn rt (λ _, PostIndex (simm9_of imm))
  | F_LdStReg, [size; opc; rm; e; s; rn; rt] =>
      ro ← reg_offset_of rm e s; ldst_of size opc rn rt (λ _, AM_RegOffset ro)
  | F_FpLdStUnsigned, [size; opc; imm; rn; rt] =>
      fp_ldst_of size opc rn rt
        (UnsignedOffset (UScaledImm12.mk imm (if size =? 3 then 8 else 4)))
  | F_FpLdStUnscaled, [size; opc; imm; rn; rt] =>
      fp_ldst_of size opc rn rt (Unscaled (simm9_of imm))
  | F_FpLdStPre, [size; opc; imm; rn; rt] =>
      fp_ldst_of size opc rn rt (PreIndex (simm9_of imm))
  | F_FpLdStPost, [size; opc; imm; rn; rt] =>
      fp_ldst_of size opc rn rt (PostIndex (simm9_of imm))
  | F_FpLdStReg, [size; opc; rm; e; s; rn; rt] =>
      ro ← reg_offset_of rm e s; fp_ldst_of size opc rn rt (AM_RegOffset ro)
  | F_LdStPair, [opc; idx; l; imm7; rt2; rn; rt1] =>
      let b := opc =? 2 in
      index ← of_code pair_index_mode pair_indexes idx;
      Some (LoadStorePair (z2b l) b (rz rt1 b) (rz rt2 b) (rs rn true)
              (SImm7Scaled.mk (to_signed 7 imm7) (if b then 8 else 4)) index)
  | F_Nop, [] => Some (System Nop)
  | F_Brk, [imm16] => Some (System (Brk imm16))
  | F_Svc, [imm16] => Some (System (Svc imm16))
  | F_Udf, [imm16] => Some (System (Udf imm16))
  | F_FpDataProc1, [ty; opc; rn; rd] =>
      op ← of_code fp_unary_opcode fp_unary_ops opc;
      Some (FpDataProc1 op (fz rd ty) (fz rn ty))
  | F_FcvtToD, [rn; rd] => Some (FpConvert (FpReg.of_bits rd true) (FpReg.of_bits rn false))
  | F_FcvtToS, [rn; rd] => Some (FpConvert (FpReg.of_bits rd false) (FpReg.of_bits rn true))
  | F_FpDataProc2, [ty; rm; opc; rn; rd] =>
      op ← of_code fp_bin_opcode fp_bin_ops opc;
      Some (FpDataProc2 op (fz rd ty) (fz rn ty) (fz rm ty))
  | F_FpCompare, [ty; rm; rn] => Some (FpCompare (fz rn ty) (fz rm ty))
  | F_FpCondSelect, [ty; rm; cond; rn; rd] =>
      Some (FpCondSelect (fz rd ty) (fz rn ty) (fz rm ty) (Cond.mk cond))
  | F_FpImmMove, [ty; imm8; rd] =>
      Some (FpImmMove (fz rd ty)
              (FpImm8.mk imm8 (z2b ty) (FpImm8.expand imm8 (z2b ty))))
  | F_FpToGp, [s; ty; rn; rd] => Some (FpToGp (rz rd (z2b s)) (fz rn ty))
  | F_GpToFp, [s; ty; rn; rd] => Some (GpToFp (fz rd ty) (rz rn (z2b s)))
  | F_FpIntConvert, [s; ty; rmode; opc; rn; rd] =>
      op ← of_code2 int_convert_bits int_convert_ops rmode opc;
      match op with
      | Scvtf | Ucvtf => Some (FpIntConvert op (rz rn (z2b s)) (fz rd ty))
      | _ => Some (FpIntConvert op (rz rd (z2b s)) (fz rn ty))
      end
  | F_FpMadd, [ty; rm; ra; rn; rd] =>
      Some (FpMadd (fz rd ty) (fz rn ty) (fz rm ty) (fz ra ty))
  | _, _ => None
  end.

Definition disassemble (word : Z) : option Inst :=
  f ← List.find (λ f, matches (template f) word) all_forms;
  rebuild f (unpack (template f) word).

(** ** What a word determines

    Which alias built an instruction is not in the word, nor is the width of
    the [TBZ]/[TBNZ] register; and register 31 means the stack pointer or the
    zero register by position.  [canon] forgets the first two and reads
    register 31 the way the position does. *)
Definition as_zr (r : Reg) : Reg := rz (Reg.num r) (Reg.is64 r).
Definition as_sp (r : Reg) : Reg := rs (Reg.num r) (Reg.is64 r).

Definition canon_mode (m : AddrMode) : AddrMode :=
  match m with
  | AM_RegOffset ro =>
      AM_RegOffset (RegOffset.mk (as_zr (RegOffset.rm ro)) (RegOffset.extend ro)
                      (RegOffset.shifted ro))
  | _ => m
  end.

Definition canon (i : Inst) : Inst :=
  match i with
  | MovWide op rd imm16 shift => MovWide op (as_zr rd) imm16 shift
  | AddSubImm op set_flags rd rn imm _ =>
      AddSubImm op set_flags (if set_flags then as_zr rd else as_sp rd) (as_sp rn) imm AS_None
  | AddSubShiftedReg op set_flags rd rn rm shift _ =>
      AddSubShiftedReg op set_flags (as_zr rd) (as_zr rn) (as_zr rm) shift AS_None
  | AddSubExtendedReg op set_flags rd rn rm extend _ =>
      AddSubExtendedReg op set_flags (if set_flags then as_zr rd else as_sp rd) (as_sp rn)
        (as_zr rm) extend AS_None
  | LogicalImmInst op rd rn imm _ =>
      LogicalImmInst op (if bool_decide (op = LI_Ands) then as_zr rd else as_sp rd) (as_zr rn)
        imm LA_None
  | LogicalShiftedReg op rd rn rm shift _ =>
      LogicalShiftedReg op (as_zr rd) (as_zr rn) (as_zr rm) shift LA_None
  | Bitfield op rd rn immr imms _ => Bitfield op (as_zr rd) (as_zr rn) immr imms BA_None
  | DataProc2Source op rd rn rm => DataProc2Source op (as_zr rd) (as_zr rn) (as_zr rm)
  | DataProc3Source op rd rn rm ra _ =>
      DataProc3Source op (as_zr rd) (as_zr rn) (as_zr rm) (as_zr ra) false
  | DataProc1Source op rd rn => DataProc1Source op (as_zr rd) (as_zr rn)
  | CondSelect op rd rn rm cond _ =>
      CondSelect op (as_zr rd) (as_zr rn) (as_zr rm) cond CA_None
  | Adr rd offset => Adr (as_zr rd) offset
  | Adrp rd offset => Adrp (as_zr rd) offset
  | CompareBranch is64 is_nonzero rt offset => CompareBranch is64 is_nonzero (as_zr rt) offset
  | TestBranch is_nonzero rt bit offset =>
      TestBranch is_nonzero (Reg.with64 (as_zr rt) true) bit offset
  | BranchReg rn => BranchReg (as_zr rn)
  | BranchLinkReg rn => BranchLinkReg (as_zr rn)
  | Ret rn => Ret (as_zr rn)
  | LoadStoreImm op rt rn mode => LoadStoreImm op (as_zr rt) (as_sp rn) (canon_mode mode)
  | LoadStorePair is_load is64 rt1 rt2 rn imm index =>
      LoadStorePair is_load is64 (as_zr rt1) (as_zr rt2) (as_sp rn) imm index
  | FpLoadStoreImm is_load rt rn mode => FpLoadStoreImm is_load rt (as_sp rn) (canon_mode mode)
  | FpToGp rd rn => FpToGp (as_zr rd) rn
  | GpToFp rd rn => GpToFp rd (as_zr rn)
  | FpIntConvert op gp fp => FpIntConvert op (as_zr gp) fp
  | _ => i
  end.
