(* ===== verification/AsmRoundtrip.v ===== *)
(** * The encoder implements its tables, and the word determines the instruction *)

From S2P Require Import Prelude AsmReg AsmBitmask AsmOperand AsmInst AsmWf AsmEncode AsmSpec.

(** ** The encoder implements the tables *)

Lemma shl32_var w v k : unsigned w v → 0 ≤ k → 0 ≤ w ≤ 32 - k → shl32 v k = Z.shiftl v k.
Proof. intros. apply shl32_small; [lia|]. by eapply unsigned_weaken. Qed.

Ltac split_conjs :=
  repeat match goal with H : _ ∧ _ |- _ => destruct H end.

Ltac is_literal v := lazymatch v with Z0 => idtac | Zpos _ => idtac end.

Ltac shifts :=
  repeat match goal with
  | |- context [Z.shiftl ?v (total ?fs)] =>
      let t := eval vm_compute in (total fs) in change (total fs) with t
  | |- context [Z.shiftl ?v ?k] =>
      is_literal v; let t := eval vm_compute in (Z.shiftl v k) in change (Z.shiftl v k) with t
  | |- context [shl32 ?v ?k] =>
      first [ is_literal v; let t := eval vm_compute in (shl32 v k) in change (shl32 v k) with t
            | match goal with
              | H : unsigned ?w v |- _ => rewrite (shl32_var w v k H ltac:(lia) ltac:(lia))
              end ]
  end.
Ltac fold_literals :=
  repeat match goal with
  | |- context [Z.lor (Z.lor ?x ?v) ?w] =>
      is_literal v; is_literal w; rewrite <- (Z.lor_assoc x v w);
      let t := eval vm_compute in (Z.lor v w) in change (Z.lor v w) with t
  | |- context [Z.lor ?v ?w] =>
      is_literal v; is_literal w;
      let t := eval vm_compute in (Z.lor v w) in change (Z.lor v w) with t
  end.

(** Bring both sides to one left-nested or of shifted fields. *)
Ltac packs :=
  cbn [pack template form_of ldst_mode_form fields mode_fields app ldst_form ldst_mid] in *;
  shifts; rewrite ?Z.lor_assoc, ?Z.lor_0_r, ?Z.lor_0_l; fold_literals;
  rewrite ?Z.lor_0_r, ?Z.lor_0_l.

Lemma encode_pack i :
  fits (template (form_of i)) (fields i) → encode i = Ok (pack_inst i).
Proof.
  intros H. unfold encode, pack_inst. f_equal. destruct i.
  all: try match goal with op : SysOp |- _ => destruct op end.
  all: try match goal with op : FpIntConvertOp |- _ => destruct op end.
  all: try match goal with mode : AddrMode |- _ => destruct mode end.
  all: try match goal with
    | |- context [FpConvert ?rd] => destruct (FpReg.is_double rd) eqn:Hd end.
  all: cbn [form_of] in *; try rewrite Hd in *.
  all: cbn [template form_of ldst_mode_form fields mode_fields app ldst_form ldst_mid fits
            int_convert_bits] in *.
  all: unfold encode_mov_wide, encode_add_sub_imm, encode_add_sub_shifted,
    encode_add_sub_extended, encode_logical_imm, encode_logical_shifted,
    encode_bitfield, encode_data_proc_2, encode_data_proc_3, encode_data_proc_1,
    encode_cond_select, encode_adr, encode_adrp, encode_branch, encode_branch_cond,
    encode_compare_branch, encode_test_branch, encode_branch_reg,
    encode_branch_link_reg, encode_ret, encode_load_store_gp, encode_load_store_fp,
    encode_load_store_pair, encode_system, encode_fp_data_proc_1, encode_fp_convert,
    encode_fp_data_proc_2, encode_fp_compare, encode_fp_cond_select, encode_fp_imm_move,
    encode_fp_to_gp, encode_gp_to_fp, encode_fp_int_convert, encode_fp_madd.
  all: try rewrite Hd in *.
  all: cbn [int_convert_bits] in *; cbv beta iota zeta; split_conjs.
  all: try match goal with
    | |- context [let '(_, _) := ?p in _] => destruct p; cbn [fst snd] in * end.
  all: unfold encode_load_store_common.
  all: try match goal with
    | |- context [if ?b then 1 else 0] => change (if b then 1 else 0) with (b2z b) end.
  all: packs; try done.
  (* Svc: the fixed low bit comes first in the code *)
  rewrite <- Z.lor_assoc, (Z.lor_comm (Z.shiftl _ _) 1), Z.lor_assoc. done.
Qed.

(** ** Well-formed instructions fill their fields *)

Lemma bit_unsigned b : unsigned 1 (b2z b).
Proof. apply b2z_unsigned. lia. Qed.

Lemma branch_encoding_field b o :
  1 ≤ b < 32 → BranchOffset.wf b o →
  unsigned b (BranchOffset.encoding o) ∧
  to_signed b (BranchOffset.encoding o) = BranchOffset.word_off o.
Proof.
  intros Hb [<- Ho]. unfold BranchOffset.encoding. rewrite shl32_1 by lia.
  apply signed_field; [lia| |done]. rewrite Z.ones_equiv. lia.
Qed.
Lemma simm9_encoding_field o :
  Simm9.wf o →
  unsigned 9 (Simm9.encoding o) ∧ to_signed 9 (Simm9.encoding o) = Simm9.off o.
Proof. intros H. by apply signed_field. Qed.
Lemma simm7_encoding_field n o :
  SImm7Scaled.wf n o →
  unsigned 7 (SImm7Scaled.encoding o) ∧
  to_signed 7 (SImm7Scaled.encoding o) = SImm7Scaled.scaled o.
Proof. intros [_ H]. by apply signed_field. Qed.

Lemma size_opc_unsigned op :
  unsigned 2 (fst (size_opc op)) ∧ unsigned 2 (snd (size_opc op)).
Proof. destruct op as [| |[]| | |[]| | | | |]; done. Qed.

Lemma mov_wide_hw_unsigned (b : bool) shift :
  0 ≤ shift ≤ (if b then 48 else 16) → unsigned 2 (shift / 16).
Proof.
  intros H. split; [apply Z.div_pos|apply Z.div_lt_upper_bound]; destruct b; lia.
Qed.

Lemma test_bit_fields bit :
  0 ≤ bit ≤ 63 →
  unsigned 1 (Z.land (Z.shiftr bit 5) 1) ∧ unsigned 5 (Z.land bit 0x1F) ∧
  Z.land (Z.shiftr bit 5) 1 * 32 + Z.land bit 0x1F = bit.
Proof.
  intros H. rewrite Z.shiftr_div_pow2 by lia. change (2 ^ 5) with 32.
  assert (0 ≤ bit / 32 < 2) as Hq.
  { split; [apply Z.div_pos|apply Z.div_lt_upper_bound]; lia. }
  assert (Z.land (bit / 32) 1 = bit / 32) as ->.
  { etransitivity; [apply (Z.land_ones _ 1); lia|]. by apply Z.mod_small. }
  assert (Z.land bit 0x1F = bit mod 32) as -> by (apply (Z.land_ones _ 5); lia).
  pose proof (Z.div_mod bit 32 ltac:(lia)). pose proof (Z.mod_pos_bound bit 32 ltac:(lia)).
  unfold unsigned. change (2 ^ 1) with 2. change (2 ^ 5) with 32. lia.
Qed.

Create HintDb fields.
#[export] Hint Resolve bit_unsigned Reg.Reg_encoding_unsigned FpReg.FpReg_encoding_unsigned
  Cond.Cond_code_unsigned RegExtend.RegExtend_amount_unsigned : fields.

(** The range of one field. *)
Ltac field_range :=
  match goal with
  | |- unsigned _ (size_opc _).1 => apply size_opc_unsigned
  | |- unsigned _ (size_opc _).2 => apply size_opc_unsigned
  | |- unsigned _ (b2z _) => apply bit_unsigned
  | |- unsigned _ (sf _) => apply bit_unsigned
  | |- unsigned _ (ShiftKind_encoding ?k) => by destruct k
  | |- unsigned _ (ExtendKind_encoding ?k) => by destruct k
  | |- unsigned _ (ext_option ?k) => by destruct k
  | |- unsigned _ (data_proc_1_opcode ?op ?b) => by destruct op, b
  | |- unsigned _ (if ?b then _ else _) => by destruct b
  | |- unsigned _ (BranchOffset.encoding _) => apply branch_encoding_field; [lia|done]
  | |- unsigned _ (Simm9.encoding _) => by apply simm9_encoding_field
  | |- unsigned _ (SImm7Scaled.encoding _) => by eapply simm7_encoding_field
  | |- unsigned _ (AdrOffset.encoding _).1 => by apply imm21_fields_spec
  | |- unsigned _ (AdrOffset.encoding _).2 => by apply imm21_fields_spec
  | |- unsigned _ (AdrpOffset.encoding _).1 => by apply imm21_fields_spec
  | |- unsigned _ (AdrpOffset.encoding _).2 => by apply imm21_fields_spec
  | |- unsigned _ (_ / 16) => eapply mov_wide_hw_unsigned; split; eassumption
  | |- unsigned _ (Z.land _ 1) => apply test_bit_fields; case_match; lia
  | |- unsigned _ (Z.land _ 31) => apply test_bit_fields; case_match; lia
  | |- unsigned _ (?f ?op) => is_var op; by destruct op
  | |- unsigned _ (?f ?op).1 => is_var op; by destruct op
  | |- unsigned _ (?f ?op).2 => is_var op; by destruct op
  end.

(** Split an instruction by its form. *)
Ltac by_form i :=
  destruct i;
  try match goal with op : SysOp |- _ => destruct op end;
  try match goal with op : FpIntConvertOp |- _ => destruct op end;
  try match goal with mode : AddrMode |- _ => destruct mode end;
  cbn [form_of ldst_mode_form];
  try match goal with
    | |- context [if FpReg.is_double ?rd then F_FcvtToD else _] =>
        destruct (FpReg.is_double rd) eqn:? end.

Lemma wf_fits i : wf_inst i → fits (template (form_of i)) (fields i).
Proof.
  intros H. by_form i.
  all: cbn [fits template ldst_mode_form fields mode_fields app ldst_form ldst_mid wf_inst
            mode_wf int_convert_bits] in *;
    unfold wf2, fwf2, LogicalImm.wf, UScaledImm12.wf, FpImm8.wf, RegOffset.wf in *;
    split_conjs; split_and?; try done; eauto 2 with fields.
  all: field_range.
Qed.

(** ** Decoding the fields *)

Lemma z2b_b2z b : z2b (b2z b) = b.
Proof. by destruct b. Qed.
Lemma add_sub_of_code op : add_sub_of (b2z (is_sub op)) = op.
Proof. by destruct op. Qed.
Lemma mov_wide_of_code op : of_code mov_wide_opc mov_wide_ops (mov_wide_opc op) = Some op.
Proof. by destruct op. Qed.
Lemma logical_imm_of_code op :
  of_code logical_imm_opc logical_imm_ops (logical_imm_opc op) = Some op.
Proof. by destruct op. Qed.
Lemma logical_shift_of_code op :
  of_code2 logical_shift_opc logical_shift_ops
    (logical_shift_opc op).1 (logical_shift_opc op).2 = Some op.
Proof. by destruct op. Qed.
Lemma bitfield_of_code op : of_code bitfield_opc bitfield_ops (bitfield_opc op) = Some op.
Proof. by destruct op. Qed.
Lemma data_proc_2_of_code op :
  of_code data_proc_2_opcode data_proc_2_ops (data_proc_2_opcode op) = Some op.
Proof. by destruct op. Qed.
Lemma data_proc_3_of_code op :
  of_code2 data_proc_3_opcode data_proc_3_ops
    (data_proc_3_opcode op).1 (data_proc_3_opcode op).2 = Some op.
Proof. by destruct op. Qed.
Lemma data_proc_1_of_code op b :
  of_code (λ o, data_proc_1_opcode o b) data_proc_1_ops (data_proc_1_opcode op b) = Some op.
Proof. by destruct op, b. Qed.
Lemma cond_select_of_code op :
  of_code2 cond_select_bits cond_select_ops
    (cond_select_bits op).1 (cond_select_bits op).2 = Some op.
Proof. by destruct op. Qed.
Lemma shift_of_code k : of_code ShiftKind_encoding shift_kinds (ShiftKind_encoding k) = Some k.
Proof. by destruct k. Qed.
Lemma extend_of_code k :
  of_code ExtendKind_encoding extend_kinds (ExtendKind_encoding k) = Some k.
Proof. by destruct k. Qed.
Lemma ldst_of_code op :
  of_code2 size_opc ldst_ops (size_opc op).1 (size_opc op).2 = Some op.
Proof. destruct op as [| |[]| | |[]| | | | |]; done. Qed.
Lemma ldst_extend_of_code e : of_code ext_option ldst_extends (ext_option e) = Some e.
Proof. by destruct e. Qed.
Lemma pair_index_of_code i : of_code pair_index_mode pair_indexes (pair_index_mode i) = Some i.
Proof. by destruct i. Qed.
Lemma fp_unary_of_code op : of_code fp_unary_opcode fp_unary_ops (fp_unary_opcode op) = Some op.
Proof. by destruct op. Qed.
Lemma fp_bin_of_code op : of_code fp_bin_opcode fp_bin_ops (fp_bin_opcode op) = Some op.
Proof. by destruct op. Qed.

Lemma fp_size_code (b : bool) : ((if b then 3 else 2) =? 3) = b.
Proof. by destruct b. Qed.
Lemma pair_opc_code (b : bool) : ((if b then 2 else 0) =? 2) = b.
Proof. by destruct b. Qed.

Create Rewrite HintDb codes.
#[export] Hint Rewrite z2b_b2z add_sub_of_code mov_wide_of_code logical_imm_of_code
  logical_shift_of_code bitfield_of_code data_proc_2_of_code data_proc_3_of_code
  data_proc_1_of_code cond_select_of_code shift_of_code extend_of_code ldst_of_code
  ldst_extend_of_code pair_index_of_code fp_unary_of_code fp_bin_of_code fp_size_code
  pair_opc_code Z.eqb_refl : codes.

Lemma rz_as_zr r b : b = Reg.is64 r → rz (Reg.encoding r) b = as_zr r.
Proof. by intros ->. Qed.
Lemma rs_as_sp r b : b = Reg.is64 r → rs (Reg.encoding r) b = as_sp r.
Proof. by intros ->. Qed.
Lemma of_bits_encoding r b : b = FpReg.is_double r → FpReg.of_bits (FpReg.encoding r) b = r.
Proof. intros ->. apply FpReg.FpReg_of_bits_id. Qed.
Lemma fz_encoding r b : b = FpReg.is_double r → fz (FpReg.encoding r) (b2z b) = r.
Proof. unfold fz. rewrite z2b_b2z. apply of_bits_encoding. Qed.
Lemma branch_of_encoding b o :
  1 ≤ b < 32 → BranchOffset.wf b o → branch_of b (BranchOffset.encoding o) = o.
Proof.
  intros Hb Ho. unfold branch_of. destruct (branch_encoding_field b o Hb Ho) as [_ ->].
  destruct o as [b' w]. by destruct Ho as [[= ->] _].
Qed.
Lemma simm9_of_encoding o : Simm9.wf o → simm9_of (Simm9.encoding o) = o.
Proof. intros [_ Ho]%simm9_encoding_field. unfold simm9_of. rewrite Ho. by destruct o. Qed.
Lemma imm21_of_fields x :
  signed 21 x → imm21_value ((imm21_fields x).1, (imm21_fields x).2) = x.
Proof. intros H. rewrite <- surjective_pairing. by apply imm21_fields_spec. Qed.
Lemma mov_wide_shift shift : shift mod 16 = 0 → shift / 16 * 16 = shift.
Proof. intros H. pose proof (Z.div_mod shift 16 ltac:(lia)). lia. Qed.

(** Field by field, an operand rebuilt from its encoding is the operand. *)
Ltac same_operand :=
  match goal with
  | |- ?x = ?x => reflexivity
  | |- rz _ _ = as_zr _ => apply rz_as_zr; congruence
  | |- rs _ _ = as_sp _ => apply rs_as_sp; congruence
  | |- FpReg.of_bits _ _ = _ => apply of_bits_encoding; congruence
  | |- fz _ _ = _ => apply fz_encoding; congruence
  | |- (if ?b then _ else _) = (if ?b then _ else _) => destruct b; same_operand
  | |- branch_of _ _ = _ => apply branch_of_encoding; [lia|done]
  | |- simm9_of _ = _ => by apply simm9_of_encoding
  | |- _ / 16 * 16 = _ => by apply mov_wide_shift
  | |- imm21_value _ = _ => by apply imm21_of_fields
  | |- to_signed 7 _ = _ => by eapply simm7_encoding_field
  | |- Z.land _ 1 * 32 + _ = _ => apply test_bit_fields; case_match; lia
  | |- Some _ = Some _ => f_equal; same_operand
  | |- _ = ?x => is_var x; destruct x; simpl in *; f_equal; same_operand
  | |- _ _ = _ _ => progress f_equal; same_operand
  | |- _ => congruence
  end.

Lemma rebuild_fields i : wf_inst i → rebuild (form_of i) (fields i) = Some (canon i).
Proof.
  intros H. by_form i.
  all: cbn [rebuild fields mode_fields wf_inst mode_wf canon canon_mode int_convert_bits] in *;
    unfold wf2, fwf2, LogicalImm.wf, UScaledImm12.wf, FpImm8.wf, RegOffset.wf, SImm7Scaled.wf
      in *; split_conjs.
  all: repeat match goal with
    | E : FpReg.is_double ?r = _, H : _ = negb (FpReg.is_double ?r) |- _ =>
        rewrite E in H; simpl in H
    end.
  all: unfold sf, reg_offset_of, ldst_of, fp_ldst_of; autorewrite with codes; simpl.
  all: autorewrite with codes; simpl.
  all: try match goal with
    | Hi : LogicalImm.is64 ?imm = _, H : decode_bitmask _ _ _ _ = Some (LogicalImm.value ?imm)
        |- _ => rewrite <- Hi, H; simpl
    end.
  all: same_operand.
Qed.

(** ** A word matches one form only *)

Lemma templates_conflict :
  forallb (λ f, forallb (λ g, bool_decide (f = g) || conflict (template f) (template g))
                  all_forms) all_forms = true.
Proof. vm_compute. reflexivity. Qed.

Lemma elem_of_all_forms f : In f all_forms.
Proof. destruct f; cbn; tauto. Qed.

Lemma template_widths f : Forall (λ f, 0 ≤ fwidth f) (template f).
Proof. destruct f; repeat constructor; done. Qed.

Lemma template_total f : total (template f) = 32.
Proof. by destruct f. Qed.

Lemma one_form f g word :
  matches (template f) word = true → matches (template g) word = true → f = g.
Proof.
  intros Hf Hg. pose proof templates_conflict as Hc.
  rewrite forallb_forall in Hc. specialize (Hc f (elem_of_all_forms f)).
  rewrite forallb_forall in Hc. specialize (Hc g (elem_of_all_forms g)).
  apply orb_prop in Hc as [Hc%bool_decide_eq_true|Hc]; [done|].
  pose proof (conflict_not_both _ _ word (template_widths f) (template_widths g) Hc Hf).
  congruence.
Qed.

Lemma find_form f word :
  matches (template f) word = true →
  List.find (λ f, matches (template f) word) all_forms = Some f.
Proof.
  intros Hf. destruct (List.find _ all_forms) as [g|] eqn:E.
  - apply find_Some_elem in E as [_ Hg]. f_equal. by eapply one_form.
  - rewrite find_None_elem in E. rewrite E in Hf; [done|].
    apply list_elem_of_In, elem_of_all_forms.
Qed.

Lemma disassemble_pack i : wf_inst i → disassemble (pack_inst i) = Some (canon i).
Proof.
  intros H. pose proof (wf_fits i H) as Hfit. unfold disassemble, pack_inst.
  rewrite (find_form _ _ (matches_pack _ _ Hfit)). simpl.
  rewrite unpack_pack by done. by apply rebuild_fields.
Qed.

Lemma encode_wf i :
  wf_inst i → encode i = Ok (pack_inst i) ∧ unsigned 32 (pack_inst i).
Proof.
  intros H%wf_fits. split; [by apply encode_pack|].
  rewrite <- (template_total (form_of i)). by apply pack_unsigned.
Qed.
