(* ===== verification/AsmProps.v ===== *)
(** * What the assembler guarantees

    The end-to-end statements about [fors-asm]: every instruction its public
    constructors return ([AsmWf.built]) from operands of the instruction's own
    sizes ([AsmWf.agrees]) is encoded as the tables of [AsmSpec] say, in 32
    bits, and decodes back; which constructors also pin down the meaning of
    register 31; and what happens where that, or an operand's size, is left
    unchecked. *)

From S2P Require Import Prelude AsmReg AsmBitmask AsmOperand.
From S2P Require Import AsmInst AsmWf.
From S2P Require Import AsmEncode AsmSpec AsmRoundtrip.

(** ** Encoding *)

(** C1: an instruction the public constructors return, whose branch offset was
    validated for the width of the instruction's field and whose scaled load or
    store offset for its access size ([agrees], which the constructors do not
    check), encodes, without error, to the 32-bit word the template of its form
    prescribes: fixed bits as tabulated and every operand field in its place. *)
Theorem encode_implements_tables i :
  built i → agrees i →
  encode i = Ok (pack (template (form_of i)) (fields i)) ∧
  unsigned 32 (pack (template (form_of i)) (fields i)) ∧
  matches (template (form_of i)) (pack (template (form_of i)) (fields i)) = true ∧
  unpack (template (form_of i)) (pack (template (form_of i)) (fields i)) = fields i.
Proof.
  intros Hb Ha. pose proof (built_wf i Hb Ha) as H.
  destruct (encode_wf i H) as [-> Hu]. pose proof (wf_fits i H) as Hf.
  split_and!; [done|done|by apply matches_pack|by apply unpack_pack].
Qed.

(** C26: an instruction the public constructors return, its branch or scaled
    offset validated for the instruction's own field width or access size
    ([agrees], which the constructors do not check), encodes to a 32-bit word
    from which the decoder recovers it, up to what no word records (the alias,
    and how register 31 was spelled). *)
Theorem disassemble_encode i :
  built i → agrees i → ∃ w, encode i = Ok w ∧ unsigned 32 w ∧ disassemble w = Some (canon i).
Proof.
  intros Hb Ha. pose proof (built_wf i Hb Ha) as H. exists (pack_inst i). destruct (encode_wf i H) as [-> Hu].
  split_and!; [done|done|]. by apply disassemble_pack.
Qed.

(** Two such instructions with one encoding are the same instruction, in the
    same sense. *)
Theorem encode_injective i j :
  built i → agrees i → built j → agrees j → encode i = encode j → canon i = canon j.
Proof.
  intros Hbi Hai Hbj Haj He.
  pose proof (built_wf i Hbi Hai) as Hi. pose proof (built_wf j Hbj Haj) as Hj.
  destruct (encode_wf i Hi) as [Hi' _], (encode_wf j Hj) as [Hj' _].
  rewrite Hi', Hj' in He. injection He as He.
  pose proof (disassemble_pack i Hi) as H1. rewrite He, disassemble_pack in H1 by done.
  by injection H1.
Qed.

(** The forms are disjoint: no 32-bit word, valid or not, matches the
    templates of two of them. *)
Theorem forms_disjoint f g word :
  f ≠ g → matches (template f) word = true → matches (template g) word = false.
Proof.
  intros Hne Hf. destruct (matches (template g) word) eqn:Hg; [|done].
  by destruct Hne; eapply one_form.
Qed.

(** ** Register 31 *)

(** [i] without the choices that no word records. *)
Definition strip (i : Inst) : Inst :=
  match i with
  | AddSubImm op set_flags rd rn imm _ => AddSubImm op set_flags rd rn imm AS_None
  | AddSubShiftedReg op set_flags rd rn rm shift _ =>
      AddSubShiftedReg op set_flags rd rn rm shift AS_None
  | AddSubExtendedReg op set_flags rd rn rm extend _ =>
      AddSubExtendedReg op set_flags rd rn rm extend AS_None
  | LogicalImmInst op rd rn imm _ => LogicalImmInst op rd rn imm LA_None
  | LogicalShiftedReg op rd rn rm shift _ => LogicalShiftedReg op rd rn rm shift LA_None
  | Bitfield op rd rn immr imms _ => Bitfield op rd rn immr imms BA_None
  | DataProc3Source op rd rn rm ra _ => DataProc3Source op rd rn rm ra false
  | CondSelect op rd rn rm cond _ => CondSelect op rd rn rm cond CA_None
  | TestBranch is_nonzero rt bit offset =>
      TestBranch is_nonzero (Reg.with64 rt true) bit offset
  | _ => i
  end.

(** The forms whose constructors check how register 31 may be spelled. *)
Definition checked_forms : list Form :=
  [F_AddSubImm; F_AddSubShifted; F_LogicalShifted; F_Bitfield; F_DataProc2; F_DataProc1;
   F_CondSelect].

Lemma as_zr_id r : Reg.wf r → Reg.is_sp r = false → as_zr r = r.
Proof.
  destruct r as [n b s]. unfold Reg.wf, Reg.is_sp, as_zr, rz. simpl. intros [_ H] Hs.
  f_equal. destruct (Z.eqb_spec n 31); [done|]. by rewrite H.
Qed.
Lemma as_sp_id r : Reg.wf r → Reg.is_zr r = false → as_sp r = r.
Proof.
  destruct r as [n b s]. unfold Reg.wf, Reg.is_zr, as_sp, rs. simpl. intros [_ H] Hs.
  f_equal. destruct (Z.eqb_spec n 31); simpl in *; [by destruct s|]. by rewrite H.
Qed.
Lemma zr_like_as_zr r : as_zr (zr_like r) = zr_like r.
Proof. unfold zr_like. by case_match. Qed.

(** The spelling guards of the shared bodies. *)
Lemma add_sub_imm_registers sf rd rn what u :
  Reg.wf rd → Reg.wf rn → Inst.add_sub_imm_common sf rd rn what = Ok u →
  (if sf then as_zr rd else as_sp rd) = rd ∧ as_sp rn = rn.
Proof.
  unfold Inst.add_sub_imm_common. intros ?? H. inv_ok.
  split; [|by apply as_sp_id].
  destruct sf; inv_ok; [by apply as_zr_id|by apply as_sp_id].
Qed.

Ltac same_registers :=
  guards;
  repeat match goal with
    | H : Reg.is_sp ?r = false |- _ => apply as_zr_id in H; [|by auto with wf]
    end; simpl; congruence.

Lemma add_sub_shifted_registers op sf rd rn rm shift al i :
  Reg.wf rd → Reg.wf rn → Reg.wf rm →
  Inst.add_sub_shifted op sf rd rn rm shift al = Ok i → canon i = strip i.
Proof. intros ??? H. unfold_head H. same_registers. Qed.
Lemma logical_shifted_registers op rd rn rm shift al i :
  Reg.wf rd → Reg.wf rn → Reg.wf rm →
  Inst.logical_shifted op rd rn rm shift al = Ok i → canon i = strip i.
Proof. intros ??? H. unfold_head H. same_registers. Qed.
Lemma bitfield_raw_registers op rd rn immr imms al i :
  Reg.wf rd → Reg.wf rn → Inst.bitfield_raw op rd rn immr imms al = Ok i → canon i = strip i.
Proof. intros ?? H. unfold_head H. same_registers. Qed.
Lemma data_proc_2_registers op rd rn rm i :
  Reg.wf rd → Reg.wf rn → Reg.wf rm →
  Inst.data_proc_2 op rd rn rm = Ok i → canon i = strip i.
Proof. intros ??? H. unfold_head H. same_registers. Qed.
Lemma data_proc_1_registers op rd rn i :
  Reg.wf rd → Reg.wf rn → Inst.data_proc_1 op rd rn = Ok i → canon i = strip i.
Proof. intros ?? H. unfold_head H. same_registers. Qed.
Lemma cond_select_registers op rd rn rm cond al i :
  Reg.wf rd → Reg.wf rn → Reg.wf rm →
  Inst.cond_select op rd rn rm cond al = Ok i → canon i = strip i.
Proof. intros ??? H. unfold_head H. same_registers. Qed.

Lemma zr_like_registers rn : Reg.wf rn → Reg.wf (zr_like rn).
Proof. intros _. apply zr_like_wf. Qed.

Lemma add_sub_imm_inst_registers op sf rd rn imm al what i :
  Reg.wf rd → Reg.wf rn →
  (Inst.add_sub_imm_common sf rd rn what;; Ok (AddSubImm op sf rd rn imm al)) = Ok i →
  canon i = strip i.
Proof.
  intros ?? H. inv_ok.
  match goal with H : Inst.add_sub_imm_common _ _ _ _ = _ |- _ =>
    apply add_sub_imm_registers in H as [-> ->]; [|done..] end. done.
Qed.

Lemma rr_registers f rd rn i :
  f ∈ [Inst.mov_sp; Inst.mov_reg; Inst.sxtb; Inst.sxth; Inst.sxtw; Inst.uxtb; Inst.uxth;
       Inst.clz; Inst.rbit; Inst.rev] →
  Reg.wf rd → Reg.wf rn → f rd rn = Ok i → canon i = strip i.
Proof.
  intros Hf Hd Hn Hx. pose proof (zr_like_wf rd). pose proof (Reg.Reg_with64_wf rn true Hn).
  each_constructor; unfold_head Hx.
  1: by eapply add_sub_imm_inst_registers, Hx.
  1: by eapply logical_shifted_registers, Hx.
  6-8: by eapply data_proc_1_registers, Hx.
  all: inv_ok; by eapply bitfield_raw_registers, Hx.
Qed.

(** For the forms in [checked_forms], a register operand named SP is
    encoded where the architecture reads 31 as SP, and one named XZR/WZR where
    it reads 31 as the zero register: decoding the word gives back the very
    registers the caller wrote. *)
Theorem registers_as_written i :
  built i → form_of i ∈ checked_forms → canon i = strip i.
Proof.
  intros H Hform.
  destruct H; eauto using rr_registers; each_constructor.
  all: try match goal with H : _ = Ok _ |- _ => unfold_head H end.
  all: try (eapply add_sub_shifted_registers; [| | |eassumption]; auto with wf; done).
  all: try (eapply logical_shifted_registers; [| | |eassumption]; auto with wf; done).
  all: try (eapply add_sub_imm_inst_registers; [| |eassumption]; auto with wf; done).
  all: try by eauto 2 using data_proc_2_registers, bitfield_raw_registers, cond_select_registers.
  all: try by match goal with H : _ = Ok _ |- _ =>
    inv_ok; eapply bitfield_raw_registers, H || eapply cond_select_registers, H;
    auto with wf end.
  all: try match goal with H : _ = Ok _ |- _ => repeat unfold_head H end; inv_ok.
  all: try done.
  all: exfalso; unfold checked_forms in Hform; simpl in Hform.
  all: try destruct mode; try case_match; simpl in Hform; each_constructor.
Qed.

(** ** Where the operands are not checked *)

Definition x0 : Reg := Reg.mk 0 true false.
Definition x1 : Reg := Reg.mk 1 true false.
Definition x2 : Reg := Reg.mk 2 true false.

(** The extended-register and the immediate logical forms do not check how
    register 31 is spelled: [add x0, xzr, x1, uxtx] is accepted and encodes to
    the word of [add x0, sp, x1, uxtx], and [and xzr, x1, #1] to that of [and
    sp, x1, #1]. *)
Theorem xzr_encodes_as_sp :
  (∃ i j, Inst.add_extended x0 Reg.xzr x1 (RegExtend.mk Uxtx 0) = Ok i ∧
          Inst.add_extended x0 Reg.sp_ x1 (RegExtend.mk Uxtx 0) = Ok j ∧
          built i ∧ built j ∧ encode i = encode j ∧ strip i ≠ strip j) ∧
  (∃ imm i j, LogicalImm.new 1 true = Ok imm ∧
          Inst.and_imm Reg.xzr x1 imm = Ok i ∧ Inst.and_imm Reg.sp_ x1 imm = Ok j ∧
          built i ∧ built j ∧ encode i = encode j ∧ strip i ≠ strip j).
Proof.
  split.
  - eexists _, _. split_and!; [reflexivity|reflexivity| | |reflexivity|discriminate].
    + apply (built_extended Inst.add_extended x0 Reg.xzr x1 (RegExtend.mk Uxtx 0));
        [left|..|reflexivity]; apply (bool_decide_unpack _); exact I.
    + apply (built_extended Inst.add_extended x0 Reg.sp_ x1 (RegExtend.mk Uxtx 0));
        [left|..|reflexivity]; apply (bool_decide_unpack _); exact I.
  - eexists (LogicalImm.mk 1 0 0 true 1), _, _.
    split_and!; [vm_compute; reflexivity|reflexivity|reflexivity| | |reflexivity|discriminate].
    + apply (built_logical_imm Inst.and_imm Reg.xzr x1 (LogicalImm.mk 1 0 0 true 1));
        [left|..|reflexivity]; apply (bool_decide_unpack _); vm_compute; exact I.
    + apply (built_logical_imm Inst.and_imm Reg.sp_ x1 (LogicalImm.mk 1 0 0 true 1));
        [left|..|reflexivity]; apply (bool_decide_unpack _); vm_compute; exact I.
Qed.

(** A load accepts an offset validated for another access size: [ldr x0]
    with [UScaledImm12::new(8, 4)] is encoded as an offset of 16 bytes, and [ldp
    x0, x2] with [SImm7Scaled::new(8, 4)] likewise. *)
Theorem access_size_unchecked :
  (∃ imm i w, UScaledImm12.new 8 4 = Done (Ok imm) ∧ UScaledImm12.bytes imm = 8 ∧
     Inst.ldr x0 x1 (UnsignedOffset imm) = Ok i ∧ ¬ agrees i ∧ encode i = Ok w ∧
     disassemble w = Some (LoadStoreImm LdrX x0 x1 (UnsignedOffset (UScaledImm12.mk 2 8)))) ∧
  (∃ imm i w, SImm7Scaled.new 8 4 = Done (Ok imm) ∧ SImm7Scaled.bytes imm = 8 ∧
     Inst.ldp x0 x2 x1 imm PI_Offset = Ok i ∧ ¬ agrees i ∧ encode i = Ok w ∧
     disassemble w = Some (LoadStorePair true true x0 x2 x1 (SImm7Scaled.mk 2 8) PI_Offset)).
Proof.
  split; (eexists _, _, _;
    split_and!; [reflexivity|reflexivity|reflexivity|by vm_compute|reflexivity|]);
    vm_compute; done.
Qed.

(** A branch accepts an offset validated for another field width: [b.eq]
    with an offset of 8 MiB validated for 26 bits encodes, without error, to the
    word of [b.eq] to itself. *)
Theorem branch_offset_width_unchecked :
  ∃ far near, BranchOffset.new (2 ^ 23) 26 "b" = Ok far ∧
    BranchOffset.new 0 19 "b.cond" = Ok near ∧ BranchOffset.bytes far = 8388608 ∧
    ¬ agrees (Inst.b_cond Cond.EQ far) ∧
    encode (Inst.b_cond Cond.EQ far) = encode (Inst.b_cond Cond.EQ near).
Proof. eexists _, _. by split_and!; try reflexivity. Qed.

(** ** Witnesses *)

Definition add_x0_x1_1 : Inst := AddSubImm Add false x0 x1 (Uimm12Lsl.mk 1 false) AS_None.
Definition cmp_x1_1 : Inst := AddSubImm Sub true Reg.xzr x1 (Uimm12Lsl.mk 1 false) AS_Cmp.
Definition subs_xzr_x1_1 : Inst :=
  AddSubImm Sub true Reg.xzr x1 (Uimm12Lsl.mk 1 false) AS_None.

Lemma add_x0_x1_1_built : built add_x0_x1_1.
Proof.
  eapply (built_add_sub_imm Inst.add_imm x0 x1 (Uimm12Lsl.mk 1 false)); [left|..|reflexivity];
    apply (bool_decide_unpack _); exact I.
Qed.
Lemma cmp_x1_1_built : built cmp_x1_1.
Proof.
  eapply (built_cmp_imm Inst.cmp_imm x1 (Uimm12Lsl.mk 1 false)); [left|..|reflexivity];
    apply (bool_decide_unpack _); exact I.
Qed.
Lemma subs_xzr_x1_1_built : built subs_xzr_x1_1.
Proof.
  eapply (built_add_sub_imm Inst.subs_imm Reg.xzr x1 (Uimm12Lsl.mk 1 false));
    [right; right; right; left|..|reflexivity]; apply (bool_decide_unpack _); exact I.
Qed.

Definition ldr_x0_x1_8 : Inst := LoadStoreImm LdrX x0 x1 (UnsignedOffset (UScaledImm12.mk 1 8)).
Lemma ldr_x0_x1_8_built : built ldr_x0_x1_8.
Proof.
  eapply (built_load_store Inst.ldr x0 x1 (UnsignedOffset (UScaledImm12.mk 1 8)));
    [left|apply (bool_decide_unpack _); exact I..| |reflexivity].
  exists 8, 8. split; [apply (bool_decide_unpack _); exact I|reflexivity].
Qed.

Lemma encode_implements_tables_witness :
  built add_x0_x1_1 ∧ encode add_x0_x1_1 = Ok 0x91000420.
Proof.
  split; [exact add_x0_x1_1_built|].
  exact (proj1 (encode_implements_tables add_x0_x1_1 add_x0_x1_1_built I)).
Defined.

Lemma disassemble_encode_witness :
  ∃ w, encode ldr_x0_x1_8 = Ok w ∧ unsigned 32 w ∧ disassemble w = Some (canon ldr_x0_x1_8).
Proof. exact (disassemble_encode ldr_x0_x1_8 ldr_x0_x1_8_built eq_refl). Defined.

Lemma encode_injective_witness :
  encode cmp_x1_1 = encode subs_xzr_x1_1 ∧ canon cmp_x1_1 = canon subs_xzr_x1_1.
Proof.
  split; [reflexivity|].
  exact (encode_injective cmp_x1_1 subs_xzr_x1_1 cmp_x1_1_built I subs_xzr_x1_1_built I eq_refl).
Defined.

Lemma forms_disjoint_witness :
  matches (template F_MovWide) 0x91000420 = false.
Proof. apply (forms_disjoint F_AddSubImm F_MovWide); [discriminate|reflexivity]. Defined.

Lemma registers_as_written_witness : canon cmp_x1_1 = strip cmp_x1_1.
Proof.
  apply (registers_as_written cmp_x1_1 cmp_x1_1_built).
  apply (bool_decide_unpack _). reflexivity.
Defined.
