(* ===== verification/QueryKey.v ===== *)
(** * Query identity and counters

    Models [src/crates/fors-query/src/key.rs] and [stats.rs]: the key of a
    node, the packing of a 64-bit identity into it, and the engine's
    counters.  The counters are [nat]s: the code's [u64]s do not reach their
    bound. *)

From stdpp Require Export gmap sorting.
From S2P Require Import Prelude.
Local Open Scope Z_scope.

Module QueryKey.
(** [kind] is a [u16], [a] and [b] are [u32]s. *)
Record QueryKey : Type := mk { kind : Z; a : Z; b : Z }.
#[global] Instance QueryKey_eq_dec : EqDecision QueryKey.
Proof. solve_decision. Defined.
#[global] Instance QueryKey_countable : Countable QueryKey.
Proof.
  refine (inj_countable' (λ k, (kind k, a k, b k)) (λ '(x, y, z), mk x y z) _).
  by intros [].
Defined.

Definition new (kind a b : Z) : QueryKey := mk kind a b.
Definition unit (kind : Z) : QueryKey := mk kind 0 0.
Definition one (kind a : Z) : QueryKey := mk kind a 0.
Definition wide (kind k : Z) : QueryKey := mk kind (wrap 32 (Z.shiftr k 32)) (wrap 32 k).
Definition as_wide (k : QueryKey) : Z := Z.lor (wrap 64 (Z.shiftl (a k) 32)) (b k).

Definition wf (k : QueryKey) : Prop := unsigned 16 (kind k) ∧ unsigned 32 (a k) ∧ unsigned 32 (b k).

(** The derived [Ord]: field by field. *)
Definition le (x y : QueryKey) : Prop :=
  kind x < kind y ∨
  kind x = kind y ∧ (a x < a y ∨ a x = a y ∧ b x ≤ b y).
#[global] Instance le_dec x y : Decision (le x y).
Proof. unfold le. apply _. Defined.
End QueryKey.
Abbreviation QueryKey := QueryKey.QueryKey.

(** [ValueHash] is a [u128]; the engine only compares it. *)
Abbreviation ValueHash := Z (only parsing).

(** ** [sort_unstable] and [dedup] *)

Fixpoint dedup {A} `{EqDecision A} (l : list A) : list A :=
  match l with
  | [] => []
  | x :: l' =>
      match l' with
      | [] => [x]
      | y :: _ => if decide (x = y) then dedup l' else x :: dedup l'
      end
  end.

Lemma elem_of_dedup {A} `{EqDecision A} (l : list A) x : x ∈ dedup l ↔ x ∈ l.
Proof.
  induction l as [|y l IH]; [done|]. destruct l as [|z l]; [done|].
  change (dedup (y :: z :: l))
    with (if decide (y = z) then dedup (z :: l) else y :: dedup (z :: l)).
  case_decide as H; [subst y|].
  - rewrite IH, !elem_of_cons. tauto.
  - rewrite !(elem_of_cons _ _ y), IH. done.
Qed.

(** ** Counters *)

Module Stats.
(** The running counters; [revision], [nodes], [inputs] and the edge totals
    are filled in by [Db.stats]. *)
Record Stats : Type := mk {
  revision : nat; nodes : nat; inputs : nat; dep_edges : nat; dep_arena : nat;
  input_writes : nat; probes : nat; input_reads : nat; memo_hits : nat;
  green : nat; red : nat; executed : nat; cutoffs : nat; cycles : nat;
  cancellations : nat; by_kind : list nat }.

Definition default : Stats := mk 0 0 0 0 0 0 0 0 0 0 0 0 0 0 0 [].

Definition charge_kind (kind : Z) (s : list nat) : list nat :=
  let i := Z.to_nat kind in
  let s := if Nat.leb (length s) i then s ++ replicate (i + 1 - length s) 0%nat else s in
  alter S i s.

Definition executed_of (s : Stats) (kind : Z) : nat :=
  match by_kind s !! Z.to_nat kind with Some n => n | None => 0%nat end.
End Stats.
Abbreviation Stats := Stats.Stats.

(** ** Packing *)

(** A 64-bit identity packed into a key is read back, and the key's
    columns are in the range of their types. *)
Theorem wide_roundtrip kind k :
  unsigned 16 kind → unsigned 64 k →
  QueryKey.wf (QueryKey.wide kind k) ∧ QueryKey.as_wide (QueryKey.wide kind k) = k.
Proof.
  intros Hkind [Hk0 Hk]. unfold QueryKey.wf, QueryKey.as_wide, QueryKey.wide. simpl.
  split; [split_and!; [done|apply wrap_range; lia..]|].
  rewrite Z.shiftr_div_pow2 by lia. unfold wrap.
  pose proof (Z.div_mod k (2 ^ 32) ltac:(lia)).
  pose proof (Z.mod_pos_bound k (2 ^ 32) ltac:(lia)).
  assert (0 ≤ k / 2 ^ 32 < 2 ^ 32) as Hhi.
  { split; [apply Z.div_pos; lia|]. apply Z.div_lt_upper_bound; lia. }
  rewrite (Z.mod_small (k / 2 ^ 32)) by done.
  rewrite (Z.mod_small (Z.shiftl _ _)) by (rewrite Z.shiftl_mul_pow2 by lia; lia).
  rewrite lor_shiftl_add by (unfold unsigned; lia). lia.
Qed.

Lemma wide_roundtrip_witness :
  QueryKey.as_wide (QueryKey.wide 3 0x123456789abcdef0) = 0x123456789abcdef0.
Proof. apply (wide_roundtrip 3); unfold unsigned; lia. Defined.

(** * Declaration fingerprints

    fors-query/src/fingerprint.rs: the 128-bit fold of value hashes and the two
    fingerprints a declaration has.  A fold step is injective in what it adds,
    so an edit of a single channel is never missed. *)

(** ** The fold *)

Definition splitmix64 (x : Z) : Z :=
  let x := wrap 64 (x + 0x9e3779b97f4a7c15) in
  let z := x in
  let z := wrap 64 (Z.lxor z (Z.shiftr z 30) * 0xbf58476d1ce4e5b9) in
  let z := wrap 64 (Z.lxor z (Z.shiftr z 27) * 0x94d049bb133111eb) in
  Z.lxor z (Z.shiftr z 31).

Definition mix (acc v : ValueHash) : ValueHash :=
  let x := Z.lxor acc v in
  let lo := splitmix64 (wrap 64 x) in
  let hi := splitmix64 (Z.lxor (wrap 64 (Z.shiftr x 64)) lo) in
  Z.lor (Z.shiftl hi 64) lo.

(** The loop of [mix_all], from position [i]. *)
Fixpoint mix_from (i : Z) (acc : ValueHash) (items : list ValueHash) {struct items} : ValueHash :=
  match items with
  | [] => acc
  | v :: items => mix_from (i + 1) (mix acc (Z.lxor v i)) items
  end.
Definition mix_all (domain : ValueHash) (items : list ValueHash) : ValueHash :=
  mix_from 0 domain items.

(** ** Declarations *)

Record DeclHashes : Type := MkDeclHashes {
  sig_tokens : ValueHash; body_tokens : ValueHash; const_value : ValueHash;
  gparam_names : ValueHash; bounds_sorted : ValueHash }.
Record DeclFingerprint : Type := MkDeclFingerprint { interface : ValueHash; body : ValueHash }.

Definition DOMAIN_INTERFACE : ValueHash := 0x9e3779b97f4a7c15f39cc0605cedc835.
Definition DOMAIN_BODY : ValueHash := 0xc2b2ae3d27d4eb4f165667b19e3779b9.

Definition decl_fingerprint (h : DeclHashes) : DeclFingerprint :=
  let interface := mix DOMAIN_INTERFACE (sig_tokens h) in
  let interface := mix interface (bounds_sorted h) in
  let interface := mix interface (const_value h) in
  MkDeclFingerprint interface (mix DOMAIN_BODY (body_tokens h)).

(** Every channel is a [u128]. *)
Definition hashes_wf (h : DeclHashes) : Prop :=
  unsigned 128 (sig_tokens h) ∧ unsigned 128 (body_tokens h) ∧ unsigned 128 (const_value h) ∧
  unsigned 128 (gparam_names h) ∧ unsigned 128 (bounds_sorted h).

(** ** Injectivity *)

Lemma lxor_cancel_l a x y : Z.lxor a x = Z.lxor a y → x = y.
Proof.
  intros H. apply (f_equal (Z.lxor a)) in H.
  by rewrite <- !Z.lxor_assoc, Z.lxor_nilpotent, !Z.lxor_0_l in H.
Qed.

Lemma xorshift_inj k x y :
  0 < k → 0 ≤ x → 0 ≤ y →
  Z.lxor x (Z.shiftr x k) = Z.lxor y (Z.shiftr y k) → x = y.
Proof.
  intros Hk Hx Hy H. apply Z.lxor_eq. set (d := Z.lxor x y).
  assert (d = Z.shiftr d k) as Hd.
  { unfold d. rewrite Z.shiftr_lxor. apply (lxor_cancel_l (Z.shiftr x k)).
    rewrite <- !Z.lxor_assoc, Z.lxor_nilpotent, Z.lxor_0_l.
    rewrite (Z.lxor_comm _ x), H, Z.lxor_comm, <- Z.lxor_assoc.
    by rewrite Z.lxor_nilpotent, Z.lxor_0_l. }
  assert (0 ≤ d) as Hd0 by (apply Z.lxor_nonneg; tauto).
  rewrite Z.shiftr_div_pow2 in Hd by lia.
  destruct (decide (d = 0)) as [|Hne]; [done|].
  pose proof (Z.pow_gt_1 2 k ltac:(lia)) as [Hp _]. specialize (Hp Hk).
  pose proof (Z.div_lt d (2 ^ k) ltac:(lia) ltac:(lia)). lia.
Qed.

(** Multiplication by a constant with an inverse modulo [2^w]. *)
Lemma wrap_mul_inj w c c' x y :
  0 ≤ w → wrap w (c * c') = 1 → unsigned w x → unsigned w y →
  wrap w (x * c) = wrap w (y * c) → x = y.
Proof.
  intros Hw Hc Hx Hy H. unfold wrap in *.
  assert (∀ z, unsigned w z → z = (z * c) mod 2 ^ w * c' mod 2 ^ w) as Hinv.
  { intros z Hz. rewrite Z.mul_mod_idemp_l, <- Z.mul_assoc, <- Z.mul_mod_idemp_r, Hc, Z.mul_1_r
      by (pose proof (pow2_pos w Hw); lia).
    by rewrite Z.mod_small. }
  rewrite (Hinv x Hx), (Hinv y Hy). by rewrite H.
Qed.

Lemma wrap_add_inj w c x y :
  0 ≤ w → unsigned w x → unsigned w y → wrap w (x + c) = wrap w (y + c) → x = y.
Proof.
  intros Hw Hx Hy H. unfold wrap in *.
  rewrite <- (Z.mod_small x (2 ^ w) Hx), <- (Z.mod_small y (2 ^ w) Hy).
  replace x with (x + c - c) by lia. replace y with (y + c - c) by lia.
  by rewrite Zminus_mod, H, <- Zminus_mod.
Qed.

Lemma lxor_unsigned w x y : 0 ≤ w → unsigned w x → unsigned w y → unsigned w (Z.lxor x y).
Proof.
  intros Hw [Hx0 Hx] [Hy0 Hy]. split; [by apply Z.lxor_nonneg|].
  destruct (decide (Z.lxor x y = 0)) as [->|Hne]; [by apply pow2_pos|].
  assert (∀ z, 0 ≤ z → z < 2 ^ w → z = 0 ∨ Z.log2 z < w) as Hlog.
  { intros z ??. destruct (decide (z = 0)); [by left|right]. apply Z.log2_lt_pow2; lia. }
  pose proof (Z.log2_lxor x y Hx0 Hy0). pose proof (proj2 (Z.lxor_nonneg x y) ltac:(tauto)).
  apply Z.log2_lt_pow2; [lia|].
  destruct (Hlog x Hx0 Hx) as [->|], (Hlog y Hy0 Hy) as [->|]; try lia; simpl in *; try lia.
  - destruct Hne. apply Z.lxor_nilpotent.
  - rewrite Z.lxor_0_l in *. lia.
  - rewrite Z.lxor_0_r in *. lia.
Qed.

Lemma xorshift_unsigned w k x :
  0 ≤ w → 0 ≤ k → unsigned w x → unsigned w (Z.lxor x (Z.shiftr x k)).
Proof.
  intros Hw Hk [Hx0 Hx]. apply lxor_unsigned; [done|done|].
  rewrite Z.shiftr_div_pow2 by done. pose proof (pow2_pos k Hk).
  split; [by apply Z.div_pos; lia|].
  apply Z.le_lt_trans with x; [|done]. apply Z.div_le_upper_bound; nia.
Qed.

Lemma splitmix64_unsigned x : unsigned 64 (splitmix64 x).
Proof. unfold splitmix64. apply xorshift_unsigned; [lia|lia|apply wrap_range; lia]. Qed.

Lemma splitmix64_inj x y : unsigned 64 x → unsigned 64 y → splitmix64 x = splitmix64 y → x = y.
Proof.
  intros Hx Hy H. unfold splitmix64 in H.
  assert (∀ z, unsigned 64 (wrap 64 z)) as Hw by (intros; apply wrap_range; lia).
  assert (∀ z k, unsigned 64 z → 0 ≤ k → unsigned 64 (Z.lxor z (Z.shiftr z k))) as Hs.
  { intros. apply xorshift_unsigned; [lia|done|done]. }
  apply xorshift_inj in H; [|lia|apply Hw..].
  apply (wrap_mul_inj _ _ 0x319642b2d24d8ec3) in H; [|lia|reflexivity|apply Hs; [apply Hw|lia]..].
  apply xorshift_inj in H; [|lia|apply Hw..].
  apply (wrap_mul_inj _ _ 0x96de1b173f119089) in H; [|lia|reflexivity|apply Hs; [apply Hw|lia]..].
  apply xorshift_inj in H; [|lia|apply Hw..].
  by apply wrap_add_inj in H.
Qed.

Lemma high_low x : unsigned 128 x → x = wrap 64 (Z.shiftr x 64) * 2 ^ 64 + wrap 64 x.
Proof.
  intros [Hx0 Hx]. unfold wrap. rewrite Z.shiftr_div_pow2 by lia.
  rewrite (Z.mod_small (x / 2 ^ 64)).
  - pose proof (Z.div_mod x (2 ^ 64) ltac:(lia)). lia.
  - split; [by apply Z.div_pos|]. apply Z.div_lt_upper_bound; lia.
Qed.

Lemma mix_unsigned acc v : unsigned 128 (mix acc v).
Proof.
  unfold mix. rewrite lor_shiftl_add by (apply splitmix64_unsigned || lia).
  pose proof (splitmix64_unsigned (wrap 64 (Z.lxor acc v))) as [? ?].
  match goal with |- context [splitmix64 (Z.lxor ?a ?b)] =>
    pose proof (splitmix64_unsigned (Z.lxor a b)) as [? ?] end.
  unfold unsigned. lia.
Qed.

(** A step loses nothing of [acc ^ v]: both halves are mixed by an injective
    function, the high one after the low one has been folded into it. *)
Lemma halves_inj (g : Z → Z) x x' :
  (∀ z, unsigned 64 (g z)) → (∀ y z, unsigned 64 y → unsigned 64 z → g y = g z → y = z) →
  unsigned 128 x → unsigned 128 x' →
  Z.lor (Z.shiftl (g (Z.lxor (wrap 64 (Z.shiftr x 64)) (g (wrap 64 x)))) 64) (g (wrap 64 x)) =
  Z.lor (Z.shiftl (g (Z.lxor (wrap 64 (Z.shiftr x' 64)) (g (wrap 64 x')))) 64) (g (wrap 64 x')) →
  x = x'.
Proof.
  intros Hg Hinj Hx Hx' H. rewrite !lor_shiftl_add in H by (done || lia).
  assert (∀ z, unsigned 64 (wrap 64 z)) as Hw by (intros; apply wrap_range; lia).
  assert (g (wrap 64 x) = g (wrap 64 x')) as Hlo.
  { apply (f_equal (λ z, z mod 2 ^ 64)) in H.
    rewrite !(Z.add_comm (_ * _)), !Z.mod_add, !Z.mod_small in H by (lia || apply Hg). exact H. }
  rewrite Hlo in H. apply Hinj in Hlo; [|apply Hw..].
  apply (proj1 (Z.add_cancel_r _ _ _)), Z.mul_reg_r in H; [|lia].
  apply Hinj in H; [|apply lxor_unsigned; [lia|apply Hw|apply Hg]..].
  rewrite !(Z.lxor_comm _ (g _)) in H. apply lxor_cancel_l in H.
  by rewrite (high_low x Hx), (high_low x' Hx'), Hlo, H.
Qed.

Lemma mix_eq acc v :
  let x := Z.lxor acc v in
  mix acc v =
  Z.lor (Z.shiftl (splitmix64 (Z.lxor (wrap 64 (Z.shiftr x 64)) (splitmix64 (wrap 64 x)))) 64)
        (splitmix64 (wrap 64 x)).
Proof. reflexivity. Qed.

Lemma mix_inj acc acc' v v' :
  unsigned 128 acc → unsigned 128 acc' → unsigned 128 v → unsigned 128 v' →
  mix acc v = mix acc' v' → Z.lxor acc v = Z.lxor acc' v'.
Proof.
  intros Ha Ha' Hv Hv' H. rewrite !mix_eq in H.
  exact (halves_inj splitmix64 _ _ splitmix64_unsigned splitmix64_inj
    (lxor_unsigned 128 acc v ltac:(lia) Ha Hv) (lxor_unsigned 128 acc' v' ltac:(lia) Ha' Hv') H).
Qed.

Lemma mix_inj_l acc acc' v :
  unsigned 128 acc → unsigned 128 acc' → unsigned 128 v → mix acc v = mix acc' v → acc = acc'.
Proof.
  intros Ha Ha' Hv H%mix_inj; [|done..].
  rewrite !(Z.lxor_comm _ v) in H. by apply lxor_cancel_l in H.
Qed.
Lemma mix_inj_r acc v v' :
  unsigned 128 acc → unsigned 128 v → unsigned 128 v' → mix acc v = mix acc v' → v = v'.
Proof. intros Ha Hv Hv' H%mix_inj; [|done..]. by apply lxor_cancel_l in H. Qed.

Lemma mix_from_unsigned i acc items :
  unsigned 128 acc → unsigned 128 (mix_from i acc items).
Proof.
  revert i acc. induction items as [|v items IH]; intros i acc Ha; [done|].
  apply IH, mix_unsigned.
Qed.

Lemma mix_from_inj i acc acc' (items : list ValueHash) :
  unsigned 128 acc → unsigned 128 acc' → 0 ≤ i → i + Z.of_nat (length items) ≤ 2 ^ 64 →
  Forall (unsigned 128) items → mix_from i acc items = mix_from i acc' items → acc = acc'.
Proof.
  revert i acc acc'. induction items as [|v items IH]; intros i acc acc' Ha Ha' Hi Hl Hf H; [done|].
  apply Forall_cons in Hf as [Hv Hf]. simpl in Hl, H.
  apply IH in H; [|apply mix_unsigned..|lia|lia|done].
  apply (mix_inj_l _ _ (Z.lxor v i)) in H; [done..|].
  apply lxor_unsigned; [lia|done|]. unfold unsigned. lia.
Qed.

Lemma mix_from_app i acc (xs ys : list ValueHash) :
  mix_from i acc (xs ++ ys) = mix_from (i + Z.of_nat (length xs)) (mix_from i acc xs) ys.
Proof.
  revert i acc. induction xs as [|x xs IH]; intros i acc; simpl; [f_equal; lia|].
  rewrite IH. f_equal. lia.
Qed.

(** ** Properties *)

(** A declaration's two fingerprints keep exactly what the policy says. The
    body fingerprint separates any two bodies. An edit of any one of the
    signature tokens, the sorted bounds and the constant's value always moves
    the interface fingerprint, and nothing else does: neither the names of the
    generic parameters nor the body. *)
Theorem decl_fingerprint_policy h h' :
  hashes_wf h → hashes_wf h' →
  let f := decl_fingerprint h in let f' := decl_fingerprint h' in
  (body f = body f' ↔ body_tokens h = body_tokens h') ∧
  (bounds_sorted h = bounds_sorted h' → const_value h = const_value h' →
     (interface f = interface f' ↔ sig_tokens h = sig_tokens h')) ∧
  (sig_tokens h = sig_tokens h' → const_value h = const_value h' →
     (interface f = interface f' ↔ bounds_sorted h = bounds_sorted h')) ∧
  (sig_tokens h = sig_tokens h' → bounds_sorted h = bounds_sorted h' →
     (interface f = interface f' ↔ const_value h = const_value h')).
Proof.
  intros (Hs & Hb & Hc & _ & Hbs) (Hs' & Hb' & Hc' & _ & Hbs'). simpl.
  assert (unsigned 128 DOMAIN_INTERFACE ∧ unsigned 128 DOMAIN_BODY) as [HI HB].
  { unfold unsigned, DOMAIN_INTERFACE, DOMAIN_BODY. lia. }
  split_and!.
  - split; [|congruence]. intros H. by apply mix_inj_r in H.
  - intros Eb Ec. split; [|congruence]. intros H. rewrite <- Eb, <- Ec in H.
    apply mix_inj_l in H; [|apply mix_unsigned..|done].
    apply mix_inj_l in H; [|apply mix_unsigned..|done]. by apply mix_inj_r in H.
  - intros Es Ec. split; [|congruence]. intros H. rewrite <- Es, <- Ec in H.
    apply mix_inj_l in H; [|apply mix_unsigned..|done].
    apply mix_inj_r in H; [done|apply mix_unsigned|done..].
  - intros Es Eb. split; [|congruence]. intros H. rewrite <- Es, <- Eb in H.
    apply mix_inj_r in H; [done|apply mix_unsigned|done..].
Qed.

Lemma decl_fingerprint_policy_witness :
  interface (decl_fingerprint (MkDeclHashes 1 2 3 4 5))
    ≠ interface (decl_fingerprint (MkDeclHashes 1 2 7 4 5)).
Proof.
  intros H.
  destruct (decl_fingerprint_policy (MkDeclHashes 1 2 3 4 5) (MkDeclHashes 1 2 7 4 5))
    as (_ & _ & _ & Hc); [unfold hashes_wf, unsigned; simpl; lia..|].
  apply (Hc eq_refl eq_refl) in H. discriminate.
Defined.

(** A fold of hashes tells apart any two sequences that differ in a single
    item, and is seeded faithfully by its domain tag. *)
Theorem mix_all_detects domain domain' (xs : list ValueHash) v v' (ys : list ValueHash) :
  unsigned 128 domain → unsigned 128 domain' → unsigned 128 v → unsigned 128 v' →
  Forall (unsigned 128) xs → Forall (unsigned 128) ys → Z.of_nat (length (xs ++ v :: ys)) < 2 ^ 64 →
  (mix_all domain (xs ++ v :: ys) = mix_all domain (xs ++ v' :: ys) ↔ v = v') ∧
  (mix_all domain xs = mix_all domain' xs ↔ domain = domain').
Proof.
  intros Hd Hd' Hv Hv' Hxs Hys Hl. rewrite length_app in Hl. simpl in Hl. unfold mix_all.
  split; (split; [intros H|congruence]).
  - rewrite !mix_from_app in H. simpl in H.
    apply mix_from_inj in H; [|apply mix_unsigned..|lia|lia|done].
    apply mix_inj_r in H.
    + rewrite !(Z.lxor_comm _ (0 + Z.of_nat (length xs))) in H. by apply lxor_cancel_l in H.
    + by apply mix_from_unsigned.
    + apply lxor_unsigned; [lia|done|]. unfold unsigned. lia.
    + apply lxor_unsigned; [lia|done|]. unfold unsigned. lia.
  - apply mix_from_inj in H; [done|done|done|lia|lia|done].
Qed.

Lemma mix_all_detects_witness : mix_all 7 [1; 2] ≠ mix_all 7 [1; 3].
Proof.
  assert (unsigned 128 1 ∧ unsigned 128 2 ∧ unsigned 128 3 ∧ unsigned 128 7) as (H1 & H2 & H3 & H7)
    by (unfold unsigned; lia).
  intros H. destruct (mix_all_detects 7 7 [1] 2 3 []) as [Hm _];
    [exact H7|exact H7|exact H2|exact H3|exact (Forall_cons_2 _ _ _ H1 (Forall_nil_2 _))|
     exact (Forall_nil_2 _)|reflexivity|].
  apply Hm in H. discriminate.
Defined.
