(* ===== verification/QueryDb.v ===== *)
(** * The incremental query engine

    Models [src/crates/fors-query/src/db.rs] and [cycle.rs].  A [Db] is the
    code's record: the revision, the node table (one [Node] per row of the
    [Nodes] columns), the key index, the append-only dependency arena, the
    in-flight stack, the counters and the execution window.  Node ids, arena
    offsets and revisions are [nat]s: the table and the arena stay under the
    [2^32] entries their [u32] ids can name.

    A query set is a parameter, as the [Queries] trait is: [compute] gives the
    body of a query as a tree of the reads it performs through [Db::read],
    threading the query set's own state; [on_cycle] is the recovery value.

    [CancelFlag] is shared with other threads, which may set or reset it at
    any time: [cancelled n] is what the [n]-th poll of it observes. *)

From S2P Require Import Prelude QueryKey.
Local Open Scope nat_scope.

(** ** Data *)

Inductive Cancelled : Type := MkCancelled.

Inductive Outcome : Type :=
  | Value (v : ValueHash)
  | OutcomeCancelled.

Record Answer : Type := MkAnswer { value : ValueHash; changed_at : nat }.

Inductive State : Type := Empty | Valid.
#[global] Instance State_eq_dec : EqDecision State.
Proof. solve_decision. Defined.

(** One row of the columns of [Nodes]. *)
Record Node : Type := MkNode {
  n_key : QueryKey; n_value : ValueHash; n_verified_at : nat; n_changed_at : nat;
  n_dep_start : nat; n_dep_len : nat; n_state : State; n_is_input : bool }.

(** One in-flight query, cycle.rs. *)
Record Frame : Type := MkFrame { f_node : nat; f_deps : list nat; f_attribute : bool }.

Record Cycle : Type := MkCycle { at_ : QueryKey; path : list QueryKey }.

Record Db : Type := MkDb {
  rev : nat; nodes : list Node; index : gmap QueryKey nat; deps : list nat;
  stack : list Frame;  (* top frame first *)
  stats : Stats; polls : nat; executed : list QueryKey; window : bool }.

(** The body of a query: it returns, polls the cancellation flag, or reads a
    key and goes on with the answer.  [Q] is the query set's state. *)
Inductive comp (Q : Type) : Type :=
  | Return (q : Q) (o : Outcome)
  | Poll (cont : bool → comp Q)
  | Read (q : Q) (k : QueryKey) (cont : Q → result Cancelled ValueHash → comp Q).
Arguments Return {Q} q o.
Arguments Poll {Q} cont.
Arguments Read {Q} q k cont.

Record Queries (Q : Type) : Type := MkQueries {
  compute : Q → QueryKey → comp Q;
  on_cycle : Q → QueryKey → Cycle → Q * ValueHash }.
Arguments compute {Q} _ _ _.
Arguments on_cycle {Q} _ _ _ _.

(** ** Field updates *)

Definition with_nodes (f : list Node → list Node) (db : Db) : Db :=
  MkDb (rev db) (f (nodes db)) (index db) (deps db) (stack db) (stats db) (polls db)
    (executed db) (window db).
Definition with_stack (f : list Frame → list Frame) (db : Db) : Db :=
  MkDb (rev db) (nodes db) (index db) (deps db) (f (stack db)) (stats db) (polls db)
    (executed db) (window db).
Definition with_deps (f : list nat → list nat) (db : Db) : Db :=
  MkDb (rev db) (nodes db) (index db) (f (deps db)) (stack db) (stats db) (polls db)
    (executed db) (window db).
Definition with_stats (f : Stats → Stats) (db : Db) : Db :=
  MkDb (rev db) (nodes db) (index db) (deps db) (stack db) (f (stats db)) (polls db)
    (executed db) (window db).
Definition with_window (e : list QueryKey) (w : bool) (db : Db) : Db :=
  MkDb (rev db) (nodes db) (index db) (deps db) (stack db) (stats db) (polls db) e w.
Definition bump_rev (db : Db) : Db :=
  MkDb (S (rev db)) (nodes db) (index db) (deps db) (stack db) (stats db) (polls db)
    (executed db) (window db).

(** The counters the engine charges. *)
Inductive counter : Type :=
  | c_input_writes | c_probes | c_input_reads | c_memo_hits | c_green | c_red | c_executed
  | c_cutoffs | c_cycles | c_cancellations.
Definition incr (c : counter) (s : Stats) : Stats :=
  match s with
  | Stats.mk r n i de da iw p ir mh g rd ex cu cy ca bk =>
      Stats.mk r n i de da
        (match c with c_input_writes => S iw | _ => iw end)
        (match c with c_probes => S p | _ => p end)
        (match c with c_input_reads => S ir | _ => ir end)
        (match c with c_memo_hits => S mh | _ => mh end)
        (match c with c_green => S g | _ => g end)
        (match c with c_red => S rd | _ => rd end)
        (match c with c_executed => S ex | _ => ex end)
        (match c with c_cutoffs => S cu | _ => cu end)
        (match c with c_cycles => S cy | _ => cy end)
        (match c with c_cancellations => S ca | _ => ca end) bk
  end.
Definition charge (c : counter) (db : Db) : Db := with_stats (incr c) db.
Definition charge_kind (k : Z) (db : Db) : Db :=
  with_stats (λ s, match s with
    | Stats.mk r n i de da iw p ir mh g rd ex cu cy ca bk =>
        Stats.mk r n i de da iw p ir mh g rd ex cu cy ca (Stats.charge_kind k bk) end) db.

(** Row updates. *)
Definition stamp_verified (r : nat) (n : Node) : Node :=
  MkNode (n_key n) (n_value n) r (n_changed_at n) (n_dep_start n) (n_dep_len n) (n_state n)
    (n_is_input n).
Definition set_value (v : ValueHash) (r : nat) (n : Node) : Node :=
  MkNode (n_key n) v (n_verified_at n) r (n_dep_start n) (n_dep_len n) (n_state n)
    (n_is_input n).
Definition set_deps (start len : nat) (n : Node) : Node :=
  MkNode (n_key n) (n_value n) (n_verified_at n) (n_changed_at n) start len (n_state n)
    (n_is_input n).
Definition set_valid (n : Node) : Node :=
  MkNode (n_key n) (n_value n) (n_verified_at n) (n_changed_at n) (n_dep_start n)
    (n_dep_len n) Valid (n_is_input n).
Definition set_is_input (n : Node) : Node :=
  MkNode (n_key n) (n_value n) (n_verified_at n) (n_changed_at n) (n_dep_start n)
    (n_dep_len n) (n_state n) true.

(** ** Db *)

Module Db.

Definition new : Db := MkDb 0 [] ∅ [] [] Stats.default 0 [] false.

(** [Nodes::push] *)
Definition push (key : QueryKey) (ns : list Node) : list Node :=
  ns ++ [MkNode key 0 0 0 0 0 Empty false].

Definition intern (key : QueryKey) (db : Db) : nat * Db :=
  match index db !! key with
  | Some id => (id, db)
  | None =>
      let id := length (nodes db) in
      (id, MkDb (rev db) (push key (nodes db)) (<[key := id]> (index db)) (deps db) (stack db)
             (stats db) (polls db) (executed db) (window db))
  end.

(** An index out of a column's range panics. *)
Definition node (db : Db) (id : nat) : res Node :=
  match nodes db !! id with Some n => Done n | None => Panic end.

Definition answer (n : Node) : Answer := MkAnswer (n_value n) (n_changed_at n).

Definition set_input (key : QueryKey) (v : ValueHash) (db : Db) : res (Db * bool) :=
  let '(id, db) := intern key db in
  n ← node db id;
  if bool_decide (n_state n = Valid) && negb (n_is_input n) then Panic else
  let db := with_nodes (alter set_is_input id) db in
  if bool_decide (n_state n = Valid) && (n_value n =? v)%Z then Done (db, false) else
  let db := bump_rev db in
  let r := rev db in
  let db := with_nodes (alter (set_valid ∘ stamp_verified r ∘ set_value v r) id) db in
  Done (charge c_input_writes db, true).

(** The row a lookup by key finds. *)
Definition row (db : Db) (key : QueryKey) : option Node := id ← index db !! key; nodes db !! id.

Definition input (db : Db) (key : QueryKey) : option ValueHash :=
  n ← row db key;
  if n_is_input n && bool_decide (n_state n = Valid) then Some (n_value n) else None.
Definition value_of (db : Db) (key : QueryKey) : option ValueHash :=
  n ← row db key; if bool_decide (n_state n = Valid) then Some (n_value n) else None.
Definition changed_at_of (db : Db) (key : QueryKey) : option nat :=
  n ← row db key; if bool_decide (n_state n = Valid) then Some (n_changed_at n) else None.

(** [deps[s..s + l]], which panics when the range is not in the arena. *)
Definition dep_slice (ds : list nat) (n : Node) : list nat :=
  take (n_dep_len n) (drop (n_dep_start n) ds).
Definition dep_range (ds : list nat) (n : Node) : res (list nat) :=
  if n_dep_start n + n_dep_len n <=? length ds then Done (dep_slice ds n) else Panic.

(** [nodes.key[id]] *)
Definition key_at (db : Db) (id : nat) : res QueryKey := n ← node db id; Done (n_key n).
Definition deps_of (db : Db) (key : QueryKey) : res (list QueryKey) :=
  match row db key with
  | None => Done []
  | Some n => ids ← dep_range (deps db) n; mapM (key_at db) ids
  end.

Definition open_window (db : Db) : Db :=
  with_window [] true
    (with_stats (λ s, Stats.mk 0 0 0 0 0 0 0 0 0 0 0 0 0 0 0
       (replicate (length (Stats.by_kind s)) 0)) db).
Definition executed_keys (db : Db) : list QueryKey := executed db.
Definition executed_of_kind (kind : Z) (db : Db) : list QueryKey :=
  dedup (merge_sort QueryKey.le (filter (λ k, QueryKey.kind k = kind) (executed db))).

Definition stats_of (db : Db) : Stats :=
  let s := stats db in
  Stats.mk (rev db) (length (nodes db)) (length (filter (λ n, n_is_input n = true) (nodes db)))
    (sum_list (n_dep_len <$> nodes db)) (length (deps db))
    (Stats.input_writes s) (Stats.probes s) (Stats.input_reads s) (Stats.memo_hits s)
    (Stats.green s) (Stats.red s) (Stats.executed s) (Stats.cutoffs s) (Stats.cycles s)
    (Stats.cancellations s) (Stats.by_kind s).

(** The loop of [compact] over the rows, [fresh] the arena rebuilt so far. *)
Fixpoint compact_rows (ds fresh : list nat) (ns : list Node) : res (list nat * list Node) :=
  match ns with
  | [] => Done (fresh, [])
  | n :: ns =>
      let start := length fresh in
      ids ← dep_range ds n;
      '(fresh, ns') ← compact_rows ds (fresh ++ ids) ns;
      Done (fresh, set_deps start (n_dep_len n) n :: ns')
  end.
Definition compact (db : Db) : res Db :=
  match stack db with
  | _ :: _ => Panic
  | [] =>
      '(fresh, ns) ← compact_rows (deps db) [] (nodes db);
      Done (with_deps (λ _, fresh) (with_nodes (λ _, ns) db))
  end.

(** The stack is kept top first; the code's report lists it bottom first,
    from the first frame of [id], or all of it when there is none. *)
Fixpoint position (p : Frame → bool) (l : list Frame) : option nat :=
  match l with
  | [] => None
  | f :: l => if p f then Some 0 else S <$> position p l
  end.
Definition cycle_report (id : nat) (key : QueryKey) (db : Db) : res Cycle :=
  let st := reverse (stack db) in
  let from := default 0 (position (λ f, f_node f =? id) st) in
  path ← mapM (λ f, key_at db (f_node f)) (drop from st);
  Done (MkCycle key path).

(** ** Demands *)

Section demand.
Context {Q : Type} (qs : Queries Q) (cancelled : nat → bool).

(** [CancelFlag::is_cancelled] *)
Definition is_cancelled (db : Db) : bool * Db :=
  (cancelled (polls db),
   MkDb (rev db) (nodes db) (index db) (deps db) (stack db) (stats db) (S (polls db))
     (executed db) (window db)).

Abbreviation pulled := (res (Q * Db * result Cancelled Answer)).

(** "if attribute && let Some(f) = self.stack.last_mut() && .." *)
Definition attribute_read (attribute : bool) (id : nat) (db : Db) : Db :=
  with_stack (λ st,
    match st with
    | f :: st' =>
        if attribute && f_attribute f && negb (f_node f =? id)
        then MkFrame (f_node f) (f_deps f ++ [id]) (f_attribute f) :: st' else st
    | [] => st
    end) db.

Definition on_stack (id : nat) (db : Db) : bool := existsb (λ f, f_node f =? id) (stack db).
Definition pop (db : Db) : Db := with_stack (drop 1) db.

Section one_level.
(** [pull] with one unit of fuel less. *)
Variable pull : Q → Db → QueryKey → bool → pulled.

(** The walk over [deps[s..s + l]]: [true] when some dependency changed after
    revision [verified]. *)
Fixpoint verify_deps (s l verified : nat) (q : Q) (db : Db) :
    res (Q * Db * result Cancelled bool) :=
  match l with
  | O => Done (q, db, Ok false)
  | S l =>
      match deps db !! s with
      | None => Panic
      | Some dep =>
          n ← node db dep;
          '(q, db, r) ← pull q db (n_key n) false;
          match r with
          | Err c => Done (q, db, Err c)
          | Ok a =>
              if verified <? changed_at a then Done (q, db, Ok true)
              else verify_deps (S s) l verified q db
          end
      end
  end.

Definition verify (q : Q) (id : nat) (db : Db) : res (Q * Db * result Cancelled bool) :=
  n ← node db id;
  if negb (bool_decide (n_state n = Valid)) then Done (q, db, Ok false) else
  let db := with_stack (cons (MkFrame id [] false)) db in
  '(q, db, r) ← verify_deps (n_dep_start n) (n_dep_len n) (n_verified_at n) q db;
  let db := pop db in
  match r with
  | Err c => Done (q, db, Err c)
  | Ok true => Done (q, charge c_red db, Ok false)
  | Ok false =>
      let db := with_nodes (alter (stamp_verified (rev db)) id) db in
      Done (q, charge c_green db, Ok true)
  end.

(** The run of a query body: each [Read] is a [Db::read]. *)
Fixpoint run (c : comp Q) (db : Db) : res (Q * Db * Outcome) :=
  match c with
  | Return q o => Done (q, db, o)
  | Poll cont => let '(b, db) := is_cancelled db in run (cont b) db
  | Read q k cont =>
      '(q, db, r) ← pull q db k true;
      run (cont q (value <$> r)) db
  end.

Definition execute (q : Q) (key : QueryKey) (id : nat) (db : Db) : pulled :=
  let db := with_stack (cons (MkFrame id [] true)) db in
  '(q, db, out) ← run (compute qs q key) db;
  match stack db with
  | [] => Panic
  | frame :: _ =>
      let db := pop db in
      match out with
      | OutcomeCancelled => Done (q, charge c_cancellations db, Err MkCancelled)
      | Value v =>
          let ds := dedup (merge_sort Nat.le (f_deps frame)) in
          let start := length (deps db) in
          let db := with_deps (λ d, d ++ ds) db in
          let db := with_nodes (alter (set_deps start (length ds)) id) db in
          let db := charge_kind (QueryKey.kind key) (charge c_executed db) in
          let db := if window db
                    then with_window (executed db ++ [key]) (window db) db else db in
          n ← node db id;
          let fresh := negb (bool_decide (n_state n = Valid)) in
          let db := with_nodes (alter (stamp_verified (rev db)) id) db in
          let db := if fresh || negb (n_value n =? v)%Z
                    then with_nodes (alter (set_value v (rev db)) id) db
                    else charge c_cutoffs db in
          let db := with_nodes (alter set_valid id) db in
          n ← node db id;
          Done (q, db, Ok (answer n))
      end
  end.

Definition pull_body (q : Q) (db : Db) (key : QueryKey) (attribute : bool) : pulled :=
  let '(c, db) := is_cancelled db in
  if c then Done (q, charge c_cancellations db, Err MkCancelled) else
  let '(id, db) := intern key db in
  let db := charge c_probes db in
  let db := attribute_read attribute id db in
  n ← node db id;
  if n_is_input n then
    let db := charge c_input_reads db in
    if bool_decide (n_state n = Valid) then Done (q, db, Ok (answer n)) else Panic
  else if bool_decide (n_state n = Valid) && (n_verified_at n =? rev db) then
    Done (q, charge c_memo_hits db, Ok (answer n))
  else if on_stack id db then
    let db := charge c_cycles db in
    cycle ← cycle_report id key db;
    let '(q, v) := on_cycle qs q key cycle in
    Done (q, db, Ok (MkAnswer v (rev db)))
  else
    '(q, db, ok) ← verify q id db;
    match ok with
    | Err c => Done (q, db, Err c)
    | Ok true => n ← node db id; Done (q, db, Ok (answer n))
    | Ok false => execute q key id db
    end.
End one_level.

(** [fuel] bounds the depth of nested demands. *)
Fixpoint pull (fuel : nat) (q : Q) (db : Db) (key : QueryKey) (attribute : bool) : pulled :=
  match fuel with
  | O => OutOfFuel
  | S fuel => pull_body (pull fuel) q db key attribute
  end.

Definition read (fuel : nat) (q : Q) (db : Db) (key : QueryKey) :
    res (Q * Db * result Cancelled ValueHash) :=
  '(q, db, r) ← pull fuel q db key true;
  Done (q, db, fmap (M := result Cancelled) value r).
Definition demand (fuel : nat) (q : Q) (db : Db) (key : QueryKey) :
    res (Q * Db * result Cancelled ValueHash) :=
  '(q, db, r) ← pull fuel q db key true;
  Done (q, db, fmap (M := result Cancelled) value r).

Definition is_red (fuel : nat) (q : Q) (db : Db) (key : QueryKey) :
    res (Q * Db * result Cancelled bool) :=
  let '(c, db) := is_cancelled db in
  if c then Done (q, charge c_cancellations db, Err MkCancelled) else
  let '(id, db) := intern key db in
  let db := charge c_probes db in
  n ← node db id;
  if n_is_input n then Done (q, db, Ok false) else
  if bool_decide (n_state n = Valid) && (n_verified_at n =? rev db) then
    Done (q, charge c_memo_hits db, Ok false)
  else if on_stack id db then Done (q, db, Ok false)
  else
    '(q, db, ok) ← verify (pull fuel) q id db;
    Done (q, db, fmap (M := result Cancelled) negb ok).
End demand.
End Db.
