(* ===== verification/QueryInv.v ===== *)
(** * What the query engine promises

    The specification [Db] is verified against.  A query set is well behaved
    when each derived key has a body, a pure tree of reads, that [compute]
    follows whatever state it keeps (it stops with [Outcome::Cancelled] when a
    read is cancelled, may when it polls a raised flag, and does not
    otherwise), and when reads
    descend along a rank, so that no query depends on itself.  The answer of a
    key is then defined from the inputs alone: [from_scratch]. *)

From S2P Require Import Prelude QueryKey QueryDb.
Local Open Scope nat_scope.

(** ** Bodies *)

Inductive body : Type :=
  | BRet (v : ValueHash)
  | BRead (k : QueryKey) (cont : ValueHash → body).

Fixpoint run_body (σ : QueryKey → option ValueHash) (b : body) : option ValueHash :=
  match b with
  | BRet v => Some v
  | BRead k cont => match σ k with Some v => run_body σ (cont v) | None => None end
  end.

Fixpoint reads (σ : QueryKey → option ValueHash) (b : body) : list QueryKey :=
  match b with
  | BRet _ => []
  | BRead k cont => k :: match σ k with Some v => reads σ (cont v) | None => [] end
  end.

(** Answers that agree on the keys read give the same run. *)
Lemma run_body_agree σ σ' b :
  (∀ k, k ∈ reads σ b → σ' k = σ k) → run_body σ' b = run_body σ b.
Proof.
  induction b as [v|k cont IH]; simpl; intros H; [done|].
  rewrite (H k) by (by left). destruct (σ k) as [v|]; [|done].
  apply IH. intros k' Hk'. apply H. by right.
Qed.

(** Every read goes below rank [r]. *)
Fixpoint body_below (rank : QueryKey → nat) (r : nat) (b : body) : Prop :=
  match b with
  | BRet _ => True
  | BRead k cont => rank k < r ∧ ∀ v, body_below rank r (cont v)
  end.

Lemma run_body_below rank r σ σ' b :
  body_below rank r b → (∀ k, rank k < r → σ' k = σ k) → run_body σ' b = run_body σ b.
Proof.
  intros Hb Hσ. induction b as [v|k cont IH]; simpl in *; [done|].
  destruct Hb as [Hk Hb]. rewrite Hσ by done. destruct (σ k); [|done]. by apply IH.
Qed.

(** ** Well-behaved query sets *)

Section follows.
Context {Q : Type}.

(** A computation that ends cancelled. *)
Fixpoint stops (c : comp Q) : Prop :=
  match c with
  | Return _ o => o = OutcomeCancelled
  | Poll cont => ∀ x, stops (cont x)
  | Read _ _ _ => False
  end.

Fixpoint follows (c : comp Q) (b : body) : Prop :=
  match c with
  | Return _ OutcomeCancelled => False
  | Return _ (Value v) => b = BRet v
  | Poll cont => follows (cont false) b ∧ (follows (cont true) b ∨ stops (cont true))
  | Read _ k cont =>
      match b with
      | BRet _ => False
      | BRead k' bcont =>
          k' = k ∧ (∀ q v, follows (cont q (Ok v)) (bcont v)) ∧ (∀ q e, stops (cont q (Err e)))
      end
  end.
End follows.

Record query_spec : Type := MkSpec {
  inputs : gset QueryKey; body_of : QueryKey → body; rank : QueryKey → nat }.

Record well_behaved {Q} (qs : Queries Q) (S : query_spec) : Prop := {
  wb_follows q k : k ∉ inputs S → follows (compute qs q k) (body_of S k);
  wb_rank k : k ∉ inputs S → body_below (rank S) (rank S k) (body_of S k) }.

(** ** The answer of a key *)

Section eval.
Context (S : query_spec) (env : gmap QueryKey ValueHash).

Fixpoint eval (n : nat) (k : QueryKey) : option ValueHash :=
  match n with
  | O => None
  | Datatypes.S n =>
      if decide (k ∈ inputs S) then env !! k else run_body (eval n) (body_of S k)
  end.

Definition from_scratch (k : QueryKey) : option ValueHash := eval (Datatypes.S (rank S k)) k.

Context (Hrank : ∀ k, k ∉ inputs S → body_below (rank S) (rank S k) (body_of S k)).

Lemma eval_enough n m k : rank S k < n → rank S k < m → eval n k = eval m k.
Proof using Hrank.
  revert m k. induction n as [|n IH]; intros m k Hn Hm; [lia|].
  destruct m as [|m]; [lia|]. simpl. case_decide as Hk; [done|].
  apply (run_body_below (rank S) (rank S k)); [by apply Hrank|].
  intros k' Hk'. apply IH; lia.
Qed.

Lemma from_scratch_input k : k ∈ inputs S → from_scratch k = env !! k.
Proof. intros Hk. unfold from_scratch. simpl. by rewrite decide_True. Qed.

Lemma from_scratch_derived k :
  k ∉ inputs S → from_scratch k = run_body from_scratch (body_of S k).
Proof using Hrank.
  intros Hk. unfold from_scratch at 1. simpl. rewrite decide_False by done.
  apply (run_body_below (rank S) (rank S k)); [by apply Hrank|].
  intros k' Hk'. apply eval_enough; lia.
Qed.
End eval.

(** * The invariant of the query database

    [inv] relates a [Db] to the inputs written so far: every valid derived
    row holds a value some snapshot of its recorded dependencies computes, the
    snapshot agreeing with each dependency that has not changed since; a row
    verified at the current revision holds the from-scratch answer.  [step]
    says what a demand may change. *)

Section invariant.
Context (S : query_spec).
Context (Hrank : ∀ k, k ∉ inputs S → body_below (rank S) (rank S k) (body_of S k)).
Implicit Types (env : gmap QueryKey ValueHash) (db : Db) (n m : Node) (k : QueryKey).

(** A row whose answer is settled for the current revision. *)
Definition settled (r : nat) (n : Node) : Prop :=
  n_is_input n = true ∨ n_state n = Valid ∧ n_verified_at n = r.

(** What row [n] knows about its dependency [d], given the snapshot [σ]. *)
Definition dep_ok (σ : QueryKey → option ValueHash) (ns : list Node) (n : Node) (d : nat) : Prop :=
  ∃ m, ns !! d = Some m ∧ n_state m = Valid ∧ rank S (n_key m) < rank S (n_key n) ∧
    (n_is_input m = false → n_verified_at n ≤ n_verified_at m) ∧
    (n_changed_at m ≤ n_verified_at n → σ (n_key m) = Some (n_value m)).

Definition snapshot_ok (ns : list Node) (ds : list nat) (n : Node) : Prop :=
  ∃ σ, run_body σ (body_of S (n_key n)) = Some (n_value n) ∧
    (∀ k, k ∈ reads σ (body_of S (n_key n)) →
       ∃ d m, d ∈ Db.dep_slice ds n ∧ ns !! d = Some m ∧ n_key m = k) ∧
    (∀ d, d ∈ Db.dep_slice ds n → dep_ok σ ns n d).

Record derived_ok env (r : nat) (ns : list Node) (ds : list nat) (n : Node) : Prop := {
  do_key : n_key n ∉ inputs S;
  do_verified : n_verified_at n ≤ r;
  do_changed : n_changed_at n ≤ n_verified_at n;
  do_range : n_dep_start n + n_dep_len n ≤ length ds;
  do_snapshot : snapshot_ok ns ds n;
  do_current : n_verified_at n = r → from_scratch S env (n_key n) = Some (n_value n) }.

Record input_ok env (r : nat) (n : Node) : Prop := {
  io_key : n_key n ∈ inputs S;
  io_valid : n_state n = Valid;
  io_value : env !! n_key n = Some (n_value n);
  io_changed : n_changed_at n ≤ r }.

Definition node_ok env (r : nat) (ns : list Node) (ds : list nat) (n : Node) : Prop :=
  if n_is_input n then input_ok env r n
  else n_state n = Valid → derived_ok env r ns ds n.

Record inv env db : Prop := {
  inv_index k id : index db !! k = Some id ↔ ∃ n, nodes db !! id = Some n ∧ n_key n = k;
  inv_nodes id n : nodes db !! id = Some n → node_ok env (rev db) (nodes db) (deps db) n;
  inv_env k : is_Some (env !! k) → k ∈ inputs S ∧ ∃ id n,
    nodes db !! id = Some n ∧ n_key n = k ∧ n_is_input n = true;
  inv_range id n : nodes db !! id = Some n → n_dep_start n + n_dep_len n ≤ length (deps db) }.

(** The fields [inv] looks at. *)
Lemma inv_irrelevant env db db' :
  rev db' = rev db → nodes db' = nodes db → index db' = index db → deps db' = deps db →
  inv env db → inv env db'.
Proof. intros Hr Hn Hi Hd [H1 H2 H3 H4]. split; rewrite ?Hr, ?Hn, ?Hi, ?Hd; done. Qed.

Lemma dep_slice_app ds e n :
  n_dep_start n + n_dep_len n ≤ length ds →
  Db.dep_slice (ds ++ e) n = Db.dep_slice ds n.
Proof.
  intros H. unfold Db.dep_slice. rewrite drop_app_le by lia.
  rewrite take_app_le; [done|]. rewrite length_drop. lia.
Qed.

Lemma row_key_unique env db id id' n n' :
  inv env db → nodes db !! id = Some n → nodes db !! id' = Some n' → n_key n = n_key n' →
  id = id'.
Proof.
  intros Hinv H H' Hk.
  assert (index db !! n_key n = Some id) as H1 by (apply (inv_index _ _ Hinv); eauto).
  assert (index db !! n_key n = Some id') as H2 by (apply (inv_index _ _ Hinv); eauto).
  congruence.
Qed.

(** ** What a demand may change *)

(** Rows of rank [r] and above, and settled rows, are left alone. *)
Definition kept (r rv : nat) (n : Node) : Prop := settled rv n ∨ r ≤ rank S (n_key n).

Record step (r : nat) db db' : Prop := {
  st_rev : rev db' = rev db;
  st_deps : ∃ e, deps db' = deps db ++ e;
  st_rows id n : nodes db !! id = Some n → ∃ n', nodes db' !! id = Some n' ∧
    n_key n' = n_key n ∧ n_is_input n' = n_is_input n ∧ (kept r (rev db) n → n' = n) }.

Lemma step_refl r db db' :
  rev db' = rev db → nodes db' = nodes db → deps db' = deps db → step r db db'.
Proof.
  intros Hr Hn Hd. split; [done|exists []; by rewrite app_nil_r|].
  intros id n H. exists n. by rewrite Hn.
Qed.

Lemma step_trans r db1 db2 db3 : step r db1 db2 → step r db2 db3 → step r db1 db3.
Proof.
  intros [Hr1 [e1 Hd1] Hn1] [Hr2 [e2 Hd2] Hn2]. split.
  - congruence.
  - exists (e1 ++ e2). by rewrite Hd2, Hd1, app_assoc.
  - intros id n H. destruct (Hn1 _ _ H) as (n1 & H1 & Hk1 & Hi1 & Hf1).
    destruct (Hn2 _ _ H1) as (n2 & H2 & Hk2 & Hi2 & Hf2).
    exists n2. split_and!; [done|congruence|congruence|]. intros Hkept.
    rewrite (Hf1 Hkept) in *. apply Hf2. by rewrite Hr1.
Qed.

Lemma step_weaken r r' db db' : r ≤ r' → step r db db' → step r' db db'.
Proof.
  intros Hr [H1 H2 H3]. split; [done|done|]. intros id n H.
  destruct (H3 _ _ H) as (n' & ? & ? & ? & Hf). exists n'. split_and!; [done..|].
  intros [Hs|Hk]; apply Hf; [by left|right; lia].
Qed.

Lemma step_row r db db' id n :
  step r db db' → nodes db !! id = Some n → kept r (rev db) n → nodes db' !! id = Some n.
Proof. intros Hs H Hk. destruct (st_rows _ _ _ Hs _ _ H) as (n' & ? & ? & ? & Hf).
  by rewrite (Hf Hk) in *. Qed.

Lemma step_key r db db' id n :
  step r db db' → nodes db !! id = Some n →
  ∃ n', nodes db' !! id = Some n' ∧ n_key n' = n_key n.
Proof. intros Hs H. destruct (st_rows _ _ _ Hs _ _ H) as (n' & ? & ? & _). eauto. Qed.

(** ** The stack *)

(** Every frame is of a query of rank above [r]. *)
Definition above (r : nat) db : Prop :=
  ∀ f, f ∈ stack db → ∃ n, nodes db !! f_node f = Some n ∧ r < rank S (n_key n).

Lemma above_weaken r r' db : r' ≤ r → above r db → above r' db.
Proof. intros Hr H f Hf. destruct (H f Hf) as (n & ? & ?). exists n. split; [done|lia]. Qed.

Lemma above_step r r' db db' :
  step r' db db' → stack db' = stack db → above r db → above r db'.
Proof.
  intros Hs Hst H f Hf. rewrite Hst in Hf. destruct (H f Hf) as (n & Hn & Hr).
  destruct (step_key _ _ _ _ _ Hs Hn) as (n' & ? & Hk). exists n'. by rewrite Hk.
Qed.

(** [db'] has the stack of [db], with [l] recorded by the top frame. *)
Definition recorded (l : list nat) db db' : Prop :=
  match stack db with
  | [] => stack db' = []
  | f :: st =>
      stack db' = MkFrame (f_node f) (if f_attribute f then f_deps f ++ l else f_deps f)
                    (f_attribute f) :: st
  end.

Lemma recorded_nil db db' : stack db' = stack db → recorded [] db db'.
Proof.
  intros H. unfold recorded. rewrite H. destruct (stack db) as [|[? ? []] ?]; simpl; [done| |done].
  by rewrite app_nil_r.
Qed.
Lemma recorded_trans l1 l2 db1 db2 db3 :
  recorded l1 db1 db2 → recorded l2 db2 db3 → recorded (l1 ++ l2) db1 db3.
Proof.
  unfold recorded. destruct (stack db1) as [|[? ? []] ?]; intros -> H; simpl in *; [done| |done].
  by rewrite app_assoc.
Qed.
Lemma recorded_false l db db' f st :
  stack db = f :: st → f_attribute f = false → recorded l db db' → stack db' = stack db.
Proof. unfold recorded. intros -> Hf ->. rewrite Hf. by destruct f; simpl in *; subst. Qed.

Lemma above_recorded r r' l db db' :
  step r' db db' → recorded l db db' → above r db → above r db'.
Proof.
  intros Hs Hrec H f Hf. unfold recorded in Hrec.
  assert (∃ f', f' ∈ stack db ∧ f_node f' = f_node f) as (f' & Hf' & <-).
  { destruct (stack db) as [|f0 st]; rewrite Hrec in Hf; [by apply not_elem_of_nil in Hf|].
    apply elem_of_cons in Hf as [->|Hf]; [exists f0|exists f]; split; try done; by constructor. }
  destruct (H f' Hf') as (n & Hn & Hr).
  destruct (step_key _ _ _ _ _ Hs Hn) as (n' & ? & Hk). exists n'. by rewrite Hk.
Qed.

(** ** Interning *)

Lemma snapshot_ok_mono ns ns' ds n :
  (∀ id m, ns !! id = Some m → ns' !! id = Some m) →
  snapshot_ok ns ds n → snapshot_ok ns' ds n.
Proof.
  intros Hns (σ & Hrun & Hreads & Hdeps). exists σ. split_and!; [done| |].
  - intros k Hk. destruct (Hreads k Hk) as (d & m & ? & ? & ?). exists d, m. auto.
  - intros d Hd. destruct (Hdeps d Hd) as (m & ? & ?). exists m. auto.
Qed.

Lemma intern_spec env db k id db' :
  inv env db → Db.intern k db = (id, db') →
  inv env db' ∧ rev db' = rev db ∧ deps db' = deps db ∧ stack db' = stack db ∧
  (∀ r, step r db db') ∧ index db' !! k = Some id ∧
  ∃ n, nodes db' !! id = Some n ∧ n_key n = k ∧
    (nodes db !! id = Some n ∨ nodes db !! id = None ∧ n_state n = Empty ∧ n_is_input n = false).
Proof.
  intros Hinv H. unfold Db.intern in H. destruct (index db !! k) as [id0|] eqn:Hk.
  - injection H as <- <-. pose proof Hk as (n & Hn & Hkey)%(inv_index _ _ Hinv).
    split_and!; try done.
    + intros r. by apply step_refl.
    + exists n. auto.
  - injection H as <- <-. simpl. unfold Db.push. set (row := MkNode k 0 0 0 0 0 Empty false).
    assert (∀ j m, nodes db !! j = Some m → (nodes db ++ [row]) !! j = Some m) as Hold
      by (intros; by apply lookup_app_l_Some).
    assert ((nodes db ++ [row]) !! length (nodes db) = Some row) as Hnew
      by (rewrite lookup_app_r, Nat.sub_diag by lia; done).
    assert (∀ j m, (nodes db ++ [row]) !! j = Some m →
      nodes db !! j = Some m ∨ j = length (nodes db) ∧ m = row) as Hinvl.
    { intros j m [?|[Hj Hm]]%lookup_app_Some; [by left|right].
      apply list_lookup_singleton_Some in Hm as [Hm ->]. split; [lia|done]. }
    split_and!; try done.
    + split; simpl.
      * intros k' id'. rewrite lookup_insert_Some. split.
        -- intros [[-> <-]|[Hne Hid]]; [by exists row|].
           apply (inv_index _ _ Hinv) in Hid as (n & Hn & ?). exists n. auto.
        -- intros (n & [Hn|[-> ->]]%Hinvl & Hkey); [right|left; done].
           assert (index db !! k' = Some id') by (apply (inv_index _ _ Hinv); eauto).
           split; congruence.
      * intros j m [Hm|[-> ->]]%Hinvl; [|done].
        pose proof (inv_nodes _ _ Hinv j m Hm) as Hok. unfold node_ok in *.
        destruct (n_is_input m); [done|]. intros Hv. destruct (Hok Hv).
        split; try done. by eapply snapshot_ok_mono.
      * intros k' Hk'. destruct (inv_env _ _ Hinv k' Hk') as (? & id' & n & ? & ? & ?).
        split; [done|]. exists id', n. auto.
      * intros j m [Hm|[-> ->]]%Hinvl; [by eapply inv_range|simpl; lia].
    + intros r. split; simpl; [done|exists []; by rewrite app_nil_r|].
      intros j m Hm. exists m. auto.
    + by rewrite lookup_insert_eq.
    + exists row. split_and!; [done|done|]. right. split_and!; [|done|done].
      apply lookup_ge_None_2. lia.
Qed.

(** ** Rewriting one derived row *)

(** What the other rows need of the new row: it has not become younger, and
    its value moved only in a revision that no row depending on it has been
    verified at. *)
Definition row_moves (r : nat) n n' : Prop :=
  n_key n' = n_key n ∧ n_is_input n = false ∧ n_is_input n' = false ∧
  (n_state n = Valid → n_state n' = Valid ∧ n_verified_at n ≤ n_verified_at n') ∧
  ((n_changed_at n' = n_changed_at n ∧ n_value n' = n_value n) ∨
   (n_changed_at n' = r ∧ (n_state n = Valid → n_verified_at n < r))).

Lemma snapshot_ok_update ns ns' ds e id n n' m :
  ns !! id = Some n → ns' !! id = Some n' → (∀ j, j ≠ id → ns' !! j = ns !! j) →
  row_moves (n_verified_at n') n n' → n_dep_start m + n_dep_len m ≤ length ds →
  snapshot_ok ns ds m → snapshot_ok ns' (ds ++ e) m.
Proof.
  intros Hn Hn' Hoth (Hkey & Hni & Hni' & Hst & Hval) Hrange (σ & Hrun & Hreads & Hdeps).
  exists σ. rewrite dep_slice_app by done. split_and!; [done| |].
  - intros k Hk. destruct (Hreads k Hk) as (d & m' & Hd & Hm' & Hmk).
    destruct (decide (d = id)) as [->|Hne].
    + exists id, n'. split_and!; [done|done|congruence].
    + exists d, m'. rewrite Hoth by done. done.
  - intros d Hd. destruct (Hdeps d Hd) as (m' & Hm' & Hmv & Hmr & Hmver & Hmσ).
    destruct (decide (d = id)) as [->|Hne].
    + rewrite Hn in Hm'. injection Hm' as <-. exists n'.
      destruct (Hst Hmv) as [Hst' Hv]. split_and!; [done|done|congruence| |].
      * intros _. specialize (Hmver Hni). lia.
      * destruct Hval as [[-> ->]|[Hc Hlt]]; [by rewrite Hkey|].
        specialize (Hmver Hni). specialize (Hlt Hmv). lia.
    + exists m'. rewrite Hoth by done. done.
Qed.

Lemma inv_update env db db' id n n' e :
  inv env db → rev db' = rev db → index db' = index db → deps db' = deps db ++ e →
  nodes db !! id = Some n → nodes db' !! id = Some n' →
  (∀ j, j ≠ id → nodes db' !! j = nodes db !! j) →
  row_moves (rev db) n n' → n_verified_at n' = rev db →
  derived_ok env (rev db') (nodes db') (deps db') n' → inv env db'.
Proof.
  intros Hinv Hr Hi Hd Hn Hn' Hoth Hmv Hver Hok. pose proof Hmv as (Hkey & Hni & Hni' & _).
  split.
  - intros k j. rewrite Hi, (inv_index _ _ Hinv).
    destruct (decide (j = id)) as [->|Hne]; [|by rewrite Hoth].
    rewrite Hn, Hn'. split; intros (m & [= <-] & ?); eexists; (split; [done|congruence]).
  - intros j m Hm. unfold node_ok. destruct (decide (j = id)) as [->|Hne].
    { rewrite Hn' in Hm. injection Hm as <-. by rewrite Hni'. }
    rewrite Hoth in Hm by done. pose proof (inv_nodes _ _ Hinv j m Hm) as Hold.
    unfold node_ok in Hold. destruct (n_is_input m).
    + destruct Hold. split; try done. by rewrite Hr.
    + intros Hv. destruct (Hold Hv) as [H1 H2 H3 H4 H5 H6]. rewrite Hr.
      split; try done.
      * rewrite Hd, length_app. lia.
      * rewrite Hd. apply (snapshot_ok_update (nodes db) (nodes db') (deps db) e id n n' m);
          [done..|by rewrite Hver|done|done].
  - intros k Hk. destruct (inv_env _ _ Hinv k Hk) as (? & j & m & Hm & ? & ?).
    split; [done|]. exists j, m. destruct (decide (j = id)) as [->|Hne]; [congruence|].
    by rewrite Hoth.
  - intros j m Hm. destruct (decide (j = id)) as [->|Hne].
    + rewrite Hn' in Hm. injection Hm as <-. by destruct Hok.
    + rewrite Hoth in Hm by done. pose proof (inv_range _ _ Hinv j m Hm).
      rewrite Hd, length_app. lia.
Qed.
End invariant.
