(* ===== verification/QueryCorrect.v ===== *)
(** * Incremental answers are from-scratch answers

    For a well-behaved query set whose inputs are all written, a demand with
    enough fuel always ends, keeps the invariant and, unless it is cancelled,
    returns the answer the inputs determine. *)

From S2P Require Import Prelude QueryKey QueryDb QueryInv.
Local Open Scope nat_scope.

Section correct.
Context {Q : Type} (qs : Queries Q) (cancelled : nat → bool) (S : query_spec).
Context (Hqs : well_behaved qs S).
Context (env : gmap QueryKey ValueHash).
Context (Henv : ∀ k, k ∈ inputs S → is_Some (env !! k)).

Abbreviation rk := (rank S).
Abbreviation fs := (from_scratch S env).
Abbreviation INV := (inv S env).
Abbreviation pulled := (res (Q * Db * result Cancelled Answer)).

(** [n] holds the answer of its key at revision [r]. *)
Definition answered (r : nat) (n : Node) : Prop :=
  settled r n ∧ n_state n = Valid ∧ fs (n_key n) = Some (n_value n).

(** Some poll of the flag observes it raised. *)
Definition was_cancelled : Prop := ∃ i, cancelled i = true.

Definition pull_post (k : QueryKey) (attribute : bool) (db db' : Db)
    (r : result Cancelled Answer) : Prop :=
  INV db' ∧ step S (Datatypes.S (rk k)) db db' ∧
  match r with
  | Err _ => was_cancelled ∧ ∃ l, recorded l db db'
  | Ok a => ∃ id n, nodes db' !! id = Some n ∧ n_key n = k ∧ answered (rev db) n ∧
      a = Db.answer n ∧ recorded (if attribute then [id] else []) db db'
  end.

(** [pull] answers every key of rank below [r]. *)
Definition pull_good (pull : Q → Db → QueryKey → bool → pulled) (r : nat) : Prop :=
  ∀ q db k attribute, rk k < r → INV db → above S (rk k) db →
    ∃ q' db' x, pull q db k attribute = Done (q', db', x) ∧ pull_post k attribute db db' x.

Lemma settled_answered db id n :
  INV db → nodes db !! id = Some n → settled (rev db) n → answered (rev db) n.
Proof using Type.
  intros Hinv Hn Hs. pose proof (inv_nodes _ _ _ Hinv id n Hn) as Hok. unfold node_ok in Hok.
  split; [done|]. destruct (n_is_input n) eqn:Hi.
  - destruct Hok as [Hk Hv He _]. split; [done|]. by rewrite from_scratch_input.
  - destruct Hs as [Hs|[Hv Hr]]; [congruence|]. split; [done|].
    by apply (do_current _ _ _ _ _ _ (Hok Hv)).
Qed.

Lemma answered_step r db db' id n :
  step S r db db' → nodes db !! id = Some n → answered (rev db) n → nodes db' !! id = Some n.
Proof using Type. intros Hs Hn [Hset _]. eapply step_row; [done..|by left]. Qed.

Lemma above_lt r r' db : r' < r → (∀ x, x < r → above S x db) → above S r' db.
Proof using Type. auto. Qed.

(** ** The verification walk *)

Section walk.
Context (pull : Q → Db → QueryKey → bool → pulled).

Lemma dep_row db id n d :
  INV db → nodes db !! id = Some n → n_is_input n = false → n_state n = Valid →
  d ∈ Db.dep_slice (deps db) n →
  ∃ m, nodes db !! d = Some m ∧ n_state m = Valid ∧ rk (n_key m) < rk (n_key n).
Proof using Type.
  intros Hinv Hn Hi Hv Hd. pose proof (inv_nodes _ _ _ Hinv id n Hn) as Hok.
  unfold node_ok in Hok. rewrite Hi in Hok.
  destruct (do_snapshot _ _ _ _ _ _ (Hok Hv)) as (σ & _ & _ & Hdeps).
  destruct (Hdeps d Hd) as (m & ? & ? & ? & _). eauto.
Qed.

Lemma verify_deps_good l s q db id n st :
  pull_good pull (rk (n_key n)) → INV db → nodes db !! id = Some n →
  n_is_input n = false → n_state n = Valid →
  n_dep_start n ≤ s → s + l = n_dep_start n + n_dep_len n →
  stack db = MkFrame id [] false :: st → (∀ x, x < rk (n_key n) → above S x db) →
  ∃ q' db' x, Db.verify_deps pull s l (n_verified_at n) q db = Done (q', db', x) ∧
    INV db' ∧ step S (rk (n_key n)) db db' ∧ stack db' = stack db ∧
    (∀ e, x = Err e → was_cancelled) ∧
    (x = Ok false → ∀ d, d ∈ take l (drop s (deps db)) →
       ∃ m, nodes db' !! d = Some m ∧ answered (rev db) m ∧ n_changed_at m ≤ n_verified_at n).
Proof using Type.
  revert s q db. induction l as [|l IH]; intros s q db Hpull Hinv Hn Hi Hv Hs Hl Hst Hab.
  { exists q, db, (Ok false). split_and!; [done|done|by apply step_refl|done|done|].
    intros _ d Hd. rewrite take_0 in Hd. by apply not_elem_of_nil in Hd. }
  assert (n_dep_start n + n_dep_len n ≤ length (deps db)) as Hrange.
  { pose proof (inv_nodes _ _ _ Hinv id n Hn) as Hok. unfold node_ok in Hok.
    rewrite Hi in Hok. apply (do_range _ _ _ _ _ _ (Hok Hv)). }
  destruct (lookup_lt_is_Some_2 (deps db) s) as [d Hd]; [lia|].
  assert (d ∈ Db.dep_slice (deps db) n) as Hin.
  { apply list_elem_of_lookup. exists (s - n_dep_start n). unfold Db.dep_slice.
    rewrite lookup_take_lt by lia. rewrite lookup_drop. rewrite <- Hd. f_equal. lia. }
  destruct (dep_row db id n d Hinv Hn Hi Hv Hin) as (m & Hm & Hmv & Hmr).
  simpl. rewrite Hd. unfold Db.node. rewrite Hm. simpl.
  destruct (Hpull q db (n_key m) false Hmr Hinv (Hab _ Hmr))
    as (q1 & db1 & x & Heq & Hinv1 & Hstep & Hx).
  rewrite Heq. simpl.
  assert (step S (rk (n_key n)) db db1) as Hstep1 by (eapply step_weaken, Hstep; lia).
  destruct x as [a|c].
  2:{ destruct Hx as (Hc & l' & Hrec). exists q1, db1, (Err c). split_and!; try done.
      by eapply recorded_false. }
  destruct Hx as (d' & m' & Hm' & Hk' & Hans & -> & Hrec).
  assert (stack db1 = stack db) as Hst1 by (by eapply recorded_false).
  simpl. destruct (Nat.ltb_spec (n_verified_at n) (n_changed_at m')) as [Hlt|Hge].
  { exists q1, db1, (Ok true). by split_and!. }
  assert (nodes db1 !! id = Some n) as Hn1 by (eapply step_row; [done..|by right]).
  assert (rev db1 = rev db) as Hrev by apply Hstep1.
  destruct (IH (Datatypes.S s) q1 db1) as (q2 & db2 & x & Heq2 & Hinv2 & Hstep2 & Hst2 & Hc2 & Hx2);
    try done; try lia.
  { congruence. }
  { intros y Hy. eapply above_step; [done|done|by apply Hab]. }
  exists q2, db2, x. split_and!; [done|done|by eapply step_trans|congruence|done|].
  intros -> d0 Hd0. rewrite Hrev in Hx2.
  rewrite (drop_S _ _ _ Hd) in Hd0. simpl in Hd0. apply elem_of_cons in Hd0 as [->|Hd0].
  - assert (d' = d) as ->.
    { destruct (step_key _ _ _ _ _ _ Hstep Hm) as (m1 & Hm1 & Hkm1).
      eapply (row_key_unique S env db1); [done..|]. congruence. }
    exists m'. split_and!; [|done|done]. eapply answered_step; [done..|by rewrite Hrev].
  - apply Hx2; [done|]. destruct (st_deps _ _ _ _ Hstep1) as [e ->].
    rewrite drop_app_le by lia. rewrite take_app_le; [done|]. rewrite length_drop. lia.
Qed.

(** All dependencies unchanged: the snapshot is the present. *)
Lemma green_current db id n :
  INV db → nodes db !! id = Some n → n_is_input n = false → n_state n = Valid →
  (∀ d, d ∈ Db.dep_slice (deps db) n →
     ∃ m, nodes db !! d = Some m ∧ answered (rev db) m ∧ n_changed_at m ≤ n_verified_at n) →
  fs (n_key n) = Some (n_value n).
Proof using Hqs.
  intros Hinv Hn Hi Hv Hall. pose proof (inv_nodes _ _ _ Hinv id n Hn) as Hok.
  unfold node_ok in Hok. rewrite Hi in Hok. destruct (Hok Hv) as [Hk _ _ _ Hsnap _].
  destruct Hsnap as (σ & Hrun & Hreads & Hdeps).
  rewrite (from_scratch_derived S env (wb_rank _ _ Hqs)) by done. rewrite <- Hrun.
  apply run_body_agree. intros k Hkr. destruct (Hreads k Hkr) as (d & m & Hd & Hm & <-).
  destruct (Hall d Hd) as (m' & Hm' & (_ & _ & Hfs) & Hch).
  destruct (Hdeps d Hd) as (m'' & Hm'' & _ & _ & _ & Hσ). simplify_eq.
  by rewrite Hfs, Hσ.
Qed.

Lemma green_inv db id n :
  INV db → nodes db !! id = Some n → n_is_input n = false → n_state n = Valid →
  (∀ d, d ∈ Db.dep_slice (deps db) n →
     ∃ m, nodes db !! d = Some m ∧ answered (rev db) m ∧ n_changed_at m ≤ n_verified_at n) →
  INV (with_nodes (alter (stamp_verified (rev db)) id) db).
Proof using Hqs.
  intros Hinv Hn Hi Hv Hall. pose proof (green_current db id n Hinv Hn Hi Hv Hall) as Hfs.
  pose proof (inv_nodes _ _ _ Hinv id n Hn) as Hok. unfold node_ok in Hok. rewrite Hi in Hok.
  destruct (Hok Hv) as [Hk Hver Hch Hrange Hsnap _].
  apply (inv_update S env db _ id n (stamp_verified (rev db) n) []); simpl; try done.
  - by rewrite app_nil_r.
  - by rewrite list_lookup_alter_eq, Hn.
  - intros j Hj. by rewrite list_lookup_alter_ne.
  - split_and!; [done|done|done|done|]. by left.
  - split; simpl; try done; [lia|].
    destruct Hsnap as (σ & Hrun & Hreads & Hdeps). exists σ. simpl. split_and!; [done| |].
    + intros k Hkr. destruct (Hreads k Hkr) as (d & m & Hd & Hm & ?).
      exists d. destruct (dep_row db id n d Hinv Hn Hi Hv Hd) as (m' & Hm' & _ & Hr).
      exists m. split_and!; [done| |done]. rewrite list_lookup_alter_ne; [done|].
      intros ->. simplify_eq. lia.
    + intros d Hd. destruct (Hall d Hd) as (m & Hm & (Hset & Hmv & Hmfs) & Hmc).
      destruct (Hdeps d Hd) as (m' & Hm' & _ & Hr & _ & Hσ). simplify_eq.
      exists m. split_and!; [|done|done| |].
      * rewrite list_lookup_alter_ne; [done|]. intros ->. simplify_eq. lia.
      * intros Hmi. destruct Hset as [?|[_ Hset]]; [congruence|]. simpl. lia.
      * intros _. by apply Hσ.
Qed.

Lemma verify_good q db id n :
  pull_good pull (rk (n_key n)) → INV db → nodes db !! id = Some n →
  n_is_input n = false → (n_state n = Valid → n_verified_at n ≠ rev db) →
  above S (rk (n_key n)) db →
  ∃ q' db' x, Db.verify pull q id db = Done (q', db', x) ∧ INV db' ∧
    stack db' = stack db ∧ step S (Datatypes.S (rk (n_key n))) db db' ∧
    (x = Ok true → ∃ n', nodes db' !! id = Some n' ∧ n_key n' = n_key n ∧
                     answered (rev db) n') ∧
    (x = Ok false → nodes db' !! id = Some n) ∧ (∀ e, x = Err e → was_cancelled).
Proof using Hqs.
  intros Hpull Hinv Hn Hi Hstale Hab. unfold Db.verify, Db.node. rewrite Hn. simpl.
  destruct (bool_decide (n_state n = Valid)) eqn:Hv; simpl.
  2:{ exists q, db, (Ok false). split_and!; [done|done|done|by apply step_refl|done|done|done]. }
  apply bool_decide_eq_true in Hv.
  set (db0 := with_stack (cons (MkFrame id [] false)) db).
  assert (INV db0) as Hinv0 by (by eapply inv_irrelevant, Hinv).
  assert (∀ x, x < rk (n_key n) → above S x db0) as Hab0.
  { intros x Hx f [->|Hf]%elem_of_cons; [by exists n|].
    destruct (Hab f Hf) as (m & ? & ?). exists m. split; [done|lia]. }
  destruct (verify_deps_good (n_dep_len n) (n_dep_start n) q db0 id n (stack db))
    as (q1 & db1 & x & Heq & Hinv1 & Hstep & Hst & Hc & Hx); try done.
  rewrite Heq. simpl.
  assert (step S (rk (n_key n)) db (Db.pop db1)) as Hstep1.
  { eapply step_trans; [by apply (step_refl _ _ db db0)|].
    eapply step_trans; [exact Hstep|]. by apply step_refl. }
  assert (INV (Db.pop db1)) as Hinv1' by (by eapply inv_irrelevant, Hinv1).
  assert (stack (Db.pop db1) = stack db) as Hst1 by (simpl; by rewrite Hst).
  assert (nodes db1 !! id = Some n) as Hn1 by (eapply step_row; [done..|by right]).
  assert (rev db1 = rev db) as Hrev by apply Hstep.
  assert (step S (Datatypes.S (rk (n_key n))) db (Db.pop db1)) as Hstep2
    by (eapply step_weaken, Hstep1; lia).
  destruct x as [[|]|c].
  - exists q1, (charge c_red (Db.pop db1)), (Ok false).
    split_and!; [done|by eapply inv_irrelevant, Hinv1'|done| |done|done|done].
    eapply step_trans; [done|by apply step_refl].
  - specialize (Hx eq_refl). fold (Db.dep_slice (deps db0) n) in Hx.
    assert (Db.dep_slice (deps db1) n = Db.dep_slice (deps db0) n) as Hsl.
    { destruct (st_deps _ _ _ _ Hstep) as [e ->]. apply dep_slice_app.
      pose proof (inv_nodes _ _ _ Hinv id n Hn) as Hok. unfold node_ok in Hok.
      rewrite Hi in Hok. apply (do_range _ _ _ _ _ _ (Hok Hv)). }
    assert (∀ d, d ∈ Db.dep_slice (deps (Db.pop db1)) n → ∃ m,
      nodes (Db.pop db1) !! d = Some m ∧ answered (rev (Db.pop db1)) m ∧
      n_changed_at m ≤ n_verified_at n) as Hall.
    { simpl. rewrite Hsl, Hrev. exact Hx. }
    eexists q1, _, (Ok true). split; [reflexivity|].
    pose proof (green_inv (Db.pop db1) id n Hinv1' Hn1 Hi Hv Hall) as Hinv2.
    pose proof (green_current (Db.pop db1) id n Hinv1' Hn1 Hi Hv Hall) as Hfs.
    split_and!; [by eapply inv_irrelevant, Hinv2|done| | |done|done].
    + eapply step_trans; [exact Hstep2|]. split; simpl; [done|exists []; by rewrite app_nil_r|].
      intros j m Hm. destruct (decide (j = id)) as [->|Hne].
      * rewrite Hn1 in Hm. injection Hm as <-. rewrite list_lookup_alter_eq, Hn1.
        eexists. split_and!; [done..|]. intros [Hset|Hrk]; [|lia].
        exfalso. destruct Hset as [?|[_ Hset]]; [congruence|]. by apply Hstale; [|congruence].
      * rewrite list_lookup_alter_ne by done. by exists m.
    + intros _. exists (stamp_verified (rev db1) n). simpl.
      rewrite list_lookup_alter_eq, Hn1. split_and!; [done|done|].
      split_and!; [by right|done|done].
  - exists q1, (Db.pop db1), (Err c). split_and!; [done..|]. intros e _. by apply (Hc c).
Qed.

(** ** Running a body *)

Lemma is_cancelled_inv db b db' :
  Db.is_cancelled cancelled db = (b, db') → INV db →
  INV db' ∧ (∀ r, step S r db db') ∧ stack db' = stack db ∧ rev db' = rev db ∧
  nodes db' = nodes db.
Proof using Type.
  intros [= <- <-] Hinv.
  split_and!; [by eapply inv_irrelevant, Hinv|intros; by apply step_refl|done..].
Qed.

Lemma stops_run (c : comp Q) db :
  stops c → INV db → ∃ q' db', Db.run cancelled pull c db = Done (q', db', OutcomeCancelled) ∧
    INV db' ∧ (∀ r, step S r db db') ∧ stack db' = stack db.
Proof using Type.
  revert db. induction c as [q o|cont IH|q k cont IH]; intros db Hs Hinv; simpl in *; [| |done].
  - subst o. exists q, db. split_and!; try done. intros r. by apply step_refl.
  - destruct (is_cancelled_inv db _ _ eq_refl Hinv) as (Hinv' & Hst & Hstack & _ & _).
    destruct (IH _ _ (Hs (cancelled (polls db))) Hinv') as (q' & db' & Heq & ? & Hst' & Hs').
    exists q', db'. split_and!; [exact Heq|done| |].
    + intros r. by eapply step_trans.
    + by rewrite Hs'.
Qed.

(** The rows read so far. *)
Definition read_rows (r rv : nat) (l : list nat) (db : Db) : Prop :=
  ∀ d, d ∈ l → ∃ m, nodes db !! d = Some m ∧ answered rv m ∧ rk (n_key m) < r.

Lemma read_rows_step r r' rv l db db' :
  rev db = rv → step S r' db db' → read_rows r rv l db → read_rows r rv l db'.
Proof using Type.
  intros <- Hs Hl d Hd. destruct (Hl d Hd) as (m & Hm & Hans & Hr).
  exists m. split_and!; [|done|done]. by eapply answered_step.
Qed.

Lemma run_good r c b db :
  pull_good pull r → follows c b → body_below rk r b → INV db →
  (∀ x, x < r → above S x db) →
  ∃ q' db' o l, Db.run cancelled pull c db = Done (q', db', o) ∧ INV db' ∧ step S r db db' ∧
    recorded l db db' ∧ (o = OutcomeCancelled → was_cancelled) ∧
    ∀ v, o = Value v → run_body fs b = Some v ∧ read_rows r (rev db) l db' ∧
      ∀ k, k ∈ reads fs b → ∃ d m, d ∈ l ∧ nodes db' !! d = Some m ∧ n_key m = k.
Proof using Type.
  intros Hpull. revert b db.
  induction c as [q o|cont IH|q k cont IH]; intros b db Hf Hb Hinv Hab; simpl in *.
  - exists q, db, o, []. destruct o as [v0|]; [|done].
    split_and!; [done|done|by apply step_refl|by apply recorded_nil|done|].
    intros v [= ->]. subst b. split_and!; [done| |].
    + intros d Hd. by apply not_elem_of_nil in Hd.
    + intros k Hk. by apply not_elem_of_nil in Hk.
  - destruct (is_cancelled_inv db _ _ eq_refl Hinv) as (Hinv' & Hst & Hstack & _ & _).
    destruct (cancelled (polls db)) eqn:Hpoll.
    + assert (was_cancelled) as Hc by (by exists (polls db)).
      destruct Hf as [_ [Hf|Hf]].
      * destruct (IH true b _ Hf Hb Hinv') as (q' & db' & o & l & Heq & ? & Hst' & Hrec & ? & Ho).
        { intros x Hx. eapply above_step; [apply (Hst 0)|done|by apply Hab]. }
        exists q', db', o, l. split_and!; [exact Heq|done|by eapply step_trans| |done|done].
        by unfold recorded in *.
      * destruct (stops_run _ _ Hf Hinv') as (q' & db' & Heq & ? & Hst' & Hs').
        exists q', db', OutcomeCancelled, []. split_and!; [exact Heq|done| | |done|done].
        -- by eapply step_trans.
        -- apply recorded_nil. by rewrite Hs'.
    + destruct (IH false b _ (proj1 Hf) Hb Hinv')
        as (q' & db' & o & l & Heq & ? & Hst' & Hrec & ? & Ho).
      { intros x Hx. eapply above_step; [apply (Hst 0)|done|by apply Hab]. }
      exists q', db', o, l. split_and!; [exact Heq|done|by eapply step_trans| |done|done].
      by unfold recorded in *.
  - destruct b as [|k' bcont]; [done|]. destruct Hf as (-> & Hok & Herr). destruct Hb as [Hk Hb].
    destruct (Hpull q db k true Hk Hinv (Hab _ Hk)) as (q1 & db1 & x & Heq & Hinv1 & Hstep & Hx).
    rewrite Heq. simpl.
    assert (step S r db db1) as Hstep1 by (eapply step_weaken, Hstep; lia).
    destruct x as [a|e].
    2:{ destruct Hx as (Hc & l & Hrec).
        destruct (stops_run _ db1 (Herr q1 e) Hinv1) as (q2 & db2 & Heq2 & Hinv2 & Hst2 & Hs2).
        exists q2, db2, OutcomeCancelled, l. split_and!; [exact Heq2|done| | |done|done].
        - by eapply step_trans.
        - unfold recorded in *. by rewrite Hs2. }
    destruct Hx as (id & n & Hn & Hnk & Hans & -> & Hrec).
    assert (rev db1 = rev db) as Hrev by apply Hstep.
    destruct (IH q1 (Ok (n_value n)) (bcont (n_value n)) db1) as
      (q2 & db2 & o & l & Heq2 & Hinv2 & Hst2 & Hrec2 & Hc2 & Ho); [by apply Hok|done|done| |].
    { intros y Hy. eapply above_recorded; [done..|by apply Hab]. }
    exists q2, db2, o, (id :: l). split_and!; [exact Heq2|done|by eapply step_trans| |done|].
    { change (id :: l) with ([id] ++ l). by eapply recorded_trans. }
    intros v Hv. destruct (Ho v Hv) as (Hrun & Hrows & Hreads).
    assert (nodes db2 !! id = Some n) as Hn2
      by (eapply answered_step; [done..|by rewrite Hrev]).
    pose proof Hans as (_ & _ & Hfs). rewrite Hnk in Hfs. simpl. rewrite Hfs.
    split_and!; [done| |].
    + rewrite Hrev in Hrows. intros d [->|Hd]%elem_of_cons; [|by apply Hrows].
      exists n. split_and!; [done|done|]. by rewrite Hnk.
    + intros k' [->|Hk']%elem_of_cons.
      * exists id, n. split_and!; [by left|done|done].
      * destruct (Hreads k' Hk') as (d & m & ? & ? & ?). exists d, m.
        split_and!; [by right|done|done].
Qed.

(** ** Executing a query *)

(** The row an execution with answer [v] leaves. *)
Definition executed_row (r start len : nat) (v : ValueHash) (n : Node) : Node :=
  if negb (bool_decide (n_state n = Valid)) || negb (n_value n =? v)%Z
  then set_valid (set_value v r (stamp_verified r (set_deps start len n)))
  else set_valid (stamp_verified r (set_deps start len n)).

(** [db'] is [db] with row [id] rewritten and edges appended. *)
Definition rewrites (db db' : Db) (id : nat) (n' : Node) (e : list nat) : Prop :=
  rev db' = rev db ∧ index db' = index db ∧ deps db' = deps db ++ e ∧
  nodes db' !! id = Some n' ∧ ∀ j, j ≠ id → nodes db' !! j = nodes db !! j.

Lemma execute_value q key id db n q1 db1 v f :
  Db.run cancelled pull (compute qs q key) (with_stack (cons (MkFrame id [] true)) db)
    = Done (q1, db1, Value v) →
  stack db1 = f :: stack db → nodes db1 !! id = Some n →
  let ds := dedup (merge_sort Nat.le (f_deps f)) in
  let n' := executed_row (rev db1) (length (deps db1)) (length ds) v n in
  ∃ db', Db.execute qs cancelled pull q key id db = Done (q1, db', Ok (Db.answer n')) ∧
    rewrites db1 db' id n' ds ∧ stack db' = stack db.
Proof using Type.
  intros Heq Hst Hn ds n'. unfold Db.execute. rewrite Heq. simpl. rewrite Hst.
  fold ds. unfold Db.node, n', executed_row.
  destruct (window db1); simpl; rewrite list_lookup_alter_eq, Hn; simpl;
    destruct (_ || _); simpl; rewrite !list_lookup_alter_eq, Hn; simpl;
    (eexists; split; [reflexivity|]; split; [|simpl; by rewrite Hst]);
    (split_and!; [done|done|done| |]); simpl;
    try (by rewrite !list_lookup_alter_eq, Hn);
    intros j Hj; by rewrite !list_lookup_alter_ne.
Qed.

Lemma executed_row_moves r start len v n :
  n_is_input n = false →
  (n_state n = Valid → n_verified_at n < r ∧ n_changed_at n ≤ r) →
  row_moves r n (executed_row r start len v n) ∧
  n_verified_at (executed_row r start len v n) = r ∧
  n_value (executed_row r start len v n) = v ∧
  n_state (executed_row r start len v n) = Valid ∧
  n_changed_at (executed_row r start len v n) ≤ r.
Proof using Type.
  intros Hi Hold. unfold executed_row, row_moves.
  destruct (bool_decide_reflect (n_state n = Valid)) as [Hval|Hval]; simpl.
  - destruct (Hold Hval). destruct (Z.eqb_spec (n_value n) v) as [He|He]; simpl.
    + split_and!; try done; [intros; split; [done|lia]|by left].
    + split_and!; try done; [intros; split; [done|lia]|by right].
  - split_and!; try done. by right.
Qed.

Lemma executed_row_slice r start len v n ds :
  Db.dep_slice ds (executed_row r start len v n) = take len (drop start ds).
Proof using Type. unfold executed_row. by destruct (_ || _). Qed.

Lemma elem_of_sorted_reads (l : list nat) d : d ∈ dedup (merge_sort Nat.le l) ↔ d ∈ l.
Proof using Type. rewrite elem_of_dedup. by rewrite (merge_sort_Permutation Nat.le l). Qed.

(** An executed row is well formed. *)
Lemma executed_inv db db' id n v l :
  INV db → nodes db !! id = Some n → n_is_input n = false → n_key n ∉ inputs S →
  (n_state n = Valid → n_verified_at n < rev db ∧ n_changed_at n ≤ rev db) →
  run_body fs (body_of S (n_key n)) = Some v → read_rows (rk (n_key n)) (rev db) l db →
  (∀ k, k ∈ reads fs (body_of S (n_key n)) → ∃ d m, d ∈ l ∧ nodes db !! d = Some m ∧ n_key m = k) →
  let ds := dedup (merge_sort Nat.le l) in
  let n' := executed_row (rev db) (length (deps db)) (length ds) v n in
  rewrites db db' id n' ds →
  INV db' ∧ answered (rev db) n' ∧ n_key n' = n_key n.
Proof using Hqs.
  intros Hinv Hn Hi Hk Hstale Hrun Hrows Hreads ds n' (Hr & Hix & Hd & Hn' & Hoth).
  destruct (executed_row_moves (rev db) (length (deps db)) (length ds) v n Hi Hstale)
    as (Hmv & Hver' & Hval & Hst & Hch').
  fold n' in Hmv, Hver', Hval, Hst, Hch'. pose proof Hmv as (Hkey & _ & Hni & _).
  assert (Db.dep_slice (deps db') n' = ds) as Hslice.
  { rewrite Hd. unfold n'. rewrite executed_row_slice, drop_app_length. by rewrite firstn_all. }
  assert (fs (n_key n) = Some v) as Hfs
    by (rewrite (from_scratch_derived S env (wb_rank _ _ Hqs)) by done; done).
  assert (∀ d m, nodes db !! d = Some m → rk (n_key m) < rk (n_key n) →
    nodes db' !! d = Some m) as Hother.
  { intros d m Hm Hlt. rewrite Hoth; [done|]. intros ->. rewrite Hn in Hm. simplify_eq. lia. }
  split_and!; [|split_and!; [by right|done|by rewrite Hkey, Hval]|done].
  apply (inv_update S env db db' id n n' ds); try done.
  split; rewrite ?Hkey; try done.
  - lia.
  - lia.
  - rewrite Hd, length_app. unfold n', executed_row. destruct (_ || _); simpl; lia.
  - exists fs. rewrite Hkey, Hval, Hslice. split_and!; [done| |].
    + intros k Hkr. destruct (Hreads k Hkr) as (d & m & Hdl & Hm & <-).
      exists d, m. split_and!; [by apply elem_of_sorted_reads| |done].
      destruct (Hrows d Hdl) as (m' & Hm' & _ & Hlt). simplify_eq. by apply Hother.
    + intros d Hdl. apply (proj1 (elem_of_sorted_reads l d)) in Hdl. destruct (Hrows d Hdl) as (m & Hm & Hans & Hlt).
      destruct Hans as (Hset & Hmv' & Hmfs).
      exists m. rewrite Hkey. split_and!; [by apply Hother|done|done| |done].
      intros Hmi. destruct Hset as [?|[_ Hset]]; [congruence|]. lia.
  - intros _. by rewrite Hval.
Qed.

Lemma stale_row db id n :
  INV db → nodes db !! id = Some n → n_is_input n = false →
  (n_state n = Valid → n_verified_at n ≠ rev db) →
  n_state n = Valid → n_verified_at n < rev db ∧ n_changed_at n ≤ rev db.
Proof using Type.
  intros Hinv Hn Hi Hstale Hv. pose proof (inv_nodes _ _ _ Hinv id n Hn) as Hok.
  unfold node_ok in Hok. rewrite Hi in Hok. destruct (Hok Hv). specialize (Hstale Hv). lia.
Qed.

Lemma execute_good q db id n :
  pull_good pull (rk (n_key n)) → INV db → nodes db !! id = Some n →
  n_is_input n = false → n_key n ∉ inputs S →
  (n_state n = Valid → n_verified_at n ≠ rev db) → above S (rk (n_key n)) db →
  ∃ q' db' x, Db.execute qs cancelled pull q (n_key n) id db = Done (q', db', x) ∧ INV db' ∧
    stack db' = stack db ∧ step S (Datatypes.S (rk (n_key n))) db db' ∧
    (∀ e, x = Err e → was_cancelled) ∧
    ∀ a, x = Ok a → ∃ n', nodes db' !! id = Some n' ∧ n_key n' = n_key n ∧
      answered (rev db) n' ∧ a = Db.answer n'.
Proof using Hqs.
  intros Hpull Hinv Hn Hi Hk Hstale Hab.
  set (db0 := with_stack (cons (MkFrame id [] true)) db).
  assert (INV db0) as Hinv0 by (by eapply inv_irrelevant, Hinv).
  assert (∀ x, x < rk (n_key n) → above S x db0) as Hab0.
  { intros x Hx f [->|Hf]%elem_of_cons; [by exists n|].
    destruct (Hab f Hf) as (m & ? & ?). exists m. split; [done|lia]. }
  destruct (run_good _ _ _ db0 Hpull (wb_follows _ _ Hqs q (n_key n) Hk)
    (wb_rank _ _ Hqs _ Hk) Hinv0 Hab0)
    as (q1 & db1 & o & l & Heq & Hinv1 & Hstep & Hrec & Hc & Ho).
  unfold recorded in Hrec. simpl in Hrec.
  assert (rev db1 = rev db) as Hrev by apply Hstep.
  assert (nodes db1 !! id = Some n) as Hn1 by (eapply (step_row S _ db0); [done..|by right]).
  assert (step S (Datatypes.S (rk (n_key n))) db db1) as Hstep1.
  { eapply step_trans; [by apply (step_refl _ _ db db0)|]. eapply step_weaken, Hstep. lia. }
  destruct o as [v|].
  - destruct (Ho v eq_refl) as (Hrun & Hrows & Hreads).
    change (rev db0) with (rev db) in Hrows. rewrite <- Hrev in Hrows.
    destruct (execute_value _ _ _ _ n _ _ _ _ Heq Hrec Hn1) as (db2 & Heq2 & Hrw & Hst2).
    simpl in Heq2, Hrw. rewrite <- Hrev in Hstale.
    destruct (executed_inv db1 db2 id n v l Hinv1 Hn1 Hi Hk
      (stale_row db1 id n Hinv1 Hn1 Hi Hstale) Hrun Hrows Hreads Hrw) as (Hinv2 & Hans & Hkey).
    destruct Hrw as (Hr2 & Hix2 & Hd2 & Hn2 & Hoth).
    eexists _, db2, _. split_and!; [exact Heq2|done|done| |done|].
    + eapply step_trans; [exact Hstep1|]. split; [done|by eexists|].
      intros j m Hm. destruct (decide (j = id)) as [->|Hne].
      * rewrite Hn1 in Hm. injection Hm as <-. eexists. split_and!; [done|done| |].
        { rewrite Hi. unfold executed_row. by destruct (_ || _). }
        intros [[?|[Hv Hset]]|Hrk]; [congruence| |lia]. by destruct (Hstale Hv).
      * exists m. by rewrite Hoth.
    + intros a [= <-]. eexists. rewrite <- Hrev. done.
  - exists q1, (charge c_cancellations (Db.pop db1)), (Err MkCancelled). split_and!.
    + unfold Db.execute. fold db0. rewrite Heq. simpl. by rewrite Hrec.
    + by eapply inv_irrelevant, Hinv1.
    + simpl. by rewrite Hrec.
    + eapply step_trans; [exact Hstep1|]. by apply step_refl.
    + intros _ _. by apply Hc.
    + done.
Qed.

(** ** Demands *)

Lemma not_on_stack r db id n :
  above S r db → nodes db !! id = Some n → rk (n_key n) ≤ r →
  ∀ f, f ∈ stack db → f_node f ≠ id.
Proof using Type.
  intros Hab Hn Hr f Hf Heq. destruct (Hab f Hf) as (m & Hm & ?).
  rewrite Heq in Hm. simplify_eq. lia.
Qed.

Lemma on_stack_false r db id n :
  above S r db → nodes db !! id = Some n → rk (n_key n) ≤ r → Db.on_stack id db = false.
Proof using Type.
  intros Hab Hn Hr. unfold Db.on_stack. apply not_true_is_false. intros He.
  apply existsb_exists in He as (f & Hf%list_elem_of_In & Heq%Nat.eqb_eq).
  by eapply not_on_stack.
Qed.

Lemma attribute_read_spec r (attribute : bool) db id n :
  above S r db → nodes db !! id = Some n → rk (n_key n) ≤ r →
  recorded (if attribute then [id] else []) db (Db.attribute_read attribute id db).
Proof using Type.
  intros Hab Hn Hr. pose proof (not_on_stack _ _ _ _ Hab Hn Hr) as Hns.
  unfold Db.attribute_read, recorded. simpl. destruct (stack db) as [|f st]; [done|].
  assert ((f_node f =? id) = false) as -> by (apply Nat.eqb_neq, Hns; by left).
  destruct f as [nd ds a], attribute, a; simpl; rewrite ?app_nil_r; done.
Qed.

Lemma recorded_same_stack l db db1 db2 :
  recorded l db db1 → stack db2 = stack db1 → recorded l db db2.
Proof using Type. unfold recorded. intros H ->. done. Qed.
End walk.

(** What [pull] does once the key is interned and the read attributed. *)
Lemma pull_interned fuel q key id db n :
  pull_good (Db.pull qs cancelled fuel) (rk key) → INV db → nodes db !! id = Some n →
  n_key n = key → above S (rk key) db →
  ∃ q' db' x,
    (if n_is_input n then
       let db := charge c_input_reads db in
       if bool_decide (n_state n = Valid) then Done (q, db, Ok (Db.answer n)) else Panic
     else if bool_decide (n_state n = Valid) && (n_verified_at n =? rev db) then
       Done (q, charge c_memo_hits db, Ok (Db.answer n))
     else if Db.on_stack id db then
       let db := charge c_cycles db in
       cycle ← Db.cycle_report id key db;
       let '(q, v) := on_cycle qs q key cycle in
       Done (q, db, Ok (MkAnswer v (rev db)))
     else
       '(q, db, ok) ← Db.verify (Db.pull qs cancelled fuel) q id db;
       match ok with
       | Err c => Done (q, db, Err c)
       | Ok true => n ← Db.node db id; Done (q, db, Ok (Db.answer n))
       | Ok false => Db.execute qs cancelled (Db.pull qs cancelled fuel) q key id db
       end) = Done (q', db', x) ∧
    INV db' ∧ stack db' = stack db ∧ step S (Datatypes.S (rk key)) db db' ∧
    (∀ e, x = Err e → was_cancelled) ∧
    ∀ a, x = Ok a → ∃ n', nodes db' !! id = Some n' ∧ n_key n' = key ∧
      answered (rev db) n' ∧ a = Db.answer n'.
Proof using Hqs Henv.
  intros Hpull Hinv Hn <- Hab.
  destruct (n_is_input n) eqn:Hi.
  { assert (answered (rev db) n) as Hans by (eapply settled_answered; [done..|by left]).
    pose proof Hans as (_ & Hv & _). rewrite bool_decide_true by done. simpl.
    eexists _, _, _. split_and!; [done|by eapply inv_irrelevant, Hinv|done| |done|].
    - by apply step_refl.
    - intros a [= <-]. by exists n. }
  destruct (bool_decide (n_state n = Valid) && (n_verified_at n =? rev db)) eqn:Hmemo.
  { apply andb_prop in Hmemo as [Hv%bool_decide_eq_true Hr%Nat.eqb_eq].
    assert (answered (rev db) n) as Hans by (eapply settled_answered; [done..|by right]).
    eexists _, _, _. split_and!; [done|by eapply inv_irrelevant, Hinv|done| |done|].
    - by apply step_refl.
    - intros a [= <-]. by exists n. }
  assert (n_state n = Valid → n_verified_at n ≠ rev db) as Hstale.
  { intros Hv Hr. rewrite bool_decide_true, Hr, Nat.eqb_refl in Hmemo; done. }
  rewrite (on_stack_false _ _ _ _ Hab Hn) by done.
  destruct (verify_good _ q db id n Hpull Hinv Hn Hi Hstale Hab)
    as (q1 & db1 & x & Heq & Hinv1 & Hst1 & Hstep1 & Hgreen & Hred & Hc).
  rewrite Heq. simpl. destruct x as [[|]|c].
  - destruct (Hgreen eq_refl) as (n' & Hn' & Hk' & Hans). unfold Db.node. rewrite Hn'. simpl.
    eexists _, _, _. split_and!; [done..|]. intros a [= <-]. by exists n'.
  - specialize (Hred eq_refl). assert (rev db1 = rev db) as Hrev by apply Hstep1.
    assert (n_key n ∉ inputs S) as Hk.
    { intros Hin. destruct (inv_env _ _ _ Hinv _ (Henv _ Hin)) as (_ & j & m & Hm & Hmk & Hmi).
      pose proof (row_key_unique _ _ _ _ _ _ _ Hinv Hn Hm ltac:(congruence)). congruence. }
    destruct (execute_good _ q1 db1 id n Hpull Hinv1 Hred Hi Hk) as
      (q2 & db2 & x & Heq2 & Hinv2 & Hst2 & Hstep2 & Hc2 & Hx); [by rewrite Hrev| |].
    { by eapply above_step. }
    exists q2, db2, x. split_and!; [done|done|congruence|by eapply step_trans|done|].
    by rewrite Hrev in Hx.
  - eexists _, _, _. split_and!; [done..| |done]. intros e _. by apply (Hc c).
Qed.

Theorem pull_is_good fuel : pull_good (Db.pull qs cancelled fuel) fuel.
Proof using Hqs Henv.
  induction fuel as [|fuel IH]; intros q db key attribute Hr Hinv Hab; [lia|].
  assert (pull_good (Db.pull qs cancelled fuel) (rk key)) as Hpull.
  { intros q' db' k' a' Hk'. apply IH. lia. }
  simpl. unfold Db.pull_body.
  destruct (Db.is_cancelled cancelled db) as [c db0] eqn:Hc.
  destruct (is_cancelled_inv _ _ _ Hc Hinv) as (Hinv0 & Hstep0 & Hst0 & Hrev0 & Hnd0).
  destruct c.
  { eexists _, _, _. split; [done|]. split; [by eapply inv_irrelevant, Hinv0|].
    split; [eapply step_trans; [done|by apply step_refl]|].
    split; [by injection Hc as Hc _; exists (polls db)|].
    exists []. by apply recorded_nil. }
  destruct (Db.intern key db0) as [id db1] eqn:Hint.
  destruct (intern_spec S env _ _ _ _ Hinv0 Hint)
    as (Hinv1 & Hrev1 & _ & Hst1 & Hstep1 & _ & n & Hn & Hkey & _).
  set (db2 := Db.attribute_read attribute id (charge c_probes db1)).
  assert (step S (Datatypes.S (rk key)) db db2) as Hstep2.
  { eapply step_trans; [by apply Hstep0|]. eapply step_trans; [by apply Hstep1|].
    by apply step_refl. }
  assert (above S (rk key) (charge c_probes db1)) as Hab1.
  { apply (above_step S _ 0 db); [|simpl; congruence|done].
    eapply step_trans; [by apply Hstep0|]. eapply step_trans; [by apply Hstep1|].
    by apply step_refl. }
  assert (recorded (if attribute then [id] else []) db db2) as Hrec.
  { pose proof (attribute_read_spec _ attribute _ id n Hab1 Hn ltac:(by rewrite Hkey)) as H.
    unfold recorded in H |- *. change (stack (charge c_probes db1)) with (stack db1) in H.
    rewrite Hst1, Hst0 in H. exact H. }
  assert (INV db2) as Hinv2 by (by apply (inv_irrelevant S env db1 db2)).
  assert (above S (rk key) db2) as Hab2 by (exact (above_recorded S _ _ _ _ _ Hstep2 Hrec Hab)).
  assert (nodes db2 !! id = Some n) as Hn2 by done.
  assert (Db.node db2 id = Done n) as Hnode by (unfold Db.node; by rewrite Hn2).
  cbv beta iota zeta. change (Db.attribute_read attribute id (charge c_probes db1)) with db2.
  rewrite Hnode.
  destruct (pull_interned fuel q key id db2 n Hpull Hinv2 Hn2 Hkey Hab2)
    as (q3 & db3 & x & Heq & Hinv3 & Hst3 & Hstep3 & Hc3 & Hx).
  exists q3, db3, x. split; [exact Heq|]. split; [done|]. split; [by eapply step_trans|].
  destruct x as [a|e].
  - destruct (Hx a eq_refl) as (n' & Hn' & Hk' & Hans & ->).
    exists id, n'. split_and!; [done|done| |done|by eapply recorded_same_stack].
    assert (rev db2 = rev db) as <- by apply Hstep2. done.
  - split; [by apply (Hc3 e)|]. eexists. by eapply recorded_same_stack.
Qed.
End correct.
