(* ===== verification/QueryOps.v ===== *)
(** * The other operations, and whole sessions

    [set_input], [is_red], [compact] and [open_window] keep the invariant; a
    session is any sequence of operations from an empty database. *)

From S2P Require Import Prelude QueryKey QueryDb QueryInv QueryCorrect.
Local Open Scope nat_scope.

Section ops.
Context (S : query_spec).
Context (Hrank : ∀ k, k ∉ inputs S → body_below (rank S) (rank S k) (body_of S k)).
Implicit Types (env : gmap QueryKey ValueHash) (db : Db) (n m : Node) (k : QueryKey).

(** ** [set_input] *)

Lemma new_inv : inv S ∅ Db.new.
Proof using Type.
  split; simpl.
  - intros k id. rewrite lookup_empty. split; [done|by intros (n & ? & _)].
  - done.
  - intros k [v Hv]. by rewrite lookup_empty in Hv.
  - done.
Qed.

(** The row of an input after a write. *)
Definition written_row (v : ValueHash) (r : nat) (n : Node) : Node :=
  set_valid (stamp_verified r (set_value v r (set_is_input n))).

Lemma write_inv env db db' id n v :
  inv S env db → nodes db !! id = Some n → n_key n ∈ inputs S →
  rev db' = Datatypes.S (rev db) → index db' = index db → deps db' = deps db →
  nodes db' !! id = Some (written_row v (rev db') n) →
  (∀ j, j ≠ id → nodes db' !! j = nodes db !! j) →
  inv S (<[n_key n := v]> env) db'.
Proof using Type.
  intros Hinv Hn Hk Hr Hi Hd Hn' Hoth.
  assert (∀ j m, nodes db !! j = Some m → j ≠ id → n_key m ≠ n_key n) as Hne.
  { intros j m Hm Hj Heq. apply Hj. by eapply row_key_unique. }
  split.
  - intros k j. rewrite Hi, (inv_index _ _ _ Hinv).
    destruct (decide (j = id)) as [->|Hj]; [|by rewrite Hoth].
    rewrite Hn, Hn'. split; intros (m & [= <-] & <-); by eexists.
  - intros j m Hm. unfold node_ok. destruct (decide (j = id)) as [->|Hj].
    { rewrite Hn' in Hm. injection Hm as <-. simpl.
      split; simpl; [done|done|by rewrite lookup_insert_eq|done]. }
    rewrite Hoth in Hm by done. pose proof (inv_nodes _ _ _ Hinv j m Hm) as Hok.
    unfold node_ok in Hok. destruct (n_is_input m) eqn:Hmi.
    + destruct Hok. split; try done; [|lia].
      rewrite lookup_insert_ne; [done|]. intros Heq. by apply (Hne j m).
    + intros Hv. destruct (Hok Hv) as [H1 H2 H3 H4 H5 H6]. rewrite Hd.
      split; try done; [lia| |lia].
      destruct H5 as (σ & Hrun & Hreads & Hdeps). exists σ. split_and!; [done| |].
      * intros k Hkr. destruct (Hreads k Hkr) as (d & m' & ? & Hm' & Hmk).
        destruct (decide (d = id)) as [->|Hd']; [|exists d, m'; by rewrite Hoth].
        exists id. eexists. split_and!; [done|done|]. simpl. congruence.
      * intros d Hdl. destruct (Hdeps d Hdl) as (m' & Hm' & Hmv & Hmr & Hmver & Hmσ).
        destruct (decide (d = id)) as [->|Hd'].
        -- rewrite Hn in Hm'. injection Hm' as <-. eexists. split; [done|]. simpl.
           split_and!; [done|done|done|lia].
        -- exists m'. by rewrite Hoth.
  - intros k Hks. destruct (decide (k = n_key n)) as [->|Hkn].
    + split; [done|]. exists id. eexists. split_and!; [done|done|done].
    + rewrite lookup_insert_ne in Hks by done.
      destruct (inv_env _ _ _ Hinv k Hks) as (? & j & m & Hm & ? & ?).
      split; [done|]. exists j, m. rewrite Hoth; [done|]. intros ->. congruence.
  - intros j m Hm. rewrite Hd. destruct (decide (j = id)) as [->|Hj].
    + rewrite Hn' in Hm. injection Hm as <-. simpl. by apply (inv_range _ _ _ Hinv id n).
    + rewrite Hoth in Hm by done. by apply (inv_range _ _ _ Hinv j m).
Qed.

Lemma list_alter_same {A} (f : A → A) (l : list A) i x :
  l !! i = Some x → f x = x → alter f i l = l.
Proof using Type.
  intros Hx Hf. apply list_eq. intros j. destruct (decide (j = i)) as [->|].
  - by rewrite list_lookup_alter_eq, Hx; simpl; rewrite Hf.
  - by rewrite list_lookup_alter_ne.
Qed.

(** What [set_input] does: nothing but interning when the input already has
    the value, and a new revision otherwise. *)
Lemma set_input_spec env db k v :
  inv S env db → k ∈ inputs S →
  ∃ db' b, Db.set_input k v db = Done (db', b) ∧ inv S (<[k := v]> env) db' ∧
    stack db' = stack db ∧ executed db' = executed db ∧
    b = bool_decide (env !! k ≠ Some v) ∧
    rev db' = (if b then Datatypes.S (rev db) else rev db) ∧
    (b = false → nodes db' = nodes db ∧ deps db' = deps db ∧ index db' = index db).
Proof using Type.
  intros Hinv Hk. unfold Db.set_input. destruct (Db.intern k db) as [id db1] eqn:Hint.
  destruct (intern_spec S env _ _ _ _ Hinv Hint)
    as (Hinv1 & Hr1 & Hd1 & Hst1 & _ & Hix1 & n & Hn & Hkey & Hnew). subst k.
  assert (executed db1 = executed db) as Hex1.
  { unfold Db.intern in Hint. by destruct (index db !! _); injection Hint as <- <-. }
  unfold Db.node. rewrite Hn. cbn [mbind res_bind].
  pose proof (inv_nodes _ _ _ Hinv1 id n Hn) as Hok. unfold node_ok in Hok.
  destruct (n_is_input n) eqn:Hi.
  - destruct Hok as [_ Hv He Hc]. rewrite bool_decide_true by done. simpl.
    destruct Hnew as [Hold|(_ & Hem & _)]; [|congruence].
    assert (id = id ∧ db1 = db) as [_ ->].
    { unfold Db.intern in Hint.
      assert (index db !! n_key n = Some id) as Hid by (apply (inv_index _ _ _ Hinv); eauto).
      rewrite Hid in Hint. by injection Hint as <-. }
    assert (set_is_input n = n) as Hsame by (destruct n; simpl in *; by subst).
    destruct (Z.eqb_spec (n_value n) v) as [<-|Hne]; simpl.
    + eexists _, false. split_and!; try done.
      * rewrite insert_id by done. eapply inv_irrelevant, Hinv; try done.
        simpl. by eapply list_alter_same.
      * by rewrite bool_decide_false by (by intros []).
      * intros _. simpl. split_and!; [by eapply list_alter_same|done|done].
    + eexists _, true. split_and!; try done.
      * eapply (write_inv env db _ id n v); try done; simpl.
        -- by rewrite !list_lookup_alter_eq, Hn.
        -- intros j Hj. by rewrite !list_lookup_alter_ne.
      * rewrite bool_decide_true; [done|]. intros Heq. congruence.
  - assert (n_state n ≠ Valid) as Hv.
    { intros Hv. by destruct (Hok Hv). }
    rewrite bool_decide_false by done. simpl.
    eexists _, true. split_and!; try done.
    + eapply (write_inv env db1 _ id n v); try done; simpl.
      * by rewrite !list_lookup_alter_eq, Hn.
      * intros j Hj. by rewrite !list_lookup_alter_ne.
    + rewrite bool_decide_true; [done|]. intros Heq.
      destruct (inv_env _ _ _ Hinv1 (n_key n) ltac:(eauto)) as (_ & j & m & Hm & Hmk & Hmi).
      pose proof (row_key_unique _ _ _ _ _ _ _ Hinv1 Hm Hn Hmk) as ->. congruence.
    + simpl. congruence.
Qed.

(** ** [compact] *)

Lemma length_dep_slice ds n :
  n_dep_start n + n_dep_len n ≤ length ds → length (Db.dep_slice ds n) = n_dep_len n.
Proof using Type. intros H. unfold Db.dep_slice. rewrite length_take, length_drop. lia. Qed.

Definition in_range (ds : list nat) (n : Node) : Prop :=
  n_dep_start n + n_dep_len n ≤ length ds.

Lemma dep_range_ok ds n : in_range ds n → Db.dep_range ds n = Done (Db.dep_slice ds n).
Proof using Type. intros H. unfold Db.dep_range. by rewrite (proj2 (Nat.leb_le _ _) H). Qed.

Lemma mapM_keys_ext (f g : nat → res QueryKey) (l : list nat) :
  (∀ d, f d = g d) → mapM f l = mapM g l.
Proof using Type. intros H. induction l as [|d l IH]; simpl; [done|]. by rewrite H, IH. Qed.

Lemma compact_rows_spec ds fresh ns :
  Forall (in_range ds) ns →
  ∃ fresh' ns', Db.compact_rows ds fresh ns = Done (fresh', ns') ∧
  (∃ e, fresh' = fresh ++ e) ∧
  length fresh' = length fresh + sum_list (n_dep_len <$> ns) ∧
  Forall2 (λ n n', ∃ st, n' = set_deps st (n_dep_len n) n ∧ in_range fresh' n' ∧
                          Db.dep_slice fresh' n' = Db.dep_slice ds n) ns ns'.
Proof using Type.
  revert fresh. induction ns as [|n ns IH]; intros fresh Hr; cbn [Db.compact_rows].
  { eexists _, _. split_and!; [done|exists []; by rewrite app_nil_r|simpl; lia|constructor]. }
  apply Forall_cons in Hr as [Hn Hns]. rewrite (dep_range_ok ds n Hn). cbn [mbind res_bind].
  destruct (IH (fresh ++ Db.dep_slice ds n) Hns) as (fr & ns' & -> & [e ->] & Hlen & Hall).
  eexists _, _.
  pose proof (length_dep_slice ds n Hn) as Hl. rewrite !length_app in Hlen.
  split_and!; [done| | |].
  - exists (Db.dep_slice ds n ++ e). by rewrite app_assoc.
  - change (sum_list (n_dep_len <$> n :: ns)) with (n_dep_len n + sum_list (n_dep_len <$> ns)).
    rewrite !length_app. lia.
  - constructor; [|done]. exists (length fresh). split_and!; [done| |].
    + unfold in_range. simpl. rewrite !length_app. lia.
    + unfold Db.dep_slice at 1. simpl.
      rewrite <- app_assoc, drop_app_length, <- Hl, take_app_length. done.
Qed.

Lemma snapshot_ok_rows ns ns' ds ds' n n' :
  (∀ d m, ns !! d = Some m → ∃ m', ns' !! d = Some m' ∧ n_key m' = n_key m ∧
     n_value m' = n_value m ∧ n_state m' = n_state m ∧ n_is_input m' = n_is_input m ∧
     n_verified_at m' = n_verified_at m ∧ n_changed_at m' = n_changed_at m) →
  n_key n' = n_key n → n_value n' = n_value n → n_verified_at n' = n_verified_at n →
  Db.dep_slice ds' n' = Db.dep_slice ds n →
  snapshot_ok S ns ds n → snapshot_ok S ns' ds' n'.
Proof using Type.
  intros Hns Hk Hv Hver Hsl (σ & Hrun & Hreads & Hdeps). exists σ. rewrite Hk, Hv, Hsl.
  split_and!; [done| |].
  - intros k Hkr. destruct (Hreads k Hkr) as (d & m & ? & Hm & ?).
    destruct (Hns _ _ Hm) as (m' & ? & ? & _). exists d, m'. split_and!; congruence || done.
  - intros d Hd. destruct (Hdeps d Hd) as (m & Hm & ? & ? & ? & ?).
    destruct (Hns _ _ Hm) as (m' & ? & Hkm & Hvm & Hsm & Him & Hverm & Hchm).
    exists m'. rewrite Hk, Hver, Hkm, Hvm, Hsm, Him, Hverm, Hchm. done.
Qed.

Lemma compact_spec env db :
  inv S env db → stack db = [] →
  ∃ db', Db.compact db = Done db' ∧ inv S env db' ∧ stack db' = [] ∧ rev db' = rev db ∧
    length (deps db') = sum_list (n_dep_len <$> nodes db') ∧
    ∀ k, Db.deps_of db' k = Db.deps_of db k ∧ Db.value_of db' k = Db.value_of db k.
Proof using Type.
  intros Hinv Hst. unfold Db.compact. rewrite Hst.
  assert (Forall (in_range (deps db)) (nodes db)) as Hrange.
  { apply Forall_lookup. intros i n. apply (inv_range _ _ _ Hinv). }
  destruct (compact_rows_spec (deps db) [] (nodes db) Hrange) as (fr & ns' & -> & _ & Hlen & Hall).
  simpl.
  assert (∀ d m, nodes db !! d = Some m → ∃ st,
    ns' !! d = Some (set_deps st (n_dep_len m) m) ∧
    in_range fr (set_deps st (n_dep_len m) m) ∧
    Db.dep_slice fr (set_deps st (n_dep_len m) m) = Db.dep_slice (deps db) m) as Hfwd.
  { intros d m Hm. destruct (Forall2_lookup_l _ _ _ _ _ Hall Hm) as (m' & Hm' & st & -> & ? & ?).
    exists st. done. }
  assert (∀ d m', ns' !! d = Some m' → ∃ m st, nodes db !! d = Some m ∧
    m' = set_deps st (n_dep_len m) m ∧ in_range fr m' ∧
    Db.dep_slice fr m' = Db.dep_slice (deps db) m) as Hbwd.
  { intros d m' Hm'. destruct (Forall2_lookup_r _ _ _ _ _ Hall Hm') as (m & Hm & st & -> & ? & ?).
    exists m, st. done. }
  eexists. split; [done|]. split_and!; try done.
  - split; simpl.
    + intros k id. rewrite (inv_index _ _ _ Hinv). split.
      * intros (n & Hn & <-). destruct (Hfwd _ _ Hn) as (st & ? & _). by eexists.
      * intros (n' & Hn' & <-). destruct (Hbwd _ _ Hn') as (n & st & ? & -> & _). by eexists.
    + intros id n' Hn'. destruct (Hbwd _ _ Hn') as (n & st & Hn & Heq & Hr' & Hsl).
      pose proof (inv_nodes _ _ _ Hinv id n Hn) as Hok. unfold node_ok in *.
      rewrite Heq in *. simpl in *. destruct (n_is_input n); [by destruct Hok|].
      intros Hv. destruct (Hok Hv). split; try done.
      apply (snapshot_ok_rows (nodes db) ns' (deps db) fr n); [|done..].
      intros d m Hm. destruct (Hfwd _ _ Hm) as (st' & ? & _). by eexists.
    + intros k Hk. destruct (inv_env _ _ _ Hinv k Hk) as (? & id & n & Hn & ? & ?).
      split; [done|]. destruct (Hfwd _ _ Hn) as (st & ? & _). eexists id, _. done.
    + intros id n' Hn'. by destruct (Hbwd _ _ Hn') as (_ & _ & _ & _ & Hr' & _).
  - assert (n_dep_len <$> nodes db = n_dep_len <$> ns') as Heq.
    { clear -Hall. induction Hall as [|n n' ns ns' (st & -> & _) _ IH]; [done|].
      rewrite !fmap_cons, IH. done. }
    change (length fr = sum_list (n_dep_len <$> ns')). by rewrite Hlen, Heq.
  - intros k. unfold Db.deps_of, Db.value_of, Db.row. simpl.
    destruct (index db !! k) as [id|]; simpl; [|done].
    destruct (nodes db !! id) as [n|] eqn:Hn.
    + destruct (Hfwd _ _ Hn) as (st & Hn' & Hr' & Hsl). rewrite Hn'. split; [|done].
      rewrite (dep_range_ok _ n) by exact (inv_range _ _ _ Hinv _ _ Hn).
      rewrite (dep_range_ok _ _ Hr'), Hsl. simpl.
      apply mapM_keys_ext. intros d. unfold Db.key_at, Db.node. simpl.
      destruct (nodes db !! d) as [m|] eqn:Hm.
      * by destruct (Hfwd _ _ Hm) as (st' & -> & _).
      * destruct (ns' !! d) as [m'|] eqn:Hm'; [|done].
        destruct (Hbwd _ _ Hm') as (m & _ & ? & _). congruence.
    + destruct (ns' !! id) as [m'|] eqn:Hm'; [|done].
      destruct (Hbwd _ _ Hm') as (m & _ & ? & _). congruence.
Qed.
End ops.

(** ** Sessions *)

Inductive op : Type :=
  | OSetInput (k : QueryKey) (v : ValueHash)
  | ODemand (k : QueryKey)
  | OIsRed (k : QueryKey)
  | OOpenWindow
  | OCompact.

Section sessions.
Context {Q : Type} (qs : Queries Q) (cancelled : nat → bool).

Definition do_op (fuel : nat) (o : op) (q : Q) (db : Db) : res (Q * Db) :=
  match o with
  | OSetInput k v => '(db, _) ← Db.set_input k v db; Done (q, db)
  | ODemand k => '(q, db, _) ← Db.demand qs cancelled fuel q db k; Done (q, db)
  | OIsRed k => '(q, db, _) ← Db.is_red qs cancelled fuel q db k; Done (q, db)
  | OOpenWindow => Done (q, Db.open_window db)
  | OCompact => db ← Db.compact db; Done (q, db)
  end.

Fixpoint do_ops (fuel : nat) (os : list op) (q : Q) (db : Db) : res (Q * Db) :=
  match os with
  | [] => Done (q, db)
  | o :: os => '(q, db) ← do_op fuel o q db; do_ops fuel os q db
  end.

(** The inputs written. *)
Definition env_op (env : gmap QueryKey ValueHash) (o : op) : gmap QueryKey ValueHash :=
  match o with OSetInput k v => <[k := v]> env | _ => env end.
Definition env_after : gmap QueryKey ValueHash → list op → gmap QueryKey ValueHash :=
  foldl env_op.

Context (S : query_spec).

(** Inputs are written to input keys only, and all of them before a demand,
    whose rank the fuel exceeds. *)
Definition op_ok (fuel : nat) (env : gmap QueryKey ValueHash) (o : op) : Prop :=
  match o with
  | OSetInput k _ => k ∈ inputs S
  | ODemand k | OIsRed k => inputs S ⊆ dom env ∧ rank S k < fuel
  | OOpenWindow | OCompact => True
  end.
Fixpoint session_ok (fuel : nat) (env : gmap QueryKey ValueHash) (os : list op) : Prop :=
  match os with
  | [] => True
  | o :: os => op_ok fuel env o ∧ session_ok fuel (env_op env o) os
  end.

Context (Hqs : well_behaved qs S).

Lemma inputs_set (env : gmap QueryKey ValueHash) : inputs S ⊆ dom env → ∀ k, k ∈ inputs S → is_Some (env !! k).
Proof using Type. intros H k Hk. by apply elem_of_dom, H. Qed.

Lemma above_empty r db : stack db = [] → above S r db.
Proof using Type. intros H f Hf. rewrite H in Hf. by apply not_elem_of_nil in Hf. Qed.

(** A demand outside any query. *)
Lemma demand_good (env : gmap QueryKey ValueHash) fuel q db k :
  inv S env db → stack db = [] → inputs S ⊆ dom env → rank S k < fuel →
  ∃ q' db' x, Db.demand qs cancelled fuel q db k = Done (q', db', x) ∧
    inv S env db' ∧ stack db' = [] ∧
    (∀ e, x = Err e → was_cancelled cancelled) ∧
    (∀ v, x = Ok v → from_scratch S env k = Some v ∧
       ∃ id n, nodes db' !! id = Some n ∧ n_key n = k ∧ answered S env (rev db') n).
Proof using Hqs.
  intros Hinv Hst He Hk.
  destruct (pull_is_good qs cancelled S Hqs env (inputs_set _ He) fuel q db k true Hk Hinv
    (above_empty _ _ Hst)) as (q' & db' & x & Heq & Hinv' & Hstep & Hx).
  unfold Db.demand. rewrite Heq. simpl. eexists q', db', _. split; [done|].
  assert (∀ l, recorded l db db' → stack db' = []) as Hrec
    by (intros l; unfold recorded; by rewrite Hst).
  destruct x as [a|e]; simpl.
  - destruct Hx as (id & n & Hn & Hnk & Hans & -> & Hr). split_and!; [done|by eapply Hrec|done|].
    intros v [= <-]. pose proof Hans as (_ & _ & Hfs). rewrite Hnk in Hfs. split; [done|].
    exists id, n. by rewrite (st_rev _ _ _ _ Hstep).
  - destruct Hx as (Hc & l & Hr). split_and!; [done|by eapply Hrec|by intros|done].
Qed.

(** The planning probe: a key reported green holds its from-scratch answer;
    one reported red does not hold an answer for this revision. *)
Lemma is_red_good (env : gmap QueryKey ValueHash) fuel q db k :
  inv S env db → stack db = [] → inputs S ⊆ dom env → rank S k < fuel →
  ∃ q' db' x, Db.is_red qs cancelled fuel q db k = Done (q', db', x) ∧
    inv S env db' ∧ stack db' = [] ∧
    (∀ e, x = Err e → was_cancelled cancelled) ∧
    ∀ b, x = Ok b → ∃ id n, nodes db' !! id = Some n ∧ n_key n = k ∧
      if b then ¬ settled (rev db') n else answered S env (rev db') n.
Proof using Hqs.
  intros Hinv Hst He Hk. unfold Db.is_red.
  destruct (Db.is_cancelled cancelled db) as [c db0] eqn:Hc.
  destruct (is_cancelled_inv cancelled S env _ _ _ Hc Hinv) as (Hinv0 & Hstep0 & Hst0 & _ & _).
  destruct c.
  { eexists _, _, _. split; [done|]. split; [by eapply inv_irrelevant, Hinv0|].
    split; [simpl; congruence|]. split; [|done].
    intros _ _. injection Hc as Hc _. by exists (polls db). }
  destruct (Db.intern k db0) as [id db1] eqn:Hint.
  destruct (intern_spec S env _ _ _ _ Hinv0 Hint)
    as (Hinv1 & Hrev1 & _ & Hst1 & Hstep1 & _ & n & Hn & <- & _).
  set (db2 := charge c_probes db1).
  assert (inv S env db2) as Hinv2 by (by apply (inv_irrelevant S env db1)).
  assert (stack db2 = []) as Hst2 by (simpl; congruence).
  assert (nodes db2 !! id = Some n) as Hn2 by done.
  assert (Db.node db2 id = Done n) as Hnode by (unfold Db.node; by rewrite Hn2).
  cbv beta iota zeta. rewrite Hnode. cbn [mbind res_bind].
  destruct (n_is_input n) eqn:Hi.
  { eexists _, _, _. split; [done|]. split_and!; try done. intros b [= <-].
    exists id, n. split_and!; [done|done|]. eapply (settled_answered _ _ db2); [done..|by left]. }
  destruct (bool_decide (n_state n = Valid) && (n_verified_at n =? rev db2)) eqn:Hmemo.
  { apply andb_prop in Hmemo as [Hv%bool_decide_eq_true Hr%Nat.eqb_eq].
    eexists _, _, _. split; [done|]. split; [by eapply inv_irrelevant, Hinv2|].
    split_and!; [done|done|]. intros b [= <-].
    exists id, n. split_and!; [done|done|]. eapply (settled_answered _ _ db2); [done..|by right]. }
  assert (n_state n = Valid → n_verified_at n ≠ rev db2) as Hstale.
  { intros Hv Hr. rewrite bool_decide_true, Hr, Nat.eqb_refl in Hmemo; done. }
  assert (Db.on_stack id db2 = false) as -> by (unfold Db.on_stack; by rewrite Hst2).
  assert (pull_good cancelled S env (Db.pull qs cancelled fuel) (rank S (n_key n))) as Hpull.
  { intros q' db' k' a Hk'. apply pull_is_good; [done|by apply inputs_set|lia]. }
  destruct (verify_good qs cancelled S Hqs env _ q db2 id n Hpull Hinv2 Hn2 Hi Hstale
    (above_empty _ _ Hst2)) as (q3 & db3 & x & Heq & Hinv3 & Hst3 & Hstep3 & Hgreen & Hred & Hc3).
  rewrite Heq. cbn [mbind res_bind]. eexists _, _, _. split; [done|].
  split_and!; [done|congruence| |].
  - intros e. destruct x as [b|e']; [done|]. intros _. by apply (Hc3 e').
  - intros b. destruct x as [b'|e']; [|done]. simpl. intros [= <-].
    rewrite (st_rev _ _ _ _ Hstep3). destruct b'; simpl.
    + destruct (Hgreen eq_refl) as (n' & ? & ? & ?). by exists id, n'.
    + exists id, n. split_and!; [by apply Hred|done|].
      intros [?|[? ?]]; [congruence|by apply Hstale].
Qed.

Lemma do_op_good (env : gmap QueryKey ValueHash) fuel o q db :
  inv S env db → stack db = [] → op_ok fuel env o →
  ∃ q' db', do_op fuel o q db = Done (q', db') ∧ inv S (env_op env o) db' ∧ stack db' = [].
Proof using Hqs.
  intros Hinv Hst Hok. destruct o as [k v|k|k| |]; simpl in *.
  - destruct (set_input_spec S env db k v Hinv Hok)
      as (db' & b & -> & Hinv' & Hst' & _). exists q, db'. simpl. by rewrite Hst'.
  - destruct Hok as [He Hk].
    destruct (demand_good env fuel q db k Hinv Hst He Hk) as (q' & db' & x & -> & ? & ? & _).
    by exists q', db'.
  - destruct Hok as [He Hk].
    destruct (is_red_good env fuel q db k Hinv Hst He Hk) as (q' & db' & x & -> & ? & ? & _).
    by exists q', db'.
  - exists q, (Db.open_window db). split_and!; [done| |done]. by eapply inv_irrelevant, Hinv.
  - destruct (compact_spec S env db Hinv Hst) as (db' & -> & ? & ? & _). by exists q, db'.
Qed.

Lemma do_ops_good (env : gmap QueryKey ValueHash) fuel os q db :
  inv S env db → stack db = [] → session_ok fuel env os →
  ∃ q' db', do_ops fuel os q db = Done (q', db') ∧ inv S (env_after env os) db' ∧ stack db' = [].
Proof using Hqs.
  revert env q db. induction os as [|o os IH]; intros env q db Hinv Hst Hok; simpl in *.
  { by exists q, db. }
  destruct Hok as [Ho Hos].
  destruct (do_op_good env fuel o q db Hinv Hst Ho) as (q' & db' & -> & Hinv' & Hst').
  simpl. by apply IH.
Qed.
End sessions.
