(* ===== verification/QueryProps.v ===== *)
(** * What the query engine guarantees

    The end-to-end statements about [fors-query], a query set that meets their
    hypotheses (the synthetic one of the crate's tests), and the behaviours
    that differ from what the crate's documentation says. *)

From S2P Require Import Prelude QueryKey QueryDb QueryInv QueryCorrect QueryOps.
Local Open Scope nat_scope.

(** ** Guarantees *)

(** C2: incremental answers are from-scratch answers, for a query set without
    cycles whose computations are pure: every derived key has a body, a sequence
    of reads each depending only on the values read before it, which its
    [compute] follows whatever the state of the query set (ending cancelled when
    a read is), and the body reads only keys of a smaller rank ([well_behaved]).
    After a session of input writes (to input keys), demands, probes and
    compactions from an empty database, in which no key is demanded or probed
    before every input of the set is written ([session_ok]), a demand made when
    all inputs are written ends without panicking; what it returns is the answer
    the inputs determine; and it returns an answer unless the cancellation flag
    was raised. Any fuel above the ranks demanded is enough. *)
Theorem session_demand_from_scratch {Q} (qs : Queries Q) (cancelled : nat → bool)
    (S : query_spec) (fuel : nat) (os : list op) (q : Q) (k : QueryKey) :
  well_behaved qs S → session_ok S fuel ∅ os →
  inputs S ⊆ dom (env_after ∅ os) → rank S k < fuel →
  ∃ q1 db1 q2 db2 x,
    do_ops qs cancelled fuel os q Db.new = Done (q1, db1) ∧
    Db.demand qs cancelled fuel q1 db1 k = Done (q2, db2, x) ∧
    (∀ v, x = Ok v → from_scratch S (env_after ∅ os) k = Some v) ∧
    ((∀ i, cancelled i = false) → ∃ v, x = Ok v).
Proof.
  intros Hqs Hok He Hk.
  destruct (do_ops_good qs cancelled S Hqs ∅ fuel os q Db.new (new_inv S) eq_refl Hok)
    as (q1 & db1 & H1 & Hinv & Hst).
  destruct (demand_good qs cancelled S Hqs _ fuel q1 db1 k Hinv Hst He Hk)
    as (q2 & db2 & x & H2 & _ & _ & Hc & Hv).
  exists q1, db1, q2, db2, x. split_and!; [done|done|by intros v Hx; apply Hv|].
  intros Hno. destruct x as [v|e]; [by exists v|].
  destruct (Hc e eq_refl) as [i Hi]. by rewrite Hno in Hi.
Qed.

(** C38: the planning probe is right, for a query set without cycles whose
    computations are pure ([well_behaved]: each [compute] follows a body of
    reads that go down in rank). After a session of input writes, demands,
    probes and compactions from an empty database, in which every input of the
    set is written before the first demand or probe ([session_ok]), [is_red]
    ends without panicking; a key it reports green has a row that is settled for
    this revision and holds the answer the inputs determine; a key it reports
    red has a row that is not settled for this revision. *)
Theorem session_is_red {Q} (qs : Queries Q) (cancelled : nat → bool)
    (S : query_spec) (fuel : nat) (os : list op) (q : Q) (k : QueryKey) :
  well_behaved qs S → session_ok S fuel ∅ os →
  inputs S ⊆ dom (env_after ∅ os) → rank S k < fuel →
  ∃ q1 db1 q2 db2 x,
    do_ops qs cancelled fuel os q Db.new = Done (q1, db1) ∧
    Db.is_red qs cancelled fuel q1 db1 k = Done (q2, db2, x) ∧
    ∀ b, x = Ok b → ∃ id n, nodes db2 !! id = Some n ∧ n_key n = k ∧
      if b then ¬ settled (rev db2) n
      else settled (rev db2) n ∧ from_scratch S (env_after ∅ os) k = Some (n_value n).
Proof.
  intros Hqs Hok He Hk.
  destruct (do_ops_good qs cancelled S Hqs ∅ fuel os q Db.new (new_inv S) eq_refl Hok)
    as (q1 & db1 & H1 & Hinv & Hst).
  destruct (is_red_good qs cancelled S Hqs _ fuel q1 db1 k Hinv Hst He Hk)
    as (q2 & db2 & x & H2 & _ & _ & _ & Hb).
  exists q1, db1, q2, db2, x. split_and!; [done|done|].
  intros b Hx. destruct (Hb b Hx) as (id & n & Hn & Hkey & Hans). exists id, n.
  split_and!; [done|done|]. destruct b; [done|].
  destruct Hans as (Hs & _ & Hfs). by rewrite Hkey in Hfs.
Qed.

Lemma settled_demand {Q} (qs : Queries Q) (cancelled : nat → bool) fuel q db k id n :
  index db !! k = Some id → nodes db !! id = Some n → n_state n = Valid →
  settled (rev db) n → stack db = [] → cancelled (polls db) = false → 0 < fuel →
  ∃ db', Db.demand qs cancelled fuel q db k = Done (q, db', Ok (n_value n)) ∧
    nodes db' = nodes db ∧ deps db' = deps db ∧ executed db' = executed db.
Proof.
  intros Hix Hn Hv Hs Hst Hc Hf. destruct fuel as [|fuel]; [lia|].
  unfold Db.demand. simpl. unfold Db.pull_body, Db.is_cancelled. rewrite Hc.
  unfold Db.intern. simpl. rewrite Hix. unfold Db.attribute_read, Db.node. simpl.
  rewrite Hn, Hst. simpl. rewrite bool_decide_true by done.
  destruct (n_is_input n) eqn:Hi; [by eexists|].
  destruct Hs as [Hs|[_ Hr]]; [congruence|]. rewrite Hr, Nat.eqb_refl. simpl. by eexists.
Qed.

(** Answers are memoised within a revision. After such a session, a demand
    that has just been answered is answered again, the same, without executing a
    query or writing a node. *)
Theorem session_demand_memoised {Q} (qs : Queries Q) (cancelled : nat → bool)
    (S : query_spec) (fuel : nat) (os : list op) (q : Q) (k : QueryKey) :
  well_behaved qs S → session_ok S fuel ∅ os →
  inputs S ⊆ dom (env_after ∅ os) → rank S k < fuel → (∀ i, cancelled i = false) →
  ∃ q1 db1 q2 db2 db3 v,
    do_ops qs cancelled fuel os q Db.new = Done (q1, db1) ∧
    Db.demand qs cancelled fuel q1 db1 k = Done (q2, db2, Ok v) ∧
    Db.demand qs cancelled fuel q2 db2 k = Done (q2, db3, Ok v) ∧
    nodes db3 = nodes db2 ∧ deps db3 = deps db2 ∧ executed db3 = executed db2.
Proof.
  intros Hqs Hok He Hk Hno.
  destruct (do_ops_good qs cancelled S Hqs ∅ fuel os q Db.new (new_inv S) eq_refl Hok)
    as (q1 & db1 & H1 & Hinv & Hst).
  destruct (demand_good qs cancelled S Hqs _ fuel q1 db1 k Hinv Hst He Hk)
    as (q2 & db2 & x & H2 & Hinv2 & Hst2 & Hc & Hv).
  destruct x as [v|e].
  2:{ destruct (Hc e eq_refl) as [i Hi]. by rewrite Hno in Hi. }
  destruct (Hv v eq_refl) as (Hfs & id & n & Hn & Hkey & Hs & Hval & Hfs').
  rewrite Hkey, Hfs in Hfs'. injection Hfs' as ->.
  destruct (settled_demand qs cancelled fuel q2 db2 k id n) as (db3 & H3 & ?); try done; [|lia|].
  - apply (inv_index _ _ _ Hinv2). by exists n.
  - by exists q1, db1, q2, db2, db3, (n_value n).
Qed.

(** A write to an input is a new revision exactly when it changes the
    input's value; an unchanged write leaves every node as it was. *)
Theorem session_set_input {Q} (qs : Queries Q) (cancelled : nat → bool)
    (S : query_spec) (fuel : nat) (os : list op) (q : Q) (k : QueryKey) (v : ValueHash) :
  well_behaved qs S → session_ok S fuel ∅ os → k ∈ inputs S →
  ∃ q1 db1 db2 b,
    do_ops qs cancelled fuel os q Db.new = Done (q1, db1) ∧
    Db.set_input k v db1 = Done (db2, b) ∧ Db.input db2 k = Some v ∧
    b = bool_decide (env_after ∅ os !! k ≠ Some v) ∧
    rev db2 = (if b then 1 + rev db1 else rev db1) ∧
    (b = false → nodes db2 = nodes db1).
Proof.
  intros Hqs Hok Hk.
  destruct (do_ops_good qs cancelled S Hqs ∅ fuel os q Db.new (new_inv S) eq_refl Hok)
    as (q1 & db1 & H1 & Hinv & Hst).
  destruct (set_input_spec S _ db1 k v Hinv Hk)
    as (db2 & b & H2 & Hinv2 & _ & _ & Hb & Hr & Hsame).
  exists q1, db1, db2, b. split_and!; try done; [|by intros Hf; apply Hsame].
  destruct (inv_env _ _ _ Hinv2 k) as (_ & id & n & Hn & Hkey & Hi).
  { rewrite lookup_insert_eq. by eexists. }
  assert (index db2 !! k = Some id) as Hix by (apply (inv_index _ _ _ Hinv2); by exists n).
  pose proof (inv_nodes _ _ _ Hinv2 id n Hn) as Hnode. unfold node_ok in Hnode.
  rewrite Hi in Hnode. destruct Hnode as [_ Hv He _].
  rewrite Hkey, lookup_insert_eq in He. injection He as ->.
  unfold Db.input, Db.row. rewrite Hix. simpl. rewrite Hn. simpl.
  by rewrite Hi, bool_decide_true.
Qed.

(** What an execution leaves behind, for any query set. The row gets the
    new value, is verified at this revision and records the sorted reads of the
    run; its [changed_at] moves only if it had no value or another one, the
    early cutoff; no other row is touched. *)
Theorem execute_spec {Q} (qs : Queries Q) cancelled pull q key id db n q1 db1 v f :
  Db.run cancelled pull (compute qs q key) (with_stack (cons (MkFrame id [] true)) db)
    = Done (q1, db1, Value v) →
  stack db1 = f :: stack db → nodes db1 !! id = Some n →
  ∃ db' n', Db.execute qs cancelled pull q key id db = Done (q1, db', Ok (Db.answer n')) ∧
    nodes db' !! id = Some n' ∧ (∀ j, j ≠ id → nodes db' !! j = nodes db1 !! j) ∧
    stack db' = stack db ∧ rev db' = rev db1 ∧
    n_value n' = v ∧ n_state n' = Valid ∧ n_verified_at n' = rev db1 ∧
    n_changed_at n' = (if bool_decide (n_state n = Valid) && (n_value n =? v)%Z
                       then n_changed_at n else rev db1) ∧
    Db.dep_slice (deps db') n' = dedup (merge_sort Nat.le (f_deps f)).
Proof.
  intros Hrun Hst Hn.
  destruct (execute_value qs cancelled pull q key id db n q1 db1 v f Hrun Hst Hn)
    as (db' & Heq & (Hr & _ & Hd & Hn' & Hoth) & Hst').
  eexists db', _. split_and!; [exact Heq|exact Hn'|done|done|done| | | | |].
  5:{ rewrite Hd, executed_row_slice, drop_app_length. by rewrite firstn_all. }
  all: unfold executed_row; destruct (bool_decide (n_state n = Valid)); simpl; try done.
  all: destruct (Z.eqb_spec (n_value n) v); simpl; congruence.
Qed.

(** Compaction drops the superseded edges and nothing else: the arena
    becomes as long as the live edges, and every node keeps its edges and its
    value. *)
Theorem session_compact {Q} (qs : Queries Q) (cancelled : nat → bool)
    (S : query_spec) (fuel : nat) (os : list op) (q : Q) :
  well_behaved qs S → session_ok S fuel ∅ os →
  ∃ q1 db1 db2,
    do_ops qs cancelled fuel os q Db.new = Done (q1, db1) ∧ Db.compact db1 = Done db2 ∧
    Stats.dep_arena (Db.stats_of db2) = Stats.dep_edges (Db.stats_of db2) ∧
    ∀ k, Db.deps_of db2 k = Db.deps_of db1 k ∧ Db.value_of db2 k = Db.value_of db1 k.
Proof.
  intros Hqs Hok.
  destruct (do_ops_good qs cancelled S Hqs ∅ fuel os q Db.new (new_inv S) eq_refl Hok)
    as (q1 & db1 & H1 & Hinv & Hst).
  destruct (compact_spec S _ db1 Hinv Hst) as (db2 & H2 & _ & _ & _ & Hlen & Hall).
  by exists q1, db1, db2.
Qed.

(** ** The synthetic query set *)

(** [mid(i)] is [in(i)] rounded down to a multiple of ten, [top()] sums the
    [n] first [mid]s (db.rs, [mod tests]); the code's [unreachable!] kinds
    answer 0 here. *)
Definition IN (i : Z) : QueryKey := QueryKey.one 0 i.
Definition MID (i : Z) : QueryKey := QueryKey.one 1 i.
Definition TOP : QueryKey := QueryKey.unit 2.
Definition CYC (i : Z) : QueryKey := QueryKey.one 3 i.

(** [match db.read(self, k) { Ok(v) => .., Err(_) => return Cancelled }] *)
Definition read_or_stop (k : QueryKey) (f : ValueHash → comp unit) : comp unit :=
  Read tt k (λ _ r, match r with Ok v => f v | Err _ => Return tt OutcomeCancelled end).

Fixpoint sum_mids (n i : nat) (sum : Z) : comp unit :=
  match n with
  | O => Return tt (Value sum)
  | Datatypes.S n =>
      read_or_stop (MID (Z.of_nat i)) (λ v, sum_mids n (Datatypes.S i) (sum + v)%Z)
  end.

Definition synth (n : nat) : Queries unit := MkQueries unit
  (λ _ key,
    if (QueryKey.kind key =? 1)%Z
    then read_or_stop (IN (QueryKey.a key)) (λ v, Return tt (Value (v - v mod 10)%Z))
    else if (QueryKey.kind key =? 2)%Z then sum_mids n 0 0
    else Return tt (Value 0%Z))
  (λ _ _ _, (tt, 0%Z)).

Fixpoint sum_body (n i : nat) (sum : Z) : body :=
  match n with
  | O => BRet sum
  | Datatypes.S n => BRead (MID (Z.of_nat i)) (λ v, sum_body n (Datatypes.S i) (sum + v)%Z)
  end.

Definition synth_spec (n : nat) : query_spec :=
  MkSpec (list_to_set (IN <$> seqZ 0 (Z.of_nat n)))
    (λ key,
      if (QueryKey.kind key =? 1)%Z
      then BRead (IN (QueryKey.a key)) (λ v, BRet (v - v mod 10)%Z)
      else if (QueryKey.kind key =? 2)%Z then sum_body n 0 0
      else BRet 0%Z)
    (λ key, Z.to_nat (QueryKey.kind key)).

Lemma synth_well_behaved n : well_behaved (synth n) (synth_spec n).
Proof.
  assert (∀ m i s, follows (sum_mids m i s) (sum_body m i s)) as Hsum.
  { intros m. induction m as [|m IH]; intros i s; simpl; [done|].
    split_and!; [done|intros; apply IH|done]. }
  assert (∀ m i s, body_below (rank (synth_spec n)) 2 (sum_body m i s)) as Hbelow.
  { intros m. induction m as [|m IH]; intros i s; simpl; [done|]. split; [lia|]. intros. apply IH. }
  split.
  - intros q k _. simpl. destruct (_ =? 1)%Z; [done|]. destruct (_ =? 2)%Z; [|done]. apply Hsum.
  - intros k _. simpl. destruct (Z.eqb_spec (QueryKey.kind k) 1) as [Hk|_]; simpl.
    + split; [|done]. rewrite Hk. lia.
    + destruct (Z.eqb_spec (QueryKey.kind k) 2) as [Hk|_]; [|done]. rewrite Hk. apply Hbelow.
Qed.

Definition never (_ : nat) : bool := false.

(** The session of the test [an_edit_re_executes_only_the_path_to_the_root]. *)
Definition edit_session : list op :=
  [OSetInput (IN 0) 11%Z; OSetInput (IN 1) 22%Z; OSetInput (IN 2) 33%Z; ODemand TOP;
   OSetInput (IN 1) 25%Z; OOpenWindow].

Lemma edit_session_ok : session_ok (synth_spec 3) 10 ∅ edit_session.
Proof.
  unfold edit_session. cbn [session_ok op_ok env_op]. unfold IN, TOP.
  repeat split; first [lia | apply (bool_decide_unpack _); vm_compute; exact I].
Qed.

Lemma edit_session_inputs : inputs (synth_spec 3) ⊆ dom (env_after ∅ edit_session).
Proof. apply (bool_decide_unpack _). vm_compute. exact I. Qed.

(** ** Witnesses *)

Lemma session_demand_from_scratch_witness :
  ∃ q1 db1 q2 db2 x,
    do_ops (synth 3) never 10 edit_session tt Db.new = Done (q1, db1) ∧
    Db.demand (synth 3) never 10 q1 db1 TOP = Done (q2, db2, x) ∧
    (∀ v, x = Ok v → from_scratch (synth_spec 3) (env_after ∅ edit_session) TOP = Some v) ∧
    ((∀ i, never i = false) → ∃ v, x = Ok v).
Proof.
  apply (session_demand_from_scratch (synth 3) never (synth_spec 3) 10 edit_session tt TOP).
  - apply synth_well_behaved.
  - exact edit_session_ok.
  - exact edit_session_inputs.
  - apply (bool_decide_unpack _). exact I.
Defined.

Lemma session_is_red_witness :
  ∃ q1 db1 q2 db2 x,
    do_ops (synth 3) never 10 edit_session tt Db.new = Done (q1, db1) ∧
    Db.is_red (synth 3) never 10 q1 db1 (MID 0) = Done (q2, db2, x) ∧
    ∀ b, x = Ok b → ∃ id n, nodes db2 !! id = Some n ∧ n_key n = MID 0 ∧
      if b then ¬ settled (rev db2) n
      else settled (rev db2) n ∧
           from_scratch (synth_spec 3) (env_after ∅ edit_session) (MID 0) = Some (n_value n).
Proof.
  apply (session_is_red (synth 3) never (synth_spec 3) 10 edit_session tt (MID 0)).
  - apply synth_well_behaved.
  - exact edit_session_ok.
  - exact edit_session_inputs.
  - apply (bool_decide_unpack _). exact I.
Defined.

Lemma session_demand_memoised_witness :
  ∃ q1 db1 q2 db2 db3 v,
    do_ops (synth 3) never 10 edit_session tt Db.new = Done (q1, db1) ∧
    Db.demand (synth 3) never 10 q1 db1 TOP = Done (q2, db2, Ok v) ∧
    Db.demand (synth 3) never 10 q2 db2 TOP = Done (q2, db3, Ok v) ∧
    nodes db3 = nodes db2 ∧ deps db3 = deps db2 ∧ executed db3 = executed db2.
Proof.
  apply (session_demand_memoised (synth 3) never (synth_spec 3) 10 edit_session tt TOP).
  - apply synth_well_behaved.
  - exact edit_session_ok.
  - exact edit_session_inputs.
  - apply (bool_decide_unpack _). exact I.
  - reflexivity.
Defined.

Lemma session_set_input_witness :
  ∃ q1 db1 db2 b,
    do_ops (synth 3) never 10 edit_session tt Db.new = Done (q1, db1) ∧
    Db.set_input (IN 1) 25%Z db1 = Done (db2, b) ∧ Db.input db2 (IN 1) = Some 25%Z ∧
    b = bool_decide (env_after ∅ edit_session !! IN 1 ≠ Some 25%Z) ∧
    rev db2 = (if b then 1 + rev db1 else rev db1) ∧
    (b = false → nodes db2 = nodes db1).
Proof.
  apply (session_set_input (synth 3) never (synth_spec 3) 10 edit_session tt (IN 1) 25%Z).
  - apply synth_well_behaved.
  - exact edit_session_ok.
  - apply (bool_decide_unpack _). vm_compute. exact I.
Defined.

Lemma session_compact_witness :
  ∃ q1 db1 db2,
    do_ops (synth 3) never 10 edit_session tt Db.new = Done (q1, db1) ∧
    Db.compact db1 = Done db2 ∧
    Stats.dep_arena (Db.stats_of db2) = Stats.dep_edges (Db.stats_of db2) ∧
    ∀ k, Db.deps_of db2 k = Db.deps_of db1 k ∧ Db.value_of db2 k = Db.value_of db1 k.
Proof.
  apply (session_compact (synth 3) never (synth_spec 3) 10 edit_session tt).
  - apply synth_well_behaved.
  - exact edit_session_ok.
Defined.

(** A query with no reads, executed on a one-row database. *)
Definition one_row_db : Db :=
  MkDb 4 [MkNode (QueryKey.unit 9) 0%Z 2 1 0 0 Valid false] {[ QueryKey.unit 9 := 0 ]} [] []
    Stats.default 0 [] false.

Lemma execute_spec_witness :
  ∃ db' n',
    Db.execute (synth 0) never (λ _ _ _ _, Panic) tt (QueryKey.unit 9) 0 one_row_db
      = Done (tt, db', Ok (Db.answer n')) ∧ n_value n' = 0%Z ∧ n_changed_at n' = 1.
Proof.
  destruct (execute_spec (synth 0) never (λ _ _ _ _, Panic) tt (QueryKey.unit 9) 0 one_row_db
    (MkNode (QueryKey.unit 9) 0%Z 2 1 0 0 Valid false) tt
    (with_stack (cons (MkFrame 0 [] true)) one_row_db) 0%Z (MkFrame 0 [] true)
    eq_refl eq_refl eq_refl)
    as (db' & n' & Heq & _ & _ & _ & _ & Hv & _ & _ & Hc & _).
  exists db', n'. exact (conj Heq (conj Hv Hc)).
Defined.

(** ** Where the documentation says otherwise *)

(** The values of a few keys after a session. *)
Definition values_after (qs : Queries unit) (cancelled : nat → bool) (os : list op)
    (ks : list QueryKey) : res (list (option ValueHash)) :=
  '(_, db) ← do_ops qs cancelled 10 os tt Db.new; Done (Db.value_of db <$> ks).
Definition executed_after (qs : Queries unit) (cancelled : nat → bool) (os : list op) :
    res (list QueryKey) :=
  '(_, db) ← do_ops qs cancelled 10 os tt Db.new; Done (Db.executed_keys db).

(** The tests' cycle: [cyc(i)] is one more than [cyc((i + 1) % 3)]. *)
Definition ring : Queries unit := MkQueries unit
  (λ _ key, read_or_stop (CYC ((QueryKey.a key + 1) mod 3)) (λ v, Return tt (Value (v + 1)%Z)))
  (λ _ _ _, (tt, 0%Z)).

(** The answer of a query on a cycle depends on which node was demanded
    first: the recovery value itself is not stored, but the values computed from
    it are. *)
Theorem cycle_answer_depends_on_order :
  values_after ring never [ODemand (CYC 0); ODemand (CYC 1); ODemand (CYC 2)]
    [CYC 0; CYC 1; CYC 2] = Done [Some 3%Z; Some 2%Z; Some 1%Z] ∧
  values_after ring never [ODemand (CYC 1); ODemand (CYC 2); ODemand (CYC 0)]
    [CYC 0; CYC 1; CYC 2] = Done [Some 1%Z; Some 3%Z; Some 2%Z].
Proof. split; vm_compute; reflexivity. Qed.

(** Two queries that never depend on each other at the same time: with
    [in(0) = 0], 5 = [b] and [a] reads [b]; otherwise 7 = [a] and [b] reads
    [a].  Both see the input through [s]. *)
Definition s_key : QueryKey := QueryKey.unit 1.
Definition a_key : QueryKey := QueryKey.unit 2.
Definition b_key : QueryKey := QueryKey.unit 3.
Definition either : Queries unit := MkQueries unit
  (λ _ key,
    if decide (key = s_key) then read_or_stop (IN 0) (λ v, Return tt (Value v))
    else if decide (key = a_key) then
      read_or_stop s_key (λ v, if (v =? 0)%Z then read_or_stop b_key (λ w, Return tt (Value (w + 1)%Z))
                               else Return tt (Value 7%Z))
    else
      read_or_stop s_key (λ v, if (v =? 0)%Z then Return tt (Value 5%Z)
                               else read_or_stop a_key (λ w, Return tt (Value (w + 1)%Z))))
  (λ _ _ _, (tt, 0%Z)).

(** Verification can see a cycle that no computation has. The recorded
    dependencies are asked in the order of their ids, not in the order they were
    read, so a stale dependency may be executed although the query would no
    longer read it; if it then reads the query being verified, the recovery
    value is returned for that read and the result computed from it is memoised:
    [b] answers 1 after the edit, where a fresh database answers 8. *)
Theorem stale_dependency_false_cycle :
  values_after either never
    [OSetInput (IN 0) 0%Z; ODemand b_key; ODemand a_key; OSetInput (IN 0) 1%Z; ODemand a_key;
     ODemand b_key] [a_key; b_key] = Done [Some 7%Z; Some 1%Z] ∧
  values_after either never
    [OSetInput (IN 0) 1%Z; ODemand a_key; ODemand b_key] [a_key; b_key]
    = Done [Some 7%Z; Some 8%Z].
Proof. split; vm_compute; reflexivity. Qed.

(** A demand after a session: its result, and the value [watch] held before
    and after it. *)
Definition watch_demand (qs : Queries unit) (cancelled : nat → bool) (os : list op)
    (k watch : QueryKey) : res (result Cancelled ValueHash * option ValueHash * option ValueHash) :=
  '(q, db) ← do_ops qs cancelled 10 os tt Db.new;
  '(_, db', x) ← Db.demand qs cancelled 10 q db k;
  Done (x, Db.value_of db watch, Db.value_of db' watch).

(** A cancelled demand may have written nodes: with the flag raised before
    the second [mid] is asked, [top] is cancelled, but the first [mid] has taken
    the edited value. *)
Theorem cancelled_demand_writes :
  watch_demand (synth 2) (λ i, 9 <=? i)
    [OSetInput (IN 0) 11%Z; OSetInput (IN 1) 22%Z; ODemand TOP; OSetInput (IN 0) 95%Z]
    TOP (MID 0)
  = Done (Err MkCancelled, Some 10%Z, Some 90%Z).
Proof. vm_compute. reflexivity. Qed.

(** The planning probe does call [compute], on the dependencies it
    verifies. *)
Theorem is_red_computes :
  executed_after (synth 3) never (edit_session ++ [OIsRed TOP]) = Done [MID 1].
Proof. vm_compute. reflexivity. Qed.

(** Reading an input that was never set is not caught: the query set is
    asked to compute it, the result is memoised as a derived value, and setting
    the input afterwards panics. *)
Theorem unset_input_is_computed :
  executed_after (synth 1) never [OOpenWindow; ODemand (MID 0)] = Done [IN 0; MID 0] ∧
  do_ops (synth 1) never 10 [ODemand (MID 0); OSetInput (IN 0) 11%Z] tt Db.new = Panic.
Proof. split; vm_compute; reflexivity. Qed.
