(* ===== verification/Token.v ===== *)
(** * Tokens

    Models [src/crates/fors-lex/src/token.rs] and [diag.rs].  Source text is a
    list of bytes; a byte string of the code is a [string] turned into one. *)

From Stdlib Require Import Strings.Byte.
From S2P Require Import Prelude.
Local Open Scope nat_scope.

(** [b"..."] *)
Definition bytes_of (t : string) : list byte := String.list_byte_of_string t.

#[export] Instance byte_eq_dec : EqDecision byte := Byte.byte_eq_dec.

Inductive TokenKind : Type :=
  | Whitespace | LineComment | BlockComment | Ident | Int | Float | Str | MultilineStr |
  KwModule | KwUse | KwPub | KwFn | KwStruct | KwEnum | KwTrait | KwImpl | KwConst |
  KwExtern | KwLet | KwVar | KwInout | KwSink | KwIf | KwElse | KwMatch | KwFor | KwIn |
  KwWhile | KwBreak | KwContinue | KwReturn | KwRaise | KwRaises | KwWith | KwParallel |
  KwSimd | KwSpawn | KwComptime | KwMove | KwConsume | KwDiscard | KwAs | KwAnd | KwOr |
  KwNot | KwTrue | KwFalse | KwIso | KwImm | KwSecret | KwDyn | KwAsm | KwImport |
  KwRecover | Underscore | LParen | RParen | LBracket | RBracket | LBrace | RBrace | Comma
  | Semi | Colon | Dot | At | Question | Arrow | FatArrow | Eq | EqEq | NotEq | Lt | Gt |
  LtEq | GtEq | Plus | Minus | Star | Slash | Percent | Amp | Pipe | Caret | Shl | Shr |
  DotDotLt | DotDotEq | PlusEq | MinusEq | StarEq | SlashEq | PercentEq | AmpEq | PipeEq |
  CaretEq | ShlEq | ShrEq | Error | Eof | KwType | KwSpmd | KwKernel | KwDefer |
  KwErrdefer.

#[export] Instance TokenKind_eq_dec : EqDecision TokenKind.
Proof. intros k k'. unfold Decision. decide equality. Defined.
Definition token_kind_eqb (k k' : TokenKind) : bool := bool_decide (k = k').

Definition is_trivia (k : TokenKind) : bool :=
  match k with Whitespace | LineComment | BlockComment => true | _ => false end.

Definition keywords : list (string * TokenKind) :=
  [("module", KwModule); ("use", KwUse); ("pub", KwPub); ("fn", KwFn); ("struct", KwStruct);
   ("enum", KwEnum); ("trait", KwTrait); ("impl", KwImpl); ("const", KwConst); ("extern",
   KwExtern); ("let", KwLet); ("var", KwVar); ("inout", KwInout); ("sink", KwSink); ("if",
   KwIf); ("else", KwElse); ("match", KwMatch); ("for", KwFor); ("in", KwIn); ("while",
   KwWhile); ("break", KwBreak); ("continue", KwContinue); ("return", KwReturn); ("raise",
   KwRaise); ("raises", KwRaises); ("with", KwWith); ("parallel", KwParallel); ("simd",
   KwSimd); ("spawn", KwSpawn); ("comptime", KwComptime); ("move", KwMove); ("consume",
   KwConsume); ("discard", KwDiscard); ("as", KwAs); ("and", KwAnd); ("or", KwOr); ("not",
   KwNot); ("true", KwTrue); ("false", KwFalse); ("iso", KwIso); ("imm", KwImm); ("secret",
   KwSecret); ("dyn", KwDyn); ("asm", KwAsm); ("import", KwImport); ("recover", KwRecover);
   ("type", KwType); ("spmd", KwSpmd); ("kernel", KwKernel); ("defer", KwDefer);
   ("errdefer", KwErrdefer)].

Definition keyword_kind (word : list byte) : option TokenKind :=
  snd <$> List.find (λ kv : string * TokenKind, bool_decide (word = bytes_of kv.1)) keywords.

Definition INT_SUFFIXES : list string :=
  ["i8"; "i16"; "i32"; "i64"; "u8"; "u16"; "u32"; "u64"; "isize"; "usize"].
Definition FLOAT_SUFFIXES : list string := ["f32"; "f64"].

(** [SUFFIXES.contains(&suffix)] *)
Definition contains (suffixes : list string) (suffix : list byte) : bool :=
  existsb (λ t, bool_decide (suffix = bytes_of t)) suffixes.

Definition is_legal_suffix (suffix : list byte) (is_radix_literal is_float_literal : bool) : bool :=
  if is_radix_literal then contains INT_SUFFIXES suffix
  else if is_float_literal then contains FLOAT_SUFFIXES suffix
  else contains INT_SUFFIXES suffix || contains FLOAT_SUFFIXES suffix.

Inductive DiagCode : Type :=
  | UnterminatedBlockComment | UnterminatedString | BadEscape | BadSuffix | BadRangeDots
  | StrayByte | FileTooLarge | InvalidUtf8.
#[export] Instance DiagCode_eq_dec : EqDecision DiagCode.
Proof. solve_decision. Defined.

Record Diagnostic : Type := MkDiagnostic { d_start : Z; d_end : Z; d_code : DiagCode }.
#[export] Instance Diagnostic_eq_dec : EqDecision Diagnostic.
Proof. solve_decision. Defined.

Definition as_str (c : DiagCode) : string :=
  match c with
  | UnterminatedBlockComment => "L0000" | UnterminatedString => "L0001" | BadEscape => "L0002"
  | BadSuffix => "L0003" | BadRangeDots => "L0004" | StrayByte => "L0005"
  | FileTooLarge => "L0006" | InvalidUtf8 => "L0007"
  end.
