(* ===== verification/Utf8.v ===== *)
(** * Validation of UTF-8

    [std::str::from_utf8] as the Standard Library of Rust documents it: the
    length of the longest valid prefix and, unless the text ends inside a
    sequence, the length of the invalid one.  [valid_utf8] is the definition of
    well-formed text (the table of Unicode 3.9), and [from_utf8] decides it. *)

From Stdlib Require Import Strings.Byte.
From S2P Require Import Prelude.
Local Open Scope nat_scope.

Definition between (lo hi : N) (b : byte) : bool :=
  ((lo <=? Byte.to_N b) && (Byte.to_N b <=? hi))%N.
Definition continuation (b : byte) : bool := between 0x80 0xBF b.

(** [Utf8Error]: how a character can fail. *)
Inductive char_result : Type :=
  | Char (width : nat)
  | BadChar (error_len : option nat).

(** The second byte a three- or four-byte sequence admits after [first]. *)
Definition second_of_three (first b : byte) : bool :=
  if between 0xE0 0xE0 first then between 0xA0 0xBF b
  else if between 0xED 0xED first then between 0x80 0x9F b
  else between 0x80 0xBF b.
Definition second_of_four (first b : byte) : bool :=
  if between 0xF0 0xF0 first then between 0x90 0xBF b
  else if between 0xF4 0xF4 first then between 0x80 0x8F b
  else between 0x80 0xBF b.

(** Bytes [k ..] of the sequence against [oks]. *)
Fixpoint check_rest (k : nat) (oks : list (byte → bool)) (l : list byte) : char_result :=
  match oks with
  | [] => Char k
  | ok :: oks =>
      match l with
      | [] => BadChar None
      | b :: l => if ok b then check_rest (S k) oks l else BadChar (Some k)
      end
  end.

Definition utf8_char (first : byte) (rest : list byte) : char_result :=
  if between 0x00 0x7F first then Char 1
  else if between 0xC2 0xDF first then check_rest 1 [continuation] rest
  else if between 0xE0 0xEF first then check_rest 1 [second_of_three first; continuation] rest
  else if between 0xF0 0xF4 first then
    check_rest 1 [second_of_four first; continuation; continuation] rest
  else BadChar (Some 1).

(** [valid_up_to] and [error_len] of the error, if there is one. *)
Fixpoint from_utf8_loop (fuel pos : nat) (l : list byte) : res (option (nat * option nat)) :=
  match l with
  | [] => Done None
  | b :: rest =>
      match fuel with
      | O => OutOfFuel
      | S fuel =>
          match utf8_char b rest with
          | Char n => from_utf8_loop fuel (pos + n) (drop n l)
          | BadChar e => Done (Some (pos, e))
          end
      end
  end.
Definition from_utf8 (l : list byte) : res (option (nat * option nat)) :=
  from_utf8_loop (length l) 0 l.

(** ** Well-formed text *)

Inductive valid_utf8 : list byte → Prop :=
  | valid_nil : valid_utf8 []
  | valid_char b rest n : utf8_char b rest = Char n →
      valid_utf8 (drop n (b :: rest)) → valid_utf8 (b :: rest).

Lemma check_rest_width k oks l n : check_rest k oks l = Char n →
  n = k + length oks ∧ length oks ≤ length l.
Proof.
  revert k l. induction oks as [|ok oks IH]; intros k l; simpl.
  - intros [= ->]. lia.
  - destruct l as [|b l]; [done|]. destruct (ok b); [|done]. intros [-> ?]%IH. simpl. lia.
Qed.

Lemma utf8_char_width b rest n : utf8_char b rest = Char n → 1 ≤ n ≤ length (b :: rest).
Proof.
  unfold utf8_char. destruct (between 0x00 0x7F b); [intros [= <-]; simpl; lia|].
  destruct (between 0xC2 0xDF b); [intros [-> ?]%check_rest_width; simpl in *; lia|].
  destruct (between 0xE0 0xEF b); [intros [-> ?]%check_rest_width; simpl in *; lia|].
  destruct (between 0xF0 0xF4 b); [intros [-> ?]%check_rest_width; simpl in *; lia|done].
Qed.

(** The validation ends, errs exactly on text that is not well formed, and then
    within it. *)
Lemma from_utf8_loop_total fuel pos l : length l ≤ fuel →
  ∃ r, from_utf8_loop fuel pos l = Done r ∧ (r = None ↔ valid_utf8 l) ∧
    ∀ at_ e, r = Some (at_, e) → pos ≤ at_ < pos + length l.
Proof.
  revert pos l. induction fuel as [|fuel IH]; intros pos [|b rest] Hf; simpl in *; try lia;
    try (exists None; split_and!; [done|by split; [constructor|]|done]).
  destruct (utf8_char b rest) as [n|e] eqn:Hc.
  - pose proof (utf8_char_width _ _ _ Hc) as Hn. simpl in Hn.
    destruct (IH (pos + n) (drop n (b :: rest))) as (r & -> & Hr & Hat);
      [rewrite length_drop; simpl; lia|].
    exists r. split_and!; [done| |].
    + rewrite Hr. split; [by econstructor|]. inversion 1 as [|? ? n' Hn' Hv]; subst.
      rewrite Hc in Hn'. by injection Hn' as ->.
    + intros at_ e He. specialize (Hat at_ e He). rewrite length_drop in Hat. simpl in Hat. lia.
  - exists (Some (pos, e)). split_and!; [done| |].
    + split; [done|]. inversion 1 as [|? ? n' Hn' Hv]; subst. congruence.
    + intros at_ e' [= <- <-]. lia.
Qed.

Lemma from_utf8_total l :
  ∃ r, from_utf8 l = Done r ∧ (r = None ↔ valid_utf8 l) ∧
    ∀ at_ e, r = Some (at_, e) → at_ < length l.
Proof.
  destruct (from_utf8_loop_total (length l) 0 l) as (r & Hr & Hv & Hat); [done|].
  exists r. split_and!; [done..|]. intros at_ e He. specialize (Hat at_ e He). lia.
Qed.

(** The invalid sequence is not empty and within the text. *)
Lemma check_rest_error k oks l e : check_rest k oks l = BadChar (Some e) →
  k ≤ e < k + length l.
Proof.
  revert k l. induction oks as [|ok oks IH]; intros k [|b l]; simpl; try done.
  destruct (ok b); [|intros [= ->]; lia]. intros ?%IH. lia.
Qed.

Lemma utf8_char_error b rest e : utf8_char b rest = BadChar (Some e) →
  1 ≤ e ≤ length (b :: rest).
Proof.
  unfold utf8_char. repeat case_match; try done; intros He; simpl.
  1-3: apply check_rest_error in He; lia.
  injection He as <-. lia.
Qed.

Lemma from_utf8_error fuel pos l at_ e :
  from_utf8_loop fuel pos l = Done (Some (at_, Some e)) → 1 ≤ e ∧ at_ + e ≤ pos + length l.
Proof.
  revert pos l. induction fuel as [|fuel IH]; intros pos [|b rest]; try done.
  cbn [from_utf8_loop]. destruct (utf8_char b rest) as [n|e'] eqn:Hc.
  - pose proof (utf8_char_width _ _ _ Hc) as Hn. intros ?%IH.
    rewrite length_drop in *. lia.
  - intros [= -> ->]. pose proof (utf8_char_error _ _ _ Hc). lia.
Qed.
