(* ===== verification/Lexer.v ===== *)
(** * The lexer

    Models [src/crates/fors-lex/src/lexer.rs].  A position is a [nat]; where
    the code reads [bytes[pos..]] a function here takes that suffix, and it
    returns how many bytes it went over where the code returns the new position.
    The state is the code's [Lexer]: the columns and the diagnostics.  The loops
    that do not go down by one byte at a time take fuel; LexerProps proves that
    the length of the source is always enough. *)

From Stdlib Require Import Strings.Byte.
From S2P Require Import Prelude Token Utf8.
Local Open Scope nat_scope.
Local Open Scope byte_scope.

Record Tokens : Type := MkTokens { kinds : list TokenKind; starts : list Z }.

Definition tok_len (t : Tokens) : nat := length (kinds t).
Definition source_len (t : Tokens) : Z := default 0%Z (last (starts t)).
Definition range (t : Tokens) (i : nat) : res (Z * Z) :=
  s ← get_ix (starts t !! i); e ← get_ix (starts t !! S i); Done (s, e).
(** [&source[start..end]] *)
Definition text (t : Tokens) (i : nat) (source : list byte) : res (list byte) :=
  '(s, e) ← range t i;
  if bool_decide (s ≤ e ≤ Z.of_nat (length source))%Z
  then Done (take (Z.to_nat e - Z.to_nat s) (drop (Z.to_nat s) source)) else Panic.

(** ** Bytes *)

Definition code (b : byte) : N := Byte.to_N b.
Definition in_range (lo hi b : byte) : bool := ((code lo <=? code b) && (code b <=? code hi))%N.
Definition isb (c b : byte) : bool := Byte.eqb b c.

Definition is_ascii_alphabetic (b : byte) : bool := in_range "a" "z" b || in_range "A" "Z" b.
Definition is_dec (b : byte) : bool := in_range "0" "9" b.
Definition is_hex (b : byte) : bool := is_dec b || in_range "a" "f" b || in_range "A" "F" b.
Definition is_oct (b : byte) : bool := in_range "0" "7" b.
Definition is_bin (b : byte) : bool := isb "0" b || isb "1" b.
Definition is_ident_start (b : byte) : bool := is_ascii_alphabetic b || isb "_" b.
Definition is_ident_continue (b : byte) : bool := is_ascii_alphabetic b || is_dec b || isb "_" b.
Definition newline : byte := x0a.
Definition dquote : byte := x22.
Definition backslash : byte := x5c.
Definition is_ws (b : byte) : bool := isb " " b || isb x09 b || isb x0d b || isb newline b.
Definition is_non_ascii (b : byte) : bool := (128 <=? code b)%N.

(** [bytes.get(pos + k) == Some(c)] for [l = bytes[pos..]]. *)
Definition at_is (l : list byte) (k : nat) (c : byte) : bool :=
  match l !! k with Some b => isb c b | None => false end.
Definition at_ok (l : list byte) (k : nat) (ok : byte → bool) : bool :=
  match l !! k with Some b => ok b | None => false end.

(** [while pos < len && ok(bytes[pos]) { pos += 1 }] *)
Fixpoint scan_while (ok : byte → bool) (l : list byte) : nat :=
  match l with b :: l => if ok b then S (scan_while ok l) else 0 | [] => 0 end.

(** ** Scanners *)

Fixpoint scan_digit_run (ok : byte → bool) (l : list byte) : nat :=
  match l with
  | [] => 0
  | b :: l1 =>
      if ok b then S (scan_digit_run ok l1)
      else match l1 with
           | c :: l2 => if isb "_" b && ok c then S (S (scan_digit_run ok l2)) else 0
           | [] => 0
           end
  end.

(** The multiline string at the head of [l]: the end of its last line. *)
Fixpoint scan_multiline_string (fuel : nat) (l : list byte) : res nat :=
  match fuel with
  | O => OutOfFuel
  | S fuel =>
      let line_end := 2 + scan_while (λ b, negb (isb newline b)) (drop 2 l) in
      let lookahead := line_end + scan_while is_ws (drop line_end l) in
      if at_is l lookahead backslash && at_is l (lookahead + 1) backslash then
        n ← scan_multiline_string fuel (drop lookahead l);
        Done (lookahead + n)
      else Done line_end
  end.

(** [two!(b, k)] after an arm's first byte, else [one]. *)
Fixpoint two (l : list byte) (cases : list (byte * TokenKind)) (one : option (TokenKind * nat)) :
    option (TokenKind * nat) :=
  match cases with
  | [] => one
  | (c, k) :: cases => if at_is l 1 c then Some (k, 2) else two l cases one
  end.

Definition scan_punct (l : list byte) : option (TokenKind * nat) :=
  if at_is l 0 "(" then Some (LParen, 1)
  else if at_is l 0 ")" then Some (RParen, 1)
  else if at_is l 0 "[" then Some (LBracket, 1)
  else if at_is l 0 "]" then Some (RBracket, 1)
  else if at_is l 0 "{" then Some (LBrace, 1)
  else if at_is l 0 "}" then Some (RBrace, 1)
  else if at_is l 0 "," then Some (Comma, 1)
  else if at_is l 0 ";" then Some (Semi, 1)
  else if at_is l 0 ":" then Some (Colon, 1)
  else if at_is l 0 "@" then Some (At, 1)
  else if at_is l 0 "?" then Some (Question, 1)
  else if at_is l 0 "-" then two l [(">", Arrow); ("=", MinusEq)] (Some (Minus, 1))
  else if at_is l 0 "=" then two l [(">", FatArrow); ("=", EqEq)] (Some (Eq, 1))
  else if at_is l 0 "!" then two l [("=", NotEq)] None
  else if at_is l 0 "<" then
    if at_is l 1 "<" then (if at_is l 2 "=" then Some (ShlEq, 3) else Some (Shl, 2))
    else two l [("=", LtEq)] (Some (Lt, 1))
  else if at_is l 0 ">" then
    if at_is l 1 ">" then (if at_is l 2 "=" then Some (ShrEq, 3) else Some (Shr, 2))
    else two l [("=", GtEq)] (Some (Gt, 1))
  else if at_is l 0 "+" then two l [("=", PlusEq)] (Some (Plus, 1))
  else if at_is l 0 "*" then two l [("=", StarEq)] (Some (Star, 1))
  else if at_is l 0 "/" then two l [("=", SlashEq)] (Some (Slash, 1))
  else if at_is l 0 "%" then two l [("=", PercentEq)] (Some (Percent, 1))
  else if at_is l 0 "&" then two l [("=", AmpEq)] (Some (Amp, 1))
  else if at_is l 0 "|" then two l [("=", PipeEq)] (Some (Pipe, 1))
  else if at_is l 0 "^" then two l [("=", CaretEq)] (Some (Caret, 1))
  else if at_is l 0 "." then Some (Dot, 1)
  else None.

(** ** The lexer's state *)

Record Lexer : Type := MkLexer {
  lx_kinds : list TokenKind; lx_starts : list Z; lx_diags : list Diagnostic }.

Definition u32 (n : nat) : Z := wrap 32 (Z.of_nat n).

Definition push (kind : TokenKind) (start : nat) (lx : Lexer) : Lexer :=
  MkLexer (lx_kinds lx ++ [kind]) (lx_starts lx ++ [u32 start]) (lx_diags lx).
Definition diag (start stop : nat) (c : DiagCode) (lx : Lexer) : Lexer :=
  MkLexer (lx_kinds lx) (lx_starts lx) (lx_diags lx ++ [MkDiagnostic (u32 start) (u32 stop) c]).

(** ** One construct: [l] is [bytes[start..]] and not empty *)

Definition lex_whitespace (start : nat) (l : list byte) (lx : Lexer) : Lexer * nat :=
  (push Whitespace start lx, 1 + scan_while is_ws (drop 1 l)).

Definition lex_line_comment (start : nat) (l : list byte) (lx : Lexer) : Lexer * nat :=
  (push LineComment start lx, 2 + scan_while (λ b, negb (isb newline b)) (drop 2 l)).

(** The loop over the body, at nesting [depth]: the bytes it reads and whether
    it is terminated. *)
Fixpoint block_comment (depth : Z) (l : list byte) : nat * bool :=
  match l with
  | [] => (0, false)
  | b :: l1 =>
      match l1 with
      | c :: l2 =>
          if isb "/" b && isb "*" c then
            let '(n, t) := block_comment (wrap 32 (depth + 1)) l2 in (2 + n, t)
          else if isb "*" b && isb "/" c then
            if (depth - 1 =? 0)%Z then (2, true)
            else let '(n, t) := block_comment (depth - 1) l2 in (2 + n, t)
          else let '(n, t) := block_comment depth l1 in (1 + n, t)
      | [] => (1, false)
      end
  end.

Definition lex_block_comment (start : nat) (l : list byte) (lx : Lexer) : Lexer * nat :=
  let '(n, terminated) := block_comment 1 (drop 2 l) in
  let pos := 2 + n in
  if terminated : bool then (push BlockComment start lx, pos)
  else (push Error start (diag start (start + pos) UnterminatedBlockComment lx), pos).

Definition lex_ident_or_keyword (start : nat) (l : list byte) (lx : Lexer) : Lexer * nat :=
  let pos := 1 + scan_while is_ident_continue (drop 1 l) in
  let word := take pos l in
  let kind := if bool_decide (word = ["_"]) then Underscore
              else default Ident (keyword_kind word) in
  (push kind start lx, pos).

(** The digits, and whether they are in a radix. *)
Definition number_digits (l : list byte) : nat * bool :=
  if at_is l 0 "0" then
    let check := if at_is l 1 "x" then Some is_hex
                 else if at_is l 1 "o" then Some is_oct
                 else if at_is l 1 "b" then Some is_bin else None in
    match check with
    | Some ok =>
        if at_ok l 2 ok then (2 + scan_digit_run ok (drop 2 l), true)
        else (scan_digit_run is_dec l, false)
    | None => (scan_digit_run is_dec l, false)
    end
  else (scan_digit_run is_dec l, false).

(** The fraction, then the exponent, of a literal that is not in a radix. *)
Definition number_fraction (l : list byte) (pos : nat) : nat * bool :=
  if at_is l pos "." && at_ok l (pos + 1) is_dec
  then (pos + 1 + scan_digit_run is_dec (drop (pos + 1) l), true) else (pos, false).
Definition number_exponent (l : list byte) (pos : nat) (is_float : bool) : nat * bool :=
  if at_is l pos "e" || at_is l pos "E" then
    let q := pos + 1 in
    let q := if at_is l q "+" || at_is l q "-" then q + 1 else q in
    if at_ok l q is_dec then (q + scan_digit_run is_dec (drop q l), true) else (pos, is_float)
  else (pos, is_float).

Definition lex_number (start : nat) (l : list byte) (lx : Lexer) : Lexer * nat :=
  let '(pos, is_radix) := number_digits l in
  let '(pos, is_float) :=
    if is_radix : bool then (pos, false)
    else let '(pos, f) := number_fraction l pos in number_exponent l pos f in
  let suffix_end := pos + scan_while is_ident_continue (drop pos l) in
  let suffix := take (suffix_end - pos) (drop pos l) in
  let kind := if is_float : bool then Float else Int in
  if bool_decide (suffix = []) then (push kind start lx, pos)
  else if is_legal_suffix suffix is_radix is_float then (push kind start lx, suffix_end)
  else (push Error (start + pos)
          (diag (start + pos) (start + suffix_end) BadSuffix (push kind start lx)), suffix_end).

Definition simple_escapes : list byte := ["n"; "r"; "t"; "0"; backslash; dquote].

(** The escape at the head of [l], which is a backslash: the bytes it takes and
    whether it is bad. *)
Definition string_escape (l : list byte) : nat * bool :=
  match l !! 1 with
  | Some c =>
      if existsb (isb c) simple_escapes then (2, false)
      else if isb "x" c then
        if at_ok l 2 is_hex && at_ok l 3 is_hex then (4, false) else (2, true)
      else if isb "u" c then
        if at_is l 2 "{" then
          let q := 3 + scan_while is_hex (drop 3 l) in
          if bool_decide (3 < q) && at_is l q "}" then (q + 1, false) else (q, true)
        else (2, true)
      else (2, true)
  | None => (1, true)
  end.

(** The loop over the body: the bytes read, [bad_escape], [terminated]. *)
Fixpoint string_body (fuel : nat) (l : list byte) (bad_escape : bool) : res (nat * bool * bool) :=
  match l with
  | [] => Done (0, bad_escape, false)
  | b :: l1 =>
      match fuel with
      | O => OutOfFuel
      | S fuel =>
          if isb newline b then Done (0, bad_escape, false)
          else if isb dquote b then Done (1, bad_escape, true)
          else
            let '(n, bad) := if isb backslash b then string_escape l else (1, false) in
            '(m, bad_escape, terminated) ← string_body fuel (drop n l) (bad_escape || bad);
            Done (n + m, bad_escape, terminated)
      end
  end.

Definition lex_string (start : nat) (l : list byte) (lx : Lexer) : res (Lexer * nat) :=
  '(n, bad_escape, terminated) ← string_body (length l) (drop 1 l) false;
  let pos := 1 + n in
  if terminated : bool then
    if bad_escape : bool
    then Done (push Error start (diag start (start + pos) BadEscape lx), pos)
    else Done (push Str start lx, pos)
  else Done (push Error start (diag start (start + pos) UnterminatedString lx), pos).

Definition lex_dots (start : nat) (l : list byte) (lx : Lexer) : Lexer * nat :=
  if at_is l 2 "<" then (push DotDotLt start lx, 3)
  else if at_is l 2 "=" then (push DotDotEq start lx, 3)
  else (push Error start (diag start (start + 2) BadRangeDots lx), 2).

(** The last arm: punctuation or stray bytes. *)
Definition lex_other (start : nat) (b : byte) (l : list byte) (lx : Lexer) : Lexer * nat :=
  match scan_punct l with
  | Some (kind, n) => (push kind start lx, n)
  | None =>
      let n := 1 + (if is_non_ascii b then scan_while is_non_ascii (drop 1 l) else 0) in
      (push Error start (diag start (start + n) StrayByte lx), n)
  end.

(** The match of the main loop. *)
Definition lex_one (start : nat) (b : byte) (l : list byte) (lx : Lexer) : res (Lexer * nat) :=
  if is_ws b then Done (lex_whitespace start l lx)
  else if isb "/" b && at_is l 1 "/" then Done (lex_line_comment start l lx)
  else if isb "/" b && at_is l 1 "*" then Done (lex_block_comment start l lx)
  else if isb backslash b && at_is l 1 backslash then
    n ← scan_multiline_string (length l) l;
    Done (push MultilineStr start lx, n)
  else if is_ident_start b then Done (lex_ident_or_keyword start l lx)
  else if is_dec b then Done (lex_number start l lx)
  else if isb dquote b then lex_string start l lx
  else if isb "." b && at_is l 1 "." then Done (lex_dots start l lx)
  else Done (lex_other start b l lx).

Fixpoint lex_loop (fuel pos : nat) (l : list byte) (lx : Lexer) : res Lexer :=
  match l with
  | [] => Done lx
  | b :: _ =>
      match fuel with
      | O => OutOfFuel
      | S fuel =>
          '(lx, n) ← lex_one pos b l lx;
          lex_loop fuel (pos + n) (drop n l) lx
      end
  end.

(** ** The whole file *)

Definition MAX_SOURCE_LEN : Z := 2 ^ 30.

(** [diags.sort_by_key(|d| d.start)], a stable sort. *)
Fixpoint insert_by_start (d : Diagnostic) (ds : list Diagnostic) : list Diagnostic :=
  match ds with
  | [] => [d]
  | d' :: ds =>
      if (d_start d <=? d_start d')%Z then d :: d' :: ds else d' :: insert_by_start d ds
  end.
Definition sort_by_start (ds : list Diagnostic) : list Diagnostic := foldr insert_by_start [] ds.

(** [d.start <= at && at < d.end] *)
Definition covers (at_ : nat) (d : Diagnostic) : bool :=
  ((d_start d <=? Z.of_nat at_) && (Z.of_nat at_ <? d_end d))%Z.

Definition report_utf8 (source : list byte) (lx : Lexer) : res Lexer :=
  r ← from_utf8 source;
  match r with
  | None => Done lx
  | Some (at_, error_len) =>
      if existsb (covers at_) (lx_diags lx) then Done lx
      else
        let bad := default (length source - at_) error_len in
        let lx := diag at_ (at_ + bad) InvalidUtf8 lx in
        Done (MkLexer (lx_kinds lx) (lx_starts lx) (sort_by_start (lx_diags lx)))
  end.

Definition lex (source : list byte) : res (Tokens * list Diagnostic) :=
  let len := length source in
  if (MAX_SOURCE_LEN <? Z.of_nat len)%Z then
    let stop := wrap 32 MAX_SOURCE_LEN in
    Done (MkTokens [Error; Eof] [0%Z; stop; stop], [MkDiagnostic 0 stop FileTooLarge])
  else
    lx ← lex_loop len 0 source (MkLexer [] [] []);
    lx ← report_utf8 source lx;
    Done (MkTokens (lx_kinds lx ++ [Eof]) (lx_starts lx ++ [u32 len; u32 len]), lx_diags lx).

Example lex_small :
  lex (bytes_of "let x = 1.5f32; // c") =
  Done (MkTokens [KwLet; Whitespace; Ident; Whitespace; Eq; Whitespace; Float; Semi; Whitespace;
                  LineComment; Eof]
                 [0; 3; 4; 5; 6; 7; 8; 14; 15; 16; 20; 20]%Z, []).
Proof. vm_compute. reflexivity. Qed.
Example lex_bad_suffix :
  lex (bytes_of "1__0") =
  Done (MkTokens [Int; Error; Eof] [0; 1; 4; 4]%Z, [MkDiagnostic 1 4 BadSuffix]).
Proof. vm_compute. reflexivity. Qed.
