(* ===== verification/LexScan.v ===== *)
(** * The scanners of the lexer

    How far each scanner of Lexer goes, that the fuel it is given is enough, and
    that it depends on nothing past where it stops: on the text cut there, or
    anywhere further on, it finds the same. *)

From Stdlib Require Import Strings.Byte.
From S2P Require Import Prelude Token Lexer.
Local Open Scope nat_scope.
Local Open Scope byte_scope.

(** ** Scanners stay in the text *)

Lemma scan_while_le ok l : scan_while ok l ≤ length l.
Proof. induction l as [|b l IH]; simpl; [done|]. destruct (ok b); lia. Qed.

Lemma list_step_ind {A} (P : list A → Prop) :
  P [] → (∀ a, P [a]) → (∀ a b l, P l → P (b :: l) → P (a :: b :: l)) → ∀ l, P l.
Proof.
  intros H0 H1 H2 l. enough (P l ∧ ∀ a, P (a :: l)) by tauto.
  induction l as [|b l [IH IH']]; [auto|]. split; [done|]. intros a. by apply H2.
Qed.

Lemma scan_digit_run_le ok l : scan_digit_run ok l ≤ length l.
Proof.
  induction l as [|b|b c l IH IH'] using list_step_ind; simpl; [done|destruct (ok b); lia|].
  simpl in IH'. destruct (ok b); [lia|]. destruct (isb _ b && ok c); simpl; lia.
Qed.

Lemma scan_digit_run_pos ok b l : ok b = true → 1 ≤ scan_digit_run ok (b :: l).
Proof. intros Hb. simpl. rewrite Hb. lia. Qed.

Lemma block_comment_le l depth n t : block_comment depth l = (n, t) → n ≤ length l.
Proof.
  revert depth n t. induction l as [|b|b c l IH IH'] using list_step_ind; intros depth n t; simpl.
  - intros [= <- <-]. lia.
  - intros [= <- <-]. lia.
  - destruct (isb _ b && isb _ c).
    { destruct (block_comment _ l) as [m t'] eqn:E. intros [= <- <-]. apply IH in E. lia. }
    destruct (isb _ b && isb _ c).
    { destruct (_ =? 0)%Z; [intros [= <- <-]; lia|].
      destruct (block_comment _ l) as [m t'] eqn:E. intros [= <- <-]. apply IH in E. lia. }
    destruct (match l with [] => _ | _ :: _ => _ end) as [m t'] eqn:E.
    intros [= <- <-]. specialize (IH' depth m t'). simpl in IH'. specialize (IH' E). lia.
Qed.

Lemma at_is_lt l k c : at_is l k c = true → k < length l.
Proof. unfold at_is. destruct (l !! k) eqn:E; [|done]. by apply lookup_lt_Some in E. Qed.
Lemma at_ok_lt l k ok : at_ok l k ok = true → k < length l.
Proof. unfold at_ok. destruct (l !! k) eqn:E; [|done]. by apply lookup_lt_Some in E. Qed.

Lemma multiline_total fuel l : 2 ≤ length l ≤ fuel →
  ∃ n, scan_multiline_string fuel l = Done n ∧ 2 ≤ n ≤ length l.
Proof.
  revert l. induction fuel as [|fuel IH]; intros l Hl; [lia|].
  cbn [scan_multiline_string]. set (p := λ b, negb (isb newline b)).
  pose proof (scan_while_le p (drop 2 l)) as H1. rewrite length_drop in H1.
  set (e := 2 + scan_while p (drop 2 l)) in *.
  pose proof (scan_while_le is_ws (drop e l)) as H2. rewrite length_drop in H2.
  set (k := e + scan_while is_ws (drop e l)) in *.
  destruct (at_is l k backslash && at_is l (k + 1) backslash) eqn:E.
  - apply andb_true_iff in E as [_ E%at_is_lt].
    destruct (IH (drop k l)) as (n & -> & Hn); [rewrite length_drop; lia|].
    rewrite length_drop in Hn. eexists. split; [done|]. lia.
  - eexists. split; [done|]. lia.
Qed.

(** ** Numbers *)

Lemma number_digits_le l p r : at_ok l 0 is_dec = true → number_digits l = (p, r) →
  1 ≤ p ≤ length l.
Proof.
  intros Hb. unfold number_digits.
  pose proof (scan_digit_run_le is_dec l) as H1.
  assert (1 ≤ scan_digit_run is_dec l) as H2.
  { destruct l as [|b l]; [done|]. by apply scan_digit_run_pos. }
  destruct (at_is _ 0 _); [|by intros [= <- <-]].
  destruct (if at_is _ 1 _ then _ else _) as [ok|]; [|by intros [= <- <-]].
  destruct (at_ok _ 2 ok) eqn:E; [|by intros [= <- <-]]. apply at_ok_lt in E.
  pose proof (scan_digit_run_le ok (drop 2 l)) as H3. rewrite length_drop in H3.
  intros [= <- <-]. lia.
Qed.

Lemma number_fraction_le l p p' f : p ≤ length l → number_fraction l p = (p', f) →
  p ≤ p' ≤ length l.
Proof.
  intros Hp. unfold number_fraction. destruct (_ && _) eqn:E; [|by intros [= <- <-]].
  apply andb_true_iff in E as [_ E%at_ok_lt].
  pose proof (scan_digit_run_le is_dec (drop (p + 1) l)) as H. rewrite length_drop in H.
  intros [= <- <-]. lia.
Qed.

Lemma number_exponent_le l p f p' f' : p ≤ length l → number_exponent l p f = (p', f') →
  p ≤ p' ≤ length l.
Proof.
  intros Hp. unfold number_exponent. destruct (_ || _); [|by intros [= <- <-]].
  set (q := if at_is l (p + 1) _ || _ then _ else _).
  assert (p ≤ q) by (subst q; destruct (_ || _); lia).
  destruct (at_ok l q is_dec) eqn:E; [|by intros [= <- <-]]. apply at_ok_lt in E.
  pose proof (scan_digit_run_le is_dec (drop q l)) as H'. rewrite length_drop in H'.
  intros [= <- <-]. lia.
Qed.

(** ** Strings *)

Lemma string_escape_le l n bad : 1 ≤ length l → string_escape l = (n, bad) → 1 ≤ n ≤ length l.
Proof.
  intros Hl. unfold string_escape. destruct (l !! 1) as [c|] eqn:E1.
  2:{ intros [= <- <-]. lia. }
  apply lookup_lt_Some in E1. destruct (existsb _ _); [intros [= <- <-]; lia|].
  destruct (isb _ c).
  { destruct (_ && _) eqn:E; intros [= <- <-]; [|lia].
    apply andb_true_iff in E as [_ E%at_ok_lt]. lia. }
  destruct (isb _ c); [|intros [= <- <-]; lia].
  destruct (at_is _ 2 _) eqn:E2; [|intros [= <- <-]; lia]. apply at_is_lt in E2.
  pose proof (scan_while_le is_hex (drop 3 l)) as H3. rewrite length_drop in H3.
  destruct (_ && _) eqn:E; intros [= <- <-]; [|lia].
  apply andb_true_iff in E as [_ E%at_is_lt]. lia.
Qed.

Lemma string_body_total fuel l bad : length l ≤ fuel →
  ∃ n bad' t, string_body fuel l bad = Done (n, bad', t) ∧ n ≤ length l.
Proof.
  revert l bad. induction fuel as [|fuel IH]; intros [|b l] bad Hl; simpl in *; try lia;
    try (eexists _, _, _; split; [done|lia]).
  destruct (isb newline b); [eexists _, _, _; split; [done|lia]|].
  destruct (isb dquote b); [eexists _, _, _; split; [done|lia]|].
  destruct (if isb backslash b then _ else _) as [n bad1] eqn:E.
  assert (1 ≤ n ≤ S (length l)) as Hn.
  { destruct (isb backslash b); [apply string_escape_le in E; simpl in *; lia|]. injection E as <- <-. lia. }
  destruct (IH (drop n (b :: l)) (bad || bad1)) as (m & bad2 & t & -> & Hm);
    [rewrite length_drop; simpl; lia|].
  rewrite length_drop in Hm. simpl in Hm. eexists _, _, _. split; [done|]. lia.
Qed.

(** ** Kinds *)

Definition plain_kind (k : TokenKind) : bool := match k with Error | Eof => false | _ => true end.

Lemma keyword_plain w : plain_kind (default Ident (keyword_kind w)) = true.
Proof.
  unfold keyword_kind. destruct (List.find _ keywords) as [[t k]|] eqn:E; [|done].
  apply find_some in E as [Hin _]. simpl.
  assert (forallb (λ kv : string * TokenKind, plain_kind kv.2) keywords = true) as Hall
    by (vm_compute; reflexivity).
  rewrite forallb_forall in Hall. by apply (Hall (t, k)).
Qed.

(** [case_ifs] splits a chain of [if]s in the goal's first hypothesis. *)
Ltac case_ifs := repeat match goal with
  | |- (if ?b then _ else _) = _ → _ => destruct b eqn:?
  end.

Lemma scan_punct_spec l k n : scan_punct l = Some (k, n) →
  plain_kind k = true ∧ 1 ≤ n ≤ length l.
Proof.
  unfold scan_punct, two. case_ifs; try done; intros [= <- <-]; (split; [reflexivity|]);
    repeat match goal with H : at_is _ _ _ = true |- _ => apply at_is_lt in H end; lia.
Qed.

(** ** Scanners on a text cut past where they stop *)

Lemma lookup_cut (l : list byte) m k : k < m → take m l !! k = l !! k.
Proof. apply lookup_take_lt. Qed.

Lemma at_is_cut l m k c : at_is (take m l) k c = at_is l k c && bool_decide (k < m).
Proof.
  unfold at_is. destruct (decide (k < m)) as [H|H].
  - rewrite lookup_cut, (bool_decide_eq_true_2 _ H), andb_true_r by done. done.
  - rewrite lookup_take_ge, (bool_decide_eq_false_2 _ H), andb_false_r by lia. done.
Qed.

Lemma at_ok_cut l m k ok : at_ok (take m l) k ok = at_ok l k ok && bool_decide (k < m).
Proof.
  unfold at_ok. destruct (decide (k < m)) as [H|H].
  - rewrite lookup_cut, (bool_decide_eq_true_2 _ H), andb_true_r by done. done.
  - rewrite lookup_take_ge, (bool_decide_eq_false_2 _ H), andb_false_r by lia. done.
Qed.

Lemma scan_while_cut ok l m : scan_while ok l ≤ m → scan_while ok (take m l) = scan_while ok l.
Proof.
  revert m. induction l as [|b l IH]; intros m; [by rewrite take_nil|]. simpl.
  destruct (ok b) eqn:Hb; intros Hm.
  - destruct m as [|m]; [lia|]. simpl. rewrite Hb, IH by lia. done.
  - destruct m as [|m]; simpl; [done|]. by rewrite Hb.
Qed.

Lemma scan_while_cut_drop ok l k m : k + scan_while ok (drop k l) ≤ m →
  scan_while ok (drop k (take m l)) = scan_while ok (drop k l).
Proof. intros Hm. rewrite skipn_firstn_comm. apply scan_while_cut. lia. Qed.

Lemma scan_digit_run_cut ok l m : scan_digit_run ok l ≤ m →
  scan_digit_run ok (take m l) = scan_digit_run ok l.
Proof.
  revert m. induction l as [|b|b c l IH IH'] using list_step_ind; intros m.
  - by rewrite take_nil.
  - destruct m as [|m]; simpl; destruct (ok b) eqn:Hb; try lia; by rewrite take_nil, ?Hb.
  - simpl in *. destruct (ok b) eqn:Hb; intros Hm.
    + destruct m as [|m]; [lia|]. simpl. rewrite Hb. f_equal. apply IH'. lia.
    + destruct m as [|m]; [by destruct (isb _ b && ok c); simpl in *; [lia|]|].
      simpl. rewrite Hb. destruct (isb _ b && ok c) eqn:E.
      * destruct m as [|m]; [simpl in *; lia|]. simpl. rewrite E. do 2 f_equal. apply IH. simpl in *; lia.
      * destruct m as [|m]; [done|]. simpl. by rewrite E.
Qed.

Lemma scan_digit_run_cut_drop ok l k m : k + scan_digit_run ok (drop k l) ≤ m →
  scan_digit_run ok (drop k (take m l)) = scan_digit_run ok (drop k l).
Proof. intros Hm. rewrite skipn_firstn_comm. apply scan_digit_run_cut. lia. Qed.

Lemma block_comment_cut depth l n m : block_comment depth l = (n, true) → n ≤ m →
  block_comment depth (take m l) = (n, true).
Proof.
  revert depth n m. induction l as [|b|b c l IH IH'] using list_step_ind; intros depth n m; [done..|].
  cbn [block_comment]. destruct (isb "/" b && isb "*" c) eqn:E1.
  { destruct (block_comment _ l) as [k t] eqn:E. intros [= <- ->] Hm.
    destruct m as [|[|m]]; try lia. simpl. rewrite E1, (IH _ _ m E) by lia. done. }
  destruct (isb "*" b && isb "/" c) eqn:E2.
  { destruct (depth - 1 =? 0)%Z eqn:E0.
    - intros [= <-] Hm. destruct m as [|[|m]]; try lia. simpl. by rewrite E1, E2, E0.
    - destruct (block_comment _ l) as [k t] eqn:E. intros [= <- ->] Hm.
      destruct m as [|[|m]]; try lia. simpl. rewrite E1, E2, E0, (IH _ _ m E) by lia. done. }
  change (match l with [] => _ | _ :: _ => _ end) with (block_comment depth (c :: l)).
  destruct (block_comment depth (c :: l)) as [k t] eqn:E. intros [= <- ->] Hm.
  destruct m as [|m]; [lia|]. pose proof (IH' _ _ m E ltac:(lia)) as H. simpl take in *.
  destruct m as [|m]; [done|]. simpl take in *.
  cbn [block_comment] in H |- *. rewrite E1, E2. by rewrite H.
Qed.

Lemma multiline_ge fuel l n : scan_multiline_string fuel l = Done n → 2 ≤ n.
Proof.
  destruct fuel as [|fuel]; [done|]. cbn [scan_multiline_string].
  destruct (_ && _); [|intros [= <-]; lia].
  destruct (scan_multiline_string _ _); try done. intros [= <-]. lia.
Qed.

Lemma scan_while_take ok l m : scan_while ok (take m l) = m `min` scan_while ok l.
Proof.
  revert m. induction l as [|b l IH]; intros [|m]; simpl; try done.
  destruct (ok b); [|done]. by rewrite IH.
Qed.

Lemma multiline_cut fuel l n : scan_multiline_string fuel l = Done n → 2 ≤ length l →
  ∀ m fuel', n ≤ m → n ≤ fuel' → scan_multiline_string fuel' (take m l) = Done n.
Proof.
  revert l n. induction fuel as [|fuel IH]; intros l n; [done|]. cbn [scan_multiline_string].
  set (p := λ b, negb (isb newline b)).
  set (e := 2 + scan_while p (drop 2 l)). set (k := e + scan_while is_ws (drop e l)).
  destruct (at_is l k backslash && at_is l (k + 1) backslash) eqn:E.
  - destruct (scan_multiline_string fuel (drop k l)) as [| |n'] eqn:En; try done.
    assert (∀ a, (Done n' ≫= λ n, Done (k + n)) = Done a → a = k + n') as Ha by (by intros ? [= <-]).
    intros ->%Ha H2 m fuel' Hm Hf. destruct fuel' as [|fuel']; [lia|].
    pose proof E as [_ Hk%at_is_lt]%andb_true_iff. pose proof (multiline_ge _ _ _ En) as Hn'.
    cbn [scan_multiline_string]. fold p. rewrite (scan_while_cut_drop p) by lia. fold e.
    rewrite scan_while_cut_drop by lia. fold k.
    rewrite !at_is_cut, !bool_decide_eq_true_2, !andb_true_r, E by lia.
    rewrite skipn_firstn_comm.
    rewrite (IH _ _ En) by (rewrite ?length_drop; lia). done.
  - intros [= <-] H2 m fuel' Hm Hf. destruct fuel' as [|fuel']; [lia|].
    cbn [scan_multiline_string]. fold p. rewrite (scan_while_cut_drop p) by lia. fold e.
    rewrite skipn_firstn_comm, scan_while_take, !at_is_cut.
    destruct (decide (k <= m)) as [Hkm|Hkm].
    + rewrite Nat.min_r by lia. fold k.
      destruct (at_is l k backslash), (at_is l (k + 1) backslash); try done; by rewrite ?andb_false_r.
    + rewrite Nat.min_l by lia. rewrite (bool_decide_eq_false_2 (e + (m - e) < m)) by lia.
      by rewrite andb_false_r.
Qed.

Lemma number_digits_cut l m p r : number_digits l = (p, r) → p ≤ m → at_ok l 0 is_dec = true →
  number_digits (take m l) = (p, r).
Proof.
  intros Hl Hm Hd. pose proof (number_digits_le _ _ _ Hd Hl) as Hp. revert Hl.
  unfold number_digits. rewrite !at_is_cut.
  rewrite (bool_decide_eq_true_2 (0 < m)), andb_true_r by lia.
  destruct (at_is l 0 "0"); [|intros [= <- <-]; by rewrite scan_digit_run_cut].
  set (check := if at_is l 1 "x" then _ else _).
  set (check' := if at_is l 1 "x" && _ then _ else _).
  assert (check' = check ∨ m ≤ 1) as [->|H1].
  { subst check check'. destruct (decide (1 < m)); [left|right; lia].
    by rewrite !bool_decide_eq_true_2, !andb_true_r by lia. }
  - destruct check as [ok|]; [|intros [= <- <-]; by rewrite scan_digit_run_cut].
    rewrite at_ok_cut. destruct (at_ok l 2 ok) eqn:E; simpl; intros [= <- <-].
    + assert (at_ok (drop 2 l) 0 ok = true) as E' by (unfold at_ok in *; by rewrite lookup_drop).
      assert (1 ≤ scan_digit_run ok (drop 2 l)) as H3.
      { destruct (drop 2 l); [done|]. by apply scan_digit_run_pos. }
      rewrite bool_decide_eq_true_2 by lia. by rewrite scan_digit_run_cut_drop.
    + by rewrite scan_digit_run_cut.
  - assert (check' = None) as ->.
    { subst check'. by rewrite !bool_decide_eq_false_2, !andb_false_r by lia. }
    destruct check as [ok|]; [|intros [= <- <-]; by rewrite scan_digit_run_cut].
    destruct (at_ok l 2 ok) eqn:E; intros [= <- <-]; [lia|by rewrite scan_digit_run_cut].
Qed.

Lemma number_fraction_cut l m p p' f : number_fraction l p = (p', f) → p ≤ m → p' ≤ m →
  number_fraction (take m l) p = (p', f).
Proof.
  unfold number_fraction. rewrite at_is_cut, at_ok_cut.
  destruct (at_is l p ".") eqn:E1; simpl; [|by intros [= <- <-]].
  destruct (at_ok l (p + 1) is_dec) eqn:E2; simpl; [|by rewrite andb_false_r; intros [= <- <-]].
  intros [= <- <-] _ Hm.
  assert (at_ok (drop (p + 1) l) 0 is_dec = true) as E' by
    (unfold at_ok in *; by rewrite lookup_drop, Nat.add_0_r).
  assert (1 ≤ scan_digit_run is_dec (drop (p + 1) l)) as H3.
  { destruct (drop (p + 1) l); [done|]. by apply scan_digit_run_pos. }
  rewrite !bool_decide_eq_true_2 by lia. simpl. by rewrite scan_digit_run_cut_drop.
Qed.

Lemma number_exponent_cut l m p f p' f' : number_exponent l p f = (p', f') → p' ≤ m →
  number_exponent (take m l) p f = (p', f').
Proof.
  unfold number_exponent. rewrite !at_is_cut, !at_ok_cut.
  set (s := at_is l (p + 1) "+" || at_is l (p + 1) "-"). rewrite <- !andb_orb_distrib_l. fold s.
  destruct (at_is l p "e" || at_is l p "E"); simpl; [|by intros [= <- <-]].
  destruct (at_ok l (if s then _ else _) is_dec) eqn:E.
  - intros [= <- <-] Hm. set (q := if s then p + 1 + 1 else p + 1) in *.
    assert (at_ok (drop q l) 0 is_dec = true) as E' by
      (unfold at_ok in *; by rewrite lookup_drop, Nat.add_0_r).
    assert (1 ≤ scan_digit_run is_dec (drop q l)) as H3.
    { destruct (drop q l); [done|]. by apply scan_digit_run_pos. }
    assert (p + 1 ≤ q) by (subst q; destruct s; lia).
    rewrite !bool_decide_eq_true_2, !andb_true_r by lia. fold q. rewrite E.
    rewrite bool_decide_eq_true_2 by lia. simpl. by rewrite scan_digit_run_cut_drop.
  - intros [= <- <-] Hm. destruct (bool_decide (p < m)); [|done].
    destruct (decide (p + 1 < m)) as [H1|H1].
    + rewrite (bool_decide_eq_true_2 (p + 1 < m)), andb_true_r by lia. by rewrite E.
    + rewrite (bool_decide_eq_false_2 (p + 1 < m)), andb_false_r by lia.
      cbv iota. rewrite (bool_decide_eq_false_2 (p + 1 < m)) by lia. by rewrite andb_false_r.
Qed.

Lemma string_escape_cut l m n bad : string_escape l = (n, bad) → n < m →
  string_escape (take m l) = (n, bad).
Proof.
  intros Hl Hm. revert Hl. unfold string_escape. cbv zeta. rewrite !at_ok_cut, !at_is_cut.
  destruct (l !! 1) as [c|] eqn:E1.
  2:{ intros [= <- <-]. rewrite lookup_cut by done. by rewrite E1. }
  assert (1 ≤ n → take m l !! 1 = Some c) as Hc by (intros; rewrite lookup_cut by lia; done).
  destruct (existsb _ _) eqn:E2; [intros [= <- <-]; rewrite Hc by lia; by rewrite E2|].
  destruct (isb "x" c) eqn:E3.
  { destruct (at_ok l 2 is_hex && at_ok l 3 is_hex) eqn:E4; intros [= <- <-];
      rewrite Hc by lia; rewrite E2, E3.
    - by rewrite !bool_decide_eq_true_2, !andb_true_r, E4 by lia.
    - by destruct (at_ok l 2 is_hex), (at_ok l 3 is_hex), (bool_decide (2 < m)), (bool_decide (3 < m)). }
  destruct (isb "u" c) eqn:E4; [|intros [= <- <-]; rewrite Hc by lia; by rewrite E2, E3, E4].
  destruct (at_is l 2 "{") eqn:E5.
  - set (q := 3 + scan_while is_hex (drop 3 l)).
    intros Hn. assert (q ≤ n) as Hq by (destruct (_ && _) in Hn; injection Hn; lia).
    rewrite Hc, E2, E3, E4 by lia. rewrite bool_decide_eq_true_2, scan_while_cut_drop by lia.
    fold q. rewrite (bool_decide_eq_true_2 (q < m)) by lia. by rewrite !andb_true_r.
  - intros [= <- <-]. rewrite Hc by lia. by rewrite E2, E3, E4.
Qed.

(** One turn of the loop goes on by a byte at least. *)
Lemma string_step_pos b l k bad :
  (if isb backslash b then string_escape (b :: l) else (1, false)) = (k, bad) → 1 ≤ k.
Proof.
  destruct (isb backslash b); [|intros [= <- _]; lia].
  intros H%string_escape_le; simpl in *; lia.
Qed.

Lemma string_body_pos fuel l bad n bad' :
  string_body fuel l bad = Done (n, bad', true) → 1 ≤ n.
Proof.
  destruct l as [|b l], fuel as [|fuel]; try done. cbn [string_body].
  destruct (isb newline b); [done|]. destruct (isb dquote b); [intros [= <- _]; lia|].
  destruct (if isb backslash b then _ else _) as [k bad1] eqn:E. apply string_step_pos in E.
  destruct (string_body fuel _ _) as [| |[[? ?] ?]]; try done. intros [= <- _ _]. lia.
Qed.

Lemma string_body_cut fuel l bad n bad' : string_body fuel l bad = Done (n, bad', true) →
  ∀ m fuel', n ≤ m → n ≤ fuel' → string_body fuel' (take m l) bad = Done (n, bad', true).
Proof.
  revert l bad n bad'. induction fuel as [|fuel IH]; intros [|b l] bad n bad'; try done.
  cbn [string_body]. destruct (isb newline b) eqn:E1; [done|].
  destruct (isb dquote b) eqn:E2.
  { intros [= <- <-] m fuel' Hm Hf. destruct m as [|m], fuel' as [|fuel']; try lia.
    simpl. by rewrite E1, E2. }
  destruct (if isb backslash b then _ else _) as [k bad1] eqn:E3.
  destruct (string_body fuel _ _) as [| |[[n2 bad2] t]] eqn:E4; try done.
  intros Hn m fuel' Hm Hf. assert (n = k + n2 ∧ bad' = bad2 ∧ t = true) as (-> & -> & ->)
    by (injection Hn; auto).
  pose proof (string_step_pos _ _ _ _ E3) as Hk.
  pose proof (string_body_pos _ _ _ _ _ E4) as Hn2.
  destruct m as [|m], fuel' as [|fuel']; try lia. simpl take. cbn [string_body]. rewrite E1, E2.
  assert ((if isb backslash b then string_escape (b :: take m l) else (1, false)) = (k, bad1)) as ->.
  { destruct (isb backslash b); [|done]. apply (string_escape_cut _ (S m)) in E3; [done|lia]. }
  change (b :: take m l) with (take (S m) (b :: l)). rewrite skipn_firstn_comm.
  rewrite (IH _ _ _ _ E4) by lia. done.
Qed.

Lemma two_cut l m cases one k n : two l cases one = Some (k, n) → n ≤ m →
  two (take m l) cases one = Some (k, n).
Proof.
  induction cases as [|[c k'] cases IH]; simpl; [done|]. rewrite at_is_cut.
  destruct (at_is l 1 c); [|auto]. intros [= <- <-] Hm. by rewrite bool_decide_eq_true_2 by lia.
Qed.

Lemma scan_punct_cut l m k n : scan_punct l = Some (k, n) → n ≤ m →
  scan_punct (take m l) = Some (k, n).
Proof.
  intros Hl Hm. pose proof (scan_punct_spec _ _ _ Hl) as [_ Hn]. revert Hl.
  unfold scan_punct. rewrite !at_is_cut, (bool_decide_eq_true_2 (0 < m)), !andb_true_r by lia.
  repeat match goal with
  | |- (if at_is l 0 ?c then _ else _) = _ → _ => destruct (at_is l 0 c)
  end; try done; try (intros H; by apply two_cut).
  - destruct (at_is l 1 "<"); [|intros H; by apply two_cut].
    destruct (at_is l 2 "="); intros [= <- <-]; by rewrite ?bool_decide_eq_true_2 by lia.
  - destruct (at_is l 1 ">"); [|intros H; by apply two_cut].
    destruct (at_is l 2 "="); intros [= <- <-]; by rewrite ?bool_decide_eq_true_2 by lia.
Qed.
