(* ===== verification/LexerProps.v ===== *)
(** * Theorems on the lexer

    One construct of the main loop emits items: tokens with their lengths, an
    error token with its code.  The stream of a file is the items of its
    constructs, which cover it without gap or overlap. *)

From Stdlib Require Import Strings.Byte.
From S2P Require Import Prelude Token Utf8 Lexer LexScan.
Local Open Scope nat_scope.
Local Open Scope byte_scope.

(** ** Items *)

Record item : Type := MkItem { it_kind : TokenKind; it_len : nat; it_code : option DiagCode }.

Definition total (its : list item) : nat := sum_list_with it_len its.

(** An error token, and only that, carries a code. *)
Definition item_ok (it : item) : Prop :=
  1 ≤ it_len it ∧ it_kind it ≠ Eof ∧ (it_kind it = Error ↔ is_Some (it_code it)) ∧
  it_code it ≠ Some FileTooLarge ∧ it_code it ≠ Some InvalidUtf8.

Fixpoint item_starts (pos : nat) (its : list item) : list Z :=
  match its with [] => [] | it :: its => u32 pos :: item_starts (pos + it_len it) its end.

Fixpoint item_diags (pos : nat) (its : list item) : list Diagnostic :=
  match its with
  | [] => []
  | it :: its =>
      match it_code it with
      | Some c => [MkDiagnostic (u32 pos) (u32 (pos + it_len it)) c]
      | None => []
      end ++ item_diags (pos + it_len it) its
  end.

Definition emit (pos : nat) (its : list item) (lx : Lexer) : Lexer :=
  MkLexer (lx_kinds lx ++ (it_kind <$> its)) (lx_starts lx ++ item_starts pos its)
    (lx_diags lx ++ item_diags pos its).

Lemma emit_nil pos lx : emit pos [] lx = lx.
Proof. destruct lx. unfold emit. simpl. by rewrite !app_nil_r. Qed.

Lemma item_starts_app pos its its' :
  item_starts pos (its ++ its') = item_starts pos its ++ item_starts (pos + total its) its'.
Proof.
  revert pos. induction its as [|it its IH]; intros pos; simpl; [by rewrite Nat.add_0_r|].
  by rewrite IH, Nat.add_assoc.
Qed.

Lemma item_diags_app pos its its' :
  item_diags pos (its ++ its') = item_diags pos its ++ item_diags (pos + total its) its'.
Proof.
  revert pos. induction its as [|it its IH]; intros pos; simpl; [by rewrite Nat.add_0_r|].
  by rewrite IH, Nat.add_assoc, <- app_assoc.
Qed.

Lemma total_app its its' : total (its ++ its') = total its + total its'.
Proof. apply sum_list_with_app. Qed.

Lemma emit_app pos its its' lx :
  emit pos (its ++ its') lx = emit (pos + total its) its' (emit pos its lx).
Proof.
  unfold emit. simpl. by rewrite fmap_app, item_starts_app, item_diags_app, !app_assoc.
Qed.

(** ** One construct emits items *)

Definition token_item (k : TokenKind) (n : nat) : item := MkItem k n None.
Definition error_item (c : DiagCode) (n : nat) : item := MkItem Error n (Some c).

Lemma token_item_ok k n : plain_kind k = true → 1 ≤ n → item_ok (token_item k n).
Proof.
  intros Hk Hn. unfold item_ok. simpl. split_and!; try done; [by intros ->|].
  split; [by intros ->|]. by intros [].
Qed.
Lemma error_item_ok c n : c ≠ FileTooLarge → c ≠ InvalidUtf8 → 1 ≤ n → item_ok (error_item c n).
Proof. intros ???. unfold item_ok. simpl. split_and!; try done; congruence. Qed.

Lemma push_emit k n pos lx : push k pos lx = emit pos [token_item k n] lx.
Proof. unfold push, emit. simpl. by rewrite app_nil_r. Qed.
Lemma error_emit c n pos lx :
  push Error pos (diag pos (pos + n) c lx) = emit pos [error_item c n] lx.
Proof. done. Qed.

Lemma push_two_emit k p c n pos lx :
  push Error (pos + p) (diag (pos + p) (pos + p + n) c (push k pos lx)) =
  emit pos [token_item k p; error_item c n] lx.
Proof. unfold push, diag, emit. simpl. by rewrite <- !app_assoc. Qed.

(** What [lex_one] does depends on nothing past the item it emits first, unless
    that is an error: on the text cut after it, it emits that item alone. *)
Definition stands (b : byte) (l : list byte) (its : list item) : Prop :=
  match its with
  | it :: rest =>
      (it_code it = None → ∀ pos lx,
         lex_one pos b (take (it_len it) l) lx = Done (push (it_kind it) pos lx, it_len it)) ∧
      Forall (λ it, is_Some (it_code it)) rest
  | [] => True
  end.

(** The items of the construct at the head of [l], wherever it is. *)
Definition emits (b : byte) (l : list byte) (its : list item) : Prop :=
  (∀ pos lx, lex_one pos b l lx = Done (emit pos its lx, total its)) ∧
  Forall item_ok its ∧ 1 ≤ total its ≤ length l ∧ stands b l its.

(** [lex_one] goes to [F] on the text at the head of [l], cut anywhere past [k]. *)
Definition goes (b : byte) (l : list byte) (k : nat)
    (F : nat → list byte → Lexer → res (Lexer * nat)) : Prop :=
  ∀ m pos lx, k ≤ m → lex_one pos b (take m l) lx = F pos (take m l) lx.

Lemma goes_self b l k F : goes b l k F → k ≤ length l →
  ∀ pos lx, lex_one pos b l lx = F pos l lx.
Proof. intros HF Hk pos lx. specialize (HF (length l) pos lx Hk). by rewrite take_ge in HF. Qed.

Lemma emits_token b l k F kind n : goes b l k F →
  (∀ m pos lx, n ≤ m → F pos (take m l) lx = Done (push kind pos lx, n)) →
  plain_kind kind = true → 1 ≤ n → k ≤ n ≤ length l → emits b l [token_item kind n].
Proof.
  intros HF Hl Hk Hn Hkn. unfold emits, stands, total. simpl. rewrite Nat.add_0_r.
  split_and!; try lia.
  - intros pos lx. rewrite <- (push_emit kind n).
    rewrite (goes_self _ _ _ _ HF) by lia. rewrite <- (take_ge l (length l)) by done. apply Hl. lia.
  - constructor; [|constructor]. apply token_item_ok; (done || lia).
  - intros _ pos lx. rewrite HF by lia. by apply Hl.
  - constructor.
Qed.

Lemma emits_error b l k F c n : goes b l k F → k ≤ length l →
  (∀ pos lx, F pos l lx = Done (push Error pos (diag pos (pos + n) c lx), n)) →
  c ≠ FileTooLarge → c ≠ InvalidUtf8 → 1 ≤ n ≤ length l → emits b l [error_item c n].
Proof.
  intros HF Hk Hl Hc Hc' Hn. unfold emits, stands, total. simpl. rewrite Nat.add_0_r.
  split_and!; try lia.
  - intros pos lx. by rewrite (goes_self _ _ _ _ HF), Hl.
  - constructor; [|constructor]. apply error_item_ok; (done || lia).
  - done.
  - constructor.
Qed.

Section construct.
Context (b : byte) (l : list byte) (Hb : head l = Some b).

Lemma length_l : 1 ≤ length l.
Proof using Hb. destruct l; [done|]. simpl. lia. Qed.

(** The bytes past [k] that satisfy [ok]. *)
Lemma run_le ok k : k ≤ length l → k ≤ k + scan_while ok (drop k l) ≤ length l.
Proof. intros Hk. pose proof (scan_while_le ok (drop k l)) as H. rewrite length_drop in H. lia. Qed.

Lemma emits_whitespace : goes b l 1 (λ pos l lx, Done (lex_whitespace pos l lx)) →
  ∃ its, emits b l its.
Proof using Hb.
  intros Hl. pose proof (run_le is_ws 1 length_l). eexists.
  eapply (emits_token _ _ _ _ Whitespace (1 + scan_while is_ws (drop 1 l)) Hl); [|done|lia..].
  intros m pos lx Hm. unfold lex_whitespace. by rewrite scan_while_cut_drop.
Qed.

Lemma emits_line_comment : 2 ≤ length l →
  goes b l 2 (λ pos l lx, Done (lex_line_comment pos l lx)) → ∃ its, emits b l its.
Proof.
  intros H2 Hl. set (p := λ b, negb (isb newline b)). pose proof (run_le p 2 H2). eexists.
  eapply (emits_token _ _ _ _ LineComment (2 + scan_while p (drop 2 l)) Hl); [|done|lia..].
  intros m pos lx Hm. unfold lex_line_comment. by rewrite scan_while_cut_drop.
Qed.

Lemma emits_block_comment : 2 ≤ length l →
  goes b l 2 (λ pos l lx, Done (lex_block_comment pos l lx)) → ∃ its, emits b l its.
Proof.
  intros H2 Hl. destruct (block_comment 1 (drop 2 l)) as [n t] eqn:E.
  pose proof (block_comment_le _ _ _ _ E) as Hn. rewrite length_drop in Hn. destruct t; eexists.
  - eapply (emits_token _ _ _ _ BlockComment (2 + n) Hl); [|done|lia..]. intros m pos lx Hm.
    unfold lex_block_comment. rewrite skipn_firstn_comm. by rewrite (block_comment_cut _ _ n) by (done || lia).
  - eapply (emits_error _ _ _ _ UnterminatedBlockComment (2 + n) Hl); [done| |done..|lia].
    intros pos lx. unfold lex_block_comment. by rewrite E.
Qed.

Lemma emits_word : goes b l 1 (λ pos l lx, Done (lex_ident_or_keyword pos l lx)) →
  ∃ its, emits b l its.
Proof using Hb.
  intros Hl. pose proof (run_le is_ident_continue 1 length_l). eexists.
  eapply (emits_token _ _ _ _ _ (1 + scan_while is_ident_continue (drop 1 l)) Hl); [| |lia..].
  - intros m pos lx Hm. unfold lex_ident_or_keyword. rewrite scan_while_cut_drop by done.
    by rewrite take_take, Nat.min_l by done.
  - case_bool_decide; [done|apply keyword_plain].
Qed.

(** The end of the literal without its suffix, and its kind. *)
Definition number_body (l : list byte) : nat * bool * bool :=
  let '(pos, is_radix) := number_digits l in
  let '(pos, is_float) :=
    if is_radix : bool then (pos, false)
    else let '(pos, f) := number_fraction l pos in number_exponent l pos f in
  (pos, is_radix, is_float).

Lemma number_body_le p r f : is_dec b = true → number_body l = (p, r, f) → 1 ≤ p ≤ length l.
Proof using Hb.
  intros Hd. unfold number_body. destruct (number_digits l) as [p0 r0] eqn:E0.
  apply number_digits_le in E0; [|by destruct l; simplify_eq/=].
  destruct (if r0 then _ else _) as [p1 f1] eqn:E1. intros [= <- <- <-].
  destruct r0; [injection E1 as <- <-; lia|].
  destruct (number_fraction l p0) as [p2 f2] eqn:E2. apply number_fraction_le in E2; [|lia].
  apply number_exponent_le in E1; lia.
Qed.

Lemma number_body_cut p r f m : is_dec b = true → number_body l = (p, r, f) → p ≤ m →
  number_body (take m l) = (p, r, f).
Proof using Hb.
  intros Hd Hl Hm. assert (at_ok l 0 is_dec = true) as Hd' by (by destruct l; simplify_eq/=).
  revert Hl. unfold number_body. destruct (number_digits l) as [p0 r0] eqn:E0.
  pose proof (number_digits_le _ _ _ Hd' E0) as H0.
  destruct (if r0 then _ else _) as [p1 f1] eqn:E1. intros [= -> -> ->].
  destruct r.
  { injection E1 as -> <-. by rewrite (number_digits_cut _ _ _ _ E0). }
  destruct (number_fraction l p0) as [p2 f2] eqn:E2.
  pose proof (number_fraction_le _ _ _ _ (proj2 H0) E2) as H2.
  pose proof (number_exponent_le _ _ _ _ _ (proj2 H2) E1) as H1.
  rewrite (number_digits_cut _ _ _ _ E0) by (done || lia).
  rewrite (number_fraction_cut _ _ _ _ _ E2) by lia.
  by rewrite (number_exponent_cut _ _ _ _ _ _ E1) by lia.
Qed.

Definition number_end (l : list byte) (p : nat) : nat :=
  p + scan_while is_ident_continue (drop p l).

Lemma number_end_cut p m : number_end l p ≤ m → number_end (take m l) p = number_end l p.
Proof. intros Hm. unfold number_end. by rewrite scan_while_cut_drop. Qed.

Lemma lex_number_body pos l' lx p r f : number_body l' = (p, r, f) →
  lex_number pos l' lx =
  let e := number_end l' p in
  let suffix := take (e - p) (drop p l') in
  let kind := if f then Float else Int in
  if bool_decide (suffix = []) then (push kind pos lx, p)
  else if is_legal_suffix suffix r f then (push kind pos lx, e)
  else (push Error (pos + p) (diag (pos + p) (pos + e) BadSuffix (push kind pos lx)), e).
Proof.
  unfold number_body, lex_number. destruct (number_digits l') as [p0 r0].
  destruct (if r0 then _ else _) as [p1 f1]. by intros [= -> -> ->].
Qed.

(** The literal alone: cut at its end, it has no suffix. *)
Lemma number_alone p r f pos lx : is_dec b = true → number_body l = (p, r, f) →
  lex_number pos (take p l) lx = (push (if f then Float else Int) pos lx, p).
Proof using Hb.
  intros Hd Hl. rewrite (lex_number_body _ _ _ p r f) by (by apply number_body_cut).
  rewrite skipn_firstn_comm, Nat.sub_diag. cbv zeta.
  rewrite bool_decide_eq_true_2; [done|]. apply nil_length_inv. rewrite !length_take. lia.
Qed.

Lemma suffix_cut p m : number_end l p ≤ m →
  take (number_end l p - p) (drop p (take m l)) = take (number_end l p - p) (drop p l).
Proof. intros Hm. rewrite skipn_firstn_comm, take_take. f_equal. lia. Qed.

Lemma emits_bad_suffix p r f : is_dec b = true → number_body l = (p, r, f) →
  goes b l 1 (λ pos l lx, Done (lex_number pos l lx)) → p < number_end l p →
  (∀ pos lx, lex_number pos l lx =
     (push Error (pos + p) (diag (pos + p) (pos + number_end l p) BadSuffix
        (push (if f then Float else Int) pos lx)), number_end l p)) → ∃ its, emits b l its.
Proof using Hb.
  intros Hd Hbody Hl Hlt Hlex. pose proof (number_body_le _ _ _ Hd Hbody) as Hp.
  pose proof (run_le is_ident_continue p ltac:(lia)) as He. fold (number_end l p) in He.
  assert (plain_kind (if f then Float else Int) = true) as Hk by by destruct f.
  exists [token_item (if f then Float else Int) p; error_item BadSuffix (number_end l p - p)].
  unfold emits, stands, total. simpl. split_and!; try lia.
  - intros pos lx. rewrite (goes_self _ _ _ _ Hl), Hlex by lia.
    replace (pos + number_end l p) with (pos + p + (number_end l p - p)) by lia.
    rewrite push_two_emit. do 2 f_equal. lia.
  - constructor; [apply token_item_ok; (done || lia)|]. constructor; [|constructor].
    apply error_item_ok; (done || lia).
  - intros _ pos lx. rewrite Hl by lia. f_equal. by eapply number_alone.
  - repeat constructor. by eexists.
Qed.

Lemma emits_number : is_dec b = true →
  goes b l 1 (λ pos l lx, Done (lex_number pos l lx)) → ∃ its, emits b l its.
Proof using Hb.
  intros Hd Hl. destruct (number_body l) as [[p r] f] eqn:Hbody.
  pose proof (number_body_le _ _ _ Hd Hbody) as Hp.
  pose proof (run_le is_ident_continue p ltac:(lia)) as He. fold (number_end l p) in He.
  assert (plain_kind (if f then Float else Int) = true) as Hk by by destruct f.
  set (e := number_end l p) in *. set (suffix := take (e - p) (drop p l)).
  assert (∀ m pos lx, e ≤ m → lex_number pos (take m l) lx = lex_number pos l lx) as Hcut.
  { intros m pos lx Hm. rewrite (lex_number_body _ l _ p r f) by done.
    rewrite (lex_number_body _ _ _ p r f) by (apply number_body_cut; (done || lia)).
    cbv zeta. by rewrite number_end_cut, suffix_cut by exact Hm. }
  destruct (bool_decide (suffix = [])) eqn:Hs; [|destruct (is_legal_suffix suffix r f) eqn:Hlegal].
  - assert (e = p) as Hep.
    { apply bool_decide_eq_true in Hs. apply (f_equal length) in Hs. subst suffix.
      rewrite length_take, length_drop in Hs. simpl in Hs. lia. }
    eexists. eapply (emits_token _ _ _ _ _ p Hl); [|exact Hk|lia..]. intros m pos lx Hm.
    rewrite Hcut, (lex_number_body _ l _ p r f) by (done || lia). cbv zeta.
    fold e. fold suffix. by rewrite Hs.
  - eexists. eapply (emits_token _ _ _ _ _ e Hl); [|exact Hk|lia..]. intros m pos lx Hm.
    rewrite Hcut, (lex_number_body _ l _ p r f) by (done || lia). cbv zeta.
    fold e. fold suffix. by rewrite Hs, Hlegal.
  - eapply (emits_bad_suffix p r f); [done..| |].
    + apply bool_decide_eq_false in Hs. destruct (decide (p < e)); [done|]. destruct Hs.
      subst suffix. by replace (e - p) with 0 by lia.
    + intros pos lx. rewrite (lex_number_body _ l _ p r f) by done. cbv zeta.
      fold e. fold suffix. by rewrite Hs, Hlegal.
Qed.

Lemma emits_string : goes b l 1 (λ pos l lx, lex_string pos l lx) → ∃ its, emits b l its.
Proof using Hb.
  intros Hl. pose proof length_l.
  destruct (string_body_total (length l) (drop 1 l) false) as (n & bad & t & Hn & Hle);
    [rewrite length_drop; lia|]. rewrite length_drop in Hle.
  destruct t; [destruct bad|]; eexists.
  - eapply (emits_error _ _ _ _ BadEscape (S n) Hl); [done| |done..|lia].
    intros pos lx. unfold lex_string. by rewrite Hn.
  - eapply (emits_token _ _ _ _ Str (S n) Hl); [|done|lia..]. intros m pos lx Hm.
    unfold lex_string. rewrite skipn_firstn_comm.
    by rewrite (string_body_cut _ _ _ _ _ Hn) by (rewrite ?length_take; lia).
  - eapply (emits_error _ _ _ _ UnterminatedString (S n) Hl); [done| |done..|lia].
    intros pos lx. unfold lex_string. by rewrite Hn.
Qed.

Lemma emits_multiline : 2 ≤ length l →
  goes b l 2 (λ pos l lx, n ← scan_multiline_string (length l) l;
    Done (push MultilineStr pos lx, n)) → ∃ its, emits b l its.
Proof.
  intros H2 Hl. destruct (multiline_total (length l) l) as (n & Hn & Hle); [lia|].
  eexists. eapply (emits_token _ _ _ _ MultilineStr n Hl); [|done|lia..]. intros m pos lx Hm.
  by rewrite (multiline_cut _ _ _ Hn) by (rewrite ?length_take; lia).
Qed.

Lemma emits_dots : 2 ≤ length l →
  goes b l 2 (λ pos l lx, Done (lex_dots pos l lx)) → ∃ its, emits b l its.
Proof.
  intros H2 Hl. assert (∀ c, at_is l 2 c = true → 3 ≤ length l) as H3 by (intros c ?%at_is_lt; lia).
  destruct (at_is l 2 "<") eqn:E; [|destruct (at_is l 2 "=") eqn:E']; eexists.
  - specialize (H3 _ E). eapply (emits_token _ _ _ _ DotDotLt 3 Hl); [|done|lia..].
    intros m pos lx Hm. unfold lex_dots. by rewrite !at_is_cut, E, bool_decide_eq_true_2 by lia.
  - specialize (H3 _ E'). eapply (emits_token _ _ _ _ DotDotEq 3 Hl); [|done|lia..].
    intros m pos lx Hm. unfold lex_dots. by rewrite !at_is_cut, E, E', bool_decide_eq_true_2 by lia.
  - eapply (emits_error _ _ _ _ BadRangeDots 2 Hl); [done| |done..|lia].
    intros pos lx. unfold lex_dots. by rewrite E, E'.
Qed.

Lemma emits_other : goes b l 1 (λ pos l lx, Done (lex_other pos b l lx)) → ∃ its, emits b l its.
Proof using Hb.
  intros Hl. pose proof length_l as Hlen. destruct (scan_punct l) as [[k n]|] eqn:E; eexists.
  - pose proof (scan_punct_spec _ _ _ E) as [Hk Hn].
    eapply (emits_token _ _ _ _ k n Hl); [|done|lia..].
    intros m pos lx Hm. unfold lex_other. by rewrite (scan_punct_cut _ _ _ _ E Hm).
  - eapply (emits_error _ _ _ _ StrayByte _ Hl); [done| |done..|].
    + intros pos lx. unfold lex_other. by rewrite E.
    + destruct (is_non_ascii b); [|lia]. apply (run_le is_non_ascii 1 Hlen).
Qed.

(** A test of the dispatch on the cut text. *)
Lemma test_cut c c' m : isb c b && at_is l 1 c' = false →
  isb c b && at_is (take m l) 1 c' = false.
Proof. rewrite at_is_cut, andb_assoc. by intros ->. Qed.
Lemma test_kept c c' m : isb c b && at_is l 1 c' = true → 2 ≤ m →
  isb c b && at_is (take m l) 1 c' = true.
Proof. intros Ht Hm. by rewrite at_is_cut, andb_assoc, Ht, bool_decide_eq_true_2 by lia. Qed.

(** Every construct emits items. *)
Lemma lex_one_emits : ∃ its, emits b l its.
Proof using Hb.
  assert (∀ c c', isb c b && at_is l 1 c' = true → 2 ≤ length l) as H2
    by (intros c c' [_ ?%at_is_lt]%andb_true_iff; lia).
  destruct (is_ws b) eqn:E1.
  { apply emits_whitespace. intros m pos lx Hm. unfold lex_one. by rewrite E1. }
  destruct (isb "/" b && at_is l 1 "/") eqn:E2.
  { apply emits_line_comment; [eauto|]. intros m pos lx Hm. unfold lex_one. by rewrite E1, (test_kept "/" "/"). }
  pose proof (λ m, test_cut "/" "/" m E2) as C2.
  destruct (isb "/" b && at_is l 1 "*") eqn:E3.
  { apply emits_block_comment; [eauto|]. intros m pos lx Hm. unfold lex_one.
    by rewrite E1, C2, (test_kept "/" "*"). }
  pose proof (λ m, test_cut "/" "*" m E3) as C3.
  destruct (isb backslash b && at_is l 1 backslash) eqn:E4.
  { apply emits_multiline; [eauto|]. intros m pos lx Hm. unfold lex_one.
    by rewrite E1, C2, C3, (test_kept backslash backslash). }
  pose proof (λ m, test_cut backslash backslash m E4) as C4.
  destruct (is_ident_start b) eqn:E5.
  { apply emits_word. intros m pos lx Hm. unfold lex_one. by rewrite E1, C2, C3, C4, E5. }
  destruct (is_dec b) eqn:E6.
  { apply emits_number; [done|]. intros m pos lx Hm. unfold lex_one. by rewrite E1, C2, C3, C4, E5, E6. }
  destruct (isb dquote b) eqn:E7.
  { apply emits_string. intros m pos lx Hm. unfold lex_one. by rewrite E1, C2, C3, C4, E5, E6, E7. }
  destruct (isb "." b && at_is l 1 ".") eqn:E8.
  { apply emits_dots; [eauto|]. intros m pos lx Hm. unfold lex_one.
    by rewrite E1, C2, C3, C4, E5, E6, E7, (test_kept "." "."). }
  pose proof (λ m, test_cut "." "." m E8) as C8.
  apply emits_other. intros m pos lx Hm. unfold lex_one. by rewrite E1, C2, C3, C4, E5, E6, E7, C8.
Qed.
End construct.

(** ** The stream of a file *)

(** [l] is the constructs of its items, one after the other. *)
Inductive parses : list byte → list item → Prop :=
  | parses_nil : parses [] []
  | parses_cons b l its its' : head l = Some b → emits b l its →
      parses (drop (total its) l) its' → parses l (its ++ its').

Lemma parses_facts l its : parses l its → Forall item_ok its ∧ total its = length l.
Proof.
  induction 1 as [|b l its its' Hb (_ & Hok & Hn) _ [IHok IHn]]; [done|].
  rewrite length_drop in IHn. rewrite total_app. split; [by apply Forall_app|lia].
Qed.

(** The main loop never runs out of the fuel [lex] gives it. *)
Lemma lex_loop_emits fuel l : length l ≤ fuel →
  ∃ its, parses l its ∧ ∀ pos lx, lex_loop fuel pos l lx = Done (emit pos its lx).
Proof.
  revert l. induction fuel as [|fuel IH]; intros l Hl.
  { destruct l; simpl in *; [|lia]. exists []. split; [constructor|]. intros. by rewrite emit_nil. }
  destruct l as [|b l]; [exists []; split; [constructor|]; intros; by rewrite emit_nil|].
  destruct (lex_one_emits b (b :: l) eq_refl) as (its & Hits). pose proof Hits as (H1 & _ & Hn).
  destruct (IH (drop (total its) (b :: l))) as (its' & Hp & Hits').
  { rewrite length_drop. simpl in *. lia. }
  exists (its ++ its'). split; [by eapply parses_cons|]. intros pos lx.
  simpl lex_loop. rewrite H1. simpl. rewrite emit_app. apply Hits'.
Qed.

Definition stream (source : list byte) (its : list item) : Tokens :=
  MkTokens ((it_kind <$> its) ++ [Eof])
    (item_starts 0 its ++ [u32 (length source); u32 (length source)]).

Definition fits (source : list byte) : Prop := (Z.of_nat (length source) ≤ MAX_SOURCE_LEN)%Z.

Lemma u32_small n : (Z.of_nat n ≤ MAX_SOURCE_LEN)%Z → u32 n = Z.of_nat n.
Proof.
  intros Hn. unfold u32, wrap. apply Z.mod_small.
  unfold MAX_SOURCE_LEN in Hn. pose proof (Z.pow_lt_mono_r 2 30 32). lia.
Qed.

(** What [lex] returns on a source it accepts: the stream of the items, and
    their diagnostics, with the one of the first invalid sequence. *)
Lemma lex_stream source : fits source → ∃ its r,
  parses source its ∧ from_utf8 source = Done r ∧
  lex source = Done (stream source its,
    match r with
    | Some (at_, e) =>
        if existsb (covers at_) (item_diags 0 its) then item_diags 0 its
        else sort_by_start (item_diags 0 its ++
          [MkDiagnostic (u32 at_) (u32 (at_ + default (length source - at_) e)) InvalidUtf8])
    | None => item_diags 0 its
    end).
Proof.
  intros Hf. destruct (lex_loop_emits (length source) source) as (its & Hp & Hl); [done|].
  destruct (from_utf8_total source) as (r & Hr & _). exists its, r. split_and!; [done..|].
  unfold lex. unfold fits in Hf. rewrite (proj2 (Z.ltb_ge _ _)) by done.
  rewrite Hl. simpl. unfold report_utf8. rewrite Hr. simpl.
  destruct r as [[at_ e]|]; [|done]. unfold stream. simpl. by destruct (existsb _ _).
Qed.

(** ** Positions *)

Lemma item_starts_length pos its : length (item_starts pos its) = length its.
Proof. revert pos. induction its; intros; simpl; auto. Qed.

Lemma item_starts_lookup pos its i : i < length its →
  item_starts pos its !! i = Some (u32 (pos + total (take i its))).
Proof.
  revert pos i. induction its as [|it its IH]; intros pos [|i] Hi; simpl in *; try lia.
  - by rewrite Nat.add_0_r.
  - rewrite IH by lia. unfold total. simpl. do 2 f_equal. lia.
Qed.

Lemma total_take_le i its : total (take i its) ≤ total its.
Proof. rewrite <- (take_drop i its) at 2. rewrite total_app. lia. Qed.

(** The start of token [i], the [Eof] and the sentinel after it included. *)
Lemma stream_start source its i : fits source → total its = length source → i ≤ S (length its) →
  starts (stream source its) !! i = Some (Z.of_nat (total (take i its))).
Proof.
  intros Hf Ht Hi. unfold stream. simpl. pose proof (total_take_le i its).
  unfold fits in Hf. rewrite <- (u32_small (total (take i its))) by lia.
  destruct (decide (i < length its)) as [Hlt|Hge].
  - rewrite lookup_app_l by (rewrite item_starts_length; lia). by rewrite item_starts_lookup.
  - rewrite lookup_app_r, item_starts_length by (rewrite item_starts_length; lia).
    rewrite take_ge, Ht by lia. destruct (i - length its) as [|[|n]] eqn:E; [done..|lia].
Qed.

Lemma stream_range source its i : fits source → total its = length source → i ≤ length its →
  range (stream source its) i =
  Done (Z.of_nat (total (take i its)), Z.of_nat (total (take (S i) its))).
Proof. intros Hf Ht Hi. unfold range. by rewrite !stream_start by (done || lia). Qed.

(** The pieces of the text under the items. *)
Fixpoint pieces (its : list item) (l : list byte) : list (list byte) :=
  match its with
  | [] => []
  | it :: its => take (it_len it) l :: pieces its (drop (it_len it) l)
  end.

Lemma pieces_concat its l : total its = length l → concat (pieces its l) = l.
Proof.
  revert l. induction its as [|it its IH]; intros l Ht; simpl; [by destruct l|].
  unfold total in Ht. simpl in Ht.
  rewrite IH; [apply take_drop|]. rewrite length_drop. unfold total. lia.
Qed.

Lemma pieces_length its l : length (pieces its l) = length its.
Proof. revert l. induction its; intros; simpl; auto. Qed.

Lemma pieces_lookup its l i it : its !! i = Some it →
  pieces its l !! i = Some (take (it_len it) (drop (total (take i its)) l)).
Proof.
  revert l i. induction its as [|it' its IH]; intros l [|i]; simpl; try done.
  - intros [= ->]. done.
  - intros Hi. rewrite (IH _ _ Hi). unfold total. simpl. by rewrite drop_drop.
Qed.
