(* ===== verification/LexTheorems.v ===== *)
(** * What the lexer promises

    The stream covers the file: every byte is in exactly one token, the texts of
    the tokens put together are the source, and the last one is the empty [Eof].
    The diagnostics are those of the error tokens, and one for the first invalid
    sequence of the text when no error token covers it. *)

From Stdlib Require Import Strings.Byte.
From stdpp Require Import sorting.
From S2P Require Import Prelude Token Utf8 Lexer LexerProps.
Local Open Scope nat_scope.

(** ** Losslessness *)

Lemma total_take_S its i it : its !! i = Some it →
  total (take (S i) its) = total (take i its) + it_len it.
Proof.
  intros Hi. rewrite (take_S_r its i it Hi), total_app. unfold total at 2. simpl. lia.
Qed.

Lemma stream_text source its i : fits source → total its = length source → i ≤ length its →
  text (stream source its) i source = Done (default [] (pieces its source !! i)).
Proof.
  intros Hf Ht Hi. unfold text. rewrite stream_range by done. simpl.
  pose proof (total_take_le i its) as H1. pose proof (total_take_le (S i) its) as H2.
  destruct (its !! i) as [it|] eqn:E.
  - rewrite (pieces_lookup _ _ _ _ E). rewrite (total_take_S _ _ _ E) in *.
    rewrite bool_decide_eq_true_2 by lia. simpl. do 2 f_equal; [lia|f_equal; lia].
  - apply lookup_ge_None in E. rewrite (proj2 (lookup_ge_None _ _)) by (rewrite pieces_length; lia).
    rewrite (take_ge its i), (take_ge its (S i)) by lia.
    rewrite bool_decide_eq_true_2 by lia. by rewrite Nat.sub_diag.
Qed.

(** The result of [lex] on a source it accepts is the stream of its items. *)
Lemma lex_tokens source t ds : fits source → lex source = Done (t, ds) →
  ∃ its, parses source its ∧ t = stream source its.
Proof.
  intros Hf Hl. destruct (lex_stream source Hf) as (its & r & Hp & _ & E). exists its.
  rewrite E in Hl. by injection Hl.
Qed.

(** C25: [lex] ends on every source of at most 2^30 bytes, and the stream is
    lossless: it ends with one [Eof], the only one, [starts] has one entry more
    than there are tokens, every token before the end has at least one byte, and
    the texts that [text] slices out are the source when put together. *)
Theorem lex_lossless source : (Z.of_nat (length source) ≤ MAX_SOURCE_LEN)%Z →
  ∃ t ds ks ts, lex source = Done (t, ds) ∧ kinds t = ks ++ [Eof] ∧ (Eof ∉ ks) ∧
    length (starts t) = S (tok_len t) ∧ source_len t = Z.of_nat (length source) ∧
    length ts = length ks ∧ ([] ∉ ts) ∧ concat ts = source ∧
    ∀ i, i < tok_len t → text t i source = Done (default [] (ts !! i)).
Proof.
  intros Hf. destruct (lex_stream source Hf) as (its & r & Hp & _ & E).
  destruct (parses_facts _ _ Hp) as [Hok Ht].
  do 2 eexists. exists (it_kind <$> its), (pieces its source). split; [exact E|].
  unfold tok_len. cbn [stream kinds starts].
  rewrite !length_app, item_starts_length, length_fmap, pieces_length. simpl. split_and!; try done.
  - intros (it & Hk & Hin)%list_elem_of_fmap. rewrite Forall_forall in Hok.
    destruct (Hok it Hin) as (_ & Hne & _). congruence.
  - unfold source_len. cbn [stream starts]. rewrite last_app. simpl. by rewrite u32_small.
  - intros (i & Hi)%list_elem_of_lookup. pose proof (lookup_lt_Some _ _ _ Hi) as Hlt.
    rewrite pieces_length in Hlt. destruct (lookup_lt_is_Some_2 its i Hlt) as [it Hit].
    rewrite (pieces_lookup _ _ _ _ Hit) in Hi. apply (f_equal (option_map length)) in Hi.
    simpl in Hi. rewrite length_take, length_drop in Hi.
    pose proof (total_take_le (S i) its) as H2. rewrite (total_take_S _ _ _ Hit) in H2.
    rewrite Forall_lookup in Hok. destruct (Hok i it Hit) as (Hn & _). injection Hi as Hi. lia.
  - by apply pieces_concat.
  - intros i Hi. apply stream_text; (done || lia).
Qed.

Lemma lex_lossless_witness : ∃ t ds ks ts, lex (bytes_of "let x = 0x_") = Done (t, ds) ∧
  kinds t = ks ++ [Eof] ∧ (Eof ∉ ks) ∧
  length (starts t) = S (tok_len t) ∧
  source_len t = Z.of_nat (length (bytes_of "let x = 0x_")) ∧
  length ts = length ks ∧ ([] ∉ ts) ∧ concat ts = bytes_of "let x = 0x_" ∧
  ∀ i, i < tok_len t → text t i (bytes_of "let x = 0x_") = Done (default [] (ts !! i)).
Proof. apply (lex_lossless (bytes_of "let x = 0x_")). vm_compute. discriminate. Defined.

(** ** Diagnostics *)

Lemma sort_by_start_perm ds : sort_by_start ds ≡ₚ ds.
Proof.
  induction ds as [|d ds IH]; [done|]. simpl. rewrite <- IH at 2. clear IH.
  induction (sort_by_start ds) as [|d' ds' IH]; simpl; [done|].
  destruct (_ <=? _)%Z; [done|]. rewrite IH. apply Permutation_swap.
Qed.

Definition by_start (d d' : Diagnostic) : Prop := (d_start d ≤ d_start d')%Z.

Lemma sort_by_start_sorted ds : StronglySorted by_start (sort_by_start ds).
Proof.
  induction ds as [|d ds IH]; simpl; [constructor|].
  induction IH as [|d' ds' Hs IH Hd]; simpl; [by repeat constructor|].
  destruct (d_start d <=? d_start d')%Z eqn:E.
  - constructor; [by constructor|]. constructor; [unfold by_start; lia|].
    eapply Forall_impl; [exact Hd|]. unfold by_start. intros. lia.
  - constructor; [done|]. 
    assert (insert_by_start d ds' ≡ₚ d :: ds') as ->.
    { clear. induction ds' as [|d'' ds'' IH]; simpl; [done|].
      destruct (_ <=? _)%Z; [done|]. rewrite IH. apply Permutation_swap. }
    constructor; [unfold by_start; lia|done].
Qed.

(** The diagnostics of the items: one for each code. *)
Lemma item_diags_elem pos its d : d ∈ item_diags pos its ↔ ∃ i it c,
  its !! i = Some it ∧ it_code it = Some c ∧
  d = MkDiagnostic (u32 (pos + total (take i its))) (u32 (pos + total (take (S i) its))) c.
Proof.
  revert pos. induction its as [|it its IH]; intros pos; simpl.
  { split; [by intros ?%elem_of_nil|]. by intros (i & it & c & Hi & _). }
  rewrite elem_of_app, IH. split.
  - intros [Hd|(i & it' & c & Hi & Hc & ->)].
    + destruct (it_code it) as [c|] eqn:E; [|by apply elem_of_nil in Hd].
      apply list_elem_of_singleton in Hd as ->. exists 0, it, c. split_and!; [done..|].
      unfold total. simpl. do 2 f_equal; lia.
    + exists (S i), it', c. split_and!; [done..|]. unfold total. simpl. do 2 f_equal; lia.
  - intros ([|i] & it' & c & Hi & Hc & ->); simpl in Hi.
    + left. injection Hi as ->. rewrite Hc. apply list_elem_of_singleton.
      unfold total. simpl. do 2 f_equal; lia.
    + right. exists i, it', c. split_and!; [done..|]. unfold total. simpl. do 2 f_equal; lia.
Qed.

Lemma item_diags_sorted pos its : (Z.of_nat (pos + total its) ≤ MAX_SOURCE_LEN)%Z →
  StronglySorted by_start (item_diags pos its).
Proof.
  revert pos. induction its as [|it its IH]; intros pos Hf; simpl; [constructor|].
  unfold total in Hf. simpl in Hf. specialize (IH (pos + it_len it)).
  destruct (it_code it) as [c|]; simpl; [|apply IH; unfold total; lia].
  constructor; [apply IH; unfold total; lia|]. apply Forall_forall. intros d Hd.
  apply item_diags_elem in Hd as (i & it' & c' & Hi & _ & ->). unfold by_start. simpl.
  pose proof (total_take_le i its) as H. unfold total in *. rewrite !u32_small by lia. lia.
Qed.

(** The error tokens of a stream are the items with a code. *)
Lemma stream_error source its i : Forall item_ok its →
  kinds (stream source its) !! i = Some Error ↔
  ∃ it c, its !! i = Some it ∧ it_code it = Some c.
Proof.
  intros Hok. unfold stream. cbn [kinds]. split.
  - intros [Hi|[_ Hi]]%lookup_app_Some.
    + apply list_lookup_fmap_Some in Hi as (it & Hk & Hi).
      rewrite Forall_lookup in Hok. destruct (Hok i it Hi) as (_ & _ & [He _] & _).
      destruct He as [c Hc]; [done|]. by exists it, c.
    + by destruct (i - _) as [|[]] in Hi.
  - intros (it & c & Hi & Hc). apply lookup_app_Some. left. rewrite list_lookup_fmap, Hi.
    rewrite Forall_lookup in Hok. destruct (Hok i it Hi) as (_ & _ & [_ He] & _).
    simpl. f_equal. apply He. by exists c.
Qed.

(** The diagnostic of an error token is the one with its span. *)
Lemma item_diags_spec source its d : fits source → Forall item_ok its →
  total its = length source → d ∈ item_diags 0 its →
  ∃ i, kinds (stream source its) !! i = Some Error ∧
    range (stream source its) i = Done (d_start d, d_end d) ∧
    (0 ≤ d_start d < d_end d)%Z ∧ (d_end d ≤ Z.of_nat (length source))%Z ∧ d_code d ≠ InvalidUtf8.
Proof.
  intros Hf Hok Ht (i & it & c & Hi & Hc & ->)%item_diags_elem. exists i.
  pose proof (lookup_lt_Some _ _ _ Hi) as Hlt. pose proof (total_take_le (S i) its) as Hle.
  pose proof (total_take_S _ _ _ Hi) as HS. unfold fits in Hf. cbn [d_start d_end d_code plus].
  rewrite stream_range by (done || lia). rewrite !u32_small by lia.
  rewrite Forall_lookup in Hok. destruct (Hok i it Hi) as (Hn & _ & _ & _ & Hne).
  split_and!; [|done|lia..|congruence].
  apply stream_error; [by apply Forall_lookup|]. by exists it, c.
Qed.

Lemma item_diags_error source its i : fits source → Forall item_ok its →
  total its = length source → kinds (stream source its) !! i = Some Error →
  ∃ d, d ∈ item_diags 0 its ∧ range (stream source its) i = Done (d_start d, d_end d).
Proof.
  intros Hf Hok Ht (it & c & Hi & Hc)%stream_error; [|done].
  pose proof (lookup_lt_Some _ _ _ Hi) as Hlt. pose proof (total_take_le (S i) its) as Hle.
  pose proof (total_take_S _ _ _ Hi) as HS. unfold fits in Hf.
  eexists. rewrite item_diags_elem. split; [by exists i, it, c|].
  cbn [d_start d_end plus]. rewrite stream_range by (done || lia). by rewrite !u32_small by lia.
Qed.

(** The invalid sequence ends within the text. *)
Lemma utf8_diag_end source at_ e : from_utf8 source = Done (Some (at_, e)) →
  at_ + default (length source - at_) e ≤ length source.
Proof.
  intros Hr. destruct (from_utf8_total source) as (r & Hr' & _ & Hat).
  rewrite Hr in Hr'. injection Hr' as <-. specialize (Hat at_ e eq_refl).
  destruct e as [e|]; simpl; [apply from_utf8_error in Hr|]; lia.
Qed.

(** The file that is too large. *)
Lemma lex_too_large source : ¬ fits source → lex source =
  Done (MkTokens [Error; Eof] [0; 2 ^ 30; 2 ^ 30]%Z, [MkDiagnostic 0 (2 ^ 30) FileTooLarge]).
Proof.
  unfold fits, lex. intros Hf. by rewrite (proj2 (Z.ltb_lt _ _)) by lia.
Qed.

Lemma no_error_no_diags source its : fits source → Forall item_ok its →
  total its = length source → item_diags 0 its = [] ↔ Error ∉ kinds (stream source its).
Proof.
  intros Hf Hok Ht. split.
  - intros Hn (i & Hi)%list_elem_of_lookup. apply item_diags_error in Hi as (d & Hd & _); try done.
    rewrite Hn in Hd. by apply elem_of_nil in Hd.
  - intros Hn. destruct (item_diags 0 its) as [|d ds] eqn:E; [done|].
    destruct (item_diags_spec source its d) as (i & Hi & _); try done; [rewrite E; left|].
    destruct Hn. by eapply list_elem_of_lookup_2.
Qed.

(** The code that the text at the head of [l] calls for, where an [Error] token
    starts: an unclosed comment, a range operator, a string with a bad escape or
    without its closing quote, the suffix of a number, or stray bytes. *)
Definition error_code (l : list byte) : DiagCode :=
  match l with
  | [] => StrayByte
  | b :: l1 =>
      if isb "/" b then UnterminatedBlockComment
      else if isb "." b then BadRangeDots
      else if isb dquote b then
        match string_body (length l) l1 false with
        | Done (_, _, true) => BadEscape
        | _ => UnterminatedString
        end
      else if is_ident_continue b then BadSuffix
      else StrayByte
  end.

(** One diagnostic for each [Error] token, with its span. *)
Definition error_diag (source : list byte) (t : Tokens) (i : nat) : option Diagnostic :=
  match kinds t !! i, range t i with
  | Some Error, Done (s, e) => Some (MkDiagnostic s e (error_code (drop (Z.to_nat s) source)))
  | _, _ => None
  end.
Definition error_diags (source : list byte) (t : Tokens) : list Diagnostic :=
  omap (error_diag source t) (seq 0 (tok_len t)).

(** The code of a diagnostic of [l] is the one the text calls for. *)
Definition coded (l : list byte) (d : Diagnostic) : Prop :=
  d_code d = error_code (drop (Z.to_nat (d_start d)) l).

Lemma isb_is c b : isb c b = true → b = c.
Proof. apply Byte.byte_dec_bl. Qed.

Lemma ident_continue_code b l : is_ident_continue b = true → error_code (b :: l) = BadSuffix.
Proof.
  intros Hb. unfold error_code. rewrite Hb.
  destruct (isb "/" b) eqn:E1; [apply isb_is in E1; by subst|].
  destruct (isb "." b) eqn:E2; [apply isb_is in E2; by subst|].
  destruct (isb dquote b) eqn:E3; [apply isb_is in E3; by subst|]. done.
Qed.

Lemma coded_head l n c : error_code l = c → Forall (coded l) [MkDiagnostic (u32 0) n c].
Proof. intros Hc. by apply Forall_singleton. Qed.

Section codes.
Context (b : byte) (l1 : list byte).
Abbreviation l := (b :: l1).
Abbreviation none := (MkLexer [] [] []).

Lemma number_codes : fits l → is_dec b = true → Forall (coded l) (lx_diags (lex_number 0 l none).1).
Proof.
  intros Hf Hd. destruct (number_body l) as [[p r] f] eqn:Hbody.
  rewrite (lex_number_body _ _ _ p r f) by done. cbv zeta.
  destruct (bool_decide _) eqn:Hs; [apply Forall_nil_2|]. destruct (is_legal_suffix _ _ _); [apply Forall_nil_2|].
  pose proof (number_body_le b l eq_refl _ _ _ Hd Hbody) as Hp. apply Forall_singleton. unfold coded.
  cbn [d_start d_code Nat.add]. unfold fits in Hf. rewrite u32_small, Nat2Z.id by lia.
  unfold number_end in Hs. apply bool_decide_eq_false in Hs.
  destruct (drop p l) as [|c rest]; [by rewrite take_nil in Hs|]. simpl in Hs.
  destruct (is_ident_continue c) eqn:Hc; [by rewrite ident_continue_code|].
  by rewrite Nat.add_0_r, Nat.sub_diag in Hs.
Qed.

Lemma string_codes lx n : isb dquote b = true → lex_string 0 l none = Done (lx, n) →
  Forall (coded l) (lx_diags lx).
Proof.
  intros ->%isb_is. unfold lex_string.
  change (drop 1 (dquote :: l1)) with l1.
  destruct (string_body (length (dquote :: l1)) l1 false) as [| |[[m bad] t]] eqn:E;
    cbn [mbind res_bind]; [done..|].
  assert (error_code (dquote :: l1) = if t then BadEscape else UnterminatedString) as Hc.
  { unfold error_code. by rewrite E. }
  destruct t; [destruct bad|]; intros [= <- _]; [|apply Forall_nil_2|];
    by apply coded_head.
Qed.

Lemma other_codes : is_ident_start b = false → is_dec b = false → isb dquote b = false →
  Forall (coded l) (lx_diags (lex_other 0 b l none).1).
Proof.
  intros Hi Hd Hq. unfold lex_other. destruct (scan_punct l) as [[k n]|] eqn:E; [apply Forall_nil_2|].
  apply coded_head. unfold error_code.
  destruct (isb "/" b) eqn:E1; [apply isb_is in E1; subst b|].
  { change (scan_punct ("/"%byte :: l1)) with (two ("/"%byte :: l1) [("="%byte, SlashEq)] (Some (Slash, 1))) in E.
    simpl in E. by case_match. }
  destruct (isb "." b) eqn:E2; [by apply isb_is in E2; subst b|].
  rewrite Hq. unfold is_ident_continue. unfold is_ident_start in Hi.
  apply orb_false_iff in Hi as [-> ->]. by rewrite Hd.
Qed.

Lemma lex_one_codes lx n : fits l → lex_one 0 b l none = Done (lx, n) → Forall (coded l) (lx_diags lx).
Proof.
  intros Hf. unfold lex_one, lex_whitespace, lex_line_comment, lex_ident_or_keyword. destruct (is_ws b); [intros [= <- _]; apply Forall_nil_2|].
  destruct (isb "/" b && at_is l 1 "/"); [intros [= <- _]; apply Forall_nil_2|].
  destruct (isb "/" b && at_is l 1 "*") eqn:E3.
  { apply andb_true_iff in E3 as [->%isb_is _]. unfold lex_block_comment.
    destruct (block_comment _ _) as [m []]; intros [= <- _]; [apply Forall_nil_2|]. by apply coded_head. }
  destruct (isb backslash b && at_is l 1 backslash).
  { destruct (scan_multiline_string _ _); cbn [mbind res_bind]; [done..|].
    intros [= <- _]. apply Forall_nil_2. }
  destruct (is_ident_start b) eqn:Hi; [intros [= <- _]; apply Forall_nil_2|].
  destruct (is_dec b) eqn:Hd.
  { intros [= Hl]. pose proof (number_codes Hf Hd) as H. by rewrite Hl in H. }
  destruct (isb dquote b) eqn:Hq; [by apply string_codes|].
  destruct (isb "." b && at_is l 1 ".") eqn:E8.
  { apply andb_true_iff in E8 as [->%isb_is _]. unfold lex_dots.
    destruct (at_is _ 2 "<"); [intros [= <- _]; apply Forall_nil_2|].
    destruct (at_is _ 2 "="); intros [= <- _]; [apply Forall_nil_2|]. by apply coded_head. }
  intros [= Hl]. pose proof (other_codes Hi Hd Hq) as H. by rewrite Hl in H.
Qed.
End codes.

(** Item by item, the codes of a file. *)
Lemma item_codes l its : fits l → parses l its → ∀ i it c,
  its !! i = Some it → it_code it = Some c → c = error_code (drop (total (take i its)) l).
Proof.
  intros Hf Hp. induction Hp as [|b l its its' Hb Hits Hp IH]; [done|]. intros i it c Hi Hc.
  destruct Hits as (Hlex & _ & Hn & _). unfold fits in *.
  destruct (decide (i < length its)) as [Hlt|Hge].
  - rewrite lookup_app_l in Hi by done. rewrite take_app_le by lia. destruct l as [|b' l]; [done|].
    injection Hb as ->. pose proof (lex_one_codes b l _ _ Hf (Hlex 0 (MkLexer [] [] []))) as Hcs.
    cbn [emit lx_diags app] in Hcs. rewrite Forall_forall in Hcs.
    specialize (Hcs _ (proj2 (item_diags_elem 0 its _) (ex_intro _ i (ex_intro _ it
      (ex_intro _ c (conj Hi (conj Hc eq_refl))))))).
    unfold coded in Hcs. cbn [d_code d_start Nat.add] in Hcs.
    pose proof (total_take_le i its). by rewrite u32_small, Nat2Z.id in Hcs by lia.
  - rewrite lookup_app_r in Hi by lia. rewrite take_app_ge, total_app by lia.
    rewrite <- drop_drop. apply (IH ltac:(rewrite length_drop; lia) _ it); done.
Qed.

(** The diagnostics of the items, by index. *)
Lemma item_diags_index pos its : item_diags pos its =
  omap (λ i, it ← its !! i; c ← it_code it;
    Some (MkDiagnostic (u32 (pos + total (take i its))) (u32 (pos + total (take (S i) its))) c))
    (seq 0 (length its)).
Proof.
  revert pos. induction its as [|it its IH]; intros pos; [done|]. cbn [item_diags length seq omap list_omap].
  rewrite IH, <- fmap_S_seq. cbn [lookup list_lookup mbind option_bind take].
  match goal with |- _ ++ ?x = match _ with Some y => y :: ?z | None => _ end => assert (x = z) as -> end.
  { apply list_omap_ext, Forall2_fmap_r, Forall_Forall2_diag, Forall_forall. intros i _.
    unfold total. simpl. by rewrite !Nat.add_assoc. }
  destruct (it_code it) as [c|]; [|done]. unfold total. simpl. by rewrite !Nat.add_0_r.
Qed.

(** They are those of the [Error] tokens. *)
Lemma item_diags_error_diags source its : fits source → parses source its →
  item_diags 0 its = error_diags source (stream source its).
Proof.
  intros Hf Hp. pose proof (item_codes source its Hf Hp) as Hcodes.
  destruct (parses_facts _ _ Hp) as [Hok Ht]. unfold error_diags.
  replace (tok_len (stream source its)) with (length its + 1)
    by (unfold tok_len, stream; simpl; by rewrite length_app, length_fmap).
  assert (error_diag source (stream source its) (length its) = None) as Hlast.
  { unfold error_diag, stream. cbn [kinds]. rewrite lookup_app_r by (by rewrite length_fmap).
    by rewrite length_fmap, Nat.sub_diag. }
  rewrite seq_app, omap_app. cbn [seq omap list_omap Nat.add]. rewrite Hlast, app_nil_r.
  rewrite item_diags_index.
  apply list_omap_ext, Forall_Forall2_diag, Forall_forall. intros i [_ Hi]%elem_of_seq.
  destruct (lookup_lt_is_Some_2 its i Hi) as [it Hit]. rewrite Hit. cbn [mbind option_bind].
  unfold error_diag. rewrite stream_range by (done || lia). rewrite Nat2Z.id.
  unfold stream. cbn [kinds]. rewrite lookup_app_l, list_lookup_fmap, Hit by (by rewrite length_fmap).
  rewrite Forall_lookup in Hok. destruct (Hok i it Hit) as (_ & _ & He & _). simpl.
  pose proof (total_take_le i its). pose proof (total_take_le (S i) its). unfold fits in Hf.
  destruct (it_code it) as [c|] eqn:Hc; simpl.
  - rewrite (proj2 He) by by exists c. rewrite !u32_small by lia.
    by rewrite (Hcodes i it c Hit Hc).
  - destruct (it_kind it); try done. by destruct (proj1 He eq_refl).
Qed.

(** C36: The diagnostics [lex] returns for a file within the size limit are: one
    for each [Error] token, with the token's span and the code its text calls
    for ([error_code]); and, when the file is not well-formed UTF-8 and no
    [Error] token covers its first invalid sequence, one more, [InvalidUtf8] on
    exactly that sequence (later ones are not reported). They are ordered by
    where they start. A larger file has the one diagnostic [FileTooLarge]. So
    there is none exactly when no token is an [Error] and the file is
    well-formed UTF-8. *)
Theorem lex_diagnostics source t ds : lex source = Done (t, ds) →
  StronglySorted by_start ds ∧ (ds = [] ↔ (Error ∉ kinds t) ∧ valid_utf8 source) ∧
  if (MAX_SOURCE_LEN <? Z.of_nat (length source))%Z
  then ds = [MkDiagnostic 0 MAX_SOURCE_LEN FileTooLarge]
  else ∃ r, from_utf8 source = Done r ∧ (r = None ↔ valid_utf8 source) ∧
    match r with
    | Some (at_, e) =>
        if existsb (covers at_) (error_diags source t) then ds = error_diags source t
        else ds ≡ₚ error_diags source t ++ [MkDiagnostic (Z.of_nat at_)
          (Z.of_nat (at_ + default (length source - at_) e)) InvalidUtf8]
    | None => ds = error_diags source t
    end.
Proof.
  intros Hl. destruct (Z.ltb_spec MAX_SOURCE_LEN (Z.of_nat (length source))) as [Hf|Hf].
  { rewrite lex_too_large in Hl by (unfold fits; lia). injection Hl as <- <-.
    split_and!; [by repeat constructor| |done]. split; [done|]. intros [Hn _]. destruct Hn. left. }
  destruct (lex_stream source Hf) as (its & r & Hp & Hr & E). rewrite E in Hl. injection Hl as <- Hds.
  destruct (parses_facts _ _ Hp) as [Hok Ht]. destruct (from_utf8_total source) as (r' & Hr' & Hv & Hat).
  rewrite Hr in Hr'. injection Hr' as <-. rewrite <- (item_diags_error_diags source its Hf Hp).
  rewrite <- (no_error_no_diags source its) by done.
  pose proof (item_diags_sorted 0 its ltac:(unfold fits in Hf; simpl; lia)) as Hsort.
  destruct r as [[at_ e]|].
  2: { subst ds. split_and!; [done|tauto|]. by exists None. }
  pose proof (utf8_diag_end source at_ e Hr) as Hend. specialize (Hat at_ e eq_refl).
  destruct (existsb _ _) eqn:Hc; subst ds.
  - split_and!; [done| |].
    + split; [intros Hn; by rewrite Hn in Hc|intros [_ Hx%Hv]; done].
    + exists (Some (at_, e)). by rewrite Hc.
  - split_and!; [apply sort_by_start_sorted| |].
    + split; [|intros [_ Hx%Hv]; done]. intros Hn. pose proof (sort_by_start_perm (item_diags 0 its ++
        [MkDiagnostic (u32 at_) (u32 (at_ + default (length source - at_) e)) InvalidUtf8])) as Hx.
      rewrite Hn in Hx. by apply Permutation_nil_app_cons in Hx.
    + exists (Some (at_, e)). rewrite Hc, sort_by_start_perm. unfold fits in Hf. by rewrite !u32_small by lia.
Qed.

Lemma lex_diagnostics_witness :
  StronglySorted by_start [MkDiagnostic 1 4 BadSuffix] ∧
  error_diags (bytes_of "1__0") (MkTokens [Int; Error; Eof] [0; 1; 4; 4]%Z) = [MkDiagnostic 1 4 BadSuffix].
Proof.
  split; [|vm_compute; reflexivity]. exact (proj1 (lex_diagnostics _ _ _ lex_bad_suffix)).
Defined.

(** ** Tokens stand alone *)

(** The token of an item is what [lex_one] makes of its text alone. *)
Lemma parses_alone l its i it : parses l its → its !! i = Some it → it_code it = None →
  ∃ b w, pieces its l !! i = Some (b :: w) ∧ length (b :: w) = it_len it ∧
    ∀ pos lx, lex_one pos b (b :: w) lx = Done (push (it_kind it) pos lx, it_len it).
Proof.
  intros Hp. revert i. induction Hp as [|b l its its' Hb (_ & Hok & Hn & Hs) Hp IH]; intros i Hi Hc;
    [done|].
  destruct (decide (i < length its)) as [Hlt|Hge].
  - rewrite lookup_app_l in Hi by done. rewrite (pieces_lookup _ _ i it) by (by rewrite lookup_app_l).
    destruct its as [|it0 rest]; [done|]. destruct Hs as [Hs Hrest]. destruct i as [|i].
    + injection Hi as ->. specialize (Hs Hc). destruct l as [|b' l]; [done|]. injection Hb as ->.
      inversion Hok as [|? ? [Hpos _]]; subst. exists b, (take (it_len it - 1) l).
      assert (take (it_len it) (b :: l) = b :: take (it_len it - 1) l) as Ht.
      { destruct (it_len it); [lia|]. simpl. by rewrite Nat.sub_0_r. }
      rewrite <- Ht. split_and!; [done| |done].
      rewrite length_take. unfold total in Hn. simpl in *. lia.
    + rewrite Forall_lookup in Hrest. destruct (Hrest i it Hi) as [c Hc']. congruence.
  - rewrite lookup_app_r in Hi by lia. destruct (IH _ Hi Hc) as (b' & w & Hw & Hlen & Hlex).
    exists b', w. split_and!; [|done..]. rewrite <- Hw.
    rewrite (pieces_lookup _ _ _ _ Hi), (pieces_lookup _ _ i it) by (by rewrite lookup_app_r by lia).
    rewrite take_app_ge, total_app, drop_drop by lia. done.
Qed.

(** The stream of a text that is one construct. *)
Lemma lex_alone b w k : (Z.of_nat (length (b :: w)) ≤ MAX_SOURCE_LEN)%Z →
  (∀ pos lx, lex_one pos b (b :: w) lx = Done (push k pos lx, length (b :: w))) →
  ∃ ds, lex (b :: w) =
    Done (MkTokens [k; Eof] [0; Z.of_nat (length (b :: w)); Z.of_nat (length (b :: w))]%Z, ds) ∧
    (valid_utf8 (b :: w) → ds = []).
Proof.
  intros Hf Hl. destruct (from_utf8_total (b :: w)) as (r & Hr & Hv & _).
  assert (lex_loop (length (b :: w)) 0 (b :: w) (MkLexer [] [] []) =
          Done (MkLexer [k] [0%Z] [])) as Hloop.
  { cbn [length lex_loop]. rewrite Hl. unfold mbind, res_bind. rewrite drop_ge by done.
    by destruct (length w). }
  unfold lex. rewrite (proj2 (Z.ltb_ge _ _)), Hloop by done. unfold mbind, res_bind, report_utf8.
  rewrite Hr, u32_small by done. simpl.
  destruct r as [[at_ e]|]; eexists; (split; [done|]); [|done].
  by intros ?%Hv.
Qed.

(** A token is its text: a token of a stream that is neither an [Error] nor
    the [Eof], lexed alone, is one token of the same kind, with no diagnostic
    when the text is UTF-8. *)
Theorem relex source t ds i k : (Z.of_nat (length source) ≤ MAX_SOURCE_LEN)%Z →
  lex source = Done (t, ds) → kinds t !! i = Some k → k ≠ Error → k ≠ Eof →
  ∃ w ds', text t i source = Done w ∧
    lex w = Done (MkTokens [k; Eof] [0; Z.of_nat (length w); Z.of_nat (length w)]%Z, ds') ∧
    (valid_utf8 w → ds' = []).
Proof.
  intros Hf Hl Hk Herr Heof. destruct (lex_tokens source t ds Hf Hl) as (its & Hp & ->).
  destruct (parses_facts _ _ Hp) as [Hok Ht]. unfold stream in Hk. cbn [kinds] in Hk.
  apply lookup_app_Some in Hk as [Hk|[_ Hk]]; [|by destruct (i - _) as [|[]] in Hk; simplify_eq/=].
  apply list_lookup_fmap_Some in Hk as (it & -> & Hi).
  assert (it_code it = None) as Hc.
  { rewrite Forall_lookup in Hok. destruct (Hok i it Hi) as (_ & _ & [_ He] & _).
    destruct (it_code it); [|done]. destruct Herr. by apply He. }
  destruct (parses_alone _ _ _ _ Hp Hi Hc) as (b & w & Hw & Hlen & Hlex).
  pose proof (lookup_lt_Some _ _ _ Hi) as Hlt.
  assert (length (b :: w) ≤ length source) as Hle.
  { pose proof (total_take_S _ _ _ Hi). pose proof (total_take_le (S i) its). lia. }
  destruct (lex_alone b w (it_kind it)) as (ds' & Hds & Hv); [lia|by rewrite Hlen|].
  exists (b :: w), ds'. split_and!; [|done..].
  rewrite stream_text by (done || lia). by rewrite Hw.
Qed.

Lemma relex_witness : ∃ w ds', text
    (MkTokens [KwLet; Whitespace; Ident; Whitespace; Eq; Whitespace; Float; Semi; Whitespace;
               LineComment; Eof] [0; 3; 4; 5; 6; 7; 8; 14; 15; 16; 20; 20]%Z)
    6 (bytes_of "let x = 1.5f32; // c") = Done w ∧
  lex w = Done (MkTokens [Float; Eof] [0; Z.of_nat (length w); Z.of_nat (length w)]%Z, ds') ∧
  (valid_utf8 w → ds' = []).
Proof.
  eapply relex; [|exact lex_small|reflexivity|discriminate|discriminate].
  vm_compute. discriminate.
Defined.

(** Only the first invalid sequence of a file is looked at: when it is in code,
    where it is a [StrayByte], the one in the comment after it is not reported,
    and it is when it is the only one. *)
Example invalid_comment_unreported :
  lex (xff :: bytes_of " // " ++ [xff]) =
    Done (MkTokens [Error; Whitespace; LineComment; Eof] [0; 1; 2; 6; 6]%Z,
          [MkDiagnostic 0 1 StrayByte]) ∧
  lex (bytes_of "x // " ++ [xff]) =
    Done (MkTokens [Ident; Whitespace; LineComment; Eof] [0; 1; 2; 6; 6]%Z,
          [MkDiagnostic 5 6 InvalidUtf8]).
Proof. split; vm_compute; reflexivity. Qed.
