(* ===== verification/PatStore.v ===== *)
(** * The pattern arena and the type tables exhaustiveness reads

    Models [PatStore] of [src/crates/fors-check/src/pat.rs] and the type
    queries of that file ([scrutinee_args], [struct_fields], [nth_variant],
    [variant_component_types]).  The columns of [fors-fir]'s tables those
    queries read, and [Wf::substituted], are the operations of the class
    [Fir]; the interner is the class [Names], whose law is that different
    texts are different symbols.  Arena ids and offsets are [nat]s. *)

From S2P Require Import Prelude.
From stdpp Require Import pretty.
Local Open Scope Z_scope.

Abbreviation TyId := Z.
Abbreviation DefId := Z.
Abbreviation ArgsId := Z.
Abbreviation MemberListId := Z.
Abbreviation Symbol := Z.

(** ** Constructors and patterns *)

Module Ctor.
Inductive t : Type :=
  | Variant (def : DefId) (idx : Z)
  | Bool (b : bool)
  | Tuple (n : Z)
  | Struct (def : DefId)
  | Int (n : Z)
  | Str (s : Symbol).
#[global] Instance eq_dec : EqDecision t.
Proof. solve_decision. Defined.
End Ctor.

Inductive PKind : Type :=
  | PWild
  | PCtor (c : Ctor.t).

Abbreviation PatId := nat.

Record PatStore : Type := MkPatStore {
  pkind : list PKind; sub_start : list nat; sub_len : list nat; sub_ids : list PatId;
  wild_id : PatId; node_count : Z }.

Module Store.
Definition push (k : PKind) (subs : list PatId) (s : PatStore) : PatStore * PatId :=
  (MkPatStore (pkind s ++ [k]) (sub_start s ++ [length (sub_ids s)])
     (sub_len s ++ [length subs]) (sub_ids s ++ subs) (wild_id s) (node_count s),
   length (pkind s)).

(** Node 0 is the one cached wildcard. *)
Definition new : PatStore :=
  let '(s, w) := push PWild [] (MkPatStore [] [] [] [] 0%nat 0) in
  MkPatStore (pkind s) (sub_start s) (sub_len s) (sub_ids s) w (node_count s).

Definition touch (s : PatStore) : PatStore :=
  MkPatStore (pkind s) (sub_start s) (sub_len s) (sub_ids s) (wild_id s) (node_count s + 1).

Definition pattern_node_count (s : PatStore) : Z := node_count s.

Definition wild (s : PatStore) : PatId := wild_id s.

Definition ctor (c : Ctor.t) (subs : list PatId) (s : PatStore) : PatStore * PatId :=
  push (PCtor c) subs s.

Definition ctor_of (s : PatStore) (id : PatId) : res (option Ctor.t) :=
  k ← get_ix (pkind s !! id);
  Done (match k with PCtor c => Some c | PWild => None end).

Definition subs (s : PatStore) (id : PatId) : res (list PatId) :=
  st ← get_ix (sub_start s !! id);
  l ← get_ix (sub_len s !! id);
  if bool_decide (st + l ≤ length (sub_ids s))%nat
  then Done (take l (drop st (sub_ids s))) else Panic.
End Store.

(** ** The columns of the type tables *)

Definition TY_ERROR : TyId := 0.
Definition NO_TY : TyId := 2 ^ 32 - 1.
Definition NO_ARGS : ArgsId := 0.

Module TyTag.
Inductive t : Type :=
  | Error | Unit | Never | Prim | Nominal | Tuple | Fn | Dyn | Param | Proj | Brand | ConstVal.
#[global] Instance eq_dec : EqDecision t.
Proof. solve_decision. Defined.
End TyTag.

Module PrimKind.
Inductive t : Type :=
  | I8 | I16 | I32 | I64 | Isize | U8 | U16 | U32 | U64 | Usize | F32 | F64 | Bool | Str | RawPtr.
#[global] Instance eq_dec : EqDecision t.
Proof. solve_decision. Defined.

Definition ALL : list t :=
  [I8; I16; I32; I64; Isize; U8; U16; U32; U64; Usize; F32; F64; Bool; Str; RawPtr].
Definition from_u8 (v : Z) : option t := ALL !! Z.to_nat v.
End PrimKind.

Module SigKind.
Inductive t : Type := Fn | ExternFn | Struct | Enum | Trait | Impl | Const | Poisoned | Absent.
End SigKind.

Module MemberKind.
Inductive t : Type := Field | Variant | Item.
#[global] Instance eq_dec : EqDecision t.
Proof. solve_decision. Defined.
End MemberKind.

Module PayloadKind.
Inductive t : Type := None | Tuple | Record_.
End PayloadKind.

Record Member : Type := MkMember {
  m_kind : MemberKind.t; m_name : Symbol; m_ty : TyId;
  m_payload : PayloadKind.t; m_args : ArgsId; m_sub : MemberListId }.

(** What the tables of [fors-fir] answer.  [ty_tag], [ty_a], [ty_b] are the
    columns of a type's row, [unqual] the row without its qualifiers. *)
Class Fir : Type := {
  unqual : TyId → TyId;
  ty_tag : TyId → TyTag.t;
  ty_a : TyId → Z;
  ty_b : TyId → Z;
  ty_args : ArgsId → list TyId;
  sig_kind : DefId → SigKind.t;
  sig_members : DefId → list Member;
  member_list : MemberListId → list Member;
  substituted : DefId → ArgsId → TyId → TyId }.

(** What the interner promises. *)
Class Names : Type := {
  intern : string → Symbol;
  #[global] intern_inj :: Inj (=) (=) intern }.

Section queries.
Context `{Fir}.

Definition scrutinee_args (s : TyId) (def : DefId) : ArgsId :=
  let bare := unqual s in
  if bool_decide (ty_tag bare = TyTag.Nominal) && (ty_a bare =? def) then ty_b bare else NO_ARGS.

Definition struct_fields (def : DefId) (args : ArgsId) : list (Symbol * TyId) :=
  omap (λ m, if bool_decide (m_kind m = MemberKind.Field)
             then Some (m_name m, substituted def args (m_ty m)) else None) (sig_members def).

Definition variants (def : DefId) : list Member :=
  List.filter (λ m, bool_decide (m_kind m = MemberKind.Variant)) (sig_members def).

Definition nth_variant (def : DefId) (index : Z) : option Member :=
  variants def !! Z.to_nat index.

Definition variant_component_types (def : DefId) (args : ArgsId) (m : Member) : list TyId :=
  match m_payload m with
  | PayloadKind.None => []
  | PayloadKind.Tuple => substituted def args <$> ty_args (m_args m)
  | PayloadKind.Record_ => (λ f, substituted def args (m_ty f)) <$> member_list (m_sub m)
  end.
End queries.

(** ** The arena invariant

    Every node's children are a span of the pool, and were pushed before the
    node: the arena is a DAG, so a walk over sub-patterns ends. *)

Record wf_store (s : PatStore) : Prop := {
  wf_start : length (sub_start s) = length (pkind s);
  wf_len : length (sub_len s) = length (pkind s);
  wf_wild : pkind s !! wild_id s = Some PWild;
  wf_span : ∀ id st l, sub_start s !! id = Some st → sub_len s !! id = Some l →
    (st + l ≤ length (sub_ids s))%nat;
  wf_below : ∀ id st l i, sub_start s !! id = Some st → sub_len s !! id = Some l →
    i ∈ take l (drop st (sub_ids s)) → (i < id)%nat }.

(** The pure views of a node of a well-formed store. *)
Definition ctor_at (s : PatStore) (id : PatId) : option Ctor.t :=
  match pkind s !! id with Some (PCtor c) => Some c | _ => None end.
Definition subs_at (s : PatStore) (id : PatId) : list PatId :=
  match sub_start s !! id, sub_len s !! id with
  | Some st, Some l => take l (drop st (sub_ids s))
  | _, _ => []
  end.
Definition in_store (s : PatStore) (id : PatId) : Prop := (id < length (pkind s))%nat.

Section store.
Context (s : PatStore) (Hwf : wf_store s).
Implicit Types id : PatId.

Lemma ctor_of_at id : in_store s id → Store.ctor_of s id = Done (ctor_at s id).
Proof.
  unfold in_store, Store.ctor_of, ctor_at. intros [k ->]%lookup_lt_is_Some. by destruct k.
Qed.

Lemma subs_of_at id : in_store s id → Store.subs s id = Done (subs_at s id).
Proof using Hwf.
  unfold in_store, Store.subs, subs_at. intros Hid.
  destruct (lookup_lt_is_Some_2 (sub_start s) id) as [st Hst]; [rewrite wf_start; done|].
  destruct (lookup_lt_is_Some_2 (sub_len s) id) as [l Hl]; [rewrite wf_len; done|].
  rewrite Hst, Hl. simpl. rewrite bool_decide_true; [done|]. by eapply wf_span.
Qed.

Lemma subs_below id i : i ∈ subs_at s id → (i < id)%nat.
Proof using Hwf.
  unfold subs_at.
  destruct (sub_start s !! id) eqn:?; [|by intros ?%not_elem_of_nil].
  destruct (sub_len s !! id) eqn:?; [|by intros ?%not_elem_of_nil].
  by eapply wf_below.
Qed.

Lemma wild_ctor : ctor_at s (wild_id s) = None.
Proof using Hwf. unfold ctor_at. by rewrite wf_wild. Qed.

Lemma wild_in_store : in_store s (wild_id s).
Proof using Hwf. apply lookup_lt_is_Some. eexists. by apply wf_wild. Qed.

Lemma ctor_in_store id c : ctor_at s id = Some c → in_store s id.
Proof.
  unfold ctor_at. intros Hc. apply lookup_lt_is_Some.
  destruct (pkind s !! id); [by eexists|done].
Qed.
End store.

Lemma new_wf : wf_store Store.new.
Proof.
  split; simpl; try done.
  - intros [|[]] st l; simpl; [intros [= <-] [= <-]|done..]. lia.
  - intros [|[]] st l i; simpl; [intros [= <-] [= <-]|done..].
    by intros ?%not_elem_of_nil.
Qed.

Lemma touch_wf s : wf_store s → wf_store (Store.touch s).
Proof. by intros []. Qed.

(** Pushing a node over ids the store already has keeps the invariant and the
    nodes there were. *)
Lemma push_wf s k subs :
  wf_store s → Forall (in_store s) subs → wf_store (Store.push k subs s).1.
Proof.
  intros Hwf Hsubs. destruct Hwf as [Hst Hl Hw Hspan Hbelow].
  assert (∀ (l : list nat) x id y, (l ++ [x]) !! id = Some y → length l = length (pkind s) →
    (id < length (pkind s))%nat ∧ l !! id = Some y ∨ id = length (pkind s) ∧ y = x) as Hcase.
  { intros l x id y Hy Hlen. destruct (decide (id < length l)%nat).
    - left. rewrite lookup_app_l in Hy by done. split; [lia|done].
    - right. rewrite lookup_app_r in Hy by lia.
      destruct (id - length l)%nat as [|[]] eqn:?; simplify_eq/=. split; [lia|done]. }
  split; unfold Store.push; simpl.
  - by rewrite !length_app, Hst.
  - by rewrite !length_app, Hl.
  - apply lookup_app_l_Some. done.
  - intros id st l Hid Hid'.
    apply Hcase in Hid; [|done]. apply Hcase in Hid'; [|done]. rewrite length_app.
    destruct Hid as [[? Hid]|[-> ->]], Hid' as [[? Hid']|[? ->]]; try lia.
    specialize (Hspan _ _ _ Hid Hid'). lia.
  - intros id st l i Hid Hid'.
    apply Hcase in Hid; [|done]. apply Hcase in Hid'; [|done].
    destruct Hid as [[? Hid]|[-> ->]], Hid' as [[? Hid']|[? ->]]; try lia.
    + specialize (Hspan _ _ _ Hid Hid').
      rewrite drop_app_le, take_app_le by (rewrite ?length_drop; lia). by eapply Hbelow.
    + rewrite drop_app_length, take_ge by lia. intros Hi.
      by rewrite Forall_forall in Hsubs; apply Hsubs in Hi.
Qed.

Lemma push_node s k subs :
  wf_store s → let '(s', id) := Store.push k subs s in
  in_store s' id ∧ subs_at s' id = subs ∧
  ctor_at s' id = match k with PCtor c => Some c | PWild => None end ∧
  (∀ i, in_store s i → ctor_at s' i = ctor_at s i ∧ subs_at s' i = subs_at s i).
Proof.
  intros [Hst Hl _ Hspan _]. unfold Store.push, in_store, subs_at, ctor_at; simpl.
  rewrite length_app. simpl. split_and!; [lia| | |].
  - rewrite !list_lookup_middle by done. by rewrite drop_app_length, take_ge by lia.
  - by rewrite list_lookup_middle.
  - intros i Hi. rewrite !lookup_app_l by lia. split; [done|].
    destruct (sub_start s !! i) eqn:E; [|done]. destruct (sub_len s !! i) eqn:E'; [|done].
    specialize (Hspan _ _ _ E E').
    by rewrite drop_app_le, take_app_le by (rewrite ?length_drop; lia).
Qed.
