(* ===== verification/Exhaust.v ===== *)
(** * Exhaustiveness and usefulness of [match]

    Models [src/crates/fors-check/src/exhaust.rs]: the plain usefulness
    algorithm over a matrix of pattern ids, charged in matrix rows against a
    step budget, and [check_match], which asks it about every arm and about
    the all-wildcard row.  The recursion is not structural (specialising a
    wildcard lengthens the row), so [usefulness] takes fuel; ExhaustProps
    proves a bound that is always enough.  Rendering the witness as text is
    left out: a diagnostic carries the witness itself. *)

From S2P Require Import Prelude PatStore.
From stdpp Require Import pretty.
Local Open Scope Z_scope.

Definition MATCH_STEP_FACTOR : Z := 256.

(** ** The step budget *)

Record Budget : Type := MkBudget { steps : Z; limit : Z }.

Module Budget.
Definition new (limit : Z) : Budget := MkBudget 0 limit.

(** [false] once the running total has crossed the limit. *)
Definition charge (n : Z) (b : Budget) : Budget * bool :=
  let steps := wrap 64 (steps b + n) in
  (MkBudget steps (limit b), steps <=? limit b).
End Budget.

(** ** Witnesses and signatures *)

#[local] Unset Elimination Schemes.
Inductive Witness : Type :=
  | WWild
  | WCtor (c : Ctor.t) (ws : list Witness).
#[local] Set Elimination Schemes.

Inductive Sig : Type :=
  | Finite (ctors : list (Ctor.t * list TyId))
  | Infinite.

(** What one call answers: the budget it leaves, and [None] once that is
    exhausted, else the witness if the vector is useful. *)
Definition answer : Type := Budget * option (option (list Witness)).

(** ** The matrix *)

Section matrix.
Variable store : PatStore.

(** The head of a row; an empty row is an index panic. *)
Definition head_ctor (r : list PatId) : res (option Ctor.t) :=
  p ← get_ix (r !! 0%nat); Store.ctor_of store p.

Fixpoint specialize (rows : list (list PatId)) (c : Ctor.t) (arity : nat) :
    res (list (list PatId)) :=
  match rows with
  | [] => Done []
  | r :: rows =>
      k ← head_ctor r;
      match k with
      | None =>
          out ← specialize rows c arity;
          Done ((replicate arity (Store.wild store) ++ tail r) :: out)
      | Some rc =>
          if bool_decide (rc = c) then
            p ← get_ix (r !! 0%nat);
            ps ← Store.subs store p;
            out ← specialize rows c arity;
            Done ((ps ++ tail r) :: out)
          else specialize rows c arity
      end
  end.

Fixpoint default_rows (rows : list (list PatId)) : res (list (list PatId)) :=
  match rows with
  | [] => Done []
  | r :: rows =>
      k ← head_ctor r;
      out ← default_rows rows;
      Done (match k with None => tail r :: out | Some _ => out end)
  end.

(** [rows.iter().any(|r| store.ctor_of(r[0]) == Some(c))] *)
Fixpoint occurs (rows : list (list PatId)) (c : Ctor.t) : res bool :=
  match rows with
  | [] => Done false
  | r :: rows =>
      k ← head_ctor r;
      if bool_decide (k = Some c) then Done true else occurs rows c
  end.

(** [ctors.iter().position(|(c, _)| !occurs(c))], with the entry it finds. *)
Fixpoint first_missing (rows : list (list PatId)) (ctors : list (Ctor.t * list TyId)) :
    res (option (Ctor.t * list TyId)) :=
  match ctors with
  | [] => Done None
  | (c, tys) :: ctors =>
      o ← occurs rows c;
      if (o : bool) then first_missing rows ctors else Done (Some (c, tys))
  end.
End matrix.

(** [w.drain(0..arity)] panics when [w] is shorter. *)
Definition combine_witness (c : Ctor.t) (arity : nat) (w : list Witness) : res (list Witness) :=
  if bool_decide (arity ≤ length w)%nat
  then Done (WCtor c (take arity w) :: drop arity w) else Panic.

(** ** Constructor sets *)

Section signatures.
Context `{Fir}.

Definition ctor_sub_tys (ty : TyId) (c : Ctor.t) : list TyId :=
  match c with
  | Ctor.Bool _ | Ctor.Int _ | Ctor.Str _ => []
  | Ctor.Tuple _ =>
      let bare := unqual ty in
      if bool_decide (ty_tag bare = TyTag.Tuple) then ty_args (ty_b bare) else []
  | Ctor.Struct def => (struct_fields def (scrutinee_args ty def)).*2
  | Ctor.Variant def idx =>
      match nth_variant def idx with
      | Some m => variant_component_types def (scrutinee_args ty def) m
      | None => []
      end
  end.

(** The [idx] of a variant is its rank among the variants. *)
Definition enum_ctors (def : DefId) (args : ArgsId) : list (Ctor.t * list TyId) :=
  imap (λ i m, (Ctor.Variant def (Z.of_nat i), variant_component_types def args m)) (variants def).

Definition signature_of (ty : TyId) : Sig :=
  if (ty =? TY_ERROR) || (ty =? NO_TY) then Infinite else
  let bare := unqual ty in
  match ty_tag bare with
  | TyTag.Prim =>
      match PrimKind.from_u8 (wrap 8 (ty_a bare)) with
      | Some PrimKind.Bool => Finite [(Ctor.Bool false, []); (Ctor.Bool true, [])]
      | _ => Infinite
      end
  | TyTag.Tuple =>
      let parts := ty_args (ty_b bare) in
      Finite [(Ctor.Tuple (wrap 32 (Z.of_nat (length parts))), parts)]
  | TyTag.Nominal =>
      let def := ty_a bare in
      let args := ty_b bare in
      match sig_kind def with
      | SigKind.Struct => Finite [(Ctor.Struct def, (struct_fields def args).*2)]
      | SigKind.Enum =>
          match enum_ctors def args with
          | [] => Infinite
          | out => Finite out
          end
      | _ => Infinite
      end
  | _ => Infinite
  end.

Context `{Names}.
Variable store : PatStore.

(** The first of [cands] whose constructor heads no row. *)
Fixpoint first_fresh (rows : list (list PatId)) (cands : list Ctor.t) : res Witness :=
  match cands with
  | [] => Done WWild
  | c :: cands =>
      o ← occurs store rows c;
      if (o : bool) then first_fresh rows cands else Done (WCtor c [])
  end.

Definition other_name (n : Z) : string := "other" +:+ pretty n.

Definition missing_literal (ty : TyId) (rows : list (list PatId)) : res Witness :=
  let bare := unqual ty in
  let is_str := negb (ty =? TY_ERROR) && negb (ty =? NO_TY)
    && bool_decide (ty_tag bare = TyTag.Prim)
    && bool_decide (PrimKind.from_u8 (wrap 8 (ty_a bare)) = Some PrimKind.Str) in
  let bound := Z.of_nat (length rows) + 1 in
  if is_str then
    first_fresh rows ((λ n, Ctor.Str (intern (other_name n))) <$> seqZ 0 bound)
  else first_fresh rows (Ctor.Int <$> seqZ 0 bound).

(** ** Usefulness *)

(** The loop over a complete signature; [U] is the recursive call. *)
Fixpoint all_ctors
    (U : list TyId → list (list PatId) → list PatId → Budget → res answer)
    (rest_tys : list TyId) (rows : list (list PatId)) (rest_v : list PatId)
    (ctors : list (Ctor.t * list TyId)) (witness : option (list Witness)) (b : Budget) :
    res answer :=
  match ctors with
  | [] => Done (b, Some witness)
  | (c, sub_tys) :: ctors =>
      let arity := length sub_tys in
      spec_rows ← specialize store rows c arity;
      '(b, r) ← U (sub_tys ++ rest_tys) spec_rows
                  (replicate arity (Store.wild store) ++ rest_v) b;
      match r with
      | None => Done (b, None)
      | Some r =>
          witness ← match witness, r with
                    | None, Some w => fmap (M := res) Some (combine_witness c arity w)
                    | _, _ => Done witness
                    end;
          all_ctors U rest_tys rows rest_v ctors witness b
      end
  end.

(** The body of [usefulness] after the charge; [U] is the recursive call. *)
Definition usefulness_body
    (U : list TyId → list (list PatId) → list PatId → Budget → res answer)
    (col_tys : list TyId) (rows : list (list PatId)) (v : list PatId) (b : Budget) :
    res answer :=
  match v with
  | [] => Done (b, Some (match rows with [] => Some [] | _ => None end))
  | v0 :: rest_v =>
      k ← Store.ctor_of store v0;
      ty ← get_ix (col_tys !! 0%nat);
      let rest_tys := tail col_tys in
      match k with
      | Some c =>
          let sub_tys := ctor_sub_tys ty c in
          let arity := length sub_tys in
          spec_rows ← specialize store rows c arity;
          sub_v ← Store.subs store v0;
          '(b, r) ← U (sub_tys ++ rest_tys) spec_rows (sub_v ++ rest_v) b;
          match r with
          | None => Done (b, None)
          | Some None => Done (b, Some None)
          | Some (Some w) => w ← combine_witness c arity w; Done (b, Some (Some w))
          end
      | None =>
          match signature_of ty with
          | Finite ctors =>
              missing ← first_missing store rows ctors;
              match missing with
              | None => all_ctors U rest_tys rows rest_v ctors None b
              | Some (mc, msub) =>
                  def_rows ← default_rows store rows;
                  '(b, r) ← U rest_tys def_rows rest_v b;
                  Done (b, fmap (M := option)
                             (fmap (M := option)
                                (cons (WCtor mc (replicate (length msub) WWild)))) r)
              end
          | Infinite =>
              def_rows ← default_rows store rows;
              '(b, r) ← U rest_tys def_rows rest_v b;
              match r with
              | None => Done (b, None)
              | Some r =>
                  w0 ← missing_literal ty rows;
                  Done (b, Some (fmap (M := option) (cons w0) r))
              end
          end
      end
  end.

Fixpoint usefulness (fuel : nat) (col_tys : list TyId) (rows : list (list PatId))
    (v : list PatId) (b : Budget) {struct fuel} : res answer :=
  match fuel with
  | O => OutOfFuel
  | S fuel =>
      let '(b, ok) := Budget.charge (Z.of_nat (length rows)) b in
      if negb ok then Done (b, None)
      else usefulness_body (usefulness fuel) col_tys rows v b
  end.

(** ** One [match] *)

(** The diagnostics: T0054 at an arm, T0053 with the witness, T0055. *)
Inductive MatchDiag : Type :=
  | Unreachable (pat_node : nat)
  | NotExhaustive (w : Witness)
  | BudgetExceeded (steps limit : Z).

(** What [check_match] leaves: the steps it adds to [exhaust_steps], the
    diagnostics in emission order and, when it decided, the [exhaustive] column
    of the row it pushes to [facts.patterns.scrutinees]. *)
Record MatchOutcome : Type := MkMatchOutcome {
  mo_steps : Z; mo_diags : list MatchDiag; mo_exhaustive : option bool }.

(** The loop over the arms: [done] are the arms before this one.  [None] is the
    [exceeded] exit. *)
Fixpoint check_arms (fuel : nat) (s : TyId) (done arms : list (nat * PatId)) (b : Budget) :
    res (Budget * option (list nat)) :=
  match arms with
  | [] => Done (b, Some [])
  | (node, p) :: arms =>
      '(b, r) ← usefulness fuel [s] ((λ a, [a.2]) <$> done) [p] b;
      match r with
      | None => Done (b, None)
      | Some r =>
          '(b, rest) ← check_arms fuel s (done ++ [(node, p)]) arms b;
          Done (b, fmap (M := option)
                     (λ u, match r with None => node :: u | Some _ => u end) rest)
      end
  end.

Definition check_match (fuel : nat) (arms : list (nat * PatId)) (s : TyId) : res MatchOutcome :=
  if (s =? TY_ERROR) || (s =? NO_TY) || bool_decide (arms = []) then
    Done (MkMatchOutcome 0 [] None)
  else
    let limit := Z.min (MATCH_STEP_FACTOR * Store.pattern_node_count store) (2 ^ 64 - 1) in
    '(b, unreachable) ← check_arms fuel s [] arms (Budget.new limit);
    match unreachable with
    | None => Done (MkMatchOutcome (steps b) [BudgetExceeded (steps b) limit] None)
    | Some unreachable =>
        '(b, r) ← usefulness fuel [s] ((λ a, [a.2]) <$> arms) [Store.wild store] b;
        match r with
        | None => Done (MkMatchOutcome (steps b) [BudgetExceeded (steps b) limit] None)
        | Some None =>
            Done (MkMatchOutcome (steps b) (Unreachable <$> unreachable) (Some true))
        | Some (Some w) =>
            w0 ← get_ix (w !! 0%nat);
            Done (MkMatchOutcome (steps b)
                    ((Unreachable <$> unreachable) ++ [NotExhaustive w0]) (Some false))
        end
    end.
End signatures.
