(* ===== verification/ExhaustSpec.v ===== *)
(** * What usefulness means

    The values a pattern tests, their typing, matching, the instances of a
    witness, and the plain row count of R55: the specification ExhaustProps
    proves [usefulness] and [check_match] against.  Values are trees of
    constructors, and they are those that R53 counts, by which integer and
    string columns are never complete: a type that is not [bool], a tuple, a
    struct or an enum has, whatever its width, every integer (every string, when
    it is [Str]) and one value no literal names.  The actual values of the type
    are among these; not all of these are actual values, the integer 128 of the
    type [i8] for one. *)

From S2P Require Import Prelude PatStore Exhaust.
Local Open Scope Z_scope.

#[local] Unset Elimination Schemes.
Inductive val : Type :=
  | VCtor (c : Ctor.t) (vs : list val)
  | VOther.
#[local] Set Elimination Schemes.

Section typing.
Context `{Fir}.

(** The type [Str]. *)
Definition is_str (ty : TyId) : bool :=
  negb (ty =? TY_ERROR) && negb (ty =? NO_TY)
    && bool_decide (ty_tag (unqual ty) = TyTag.Prim)
    && bool_decide (PrimKind.from_u8 (wrap 8 (ty_a (unqual ty))) = Some PrimKind.Str).

(** The literals of a column that is never complete. *)
Definition is_literal (ty : TyId) (c : Ctor.t) : Prop :=
  match c with
  | Ctor.Int _ => is_str ty = false
  | Ctor.Str _ => is_str ty = true
  | _ => False
  end.

(** [c] builds values of [ty], as R53 counts them. *)
Definition ctor_fits (ty : TyId) (c : Ctor.t) : Prop :=
  match signature_of ty with
  | Finite cs => c ∈ cs.*1
  | Infinite => is_literal ty c
  end.

#[local] Unset Elimination Schemes.
Inductive has_ty : TyId → val → Prop :=
  | ht_ctor ty c vs :
      ctor_fits ty c → Forall2 has_ty (ctor_sub_tys ty c) vs → has_ty ty (VCtor c vs)
  | ht_other ty : signature_of ty = Infinite → has_ty ty VOther.

Inductive wit_ty : TyId → Witness → Prop :=
  | wt_wild ty : wit_ty ty WWild
  | wt_ctor ty c ws :
      ctor_fits ty c → Forall2 wit_ty (ctor_sub_tys ty c) ws → wit_ty ty (WCtor c ws).
#[local] Set Elimination Schemes.

Variable s : PatStore.

(** A pattern [check_pat] accepts against [ty]. *)
#[local] Unset Elimination Schemes.
Inductive pat_ty : TyId → PatId → Prop :=
  | pt_wild ty id : in_store s id → ctor_at s id = None → pat_ty ty id
  | pt_ctor ty id c :
      ctor_at s id = Some c → ctor_fits ty c →
      Forall2 pat_ty (ctor_sub_tys ty c) (subs_at s id) → pat_ty ty id.

Inductive matches : PatId → val → Prop :=
  | m_wild id v : ctor_at s id = None → matches id v
  | m_ctor id c vs :
      ctor_at s id = Some c → Forall2 matches (subs_at s id) vs → matches id (VCtor c vs).
#[local] Set Elimination Schemes.

(** R55's plain count: one step per row of every matrix formed. *)
Definition spec_row (c : Ctor.t) (arity : nat) (r : list PatId) : option (list PatId) :=
  match r with
  | [] => None
  | p :: rest =>
      match ctor_at s p with
      | None => Some (replicate arity (wild_id s) ++ rest)
      | Some rc => if bool_decide (rc = c) then Some (subs_at s p ++ rest) else None
      end
  end.
Definition default_row (r : list PatId) : option (list PatId) :=
  match r with
  | [] => None
  | p :: rest => match ctor_at s p with None => Some rest | Some _ => None end
  end.
Definition heads (c : Ctor.t) (r : list PatId) : bool :=
  match r with [] => false | p :: _ => bool_decide (ctor_at s p = Some c) end.
Definition complete (rows : list (list PatId)) (ctors : list (Ctor.t * list TyId)) : bool :=
  forallb (λ ct, existsb (heads ct.1) rows) ctors.

Fixpoint plain (fuel : nat) (cols : list TyId) (rows : list (list PatId)) (v : list PatId)
    {struct fuel} : Z :=
  match fuel with
  | O => 0
  | S fuel =>
      Z.of_nat (length rows) +
      match v, cols with
      | v0 :: rest, ty :: rest_tys =>
          match ctor_at s v0, signature_of ty with
          | Some c, _ =>
              let sub := ctor_sub_tys ty c in
              plain fuel (sub ++ rest_tys) (omap (spec_row c (length sub)) rows)
                (subs_at s v0 ++ rest)
          | None, Finite ctors =>
              if complete rows ctors then
                foldr Z.add 0
                  ((λ ct, plain fuel (ct.2 ++ rest_tys)
                            (omap (spec_row ct.1 (length ct.2)) rows)
                            (replicate (length ct.2) (wild_id s) ++ rest)) <$> ctors)
              else plain fuel rest_tys (omap default_row rows) rest
          | None, Infinite => plain fuel rest_tys (omap default_row rows) rest
          end
      | _, _ => 0
      end
  end.

(** ** The answer of one usefulness query *)

Definition covers (rows : list (list PatId)) (vs : list val) : Prop :=
  ∃ r, r ∈ rows ∧ Forall2 matches r vs.
End typing.

#[local] Unset Elimination Schemes.
Inductive instance : Witness → val → Prop :=
  | inst_wild v : instance WWild v
  | inst_ctor c ws vs : Forall2 instance ws vs → instance (WCtor c ws) (VCtor c vs).
#[local] Set Elimination Schemes.

(** Not useful: every value the vector matches is covered.  Useful: every value
    the witness stands for is matched by the vector and not covered. *)
Definition useful_spec `{Fir} (s : PatStore) (cols : list TyId) (rows : list (list PatId))
    (v : list PatId) (r : option (list Witness)) : Prop :=
  match r with
  | None => ∀ vs, Forall2 has_ty cols vs → Forall2 (matches s) v vs → covers s rows vs
  | Some ws =>
      Forall2 wit_ty cols ws ∧
      ∀ vs, Forall2 has_ty cols vs → Forall2 instance ws vs →
        Forall2 (matches s) v vs ∧ ¬ covers s rows vs
  end.

(** What a call with [n] plain steps to make does to the budget. *)
Definition runs (n : Z) (r : option (list Witness)) (f : Budget → res answer) (b : Budget) :
    Prop :=
  if decide (steps b + n ≤ limit b)
  then f b = Done (MkBudget (steps b + n) (limit b), Some r)
  else ∃ st, limit b < st ∧ f b = Done (MkBudget st (limit b), None).

(** The budget of a call on [rows]: not exceeded, and too small to overflow. *)
Definition budget_ok (b : Budget) (rows : list (list PatId)) : Prop :=
  0 ≤ steps b ≤ limit b ∧ limit b + Z.of_nat (length rows) < 2 ^ 64.

(** ** Fuel *)

Section fuel.
Variable s : PatStore.

(** Constructor nodes of the tree an id unfolds to. *)
Fixpoint weight_at (n : nat) (id : PatId) : nat :=
  match n with
  | O => 0
  | S n =>
      match ctor_at s id with
      | None => 0
      | Some _ => S (sum_list_with (weight_at n) (subs_at s id))
      end
  end.
Definition weight (id : PatId) : nat := weight_at (S id) id.
Definition row_weight (r : list PatId) : nat := sum_list_with weight r.
Definition rows_weight (rows : list (list PatId)) : nat := sum_list_with row_weight rows.
Definition max_arity : nat := max_list (sub_len s).

Definition measure (rows : list (list PatId)) (v : list PatId) : nat :=
  ((rows_weight rows + row_weight v) * max_arity + length v)%nat.
End fuel.
