(* ===== verification/ExhaustMatrix.v ===== *)
(** * The matrix operations and the fuel bound

    Lemmas on specialising and defaulting typed rows: what rows they keep, that
    they keep typing, how they change the measure, and what they mean for the
    values the rows cover. *)

From S2P Require Import Prelude PatStore Exhaust ExhaustSpec.
Local Open Scope Z_scope.

(** ** Lists *)

Lemma sum_list_omap {A} (f : A → nat) (g : A → option A) l :
  (∀ x y, x ∈ l → g x = Some y → (f y ≤ f x)%nat) →
  (sum_list_with f (omap g l) ≤ sum_list_with f l)%nat.
Proof.
  induction l as [|x l IH]; intros Hg; csimpl; [done|].
  assert (sum_list_with f (omap g l) ≤ sum_list_with f l)%nat.
  { apply IH. intros ????. eapply Hg; [by constructor|done]. }
  clear IH.
  destruct (g x) as [y|] eqn:E; csimpl; [|lia].
  specialize (Hg x y ltac:(constructor) E). lia.
Qed.

Lemma sum_list_omap_lt {A} (f : A → nat) (g : A → option A) l x :
  (∀ x y, x ∈ l → g x = Some y → (f y ≤ f x)%nat) →
  x ∈ l → (∀ y, g x = Some y → (f y < f x)%nat) → (0 < f x)%nat →
  (sum_list_with f (omap g l) < sum_list_with f l)%nat.
Proof.
  intros Hg Hx Hlt Hpos. apply list_elem_of_split in Hx as (l1 & l2 & ->).
  rewrite omap_app. csimpl. rewrite !sum_list_with_app. csimpl.
  assert (sum_list_with f (omap g l1) ≤ sum_list_with f l1)%nat.
  { apply sum_list_omap. intros ?? Hin. apply Hg, elem_of_app. by left. }
  assert (sum_list_with f (omap g l2) ≤ sum_list_with f l2)%nat.
  { apply sum_list_omap. intros ?? Hin. apply Hg, elem_of_app. right. by constructor. }
  destruct (g x) as [y|]; csimpl; [specialize (Hlt y eq_refl)|]; lia.
Qed.

Lemma length_omap_le {A B} (g : A → option B) l : (length (omap g l) ≤ length l)%nat.
Proof. induction l as [|x l IH]; csimpl; [done|]. destruct (g x); csimpl; lia. Qed.

Lemma sum_list_ext {A} (f g : A → nat) l :
  (∀ x, x ∈ l → f x = g x) → sum_list_with f l = sum_list_with g l.
Proof.
  induction l as [|x l IH]; intros Hfg; simpl; [done|].
  rewrite Hfg by constructor. f_equal. apply IH. intros. apply Hfg. by constructor.
Qed.

Section matrix.
Context `{Fir} (s : PatStore) (Hwf : wf_store s).
Implicit Types (id p : PatId) (r v : list PatId) (rows : list (list PatId)).
Abbreviation Row tys := (Forall2 (pat_ty s) tys).

(** ** Weights *)

Lemma weight_at_enough n m id :
  (id < n)%nat → (id < m)%nat → weight_at s n id = weight_at s m id.
Proof using Hwf.
  revert m id. induction n as [|n IH]; intros [|m] id Hn Hm; [lia..|]. simpl.
  destruct (ctor_at s id); [|done]. f_equal. apply sum_list_ext.
  intros i Hi%(subs_below _ Hwf). apply IH; lia.
Qed.

Lemma weight_eq id :
  weight s id = match ctor_at s id with
                | None => 0%nat | Some _ => S (sum_list_with (weight s) (subs_at s id)) end.
Proof using Hwf.
  unfold weight at 1. simpl. destruct (ctor_at s id); [|done]. f_equal.
  apply sum_list_ext. intros i Hi%(subs_below _ Hwf). apply weight_at_enough; lia.
Qed.

Lemma weight_wild : weight s (wild_id s) = 0%nat.
Proof using Hwf. rewrite weight_eq. by rewrite (wild_ctor _ Hwf). Qed.

Lemma row_weight_app r r' : row_weight s (r ++ r') = (row_weight s r + row_weight s r')%nat.
Proof. apply sum_list_with_app. Qed.

Lemma row_weight_wilds n : row_weight s (replicate n (wild_id s)) = 0%nat.
Proof using Hwf. induction n; [done|]. simpl. rewrite weight_wild. done. Qed.

Lemma spec_row_weight c n r r' :
  spec_row s c n r = Some r' → (row_weight s r' ≤ row_weight s r)%nat.
Proof using Hwf.
  destruct r as [|p r]; [done|]. simpl. pose proof (weight_eq p) as Hp.
  destruct (ctor_at s p); [case_bool_decide; [|done]|]; intros [= <-].
  - rewrite row_weight_app, Hp. unfold row_weight. lia.
  - rewrite row_weight_app, row_weight_wilds. lia.
Qed.

Lemma heads_weight c n r : heads s c r = true →
  (0 < row_weight s r)%nat ∧
  ∀ r', spec_row s c n r = Some r' → (row_weight s r' < row_weight s r)%nat.
Proof using Hwf.
  destruct r as [|p r]; [done|]. simpl. pose proof (weight_eq p) as Hp.
  intros Hc%bool_decide_eq_true. rewrite Hc in *. rewrite bool_decide_true by done.
  split; [lia|]. intros r' [= <-]. rewrite row_weight_app. unfold row_weight in *. lia.
Qed.

Lemma default_row_weight r r' :
  default_row s r = Some r' → (row_weight s r' ≤ row_weight s r)%nat.
Proof. destruct r as [|p r]; simpl; [done|]. destruct (ctor_at s p); [done|]. intros [= <-]. lia. Qed.

Lemma subs_arity id : (length (subs_at s id) ≤ max_arity s)%nat.
Proof.
  unfold subs_at, max_arity. destruct (sub_start s !! id); [|simpl; lia].
  destruct (sub_len s !! id) as [l|] eqn:E; [|simpl; lia].
  rewrite length_take. apply list_elem_of_lookup_2, max_list_elem_of_le in E. lia.
Qed.

(** ** Typing *)

Lemma pat_ty_in ty id : pat_ty s ty id → in_store s id.
Proof. destruct 1; [done|by eapply ctor_in_store]. Qed.

Lemma pat_ty_subs ty id c : pat_ty s ty id → ctor_at s id = Some c →
  ctor_fits ty c ∧ Row (ctor_sub_tys ty c) (subs_at s id).
Proof. destruct 1; intros; simplify_eq. done. Qed.

Lemma pat_ty_wild ty : pat_ty s ty (wild_id s).
Proof using Hwf. apply pt_wild; [by apply wild_in_store|by apply wild_ctor]. Qed.

Lemma wilds_ty tys : Row tys (replicate (length tys) (wild_id s)).
Proof using Hwf. induction tys; simpl; constructor; auto using pat_ty_wild. Qed.

Lemma spec_row_ty ty tys c r r' :
  Row (ty :: tys) r → spec_row s c (length (ctor_sub_tys ty c)) r = Some r' →
  Row (ctor_sub_tys ty c ++ tys) r'.
Proof using Hwf.
  inversion 1 as [|? p ? rest Hp Hrest]; subst. simpl.
  destruct (ctor_at s p) eqn:Hc; [case_bool_decide; [|done]|]; intros [= <-]; subst.
  - apply Forall2_app; [|done]. by eapply pat_ty_subs.
  - apply Forall2_app; [apply wilds_ty|done].
Qed.

Lemma default_row_ty ty tys r r' :
  Row (ty :: tys) r → default_row s r = Some r' → Row tys r'.
Proof.
  inversion 1; subst. simpl. destruct (ctor_at _ _); [done|]. by intros [= <-].
Qed.

Lemma omap_rows_ty (f : list PatId → option (list PatId)) tys tys' rows :
  (∀ r r', Row tys r → f r = Some r' → Row tys' r') →
  Forall (Row tys) rows → Forall (Row tys') (omap f rows).
Proof.
  intros Hf Hrows. apply Forall_forall. intros r' (r & Hr & Hr')%list_elem_of_omap.
  rewrite Forall_forall in Hrows. eauto.
Qed.

Lemma spec_rows_ty ty tys c rows : Forall (Row (ty :: tys)) rows →
  Forall (Row (ctor_sub_tys ty c ++ tys))
    (omap (spec_row s c (length (ctor_sub_tys ty c))) rows).
Proof using Hwf. apply omap_rows_ty. intros. by eapply spec_row_ty. Qed.

Lemma default_rows_ty ty tys rows : Forall (Row (ty :: tys)) rows →
  Forall (Row tys) (omap (default_row s) rows).
Proof. apply omap_rows_ty. intros. by eapply default_row_ty. Qed.

(** The arity of a constructor some row is headed by is at most [max_arity]. *)
Lemma heads_arity ty tys c rows :
  Forall (Row (ty :: tys)) rows → existsb (heads s c) rows = true →
  (length (ctor_sub_tys ty c) ≤ max_arity s)%nat.
Proof.
  intros Hrows (r & Hr & Hh)%existsb_exists. apply list_elem_of_In in Hr.
  rewrite Forall_forall in Hrows. specialize (Hrows r Hr).
  inversion Hrows as [|? p ? rest Hp]; subst. simpl in Hh. apply bool_decide_eq_true in Hh.
  destruct (pat_ty_subs _ _ _ Hp Hh) as [_ Hsubs%Forall2_length].
  rewrite Hsubs. apply subs_arity.
Qed.

(** ** The code's loops *)

Lemma head_ctor_eq ty tys r : Row (ty :: tys) r →
  ∃ p rest, r = p :: rest ∧ in_store s p ∧ head_ctor s r = Done (ctor_at s p).
Proof.
  inversion 1 as [|? p ? rest Hp]; subst. apply pat_ty_in in Hp.
  exists p, rest. split_and!; [done..|]. unfold head_ctor. simpl. by apply ctor_of_at.
Qed.

Lemma specialize_eq ty tys c n rows : Forall (Row (ty :: tys)) rows →
  specialize s rows c n = Done (omap (spec_row s c n) rows).
Proof using Hwf.
  induction 1 as [|r rows Hr _ IH]; [done|]. simpl.
  destruct (head_ctor_eq _ _ _ Hr) as (p & rest & -> & Hp & ->). simpl.
  destruct (ctor_at s p); simpl; [case_bool_decide; simpl|].
  - rewrite (subs_of_at _ Hwf) by done. simpl. by rewrite IH.
  - done.
  - by rewrite IH.
Qed.

Lemma default_rows_eq ty tys rows : Forall (Row (ty :: tys)) rows →
  default_rows s rows = Done (omap (default_row s) rows).
Proof.
  induction 1 as [|r rows Hr _ IH]; [done|]. simpl.
  destruct (head_ctor_eq _ _ _ Hr) as (p & rest & -> & Hp & ->). simpl.
  rewrite IH. simpl. by destruct (ctor_at s p).
Qed.

Lemma occurs_eq ty tys c rows : Forall (Row (ty :: tys)) rows →
  occurs s rows c = Done (existsb (heads s c) rows).
Proof.
  induction 1 as [|r rows Hr _ IH]; [done|]. simpl.
  destruct (head_ctor_eq _ _ _ Hr) as (p & rest & -> & Hp & ->). simpl.
  case_bool_decide; [done|]. by rewrite IH.
Qed.

Lemma first_missing_eq ty tys ctors rows : Forall (Row (ty :: tys)) rows →
  ∃ o, first_missing s rows ctors = Done o ∧
  match o with
  | None => complete s rows ctors = true
  | Some (c, sub) => complete s rows ctors = false ∧ (c, sub) ∈ ctors
      ∧ existsb (heads s c) rows = false
  end.
Proof.
  intros Hrows. unfold complete. induction ctors as [|[c sub] ctors IH]; simpl; [by eexists|].
  rewrite (occurs_eq _ _ _ _ Hrows). simpl. destruct (existsb _ _) eqn:E; simpl.
  - destruct IH as (o & -> & Ho). exists o. split; [done|].
    destruct o as [[]|]; [|done]. destruct Ho as (? & ? & ?). split_and!; [done| |done].
    by constructor.
  - eexists. split; [done|]. simpl. split_and!; [done|constructor|done].
Qed.

(** ** What the rows cover *)

Lemma matches_inv id (x : val) : matches s id x ↔
  match ctor_at s id with
  | None => True
  | Some c => ∃ vs, x = VCtor c vs ∧ Forall2 (matches s) (subs_at s id) vs
  end.
Proof.
  split.
  - destruct 1 as [? ? Hn|? ? ? Hc]; [by rewrite Hn|]. rewrite Hc. eauto.
  - destruct (ctor_at s id) eqn:Hc; [|by constructor].
    intros (vs & -> & ?). by eapply m_ctor.
Qed.

Lemma wilds_match (vs : list val) :
  Forall2 (matches s) (replicate (length vs) (wild_id s)) vs.
Proof using Hwf.
  induction vs; simpl; constructor; [|done]. apply m_wild, wild_ctor, Hwf.
Qed.

Lemma spec_row_matches ty tys c r vs rest :
  Row (ty :: tys) r → length vs = length (ctor_sub_tys ty c) →
  Forall2 (matches s) r (VCtor c vs :: rest) ↔
  ∃ r', spec_row s c (length (ctor_sub_tys ty c)) r = Some r' ∧
    Forall2 (matches s) r' (vs ++ rest).
Proof using Hwf.
  inversion 1 as [|? p ? r0 Hp]; subst. intros Hlen. simpl.
  rewrite Forall2_cons, matches_inv. destruct (ctor_at s p) as [c'|] eqn:Hc.
  - destruct (pat_ty_subs _ _ _ Hp Hc) as [_ Hsubs%Forall2_length].
    case_bool_decide as Heq; subst.
    + split.
      * intros ((vs' & [= <-] & Hvs) & Hr). eexists. split; [done|]. by apply Forall2_app.
      * intros (? & [= <-] & Hr). apply Forall2_app_inv in Hr as [??]; [|congruence].
        split; [|done]. by exists vs.
    + split; [|by intros (? & [=] & _)]. by intros ((? & [= ] & _) & _).
  - rewrite <- Hlen. split.
    + intros [_ Hr]. eexists. split; [done|]. apply Forall2_app; [apply wilds_match|done].
    + intros (? & [= <-] & Hr). split; [done|].
      apply Forall2_app_inv in Hr; [tauto|]. by rewrite length_replicate.
Qed.

Lemma covers_spec ty tys c rows vs rest :
  Forall (Row (ty :: tys)) rows → length vs = length (ctor_sub_tys ty c) →
  covers s rows (VCtor c vs :: rest) ↔
  covers s (omap (spec_row s c (length (ctor_sub_tys ty c))) rows) (vs ++ rest).
Proof using Hwf.
  intros Hrows Hlen. rewrite Forall_forall in Hrows. split.
  - intros (r & Hr & Hm). eapply spec_row_matches in Hm as (r' & Hr' & Hm); eauto.
    exists r'. split; [|done]. apply list_elem_of_omap. eauto.
  - intros (r' & (r & Hr & Hr')%list_elem_of_omap & Hm). exists r. split; [done|].
    eapply spec_row_matches; eauto.
Qed.

Lemma covers_default rows x rest :
  covers s (omap (default_row s) rows) rest → covers s rows (x :: rest).
Proof.
  intros (r' & (r & Hr & Hr')%list_elem_of_omap & Hm). exists r. split; [done|].
  destruct r as [|p r]; [done|]. simpl in Hr'.
  destruct (ctor_at s p) eqn:Hc; simplify_eq. constructor; [by constructor|done].
Qed.

(** No row is headed by the constructor of [x]. *)
Definition unheaded (rows : list (list PatId)) (x : val) : Prop :=
  match x with VCtor c _ => existsb (heads s c) rows = false | VOther => True end.

Lemma covers_default_inv rows x rest :
  unheaded rows x → covers s rows (x :: rest) → covers s (omap (default_row s) rows) rest.
Proof.
  intros Hun (r & Hr & Hm). inversion Hm as [|p ? r0 ? Hp Hr0]; subst.
  exists r0. split; [|done]. apply list_elem_of_omap. exists (p :: r0). split; [done|]. simpl.
  apply matches_inv in Hp. destruct (ctor_at s p) as [c|] eqn:Hc; [|done].
  destruct Hp as (vs & -> & _). simpl in Hun.
  assert (existsb (heads s c) rows = true) as Hex; [|congruence].
  apply existsb_exists. exists (p :: r0). split; [by apply list_elem_of_In|]. simpl.
  by apply bool_decide_eq_true.
Qed.

(** ** The measure *)

Lemma rows_weight_le (f : list PatId → option (list PatId)) rows :
  (∀ r r', f r = Some r' → (row_weight s r' ≤ row_weight s r)%nat) →
  (rows_weight s (omap f rows) ≤ rows_weight s rows)%nat.
Proof. intros Hf. apply sum_list_omap. eauto. Qed.

Lemma measure_ctor c n p rest rows :
  ctor_at s p = Some c →
  (measure s (omap (spec_row s c n) rows) (subs_at s p ++ rest) < measure s rows (p :: rest))%nat.
Proof using Hwf.
  intros Hc. pose proof (weight_eq p) as Hp. rewrite Hc in Hp.
  pose proof (rows_weight_le (spec_row s c n) rows (spec_row_weight c n)).
  pose proof (subs_arity p). unfold measure. rewrite row_weight_app, length_app. simpl.
  unfold row_weight in *. nia.
Qed.

Lemma measure_default p rest rows :
  (measure s (omap (default_row s) rows) rest < measure s rows (p :: rest))%nat.
Proof.
  pose proof (rows_weight_le (default_row s) rows default_row_weight).
  unfold measure, row_weight in *. simpl. nia.
Qed.

Lemma measure_complete ty tys c p rest rows :
  Forall (Row (ty :: tys)) rows → existsb (heads s c) rows = true →
  let n := length (ctor_sub_tys ty c) in
  (measure s (omap (spec_row s c n) rows) (replicate n (wild_id s) ++ rest)
   < measure s rows (p :: rest))%nat.
Proof using Hwf.
  intros Hrows Hex n. pose proof (heads_arity _ _ _ _ Hrows Hex) as Hn. fold n in Hn.
  apply existsb_exists in Hex as (r & Hr%list_elem_of_In & Hh).
  destruct (heads_weight c n r Hh) as [Hpos Hlt].
  assert (rows_weight s (omap (spec_row s c n) rows) < rows_weight s rows)%nat.
  { apply (sum_list_omap_lt _ _ _ r); eauto using spec_row_weight. }
  unfold measure. rewrite row_weight_app, row_weight_wilds, length_app, length_replicate.
  simpl. unfold row_weight in *. nia.
Qed.
End matrix.
