(* ===== verification/ExhaustProps.v ===== *)
(** * Usefulness is sound, complete, total and charged as R55 counts

    [usefulness_main] is the refinement of [usefulness] by [useful_spec] and
    [plain]; the theorems on [check_match] follow from it. *)

From stdpp Require Import pretty.
From S2P Require Import Prelude PatStore Exhaust ExhaustSpec ExhaustMatrix.
Local Open Scope Z_scope.

(** ** Signatures *)

Section signatures.
Context `{Fir}.

Lemma signature_sub_tys ty cs c sub :
  signature_of ty = Finite cs → (c, sub) ∈ cs → ctor_sub_tys ty c = sub.
Proof.
  unfold signature_of. intros Hsig Hin. destruct (_ || _); [done|].
  destruct (ty_tag (unqual ty)) eqn:Htag; try done.
  - destruct (PrimKind.from_u8 _) as [[]|]; simplify_eq.
    apply list_elem_of_In in Hin. simpl in Hin. by destruct Hin as [[= <- <-]|[[= <- <-]|[]]].
  - assert (scrutinee_args ty (ty_a (unqual ty)) = ty_b (unqual ty)) as Hargs.
    { unfold scrutinee_args. by rewrite Htag, bool_decide_true, Z.eqb_refl. }
    destruct (sig_kind _); try done.
    + injection Hsig as <-. apply list_elem_of_singleton in Hin as [= -> ->].
      simpl. by rewrite Hargs.
    + destruct (enum_ctors _ _) as [|ct l] eqn:Hcs; [done|]. injection Hsig as <-.
      rewrite <- Hcs in Hin. unfold enum_ctors in Hin.
      apply list_elem_of_lookup in Hin as (i & Hi).
      rewrite list_lookup_imap in Hi. apply fmap_Some in Hi as (m & Hm & [= -> ->]).
      simpl. unfold nth_variant. by rewrite Nat2Z.id, Hm, Hargs.
  - injection Hsig as <-. apply list_elem_of_singleton in Hin as [= -> ->].
    simpl. by rewrite Htag.
Qed.

Lemma finite_fits ty cs c sub :
  signature_of ty = Finite cs → (c, sub) ∈ cs → ctor_fits ty c.
Proof.
  intros Hsig Hin. unfold ctor_fits. rewrite Hsig.
  apply list_elem_of_fmap. by exists (c, sub).
Qed.

Lemma literal_sub_tys ty c : is_literal ty c → ctor_sub_tys ty c = [].
Proof. by destruct c. Qed.
End signatures.

Section usefulness.
Context `{Fir, Names} (s : PatStore) (Hwf : wf_store s).
Abbreviation Row tys := (Forall2 (pat_ty s) tys).

(** ** The literal the witness names heads no row *)

Lemma first_fresh_eq ty tys rows cands :
  Forall (Row (ty :: tys)) rows → NoDup cands → (length rows < length cands)%nat →
  ∃ c, first_fresh s rows cands = Done (WCtor c []) ∧ c ∈ cands ∧
    existsb (heads s c) rows = false.
Proof.
  intros Hrows Hnd Hlen.
  assert (∃ c, c ∈ cands ∧ existsb (heads s c) rows = false) as Hex.
  { destruct (decide (Exists (λ c, existsb (heads s c) rows = false) cands)) as [Hc|Hc].
    { apply Exists_exists in Hc as (c & ? & ?). eauto. }
    exfalso. apply not_Exists_Forall in Hc; [|apply _]. rewrite Forall_forall in Hc.
    assert (cands ⊆+ omap (λ r, p ← head r; ctor_at s p) rows) as Hsub%submseteq_length.
    { apply NoDup_submseteq; [done|]. intros c Hin. specialize (Hc c Hin).
      apply not_false_is_true, existsb_exists in Hc as (r & Hr%list_elem_of_In & Hh).
      apply list_elem_of_omap. exists r. split; [done|]. destruct r; [done|]. simpl in *.
      by apply bool_decide_eq_true in Hh. }
    pose proof (length_omap_le (λ r, p ← head r; ctor_at s p) rows). lia. }
  clear Hnd Hlen. induction cands as [|c cands IH]; simpl.
  { destruct Hex as (? & ?%not_elem_of_nil & _). done. }
  rewrite (occurs_eq s _ _ _ _ Hrows). simpl. destruct (existsb (heads s c) rows) eqn:E.
  - destruct IH as (c' & ? & ? & ?); [|exists c'; split_and!; [done|by constructor|done]].
    destruct Hex as (c' & [->|?]%elem_of_cons & ?); [congruence|eauto].
  - exists c. split_and!; [done|constructor|done].
Qed.

Lemma missing_literal_eq ty tys rows : Forall (Row (ty :: tys)) rows →
  ∃ c, missing_literal s ty rows = Done (WCtor c []) ∧ is_literal ty c ∧
    existsb (heads s c) rows = false.
Proof.
  intros Hrows. unfold missing_literal. fold (is_str ty). set (b := is_str ty).
  set (f := if b then λ n, Ctor.Str (intern (other_name n)) else Ctor.Int).
  destruct (first_fresh_eq ty tys rows (f <$> seqZ 0 (Z.of_nat (length rows) + 1)))
    as (c & Heq & Hin & Hc); [done| | |].
  - apply NoDup_fmap_2; [|apply NoDup_seqZ]. unfold f. destruct b; intros x y; [|by intros [=]].
    intros [= Hxy%(inj intern)]. unfold other_name in Hxy.
    by apply (inj (String.app _)), (inj pretty) in Hxy.
  - rewrite length_fmap, length_seqZ. lia.
  - exists c. split_and!; [| |done].
    + rewrite <- Heq. unfold f. by destruct b.
    + apply list_elem_of_fmap in Hin as (n & -> & _). unfold f, is_literal. fold b. by destruct b.
Qed.

(** ** One column of the recursion *)

Lemma combine_useful ty tys c rows v v' w :
  Forall (Row (ty :: tys)) rows → ctor_fits ty c →
  (∀ vs rest, length vs = length (ctor_sub_tys ty c) →
    Forall2 (matches s) v' (vs ++ rest) → Forall2 (matches s) v (VCtor c vs :: rest)) →
  useful_spec s (ctor_sub_tys ty c ++ tys)
    (omap (spec_row s c (length (ctor_sub_tys ty c))) rows) v' (Some w) →
  ∃ w', combine_witness c (length (ctor_sub_tys ty c)) w = Done w' ∧
    useful_spec s (ty :: tys) rows v (Some w').
Proof using Hwf.
  intros Hrows Hfit Hv [Hw Hspec]. apply Forall2_app_inv_l in Hw as (w1 & w2 & Hw1 & Hw2 & ->).
  pose proof (Forall2_length _ _ _ Hw1) as Hlen. unfold combine_witness.
  rewrite bool_decide_true by (rewrite length_app; lia). eexists. split; [done|].
  rewrite Hlen, take_app_length, drop_app_length. split.
  { constructor; [by apply wt_ctor|done]. }
  intros vs Hvs Hinst. apply Forall2_cons_inv_l in Hinst as (x & rest & Hx & Hrest & ->).
  inversion Hx as [|? ? xs Hxs]; subst. apply Forall2_cons in Hvs as [Hty Hvs].
  inversion Hty as [? ? ? _ Hxty|]; subst.
  pose proof (Forall2_length _ _ _ Hxty) as Hlen'.
  destruct (Hspec (xs ++ rest)) as [Hm Hnc]; [by apply Forall2_app..|].
  split; [by apply Hv|]. by rewrite (covers_spec s Hwf ty tys).
Qed.

Lemma default_useful ty tys rows p rest w0 w :
  ctor_at s p = None → wit_ty ty w0 →
  (∀ x, has_ty ty x → instance w0 x → unheaded s rows x) →
  useful_spec s tys (omap (default_row s) rows) rest (Some w) →
  useful_spec s (ty :: tys) rows (p :: rest) (Some (w0 :: w)).
Proof.
  intros Hp Hw0 Hun [Hw Hspec]. split; [by constructor|].
  intros vs Hvs Hinst. apply Forall2_cons_inv_l in Hinst as (x & xs & Hx & Hxs & ->).
  apply Forall2_cons in Hvs as [Hty Hvs]. destruct (Hspec xs Hvs Hxs) as [Hm Hnc].
  split; [constructor; [by constructor|done]|].
  intros Hc%covers_default_inv; [done|]. eauto.
Qed.

Lemma default_useless ty tys rows p rest :
  useful_spec s tys (omap (default_row s) rows) rest None →
  useful_spec s (ty :: tys) rows (p :: rest) None.
Proof.
  intros Hspec vs Hvs Hm. apply Forall2_cons_inv_l in Hm as (x & xs & Hx & Hxs & ->).
  apply Forall2_cons in Hvs as [Hty Hvs]. apply covers_default. by apply Hspec.
Qed.

(** ** Budgets *)

Lemma sum_nonneg {A} (f : A → Z) l : (∀ x, 0 ≤ f x) → 0 ≤ foldr Z.add 0 (f <$> l).
Proof. intros Hf. induction l as [|x l IH]; csimpl; [done|]. specialize (Hf x). lia. Qed.

Lemma plain_nonneg fuel cols rows v : 0 ≤ plain s fuel cols rows v.
Proof.
  revert cols rows v. induction fuel as [|fuel IH]; intros; simpl; [done|].
  apply Z.add_nonneg_nonneg; [lia|]. destruct v; [done|]. destruct cols; [done|].
  destruct (ctor_at _ _); [done|]. destruct (signature_of _); [|done].
  destruct (complete _ _ _); auto using sum_nonneg.
Qed.

Lemma budget_ok_le b rows rows' :
  budget_ok b rows → (length rows' ≤ length rows)%nat → budget_ok b rows'.
Proof. unfold budget_ok. lia. Qed.

Lemma runs_charge rows n r (body : Budget → res answer) b :
  budget_ok b rows → 0 ≤ n →
  (∀ b1, budget_ok b1 rows → runs n r body b1) →
  runs (Z.of_nat (length rows) + n) r
    (λ b, let '(b, ok) := Budget.charge (Z.of_nat (length rows)) b in
          if negb ok then Done (b, None) else body b) b.
Proof.
  intros [Hs Hl] Hn Hbody. unfold runs, Budget.charge.
  rewrite wrap_small by (unfold unsigned; lia).
  destruct (Z.leb_spec (steps b + Z.of_nat (length rows)) (limit b)) as [Hle|Hgt]; simpl.
  - specialize (Hbody (MkBudget (steps b + Z.of_nat (length rows)) (limit b))).
    unfold runs in Hbody. simpl in Hbody. rewrite Z.add_assoc.
    apply Hbody. split; simpl; lia.
  - rewrite decide_False by lia. eexists. split; [|done]. lia.
Qed.

Lemma runs_then n r f b (g : Budget → option (option (list Witness)) → res answer) r' :
  runs n r f b →
  (∀ b, g b None = Done (b, None)) → (∀ b, g b (Some r) = Done (b, Some r')) →
  runs n r' (λ b, '(b, o) ← f b; g b o) b.
Proof.
  unfold runs. intros Hf Hnone Hsome. destruct (decide _); [by rewrite Hf; simpl|].
  destruct Hf as (st & ? & ->). simpl. rewrite Hnone. eauto.
Qed.

(** ** The loop over a complete signature *)

(** The query on the rows specialised by [ct]. *)
Definition sub_query (tys : list TyId) (rows : list (list PatId)) (rest : list PatId)
    (ct : Ctor.t * list TyId) : list TyId * list (list PatId) * list PatId :=
  (ct.2 ++ tys, omap (spec_row s ct.1 (length ct.2)) rows,
   replicate (length ct.2) (wild_id s) ++ rest).
Definition query_spec (q : list TyId * list (list PatId) * list PatId) :=
  useful_spec s q.1.1 q.1.2 q.2.

Lemma wilds_step n c p rest vs xs :
  ctor_at s p = None → length vs = n →
  Forall2 (matches s) (replicate n (wild_id s) ++ rest) (vs ++ xs) →
  Forall2 (matches s) (p :: rest) (VCtor c vs :: xs).
Proof.
  intros Hp Hlen Hm. constructor; [by constructor|].
  apply Forall2_app_inv in Hm; [tauto|]. by rewrite length_replicate.
Qed.

Lemma all_ctors_runs U cnt ty tys rows p rest ctors :
  Forall (Row (ty :: tys)) rows → ctor_at s p = None → (∀ ct, 0 ≤ cnt ct) →
  (∀ c sub, (c, sub) ∈ ctors → ctor_fits ty c ∧ ctor_sub_tys ty c = sub ∧
    let q := sub_query tys rows rest (c, sub) in
    ∃ r, query_spec q r ∧ ∀ b, budget_ok b rows → runs (cnt (c, sub)) r (U q.1.1 q.1.2 q.2) b) →
  ∀ acc, (∀ w, acc = Some w → useful_spec s (ty :: tys) rows (p :: rest) (Some w)) →
  ∃ r, (∀ w, r = Some w → useful_spec s (ty :: tys) rows (p :: rest) (Some w)) ∧
    (r = None → ∀ ct, ct ∈ ctors → query_spec (sub_query tys rows rest ct) None) ∧
    (r = None → acc = None) ∧
    ∀ b, budget_ok b rows →
      runs (foldr Z.add 0 (cnt <$> ctors)) r (all_ctors s U tys rows rest ctors acc) b.
Proof using Hwf.
  intros Hrows Hp Hcnt. induction ctors as [|[c sub] ctors IH]; intros Hq acc Hacc.
  { exists acc. split_and!; [done|by intros _ ? ?%not_elem_of_nil|done|].
    intros b [Hb _]. unfold runs. simpl. rewrite decide_True, Z.add_0_r by lia. by destruct b. }
  destruct (Hq c sub ltac:(constructor)) as (Hfit & Hsub & r1 & Hr1 & Hrun1).
  assert (∃ acc', match acc, r1 with
          | None, Some w => fmap (M := res) Some (combine_witness c (length sub) w)
          | _, _ => Done acc end = Done acc' ∧
          (∀ w, acc' = Some w → useful_spec s (ty :: tys) rows (p :: rest) (Some w)) ∧
          (acc' = None → acc = None ∧ r1 = None)) as (acc' & Hacceq & Hacc' & Haccnone).
  { destruct acc as [w|]; [by eexists|]. destruct r1 as [w|]; [|by eexists].
    subst sub. destruct (combine_useful ty tys c rows (p :: rest) _ w Hrows Hfit
      (λ vs xs Hlen Hm, wilds_step _ c p rest vs xs Hp Hlen Hm) Hr1) as (w' & -> & Hw').
    exists (Some w'). split_and!; [done|by intros ? [= <-]|done]. }
  destruct (IH (λ c' sub' Hin, Hq c' sub' ltac:(by constructor)) acc' Hacc')
    as (r & Hr & Hrnone & Hraccnone & Hrun).
  exists r. split_and!; [done| | |].
  - intros -> ct [->|Hin]%elem_of_cons; [|by apply Hrnone].
    destruct (Haccnone (Hraccnone eq_refl)) as [_ ->]. done.
  - intros ->. by apply Haccnone, Hraccnone.
  - intros b Hb. specialize (Hrun1 b Hb). specialize (Hcnt (c, sub)) as Hc.
    pose proof (sum_nonneg cnt ctors Hcnt) as Hrest.
    unfold runs in *. csimpl. rewrite (specialize_eq s Hwf ty tys) by done. simpl.
    unfold Store.wild. unfold sub_query in Hrun1. simpl in Hrun1.
    destruct (decide (steps b + cnt (c, sub) ≤ limit b)) as [Hle|Hgt].
    + rewrite Hrun1. simpl. rewrite Hacceq. simpl.
      specialize (Hrun (MkBudget (steps b + cnt (c, sub)) (limit b))). simpl in Hrun.
      rewrite <- Z.add_assoc in Hrun. apply Hrun. destruct Hb. split; simpl; lia.
    + rewrite decide_False by lia. destruct Hrun1 as (st & Hst & ->). simpl. eauto.
Qed.

(** ** The refinement *)

Definition meets (fuel : nat) (cols : list TyId) (rows : list (list PatId)) (v : list PatId) :
    Prop :=
  ∃ r, useful_spec s cols rows v r ∧
    ∀ b, budget_ok b rows → runs (plain s fuel cols rows v) r (usefulness s fuel cols rows v) b.

Definition refines_at (fuel : nat) : Prop :=
  ∀ cols rows v, Forall (Row cols) rows → Row cols v → (measure s rows v < fuel)%nat →
    meets fuel cols rows v.

Lemma usefulness_S fuel cols rows v :
  usefulness s (S fuel) cols rows v =
  λ b, let '(b, ok) := Budget.charge (Z.of_nat (length rows)) b in
       if negb ok then Done (b, None) else usefulness_body s (usefulness s fuel) cols rows v b.
Proof. reflexivity. Qed.

(** One unfolding of [plain]: the rows of this matrix, and [rest]. *)
Definition plain_body (fuel : nat) (cols : list TyId) (rows : list (list PatId))
    (v : list PatId) : Z := plain s (S fuel) cols rows v - Z.of_nat (length rows).

Lemma meets_body fuel cols rows v r :
  useful_spec s cols rows v r → 0 ≤ plain_body fuel cols rows v →
  (∀ b, budget_ok b rows → runs (plain_body fuel cols rows v) r
    (usefulness_body s (usefulness s fuel) cols rows v) b) →
  meets (S fuel) cols rows v.
Proof.
  intros Hr Hn Hb. exists r. split; [done|]. intros b Hok. rewrite usefulness_S.
  replace (plain s (S fuel) cols rows v)
    with (Z.of_nat (length rows) + plain_body fuel cols rows v) by (unfold plain_body; lia).
  by apply runs_charge.
Qed.

(** What the answer for the specialised rows means for the rows. *)
Lemma ctor_answer ty tys c rows p rest r :
  Forall (Row (ty :: tys)) rows → pat_ty s ty p → ctor_at s p = Some c →
  useful_spec s (ctor_sub_tys ty c ++ tys)
    (omap (spec_row s c (length (ctor_sub_tys ty c))) rows) (subs_at s p ++ rest) r →
  ∃ r', useful_spec s (ty :: tys) rows (p :: rest) r' ∧
    ∀ b : Budget, (match r with
         | None => Done (b, Some None)
         | Some w => w ← combine_witness c (length (ctor_sub_tys ty c)) w; Done (b, Some (Some w))
         end : res answer) = Done (b, Some r').
Proof using Hwf.
  intros Hrows Hp Hc Hr. destruct (pat_ty_subs _ _ _ _ Hp Hc) as [Hfit Hsubs].
  destruct r as [w|].
  - destruct (combine_useful ty tys c rows (p :: rest) (subs_at s p ++ rest) w)
      as (w' & -> & ?); [done..| |done|by exists (Some w')].
    intros vs xs Hlen [Hm1 Hm2]%Forall2_app_inv; [|by rewrite Hlen, (Forall2_length _ _ _ Hsubs)].
    constructor; [by eapply m_ctor|done].
  - exists None. split; [|done]. intros vs Hvs Hmv.
    apply Forall2_cons_inv_l in Hmv as (x & xs & Hx & Hxs & ->).
    apply Forall2_cons in Hvs as [Hty Hvs].
    apply matches_inv in Hx. rewrite Hc in Hx. destruct Hx as (ys & -> & Hys).
    inversion Hty as [? ? ? _ Hyty|]; subst.
    apply (covers_spec s Hwf ty tys); [done|by rewrite <- (Forall2_length _ _ _ Hyty)|].
    apply Hr; by apply Forall2_app.
Qed.

(** The head of the vector is a constructor. *)
Lemma meets_ctor fuel ty tys rows p rest c :
  refines_at fuel → Forall (Row (ty :: tys)) rows → Row (ty :: tys) (p :: rest) →
  (measure s rows (p :: rest) < S fuel)%nat → ctor_at s p = Some c →
  meets (S fuel) (ty :: tys) rows (p :: rest).
Proof using Hwf.
  intros IH Hrows [Hp Hrest]%Forall2_cons Hm Hc.
  destruct (pat_ty_subs _ _ _ _ Hp Hc) as [Hfit Hsubs].
  pose proof (measure_ctor s Hwf c (length (ctor_sub_tys ty c)) p rest rows Hc).
  destruct (IH (ctor_sub_tys ty c ++ tys)
    (omap (spec_row s c (length (ctor_sub_tys ty c))) rows) (subs_at s p ++ rest))
    as (r & Hr & Hrun); [by apply spec_rows_ty|by apply Forall2_app|lia|].
  destruct (ctor_answer ty tys c rows p rest r) as (r' & Hr' & Hcomb); [done..|].
  apply (meets_body _ _ _ _ r'); [done| |].
  - unfold plain_body. simpl. rewrite Hc, Z.add_simpl_l. apply plain_nonneg.
  - intros b Hb. unfold plain_body. simpl. rewrite Hc, Z.add_simpl_l. unfold usefulness_body.
    rewrite (ctor_of_at s p) by by eapply pat_ty_in. rewrite Hc. simpl.
    rewrite (specialize_eq s Hwf ty tys), (subs_of_at s Hwf) by eauto using pat_ty_in. simpl.
    apply (runs_then _ r _ _ _ r' (Hrun b (budget_ok_le _ _ _ Hb (length_omap_le _ _)))).
    + done.
    + intros b'. rewrite <- Hcomb. by destruct r.
Qed.

(** The head of the vector is a wildcard and some constructor is missing, or the
    signature is infinite. *)
Lemma meets_default fuel ty tys rows p rest :
  refines_at fuel → Forall (Row (ty :: tys)) rows → Row (ty :: tys) (p :: rest) →
  (measure s rows (p :: rest) < S fuel)%nat →
  meets fuel tys (omap (default_row s) rows) rest.
Proof using Hwf.
  intros IH Hrows [_ Hrest]%Forall2_cons Hm. pose proof (measure_default s p rest rows).
  apply IH; [by eapply default_rows_ty|done|lia].
Qed.

Lemma cons_useful ty tys rows p rest w0 r :
  ctor_at s p = None → wit_ty ty w0 →
  (∀ x, has_ty ty x → instance w0 x → unheaded s rows x) →
  useful_spec s tys (omap (default_row s) rows) rest r →
  useful_spec s (ty :: tys) rows (p :: rest) (fmap (M := option) (cons w0) r).
Proof.
  intros. destruct r; [by apply default_useful|by apply default_useless].
Qed.

Lemma wilds_wit_ty tys : Forall2 wit_ty tys (replicate (length tys) WWild).
Proof. induction tys; simpl; repeat constructor. done. Qed.

Lemma unheaded_ctor rows c ws x :
  existsb (heads s c) rows = false → instance (WCtor c ws) x → unheaded s rows x.
Proof. intros Hc. by inversion 1. Qed.

Lemma meets_infinite fuel ty tys rows p rest :
  refines_at fuel → Forall (Row (ty :: tys)) rows → Row (ty :: tys) (p :: rest) →
  (measure s rows (p :: rest) < S fuel)%nat → ctor_at s p = None → signature_of ty = Infinite →
  meets (S fuel) (ty :: tys) rows (p :: rest).
Proof using Hwf.
  intros IH Hrows Hv Hm Hp Hsig.
  destruct (meets_default fuel ty tys rows p rest) as (r & Hr & Hrun); [done..|].
  destruct (missing_literal_eq ty tys rows Hrows) as (c & Hc & Hlit & Hfree).
  apply (meets_body _ _ _ _ (fmap (M := option) (cons (WCtor c [])) r)).
  - apply cons_useful; [done| | |done].
    + apply wt_ctor; [unfold ctor_fits; by rewrite Hsig|by rewrite literal_sub_tys].
    + intros x _. by apply unheaded_ctor.
  - unfold plain_body. simpl. rewrite Hp, Hsig, Z.add_simpl_l. apply plain_nonneg.
  - intros b Hb. unfold plain_body. simpl. rewrite Hp, Hsig, Z.add_simpl_l.
    unfold usefulness_body. apply Forall2_cons in Hv as [Hpt _].
    rewrite (ctor_of_at s p) by by eapply pat_ty_in. rewrite Hp. simpl. rewrite Hsig.
    rewrite (default_rows_eq s ty tys) by done. simpl.
    apply (runs_then _ r _ _ _ _ (Hrun b (budget_ok_le _ _ _ Hb (length_omap_le _ _)))).
    + done.
    + intros b'. by rewrite Hc.
Qed.

Lemma meets_missing fuel ty tys rows p rest cs mc msub :
  refines_at fuel → Forall (Row (ty :: tys)) rows → Row (ty :: tys) (p :: rest) →
  (measure s rows (p :: rest) < S fuel)%nat → ctor_at s p = None → signature_of ty = Finite cs →
  first_missing s rows cs = Done (Some (mc, msub)) → complete s rows cs = false →
  (mc, msub) ∈ cs → existsb (heads s mc) rows = false →
  meets (S fuel) (ty :: tys) rows (p :: rest).
Proof using Hwf.
  intros IH Hrows Hv Hm Hp Hsig Hfm Hcomp Hin Hfree.
  destruct (meets_default fuel ty tys rows p rest) as (r & Hr & Hrun); [done..|].
  set (w0 := WCtor mc (replicate (length msub) WWild)).
  apply (meets_body _ _ _ _ (fmap (M := option) (cons w0) r)).
  - apply cons_useful; [done| | |done].
    + apply wt_ctor; [by eapply finite_fits|].
      rewrite (signature_sub_tys _ _ _ _ Hsig Hin). apply wilds_wit_ty.
    + intros x _. by apply unheaded_ctor.
  - unfold plain_body. simpl. rewrite Hp, Hsig, Hcomp, Z.add_simpl_l. apply plain_nonneg.
  - intros b Hb. unfold plain_body. simpl. rewrite Hp, Hsig, Hcomp, Z.add_simpl_l.
    unfold usefulness_body. apply Forall2_cons in Hv as [Hpt _].
    rewrite (ctor_of_at s p) by by eapply pat_ty_in. rewrite Hp. simpl. rewrite Hsig, Hfm. simpl.
    rewrite (default_rows_eq s ty tys) by done. simpl.
    by apply (runs_then _ r _ _ _ _ (Hrun b (budget_ok_le _ _ _ Hb (length_omap_le _ _)))).
Qed.

Lemma meets_complete fuel ty tys rows p rest cs :
  refines_at fuel → Forall (Row (ty :: tys)) rows → Row (ty :: tys) (p :: rest) →
  (measure s rows (p :: rest) < S fuel)%nat → ctor_at s p = None → signature_of ty = Finite cs →
  first_missing s rows cs = Done None → complete s rows cs = true →
  meets (S fuel) (ty :: tys) rows (p :: rest).
Proof using Hwf.
  intros IH Hrows Hv Hm Hp Hsig Hfm Hcomp. pose proof Hv as [Hpt Hrest]%Forall2_cons.
  set (cnt := λ ct : Ctor.t * list TyId, plain s fuel (ct.2 ++ tys)
                (omap (spec_row s ct.1 (length ct.2)) rows)
                (replicate (length ct.2) (wild_id s) ++ rest)).
  destruct (all_ctors_runs (usefulness s fuel) cnt ty tys rows p rest cs)
    with (acc := @None (list Witness)) as (r & Hsome & Hnone & _ & Hrun);
    [done..|intros; apply plain_nonneg| |done|].
  { intros c sub Hin. pose proof (signature_sub_tys _ _ _ _ Hsig Hin) as <-.
    split_and!; [by eapply finite_fits|done|].
    unfold complete in Hcomp. rewrite forallb_forall in Hcomp.
    specialize (Hcomp _ (proj1 (list_elem_of_In _ _) Hin)). simpl in Hcomp.
    pose proof (measure_complete s Hwf ty tys c p rest rows Hrows Hcomp).
    destruct (IH (ctor_sub_tys ty c ++ tys)
      (omap (spec_row s c (length (ctor_sub_tys ty c))) rows)
      (replicate (length (ctor_sub_tys ty c)) (wild_id s) ++ rest)) as (r & Hr & Hrun);
      [by apply spec_rows_ty|apply Forall2_app; [by apply wilds_ty|done]|simpl in *; lia|].
    exists r. split; [done|]. intros b Hb. apply Hrun.
    eapply budget_ok_le; [done|apply length_omap_le]. }
  apply (meets_body _ _ _ _ r).
  - destruct r as [w|]; [by apply Hsome|]. intros vs Hvs Hmv.
    apply Forall2_cons_inv_l in Hmv as (x & xs & Hx & Hxs & ->).
    apply Forall2_cons in Hvs as [Hty Hvs].
    inversion Hty as [? c ys Hfit Hys|]; subst; [|congruence].
    unfold ctor_fits in Hfit. rewrite Hsig in Hfit.
    apply list_elem_of_fmap in Hfit as ([c' sub] & -> & Hin). simpl in *.
    pose proof (signature_sub_tys _ _ _ _ Hsig Hin) as <-.
    pose proof (Forall2_length _ _ _ Hys) as Hlen.
    apply (covers_spec s Hwf ty tys); [done..|].
    apply (Hnone eq_refl _ Hin); simpl; apply Forall2_app; try done.
    rewrite Hlen. by apply wilds_match.
  - unfold plain_body. simpl. rewrite Hp, Hsig, Hcomp, Z.add_simpl_l.
    apply sum_nonneg. intros. apply plain_nonneg.
  - intros b Hb. unfold plain_body. simpl. rewrite Hp, Hsig, Hcomp, Z.add_simpl_l.
    unfold usefulness_body. rewrite (ctor_of_at s p) by by eapply pat_ty_in.
    rewrite Hp. simpl. rewrite Hsig, Hfm. simpl. by apply Hrun.
Qed.

Lemma meets_nil fuel rows : Forall (Row []) rows → meets (S fuel) [] rows [].
Proof.
  intros Hrows. apply (meets_body _ _ _ _ (match rows with [] => Some [] | _ => None end)).
  - destruct rows as [|r rows].
    + split; [done|]. intros vs ->%Forall2_nil_inv_l _. split; [done|].
      by intros (r & ?%not_elem_of_nil & _).
    + intros vs ->%Forall2_nil_inv_l _. inversion Hrows as [|? ? Hr%Forall2_nil_inv_l]; subst.
      exists []. split; [constructor|done].
  - unfold plain_body. simpl. lia.
  - intros [st lim] [Hb _]. unfold runs, plain_body. simpl in *.
    rewrite decide_True by lia. by rewrite Z.add_0_r, Z.sub_diag, Z.add_0_r.
Qed.

Lemma usefulness_main fuel : refines_at fuel.
Proof using Hwf.
  induction fuel as [|fuel IH]; intros cols rows v Hrows Hv Hm; [lia|].
  destruct Hv as [|ty p tys rest Hp Hrest]; [by apply meets_nil|].
  assert (Row (ty :: tys) (p :: rest)) as Hv by by constructor.
  destruct (ctor_at s p) as [c|] eqn:Hc; [by eapply meets_ctor|].
  destruct (signature_of ty) as [cs|] eqn:Hsig; [|by eapply meets_infinite].
  destruct (first_missing_eq s ty tys cs rows Hrows) as ([[mc msub]|] & Hfm & Ho).
  - destruct Ho as (? & ? & ?). by eapply meets_missing.
  - by eapply meets_complete.
Qed.
End usefulness.
