(* ===== verification/ExhaustCheck.v ===== *)
(** * [check_match] decides reachability, exhaustiveness and its budget

    From the refinement of [usefulness]: within the budget the diagnostics are
    T0054 at exactly the arms no value (of those R53 counts, [has_ty]) reaches
    and T0053 exactly when some value is covered by no arm, with a witness every
    value of which is uncovered; beyond it, T0055 alone, exactly when the plain
    count of R55 exceeds the limit. *)

From stdpp Require Import pretty countable.
From S2P Require Import Prelude PatStore Exhaust ExhaustSpec ExhaustMatrix ExhaustProps.
Local Open Scope Z_scope.

(** ** Instances of a witness *)

Fixpoint Witness_rect' (P : Witness → Prop) (Hw : P WWild)
    (Hc : ∀ c ws, Forall P ws → P (WCtor c ws)) (w : Witness) : P w :=
  match w with
  | WWild => Hw
  | WCtor c ws =>
      Hc c ws ((fix go ws := match ws return Forall P ws with
                             | [] => Forall_nil_2 P
                             | w :: ws => Forall_cons_2 P w ws (Witness_rect' P Hw Hc w) (go ws)
                             end) ws)
  end.

Section inhabited.
Context `{Fir} (Hinh : ∀ ty, ∃ v, has_ty ty v).

Lemma wit_inhabited w : ∀ ty, wit_ty ty w → ∃ v, has_ty ty v ∧ instance w v.
Proof using Hinh.
  induction w as [|c ws IH] using Witness_rect'; intros ty Hw.
  { destruct (Hinh ty) as [v Hv]. exists v. split; [done|constructor]. }
  inversion Hw as [|? ? ? Hfit Hws]; subst.
  assert (∃ vs, Forall2 has_ty (ctor_sub_tys ty c) vs ∧ Forall2 instance ws vs)
    as (vs & ? & ?).
  { clear Hw Hfit. induction Hws as [|ty' w tys ws Hw _ IHws].
    - exists []. split; constructor.
    - apply Forall_cons in IH as [IHw IH]. destruct (IHw _ Hw) as (v & ? & ?).
      destruct (IHws IH) as (vs & ? & ?). exists (v :: vs). split; by constructor. }
  exists (VCtor c vs). split; by constructor.
Qed.
End inhabited.

(** ** The arms *)

Lemma Forall2_one {A B} (R : A → B → Prop) x y : R x y → Forall2 R [x] [y].
Proof. by repeat constructor. Qed.
#[local] Hint Resolve Forall2_one : core.

(** The elements of [l] at the positions [m] holds [true]. *)
Definition mask {A} (m : list bool) (l : list A) : list A :=
  omap (λ bx : bool * A, if bx.1 then Some bx.2 else None) (zip m l).

Definition rows_of (arms : list (nat * PatId)) : list (list PatId) := (λ a, [a.2]) <$> arms.

Section check.
Context `{Fir, Names} (st : PatStore) (Hwf : wf_store st).

(** Some value of [ty] reaches the arm [p] past the arms [before]. *)
Definition reaches (ty : TyId) (before : list (nat * PatId)) (p : PatId) : Prop :=
  ∃ v, has_ty ty v ∧ matches st p v ∧ ∀ a, a ∈ before → ¬ matches st a.2 v.

(** R55's count for the queries about the arms. *)
Fixpoint plain_arms (fuel : nat) (ty : TyId) (before arms : list (nat * PatId)) : Z :=
  match arms with
  | [] => 0
  | a :: arms =>
      plain st fuel [ty] (rows_of before) [a.2] + plain_arms fuel ty (before ++ [a]) arms
  end.
Definition plain_match (fuel : nat) (ty : TyId) (arms : list (nat * PatId)) : Z :=
  plain_arms fuel ty [] arms + plain st fuel [ty] (rows_of arms) [wild_id st].

Definition match_limit : Z := MATCH_STEP_FACTOR * node_count st.

Definition match_fuel (arms : list (nat * PatId)) : nat :=
  (2 + 2 * rows_weight st (rows_of arms) * max_arity st)%nat.

Definition typed_arms (ty : TyId) (arms : list (nat * PatId)) : Prop :=
  Forall (λ a, pat_ty st ty a.2) arms.

Lemma typed_rows ty arms :
  typed_arms ty arms → Forall (Forall2 (pat_ty st) [ty]) (rows_of arms).
Proof. intros Ht. apply Forall_fmap. eapply Forall_impl; [done|]. intros. by apply Forall2_one. Qed.

Lemma covers_arms before v :
  covers st (rows_of before) [v] ↔ ∃ a, a ∈ before ∧ matches st a.2 v.
Proof.
  unfold covers, rows_of. split.
  - intros (r & (a & -> & Ha)%list_elem_of_fmap & Hm). exists a. split; [done|].
    by apply Forall2_cons in Hm as [? _].
  - intros (a & Ha & Hm). exists [a.2]. split; [|by apply Forall2_one].
    apply list_elem_of_fmap. eauto.
Qed.

Lemma useful_none ty before p :
  useful_spec st [ty] (rows_of before) [p] None → ¬ reaches ty before p.
Proof.
  intros Hu (v & Hv & Hm & Hno).
  destruct (proj1 (covers_arms before v)) as (a & Ha & Hma); [|by eapply Hno].
  apply Hu; by apply Forall2_one.
Qed.

Lemma useful_some (Hinh : ∀ ty, ∃ v, has_ty ty v) ty before p ws :
  useful_spec st [ty] (rows_of before) [p] (Some ws) →
  ∃ w, ws = [w] ∧ (∃ v, has_ty ty v ∧ instance w v) ∧
    ∀ v, has_ty ty v → instance w v →
      matches st p v ∧ ∀ a, a ∈ before → ¬ matches st a.2 v.
Proof.
  intros [Hw Hu]. apply Forall2_cons_inv_l in Hw as (w & ? & Hw & ->%Forall2_nil_inv_l & ->).
  exists w. split_and!; [done|by apply wit_inhabited|].
  intros v Hv Hi. destruct (Hu [v]) as [Hm Hno]; [by apply Forall2_one..|].
  apply Forall2_cons in Hm as [Hm _]. split; [done|].
  intros a Ha Hma. apply Hno, covers_arms. eauto.
Qed.

Lemma useful_reaches (Hinh : ∀ ty, ∃ v, has_ty ty v) ty before p r :
  useful_spec st [ty] (rows_of before) [p] r → r = None ↔ ¬ reaches ty before p.
Proof.
  intros Hr. split; [intros ->; by apply useful_none|]. intros Hn.
  destruct r as [ws|]; [|done]. exfalso. apply Hn.
  destruct (useful_some Hinh _ _ _ _ Hr) as (w & -> & (v & Hv & Hi) & Hu).
  exists v. split; [done|]. by apply Hu.
Qed.

(** One query of [check_match]. *)
Lemma query fuel ty arms before p :
  typed_arms ty before → pat_ty st ty p →
  (rows_weight st (rows_of before) + weight st p ≤ 2 * rows_weight st (rows_of arms))%nat →
  (match_fuel arms ≤ fuel)%nat → meets st fuel [ty] (rows_of before) [p].
Proof using Hwf.
  intros Hb Hp Hle Hf. apply usefulness_main; [done|by apply typed_rows|by apply Forall2_one|].
  unfold measure, match_fuel, row_weight in *. simpl. nia.
Qed.

Lemma rows_weight_app l l' :
  rows_weight st (rows_of (l ++ l')) = (rows_weight st (rows_of l) + rows_weight st (rows_of l'))%nat.
Proof. unfold rows_of, rows_weight. by rewrite fmap_app, sum_list_with_app. Qed.

Lemma rows_weight_one a : rows_weight st (rows_of [a]) = weight st a.2.
Proof. unfold rows_weight, row_weight. simpl. lia. Qed.

Lemma plain_arms_nonneg fuel ty before arms : 0 ≤ plain_arms fuel ty before arms.
Proof.
  revert before. induction arms as [|a arms IH]; intros before; simpl; [done|].
  pose proof (plain_nonneg st fuel [ty] (rows_of before) [a.2]). specialize (IH (before ++ [a])). lia.
Qed.

Definition arms_run (n : Z) (u : list nat) (f : Budget → res (Budget * option (list nat)))
    (b : Budget) : Prop :=
  if decide (steps b + n ≤ limit b)
  then f b = Done (MkBudget (steps b + n) (limit b), Some u)
  else ∃ s, limit b < s ∧ f b = Done (MkBudget s (limit b), None).

(** [dead] marks the arms no value reaches. *)
Definition marks (ty : TyId) (before arms : list (nat * PatId)) (dead : list bool) : Prop :=
  length dead = length arms ∧
  ∀ i a, arms !! i = Some a → dead !! i = Some true ↔ ¬ reaches ty (before ++ take i arms) a.2.

Lemma check_arms_run (Hinh : ∀ ty, ∃ v, has_ty ty v) fuel ty all before arms :
  typed_arms ty (before ++ arms) → all = before ++ arms → (match_fuel all ≤ fuel)%nat →
  ∃ dead, marks ty before arms dead ∧
    ∀ b, budget_ok b (rows_of all) →
      arms_run (plain_arms fuel ty before arms) (mask dead (arms.*1))
        (check_arms st fuel ty before arms) b.
Proof using Hwf.
  revert before. induction arms as [|[node p] arms IH]; intros before Ht -> Hf.
  { exists []. split; [by split|]. intros b [Hb _]. unfold arms_run. simpl.
    rewrite decide_True, Z.add_0_r by lia. by destruct b. }
  pose proof Ht as [Htb [Hp _]%Forall_cons]%Forall_app.
  destruct (query fuel ty (before ++ (node, p) :: arms) before p) as (r & Hr & Hrun); [done..| |done|].
  { change ((node, p) :: arms) with ([(node, p)] ++ arms).
    rewrite !rows_weight_app, rows_weight_one. simpl. lia. }
  destruct (IH (before ++ [(node, p)])) as (dead & [Hlen Hdead] & Harms);
    [by rewrite <- app_assoc|by rewrite <- app_assoc|done|].
  exists (bool_decide (r = None) :: dead). split.
  - split; [simpl; by rewrite Hlen|]. intros [|i] a Ha; simpl in *.
    + injection Ha as <-. rewrite app_nil_r. simpl.
      rewrite <- (useful_reaches Hinh _ _ _ _ Hr).
      split; [by intros [= ?%bool_decide_eq_true]|intros ->; by rewrite bool_decide_true].
    + rewrite Hdead by done. by rewrite <- app_assoc.
  - intros b Hb. assert (length (rows_of before) ≤ length (rows_of (before ++ (node, p) :: arms)))%nat
      as Hle by (unfold rows_of; rewrite !length_fmap, length_app; lia).
    specialize (Hrun b (budget_ok_le _ _ _ Hb Hle)).
    pose proof (plain_nonneg st fuel [ty] (rows_of before) [p]) as Hn.
    pose proof (plain_arms_nonneg fuel ty (before ++ [(node, p)]) arms) as Hn'.
    unfold arms_run, runs in *. simpl. unfold rows_of in Hrun at 2. fold (rows_of before) in *.
    destruct (decide (steps b + plain st fuel [ty] (rows_of before) [p] ≤ limit b)) as [Hd|Hd].
    + rewrite Hrun. simpl. specialize (Harms (MkBudget (steps b + plain st fuel [ty]
        (rows_of before) [p]) (limit b))).
      simpl in Harms.      rewrite Z.add_assoc. destruct Hb as [Hb1 Hb2].
      specialize (Harms ltac:(split; simpl in *; lia)).
      destruct (decide _); [rewrite Harms; simpl; by destruct r|].
      destruct Harms as (s' & ? & ->). simpl. eauto.
    + rewrite decide_False by lia. destruct Hrun as (s' & ? & ->). simpl. eauto.
Qed.

Lemma check_match_unfold fuel arms ty :
  ty ≠ TY_ERROR → ty ≠ NO_TY → arms ≠ [] → match_limit < 2 ^ 64 →
  check_match st fuel arms ty =
  ('(b, unreachable) ← check_arms st fuel ty [] arms (Budget.new match_limit);
   match unreachable with
   | None => Done (MkMatchOutcome (steps b) [BudgetExceeded (steps b) match_limit] None)
   | Some unreachable =>
       '(b, r) ← usefulness st fuel [ty] (rows_of arms) [wild_id st] b;
       match r with
       | None => Done (MkMatchOutcome (steps b) [BudgetExceeded (steps b) match_limit] None)
       | Some None => Done (MkMatchOutcome (steps b) (Unreachable <$> unreachable) (Some true))
       | Some (Some w) =>
           w0 ← get_ix (w !! 0%nat);
           Done (MkMatchOutcome (steps b)
                   ((Unreachable <$> unreachable) ++ [NotExhaustive w0]) (Some false))
       end
   end).
Proof.
  intros He Hn Ha Hl. unfold check_match.
  rewrite (proj2 (Z.eqb_neq _ _) He), (proj2 (Z.eqb_neq _ _) Hn), bool_decide_false by done.
  simpl. unfold Store.pattern_node_count. fold match_limit.
  by rewrite Z.min_l by lia.
Qed.

Section decides.
Context (Hinh : ∀ ty, ∃ v, has_ty ty v) (ty : TyId) (arms : list (nat * PatId)) (fuel : nat).
Context (He : ty ≠ TY_ERROR) (Hn : ty ≠ NO_TY) (Ha : arms ≠ []) (Ht : typed_arms ty arms).
Context (Hcount : 0 ≤ node_count st < 2 ^ 32) (Hlen : Z.of_nat (length arms) < 2 ^ 63).
Context (Hfuel : (match_fuel arms ≤ fuel)%nat).

Lemma limit_ok b : 0 ≤ steps b ≤ limit b → limit b = match_limit → budget_ok b (rows_of arms).
Proof using Hcount Hlen.
  unfold budget_ok, match_limit, MATCH_STEP_FACTOR, rows_of. rewrite length_fmap.
  clear -Hcount Hlen. intros. split; [done|]. lia.
Qed.

Lemma limit_small : 0 ≤ match_limit < 2 ^ 64.
Proof using Hcount. clear -Hcount. unfold match_limit, MATCH_STEP_FACTOR. lia. Qed.

(** The T0053 part of the outcome. *)
Definition missing_spec (missing : option Witness) : Prop :=
  match missing with
  | None => ∀ v, has_ty ty v → ∃ a, a ∈ arms ∧ matches st a.2 v
  | Some w =>
      (∃ v, has_ty ty v ∧ instance w v) ∧
      ∀ v, has_ty ty v → instance w v → ∀ a, a ∈ arms → ¬ matches st a.2 v
  end.

Definition report (dead : list bool) (missing : option Witness) : MatchOutcome :=
  MkMatchOutcome (plain_match fuel ty arms)
    ((Unreachable <$> mask dead (arms.*1)) ++
     match missing with None => [] | Some w => [NotExhaustive w] end)
    (Some (bool_decide (missing = None))).

(** The last query, and what is reported of it. *)
Lemma last_query : ∃ r missing, missing_spec missing ∧
  (∀ b, budget_ok b (rows_of arms) →
    runs (plain st fuel [ty] (rows_of arms) [wild_id st]) r
      (usefulness st fuel [ty] (rows_of arms) [wild_id st]) b) ∧
  match r with None => missing = None | Some ws => ∃ w, ws = [w] ∧ missing = Some w end.
Proof using Hwf Hinh Ht Hfuel.
  destruct (query fuel ty arms arms (wild_id st)) as (r & Hr & Hrun);
    [done|by apply pat_ty_wild| |done|].
  { rewrite weight_wild by done. lia. }
  destruct r as [ws|].
  - destruct (useful_some Hinh _ _ _ _ Hr) as (w & -> & Hex & Hu).
    exists (Some [w]), (Some w). split_and!; [split; [done|]|done|eauto].
    intros v Hv Hi. by apply Hu.
  - exists None, None. split_and!; [|done|done].
    intros v Hv. apply covers_arms, Hr; apply Forall2_one; [done|]. apply m_wild, wild_ctor, Hwf.
Qed.

Lemma check_match_cases :
  if decide (plain_match fuel ty arms ≤ match_limit)
  then ∃ dead missing, marks ty [] arms dead ∧ missing_spec missing ∧
    check_match st fuel arms ty = Done (report dead missing)
  else ∃ s, match_limit < s ∧
    check_match st fuel arms ty = Done (MkMatchOutcome s [BudgetExceeded s match_limit] None).
Proof using All.
  destruct limit_small as [Hl0 Hl1]. rewrite check_match_unfold by done.
  destruct (check_arms_run Hinh fuel ty arms [] arms) as (dead & Hmarks & Harms); [done..|].
  destruct last_query as (r & missing & Hmiss & Hrun & Hr).
  specialize (Harms (Budget.new match_limit) (limit_ok (Budget.new match_limit) ltac:(simpl; lia) eq_refl)).
  unfold arms_run in Harms. simpl in Harms. rewrite Z.add_0_l in Harms.
  pose proof (plain_arms_nonneg fuel ty [] arms) as Hpa.
  pose proof (plain_nonneg st fuel [ty] (rows_of arms) [wild_id st]) as Hpl.
  unfold plain_match. set (n := plain st fuel _ _ _) in *. set (m := plain_arms _ _ _ _) in *.
  destruct (decide (m ≤ match_limit)) as [Hle|Hgt].
  - rewrite Harms. simpl. specialize (Hrun (MkBudget m match_limit)
      (limit_ok (MkBudget m match_limit) ltac:(simpl; lia) eq_refl)). unfold runs in Hrun. simpl in Hrun.
    destruct (decide (m + n ≤ match_limit)).
    + exists dead, missing. split_and!; [done..|]. rewrite Hrun. simpl. unfold report.
      destruct r as [ws|]; [destruct Hr as (w & -> & ->)|subst missing]; simpl; [done|].
      by rewrite app_nil_r.
    + destruct Hrun as (s & Hs & ->). simpl. eauto.
  - rewrite decide_False by lia. destruct Harms as (s & Hs & ->). simpl. eauto.
Qed.
End decides.
End check.

(** * Theorems on exhaustiveness checking *)

(** A build with two types the witnesses match on: 3 is [bool] and 4 is the
    pair of two [bool]s. *)
Module Sample.
#[global] Instance fir : Fir := {|
  unqual t := t;
  ty_tag t := if t =? 3 then TyTag.Prim else if t =? 4 then TyTag.Tuple else TyTag.Param;
  ty_a t := if t =? 3 then 12 else 0;
  ty_b t := if t =? 4 then 1 else 0;
  ty_args a := if a =? 1 then [3; 3] else [];
  sig_kind _ := SigKind.Absent; sig_members _ := []; member_list _ := [];
  substituted _ _ t := t |}.

Definition symbol (t : string) : Symbol := Zpos (encode t).
#[global] Instance symbol_inj : Inj (=) (=) symbol.
Proof. intros x y [= ?%(inj encode)]. done. Qed.
#[global] Instance names : Names := {| intern := symbol |}.

Lemma inhabited ty : ∃ v, has_ty ty v.
Proof.
  assert (∀ b, has_ty 3 (VCtor (Ctor.Bool b) [])) as Hb.
  { intros b. apply ht_ctor; [|constructor]. unfold ctor_fits. simpl.
    destruct b; [right; left|left]. }
  destruct (decide (ty = 3)) as [->|H3]; [by exists (VCtor (Ctor.Bool true) [])|].
  destruct (decide (ty = 4)) as [->|H4].
  - exists (VCtor (Ctor.Tuple 2) [VCtor (Ctor.Bool true) []; VCtor (Ctor.Bool true) []]).
    apply ht_ctor; [left|]. repeat constructor; apply Hb.
  - exists VOther. apply ht_other. unfold signature_of. simpl.
    rewrite (proj2 (Z.eqb_neq ty 3) H3), (proj2 (Z.eqb_neq ty 4) H4). by destruct (_ || _).
Qed.

(** [(true, _)] is node 2 and [(_, true)] node 3. *)
Definition store : PatStore :=
  let '(s, t) := Store.ctor (Ctor.Bool true) [] Store.new in
  let '(s, _) := Store.ctor (Ctor.Tuple 2) [t; Store.wild s] s in
  let '(s, _) := Store.ctor (Ctor.Tuple 2) [Store.wild s; t] s in
  Store.touch (Store.touch (Store.touch (Store.touch (Store.touch (Store.touch s))))).
Definition arms : list (nat * PatId) := [(10, 2); (20, 3); (30, 2)]%nat.

Lemma store_wf : wf_store store.
Proof.
  do 6 apply touch_wf. apply (push_wf _ (PCtor (Ctor.Tuple 2)) [0; 1]%nat).
  - apply (push_wf _ (PCtor (Ctor.Tuple 2)) [1; 0]%nat).
    + apply (push_wf _ (PCtor (Ctor.Bool true)) []); [apply new_wf|constructor].
    + repeat constructor.
  - repeat constructor; unfold in_store; simpl; lia.
Qed.

Lemma wild_pat_ty ty : pat_ty store ty 0%nat.
Proof. apply pt_wild; [unfold in_store; simpl; lia|done]. Qed.

Lemma pair_pat_ty id : (id = 2 ∨ id = 3)%nat → pat_ty store 4 id.
Proof.
  assert (pat_ty store 3 1%nat).
  { apply (pt_ctor _ _ _ (Ctor.Bool true)); [done|right; left|constructor]. }
  intros [-> | ->]; (apply (pt_ctor _ _ _ (Ctor.Tuple 2)); [done|left|]);
    (constructor; [|constructor; [|constructor]]); auto using wild_pat_ty.
Qed.

Lemma arms_typed : typed_arms store 4 arms.
Proof. do 3 (constructor; [apply pair_pat_ty; simpl; auto|]). constructor. Qed.
End Sample.

(** The code's usefulness query refines its specification: on a typed
    matrix and vector, with the fuel the measure asks for, it returns without
    panicking. If the plain row count fits the budget it charges exactly that
    count and answers [None] only when every value the vector matches is covered
    by a row, and otherwise a witness all of whose values the vector matches and
    no row covers; if not, it aborts over the limit. *)
Theorem usefulness_refines `{Fir, Names} (s : PatStore) cols rows v fuel b :
  wf_store s → Forall (Forall2 (pat_ty s) cols) rows → Forall2 (pat_ty s) cols v →
  (measure s rows v < fuel)%nat → budget_ok b rows →
  ∃ r, useful_spec s cols rows v r ∧
    runs (plain s fuel cols rows v) r (usefulness s fuel cols rows v) b.
Proof.
  intros Hwf Hrows Hv Hm Hb. destruct (usefulness_main s Hwf fuel cols rows v) as (r & Hr & Hrun);
    [done..|]. exists r. split; [done|]. by apply Hrun.
Qed.

(** C22: when R55's plain count fits the budget, [check_match] reports T0054 at
    exactly the arms no value reaches past the arms before them, in source
    order, and T0053 exactly when some value is matched by no arm; the witness
    it names stands for at least one value, and every value it stands for is
    uncovered. The values are those R53 counts for the scrutinee's type
    ([has_ty]), not the values of a machine: because an integer or string column
    is never complete, a type that is not [bool], a tuple, a struct or an enum
    with a variant has every integer ([Str]: every string) and one value more,
    [Never] as well. They include the actual values, so a match without T0053 is
    exhaustive and an arm with T0054 is dead at run time too; but a witness may
    name a number outside the type, as 128 for an [i8]. It is assumed that every
    type has such a value (no struct or variant contains itself without end),
    that the match has arms, a scrutinee that was typed and patterns of its
    type, and that its nodes and arms are fewer than 2^32 and 2^63. *)
Theorem check_match_decides `{Fir, Names} (st : PatStore) ty arms fuel :
  wf_store st → (∀ ty, ∃ v, has_ty ty v) → ty ≠ TY_ERROR → ty ≠ NO_TY → arms ≠ [] →
  typed_arms st ty arms → 0 ≤ node_count st < 2 ^ 32 → Z.of_nat (length arms) < 2 ^ 63 →
  (match_fuel st arms ≤ fuel)%nat → plain_match st fuel ty arms ≤ match_limit st →
  ∃ dead missing, marks st ty [] arms dead ∧ missing_spec st ty arms missing ∧
    check_match st fuel arms ty = Done (report st ty arms fuel dead missing).
Proof.
  intros Hwf Hinh He Hn Ha Ht Hc Hl Hf Hle.
  pose proof (check_match_cases st Hwf Hinh ty arms fuel He Hn Ha Ht Hc Hl Hf) as Hcases.
  by rewrite decide_True in Hcases.
Qed.

(** [check_match] reports T0055, and nothing else, exactly when R55's plain
    row count exceeds 256 times the match's pattern-node count: the decision and
    the budget are the same number. *)
Theorem check_match_budget `{Fir, Names} (st : PatStore) ty arms fuel :
  wf_store st → (∀ ty, ∃ v, has_ty ty v) → ty ≠ TY_ERROR → ty ≠ NO_TY → arms ≠ [] →
  typed_arms st ty arms → 0 ≤ node_count st < 2 ^ 32 → Z.of_nat (length arms) < 2 ^ 63 →
  (match_fuel st arms ≤ fuel)%nat →
  match_limit st < plain_match st fuel ty arms ↔
  ∃ n, match_limit st < n ∧
    check_match st fuel arms ty =
      Done (MkMatchOutcome n [BudgetExceeded n (match_limit st)] None).
Proof.
  intros Hwf Hinh He Hn Ha Ht Hc Hl Hf.
  pose proof (check_match_cases st Hwf Hinh ty arms fuel He Hn Ha Ht Hc Hl Hf) as Hcases.
  destruct (decide _) as [Hd|Hd]; split; try done.
  - lia.
  - destruct Hcases as (dead & missing & _ & _ & ->). by intros (n & _ & [=]).
  - lia.
Qed.


Lemma usefulness_refines_witness : ∃ r,
  useful_spec Sample.store [4] (rows_of Sample.arms) [0%nat] r ∧
  runs (plain Sample.store 26 [4] (rows_of Sample.arms) [0%nat]) r
    (usefulness Sample.store 26 [4] (rows_of Sample.arms) [0%nat]) (MkBudget 0 1536).
Proof.
  apply usefulness_refines.
  - apply Sample.store_wf.
  - apply typed_rows, Sample.arms_typed.
  - apply Forall2_one, Sample.wild_pat_ty.
  - vm_compute. lia.
  - vm_compute. split_and!; done.
Defined.

Lemma check_match_decides_witness : ∃ dead missing,
  marks Sample.store 4 [] Sample.arms dead ∧ missing_spec Sample.store 4 Sample.arms missing ∧
  check_match Sample.store 26 Sample.arms 4 = Done (report Sample.store 4 Sample.arms 26 dead missing).
Proof.
  apply check_match_decides; try done.
  - apply Sample.store_wf.
  - apply Sample.inhabited.
  - apply Sample.arms_typed.
Defined.

(** The third arm repeats the first, and [(false, false)] is not covered. *)
Example check_match_sample :
  check_match Sample.store 26 Sample.arms 4 =
  Done (MkMatchOutcome 16 [Unreachable 30;
    NotExhaustive (WCtor (Ctor.Tuple 2) [WCtor (Ctor.Bool false) []; WCtor (Ctor.Bool false) []])]
    (Some false)).
Proof. vm_compute. reflexivity. Qed.

Lemma check_match_budget_witness :
  match_limit Sample.store < plain_match Sample.store 26 4 Sample.arms ↔
  ∃ n, match_limit Sample.store < n ∧
    check_match Sample.store 26 Sample.arms 4 =
      Done (MkMatchOutcome n [BudgetExceeded n (match_limit Sample.store)] None).
Proof.
  apply check_match_budget; try done.
  - apply Sample.store_wf.
  - apply Sample.inhabited.
  - apply Sample.arms_typed.
Defined.

(** ** The example of an integer column

    The example the diagnostic names is the least natural number no row tests,
    whatever the column's type: with the arms [0 ..= 127] on an [i8] it is 128,
    which is not a value of the type. *)

Section literals.
Context `{Fir, Names} (st : PatStore).

Lemma first_fresh_first rows l c l' :
  Forall (λ c, occurs st rows c = Done true) l → occurs st rows c = Done false →
  first_fresh st rows (l ++ c :: l') = Done (WCtor c []).
Proof.
  intros Hl Hc. induction Hl as [|c' l Hc' _ IH]; simpl.
  - by rewrite Hc.
  - by rewrite Hc'.
Qed.

Lemma missing_literal_least ty rows n :
  PrimKind.from_u8 (wrap 8 (ty_a (unqual ty))) ≠ Some PrimKind.Str →
  0 ≤ n ≤ Z.of_nat (length rows) →
  (∀ k, 0 ≤ k < n → occurs st rows (Ctor.Int k) = Done true) →
  occurs st rows (Ctor.Int n) = Done false →
  missing_literal st ty rows = Done (WCtor (Ctor.Int n) []).
Proof.
  intros Hty Hn Hall Hfree. unfold missing_literal.
  rewrite (bool_decide_false (_ = Some PrimKind.Str)), andb_false_r by done.
  replace (Z.of_nat (length rows) + 1) with (n + Z.succ (Z.of_nat (length rows) - n)) by lia.
  rewrite seqZ_app, (seqZ_cons (0 + n)), fmap_app by lia. csimpl.
  apply first_fresh_first; [|done]. apply Forall_fmap, Forall_forall.
  intros k Hk%elem_of_seqZ. apply Hall. lia.
Qed.
End literals.
