(* ===== verification/Reduce.v ===== *)
(** * The normative [reduce] tree

    Models [src/crates/fors-fmir/src/reduce.rs].  Element indices, block sizes
    and lane counts are [nat]s: an index is below [n], which is a [u32].  The
    combining closure is [FnMut] and fallible, so it runs in the monad [call]
    of its captured state [S] and its error [E].  The [while] loops take fuel;
    ReduceProps proves that the fuel given is always enough. *)

From S2P Require Import Prelude.
From stdpp Require Import pretty.
Local Open Scope nat_scope.

Definition REDUCE_BLOCK : nat := 256.
Definition REDUCE_LANES : nat := 8.

Record LaneAssign : Type := MkLane { lane : nat; elems : list nat }.
Record BlockAssign : Type := MkBlock {
  block : nat; start : nat; blen : nat; lanes : list LaneAssign }.
Record ReduceTree : Type := MkTree { tn : nat; tb : nat; tl : nat; blocks : list BlockAssign }.

(** [(lo..hi).step_by(k)] *)
Definition step_by (lo hi k : nat) : list nat :=
  (λ i, lo + i * k) <$> seq 0 ((hi - lo + (k - 1)) / k).

Definition lanes_of (l start len : nat) : list LaneAssign :=
  (λ lane, MkLane lane ((λ t, start + t) <$> step_by lane len l)) <$> seq 0 l.

(** The loop over the blocks; [k] is [blocks.len()]. *)
Fixpoint reduce_blocks (fuel n b l start k : nat) : res (list BlockAssign) :=
  if bool_decide (start < n) then
    match fuel with
    | O => OutOfFuel
    | S fuel =>
        let len := Nat.min (n - start) b in
        rest ← reduce_blocks fuel n b l (start + len) (S k);
        Done (MkBlock k start len (lanes_of l start len) :: rest)
    end
  else Done [].

Definition reduce_tree (n b l : nat) : res ReduceTree :=
  if bool_decide (b = 0) || bool_decide (l = 0) then Panic
  else bs ← reduce_blocks n n b l 0 0; Done (MkTree n b l bs).

(** ** The closure's monad *)

Definition call (S E A : Type) : Type := S → S * res (result E A).
#[export] Instance call_ret {S E} : MRet (call S E) := λ A a s, (s, Done (Ok a)).
#[export] Instance call_bind {S E} : MBind (call S E) := λ A B f m s,
  let '(s, r) := m s in
  match r with
  | Done (Ok a) => f a s
  | Done (Err e) => (s, Done (Err e))
  | Panic => (s, Panic)
  | OutOfFuel => (s, OutOfFuel)
  end.
Definition call_res {S E A} (r : res A) : call S E A := λ s,
  (s, match r with Done a => Done (Ok a) | Panic => Panic | OutOfFuel => OutOfFuel end).

Section eval.
Context {S E T : Type}.
Implicit Types items : list (option T).

(** One level: adjacent pairs, an unpaired last item carried up. *)
Fixpoint combine_level (pair : T → T → call S E T) (items : list (option T)) :
    call S E (list (option T)) :=
  match items with
  | a :: b :: items =>
      c ← match a, b with
          | None, None => mret None
          | Some v, None | None, Some v => mret (Some v)
          | Some x, Some y => v ← pair x y; mret (Some v)
          end;
      next ← combine_level pair items;
      mret (c :: next)
  | [a] => mret [a]
  | [] => mret []
  end.

Fixpoint combine_loop (fuel : nat) (pair : T → T → call S E T) (items : list (option T)) :
    call S E (option T) :=
  if bool_decide (1 < length items) then
    match fuel with
    | O => call_res OutOfFuel
    | Datatypes.S fuel => next ← combine_level pair items; combine_loop fuel pair next
    end
  else mret (head items ≫= id).

Definition combine_levels (items : list (option T)) (pair : T → T → call S E T) :
    call S E (option T) := combine_loop (length items) pair items.

Variable xs : list T.
Variable op : T → T → call S E T.

(** The lane fold: the accumulator is the left operand. *)
Fixpoint lane_fold (acc : option T) (es : list nat) : call S E (option T) :=
  match es with
  | [] => mret acc
  | e :: es =>
      rhs ← call_res (get_ix (xs !! e));
      acc ← match acc with None => mret rhs | Some a => op a rhs end;
      lane_fold (Some acc) es
  end.

Fixpoint eval_lanes (ls : list LaneAssign) : call S E (list (option T)) :=
  match ls with
  | [] => mret []
  | l :: ls =>
      acc ← lane_fold None (elems l);
      rest ← eval_lanes ls;
      mret (acc :: rest)
  end.

Fixpoint eval_blocks (bs : list BlockAssign) : call S E (list (option T)) :=
  match bs with
  | [] => mret []
  | b :: bs =>
      ls ← eval_lanes (lanes b);
      p ← combine_levels ls op;
      rest ← eval_blocks bs;
      mret (p :: rest)
  end.

Definition reduce_eval (tree : ReduceTree) : call S E (option T) :=
  if bool_decide (length xs = tn tree) then
    partials ← eval_blocks (blocks tree);
    combine_levels partials op
  else call_res Panic.
End eval.

(** ** The explicit tree *)

Inductive Expr : Type :=
  | Elem (i : nat)
  | Op (a b : Expr).
#[export] Instance Expr_eq_dec : EqDecision Expr.
Proof. solve_decision. Defined.

Definition join (a b : option Expr) : option Expr :=
  match a, b with
  | None, None => None
  | Some v, None | None, Some v => Some v
  | Some x, Some y => Some (Op x y)
  end.

(** The inner loop of [levels], [items[i]] and [items[i + 1]] at a time. *)
Fixpoint unrolled_level (items : list (option Expr)) : list (option Expr) :=
  match items with
  | a :: b :: items => join a b :: unrolled_level items
  | [a] => [a]
  | [] => []
  end.

Fixpoint unrolled_levels (fuel : nat) (items : list (option Expr)) : res (option Expr) :=
  if bool_decide (1 < length items) then
    match fuel with
    | O => OutOfFuel
    | S fuel => unrolled_levels fuel (unrolled_level items)
    end
  else Done (head items ≫= id).

(** [while t < len { .. t += l }]; [t] is a [u32], whose overflow panics. *)
Fixpoint unrolled_lane (fuel start len l t : nat) (acc : option Expr) : res (option Expr) :=
  if bool_decide (t < len) then
    match fuel with
    | O => OutOfFuel
    | S fuel =>
        let e := Elem (start + t) in
        let acc := Some match acc with None => e | Some a => Op a e end in
        if (2 ^ 32 <=? Z.of_nat (t + l))%Z then Panic
        else unrolled_lane fuel start len l (t + l) acc
    end
  else Done acc.

Fixpoint unrolled_lanes (start len l : nat) (ls : list nat) : res (list (option Expr)) :=
  match ls with
  | [] => Done []
  | lane :: ls =>
      acc ← unrolled_lane len start len l lane None;
      rest ← unrolled_lanes start len l ls;
      Done (acc :: rest)
  end.

Fixpoint unrolled_blocks (fuel n b l start : nat) : res (list (option Expr)) :=
  if bool_decide (start < n) then
    match fuel with
    | O => OutOfFuel
    | S fuel =>
        let len := if bool_decide (n - start < b) then n - start else b in
        ls ← unrolled_lanes start len l (seq 0 l);
        p ← unrolled_levels (length ls) ls;
        rest ← unrolled_blocks fuel n b l (start + len);
        Done (p :: rest)
    end
  else Done [].

Definition unrolled (n b l : nat) : res (option Expr) :=
  if bool_decide (b = 0) || bool_decide (l = 0) then Panic
  else if bool_decide (n = 0) then Done None
  else ps ← unrolled_blocks n n b l 0; unrolled_levels (length ps) ps.

Fixpoint eval_expr {S E T} (e : Expr) (xs : list T) (op : T → T → call S E T) : call S E T :=
  match e with
  | Elem i => call_res (get_ix (xs !! i))
  | Op a b => l ← eval_expr a xs op; r ← eval_expr b xs op; op l r
  end.

Fixpoint render (e : Expr) : string :=
  match e with
  | Elem i => "x" +:+ pretty (N.of_nat i)
  | Op a b => "(" +:+ render a +:+ " " +:+ render b +:+ ")"
  end.

Definition op_applications (n : nat) : nat := n - 1.

(** [for i in 1..n] *)
Definition left_fold (n : nat) : option Expr :=
  if bool_decide (n = 0) then None
  else Some (foldl (λ acc i, Op acc (Elem i)) (Elem 0) (seq 1 (n - 1))).

(** ** The shape table *)

Definition fnv1a (h : Z) (bytes : list Z) : Z :=
  foldl (λ h byte, wrap 64 (Z.lxor h byte * 0x100000001b3)) h bytes.

(** [x.to_le_bytes()] of a [u32]. *)
Definition u32_le (x : nat) : list Z :=
  let x := Z.of_nat x in
  [Z.land x 0xff; Z.land (Z.shiftr x 8) 0xff; Z.land (Z.shiftr x 16) 0xff;
   Z.land (Z.shiftr x 24) 0xff].

Definition string_bytes (s : string) : list Z :=
  (λ a, Z.of_N (Ascii.N_of_ascii a)) <$> String.list_ascii_of_string s.

Definition hash_lane (h : Z) (l : LaneAssign) : Z :=
  foldl (λ h e, fnv1a h (u32_le e))
    (fnv1a (fnv1a h (u32_le (lane l))) (u32_le (length (elems l)))) (elems l).

Definition hash_block (h : Z) (blk : BlockAssign) : Z :=
  foldl hash_lane
    (fnv1a (fnv1a (fnv1a h (u32_le (block blk))) (u32_le (start blk))) (u32_le (blen blk)))
    (lanes blk).

Definition hash_shape (b l : nat) (h : Z) (n : nat) : res Z :=
  let h := fnv1a h (u32_le n) in
  t ← reduce_tree n b l;
  let h := foldl hash_block (fnv1a h (u32_le (length (blocks t)))) (blocks t) in
  u ← unrolled n b l;
  Done (fnv1a h (string_bytes match u with None => "<empty>" | Some e => render e end)).

Definition shape_table_hash (upto b l : nat) : res Z :=
  foldl (λ h n, h ← h; hash_shape b l h n) (Done 0xcbf29ce484222325%Z) (seq 0 upto).
