(* ===== verification/ReduceProps.v ===== *)
(** * Theorems on the [reduce] tree

    The run-time form ([reduce_tree] and [reduce_eval]) and the explicit form
    ([unrolled] and [eval_expr]) compute the same value with the same number of
    applications; the tree has every element once; the loops end. *)

From S2P Require Import Prelude Reduce.
Local Open Scope nat_scope.

(** ** Lists two at a time *)

Lemma list_pair_ind {A} (P : list A → Prop) :
  P [] → (∀ a, P [a]) → (∀ a b l, P l → P (a :: b :: l)) → ∀ l, P l.
Proof.
  intros H0 H1 H2. fix IH 1. intros [|a [|b l]]; [done..|]. apply H2, IH.
Qed.

Lemma step_by_cons t len l :
  0 < l → t < len → step_by t len l = t :: step_by (t + l) len l.
Proof.
  intros Hl Ht. unfold step_by.
  assert ((len - t + (l - 1)) / l = S ((len - (t + l) + (l - 1)) / l)) as ->.
  { destruct (decide (t + l ≤ len)).
    - replace (len - t + (l - 1)) with (len - (t + l) + (l - 1) + 1 * l) by lia.
      rewrite Nat.div_add by lia. lia.
    - replace (len - (t + l) + (l - 1)) with (l - 1) by lia.
      rewrite (Nat.div_small (l - 1)) by lia.
      symmetry. apply (Nat.div_unique _ _ _ (len - t - 1)); lia. }
  simpl. f_equal; [lia|]. rewrite <- fmap_S_seq, <- list_fmap_compose.
  apply list_fmap_ext. intros ? i _. simpl. lia.
Qed.

Lemma step_by_nil t len l : 0 < l → len ≤ t → step_by t len l = [].
Proof.
  intros Hl Ht. unfold step_by. replace (len - t + (l - 1)) with (l - 1) by lia.
  by rewrite Nat.div_small by lia.
Qed.

Lemma elem_of_step_by t len l x : 0 < l →
  x ∈ step_by t len l ↔ ∃ i, x = t + i * l ∧ x < len.
Proof.
  intros Hl. unfold step_by. rewrite list_elem_of_fmap. split.
  - intros (i & -> & [_ Hi]%elem_of_seq). exists i. split; [done|].
    assert (S i * l ≤ len - t + (l - 1)) as Hle.
    { etrans; [|apply (Nat.Div0.mul_div_le (len - t + (l - 1)) l)]. nia. }
    nia.
  - intros (i & -> & Hlt). exists i. split; [done|]. apply elem_of_seq. split; [lia|].
    apply Nat.div_le_lower_bound; [lia|]. nia.
Qed.

(** ** The explicit tree *)

Fixpoint leaves (e : Expr) : list nat :=
  match e with Elem i => [i] | Op a b => leaves a ++ leaves b end.
Fixpoint ops (e : Expr) : nat :=
  match e with Elem _ => 0 | Op a b => S (ops a + ops b) end.

Definition leaves_of (o : option Expr) : list nat := match o with Some e => leaves e | None => [] end.
Definition ops_of (o : option Expr) : nat := match o with Some e => ops e | None => 0 end.
Definition all_leaves (es : list (option Expr)) : list nat := es ≫= leaves_of.
Definition all_ops (es : list (option Expr)) : nat := sum_list_with ops_of es.

Lemma ops_leaves e : S (ops e) = length (leaves e).
Proof. induction e; simpl; [done|]. rewrite length_app. lia. Qed.

Lemma join_leaves a b : leaves_of (join a b) = leaves_of a ++ leaves_of b.
Proof. destruct a, b; simpl; by rewrite ?app_nil_r. Qed.

Lemma level_leaves es : all_leaves (unrolled_level es) = all_leaves es.
Proof.
  unfold all_leaves. induction es as [|a|a b es IH] using list_pair_ind; [done..|].
  csimpl. by rewrite IH, join_leaves, app_assoc.
Qed.

Lemma length_level es : 2 * length (unrolled_level es) ≤ length es + 1.
Proof. induction es as [|a|a b es IH] using list_pair_ind; simpl; lia. Qed.

(** The level loop ends, and keeps the leaves in order. *)
Lemma levels_total fuel es : length es ≤ fuel →
  ∃ o, unrolled_levels fuel es = Done o ∧ leaves_of o = all_leaves es.
Proof.
  assert (∀ es, length es ≤ 1 → leaves_of (head es ≫= id) = all_leaves es) as Hone.
  { intros [|o [|]] Hl; simpl in *; try done; [|lia]. unfold all_leaves. simpl.
    by rewrite app_nil_r. }
  revert es. induction fuel as [|fuel IH]; intros es Hf; simpl.
  - rewrite bool_decide_false by lia. eexists. split; [done|]. apply Hone. lia.
  - case_bool_decide; [|eexists; split; [done|]; apply Hone; lia].
    destruct (IH (unrolled_level es)) as (o & -> & Ho).
    { pose proof (length_level es). lia. }
    exists o. split; [done|]. by rewrite Ho, level_leaves.
Qed.

Definition app_lane (acc : option Expr) (es : list nat) : option Expr :=
  foldl (λ acc e, Some match acc with None => Elem e | Some a => Op a (Elem e) end) acc es.

(** The index of a lane never leaves [u32]. *)
Definition fits (n l : nat) : Prop := (Z.of_nat (n + l) ≤ 2 ^ 32)%Z.

Lemma lane_total fuel start len l t acc : 0 < l → fits len l → len - t ≤ fuel →
  unrolled_lane fuel start len l t acc = Done (app_lane acc ((λ t, start + t) <$> step_by t len l)).
Proof.
  intros Hl Hfit. revert t acc. induction fuel as [|fuel IH]; intros t acc Hf; cbn [unrolled_lane].
  - rewrite bool_decide_false, step_by_nil by lia. done.
  - case_bool_decide; [|by rewrite step_by_nil by lia].
    unfold fits in Hfit. rewrite (proj2 (Z.leb_gt _ _)) by lia.
    rewrite IH, (step_by_cons t) by lia. done.
Qed.

Lemma app_lane_leaves acc es : leaves_of (app_lane acc es) = leaves_of acc ++ es.
Proof.
  unfold app_lane. revert acc. induction es as [|e es IH]; intros acc; simpl.
  { by rewrite app_nil_r. }
  rewrite IH. destruct acc; simpl; [|done]. by rewrite <- app_assoc.
Qed.

(** The lanes of one block. *)
Definition lane_exprs (start len l : nat) (ls : list nat) : list (option Expr) :=
  (λ lane, app_lane None ((λ t, start + t) <$> step_by lane len l)) <$> ls.

Lemma lanes_total start len l ls : 0 < l → fits len l →
  unrolled_lanes start len l ls = Done (lane_exprs start len l ls).
Proof.
  intros Hl Hfit. induction ls as [|lane ls IH]; simpl; [done|].
  rewrite lane_total by (done || lia). simpl. by rewrite IH.
Qed.

(** The lanes of a block hold each of its elements once. *)
Lemma lanes_perm start len l : 0 < l →
  all_leaves (lane_exprs start len l (seq 0 l)) ≡ₚ seq start len.
Proof.
  intros Hl. unfold all_leaves, lane_exprs. rewrite list_fmap_bind.
  transitivity ((λ t, start + t) <$> (seq 0 l ≫= λ lane, step_by lane len l)).
  { apply reflexive_eq. induction (seq 0 l) as [|lane ls IH]; csimpl; [done|].
    by rewrite fmap_app, IH, app_lane_leaves. }
  replace (seq start len) with ((λ t, start + t) <$> seq 0 len)
    by (change (λ t, start + t) with (Nat.add start); by rewrite fmap_add_seq, Nat.add_0_r).
  apply fmap_Permutation, NoDup_Permutation; [| apply NoDup_seq|].
  - apply NoDup_bind; [| |apply NoDup_seq].
    + intros x1 x2 y Hx1%elem_of_seq Hx2%elem_of_seq.
      rewrite !elem_of_step_by by done. intros (i & -> & _) (j & Hy & _).
      assert ((x1 + i * l) mod l = (x2 + j * l) mod l) as Hmod by by rewrite Hy.
      rewrite !Nat.Div0.mod_add, !Nat.mod_small in Hmod by lia. done.
    + intros x _. unfold step_by. apply NoDup_fmap_2; [|apply NoDup_seq].
      intros i j. nia.
  - intros x. rewrite list_elem_of_bind, elem_of_seq. split.
    + intros (lane & Hx & _). apply elem_of_step_by in Hx as (i & -> & ?); lia.
    + intros [_ Hx]. exists (x mod l). split.
      * apply elem_of_step_by; [done|]. exists (x / l). split; [|lia].
        rewrite (Nat.div_mod_eq x l) at 1. lia.
      * apply elem_of_seq. pose proof (Nat.mod_upper_bound x l). lia.
Qed.

(** ** The two partitions *)

(** The block [blk] of the run-time tree and the partial [p] of the explicit
    one are built from the same lanes. *)
Definition same_block (l : nat) (blk : BlockAssign) (p : option Expr) : Prop :=
  lanes blk = lanes_of l (start blk) (blen blk) ∧
  unrolled_levels l (lane_exprs (start blk) (blen blk) l (seq 0 l)) = Done p.

Lemma length_lane_exprs start len l ls : length (lane_exprs start len l ls) = length ls.
Proof. apply length_fmap. Qed.

Section shape.
Context (n b l : nat) (Hb : 0 < b) (Hl : 0 < l) (Hfit : fits n l).

Lemma blocks_total fuel start k : n - start ≤ fuel →
  ∃ bs ps, reduce_blocks fuel n b l start k = Done bs ∧
    unrolled_blocks fuel n b l start = Done ps ∧
    Forall2 (same_block l) bs ps ∧
    Forall (λ blk, Reduce.start blk + blen blk ≤ n) bs ∧
    all_leaves ps ≡ₚ seq start (n - start).
Proof using Hb Hl Hfit.
  revert start k. induction fuel as [|fuel IH]; intros start k Hf; simpl.
  { rewrite bool_decide_false by lia. exists [], [].
    replace (n - start) with 0 by lia. split_and!; constructor. }
  case_bool_decide as Hlt; [|exists [], []; replace (n - start) with 0 by lia;
    split_and!; constructor].
  set (len := Nat.min (n - start) b).
  assert ((if bool_decide (n - start < b) then n - start else b) = len) as ->
    by (case_bool_decide; lia).
  destruct (IH (start + len) (S k)) as (bs & ps & -> & -> & Hsame & Hin & Hleaves); [lia|].
  rewrite lanes_total by (unfold fits in *; lia). simpl. rewrite length_lane_exprs, length_seq.
  destruct (levels_total l (lane_exprs start len l (seq 0 l))) as (p & Hp & Hpl);
    [by rewrite length_lane_exprs, length_seq|]. rewrite Hp. simpl.
  do 2 eexists. split_and!; [done|done|by constructor|constructor; [simpl; lia|done]|].
  unfold all_leaves in *. csimpl. rewrite Hpl, Hleaves.
  setoid_rewrite (lanes_perm start len l Hl).
  replace (n - start) with (len + (n - (start + len))) by lia. by rewrite seq_app.
Qed.

(** The shape of both forms. *)
Lemma shape_total : ∃ t o ps, reduce_tree n b l = Done t ∧ unrolled n b l = Done o ∧
  tn t = n ∧ Forall2 (same_block l) (blocks t) ps ∧
  Forall (λ blk, Reduce.start blk + blen blk ≤ n) (blocks t) ∧
  unrolled_levels (length ps) ps = Done o ∧ leaves_of o ≡ₚ seq 0 n.
Proof using Hb Hl Hfit.
  destruct (blocks_total n 0 0) as (bs & ps & Hbs & Hps & Hsame & Hin & Hleaves); [lia|].
  destruct (levels_total (length ps) ps) as (o & Ho & Hol); [done|].
  exists (MkTree n b l bs), o, ps. unfold reduce_tree, unrolled.
  rewrite !bool_decide_false by lia. simpl. rewrite Hbs, Hps. simpl.
  split_and!; try done.
  - case_bool_decide; [|done]. subst n. simpl in Hps. injection Hps as <-.
    simpl in Ho. by injection Ho as <-.
  - rewrite Hol, Hleaves. by rewrite Nat.sub_0_r.
Qed.
End shape.

Lemma unrolled_spec n b l : 0 < b → 0 < l → fits n l →
  ∃ o, unrolled n b l = Done o ∧ leaves_of o ≡ₚ seq 0 n ∧
    (o = None ↔ n = 0) ∧ ∀ e, o = Some e → ops e = op_applications n.
Proof.
  intros Hb Hl Hf.
  destruct (shape_total n b l Hb Hl Hf) as (t & o & ps & _ & Ho & _ & _ & _ & _ & Hp).
  exists o. apply Permutation_length in Hp as Hlen. rewrite length_seq in Hlen.
  assert (∀ e, o = Some e → S (ops e) = n) as Hops.
  { intros e ->. rewrite ops_leaves. done. }
  split_and!; [done..| |].
  - destruct o as [e|]; simpl in Hlen; split; try done.
    intros ->. specialize (Hops e eq_refl). lia.
  - intros e He. specialize (Hops e He). unfold op_applications. lia.
Qed.

(** The explicit tree exists for every [n >= 1] (and is absent for 0), has
    each of the [n] elements exactly once, and applies the operation exactly [n
    - 1] times: no identity is inserted (ch03 R13(a)). The last index a lane
    steps to, past the end, has to be a [u32]. *)
Theorem unrolled_shape n b l : 0 < b → 0 < l → (Z.of_nat (n + l) ≤ 2 ^ 32)%Z →
  ∃ o, unrolled n b l = Done o ∧ leaves_of o ≡ₚ seq 0 n ∧
    (o = None ↔ n = 0) ∧ ∀ e, o = Some e → ops e = op_applications n.
Proof. apply unrolled_spec. Qed.

(** ** Running a closure that also counts

    The closure of the theorems computes [f] and applies [g] to its captured
    state at every call: [g] is the identity for a pure operation and the
    successor for a counter. *)

Section run.
Context {S E T : Type} (f : T → T → result E T) (g : S → S) (x0 : T) (xs : list T).

Definition closure (a b : T) : call S E T := λ s, (g s, Done (f a b)).

(** The value of an explicit tree; [x0] is never reached in range. *)
Fixpoint value_of (e : Expr) : result E T :=
  match e with
  | Elem i => Ok (default x0 (xs !! i))
  | Op a b => x ← value_of a; y ← value_of b; f x y
  end.

Definition fails (o : option Expr) : Prop := ∃ e err, o = Some e ∧ value_of e = Err err.
Definition computes (v : option T) (o : option Expr) : Prop :=
  match v, o with
  | None, None => True
  | Some v, Some e => value_of e = Ok v
  | _, _ => False
  end.

(** [m] makes [k] calls and returns a [P], or fails, and then [Q]. *)
Definition outcome {A} (m : call S E A) (k : nat) (P : A → Prop) (Q : Prop) : Prop :=
  ∀ s, (∃ a, m s = (Nat.iter k g s, Done (Ok a)) ∧ P a) ∨
       (∃ s' err, m s = (s', Done (Err err)) ∧ Q).

Lemma outcome_ret {A} (a : A) (P : A → Prop) Q : P a → outcome (mret a) 0 P Q.
Proof. intros Ha s. left. by exists a. Qed.

Lemma outcome_bind {A B} (m : call S E A) (h : A → call S E B) k k' n P P' (Q Q' : Prop) :
  outcome m k P Q → (∀ a, P a → outcome (h a) k' P' Q') → (Q → Q') → n = k + k' →
  outcome (m ≫= h) n P' Q'.
Proof.
  intros Hm Hh HQ -> s. unfold mbind, call_bind.
  destruct (Hm s) as [(a & -> & Ha)|(s' & err & -> & Hq)]; [|right; eauto].
  destruct (Hh a Ha (Nat.iter k g s)) as [(a' & -> & Ha')|(s' & err & -> & Hq)]; [|right; eauto].
  left. exists a'. split; [|done]. f_equal. by rewrite (Nat.add_comm k k'), Nat.iter_add.
Qed.

Lemma outcome_weaken {A} (m : call S E A) k k' (P P' : A → Prop) (Q Q' : Prop) :
  outcome m k P Q → k = k' → (∀ a, P a → P' a) → (Q → Q') → outcome m k' P' Q'.
Proof. intros Hm <- HP HQ s. destruct (Hm s) as [(? & ? & ?)|(? & ? & ? & ?)]; eauto 8. Qed.

Lemma outcome_closure a b x y :
  computes (Some a) (Some x) → computes (Some b) (Some y) →
  outcome (closure a b) 1 (λ v, computes (Some v) (Some (Op x y))) (fails (Some (Op x y))).
Proof.
  intros Ha Hb s. unfold closure. simpl in *. destruct (f a b) as [v|err] eqn:Hf.
  - left. exists v. split; [done|]. by rewrite Ha, Hb; simpl.
  - right. exists (g s), err. split; [done|]. exists (Op x y), err. split; [done|]. simpl.
    by rewrite Ha, Hb; simpl.
Qed.

(** A failing subtree fails the tree. *)
Lemma fails_join a b : fails a ∨ fails b → fails (join a b).
Proof.
  intros [(e & err & -> & He)|(e & err & -> & He)].
  - destruct b as [e'|]; simpl; [|by exists e, err]. exists (Op e e'), err.
    split; [done|]. simpl. by rewrite He.
  - destruct a as [e'|]; simpl; [|by exists e, err].
    destruct (value_of e') as [v|err'] eqn:He'.
    + exists (Op e' e), err. split; [done|]. simpl. by rewrite He', He.
    + exists (Op e' e), err'. split; [done|]. simpl. by rewrite He'.
Qed.

Lemma fails_level es : Exists fails es → Exists fails (unrolled_level es).
Proof.
  induction es as [|a|a b es IH] using list_pair_ind; [done..|]. simpl.
  rewrite !Exists_cons. intros [Ha|[Hb|Hes]]; [left; apply fails_join; auto..|]. right. auto.
Qed.

Lemma fails_levels fuel es o :
  unrolled_levels fuel es = Done o → Exists fails es → fails o.
Proof.
  revert es. induction fuel as [|fuel IH]; intros es; simpl.
  all: case_bool_decide; [try done; intros Ho Hes; by eapply IH, fails_level|].
  all: intros [= <-]; destruct es as [|e [|]]; simpl in *; try lia;
    rewrite ?Exists_nil, ?Exists_cons, ?Exists_nil; tauto.
Qed.

(** ** One level, then all of them *)

Definition pair_calls (a b : option Expr) : nat :=
  match a, b with Some _, Some _ => 1 | _, _ => 0 end.

Lemma ops_join a b : ops_of (join a b) = pair_calls a b + (ops_of a + ops_of b).
Proof. destruct a, b; simpl; lia. Qed.

Lemma ops_level es : all_ops es ≤ all_ops (unrolled_level es).
Proof.
  unfold all_ops. induction es as [|a|a b es IH] using list_pair_ind; simpl; [lia..|].
  rewrite ops_join. lia.
Qed.

Lemma pair_outcome a b x y :
  computes a x → computes b y →
  outcome (match a, b with
           | None, None => mret None
           | Some v, None | None, Some v => mret (Some v)
           | Some u, Some v => w ← closure u v; mret (Some w)
           end) (pair_calls x y) (λ v, computes v (join x y)) (fails (join x y)).
Proof.
  intros Ha Hb. destruct a as [u|], x as [e|], b as [v|], y as [e'|]; try done;
    try by apply outcome_ret.
  eapply outcome_bind; [by apply outcome_closure| |done|done].
  intros w Hw. by apply outcome_ret.
Qed.

Lemma level_outcome items es :
  Forall2 computes items es →
  outcome (combine_level closure items) (all_ops (unrolled_level es) - all_ops es)
    (λ items', Forall2 computes items' (unrolled_level es)) (Exists fails (unrolled_level es)).
Proof.
  revert items. induction es as [|y|y y' es IH] using list_pair_ind; intros items Hc.
  - inversion Hc; subst. by apply outcome_ret.
  - inversion Hc as [|a ? ? ? Ha Hnil]; subst. inversion Hnil; subst. simpl.
    rewrite Nat.sub_diag. apply outcome_ret. by constructor.
  - inversion Hc as [|a ? ? ? Ha Hc']; subst. inversion Hc' as [|b ? ? ? Hb Hc'']; subst.
    pose proof (ops_level es). simpl.
    eapply outcome_bind; [by apply pair_outcome| |intros ?; by left|].
    + intros c Hcc. eapply outcome_bind; [by apply IH| |intros ?; by right|done].
      intros next Hn. apply outcome_ret. by constructor.
    + unfold all_ops in *. simpl. rewrite ops_join. lia.
Qed.

Lemma ops_levels fuel es o :
  unrolled_levels fuel es = Done o → all_ops es ≤ ops_of o.
Proof.
  revert es. induction fuel as [|fuel IH]; intros es; simpl.
  all: case_bool_decide; [try done; intros Ho%IH; pose proof (ops_level es); lia|].
  all: intros [= <-]; unfold all_ops; destruct es as [|e [|]]; simpl in *; lia.
Qed.

Lemma levels_outcome fuel items es o :
  Forall2 computes items es → unrolled_levels fuel es = Done o →
  outcome (combine_loop fuel closure items) (ops_of o - all_ops es)
    (λ v, computes v o) (fails o).
Proof.
  revert items es. induction fuel as [|fuel IH]; intros items es Hc; simpl;
    rewrite (Forall2_length _ _ _ Hc).
  all: case_bool_decide as Hlen; try done.
  1,3: intros [= <-]; inversion Hc as [|a x ? ? Ha Hrest]; subst; simpl;
    [by apply outcome_ret|]; inversion Hrest; subst; [|simpl in *; lia];
    unfold all_ops; simpl; rewrite Nat.add_0_r, Nat.sub_diag; by apply outcome_ret.
  intros Ho. eapply outcome_bind; [by apply level_outcome|intros a Ha; eapply IH; [exact Ha|exact Ho]| |].
  - by apply fails_levels with fuel.
  - pose proof (ops_level es). pose proof (ops_levels _ _ _ Ho). lia.
Qed.

(** ** Lanes and blocks *)

Lemma fails_lane acc es : fails acc → fails (app_lane acc es).
Proof.
  unfold app_lane. revert acc. induction es as [|e es IH]; intros acc Hf; simpl; [done|].
  apply IH. destruct Hf as (a & err & -> & Ha). exists (Op a (Elem e)), err.
  split; [done|]. simpl. by rewrite Ha.
Qed.

Lemma ops_lane acc es : ops_of acc ≤ ops_of (app_lane acc es).
Proof.
  unfold app_lane. revert acc. induction es as [|e es IH]; intros acc; simpl; [done|].
  etrans; [|apply IH]. destruct acc; simpl; lia.
Qed.

Lemma lane_outcome acc x es :
  Forall (λ e, e < length xs) es → computes acc x →
  outcome (lane_fold xs closure acc es) (ops_of (app_lane x es) - ops_of x)
    (λ v, computes v (app_lane x es)) (fails (app_lane x es)).
Proof.
  intros Hes. revert acc x. induction Hes as [|e es He Hes IH]; intros acc x Ha; simpl.
  { rewrite Nat.sub_diag. by apply outcome_ret. }
  apply lookup_lt_is_Some in He as [v Hv].
  set (x' := Some match x with None => Elem e | Some a => Op a (Elem e) end).
  assert (value_of (Elem e) = Ok v) as Hev by (simpl; by rewrite Hv).
  eapply (outcome_bind _ _ 0 _ _ (λ u, u = v) _ False); [| |done|done].
  { intros s. left. exists v. by rewrite Hv. }
  intros ? ->.
  assert (outcome match acc with None => mret v | Some a => closure a v end
    (ops_of x' - ops_of x) (λ u, computes (Some u) x') (fails x')) as Hstep.
  { unfold x'. destruct acc as [a|], x as [ea|]; try done.
    - eapply outcome_weaken; [by apply (outcome_closure a v ea (Elem e))|simpl; lia|done..].
    - by apply outcome_ret. }
  pose proof (ops_lane x' es) as Hle. assert (ops_of x ≤ ops_of x').
  { unfold x'. destruct x; simpl; lia. }
  eapply outcome_bind; [apply Hstep| |apply fails_lane|].
  - intros u Hu. by apply IH.
  - change (ops_of (app_lane x' es) - ops_of x = ops_of x' - ops_of x + (ops_of (app_lane x' es) - ops_of x')). lia.
Qed.

Lemma lanes_outcome start len l ls : 0 < l → start + len ≤ length xs →
  outcome (eval_lanes xs closure
             ((λ lane, MkLane lane ((λ t, start + t) <$> step_by lane len l)) <$> ls))
    (all_ops (lane_exprs start len l ls))
    (λ vs, Forall2 computes vs (lane_exprs start len l ls))
    (Exists fails (lane_exprs start len l ls)).
Proof.
  intros Hl Hlen. induction ls as [|lane ls IH]; [by apply outcome_ret|]. csimpl.
  eapply outcome_bind; [apply (lane_outcome None None)| |intros ?; by left|].
  - apply Forall_forall. intros e (t & -> & Ht)%list_elem_of_fmap.
    apply elem_of_step_by in Ht as (i & ? & ?); lia.
  - done.
  - intros v Hv. eapply outcome_bind; [apply IH| |intros ?; by right|done].
    intros vs Hvs. apply outcome_ret. by constructor.
  - unfold all_ops. simpl. lia.
Qed.

Lemma blocks_outcome l bs ps : 0 < l →
  Forall2 (same_block l) bs ps → Forall (λ blk, Reduce.start blk + blen blk ≤ length xs) bs →
  outcome (eval_blocks xs closure bs) (all_ops ps) (λ vs, Forall2 computes vs ps)
    (Exists fails ps).
Proof.
  intros Hl. induction 1 as [|blk p bs ps [Hlanes Hp] _ IH]; intros Hin; [by apply outcome_ret|].
  apply Forall_cons in Hin as [Hblk Hin]. simpl. rewrite Hlanes.
  pose proof (ops_levels _ _ _ Hp).
  eapply outcome_bind; [by apply lanes_outcome| |intros ?; left; by eapply fails_levels|].
  - intros vs Hvs. unfold combine_levels.
    rewrite (Forall2_length _ _ _ Hvs), length_lane_exprs, length_seq.
    eapply outcome_bind; [apply levels_outcome; [exact Hvs|exact Hp]| |intros ?; by left|done].
    intros v Hv. eapply outcome_bind; [by apply IH| |intros ?; by right|done].
    intros vs' Hvs'. apply outcome_ret. by constructor.
  - unfold all_ops in *. simpl. lia.
Qed.

(** ** The whole reduce *)

Lemma reduce_outcome b l : 0 < b → 0 < l → fits (length xs) l →
  ∃ t o, reduce_tree (length xs) b l = Done t ∧ unrolled (length xs) b l = Done o ∧
    outcome (reduce_eval xs closure t) (ops_of o) (λ v, computes v o) (fails o).
Proof.
  intros Hb Hl Hf. destruct (shape_total (length xs) b l Hb Hl Hf)
    as (t & o & ps & Ht & Ho & Htn & Hsame & Hin & Hlev & _).
  exists t, o. split_and!; [done..|]. unfold reduce_eval. rewrite bool_decide_true by done.
  pose proof (ops_levels _ _ _ Hlev).
  eapply outcome_bind; [by eapply blocks_outcome| |by eapply fails_levels|].
  - intros vs Hvs. unfold combine_levels. rewrite (Forall2_length _ _ _ Hvs).
    apply levels_outcome; [exact Hvs|exact Hlev].
  - lia.
Qed.

(** [eval_expr] computes [value_of]; a successful run makes one call per node. *)
Lemma eval_expr_outcome e : Forall (λ i, i < length xs) (leaves e) →
  outcome (eval_expr e xs closure) (ops e) (λ v, value_of e = Ok v) (fails (Some e)).
Proof.
  induction e as [i|a IHa b IHb]; simpl; intros Hin.
  - apply Forall_singleton, lookup_lt_is_Some in Hin as [v Hv]. intros s. left.
    exists v. by rewrite Hv.
  - apply Forall_app in Hin as [Ha Hb].
    eapply (outcome_bind _ _ (ops a)); [by apply IHa| |intros ?|].
    + intros x Hx. eapply (outcome_bind _ _ (ops b)); [by apply IHb| |intros ?|].
      * intros y Hy. apply (outcome_closure x y a b); done.
      * apply (fails_join (Some a) (Some b)). by right.
      * done.
    + apply (fails_join (Some a) (Some b)). by left.
    + lia.
Qed.
End run.

Lemma forms_agree {S E T} (f : T → T → result E T) (g : S → S) xs b l s :
  0 < b → 0 < l → fits (length xs) l →
  ∃ t o, reduce_tree (length xs) b l = Done t ∧ unrolled (length xs) b l = Done o ∧
    match reduce_eval xs (closure f g) t s with
    | (s', Done (Ok v)) =>
        s' = Nat.iter (op_applications (length xs)) g s ∧
        match v, o with
        | None, None => xs = []
        | Some v, Some e => eval_expr e xs (closure f g) s = (s', Done (Ok v))
        | _, _ => False
        end
    | (_, Done (Err _)) =>
        ∃ e s' err, o = Some e ∧ eval_expr e xs (closure f g) s = (s', Done (Err err))
    | _ => False
    end.
Proof.
  intros Hb Hl Hf.
  destruct (unrolled_spec (length xs) b l Hb Hl Hf) as (o & Ho & Hperm & Hnone & Hops).
  destruct (decide (xs = [])) as [->|Hxs].
  { exists (MkTree 0 b l []), None. unfold reduce_tree, unrolled.
    by rewrite !bool_decide_false by lia. }
  assert (∃ x0 : T, True) as [x0 _] by (destruct xs; eauto; done).
  destruct (reduce_outcome f g x0 xs b l Hb Hl Hf) as (t & o' & Ht & Ho' & Hrun).
  assert (o' = o) as -> by congruence. exists t, o. split_and!; [done..|].
  assert (∀ e, o = Some e → outcome g (eval_expr e xs (closure f g)) (ops e)
    (λ v, value_of f x0 xs e = Ok v) (fails f x0 xs (Some e))) as Heval.
  { intros e ->. apply eval_expr_outcome. simpl in Hperm. rewrite Hperm.
    apply Forall_forall. intros i [_ Hi]%elem_of_seq. lia. }
  destruct (Hrun s) as [(v & -> & Hv)|(s' & err & -> & (e & err' & -> & He))].
  - destruct o as [e|]; [|exfalso; by apply Hxs, nil_length_inv, Hnone].
    destruct v as [v|]; [|done]. simpl. rewrite (Hops e eq_refl) in *. split; [done|].
    destruct (Heval e eq_refl s) as [(v' & -> & Hv')|(? & ? & _ & (? & ? & [= <-] & Hbad))].
    + simpl in Hv, Hv'. rewrite (Hops e eq_refl). congruence.
    + simpl in Hv. congruence.
  - destruct (Heval e eq_refl s) as [(v' & _ & Hv')|(s'' & err'' & Hev & _)]; [congruence|].
    exists e, s'', err''. by split.
Qed.

(** C33: the run-time form of a reduce ([reduce_tree] executed by [reduce_eval])
    and the comptime one ([unrolled] executed by [eval_expr]) agree: neither
    panics, both succeed or both fail, a success of one is the same value of the
    other, and it applies the operation exactly [n - 1] times ([g] is applied to
    the closure's state at every call). Only which error is reported may differ. *)
Theorem reduce_forms_agree {S E T} (f : T → T → result E T) (g : S → S) xs b l s :
  0 < b → 0 < l → (Z.of_nat (length xs + l) ≤ 2 ^ 32)%Z →
  ∃ t o, reduce_tree (length xs) b l = Done t ∧ unrolled (length xs) b l = Done o ∧
    match reduce_eval xs (closure f g) t s with
    | (s', Done (Ok v)) =>
        s' = Nat.iter (op_applications (length xs)) g s ∧
        match v, o with
        | None, None => xs = []
        | Some v, Some e => eval_expr e xs (closure f g) s = (s', Done (Ok v))
        | _, _ => False
        end
    | (_, Done (Err _)) =>
        ∃ e s' err, o = Some e ∧ eval_expr e xs (closure f g) s = (s', Done (Err err))
    | _ => False
    end.
Proof. apply forms_agree. Qed.

Lemma reduce_forms_agree_witness : ∃ t o,
  reduce_tree 3 256 8 = Done t ∧ unrolled 3 256 8 = Done o ∧
  match reduce_eval [5; 7; 1] (closure (λ a b, @Ok unit nat (a - b)) S) t 0 with
  | (s', Done (Ok v)) =>
      s' = Nat.iter (op_applications 3) S 0 ∧
      match v, o with
      | None, None => [5; 7; 1] = []
      | Some v, Some e =>
          eval_expr e [5; 7; 1] (closure (λ a b, @Ok unit nat (a - b)) S) 0 = (s', Done (Ok v))
      | _, _ => False
      end
  | (_, Done (Err _)) =>
      ∃ e s' err, o = Some e ∧
        eval_expr e [5; 7; 1] (closure (λ a b, @Ok unit nat (a - b)) S) 0 = (s', Done (Err err))
  | _ => False
  end.
Proof. apply (reduce_forms_agree _ S [5; 7; 1] 256 8 0); simpl; lia. Defined.

Lemma unrolled_shape_witness : ∃ o, unrolled 9 256 8 = Done o ∧ leaves_of o ≡ₚ seq 0 9 ∧
  (o = None ↔ 9 = 0) ∧ ∀ e, o = Some e → ops e = op_applications 9.
Proof. apply unrolled_shape; lia. Defined.

(** ** The tree and the left fold *)

(** Some operation has an operation as its right operand. *)
Fixpoint right_op (e : Expr) : bool :=
  match e with
  | Elem _ => false
  | Op a b => right_op a || right_op b || match b with Op _ _ => true | Elem _ => false end
  end.
Definition has_right_op (o : option Expr) : bool := default false (right_op <$> o).

Lemma left_fold_right_op n : has_right_op (left_fold n) = false.
Proof.
  unfold left_fold. case_bool_decide; [done|]. simpl.
  assert (∀ l e, right_op e = false → right_op (foldl (λ acc i, Op acc (Elem i)) e l) = false)
    as Hl; [|by apply Hl].
  induction l as [|i l IH]; intros e He; simpl; [done|]. apply IH. simpl. by rewrite He.
Qed.

Lemma join_right_op a b :
  has_right_op a = true ∨ has_right_op b = true → has_right_op (join a b) = true.
Proof.
  destruct a as [x|], b as [y|]; unfold has_right_op; simpl; intros [H|H]; try done;
    by rewrite H, ?orb_true_r.
Qed.

Lemma level_right_op es :
  Exists (λ o, has_right_op o = true) es → Exists (λ o, has_right_op o = true) (unrolled_level es).
Proof.
  induction es as [|a|a b es IH] using list_pair_ind; [done..|]. simpl.
  rewrite !Exists_cons. intros [Ha|[Hb|Hes]]; [left; apply join_right_op; auto..|]. right. auto.
Qed.

Lemma levels_right_op fuel es o : unrolled_levels fuel es = Done o →
  Exists (λ o, has_right_op o = true) es → has_right_op o = true.
Proof.
  revert es. induction fuel as [|fuel IH]; intros es; simpl.
  all: case_bool_decide; [try done; intros Ho Hes; by eapply IH, level_right_op|].
  all: intros [= <-]; destruct es as [|e [|]]; simpl in *; try lia;
    rewrite ?Exists_nil, ?Exists_cons, ?Exists_nil; tauto.
Qed.

(** Four non-empty lanes make [(l0 l1) (l2 l3)]. *)
Lemma four_lanes a0 a1 a2 a3 rest fuel o :
  unrolled_levels fuel (Some a0 :: Some a1 :: Some a2 :: Some a3 :: rest) = Done o →
  has_right_op o = true.
Proof.
  intros Ho. destruct fuel as [|[|fuel]]; [done|done|]. simpl in Ho.
  eapply levels_right_op; [exact Ho|]. left. unfold has_right_op. simpl.
  by rewrite ?orb_true_r.
Qed.

Lemma app_lane_Some a es : ∃ e, app_lane (Some a) es = Some e.
Proof.
  unfold app_lane. revert a. induction es as [|x es IH]; intros a; simpl; [by eexists|]. apply IH.
Qed.

Lemma lane_nonempty lane len : lane < len →
  ∃ e, app_lane None ((λ t, 0 + t) <$> step_by lane len 8) = Some e.
Proof. intros. rewrite step_by_cons by lia. csimpl. apply app_lane_Some. Qed.

Lemma block_right_op len p : 4 ≤ len →
  unrolled_levels 8 (lane_exprs 0 len 8 (seq 0 8)) = Done p → has_right_op p = true.
Proof.
  intros Hlen. unfold lane_exprs. change (seq 0 8) with (0 :: 1 :: 2 :: 3 :: seq 4 4).
  rewrite !fmap_cons.
  destruct (lane_nonempty 0 len) as [a0 ->]; [lia|].
  destruct (lane_nonempty 1 len) as [a1 ->]; [lia|].
  destruct (lane_nonempty 2 len) as [a2 ->]; [lia|].
  destruct (lane_nonempty 3 len) as [a3 ->]; [lia|].
  apply four_lanes.
Qed.

(** With the normative block and lane counts the tree is the serial left fold
    exactly when there are at most three elements (ch03 R11). *)
Theorem tree_is_left_fold n : (Z.of_nat (n + REDUCE_LANES) ≤ 2 ^ 32)%Z →
  unrolled n REDUCE_BLOCK REDUCE_LANES = Done (left_fold n) ↔ n ≤ 3.
Proof.
  intros Hf.
  split; [|intros; destruct n as [|[|[|[|]]]]; [vm_compute; reflexivity..|lia]].
  intros Hu. destruct (decide (n ≤ 3)) as [|Hn]; [done|]. exfalso.
  destruct (shape_total n REDUCE_BLOCK REDUCE_LANES)
    as (t & o & ps & Ht & Ho & Htn & Hsame & _ & Hlev & _); [unfold REDUCE_BLOCK; lia|
    unfold REDUCE_LANES; lia|exact Hf|].
  assert (o = left_fold n) as -> by congruence.
  unfold reduce_tree in Ht. rewrite !bool_decide_false in Ht
    by (unfold REDUCE_BLOCK, REDUCE_LANES; lia).
  apply bind_Done in Ht as (bs & Hbs & [= <-]). simpl in Hsame.
  destruct n as [|n]; [lia|]. simpl in Hbs.
  apply bind_Done in Hbs as (bs' & _ & [= <-]).
  inversion Hsame as [|? p ? ps' [_ Hp] _]; subst.
  pose proof (left_fold_right_op (S n)) as Hl.
  rewrite (levels_right_op _ _ _ Hlev) in Hl; [done|]. left.
  eapply block_right_op; [|exact Hp]. unfold REDUCE_BLOCK. simpl. lia.
Qed.

Lemma tree_is_left_fold_witness :
  unrolled 4 REDUCE_BLOCK REDUCE_LANES = Done (left_fold 4) ↔ 4 ≤ 3.
Proof. apply tree_is_left_fold. unfold REDUCE_LANES. lia. Defined.
