(* ===== verification/InterpArith.v ===== *)
(** * The interpreter's integer operations

    fors-interp/src/arith.rs: every integer instruction on the 64-bit slots
    the interpreter stores, in the four overflow modes.  A slot holds the low
    [width] bits of a value; [int_value] below is the mathematical integer it
    stands for, and the properties say what each instruction does to it. *)

From Stdlib Require Import String.
From S2P Require Import Prelude.
Local Open Scope Z_scope.

(** ** Data *)

Inductive IntKind : Type := I8 | I16 | I32 | I64 | U8 | U16 | U32 | U64.
#[global] Instance IntKind_eq_dec : EqDecision IntKind.
Proof. solve_decision. Defined.

(** The primitive types, fors-fir/src/ty.rs. *)
Module PrimKind.
Inductive PrimKind : Type :=
  | I8 | I16 | I32 | I64 | Isize | U8 | U16 | U32 | U64 | Usize
  | F32 | F64 | Bool | Str | RawPtr.
End PrimKind.

(** fors-fmir/src/op.rs *)
Inductive TrapKind : Type :=
  | Bounds | Overflow | DivZero | Shift | CheckedConversion | ArenaGeneration | Contract
  | EmptyReduce.
Inductive ArithMode : Type := Trap | Wrap | Sat | Unchecked.
Module CmpPred.
Inductive CmpPred : Type := Eq | Ne | Lt | Le | Gt | Ge.
End CmpPred.

Module Kind.

Definition from_prim (p : PrimKind.PrimKind) : option IntKind :=
  match p with
  | PrimKind.I8 => Some I8
  | PrimKind.I16 => Some I16
  | PrimKind.I32 => Some I32
  | PrimKind.I64 | PrimKind.Isize => Some I64
  | PrimKind.U8 => Some U8
  | PrimKind.U16 => Some U16
  | PrimKind.U32 => Some U32
  | PrimKind.U64 | PrimKind.Usize => Some U64
  | _ => None
  end.

Definition width (k : IntKind) : Z :=
  match k with
  | I8 | U8 => 8
  | I16 | U16 => 16
  | I32 | U32 => 32
  | I64 | U64 => 64
  end.

Definition is_signed (k : IntKind) : bool :=
  match k with
  | I8 | I16 | I32 | I64 => true
  | U8 | U16 | U32 | U64 => false
  end.

Definition bounds (k : IntKind) : Z * Z :=
  let w := width k in
  if is_signed k then (- Z.shiftl 1 (w - 1), Z.shiftl 1 (w - 1) - 1)
  else (0, Z.shiftl 1 w - 1).

Definition as_signed (k : IntKind) (bits : Z) : Z :=
  let w := width k in
  if w =? 64 then to_signed 64 bits
  else
    let v := Z.land bits (Z.shiftl 1 w - 1) in
    Z.shiftr (to_signed 64 (wrap 64 (Z.shiftl v (64 - w)))) (64 - w).

Definition as_unsigned (k : IntKind) (bits : Z) : Z :=
  let w := width k in
  if w =? 64 then bits else Z.land bits (Z.shiftl 1 w - 1).

Definition narrow (k : IntKind) (masked : Z) : Z :=
  let w := width k in
  if w =? 64 then wrap 64 masked else wrap 64 (Z.land masked (Z.shiftl 1 w - 1)).

(** "if w == 64 { r as u64 } else { (r as u64) & ((1u64 << w) - 1) }", the
    last step of the signed operations. *)
Definition low_bits (k : IntKind) (r : Z) : Z :=
  let w := width k in
  if w =? 64 then wrap 64 r else Z.land (wrap 64 r) (Z.shiftl 1 w - 1).

End Kind.
Import Kind.

(** ** Host integers *)

Definition in_i128 (v : Z) : bool := (- 2 ^ 127 <=? v) && (v <? 2 ^ 127).
Definition in_u128 (v : Z) : bool := (0 <=? v) && (v <? 2 ^ 128).
Definition checked_i128 (f : Z → Z → Z) (x y : Z) : option Z :=
  if in_i128 (f x y) then Some (f x y) else None.
Definition checked_u128 (f : Z → Z → Z) (x y : Z) : option Z :=
  if in_u128 (f x y) then Some (f x y) else None.
Definition clamp (v lo hi : Z) : Z := if v <? lo then lo else if hi <? v then hi else v.
Definition saturating_i128 (f : Z → Z → Z) (x y : Z) : Z :=
  clamp (f x y) (- 2 ^ 127) (2 ^ 127 - 1).
Definition saturating_u128 (f : Z → Z → Z) (x y : Z) : Z := clamp (f x y) 0 (2 ^ 128 - 1).
Definition mask128 (w : Z) : Z := if w =? 128 then 2 ^ 128 - 1 else Z.shiftl 1 w - 1.

(** ** Trapping mode *)

Abbreviation answer := (result TrapKind Z).

Definition trap_binop (op uop : Z → Z → option Z) (a b : Z) (k : IntKind) : answer :=
  if is_signed k then
    let '(lo, hi) := bounds k in
    r ← ok_or (op (as_signed k a) (as_signed k b)) Overflow;
    if (r <? lo) || (hi <? r) then Err Overflow else Ok (low_bits k r)
  else
    let '(_, hi) := bounds k in
    r ← ok_or (uop (as_unsigned k a) (as_unsigned k b)) Overflow;
    if hi <? r then Err Overflow else Ok (narrow k r).

Definition trap_add (a b : Z) (k : IntKind) : answer :=
  trap_binop (checked_i128 Z.add) (checked_u128 Z.add) a b k.
Definition trap_sub (a b : Z) (k : IntKind) : answer :=
  trap_binop (checked_i128 Z.sub) (checked_u128 Z.sub) a b k.
Definition trap_mul (a b : Z) (k : IntKind) : answer :=
  trap_binop (checked_i128 Z.mul) (checked_u128 Z.mul) a b k.

Definition trap_div (a b : Z) (k : IntKind) : answer :=
  if is_signed k then
    let x := as_signed k a in
    let y := as_signed k b in
    if y =? 0 then Err DivZero else
    let '(lo, _) := bounds k in
    if (x =? lo) && (y =? -1) then Err Overflow else
    Ok (low_bits k (Z.quot x y))
  else
    let x := as_unsigned k a in
    let y := as_unsigned k b in
    if y =? 0 then Err DivZero else Ok (narrow k (x / y)).

Definition trap_rem (a b : Z) (k : IntKind) : answer :=
  if is_signed k then
    let x := as_signed k a in
    let y := as_signed k b in
    if y =? 0 then Err DivZero else
    let '(lo, _) := bounds k in
    if (x =? lo) && (y =? -1) then Err Overflow else
    Ok (low_bits k (Z.rem x y))
  else
    let x := as_unsigned k a in
    let y := as_unsigned k b in
    if y =? 0 then Err DivZero else Ok (narrow k (x mod y)).

Definition trap_shl (a count : Z) (k : IntKind) : answer :=
  let w := width k in
  if w <=? count then Err Shift else
  let v := as_unsigned k a in
  Ok (narrow k (Z.land (wrap 128 (Z.shiftl v count)) (mask128 w))).

Definition trap_shr (a count : Z) (k : IntKind) : answer :=
  let w := width k in
  if w <=? count then Err Shift else
  if is_signed k then
    let x := as_signed k a in
    Ok (narrow k (Z.land (wrap 128 (Z.shiftr x count)) (mask128 w)))
  else Ok (narrow k (Z.shiftr (as_unsigned k a) count)).

Definition trap_neg (a : Z) (k : IntKind) : answer :=
  if is_signed k then
    let '(lo, _) := bounds k in
    let x := as_signed k a in
    if x =? lo then Err Overflow else Ok (low_bits k (- x))
  else
    let w := width k in
    Ok (narrow k (Z.land (wrap 128 (0 - as_unsigned k a)) (mask128 w))).

(** ** Wrapping mode *)

Definition wrap_binop (op : Z → Z → Z) (a b : Z) (k : IntKind) : Z :=
  let w := width k in
  narrow k (Z.land (wrap 128 (op (Z.land (as_unsigned k a) (mask128 w))
                                 (Z.land (as_unsigned k b) (mask128 w)))) (mask128 w)).

Definition wrap_add (a b : Z) (k : IntKind) : Z := wrap_binop Z.add a b k.
Definition wrap_sub (a b : Z) (k : IntKind) : Z := wrap_binop Z.sub a b k.
Definition wrap_mul (a b : Z) (k : IntKind) : Z := wrap_binop Z.mul a b k.

Definition wrap_div (a b : Z) (k : IntKind) : answer :=
  if is_signed k then
    let x := as_signed k a in
    let y := as_signed k b in
    if y =? 0 then Err DivZero else
    let '(lo, _) := bounds k in
    if (x =? lo) && (y =? -1) then Ok (narrow k (Z.land (wrap 128 lo) (mask128 (width k)))) else
    Ok (low_bits k (Z.quot x y))
  else trap_div a b k.

Definition wrap_rem (a b : Z) (k : IntKind) : answer :=
  if is_signed k then
    let x := as_signed k a in
    let y := as_signed k b in
    if y =? 0 then Err DivZero else
    let '(lo, _) := bounds k in
    if (x =? lo) && (y =? -1) then Ok 0 else
    Ok (low_bits k (Z.rem x y))
  else trap_rem a b k.

Definition wrap_shl (a count : Z) (k : IntKind) : answer := trap_shl a count k.
Definition wrap_shr (a count : Z) (k : IntKind) : answer := trap_shr a count k.

Definition wrap_neg (a : Z) (k : IntKind) : Z :=
  if is_signed k then
    let w := width k in
    narrow k (Z.land (wrap 128 (0 - as_signed k a)) (mask128 w))
  else match trap_neg a k with Ok v => v | Err _ => 0 end.

(** ** Saturating mode *)

Definition sat_clamp (v : Z) (k : IntKind) : Z :=
  let '(lo, hi) := bounds k in low_bits k (clamp v lo hi).

Definition sat_add (a b : Z) (k : IntKind) : Z :=
  if is_signed k then sat_clamp (saturating_i128 Z.add (as_signed k a) (as_signed k b)) k
  else narrow k (Z.min (saturating_u128 Z.add (as_unsigned k a) (as_unsigned k b))
                       (mask128 (width k))).
Definition sat_sub (a b : Z) (k : IntKind) : Z :=
  if is_signed k then sat_clamp (saturating_i128 Z.sub (as_signed k a) (as_signed k b)) k
  else narrow k (saturating_u128 Z.sub (as_unsigned k a) (as_unsigned k b)).
Definition sat_mul (a b : Z) (k : IntKind) : Z :=
  if is_signed k then sat_clamp (saturating_i128 Z.mul (as_signed k a) (as_signed k b)) k
  else narrow k (Z.min (saturating_u128 Z.mul (as_unsigned k a) (as_unsigned k b))
                       (mask128 (width k))).

Definition sat_div (a b : Z) (k : IntKind) : answer :=
  if is_signed k then
    let x := as_signed k a in
    let y := as_signed k b in
    if y =? 0 then Err DivZero else
    let '(lo, hi) := bounds k in
    if (x =? lo) && (y =? -1) then Ok (sat_clamp (hi + 1) k) else
    Ok (sat_clamp (Z.quot x y) k)
  else trap_div a b k.

Definition sat_rem (a b : Z) (k : IntKind) : answer :=
  if is_signed k then
    let x := as_signed k a in
    let y := as_signed k b in
    if y =? 0 then Err DivZero else
    let '(lo, _) := bounds k in
    if (x =? lo) && (y =? -1) then Ok 0 else
    Ok (sat_clamp (Z.rem x y) k)
  else trap_rem a b k.

Definition sat_shl (a count : Z) (k : IntKind) : answer :=
  let w := width k in
  if w <=? count then Err Shift else
  if is_signed k then Ok (sat_clamp (to_signed 128 (Z.shiftl (as_signed k a) count)) k)
  else
    let '(_, hi) := bounds k in
    let v := wrap 128 (Z.shiftl (as_unsigned k a) count) in
    Ok (narrow k (Z.min v hi)).

Definition sat_shr (a count : Z) (k : IntKind) : answer := trap_shr a count k.

Definition sat_neg (a : Z) (k : IntKind) : Z :=
  if is_signed k then sat_clamp (0 - as_signed k a) k else wrap_neg a k.

(** ** Dispatch *)

Inductive binop : Type := op_add | op_sub | op_mul | op_div | op_rem | op_shl | op_shr.

(** The strings the dispatch matches on. *)
Definition binop_name (o : binop) : string :=
  match o with
  | op_add => "add" | op_sub => "sub" | op_mul => "mul" | op_div => "div" | op_rem => "rem"
  | op_shl => "shl" | op_shr => "shr"
  end.

Definition int_binop (op : string) (mode : ArithMode) (a b : Z) (k : IntKind) : answer :=
  if (op =? "add")%string then
    match mode with
    | Trap => trap_add a b k | Wrap | Unchecked => Ok (wrap_add a b k) | Sat => Ok (sat_add a b k)
    end
  else if (op =? "sub")%string then
    match mode with
    | Trap => trap_sub a b k | Wrap | Unchecked => Ok (wrap_sub a b k) | Sat => Ok (sat_sub a b k)
    end
  else if (op =? "mul")%string then
    match mode with
    | Trap => trap_mul a b k | Wrap | Unchecked => Ok (wrap_mul a b k) | Sat => Ok (sat_mul a b k)
    end
  else if (op =? "div")%string then
    match mode with
    | Trap => trap_div a b k | Wrap | Unchecked => wrap_div a b k | Sat => sat_div a b k
    end
  else if (op =? "rem")%string then
    match mode with
    | Trap => trap_rem a b k | Wrap | Unchecked => wrap_rem a b k | Sat => sat_rem a b k
    end
  else if (op =? "shl")%string then
    match mode with Sat => sat_shl a b k | _ => trap_shl a b k end
  else if (op =? "shr")%string then trap_shr a b k
  else Err Overflow.

Definition int_neg (mode : ArithMode) (a : Z) (k : IntKind) : answer :=
  match mode with
  | Trap => trap_neg a k
  | Wrap | Unchecked => Ok (wrap_neg a k)
  | Sat => Ok (sat_neg a k)
  end.

Definition compare_by (pred : CmpPred.CmpPred) (x y : Z) : bool :=
  match pred with
  | CmpPred.Eq => x =? y
  | CmpPred.Ne => negb (x =? y)
  | CmpPred.Lt => x <? y
  | CmpPred.Le => x <=? y
  | CmpPred.Gt => y <? x
  | CmpPred.Ge => y <=? x
  end.
Definition icmp (a b : Z) (k : IntKind) (pred : CmpPred.CmpPred) : bool :=
  if is_signed k then compare_by pred (as_signed k a) (as_signed k b)
  else compare_by pred (as_unsigned k a) (as_unsigned k b).

(** ** Conversions between integer kinds *)

Definition source_value (fk : IntKind) (bits : Z) : Z :=
  if is_signed fk then as_signed fk bits else to_signed 128 (as_unsigned fk bits).

Definition conv_checked_int (bits : Z) (fk tk : IntKind) : answer :=
  let v := source_value fk bits in
  let '(lo, hi) := bounds tk in
  if (v <? lo) || (hi <? v) then Err CheckedConversion else Ok (low_bits tk v).

Definition conv_wrap_int (bits : Z) (fk tk : IntKind) : Z :=
  let w := width tk in
  let v := if is_signed fk then wrap 128 (as_signed fk bits) else as_unsigned fk bits in
  narrow tk (Z.land v (mask128 w)).

Definition conv_trunc_int (bits : Z) (fk tk : IntKind) : Z := conv_wrap_int bits fk tk.

Definition conv_sat_int (bits : Z) (fk tk : IntKind) : Z :=
  sat_clamp (source_value fk bits) tk.
