(* ===== verification/InterpArithProps.v ===== *)
(** * What the integer operations compute

    A reference semantics on mathematical integers, [exact_binop], in a few
    lines, and the proof that the interpreter's operations implement it for
    every kind, mode and pair of slots. *)

From S2P Require Import Prelude InterpArith.
Import Kind.
Local Open Scope Z_scope.

(** ** The reference *)

(** The integer a slot stands for. *)
Definition int_value (k : IntKind) (bits : Z) : Z :=
  if is_signed k then to_signed (width k) bits else wrap (width k) bits.

Definition int_min (k : IntKind) : Z := if is_signed k then - 2 ^ (width k - 1) else 0.
Definition int_max (k : IntKind) : Z :=
  if is_signed k then 2 ^ (width k - 1) - 1 else 2 ^ width k - 1.
Definition representable (k : IntKind) (v : Z) : bool := (int_min k <=? v) && (v <=? int_max k).

(** The slot of a value, reduced modulo [2^width]. *)
Definition slot (k : IntKind) (v : Z) : Z := wrap (width k) v.

(** What a mode makes of an exact result. *)
Definition deliver (mode : ArithMode) (k : IntKind) (v : Z) : answer :=
  match mode with
  | Trap => if representable k v then Ok (slot k v) else Err Overflow
  | Wrap | Unchecked => Ok (slot k v)
  | Sat => Ok (slot k (clamp v (int_min k) (int_max k)))
  end.

(** The exact meaning of the binary operations.  A zero divisor and an
    excessive count trap in every mode; [MIN % -1] traps in trapping mode; a
    left shift drops the high bits unless it saturates. *)
Definition exact_binop (o : binop) (mode : ArithMode) (k : IntKind) (a b : Z) : answer :=
  let x := int_value k a in
  let y := int_value k b in
  match o with
  | op_add => deliver mode k (x + y)
  | op_sub => deliver mode k (x - y)
  | op_mul => deliver mode k (x * y)
  | op_div => if y =? 0 then Err DivZero else deliver mode k (Z.quot x y)
  | op_rem =>
      if y =? 0 then Err DivZero
      else match mode with
           | Trap => if representable k (Z.quot x y) then Ok (slot k (Z.rem x y)) else Err Overflow
           | _ => Ok (slot k (Z.rem x y))
           end
  | op_shl =>
      if width k <=? b then Err Shift
      else match mode with
           | Sat => deliver Sat k (x * 2 ^ b)
           | _ => deliver Wrap k (x * 2 ^ b)
           end
  | op_shr => if width k <=? b then Err Shift else Ok (slot k (x / 2 ^ b))
  end.

(** ** The building blocks *)

Lemma width_pos k : 0 < width k.
Proof. destruct k; simpl; lia. Qed.
Lemma width_le k : width k ≤ 64.
Proof. destruct k; simpl; lia. Qed.

Lemma land_mask v w : 0 ≤ w → Z.land v (Z.shiftl 1 w - 1) = wrap w v.
Proof.
  intros Hw. replace (Z.shiftl 1 w - 1) with (Z.ones w) by (by rewrite Z.ones_equiv, Z.shiftl_1_l; lia).
  by apply Z.land_ones.
Qed.

Lemma wrap_wrap w w' v : 0 ≤ w ≤ w' → wrap w (wrap w' v) = wrap w v.
Proof.
  intros Hw. unfold wrap. apply Z.mod_mod_divide.
  exists (2 ^ (w' - w)). rewrite <- Z.pow_add_r by lia. f_equal. lia.
Qed.

Lemma wrap_wrap_l w w' v : 0 ≤ w ≤ w' → wrap w' (wrap w v) = wrap w v.
Proof.
  intros Hw. apply wrap_small. apply (unsigned_weaken w); [lia|].
  unfold wrap. apply Z.mod_pos_bound. apply pow2_pos. lia.
Qed.

Lemma mask128_land v k : Z.land v (mask128 (width k)) = wrap (width k) v.
Proof.
  unfold mask128. pose proof (width_pos k). pose proof (width_le k).
  destruct (Z.eqb_spec (width k) 128); [lia|]. apply land_mask. lia.
Qed.

Lemma narrow_eq k v : narrow k v = slot k v.
Proof.
  unfold narrow, slot. pose proof (width_pos k). pose proof (width_le k).
  destruct (Z.eqb_spec (width k) 64) as [->|]; [done|].
  rewrite land_mask by lia. apply wrap_wrap_l. lia.
Qed.

Lemma low_bits_eq k v : low_bits k v = slot k v.
Proof.
  unfold low_bits, slot. pose proof (width_pos k). pose proof (width_le k).
  destruct (Z.eqb_spec (width k) 64) as [->|]; [done|].
  rewrite land_mask by lia. apply wrap_wrap. lia.
Qed.

Lemma as_unsigned_eq k a : unsigned 64 a → as_unsigned k a = wrap (width k) a.
Proof.
  intros Ha. unfold as_unsigned. pose proof (width_pos k).
  destruct (Z.eqb_spec (width k) 64) as [->|]; [by rewrite wrap_small|].
  apply land_mask. lia.
Qed.

Lemma as_signed_eq k a : as_signed k a = to_signed (width k) a.
Proof.
  unfold as_signed. pose proof (width_pos k) as Hp. pose proof (width_le k) as Hl.
  destruct (Z.eqb_spec (width k) 64) as [->|Hne]; [done|].
  rewrite land_mask, Z.shiftl_mul_pow2 by lia.
  set (w := width k) in *. pose proof (wrap_range w Hp a) as Hr. unfold unsigned in Hr.
  assert (2 ^ 64 = 2 ^ w * 2 ^ (64 - w)) as H64 by (rewrite <- Z.pow_add_r by lia; f_equal; lia).
  assert (2 ^ 63 = 2 ^ (w - 1) * 2 ^ (64 - w)) as H63 by (rewrite <- Z.pow_add_r by lia; f_equal; lia).
  pose proof (pow2_pos (64 - w) ltac:(lia)). pose proof (pow2_half w Hp).
  rewrite (wrap_small 64) by (unfold unsigned; nia).
  assert (to_signed 64 (wrap w a * 2 ^ (64 - w)) = to_signed w a * 2 ^ (64 - w)) as ->.
  { unfold to_signed at 1. rewrite (wrap_small 64) by (unfold unsigned; nia).
    unfold to_signed. change (64 - 1) with 63.
    destruct (Z.ltb_spec (wrap w a) (2 ^ (w - 1))); case_match; nia. }
  rewrite Z.shiftr_div_pow2 by lia. apply Z.div_mul. lia.
Qed.

Lemma bounds_eq k : bounds k = (int_min k, int_max k).
Proof. destruct k; reflexivity. Qed.

Lemma int_value_range k a : int_min k ≤ int_value k a ≤ int_max k.
Proof.
  unfold int_min, int_max, int_value. pose proof (width_pos k) as Hp. destruct (is_signed k).
  - pose proof (to_signed_range _ Hp a) as Hr. unfold signed in Hr. lia.
  - pose proof (wrap_range _ Hp a) as Hr. unfold unsigned in Hr. lia.
Qed.

(** Numeric bounds of the kinds, for [lia]. *)
Lemma kind_bounds k :
  (is_signed k = true → int_min k = - 2 ^ (width k - 1) ∧ int_max k = 2 ^ (width k - 1) - 1) ∧
  (is_signed k = false → int_min k = 0 ∧ int_max k = 2 ^ width k - 1) ∧
  - 2 ^ 63 ≤ int_min k ≤ 0 ∧ 0 < int_max k < 2 ^ 64 ∧
  (is_signed k = true → int_max k < 2 ^ 63 ∧ int_min k = - int_max k - 1).
Proof. destruct k; split_and!; vm_compute; try done; intuition congruence. Qed.

Lemma signed_value k a : is_signed k = true → as_signed k a = int_value k a.
Proof. intros H. unfold int_value. by rewrite H, as_signed_eq. Qed.
Lemma unsigned_value k a : is_signed k = false → unsigned 64 a → as_unsigned k a = int_value k a.
Proof. intros H Ha. unfold int_value. by rewrite H, as_unsigned_eq. Qed.

Lemma slot_value k a : unsigned 64 a → slot k (int_value k a) = slot k a.
Proof.
  intros Ha. unfold slot, int_value. pose proof (width_pos k).
  destruct (is_signed k); [by apply wrap_to_signed|apply wrap_idem].
Qed.

(** Rust's [if r < lo || r > hi] is [representable]. *)
Lemma out_of_bounds k v : (v <? int_min k) || (int_max k <? v) = negb (representable k v).
Proof. unfold representable. rewrite !Z.leb_antisym. by destruct (v <? _), (_ <? v). Qed.

Lemma clamp_fits v lo hi : lo ≤ hi → lo ≤ clamp v lo hi ≤ hi.
Proof. unfold clamp. repeat case_match; lia. Qed.
Lemma clamp_id v lo hi : lo ≤ v ≤ hi → clamp v lo hi = v.
Proof. unfold clamp. repeat case_match; lia. Qed.

Lemma sat_clamp_eq k v : sat_clamp v k = slot k (clamp v (int_min k) (int_max k)).
Proof. unfold sat_clamp. rewrite bounds_eq. apply low_bits_eq. Qed.

(** The values of two slots and their bounds, as hypotheses on [x] and [y]. *)
Ltac with_values k a b :=
  pose proof (int_value_range k a) as Hx; pose proof (int_value_range k b) as Hy;
  pose proof (kind_bounds k) as (Hks & Hku & Hkmin & Hkmax & Hksb);
  set (x := int_value k a) in *; set (y := int_value k b) in *.

(** ** The operations, one by one *)

(** [x op y] is in reach of the 128-bit host operations. *)
Definition host_ok (f : Z → Z → Z) : Prop :=
  (∀ x y, - 2 ^ 63 ≤ x < 2 ^ 63 → - 2 ^ 63 ≤ y < 2 ^ 63 → - 2 ^ 127 ≤ f x y < 2 ^ 127) ∧
  (∀ x y, 0 ≤ x < 2 ^ 64 → 0 ≤ y < 2 ^ 64 → - 2 ^ 127 ≤ f x y < 2 ^ 128) ∧
  (∀ w x y x' y', wrap w x = wrap w x' → wrap w y = wrap w y' → wrap w (f x y) = wrap w (f x' y')).

Lemma host_ok_add : host_ok Z.add.
Proof.
  split_and!; [lia|lia|]. unfold wrap. intros w x y x' y' Hx Hy.
  by rewrite Zplus_mod, Hx, Hy, <- Zplus_mod.
Qed.
Lemma host_ok_sub : host_ok Z.sub.
Proof.
  split_and!; [lia|lia|]. unfold wrap. intros w x y x' y' Hx Hy.
  by rewrite Zminus_mod, Hx, Hy, <- Zminus_mod.
Qed.
Lemma host_ok_mul : host_ok Z.mul.
Proof.
  split_and!; [nia|nia|]. unfold wrap. intros w x y x' y' Hx Hy.
  by rewrite Zmult_mod, Hx, Hy, <- Zmult_mod.
Qed.

Lemma wrap_value k c : wrap (width k) (as_unsigned k c) = wrap (width k) (int_value k c).
Proof.
  pose proof (width_pos k). pose proof (width_le k). unfold int_value, as_unsigned.
  destruct (Z.eqb_spec (width k) 64) as [->|].
  - destruct (is_signed k); [by rewrite wrap_to_signed|by rewrite wrap_idem].
  - rewrite land_mask by lia. destruct (is_signed k); [by rewrite wrap_to_signed, wrap_idem by lia|done].
Qed.

Section binops.
Context (k : IntKind) (a b : Z) (Ha : unsigned 64 a) (Hb : unsigned 64 b).
Let x := int_value k a.
Let y := int_value k b.

Lemma trap_binop_exact f : host_ok f →
  trap_binop (checked_i128 f) (checked_u128 f) a b k = deliver Trap k (f x y).
Proof using Ha Hb.
  intros (Hi & Hu & _). unfold trap_binop, deliver. rewrite bounds_eq.
  subst x y. with_values k a b. destruct (is_signed k) eqn:Hs.
  - destruct (Hksb eq_refl) as [? ?]. rewrite !signed_value by done. fold x y.
    specialize (Hi x y ltac:(lia) ltac:(lia)). unfold checked_i128, in_i128.
    destruct (Z.leb_spec (-2 ^ 127) (f x y)), (Z.ltb_spec (f x y) (2 ^ 127)); try lia. simpl.
    rewrite out_of_bounds, low_bits_eq. by destruct (representable _ _).
  - destruct (Hku eq_refl) as [Hmin ?]. rewrite !unsigned_value by done. fold x y.
    specialize (Hu x y ltac:(lia) ltac:(lia)). unfold checked_u128, in_u128, representable.
    rewrite Hmin. destruct (Z.leb_spec 0 (f x y)); simpl; [|done].
    destruct (Z.ltb_spec (f x y) (2 ^ 128)); [|lia]. simpl. rewrite narrow_eq, Z.leb_antisym.
    by destruct (_ <? f x y).
Qed.

Lemma wrap_binop_exact f : host_ok f → wrap_binop f a b k = slot k (f x y).
Proof using Type.
  intros (_ & _ & Hw). pose proof (width_pos k). pose proof (width_le k). unfold wrap_binop.
  rewrite !mask128_land, narrow_eq. unfold slot. rewrite wrap_idem, wrap_wrap by lia.
  apply Hw; rewrite wrap_idem; apply wrap_value.
Qed.

Lemma sat_signed_exact f : host_ok f → is_signed k = true →
  sat_clamp (saturating_i128 f (as_signed k a) (as_signed k b)) k = slot k (clamp (f x y) (int_min k) (int_max k)).
Proof using Type.
  intros (Hi & _) Hs. rewrite sat_clamp_eq, !signed_value by done. subst x y.
  with_values k a b. destruct (Hksb Hs) as [? ?].
  unfold saturating_i128. rewrite (clamp_id (f x y)); [done|].
  specialize (Hi x y ltac:(lia) ltac:(lia)). lia.
Qed.

(** Saturation at the unsigned maximum, and at zero. *)
Lemma sat_unsigned_exact f : host_ok f → is_signed k = false →
  narrow k (Z.min (saturating_u128 f (as_unsigned k a) (as_unsigned k b)) (mask128 (width k)))
  = slot k (clamp (f x y) (int_min k) (int_max k)).
Proof using Ha Hb.
  intros (_ & Hu & _) Hs. rewrite narrow_eq, !unsigned_value by done. subst x y.
  with_values k a b. destruct (Hku Hs) as [Hmin Hmax]. simpl. f_equal.
  specialize (Hu x y ltac:(lia) ltac:(lia)).
  unfold saturating_u128, mask128. pose proof (width_pos k). pose proof (width_le k).
  destruct (Z.eqb_spec (width k) 128); [lia|]. rewrite Z.shiftl_1_l, <- Hmax, Hmin.
  f_equal. unfold clamp. repeat case_match; lia.
Qed.

Lemma sat_sub_exact : sat_sub a b k = slot k (clamp (x - y) (int_min k) (int_max k)).
Proof using Ha Hb.
  unfold sat_sub. destruct (is_signed k) eqn:Hs; [by apply sat_signed_exact; [apply host_ok_sub|]|].
  rewrite narrow_eq, !unsigned_value by done. subst x y. with_values k a b.
  destruct (Hku Hs) as [Hmin Hmax]. f_equal. rewrite Hmin. unfold saturating_u128, clamp.
  repeat case_match; lia.
Qed.

(** Division: the quotient leaves the kind only for [MIN / -1]. *)
Lemma quot_representable : y ≠ 0 →
  representable k (Z.quot x y) = negb (is_signed k && (x =? int_min k) && (y =? -1)).
Proof using Type.
  intros Hy0. subst x y. with_values k a b. clearbody x y. unfold representable.
  destruct (is_signed k) eqn:Hs; simpl.
  - destruct (Hksb eq_refl) as [Hsb Hmin].
    destruct (Z.eqb_spec y (-1)) as [->|Hy1].
    { change (-1) with (- (1)). rewrite Z.quot_opp_r, Z.quot_1_r by lia.
      destruct (Z.eqb_spec x (int_min k)) as [->|]; simpl; lia. }
    rewrite andb_false_r. simpl.
    destruct (decide (y = 1)) as [->|Hy2]; [rewrite Z.quot_1_r; lia|].
    assert (Z.abs (Z.quot x y) ≤ Z.abs x / 2) as Hq.
    { rewrite <- Z.quot_abs, Z.quot_div_nonneg by lia. apply Z.div_le_compat_l; lia. }
    pose proof (Z.div_le_upper_bound (Z.abs x) 2 (int_max k) ltac:(lia) ltac:(lia)). lia.
  - destruct (Hku eq_refl) as [Hmin _]. rewrite Hmin in *.
    rewrite Z.quot_div_nonneg by lia. pose proof (Z.div_pos x y ltac:(lia) ltac:(lia)).
    pose proof (Z.div_le_upper_bound x y (int_max k) ltac:(lia) ltac:(nia)). lia.
Qed.

(** The guard of the signed divisions. *)
Lemma min_by_minus_one : is_signed k = true → y ≠ 0 →
  (as_signed k a =? int_min k) && (as_signed k b =? -1) = negb (representable k (Z.quot x y)).
Proof using Type.
  intros Hs Hy. rewrite quot_representable, Hs, negb_involutive by done.
  by rewrite !signed_value.
Qed.

Lemma trap_div_exact : trap_div a b k = exact_binop op_div Trap k a b.
Proof using Ha Hb.
  unfold trap_div, exact_binop. fold x y. rewrite bounds_eq. destruct (is_signed k) eqn:Hs.
  - rewrite (signed_value k b) by done. fold y. destruct (Z.eqb_spec y 0); [done|].
    pose proof (min_by_minus_one Hs ltac:(done)) as Hm. rewrite !signed_value in * by done.
    fold x y in Hm |- *. rewrite Hm, low_bits_eq. simpl. by destruct (representable _ _).
  - rewrite !unsigned_value by done. fold x y. destruct (Z.eqb_spec y 0); [done|].
    rewrite narrow_eq. simpl. rewrite quot_representable, Hs by done. simpl.
    subst x y. with_values k a b. destruct (Hku Hs). by rewrite Z.quot_div_nonneg by lia.
Qed.

Lemma wrap_div_exact : wrap_div a b k = exact_binop op_div Wrap k a b.
Proof using Ha Hb.
  unfold wrap_div. destruct (is_signed k) eqn:Hs.
  - unfold exact_binop. fold x y. rewrite bounds_eq, (signed_value k b) by done. fold y.
    destruct (Z.eqb_spec y 0); [done|].
    rewrite mask128_land, narrow_eq, low_bits_eq, (signed_value k a) by done. fold x. simpl.
    pose proof (width_pos k). pose proof (width_le k).
    destruct (Z.eqb_spec x (int_min k)) as [Hx|]; [|done].
    destruct (Z.eqb_spec y (-1)) as [Hy|]; [|done]. simpl. f_equal.
    unfold slot. rewrite wrap_idem, wrap_wrap by lia. rewrite Hx, Hy.
    change (-1) with (- (1)). rewrite Z.quot_opp_r, Z.quot_1_r by lia.
    by destruct k.
  - rewrite trap_div_exact. unfold exact_binop. fold x y. destruct (Z.eqb_spec y 0); [done|].
    simpl. by rewrite quot_representable, Hs by done.
Qed.

Lemma sat_div_exact : sat_div a b k = exact_binop op_div Sat k a b.
Proof using Ha Hb.
  unfold sat_div. destruct (is_signed k) eqn:Hs.
  - unfold exact_binop. fold x y. rewrite bounds_eq, (signed_value k b) by done. fold y.
    destruct (Z.eqb_spec y 0); [done|]. rewrite !sat_clamp_eq, (signed_value k a) by done.
    fold x. simpl. destruct (Z.eqb_spec x (int_min k)) as [Hx|]; [|done].
    destruct (Z.eqb_spec y (-1)) as [Hy|]; [|done]. simpl. do 2 f_equal. rewrite Hx, Hy.
    change (-1) with (- (1)). rewrite Z.quot_opp_r, Z.quot_1_r by lia.
    destruct (kind_bounds k) as (_ & _ & _ & _ & Hb'). destruct (Hb' Hs). f_equal. lia.
  - rewrite trap_div_exact. unfold exact_binop. fold x y. destruct (Z.eqb_spec y 0); [done|].
    simpl. pose proof (quot_representable ltac:(done)) as Hr. rewrite Hs in Hr. rewrite Hr. simpl.
    apply andb_true_iff in Hr as [? ?]. rewrite clamp_id; [done|]. lia.
Qed.

(** A remainder always fits. *)
Lemma rem_fits : y ≠ 0 → int_min k ≤ Z.rem x y ≤ int_max k.
Proof using Type.
  intros Hy0. subst x y. with_values k a b. clearbody x y.
  pose proof (Z.rem_bound_abs x y Hy0).
  destruct (decide (0 ≤ x)).
  - pose proof (Z.rem_nonneg x y Hy0 ltac:(lia)). pose proof (Z.rem_le x y). 
    destruct (is_signed k) eqn:Hs; [destruct (Hksb eq_refl); lia|destruct (Hku eq_refl); lia].
  - destruct (is_signed k) eqn:Hs; [destruct (Hksb eq_refl)|destruct (Hku eq_refl); lia].
    pose proof (Z.rem_nonpos x y Hy0 ltac:(lia)). lia.
Qed.

Lemma trap_rem_exact : trap_rem a b k = exact_binop op_rem Trap k a b.
Proof using Ha Hb.
  unfold trap_rem, exact_binop. fold x y. rewrite bounds_eq. destruct (is_signed k) eqn:Hs.
  - rewrite (signed_value k b) by done. fold y. destruct (Z.eqb_spec y 0); [done|].
    pose proof (min_by_minus_one Hs ltac:(done)) as Hm. rewrite !signed_value in * by done.
    fold x y in Hm |- *. rewrite Hm, low_bits_eq. by destruct (representable _ _).
  - rewrite !unsigned_value by done. fold x y. destruct (Z.eqb_spec y 0); [done|].
    rewrite narrow_eq, quot_representable, Hs by done. simpl.
    subst x y. with_values k a b. destruct (Hku Hs). by rewrite Z.rem_mod_nonneg by lia.
Qed.

Lemma wrap_rem_exact : wrap_rem a b k = exact_binop op_rem Wrap k a b.
Proof using Ha Hb.
  unfold wrap_rem. destruct (is_signed k) eqn:Hs.
  - unfold exact_binop. fold x y. rewrite bounds_eq, (signed_value k b) by done. fold y.
    destruct (Z.eqb_spec y 0); [done|]. rewrite low_bits_eq, (signed_value k a) by done. fold x.
    destruct (Z.eqb_spec x (int_min k)) as [Hx|]; [|done].
    destruct (Z.eqb_spec y (-1)) as [Hy|]; [|done]. simpl. rewrite Hy.
    change (-1) with (- (1)). by rewrite Z.rem_opp_r, Z.rem_1_r by lia.
  - rewrite trap_rem_exact. unfold exact_binop. fold x y. destruct (Z.eqb_spec y 0); [done|].
    by rewrite quot_representable, Hs by done.
Qed.

Lemma sat_rem_exact : sat_rem a b k = exact_binop op_rem Sat k a b.
Proof using Ha Hb.
  transitivity (wrap_rem a b k); [|by rewrite wrap_rem_exact].
  unfold sat_rem, wrap_rem. destruct (is_signed k) eqn:Hs; [|done].
  rewrite bounds_eq, !signed_value by done. fold x y. destruct (Z.eqb_spec y 0); [done|].
  rewrite sat_clamp_eq, low_bits_eq, clamp_id by (by apply rem_fits). done.
Qed.

Lemma shl_slot : 0 ≤ b → slot k (Z.shiftl (as_unsigned k a) b) = slot k (x * 2 ^ b).
Proof using Type.
  intros Hb0. rewrite Z.shiftl_mul_pow2 by done. unfold slot.
  destruct host_ok_mul as (_ & _ & Hw). apply Hw; [apply wrap_value|done].
Qed.

Lemma trap_shl_exact :
  trap_shl a b k = if width k <=? b then Err Shift else Ok (slot k (x * 2 ^ b)).
Proof using Hb.
  unfold trap_shl. destruct (Z.leb_spec (width k) b); [done|].
  pose proof (width_pos k). pose proof (width_le k). destruct Hb as [Hb0 _].
  rewrite mask128_land, narrow_eq. unfold slot. rewrite wrap_idem, wrap_wrap by lia.
  f_equal. by apply shl_slot.
Qed.

Lemma sat_shl_exact : sat_shl a b k = exact_binop op_shl Sat k a b.
Proof using Ha Hb.
  unfold sat_shl, exact_binop. fold x. destruct (Z.leb_spec (width k) b) as [|Hlt]; [done|].
  pose proof (width_le k) as Hw. destruct Hb as [Hb0 _].
  assert (0 < 2 ^ b ≤ 2 ^ 63) as Hpow.
  { split; [by apply pow2_pos|]. apply Z.pow_le_mono_r; lia. }
  subst x y. with_values k a b. simpl. destruct (is_signed k) eqn:Hs.
  - destruct (Hksb eq_refl). rewrite sat_clamp_eq, signed_value, Z.shiftl_mul_pow2 by done.
    fold x. rewrite to_signed_small; [done|lia|]. unfold signed. simpl. nia.
  - destruct (Hku eq_refl). rewrite bounds_eq, narrow_eq, unsigned_value by done. fold x.
    rewrite Z.shiftl_mul_pow2, wrap_small by (unfold unsigned; nia || done). do 2 f_equal.
    unfold clamp. repeat case_match; nia.
Qed.

Lemma trap_shr_exact :
  trap_shr a b k = if width k <=? b then Err Shift else Ok (slot k (x / 2 ^ b)).
Proof using Ha Hb.
  unfold trap_shr. destruct (Z.leb_spec (width k) b); [done|]. destruct Hb as [Hb0 _].
  pose proof (width_pos k). pose proof (width_le k). destruct (is_signed k) eqn:Hs.
  - rewrite mask128_land, narrow_eq, signed_value, Z.shiftr_div_pow2 by done.
    unfold slot. by rewrite wrap_idem, wrap_wrap by lia.
  - by rewrite narrow_eq, unsigned_value, Z.shiftr_div_pow2 by done.
Qed.
End binops.

(** Comparisons see the values. *)
Lemma icmp_value k a b p :
  unsigned 64 a → unsigned 64 b → icmp a b k p = compare_by p (int_value k a) (int_value k b).
Proof.
  intros. unfold icmp. destruct (is_signed k) eqn:Hs; [by rewrite !signed_value|].
  by rewrite !unsigned_value.
Qed.

Lemma source_value_eq k a : unsigned 64 a → source_value k a = int_value k a.
Proof.
  intros Ha. unfold source_value. destruct (is_signed k) eqn:Hs; [by rewrite signed_value|].
  rewrite unsigned_value by done. pose proof (int_value_range k a).
  destruct (kind_bounds k) as (_ & _ & ? & ? & _).
  apply to_signed_small; [lia|]. unfold signed. lia.
Qed.

(** ** Properties *)

(** C27: the interpreter's binary integer instructions compute the exact result,
    brought into the type by the mode: for every operation, mode, kind and pair
    of slots the code and the reference agree, errors included. *)
Theorem int_binop_exact (o : binop) mode a b k :
  unsigned 64 a → unsigned 64 b →
  int_binop (binop_name o) mode a b k = exact_binop o mode k a b.
Proof.
  intros Ha Hb. destruct o; unfold int_binop; simpl; destruct mode;
    rewrite ?trap_div_exact, ?wrap_div_exact, ?sat_div_exact, ?trap_rem_exact, ?wrap_rem_exact,
      ?sat_rem_exact, ?sat_shl_exact, ?trap_shr_exact, ?trap_shl_exact by done; try done;
    unfold exact_binop, trap_add, trap_sub, trap_mul, wrap_add, wrap_sub, wrap_mul;
    rewrite ?trap_binop_exact, ?wrap_binop_exact
      by (done || apply host_ok_add || apply host_ok_sub || apply host_ok_mul); try done;
    simpl; f_equal; [|by apply sat_sub_exact|];
    unfold sat_add, sat_mul; destruct (is_signed k) eqn:Hs;
    (apply sat_signed_exact || apply sat_unsigned_exact); try done;
    (apply host_ok_add || apply host_ok_mul).
Qed.

(** Negation is exact on the signed kinds, [MIN] included, in each mode; on
    the unsigned ones it is the two's complement in every mode, trapping and
    saturating too. *)
Theorem int_neg_exact mode a k :
  unsigned 64 a →
  int_neg mode a k =
    if is_signed k then deliver mode k (- int_value k a) else Ok (slot k (- int_value k a)).
Proof.
  intros Ha. pose proof (width_pos k) as Hp. pose proof (width_le k).
  destruct (is_signed k) eqn:Hs.
  - unfold int_neg, trap_neg, wrap_neg, sat_neg.
    rewrite Hs, bounds_eq, !signed_value, mask128_land, narrow_eq, low_bits_eq, sat_clamp_eq by done.
    pose proof (int_value_range k a) as Hr.
    destruct (kind_bounds k) as (_ & _ & _ & ? & Hb). destruct (Hb Hs). simpl.
    unfold slot. rewrite wrap_idem, wrap_wrap by lia.
    destruct mode; try done. simpl. unfold representable.
    destruct (Z.eqb_spec (int_value k a) (int_min k));
      destruct (Z.leb_spec (int_min k) (- int_value k a)),
        (Z.leb_spec (- int_value k a) (int_max k)); try lia; done.
  - assert (trap_neg a k = Ok (slot k (- int_value k a))) as Ht.
    { unfold trap_neg. rewrite Hs, mask128_land, narrow_eq, unsigned_value by done.
      unfold slot. rewrite wrap_idem, wrap_wrap by lia. by rewrite Z.sub_0_l. }
    unfold int_neg, sat_neg, wrap_neg. rewrite Hs, Ht. by destruct mode.
Qed.

(** A comparison decides the order of the two integers, signed or not as
    the kind says. *)
Theorem icmp_exact a b k p :
  unsigned 64 a → unsigned 64 b →
  icmp a b k p = true ↔
  match p with
  | CmpPred.Eq => int_value k a = int_value k b
  | CmpPred.Ne => int_value k a ≠ int_value k b
  | CmpPred.Lt => int_value k a < int_value k b
  | CmpPred.Le => int_value k a ≤ int_value k b
  | CmpPred.Gt => int_value k b < int_value k a
  | CmpPred.Ge => int_value k b ≤ int_value k a
  end.
Proof.
  intros Ha Hb. rewrite icmp_value by done. unfold compare_by.
  destruct p; rewrite ?negb_true_iff, ?Z.eqb_neq; lia.
Qed.

(** The slot of a value that fits is read back. *)
Lemma value_slot k v : representable k v = true → int_value k (slot k v) = v.
Proof.
  intros [H1 H2]%andb_true_iff. apply Z.leb_le in H1, H2. unfold int_value, slot.
  pose proof (width_pos k) as Hp. destruct (kind_bounds k) as (Hs & Hu & _).
  destruct (is_signed k).
  - destruct (Hs eq_refl). apply to_signed_wrap_small; [done|]. unfold signed. lia.
  - destruct (Hu eq_refl). rewrite wrap_idem. apply wrap_small. unfold unsigned. lia.
Qed.

Lemma value_representable k a : representable k (int_value k a) = true.
Proof. unfold representable. pose proof (int_value_range k a). apply andb_true_iff. lia. Qed.

Lemma clamp_representable k v : representable k (clamp v (int_min k) (int_max k)) = true.
Proof.
  destruct (kind_bounds k) as (_ & _ & ? & ? & _).
  pose proof (clamp_fits v (int_min k) (int_max k) ltac:(lia)).
  unfold representable. apply andb_true_iff. lia.
Qed.

Lemma slot_unsigned k v : unsigned 64 (slot k v).
Proof.
  pose proof (width_pos k). pose proof (width_le k).
  apply (unsigned_weaken (width k)); [lia|]. apply wrap_range. lia.
Qed.

(** Integer conversions. The checked one keeps the value or traps, and then
    converting back gives the value again; the wrapping and truncating ones
    reduce it modulo the target's width; the saturating one clamps it. *)
Theorem int_conversions_exact a fk tk :
  unsigned 64 a →
  let v := int_value fk a in
  (match conv_checked_int a fk tk with
   | Ok r => int_value tk r = v ∧ conv_checked_int r tk fk = Ok (slot fk a)
   | Err e => e = CheckedConversion ∧ representable tk v = false
   end) ∧
  conv_wrap_int a fk tk = slot tk v ∧ conv_trunc_int a fk tk = slot tk v ∧
  int_value tk (conv_sat_int a fk tk) = clamp v (int_min tk) (int_max tk).
Proof.
  intros Ha v.
  assert (∀ c f t, unsigned 64 c → conv_checked_int c f t =
    if representable t (int_value f c) then Ok (slot t (int_value f c))
    else Err CheckedConversion) as Hconv.
  { intros c f t Hc. unfold conv_checked_int.
    rewrite bounds_eq, source_value_eq, out_of_bounds, low_bits_eq by done.
    by destruct (representable _ _). }
  assert (conv_wrap_int a fk tk = slot tk v) as Hwrap.
  { unfold conv_wrap_int. pose proof (width_pos tk). pose proof (width_le tk).
    rewrite mask128_land, narrow_eq. unfold slot. rewrite wrap_idem by done.
    destruct (is_signed fk) eqn:Hs; [by rewrite signed_value, wrap_wrap by (done || lia)|].
    by rewrite unsigned_value. }
  split_and!; [|done|done|].
  - rewrite Hconv by done. fold v. destruct (representable tk v) eqn:Hr; [|done].
    rewrite value_slot by done. split; [done|].
    rewrite Hconv, value_slot by (apply slot_unsigned || done).
    unfold v. rewrite value_representable. f_equal. by apply slot_value.
  - unfold conv_sat_int. rewrite sat_clamp_eq, source_value_eq by done.
    by rewrite value_slot by apply clamp_representable.
Qed.

(** ** Witnesses *)

Lemma int_binop_exact_witness :
  int_binop (binop_name op_mul) Trap 0xFFFFFFFFFFFFFFFF 0x8000000000000001 U64 = Err Overflow ∧
  int_binop (binop_name op_add) Sat 0x7F 1 I8 = Ok 0x7F.
Proof.
  split.
  - rewrite (int_binop_exact op_mul Trap 0xFFFFFFFFFFFFFFFF 0x8000000000000001 U64)
      by (unfold unsigned; lia). reflexivity.
  - rewrite (int_binop_exact op_add Sat 0x7F 1 I8) by (unfold unsigned; lia). reflexivity.
Defined.

Lemma int_neg_exact_witness :
  int_neg Trap 0x80 I8 = Err Overflow ∧ int_neg Sat 0x80 I8 = Ok 0x7F ∧ int_neg Sat 1 U8 = Ok 0xFF.
Proof.
  split_and!.
  - rewrite (int_neg_exact Trap 0x80 I8) by (unfold unsigned; lia). reflexivity.
  - rewrite (int_neg_exact Sat 0x80 I8) by (unfold unsigned; lia). reflexivity.
  - rewrite (int_neg_exact Sat 1 U8) by (unfold unsigned; lia). reflexivity.
Defined.

Lemma icmp_exact_witness : icmp 0xFF 1 I8 CmpPred.Lt = true.
Proof. apply (icmp_exact 0xFF 1 I8 CmpPred.Lt); [unfold unsigned; lia..|]. reflexivity. Defined.

Lemma int_conversions_exact_witness :
  conv_wrap_int 0xFF I8 U64 = 0xFFFFFFFFFFFFFFFF ∧ int_value U8 (conv_sat_int 0xFF I8 U8) = 0.
Proof.
  destruct (int_conversions_exact 0xFF I8 U64) as (_ & Hw & _); [unfold unsigned; lia|].
  destruct (int_conversions_exact 0xFF I8 U8) as (_ & _ & _ & Hs); [unfold unsigned; lia|].
  split; [rewrite Hw|rewrite Hs]; reflexivity.
Defined.
