(* ===== verification/InterpFrem.v ===== *)
(** * The exact float remainder

    fors-interp/src/arith.rs: the interpreter's [%] on [f64] and [f32], long
    division on the integer mantissas.  A float is its bit pattern here, as in
    the interpreter's slots.  In units of the least subnormal every finite
    float is an integer, and the result is the remainder of those integers. *)

From S2P Require Import Prelude.
Local Open Scope Z_scope.

(** ** Bit patterns *)

(** Rust's classification of a float with [p] mantissa bits and [q] exponent
    bits, from its pattern. *)
Definition exp_field (p q bits : Z) : Z := wrap q (Z.shiftr bits p).
Definition man_field (p bits : Z) : Z := wrap p bits.
Definition is_nan (p q bits : Z) : bool :=
  (exp_field p q bits =? 2 ^ q - 1) && negb (man_field p bits =? 0).
Definition is_infinite (p q bits : Z) : bool :=
  (exp_field p q bits =? 2 ^ q - 1) && (man_field p bits =? 0).
Definition is_zero (p q bits : Z) : bool :=
  (exp_field p q bits =? 0) && (man_field p bits =? 0).
Definition is_sign_negative (p q bits : Z) : bool := Z.testbit bits (p + q).

Definition CANONICAL_F64_NAN : Z := 0x7FF8000000000000.
Definition CANONICAL_F32_NAN : Z := 0x7FC00000.

Definition decompose_f64 (bits : Z) : Z * Z :=
  let field := Z.land (Z.shiftr bits 52) 0x7FF in
  let man := Z.land bits 0xFFFFFFFFFFFFF in
  if field =? 0 then (man, -1074) else (Z.lor man 0x10000000000000, field - 1023 - 52).

Definition decompose_f32 (bits : Z) : Z * Z :=
  let field := Z.land (Z.shiftr bits 23) 0xFF in
  let man := Z.land bits 0x7FFFFF in
  if field =? 0 then (man, -149) else (Z.lor man 0x800000, field - 127 - 23).

(** ** The long division *)

Definition mul128 (x y : Z) : Z := wrap 128 (x * y).
Definition shl128 (x k : Z) : Z := wrap 128 (Z.shiftl x k).
Definition shl64 (x k : Z) : Z := wrap 64 (Z.shiftl x k).

(** "while e > 0 { .. e >>= 1; }" *)
Fixpoint powmod_loop (fuel : nat) (e base acc m : Z) : option Z :=
  match fuel with
  | O => None
  | S fuel =>
      if e <=? 0 then Some acc
      else
        let acc := if Z.land e 1 =? 1 then mul128 acc base mod m else acc in
        powmod_loop fuel (Z.shiftr e 1) (mul128 base base mod m) acc m
  end.
(** An [i32] exponent takes at most 31 turns. *)
Definition powmod (e m : Z) : option Z := powmod_loop 32 e (2 mod m) (1 mod m) m.

(** "63 - x.leading_zeros()" *)
Definition lead (x : Z) : Z := Z.log2 x.

(** The remainder as [units * 2^exp]. *)
Definition frem_units (a b : Z * Z) : option (Z * Z) :=
  let '(ma, ea) := a in
  let '(mb, eb) := b in
  if eb <=? ea then
    s ← powmod (ea - eb) mb;
    let r := wrap 64 (mul128 (ma mod mb) s mod mb) in
    Some (r, eb)
  else if (64 <=? eb - ea) || (ma <? shl128 mb (eb - ea)) then Some (ma, ea)
  else
    let divisor := wrap 64 (shl128 mb (eb - ea)) in
    Some (ma mod divisor, ea).

Definition frem_soft (a b : Z * Z) (neg : bool) (man_bits exp_bits bias emin : Z) : option Z :=
  '(units, exp) ← frem_units a b;
  let sign := shl64 (b2z neg) (man_bits + exp_bits) in
  if units =? 0 then Some sign
  else
    let exp_true := exp + lead units in
    if emin <=? exp_true then
      let field := wrap 64 (exp_true + bias) in
      let mant := shl64 (Z.lxor units (shl64 1 (lead units))) (man_bits - lead units) in
      Some (Z.lor (Z.lor sign (shl64 field man_bits)) mant)
    else
      let shift := wrap 32 (exp - emin + man_bits) in
      Some (Z.lor sign (shl64 units shift)).

Definition frem_f64 (a b : Z) : option Z :=
  if is_nan 52 11 a || is_nan 52 11 b then Some CANONICAL_F64_NAN
  else if is_zero 52 11 b then Some CANONICAL_F64_NAN
  else if is_infinite 52 11 a then Some CANONICAL_F64_NAN
  else if is_infinite 52 11 b then Some a
  else if is_zero 52 11 a then Some a
  else frem_soft (decompose_f64 a) (decompose_f64 b) (is_sign_negative 52 11 a) 52 11 1023 (-1022).

Definition frem_f32 (a b : Z) : option Z :=
  if is_nan 23 8 a || is_nan 23 8 b then Some CANONICAL_F32_NAN
  else if is_zero 23 8 b then Some CANONICAL_F32_NAN
  else if is_infinite 23 8 a then Some CANONICAL_F32_NAN
  else if is_infinite 23 8 b then Some a
  else if is_zero 23 8 a then Some a
  else frem_soft (decompose_f32 a) (decompose_f32 b) (is_sign_negative 23 8 a) 23 8 127 (-126).

(** ** Modular exponentiation *)

Lemma mul128_small m x y : 0 < m < 2 ^ 64 → 0 ≤ x < m → 0 ≤ y < m → mul128 x y = x * y.
Proof. intros. apply wrap_small. unfold unsigned. nia. Qed.

Lemma powmod_loop_spec fuel e base acc m :
  0 < m < 2 ^ 64 → 0 ≤ base < m → 0 ≤ acc < m → 0 ≤ e < 2 ^ (Z.of_nat fuel - 1) →
  powmod_loop fuel e base acc m = Some (acc * base ^ e mod m).
Proof.
  revert e base acc. induction fuel as [|fuel IH]; intros e base acc Hm Hbase Hacc He.
  { simpl in He. lia. }
  simpl. destruct (Z.leb_spec e 0) as [|Hpos].
  { replace e with 0 by lia. by rewrite Z.mul_1_r, Z.mod_small. }
  assert (Z.land e 1 = e mod 2) as -> by (apply (Z.land_ones e 1); lia).
  rewrite Z.shiftr_div_pow2 by lia.
  rewrite !(mul128_small m) by done. change (2 ^ 1) with 2.
  pose proof (Z.div_mod e 2 ltac:(lia)) as Hdm. pose proof (Z.mod_pos_bound e 2 ltac:(lia)).
  assert (2 ^ (Z.of_nat (S fuel) - 1) = 2 * 2 ^ (Z.of_nat fuel - 1)) as Hpow.
  { destruct fuel; [simpl in He; lia|]. rewrite <- Z.pow_succ_r by lia. f_equal. lia. }
  pose proof (Z.mod_pos_bound (base * base) m ltac:(lia)).
  pose proof (Z.mod_pos_bound (acc * base) m ltac:(lia)).
  rewrite IH by (done || lia || (case_match; lia)). f_equal.
  assert (∀ c, c * (base * base mod m) ^ (e / 2) mod m = c * base ^ (2 * (e / 2)) mod m) as Hsq.
  { intros c. rewrite Z.pow_mul_r, Z.pow_2_r by lia.
    by rewrite <- Zmult_mod_idemp_r, Z.mod_pow_l, Zmult_mod_idemp_r. }
  destruct (Z.eqb_spec (e mod 2) 1) as [Hodd|Heven].
  - rewrite Zmult_mod_idemp_l.
    rewrite Hsq. f_equal. rewrite <- Z.mul_assoc, <- Z.pow_succ_r by lia. do 2 f_equal. lia.
  - rewrite Hsq. do 3 f_equal. lia.
Qed.

Lemma powmod_spec e m : 0 < m < 2 ^ 64 → 0 ≤ e < 2 ^ 31 → powmod e m = Some (2 ^ e mod m).
Proof.
  intros Hm He. unfold powmod.
  rewrite powmod_loop_spec; [|done|by apply Z.mod_pos_bound; lia..|done].
  by rewrite <- Zmult_mod_idemp_r, Z.mod_pow_l, Zmult_mod_idemp_r, Zmult_mod_idemp_l, Z.mul_1_l.
Qed.

(** ** The division is exact *)

Lemma frem_units_spec p lo ma ea mb eb :
  0 < p ≤ 52 → 0 ≤ ma < 2 ^ (p + 1) → 0 < mb < 2 ^ (p + 1) → lo ≤ ea → lo ≤ eb →
  ea - eb < 2 ^ 31 →
  ∃ units exp, frem_units (ma, ea) (mb, eb) = Some (units, exp) ∧
    0 ≤ units < 2 ^ (p + 1) ∧ (exp = ea ∨ exp = eb) ∧
    units * 2 ^ (exp - lo) = (ma * 2 ^ (ea - lo)) mod (mb * 2 ^ (eb - lo)).
Proof.
  intros Hp Hma Hmb Hea Heb Hgap.
  pose proof (Z.pow_le_mono_r 2 (p + 1) 53 ltac:(lia) ltac:(lia)) as H53.
  pose proof (pow2_pos (eb - lo) ltac:(lia)). pose proof (pow2_pos (ea - lo) ltac:(lia)).
  unfold frem_units. destruct (Z.leb_spec eb ea) as [Hle|Hlt].
  - rewrite powmod_spec by lia. simpl.
    pose proof (Z.mod_pos_bound ma mb ltac:(lia)).
    pose proof (Z.mod_pos_bound (2 ^ (ea - eb)) mb ltac:(lia)).
    rewrite (mul128_small mb) by (done || lia). rewrite <- Zmult_mod.
    pose proof (Z.mod_pos_bound (ma * 2 ^ (ea - eb)) mb ltac:(lia)).
    rewrite (wrap_small 64) by (unfold unsigned; lia).
    eexists _, _. split; [done|]. split_and!; [lia|lia|by right|].
    rewrite <- Z.mul_mod_distr_r by lia. f_equal.
    rewrite <- Z.mul_assoc, <- Z.pow_add_r by lia. do 2 f_equal. lia.
  - pose proof (pow2_pos (eb - ea) ltac:(lia)) as Hpe.
    replace (eb - lo) with ((eb - ea) + (ea - lo)) by lia.
    rewrite (Z.pow_add_r 2 (eb - ea)), Z.mul_assoc, Z.mul_mod_distr_r by lia.
    destruct (Z.leb_spec 64 (eb - ea)) as [Hbig|Hsmall]; simpl.
    { eexists _, _. split; [done|]. split_and!; [lia|lia|by left|].
      rewrite Z.mod_small; [done|].
      pose proof (Z.pow_le_mono_r 2 64 (eb - ea) ltac:(lia) ltac:(lia)). nia. }
    pose proof (Z.pow_le_mono_r 2 (eb - ea) 63 ltac:(lia) ltac:(lia)).
    assert (shl128 mb (eb - ea) = mb * 2 ^ (eb - ea)) as Hshl.
    { unfold shl128. rewrite Z.shiftl_mul_pow2 by lia. apply wrap_small. unfold unsigned. nia. }
    rewrite Hshl. destruct (Z.ltb_spec ma (mb * 2 ^ (eb - ea))).
    { eexists _, _. split; [done|]. split_and!; [lia|lia|by left|]. rewrite Z.mod_small by lia. done. }
    eexists _, _. split; [done|]. rewrite (wrap_small 64) by (unfold unsigned; nia).
    pose proof (Z.mod_pos_bound ma (mb * 2 ^ (eb - ea)) ltac:(nia)).
    split_and!; [lia|lia|by left|done].
Qed.

(** ** The pattern of the result *)

(** A finite float, its sign apart, in units of the least subnormal. *)
Definition magnitude (p q bits : Z) : Z :=
  if exp_field p q bits =? 0 then man_field p bits
  else (2 ^ p + man_field p bits) * 2 ^ (exp_field p q bits - 1).

Section pattern.
Context (p q : Z) (Hp : 0 < p) (Hq : 0 < q) (Hpq : p + q ≤ 63).

Lemma float_pattern_fields neg field man :
  0 ≤ field < 2 ^ q → 0 ≤ man < 2 ^ p →
  let r := (b2z neg * 2 ^ q + field) * 2 ^ p + man in
  exp_field p q r = field ∧ man_field p r = man ∧ is_sign_negative p q r = neg ∧
  unsigned (p + q + 1) r.
Proof using Hp Hpq Hq.
  intros Hf Hm r. unfold exp_field, man_field, is_sign_negative.
  pose proof (pow2_pos p ltac:(lia)). pose proof (pow2_pos q ltac:(lia)).
  assert (Z.shiftr r p = b2z neg * 2 ^ q + field) as Hs.
  { rewrite Z.shiftr_div_pow2 by lia. unfold r. rewrite Z.div_add_l, Z.div_small by lia. lia. }
  split_and!.
  - rewrite Hs. unfold wrap. rewrite Z.add_comm, Z.mod_add, Z.mod_small by lia. done.
  - unfold wrap, r. rewrite Z.add_comm, Z.mod_add, Z.mod_small by lia. done.
  - replace (Z.testbit r (p + q)) with (Z.testbit (Z.shiftr r p) q)
      by (rewrite Z.shiftr_spec by lia; f_equal; lia).
    rewrite Hs. replace q with (0 + q) by lia. rewrite <- Z.shiftr_spec by lia.
    rewrite Z.add_0_l, Z.shiftr_div_pow2, Z.div_add_l, Z.div_small by lia. by destruct neg.
  - unfold unsigned, r. rewrite Z.pow_add_r, Z.pow_add_r, Z.pow_1_r by lia.
    destruct neg; simpl; nia.
Qed.

Lemma shl64_small x k : 0 ≤ k → 0 ≤ x * 2 ^ k < 2 ^ 64 → shl64 x k = x * 2 ^ k.
Proof using Type. intros Hk Hx. unfold shl64. rewrite Z.shiftl_mul_pow2 by done. by apply wrap_small. Qed.

Lemma sign_small neg : shl64 (b2z neg) (p + q) = b2z neg * 2 ^ q * 2 ^ p.
Proof using Hp Hq Hpq.
  rewrite shl64_small; [rewrite Z.pow_add_r by lia; lia|lia|].
  pose proof (Z.pow_le_mono_r 2 (p + q) 63 ltac:(lia) ltac:(lia)).
  pose proof (pow2_pos (p + q) ltac:(lia)). destruct neg; simpl; lia.
Qed.

Lemma lor_low x y k : 0 ≤ k → unsigned k y → Z.lor (x * 2 ^ k) y = x * 2 ^ k + y.
Proof using Type. intros Hk Hy. rewrite <- Z.shiftl_mul_pow2 by done. by rewrite lor_shiftl_add, Z.shiftl_mul_pow2. Qed.

(** The three parts joined by [|]. *)
Lemma pattern_lor neg field man :
  0 ≤ field < 2 ^ q → 0 ≤ man < 2 ^ p →
  Z.lor (Z.lor (b2z neg * 2 ^ q * 2 ^ p) (field * 2 ^ p)) man
  = (b2z neg * 2 ^ q + field) * 2 ^ p + man.
Proof using Hp Hq.
  intros Hf Hm.
  assert (Z.lor (b2z neg * 2 ^ q * 2 ^ p) (field * 2 ^ p) = (b2z neg * 2 ^ q + field) * 2 ^ p) as ->.
  { rewrite <- !(Z.shiftl_mul_pow2 _ p), <- Z.shiftl_lor by lia. f_equal.
    apply lor_low; [lia|done]. }
  apply lor_low; [lia|done].
Qed.

Lemma lead_spec x : 0 < x → 2 ^ lead x ≤ x < 2 ^ (lead x + 1) ∧ 0 ≤ lead x.
Proof using Type.
  intros Hx. unfold lead. pose proof (Z.log2_spec x Hx). pose proof (Z.log2_nonneg x).
  rewrite <- Z.add_1_r in *. done.
Qed.

Lemma strip_lead x : 0 < x < 2 ^ 64 → Z.lxor x (shl64 1 (lead x)) = x - 2 ^ lead x.
Proof using Type.
  intros Hx. destruct (lead_spec x) as [[H1 H2] H0]; [lia|].
  rewrite shl64_small, Z.mul_1_l by lia.
  set (n := lead x) in *. pose proof (pow2_pos n H0). rewrite Z.pow_add_r in H2 by lia.
  assert (x = 1 * 2 ^ n + (x - 2 ^ n)) as Hx' by lia.
  rewrite Hx' at 1. rewrite <- lor_low by (done || (unfold unsigned; lia)).
  rewrite Z.mul_1_l. apply Z.bits_inj'. intros i Hi.
  rewrite Z.lxor_spec, Z.lor_spec, Z.pow2_bits_eqb by done.
  destruct (Z.eqb_spec n i) as [<-|]; [|by rewrite orb_false_l, xorb_false_r].
  rewrite orb_true_l, xorb_true_r. symmetry.
  rewrite <- (Z.mod_small (x - 2 ^ n) (2 ^ n)) by lia. apply Z.mod_pow2_bits_high. lia.
Qed.
End pattern.

Section soft.
Context (p q emin : Z) (Hp : 0 < p ≤ 52) (Hq : 2 ≤ q ≤ 11).
Let lo := emin - p.

(** The result's fields, normal or subnormal. *)
Lemma frem_soft_pattern a b neg units exp :
  frem_units a b = Some (units, exp) → 0 ≤ units < 2 ^ (p + 1) →
  lo ≤ exp ≤ lo + 2 ^ q - 3 →
  ∃ field man, 0 ≤ field < 2 ^ q - 1 ∧ 0 ≤ man < 2 ^ p ∧
    frem_soft a b neg p q (1 - emin) emin = Some ((b2z neg * 2 ^ q + field) * 2 ^ p + man) ∧
    (if field =? 0 then man else (2 ^ p + man) * 2 ^ (field - 1)) = units * 2 ^ (exp - lo).
Proof using Hp Hq.
  intros Hu Hun Hexp. unfold frem_soft. rewrite Hu. cbn [mbind option_bind].
  pose proof (Z.pow_le_mono_r 2 (p + 1) 53 ltac:(lia) ltac:(lia)).
  pose proof (Z.pow_le_mono_r 2 p 52 ltac:(lia) ltac:(lia)).
  pose proof (Z.pow_le_mono_r 2 q 11 ltac:(lia) ltac:(lia)).
  pose proof (Z.pow_le_mono_r 2 2 q ltac:(lia) ltac:(lia)).
  pose proof (pow2_pos p ltac:(lia)).
  rewrite sign_small by lia. cbv zeta.
  destruct (Z.eqb_spec units 0) as [->|Hnz].
  { exists 0, 0. split_and!; [lia|lia|lia|lia|f_equal; lia|done]. }
  pose proof (lead_spec units ltac:(lia)) as [[Hl1 Hl2] Hl0].
  assert (lead units ≤ p) as Hlp.
  { destruct (Z.le_gt_cases (lead units) p); [done|].
    pose proof (Z.pow_le_mono_r 2 (p + 1) (lead units) ltac:(lia) ltac:(lia)). lia. }
  set (l := lead units) in *. pose proof (pow2_pos l Hl0).
  destruct (Z.leb_spec emin (exp + l)) as [Hn|Hs].
  - (* normal *)
    pose proof (pow2_pos (p - l) ltac:(lia)).
    assert (2 ^ p = 2 ^ l * 2 ^ (p - l)) as Hsplit by (rewrite <- Z.pow_add_r by lia; f_equal; lia).
    assert (2 ^ (l + 1) = 2 * 2 ^ l) as Hl3 by (rewrite Z.pow_add_r by lia; lia).
    exists (exp + l - emin + 1), ((units - 2 ^ l) * 2 ^ (p - l)).
    assert (0 ≤ (units - 2 ^ l) * 2 ^ (p - l) < 2 ^ p) as Hman.
    { rewrite Hsplit. split; [apply Z.mul_nonneg_nonneg; lia|apply Z.mul_lt_mono_pos_r; lia]. }
    assert (1 ≤ exp + l - emin + 1 < 2 ^ q - 1) as Hfield by (unfold lo in *; lia).
    pose proof (Z.mul_le_mono_nonneg (exp + l - emin + 1) (2 ^ 11) (2 ^ p) (2 ^ 52)
      ltac:(lia) ltac:(lia) ltac:(lia) ltac:(lia)).
    pose proof (Z.mul_nonneg_nonneg (exp + l - emin + 1) (2 ^ p) ltac:(lia) ltac:(lia)).
    split_and!; [lia|lia|lia|lia| |].
    + rewrite strip_lead by lia. fold l.
      rewrite (wrap_small 64) by (unfold unsigned; lia).
      rewrite (shl64_small (units - _)) by lia.
      replace (exp + l + (1 - emin)) with (exp + l - emin + 1) by lia.
      rewrite shl64_small by lia. by rewrite pattern_lor by lia.
    + destruct (Z.eqb_spec (exp + l - emin + 1) 0); [lia|].
      replace (2 ^ p + (units - 2 ^ l) * 2 ^ (p - l)) with (units * 2 ^ (p - l)) by (rewrite Hsplit; ring).
      rewrite <- Z.mul_assoc, <- Z.pow_add_r by (unfold lo in *; lia). do 2 f_equal.
      unfold lo. lia.
  - (* subnormal *)
    exists 0, (units * 2 ^ (exp - lo)).
    assert (0 ≤ units * 2 ^ (exp - lo) < 2 ^ p) as Hm.
    { assert (0 ≤ exp - lo ∧ l + 1 + (exp - lo) ≤ p) as [Hsh Htop] by (unfold lo in *; lia).
      pose proof (pow2_pos (exp - lo) Hsh) as Hpos.
      pose proof (Z.pow_le_mono_r 2 (l + 1 + (exp - lo)) p ltac:(lia) Htop) as Hpow.
      rewrite Z.pow_add_r in Hpow by lia. split; [apply Z.mul_nonneg_nonneg; lia|].
      apply Z.lt_le_trans with (2 ^ (l + 1) * 2 ^ (exp - lo)); [|done].
      apply Z.mul_lt_mono_pos_r; lia. }
    split_and!; [lia|lia|lia|lia| |done].
    assert (exp - emin + p = exp - lo) as -> by (unfold lo; lia).
    rewrite (wrap_small 32) by (unfold unsigned, lo in *; lia).
    rewrite shl64_small by lia. f_equal. rewrite Z.add_0_r.
    apply lor_low; [lia|done].
Qed.
End soft.

Lemma field_range p q bits :
  0 < p → 0 < q → 0 ≤ exp_field p q bits < 2 ^ q ∧ 0 ≤ man_field p bits < 2 ^ p.
Proof. intros. split; by apply wrap_range. Qed.

Section remainder.
Context (p q emin : Z) (Hp : 0 < p ≤ 52) (Hq : 2 ≤ q ≤ 11).
Let lo := emin - p.

(** What the decompositions of the code return, for a finite nonzero float. *)
Lemma decompose_spec bits m e :
  (m, e) = (if exp_field p q bits =? 0 then (man_field p bits, lo)
            else (Z.lor (man_field p bits) (2 ^ p), exp_field p q bits + lo - 1)) →
  exp_field p q bits < 2 ^ q - 1 → is_zero p q bits = false →
  0 < m < 2 ^ (p + 1) ∧ lo ≤ e ≤ lo + 2 ^ q - 3 ∧ m * 2 ^ (e - lo) = magnitude p q bits.
Proof using Hp Hq.
  intros Hd Hf Hz. pose proof (field_range p q bits ltac:(lia) ltac:(lia)) as [Hfr Hm].
  pose proof (Z.pow_le_mono_r 2 2 q ltac:(lia) ltac:(lia)).
  unfold is_zero in Hz. unfold magnitude. rewrite Z.pow_add_r by lia.
  destruct (Z.eqb_spec (exp_field p q bits) 0) as [H0|H0].
  - injection Hd as -> ->. destruct (Z.eqb_spec (man_field p bits) 0); [done|].
    split_and!; try lia. rewrite Z.sub_diag. lia.
  - injection Hd as -> ->. rewrite Z.lor_comm.
    assert (Z.lor (2 ^ p) (man_field p bits) = 2 ^ p + man_field p bits) as ->.
    { pose proof (lor_low 1 (man_field p bits) p ltac:(lia) Hm) as Hl. by rewrite Z.mul_1_l in Hl. }
    split_and!; [lia|lia|lia|lia|]. f_equal. f_equal. lia.
Qed.

Lemma remainder_spec a b x y :
  0 ≤ fst x < 2 ^ (p + 1) → lo ≤ snd x ≤ lo + 2 ^ q - 3 → fst x * 2 ^ (snd x - lo) = magnitude p q a →
  0 < fst y < 2 ^ (p + 1) → lo ≤ snd y ≤ lo + 2 ^ q - 3 → fst y * 2 ^ (snd y - lo) = magnitude p q b →
  ∃ r, frem_soft x y (is_sign_negative p q a) p q (1 - emin) emin = Some r ∧
    unsigned (p + q + 1) r ∧ exp_field p q r < 2 ^ q - 1 ∧
    is_sign_negative p q r = is_sign_negative p q a ∧
    magnitude p q r = magnitude p q a mod magnitude p q b.
Proof using Hp Hq.
  destruct x as [ma ea], y as [mb eb]. cbn [fst snd]. intros Hma Hea Ha Hmb Heb Hb.
  pose proof (Z.pow_le_mono_r 2 q 11 ltac:(lia) ltac:(lia)).
  destruct (frem_units_spec p lo ma ea mb eb) as (units & exp & Hu & Hun & Hexp & Hmod);
    [lia..|].
  destruct (frem_soft_pattern p q emin Hp Hq (ma, ea) (mb, eb) (is_sign_negative p q a) units exp)
    as (field & man & Hf & Hm & Hr & Hmag); [done|done|fold lo; lia|].
  destruct (float_pattern_fields p q ltac:(lia) ltac:(lia) ltac:(lia) (is_sign_negative p q a) field man)
    as (Hf' & Hm' & Hs' & Hu'); [lia|done|].
  eexists. split; [done|]. split_and!; [exact Hu'|rewrite Hf'; lia|exact Hs'|].
  unfold magnitude at 1. rewrite Hf', Hm', Hmag. fold lo. by rewrite Hmod, Ha, Hb.
Qed.
End remainder.

Lemma decompose_f64_eq bits :
  decompose_f64 bits =
    (if exp_field 52 11 bits =? 0 then (man_field 52 bits, -1022 - 52)
     else (Z.lor (man_field 52 bits) (2 ^ 52), exp_field 52 11 bits + (-1022 - 52) - 1)).
Proof.
  unfold decompose_f64, exp_field, man_field, wrap.
  rewrite (Z.land_ones _ 11), (Z.land_ones _ 52) by lia.
  destruct (_ =? 0); [done|]. f_equal. lia.
Qed.

Lemma decompose_f32_eq bits :
  decompose_f32 bits =
    (if exp_field 23 8 bits =? 0 then (man_field 23 bits, -126 - 23)
     else (Z.lor (man_field 23 bits) (2 ^ 23), exp_field 23 8 bits + (-126 - 23) - 1)).
Proof.
  unfold decompose_f32, exp_field, man_field, wrap.
  rewrite (Z.land_ones _ 8), (Z.land_ones _ 23) by lia.
  destruct (_ =? 0); [done|]. f_equal. lia.
Qed.

(** A pattern neither NaN nor infinite is finite. *)
Lemma finite_field p q bits :
  0 < q → is_nan p q bits = false → is_infinite p q bits = false → exp_field p q bits < 2 ^ q - 1.
Proof.
  intros Hq Hn Hi. pose proof (wrap_range q Hq (Z.shiftr bits p)) as Hr.
  fold (exp_field p q bits) in Hr. unfold unsigned in Hr. unfold is_nan, is_infinite in *.
  destruct (Z.eqb_spec (exp_field p q bits) (2 ^ q - 1)); [|lia].
  by destruct (man_field p bits =? 0).
Qed.
Lemma zero_magnitude p q bits : is_zero p q bits = true → magnitude p q bits = 0.
Proof.
  unfold is_zero, magnitude. intros [H1 H2]%andb_true_iff. rewrite H1. by apply Z.eqb_eq.
Qed.

(** ** Properties *)

(** C34: the [f64] remainder is exact: NaN for a NaN operand, a zero divisor or
    an infinite dividend, the dividend itself for an infinite divisor, and
    otherwise a finite float with the dividend's sign whose magnitude is the
    integer remainder of the magnitudes; and the loop always ends. *)
Theorem frem_f64_exact a b :
  unsigned 64 a → unsigned 64 b →
  ∃ r, frem_f64 a b = Some r ∧
  if is_nan 52 11 a || is_nan 52 11 b || is_zero 52 11 b || is_infinite 52 11 a
  then r = CANONICAL_F64_NAN
  else if is_infinite 52 11 b then r = a
  else unsigned 64 r ∧ exp_field 52 11 r < 2 ^ 11 - 1 ∧
       is_sign_negative 52 11 r = is_sign_negative 52 11 a ∧
       magnitude 52 11 r = magnitude 52 11 a mod magnitude 52 11 b.
Proof.
  intros Ha Hb. unfold frem_f64.
  destruct (is_nan 52 11 a) eqn:Hna; [exact (ex_intro _ _ (conj eq_refl eq_refl))|].
  destruct (is_nan 52 11 b) eqn:Hnb; [exact (ex_intro _ _ (conj eq_refl eq_refl))|].
  destruct (is_zero 52 11 b) eqn:Hzb; [exact (ex_intro _ _ (conj eq_refl eq_refl))|].
  destruct (is_infinite 52 11 a) eqn:Hia; [exact (ex_intro _ _ (conj eq_refl eq_refl))|].
  destruct (is_infinite 52 11 b) eqn:Hib; [exact (ex_intro _ _ (conj eq_refl eq_refl))|].
  cbn [orb].
  pose proof (finite_field 52 11 a ltac:(lia) Hna Hia) as Hfa.
  pose proof (finite_field 52 11 b ltac:(lia) Hnb Hib) as Hfb.
  destruct (is_zero 52 11 a) eqn:Hza.
  { exists a. rewrite (zero_magnitude _ _ _ Hza), Zmod_0_l.
    exact (conj eq_refl (conj Ha (conj Hfa (conj eq_refl eq_refl)))). }
  destruct (decompose_f64 a) as [ma ea] eqn:Hda, (decompose_f64 b) as [mb eb] eqn:Hdb.
  rewrite decompose_f64_eq in Hda, Hdb. symmetry in Hda, Hdb.
  destruct (decompose_spec 52 11 (-1022) ltac:(lia) ltac:(lia) a ma ea Hda Hfa Hza) as (Hma & ? & ?).
  destruct (decompose_spec 52 11 (-1022) ltac:(lia) ltac:(lia) b mb eb Hdb Hfb Hzb) as (Hmb & ? & ?).
  pose proof (remainder_spec 52 11 (-1022) ltac:(lia) ltac:(lia) a b (ma, ea) (mb, eb)
    (conj (Z.lt_le_incl _ _ (proj1 Hma)) (proj2 Hma)) ltac:(done) ltac:(done)
    ltac:(done) ltac:(done) ltac:(done)) as Hr.
  change (1 - -1022) with 1023 in Hr. change (52 + 11 + 1) with 64 in Hr. exact Hr.
Qed.

(** The [f32] remainder is exact in the same sense. *)
Theorem frem_f32_exact a b :
  unsigned 32 a → unsigned 32 b →
  ∃ r, frem_f32 a b = Some r ∧
  if is_nan 23 8 a || is_nan 23 8 b || is_zero 23 8 b || is_infinite 23 8 a
  then r = CANONICAL_F32_NAN
  else if is_infinite 23 8 b then r = a
  else unsigned 32 r ∧ exp_field 23 8 r < 2 ^ 8 - 1 ∧
       is_sign_negative 23 8 r = is_sign_negative 23 8 a ∧
       magnitude 23 8 r = magnitude 23 8 a mod magnitude 23 8 b.
Proof.
  intros Ha Hb. unfold frem_f32.
  destruct (is_nan 23 8 a) eqn:Hna; [exact (ex_intro _ _ (conj eq_refl eq_refl))|].
  destruct (is_nan 23 8 b) eqn:Hnb; [exact (ex_intro _ _ (conj eq_refl eq_refl))|].
  destruct (is_zero 23 8 b) eqn:Hzb; [exact (ex_intro _ _ (conj eq_refl eq_refl))|].
  destruct (is_infinite 23 8 a) eqn:Hia; [exact (ex_intro _ _ (conj eq_refl eq_refl))|].
  destruct (is_infinite 23 8 b) eqn:Hib; [exact (ex_intro _ _ (conj eq_refl eq_refl))|].
  cbn [orb].
  pose proof (finite_field 23 8 a ltac:(lia) Hna Hia) as Hfa.
  pose proof (finite_field 23 8 b ltac:(lia) Hnb Hib) as Hfb.
  destruct (is_zero 23 8 a) eqn:Hza.
  { exists a. rewrite (zero_magnitude _ _ _ Hza), Zmod_0_l.
    exact (conj eq_refl (conj Ha (conj Hfa (conj eq_refl eq_refl)))). }
  destruct (decompose_f32 a) as [ma ea] eqn:Hda, (decompose_f32 b) as [mb eb] eqn:Hdb.
  rewrite decompose_f32_eq in Hda, Hdb. symmetry in Hda, Hdb.
  destruct (decompose_spec 23 8 (-126) ltac:(lia) ltac:(lia) a ma ea Hda Hfa Hza) as (Hma & ? & ?).
  destruct (decompose_spec 23 8 (-126) ltac:(lia) ltac:(lia) b mb eb Hdb Hfb Hzb) as (Hmb & ? & ?).
  pose proof (remainder_spec 23 8 (-126) ltac:(lia) ltac:(lia) a b (ma, ea) (mb, eb)
    (conj (Z.lt_le_incl _ _ (proj1 Hma)) (proj2 Hma)) ltac:(done) ltac:(done)
    ltac:(done) ltac:(done) ltac:(done)) as Hr.
  change (1 - -126) with 127 in Hr. change (23 + 8 + 1) with 32 in Hr. exact Hr.
Qed.

(** ** Witnesses *)

Lemma frem_f64_exact_witness :
  ∃ r, frem_f64 0x8000000000000007 3 = Some r ∧ is_sign_negative 52 11 r = true ∧
       magnitude 52 11 r = 1.
Proof.
  destruct (frem_f64_exact 0x8000000000000007 3) as (r & Hr & _ & _ & Hs & Hm);
    [unfold unsigned; lia..|].
  exists r. exact (conj Hr (conj Hs Hm)).
Defined.

Lemma frem_f32_exact_witness :
  ∃ r, frem_f32 7 3 = Some r ∧ is_sign_negative 23 8 r = false ∧ magnitude 23 8 r = 1.
Proof.
  destruct (frem_f32_exact 7 3) as (r & Hr & _ & _ & Hs & Hm); [unfold unsigned; lia..|].
  exists r. exact (conj Hr (conj Hs Hm)).
Defined.
