(* ===== verification/InterpFloat.v ===== *)
(** * The interpreter's floats

    fors-interp/src/arith.rs: float arithmetic, comparison and the conversions
    with a float on either side.  Rust's [f64] and [f32] are the binary64 and
    binary32 values of the Standard Library's [SpecFloat], whose operations
    round to nearest, ties to even; a NaN has one value there, so the payload
    Rust leaves open is the canonical one.  A cast from [f64] to an integer
    truncates and saturates, as Rust's does. *)

From Stdlib Require Import Floats.SpecFloat.
From S2P Require Import Prelude InterpArith InterpFrem.
Import Kind.
Local Open Scope Z_scope.

Definition f64 : Type := spec_float.
Definition f32 : Type := spec_float.

(** ** Patterns and casts *)

(** [from_bits] and [to_bits] for [p] mantissa and [q] exponent bits. *)
Definition emin_of (p q : Z) : Z := 3 - 2 ^ (q - 1) - (p + 1).
Definition of_bits (p q bits : Z) : spec_float :=
  let s := is_sign_negative p q bits in
  let e := exp_field p q bits in
  let m := man_field p bits in
  if e =? 2 ^ q - 1 then (if m =? 0 then S754_infinity s else S754_nan)
  else if e =? 0 then
    match m with Zpos m => S754_finite s m (emin_of p q) | _ => S754_zero s end
  else
    match 2 ^ p + m with
    | Zpos m => S754_finite s m (e - 1 + emin_of p q)
    | _ => S754_nan (* 2 ^ p + m is positive *)
    end.
Definition to_bits (p q : Z) (v : spec_float) : Z :=
  let sign s := b2z s * 2 ^ (p + q) in
  match v with
  | S754_nan => (2 ^ q - 1) * 2 ^ p + 2 ^ (p - 1)
  | S754_infinity s => sign s + (2 ^ q - 1) * 2 ^ p
  | S754_zero s => sign s
  | S754_finite s m e =>
      if Zpos m <? 2 ^ p then sign s + Zpos m
      else sign s + (e - emin_of p q + 1) * 2 ^ p + (Zpos m - 2 ^ p)
  end.

Definition f64_from_bits (bits : Z) : f64 := of_bits 52 11 bits.
Definition f64_to_bits (v : f64) : Z := to_bits 52 11 v.
Definition f32_from_bits (bits : Z) : f32 := of_bits 23 8 (wrap 32 bits).
Definition f32_to_bits (v : f32) : Z := to_bits 23 8 v.

(** A change of format rounds a finite value. *)
Definition cast (prec emax : Z) (v : spec_float) : spec_float :=
  match v with S754_finite s m e => binary_round prec emax s m e | _ => v end.
Definition to_f32 (v : f64) : f32 := cast 24 128 v.
Definition to_f64 (v : f32) : f64 := cast 53 1024 v.

(** [i as f64] *)
Definition int_as_f64 (i : Z) : f64 := binary_normalize 53 1024 i 0 false.

Definition f_is_nan (v : spec_float) : bool := match v with S754_nan => true | _ => false end.
Definition f_is_infinite (v : spec_float) : bool :=
  match v with S754_infinity _ => true | _ => false end.

(** [v.trunc()] clears the mantissa bits below the units. *)
Definition ftrunc (v : f64) : f64 :=
  match v with
  | S754_finite s m e =>
      if 0 <=? e then v
      else match Z.shiftl (Z.shiftr (Zpos m) (- e)) (- e) with
           | Zpos m' => S754_finite s m' e
           | _ => S754_zero s
           end
  | _ => v
  end.

(** The integer part of a finite value, towards zero. *)
Definition integer_part (v : f64) : Z :=
  match v with
  | S754_finite s m e => cond_Zopp s (if 0 <=? e then Z.shiftl (Zpos m) e else Z.shiftr (Zpos m) (- e))
  | _ => 0
  end.
Definition as_int (lo hi : Z) (v : f64) : Z :=
  match v with
  | S754_nan | S754_zero _ => 0
  | S754_infinity s => if s then lo else hi
  | S754_finite _ _ _ => clamp (integer_part v) lo hi
  end.
Definition as_i128 (v : f64) : Z := as_int (- 2 ^ 127) (2 ^ 127 - 1) v.
Definition as_u128 (v : f64) : Z := as_int 0 (2 ^ 128 - 1) v.

(** [2.0f64.powi(n)], exact for the widths it is used at. *)
Definition powi2 (n : Z) : f64 := int_as_f64 (2 ^ n).

(** ** Kinds *)

Inductive FloatKind : Type := F32 | F64.
Inductive NumKind : Type := Int (k : IntKind) | Float (k : FloatKind).

Definition FloatKind_from_prim (p : PrimKind.PrimKind) : option FloatKind :=
  match p with PrimKind.F32 => Some F32 | PrimKind.F64 => Some F64 | _ => None end.
Definition NumKind_from_prim (p : PrimKind.PrimKind) : option NumKind :=
  match Kind.from_prim p with
  | Some k => Some (Int k)
  | None => Float <$> FloatKind_from_prim p
  end.

Definition float_bits (k : FloatKind) (v : f64) : Z :=
  match k with F32 => f32_to_bits (to_f32 v) | F64 => f64_to_bits v end.
Definition float_from_bits (k : FloatKind) (bits : Z) : f64 :=
  match k with F32 => to_f64 (f32_from_bits bits) | F64 => f64_from_bits bits end.

Definition canon_f64 (v : f64) : Z := if f_is_nan v then CANONICAL_F64_NAN else f64_to_bits v.
Definition canon_f32 (v : f32) : Z := if f_is_nan v then CANONICAL_F32_NAN else f32_to_bits v.

(** ** Arithmetic and comparison *)

Definition fcmp (a b : f64) (pred : CmpPred.CmpPred) : bool :=
  match pred with
  | CmpPred.Eq => SFeqb a b
  | CmpPred.Ne => negb (SFeqb a b)
  | CmpPred.Lt => SFltb a b
  | CmpPred.Le => SFleb a b
  | CmpPred.Gt => SFltb b a
  | CmpPred.Ge => SFleb b a
  end.

Definition fadd (a b : f64) (k : FloatKind) : Z :=
  match k with
  | F32 => canon_f32 (SFadd 24 128 (to_f32 a) (to_f32 b))
  | F64 => canon_f64 (SFadd 53 1024 a b)
  end.
Definition fsub (a b : f64) (k : FloatKind) : Z :=
  match k with
  | F32 => canon_f32 (SFsub 24 128 (to_f32 a) (to_f32 b))
  | F64 => canon_f64 (SFsub 53 1024 a b)
  end.
Definition fmul (a b : f64) (k : FloatKind) : Z :=
  match k with
  | F32 => canon_f32 (SFmul 24 128 (to_f32 a) (to_f32 b))
  | F64 => canon_f64 (SFmul 53 1024 a b)
  end.
Definition fdiv (a b : f64) (k : FloatKind) : Z :=
  match k with
  | F32 => canon_f32 (SFdiv 24 128 (to_f32 a) (to_f32 b))
  | F64 => canon_f64 (SFdiv 53 1024 a b)
  end.
Definition fneg (a : f64) (k : FloatKind) : Z :=
  match k with
  | F32 => canon_f32 (SFopp (to_f32 a))
  | F64 => canon_f64 (SFopp a)
  end.

(** ** Conversions *)

(** The arms on a signed kind mask [r as u64] to the width: [low_bits]. *)
Definition float_bits_in_int_range (v : f64) (tk : IntKind) : option Z :=
  let w := width tk in
  if is_signed tk then
    let lo_f := SFopp (powi2 (w - 1)) in
    let hi_f := powi2 (w - 1) in
    if SFltb v lo_f || SFleb hi_f v then None else Some (low_bits tk (as_i128 v))
  else
    let hi_f := powi2 w in
    if SFltb v (S754_zero false) || SFleb hi_f v then None else Some (narrow tk (as_u128 v)).

Definition trunc_float_to_int (v : f64) (tk : IntKind) : option Z :=
  if f_is_nan v then Some 0 else
  let w := width tk in
  let t := ftrunc v in
  let m := powi2 w in
  r ← f64_from_bits <$> frem_f64 (f64_to_bits t) (f64_to_bits m);
  let folded := if SFltb r (S754_zero false) then SFadd 53 1024 r m else r in
  Some (narrow tk (as_u128 folded)).

Definition sat_float_to_int (v : f64) (tk : IntKind) : Z :=
  if f_is_nan v then 0 else
  let '(lo, hi) := bounds tk in
  let t := ftrunc v in
  if SFleb t (int_as_f64 lo) then sat_clamp lo tk
  else if SFleb (int_as_f64 hi) t then sat_clamp hi tk
  else if is_signed tk then low_bits tk (as_i128 t)
  else if SFltb t (S754_zero false) then 0
  else narrow tk (as_u128 t).

(** [as_signed(bits) as f64] or [as_unsigned(bits) as f64] *)
Definition int_source (fk : IntKind) (bits : Z) : f64 :=
  int_as_f64 (if is_signed fk then as_signed fk bits else as_unsigned fk bits).

Definition conv_checked (bits : Z) (from to : NumKind) : answer :=
  match from, to with
  | Int fk, Int tk => conv_checked_int bits fk tk
  | Int fk, Float tk => Ok (float_bits tk (int_source fk bits))
  | Float fk, Int tk =>
      let v := float_from_bits fk bits in
      if f_is_nan v || f_is_infinite v then Err CheckedConversion
      else if negb (SFeqb (ftrunc v) v) then Err CheckedConversion
      else ok_or (float_bits_in_int_range v tk) CheckedConversion
  | Float fk, Float tk =>
      let v := float_from_bits fk bits in
      match fk, tk with
      | F64, F32 =>
          let r := to_f32 v in
          if negb (f_is_nan v) && negb (SFeqb (to_f64 r) v) then Err CheckedConversion
          else Ok (canon_f32 r)
      | _, _ => Ok (float_bits tk v)
      end
  end.

Definition conv_wrap (bits : Z) (from to : NumKind) : option Z :=
  match from, to with
  | Int fk, Int tk => Some (conv_wrap_int bits fk tk)
  | Int fk, Float tk => Some (float_bits tk (int_source fk bits))
  | Float fk, Int tk => trunc_float_to_int (float_from_bits fk bits) tk
  | Float fk, Float tk =>
      let v := float_from_bits fk bits in
      match fk, tk with
      | F64, F32 => Some (canon_f32 (to_f32 v))
      | _, _ => Some (float_bits tk v)
      end
  end.

Definition conv_trunc (bits : Z) (from to : NumKind) : option Z :=
  match from, to with
  | Float fk, Int tk => Some (sat_float_to_int (float_from_bits fk bits) tk)
  | _, _ => conv_wrap bits from to
  end.

Definition conv_sat (bits : Z) (from to : NumKind) : option Z :=
  match from, to with
  | Int fk, Int tk => Some (conv_sat_int bits fk tk)
  | Float fk, Int tk => Some (sat_float_to_int (float_from_bits fk bits) tk)
  | _, _ => conv_wrap bits from to
  end.

(** ** What the code computes on small inputs *)

(** [-1.0]: [trunc_as[i64]] gives -1 and [wrap_as[i64]] gives 0. *)
Example trunc_as_minus_one :
  conv_trunc 0xbff0000000000000 (Float F64) (Int I64) = Some (2 ^ 64 - 1).
Proof. vm_compute. reflexivity. Qed.
Example wrap_as_minus_one :
  conv_wrap 0xbff0000000000000 (Float F64) (Int I64) = Some 0.
Proof. vm_compute. reflexivity. Qed.
Example wrap_as_minus_one_i32 :
  conv_wrap 0xbff0000000000000 (Float F64) (Int I32) = Some (2 ^ 32 - 1).
Proof. vm_compute. reflexivity. Qed.

(** [1.0 + 2.0] and [0.1 + 0.2]. *)
Example fadd_one_two :
  fadd (f64_from_bits 0x3ff0000000000000) (f64_from_bits 0x4000000000000000) F64
  = 0x4008000000000000.
Proof. vm_compute. reflexivity. Qed.
Example fadd_tenths :
  fadd (f64_from_bits 0x3fb999999999999a) (f64_from_bits 0x3fc999999999999a) F64
  = 0x3fd3333333333334.
Proof. vm_compute. reflexivity. Qed.
