(* ===== verification/InterpFloatProps.v ===== *)
(** * Theorems on the interpreter's float conversions

    A finite [f64] is an integer number of units of [2^-1074]; comparing,
    truncating and clamping floats is comparing, dividing and clamping those
    integers. *)

From Stdlib Require Import Floats.SpecFloat.
From S2P Require Import Prelude InterpArith InterpArithProps InterpFrem InterpFloat.
Import Kind.
Local Open Scope Z_scope.

(** ** Units *)

Abbreviation valid := (valid_binary 53 1024).

(** One, in units of the least subnormal. *)
Definition ONE : Z := 2 ^ 1074.

Definition units (v : f64) : Z :=
  match v with
  | S754_finite s m e => cond_Zopp s (Zpos m * 2 ^ (e + 1074))
  | _ => 0
  end.

Definition finite (v : f64) : Prop :=
  match v with S754_finite _ _ _ | S754_zero _ => True | _ => False end.

Lemma digits2_spec m : 2 ^ (Zpos (digits2_pos m) - 1) ≤ Zpos m < 2 ^ Zpos (digits2_pos m).
Proof.
  induction m as [m IH|m IH|]; simpl digits2_pos; [| |done];
    rewrite Pos2Z.inj_succ, <- Z.add_1_r, Z.add_simpl_r;
    pose proof (Z.pow_succ_r 2 (Zpos (digits2_pos m) - 1) ltac:(lia)) as Hp;
    rewrite Z.sub_1_r, Z.succ_pred in Hp;
    rewrite Z.add_1_r, Z.pow_succ_r by lia; rewrite ?Z.sub_1_r in *; lia.
Qed.

Lemma valid_finite s m e : valid (S754_finite s m e) = true →
  -1074 ≤ e ≤ 971 ∧ Zpos m < 2 ^ 53 ∧ (-1074 < e → 2 ^ 52 ≤ Zpos m).
Proof.
  simpl. unfold bounded, canonical_mantissa, fexp, emin. rewrite andb_true_iff.
  intros [He%Z.eqb_eq Hm%Z.leb_le]. pose proof (digits2_spec m) as Hd.
  set (d := Zpos (digits2_pos m)) in *. split; [lia|].
  assert (d ≤ 53) as Hd53 by lia. pose proof (Z.pow_le_mono_r 2 d 53 ltac:(lia) Hd53).
  split; [lia|]. intros He'. assert (d = 53) as Hd' by lia. rewrite Hd' in Hd. lia.
Qed.

Lemma finite_valid s m e :
  -1074 ≤ e ≤ 971 → Zpos m < 2 ^ 53 → (-1074 < e → 2 ^ 52 ≤ Zpos m) →
  valid (S754_finite s m e) = true.
Proof.
  intros He Hm Hn. simpl. unfold bounded, canonical_mantissa, fexp, emin.
  apply andb_true_iff. rewrite Z.eqb_eq, Z.leb_le. split; [|lia].
  pose proof (digits2_spec m) as Hd. set (d := Zpos (digits2_pos m)) in *.
  assert (d ≤ 53).
  { apply Z.lt_succ_r. apply Z.nle_gt. intros Hge.
    pose proof (Z.pow_le_mono_r 2 53 (d - 1) ltac:(lia) ltac:(lia)). lia. }
  destruct (decide (e = -1074)) as [->|]; [lia|]. specialize (Hn ltac:(lia)).
  assert (53 ≤ d); [|lia]. apply Z.nlt_ge. intros Hlt.
  pose proof (Z.pow_le_mono_r 2 d 52 ltac:(lia) ltac:(lia)). lia.
Qed.

(** Every pattern is a canonical float. *)
Lemma from_bits_valid bits : valid (f64_from_bits bits) = true.
Proof.
  unfold f64_from_bits, of_bits. set (e := exp_field 52 11 bits). set (m := man_field 52 bits).
  pose proof (wrap_range 11 ltac:(lia) (Z.shiftr bits 52)) as He. fold (exp_field 52 11 bits) in He.
  fold e in He. pose proof (wrap_range 52 ltac:(lia) bits) as Hm. fold (man_field 52 bits) in Hm.
  fold m in Hm. unfold unsigned in *. change (emin_of 52 11) with (-1074).
  clearbody e m. change (2 ^ 11) with 2048 in *. change (2 ^ 52) with 4503599627370496 in *.
  destruct (Z.eqb_spec e (2048 - 1)); [by destruct (m =? 0)|].
  destruct (Z.eqb_spec e 0).
  - destruct m as [|m|m]; [done| |done]. apply finite_valid; lia.
  - destruct (4503599627370496 + m) as [|m'|m'] eqn:Hm'; [done| |done]. apply finite_valid; lia.
Qed.

(** ** Comparison *)

Lemma pow_units e : -1074 ≤ e → 0 < 2 ^ (e + 1074).
Proof. intros. apply pow2_pos. lia. Qed.

Lemma finite_lt s s' m m' e e' :
  valid (S754_finite s m e) = true → valid (S754_finite s' m' e') = true → e < e' →
  Zpos m * 2 ^ (e + 1074) < Zpos m' * 2 ^ (e' + 1074).
Proof.
  intros (He & Hm & _)%valid_finite (He' & Hm' & Hn)%valid_finite Hlt.
  specialize (Hn ltac:(lia)). pose proof (pow_units e ltac:(lia)).
  replace (e' + 1074) with (e + 1074 + Z.succ (e' - e - 1)) by lia.
  rewrite (Z.pow_add_r 2 (e + 1074)), Z.pow_succ_r by lia. pose proof (pow2_pos (e' - e - 1) ltac:(lia)).
  assert (Zpos m < 2 * Zpos m') by lia. set (P := 2 ^ (e + 1074)) in *.
  set (Q := 2 ^ (e' - e - 1)) in *. clearbody P Q.
  apply Z.lt_le_trans with (2 * Zpos m' * P); [nia|].
  replace (Zpos m' * (P * (2 * Q))) with (2 * Zpos m' * P * Q) by lia. nia.
Qed.

Lemma compare_magnitudes s s' m m' e e' :
  valid (S754_finite s m e) = true → valid (S754_finite s' m' e') = true →
  (Zpos m * 2 ^ (e + 1074) ?= Zpos m' * 2 ^ (e' + 1074)) =
  match e ?= e' with Eq => Pos.compare m m' | c => c end.
Proof.
  intros Hv Hv'. destruct (Z.compare_spec e e') as [->|Hlt|Hlt].
  - pose proof (valid_finite _ _ _ Hv'). pose proof (pow_units e' ltac:(lia)).
    rewrite <- (Zmult_compare_compat_r (Zpos m) (Zpos m') (2 ^ (e' + 1074))) by lia. done.
  - apply Z.compare_lt_iff. by eapply finite_lt.
  - apply Z.compare_gt_iff. by eapply finite_lt.
Qed.

Lemma compare_units a b : valid a = true → valid b = true → finite a → finite b →
  SFcompare a b = Some (units a ?= units b).
Proof.
  intros Ha Hb Hfa Hfb. destruct a as [s| | |s m e], b as [s'| | |s' m' e']; try done.
  all: unfold SFcompare, units, cond_Zopp; f_equal; symmetry.
  - pose proof (valid_finite _ _ _ Hb). pose proof (pow_units e' ltac:(lia)).
    destruct s'; [apply Z.compare_gt_iff|apply Z.compare_lt_iff]; nia.
  - pose proof (valid_finite _ _ _ Ha). pose proof (pow_units e ltac:(lia)).
    destruct s; [apply Z.compare_lt_iff|apply Z.compare_gt_iff]; nia.
  - pose proof (compare_magnitudes _ _ _ _ _ _ Ha Hb) as Hc.
    pose proof (valid_finite _ _ _ Ha). pose proof (valid_finite _ _ _ Hb).
    pose proof (pow_units e ltac:(lia)). pose proof (pow_units e' ltac:(lia)).
    destruct s, s'.
    + rewrite Z.compare_opp, Z.compare_antisym, Hc.
      destruct (e ?= e'); done.
    + apply Z.compare_lt_iff. nia.
    + apply Z.compare_gt_iff. nia.
    + rewrite Hc. by destruct (e ?= e').
Qed.

Lemma leb_units a b : valid a = true → valid b = true → finite a → finite b →
  SFleb a b = (units a <=? units b).
Proof.
  intros. unfold SFleb. rewrite compare_units by done.
  destruct (Z.compare_spec (units a) (units b)); symmetry;
    [apply Z.leb_le; lia|apply Z.leb_le; lia|apply Z.leb_gt; lia].
Qed.
Lemma ltb_units a b : valid a = true → valid b = true → finite a → finite b →
  SFltb a b = (units a <? units b).
Proof.
  intros. unfold SFltb. rewrite compare_units by done.
  destruct (Z.compare_spec (units a) (units b)); symmetry;
    [apply Z.ltb_ge; lia|apply Z.ltb_lt; lia|apply Z.ltb_ge; lia].
Qed.
Lemma eqb_units a b : valid a = true → valid b = true → finite a → finite b →
  SFeqb a b = (units a =? units b).
Proof.
  intros. unfold SFeqb. rewrite compare_units by done.
  destruct (Z.compare_spec (units a) (units b)); symmetry;
    [apply Z.eqb_eq; lia|apply Z.eqb_neq; lia|apply Z.eqb_neq; lia].
Qed.

(** ** Truncation *)

(** The integer part of a finite float: its units divided by one, towards 0. *)
Definition truncate (v : f64) : Z := Z.quot (units v) ONE.

Lemma ONE_pos : 0 < ONE. Proof. by apply pow2_pos. Qed.

Lemma ONE_split e : -1074 ≤ e → e < 0 → ONE = 2 ^ (e + 1074) * 2 ^ (- e).
Proof. intros. unfold ONE. rewrite <- Z.pow_add_r by lia. f_equal. lia. Qed.

Lemma cond_Zopp_quot s x y : 0 ≤ x → 0 < y → Z.quot (cond_Zopp s x) y = cond_Zopp s (x / y).
Proof.
  intros. destruct s; simpl; [rewrite Z.quot_opp_l by lia; f_equal|]; apply Z.quot_div_nonneg; lia.
Qed.

Lemma integer_part_truncate v : valid v = true → finite v → integer_part v = truncate v.
Proof.
  destruct v as [s| | |s m e]; [done|done|done|]. intros Hv _.
  pose proof (valid_finite _ _ _ Hv) as (He & _). unfold integer_part, truncate, units.
  pose proof (pow_units e ltac:(lia)). pose proof ONE_pos.
  rewrite cond_Zopp_quot by nia. f_equal. destruct (Z.leb_spec 0 e) as [Hle|Hlt].
  - rewrite Z.shiftl_mul_pow2, Z.pow_add_r by lia. fold ONE.
    by rewrite Z.mul_assoc, Z.div_mul by lia.
  - rewrite Z.shiftr_div_pow2 by lia. rewrite (ONE_split e) by lia.
    rewrite <- Z.div_div by (try apply pow2_pos; lia). by rewrite Z.div_mul by lia.
Qed.

(** Clearing the low bits of a mantissa keeps its length. *)
Lemma cleared_digits m m' k : 0 ≤ k → Z.shiftl (Z.shiftr (Zpos m) k) k = Zpos m' →
  digits2_pos m' = digits2_pos m.
Proof.
  intros Hk. rewrite Z.shiftl_mul_pow2, Z.shiftr_div_pow2 by lia. intros Hm'.
  pose proof (pow2_pos k Hk) as Hp. pose proof (digits2_spec m) as Hd.
  pose proof (digits2_spec m') as Hd'.
  pose proof (Z.div_mod (Zpos m) (2 ^ k) ltac:(lia)) as Hdm.
  pose proof (Z.mod_pos_bound (Zpos m) (2 ^ k) Hp).
  set (d := Zpos (digits2_pos m)) in *. set (d' := Zpos (digits2_pos m')) in *.
  assert (d' = d) as Heq; [|subst d d'; congruence].
  assert (k ≤ d - 1) as Hkd.
  { apply Z.lt_succ_r. replace (Z.succ (d - 1)) with d by lia.
    apply (Z.pow_lt_mono_r_iff 2); [lia|subst d; lia|].
    assert (0 < Zpos m / 2 ^ k) as Hq.
    { apply Z.nle_gt. intros Hle. pose proof (Z.mul_nonpos_nonneg _ _ Hle (Z.lt_le_incl _ _ Hp)). lia. }
    pose proof (Z.mul_le_mono_nonneg_l 1 (Zpos m / 2 ^ k) (2 ^ k) ltac:(lia) ltac:(lia)). lia. }
  assert (2 ^ (d - 1) ≤ Zpos m') as Hlow.
  { rewrite <- Hm'. replace (d - 1) with (d - 1 - k + k) in * by lia.
    rewrite Z.pow_add_r in * by lia. apply Z.mul_le_mono_nonneg_r; [lia|].
    apply Z.div_le_lower_bound; lia. }
  destruct (Z.lt_trichotomy d' d) as [Hl|[?|Hg]]; [|done|].
  - pose proof (Z.pow_le_mono_r 2 d' (d - 1) ltac:(lia) ltac:(lia)). lia.
  - pose proof (Z.pow_le_mono_r 2 d (d' - 1) ltac:(lia) ltac:(lia)). nia.
Qed.

Lemma ftrunc_spec v : valid v = true → finite v →
  valid (ftrunc v) = true ∧ finite (ftrunc v) ∧ units (ftrunc v) = truncate v * ONE.
Proof.
  destruct v as [s| | |s m e]; [done|done|done|]. intros Hv Hf.
  pose proof (integer_part_truncate _ Hv Hf) as Ht. rewrite <- Ht. clear Ht.
  pose proof (valid_finite _ _ _ Hv) as (He & _). unfold ftrunc, integer_part.
  destruct (Z.leb_spec 0 e) as [Hle|Hlt].
  - split_and!; [done..|]. unfold units. rewrite Z.shiftl_mul_pow2, Z.pow_add_r by lia.
    fold ONE. destruct s; simpl; lia.
  - destruct (Z.shiftl _ _) as [|m'|m'] eqn:Hm'.
    + split_and!; [done..|]. simpl. rewrite Z.shiftl_mul_pow2 in Hm' by lia.
      pose proof (pow2_pos (- e) ltac:(lia)).
      assert (Z.shiftr (Zpos m) (- e) = 0) as -> by nia. by destruct s.
    + pose proof (cleared_digits m m' (- e) ltac:(lia) Hm') as Hd.
      split_and!; [|done|].
      * simpl. unfold bounded, canonical_mantissa. rewrite Hd. done.
      * unfold units. rewrite <- Hm', Z.shiftl_mul_pow2, (ONE_split e) by lia.
        destruct s; simpl; lia.
    + exfalso. rewrite Z.shiftl_mul_pow2, Z.shiftr_div_pow2 in Hm' by lia.
      pose proof (pow2_pos (- e) ltac:(lia)). pose proof (Z.div_pos (Zpos m) (2 ^ (- e))). lia.
Qed.

(** ** The bounds of the integer types as floats *)

Lemma lo_float k :
  let lo := int_as_f64 (int_min k) in
  valid lo = true ∧ finite lo ∧ units lo = int_min k * ONE.
Proof. destruct k; split_and!; vm_compute; done. Qed.

(** The upper bound of a 64-bit type rounds up to the power of two. *)
Definition hi_value (k : IntKind) : Z := int_max k + (if width k =? 64 then 1 else 0).

Lemma hi_float k :
  let hi := int_as_f64 (int_max k) in
  valid hi = true ∧ finite hi ∧ units hi = hi_value k * ONE.
Proof. destruct k; split_and!; vm_compute; done. Qed.

Lemma powi2_float n : n = 7 ∨ n = 8 ∨ n = 15 ∨ n = 16 ∨ n = 31 ∨ n = 32 ∨ n = 63 ∨ n = 64 →
  valid (powi2 n) = true ∧ finite (powi2 n) ∧ units (powi2 n) = 2 ^ n * ONE.
Proof. intros Hn. repeat destruct Hn as [->|Hn]; subst; split_and!; vm_compute; done. Qed.

Lemma valid_opp v : valid (SFopp v) = valid v.
Proof. by destruct v. Qed.
Lemma finite_opp v : finite v → finite (SFopp v).
Proof. by destruct v. Qed.
Lemma units_opp v : units (SFopp v) = - units v.
Proof. destruct v as [| | |[] m e]; simpl; lia. Qed.

Lemma as_int_truncate lo hi v : lo ≤ 0 ≤ hi → valid v = true → finite v →
  as_int lo hi v = clamp (truncate v) lo hi.
Proof.
  intros Hlh Hv Hf. rewrite <- integer_part_truncate by done.
  destruct v as [s| | |s m e]; [|done..]. simpl. by rewrite clamp_id.
Qed.

Lemma truncate_ftrunc v : valid v = true → finite v → truncate (ftrunc v) = truncate v.
Proof.
  intros Hv Hf. destruct (ftrunc_spec v Hv Hf) as (_ & _ & Hu). unfold truncate at 1.
  rewrite Hu. pose proof ONE_pos. by rewrite Z.quot_mul by lia.
Qed.

Lemma clamp_low v lo hi : v ≤ lo → lo ≤ hi → clamp v lo hi = lo.
Proof. unfold clamp. intros. destruct (Z.ltb_spec v lo); [done|]. case_match; lia. Qed.
Lemma clamp_high v lo hi : hi ≤ v → lo ≤ hi → clamp v lo hi = hi.
Proof. unfold clamp. intros. repeat case_match; lia. Qed.

Lemma scaled_leb x y : (x * ONE <=? y * ONE) = (x <=? y).
Proof. pose proof ONE_pos. destruct (Z.leb_spec x y); [apply Z.leb_le|apply Z.leb_gt]; nia. Qed.
Lemma scaled_ltb x y : (x * ONE <? y * ONE) = (x <? y).
Proof. pose proof ONE_pos. destruct (Z.ltb_spec x y); [apply Z.ltb_lt|apply Z.ltb_ge]; nia. Qed.

Lemma sat_finite v k : valid v = true → finite v →
  sat_float_to_int v k = slot k (clamp (truncate v) (int_min k) (int_max k)).
Proof.
  intros Hv Hf. unfold sat_float_to_int. rewrite bounds_eq.
  destruct (lo_float k) as (Hlv & Hlf & Hlu), (hi_float k) as (Hhv & Hhf & Hhu).
  destruct (ftrunc_spec v Hv Hf) as (Htv & Htf & Htu).
  destruct (kind_bounds k) as (_ & Hus & Hmin & Hmax & _).
  assert (f_is_nan v = false) as -> by by destruct v.
  rewrite !leb_units, ltb_units, Hlu, Hhu, Htu, !scaled_leb by done.
  unfold as_i128, as_u128. rewrite !as_int_truncate, truncate_ftrunc by (done || lia).
  rewrite !sat_clamp_eq. set (T := truncate v).
  destruct (Z.leb_spec T (int_min k)).
  { by rewrite (clamp_low T), (clamp_low (int_min k)) by lia. }
  destruct (Z.leb_spec (hi_value k) T) as [Hhi|Hhi].
  { unfold hi_value in Hhi. rewrite (clamp_high T), (clamp_high (int_max k)) by (case_match; lia).
    done. }
  assert (T ≤ int_max k) by (unfold hi_value in Hhi; case_match; lia).
  rewrite (clamp_id T (int_min k)) by lia.
  rewrite low_bits_eq, narrow_eq. destruct (is_signed k) eqn:Hs.
  - by rewrite clamp_id by lia.
  - destruct (Hus eq_refl) as [Hz _].
    rewrite (proj2 (Z.ltb_ge (T * ONE) (units (S754_zero false)))).
    + by rewrite clamp_id by lia.
    + simpl. pose proof ONE_pos. nia.
Qed.

(** Casting a float to an integer with [trunc_as] or [sat_as] gives the
    integer part of the value clamped to the target's range; NaN gives 0 and the
    infinities the nearer bound. *)
Theorem float_to_int_sat_exact k bits :
  let v := f64_from_bits bits in
  let r := match v with
           | S754_nan => 0
           | S754_infinity s => slot k (if s then int_min k else int_max k)
           | _ => slot k (clamp (truncate v) (int_min k) (int_max k))
           end in
  conv_trunc bits (Float F64) (Int k) = Some r ∧ conv_sat bits (Float F64) (Int k) = Some r.
Proof.
  intros v r. pose proof (from_bits_valid bits) as Hv. fold v in Hv.
  assert (sat_float_to_int v k = r) as Hr; [|by split; simpl; rewrite <- Hr].
  subst r. clearbody v.
  destruct v as [s|s| |s m e]; [by apply sat_finite| |done|by apply sat_finite].
  unfold sat_float_to_int. rewrite bounds_eq. rewrite !sat_clamp_eq.
  destruct (kind_bounds k) as (_ & _ & Hmin & Hmax & _).
  destruct k, s; vm_compute; done.
Qed.

(** [as] from a float to an integer traps unless the float is an integer
    value of the target type, and then gives that value: NaN, the infinities and
    every fraction trap. *)
Theorem float_to_int_checked_exact k bits :
  let v := f64_from_bits bits in
  conv_checked bits (Float F64) (Int k) =
  match v with
  | S754_nan | S754_infinity _ => Err CheckedConversion
  | _ =>
      if (units v =? truncate v * ONE) && representable k (truncate v)
      then Ok (slot k (truncate v)) else Err CheckedConversion
  end.
Proof.
  intros v. pose proof (from_bits_valid bits) as Hv. fold v in Hv.
  unfold conv_checked, float_from_bits. fold v. clearbody v.
  assert (finite v →
    (if negb (SFeqb (ftrunc v) v) then Err CheckedConversion
     else ok_or (float_bits_in_int_range v k) CheckedConversion) =
    if (units v =? truncate v * ONE) && representable k (truncate v)
    then Ok (slot k (truncate v)) else Err CheckedConversion) as Hfin;
    [|destruct v; [by apply Hfin|done|done|by apply Hfin]].
  intros Hf. destruct (ftrunc_spec v Hv Hf) as (Htv & Htf & Htu).
  rewrite eqb_units, Htu, Z.eqb_sym by done.
  destruct (Z.eqb_spec (units v) (truncate v * ONE)) as [Hint|]; simpl; [|done].
  pose proof (kind_bounds k) as (Hsg & Hus & Hmin & Hmax & _).
  unfold float_bits_in_int_range, representable, as_i128, as_u128.
  rewrite !as_int_truncate, low_bits_eq, narrow_eq by (done || lia).
  destruct (powi2_float (width k - 1)) as (H1v & H1f & H1u); [destruct k; simpl; lia|].
  destruct (powi2_float (width k)) as (H2v & H2f & H2u); [destruct k; simpl; lia|].
  rewrite !ltb_units, !leb_units, units_opp by (rewrite ?valid_opp; auto using finite_opp; done).
  rewrite H1u, H2u, Hint, <- Z.mul_opp_l, !scaled_ltb, !scaled_leb. set (T := truncate v) in *.
  destruct (is_signed k) eqn:Hs.
  - destruct (Hsg eq_refl) as [-> Hm]. rewrite Hm in *.
    destruct (Z.ltb_spec T (- 2 ^ (width k - 1))), (Z.leb_spec (2 ^ (width k - 1)) T),
      (Z.leb_spec (- 2 ^ (width k - 1)) T), (Z.leb_spec T (2 ^ (width k - 1) - 1));
      simpl; try lia; try done.
    rewrite clamp_id; [done|]. lia.
  - destruct (Hus eq_refl) as [-> Hm]. rewrite Hm in *.
    change (units (S754_zero false)) with (0 * ONE). rewrite scaled_ltb.
    destruct (Z.ltb_spec T 0), (Z.leb_spec (2 ^ width k) T), (Z.leb_spec 0 T),
      (Z.leb_spec T (2 ^ width k - 1)); simpl; try lia; try done.
    rewrite clamp_id; [done|]. lia.
Qed.

(** ** The wrapping cast *)

(** [wrap_as] loses a value [trunc_as] keeps: of [-1.0] to a 64-bit type
    the code adds [2^64] in floating point, which rounds to [2^64], and answers
    0, although -1 is in range of [i64]; the 32-bit types are not affected. *)
Theorem wrap_as_minus_one_is_zero :
  let minus_one := 0xbff0000000000000 in
  units (f64_from_bits minus_one) = -1 * ONE ∧
  conv_trunc minus_one (Float F64) (Int I64) = Some (slot I64 (-1)) ∧
  conv_wrap minus_one (Float F64) (Int I64) = Some (slot I64 0) ∧
  conv_wrap minus_one (Float F64) (Int U64) = Some (slot U64 0) ∧
  conv_wrap minus_one (Float F64) (Int I32) = Some (slot I32 (-1)).
Proof. vm_compute. done. Qed.

(** [as] from an integer to a float never traps, even where the value is
    not exactly representable: [2^53 + 1] becomes [2^53]. *)
Theorem int_to_float_never_traps bits fk tk :
  (∃ r, conv_checked bits (Int fk) (Float tk) = Ok r) ∧
  ∃ r, conv_checked (2 ^ 53 + 1) (Int I64) (Float F64) = Ok r ∧
    units (f64_from_bits r) = 2 ^ 53 * ONE.
Proof. split; [by eexists|]. eexists. split; [reflexivity|]. vm_compute. done. Qed.
