(* ===== verification/InterpReduce.v ===== *)
(** * Executing the reduce tree

    fors-interp/src/reduce.rs: the combining functions a [reduce_tree]
    instruction can name, applied by the normative tree of [Reduce].  A slot is
    its 64 bits; the bookkeeping [Slot::val] gives every result is constant.
    [frem]'s model is partial, so [apply] answers [None] where it would. *)

From S2P Require Import Prelude InterpArith InterpArithProps InterpFrem InterpFloat Reduce ReduceProps.

Inductive IntOp : Type := IAdd | ISub | IMul | IDiv | IRem.
Inductive FloatOp : Type := FAdd | FSub | FMul | FDiv | FRem.
Inductive ReduceOp : Type :=
  | RInt (op : IntOp) (k : IntKind)
  | RFloat (op : FloatOp) (k : FloatKind).

Definition int_op_name (op : IntOp) : string :=
  match op with
  | IAdd => "add" | ISub => "sub" | IMul => "mul" | IDiv => "div" | IRem => "rem"
  end.

(** The strings matched, in the order of the arms. *)
Definition resolve (name : string) (kind : NumKind) : option ReduceOp :=
  match kind with
  | Int k =>
      op ← if bool_decide (name = "add") then Some IAdd
           else if bool_decide (name = "sub") then Some ISub
           else if bool_decide (name = "mul") then Some IMul
           else if bool_decide (name = "div") then Some IDiv
           else if bool_decide (name = "rem") then Some IRem else None;
      Some (RInt op k)
  | Float k =>
      op ← if bool_decide (name = "fadd") then Some FAdd
           else if bool_decide (name = "fsub") then Some FSub
           else if bool_decide (name = "fmul") then Some FMul
           else if bool_decide (name = "fdiv") then Some FDiv
           else if bool_decide (name = "frem") then Some FRem else None;
      Some (RFloat op k)
  end.

Definition apply (o : ReduceOp) (a b : Z) : res (result TrapKind Z) :=
  match o with
  | RInt op k => Done (int_binop (int_op_name op) Trap a b k)
  | RFloat op k =>
      let x := float_from_bits k a in
      let y := float_from_bits k b in
      match op with
      | FAdd => Done (Ok (fadd x y k))
      | FSub => Done (Ok (fsub x y k))
      | FMul => Done (Ok (fmul x y k))
      | FDiv => Done (Ok (fdiv x y k))
      | FRem =>
          match (match k with F32 => frem_f32 (f32_to_bits (to_f32 x)) (f32_to_bits (to_f32 y))
                            | F64 => frem_f64 (f64_to_bits x) (f64_to_bits y) end) with
          | Some r => Done (Ok r)
          | None => Panic
          end
      end
  end.

(** The closure of [run], which captures nothing. *)
Definition apply_op (o : ReduceOp) (a b : Z) : call unit TrapKind Z := λ s, (s, apply o a b).

Definition run (es : list Z) (b l : nat) (o : ReduceOp) : res (result TrapKind (option Z)) :=
  tree ← reduce_tree (length es) b l;
  (reduce_eval es (apply_op o) tree ()).2.

(** A reduce on an operation that is not a remainder of floats runs the closure
    of the theorems. *)
Definition pure_apply (o : ReduceOp) (a b : Z) : result TrapKind Z :=
  match apply o a b with Done r => r | _ => Ok 0 end.

Lemma apply_op_closure o : (∀ k, o ≠ RFloat FRem k) →
  apply_op o = closure (pure_apply o) id.
Proof.
  intros Ho. unfold apply_op, closure, pure_apply.
  destruct o as [op k|[] k]; try reflexivity. by destruct (Ho k).
Qed.

Definition eval_explicit (es : list Z) (b l : nat) (o : ReduceOp) :
    res (result TrapKind (option Z)) :=
  t ← unrolled (length es) b l;
  match t with
  | None => Done (Ok None)
  | Some e => match (eval_expr e es (apply_op o) ()).2 with
              | Done r => Done (Some <$> r)
              | Panic => Panic
              | OutOfFuel => OutOfFuel
              end
  end.

(** The interpreter's reduce returns without panicking, with [None] exactly
    on no elements; it succeeds exactly when evaluating the explicit tree does,
    with the same value. *)
Theorem run_explicit es b l o : (0 < b)%nat → (0 < l)%nat →
  Z.of_nat (length es + l) ≤ 2 ^ 32 → (∀ k, o ≠ RFloat FRem k) →
  ∃ r r', run es b l o = Done r ∧ eval_explicit es b l o = Done r' ∧
    (r = Ok None ↔ es = []) ∧ ∀ v, r = Ok v ↔ r' = Ok v.
Proof.
  intros Hb Hl Hf Ho. unfold run, eval_explicit. rewrite (apply_op_closure o Ho).
  destruct (forms_agree (pure_apply o) id es b l () Hb Hl Hf) as (t & u & -> & Hu & Hrun).
  destruct (unrolled_spec (length es) b l Hb Hl Hf) as (u' & Hu' & _ & Hnone & _).
  assert (u' = u) as -> by congruence. rewrite Hu. simpl.
  destruct (reduce_eval es _ t ()) as [s' [| |[v|e]]]; [done|done| |].
  - destruct Hrun as [_ Hv]. destruct v as [v|], u as [x|]; try done.
    + rewrite Hv. simpl. exists (Ok (Some v)), (Ok (Some v)). split_and!; [done..| |done].
      split; [done|]. intros ->. by destruct Hnone as [_ Hnone]; specialize (Hnone eq_refl).
    + subst es. exists (Ok None), (Ok None). by split_and!.
  - destruct Hrun as (x & s'' & err & -> & ->). simpl.
    exists (Err e), (Err err). split_and!; [done..| |by intros]. split; [done|].
    intros ->. by destruct Hnone as [_ Hnone]; specialize (Hnone eq_refl).
Qed.

Lemma run_explicit_witness : ∃ r r',
  run [10; 3; 2] 256 8 (RInt ISub I32) = Done r ∧
  eval_explicit [10; 3; 2] 256 8 (RInt ISub I32) = Done r' ∧
  (r = Ok None ↔ [10; 3; 2] = []) ∧ ∀ v, r = Ok v ↔ r' = Ok v.
Proof. apply run_explicit; [lia|lia|simpl; lia|done]. Defined.

(** Which trap a failing reduce reports depends on the form: the run-time
    tree goes level by level and the explicit one depth first, so dividing these
    [i8]s traps on the zero divisor in one form and on [MIN / -1] in the other. *)
Theorem reduce_trap_order :
  let es := [slot I8 (-128); 1; slot I8 (-1); 1; 5; 0; 1; 1] in
  run es REDUCE_BLOCK REDUCE_LANES (RInt IDiv I8) = Done (Err DivZero) ∧
  eval_explicit es REDUCE_BLOCK REDUCE_LANES (RInt IDiv I8) = Done (Err Overflow).
Proof. vm_compute. done. Qed.

(** The tree is not the fold on floats: [1.0, 1e16, -1e16, 1.0] sums to 0. *)
Example float_tree_sum :
  run [0x3ff0000000000000; 0x4341c37937e08000; 0xc341c37937e08000; 0x3ff0000000000000]
    REDUCE_BLOCK REDUCE_LANES (RFloat FAdd F64) = Done (Ok (Some 0)).
Proof. vm_compute. reflexivity. Qed.
