(* ===== verification/Layout.v ===== *)
(** * Type layout

    fors-layout: sizes, alignments, field offsets and enum discriminants
    (src/layout.rs, src/ty.rs, src/target.rs, src/mono.rs), with the host's
    [usize] of 64 bits.  [natural] is the rule in unbounded arithmetic. *)

From S2P Require Import Prelude.
Local Open Scope Z_scope.

(** ** Data *)

Definition USIZE_MAX : Z := 2 ^ 64 - 1.
Definition MEM_MAX_ALIGN : Z := 16.

(** A variant carries a type or nothing. *)
Record variant_of (T : Type) : Type := MkVariant { payload : option T }.
Arguments MkVariant {T} payload.
Arguments payload {T} _.

#[local] Unset Elimination Schemes.
Inductive Ty : Type :=
  | Unit | Never | Bool | I8 | I16 | I32 | I64 | U8 | U16 | U32 | U64 | Isize | Usize
  | F32 | F64 | Ptr | SliceView
  | Array (elem : Ty) (len : Z)
  | Tuple (fields : list Ty)
  | Struct (fields : list Ty)
  | Enum (variants : list (variant_of Ty)).
#[local] Set Elimination Schemes.
Definition Variant : Type := variant_of Ty.

Module Variant.
Definition unit : Variant := MkVariant None.
Definition of_ (t : Ty) : Variant := MkVariant (Some t).
End Variant.

Module Target.
Record Target : Type := mk { ptr_bits : Z }.
Definition new (bits : Z) : option Target :=
  if (bits =? 32) || (bits =? 64) then Some (mk bits) else None.
Definition ptr_bytes (t : Target) : Z := ptr_bits t / 8.
Definition AARCH64_APPLE_DARWIN : Target := mk 64.
Definition X86_64_UNKNOWN : Target := mk 64.
Definition wf (t : Target) : Prop := ptr_bits t = 32 ∨ ptr_bits t = 64.
End Target.
Abbreviation Target := Target.Target.

Definition is_scalar (t : Ty) : bool :=
  match t with
  | Bool | I8 | I16 | I32 | I64 | U8 | U16 | U32 | U64 | Isize | Usize | F32 | F64 | Ptr => true
  | _ => false
  end.

Inductive LayoutError : Type := TooLarge | UnsupportedAlign.
Record Layout : Type := MkLayout { size : Z; align : Z }.
Record StructLayout : Type := MkStructLayout { s_layout : Layout; offsets : list Z }.
Record EnumLayout : Type := MkEnumLayout {
  e_layout : Layout; e_discriminant_size : Z; e_payload_offset : Z }.

(** ** Checked and saturating arithmetic on [usize] *)

Definition checked_add (a b : Z) : option Z := if a + b <=? USIZE_MAX then Some (a + b) else None.
Definition checked_mul (a b : Z) : option Z := if a * b <=? USIZE_MAX then Some (a * b) else None.
Definition sat_add (a b : Z) : Z := Z.min (a + b) USIZE_MAX.
Definition saturating_mul (a b : Z) : Z := Z.min (a * b) USIZE_MAX.

(** [Layout::array] *)
Definition layout_array (l : Layout) (n : Z) : result LayoutError Layout :=
  size' ← ok_or (checked_mul (size l) n) TooLarge;
  Ok (MkLayout size' (align l)).

(** [usize::is_power_of_two] *)
Definition is_power_of_two (n : Z) : bool := (0 <? n) && (Z.land n (n - 1) =? 0).
Definition validate_align (a : Z) : result LayoutError unit :=
  if is_power_of_two a && (a <=? MEM_MAX_ALIGN) then Ok tt else Err UnsupportedAlign.

Definition align_up (off a : Z) : Z :=
  let mask := a - 1 in
  match checked_add off mask with
  | Some s => Z.land s (USIZE_MAX - mask)
  | None => USIZE_MAX
  end.

(** ** The rule *)

Definition discriminant_size (variant_count : Z) : Z :=
  if variant_count <=? 1 then 0
  else if variant_count <=? 256 then 1
  else if variant_count <=? 65536 then 2
  else if variant_count <=? 2 ^ 32 then 4
  else 8.

Section with_layout_of.
(** [layout_of] on the target, of which these two are the aggregate cases. *)
Variable layout_of : Ty → Layout.

(** One turn of the loop over the fields. *)
Definition struct_step (st : list Z * Z * Z) (f : Ty) : list Z * Z * Z :=
  let '(offsets, off, max_align) := st in
  let l := layout_of f in
  let off := align_up off (align l) in
  (offsets ++ [off], sat_add off (size l), Z.max max_align (align l)).
Definition struct_layout_with (fields : list Ty) : StructLayout :=
  let '(offsets, off, max_align) := foldl struct_step ([], 0, 1) fields in
  MkStructLayout (MkLayout (align_up off max_align) max_align) offsets.

Definition enum_step (st : Z * Z) (v : Variant) : Z * Z :=
  let '(payload_size, payload_align) := st in
  match payload v with
  | Some p =>
      let l := layout_of p in (Z.max payload_size (size l), Z.max payload_align (align l))
  | None => (payload_size, payload_align)
  end.
Definition enum_layout_with (variants : list Variant) : EnumLayout :=
  let disc := discriminant_size (Z.of_nat (length variants)) in
  let disc_align := Z.max disc 1 in
  let '(payload_size, payload_align) := foldl enum_step (0, 1) variants in
  let align := Z.max disc_align payload_align in
  let payload_offset := align_up disc payload_align in
  MkEnumLayout (MkLayout (align_up (sat_add payload_offset payload_size) align) align)
    disc payload_offset.
End with_layout_of.

Fixpoint layout_of (t : Ty) (target : Target) : Layout :=
  match t with
  | Unit | Never => MkLayout 0 1
  | Bool | I8 | U8 => MkLayout 1 1
  | I16 | U16 => MkLayout 2 2
  | I32 | U32 | F32 => MkLayout 4 4
  | I64 | U64 | F64 => MkLayout 8 8
  | Isize | Usize | Ptr => let w := Target.ptr_bytes target in MkLayout w w
  | SliceView => let w := Target.ptr_bytes target in MkLayout (sat_add w w) w
  | Array elem len =>
      let e := layout_of elem target in MkLayout (saturating_mul (size e) len) (align e)
  | Tuple fields | Struct fields =>
      s_layout (struct_layout_with (λ f, layout_of f target) fields)
  | Enum variants => e_layout (enum_layout_with (λ f, layout_of f target) variants)
  end.

Definition size_of (t : Ty) (target : Target) : Z := size (layout_of t target).
Definition align_of (t : Ty) (target : Target) : Z := align (layout_of t target).
Definition struct_layout_of (fields : list Ty) (target : Target) : StructLayout :=
  struct_layout_with (λ f, layout_of f target) fields.
Definition enum_layout_of (variants : list Variant) (target : Target) : EnumLayout :=
  enum_layout_with (λ f, layout_of f target) variants.

(** ** Discriminants *)

Inductive panic : Type := Panicked.

Definition to_le_bytes (v : Z) : list Z := (λ i, wrap 8 (Z.shiftr v (8 * i))) <$> [0; 1; 2; 3].
Fixpoint from_le_bytes (bytes : list Z) : Z :=
  match bytes with [] => 0 | b :: bytes => b + 2 ^ 8 * from_le_bytes bytes end.

Definition encode_discriminant (discriminant variant_count : Z) :
    result panic (option (list Z)) :=
  let n := discriminant_size variant_count in
  if (variant_count =? 0) || (variant_count <=? discriminant) then Ok None
  else
    let bytes := to_le_bytes discriminant in
    (* [bytes[..n]] *)
    if Z.of_nat (length bytes) <? n then Err Panicked else Ok (Some (take (Z.to_nat n) bytes)).

Definition decode_discriminant (bytes : list Z) (variant_count : Z) : option Z :=
  let n := discriminant_size variant_count in
  if negb (Z.of_nat (length bytes) =? n) || (variant_count =? 0) || (4 <? n) then None
  else
    let v := from_le_bytes (bytes ++ replicate (4 - length bytes) 0) in
    if v <? variant_count then Some v else None.

(** ** Monomorphisation, the size half *)

Definition MONOMORPHIZE_SIZE_MAX : Z := 16.
Definition is_scalar_le16 (t : Ty) (target : Target) : bool :=
  is_scalar t && (size_of t target <=? MONOMORPHIZE_SIZE_MAX).
Definition shape_monomorphized (scalar : bool) (size_bytes : Z) : bool :=
  scalar || (size_bytes <=? MONOMORPHIZE_SIZE_MAX).

(** * The layout rule is the natural one

    [natural] is the declaration-order, natural-alignment rule in unbounded
    arithmetic.  The code computes it, capped at [usize::MAX]; the placement of
    fields and payloads follows from the reference. *)

(** ** The reference *)

(** The first multiple of [a] at or after [off]. *)
Definition round_up (a off : Z) : Z := a * ((off + a - 1) / a).

(** A sequence of [(size, align)] laid out from [off]: the offsets, and where
    it ends. *)
Fixpoint place (off : Z) (fs : list (Z * Z)) : list Z :=
  match fs with
  | [] => []
  | (s, a) :: fs => round_up a off :: place (round_up a off + s) fs
  end.
Fixpoint end_of (off : Z) (fs : list (Z * Z)) : Z :=
  match fs with [] => off | (s, a) :: fs => end_of (round_up a off + s) fs end.

Definition max_size (fs : list (Z * Z)) : Z := foldr (λ f m, Z.max (fst f) m) 0 fs.
Definition max_align (fs : list (Z * Z)) : Z := foldr (λ f m, Z.max (snd f) m) 1 fs.

Definition natural_struct (fs : list (Z * Z)) : Z * Z :=
  (round_up (max_align fs) (end_of 0 fs), max_align fs).

(** Tag, padding, the largest payload, padding. *)
Definition natural_enum (count : Z) (ps : list (Z * Z)) : Z * Z :=
  let tag := discriminant_size count in
  let a := Z.max (Z.max tag 1) (max_align ps) in
  (round_up a (round_up (max_align ps) tag + max_size ps), a).

Fixpoint natural (target : Target) (t : Ty) : Z * Z :=
  match t with
  | Unit | Never => (0, 1)
  | Bool | I8 | U8 => (1, 1)
  | I16 | U16 => (2, 2)
  | I32 | U32 | F32 => (4, 4)
  | I64 | U64 | F64 => (8, 8)
  | Isize | Usize | Ptr => (Target.ptr_bytes target, Target.ptr_bytes target)
  | SliceView => (2 * Target.ptr_bytes target, Target.ptr_bytes target)
  | Array elem len => let '(s, a) := natural target elem in (s * len, a)
  | Tuple fs | Struct fs => natural_struct (natural target <$> fs)
  | Enum vs =>
      natural_enum (Z.of_nat (length vs))
        (omap (λ v, match payload v with Some p => Some (natural target p) | None => None end) vs)
  end.

(** Array lengths are [usize]s. *)
Fixpoint ty_wf (t : Ty) : bool :=
  match t with
  | Array elem len => (0 <=? len) && (len <=? USIZE_MAX) && ty_wf elem
  | Tuple fs | Struct fs => forallb ty_wf fs
  | Enum vs => forallb (λ v, match payload v with Some p => ty_wf p | None => true end) vs
  | _ => true
  end.

(** ** Induction on types *)

Definition is_leaf (t : Ty) : bool :=
  match t with Array _ _ | Tuple _ | Struct _ | Enum _ => false | _ => true end.

Section Ty_induction.
Context (P : Ty → Prop)
  (Hleaf : ∀ t, is_leaf t = true → P t)
  (Harray : ∀ t n, P t → P (Array t n))
  (Htuple : ∀ fs, Forall P fs → P (Tuple fs))
  (Hstruct : ∀ fs, Forall P fs → P (Struct fs))
  (Henum : ∀ vs, Forall (λ v, ∀ p, payload v = Some p → P p) vs → P (Enum vs)).

Fixpoint Ty_rule (t : Ty) : P t.
Proof using Hleaf Harray Htuple Hstruct Henum.
  assert (∀ fs, Forall P fs) as Hall.
  { fix IH 1. intros [|f fs]; constructor; [apply Ty_rule|apply IH]. }
  destruct t as [| | | | | | | | | | | | | | | | |t n|fs|fs|vs]; try (by apply Hleaf).
  - apply Harray, Ty_rule.
  - apply Htuple, Hall.
  - apply Hstruct, Hall.
  - apply Henum. clear Hall. revert vs. fix IH 1. intros [|[[p|]] vs]; constructor; try apply IH.
    + simpl. intros p' [= <-]. apply Ty_rule.
    + simpl. intros p' [=].
Qed.
End Ty_induction.

(** ** Rounding *)

Definition good_align (a : Z) : Prop := a = 1 ∨ a = 2 ∨ a = 4 ∨ a = 8.

Lemma good_align_max a b : good_align a → good_align b → good_align (Z.max a b).
Proof. unfold good_align. lia. Qed.

Lemma round_up_spec a off : 0 < a → off ≤ round_up a off < off + a ∧ (a | round_up a off).
Proof.
  intros Ha. unfold round_up. pose proof (Z.div_mod (off + a - 1) a ltac:(lia)).
  pose proof (Z.mod_pos_bound (off + a - 1) a Ha). split; [lia|]. apply Z.divide_factor_l.
Qed.

Lemma clear_low s k :
  0 ≤ k ≤ 64 → unsigned 64 s → Z.land s (USIZE_MAX - (2 ^ k - 1)) = 2 ^ k * (s / 2 ^ k).
Proof.
  intros Hk Hs. pose proof (pow2_pos k ltac:(lia)).
  assert (USIZE_MAX - (2 ^ k - 1) = Z.shiftl (Z.ones (64 - k)) k) as ->.
  { rewrite Z.shiftl_mul_pow2, Z.ones_equiv by lia. unfold USIZE_MAX.
    replace 64 with ((64 - k) + k) at 1 by lia. rewrite Z.pow_add_r by lia. lia. }
  rewrite (Z.mul_comm (2 ^ k)), <- Z.shiftl_mul_pow2, <- Z.shiftr_div_pow2 by lia.
  apply Z.bits_inj'. intros i Hi. rewrite Z.land_spec, !Z.shiftl_spec by done.
  destruct (Z.ltb_spec i k).
  { rewrite !(Z.testbit_neg_r _ (i - k)) by lia. apply andb_false_r. }
  rewrite Z.shiftr_spec, Z.sub_add, Z.testbit_ones_nonneg by lia.
  destruct (Z.ltb_spec (i - k) (64 - k)); [apply andb_true_r|]. rewrite andb_false_r.
  rewrite <- (wrap_small 64 s Hs). symmetry. apply Z.mod_pow2_bits_high. lia.
Qed.

Lemma align_up_capped a off :
  good_align a → 0 ≤ off → align_up (Z.min USIZE_MAX off) a = Z.min USIZE_MAX (round_up a off).
Proof.
  intros Ha Hoff.
  assert (∃ k, 0 ≤ k ≤ 3 ∧ a = 2 ^ k) as (k & Hk & ->).
  { destruct Ha as [->|[->|[->| ->]]]; [exists 0|exists 1|exists 2|exists 3]; lia. }
  pose proof (pow2_pos k ltac:(lia)) as Hp. pose proof (Z.pow_le_mono_r 2 k 3 ltac:(lia) ltac:(lia)).
  pose proof (round_up_spec (2 ^ k) off Hp) as [Hr [c Hc]].
  assert (2 ^ 64 = 2 ^ (64 - k) * 2 ^ k) as H64 by (rewrite <- Z.pow_add_r by lia; f_equal; lia).
  unfold align_up, checked_add. unfold USIZE_MAX at 1 2 3.
  destruct (Z.leb_spec (Z.min (2 ^ 64 - 1) off + (2 ^ k - 1)) (2 ^ 64 - 1)) as [Hle|Hgt].
  - rewrite clear_low by (unfold unsigned; lia).
    destruct (Z.min_spec (2 ^ 64 - 1) off) as [[Hlt Hmin]|[_ Hmin]]; rewrite Hmin in *.
    + assert (2 ^ k = 1) as H1 by lia. rewrite H1, Z.div_1_r in *. unfold USIZE_MAX. lia.
    + fold (round_up (2 ^ k) off). unfold round_up in *.
      replace (off + (2 ^ k - 1)) with (off + 2 ^ k - 1) by lia.
      pose proof (Z.mul_div_le (off + 2 ^ k - 1) (2 ^ k) Hp). unfold USIZE_MAX. lia.
  - assert (2 ^ (64 - k) ≤ c) as Hcb by nia. unfold USIZE_MAX. nia.
Qed.

Lemma sat_add_capped a b :
  0 ≤ a → 0 ≤ b → sat_add (Z.min USIZE_MAX a) (Z.min USIZE_MAX b) = Z.min USIZE_MAX (a + b).
Proof. unfold sat_add, USIZE_MAX. lia. Qed.

Lemma saturating_mul_capped a n :
  0 ≤ a → 0 ≤ n ≤ USIZE_MAX → saturating_mul (Z.min USIZE_MAX a) n = Z.min USIZE_MAX (a * n).
Proof.
  intros Ha Hn. unfold saturating_mul. destruct (Z.min_spec USIZE_MAX a) as [[? ->]|[? ->]]; [|lia].
  destruct (decide (n = 0)) as [->|]; [unfold USIZE_MAX; lia|]. unfold USIZE_MAX in *. nia.
Qed.

(** ** The loops of the code *)

(** A layout is a natural one, capped. *)
Definition capped (l : Layout) (n : Z * Z) : Prop :=
  l = MkLayout (Z.min USIZE_MAX (fst n)) (snd n) ∧ 0 ≤ fst n ∧ good_align (snd n) ∧ (snd n | fst n).

Lemma round_up_nonneg a off : good_align a → 0 ≤ off → 0 ≤ round_up a off.
Proof. intros Ha Ho. pose proof (round_up_spec a off). unfold good_align in Ha. lia. Qed.

Lemma max_align_good ns : Forall (good_align ∘ snd) ns → good_align (max_align ns).
Proof. induction 1; simpl; [by left|by apply good_align_max]. Qed.

Lemma end_of_nonneg off ns :
  0 ≤ off → Forall (λ n, 0 ≤ fst n ∧ good_align (snd n)) ns → 0 ≤ end_of off ns.
Proof.
  intros Ho H. revert off Ho. induction H as [|[s a] ns [Hs Ha] _ IH]; intros off Ho; simpl; [done|].
  apply IH. pose proof (round_up_nonneg a off Ha Ho). simpl in Hs. lia.
Qed.

Lemma struct_loop L fields ns os off m :
  Forall2 (λ f n, capped (L f) n) fields ns → 0 ≤ off → 1 ≤ m →
  foldl (struct_step L) (os, Z.min USIZE_MAX off, m) fields =
    (os ++ (Z.min USIZE_MAX <$> place off ns), Z.min USIZE_MAX (end_of off ns),
     Z.max m (max_align ns)).
Proof.
  intros H. revert os off m.
  induction H as [|f [s a] fs ns (Hl & Hs & Ha & _) _ IH]; intros os off m Ho Hm; simpl.
  { by rewrite app_nil_r, Z.max_l by lia. }
  simpl in *. rewrite Hl. simpl. rewrite align_up_capped by done.
  pose proof (round_up_nonneg a off Ha Ho).
  rewrite sat_add_capped, IH by lia.
  by rewrite <- app_assoc, <- Z.max_assoc.
Qed.

Lemma capped_parts {A} (L : A → Layout) fs ns :
  Forall2 (λ f n, capped (L f) n) fs ns → Forall (λ n, 0 ≤ fst n ∧ good_align (snd n)) ns.
Proof. induction 1 as [|f n fs ns (? & ? & ? & ?) _ IH]; constructor; done. Qed.

Lemma max_align_ge ns : 1 ≤ max_align ns.
Proof. induction ns; simpl; lia. Qed.

Lemma struct_capped L fields ns :
  Forall2 (λ f n, capped (L f) n) fields ns →
  capped (s_layout (struct_layout_with L fields)) (natural_struct ns) ∧
  offsets (struct_layout_with L fields) = Z.min USIZE_MAX <$> place 0 ns.
Proof.
  intros H. unfold struct_layout_with.
  pose proof (struct_loop L fields ns [] 0 1 H ltac:(lia) ltac:(lia)) as Hloop.
  change (Z.min USIZE_MAX 0) with 0 in Hloop. rewrite Hloop. clear Hloop.
  pose proof (capped_parts _ _ _ H) as Hp. pose proof (max_align_ge ns).
  assert (good_align (max_align ns)) as Hg
    by (apply max_align_good; eapply Forall_impl; [exact Hp|]; intros ? [??]; done).
  pose proof (end_of_nonneg 0 ns ltac:(lia) Hp). rewrite Z.max_r by done.
  rewrite align_up_capped by done. simpl. split; [|done].
  split_and!; [done|by apply round_up_nonneg|done|].
  apply round_up_spec. unfold good_align in Hg. lia.
Qed.

Lemma enum_loop L (vs : list Variant) ns s a :
  Forall2 (λ p n, capped (L p) n) (omap payload vs) ns → 0 ≤ s → 1 ≤ a →
  foldl (enum_step L) (Z.min USIZE_MAX s, a) vs =
    (Z.min USIZE_MAX (Z.max s (max_size ns)), Z.max a (max_align ns)).
Proof.
  intros H. revert ns s a H. induction vs as [|[[p|]] vs IH]; intros ns s a H Hs Ha; simpl in *.
  - inversion H. simpl. f_equal; lia.
  - inversion H as [|? [s' a'] ? ns' (Hl & Hs' & Ha' & _) Hrest]; subst. rewrite Hl. simpl in *.
    assert (1 ≤ a') by (unfold good_align in Ha'; lia).
    assert (Z.max (Z.min USIZE_MAX s) (Z.min USIZE_MAX s') = Z.min USIZE_MAX (Z.max s s')) as -> by lia.
    rewrite (IH ns') by (done || lia). f_equal; lia.
  - by apply IH.
Qed.

Lemma discriminant_size_cases n :
  discriminant_size n = 0 ∨ good_align (discriminant_size n).
Proof. unfold discriminant_size, good_align. repeat case_match; lia. Qed.

Lemma max_size_nonneg ns : 0 ≤ max_size ns.
Proof. induction ns; simpl; lia. Qed.

Lemma enum_capped L (vs : list Variant) ns :
  Forall2 (λ p n, capped (L p) n) (omap payload vs) ns →
  let e := enum_layout_with L vs in
  capped (e_layout e) (natural_enum (Z.of_nat (length vs)) ns) ∧
  e_discriminant_size e = discriminant_size (Z.of_nat (length vs)) ∧
  e_payload_offset e = round_up (max_align ns) (e_discriminant_size e).
Proof.
  intros H. unfold enum_layout_with.
  change (0, 1) with (Z.min USIZE_MAX 0, 1). rewrite (enum_loop L vs ns 0 1 H) by lia.
  pose proof (capped_parts _ _ _ H) as Hp. pose proof (max_align_ge ns). pose proof (max_size_nonneg ns).
  assert (good_align (max_align ns)) as Hg
    by (apply max_align_good; eapply Forall_impl; [exact Hp|]; intros ? [??]; done).
  rewrite !Z.max_r by done. set (d := discriminant_size (Z.of_nat (length vs))).
  assert (d = 0 ∨ good_align d) as Hd by apply discriminant_size_cases.
  assert (0 ≤ d ≤ 8) as Hdr by (unfold good_align in Hd; lia).
  assert (good_align (Z.max (Z.max d 1) (max_align ns))) as Hga.
  { unfold good_align in *. lia. }
  assert (align_up d (max_align ns) = round_up (max_align ns) d) as Hpo.
  { pose proof (align_up_capped (max_align ns) d Hg ltac:(lia)) as Hc.
    pose proof (round_up_spec (max_align ns) d ltac:(lia)) as [? _].
    rewrite !Z.min_r in Hc by (unfold USIZE_MAX, good_align in *; lia). done. }
  assert (0 ≤ round_up (max_align ns) d) by (apply round_up_nonneg; [done|lia]).
  cbn [e_layout e_discriminant_size e_payload_offset]. fold d. rewrite Hpo. split; [|done].
  replace (sat_add (round_up (max_align ns) d) (Z.min USIZE_MAX (max_size ns)))
    with (Z.min USIZE_MAX (round_up (max_align ns) d + max_size ns))
    by (unfold sat_add, USIZE_MAX; lia).
  rewrite align_up_capped by (done || lia). unfold natural_enum. fold d.
  split_and!; simpl; [done|apply round_up_nonneg; [done|lia]|done|].
  apply round_up_spec. unfold good_align in Hga. lia.
Qed.

Lemma forallb_elem {A} (p : A → bool) l x : forallb p l = true → x ∈ l → p x = true.
Proof. intros H Hx. apply (proj1 (forallb_forall p l) H). by apply list_elem_of_In. Qed.

Lemma layout_capped target t :
  Target.wf target → ty_wf t = true → capped (layout_of t target) (natural target t).
Proof.
  intros Ht. assert (Target.ptr_bytes target = 4 ∨ Target.ptr_bytes target = 8) as Hw.
  { unfold Target.ptr_bytes. destruct Ht as [-> | ->]; [by left|by right]. }
  induction t as [t Hleaf|t n IH|fs IH|fs IH|vs IH] using Ty_rule; intros Hwf.
  - destruct t; try done; simpl; unfold capped, good_align; simpl;
      (split_and!; [f_equal; unfold sat_add, USIZE_MAX; lia|lia|lia|]);
      try apply Z.divide_refl; try apply Z.divide_0_r. by exists 2.
  - simpl in *. apply andb_true_iff in Hwf as [Hn Hwf]. destruct (IH Hwf) as (Hl & Hs & Ha & Hd).
    destruct (natural target t) as [s a]. simpl in *. rewrite Hl. simpl.
    split_and!; simpl; [by rewrite saturating_mul_capped by lia|lia|done|by apply Z.divide_mul_l].
  - simpl in *. apply struct_capped. rewrite Forall2_fmap_r. apply Forall_Forall2_diag.
    apply Forall_forall. intros f Hf. rewrite Forall_forall in IH.
    apply (IH f Hf). by eapply forallb_elem.
  - simpl in *. apply struct_capped. rewrite Forall2_fmap_r. apply Forall_Forall2_diag.
    apply Forall_forall. intros f Hf. rewrite Forall_forall in IH.
    apply (IH f Hf). by eapply forallb_elem.
  - simpl in *. apply enum_capped. clear Ht.
    induction vs as [|[[p|]] vs IHvs]; simpl in *; [constructor| |].
    + apply andb_true_iff in Hwf as [Hp Hvs]. apply Forall_cons in IH as [IHp IH].
      constructor; [by apply IHp|by apply IHvs].
    + apply Forall_cons in IH as [_ IH]. by apply IHvs.
Qed.

(** ** Placement in the reference *)

Definition sane (ns : list (Z * Z)) : Prop := Forall (λ n, 0 ≤ fst n ∧ 0 < snd n) ns.

Lemma length_place off ns : length (place off ns) = length ns.
Proof. revert off. induction ns as [|[s a] ns IH]; intros off; simpl; [done|]. by rewrite IH. Qed.

Lemma end_of_ge off ns : sane ns → off ≤ end_of off ns.
Proof.
  intros H. revert off. induction H as [|[s a] ns [Hs Ha] _ IH]; intros off; simpl in *; [lia|].
  pose proof (round_up_spec a off Ha) as [? _]. specialize (IH (round_up a off + s)). lia.
Qed.

Lemma place_bounds off ns i s a o :
  sane ns → ns !! i = Some (s, a) → place off ns !! i = Some o →
  (a | o) ∧ off ≤ o ∧ o + s ≤ end_of off ns.
Proof.
  intros H. revert off i. induction H as [|[s' a'] ns [Hs Ha] Hns IH]; intros off i Hi Ho; [done|].
  simpl in *. pose proof (round_up_spec a' off Ha) as [Hr Hd]. destruct i as [|i]; simpl in *.
  - injection Hi as -> ->. injection Ho as <-.
    pose proof (end_of_ge (round_up a off + s) ns Hns). split; [done|]. lia.
  - destruct (IH _ _ Hi Ho) as (? & ? & ?). split; [done|]. lia.
Qed.

Lemma place_order off ns i j s a o o' :
  sane ns → (i < j)%nat → ns !! i = Some (s, a) → place off ns !! i = Some o →
  place off ns !! j = Some o' → o + s ≤ o'.
Proof.
  intros H. revert off i j. induction H as [|[s' a'] ns [Hs Ha] Hns IH]; intros off i j Hij Hi Ho Hj;
    [done|]. simpl in *. destruct j as [|j]; [lia|]. destruct i as [|i]; simpl in *.
  - injection Hi as -> ->. injection Ho as <-.
    assert (is_Some (ns !! j)) as [[sj aj] Hsj].
    { apply lookup_lt_is_Some. rewrite <- (length_place (round_up a off + s)).
      by eapply lookup_lt_Some. }
    by destruct (place_bounds _ _ _ _ _ _ Hns Hsj Hj) as (_ & ? & _).
  - eapply IH; [|done..]. lia.
Qed.

(** No more padding than the next field's alignment needs. *)
Lemma place_tight off ns i s a s' a' o o' :
  sane ns → ns !! i = Some (s, a) → ns !! S i = Some (s', a') →
  place off ns !! i = Some o → place off ns !! S i = Some o' → o' < o + s + a'.
Proof.
  intros H. revert off i. induction H as [|[s0 a0] ns [Hs Ha] Hns IH]; intros off i Hi Hi' Ho Ho';
    [done|]. simpl in *. destruct i as [|i]; simpl in *.
  - injection Hi as -> ->. injection Ho as <-.
    destruct ns as [|[s1 a1] ns]; [done|]. simpl in *. injection Hi' as -> ->. injection Ho' as <-.
    apply Forall_cons in Hns as [[_ Ha'] _]. simpl in Ha'.
    pose proof (round_up_spec a' (round_up a off + s) Ha'). lia.
  - by eapply IH.
Qed.

Lemma end_of_last off ns i s a o :
  sane ns → length ns = S i → ns !! i = Some (s, a) → place off ns !! i = Some o →
  end_of off ns = o + s.
Proof.
  intros H. revert off i. induction H as [|[s0 a0] ns [Hs Ha] Hns IH]; intros off i Hl Hi Ho; [done|].
  simpl in *. destruct i as [|i]; simpl in *.
  - injection Hi as -> ->. injection Ho as <-. by destruct ns.
  - apply (IH _ i); [lia|done..].
Qed.

Lemma max_align_elem ns i s a : ns !! i = Some (s, a) → a ≤ max_align ns.
Proof.
  revert i. induction ns as [|[s' a'] ns IH]; intros i Hi; [done|]. simpl.
  destruct i as [|i]; simpl in Hi; [injection Hi as -> ->; lia|]. specialize (IH i Hi). lia.
Qed.

Lemma good_align_divide a b : good_align a → good_align b → a ≤ b → (a | b).
Proof.
  unfold good_align. intros [->|[->|[->| ->]]] [->|[->|[->| ->]]] H; try lia;
    (by exists 1) || (by exists 2) || (by exists 4) || (by exists 8).
Qed.

(** The layout of each field, when the sequence as a whole is not capped. *)
Lemma fields_capped target fields :
  Target.wf target → forallb ty_wf fields = true →
  Forall2 (λ f n, capped (layout_of f target) n) fields (natural target <$> fields).
Proof.
  intros Ht Hwf. rewrite Forall2_fmap_r. apply Forall_Forall2_diag, Forall_forall.
  intros f Hf. apply layout_capped; [done|]. by eapply forallb_elem.
Qed.

(** ** Properties *)

(** The layout of a type is the natural one: fields in declaration order,
    each at the first suitably aligned offset, tail padding to the largest
    alignment, the largest payload after the tag; sizes that do not fit a
    [usize] are capped at its maximum. The alignment is always legal for an
    allocator, and the size is a multiple of it unless it was capped. *)
Theorem layout_of_natural target t :
  Target.wf target → ty_wf t = true →
  size_of t target = Z.min USIZE_MAX (fst (natural target t)) ∧
  align_of t target = snd (natural target t) ∧
  validate_align (align_of t target) = Ok tt ∧
  0 ≤ size_of t target ≤ USIZE_MAX ∧
  ((align_of t target | size_of t target) ∨ size_of t target = USIZE_MAX).
Proof.
  intros Ht Hwf. destruct (layout_capped target t Ht Hwf) as (Hl & Hs & Ha & Hd).
  unfold size_of, align_of. rewrite Hl. cbn [size align].
  assert (0 ≤ USIZE_MAX) by (unfold USIZE_MAX; lia).
  split_and!; [done|done| |lia|lia|].
  - by destruct Ha as [->|[->|[->| ->]]].
  - destruct (Z.min_spec USIZE_MAX (fst (natural target t))) as [[_ ->]|[_ ->]]; [by right|by left].
Qed.

Lemma sane_fields target fields :
  Target.wf target → forallb ty_wf fields = true → sane (natural target <$> fields).
Proof.
  intros Ht Hwf. apply Forall_fmap, Forall_forall. intros f Hin. simpl.
  destruct (layout_capped target f Ht) as (_ & ? & Hg & _); [by eapply forallb_elem|].
  unfold good_align in Hg. lia.
Qed.

(** A field of a sequence that fits has its natural layout, at its natural
    offset. *)
Lemma field_placed target fields i f p :
  Target.wf target → forallb ty_wf fields = true →
  fields !! i = Some f → place 0 (natural target <$> fields) !! i = Some p →
  end_of 0 (natural target <$> fields) < USIZE_MAX →
  ∃ n, (natural target <$> fields) !! i = Some n ∧
    place 0 (natural target <$> fields) !! i = Some (Z.min USIZE_MAX p) ∧
    size_of f target = fst n ∧ align_of f target = snd n ∧ good_align (snd n).
Proof.
  intros Ht Hwf Hi Hp Hfit. exists (natural target f).
  assert ((natural target <$> fields) !! i = Some (natural target f)) as Hn
    by (by rewrite list_lookup_fmap, Hi).
  destruct (natural target f) as [sf af] eqn:Hnf.
  destruct (place_bounds 0 _ i sf af p (sane_fields target fields Ht Hwf) Hn Hp) as (_ & ? & ?).
  destruct (layout_capped target f Ht) as (Hlf & ? & Hg & _);
    [eapply forallb_elem; [done|]; by eapply list_elem_of_lookup_2|].
  rewrite Hnf in *. unfold size_of, align_of. rewrite Hlf. cbn [size align fst snd] in *.
  rewrite !Z.min_r by lia. done.
Qed.

(** C35: the fields of a struct. When its size is not capped, every field sits
    at a multiple of its alignment, the fields follow one another in declaration
    order without overlapping, within the struct, whose size and alignment are
    multiples of every field's alignment; the first field is at offset 0, and
    the padding before a field and at the end is less than the alignment that
    asks for it. *)
Theorem struct_layout_sound target fields :
  Target.wf target → forallb ty_wf fields = true →
  let s := struct_layout_of fields target in
  let field i f o := fields !! i = Some f ∧ offsets s !! i = Some o in
  size (s_layout s) < USIZE_MAX →
  length (offsets s) = length fields ∧
  (align (s_layout s) | size (s_layout s)) ∧
  (∀ i f o, field i f o → (align_of f target | o) ∧ 0 ≤ o ∧
     o + size_of f target ≤ size (s_layout s) ∧ (align_of f target | align (s_layout s))) ∧
  (∀ i j f o f' o', field i f o → field j f' o' → (i < j)%nat → o + size_of f target ≤ o') ∧
  (∀ f o, field 0%nat f o → o = 0) ∧
  (∀ i f o f' o', field i f o → field (S i) f' o' →
     o' < o + size_of f target + align_of f' target) ∧
  (∀ i f o, field i f o → length fields = S i →
     size (s_layout s) < o + size_of f target + align (s_layout s)).
Proof.
  intros Ht Hwf s field Hcap. pose proof (fields_capped target fields Ht Hwf) as Hf.
  destruct (struct_capped _ _ _ Hf) as [(Hl & Hs & Ha & Hd) Ho].
  fold (struct_layout_of fields target) in Hl, Ho. fold s in Hl, Ho.
  set (ns := natural target <$> fields) in *. rewrite Hl in Hcap |- *. cbn [size align] in *.
  pose proof (sane_fields target fields Ht Hwf : sane ns) as Hsane.
  assert (0 < max_align ns) as Hma by (pose proof (max_align_ge ns); lia).
  unfold natural_struct in *. cbn [fst snd] in *.
  pose proof (round_up_spec (max_align ns) (end_of 0 ns) Hma) as [Hround _].
  assert (round_up (max_align ns) (end_of 0 ns) < USIZE_MAX) as Hfit by (clear -Hcap; lia).
  rewrite (Z.min_r USIZE_MAX) by (clear -Hfit; lia). clear Hcap.
  assert (∀ i f o, field i f o → ∃ n, ns !! i = Some n ∧ place 0 ns !! i = Some o ∧
    size_of f target = fst n ∧ align_of f target = snd n ∧ good_align (snd n)) as Hfield.
  { intros i f o [Hi Hoi]. rewrite Ho, list_lookup_fmap in Hoi.
    apply fmap_Some in Hoi as (p & Hp & ->).
    apply field_placed; [done|done|done|exact Hp|fold ns; lia]. }
  split_and!.
  - rewrite Ho, length_fmap, length_place. unfold ns. apply length_fmap.
  - exact Hd.
  - intros i f o ([sf af] & Hn & Hp & -> & -> & Hg)%Hfield. cbn [fst snd] in *.
    destruct (place_bounds 0 ns i sf af o Hsane Hn Hp) as (? & ? & ?).
    split_and!; [done|done|lia|].
    apply good_align_divide; [done|done|by eapply max_align_elem].
  - intros i j f o f' o' ([sf af] & Hn & Hp & -> & _)%Hfield (n' & Hn' & Hp' & _)%Hfield Hij.
    by eapply place_order.
  - intros f o ([sf af] & Hn & Hp & _ & _ & Hg)%Hfield.
    destruct ns as [|[s0 a0] ns']; [done|]. simpl in Hp, Hn. injection Hn as -> ->.
    injection Hp as <-. unfold good_align in Hg. simpl in Hg. unfold round_up.
    rewrite Z.div_small by lia. lia.
  - intros i f o f' o' ([sf af] & Hn & Hp & -> & _)%Hfield ([sf' af'] & Hn' & Hp' & _ & -> & _)%Hfield.
    by eapply place_tight.
  - intros i f o ([sf af] & Hn & Hp & -> & _)%Hfield Hlen. cbn [fst].
    rewrite <- (end_of_last 0 ns i sf af o); [lia|done| |done|done].
    unfold ns. by rewrite length_fmap.
Qed.

Lemma max_size_elem ns n : n ∈ ns → fst n ≤ max_size ns.
Proof.
  induction ns as [|n' ns IH]; [by intros ?%not_elem_of_nil|]. simpl.
  intros [->|Hin]%elem_of_cons; [lia|]. specialize (IH Hin). lia.
Qed.

Lemma round_up_multiple a off : 0 < a → (a | off) → round_up a off = off.
Proof.
  intros Ha [c ->]. unfold round_up. replace (c * a + a - 1) with (c * a + (a - 1)) by lia.
  rewrite Z.div_add_l, Z.div_small by lia. lia.
Qed.

Definition variant_wf (v : Variant) : bool :=
  match payload v with Some p => ty_wf p | None => true end.

Lemma payloads_capped target (vs : list Variant) :
  Target.wf target → forallb variant_wf vs = true →
  Forall2 (λ p n, capped (layout_of p target) n) (omap payload vs) (natural target <$> omap payload vs).
Proof.
  intros Ht Hwf. rewrite Forall2_fmap_r. apply Forall_Forall2_diag, Forall_forall.
  intros p (v & Hv & Hp)%list_elem_of_omap. apply layout_capped; [done|].
  pose proof (forallb_elem _ _ _ Hwf Hv) as H. unfold variant_wf in H. by rewrite Hp in H.
Qed.

Lemma single_variant target p :
  capped (layout_of p target) (natural target p) →
  e_layout (enum_layout_of [Variant.of_ p] target) = layout_of p target ∧
  e_payload_offset (enum_layout_of [Variant.of_ p] target) = 0.
Proof.
  intros Hp. destruct (enum_capped (λ t, layout_of t target) [Variant.of_ p] [natural target p])
    as ((Hl & _) & Hds & Hpo); [by constructor|].
  fold (enum_layout_of [Variant.of_ p] target) in Hl, Hds, Hpo. rewrite Hl, Hpo, Hds.
  destruct Hp as (-> & Hsp & Hgp & Hdp). destruct (natural target p) as [sp ap].
  unfold natural_enum, discriminant_size. simpl in *.
  assert (0 < ap) by (unfold good_align in Hgp; lia).
  replace (Z.max (Z.max 0 1) (Z.max ap 1)) with ap by lia.
  replace (Z.max ap 1) with ap by lia. replace (Z.max sp 0) with sp by lia.
  rewrite (round_up_multiple ap 0), Z.add_0_l by (done || apply Z.divide_0_r).
  by rewrite round_up_multiple.
Qed.

(** An enum. Its tag has the width of the rule. When its size is not
    capped, the payload of every variant sits past the tag, aligned, within the
    enum, at the first offset that suits all of them; size and alignment are
    multiples of what the tag and the payloads need. An enum of one variant is
    laid out exactly as its payload. *)
Theorem enum_layout_sound target (vs : list Variant) :
  Target.wf target → forallb variant_wf vs = true →
  let e := enum_layout_of vs target in
  e_discriminant_size e = discriminant_size (Z.of_nat (length vs)) ∧
  (size (e_layout e) < USIZE_MAX →
     (align (e_layout e) | size (e_layout e)) ∧
     e_discriminant_size e ≤ e_payload_offset e ∧
     e_payload_offset e ≤ size (e_layout e) ∧
     (Z.max (e_discriminant_size e) 1 | align (e_layout e)) ∧
     ∀ p, Variant.of_ p ∈ vs →
       (align_of p target | e_payload_offset e) ∧
       e_payload_offset e + size_of p target ≤ size (e_layout e) ∧
       (align_of p target | align (e_layout e))) ∧
  (∀ p, vs = [Variant.of_ p] → e_layout e = layout_of p target ∧ e_payload_offset e = 0).
Proof.
  intros Ht Hwf e. pose proof (payloads_capped target vs Ht Hwf) as Hf.
  destruct (enum_capped _ vs _ Hf) as ((Hl & Hs & Ha & Hd) & Hds & Hpo).
  fold (enum_layout_of vs target) in Hl, Hds, Hpo. fold e in Hl, Hds, Hpo.
  set (ns := natural target <$> omap payload vs) in *.
  pose proof (max_align_ge ns) as Hma. pose proof (max_size_nonneg ns) as Hms.
  assert (∀ p, Variant.of_ p ∈ vs → capped (layout_of p target) (natural target p) ∧
                                    natural target p ∈ ns) as Hin.
  { intros p Hp. split.
    - apply layout_capped; [done|]. exact (forallb_elem variant_wf vs (Variant.of_ p) Hwf Hp).
    - apply list_elem_of_fmap. exists p. split; [done|]. apply list_elem_of_omap.
      by exists (Variant.of_ p). }
  assert (good_align (max_align ns)) as Hg.
  { apply max_align_good. eapply Forall_impl; [apply (capped_parts _ _ _ Hf)|]. by intros ? []. }
  set (d := discriminant_size (Z.of_nat (length vs))) in *.
  assert (d = 0 ∨ good_align d) as Hdc by apply discriminant_size_cases.
  pose proof (round_up_spec (max_align ns) d ltac:(lia)) as [Hpr Hpd]. rewrite Hds in Hpo.
  split; [done|]. split.
  2:{ intros p Hv. unfold e. rewrite Hv. apply single_variant, Hin. rewrite Hv.
      by apply list_elem_of_singleton. }
  rewrite Hl, Hds, Hpo. unfold natural_enum in *. fold d in Ha, Hs, Hd |- *. cbn [fst snd] in *.
  set (a := Z.max (Z.max d 1) (max_align ns)) in *.
  pose proof (round_up_spec a (round_up (max_align ns) d + max_size ns) ltac:(lia)) as [Hr _].
  cbn [size align]. intros Hcap.
  assert (round_up a (round_up (max_align ns) d + max_size ns) < USIZE_MAX) as Hfit
    by (clear -Hcap; lia).
  rewrite (Z.min_r USIZE_MAX) by (clear -Hfit; lia).
  split_and!; [done|lia|lia| |].
  - apply good_align_divide; [unfold good_align in *; lia|done|lia].
  - intros p Hp. destruct (Hin p Hp) as [(Hlp & _ & Hgp & _) Hel].
    pose proof (max_size_elem _ _ Hel) as Hsz.
    apply list_elem_of_lookup_1 in Hel as [i Hi]. destruct (natural target p) as [sp ap].
    pose proof (max_align_elem _ _ _ _ Hi) as Hal. unfold align_of, size_of. rewrite Hlp.
    cbn [size align fst snd] in *.
    assert ((ap | max_align ns)) as Hdiv by (by apply good_align_divide).
    split_and!; [by transitivity (max_align ns)|lia|].
    apply good_align_divide; [done|done|lia].
Qed.

(** ** Discriminants *)

Lemma from_to_le_bytes v n :
  unsigned 32 v → v < 2 ^ (8 * Z.of_nat n) → (n ≤ 4)%nat →
  from_le_bytes (take n (to_le_bytes v) ++ replicate (4 - n) 0) = v.
Proof.
  intros [Hv0 Hv] Hn H4. unfold to_le_bytes.
  assert (∀ i, 0 ≤ i → wrap 8 (Z.shiftr v (8 * i)) = (v / 2 ^ (8 * i)) mod 2 ^ 8) as Hb.
  { intros i Hi. unfold wrap. by rewrite Z.shiftr_div_pow2 by lia. }
  cbn [fmap list_fmap]. rewrite !Hb by lia. clear Hb.
  change (8 * 0) with 0. change (8 * 1) with 8. change (8 * 2) with 16. change (8 * 3) with 24.
  destruct n as [|[|[|[|[|n]]]]]; simpl take; simpl replicate; simpl app; simpl from_le_bytes;
    simpl Z.of_nat in Hn; simpl Z.mul in Hn; [| | | | |lia];
    Z.div_mod_to_equations; lia.
Qed.

Lemma bytes_value b0 b1 b2 b3 :
  unsigned 8 b0 → unsigned 8 b1 → unsigned 8 b2 → unsigned 8 b3 →
  to_le_bytes (from_le_bytes [b0; b1; b2; b3]) = [b0; b1; b2; b3].
Proof.
  unfold unsigned, to_le_bytes, wrap. simpl. intros.
  rewrite !Z.shiftr_div_pow2 by lia. repeat f_equal; Z.div_mod_to_equations; lia.
Qed.

Lemma discriminant_size_ranges count :
  count ≤ 2 ^ 32 →
  discriminant_size count = 0 ∧ count ≤ 1 ∨ discriminant_size count = 1 ∧ 1 < count ≤ 2 ^ 8 ∨
  discriminant_size count = 2 ∧ 2 ^ 8 < count ≤ 2 ^ 16 ∨
  discriminant_size count = 4 ∧ 2 ^ 16 < count ≤ 2 ^ 32.
Proof. unfold discriminant_size. repeat case_match; lia. Qed.

(** C40: discriminants. The width is the least of the tag widths (0, 1, 2, 4 or
    8 bytes) that can number the variants. Up to [2^32] variants, every variant
    index (a [u32]) is encoded in exactly that many bytes and decoded back, any
    other index has no encoding ([None]), and conversely whatever bytes decode
    are the encoding of the index they decode to. *)
Theorem discriminant_roundtrip d count :
  unsigned 32 d → 0 ≤ count ≤ 2 ^ 32 →
  count ≤ 2 ^ (8 * discriminant_size count) ∧
  (∀ n, n ∈ [0; 1; 2; 4; 8] → count ≤ 2 ^ (8 * n) → discriminant_size count ≤ n) ∧
  (if d <? count
   then ∃ bytes, encode_discriminant d count = Ok (Some bytes) ∧ Forall (unsigned 8) bytes ∧
          Z.of_nat (length bytes) = discriminant_size count ∧
          decode_discriminant bytes count = Some d
   else encode_discriminant d count = Ok None) ∧
  ∀ bytes v, Forall (unsigned 8) bytes → decode_discriminant bytes count = Some v →
    v < count ∧ encode_discriminant v count = Ok (Some bytes).
Proof.
  intros Hd Hc.
  pose proof (discriminant_size_ranges count ltac:(lia)) as Hsize.
  split; [|split; [|split]].
  - destruct Hsize as [[-> ?]|[[-> ?]|[[-> ?]|[-> ?]]]]; simpl; lia.
  - intros n Hn Hle. rewrite !elem_of_cons, elem_of_nil in Hn.
    destruct Hn as [->|[->|[->|[->|[->|[]]]]]]; simpl in Hle; lia.
  - unfold encode_discriminant. destruct (Z.ltb_spec d count) as [Hlt|Hge].
    2:{ by destruct (Z.eqb_spec count 0), (Z.leb_spec count d); try lia. }
    destruct (Z.eqb_spec count 0) as [|Hc0]; [unfold unsigned in Hd; lia|].
    destruct (Z.leb_spec count d); [lia|]. cbn [orb].
    change (Z.of_nat (length (to_le_bytes d))) with 4.
    destruct (Z.ltb_spec 4 (discriminant_size count)); [lia|].
    eexists. split; [done|].
    assert (∃ n : nat, discriminant_size count = Z.of_nat n ∧ (n ≤ 4)%nat) as (n & Hn & Hn4).
    { exists (Z.to_nat (discriminant_size count)). lia. }
    assert (d < 2 ^ (8 * Z.of_nat n)) as Hdn.
    { rewrite <- Hn. destruct Hsize as [[-> ?]|[[-> ?]|[[-> ?]|[-> ?]]]]; simpl; lia. }
    rewrite Hn, Nat2Z.id.
    assert (length (take n (to_le_bytes d)) = n) as Hlen by (rewrite length_take; simpl; lia).
    split_and!.
    + apply Forall_take. unfold to_le_bytes. repeat constructor; apply wrap_range; lia.
    + by rewrite Hlen.
    + unfold decode_discriminant. rewrite Hn, Hlen, Z.eqb_refl.
      destruct (Z.eqb_spec count 0); [lia|]. destruct (Z.ltb_spec 4 (Z.of_nat n)); [lia|]. cbn [negb orb].
      rewrite from_to_le_bytes by done. by destruct (Z.ltb_spec d count); [|lia].
  - intros bytes v Hb Hdec. unfold decode_discriminant in Hdec.
    destruct (Z.eqb_spec (Z.of_nat (length bytes)) (discriminant_size count)) as [Hlen|]; [|done].
    destruct (Z.eqb_spec count 0); [done|]. destruct (Z.ltb_spec 4 (discriminant_size count)); [done|].
    cbn [negb orb] in Hdec. destruct (Z.ltb_spec (from_le_bytes (bytes ++ replicate (4 - length bytes) 0)) count)
      as [Hlt|]; [|done].
    injection Hdec as <-. split; [done|]. unfold encode_discriminant.
    set (v := from_le_bytes _) in *.
    destruct (Z.eqb_spec count 0); [done|]. destruct (Z.leb_spec count v); [lia|]. cbn [orb].
    change (Z.of_nat (length (to_le_bytes v))) with 4.
    destruct (Z.ltb_spec 4 (discriminant_size count)); [lia|]. rewrite <- Hlen, Nat2Z.id. do 2 f_equal.
    assert (unsigned 8 0) as Hz by (unfold unsigned; lia).
    destruct bytes as [|b0 [|b1 [|b2 [|b3 [|b4 bytes]]]]]; simpl in Hlen; try lia; [done|..];
      repeat (apply Forall_cons in Hb as [? Hb]); subst v; simpl replicate; simpl app;
      rewrite bytes_value by done; done.
Qed.

(** Beyond [2^32] variants the encoder does not return: it slices eight
    bytes out of the four of a [u32]. *)
Theorem encode_discriminant_panics d count :
  unsigned 32 d → 2 ^ 32 < count → encode_discriminant d count = Err Panicked.
Proof.
  intros [Hd0 Hd] Hc. unfold encode_discriminant.
  destruct (Z.eqb_spec count 0); [lia|]. destruct (Z.leb_spec count d); [lia|].
  assert (discriminant_size count = 8) as ->; [|done].
  unfold discriminant_size. repeat case_match; lia.
Qed.

(** [Layout::array] and the array type agree: the checked constructor gives
    the layout of the array type exactly when its size fits a [usize], and
    reports [TooLarge] otherwise. *)
Theorem layout_array_exact target t n :
  Target.wf target → ty_wf t = true → 0 ≤ n ≤ USIZE_MAX → size_of t target < USIZE_MAX →
  layout_array (layout_of t target) n =
    if fst (natural target t) * n <=? USIZE_MAX then Ok (layout_of (Array t n) target)
    else Err TooLarge.
Proof.
  intros Ht Hwf Hn Hcap. destruct (layout_capped target t Ht Hwf) as (Hl & Hs & _ & _).
  unfold size_of in Hcap. simpl. rewrite Hl in *. cbn [size align] in *.
  assert (fst (natural target t) < USIZE_MAX) as Hfit by (clear -Hcap; lia).
  rewrite (Z.min_r USIZE_MAX) by (clear -Hfit; lia).
  unfold layout_array, checked_mul, saturating_mul. cbn [size align].
  destruct (Z.leb_spec (fst (natural target t) * n) USIZE_MAX); [|done]. simpl.
  by rewrite Z.min_l by done.
Qed.

(** Every scalar is monomorphised: its size is at most 16 bytes on every
    target, so the scalar and the size tests agree on it. *)
Theorem scalars_monomorphise target t :
  Target.wf target →
  is_scalar_le16 t target = is_scalar t ∧
  (is_scalar t = true → shape_monomorphized false (size_of t target) = true).
Proof.
  intros Ht. assert (Target.ptr_bytes target = 4 ∨ Target.ptr_bytes target = 8) as Hw.
  { unfold Target.ptr_bytes. destruct Ht as [-> | ->]; [by left|by right]. }
  unfold is_scalar_le16, shape_monomorphized, size_of, MONOMORPHIZE_SIZE_MAX.
  destruct t; try done; simpl; destruct Hw as [-> | ->]; done.
Qed.

(** ** Witnesses *)

Definition darwin : Target := Target.AARCH64_APPLE_DARWIN.
Lemma darwin_wf : Target.wf darwin.
Proof. by right. Qed.

Lemma layout_of_natural_witness :
  align_of (Struct [U8; Array U32 3; Enum [Variant.unit; Variant.of_ U64]]) darwin = 8.
Proof.
  destruct (layout_of_natural darwin
    (Struct [U8; Array U32 3; Enum [Variant.unit; Variant.of_ U64]]) darwin_wf eq_refl) as (_ & -> & _).
  reflexivity.
Defined.

Lemma struct_layout_sound_witness :
  offsets (struct_layout_of [U8; U32; U8] darwin) = [0; 4; 8] ∧ (align_of U32 darwin | 4).
Proof.
  destruct (struct_layout_sound darwin [U8; U32; U8] darwin_wf eq_refl) as (_ & _ & H & _);
    [reflexivity|].
  exact (conj eq_refl (proj1 (H 1%nat U32 4 (conj eq_refl eq_refl)))).
Defined.

Lemma enum_layout_sound_witness :
  e_payload_offset (enum_layout_of [Variant.unit; Variant.of_ U64] darwin)
    ≤ size (e_layout (enum_layout_of [Variant.unit; Variant.of_ U64] darwin)).
Proof.
  destruct (enum_layout_sound darwin [Variant.unit; Variant.of_ U64] darwin_wf eq_refl) as (_ & H & _).
  exact (proj1 (proj2 (proj2 (H eq_refl)))).
Defined.

Lemma discriminant_roundtrip_witness :
  ∃ bytes, encode_discriminant 300 400 = Ok (Some bytes) ∧ decode_discriminant bytes 400 = Some 300.
Proof.
  destruct (discriminant_roundtrip 300 400) as (_ & _ & (bytes & He & _ & _ & Hd) & _);
    [unfold unsigned; lia|lia|].
  exact (ex_intro _ bytes (conj He Hd)).
Defined.

Lemma encode_discriminant_panics_witness : encode_discriminant 3 (2 ^ 32 + 1) = Err Panicked.
Proof. apply (encode_discriminant_panics 3 (2 ^ 32 + 1)); [unfold unsigned; lia|lia]. Defined.

Lemma layout_array_exact_witness : layout_array (layout_of U64 darwin) (2 ^ 61) = Err TooLarge.
Proof. apply (layout_array_exact darwin U64 (2 ^ 61) darwin_wf eq_refl); [vm_compute; split; discriminate|reflexivity]. Defined.

Lemma scalars_monomorphise_witness : is_scalar_le16 Ptr darwin = true.
Proof. exact (proj1 (scalars_monomorphise darwin Ptr darwin_wf)). Defined.
