(* ===== verification/FmtDoc.v ===== *)
(** * The formatter's layout engine

    Models [src/crates/fors-fmt/src/doc.rs]: the stream of layout operations,
    the two measuring passes and the renderer.  Columns and indices are [nat]s,
    widths are [u64]s in [Z].  An addition that overflows panics, as it does in
    a development build. *)

From Stdlib Require Import Strings.Byte.
From S2P Require Import Prelude Token Lexer.
Local Open Scope nat_scope.
Local Open Scope byte_scope.

Definition MARGIN : nat := 100.
Definition INDENT : nat := 4.
Definition INF : Z := 2 ^ 40.
Definition FORCE : Z := 2 ^ 20.

Inductive Op : Type :=
  | Src (a b : nat)
  | Ghost (n : Z)
  | Space
  | Line
  | Soft
  | Hard
  | Blank
  | Indent
  | Dedent
  | Open
  | Close.

(** ** Widths *)

(** [&src[a as usize..b as usize]] *)
Definition slice (src : list byte) (a b : nat) : res (list byte) :=
  if bool_decide (a ≤ b ≤ length src) then Done (take (b - a) (drop a src)) else Panic.

(** [b & 0xC0 != 0x80] *)
Definition starts_char (b : byte) : bool := negb (N.land (code b) 0xC0 =? 0x80)%N.

Definition text_width (t : list byte) : option nat :=
  if existsb (isb newline) t then None else Some (length (List.filter starts_char t)).

Definition op_width (op : Op) (src : list byte) : res Z :=
  match op with
  | Src a b =>
      t ← slice src a b;
      Done (match text_width t with Some w => Z.of_nat w | None => INF end)
  | Ghost n => Done n
  | Space | Line => Done 1%Z
  | Hard | Blank => Done INF
  | _ => Done 0%Z
  end.

Definition add64 (x y : Z) : res Z := if (2 ^ 64 <=? x + y)%Z then Panic else Done (x + y)%Z.
Definition sat_add64 (x y : Z) : Z := Z.min (2 ^ 64 - 1) (x + y).

(** The columns [gw] and [end], [cum] and the stack of open groups. *)
Record Widths : Type := MkWidths {
  w_gw : list Z; w_end : list nat; w_cum : Z; w_stack : list (nat * Z) }.

(** The main loop, at index [i]. *)
Fixpoint group_loop (i : nat) (ops : list Op) (src : list byte) (w : Widths) : res Widths :=
  match ops with
  | [] => Done w
  | op :: ops =>
      w ← match op with
          | Open => Done (MkWidths (w_gw w) (w_end w) (w_cum w) ((i, w_cum w) :: w_stack w))
          | Close =>
              Done (match w_stack w with
                    | (o, at_) :: stack =>
                        MkWidths (<[o := (w_cum w - at_)%Z]> (w_gw w)) (<[o := i]> (w_end w))
                          (w_cum w) stack
                    | [] => w
                    end)
          | _ =>
              n ← op_width op src;
              cum ← add64 (w_cum w) n;
              Done (MkWidths (w_gw w) (w_end w) cum (w_stack w))
          end;
      group_loop (S i) ops src w
  end.

(** [n] is [ops.len()]. *)
Definition close_unbalanced (n : nat) (w : Widths) : list Z * list nat :=
  (foldr (λ o gw, <[o.1 := INF]> gw) (w_gw w) (w_stack w),
   foldr (λ o e, <[o.1 := n - 1]> e) (w_end w) (w_stack w)).

Definition group_widths (ops : list Op) (src : list byte) : res (list Z * list nat) :=
  let n := length ops in
  w ← group_loop 0 ops src (MkWidths (replicate n 0%Z) (replicate n 0) 0 []);
  Done (close_unbalanced n w).

(** [tail[i..]] *)
Fixpoint tail_widths (ops : list Op) (src : list byte) : res (list Z) :=
  match ops with
  | [] => Done [0%Z]
  | op :: ops =>
      tail ← tail_widths ops src;
      next ← get_ix (head tail);
      w ← match op with
          | Hard | Blank | Line | Soft | Close => Done 0%Z
          | Open | Indent | Dedent => Done next
          | _ => w ← op_width op src; Done (sat_add64 w next)
          end;
      Done (w :: tail)
  end.

(** ** The gluing guard *)

Definition identish (c : byte) : bool := is_ascii_alphabetic c || is_dec c || isb "_" c.

(** The pairs of the table. *)
Definition glue_pairs : list (byte * byte) :=
  [("-", ">"); ("-", "="); ("=", ">"); ("=", "="); ("!", "="); ("<", "<"); ("<", "=");
   (">", ">"); (">", "="); ("+", "="); ("*", "="); ("/", "="); ("%", "="); ("&", "=");
   ("|", "="); ("^", "="); ("/", "/"); ("/", "*"); (".", ".")].

Definition glues (a b : byte) (b2 : option byte) : bool :=
  (identish a && identish b)
  || existsb (λ p : byte * byte, isb p.1 a && isb p.2 b) glue_pairs
  || (is_dec a && isb "." b && match b2 with Some c => is_dec c | None => false end).

(** ** The renderer *)

(** [r_pending] is 0, 1 for a newline or 2 for a newline and a blank line;
    [r_last] is the last byte on this line. *)
Record Render : Type := MkRender {
  r_out : list byte; r_flat : list bool; r_indent : nat; r_col : nat; r_pending : nat;
  r_space : bool; r_last : option byte }.

Definition set_flat (f : list bool) (r : Render) : Render :=
  MkRender (r_out r) f (r_indent r) (r_col r) (r_pending r) (r_space r) (r_last r).
Definition set_indent (n : nat) (r : Render) : Render :=
  MkRender (r_out r) (r_flat r) n (r_col r) (r_pending r) (r_space r) (r_last r).
Definition set_break (pending : nat) (space : bool) (r : Render) : Render :=
  MkRender (r_out r) (r_flat r) (r_indent r) (r_col r) pending space (r_last r).

(** [*flat.last().unwrap_or(&false)] *)
Definition is_flat (r : Render) : bool := default false (head (r_flat r)).

Definition SPACES_len : nat := 64.

(** The indentation, [SPACES.len()] bytes at a time. *)
Fixpoint push_spaces (fuel n : nat) : res (list byte) :=
  if bool_decide (n = 0) then Done []
  else match fuel with
       | O => OutOfFuel
       | S fuel =>
           let take := Nat.min n SPACES_len in
           rest ← push_spaces fuel (n - take);
           Done (replicate take (" " : byte) ++ rest)
       end.

(** The newlines and the indentation that are pending. *)
Definition flush_pending (r : Render) : res Render :=
  if bool_decide (0 < r_pending r) then
    let nl := if bool_decide (r_out r = []) then []
              else if bool_decide (r_pending r = 2) then [newline; newline] else [newline] in
    sp ← push_spaces (r_indent r * INDENT) (r_indent r * INDENT);
    Done (MkRender (r_out r ++ nl ++ sp) (r_flat r) (r_indent r) (r_indent r * INDENT) 0 false None)
  else Done r.

Definition flush_space (r : Render) : Render :=
  if r_space r then
    MkRender (r_out r ++ [" "]) (r_flat r) (r_indent r) (r_col r + 1) (r_pending r) false (Some " ")
  else r.

Definition guard (text : list byte) (r : Render) : Render :=
  match r_last r, text with
  | Some p, t0 :: rest =>
      if glues p t0 (head rest) then
        MkRender (r_out r ++ [" "]) (r_flat r) (r_indent r) (r_col r + 1) (r_pending r)
          (r_space r) (r_last r)
      else r
  | _, _ => r
  end.

(** The text after the last newline. *)
Fixpoint after_newline (t : list byte) : list byte :=
  match t with
  | [] => []
  | b :: t' => if existsb (isb newline) t' then after_newline t'
               else if isb newline b then t' else t
  end.

Definition push_text (text : list byte) (r : Render) : Render :=
  let col := match text_width text with
             | Some w => r_col r + w
             | None => default 0 (text_width (after_newline text))
             end in
  MkRender (r_out r ++ text) (r_flat r) (r_indent r) col (r_pending r) (r_space r) (last text).

(** A comment that starts a line. *)
Definition owns_line (text : list byte) : bool :=
  at_is text 0 "/" && (at_is text 1 "/" || at_is text 1 "*").

Definition render_src (text : list byte) (r : Render) : res Render :=
  if bool_decide (text = []) then Done r
  else
    let at_line_start := bool_decide (0 < r_pending r) in
    r ← flush_pending r;
    let r := push_text text (guard text (flush_space r)) in
    Done (if at_line_start && owns_line text then set_break (Nat.max (r_pending r) 1) false r else r).

(** One operation, at index [i]. *)
Definition render_op (gw : list Z) (gend : list nat) (tail : list Z) (src : list byte)
    (i : nat) (op : Op) (r : Render) : res Render :=
  match op with
  | Open =>
      let inherited := is_flat r in
      let at_ := if bool_decide (0 < r_pending r) then r_indent r * INDENT
                 else r_col r + (if r_space r then 1 else 0) in
      w ← get_ix (gw !! i);
      e ← get_ix (gend !! i);
      t ← get_ix (tail !! (e + 1));
      let need := sat_add64 w t in
      let fits := (need <? INF)%Z && (Z.of_nat at_ + need <=? Z.of_nat MARGIN)%Z in
      Done (set_flat ((inherited || fits) :: r_flat r) r)
  | Close => Done (set_flat (List.tl (r_flat r)) r)
  | Indent => Done (set_indent (r_indent r + 1) r)
  | Dedent => Done (set_indent (r_indent r - 1) r)
  | Space => Done (set_break (r_pending r) true r)
  | Line =>
      Done (if is_flat r then set_break (r_pending r) true r
            else set_break (Nat.max (r_pending r) 1) false r)
  | Soft =>
      Done (if is_flat r then r else set_break (Nat.max (r_pending r) 1) false r)
  | Hard => Done (set_break (Nat.max (r_pending r) 1) false r)
  | Blank => Done (set_break 2 false r)
  | Ghost _ => Done r
  | Src a b => t ← slice src a b; render_src t r
  end.

Fixpoint render_loop (gw : list Z) (gend : list nat) (tail : list Z) (src : list byte)
    (i : nat) (ops : list Op) (r : Render) : res Render :=
  match ops with
  | [] => Done r
  | op :: ops =>
      r ← render_op gw gend tail src i op r;
      render_loop gw gend tail src (S i) ops r
  end.

Definition render (ops : list Op) (src : list byte) : res (list byte) :=
  '(gw, gend) ← group_widths ops src;
  tail ← tail_widths ops src;
  r ← render_loop gw gend tail src 0 ops (MkRender [] [] 0 0 0 false None);
  let out := r_out r in
  Done (if negb (bool_decide (out = [])) && negb (bool_decide (last out = Some newline))
        then out ++ [newline] else out).

(** [f ( a , b )] flat, and broken when the margin is forced. *)
Definition demo (force : Z) : list Op :=
  [Src 0 1; Open; Src 1 2; Indent; Soft; Src 2 3; Src 3 4; Line; Src 4 5; Ghost force; Dedent; Soft;
   Src 5 6; Close].
Example render_flat : render (demo 0) (bytes_of "f(a,b)") = Done (bytes_of "f(a, b)" ++ [newline]).
Proof. vm_compute. reflexivity. Qed.
Example render_broken : render (demo FORCE) (bytes_of "f(a,b)") =
  Done (bytes_of "f(" ++ newline :: bytes_of "    a," ++ newline :: bytes_of "    b" ++
        newline :: bytes_of ")" ++ [newline]).
Proof. vm_compute. reflexivity. Qed.
