(* ===== verification/FmtDocProps.v ===== *)
(** * What the layout engine may do to text

    The renderer puts only white space between the texts of the stream, and
    leaves none out only where the guard allows it. *)

From Stdlib Require Import Strings.Byte.
From S2P Require Import Prelude Token Lexer FmtDoc.
Local Open Scope nat_scope.
Local Open Scope byte_scope.

(** ** The measuring passes *)

Definition is_src (op : Op) : bool := match op with Src _ _ => true | _ => false end.

(** The ranges of a stream are in the source, and its widths fit in [u64] when
    added up. *)
Definition in_source (src : list byte) (op : Op) : Prop :=
  match op with Src a b => a ≤ b ≤ length src | Ghost n => (0 ≤ n < 2 ^ 32)%Z | _ => True end.

Definition width (src : list byte) (op : Op) : Z :=
  match op_width op src with Done w => w | _ => 0%Z end.
Definition total_width (src : list byte) (ops : list Op) : Z :=
  foldr (λ op n, (width src op + n)%Z) 0%Z ops.

Definition printable (src : list byte) (ops : list Op) : Prop :=
  Forall (in_source src) ops ∧ (total_width src ops < 2 ^ 64)%Z.

Lemma slice_in src a b : a ≤ b ≤ length src → slice src a b = Done (take (b - a) (drop a src)).
Proof. intros H. unfold slice. by rewrite bool_decide_eq_true_2. Qed.

Lemma op_width_in src op : in_source src op →
  op_width op src = Done (width src op) ∧ (0 ≤ width src op)%Z.
Proof.
  unfold width. destruct op; simpl; intros H; try (split; [done|unfold INF; lia]).
  rewrite slice_in by done. simpl. split; [done|]. destruct (text_width _); unfold INF; lia.
Qed.

Lemma total_width_nonneg src ops : Forall (in_source src) ops → (0 ≤ total_width src ops)%Z.
Proof.
  induction 1 as [|op ops H _ IH]; simpl; [lia|]. apply op_width_in in H as [_ ?]. lia.
Qed.

(** The indices in the columns of [group_widths] are those of operations. *)
Record widths_ok (n : nat) (w : Widths) : Prop := {
  wo_gw : length (w_gw w) = n;
  wo_end : length (w_end w) = n;
  wo_ends : Forall (λ e, e < Nat.max 1 n) (w_end w) }.

Lemma Forall_insert_lt (l : list nat) i x n : Forall (λ e, e < n) l → x < n →
  Forall (λ e, e < n) (<[i := x]> l).
Proof. intros Hl Hx. by apply Forall_insert. Qed.

Lemma group_loop_total n src i ops w : Forall (in_source src) ops → widths_ok n w →
  (0 ≤ w_cum w)%Z → (w_cum w + total_width src ops < 2 ^ 64)%Z → i + length ops ≤ n →
  ∃ w', group_loop i ops src w = Done w' ∧ widths_ok n w'.
Proof.
  intros Hops. revert i w. induction Hops as [|op ops Hop Hops IH]; intros i w Hw H0 Hc Hi.
  { by exists w. }
  simpl in Hc, Hi. destruct (op_width_in _ _ Hop) as [Hwd Hpos].
  pose proof (total_width_nonneg _ _ Hops) as Hrest.
  assert (∀ w', widths_ok n w' → w_cum w' = (w_cum w + width src op)%Z →
    ∃ w'', group_loop (S i) ops src w' = Done w'' ∧ widths_ok n w'') as Hnext.
  { intros w' Hw' Hcum. apply IH; [done|lia|lia|lia]. }
  assert (add64 (w_cum w) (width src op) = Done (w_cum w + width src op)%Z) as Hsum
    by (unfold add64; by rewrite (proj2 (Z.leb_gt _ _)) by lia).
  cbn [group_loop]. destruct op; try (
    rewrite Hwd; cbn [mbind res_bind]; rewrite Hsum; apply Hnext; [by destruct Hw|done]).
  - simpl. apply Hnext; [by destruct Hw|unfold width; simpl; lia].
  - simpl. destruct (w_stack w) as [|[o at_] stack]; apply Hnext; try done;
      try (unfold width; simpl; lia).
    destruct Hw as [H1 H2 H3]. split; simpl; [by rewrite length_insert|by rewrite length_insert|].
    apply Forall_insert_lt; [done|lia].
Qed.

Lemma close_unbalanced_ok n w : widths_ok n w →
  length (close_unbalanced n w).1 = n ∧ length (close_unbalanced n w).2 = n ∧
  Forall (λ e, e < Nat.max 1 n) (close_unbalanced n w).2.
Proof.
  intros [H1 H2 H3]. unfold close_unbalanced. simpl.
  induction (w_stack w) as [|o stack (IH1 & IH2 & IH3)]; simpl; [done|].
  rewrite !length_insert. split_and!; [done..|]. apply Forall_insert_lt; [done|lia].
Qed.

Lemma group_widths_total src ops : printable src ops → ∃ gw gend,
  group_widths ops src = Done (gw, gend) ∧ length gw = length ops ∧ length gend = length ops ∧
  Forall (λ e, e < Nat.max 1 (length ops)) gend.
Proof.
  intros [Hops Hw]. unfold group_widths.
  destruct (group_loop_total (length ops) src 0 ops
    (MkWidths (replicate (length ops) 0%Z) (replicate (length ops) 0) 0 [])) as (w & -> & Hok);
    simpl; try lia; try done.
  { split; simpl; rewrite ?length_replicate; try done. apply Forall_replicate. lia. }
  destruct (close_unbalanced_ok _ _ Hok) as (? & ? & ?).
  destruct (close_unbalanced (length ops) w) as [gw gend]. by exists gw, gend.
Qed.

Lemma tail_widths_total src ops : Forall (in_source src) ops →
  ∃ tail, tail_widths ops src = Done tail ∧ length tail = S (length ops).
Proof.
  induction 1 as [|op ops Hop _ (tail & IH & Hlen)]; [by exists [0%Z]|].
  destruct (op_width_in _ _ Hop) as [Hwd _]. cbn [tail_widths]. rewrite IH. simpl.
  destruct tail as [|t tail]; [done|]. simpl in *.
  assert (∃ w, match op with
               | Hard | Blank | Line | Soft | Close => Done 0%Z
               | Open | Indent | Dedent => Done t
               | _ => w ← op_width op src; Done (sat_add64 w t) end = Done w) as [w ->].
  { destruct op; rewrite ?Hwd; simpl; eauto. }
  simpl. eexists. split; [done|]. simpl. lia.
Qed.

(** ** Texts and gaps *)

(** [t] can follow [prev] without a gap: the guard does not object. *)
Definition tight (prev : option (list byte)) (t : list byte) : Prop :=
  ∀ p b t0 rest, prev = Some p → last p = Some b → t = t0 :: rest → glues b t0 (head rest) = false.

(** A line comment or a multiline string: what follows on its line is part of it. *)
Definition line_text (t : list byte) : bool :=
  (at_is t 0 "/" && at_is t 1 "/") || (at_is t 0 backslash && at_is t 1 backslash).

(** [out] is the texts [ts] in order, with a gap before each: up to two newlines,
    then spaces; none at all only where the guard allows it, and a newline after
    a text that runs to the end of its line. *)
Inductive laid : list (list byte) → list byte → Prop :=
  | laid_nil : laid [] []
  | laid_snoc ts out k n t : laid ts out → t ≠ [] → k ≤ 2 →
      (k = 0 → n = 0 → tight (last ts) t) →
      (∀ p, last ts = Some p → line_text p = true → 1 ≤ k) →
      laid (ts ++ [t]) (out ++ replicate k newline ++ replicate n (" " : byte) ++ t).

(** The texts of a stream; an empty one is skipped. *)
Definition text_of (src : list byte) (op : Op) : option (list byte) :=
  match op with
  | Src a b => let t := take (b - a) (drop a src) in if bool_decide (t = []) then None else Some t
  | _ => None
  end.
Definition texts (src : list byte) (ops : list Op) : list (list byte) := omap (text_of src) ops.

Lemma laid_empty ts out : laid ts out → out = [] ↔ ts = [].
Proof.
  destruct 1 as [|ts out k n t _ Ht _ _ _]; [done|]. split; intros E.
  - rewrite app_assoc in E. apply app_eq_nil in E as [_ E]. by apply app_eq_nil in E as [_ ->].
  - by destruct ts.
Qed.

Lemma push_spaces_total fuel n : n ≤ fuel → push_spaces fuel n = Done (replicate n (" " : byte)).
Proof.
  revert n. induction fuel as [|fuel IH]; intros n Hn.
  { assert (n = 0) as -> by lia. done. }
  cbn [push_spaces]. case_bool_decide; [by subst|].
  unfold SPACES_len. rewrite IH by lia. simpl.
  rewrite <- replicate_add. by replace (Nat.min n 64 + (n - Nat.min n 64)) with n by lia.
Qed.

(** A stream breaks the line after each text that runs to the end of it; [open]
    is whether it has to now. *)
Definition line_after (src : list byte) (op : Op) (open : bool) : bool :=
  match text_of src op, op with
  | Some t, _ => line_text t
  | None, (Hard | Blank) => false
  | None, _ => open
  end.
Fixpoint lines_broken (src : list byte) (open : bool) (ops : list Op) : bool :=
  match ops with
  | [] => true
  | op :: ops =>
      negb (open && match text_of src op with Some _ => true | None => false end) &&
      lines_broken src (line_after src op open) ops
  end.

(** The state between two operations: [ts] are the texts printed so far. *)
Record printed (ts : list (list byte)) (open : bool) (r : Render) : Prop := {
  pr_laid : laid ts (r_out r);
  pr_last : r_last r = last ts ≫= last;
  pr_pending : r_pending r ≤ 2;
  pr_line : open = false → ∀ p, last ts = Some p → line_text p = true → 1 ≤ r_pending r }.

Lemma glues_space b b2 : glues " " b b2 = false.
Proof.
  unfold glues. replace (identish " ") with false by reflexivity.
  replace (is_dec " ") with false by reflexivity. reflexivity.
Qed.

Lemma last_text ts (t : list byte) : last (ts ++ [t]) ≫= last = last t.
Proof. by rewrite last_snoc. Qed.

Lemma push_text_printed ts r t k n : laid ts (r_out r) → t ≠ [] → k ≤ 2 →
  (k = 0 → n = 0 → tight (last ts) t) →
  (∀ p, last ts = Some p → line_text p = true → 1 ≤ k) → ∀ r',
  r_out r' = r_out r ++ replicate k newline ++ replicate n (" " : byte) →
  r_pending r' ≤ 2 → printed (ts ++ [t]) (line_text t) (push_text t r').
Proof.
  intros Hl Ht Hk Htight Hline r' Hout Hp'. split; simpl; [|by rewrite last_text|done|].
  - rewrite Hout, <- !app_assoc. by apply laid_snoc.
  - intros Hopen p Hp Hlp. rewrite last_snoc in Hp. injection Hp as ->. congruence.
Qed.

(** A comment that owns its line asks for a newline. *)
Lemma own_line_printed ts open (b : bool) r : printed ts open r →
  printed ts open (if b then set_break (Nat.max (r_pending r) 1) false r else r).
Proof.
  intros [H1 H2 H3 H4]. destruct b; [|done]. split; [done..| |]; simpl; [lia|]. intros. lia.
Qed.

Lemma render_src_printed ts r t : printed ts false r → t ≠ [] →
  ∃ r', render_src t r = Done r' ∧ printed (ts ++ [t]) (line_text t) r'.
Proof.
  intros [Hl Hlast Hp Hline] Ht. unfold render_src. rewrite bool_decide_eq_false_2 by done.
  specialize (Hline eq_refl). unfold flush_pending. case_bool_decide as Hpend.
  - rewrite push_spaces_total by done. simpl mbind. cbv beta iota.
    eexists. split; [done|]. apply own_line_printed.
    set (k := if bool_decide (r_out r = []) then 0 else if bool_decide (r_pending r = 2) then 2 else 1).
    assert (k = 0 → ts = []) as Hk0.
    { subst k. case_bool_decide as E; [by apply (laid_empty _ _ Hl) in E|]. by case_bool_decide. }
    eapply (push_text_printed ts r t k (r_indent r * INDENT)); try done.
    + subst k. repeat case_bool_decide; lia.
    + intros H0 _. rewrite (Hk0 H0). by intros p.
    + intros p Hp' _. destruct k; [|lia]. by rewrite (Hk0 eq_refl) in Hp'.
    + subst k. by repeat case_bool_decide.
    + simpl. lia.
  - simpl mbind. cbv beta iota. eexists. split; [done|]. simpl andb.
    assert (∀ p, last ts = Some p → line_text p = true → 1 ≤ 0) as Hline0
      by (intros p H1 H2; specialize (Hline p H1 H2); lia).
    unfold flush_space, guard. destruct (r_space r) eqn:Hs.
    + cbn [r_last]. destruct t as [|t0 rest]; [done|]. rewrite glues_space.
      eapply (push_text_printed ts r _ 0 1); try done; lia.
    + destruct (r_last r) as [p|] eqn:Er.
      * destruct t as [|t0 rest]; [done|]. destruct (glues p t0 (head rest)) eqn:Eg.
        -- eapply (push_text_printed ts r _ 0 1); try done; lia.
        -- eapply (push_text_printed ts r _ 0 0); try done; [lia| |by rewrite app_nil_r].
           intros _ _ q b t1 rest' Hq Hb [= <- <-]. rewrite Hq in Hlast. simpl in Hlast. congruence.
      * eapply (push_text_printed ts r _ 0 0); try done; [lia| |by rewrite app_nil_r].
        intros _ _ q b t1 rest' Hq Hb _. rewrite Hq in Hlast. simpl in Hlast. congruence.
Qed.

(** The columns of widths are read within their bounds. *)
Lemma render_op_printed gw gend tail src n i op ts open r : in_source src op →
  printed ts open r → open && bool_decide (is_Some (text_of src op)) = false → i < n →
  length gw = n → length gend = n → length tail = S n → Forall (λ e, e < Nat.max 1 n) gend →
  ∃ r', render_op gw gend tail src i op r = Done r' ∧
    printed (ts ++ option_list (text_of src op)) (line_after src op open) r'.
Proof.
  intros Hop Hpr Hopen Hi Hgw Hgend Htail Hends. pose proof Hpr as [H1 H2 H3 H4].
  assert (∀ f m sp k o, r_pending r ≤ k → k ≤ 2 → (o = false → open = false ∨ 1 ≤ k) →
    printed (ts ++ []) o (MkRender (r_out r) f m (r_col r) k sp (r_last r))) as Hkeep.
  { intros f m sp k o Hk1 Hk2 Ho. rewrite app_nil_r. split; [done..|]. simpl. intros E p Hp Hlp.
    destruct (Ho E) as [E'|?]; [|done]. specialize (H4 E' p Hp Hlp). lia. }
  assert (printed (ts ++ []) open r) as Hpr' by by rewrite app_nil_r.
  destruct op; unfold line_after; simpl;
    try (eexists; split; [done|]; try destruct (is_flat r); try apply Hkeep; simpl; try exact Hpr'; auto; lia).
  - simpl in Hop. rewrite slice_in by done. simpl. simpl in Hopen.
    destruct (decide (take (b - a) (drop a src) = [])) as [Ht|Ht].
    + rewrite (bool_decide_eq_true_2 _ Ht). simpl. exists r. split; [by rewrite Ht|done].
    + rewrite (bool_decide_eq_false_2 _ Ht) in *. simpl.
      rewrite bool_decide_eq_true_2, andb_true_r in Hopen by eauto. rewrite Hopen in Hpr.
      by apply render_src_printed.
  - destruct (lookup_lt_is_Some_2 gw i) as [w ->]; [lia|].
    destruct (lookup_lt_is_Some_2 gend i) as [e He]; [lia|]. simpl. rewrite He. simpl.
    rewrite Forall_lookup in Hends. specialize (Hends i e He).
    destruct (lookup_lt_is_Some_2 tail (e + 1)) as [x ->]; [lia|].
    simpl. eexists. split; [done|]. apply Hkeep; auto.
Qed.

Lemma render_loop_printed gw gend tail src n i ops ts open r : Forall (in_source src) ops →
  printed ts open r → lines_broken src open ops = true → i + length ops ≤ n → length gw = n →
  length gend = n → length tail = S n → Forall (λ e, e < Nat.max 1 n) gend →
  ∃ r', render_loop gw gend tail src i ops r = Done r' ∧
    laid (ts ++ texts src ops) (r_out r').
Proof.
  intros Hops. revert i ts open r.
  induction Hops as [|op ops Hop Hops IH]; intros i ts open r Hpr Hlines Hi ????.
  { exists r. simpl. rewrite app_nil_r. split; [done|]. apply Hpr. }
  simpl in Hi, Hlines. apply andb_true_iff in Hlines as [Hopen Hlines]. simpl render_loop.
  destruct (render_op_printed gw gend tail src n i op ts open r) as (r1 & -> & Hpr1); try done; [|lia|].
  { apply negb_true_iff in Hopen. destruct (text_of src op); by destruct open. }
  simpl. destruct (IH (S i) _ _ _ Hpr1) as (r2 & -> & Hpr2); try done; [lia|].
  exists r2. split; [done|]. unfold texts in *. csimpl.
  destruct (text_of src op); simpl in *; [by rewrite <- app_assoc in Hpr2|].
  by rewrite app_nil_r in Hpr2.
Qed.

(** The newline at the end of the file. *)
Definition end_line (out : list byte) : list byte :=
  if negb (bool_decide (out = [])) && negb (bool_decide (last out = Some newline))
  then out ++ [newline] else out.

Lemma render_laid src ops : printable src ops → lines_broken src false ops = true →
  ∃ out, render ops src = Done (end_line out) ∧ laid (texts src ops) out.
Proof.
  intros Hp Hlines. destruct (group_widths_total _ _ Hp) as (gw & gend & Hgw & Hl1 & Hl2 & Hends).
  destruct Hp as [Hops _]. destruct (tail_widths_total _ _ Hops) as (tail & Ht & Hl3).
  destruct (render_loop_printed gw gend tail src (length ops) 0 ops [] false
    (MkRender [] [] 0 0 0 false None)) as (r & Hr & Hl); try done.
  { split; [constructor|done|simpl; lia|done]. }
  exists (r_out r). split; [|done]. unfold render. rewrite Hgw. simpl. rewrite Ht. simpl.
  by rewrite Hr.
Qed.
