(* ===== verification/FmtRelex.v ===== *)
(** * Layout does not change the tokens

    The guard of FmtDoc against the lexer of Lexer: a token followed by text
    that it does not glue to is the same token, so the texts a stream prints
    are read back as they were printed. *)

From Stdlib Require Import Strings.Byte.
From S2P Require Import Prelude Token Lexer LexScan LexerProps FmtDoc FmtDocProps.
Local Open Scope nat_scope.
Local Open Scope byte_scope.

(** [w], that starts with [b], is one token of kind [k]. *)
Definition standing (k : TokenKind) (b : byte) (w : list byte) : Prop :=
  head w = Some b ∧ ∀ pos lx, lex_one pos b w lx = Done (push k pos lx, length w).

(** What follows [w] does not glue to it. *)
Definition boundary (w s : list byte) : Prop :=
  ∀ p c, last w = Some p → head s = Some c → glues p c (s !! 1) = false.

(** The kinds whose extent depends on the line they are on. *)
Definition line_kind (k : TokenKind) : bool :=
  match k with Whitespace | LineComment | MultilineStr => true | _ => false end.

(** ** Scanners past the end of a token *)

Lemma at_is_app l s k c : k < length l → at_is (l ++ s) k c = at_is l k c.
Proof. intros Hk. unfold at_is. by rewrite lookup_app_l. Qed.
Lemma at_ok_app l s k ok : k < length l → at_ok (l ++ s) k ok = at_ok l k ok.
Proof. intros Hk. unfold at_ok. by rewrite lookup_app_l. Qed.
Lemma at_is_next l s c : at_is (l ++ s) (length l) c = at_is s 0 c.
Proof. unfold at_is. by rewrite lookup_app_r, Nat.sub_diag by done. Qed.
Lemma at_ok_next l s ok : at_ok (l ++ s) (length l) ok = at_ok s 0 ok.
Proof. unfold at_ok. by rewrite lookup_app_r, Nat.sub_diag by done. Qed.

(** [s] does not start with a byte that satisfies [ok]. *)
Definition stops (ok : byte → bool) (s : list byte) : Prop := at_ok s 0 ok = false.

Lemma scan_while_app ok l s : scan_while ok l = length l → stops ok s →
  scan_while ok (l ++ s) = length l.
Proof.
  intros Hl Hs. induction l as [|b l IH]; simpl in *.
  - destruct s as [|c s]; [done|]. unfold stops, at_ok in Hs. simpl in *. by rewrite Hs.
  - destruct (ok b); [|done]. f_equal. apply IH. lia.
Qed.

Lemma scan_while_bound ok l s : stops ok s → scan_while ok (l ++ s) ≤ length l.
Proof.
  intros Hs. induction l as [|b l IH]; simpl; [|destruct (ok b); lia].
  destruct s as [|c s]; [done|]. unfold stops, at_ok in Hs. simpl in *. by rewrite Hs.
Qed.

Lemma scan_digit_run_bound ok l s : stops ok s → at_is s 0 "_" = false →
  scan_digit_run ok (l ++ s) ≤ length l.
Proof.
  intros Hs Hu. destruct s as [|c s]; [rewrite app_nil_r; apply scan_digit_run_le|].
  unfold stops, at_ok, at_is in *. simpl in Hs, Hu.
  induction l as [|b|b b' l IH IH'] using list_step_ind; simpl in *.
  - rewrite Hs, Hu. by destruct s.
  - rewrite Hs, andb_false_r. destruct (ok b); [|lia]. rewrite Hu. destruct s; simpl; lia.
  - destruct (ok b); [lia|]. destruct (isb _ b && ok b'); simpl; lia.
Qed.

Lemma scan_digit_run_last ok l n : scan_digit_run ok l = S n → at_ok l n ok = true.
Proof.
  revert n. induction l as [|b|b c l IH IH'] using list_step_ind; intros n; simpl; [done|..].
  - destruct (ok b) eqn:E; [|done]. intros [= <-]. done.
  - simpl in IH'. destruct (ok b) eqn:E.
    + intros [= <-]. destruct (if ok c then _ else _) eqn:Er; [done|]. by apply IH'.
    + destruct (isb _ b && ok c) eqn:E2; [|done]. intros [= <-].
      apply andb_true_iff in E2 as [_ E2]. destruct (scan_digit_run ok l) eqn:Er; [done|]. by apply IH.
Qed.

Lemma block_comment_app depth l s n : block_comment depth l = (n, true) →
  block_comment depth (l ++ s) = (n, true).
Proof.
  revert depth n. induction l as [|b|b c l IH IH'] using list_step_ind; intros depth n; [done..|].
  cbn [block_comment app]. destruct (isb "/" b && isb "*" c).
  { destruct (block_comment _ l) as [k t] eqn:E. intros [= <- ->]. by rewrite (IH _ _ E). }
  destruct (isb "*" b && isb "/" c).
  { destruct (depth - 1 =? 0)%Z; [done|].
    destruct (block_comment _ l) as [k t] eqn:E. intros [= <- ->]. by rewrite (IH _ _ E). }
  change (match l with [] => _ | _ :: _ => _ end) with (block_comment depth (c :: l)).
  change (match l ++ s with [] => _ | _ :: _ => _ end) with (block_comment depth ((c :: l) ++ s)).
  destruct (block_comment depth (c :: l)) as [k t] eqn:E. intros [= <- ->].
  by rewrite (IH' _ _ E).
Qed.

(** A quote ends the escapes: none reads past it. *)
Lemma string_escape_app l s n bad j : string_escape l = (n, bad) → l !! j = Some dquote → n ≤ j →
  string_escape (l ++ s) = (n, bad).
Proof.
  intros Hl Hj Hn. pose proof (lookup_lt_Some _ _ _ Hj) as Hlen.
  assert (∀ ok, ok dquote = false → at_ok l j ok = false) as Hq
    by (intros ok Hok; unfold at_ok; by rewrite Hj).
  revert Hl. unfold string_escape. destruct (l !! 1) as [c|] eqn:E1.
  2:{ apply lookup_ge_None in E1. intros [= <- _]. lia. }
  rewrite (lookup_app_l_Some l s 1 c E1). destruct (existsb _ _); [done|].
  assert (2 ≤ j → at_is (l ++ s) 2 "{" = at_is l 2 "{" ∧ at_ok (l ++ s) 2 is_hex = at_ok l 2 is_hex)
    as H2 by (intros; rewrite at_is_app, at_ok_app by lia; done).
  destruct (isb "x" c).
  { intros E. assert (2 ≤ n) as Hn2 by (destruct (_ && _) in E; injection E; lia).
    destruct (H2 ltac:(lia)) as [_ ->]. rewrite <- E. destruct (at_ok l 2 is_hex) eqn:E2; [|done].
    destruct (decide (j = 2)) as [->|Hne]; [by rewrite Hq in E2|].
    by rewrite at_ok_app by lia. }
  destruct (isb "u" c); [|done].
  intros E. assert (2 ≤ n) as Hn2 by (destruct (at_is l 2 "{") in E; [|injection E; lia];
    destruct (_ && _) in E; injection E; lia).
  destruct (H2 ltac:(lia)) as [-> _]. rewrite <- E. destruct (at_is l 2 "{") eqn:E2; [|done].
  assert (j ≠ 2) as Hne by (intros ->; unfold at_is in E2; by rewrite Hj in E2).
  set (q := 3 + scan_while is_hex (drop 3 l)) in *.
  assert (q ≤ n) as Hq3 by (destruct (_ && _) in E; injection E; lia).
  assert (3 + scan_while is_hex (drop 3 (l ++ s)) = q) as ->.
  { pose proof (scan_while_cut_drop is_hex (l ++ s) 3 (length l)) as Hcut.
    rewrite take_app_length in Hcut. subst q. rewrite Hcut; [done|].
    rewrite drop_app_le by lia. rewrite <- (take_drop (j - 3) (drop 3 l)), <- app_assoc.
    pose proof (scan_while_bound is_hex (take (j - 3) (drop 3 l)) (drop (j - 3) (drop 3 l) ++ s)).
    rewrite length_take, length_drop in H. apply (Nat.le_trans _ (3 + (j - 3))); [|lia].
    etrans; [apply Nat.add_le_mono_l, H|lia]. unfold stops.
    rewrite drop_drop. replace (3 + (j - 3)) with j by lia.
    rewrite at_ok_app by (rewrite length_drop; lia). unfold at_ok.
    by rewrite lookup_drop, Nat.add_0_r, Hj. }
  by rewrite at_is_app by lia.
Qed.

Lemma string_body_quote fuel l bad n bad' : string_body fuel l bad = Done (n, bad', true) →
  l !! (n - 1) = Some dquote.
Proof.
  revert l bad n bad'. induction fuel as [|fuel IH]; intros [|b l] bad n bad'; try done.
  cbn [string_body]. destruct (isb newline b) eqn:E1; [done|].
  destruct (isb dquote b) eqn:E2.
  { intros [= <- <-]. simpl. f_equal. by apply byte_dec_bl. }
  destruct (if isb backslash b then _ else _) as [k bad1] eqn:E3.
  destruct (string_body fuel _ _) as [| |[[n2 bad2] t]] eqn:E4; try done.
  intros Hn. assert (n = k + n2 ∧ t = true) as (-> & ->) by (injection Hn; auto).
  pose proof (IH _ _ _ _ E4) as H. rewrite lookup_drop in H.
  pose proof (string_body_pos _ _ _ _ _ E4). by replace (k + n2 - 1) with (k + (n2 - 1)) by lia.
Qed.

Lemma string_body_app fuel l bad n bad' s : string_body fuel l bad = Done (n, bad', true) →
  ∀ fuel', n ≤ fuel' → string_body fuel' (l ++ s) bad = Done (n, bad', true).
Proof.
  revert l bad n bad'. induction fuel as [|fuel IH]; intros [|b l] bad n bad'; try done.
  intros Hbody. pose proof (string_body_quote _ _ _ _ _ Hbody) as Hq. revert Hbody.
  cbn [string_body app]. destruct (isb newline b) eqn:E1; [done|].
  destruct (isb dquote b) eqn:E2.
  { intros [= <- <-] fuel' Hf. destruct fuel' as [|fuel']; [lia|]. cbn [string_body].
    by rewrite E1, E2. }
  destruct (if isb backslash b then _ else _) as [k bad1] eqn:E3.
  destruct (string_body fuel _ _) as [| |[[n2 bad2] t]] eqn:E4; try done.
  intros Hn fuel' Hf. assert (n = k + n2 ∧ bad' = bad2 ∧ t = true) as (-> & -> & ->)
    by (injection Hn; auto).
  pose proof (string_step_pos _ _ _ _ E3) as Hk. pose proof (string_body_pos _ _ _ _ _ E4) as Hn2.
  destruct fuel' as [|fuel']; [lia|]. cbn [string_body]. rewrite E1, E2.
  assert ((if isb backslash b then string_escape (b :: l ++ s) else (1, false)) = (k, bad1)) as ->.
  { destruct (isb backslash b); [|done].
    apply (string_escape_app (b :: l) s k bad1 (k + n2 - 1) E3 Hq). lia. }
  change (b :: l ++ s) with ((b :: l) ++ s).
  pose proof (lookup_lt_Some _ _ _ Hq) as Hlt. rewrite drop_app_le by lia.
  by rewrite (IH _ _ _ _ E4) by lia.
Qed.

(** ** What the guard rules out *)

Lemma isb_eq c b : isb c b = true ↔ b = c.
Proof. unfold isb. split; [apply byte_dec_bl|intros ->; apply byte_dec_lb; done]. Qed.

Lemma glues_pair a c b2 x : glues a c b2 = false →
  existsb (λ p : byte * byte, isb p.1 a && isb p.2 x) glue_pairs = true → isb x c = false.
Proof.
  intros Hg Hx. destruct (isb x c) eqn:E; [|done]. apply isb_eq in E as ->.
  unfold glues in Hg. by rewrite Hx, orb_true_r in Hg.
Qed.

Lemma glues_ident a c b2 : glues a c b2 = false → identish a = true → identish c = false.
Proof. unfold glues. intros Hg Ha. rewrite Ha in Hg. by destruct (identish c). Qed.

Lemma glues_fraction a b2 : glues a "." (Some b2) = false → is_dec a = true → is_dec b2 = false.
Proof.
  unfold glues. intros Hg Ha. rewrite Ha in Hg. destruct (is_dec b2); [|done].
  by rewrite orb_true_r in Hg.
Qed.

(** A byte of white space glues to nothing. *)
Lemma glues_white a c b2 : is_ws c = true → glues a c b2 = false.
Proof.
  intros Hc. unfold glues. rewrite !orb_false_iff, !andb_false_iff.
  assert (forallb (λ p : byte * byte, negb (is_ws p.2)) glue_pairs = true) as Hpairs
    by (vm_compute; reflexivity).
  assert (identish c = false ∧ isb "." c = false) as [Hi Hdot].
  { assert (c = " " ∨ c = x09 ∨ c = x0d ∨ c = newline) as [-> | [-> | [-> | ->]]]; [|done..].
    unfold is_ws in Hc. rewrite !orb_true_iff in Hc. unfold isb in Hc.
    destruct Hc as [[[H%byte_dec_bl|H%byte_dec_bl]|H%byte_dec_bl]|H%byte_dec_bl]; auto. }
  split_and!; [by right| |by left; right].
  apply not_true_iff_false. intros (p & Hin & Hp)%existsb_exists.
  apply andb_true_iff in Hp as [_ Hp]. apply byte_dec_bl in Hp.
  rewrite forallb_forall in Hpairs. specialize (Hpairs p Hin). rewrite <- Hp, Hc in Hpairs. done.
Qed.

Lemma identish_continue c : identish c = is_ident_continue c.
Proof. done. Qed.

(** ** Punctuation *)

Lemma scan_punct_short l k n : scan_punct l = Some (k, n) → n ≤ 3.
Proof. unfold scan_punct, two. case_ifs; try done; intros [= <- <-]; lia. Qed.

Lemma at_is_head b l c : at_is (b :: l) 0 c = isb c b.
Proof. done. Qed.
Lemma at_is_second b b' l c : at_is (b :: b' :: l) 1 c = isb c b'.
Proof. done. Qed.

(** [case_head] goes through the arms of [scan_punct] on a text that starts with
    [b], and closes each of them with [tac]. *)
Ltac case_head b tac := repeat match goal with
  | |- (if isb ?x b then _ else _) = _ → _ =>
      let E := fresh "E" in
      destruct (isb x b) eqn:E; [apply isb_eq in E; subst b; tac|clear E]
  end; try done.

(** [b c] is not a longer token than [b]. *)
Lemma scan_punct_one b c s k : scan_punct [b] = Some (k, 1) → glues b c (head s) = false →
  scan_punct (b :: c :: s) = Some (k, 1).
Proof.
  intros Hp Hg.
  assert (∀ x, existsb (λ p : byte * byte, isb p.1 b && isb p.2 x) glue_pairs = true →
    at_is (b :: c :: s) 1 x = false) as Hno.
  { intros x Hx. rewrite at_is_second. by eapply glues_pair. }
  clear Hg. revert Hp. unfold scan_punct, two. rewrite !at_is_head.
  case_head b ltac:(rewrite ?Hno by reflexivity; done).
Qed.

Lemma scan_punct_two b b' c s k : scan_punct [b; b'] = Some (k, 2) →
  glues b' c (head s) = false → scan_punct (b :: b' :: c :: s) = Some (k, 2).
Proof.
  intros Hp Hg.
  assert (∀ x, existsb (λ p : byte * byte, isb p.1 b' && isb p.2 x) glue_pairs = true →
    at_is (b :: b' :: c :: s) 2 x = false) as Hno.
  { intros x Hx. change (isb x c = false). by eapply glues_pair. }
  clear Hg. revert Hp. unfold scan_punct, two. rewrite !at_is_head, !at_is_second.
  case_head b ltac:(try done).
  - destruct (isb "<" b') eqn:E; [|done]. apply isb_eq in E as ->. by rewrite Hno.
  - destruct (isb ">" b') eqn:E; [|done]. apply isb_eq in E as ->. by rewrite Hno.
Qed.

Lemma scan_punct_app w s k : scan_punct w = Some (k, length w) → boundary w s →
  scan_punct (w ++ s) = Some (k, length w).
Proof.
  intros Hw Hb. pose proof (scan_punct_short _ _ _ Hw) as H3.
  pose proof (scan_punct_spec _ _ _ Hw) as [_ Hpos].
  destruct s as [|c s]; [by rewrite app_nil_r|].
  destruct w as [|b [|b' [|b'' [|]]]]; simpl in *; try lia.
  - apply scan_punct_one; [done|]. rewrite head_lookup. by apply (Hb b c).
  - apply scan_punct_two; [done|]. rewrite head_lookup. by apply (Hb b' c).
  - revert Hw. unfold scan_punct, two.
    rewrite !at_is_head, !at_is_second. done.
Qed.

(** ** Numbers *)

Lemma at_ok_drop l j ok : at_ok (drop j l) 0 ok = at_ok l j ok.
Proof. unfold at_ok. by rewrite lookup_drop, Nat.add_0_r. Qed.

Lemma at_ok_impl l k (ok ok' : byte → bool) : (∀ b, ok b = true → ok' b = true) →
  at_ok l k ok = true → at_ok l k ok' = true.
Proof. unfold at_ok. destruct (l !! k); [|done]. auto. Qed.

Lemma is_dec_ident b : is_dec b = true → is_ident_continue b = true.
Proof. unfold is_ident_continue. intros ->. by rewrite orb_true_r. Qed.

Lemma radix_ident ok b : ok = is_hex ∨ ok = is_oct ∨ ok = is_bin →
  ok b = true → is_ident_continue b = true.
Proof.
  intros Hok Hb.
  assert (∀ lo hi, (code "0" <=? code lo)%N = true → (code hi <=? code "9")%N = true →
    in_range lo hi b = true → is_dec b = true) as Hsub.
  { intros lo hi. unfold is_dec, in_range. rewrite !andb_true_iff, !N.leb_le. lia. }
  destruct Hok as [-> | [-> | ->]].
  - unfold is_hex in Hb. unfold is_ident_continue, is_ascii_alphabetic.
    destruct (is_dec b); [by rewrite orb_true_r|]. simpl in Hb.
    assert (in_range "a" "z" b || in_range "A" "Z" b = true) as ->; [|done].
    unfold in_range in *. rewrite orb_true_iff, !andb_true_iff, !N.leb_le in *.
    change (code "f") with 102%N in Hb. change (code "F") with 70%N in Hb.
    change (code "z") with 122%N. change (code "Z") with 90%N. lia.
  - by apply is_dec_ident, (Hsub "0" "7").
  - apply is_dec_ident. unfold is_bin in Hb. rewrite orb_true_iff, !isb_eq in Hb.
    by destruct Hb as [-> | ->].
Qed.

(** The last byte of a literal's digits. *)
Lemma run_last ok l j : at_ok l j ok = true →
  at_ok l (j + scan_digit_run ok (drop j l) - 1) ok = true.
Proof.
  intros Hj. destruct (scan_digit_run ok (drop j l)) as [|n] eqn:E.
  - rewrite <- at_ok_drop in Hj. destruct (drop j l) as [|b l'] eqn:Ed; [done|].
    pose proof (scan_digit_run_pos ok b l' Hj). lia.
  - apply scan_digit_run_last in E. replace (j + S n - 1) with (j + n) by lia.
    unfold at_ok in *. by rewrite lookup_drop in E.
Qed.

Lemma number_digits_last l p r : at_ok l 0 is_dec = true → number_digits l = (p, r) →
  at_ok l (p - 1) is_ident_continue = true ∧ (r = false → at_ok l (p - 1) is_dec = true).
Proof.
  intros Hd. pose proof (run_last is_dec l 0 Hd) as Hrun. simpl in Hrun.
  assert (at_ok l (scan_digit_run is_dec l - 1) is_ident_continue = true ∧
    (false = false → at_ok l (scan_digit_run is_dec l - 1) is_dec = true)) as Hdec
    by (split; [by eapply at_ok_impl, Hrun; apply is_dec_ident|done]).
  unfold number_digits. destruct (at_is l 0 "0"); [|by intros [= <- <-]].
  destruct (if at_is l 1 "x" then _ else _) as [ok|] eqn:Eok; [|by intros [= <- <-]].
  destruct (at_ok l 2 ok) eqn:E2; intros [= <- <-]; [|done]. split; [|done].
  apply (at_ok_impl _ _ ok); [|exact (run_last ok l 2 E2)]. intros b. apply radix_ident.
  destruct (at_is l 1 "x"); [injection Eok; auto|].
  destruct (at_is l 1 "o"); [injection Eok; auto|].
  destruct (at_is l 1 "b"); [injection Eok; auto|done].
Qed.

Lemma number_body_last l p r f : at_ok l 0 is_dec = true → number_body l = (p, r, f) →
  at_ok l (p - 1) is_ident_continue = true.
Proof.
  intros Hd. unfold number_body. destruct (number_digits l) as [p0 r0] eqn:E0.
  destruct (number_digits_last _ _ _ Hd E0) as [H0 _].
  assert (∀ j, at_ok l j is_dec = true →
    at_ok l (j + scan_digit_run is_dec (drop j l) - 1) is_ident_continue = true) as Hrun.
  { intros j Hj. eapply at_ok_impl, run_last; [apply is_dec_ident|done]. }
  destruct r0; [by intros [= <- <- <-]|].
  destruct (number_fraction l p0) as [p1 f1] eqn:E1.
  assert (at_ok l (p1 - 1) is_ident_continue = true) as H1.
  { revert E1. unfold number_fraction. destruct (_ && _) eqn:E; intros [= <- <-]; [|done].
    apply andb_true_iff in E as [_ E]. by apply Hrun. }
  destruct (number_exponent l p1 f1) as [p2 f2] eqn:E2. intros [= <- <- <-].
  revert E2. unfold number_exponent. destruct (_ || _); [|by intros [= <- <-]].
  destruct (at_ok l (if _ : bool then _ else _) is_dec) eqn:E; intros [= <- <-]; [|done].
  by apply Hrun.
Qed.

(** What follows a literal: nothing an identifier continues with. *)
Section literal.
Context (w s : list byte) (b : byte) (Hb : head w = Some b) (Hd : is_dec b = true).
Context (Hs : stops is_ident_continue s).

Lemma literal_pos : 1 ≤ length w.
Proof using Hb. pose proof Hb as H. rewrite head_lookup in H. by apply lookup_lt_Some in H. Qed.

Lemma stops_sub (ok : byte → bool) : (∀ b, ok b = true → is_ident_continue b = true) → stops ok s.
Proof using Hs.
  intros Hok. unfold stops in *. apply not_true_iff_false. intros H.
  apply (at_ok_impl s 0 ok is_ident_continue Hok) in H. congruence.
Qed.

Lemma stops_is c : is_ident_continue c = true → at_is s 0 c = false.
Proof using Hs.
  intros Hc. unfold stops, at_ok, at_is in *. destruct (s !! 0) as [x|]; [|done].
  apply not_true_iff_false. intros ->%isb_eq. congruence.
Qed.

Lemma run_bound ok j : (∀ b, ok b = true → is_ident_continue b = true) → j ≤ length w →
  j + scan_digit_run ok (drop j (w ++ s)) ≤ length w.
Proof using Hs.
  intros Hok Hj. rewrite drop_app_le by done.
  pose proof (scan_digit_run_bound ok (drop j w) s (stops_sub ok Hok)
    (stops_is "_" eq_refl)) as H.
  rewrite length_drop in H. lia.
Qed.

Lemma at_next ok k : (∀ b, ok b = true → is_ident_continue b = true) →
  k ≤ length w → at_ok (w ++ s) k ok = true → k < length w.
Proof using Hs.
  intros Hok Hk Ht. destruct (decide (k = length w)) as [->|]; [|lia].
  rewrite at_ok_next in Ht. pose proof (stops_sub ok Hok). unfold stops in *. congruence.
Qed.

Lemma at_next_is c k : is_ident_continue c = true →
  k ≤ length w → at_is (w ++ s) k c = true → k < length w.
Proof using Hs.
  intros Hc Hk Ht. destruct (decide (k = length w)) as [->|]; [|lia].
  rewrite at_is_next in Ht. pose proof (stops_is c Hc). congruence.
Qed.

Lemma digits_bound p r : number_digits (w ++ s) = (p, r) → p ≤ length w.
Proof using Hb Hs.
  pose proof literal_pos as Hpos. unfold number_digits.
  pose proof (run_bound is_dec 0 is_dec_ident ltac:(lia)) as Hdec. simpl in Hdec.
  destruct (at_is (w ++ s) 0 "0"); [|by intros [= <- _]].
  destruct (if at_is (w ++ s) 1 "x" then _ else _) as [ok|] eqn:Eok; [|by intros [= <- _]].
  assert ((∀ b, ok b = true → is_ident_continue b = true) ∧ 1 < length w) as [Hok H1].
  { destruct (at_is (w ++ s) 1 "x") eqn:Ex; [injection Eok as <-|
    destruct (at_is (w ++ s) 1 "o") eqn:Eo; [injection Eok as <-|
    destruct (at_is (w ++ s) 1 "b") eqn:Eb; [injection Eok as <-|done]]].
    + split; [intros c; apply (radix_ident is_hex c); auto|exact (at_next_is "x" 1 eq_refl Hpos Ex)].
    + split; [intros c; apply (radix_ident is_oct c); auto|exact (at_next_is "o" 1 eq_refl Hpos Eo)].
    + split; [intros c; apply (radix_ident is_bin c); auto|exact (at_next_is "b" 1 eq_refl Hpos Eb)]. }
  destruct (at_ok (w ++ s) 2 ok) eqn:E2; intros [= <- _]; [|done].
  apply (run_bound ok 2 Hok). lia.
Qed.

(** A literal that ends in a digit is not followed by a fraction. *)
Definition no_fraction : Prop :=
  at_ok w (length w - 1) is_dec = true → at_is s 0 "." = true → at_ok s 1 is_dec = false.

Lemma fraction_bound p p' f' : no_fraction → at_ok (w ++ s) (p - 1) is_dec = true → 1 ≤ p ≤ length w →
  number_fraction (w ++ s) p = (p', f') → p' ≤ length w.
Proof using Hs.
  intros Hfrac Hlast Hp. unfold number_fraction. destruct (at_is (w ++ s) p ".") eqn:E1; simpl;
    [|intros [= <- _]; lia].
  destruct (at_ok (w ++ s) (p + 1) is_dec) eqn:E2; intros [= <- _]; [|lia].
  assert (p < length w) as Hlt.
  { destruct (decide (p = length w)) as [->|]; [|lia]. rewrite at_is_next in E1.
    rewrite at_ok_app in Hlast by lia. specialize (Hfrac Hlast E1).
    unfold at_ok in E2, Hfrac. rewrite lookup_app_r in E2 by lia.
    replace (length w + 1 - length w) with 1 in E2 by lia. by rewrite E2 in Hfrac. }
  apply (run_bound is_dec (p + 1) is_dec_ident). lia.
Qed.

(** The exponent of the whole text is not that of [w] only when [w] ends in the
    [e] of one: then [w] alone is a literal with a bad suffix. *)
Lemma exponent_bound p f p' f' : p ≤ length w → number_exponent (w ++ s) p f = (p', f') →
  p' ≤ length w ∨
  (p + 1 = length w ∧ (at_is w p "e" || at_is w p "E" = true) ∧
   number_exponent w p f = (p, f)).
Proof using Hs.
  intros Hp. unfold number_exponent.
  destruct (at_is (w ++ s) p "e" || at_is (w ++ s) p "E") eqn:E1; [|intros [= <- _]; auto].
  assert (p < length w) as Hlt.
  { apply orb_true_iff in E1 as [E1|E1]; [apply (at_next_is "e" p)|apply (at_next_is "E" p)]; done. }
  rewrite !at_is_app in E1 by done. rewrite E1.
  set (sign := at_is (w ++ s) (p + 1) "+" || at_is (w ++ s) (p + 1) "-").
  destruct (at_ok (w ++ s) (if sign then _ else _) is_dec) eqn:E2; intros [= <- _]; [|auto].
  destruct (decide (p + 1 = length w)) as [Hend|Hend].
  - right. split_and!; [done..|].
    assert (∀ c, at_is w (p + 1) c = false) as Hno.
    { intros c. unfold at_is. by rewrite (proj2 (lookup_ge_None w (p + 1))) by lia. }
    rewrite !Hno. simpl. unfold at_ok. by rewrite (proj2 (lookup_ge_None w (p + 1))) by lia.
  - left. destruct sign; [|].
    + assert (p + 1 + 1 < length w); [|apply run_bound; [apply is_dec_ident|lia]].
      apply (at_next is_dec); [apply is_dec_ident|lia|done].
    + apply run_bound; [apply is_dec_ident|lia].
Qed.

Lemma body_bound p r f : no_fraction → number_body (w ++ s) = (p, r, f) →
  p ≤ length w ∨
  ∃ q f', q + 1 = length w ∧ number_body w = (q, false, f') ∧
    (at_is w q "e" || at_is w q "E" = true).
Proof using Hb Hd Hs.
  intros Hfrac. unfold number_body. pose proof literal_pos as Hpos.
  assert (at_ok (w ++ s) 0 is_dec = true) as Hd0.
  { rewrite at_ok_app by lia. unfold at_ok. by rewrite <- head_lookup, Hb. }
  assert (at_ok w 0 is_dec = true) as Hdw by (by rewrite at_ok_app in Hd0 by lia).
  destruct (number_digits (w ++ s)) as [p0 r0] eqn:E0.
  pose proof (digits_bound _ _ E0) as H0.
  pose proof (number_digits_last _ _ _ Hd0 E0) as [_ Hlast].
  pose proof (number_digits_le _ _ _ Hd0 E0) as Hle0.
  destruct r0; [intros [= <- _ _]; auto|].
  destruct (number_fraction (w ++ s) p0) as [p1 f1] eqn:E1.
  pose proof (fraction_bound _ _ _ Hfrac (Hlast eq_refl) (conj (proj1 Hle0) H0) E1) as H1.
  destruct (number_exponent (w ++ s) p1 f1) as [p2 f2] eqn:E2. intros [= <- _ _].
  destruct (exponent_bound _ _ _ _ H1 E2) as [|(Hend & He & Hw)]; [auto|]. right.
  exists p1, f1. split_and!; [done| |done].
  assert (∀ m, m = length w → take m (w ++ s) = w) as Htake
    by (intros m ->; apply take_app_length).
  rewrite <- (Htake _ eq_refl).
  pose proof (number_fraction_le _ _ _ _ (proj2 Hle0) E1) as Hf1.
  rewrite (number_digits_cut _ (length w) _ _ E0) by done.
  rewrite (number_fraction_cut _ (length w) _ _ _ E1) by lia. by rewrite Htake, Hw.
Qed.

(** A literal that stands alone stays what it is. *)
Lemma lex_number_app k pos lx : no_fraction →
  (∀ pos lx, lex_number pos w lx = (push k pos lx, length w)) →
  lex_number pos (w ++ s) lx = (push k pos lx, length w).
Proof using Hb Hd Hs.
  intros Hfrac Hw. pose proof literal_pos as Hpos.
  destruct (number_body (w ++ s)) as [[p r] f] eqn:Hbody.
  destruct (body_bound _ _ _ Hfrac Hbody) as [Hp|(q & f' & Hq & Hbw & He)].
  - assert (number_end (w ++ s) p ≤ length w) as He.
    { unfold number_end. rewrite drop_app_le by done.
      pose proof (scan_while_bound is_ident_continue (drop p w) s Hs) as H.
      rewrite length_drop in H. lia. }
    rewrite <- (Hw pos lx).
    transitivity (lex_number pos (take (length w) (w ++ s)) lx); [|by rewrite take_app_length].
    rewrite (lex_number_body _ (w ++ s) _ p r f) by done.
    rewrite (lex_number_body _ (take _ _) _ p r f).
    2:{ apply (number_body_cut b); [|done..]. by destruct w. }
    cbv zeta. by rewrite number_end_cut, suffix_cut by exact He.
  - exfalso. specialize (Hw 0 (MkLexer [] [] [])).
    rewrite (lex_number_body _ w _ q false f') in Hw by done. cbv zeta in Hw.
    assert (∃ x, drop q w = [x] ∧ is_legal_suffix [x] false f' = false ∧
      is_ident_continue x = true) as (x & Hx & Hleg & Hic).
    { assert (∃ x, w !! q = Some x ∧ (x = "e" ∨ x = "E")) as (x & Hx & Hxe).
      { unfold at_is in He. destruct (w !! q) as [x|]; [|done]. exists x. split; [done|].
        by rewrite orb_true_iff, !isb_eq in He. }
      exists x. split; [|by destruct Hxe as [-> | ->]; destruct f'].
      rewrite (drop_S w x q Hx). f_equal. apply drop_ge. lia. }
    assert (scan_while is_ident_continue [x] = 1) as Hone by (simpl; by rewrite Hic).
    unfold number_end in Hw. rewrite Hx, Hone in Hw.
    replace (q + 1 - q) with 1 in Hw by lia. change (take 1 [x]) with [x] in Hw.
    rewrite Hleg in Hw.
    apply (f_equal (λ r : Lexer * nat, length (lx_kinds r.1))) in Hw. done.
Qed.
End literal.

(** ** A token and what follows it *)

Lemma push_kind k k' lx (n n' : nat) : (push k 0 lx, n) = (push k' 0 lx, n') → k = k' ∧ n = n'.
Proof.
  intros H. split; [|by injection H].
  apply (f_equal (λ r : Lexer * nat, last (lx_kinds r.1))) in H. simpl in H.
  rewrite !last_snoc in H. by injection H.
Qed.

Lemma push_not_diag k k' pos c e lx (n n' : nat) : (push k pos lx, n) ≠ (push k' pos (diag pos e c lx), n').
Proof.
  intros H. apply (f_equal (λ r : Lexer * nat, length (lx_diags r.1))) in H. simpl in H.
  rewrite length_app in H. simpl in H. lia.
Qed.

Lemma boundary_stops w s p : boundary w s → last w = Some p → identish p = true →
  stops is_ident_continue s.
Proof.
  intros Hb Hp Hi. unfold stops, at_ok. destruct s as [|c s]; [done|].
  specialize (Hb p c Hp eq_refl). by apply glues_ident in Hb.
Qed.

Lemma last_at w ok : at_ok w (length w - 1) ok = true → ∃ p, last w = Some p ∧ ok p = true.
Proof.
  unfold at_ok. rewrite last_lookup. replace (pred (length w)) with (length w - 1) by lia.
  destruct (w !! _) as [p|]; [|done]. by exists p.
Qed.

Lemma boundary_fraction w s : boundary w s → no_fraction w s.
Proof.
  intros Hb Hd Hdot. apply last_at in Hd as (p & Hp & Hd).
  destruct s as [|c s]; [done|]. unfold at_is in Hdot. simpl in Hdot. apply isb_eq in Hdot as ->.
  specialize (Hb p "." Hp eq_refl). unfold at_ok. destruct ((_ :: s) !! 1) as [d|] eqn:E; [|done].
  by apply glues_fraction in Hb.
Qed.

Lemma head_single (w : list byte) b : head w = Some b → ¬ 1 < length w → w = [b].
Proof. destruct w as [|? []]; simpl; [done|congruence|lia]. Qed.

Lemma last_tail (w : list byte) p : 1 < length w → last w = Some p → last (drop 1 w) = Some p.
Proof. destruct w as [|x [|y w']]; simpl; [lia|lia|done]. Qed.

Lemma word_last l x : scan_while is_ident_continue l = length l → last l = Some x →
  is_ident_continue x = true.
Proof.
  induction l as [|y l IH]; [done|]. simpl. destruct (is_ident_continue y) eqn:E; [|done].
  destruct l as [|z l]; [by intros _ [= <-]|]. intros [= Hl] Hx. by apply IH.
Qed.

Lemma Done_inj {A} (x y : A) : Done x = Done y → x = y.
Proof. congruence. Qed.

Section app.
Context (k : TokenKind) (b : byte) (w s : list byte).
Context (Hhead : head w = Some b) (Hlex : ∀ pos lx, lex_one pos b w lx = Done (push k pos lx, length w)).
Context (Hline : line_kind k = false) (Hplain : plain_kind k = true) (Hb : boundary w s).

Lemma app_pos : 1 ≤ length w.
Proof using Hhead. pose proof Hhead as H. rewrite head_lookup in H. by apply lookup_lt_Some in H. Qed.

(** A test of the dispatch on the longer text. *)
Lemma test_app c c' :
  existsb (λ p : byte * byte, isb p.1 c && isb p.2 c') glue_pairs = true →
  isb c b && at_is (w ++ s) 1 c' = isb c b && at_is w 1 c'.
Proof using Hhead Hb.
  intros Hpair. pose proof app_pos as Hpos.
  destruct (decide (1 < length w)) as [|H1]; [by rewrite at_is_app|].
  assert (w = [b]) as Hw by (by apply head_single).
  destruct (isb c b) eqn:E; [|done]. apply isb_eq in E. subst c.
  replace 1 with (length w) at 1 by (rewrite Hw; done). rewrite at_is_next, Hw.
  unfold at_is. destruct (s !! 0) as [x|] eqn:Ex; [|done].
  apply (glues_pair b x (s !! 1)); [|done]. apply Hb; [by rewrite Hw|by rewrite head_lookup].
Qed.

(** [\\] with nothing after it is no token. *)
Lemma test_backslash : isb backslash b && at_is w 1 backslash = false →
  isb backslash b && at_is (w ++ s) 1 backslash = false.
Proof using Hhead Hlex Hline Hplain Hb.
  intros Hw. pose proof app_pos as Hpos.
  destruct (decide (1 < length w)) as [|H1]; [by rewrite at_is_app|].
  assert (w = [b]) as Hwb by (by apply head_single).
  destruct (isb backslash b) eqn:E; [|done]. apply isb_eq in E. exfalso.
  specialize (Hlex 0 (MkLexer [] [] [])). rewrite Hwb, E in Hlex. vm_compute in Hlex. done.
Qed.

Lemma app_word : (∀ pos lx, lex_one pos b w lx = Done (lex_ident_or_keyword pos w lx)) →
  is_ident_start b = true → ∀ pos lx,
  lex_ident_or_keyword pos (w ++ s) lx = (push k pos lx, length w).
Proof using Hhead Hlex Hb Hline Hplain.
  intros Hgo Hstart pos lx. pose proof app_pos as Hpos.
  assert (lex_ident_or_keyword pos w lx = (push k pos lx, length w)) as Hw.
  { specialize (Hlex pos lx). rewrite Hgo in Hlex. by apply Done_inj in Hlex. }
  rewrite <- Hw. unfold lex_ident_or_keyword in *.
  assert (1 + scan_while is_ident_continue (drop 1 w) = length w) as Hlen by (by injection Hw).
  rewrite Hlen. rewrite drop_app_le by done.
  rewrite (scan_while_app _ (drop 1 w)); [| |].
  - rewrite length_drop. replace (1 + (length w - 1)) with (length w) by lia.
    by rewrite take_app_length, firstn_all.
  - rewrite length_drop. lia.
  - destruct (last w) as [p|] eqn:Hp; [|apply last_None in Hp; rewrite Hp in Hpos; simpl in Hpos; lia].
    apply (boundary_stops w s p Hb Hp). rewrite identish_continue.
    destruct (decide (1 < length w)) as [H1|H1].
    + apply (word_last (drop 1 w)); [rewrite length_drop; lia|by apply last_tail].
    + pose proof (head_single w b Hhead H1) as Hw1. rewrite Hw1 in Hp. injection Hp as <-.
      unfold is_ident_start in Hstart. unfold is_ident_continue.
      apply orb_true_iff in Hstart as [-> | ->]; [done|]. by rewrite orb_true_r.
Qed.

Lemma app_string : (∀ pos lx, lex_one pos b w lx = lex_string pos w lx) →
  ∀ pos lx, lex_string pos (w ++ s) lx = Done (push k pos lx, length w).
Proof using Hhead Hlex Hline Hplain Hb.
  intros Hgo pos lx. pose proof app_pos as Hpos.
  specialize (Hlex 0 (MkLexer [] [] [])). rewrite Hgo in Hlex. unfold lex_string in *.
  destruct (string_body_total (length w) (drop 1 w) false) as (n & bad & t & Hn & Hle);
    [rewrite length_drop; lia|].
  rewrite Hn in Hlex. simpl in Hlex. destruct t; [destruct bad|];
    apply Done_inj in Hlex; try by destruct k; simplify_eq.
  assert (S n = length w ∧ k = Str) as [Hlen ->] by (by injection Hlex).
  rewrite drop_app_le by done.
  rewrite (string_body_app _ _ _ _ _ s Hn) by (rewrite length_app; lia).
  simpl. by rewrite Hlen.
Qed.

Lemma app_block : (∀ pos lx, lex_one pos b w lx = Done (lex_block_comment pos w lx)) → 2 ≤ length w →
  ∀ pos lx, lex_block_comment pos (w ++ s) lx = (push k pos lx, length w).
Proof using Hhead Hlex Hline Hplain Hb.
  intros Hgo H2 pos lx.
  specialize (Hlex 0 (MkLexer [] [] [])). rewrite Hgo in Hlex. apply Done_inj in Hlex.
  unfold lex_block_comment in *. rewrite drop_app_le by done.
  destruct (block_comment 1 (drop 2 w)) as [n t] eqn:E. destruct t; [|by destruct k; simplify_eq].
  rewrite (block_comment_app _ _ s _ E).
  assert (S (S n) = length w ∧ k = BlockComment) as [Hlen ->] by (by injection Hlex).
  simpl. by rewrite Hlen.
Qed.

Lemma app_dots : (∀ pos lx, lex_one pos b w lx = Done (lex_dots pos w lx)) →
  ∀ pos lx, lex_dots pos (w ++ s) lx = (push k pos lx, length w).
Proof using Hhead Hlex Hline Hplain Hb.
  intros Hgo pos lx. specialize (Hlex 0 (MkLexer [] [] [])). rewrite Hgo in Hlex.
  apply Done_inj in Hlex. unfold lex_dots in *.
  assert (∀ c, at_is w 2 c = true → at_is (w ++ s) 2 c = true) as Hkeep.
  { intros c Hc. rewrite at_is_app; [done|]. by apply at_is_lt in Hc. }
  destruct (at_is w 2 "<") eqn:E1.
  { rewrite (Hkeep _ E1). injection Hlex as <- <-. done. }
  destruct (at_is w 2 "=") eqn:E2; [|by destruct k; simplify_eq].
  assert (3 = length w ∧ k = DotDotEq) as [Hlen ->] by (by injection Hlex).
  rewrite at_is_app by (apply at_is_lt in E2; lia). rewrite E1, (Hkeep _ E2). by rewrite Hlen.
Qed.

Lemma app_other : (∀ pos lx, lex_one pos b w lx = Done (lex_other pos b w lx)) →
  ∀ pos lx, lex_other pos b (w ++ s) lx = (push k pos lx, length w).
Proof using Hhead Hlex Hline Hplain Hb.
  intros Hgo pos lx. specialize (Hlex 0 (MkLexer [] [] [])). rewrite Hgo in Hlex.
  apply Done_inj in Hlex. unfold lex_other in *.
  destruct (scan_punct w) as [[k' n]|] eqn:E; [|by destruct k; simplify_eq].
  assert (n = length w ∧ k = k') as [-> ->] by (by injection Hlex).
  by rewrite (scan_punct_app _ _ _ E Hb).
Qed.

(** A literal ends in a byte of an identifier. *)
Lemma number_last : (∀ pos lx, lex_number pos w lx = (push k pos lx, length w)) →
  is_dec b = true → ∃ p, last w = Some p ∧ identish p = true.
Proof using Hhead Hplain.
  intros Hnum Hd. pose proof app_pos as Hpos.
  assert (at_ok w 0 is_dec = true) as Hd0 by (unfold at_ok; by rewrite <- head_lookup, Hhead).
  destruct (number_body w) as [[p r] f] eqn:Hbody.
  pose proof (number_body_last _ _ _ _ Hd0 Hbody) as Hlast.
  specialize (Hnum 0 (MkLexer [] [] [])).
  rewrite (lex_number_body _ w _ p r f) in Hnum by done. cbv zeta in Hnum.
  pose proof (number_body_le b w Hhead p r f Hd Hbody) as Hp.
  destruct (bool_decide _) eqn:Hs.
  - apply push_kind in Hnum as [_ Hlen]. rewrite Hlen in Hlast. by apply last_at.
  - destruct (is_legal_suffix _ _ _).
    + apply push_kind in Hnum as [_ Hend]. unfold number_end in Hend.
      pose proof (scan_while_le is_ident_continue (drop p w)) as Hle. rewrite length_drop in Hle.
      destruct (last w) as [x|] eqn:Hx; [|apply last_None in Hx; rewrite Hx in Hpos; simpl in Hpos; lia].
      exists x. split; [done|]. apply (word_last (drop p w)); [rewrite length_drop; lia|].
      apply bool_decide_eq_false in Hs. rewrite <- Hx. rewrite <- (take_drop p w) at 2.
      rewrite last_app. destruct (last (drop p w)) eqn:E; [done|].
      apply last_None in E. rewrite E in Hs. by rewrite take_nil in Hs.
    + exfalso. apply (f_equal (λ r : Lexer * nat, length (lx_kinds r.1))) in Hnum. done.
Qed.

(** A token is not changed by what follows it, if it does not glue to it. *)
Lemma standing_app pos lx : lex_one pos b (w ++ s) lx = Done (push k pos lx, length w).
Proof using Hhead Hlex Hline Hplain Hb.
  pose proof Hlex as Hlex'. unfold lex_one. unfold lex_one in Hlex'.
  destruct (is_ws b) eqn:E1; [exfalso|].
  { specialize (Hlex' 0 (MkLexer [] [] [])). apply Done_inj, push_kind in Hlex' as [<- _]. done. }
  rewrite (test_app "/" "/"), (test_app "/" "*"), (test_app "." ".") by reflexivity.
  destruct (isb "/" b && at_is w 1 "/") eqn:E2; [exfalso|].
  { specialize (Hlex' 0 (MkLexer [] [] [])). apply Done_inj, push_kind in Hlex' as [<- _]. done. }
  destruct (isb "/" b && at_is w 1 "*") eqn:E3.
  { f_equal. apply app_block; [intros; by rewrite Hlex, <- Hlex'|].
    apply andb_true_iff in E3 as [_ E3%at_is_lt]. lia. }
  destruct (isb backslash b && at_is w 1 backslash) eqn:E4; [exfalso|rewrite test_backslash by done].
  { specialize (Hlex' 0 (MkLexer [] [] [])).
    destruct (scan_multiline_string (length w) w) as [| |n]; try done.
    apply Done_inj, push_kind in Hlex' as [<- _]. done. }
  destruct (is_ident_start b) eqn:E5.
  { f_equal. apply app_word; [intros; by rewrite Hlex, <- Hlex'|done]. }
  destruct (is_dec b) eqn:E6.
  { f_equal. assert (∀ pos lx, lex_number pos w lx = (push k pos lx, length w)) as Hnum
      by (intros; by apply Done_inj).
    destruct (number_last Hnum E6) as (p & Hp & Hi).
    apply (lex_number_app w s b); try done; [|by apply boundary_fraction].
    by eapply boundary_stops. }
  destruct (isb dquote b) eqn:E7; [apply app_string; intros; by rewrite Hlex, <- Hlex'|].
  destruct (isb "." b && at_is w 1 ".") eqn:E8.
  { f_equal. apply app_dots. intros; by rewrite Hlex, <- Hlex'. }
  f_equal. apply app_other. intros; by rewrite Hlex, <- Hlex'.
Qed.
End app.

(** ** Tokens that run to the end of their line *)

Lemma keyword_line w : line_kind (default Ident (keyword_kind w)) = false.
Proof.
  unfold keyword_kind. destruct (List.find _ keywords) as [[t k]|] eqn:E; [|done].
  apply find_some in E as [Hin _]. simpl.
  assert (forallb (λ kv : string * TokenKind, negb (line_kind kv.2)) keywords = true) as Hall
    by (vm_compute; reflexivity).
  rewrite forallb_forall in Hall. specialize (Hall (t, k) Hin). by apply negb_true_iff in Hall.
Qed.

Lemma scan_punct_line l k n : scan_punct l = Some (k, n) → line_kind k = false.
Proof. unfold scan_punct, two. case_ifs; try done; by intros [= <- <-]. Qed.

Lemma push_kind_diag k k' pos e c lx (n n' : nat) :
  (push k 0 lx, n) = (push k' pos (diag pos e c lx), n') → False.
Proof.
  intros H. apply (f_equal (λ r : Lexer * nat, length (lx_diags r.1))) in H. simpl in H.
  rewrite length_app in H. simpl in H. lia.
Qed.

Lemma word_line l lx k n : (push k 0 lx, n) = lex_ident_or_keyword 0 l lx → line_kind k = false.
Proof.
  unfold lex_ident_or_keyword. intros [-> _]%push_kind.
  case_bool_decide; [done|apply keyword_line].
Qed.

Lemma number_line l lx k n : lex_number 0 l lx = (push k 0 lx, n) → line_kind k = false.
Proof.
  destruct (number_body l) as [[p r] f] eqn:E. rewrite (lex_number_body _ _ _ p r f) by done.
  cbv zeta. case_bool_decide; [|destruct (is_legal_suffix _ _ _)].
  - intros [<- _]%push_kind. by destruct f.
  - intros [<- _]%push_kind. by destruct f.
  - intros H'. apply (f_equal (λ r : Lexer * nat, length (lx_kinds r.1))) in H'. simpl in H'.
    rewrite !length_app in H'. simpl in H'. lia.
Qed.

Lemma string_line l lx k n : lex_string 0 l lx = Done (push k 0 lx, n) → line_kind k = false.
Proof.
  unfold lex_string. destruct (string_body _ _ _) as [| |[[m bad] t]]; try done. cbn [mbind res_bind].
  destruct t; [destruct bad|]; intros H%Done_inj; symmetry in H.
  - by apply push_kind_diag in H.
  - by apply push_kind in H as [-> _].
  - by apply push_kind_diag in H.
Qed.

Lemma lex_one_line k b w n : lex_one 0 b w (MkLexer [] [] []) = Done (push k 0 (MkLexer [] [] []), n) →
  line_kind k = true →
  (is_ws b = true ∧ k = Whitespace) ∨ (isb "/" b && at_is w 1 "/" = true ∧ k = LineComment) ∨
  (isb backslash b && at_is w 1 backslash = true ∧ k = MultilineStr).
Proof.
  intros Hl Hk. unfold lex_one in Hl.
  destruct (is_ws b) eqn:E1.
  { left. apply Done_inj, push_kind in Hl as [<- _]. done. }
  destruct (isb "/" b && at_is w 1 "/") eqn:E2.
  { right; left. apply Done_inj, push_kind in Hl as [<- _]. done. }
  destruct (isb "/" b && at_is w 1 "*") eqn:E3.
  { exfalso. apply Done_inj in Hl. unfold lex_block_comment in Hl. destruct (block_comment _ _) as [m t].
    symmetry in Hl. destruct t; [by apply push_kind in Hl as [-> _]|by apply push_kind_diag in Hl]. }
  destruct (isb backslash b && at_is w 1 backslash) eqn:E4.
  { right; right. destruct (scan_multiline_string (length w) w); try done.
    apply Done_inj, push_kind in Hl as [<- _]. done. }
  exfalso. destruct (is_ident_start b).
  { apply Done_inj in Hl. symmetry in Hl. apply word_line in Hl; congruence. }
  destruct (is_dec b); [apply Done_inj, number_line in Hl; congruence|].
  destruct (isb dquote b); [apply string_line in Hl; congruence|].
  destruct (isb "." b && at_is w 1 "."); apply Done_inj in Hl; symmetry in Hl.
  - unfold lex_dots in Hl. destruct (at_is w 2 "<"); [by apply push_kind in Hl as [-> _]|].
    destruct (at_is w 2 "="); [by apply push_kind in Hl as [-> _]|by apply push_kind_diag in Hl].
  - unfold lex_other in Hl. destruct (scan_punct w) as [[k' m]|] eqn:E.
    + apply push_kind in Hl as [-> _]. apply scan_punct_line in E. congruence.
    + by apply push_kind_diag in Hl.
Qed.

Lemma standing_line k b w : standing k b w → line_kind k = true →
  (is_ws b = true ∧ k = Whitespace) ∨ (isb "/" b && at_is w 1 "/" = true ∧ k = LineComment) ∨
  (isb backslash b && at_is w 1 backslash = true ∧ k = MultilineStr).
Proof. intros [_ Hl]. by eapply lex_one_line. Qed.

(** [s] ends the line of a token before it. *)
Definition line_end (s : list byte) : Prop := ∀ c, head s = Some c → c = newline.

Lemma line_end_stops s : line_end s → stops (λ b, negb (isb newline b)) s.
Proof.
  intros Hs. unfold stops, at_ok. destruct s as [|c s]; [done|]. rewrite (Hs c eq_refl). done.
Qed.

Lemma comment_app b w s pos lx : standing LineComment b w → line_end s →
  lex_one pos b (w ++ s) lx = Done (push LineComment pos lx, length w).
Proof.
  intros Hst Hs. pose proof Hst as [Hh Hl].
  destruct (standing_line _ _ _ Hst eq_refl) as [[_ ?]|[[E _]|[_ ?]]]; [done| |done].
  apply andb_true_iff in E as [Eb E1]. pose proof (at_is_lt _ _ _ E1) as Hlt.
  apply isb_eq in Eb as ->. specialize (Hl 0 (MkLexer [] [] [])). unfold lex_one in *.
  replace (is_ws "/") with false in * by reflexivity. rewrite at_is_app by done. rewrite E1 in *.
  replace (isb "/" "/") with true in * by reflexivity. simpl andb in *. cbv iota in *.
  apply Done_inj in Hl. unfold lex_line_comment in *. apply push_kind in Hl as [_ Hl].
  f_equal. f_equal. rewrite drop_app_le by lia.
  rewrite scan_while_app; [rewrite length_drop; lia|rewrite length_drop; lia|].
  by apply line_end_stops.
Qed.

Lemma scan_while_inside ok l s : scan_while ok l < length l →
  scan_while ok (l ++ s) = scan_while ok l.
Proof.
  induction l as [|b l IH]; simpl; [lia|]. destruct (ok b); [|done]. intros Hl. by rewrite IH by lia.
Qed.

(** No other line of a multiline string follows. *)
Definition no_more_lines (s : list byte) : Prop :=
  let n := scan_while is_ws s in at_is s n backslash && at_is s (n + 1) backslash = false.

Lemma multiline_app fuel fuel' w s : scan_multiline_string fuel w = Done (length w) →
  2 ≤ length w → fuel ≤ fuel' → line_end s → no_more_lines s →
  scan_multiline_string fuel' (w ++ s) = Done (length w).
Proof.
  revert fuel' w. induction fuel as [|fuel IH]; intros fuel' w Hw H2 Hf Hs Hm; [done|].
  destruct fuel' as [|fuel']; [lia|]. cbn [scan_multiline_string] in *.
  set (p := λ b, negb (isb newline b)) in *.
  rewrite drop_app_le by lia. pose proof (scan_while_le p (drop 2 w)) as Hle. rewrite length_drop in Hle.
  destruct (decide (scan_while p (drop 2 w) < length w - 2)) as [Hlt|Hge].
  - rewrite (scan_while_inside p (drop 2 w)) by (rewrite length_drop; done).
    set (e := 2 + scan_while p (drop 2 w)) in *. rewrite drop_app_le by lia.
    pose proof (scan_while_le is_ws (drop e w)) as Hle2. rewrite length_drop in Hle2.
    set (la := e + scan_while is_ws (drop e w)) in *.
    destruct (at_is w la backslash && at_is w (la + 1) backslash) eqn:E.
    2:{ injection Hw as Hw. lia. }
    pose proof E as [E1%at_is_lt E2%at_is_lt]%andb_true_iff.
    rewrite (scan_while_inside is_ws (drop e w)) by (rewrite length_drop; lia). fold la.
    rewrite !at_is_app, E by lia.
    destruct (scan_multiline_string fuel (drop la w)) as [| |n] eqn:En; try done.
    injection Hw as Hw. rewrite drop_app_le by lia.
    rewrite (IH fuel' (drop la w)); [simpl; f_equal; rewrite length_drop; lia| |rewrite length_drop; lia|lia|done..].
    rewrite En, length_drop. f_equal. lia.
  - rewrite scan_while_app; [|rewrite length_drop; lia|by apply line_end_stops].
    rewrite length_drop. replace (2 + (length w - 2)) with (length w) by lia.
    rewrite drop_app_length. unfold at_is. rewrite !lookup_app_r by lia.
    replace (length w + scan_while is_ws s - length w) with (scan_while is_ws s) by lia.
    replace (length w + scan_while is_ws s + 1 - length w) with (scan_while is_ws s + 1) by lia.
    unfold no_more_lines, at_is in Hm. by rewrite Hm.
Qed.

Lemma multiline_string_app b w s pos lx : standing MultilineStr b w → line_end s →
  no_more_lines s → lex_one pos b (w ++ s) lx = Done (push MultilineStr pos lx, length w).
Proof.
  intros Hst Hs Hm. pose proof Hst as [Hh Hl].
  destruct (standing_line _ _ _ Hst eq_refl) as [[_ ?]|[[_ ?]|[E _]]]; [done..|].
  apply andb_true_iff in E as [Eb E1]. pose proof (at_is_lt _ _ _ E1) as Hlt.
  apply isb_eq in Eb as ->. specialize (Hl 0 (MkLexer [] [] [])). unfold lex_one in *.
  replace (is_ws backslash) with false in * by reflexivity. rewrite (at_is_app w s 1 backslash) by done. rewrite E1 in *.
  replace (isb "/" backslash) with false in * by reflexivity.
  replace (isb backslash backslash) with true in * by reflexivity. simpl andb in *. cbv iota in *.
  destruct (scan_multiline_string (length w) w) as [| |n] eqn:En; try done.
  apply Done_inj, push_kind in Hl as [_ Hl]. subst n.
  rewrite (multiline_app _ (length (w ++ s)) _ _ En); [reflexivity|lia|rewrite length_app; lia|done..].
Qed.

(** A text that starts as a multiline string is one. *)
Lemma standing_backslash k b w : standing k b w → plain_kind k = true → isb backslash b = true →
  k = MultilineStr.
Proof.
  intros [Hh Hl] Hp Eb. apply isb_eq in Eb as ->. specialize (Hl 0 (MkLexer [] [] [])).
  unfold lex_one in Hl.
  replace (is_ws backslash) with false in * by reflexivity.
  replace (isb "/" backslash) with false in * by reflexivity.
  replace (isb backslash backslash) with true in * by reflexivity. simpl andb in Hl. cbv iota in Hl.
  destruct (at_is w 1 backslash).
  { destruct (scan_multiline_string (length w) w); try done. by apply Done_inj, push_kind in Hl as [<- _]. }
  exfalso. replace (is_ident_start backslash) with false in Hl by reflexivity.
  replace (is_dec backslash) with false in Hl by reflexivity.
  replace (isb dquote backslash) with false in Hl by reflexivity.
  replace (isb "." backslash) with false in Hl by reflexivity. simpl andb in Hl. cbv iota in Hl.
  apply Done_inj in Hl. unfold lex_other in Hl.
  assert (scan_punct w = None) as E.
  { unfold scan_punct, at_is. rewrite <- head_lookup, Hh. reflexivity. }
  rewrite E in Hl. symmetry in Hl. by apply push_kind_diag in Hl.
Qed.
