(* ===== verification/FmtTokens.v ===== *)
(** * Layout keeps the tokens

    What a laid out text lexes to: the tokens of the texts of the stream, in
    order, with white space between them.  Then the whole renderer against the
    whole lexer. *)

From Stdlib Require Import Strings.Byte.
From S2P Require Import Prelude Token Utf8 Lexer LexScan LexerProps LexTheorems FmtDoc FmtDocProps FmtRelex.
Local Open Scope nat_scope.
Local Open Scope byte_scope.

(** ** Reading token by token *)

(** The main loop reads [l] as [its]. *)
Definition reads (l : list byte) (its : list item) : Prop :=
  total its = length l ∧
  ∀ fuel pos lx, length l ≤ fuel → lex_loop fuel pos l lx = Done (emit pos its lx).

Lemma reads_nil : reads [] [].
Proof. split; [done|]. intros [|fuel] pos lx _; by rewrite emit_nil. Qed.

Lemma reads_cons k b w s its : head w = Some b →
  (∀ pos lx, lex_one pos b (w ++ s) lx = Done (push k pos lx, length w)) →
  reads s its → reads (w ++ s) (token_item k (length w) :: its).
Proof.
  intros Hb Hone [Ht Hs]. split; [rewrite length_app, <- Ht; done|].
  intros fuel pos lx Hf. rewrite length_app in Hf.
  destruct w as [|b' w']; [done|]. injection Hb as ->.
  destruct fuel as [|fuel]; [simpl in Hf; lia|].
  cbn [lex_loop app]. change (b :: w' ++ s) with ((b :: w') ++ s). rewrite Hone.
  unfold mbind, res_bind. rewrite drop_app_length. simpl in Hf. rewrite Hs by lia.
  f_equal. rewrite (push_emit k (length (b :: w'))).
  replace (pos + length (b :: w')) with (pos + total [token_item k (length (b :: w'))])
    by (unfold total; simpl; lia). symmetry. apply (emit_app pos [_]).
Qed.

(** A run of white space before text that does not start with any. *)
Lemma reads_white g s its : g ≠ [] → forallb is_ws g = true → stops is_ws s → reads s its →
  reads (g ++ s) (token_item Whitespace (length g) :: its).
Proof.
  intros Hg Hw Hs. destruct g as [|b g]; [done|]. simpl in Hw.
  apply andb_true_iff in Hw as [Hb Hw]. apply (reads_cons _ b); [done|]. intros pos lx.
  unfold lex_one. rewrite Hb. unfold lex_whitespace. simpl. rewrite drop_0.
  rewrite (scan_while_app is_ws g s); [done| |done]. clear -Hw. induction g as [|b g IH]; [done|].
  simpl in *. apply andb_true_iff in Hw as [-> Hw]. by rewrite IH.
Qed.

(** ** Single tokens *)

Definition is_white (k : TokenKind) : bool := match k with Whitespace => true | _ => false end.

(** [t] is one token of kind [k], no error and no white space. *)
Definition lone_token (k : TokenKind) (t : list byte) : Prop :=
  plain_kind k = true ∧ is_white k = false ∧
  ∃ st ds, lex t = Done (MkTokens [k; Eof] st, ds).

Lemma reads_lone k t its : length its = 1 → (it_kind <$> its) = [k] → plain_kind k = true →
  parses t its → ∃ b, standing k b t.
Proof.
  intros Hl Hk Hp Hparse. destruct Hparse as [|b l its its' Hb Hem Hrest]; [done|].
  destruct Hem as (Hone & Hok & Htot & _). destruct its as [|it its]; [unfold total in Htot; simpl in Htot; lia|].
  assert (its = [] ∧ its' = []) as [-> ->].
  { rewrite length_app in Hl. simpl in Hl. split; apply nil_length_inv; lia. }
  simpl in *. injection Hk as Hk. inversion Hok as [|? ? (_ & _ & He & _) _]; subst.
  assert (it_code it = None) as Hc.
  { destruct (it_code it); [|done]. destruct He as [_ He]. rewrite He in Hp by eauto. done. }
  exists b. split; [done|]. intros pos lx. rewrite Hone.
  assert (it_len it + 0 = length l) as Hlen.
  { apply parses_facts in Hrest as [_ Hd]. rewrite length_drop in Hd. unfold total in *. simpl in *. lia. }
  rewrite Hlen. f_equal. f_equal. rewrite (push_emit _ (it_len it)). destruct it as [k' n c]. simpl in *. by subst c.
Qed.

Lemma lone_standing k t : lone_token k t → fits t → ∃ b, standing k b t.
Proof.
  intros (Hp & _ & st & ds & Hl) Hf.
  destruct (lex_tokens t _ _ Hf Hl) as (its & Hparse & E). unfold stream in E. injection E as Hk _.
  assert ((it_kind <$> its) = [k]) as Hk'.
  { apply (f_equal (λ l, take (length l - 1) l)) in Hk. rewrite length_app in Hk. simpl in Hk.
    rewrite Nat.add_sub, take_app_length in Hk. done. }
  apply (reads_lone k t its); [|done..]. by rewrite <- (length_fmap it_kind), Hk'.
Qed.

Lemma lone_fits k t : lone_token k t → fits t.
Proof.
  intros (Hp & _ & st & ds & Hl). unfold fits. apply Z.nlt_ge. intros Hlt.
  unfold lex in Hl. rewrite (proj2 (Z.ltb_lt _ _)) in Hl by done. by simplify_eq.
Qed.

(** ** The dot between two numbers *)

(** [p . q] would be one literal. *)
Definition joins (p q : list byte) : bool :=
  match last p, head q with Some x, Some c => is_dec x && is_dec c | _, _ => false end.

Fixpoint number_split (ts : list (list byte)) : bool :=
  match ts with
  | p :: ((d :: q :: _) as rest) => (bool_decide (d = ["."]) && joins p q) || number_split rest
  | _ => false
  end.

Definition unsplit (ts : list (list byte)) : Prop :=
  ∀ l p q r, ts = l ++ p :: ["."] :: q :: r → joins p q = false.

Lemma number_split_unsplit ts : number_split ts = false → unsplit ts.
Proof.
  intros Hn l. revert ts Hn. induction l as [|x l IH]; intros ts Hn p q r ->.
  - simpl in Hn. apply orb_false_iff in Hn as [Hn _]. done.
  - apply (IH (l ++ p :: ["."] :: q :: r)) with r; [|done].
    simpl in Hn. destruct l as [|y [|z l]]; simpl in *; apply orb_false_iff in Hn; tauto.
Qed.

Lemma unsplit_init ts t : unsplit (ts ++ [t]) → unsplit ts.
Proof.
  intros H l p q r ->. apply (H l p q (r ++ [t])). rewrite <- app_assoc. done.
Qed.

(** [s] after the texts [ts] would not complete a literal. *)
Definition open_end (ts : list (list byte)) (s : list byte) : Prop :=
  ∀ l p, ts = l ++ [p; ["."]] → joins p s = false.

(** ** The tokens of a laid out text *)

(** The tokens that are not white space, with their texts. *)
Definition shown (its : list item) (l : list byte) : list (TokenKind * list byte) :=
  List.filter (λ p, negb (is_white p.1)) (zip (it_kind <$> its) (pieces its l)).

Lemma pieces_app its its' l l' : total its = length l →
  pieces (its ++ its') (l ++ l') = pieces its l ++ pieces its' l'.
Proof.
  revert l. induction its as [|it its IH]; intros l Ht; simpl.
  { unfold total in Ht. simpl in Ht. by destruct l. }
  unfold total in Ht. simpl in Ht. fold (total its) in Ht.
  rewrite take_app_le, drop_app_le by lia. f_equal. apply IH. rewrite length_drop. lia.
Qed.

Lemma shown_app its its' l l' : total its = length l →
  shown (its ++ its') (l ++ l') = shown its l ++ shown its' l'.
Proof.
  intros Ht. unfold shown. rewrite pieces_app, fmap_app, zip_with_app, List.filter_app; [done| |done].
  by rewrite length_fmap, pieces_length.
Qed.

Lemma glues_second a b b2 : glues a b None = false →
  (is_dec a = true → b = "." → ∀ c, b2 = Some c → is_dec c = false) → glues a b b2 = false.
Proof.
  unfold glues. rewrite !orb_false_iff. intros [[H1 H2] _] Hdot. split; [done|].
  destruct (is_dec a); [|done]. destruct (isb "." b) eqn:E; [|done]. apply isb_eq in E as ->.
  destruct b2 as [c|]; [|done]. simpl. by apply Hdot.
Qed.

(** The gap before a text. *)
Definition gap (k n : nat) : list byte := replicate k newline ++ replicate n (" " : byte).

Lemma gap_white k n : forallb is_ws (gap k n) = true.
Proof.
  unfold gap. rewrite forallb_app. apply andb_true_iff.
  split; [induction k|induction n]; simpl; auto.
Qed.

Lemma gap_nil k n : gap k n = [] ↔ k = 0 ∧ n = 0.
Proof. unfold gap. destruct k, n; simpl; split; try done; intros []; done. Qed.

Lemma ws_not_dec c : is_ws c = true → is_dec c = false.
Proof.
  intros Hc. destruct (is_dec c) eqn:E; [|done].
  pose proof (glues_white "a" c None Hc) as Hg. unfold glues in Hg.
  rewrite !orb_false_iff in Hg. destruct Hg as [[Hg _] _].
  unfold identish in Hg at 2. rewrite E, orb_true_r in Hg. simpl in Hg. done.
Qed.

Lemma gap_head k n c s : gap k n ≠ [] → head (gap k n ++ s) = Some c → is_ws c = true.
Proof.
  intros Hg Hc. pose proof (gap_white k n) as Hw. destruct (gap k n) as [|c' g]; [done|].
  simpl in *. injection Hc as ->. by apply andb_true_iff in Hw as [-> _].
Qed.

(** Where a text [t] that the guard let through stands. *)
Lemma gap_boundary ts t k n s p : last ts = Some p → t ≠ [] → (k = 0 → n = 0 → tight (last ts) t) →
  open_end (ts ++ [t]) s → boundary p (gap k n ++ t ++ s).
Proof.
  intros Hp Ht Htight Hopen b c Hb Hc. destruct (decide (gap k n = [])) as [E|E].
  - rewrite E in *. apply gap_nil in E as [-> ->]. simpl in *. specialize (Htight eq_refl eq_refl).
    destruct t as [|t0 rest]; [done|]. simpl in Hc. injection Hc as <-.
    specialize (Htight p b t0 rest Hp Hb eq_refl).
    destruct rest as [|t1 rest]; [|exact Htight]. simpl in *.
    apply glues_second; [done|]. intros Hd -> c Hs.
    apply last_Some in Hp as [l ->]. specialize (Hopen l p). rewrite <- app_assoc in Hopen.
    specialize (Hopen eq_refl). unfold joins in Hopen. rewrite Hb, head_lookup, Hs, Hd in Hopen. done.
  - apply glues_white. by eapply gap_head.
Qed.

Lemma gap_open_end ts t k n s : t ≠ [] → unsplit (ts ++ [t]) → open_end ts (gap k n ++ t ++ s).
Proof.
  intros Ht Hu l p ->. destruct (decide (gap k n = [])) as [E|E].
  - rewrite E. simpl. specialize (Hu l p t []). rewrite <- app_assoc in Hu. specialize (Hu eq_refl).
    unfold joins in *. by destruct t.
  - unfold joins. destruct (last p) as [x|]; [|done].
    destruct (head (gap k n ++ t ++ s)) as [c|] eqn:Hc; [|done].
    apply gap_head in Hc; [|done]. by rewrite (ws_not_dec _ Hc), andb_false_r.
Qed.

(** Two multiline strings in a row would be one. *)
Fixpoint strings_apart (ks : list TokenKind) : bool :=
  match ks with
  | MultilineStr :: MultilineStr :: _ => false
  | _ :: ks => strings_apart ks
  | [] => true
  end.

Definition apart (ks : list TokenKind) : Prop :=
  ∀ l r, ks ≠ l ++ MultilineStr :: MultilineStr :: r.

Lemma strings_apart_apart ks : strings_apart ks = true → apart ks.
Proof.
  intros Hs l. revert ks Hs. induction l as [|k l IH]; intros ks Hs r ->; [done|].
  apply (IH (l ++ MultilineStr :: MultilineStr :: r)) with r; [|done].
  simpl in Hs. destruct k; try done. by destruct l as [|[] l].
Qed.

Lemma apart_init ks k : apart (ks ++ [k]) → apart ks.
Proof. intros H l r ->. apply (H l (r ++ [k])). by rewrite <- app_assoc. Qed.

(** What may follow a token: an end of line, or text it does not glue to. *)
Definition after (k : TokenKind) (t s : list byte) : Prop :=
  match k with
  | LineComment => line_end s
  | MultilineStr => line_end s ∧ no_more_lines s
  | _ => boundary t s
  end.

(** A text of the stream and its kind. *)
Definition token_text (k : TokenKind) (t : list byte) : Prop :=
  plain_kind k = true ∧ is_white k = false ∧ ∃ b, standing k b t.

Lemma standing_after k b t s pos lx : standing k b t → plain_kind k = true → is_white k = false →
  after k t s → lex_one pos b (t ++ s) lx = Done (push k pos lx, length t).
Proof.
  intros Hst Hp Hw Ha. destruct (line_kind k) eqn:El.
  - destruct k; try done; simpl in Ha; [by apply comment_app|].
    destruct Ha. by apply multiline_string_app.
  - pose proof Hst as [Hh Hl]. apply standing_app; try done. by destruct k.
Qed.

Lemma standing_plain_head k b t : standing k b t → is_white k = false → is_ws b = false.
Proof.
  intros [Hh Hl] Hk. destruct (is_ws b) eqn:E; [|done]. specialize (Hl 0 (MkLexer [] [] [])).
  unfold lex_one in Hl. rewrite E in Hl. apply Done_inj, push_kind in Hl as [<- _]. done.
Qed.

(** One more text and the gap before it. *)
Lemma reads_text k t g s its : token_text k t → after k t s → forallb is_ws g = true →
  reads s its → ∃ its', reads (g ++ t ++ s) (its' ++ its) ∧ total its' = length (g ++ t) ∧
    shown its' (g ++ t) = [(k, t)].
Proof.
  intros (Hp & Hw & b & Hst) Ha Hg Hs. pose proof Hst as [Hh Hl].
  assert (reads (t ++ s) (token_item k (length t) :: its)) as Ht.
  { apply (reads_cons k b); [done| |done]. intros. by apply standing_after. }
  assert (shown [token_item k (length t)] t = [(k, t)]) as Hshow.
  { unfold shown. simpl. rewrite Hw. simpl. by rewrite take_ge by done. }
  destruct (decide (g = [])) as [->|Hne].
  { exists [token_item k (length t)]. split_and!; [done|unfold total; simpl; lia|done]. }
  exists (token_item Whitespace (length g) :: [token_item k (length t)]). split_and!.
  - apply reads_white; [done..| |done]. pose proof (standing_plain_head _ _ _ Hst Hw) as Hws.
    unfold stops, at_ok. destruct t as [|b' t']; [done|]. injection Hh as ->. done.
  - unfold total. simpl. rewrite length_app. lia.
  - change (token_item Whitespace (length g) :: [token_item k (length t)])
      with ([token_item Whitespace (length g)] ++ [token_item k (length t)]).
    rewrite shown_app by (unfold total; simpl; lia). by rewrite Hshow.
Qed.

Lemma gap_line_end k n s : 1 ≤ k → line_end (gap k n ++ s).
Proof. intros Hk c. destruct k; [lia|]. by intros [= <-]. Qed.

(** No multiline string goes on past a gap. *)
Lemma gap_no_more kt k n t s : token_text kt t → kt ≠ MultilineStr → no_more_lines (gap k n ++ t ++ s).
Proof.
  intros (Hp & Hw & b & Hst) Hk. unfold no_more_lines.
  rewrite (scan_while_app is_ws).
  - rewrite at_is_next. pose proof Hst as [Hh _]. destruct t as [|b' t]; [done|]. injection Hh as ->.
    unfold at_is at 1. simpl. destruct (isb backslash b) eqn:E; [|done].
    destruct Hk. by eapply standing_backslash.
  - pose proof (gap_white k n) as Hg. induction (gap k n) as [|x g IH]; [done|]. simpl in *.
    apply andb_true_iff in Hg as [-> Hg]. by rewrite IH.
  - pose proof (standing_plain_head _ _ _ Hst Hw) as Hws. destruct Hst as [Hh _].
    unfold stops, at_ok. destruct t as [|b' t']; [done|]. injection Hh as ->. done.
Qed.

Lemma line_kind_text k b t : standing k b t → line_kind k = true → is_white k = false →
  line_text t = true.
Proof.
  intros Hst Hk Hw. pose proof Hst as [Hh _]. rewrite head_lookup in Hh. unfold line_text, at_is at 1 3.
  rewrite Hh. destruct (standing_line _ _ _ Hst Hk) as [[_ ->]|[[-> _]|[-> _]]]; [done|done|].
  apply orb_true_r.
Qed.

(** Where the last text of [ts] stands when [t] is put after a gap. *)
Lemma gap_after ts ks t kt k n s p kp : token_text kp p → last ts = Some p → last ks = Some kp →
  token_text kt t → apart (ks ++ [kt]) → (k = 0 → n = 0 → tight (last ts) t) →
  (line_text p = true → 1 ≤ k) → open_end (ts ++ [t]) s → after kp p (gap k n ++ t ++ s).
Proof.
  intros (Hpp & Hpw & b & Hst) Hp Hkp Ht Hap Htight Hline Hopen.
  assert (t ≠ []) as Hne by (destruct Ht as (_ & _ & b' & [Hh _]); by intros ->).
  pose proof (gap_boundary ts t k n s p Hp Hne Htight Hopen) as Hb.
  destruct (line_kind kp) eqn:El; [|by destruct kp].
  pose proof (line_kind_text _ _ _ Hst El Hpw) as Hlt.
  pose proof (gap_line_end k n (t ++ s) (Hline Hlt)) as Hend.
  destruct kp; try done. split; [done|]. apply (gap_no_more kt); [done|]. intros ->.
  apply last_Some in Hkp as [l ->]. apply (Hap l []). by rewrite <- app_assoc.
Qed.

Lemma laid_reads ts out : laid ts out → ∀ ks s its, Forall2 token_text ks ts → unsplit ts →
  apart ks → reads s its →
  (∀ k p, last ks = Some k → last ts = Some p → after k p s) → open_end ts s →
  ∃ its', reads (out ++ s) (its' ++ its) ∧ total its' = length out ∧ shown its' out = zip ks ts.
Proof.
  induction 1 as [|ts out k n t Hl IH Ht Hk Htight Hline]; intros ks s its Hks Hu Hap Hs Hb Ho.
  { exists []. apply Forall2_nil_inv_r in Hks as ->. split_and!; [exact Hs|done|done]. }
  apply Forall2_app_inv_r in Hks as (ks1 & ks2 & Hks1 & Hks2 & ->).
  apply Forall2_cons_inv_r in Hks2 as (kt & ks3 & Hkt & Hks3 & ->).
  apply Forall2_nil_inv_r in Hks3 as ->.
  destruct (reads_text kt t (gap k n) s its Hkt) as (its1 & H1 & Hn1 & Hsh1); [|apply gap_white|done|].
  { apply Hb; apply last_snoc. }
  destruct (IH ks1 (gap k n ++ t ++ s) (its1 ++ its)) as (its2 & H2 & Hn2 & Hsh2);
    [done|by eapply unsplit_init|by eapply apart_init|done| |by apply gap_open_end|].
  { intros kp p Hkp Hlast. apply (gap_after ts ks1 t kt); try done; [|by apply Hline].
    pose proof Hks1 as Hks1'. apply Forall2_length in Hks1'. rewrite last_lookup in Hkp. rewrite last_lookup in Hlast.
    rewrite Hks1' in Hkp. by eapply Forall2_lookup_lr. }
  exists (its2 ++ its1). replace (replicate k newline ++ replicate n (" " : byte) ++ t)
    with (gap k n ++ t) by (unfold gap; by rewrite <- app_assoc).
  split_and!.
  - by rewrite <- !app_assoc.
  - rewrite total_app, length_app. lia.
  - rewrite shown_app by done. rewrite Hsh1, Hsh2, zip_with_app; [done|].
    by apply Forall2_length in Hks1.
Qed.

Lemma reads_newline : reads [newline] [token_item Whitespace 1].
Proof.
  apply (reads_white [newline] [] []); [done|reflexivity|reflexivity|apply reads_nil].
Qed.

Lemma end_line_reads ts ks out : laid ts out → Forall2 token_text ks ts → unsplit ts → apart ks →
  ∃ its, reads (end_line out) its ∧ shown its (end_line out) = zip ks ts.
Proof.
  intros Hl Hks Hu Hap. unfold end_line. destruct (_ && _).
  - destruct (laid_reads ts out Hl ks [newline] _ Hks Hu Hap reads_newline) as (its & H1 & Hn & Hsh).
    { intros k p _ _. assert (line_end [newline]) by by intros c [= <-].
      assert (boundary p [newline]) by (intros b c _ [= <-]; by apply glues_white). by destruct k. }
    { intros l p _. unfold joins. destruct (last p); [|done]. simpl. by rewrite andb_false_r. }
    exists (its ++ [token_item Whitespace 1]). split; [done|].
    rewrite shown_app by done. by rewrite Hsh, app_nil_r.
  - destruct (laid_reads ts out Hl ks [] _ Hks Hu Hap reads_nil) as (its & H1 & Hn & Hsh).
    { intros k p _ _. by destruct k. }
    { intros l p _. unfold joins. by destruct (last p). }
    exists its. rewrite !app_nil_r in H1. by split.
Qed.

(** ** Tokens of a stream *)

Lemma lex_reads source its : fits source → reads source its →
  ∃ ds, lex source = Done (stream source its, ds).
Proof.
  intros Hf [_ Hr]. destruct (from_utf8_total source) as (r & Hu & _).
  unfold lex. unfold fits in Hf. rewrite (proj2 (Z.ltb_ge _ _)) by done.
  rewrite Hr by done. simpl. unfold report_utf8. rewrite Hu. simpl.
  destruct r as [[at_ e]|]; [|by eexists]. destruct (existsb _ _); by eexists.
Qed.

(** The tokens that are not white space, with what [text] gives for them. *)
Definition significant (t : Tokens) (source : list byte) : list (TokenKind * res (list byte)) :=
  List.filter (λ p, negb (is_white p.1)) (imap (λ i k, (k, text t i source)) (kinds t)).

Definition done_text (p : TokenKind * list byte) : TokenKind * res (list byte) := (p.1, Done p.2).

Lemma filter_fmap_fst {A B C} (f : B → C) (P : A → bool) (l : list (A * B)) :
  List.filter (λ p, P p.1) ((λ p, (p.1, f p.2)) <$> l) =
  (λ p, (p.1, f p.2)) <$> List.filter (λ p, P p.1) l.
Proof. induction l as [|[a b] l IH]; [done|]. csimpl. destruct (P a); csimpl; by rewrite IH. Qed.

Lemma significant_stream source its : fits source → total its = length source →
  significant (stream source its) source = (done_text <$> shown its source) ++ [(Eof, Done [])].
Proof.
  intros Hf Ht. unfold significant.
  assert (imap (λ i k, (k, text (stream source its) i source)) (kinds (stream source its)) =
    done_text <$> (zip (it_kind <$> its) (pieces its source) ++ [(Eof, [])])) as ->.
  { apply list_eq. intros i. rewrite list_lookup_imap, list_lookup_fmap. simpl.
    pose proof (pieces_length its source) as Hpl.
    destruct (decide (i < length its)) as [Hi|Hi].
    - rewrite !lookup_app_l by (rewrite ?length_zip_with, ?length_fmap; lia).
      destruct (lookup_lt_is_Some_2 its i Hi) as [it Hit].
      destruct (lookup_lt_is_Some_2 (pieces its source) i) as [x Hx]; [lia|].
      rewrite lookup_zip_with, list_lookup_fmap, Hit, Hx. simpl.
      by rewrite stream_text, Hx by (done || lia).
    - rewrite !lookup_app_r by (rewrite ?length_zip_with, ?length_fmap; lia).
      rewrite length_zip_with, length_fmap, Hpl, Nat.min_id.
      destruct (i - length its) as [|j] eqn:E; [|done]. simpl.
      rewrite stream_text by (done || lia). by rewrite (proj2 (lookup_ge_None _ _)) by lia. }
  unfold done_text. rewrite (filter_fmap_fst Done (λ k, negb (is_white k))).
  rewrite List.filter_app, fmap_app. done.
Qed.

(** ** The renderer against the lexer *)

(** The texts of a stream are tokens of the kinds [ks] and the stream can be laid
    out: lines are broken where the tokens need it, and no two of them would be
    read as one. *)
Record layable (src : list byte) (ops : list Op) (ks : list TokenKind) : Prop := {
  la_printable : printable src ops;
  la_lines : lines_broken src false ops = true;
  la_tokens : Forall2 lone_token ks (texts src ops);
  la_split : number_split (texts src ops) = false;
  la_apart : strings_apart ks = true }.

Lemma render_keeps_tokens src ops ks : layable src ops ks →
  ∃ out, render ops src = Done out ∧ (fits out → ∃ t ds, lex out = Done (t, ds) ∧
    significant t out = (done_text <$> zip ks (texts src ops)) ++ [(Eof, Done [])]).
Proof.
  intros [Hp Hlines Hks Hn Hap]. destruct (render_laid src ops Hp Hlines) as (out & Hr & Hl).
  exists (end_line out). split; [done|]. intros Hf.
  destruct (end_line_reads (texts src ops) ks out Hl) as (its & Hreads & Hsh).
  { eapply Forall2_impl; [exact Hks|]. intros k t Hk. pose proof (lone_fits _ _ Hk).
    pose proof Hk as (? & ? & _). split_and!; [done..|]. by apply lone_standing. }
  { by apply number_split_unsplit. }
  { by apply strings_apart_apart. }
  destruct (lex_reads _ _ Hf Hreads) as [ds Hlex]. do 2 eexists. split; [exact Hlex|].
  rewrite significant_stream by (done || apply Hreads). by rewrite Hsh.
Qed.
