(* ===== verification/FmtDiff.v ===== *)
(** * Line diff and text edits

    Models [src/crates/fors-fmt/src/diff.rs].  An [isize] is a [Z] and a [usize]
    a [nat]; reading a vector out of its bounds panics.  The [while] loops take
    fuel; FmtDiffProps proves that what they are given is enough. *)

From Stdlib Require Import Strings.Byte.
From S2P Require Import Prelude Token Lexer FmtDoc.
Local Open Scope nat_scope.
Local Open Scope byte_scope.

Record TextEdit : Type := MkTextEdit { te_start : Z; te_end : Z; te_new : list byte }.

(** ** Lines *)

(** The starts of the lines after the first, for the text from position [i]. *)
Fixpoint newline_starts (i : nat) (src : list byte) : list nat :=
  match src with
  | [] => []
  | b :: src => if isb newline b then S i :: newline_starts (S i) src else newline_starts (S i) src
  end.

Definition line_starts (src : list byte) : list nat :=
  let v := 0 :: newline_starts 0 src in
  if bool_decide (last v = Some (length src)) then v else v ++ [length src].

Definition line_hash (line : list byte) : Z :=
  foldl (λ h b, wrap 64 (Z.lxor h (Z.of_N (code b)) * 0x100000001b3)) 0xcbf29ce484222325%Z line.

(** [starts.windows(2)] *)
Fixpoint hashes (src : list byte) (starts : list nat) : res (list Z) :=
  match starts with
  | s :: ((e :: _) as rest) =>
      line ← slice src s e;
      hs ← hashes src rest;
      Done (line_hash line :: hs)
  | _ => Done []
  end.

(** ** Myers *)

(** [v[i]] for a computed index. *)
Definition at_index (v : list Z) (i : Z) : res Z :=
  if (i <? 0)%Z then Panic else get_ix (v !! Z.to_nat i).

(** The snake: [while x < n && y < m && a[x] == b[y]]. *)
Fixpoint snake (fuel : nat) (a b : list Z) (x y : Z) : res (Z * Z) :=
  if ((0 <=? x) && (x <? Z.of_nat (length a)) && (0 <=? y) && (y <? Z.of_nat (length b)))%Z then
    p ← at_index a x;
    q ← at_index b y;
    if (p =? q)%Z then
      match fuel with O => OutOfFuel | S fuel => snake fuel a b (x + 1) (y + 1) end
    else Done (x, y)
  else Done (x, y).

(** [x as usize >= n] *)
Definition past (x : Z) (n : nat) : bool := ((x <? 0) || (Z.of_nat n <=? x))%Z.

(** The diagonals [k], [k + 2], .. of round [d]: the new [v], or [None] when a
    path reaches the end. *)
Fixpoint diagonals (fuel : nat) (a b : list Z) (d k : Z) (v : list Z) : res (option (list Z)) :=
  if (k <=? d)%Z then
    match fuel with
    | O => OutOfFuel
    | S fuel =>
        let idx := (k + Z.of_nat (length a + length b))%Z in
        down ← (if (k =? - d)%Z then Done true
                else if (k =? d)%Z then Done false
                else l ← at_index v (idx - 1); r ← at_index v (idx + 1); Done (l <? r)%Z);
        x ← (if (down : bool) then at_index v (idx + 1)
             else x ← at_index v (idx - 1); Done (x + 1)%Z);
        '(x, y) ← snake (length a) a b x (x - k);
        _ ← at_index v idx;
        let v := <[Z.to_nat idx := x]> v in
        if past x (length a) && past y (length b) then Done None
        else diagonals fuel a b d (k + 2) v
    end
  else Done (Some v).

(** [at(k)] in the window of round [dd]. *)
Definition window_at (vv : list Z) (ddi k : Z) : Z :=
  let i := (k + ddi)%Z in
  if ((i <? 0) || (Z.of_nat (length vv) <=? i))%Z then 0%Z else default 0%Z (vv !! Z.to_nat i).

(** [while px > prev_x && py > prev_y]; [pairs] is in the order after the
    final [reverse]. *)
Fixpoint walk_back (fuel : nat) (px py prev_x prev_y : Z) (pairs : list (nat * nat)) :
    res (Z * Z * list (nat * nat)) :=
  if ((prev_x <? px) && (prev_y <? py))%Z then
    match fuel with
    | O => OutOfFuel
    | S fuel =>
        let px := (px - 1)%Z in let py := (py - 1)%Z in
        walk_back fuel px py prev_x prev_y ((Z.to_nat px, Z.to_nat py) :: pairs)
    end
  else Done (px, py, pairs).

(** [for dd in (0..=d).rev()]; [fuel] bounds each walk. *)
Fixpoint backtrack (fuel : nat) (trace : list (list Z)) (dd : nat) (px py : Z)
    (pairs : list (nat * nat)) : res (list (nat * nat)) :=
  vv ← get_ix (trace !! dd);
  let ddi := Z.of_nat dd in
  let at_ := window_at vv ddi in
  let kk := (px - py)%Z in
  let prev_k := if (kk =? - ddi)%Z || (negb (kk =? ddi)%Z && (at_ (kk - 1) <? at_ (kk + 1))%Z)
                then (kk + 1)%Z else (kk - 1)%Z in
  let prev_x := at_ prev_k in
  let prev_y := (prev_x - prev_k)%Z in
  '(_, _, pairs) ← walk_back fuel px py prev_x prev_y pairs;
  match dd with
  | O => Done pairs
  | S dd => backtrack fuel trace dd prev_x prev_y pairs
  end.

(** Rounds [d], [d + 1], .., [d + rest]. *)
Fixpoint rounds (rest : nat) (a b : list Z) (d : nat) (v : list Z) (trace : list (list Z)) :
    res (option (list (nat * nat))) :=
  let n := length a in let m := length b in
  if bool_decide (d ≤ n + m ∧ n + m + d < length v) then
    let trace := trace ++ [take (2 * d + 1) (drop (n + m - d) v)] in
    r ← diagonals (S d) a b (Z.of_nat d) (- Z.of_nat d) v;
    match r with
    | None =>
        pairs ← backtrack (n + m) trace d (Z.of_nat n) (Z.of_nat m) [];
        Done (Some pairs)
    | Some v =>
        match rest with
        | O => Done None
        | S rest => rounds rest a b (S d) v trace
        end
    end
  else Panic.

Definition myers (a b : list Z) (max_d : nat) : res (option (list (nat * nat))) :=
  let max := length a + length b in
  rounds (Nat.min max max_d) a b 0 (replicate (2 * max + 2) 0%Z) [].

(** ** Edits *)

(** The closure [flush]. *)
Definition flush (oa nb : list nat) (new : list byte) (ai aj bi bj : nat) : res (list TextEdit) :=
  if bool_decide (ai = aj) && bool_decide (bi = bj) then Done []
  else
    start ← get_ix (oa !! ai);
    stop ← get_ix (oa !! aj);
    s ← get_ix (nb !! bi);
    e ← get_ix (nb !! bj);
    text ← slice new s e;
    Done [MkTextEdit (u32 start) (u32 stop) text].

Fixpoint flush_pairs (oa nb : list nat) (new : list byte) (n m ai bi : nat)
    (pairs : list (nat * nat)) : res (list TextEdit) :=
  match pairs with
  | [] => flush oa nb new ai n bi m
  | (x, y) :: pairs =>
      es ← flush oa nb new ai x bi y;
      rest ← flush_pairs oa nb new n m (S x) (S y) pairs;
      Done (es ++ rest)
  end.

Definition BOUND : nat := 2048.

Definition diff (old new : list byte) : res (list TextEdit) :=
  if bool_decide (old = new) then Done []
  else
    let oa := line_starts old in
    let nb := line_starts new in
    ha ← hashes old oa;
    hb ← hashes new nb;
    pairs ← myers ha hb BOUND;
    match pairs with
    | None => Done [MkTextEdit 0 (u32 (length old)) new]
    | Some pairs => flush_pairs oa nb new (length ha) (length hb) 0 0 pairs
    end.

Example diff_small :
  let nl := [newline] in
  diff (bytes_of "a" ++ nl ++ bytes_of "b" ++ nl ++ bytes_of "c") (bytes_of "a" ++ nl ++ bytes_of "x" ++ nl ++ bytes_of "c") =
  Done [MkTextEdit 2 4 (bytes_of "x" ++ nl)].
Proof. vm_compute. reflexivity. Qed.
