(* ===== verification/FmtDiffProps.v ===== *)
(** * The line diff is a diff

    Myers' algorithm on the hashes of the lines: the columns of the search as
    a function of the round and the diagonal, the point where the search ends,
    the pairs the trace gives back, and the edits made of them. *)

From Stdlib Require Import Strings.Byte Sorting.Sorted.
From stdpp Require Import sorting.
From S2P Require Import Prelude Token Lexer FmtDoc FmtDocProps FmtDiff.
Local Open Scope Z_scope.

(** ** The search *)

Section search.
Context (a b : list Z).
Abbreviation N := (Z.of_nat (length a)).
Abbreviation M := (Z.of_nat (length b)).

Definition same_at (x y : Z) : bool :=
  bool_decide (0 ≤ x < N ∧ 0 ≤ y < M ∧ a !! Z.to_nat x = b !! Z.to_nat y).

(** Where the snake from a point ends. *)
Fixpoint slide (fuel : nat) (x y : Z) : Z :=
  if same_at x y then match fuel with O => x | S fuel => slide fuel (x + 1) (y + 1) end else x.

Definition goes_down (d : nat) (f : Z → Z) (k : Z) : bool :=
  (k =? - Z.of_nat d) || (negb (k =? Z.of_nat d) && (f (k - 1) <? f (k + 1))).
Definition step (d : nat) (f : Z → Z) (k : Z) : Z :=
  if goes_down d f k then f (k + 1) else f (k - 1) + 1.

(** The furthest points when round [d] starts, and when it has ended. *)
Fixpoint before (d : nat) : Z → Z :=
  match d with
  | O => λ _, 0
  | S d => λ k, let x := step d (before d) k in slide (length a) x (x - k)
  end.
Definition start (d : nat) (k : Z) : Z := step d (before d) k.
Definition reach (d : nat) (k : Z) : Z := slide (length a) (start d k) (start d k - k).

(** The diagonals of round [d]. *)
Definition on (d : nat) (k : Z) : Prop := ∃ j, k = 2 * j - Z.of_nat d ∧ 0 ≤ j ≤ Z.of_nat d.
Definition on_before (d : nat) (k : Z) : Prop :=
  match d with O => k = 1 | S d => on d k end.

Lemma slide_run fuel x y : x ≤ slide fuel x y ∧
  ∀ j, x ≤ j < slide fuel x y → same_at j (j - x + y) = true.
Proof.
  revert x y. induction fuel as [|fuel IH]; intros x y; simpl;
    destruct (same_at x y) eqn:E; try (split; [lia|intros; lia]).
  destruct (IH (x + 1) (y + 1)) as [Hle Hj]. split; [lia|]. intros j Hx.
  destruct (decide (j = x)) as [->|Hne]; [by replace (x - x + y) with y by lia|].
  replace (j - x + y) with (j - (x + 1) + (y + 1)) by lia. apply Hj. lia.
Qed.

(** A snake that moves ends inside the rectangle. *)
Lemma slide_inside fuel x y : x < slide fuel x y →
  slide fuel x y ≤ N ∧ slide fuel x y - x + y ≤ M.
Proof.
  intros H. destruct (slide_run fuel x y) as [_ Hj].
  specialize (Hj (slide fuel x y - 1)). unfold same_at in Hj. rewrite bool_decide_eq_true in Hj.
  destruct Hj as (? & ? & _); lia.
Qed.

Lemma snake_slide fuel x y : 0 ≤ x → 0 ≤ y → N - x ≤ Z.of_nat fuel →
  snake fuel a b x y = Done (slide fuel x y, slide fuel x y - x + y).
Proof.
  revert x y. induction fuel as [|fuel IH]; intros x y Hx Hy Hf; unfold snake; fold snake;
    (destruct ((0 <=? x) && (x <? N) && (0 <=? y) && (y <? M)) eqn:E;
      [|unfold slide; fold slide; unfold same_at; rewrite bool_decide_eq_false_2;
        [do 2 f_equal; lia|lia]]); [lia|].
  unfold at_index. destruct (Z.ltb_spec x 0), (Z.ltb_spec y 0); try lia.
  destruct (lookup_lt_is_Some_2 a (Z.to_nat x)) as [p Hp]; [lia|].
  destruct (lookup_lt_is_Some_2 b (Z.to_nat y)) as [q Hq]; [lia|].
  rewrite Hp, Hq. cbn [mbind res_bind get_ix]. unfold slide; fold slide. unfold same_at. 
  destruct (Z.eqb_spec p q) as [->|Hne].
  - rewrite IH by lia. rewrite bool_decide_eq_true_2 by (rewrite Hp, Hq; split_and!; done || lia).
    do 2 f_equal. lia.
  - rewrite bool_decide_eq_false_2; [do 2 f_equal; lia|]. rewrite Hp, Hq. intros (_ & _ & [=]). done.
Qed.

(** The two moves into a diagonal. *)
Lemma step_cases d k : on (S d) k →
  (goes_down (S d) (reach d) k = true ∧ on d (k + 1) ∧ start (S d) k = reach d (k + 1) ∧
    (on d (k - 1) → reach d (k - 1) < reach d (k + 1))) ∨
  (goes_down (S d) (reach d) k = false ∧ on d (k - 1) ∧ start (S d) k = reach d (k - 1) + 1 ∧
    (on d (k + 1) → reach d (k + 1) ≤ reach d (k - 1))).
Proof.
  intros (j & -> & Hj). unfold start, step.
  change (before (S d)) with (reach d). unfold goes_down.
  destruct (Z.eqb_spec (2 * j - Z.of_nat (S d)) (- Z.of_nat (S d))); cbn [orb].
  - left. split_and!; [done|exists j; lia|done|]. intros (i & ? & ?). lia.
  - destruct (Z.eqb_spec (2 * j - Z.of_nat (S d)) (Z.of_nat (S d))); cbn [negb andb].
    + right. split_and!; [done|exists (j - 1); lia|done|]. intros (i & ? & ?). lia.
    + destruct (Z.ltb_spec (reach d (2 * j - Z.of_nat (S d) - 1))
                           (reach d (2 * j - Z.of_nat (S d) + 1))).
      * left. split_and!; [done|exists j; lia|done|done].
      * right. split_and!; [done|exists (j - 1); lia|done|done].
Qed.

Lemma start_le d k : start d k ≤ reach d k.
Proof. apply slide_run. Qed.

Lemma start_range d k : on d k → 0 ≤ start d k ∧ k ≤ start d k.
Proof.
  revert k. induction d as [|d IH]; intros k Hk.
  - destruct Hk as (j & -> & ?). by assert (j = 0) as -> by lia.
  - destruct (step_cases d k Hk) as [(_ & Ho & -> & _)|(_ & Ho & -> & _)];
      pose proof (IH _ Ho); [pose proof (start_le d (k + 1))|pose proof (start_le d (k - 1))]; lia.
Qed.

(** A move down, or right, is always among the choices. *)
Lemma reach_ge_down d k : on (S d) k → on d (k + 1) → reach d (k + 1) ≤ reach (S d) k.
Proof.
  intros Hk Ho. pose proof (start_le (S d) k).
  destruct (step_cases d k Hk) as [(_ & _ & E & _)|(_ & _ & E & H')]; [lia|]. specialize (H' Ho). lia.
Qed.
Lemma reach_ge_right d k : on (S d) k → on d (k - 1) → reach d (k - 1) + 1 ≤ reach (S d) k.
Proof.
  intros Hk Ho. pose proof (start_le (S d) k).
  destruct (step_cases d k Hk) as [(_ & _ & E & H')|(_ & _ & E & _)]; [|lia]. specialize (H' Ho). lia.
Qed.

Lemma on_shift d k e : on d k → e = 1 ∨ e = - 1 → on (S d) (k + e).
Proof. intros (j & -> & ?) [-> | ->]; [exists (j + 1)|exists j]; lia. Qed.

Lemma start_0 k : k = 0 → start 0 k = 0.
Proof.
  intros ->. unfold start, step, goes_down. done.
Qed.

(** A point with no snake is where its move ends; any other is inside. *)
Lemma reach_cases d k : reach d k = start d k ∨ (reach d k ≤ N ∧ reach d k - k ≤ M).
Proof.
  pose proof (start_le d k). destruct (decide (start d k < reach d k)) as [Hlt|]; [right|left; lia].
  apply slide_inside in Hlt. fold (reach d k) in Hlt. lia.
Qed.

(** A point below the rectangle was reached by a move down, perhaps followed
    by moves right: without the move down, its column is reached a round
    earlier.  Likewise to the right. *)
Lemma over_below d k : on d k → M < reach d k - k →
  ∃ d', d = S d' ∧ on d' (k + 1) ∧ reach d k ≤ reach d' (k + 1).
Proof.
  revert k. induction d as [|d IH]; intros k Hk Hm.
  { destruct Hk as (j & -> & ?). destruct (reach_cases 0 (2 * j - Z.of_nat 0)) as [E|]; [|lia].
    rewrite E, start_0 in Hm by lia. lia. }
  exists d. split; [done|].
  destruct (reach_cases (S d) k) as [E|]; [|lia].
  destruct (step_cases d k Hk) as [(_ & Ho & E' & _)|(_ & Ho & E' & _)]; [split; [done|lia]|].
  destruct (IH (k - 1) Ho) as (d' & -> & Ho' & Hr); [lia|]. replace (k - 1 + 1) with k in * by lia.
  pose proof (on_shift _ _ 1 Ho' ltac:(lia)) as Hk1. split; [done|].
  pose proof (reach_ge_right d' (k + 1) Hk1) as Hge. replace (k + 1 - 1) with k in Hge by lia.
  specialize (Hge Ho'). lia.
Qed.

Lemma over_right d k : on d k → N < reach d k →
  ∃ d', d = S d' ∧ on d' (k - 1) ∧ reach d k - 1 ≤ reach d' (k - 1).
Proof.
  revert k. induction d as [|d IH]; intros k Hk Hm.
  { destruct Hk as (j & -> & ?). destruct (reach_cases 0 (2 * j - Z.of_nat 0)) as [E|]; [|lia].
    rewrite E, start_0 in Hm by lia. lia. }
  exists d. split; [done|].
  destruct (reach_cases (S d) k) as [E|]; [|lia].
  destruct (step_cases d k Hk) as [(_ & Ho & E' & _)|(_ & Ho & E' & _)]; [|split; [done|lia]].
  destruct (IH (k + 1) Ho) as (d' & -> & Ho' & Hr); [lia|]. replace (k + 1 - 1) with k in * by lia.
  pose proof (on_shift _ _ (- 1) Ho' ltac:(lia)) as Hk1. split; [done|].
  pose proof (reach_ge_down d' (k - 1) Hk1) as Hge. replace (k - 1 + 1) with k in Hge by lia.
  specialize (Hge Ho'). lia.
Qed.

(** No diagonal of the round has reached the end. *)
Definition alive (d : nat) : Prop := ∀ k, on d k → reach d k < Z.max N (M + k).

(** The first point that passes both ends is the corner. *)
Lemma end_exact d k : (∀ d', (d' < d)%nat → alive d') → on d k → Z.max N (M + k) ≤ reach d k →
  reach d k = N ∧ k = N - M.
Proof.
  intros Halive Hk Hend.
  destruct (decide (M < reach d k - k)) as [Hb|Hb].
  { destruct (over_below d k Hk Hb) as (d' & -> & Ho & Hr).
    specialize (Halive d' ltac:(lia) _ Ho). lia. }
  destruct (decide (N < reach d k)) as [Hn|]; [|lia].
  destruct (over_right d k Hk Hn) as (d' & -> & Ho & Hr).
  specialize (Halive d' ltac:(lia) _ Ho). lia.
Qed.

(** ** The columns the code keeps *)

Abbreviation off := (Z.of_nat (length a + length b)).

(** The vector during round [d], its diagonals below [hi] done. *)
Record holds (d : nat) (hi : Z) (v : list Z) : Prop := {
  h_len : length v = (2 * (length a + length b) + 2)%nat;
  h_done : ∀ k, on d k → k < hi → v !! Z.to_nat (k + off) = Some (reach d k);
  h_before : ∀ k, on_before d k → v !! Z.to_nat (k + off) = Some (before d k) }.

Lemma at_index_some v i x : 0 ≤ i → v !! Z.to_nat i = Some x → at_index v i = Done x.
Proof. intros Hi E. unfold at_index. destruct (Z.ltb_spec i 0); [lia|]. by rewrite E. Qed.

Lemma on_before_near d k : on d k →
  (k = - Z.of_nat d ∨ on_before d (k - 1)) ∧ (k ≠ Z.of_nat d ∨ d = O → on_before d (k + 1)).
Proof.
  intros (j & -> & Hj). destruct d as [|d]; unfold on_before.
  - split; [left|intros _]; lia.
  - split.
    + destruct (decide (j = 0)) as [->|]; [left; lia|right]. exists (j - 1). lia.
    + intros [H|]; [|done]. exists j. lia.
Qed.

(** The choice of the code, and the point it starts from. *)
Lemma choose_start d k v : holds d k v → on d k → Z.of_nat d ≤ off →
  (down ← (if k =? - Z.of_nat d then Done true
           else if k =? Z.of_nat d then Done false
           else l ← at_index v (k + off - 1); r ← at_index v (k + off + 1); Done (l <? r));
   if (down : bool) then at_index v (k + off + 1)
   else x ← at_index v (k + off - 1); Done (x + 1)) = Done (start d k).
Proof.
  intros Hv Hk Hd. destruct (on_before_near d k Hk) as [Hl Hr].
  assert (- Z.of_nat d ≤ k ≤ Z.of_nat d) as Hb by (destruct Hk as (j & -> & ?); lia).
  assert (∀ e, on_before d (k + e) → 0 ≤ k + off + e → 
    at_index v (k + off + e) = Done (before d (k + e))) as Hat.
  { intros e Ho He. apply at_index_some; [lia|].
    replace (k + off + e) with (k + e + off) by lia. by apply (h_before _ _ _ Hv). }
  unfold start, step, goes_down.
  destruct (Z.eqb_spec k (- Z.of_nat d)) as [E|E]; cbn [mbind res_bind orb].
  { apply (Hat 1); [|lia]. apply Hr. destruct d; lia. }
  destruct Hl as [?|Hl]; [done|]. pose proof (Hat (-1) Hl ltac:(lia)) as E1.
  change (k + off + -1) with (k + off - 1) in E1. change (k + -1) with (k - 1) in E1.
  destruct (Z.eqb_spec k (Z.of_nat d)) as [E'|E']; cbn [mbind res_bind negb andb]; rewrite E1.
  { done. }
  rewrite (Hat 1) by (lia || (apply Hr; by left)). cbn [mbind res_bind].
  by destruct (_ <? _).
Qed.

Lemma past_spec x n : 0 ≤ x → past x n = (Z.of_nat n <=? x).
Proof. intros H. unfold past. destruct (Z.ltb_spec x 0); [lia|done]. Qed.

Lemma holds_insert d k v : holds d k v → on d k → Z.of_nat d ≤ off →
  holds d (k + 2) (<[Z.to_nat (k + off) := reach d k]> v).
Proof.
  intros Hv Hk Hd. pose proof Hk as (j & E & ?). split.
  - rewrite length_insert. apply Hv.
  - intros k' Hk' Hlt. pose proof Hk' as (j' & E' & ?). destruct (decide (k' = k)) as [->|Hne].
    + apply list_lookup_insert_eq. rewrite (h_len _ _ _ Hv). lia.
    + rewrite list_lookup_insert_ne by lia. apply (h_done _ _ _ Hv); [done|lia].
  - intros k' Hk'. rewrite list_lookup_insert_ne; [by apply (h_before _ _ _ Hv)|].
    destruct d; [simpl in Hk'; lia|]. destruct Hk' as (j' & E' & ?). lia.
Qed.

(** What a round comes to, from diagonal [k]. *)
Definition round_from (fuel d : nat) (k : Z) (v : list Z) : Prop :=
  (diagonals fuel a b (Z.of_nat d) k v = Done None ∧ on d (N - M) ∧ reach d (N - M) = N) ∨
  (∃ v', diagonals fuel a b (Z.of_nat d) k v = Done (Some v') ∧ alive d ∧
     holds (S d) (- Z.of_nat (S d)) v').

Lemma round_end fuel d k v : Z.of_nat d < k → holds d k v →
  (∀ k', on d k' → k' < k → reach d k' < Z.max N (M + k')) → round_from fuel d k v.
Proof.
  intros Hgt Hv Hk. right. exists v. split_and!.
  - destruct fuel; unfold diagonals; destruct (Z.leb_spec k (Z.of_nat d)); done || lia.
  - intros k' Hk'. apply Hk; [done|]. destruct Hk' as (j' & -> & ?). lia.
  - split; [apply Hv|intros k' (j' & -> & ?); lia|].
    intros k' Hk'. apply (h_done _ _ _ Hv); [done|]. destruct Hk' as (j' & -> & ?). lia.
Qed.

(** One diagonal. *)
Lemma diagonals_step fuel d k v : holds d k v → on d k → Z.of_nat d ≤ off →
  diagonals (S fuel) a b (Z.of_nat d) k v =
  if (N <=? reach d k) && (M <=? reach d k - k) then Done None
  else diagonals fuel a b (Z.of_nat d) (k + 2) (<[Z.to_nat (k + off) := reach d k]> v).
Proof.
  intros Hv Hon Hd. pose proof (choose_start d k v Hv Hon Hd) as Hs.
  pose proof (start_range d k Hon) as [H0 H1]. pose proof (start_le d k) as H2.
  pose proof Hon as (j & Ej & ?).
  unfold diagonals; fold diagonals. destruct (Z.leb_spec k (Z.of_nat d)); [|lia].
  apply bind_Done in Hs as (down & -> & Hs). cbn [mbind res_bind].
  rewrite Hs. cbn [mbind res_bind]. rewrite snake_slide by lia. cbn [mbind res_bind].
  fold (reach d k). replace (reach d k - start d k + (start d k - k)) with (reach d k - k) by lia.
  destruct (lookup_lt_is_Some_2 v (Z.to_nat (k + off))) as [x Hx].
  { rewrite (h_len _ _ _ Hv). lia. }
  rewrite (at_index_some v (k + off) x) by (done || lia). cbn [mbind res_bind].
  by rewrite !past_spec by lia.
Qed.

Lemma diagonals_spec fuel d j v : let k := 2 * j - Z.of_nat d in
  holds d k v → 0 ≤ j → Z.of_nat d + 1 ≤ Z.of_nat fuel + j → Z.of_nat d ≤ off →
  (∀ d', (d' < d)%nat → alive d') → (∀ k', on d k' → k' < k → reach d k' < Z.max N (M + k')) →
  round_from fuel d k v.
Proof.
  revert j v. induction fuel as [|fuel IH]; intros j v k Hv Hj Hf Hd Hal Hk;
    (destruct (Z.leb_spec k (Z.of_nat d)) as [Hle|Hgt]; [|by apply round_end]); [lia|].
  assert (on d k) as Hon by (exists j; lia).
  unfold round_from. rewrite (diagonals_step fuel d k v Hv Hon Hd).
  destruct (Z.leb_spec N (reach d k)) as [Hn|Hn], (Z.leb_spec M (reach d k - k)) as [Hm|Hm];
    cbn [andb].
  1: { destruct (end_exact d k Hal Hon) as [E E']; [lia|]. left. rewrite <- E'. split_and!; done. }
  all: replace (k + 2) with (2 * (j + 1) - Z.of_nat d) by lia; apply IH; try done; try lia.
  all: try (replace (2 * (j + 1) - Z.of_nat d) with (k + 2) by lia; by apply holds_insert).
  all: intros k' Hk' Hlt; destruct (decide (k' = k)) as [->|]; [lia|apply Hk; [done|]].
  all: destruct Hk' as (j' & -> & ?); lia.
Qed.

(** ** The way back *)

(** Pairs of equal elements, increasing from [(i, j)]. *)
Fixpoint matched (i j : nat) (pairs : list (nat * nat)) : Prop :=
  match pairs with
  | [] => (i ≤ length a ∧ j ≤ length b)%nat
  | (x, y) :: pairs => (i ≤ x < length a ∧ j ≤ y < length b)%nat ∧ a !! x = b !! y ∧
      matched (S x) (S y) pairs
  end.

Lemma matched_weaken i j i' j' pairs : (i' ≤ i)%nat → (j' ≤ j)%nat →
  matched i j pairs → matched i' j' pairs.
Proof. destruct pairs as [|[x y] pairs]; simpl; intros; split_and!; lia || intuition. Qed.

Lemma walk_back_spec fuel px k qx qy x0 pairs :
  Z.max qx (qy + k) = x0 → 0 ≤ x0 ≤ px → k ≤ x0 → px - x0 ≤ Z.of_nat fuel →
  (∀ x, x0 ≤ x < px → same_at x (x - k) = true) →
  matched (Z.to_nat px) (Z.to_nat (px - k)) pairs →
  ∃ pairs', walk_back fuel px (px - k) qx qy pairs = Done (x0, x0 - k, pairs') ∧
    matched (Z.to_nat x0) (Z.to_nat (x0 - k)) pairs'.
Proof.
  revert px pairs. induction fuel as [|fuel IH]; intros px pairs Hq Hx Hk Hf Hs Hm;
    (destruct (decide (px = x0)) as [->|Hne];
      [exists pairs; split; [|done]; unfold walk_back;
        destruct (Z.ltb_spec qx x0), (Z.ltb_spec qy (x0 - k)); done || lia|]); [lia|].
  unfold walk_back; fold walk_back.
  destruct (Z.ltb_spec qx px), (Z.ltb_spec qy (px - k)); try lia. cbn [andb].
  replace (px - k - 1) with (px - 1 - k) by lia. apply IH; try done; try lia.
  { intros x Hx'. apply Hs. lia. }
  specialize (Hs (px - 1) ltac:(lia)). unfold same_at in Hs. rewrite bool_decide_eq_true in Hs.
  destruct Hs as (? & ? & E). simpl. split_and!; try done; try lia.
  eapply matched_weaken; [| |exact Hm]; lia.
Qed.

(** What the trace remembers of the rounds so far. *)
Definition traced (trace : list (list Z)) : Prop :=
  ∀ d vv, trace !! d = Some vv → ∀ k, on_before d k → window_at vv (Z.of_nat d) k = before d k.

Lemma choose_back d k vv : (∀ k, on_before d k → window_at vv (Z.of_nat d) k = before d k) →
  on d k →
  (k =? - Z.of_nat d) || (negb (k =? Z.of_nat d) &&
    (window_at vv (Z.of_nat d) (k - 1) <? window_at vv (Z.of_nat d) (k + 1))) =
  goes_down d (before d) k.
Proof.
  intros Hw Hk. destruct (on_before_near d k Hk) as [Hl Hr]. unfold goes_down.
  destruct (Z.eqb_spec k (- Z.of_nat d)) as [E|E]; [done|].
  destruct (Z.eqb_spec k (Z.of_nat d)) as [E'|E']; [done|].
  destruct Hl as [?|Hl]; [done|]. by rewrite (Hw _ Hl), (Hw _ (Hr (or_introl E'))).
Qed.

Lemma goes_down_near d k : on d k → 
  if goes_down d (before d) k then on_before d (k + 1) else on_before d (k - 1).
Proof.
  intros Hk. destruct (on_before_near d k Hk) as [Hl Hr]. unfold goes_down.
  destruct (Z.eqb_spec k (- Z.of_nat d)) as [E|E]; cbn [orb].
  { apply Hr. destruct d; lia. }
  destruct Hl as [?|Hl]; [done|]. destruct (Z.eqb_spec k (Z.of_nat d)) as [E'|E']; [done|].
  cbn [negb andb]. destruct (_ <? _); [apply Hr; by left|done].
Qed.

(** The diagonal a point was reached from. *)
Definition prev (d : nat) (k : Z) : Z := if goes_down d (before d) k then k + 1 else k - 1.

Lemma prev_start d k : Z.max (before d (prev d k)) (before d (prev d k) - prev d k + k) = start d k.
Proof. unfold prev, start, step. destruct (goes_down _ _ _); lia. Qed.

(** One round of the way back. *)
Lemma walk_round fuel d k vv pairs :
  (∀ k, on_before d k → window_at vv (Z.of_nat d) k = before d k) → on d k →
  reach d k ≤ Z.of_nat fuel → matched (Z.to_nat (reach d k)) (Z.to_nat (reach d k - k)) pairs →
  ∃ pairs', walk_back fuel (reach d k) (reach d k - k) (before d (prev d k))
              (before d (prev d k) - prev d k) pairs = Done (start d k, start d k - k, pairs') ∧
    matched (Z.to_nat (start d k)) (Z.to_nat (start d k - k)) pairs'.
Proof.
  intros Hw Hk Hf Hp. pose proof (start_range d k Hk) as [H0 H1]. pose proof (start_le d k) as H2.
  apply walk_back_spec; try done; try lia.
  - apply prev_start.
  - intros x Hx. unfold reach in Hx. replace (x - k) with (x - start d k + (start d k - k)) by lia.
    apply (slide_run (length a) (start d k) (start d k - k)). done.
Qed.

Lemma backtrack_unfold fuel trace d px py pairs vv : trace !! d = Some vv →
  (∀ k, on_before d k → window_at vv (Z.of_nat d) k = before d k) → on d (px - py) →
  backtrack fuel trace d px py pairs =
  ('(_, _, pairs) ← walk_back fuel px py (before d (prev d (px - py)))
       (before d (prev d (px - py)) - prev d (px - py)) pairs;
   match d with
   | O => Done pairs
   | S d' => backtrack fuel trace d' (before d (prev d (px - py)))
       (before d (prev d (px - py)) - prev d (px - py)) pairs
   end).
Proof.
  intros Hvv Hw Hk. pose proof (goes_down_near _ _ Hk) as Hnear. unfold prev.
  destruct d; unfold backtrack; fold backtrack; rewrite Hvv; cbn [mbind res_bind get_ix];
    rewrite (choose_back _ _ _ Hw Hk); destruct (goes_down _ _ _); by rewrite (Hw _ Hnear).
Qed.

Lemma backtrack_spec fuel trace d k pairs : traced trace → (d < length trace)%nat → on d k →
  reach d k ≤ N → N ≤ Z.of_nat fuel →
  matched (Z.to_nat (reach d k)) (Z.to_nat (reach d k - k)) pairs →
  ∃ pairs', backtrack fuel trace d (reach d k) (reach d k - k) pairs = Done pairs' ∧
    matched 0 0 pairs'.
Proof.
  intros Ht. revert k pairs. induction d as [|d IH]; intros k pairs Hl Hk Hn Hf Hp;
    destruct (lookup_lt_is_Some_2 trace _ Hl) as [vv Hvv]; pose proof (Ht _ _ Hvv) as Hw;
    erewrite backtrack_unfold by (try done; by replace (reach _ k - (reach _ k - k)) with k by lia).
  - replace (reach 0 k - (reach 0 k - k)) with k by lia.
    destruct (walk_round fuel 0 k vv pairs Hw Hk ltac:(lia) Hp) as (ps & -> & Hps).
    exists ps. split; [done|]. eapply matched_weaken; [..|exact Hps]; lia.
  - replace (reach (S d) k - (reach (S d) k - k)) with k by lia.
    destruct (walk_round fuel (S d) k vv pairs Hw Hk ltac:(lia) Hp) as (ps & -> & Hps).
    cbn [mbind res_bind]. pose proof (prev_start (S d) k) as Hq.
    change (before (S d)) with (reach d) in *. pose proof (start_le (S d) k).
    assert (on d (prev (S d) k)) as Hon.
    { pose proof (goes_down_near _ _ Hk) as Hnear. unfold prev. by destruct (goes_down _ _ _). }
    apply IH; try done; try lia. eapply matched_weaken; [..|exact Hps]; lia.
Qed.

(** ** The rounds *)

Definition window (d : nat) (v : list Z) : list Z :=
  take (2 * d + 1) (drop (length a + length b - d) v).

Lemma window_before d v : holds d (- Z.of_nat d) v → (d ≤ length a + length b)%nat →
  ∀ k, on_before d k → window_at (window d v) (Z.of_nat d) k = before d k.
Proof.
  intros Hv Hd k Hk. unfold window_at, window.
  assert (length (take (2 * d + 1) (drop (length a + length b - d) v)) = (2 * d + 1)%nat) as El.
  { rewrite length_take, length_drop, (h_len _ _ _ Hv). lia. }
  rewrite El. destruct d as [|d].
  { simpl in Hk. by subst k. }
  pose proof Hk as (j & E & ?).
  destruct (Z.ltb_spec (k + Z.of_nat (S d)) 0), (Z.leb_spec (Z.of_nat (2 * S d + 1)) (k + Z.of_nat (S d)));
    try lia. cbn [orb].
  rewrite lookup_take_lt, lookup_drop by lia.
  replace (_ + Z.to_nat _)%nat with (Z.to_nat (k + off)) by lia.
  by rewrite (h_before _ _ _ Hv k Hk).
Qed.

Lemma traced_snoc trace vv : traced trace →
  (∀ k, on_before (length trace) k → window_at vv (Z.of_nat (length trace)) k = before (length trace) k) →
  traced (trace ++ [vv]).
Proof.
  intros Ht Hw d vv' Hd. apply lookup_app_Some in Hd as [Hd|[Hge Hd]]; [by apply (Ht d)|].
  apply list_lookup_singleton_Some in Hd as [Hd <-].
  by replace d with (length trace) by lia.
Qed.

Lemma rounds_spec rest d v trace : holds d (- Z.of_nat d) v → traced trace → length trace = d →
  (∀ d', (d' < d)%nat → alive d') → (d + rest ≤ length a + length b)%nat →
  rounds rest a b d v trace = Done None ∨
  ∃ pairs, rounds rest a b d v trace = Done (Some pairs) ∧ matched 0 0 pairs.
Proof.
  revert d v trace. induction rest as [|rest IH]; intros d v trace Hv Ht Hlen Hal Hd;
    unfold rounds; fold rounds;
    rewrite bool_decide_eq_true_2 by (rewrite (h_len _ _ _ Hv); lia);
    fold (window d v);
    (assert (traced (trace ++ [window d v])) as Ht';
      [apply traced_snoc; [done|]; rewrite Hlen; apply window_before; [done|lia]|]);
    (destruct (diagonals_spec (S d) d 0 v) as [(E & Hon & Hend)|(v' & E & Halive & Hv')];
      [by replace (2 * 0 - Z.of_nat d) with (- Z.of_nat d) by lia|lia..|done|
       intros k' (j' & -> & ?); lia| |]);
    replace (2 * 0 - Z.of_nat d) with (- Z.of_nat d) in E by lia; rewrite E; cbn [mbind res_bind].
  1,3: right; destruct (backtrack_spec (length a + length b) (trace ++ [window d v]) d (N - M) [])
    as (ps & Eb & Hm); try done; try (rewrite Hend); try lia;
    [rewrite length_app; simpl; lia|simpl; lia|];
    rewrite Hend in Eb; replace (N - (N - M)) with M in Eb by lia; rewrite Eb; by exists ps.
  - by left.
  - apply IH; try done; try lia.
    + rewrite length_app. simpl. lia.
    + intros d' Hd'. destruct (decide (d' = d)) as [->|]; [done|]. apply Hal. lia.
Qed.

Lemma myers_spec max_d : myers a b max_d = Done None ∨
  ∃ pairs, myers a b max_d = Done (Some pairs) ∧ matched 0 0 pairs.
Proof.
  unfold myers. apply rounds_spec; try done; try lia.
  split; [apply length_replicate|intros k (j & -> & ?); lia|].
  intros k Hk. simpl in Hk. subst k. simpl. apply lookup_replicate_2. lia.
Qed.
End search.
Local Open Scope nat_scope.

(** ** Lines *)

(** The lines of a text, each with its terminator: [src[starts[i]..starts[i+1]]]. *)
Definition line_at (src : list byte) (i : nat) : list byte :=
  let starts := line_starts src in
  let s := default 0 (starts !! i) in
  take (default 0 (starts !! S i) - s) (drop s src).

Lemma newline_starts_bounds i src : Forall (λ s, i < s ≤ i + length src) (newline_starts i src).
Proof.
  revert i. induction src as [|c src IH]; intros i; simpl; [constructor|].
  specialize (IH (S i)). destruct (isb newline c); [constructor; [lia|]|];
    eapply Forall_impl; try exact IH; simpl; intros; lia.
Qed.

Lemma newline_starts_sorted i src : StronglySorted le (newline_starts i src).
Proof.
  revert i. induction src as [|c src IH]; intros i; simpl; [constructor|].
  destruct (isb newline c); [constructor; [done|]|done].
  eapply Forall_impl; [apply newline_starts_bounds|]. simpl. lia.
Qed.

Lemma sorted_lookup (l : list nat) i j x y : StronglySorted le l →
  l !! i = Some x → l !! j = Some y → i ≤ j → x ≤ y.
Proof.
  intros Hl. revert i j. induction Hl as [|z l Hl IH Hz]; intros [|i] [|j] Hi Hj Hij; try done.
  - simplify_eq/=. lia.
  - simpl in Hi, Hj. injection Hi as ->. rewrite Forall_lookup in Hz. specialize (Hz _ _ Hj). lia.
  - lia.
  - simpl in Hi, Hj. apply (IH i j); auto with lia.
Qed.

(** The starts increase from 0 to the length of the text. *)
Lemma line_starts_sorted src : StronglySorted le (line_starts src).
Proof.
  pose proof (newline_starts_bounds 0 src) as Hb.
  assert (StronglySorted le (0 :: newline_starts 0 src)) as Hs.
  { constructor; [apply newline_starts_sorted|]. eapply Forall_impl; [exact Hb|]. simpl. lia. }
  unfold line_starts. case_bool_decide as Hl; [done|]. apply StronglySorted_app.
  split_and!; [|done|by repeat constructor]. intros x y Hx ->%list_elem_of_singleton.
  apply elem_of_cons in Hx as [->|Hx]; [lia|].
  rewrite Forall_forall in Hb. specialize (Hb _ Hx). lia.
Qed.

Lemma line_starts_last src : last (line_starts src) = Some (length src).
Proof. unfold line_starts. case_bool_decide; [done|]. apply last_snoc. Qed.

Lemma line_starts_first src : line_starts src !! 0 = Some 0.
Proof. unfold line_starts. by case_bool_decide. Qed.

Lemma line_starts_bound src i s : line_starts src !! i = Some s → s ≤ length src.
Proof.
  intros Hs. pose proof (line_starts_last src) as Hl. rewrite last_lookup in Hl.
  apply (sorted_lookup _ _ _ _ _ (line_starts_sorted src) Hs Hl).
  apply lookup_lt_Some in Hs. lia.
Qed.

(** ** Hashes *)

Lemma hashes_spec src starts : StronglySorted le starts →
  Forall (λ s, s ≤ length src) starts →
  ∃ hs, hashes src starts = Done hs ∧ S (length hs) = Nat.max 1 (length starts) ∧
    ∀ i h, hs !! i = Some h → ∃ s e, starts !! i = Some s ∧ starts !! S i = Some e ∧
      h = line_hash (take (e - s) (drop s src)).
Proof.
  induction starts as [|s [|e starts] IH]; intros Hs Hb; [by exists []|by exists []|].
  apply StronglySorted_inv in Hs as [Hs Hle]. apply Forall_cons in Hb as [Hb1 Hb].
  destruct (IH Hs Hb) as (hs & E & Hl & Hh).
  exists (line_hash (take (e - s) (drop s src)) :: hs).
  change (hashes src (s :: e :: starts)) with
    (line ← slice src s e; hs ← hashes src (e :: starts); Done (line_hash line :: hs)).
  rewrite slice_in.
  2: { apply Forall_cons in Hle as [Hle _]. apply Forall_cons in Hb as [Hb _]. lia. }
  cbn [mbind res_bind]. rewrite E. split_and!; [done|simpl in *; lia|].
  intros [|i] h Hi; simpl in Hi; [injection Hi as <-; by exists s, e|]. by apply Hh.
Qed.

(** The lines of a text and their hashes. *)
Lemma hashes_lines src : ∃ hs, hashes src (line_starts src) = Done hs ∧
  length (line_starts src) = S (length hs) ∧
  ∀ i h, hs !! i = Some h → h = line_hash (line_at src i).
Proof.
  destruct (hashes_spec src (line_starts src)) as (hs & E & Hl & Hh).
  - apply line_starts_sorted.
  - apply Forall_lookup. intros i s Hs. by apply line_starts_bound in Hs.
  - exists hs. split_and!; [done| |].
    + pose proof (line_starts_first src) as H0. apply lookup_lt_Some in H0. lia.
    + intros i h Hi. destruct (Hh i h Hi) as (s & e & Hs & He & ->).
      unfold line_at. by rewrite Hs, He.
Qed.

(** ** Edits *)

(** Applying edits from the back, as their documentation asks. *)
Definition apply_edit (e : TextEdit) (t : list byte) : list byte :=
  take (Z.to_nat (te_start e)) t ++ te_new e ++ drop (Z.to_nat (te_end e)) t.
Definition apply_edits (es : list TextEdit) (t : list byte) : list byte := foldr apply_edit t es.

(** The edits are in the text, in order and without overlap, from [pos] on. *)
Fixpoint ordered (pos len : Z) (es : list TextEdit) : Prop :=
  match es with
  | [] => (pos ≤ len)%Z
  | e :: es => (pos ≤ te_start e ≤ te_end e)%Z ∧ ordered (te_end e) len es
  end.

Lemma ordered_le pos len es : ordered pos len es → (pos ≤ len)%Z.
Proof. revert pos. induction es as [|e es IH]; simpl; [done|]. intros pos [? ?%IH]. lia. Qed.

Lemma ordered_weaken pos pos' len es : (pos' ≤ pos)%Z → ordered pos len es → ordered pos' len es.
Proof. destruct es; simpl; intros; [lia|]. intuition lia. Qed.

(** What the edits from [pos] on make of the text from [pos] on. *)
Fixpoint patched (t : list byte) (pos : nat) (es : list TextEdit) : list byte :=
  match es with
  | [] => drop pos t
  | e :: es => take (Z.to_nat (te_start e) - pos) (drop pos t) ++ te_new e ++
               patched t (Z.to_nat (te_end e)) es
  end.

Lemma apply_patched t pos es : ordered (Z.of_nat pos) (Z.of_nat (length t)) es →
  apply_edits es t = take pos t ++ patched t pos es.
Proof.
  revert pos. induction es as [|e es IH]; intros pos Ho; simpl in *.
  { by rewrite take_drop. }
  destruct Ho as [Hp Ho]. pose proof (ordered_le _ _ _ Ho).
  rewrite (IH (Z.to_nat (te_end e))); [|by rewrite Z2Nat.id by lia].
  unfold apply_edit. rewrite drop_app_length' by (rewrite length_take; lia).
  rewrite take_app_le by (rewrite length_take; lia).
  rewrite take_take, Nat.min_l by lia. rewrite (assoc_L (++) (take pos t)), take_take_drop.
  do 2 f_equal. lia.
Qed.

Lemma take_split (t : list byte) n m : n ≤ m → take m t = take n t ++ take (m - n) (drop n t).
Proof. intros H. rewrite take_take_drop. f_equal. lia. Qed.

Lemma patched_split t pos q es : pos ≤ q → ordered (Z.of_nat q) (Z.of_nat (length t)) es →
  patched t pos es = take (q - pos) (drop pos t) ++ patched t q es.
Proof.
  intros Hpos Ho. destruct es as [|e es]; simpl in *.
  { rewrite <- (take_drop (q - pos) (drop pos t)) at 1. f_equal. rewrite drop_drop. f_equal. lia. }
  destruct Ho as [Hq Ho]. rewrite (app_assoc (take (q - pos) _)). f_equal.
  rewrite (take_split _ (q - pos)) by lia. rewrite drop_drop.
  replace (pos + (q - pos)) with q by lia. do 2 f_equal. lia.
Qed.

Lemma u32_fits n : (Z.of_nat n < 2 ^ 32)%Z → u32 n = Z.of_nat n.
Proof. intros Hn. unfold u32, wrap. apply Z.mod_small. lia. Qed.

(** ** From pairs to edits *)

Section edits.
Context (old new : list byte).
Context (Hsize : (Z.of_nat (length old) < 2 ^ 32)%Z).
Abbreviation oa := (line_starts old).
Abbreviation nb := (line_starts new).

(** One run of lines. *)
Lemma flush_spec ai aj bi bj p q s e : oa !! ai = Some p → oa !! aj = Some q →
  nb !! bi = Some s → nb !! bj = Some e → p ≤ q → s ≤ e →
  ∃ es, flush oa nb new ai aj bi bj = Done es ∧
    ∀ rest, ordered (Z.of_nat q) (Z.of_nat (length old)) rest →
      ordered (Z.of_nat p) (Z.of_nat (length old)) (es ++ rest) ∧
      (patched old q rest = drop e new → patched old p (es ++ rest) = drop s new).
Proof.
  intros Hp Hq Hs He Hpq Hse. unfold flush.
  pose proof (line_starts_bound _ _ _ Hq). pose proof (line_starts_bound _ _ _ He).
  destruct (bool_decide_reflect (ai = aj)) as [Ea|], (bool_decide_reflect (bi = bj)) as [Eb|];
    cbn [andb].
  { subst aj bj. exists []. split; [done|]. intros rest Ho. simplify_eq. by split. }
  all: rewrite Hp, Hq, Hs, He; cbn [mbind res_bind get_ix]; rewrite slice_in by done;
    eexists; (split; [done|]); intros rest Ho; simpl;
    rewrite !u32_fits by lia; (split; [split; [lia|done]|]); rewrite !Nat2Z.id; intros ->;
    rewrite Nat.sub_diag; simpl; rewrite <- (take_drop (e - s) (drop s new)) at 2;
    rewrite drop_drop; do 2 f_equal; lia.
Qed.

Context (Hlines : ∀ i j, line_hash (line_at old i) = line_hash (line_at new j) →
  line_at old i = line_at new j).

Lemma starts_at src i n : length (line_starts src) = S n → i ≤ n →
  ∃ s, line_starts src !! i = Some s ∧ s ≤ length src.
Proof.
  intros Hn Hi. destruct (lookup_lt_is_Some_2 (line_starts src) i) as [s Hs]; [lia|].
  exists s. split; [done|]. by apply line_starts_bound in Hs.
Qed.

Lemma line_split src i s e : line_starts src !! i = Some s → line_starts src !! S i = Some e →
  s ≤ e ∧ take (e - s) (drop s src) = line_at src i ∧ drop s src = line_at src i ++ drop e src.
Proof.
  intros Hs He. pose proof (sorted_lookup _ _ _ _ _ (line_starts_sorted src) Hs He ltac:(lia)).
  unfold line_at. rewrite Hs, He. simpl. split_and!; [done|done|].
  rewrite <- (take_drop (e - s) (drop s src)) at 1. rewrite drop_drop. do 2 f_equal. lia.
Qed.

Lemma flush_pairs_spec ha hb pairs ai bi p s :
  hashes old oa = Done ha → hashes new nb = Done hb → matched ha hb ai bi pairs →
  oa !! ai = Some p → nb !! bi = Some s →
  ∃ es, flush_pairs oa nb new (length ha) (length hb) ai bi pairs = Done es ∧
    ordered (Z.of_nat p) (Z.of_nat (length old)) es ∧ patched old p es = drop s new.
Proof.
  intros Ha Hb. destruct (hashes_lines old) as (ha' & Ha' & Hla & Hha).
  destruct (hashes_lines new) as (hb' & Hb' & Hlb & Hhb).
  rewrite Ha in Ha'. injection Ha' as <-. rewrite Hb in Hb'. injection Hb' as <-.
  revert ai bi p s. induction pairs as [|[x y] pairs IH]; intros ai bi p s Hm Hp Hs; simpl in Hm.
  - pose proof (line_starts_last old) as Hlo. pose proof (line_starts_last new) as Hln.
    rewrite last_lookup, Hla in Hlo. rewrite last_lookup, Hlb in Hln. simpl in Hlo, Hln.
    pose proof (line_starts_bound _ _ _ Hp). pose proof (line_starts_bound _ _ _ Hs).
    destruct (flush_spec ai (length ha) bi (length hb) p _ s _ Hp Hlo Hs Hln) as (es & E & Hes);
      [done..|]. simpl. exists es. split; [done|]. specialize (Hes []). simpl in Hes.
    rewrite app_nil_r in Hes. destruct Hes as [? Hes]; [lia|]. split; [done|]. apply Hes.
    by rewrite !drop_all.
  - destruct Hm as (Hx & Hxy & Hm).
    destruct (starts_at old x _ Hla) as (q & Hq & _); [lia|].
    destruct (starts_at old (S x) _ Hla) as (q' & Hq' & _); [lia|].
    destruct (starts_at new y _ Hlb) as (e & He & _); [lia|].
    destruct (starts_at new (S y) _ Hlb) as (e' & He' & _); [lia|].
    destruct (IH _ _ _ _ Hm Hq' He') as (rest & Er & Ho & Hpatch).
    destruct (line_split _ _ _ _ Hq Hq') as (? & Hlo & _).
    destruct (line_split _ _ _ _ He He') as (? & _ & Hln).
    destruct (flush_spec ai x bi y p q s e Hp Hq Hs He) as (es & E & Hes).
    { apply (sorted_lookup _ _ _ _ _ (line_starts_sorted old) Hp Hq). lia. }
    { apply (sorted_lookup _ _ _ _ _ (line_starts_sorted new) Hs He). lia. }
    simpl. rewrite E. cbn [mbind res_bind]. rewrite Er. cbn [mbind res_bind].
    destruct (Hes rest) as [Ho' Hpatch']; [by eapply ordered_weaken; [|done]; lia|].
    eexists. split; [done|]. split; [done|]. apply Hpatch'.
    rewrite (patched_split old q q') by done. rewrite Hpatch, Hln, Hlo. f_equal.
    apply Hlines. destruct (lookup_lt_is_Some_2 ha x) as [h Hh]; [lia|].
    rewrite Hh in Hxy. rewrite <- (Hha _ _ Hh). by apply Hhb.
Qed.
End edits.

(** C20: Applied from the back, the edits of diff turn the old text into the new
    one; they lie in the old text in order and without overlap, none when the
    texts are equal and at least one otherwise, and diff never panics. The texts
    are below 4 GiB and no two of their lines differ with the same 64-bit hash. *)
Theorem diff_correct (old new : list byte) (Hsize : (Z.of_nat (length old) < 2 ^ 32)%Z)
    (Hlines : ∀ i j, line_hash (line_at old i) = line_hash (line_at new j) →
      line_at old i = line_at new j) :
  ∃ es, diff old new = Done es ∧ ordered 0 (Z.of_nat (length old)) es ∧
    apply_edits es old = new ∧ (es = [] ↔ old = new).
Proof.
  cut (∃ es, diff old new = Done es ∧ ordered 0 (Z.of_nat (length old)) es ∧
    apply_edits es old = new ∧ (old = new → es = [])).
  { intros (es & E & Ho & Hap & Hn). exists es. split_and!; try done. split; [|done].
    by intros ->. }
  unfold diff. case_bool_decide as Heq.
  { exists []. split_and!; [done|simpl; lia|done|done]. }
  destruct (hashes_lines old) as (ha & Ha & _). destruct (hashes_lines new) as (hb & Hb & _).
  rewrite Ha, Hb. cbn [mbind res_bind].
  destruct (myers_spec ha hb BOUND) as [E|(pairs & E & Hm)]; rewrite E; cbn [mbind res_bind].
  - eexists. split_and!; [done|simpl; rewrite u32_fits by done; lia| |done].
    unfold apply_edits, apply_edit. simpl. rewrite u32_fits, Nat2Z.id, drop_all by done.
    apply app_nil_r.
  - destruct (flush_pairs_spec old new Hsize Hlines ha hb pairs 0 0 0 0) as (es & Ef & Ho & Hp);
      try done; try apply line_starts_first.
    exists es. split_and!; try done. rewrite (apply_patched old 0) by done. by rewrite Hp.
Qed.

Definition three_lines (l : byte) : list byte := [x61; newline; l; newline; x63].

Lemma diff_correct_witness : ∃ es, diff (three_lines x62) (three_lines x78) = Done es ∧
  ordered 0 (Z.of_nat (length (three_lines x62))) es ∧
  apply_edits es (three_lines x62) = three_lines x78 ∧
  (es = [] ↔ three_lines x62 = three_lines x78).
Proof.
  apply diff_correct; [vm_compute; reflexivity|].
  intros [|[|[|[|i]]]] [|[|[|[|j]]]]; vm_compute; intros H; (discriminate H || reflexivity).
Defined.
