(* ===== verification/SynTree.v ===== *)
(** * The syntax tree

    Models [src/crates/fors-syntax/src/node_kind.rs], [tree.rs] and, of
    [lib.rs], [reconstruct] and [validate].  The columns of a tree are [u32]s in
    [Z]; node indices are [nat]s.  A [u32] addition that overflows panics, as in
    a development build; an index out of bounds panics.  The kinds are in a
    module of their own, because some have the names of tokens. *)

From Stdlib Require Import Strings.Byte.
From S2P Require Import Prelude Token Lexer.
Local Open Scope Z_scope.

Module Kind.
Inductive NodeKind : Type :=
  | File | ModuleHdr | ContractsClause | NeedsClause | InputsClause | UseDecl | Path |
    DotLit | Attribute | AttrArg | FnDecl | ExternFnDecl | FnSig | Generics | GParam |
    Params | Param | Raises | Contract | StructDecl | Field | EnumDecl | EVariant |
    TraitDecl | TraitItem | ImplDecl | ConstDecl | Block | LetStmt | Binding | TupleBinding
    | AssignStmt | ExprStmt | ForStmt | WhileStmt | BreakStmt | ContinueStmt | ReturnStmt |
    RaiseStmt | WithStmt | ParallelStmt | ParallelForStmt | SimdForStmt | SpawnStmt |
    ConsumeStmt | DiscardStmt | AttrBlockStmt | OrExpr | AndExpr | NotExpr | CmpExpr |
    BitExpr | RangeExpr | AddExpr | MulExpr | CastExpr | UnaryExpr | CallExpr | Handler |
    Bracket | FieldExpr | TryExpr | NamedArg | InoutArg | SetArg | BareOp | Literal |
    NameExpr | StructLit | FInit | TupleOrParen | ArrayLit | AsmExpr | AsmItem | Closure |
    CParam | IfExpr | MatchExpr | Arm | ComptimeBlock | PatWild | PatLit | PatPath | PatDot
    | PatTuple | Payload | FPat | QualType | ScopedType | TypeApp | TupleType | FnType |
    FParam | DynType | Error | UseItem | PatLet | AssocTypeDecl | AssocTypeDef | GConstraint
    | DeferStmt | ErrdeferStmt.
#[export] Instance NodeKind_eq_dec : EqDecision NodeKind.
Proof. intros k k'. unfold Decision. decide equality. Defined.

Definition is_decl (k : NodeKind) : bool :=
  match k with
  | FnDecl | ExternFnDecl | StructDecl | EnumDecl | TraitDecl | ImplDecl | ConstDecl => true
  | _ => false
  end.
End Kind.
#[export] Existing Instance Kind.NodeKind_eq_dec.

Definition kind_eqb (k k' : Kind.NodeKind) : bool := bool_decide (k = k').

Definition add32 (x y : Z) : res Z := if 2 ^ 32 <=? x + y then Panic else Done (x + y).
Definition sub32 (x y : Z) : res Z := if x <? y then Panic else Done (x - y).

Record Tree : Type := MkTree {
  kinds : list Kind.NodeKind; first_token : list Z; token_len : list Z; subtree_len : list Z }.

Definition len (t : Tree) : nat := length (kinds t).
Definition is_empty (t : Tree) : bool := bool_decide (kinds t = []).

Definition token_range (t : Tree) (i : nat) : res (Z * Z) :=
  first ← get_ix (first_token t !! i);
  len ← get_ix (token_len t !! i);
  stop ← add32 first len;
  Done (first, stop).

Definition is_leaf (t : Tree) (i : nat) : res bool :=
  n ← get_ix (subtree_len t !! i); Done (n =? 1).

Definition subtree_end (t : Tree) (i : nat) : res nat :=
  n ← get_ix (subtree_len t !! i); Done (i + Z.to_nat n)%nat.

(** ** Children *)

Record ChildIter : Type := MkChildIter { ci_next : nat; ci_end : nat }.

Definition children (t : Tree) (i : nat) : res ChildIter :=
  stop ← subtree_end t i; Done (MkChildIter (i + 1) stop).

(** [Iterator::next] *)
Definition child_next (t : Tree) (it : ChildIter) : res (option nat * ChildIter) :=
  if bool_decide (ci_end it ≤ ci_next it)%nat then Done (None, it)
  else
    next ← subtree_end t (ci_next it);
    Done (Some (ci_next it), MkChildIter next (ci_end it)).

(** What is left of an iterator, for a loop over all of it. *)
Fixpoint child_list (fuel : nat) (t : Tree) (it : ChildIter) : res (list nat) :=
  '(c, it) ← child_next t it;
  match c, fuel with
  | None, _ => Done []
  | Some _, O => OutOfFuel
  | Some c, S fuel => cs ← child_list fuel t it; Done (c :: cs)
  end.

(** ** The source of a tree *)

(** The loop of [emit] in [reconstruct]: tokens [from], [from + 1], .., [n] of them. *)
Fixpoint emit_tokens (n from : nat) (tokens : Tokens) (source : list byte) : res (list byte) :=
  match n with
  | O => Done []
  | S n =>
      t ← text tokens from source;
      rest ← emit_tokens n (S from) tokens source;
      Done (t ++ rest)
  end.

Definition emit_range (from to : Z) (tokens : Tokens) (source : list byte) : res (list byte) :=
  let to := Z.min to (wrap 32 (Z.of_nat (tok_len tokens))) in
  emit_tokens (Z.to_nat to - Z.to_nat from) (Z.to_nat from) tokens source.

(** The nodes from the one that starts at the head of [firsts]; also the last [pos]. *)
Fixpoint reconstruct_nodes (firsts : list Z) (pos : Z) (tokens : Tokens) (source : list byte) :
    res (list byte * Z) :=
  match firsts with
  | [] => Done ([], pos)
  | first :: firsts =>
      t ← emit_range (Z.min pos first) first tokens source;
      '(rest, pos) ← reconstruct_nodes firsts first tokens source;
      Done (t ++ rest, pos)
  end.

(** [tree.first_token[i]] for [i] below [tree.len()]. *)
Fixpoint columns {A} (n : nat) (col : list A) : res (list A) :=
  match n, col with
  | O, _ => Done []
  | S n, [] => Panic
  | S n, x :: col => xs ← columns n col; Done (x :: xs)
  end.

Definition reconstruct (tree : Tree) (tokens : Tokens) (source : list byte) : res (list byte) :=
  firsts ← columns (len tree) (first_token tree);
  '(out, pos) ← reconstruct_nodes firsts 0 tokens source;
  if is_empty tree then Done out
  else
    '(_, stop) ← token_range tree 0;
    t ← emit_range pos stop tokens source;
    Done (out ++ t).

(** ** Validation *)

(** The messages of [validate]. *)
Inductive Violation : Type :=
  | EmptyTree
  | RootKind (k : Kind.NodeKind)
  | RootSpan (span : Z * Z) (tokens : nat)
  | RootSubtree (sub : Z) (n : nat)
  | ZeroSubtree (i : nat)
  | Overruns (i : nat) (k : Kind.NodeKind)
  | Overlaps (i : nat) (k : Kind.NodeKind) (first stop next parent_end : Z)
  | ChildOfFile (i : nat) (k : Kind.NodeKind)
  | SwallowsDecl (i : nat) (token : nat)
  | NotReconstructed.

(** An open ancestor: its end node, its end token, the next free token. *)
Record Frame : Type := MkFrame { fr_end : nat; fr_end_tok : Z; fr_next : Z }.

(** The innermost ancestor is at the head. *)
Fixpoint pop_closed (i : nat) (stack : list Frame) : list Frame :=
  match stack with
  | f :: rest => if bool_decide (fr_end f ≤ i)%nat then pop_closed i rest else stack
  | [] => []
  end.

Definition is_header (k : Kind.NodeKind) : bool :=
  match k with
  | Kind.ModuleHdr | Kind.ContractsClause | Kind.NeedsClause | Kind.InputsClause | Kind.UseDecl => true
  | _ => false
  end.

(** [sig]: the tokens of a range that are neither trivia nor errors. *)
Fixpoint significant_in (n from : nat) (tokens : Tokens) : res (list nat) :=
  match n with
  | O => Done []
  | S n =>
      k ← get_ix (Lexer.kinds tokens !! from);
      rest ← significant_in n (S from) tokens;
      Done (if negb (is_trivia k) && match k with Error => false | _ => true end
            then from :: rest else rest)
  end.

Definition starts_decl (tokens : Tokens) (source : list byte) (t : nat) (next : option TokenKind) :
    res bool :=
  k ← get_ix (Lexer.kinds tokens !! t);
  match k with
  | KwModule | KwUse | KwStruct | KwEnum | KwTrait | KwImpl | KwConst | KwExtern => Done true
  | KwFn => Done (match next with Some Ident => true | _ => false end)
  | Ident =>
      match next with
      | Some KwStruct => x ← text tokens t source; Done (bool_decide (x = bytes_of "soa"))
      | _ => Done false
      end
  | _ => Done false
  end.

(** The loop over [sig], at index [w]; [first] is [sig[0]]. *)
Fixpoint swallowed (w first : nat) (sig : list nat) (tokens : Tokens) (source : list byte) :
    res (option nat) :=
  match sig with
  | [] => Done None
  | t :: sig =>
      next ← match sig with
             | u :: _ => k ← get_ix (Lexer.kinds tokens !! u); Done (Some k)
             | [] => Done None
             end;
      starts ← starts_decl tokens source t next;
      bad ← if starts : bool then
              if bool_decide (w = 1%nat) then
                k ← get_ix (Lexer.kinds tokens !! first);
                Done (match k with KwPub => false | _ => true end)
              else Done true
            else Done false;
      if bad : bool then Done (Some t) else swallowed (S w) first sig tokens source
  end.

(** The checks of node [i] under its parent, the head of [stack]: the stack
    with the parent's next free token moved. *)
Definition check_parent (i : nat) (k : Kind.NodeKind) (sub : nat) (first end_tok : Z) (stack : list Frame) :
    result Violation (list Frame) :=
  match stack with
  | [] => Ok []
  | f :: rest =>
      if bool_decide (fr_end f < i + sub)%nat then Err (Overruns i k)
      else if (first <? fr_next f) || (fr_end_tok f <? end_tok)
           then Err (Overlaps i k first end_tok (fr_next f) (fr_end_tok f))
      else Ok (MkFrame (fr_end f) (fr_end_tok f) end_tok :: rest)
  end.

Definition validate_node (tree : Tree) (tokens : Tokens) (source : list byte) (i : nat)
    (stack : list Frame) : res (result Violation (list Frame)) :=
  let stack := pop_closed i stack in
  '(first, end_tok) ← token_range tree i;
  sub ← get_ix (subtree_len tree !! i);
  if (sub =? 0) then Done (Err (ZeroSubtree i))
  else
    k ← get_ix (kinds tree !! i);
    match check_parent i k (Z.to_nat sub) first end_tok stack with
    | Err e => Done (Err e)
    | Ok stack =>
        if bool_decide (length stack = 1%nat) &&
           negb (is_header k || Kind.is_decl k || kind_eqb k Kind.Error)
        then Done (Err (ChildOfFile i k))
        else
          bad ← if kind_eqb k Kind.Error then
                  sig ← significant_in (Z.to_nat end_tok - Z.to_nat first) (Z.to_nat first) tokens;
                  match sig with
                  | s0 :: rest => swallowed 1 s0 rest tokens source
                  | [] => Done None
                  end
                else Done None;
          match bad with
          | Some t => Done (Err (SwallowsDecl i t))
          | None => Done (Ok (MkFrame (i + Z.to_nat sub) end_tok first :: stack))
          end
    end.

(** Nodes [i], .., [i + n - 1]. *)
Fixpoint validate_nodes (n : nat) (tree : Tree) (tokens : Tokens) (source : list byte) (i : nat)
    (stack : list Frame) : res (result Violation unit) :=
  match n with
  | O => Done (Ok ())
  | S n =>
      r ← validate_node tree tokens source i stack;
      match r with
      | Err e => Done (Err e)
      | Ok stack => validate_nodes n tree tokens source (S i) stack
      end
  end.

Definition validate (tree : Tree) (tokens : Tokens) (source : list byte) :
    res (result Violation unit) :=
  let n := len tree in
  if bool_decide (n = 0%nat) then Done (Err EmptyTree)
  else
    k ← get_ix (kinds tree !! 0%nat);
    if negb (kind_eqb k Kind.File) then Done (Err (RootKind k))
    else
      span ← token_range tree 0;
      if negb (bool_decide (span = (0, wrap 32 (Z.of_nat (tok_len tokens)))))
      then Done (Err (RootSpan span (tok_len tokens)))
      else
        sub ← get_ix (subtree_len tree !! 0%nat);
        if negb (bool_decide (Z.to_nat sub = n)) then Done (Err (RootSubtree sub n))
        else
          r ← validate_nodes n tree tokens source 0 [];
          match r with
          | Err e => Done (Err e)
          | Ok _ =>
              out ← reconstruct tree tokens source;
              Done (if bool_decide (out = source) then Ok () else Err NotReconstructed)
          end.
