(* ===== verification/FmtEmit.v ===== *)
(** * The formatter's emitter

    Models [src/crates/fors-fmt/src/emit.rs]: the walk over a syntax tree that
    lowers it to layout operations.  The emitter's fields are a state threaded
    through a monad; its token indices are [nat]s.  The node handlers take the
    walk of a child as an argument, and [node] ties the knot with fuel.  The
    loops take fuel too: FmtEmitWalk proves that what they are given is enough
    on the trees the formatter meets. *)

From Stdlib Require Import Strings.Byte.
From S2P Require Import Prelude Token Lexer FmtDoc SynTree.
Local Open Scope nat_scope.

Module Sep.
Inductive Sep : Type := None | Space | Line | Soft | Hard.
End Sep.

Record Emitter : Type := MkEmitter {
  em_ops : list Op; em_cursor : nat; em_prev : option TokenKind; em_sep : option Sep.Sep;
  em_blank_ok : bool; em_in_chain : bool; em_chain_indent : bool }.

(** ** Steps of the emitter *)

Definition ST (A : Type) : Type := Emitter → res (A * Emitter).
#[export] Instance st_ret : MRet ST := λ A a e, Done (a, e).
#[export] Instance st_bind : MBind ST := λ A B f m e,
  match m e with Done (a, e) => f a e | Panic => Panic | OutOfFuel => OutOfFuel end.

Definition lift {A} (r : res A) : ST A := λ e,
  match r with Done a => Done (a, e) | Panic => Panic | OutOfFuel => OutOfFuel end.
Definition gets {A} (f : Emitter → A) : ST A := λ e, Done (f e, e).
Definition modify (f : Emitter → Emitter) : ST unit := λ e, Done (tt, f e).
Definition out_of_fuel {A} : ST A := λ _, OutOfFuel.

Definition with_ops (f : list Op → list Op) (e : Emitter) : Emitter :=
  MkEmitter (f (em_ops e)) (em_cursor e) (em_prev e) (em_sep e) (em_blank_ok e) (em_in_chain e)
    (em_chain_indent e).
Definition with_cursor (n : nat) (e : Emitter) : Emitter :=
  MkEmitter (em_ops e) n (em_prev e) (em_sep e) (em_blank_ok e) (em_in_chain e) (em_chain_indent e).
Definition with_prev (k : option TokenKind) (e : Emitter) : Emitter :=
  MkEmitter (em_ops e) (em_cursor e) k (em_sep e) (em_blank_ok e) (em_in_chain e) (em_chain_indent e).
Definition with_sep (s : option Sep.Sep) (e : Emitter) : Emitter :=
  MkEmitter (em_ops e) (em_cursor e) (em_prev e) s (em_blank_ok e) (em_in_chain e) (em_chain_indent e).
Definition with_blank_ok (b : bool) (e : Emitter) : Emitter :=
  MkEmitter (em_ops e) (em_cursor e) (em_prev e) (em_sep e) b (em_in_chain e) (em_chain_indent e).
Definition with_in_chain (b : bool) (e : Emitter) : Emitter :=
  MkEmitter (em_ops e) (em_cursor e) (em_prev e) (em_sep e) (em_blank_ok e) b (em_chain_indent e).
Definition with_chain_indent (b : bool) (e : Emitter) : Emitter :=
  MkEmitter (em_ops e) (em_cursor e) (em_prev e) (em_sep e) (em_blank_ok e) (em_in_chain e) b.

Definition push (op : Op) : ST unit := modify (with_ops (λ ops, ops ++ [op])).
Definition set (s : Sep.Sep) : ST unit := modify (with_sep (Some s)).
Definition when (b : bool) (m : ST unit) : ST unit := if b then m else mret tt.

Definition is_some {A} (o : option A) : bool := match o with Some _ => true | None => false end.

(** ** Spacing *)

Definition value_end (k : TokenKind) : bool :=
  match k with
  | Ident | Int | Float | Str | MultilineStr | RParen | RBracket | RBrace | Question | Underscore
  | KwTrue | KwFalse => true
  | _ => false
  end.

Definition default_sep (prev next : TokenKind) : Sep.Sep :=
  match next with
  | RParen | RBracket | Comma | Semi | Colon | Question => Sep.None
  | RBrace => match prev with LBrace => Sep.None | _ => Sep.Space end
  | Dot | DotDotLt | DotDotEq =>
      if value_end prev || match prev with Dot | DotDotLt | DotDotEq => true | _ => false end
      then Sep.None else Sep.Space
  | LParen | LBracket =>
      if value_end prev || match prev with KwFn | KwImpl | KwAsm | KwIn => true | _ => false end
      then Sep.None else Sep.Space
  | _ =>
      match prev with
      | LParen | LBracket | At | Amp | Dot | DotDotLt | DotDotEq => Sep.None
      | _ => Sep.Space
      end
  end.

Definition emit_sep (s : Sep.Sep) : ST unit :=
  match s with
  | Sep.None => mret tt
  | Sep.Space => push Space
  | Sep.Line => push Line
  | Sep.Soft => push Soft
  | Sep.Hard => push Hard
  end.

(** ** Children *)

Record Kids : Type := MkKids { k_next : nat; k_end : nat }.

Definition peek (kids : Kids) : option nat :=
  if bool_decide (k_next kids < k_end kids) then Some (k_next kids) else None.

Section emit.
Context (src : list byte) (toks : Tokens) (tree : Tree).

Definition kids_new (n : nat) : ST Kids :=
  stop ← lift (subtree_end tree n); mret (MkKids (n + 1) stop).

Definition bump (kids : Kids) : ST Kids :=
  if bool_decide (k_next kids < k_end kids) then
    next ← lift (subtree_end tree (k_next kids)); mret (MkKids next (k_end kids))
  else mret kids.

(** [tree.first_token[c] as usize] *)
Definition first_of (c : nat) : ST nat :=
  f ← lift (get_ix (first_token tree !! c)); mret (Z.to_nat f).
(** [tree.token_range(c).1 as usize] *)
Definition end_of (c : nat) : ST nat :=
  r ← lift (token_range tree c); mret (Z.to_nat r.2).
Definition kind_of (c : nat) : ST Kind.NodeKind := lift (get_ix (SynTree.kinds tree !! c)).
Definition tok_kind (i : nat) : ST TokenKind := lift (get_ix (Lexer.kinds toks !! i)).

(** ** The token cursor *)

(** [while i < limit && self.toks.kinds[i].is_trivia()] *)
Fixpoint skip_trivia (fuel i : nat) (limit : Z) : res nat :=
  if (Z.of_nat i <? limit)%Z then
    k ← get_ix (Lexer.kinds toks !! i);
    if is_trivia k then
      match fuel with O => OutOfFuel | S fuel => skip_trivia fuel (S i) limit end
    else Done i
  else Done i.

Definition n_toks : nat := tok_len toks.

Definition sig_from (i : nat) : res nat := skip_trivia n_toks i (Z.of_nat n_toks).
Definition sig_idx : ST nat := i ← gets em_cursor; lift (sig_from i).

(** [n] is [self.toks.len() - i]. *)
Fixpoint peek_from (n i : nat) : res (option TokenKind) :=
  match n with
  | O => Done None
  | S n =>
      k ← get_ix (Lexer.kinds toks !! i);
      match k with
      | Whitespace => peek_from n (S i)
      | LineComment | BlockComment => Done None
      | k => Done (Some k)
      end
  end.
Definition peek_no_comment : ST (option TokenKind) :=
  i ← gets em_cursor; lift (peek_from (n_toks - i) i).

Definition newlines_in (i : nat) : res nat :=
  t ← text toks i src; Done (length (List.filter (isb newline) t)).

(** [Op::Src] of a token's range. *)
Definition src_op (i : nat) : res Op :=
  '(a, b) ← range toks i; Done (Src (Z.to_nat a) (Z.to_nat b)).

(** How many operations at the end, the last first, a trailing comment crosses. *)
Fixpoint crossed (block : bool) (rev_ops : list Op) : nat :=
  match rev_ops with
  | Src _ _ :: _ => 0
  | Close :: rest => if block then S (crossed block rest) else 0
  | _ :: rest => S (crossed block rest)
  | [] => 0
  end.

Definition trailing_comment (op : Op) (k : TokenKind) : ST unit :=
  let block := match k with BlockComment => true | _ => false end in
  modify (with_ops (λ ops,
    let cut := length ops - crossed block (rev ops) in
    take cut ops ++ [Space; op; if block then Space else Hard] ++ drop cut ops)).

Definition comment (op : Op) (k : TokenKind) (nl : nat) : ST unit :=
  prev ← gets em_prev;
  if bool_decide (nl = 0) && is_some prev then trailing_comment op k
  else
    blank_ok ← gets em_blank_ok;
    push (if bool_decide (2 ≤ nl) && blank_ok then Blank else Hard);;
    push op;;
    push Hard;;
    modify (with_sep None).

(** The loop of [trivia], with [n] tokens left. *)
Fixpoint trivia_loop (n nl : nat) : ST nat :=
  match n with
  | O => mret nl
  | S n =>
      i ← gets em_cursor;
      k ← tok_kind i;
      match k with
      | Whitespace =>
          m ← lift (newlines_in i);
          modify (with_cursor (S i));;
          trivia_loop n (nl + m)
      | LineComment | BlockComment =>
          op ← lift (src_op i);
          comment op k nl;;
          modify (with_cursor (S i));;
          modify (with_blank_ok true);;
          trivia_loop n 0
      | _ => mret nl
      end
  end.

Definition trivia : ST unit :=
  i ← gets em_cursor;
  nl ← trivia_loop (n_toks - i) 0;
  blank_ok ← gets em_blank_ok;
  when (bool_decide (2 ≤ nl) && blank_ok) (push Blank).

(** [self.sep.take()] *)
Definition take_sep : ST (option Sep.Sep) := s ← gets em_sep; modify (with_sep None);; mret s.

Definition tok : ST (option TokenKind) :=
  trivia;;
  i ← gets em_cursor;
  if bool_decide (n_toks ≤ i) then mret None
  else
    k ← tok_kind i;
    op ← lift (src_op i);
    s ← take_sep;
    prev ← gets em_prev;
    match prev with
    | Some p => emit_sep (default (default_sep p k) s)
    | None => mret tt
    end;;
    push op;;
    match k with MultilineStr => push Hard | _ => mret tt end;;
    modify (with_cursor (S i));;
    modify (with_prev (Some k));;
    modify (with_blank_ok false);;
    mret (Some k).

Fixpoint tokens_until_loop (fuel : nat) (limit : Z) : ST unit :=
  match fuel with
  | O => out_of_fuel
  | S fuel =>
      cursor ← gets em_cursor;
      i ← lift (skip_trivia n_toks cursor limit);
      if (limit <=? Z.of_nat i)%Z then mret tt
      else
        k ← tok;
        if is_some k then tokens_until_loop fuel limit else mret tt
  end.
Definition tokens_until (limit : Z) : ST unit := tokens_until_loop (S n_toks) limit.

Definition finish (n : nat) : ST unit := e ← end_of n; tokens_until (Z.of_nat e).

Definition group_open : ST unit :=
  trivia;;
  s ← take_sep;
  prev ← gets em_prev;
  match s with Some s => when (is_some prev) (emit_sep s) | None => mret tt end;;
  push Open.

(** The next child, if it starts at or before token [ti]. *)
Definition kid_at (kids : Kids) (ti : nat) : ST (option nat) :=
  match peek kids with
  | Some c => f ← first_of c; mret (if bool_decide (f ≤ ti) then Some c else None)
  | None => mret None
  end.

Definition loop_fuel : nat := S (n_toks + len tree).

(** ** The walk *)

Section handlers.
Context (node : nat → ST unit).

Definition child (c : nat) : ST unit :=
  f ← first_of c;
  tokens_until (Z.of_nat f);;
  node c;;
  e ← end_of c;
  cursor ← gets em_cursor;
  when (bool_decide (cursor < e)) (modify (with_cursor e)).

Fixpoint plain_loop (fuel e : nat) (kids : Kids) : ST unit :=
  match fuel with
  | O => out_of_fuel
  | S fuel =>
      ti ← sig_idx;
      if bool_decide (e ≤ ti) then mret tt
      else
        c ← kid_at kids ti;
        match c with
        | Some c => child c;; kids ← bump kids; plain_loop fuel e kids
        | None => k ← tok; if is_some k then plain_loop fuel e kids else mret tt
        end
  end.

Definition plain (n : nat) : ST unit :=
  e ← end_of n;
  kids ← kids_new n;
  plain_loop loop_fuel e kids;;
  finish n.

Fixpoint file_loop (fuel : nat) (it : ChildIter) (first : bool) : ST unit :=
  match fuel with
  | O => out_of_fuel
  | S fuel =>
      r ← lift (child_next tree it);
      match r with
      | (Some c, it) =>
          when (negb first) (set Sep.Hard;; modify (with_blank_ok true));;
          child c;;
          file_loop fuel it false
      | (None, _) => mret tt
      end
  end.

Definition file (n : nat) : ST unit :=
  it ← lift (children tree n);
  file_loop loop_fuel it true;;
  finish n.

(** [tree.children(n).last()] *)
Definition last_child (n : nat) : ST (option nat) :=
  cs ← lift (it ← children tree n; child_list (len tree) tree it); mret (last cs).

(** Whether the [(] at the cursor opens a list whose only item is a closure with
    a block body. *)
Definition hugs (kids : Kids) : ST bool :=
  match peek kids with
  | None => mret false
  | Some c =>
      kc ← kind_of c;
      if negb (kind_eqb kc Kind.Closure) then mret false
      else
        body ← last_child c;
        match body with
        | None => mret false
        | Some body =>
            kb ← kind_of body;
            if negb (kind_eqb kb Kind.Block) then mret false
            else
              i ← sig_idx;
              i ← lift (sig_from (i + 1));
              f ← first_of c;
              if negb (bool_decide (i = f)) then mret false
              else
                j ← end_of c;
                j ← lift (sig_from j);
                if bool_decide (n_toks ≤ j) then mret false
                else
                  k ← tok_kind j;
                  match k with
                  | RParen =>
                      rest ← bump kids;
                      match peek rest with
                      | None => mret true
                      | Some next => f ← first_of next; mret (bool_decide (j < f))
                      end
                  | _ => mret false
                  end
        end
  end.

Definition is_open (k : TokenKind) : bool :=
  match k with LParen | LBracket | LBrace => true | _ => false end.
Definition closer (k : TokenKind) : TokenKind :=
  match k with LParen => RParen | LBracket => RBracket | _ => RBrace end.

(** The locals of [shaped_from]. *)
Record Shape : Type := MkShape {
  sh_kids : Kids; sh_close : option TokenKind; sh_first : bool; sh_contracted : bool }.

(** A child of a shaped node, [c]. *)
Definition shaped_child (always : bool) (sh : Shape) (c : nat) : ST Shape :=
  '(first, contracted) ←
    (if is_some (sh_close sh) then
       when (negb (sh_first sh))
         (when always (set Sep.Hard);; modify (with_blank_ok true));;
       mret (false, sh_contracted sh)
     else
       kc ← kind_of c;
       if kind_eqb kc Kind.Contract then
         when (negb (sh_contracted sh)) (push Indent);;
         set Sep.Hard;;
         mret (sh_first sh, true)
       else mret (sh_first sh, sh_contracted sh));
  child c;;
  kids ← bump (sh_kids sh);
  mret (MkShape kids (sh_close sh) first contracted).

(** The only argument of a call, a closure that hugs its parentheses. *)
Definition shaped_hug (n : nat) (sh : Shape) : ST Shape :=
  tok;;
  set Sep.None;;
  child (default n (peek (sh_kids sh)));;
  kids ← bump (sh_kids sh);
  set Sep.None;;
  mret (MkShape kids (sh_close sh) (sh_first sh) (sh_contracted sh)).

(** An opening delimiter, of kind [k]. *)
Definition shaped_open (always : bool) (k : TokenKind) (sh : Shape) : ST Shape :=
  when (sh_contracted sh) (push Dedent;; set Sep.Hard);;
  tok;;
  next ← peek_no_comment;
  if match next with Some k' => token_kind_eqb k' (closer k) | None => false end then
    set Sep.None;;
    tok;;
    mret (MkShape (sh_kids sh) (sh_close sh) (sh_first sh) false)
  else
    (if always then push Indent;; set Sep.Hard
     else
       push Open;; push Indent;;
       set (match k with LBrace => Sep.Line | _ => Sep.Soft end));;
    mret (MkShape (sh_kids sh) (Some (closer k)) true false).

(** The closing delimiter. *)
Definition shaped_close (always : bool) (k : TokenKind) (sh : Shape) : ST Shape :=
  trivia;;
  prev ← gets em_prev;
  when (negb always && match prev with Some Comma => true | _ => false end) (push (Ghost FORCE));;
  push Dedent;;
  set (if always then Sep.Hard else match k with RBrace => Sep.Line | _ => Sep.Soft end);;
  tok;;
  when (negb always) (push Close);;
  mret (MkShape (sh_kids sh) None (sh_first sh) (sh_contracted sh)).

(** A token of the node, of kind [k]: the locals after it, or [None] to leave
    the loop. *)
Definition shaped_token (n : nat) (always : bool) (k : TokenKind) (sh : Shape) : ST (option Shape) :=
  hug ← (if match k with LParen => negb (is_some (sh_close sh)) && negb always | _ => false end
         then hugs (sh_kids sh) else mret false);
  if hug : bool then sh ← shaped_hug n sh; mret (Some sh)
  else if is_open k && negb (is_some (sh_close sh)) then
    sh ← shaped_open always k sh; mret (Some sh)
  else if match sh_close sh with Some c => token_kind_eqb k c | None => false end then
    sh ← shaped_close always k sh; mret (Some sh)
  else
    match k with
    | Comma => tok;; set (if always then Sep.Hard else Sep.Line);; mret (Some sh)
    | _ => r ← tok; mret (if is_some r then Some sh else None)
    end.

Fixpoint shaped_loop (fuel n e : nat) (always : bool) (sh : Shape) : ST Shape :=
  match fuel with
  | O => out_of_fuel
  | S fuel =>
      ti ← sig_idx;
      if bool_decide (e ≤ ti) then mret sh
      else
        c ← kid_at (sh_kids sh) ti;
        match c with
        | Some c => sh ← shaped_child always sh c; shaped_loop fuel n e always sh
        | None =>
            k ← tok_kind ti;
            r ← shaped_token n always k sh;
            match r with
            | Some sh => shaped_loop fuel n e always sh
            | None => mret sh
            end
        end
  end.

Definition shaped_from (n : nat) (kids : Kids) (always : bool) : ST unit :=
  e ← end_of n;
  sh ← shaped_loop loop_fuel n e always (MkShape kids None true false);
  when (sh_contracted sh) (push Dedent);;
  finish n.

Definition shaped (n : nat) (always : bool) : ST unit :=
  kids ← kids_new n;
  shaped_from n kids always.

(** [usize::MAX] *)
Definition USIZE_MAX : Z := 2 ^ 64 - 1.

Definition wrapped (n : nat) : ST unit :=
  group_open;;
  kids ← kids_new n;
  first ← match peek kids with
          | Some c => f ← first_of c; mret (Z.of_nat f)
          | None => mret USIZE_MAX
          end;
  tokens_until first;;
  push Indent;;
  shaped_from n kids false;;
  push Dedent;;
  push Close.

(** ** Declarations *)

(** The locals of [fn_sig]. *)
Record Sig : Type := MkSig { sg_kids : Kids; sg_indented : bool; sg_tail : bool }.

Definition sig_child (sg : Sig) (c : nat) : ST Sig :=
  kc ← kind_of c;
  '(indented, tail) ←
    match kc with
    | Kind.Raises | Kind.Contract =>
        when (negb (sg_tail sg)) (push Open);;
        when (negb (sg_indented sg)) (push Indent);;
        set (match kc with Kind.Raises => Sep.Line | _ => Sep.Hard end);;
        mret (true, true)
    | _ => mret (sg_indented sg, sg_tail sg)
    end;
  child c;;
  kids ← bump (sg_kids sg);
  mret (MkSig kids indented tail).

Fixpoint sig_loop (fuel e : nat) (sg : Sig) : ST Sig :=
  match fuel with
  | O => out_of_fuel
  | S fuel =>
      ti ← sig_idx;
      if bool_decide (e ≤ ti) then mret sg
      else
        c ← kid_at (sg_kids sg) ti;
        match c with
        | Some c => sg ← sig_child sg c; sig_loop fuel e sg
        | None => k ← tok; if is_some k then sig_loop fuel e sg else mret sg
        end
  end.

Definition fn_sig (n : nat) (brace : bool) : ST unit :=
  e ← end_of n;
  kids ← kids_new n;
  group_open;;
  sg ← sig_loop loop_fuel e (MkSig kids false false);
  when (negb (sg_tail sg)) (push Open);;
  when (sg_indented sg) (push Dedent);;
  when brace (push (Ghost 2);; push Line);;
  push Close;;
  push Close;;
  finish n.

(** [tree.children(n).any(|c| tree.kinds[c] == K::Block)] *)
Fixpoint any_block (fuel : nat) (it : ChildIter) : ST bool :=
  r ← lift (child_next tree it);
  match r, fuel with
  | (None, _), _ => mret false
  | (Some _, _), O => out_of_fuel
  | (Some c, it), S fuel =>
      k ← kind_of c;
      if kind_eqb k Kind.Block then mret true else any_block fuel it
  end.

Fixpoint fn_like_loop (fuel : nat) (has_block : bool) (kids : Kids) : ST unit :=
  match fuel with
  | O => out_of_fuel
  | S fuel =>
      match peek kids with
      | None => mret tt
      | Some c =>
          kc ← kind_of c;
          match kc with
          | Kind.Attribute => child c;; set Sep.Hard
          | Kind.FnSig =>
              f ← first_of c;
              tokens_until (Z.of_nat f);;
              fn_sig c has_block;;
              e ← end_of c;
              modify (with_cursor e);;
              when has_block (set Sep.None)
          | _ => child c
          end;;
          kids ← bump kids;
          fn_like_loop fuel has_block kids
      end
  end.

Definition fn_like (n : nat) : ST unit :=
  kids ← kids_new n;
  it ← lift (children tree n);
  has_block ← any_block (len tree) it;
  fn_like_loop loop_fuel has_block kids;;
  finish n.

(** ** Expressions *)

(** [first], then [indented]. *)
Fixpoint binary_loop (fuel e : nat) (kids : Kids) (first indented : bool) : ST bool :=
  match fuel with
  | O => out_of_fuel
  | S fuel =>
      ti ← sig_idx;
      if bool_decide (e ≤ ti) then mret indented
      else
        c ← kid_at kids ti;
        match c with
        | Some c =>
            child c;;
            kids ← bump kids;
            when (negb indented) (push Indent);;
            binary_loop fuel e kids false true
        | None =>
            when (negb first) (set Sep.Line);;
            k ← tok;
            if is_some k then binary_loop fuel e kids first indented else mret indented
        end
  end.

Definition binary (n : nat) : ST unit :=
  e ← end_of n;
  kids ← kids_new n;
  group_open;;
  indented ← binary_loop loop_fuel e kids true false;
  when indented (push Dedent);;
  push Close;;
  finish n.

Fixpoint tight_loop (fuel e : nat) (kids : Kids) : ST unit :=
  match fuel with
  | O => out_of_fuel
  | S fuel =>
      ti ← sig_idx;
      if bool_decide (e ≤ ti) then mret tt
      else
        c ← kid_at kids ti;
        match c with
        | Some c => child c;; kids ← bump kids; tight_loop fuel e kids
        | None =>
            k ← tok;
            match k with Some Minus => set Sep.None | _ => mret tt end;;
            if is_some k then tight_loop fuel e kids else mret tt
        end
  end.

Definition tight_prefix (n : nat) : ST unit :=
  e ← end_of n;
  kids ← kids_new n;
  tight_loop loop_fuel e kids;;
  finish n.

(** The number of [.name(..)] links on a postfix spine, from node [n]. *)
Fixpoint chain_links (fuel n count : nat) : ST nat :=
  match fuel with
  | O => out_of_fuel
  | S fuel =>
      k ← kind_of n;
      match k with
      | Kind.CallExpr | Kind.FieldExpr | Kind.TryExpr | Kind.Bracket =>
          it ← lift (children tree n);
          r ← lift (child_next tree it);
          match r with
          | (None, _) => mret count
          | (Some c0, _) =>
              count ← (if kind_eqb k Kind.FieldExpr then
                         k0 ← kind_of c0;
                         mret (if kind_eqb k0 Kind.CallExpr then S count else count)
                       else mret count);
              chain_links fuel c0 count
          end
      | _ => mret count
      end
  end.

Definition postfix (n : nat) : ST unit :=
  kids ← kids_new n;
  match peek kids with
  | None => shaped_from n kids false
  | Some c0 =>
      k ← kind_of n;
      k0 ← kind_of c0;
      let is_link := kind_eqb k Kind.FieldExpr && kind_eqb k0 Kind.CallExpr in
      child c0;;
      kids ← bump kids;
      in_chain ← gets em_in_chain;
      when (is_link && in_chain)
        (indent ← gets em_chain_indent;
         when indent (push Indent;; modify (with_chain_indent false));;
         set Sep.Soft);;
      saved ← gets em_in_chain;
      modify (with_in_chain false);;
      shaped_from n kids false;;
      modify (with_in_chain saved)
  end.

Definition chain_entry (n : nat) : ST unit :=
  in_chain ← gets em_in_chain;
  links ← (if in_chain : bool then mret 0 else chain_links (S (len tree)) n 0);
  if negb in_chain && bool_decide (2 ≤ links) then
    group_open;;
    modify (with_in_chain true);;
    modify (with_chain_indent true);;
    postfix n;;
    modify (with_in_chain false);;
    indent ← gets em_chain_indent;
    when (negb indent) (push Dedent);;
    modify (with_chain_indent false);;
    push Close
  else postfix n.

(** ** Other shapes *)

Definition arm (n : nat) : ST unit :=
  kids ← kids_new n;
  kids ← match peek kids with
         | Some pat => child pat;; bump kids
         | None => mret kids
         end;
  i ← sig_idx;
  tokens_until (Z.of_nat i + 1);;
  kids ← match peek kids with
         | Some body =>
             k ← kind_of body;
             if kind_eqb k Kind.Block then
               set Sep.Space;;
               child body;;
               bump kids
             else
               group_open;;
               push Indent;;
               set Sep.Line;;
               child body;;
               kids ← bump kids;
               push Dedent;;
               push Close;;
               mret kids
         | None => mret kids
         end;
  shaped_from n kids false.

(** [open] and [done] of [pipes]. *)
Fixpoint pipes_loop (fuel e : nat) (kids : Kids) (open fin : bool) : ST unit :=
  match fuel with
  | O => out_of_fuel
  | S fuel =>
      ti ← sig_idx;
      if bool_decide (e ≤ ti) then mret tt
      else
        c ← kid_at kids ti;
        match c with
        | Some c => child c;; kids ← bump kids; pipes_loop fuel e kids open fin
        | None =>
            k ← tok_kind ti;
            if match k with Pipe => negb fin | _ => false end then
              if negb open then tok;; set Sep.None;; pipes_loop fuel e kids true fin
              else set Sep.None;; tok;; pipes_loop fuel e kids open true
            else
              r ← tok;
              if is_some r then
                when (match k with Comma => true | _ => false end) (set Sep.Space);;
                pipes_loop fuel e kids open fin
              else mret tt
        end
  end.

Definition pipes (n : nat) : ST unit :=
  e ← end_of n;
  kids ← kids_new n;
  pipes_loop loop_fuel e kids false false;;
  finish n.

Definition handler (n : nat) : ST unit := pipes n.

(** The match of [node]. *)
Definition dispatch (n : nat) : ST unit :=
  k ← kind_of n;
  match k with
  | Kind.File => file n
  | Kind.Block | Kind.MatchExpr | Kind.TraitDecl | Kind.ImplDecl => shaped n true
  | Kind.FnDecl | Kind.TraitItem | Kind.ExternFnDecl => fn_like n
  | Kind.FnSig => fn_sig n false
  | Kind.UseDecl => wrapped n
  | Kind.ScopedType => plain n
  | Kind.Arm => arm n
  | Kind.Closure => pipes n
  | Kind.Handler => handler n
  | Kind.OrExpr | Kind.AndExpr | Kind.CmpExpr | Kind.BitExpr | Kind.AddExpr | Kind.MulExpr
  | Kind.CastExpr => binary n
  | Kind.UnaryExpr | Kind.PatLit => tight_prefix n
  | Kind.FieldExpr => chain_entry n
  | Kind.CallExpr | Kind.Bracket => chain_entry n
  | _ => shaped n false
  end.
End handlers.

Fixpoint node (fuel n : nat) : ST unit :=
  match fuel with
  | O => out_of_fuel
  | S fuel => dispatch (node fuel) n
  end.

Definition new : Emitter := MkEmitter [] 0 None None false false false.

(** [run]; a child has a larger index than its parent, so the tree's length
    bounds the depth. *)
Definition run : ST unit :=
  if negb (is_empty tree) then node (S (len tree)) 0 else mret tt.

(** [em.ops] after [em.run()] *)
Definition emit_tree : res (list Op) :=
  '(_, e) ← run new; Done (em_ops e).
End emit.
