(* ===== verification/FmtEmitSteps.v ===== *)
(** * The steps of the emitter

    What the emitter does to a token: every one that is not white space goes to
    the operations once and in order, with a line break after those that run to
    the end of their line, whatever the walk does in between.  The steps of
    FmtEmit are given by weakest preconditions that speak of the cursor alone. *)

From Stdlib Require Import Strings.Byte.
From S2P Require Import Prelude Token Lexer FmtDoc FmtDocProps FmtTokens SynTree FmtEmit.
Local Open Scope nat_scope.

(** ** Streams of operations *)

Definition line_state (src : list byte) (open : bool) (ops : list Op) : bool :=
  foldl (λ o op, line_after src op o) open ops.

Lemma lines_broken_app src o l l' :
  lines_broken src o (l ++ l') = lines_broken src o l && lines_broken src (line_state src o l) l'.
Proof.
  revert o. induction l as [|op l IH]; intros o; [done|]. simpl. by rewrite IH, andb_assoc.
Qed.

Lemma line_state_app src o l l' :
  line_state src o (l ++ l') = line_state src (line_state src o l) l'.
Proof. apply foldl_app. Qed.

Lemma texts_app src l l' : texts src (l ++ l') = texts src l ++ texts src l'.
Proof. apply omap_app. Qed.

(** An operation that is not a text. *)
Definition layout (op : Op) : bool := match op with Src _ _ => false | _ => true end.

Lemma layout_texts src l : forallb layout l = true → texts src l = [].
Proof.
  induction l as [|op l IH]; [done|]. simpl. intros [Hop Hl]%andb_true_iff.
  unfold texts in *. csimpl. destruct op; try done; simpl; by apply IH.
Qed.

Lemma layout_lines src o l : forallb layout l = true → lines_broken src o l = true.
Proof.
  revert o. induction l as [|op l IH]; [done|]. intros o. simpl. intros [Hop Hl]%andb_true_iff.
  rewrite IH by done. destruct op; try done; simpl; by rewrite andb_false_r.
Qed.

Lemma layout_state src l : forallb layout l = true → line_state src false l = false.
Proof.
  induction l as [|op l IH]; [done|]. simpl. intros [Hop Hl]%andb_true_iff.
  destruct op; try done; by apply IH.
Qed.

(** A line that is open was opened by the last text. *)
Lemma open_last src l : line_state src false l = true →
  ∃ p, last (texts src l) = Some p ∧ line_text p = true.
Proof.
  induction l as [|op l IH] using rev_ind; [done|].
  rewrite line_state_app, texts_app. simpl. unfold line_after, texts in *. csimpl.
  destruct (text_of src op) as [t|] eqn:E; simpl; [intros Ht; exists t; by rewrite last_snoc|].
  rewrite app_nil_r. destruct op; try done; apply IH.
Qed.

Lemma crossed_layout block l : forallb layout (take (crossed block l) l) = true.
Proof.
  induction l as [|op l IH]; [done|].
  destruct op; simpl; try done; try (by rewrite IH). destruct block; simpl; [by rewrite IH|done].
Qed.

Lemma crossed_le block l : crossed block l ≤ length l.
Proof. induction l as [|[] l IH]; simpl; try lia. destruct block; lia. Qed.

(** What a trailing comment crosses. *)
Lemma crossed_drop block l :
  forallb layout (drop (length l - crossed block (rev l)) l) = true.
Proof.
  pose proof (crossed_layout block (rev l)) as H. rewrite firstn_rev in H.
  rewrite forallb_forall in *. intros x Hx. apply H. by rewrite <- in_rev.
Qed.

(** ** Tokens that can be laid out *)

Definition is_line (k : TokenKind) : bool :=
  match k with LineComment | MultilineStr => true | _ => false end.

(** What the emitter and the renderer rely on in a token stream: its ranges are
    in the source, only white space and the last token have nothing to print,
    and a token that runs to the end of its line is followed by the end of it. *)
Record good_tokens (src : list byte) (toks : Tokens) : Prop := {
  gt_range : ∀ i, i < tok_len toks → ∃ a b, range toks i = Done (a, b) ∧
    (0 ≤ a ≤ b ∧ b ≤ Z.of_nat (length src))%Z;
  gt_line : ∀ i k x, Lexer.kinds toks !! i = Some k → text toks i src = Done x →
    line_text x = true → is_line k = true;
  gt_shown : ∀ i k, Lexer.kinds toks !! i = Some k → is_white k = false → S i < tok_len toks →
    text toks i src ≠ Done [];
  gt_newline : ∀ i k, Lexer.kinds toks !! i = Some k → is_line k = true →
    ∃ k', Lexer.kinds toks !! S i = Some k' ∧ (is_trivia k' = false ∨
      k' = Whitespace ∧ ∃ m, newlines_in src toks (S i) = Done (S m)) }.

(** ** Running the monad *)

Lemma bind_gets {A B} (f : Emitter → A) (k : A → ST B) e : (gets f ≫= k) e = k (f e) e.
Proof. done. Qed.
Lemma bind_modify {B} f (k : unit → ST B) e : (modify f ≫= k) e = k tt (f e).
Proof. done. Qed.
Lemma bind_push {B} op (k : unit → ST B) e :
  (push op ≫= k) e = k tt (with_ops (λ ops, ops ++ [op]) e).
Proof. done. Qed.
Lemma bind_lift {A B} (a : A) (k : A → ST B) e : (lift (Done a) ≫= k) e = k a e.
Proof. done. Qed.
Lemma bind_eq {A B} (m : ST A) (k : A → ST B) e a e' : m e = Done (a, e') → (m ≫= k) e = k a e'.
Proof. unfold mbind, st_bind. by intros ->. Qed.

Section steps.
Context (src : list byte) (toks : Tokens) (tree : Tree) (Hgood : good_tokens src toks).
Abbreviation n := (n_toks toks).
Abbreviation kind i := (Lexer.kinds toks !! i).

Lemma kind_lt i : i < n → ∃ k, kind i = Some k.
Proof. intros Hi. by apply lookup_lt_is_Some_2. Qed.
Lemma kind_some_lt i k : kind i = Some k → i < n.
Proof. apply lookup_lt_Some. Qed.

(** What token [i] has to print. *)
Definition piece (i : nat) : option (list byte) :=
  match kind i, text toks i src with
  | Some k, Done x => if is_white k || bool_decide (x = []) then None else Some x
  | _, _ => None
  end.
Definition tok_texts (c : nat) : list (list byte) := omap piece (seq 0 c).

Lemma tok_texts_S c : tok_texts (S c) = tok_texts c ++ option_list (piece c).
Proof. unfold tok_texts. rewrite seq_S, omap_app. simpl. by destruct (piece c). Qed.

(** The operation of a token, and its text. *)
Lemma src_op_spec i k : kind i = Some k → ∃ op x, src_op toks i = Done op ∧ layout op = false ∧
  in_source src op ∧ text toks i src = Done x ∧
  text_of src op = (if bool_decide (x = []) then None else Some x).
Proof using Hgood.
  intros Hk. destruct (gt_range _ _ Hgood i (kind_some_lt _ _ Hk)) as (a & b & Hr & Hab & Hb).
  unfold src_op, text. rewrite Hr. simpl. rewrite bool_decide_eq_true_2 by lia.
  do 2 eexists. split_and!; [done|done| |done|done]. simpl. lia.
Qed.

Lemma piece_op i k op x : kind i = Some k → is_white k = false → text toks i src = Done x →
  text_of src op = (if bool_decide (x = []) then None else Some x) → piece i = text_of src op.
Proof. intros Hk Hw Hx ->. unfold piece. by rewrite Hk, Hx, Hw. Qed.

Lemma piece_white i k : kind i = Some k → is_white k = true → piece i = None.
Proof. intros Hk Hw. unfold piece. rewrite Hk, Hw. by destruct (text toks i src). Qed.

Lemma newlines_total i : i < n → ∃ m, newlines_in src toks i = Done m.
Proof using Hgood.
  intros Hi. destruct (kind_lt i Hi) as [k Hk]. destruct (src_op_spec i k Hk) as (op & x & _ & _ & _ & Hx & _).
  unfold newlines_in. rewrite Hx. by eexists.
Qed.

(** ** The next significant token *)

Fixpoint scan_trivia (ks : list TokenKind) : nat :=
  match ks with k :: ks => if is_trivia k then S (scan_trivia ks) else 0 | [] => 0 end.
Definition sig_of (c : nat) : nat := c + scan_trivia (drop c (Lexer.kinds toks)).

Lemma sig_of_step c k : kind c = Some k → sig_of c = if is_trivia k then sig_of (S c) else c.
Proof.
  intros Hk. unfold sig_of. rewrite (drop_S _ k) by done. simpl. destruct (is_trivia k); lia.
Qed.
Lemma sig_of_end c : n ≤ c → sig_of c = c.
Proof. intros Hc. unfold sig_of. rewrite drop_ge by done. simpl. lia. Qed.

Lemma sig_of_spec c : c ≤ n → c ≤ sig_of c ≤ n ∧ (∀ i k, c ≤ i < sig_of c → kind i = Some k →
  is_trivia k = true) ∧ (∀ k, kind (sig_of c) = Some k → is_trivia k = false).
Proof.
  intros Hc. remember (n - c) as d eqn:Ed. revert c Hc Ed. induction d as [|d IH]; intros c Hc Ed.
  - rewrite sig_of_end by lia. split_and!; [lia|lia|lia|]. intros k Hk%kind_some_lt. lia.
  - destruct (kind_lt c) as [k Hk]; [lia|]. rewrite (sig_of_step _ _ Hk).
    destruct (is_trivia k) eqn:Et.
    + destruct (IH (S c)) as ([H1 H2] & H3 & H4); [lia..|]. split_and!; [lia|lia| |done].
      intros i k' Hi Hk'. destruct (decide (i = c)) as [->|Hne]; [congruence|]. apply (H3 i); [lia|done].
    + split_and!; [lia|lia|lia|]. congruence.
Qed.

(** A significant token at [j] stops the search. *)
Lemma sig_of_stop c j k : c ≤ j → kind j = Some k → is_trivia k = false → sig_of c ≤ j.
Proof.
  intros Hc Hk Ht. pose proof (kind_some_lt _ _ Hk). destruct (sig_of_spec c) as (_ & Htr & _); [lia|].
  destruct (decide (sig_of c ≤ j)); [done|]. rewrite (Htr j k) in Ht; [done|lia|done].
Qed.

Lemma sig_of_between c c' : c ≤ c' ≤ sig_of c → c ≤ n → sig_of c' = sig_of c.
Proof.
  intros Hc Hn. destruct (sig_of_spec c Hn) as (H1 & H2 & H3).
  destruct (sig_of_spec c') as (H4 & H5 & H6); [lia|]. apply Nat.le_antisymm.
  - destruct (decide (sig_of c < n)) as [Hlt|]; [|lia]. destruct (kind_lt _ Hlt) as [k Hk].
    apply (sig_of_stop c' _ k); [lia|done|by apply H3].
  - destruct (decide (sig_of c ≤ sig_of c')); [done|]. destruct (kind_lt (sig_of c')) as [k Hk]; [lia|].
    pose proof (H6 k Hk) as E. rewrite (H2 (sig_of c') k) in E; [done|lia|done].
Qed.

Lemma sig_of_mono c c' : c ≤ c' ≤ n → sig_of c ≤ sig_of c'.
Proof.
  intros Hc. destruct (decide (c' ≤ sig_of c)) as [Hle|]; [by rewrite (sig_of_between c c') by lia|].
  destruct (sig_of_spec c') as ([? _] & _); lia.
Qed.

(** ** The invariant *)

(** The last token before [c] that is not white space, if its line is open, is
    right before [c]. *)
Definition line_before (c : nat) (P : Prop) : Prop := ∀ j k, j < c → kind j = Some k →
  is_line k = true → (∀ i k', j < i < c → kind i = Some k' → is_white k' = true) → P ∨ S j = c.

(** A cursor not in the middle of white space. *)
Definition settled (c : nat) : Prop :=
  line_before c False ∨ n ≤ c ∨ ∃ k, kind c = Some k ∧ is_trivia k = false.

(** The tokens before the cursor, and no other, are in the operations, and no
    line is left open. *)
Record laid_out (e : Emitter) : Prop := {
  lo_cursor : em_cursor e ≤ n;
  lo_texts : texts src (em_ops e) = tok_texts (em_cursor e);
  lo_source : Forall (in_source src) (em_ops e);
  lo_lines : lines_broken src false (em_ops e) = true;
  lo_state : line_state src false (em_ops e) = false }.

Record inv (e : Emitter) : Prop := { iv_laid : laid_out e; iv_settled : settled (em_cursor e) }.

Lemma laid_push e op : laid_out e → layout op = true → in_source src op →
  laid_out (with_ops (λ ops, ops ++ [op]) e).
Proof.
  intros [H1 H2 H3 H4 H5] Hl Hs. split; simpl.
  - done.
  - rewrite texts_app, (layout_texts _ [op]), app_nil_r; [done|]. simpl. by rewrite Hl.
  - apply Forall_app. by split; [|constructor].
  - rewrite lines_broken_app, H4. apply layout_lines. simpl. by rewrite Hl.
  - rewrite line_state_app, H5. apply layout_state. simpl. by rewrite Hl.
Qed.

(** A text and, where its line has to end, a break: token [em_cursor e], put
    between [ops1] and the layout operations [ops2]. *)
Lemma laid_text e ops1 ops2 op brk k x : kind (em_cursor e) = Some k →
  is_white k = false → text toks (em_cursor e) src = Done x →
  text_of src op = (if bool_decide (x = []) then None else Some x) →
  Forall (in_source src) (ops1 ++ [op] ++ brk ++ ops2) → forallb layout (brk ++ ops2) = true →
  texts src ops1 = tok_texts (em_cursor e) → lines_broken src false ops1 = true →
  line_state src false ops1 = false → layout op = false →
  (is_line k = true → ∃ brk', brk = Hard :: brk') →
  em_ops e = ops1 ++ [op] ++ brk ++ ops2 → laid_out (with_cursor (S (em_cursor e)) e).
Proof using Hgood.
  intros Hk Hw Hx Htx Hs Hlay Ht Hbr Hst Hop Hline Hops.
  rewrite forallb_app in Hlay. apply andb_true_iff in Hlay as [Hlb Hl2].
  assert (line_state src false (op :: brk) = false) as Hstate.
  { simpl. destruct (line_after src op false) eqn:E; [|by apply layout_state].
    unfold line_after in E. rewrite Htx in E. case_bool_decide; [by destruct op|].
    apply (gt_line _ _ Hgood _ _ _ Hk Hx) in E. destruct (Hline E) as [brk' ->]. simpl.
    apply layout_state. simpl in Hlb. done. }
  split; cbn [with_cursor em_ops em_cursor]; rewrite ?Hops.
  - apply kind_some_lt in Hk. lia.
  - rewrite !texts_app, (layout_texts _ brk), (layout_texts _ ops2), !app_nil_r by done.
    rewrite Ht, tok_texts_S. f_equal. rewrite (piece_op _ k op x) by done.
    unfold texts. csimpl. by destruct (text_of src op).
  - done.
  - rewrite lines_broken_app, Hbr, Hst. change ([op] ++ brk ++ ops2) with ((op :: brk) ++ ops2).
    rewrite lines_broken_app, (layout_lines _ _ ops2), andb_true_r by done.
    simpl. by rewrite layout_lines by done.
  - rewrite line_state_app, Hst. change ([op] ++ brk ++ ops2) with ((op :: brk) ++ ops2).
    rewrite line_state_app, Hstate. by apply layout_state.
Qed.

(** ** Comments *)

(** A line is open at the end of [ops] only right after its token. *)
Lemma open_line_before ops c k : texts src ops = tok_texts c → c < n → kind c = Some k →
  is_trivia k = true → is_white k = false → line_before c False → line_state src false ops = false.
Proof using Hgood.
  intros Ht Hc Hk Htr Hw Hb. destruct (line_state src false ops) eqn:E; [exfalso|done].
  apply open_last in E as (p & Hp & Hlp). rewrite Ht in Hp.
  assert (∃ j kj, j < c ∧ kind j = Some kj ∧ is_line kj = true ∧
    (∀ i k', j < i < c → kind i = Some k' → is_white k' = true)) as (j & kj & Hj & Hkj & Hlj & Hij).
  { clear Ht Hk Hb. revert Hc Hp. induction c as [|c IH]; intros Hc Hp; [done|].
    rewrite tok_texts_S in Hp. destruct (kind_lt c) as [k' Hk']; [lia|].
    destruct (piece c) as [x|] eqn:Ex.
    - simpl in Hp. rewrite last_snoc in Hp. injection Hp as ->. exists c, k'. split_and!; [lia|done| |lia].
      unfold piece in Ex. rewrite Hk' in Ex. destruct (text toks c src) as [| |x] eqn:Etx; try done.
      destruct (_ || _); [done|]. injection Ex as ->. by apply (gt_line _ _ Hgood c k' p).
    - simpl in Hp. rewrite app_nil_r in Hp. destruct (IH ltac:(lia) Hp) as (j & kj & Hj & Hkj & Hlj & Hij).
      exists j, kj. split_and!; [lia|done|done|]. intros i ki Hi Hki.
      destruct (decide (i = c)) as [->|Hne]; [|apply (Hij i); [lia|done]].
      destruct (is_white ki) eqn:Ew; [done|]. exfalso. apply (gt_shown _ _ Hgood c ki Hki Ew ltac:(done)).
      destruct (src_op_spec c ki Hki) as (op & x & _ & _ & _ & Hx & _). unfold piece in Ex.
      rewrite Hki, Hx, Ew in Ex. simpl in Ex. case_bool_decide; [|done]. by subst. }
  destruct (Hb j kj Hj Hkj Hlj Hij) as [[]|Hjc].
  destruct (gt_newline _ _ Hgood j kj Hkj Hlj) as (k' & Hk' & Hn).
  rewrite Hjc, Hk in Hk'. injection Hk' as <-. destruct Hn as [?|[-> _]]; [congruence|done].
Qed.

Lemma line_before_white c m nl : kind c = Some Whitespace → newlines_in src toks c = Done m →
  line_before c (1 ≤ nl) → line_before (S c) (1 ≤ nl + m).
Proof using Hgood.
  intros Hk Hm Hb j k Hj Hkj Hl Hw. left.
  destruct (decide (j = c)) as [->|Hne]; [rewrite Hk in Hkj; by injection Hkj as <-|].
  destruct (Hb j k) as [?|Hc]; [lia|done|done|by intros; eapply Hw; [|done]; lia|lia|].
  destruct (gt_newline _ _ Hgood j k Hkj Hl) as (k' & Hk' & Hn). rewrite Hc, Hk in Hk'.
  injection Hk' as <-. destruct Hn as [?|(_ & m' & Hm')]; [done|]. rewrite Hc, Hm in Hm'.
  injection Hm' as ->. lia.
Qed.

Lemma line_before_token c k P : kind c = Some k → is_white k = false → line_before (S c) P.
Proof.
  intros Hk Hw j kj Hj Hkj Hl Hi. destruct (decide (j = c)) as [->|]; [by right|].
  rewrite (Hi c k) in Hw; [done|lia|done].
Qed.

Lemma line_before_weaken c (P Q : Prop) : (P → Q) → line_before c P → line_before c Q.
Proof. intros HPQ Hb j k ????. destruct (Hb j k) as [?|?]; auto. Qed.

Lemma comment_spec e op k x nl : laid_out e → kind (em_cursor e) = Some k → is_trivia k = true →
  is_white k = false → text toks (em_cursor e) src = Done x →
  text_of src op = (if bool_decide (x = []) then None else Some x) → layout op = false →
  in_source src op → line_before (em_cursor e) (1 ≤ nl) →
  ∃ e', comment op k nl e = Done (tt, e') ∧ em_cursor e' = em_cursor e ∧
    laid_out (with_cursor (S (em_cursor e')) e').
Proof using Hgood.
  intros [H1 H2 H3 H4 H5] Hk Htr Hw Hx Htx Hop Hs Hb. unfold comment.
  pose proof (kind_some_lt _ _ Hk) as Hlt. rewrite bind_gets.
  destruct (bool_decide (nl = 0) && is_some (em_prev e)) eqn:Etr.
  - apply andb_true_iff in Etr as [->%bool_decide_eq_true _].
    eexists. split; [reflexivity|]. split; [done|].
    set (cut := length (em_ops e) - crossed (match k with BlockComment => true | _ => false end) (rev (em_ops e))).
    assert (forallb layout (drop cut (em_ops e)) = true) as Hlay by apply crossed_drop.
    pose proof (take_drop cut (em_ops e)) as Hcut. rewrite <- Hcut in H2, H3, H4.
    rewrite texts_app, (layout_texts _ (drop _ _)), app_nil_r in H2 by done.
    rewrite lines_broken_app in H4. apply andb_true_iff in H4 as [H4 _].
    apply Forall_app in H3 as [H3 H3'].
    assert (line_state src false (take cut (em_ops e)) = false) as Hst.
    { apply (open_line_before _ (em_cursor e) k); try done. eapply line_before_weaken; [|exact Hb]. lia. }
    eapply (laid_text _ (take cut (em_ops e) ++ [Space]) (drop cut (em_ops e)) op
      [match k with BlockComment => Space | _ => Hard end] k x); cbn [em_cursor with_ops em_ops]; try done.
    + rewrite !Forall_app. repeat split; try done; repeat constructor; try done. by destruct k.
    + simpl. rewrite Hlay. by destruct k.
    + rewrite texts_app. simpl. by rewrite app_nil_r.
    + rewrite lines_broken_app, H4. simpl. by rewrite andb_false_r.
    + by rewrite line_state_app, Hst.
    + intros Hl. eexists. by destruct k.
    + rewrite <- !app_assoc. fold cut. by destruct k.
  - rewrite bind_gets. eexists. split; [reflexivity|]. split; [done|].
    set (B := if bool_decide (2 ≤ nl) && em_blank_ok e then Blank else Hard).
    assert (layout B = true ∧ in_source src B) as [HB1 HB2] by (subst B; by destruct (bool_decide (2 ≤ nl) && em_blank_ok e)).
    eapply (laid_text _ (em_ops e ++ [B]) [] op [Hard] k x); cbn [em_cursor with_ops with_sep em_ops]; try done.
    + rewrite !Forall_app. repeat split; try done; repeat constructor; done.
    + rewrite texts_app, (layout_texts _ [B]), app_nil_r; [done|]. simpl. by rewrite HB1.
    + rewrite lines_broken_app, H4. apply layout_lines. simpl. by rewrite HB1.
    + rewrite line_state_app, H5. apply layout_state. simpl. by rewrite HB1.
    + intros _. by eexists.
    + by rewrite <- !app_assoc.
Qed.

(** ** Trivia *)

Lemma laid_same e e' : em_ops e' = em_ops e → em_cursor e' = em_cursor e → laid_out e → laid_out e'.
Proof. intros Ho Hc [H1 H2 H3 H4 H5]. split; by rewrite ?Ho, ?Hc. Qed.

Lemma laid_white e : kind (em_cursor e) = Some Whitespace → laid_out e →
  laid_out (with_cursor (S (em_cursor e)) e).
Proof.
  intros Hk [H1 H2 H3 H4 H5]. pose proof (kind_some_lt _ _ Hk). split; simpl; try done.
  by rewrite tok_texts_S, (piece_white _ _ Hk), app_nil_r.
Qed.

Lemma trivia_loop_spec d nl e : laid_out e → line_before (em_cursor e) (1 ≤ nl) →
  d = n - em_cursor e → ∃ nl' e', trivia_loop src toks d nl e = Done (nl', e') ∧ laid_out e' ∧
    em_cursor e' = sig_of (em_cursor e).
Proof using Hgood.
  revert nl e. induction d as [|d IH]; intros nl e Hl Hb Hd.
  { exists nl, e. split_and!; [done..|]. by rewrite sig_of_end by lia. }
  destruct (kind_lt (em_cursor e)) as [k Hk]; [lia|].
  destruct (src_op_spec _ _ Hk) as (op & x & Hop & Hlay & Hs & Hx & Htx).
  cbn [trivia_loop]. rewrite bind_gets. unfold tok_kind. rewrite Hk. cbn [get_ix]. rewrite bind_lift.
  rewrite (sig_of_step _ _ Hk).
  assert (is_trivia k = true → is_white k = false → ∃ nl' e',
    (op ← lift (src_op toks (em_cursor e)); comment op k nl;; modify (with_cursor (S (em_cursor e)));;
     modify (with_blank_ok true);; trivia_loop src toks d 0) e = Done (nl', e') ∧ laid_out e' ∧
    em_cursor e' = sig_of (S (em_cursor e))) as Hcomment.
  { intros Ht Hw. rewrite Hop, bind_lift.
    destruct (comment_spec e op k x nl Hl Hk Ht Hw Hx Htx Hlay Hs Hb) as (e1 & He1 & Hc1 & Hl1).
    rewrite (bind_eq _ _ _ _ _ He1), !bind_modify. rewrite Hc1 in Hl1.
    apply (IH 0 (with_blank_ok true (with_cursor (S (em_cursor e)) e1))).
    - revert Hl1. by apply laid_same.
    - by apply (line_before_token _ k).
    - simpl. lia. }
  destruct k; simpl is_trivia; cbv iota; try (exists nl, e; by split_and!).
  - destruct (newlines_total (em_cursor e)) as [m Hm]; [lia|]. rewrite Hm, bind_lift, bind_modify.
    apply IH; [by apply laid_white|by apply line_before_white|simpl; lia].
  - by apply Hcomment.
  - by apply Hcomment.
Qed.

Lemma trivia_spec e : inv e → ∃ e', trivia src toks e = Done (tt, e') ∧ inv e' ∧
  em_cursor e' = sig_of (em_cursor e).
Proof using Hgood.
  intros [Hl Hs]. unfold trivia. rewrite bind_gets.
  assert (∃ nl e', trivia_loop src toks (n - em_cursor e) 0 e = Done (nl, e') ∧ laid_out e' ∧
    em_cursor e' = sig_of (em_cursor e)) as (nl & e1 & He1 & Hl1 & Hc1).
  { destruct Hs as [Hb|[Hend|(k & Hk & Ht)]].
    - apply trivia_loop_spec; [done| |done]. by eapply line_before_weaken; [|exact Hb].
    - exists 0, e. replace (n - em_cursor e) with 0 by lia. split_and!; [done..|].
      by rewrite sig_of_end by lia.
    - exists 0, e. rewrite (sig_of_step _ _ Hk), Ht. pose proof (kind_some_lt _ _ Hk).
      destruct (n - em_cursor e) as [|d] eqn:E; [lia|]. split_and!; [|done..]. cbn [trivia_loop].
      rewrite bind_gets. unfold tok_kind. rewrite Hk. cbn [get_ix]. rewrite bind_lift.
      by destruct k. }
  rewrite (bind_eq _ _ _ _ _ He1), bind_gets.
  assert (settled (em_cursor e1)) as Hs1.
  { rewrite Hc1. destruct (sig_of_spec (em_cursor e)) as (Hle & _ & Hnt); [apply Hl|].
    destruct (decide (sig_of (em_cursor e) < n)) as [Hlt|]; [|right; left; lia].
    destruct (kind_lt _ Hlt) as [k Hk]. right; right. exists k. split; [done|]. by apply Hnt. }
  unfold when. destruct (_ && _).
  - eexists. split; [reflexivity|]. split; [|done]. split; [|done]. by apply laid_push.
  - by exists e1.
Qed.

(** ** Weakest preconditions *)

(** Run from a cursor at [c], [m] returns, keeps the invariant and ends as [Q]
    says of its result and the cursor. *)
Definition wp {A} (m : ST A) (c : nat) (Q : A → nat → Prop) : Prop :=
  ∀ e, inv e → em_cursor e = c → ∃ a e', m e = Done (a, e') ∧ inv e' ∧ Q a (em_cursor e').

Lemma ewp_ret {A} (a : A) c (Q : A → nat → Prop) : Q a c → wp (mret a) c Q.
Proof. intros HQ e He <-. by exists a, e. Qed.

Lemma ewp_bind {A B} (m : ST A) (f : A → ST B) c Q :
  wp m c (λ a c', wp (f a) c' Q) → wp (m ≫= f) c Q.
Proof.
  intros Hm e He Hc. destruct (Hm e He Hc) as (a & e1 & He1 & Hi1 & H1).
  rewrite (bind_eq _ _ _ _ _ He1). by apply H1.
Qed.

Lemma ewp_mono {A} (m : ST A) c (Q R : A → nat → Prop) :
  (∀ a c', R a c' → Q a c') → wp m c R → wp m c Q.
Proof.
  intros HRQ Hm e He Hc. destruct (Hm e He Hc) as (a & e1 & ? & ? & ?). exists a, e1. auto.
Qed.

Lemma wp_lift {A} (r : res A) a c (Q : A → nat → Prop) : r = Done a → Q a c → wp (lift r) c Q.
Proof. intros -> HQ e He <-. by exists a, e. Qed.

Lemma ewp_gets {A} (f : Emitter → A) c (Q : A → nat → Prop) : (∀ a, Q a c) → wp (gets f) c Q.
Proof. intros HQ e He <-. by exists (f e), e. Qed.
Lemma wp_cursor c (Q : nat → nat → Prop) : Q c c → wp (gets em_cursor) c Q.
Proof. intros HQ e He <-. by exists (em_cursor e), e. Qed.

(** A field the invariant does not read. *)
Lemma ewp_modify f c (Q : unit → nat → Prop) : (∀ e, em_ops (f e) = em_ops e) →
  (∀ e, em_cursor (f e) = em_cursor e) → Q tt c → wp (modify f) c Q.
Proof.
  intros Ho Hcf HQ e [Hl Hs] <-. exists tt, (f e). split; [done|]. rewrite Hcf. split; [|done].
  split; [|by rewrite Hcf]. revert Hl. by apply laid_same.
Qed.

Lemma wp_set s c (Q : unit → nat → Prop) : Q tt c → wp (set s) c Q.
Proof. by apply ewp_modify. Qed.

Lemma wp_push op c (Q : unit → nat → Prop) : layout op = true → in_source src op → Q tt c →
  wp (push op) c Q.
Proof.
  intros Hl Hs HQ e [He Hset] <-. eexists tt, _. split; [reflexivity|]. split; [|done].
  split; [by apply laid_push|done].
Qed.

Lemma wp_when (b : bool) m c (Q : unit → nat → Prop) : (b = true → wp m c Q) → Q tt c →
  wp (when b m) c Q.
Proof. intros Hm HQ. destruct b; [by apply Hm|by apply ewp_ret]. Qed.

Lemma wp_take_sep c (Q : option Sep.Sep → nat → Prop) : (∀ s, Q s c) → wp take_sep c Q.
Proof. intros HQ. apply ewp_bind, ewp_gets. intros s. apply ewp_bind, ewp_modify; [done..|]. by apply ewp_ret. Qed.

Lemma wp_emit_sep s c (Q : unit → nat → Prop) : Q tt c → wp (emit_sep s) c Q.
Proof. intros HQ. destruct s; simpl; [by apply ewp_ret|by apply wp_push..]. Qed.

Lemma wp_trivia c (Q : unit → nat → Prop) : Q tt (sig_of c) → wp (trivia src toks) c Q.
Proof using Hgood.
  intros HQ e He <-. destruct (trivia_spec e He) as (e' & He' & Hi & Hc).
  exists tt, e'. split_and!; [done..|]. by rewrite Hc.
Qed.

(** The operations of a separator. *)
Definition sep_ops (s : Sep.Sep) : list Op :=
  match s with
  | Sep.None => [] | Sep.Space => [Space] | Sep.Line => [Line] | Sep.Soft => [Soft] | Sep.Hard => [Hard]
  end.

Lemma sep_ops_layout s : forallb layout (sep_ops s) = true ∧ Forall (in_source src) (sep_ops s).
Proof. by destruct s; split; repeat constructor. Qed.

(** ** Tokens *)

(** What [tok] does once the trivia is behind. *)
Definition put_token (s : list Op) (op : Op) (k : TokenKind) (e : Emitter) : Emitter :=
  with_blank_ok false (with_prev (Some k) (with_cursor (S (em_cursor e)) (with_sep None
    (with_ops (λ ops, ops ++ s ++ [op] ++ match k with MultilineStr => [Hard] | _ => [] end) e)))).

Lemma put_token_inv e k s op x : inv e → kind (em_cursor e) = Some k → is_trivia k = false →
  forallb layout s = true → Forall (in_source src) s → layout op = false → in_source src op →
  text toks (em_cursor e) src = Done x →
  text_of src op = (if bool_decide (x = []) then None else Some x) →
  inv (put_token s op k e).
Proof using Hgood.
  intros [[H1 H2 H3 H4 H5] _] Hk Ht Hs1 Hs2 Hop Hsrc Hx Htx.
  set (brk := match k with MultilineStr => [Hard] | _ => [] end).
  assert (forallb layout brk = true ∧ Forall (in_source src) brk ∧
    (is_line k = true → ∃ brk', brk = Hard :: brk')) as (Hb1 & Hb2 & Hb3).
  { subst brk. split_and!; destruct k; try done; try (by repeat constructor); by eexists. }
  assert (is_white k = false) as Hw by by destruct k.
  split.
  - set (e0 := with_ops (λ ops, ops ++ s ++ [op] ++ brk) e).
    assert (laid_out (with_cursor (S (em_cursor e0)) e0)) as Hl.
    { eapply (laid_text e0 (em_ops e ++ s) [] op brk k x); try done.
      - rewrite !Forall_app. repeat split; try done. by constructor.
      - by rewrite app_nil_r.
      - by rewrite texts_app, (layout_texts _ s), app_nil_r.
      - rewrite lines_broken_app, H4. by apply layout_lines.
      - rewrite line_state_app, H5. by apply layout_state.
      - simpl. by rewrite app_nil_r, <- !app_assoc. }
    revert Hl. by apply laid_same.
  - left. by apply (line_before_token _ k).
Qed.

Lemma with_ops_nil e : with_ops (λ ops, ops ++ []) e = e.
Proof. destruct e. unfold with_ops. simpl. by rewrite app_nil_r. Qed.

Lemma bind_emit_sep s {B} (f : unit → ST B) e :
  (emit_sep s ≫= f) e = f tt (with_ops (λ ops, ops ++ sep_ops s) e).
Proof. destruct s; try done. by rewrite with_ops_nil. Qed.

Lemma bind_take_sep {B} (f : option Sep.Sep → ST B) e :
  (take_sep ≫= f) e = f (em_sep e) (with_sep None e).
Proof. done. Qed.

(** The separator before a token of kind [k]. *)
Definition sep_before (k : TokenKind) (prev : option TokenKind) (s : option Sep.Sep) : list Op :=
  match prev with Some p => sep_ops (default (default_sep p k) s) | None => [] end.

Lemma bind_sep_before k prev s {B} (f : unit → ST B) e :
  (match prev with Some p => emit_sep (default (default_sep p k) s) | None => mret tt end ≫= f) e =
  f tt (with_ops (λ ops, ops ++ sep_before k prev s) e).
Proof. destruct prev; [apply bind_emit_sep|]. simpl. by rewrite with_ops_nil. Qed.

Lemma bind_break k {B} (f : unit → ST B) e :
  (match k with MultilineStr => push Hard | _ => mret tt end ≫= f) e =
  f tt (with_ops (λ ops, ops ++ match k with MultilineStr => [Hard] | _ => [] end) e).
Proof. destruct k; by rewrite ?with_ops_nil. Qed.

Lemma tok_some e k : inv e → kind (sig_of (em_cursor e)) = Some k → ∃ e',
  tok src toks e = Done (Some k, e') ∧ inv e' ∧ em_cursor e' = S (sig_of (em_cursor e)).
Proof using Hgood.
  intros Hi Hk. destruct (trivia_spec e Hi) as (e1 & He1 & Hi1 & Hc1). rewrite <- Hc1 in *.
  destruct (sig_of_spec (em_cursor e)) as (_ & _ & Hnt); [apply Hi|].
  assert (is_trivia k = false) as Ht by (apply Hnt; by rewrite <- Hc1).
  pose proof (kind_some_lt _ _ Hk) as Hlt.
  destruct (src_op_spec _ _ Hk) as (op & x & Hop & Hlay & Hs & Hx & Htx).
  unfold tok. rewrite (bind_eq _ _ _ _ _ He1), bind_gets.
  rewrite bool_decide_eq_false_2 by lia. unfold tok_kind. rewrite Hk. cbn [get_ix].
  rewrite bind_lift, Hop, bind_lift.
  rewrite bind_take_sep, bind_gets, bind_sep_before, bind_push, bind_break, !bind_modify.
  set (s := sep_before _ _ _).
  assert (forallb layout s = true ∧ Forall (in_source src) s) as [Hs1 Hs2].
  { subst s. unfold sep_before. destruct (em_prev _); [apply sep_ops_layout|by split]. }
  exists (put_token s op k e1). split_and!; [|by eapply put_token_inv|done].
  unfold mret, st_ret, put_token. f_equal. f_equal.
  unfold with_blank_ok, with_prev, with_cursor, with_sep, with_ops. simpl. f_equal.
  by rewrite <- !app_assoc.
Qed.

Lemma wp_tok c (Q : option TokenKind → nat → Prop) :
  (∀ k, kind (sig_of c) = Some k → Q (Some k) (S (sig_of c))) →
  (n ≤ sig_of c → Q None (sig_of c)) → wp (tok src toks) c Q.
Proof using Hgood.
  intros HS HN e He <-. destruct (decide (sig_of (em_cursor e) < n)) as [Hlt|Hge].
  - destruct (kind_lt _ Hlt) as [k Hk]. destruct (tok_some e k He Hk) as (e' & He' & Hi' & Hc').
    exists (Some k), e'. split_and!; [done..|]. rewrite Hc'. auto.
  - destruct (trivia_spec e He) as (e1 & He1 & Hi1 & Hc1). exists None, e1.
    unfold tok. rewrite (bind_eq _ _ _ _ _ He1), bind_gets, bool_decide_eq_true_2 by lia.
    split_and!; [done..|]. rewrite Hc1. apply HN. lia.
Qed.

(** ** Looking ahead *)

Lemma skip_trivia_spec fuel i L : L ≤ n → n - i ≤ fuel →
  skip_trivia toks fuel i (Z.of_nat L) = Done (Nat.max i (Nat.min (sig_of i) L)).
Proof.
  intros HL. revert i. induction fuel as [|fuel IH]; intros i Hf.
  - cbn [skip_trivia]. rewrite (proj2 (Z.ltb_ge _ _)) by lia. f_equal. lia.
  - cbn [skip_trivia]. destruct (decide (i < L)) as [Hi|Hi].
    + rewrite (proj2 (Z.ltb_lt _ _)) by lia. destruct (kind_lt i) as [k Hk]; [lia|]. rewrite Hk.
      cbn [get_ix mbind res_bind]. rewrite (sig_of_step _ _ Hk). destruct (is_trivia k).
      * rewrite IH by lia. f_equal. destruct (sig_of_spec (S i)) as ([? ?] & _); lia.
      * f_equal. lia.
    + rewrite (proj2 (Z.ltb_ge _ _)) by lia. f_equal. lia.
Qed.

Lemma sig_from_spec i : i ≤ n → sig_from toks i = Done (sig_of i).
Proof.
  intros Hi. unfold sig_from. rewrite skip_trivia_spec by lia. f_equal.
  destruct (sig_of_spec i Hi) as ([? ?] & _). lia.
Qed.

Lemma wp_inv {A} (m : ST A) c Q : (c ≤ n → wp m c Q) → wp m c Q.
Proof. intros Hm e He Hc. apply Hm; [|done|done]. rewrite <- Hc. apply He. Qed.

Lemma wp_sig_idx c (Q : nat → nat → Prop) : Q (sig_of c) c → wp (sig_idx toks) c Q.
Proof.
  intros HQ. apply wp_inv. intros Hc. apply ewp_bind, wp_cursor.
  by apply (wp_lift _ (sig_of c)); [apply sig_from_spec|].
Qed.

Lemma wp_tok_kind i k c (Q : TokenKind → nat → Prop) : kind i = Some k → Q k c →
  wp (tok_kind toks i) c Q.
Proof. intros Hk HQ. unfold tok_kind. rewrite Hk. by eapply wp_lift. Qed.

(** What follows is looked at past white space only. *)
Lemma peek_from_spec d i : d = n - i → ∃ r, peek_from toks d i = Done r ∧
  ∀ k, r = Some k → kind (sig_of i) = Some k.
Proof.
  revert i. induction d as [|d IH]; intros i Hd; [by exists None|].
  destruct (kind_lt i) as [k Hk]; [lia|]. cbn [peek_from]. rewrite Hk. cbn [get_ix mbind res_bind].
  rewrite (sig_of_step _ _ Hk).
  destruct k; simpl; try (by eexists; split; [done|]); try (eexists; split; [done|]; by intros ? [= <-]).
  apply IH. lia.
Qed.

Lemma wp_peek c (Q : option TokenKind → nat → Prop) :
  (∀ r, (∀ k, r = Some k → kind (sig_of c) = Some k) → Q r c) → wp (peek_no_comment toks) c Q.
Proof.
  intros HQ. apply ewp_bind, wp_cursor. destruct (peek_from_spec (n - c) c eq_refl) as (r & Hr & Hk).
  apply (wp_lift _ r); [done|]. by apply HQ.
Qed.

(** ** Runs of tokens *)

Lemma wp_tokens_loop fuel L c (Q : unit → nat → Prop) : L ≤ n → c ≤ n → n - c < fuel →
  (∀ c', c ≤ c' ≤ Nat.max c L → L ≤ sig_of c' → (L ≤ sig_of c → c' = c) → Q tt c') →
  wp (tokens_until_loop src toks fuel (Z.of_nat L)) c Q.
Proof using Hgood.
  intros HL. revert c. induction fuel as [|fuel IH]; intros c Hc Hf HQ; [lia|].
  destruct (sig_of_spec c Hc) as ([H1 H2] & _). cbn [tokens_until_loop].
  apply ewp_bind, wp_cursor, ewp_bind. eapply wp_lift; [by apply skip_trivia_spec; [|lia]|].
  destruct (decide (L ≤ sig_of c)) as [Hle|Hgt].
  - rewrite (proj2 (Z.leb_le _ _)) by lia. apply ewp_ret, HQ; [lia|done|done].
  - rewrite (proj2 (Z.leb_gt _ _)) by lia. apply ewp_bind, wp_tok; [|lia]. intros k Hk. simpl.
    pose proof (kind_some_lt _ _ Hk).
    apply IH; [lia|lia|]. intros c' Hc' HL' _. apply HQ; [lia|done|lia].
Qed.

Lemma wp_tokens_until L c (Q : unit → nat → Prop) : L ≤ n →
  (∀ c', c ≤ c' ≤ Nat.max c L → L ≤ sig_of c' → (L ≤ sig_of c → c' = c) → Q tt c') →
  wp (tokens_until src toks (Z.of_nat L)) c Q.
Proof using Hgood.
  intros HL HQ. apply wp_inv. intros Hc. apply wp_tokens_loop; [done|done|lia|done].
Qed.

Lemma wp_group_open c (Q : unit → nat → Prop) : Q tt (sig_of c) → wp (group_open src toks) c Q.
Proof using Hgood.
  intros HQ. apply ewp_bind, wp_trivia, ewp_bind, wp_take_sep. intros s.
  apply ewp_bind, ewp_gets. intros prev.
  assert (wp (push Open) (sig_of c) Q) as Hopen by by apply wp_push.
  apply ewp_bind. destruct s as [s|]; [|by apply ewp_ret].
  apply wp_when; [|done]. intros _. by apply wp_emit_sep.
Qed.

(** A jump to where the cursor is. *)
Lemma wp_stay c (Q : unit → nat → Prop) : Q tt c → wp (modify (with_cursor c)) c Q.
Proof.
  intros HQ e He Hc. exists tt, (with_cursor c e). split; [done|]. rewrite <- Hc in *.
  split; [|done]. by destruct e.
Qed.
End steps.
