(* ===== verification/FmtEmitWalk.v ===== *)
(** * The walk of the emitter

    On a tree whose nodes nest and end on their last significant token, the walk
    over a node puts the tokens up to the end of the node, and ends there.  So no
    token is lost, put twice or left to the jumps of the cursor, and no loop runs
    out of its fuel. *)

From Stdlib Require Import Strings.Byte.
From S2P Require Import Prelude Token Lexer FmtDoc FmtDocProps FmtTokens SynTree FmtEmit FmtEmitSteps.
Local Open Scope nat_scope.

Definition is_close (k : TokenKind) : bool :=
  match k with RParen | RBracket | RBrace => true | _ => false end.

Section walk.
Context (src : list byte) (toks : Tokens) (tree : Tree) (Hgood : good_tokens src toks).
Abbreviation n := (n_toks toks).
Abbreviation kind i := (Lexer.kinds toks !! i).
Abbreviation sig := (sig_of toks).
Abbreviation wp := (wp src toks).

(** Node [i] has the tokens from [f] up to [e] and the nodes up to [stop].  It
    ends on a significant token that opens nothing, and starts on one that
    closes nothing. *)
Record good_node (i f e stop : nat) : Prop := {
  gn_first : ∃ z, first_token tree !! i = Some z ∧ Z.to_nat z = f;
  gn_range : ∃ a z, token_range tree i = Done (a, z) ∧ Z.to_nat z = e;
  gn_stop : subtree_end tree i = Done stop;
  gn_kind : is_Some (SynTree.kinds tree !! i);
  gn_nodes : i < stop ≤ len tree;
  gn_tokens : f < e ≤ n;
  gn_last : ∃ k, kind (e - 1) = Some k ∧ is_trivia k = false ∧ is_open k = false;
  gn_head : ∀ k, kind (sig f) = Some k → is_close k = false }.

(** From [k] on there are children, up to node [stop] and token [E], that are
    past the cursor [c]; those of a node are after it. *)
Inductive kids_at (lo E stop : nat) : nat → nat → Prop :=
  | kids_none c : kids_at lo E stop stop c
  | kids_some k c f e next : good_node k f e next → lo < k → next ≤ stop → c ≤ sig f → e ≤ E →
      kids_at lo E stop next (sig e) → kids_at lo E stop k c.

(** Node [i] and its children. *)
Definition whole (i f e stop : nat) : Prop :=
  good_node i f e stop ∧ kids_at i e stop (i + 1) (sig f).

Lemma kids_weaken lo E stop k c c' : kids_at lo E stop k c → c' ≤ c → kids_at lo E stop k c'.
Proof. intros [|??????????] Hc; [constructor|]. econstructor; try done. lia. Qed.

Lemma kids_lo lo lo' E stop k c : kids_at lo E stop k c → lo' ≤ lo → kids_at lo' E stop k c.
Proof. intros Hk Hlo. induction Hk; [constructor|]. econstructor; try done. lia. Qed.

Lemma kids_below lo E stop k c : kids_at lo E stop k c → k ≤ stop.
Proof. destruct 1 as [|k c f e next Hk]; [done|]. pose proof (gn_nodes _ _ _ _ Hk). lia. Qed.

Lemma sig_last i f e stop : good_node i f e stop → ∀ c, c < e → sig c < e.
Proof.
  intros Hg c Hc. destruct (gn_last _ _ _ _ Hg) as (k & Hk & Ht & _).
  pose proof (sig_of_stop toks c (e - 1) k ltac:(lia) Hk Ht). lia.
Qed.

(** The children left, from a cursor at [c]. *)
Definition left_at (lo E : nat) (kids : Kids) (c : nat) : Prop :=
  kids_at lo E (k_end kids) (k_next kids) c ∧ k_end kids ≤ len tree.

(** [k] is the next of [kids], which ends before [e]; [kids'] are those after it. *)
Record kid (lo E : nat) (kids : Kids) (c k e : nat) (kids' : Kids) : Prop := {
  kd_peek : peek kids = Some k;
  kd_node : ∃ f stop, good_node k f e stop ∧ c ≤ sig f ∧ subtree_end tree (k_next kids) = Done stop ∧
    kids' = MkKids stop (k_end kids);
  kd_lo : lo < k;
  kd_end : c < e ≤ E;
  kd_left : left_at lo E kids' (sig e);
  kd_next : k_next kids < k_next kids' ≤ k_end kids }.

Lemma left_kid lo E kids c k : left_at lo E kids c → peek kids = Some k →
  ∃ e kids', kid lo E kids c k e kids'.
Proof.
  intros [Hk Hlen] Hp. pose proof Hp as Hp'. unfold peek in Hp. case_bool_decide as Hlt; [|done].
  injection Hp as Ek. rewrite Ek in Hk, Hlt.
  destruct Hk as [|k c f e next Hg Hlo Hn Hc He Hrest]; [lia|].
  exists e, (MkKids next (k_end kids)). pose proof (gn_nodes _ _ _ _ Hg). pose proof (gn_tokens _ _ _ _ Hg).
  pose proof (sig_last _ _ _ _ Hg f ltac:(lia)). split; simpl; rewrite ?Ek; try done; try lia.
  exists f, next. split_and!; try done. apply Hg.
Qed.

Lemma left_weaken lo E kids c c' : left_at lo E kids c → c' ≤ c → left_at lo E kids c'.
Proof. intros [Hk Hl] Hc. split; [|done]. by eapply kids_weaken. Qed.

Lemma left_none lo E kids c c' : left_at lo E kids c → peek kids = None → left_at lo E kids c'.
Proof.
  intros [Hk Hl] Hp. unfold peek in Hp. case_bool_decide as Hlt; [done|].
  pose proof (kids_below _ _ _ _ _ Hk). split; [|done]. replace (k_next kids) with (k_end kids) by lia.
  constructor.
Qed.

(** ** The tree's columns *)

Lemma wp_first_of i f e stop c (Q : nat → nat → Prop) : good_node i f e stop → Q f c →
  wp (first_of tree i) c Q.
Proof.
  intros Hg HQ. destruct (gn_first _ _ _ _ Hg) as (z & Hz & <-).
  unfold first_of. rewrite Hz. apply ewp_bind, (wp_lift _ _ _ z); [done|]. by apply ewp_ret.
Qed.

Lemma wp_end_of i f e stop c (Q : nat → nat → Prop) : good_node i f e stop → Q e c →
  wp (end_of tree i) c Q.
Proof.
  intros Hg HQ. destruct (gn_range _ _ _ _ Hg) as (a & z & Hz & <-).
  unfold end_of. apply ewp_bind, (wp_lift _ _ _ (a, z)); [done|]. by apply ewp_ret.
Qed.

Lemma wp_kind_of i f e stop c (Q : Kind.NodeKind → nat → Prop) : good_node i f e stop →
  (∀ k, SynTree.kinds tree !! i = Some k → Q k c) → wp (kind_of tree i) c Q.
Proof.
  intros Hg HQ. destruct (gn_kind _ _ _ _ Hg) as [k Hk]. unfold kind_of. rewrite Hk.
  apply (wp_lift _ _ _ k); [done|]. by apply HQ.
Qed.

Lemma wp_kids_new lo i f e stop c (Q : Kids → nat → Prop) : lo ≤ i → whole i f e stop →
  c ≤ sig f → (∀ kids, left_at lo e kids c → Q kids c) → wp (kids_new tree i) c Q.
Proof.
  intros Hi [Hg Hk] Hc HQ. apply ewp_bind, (wp_lift _ _ _ stop); [apply Hg|]. apply ewp_ret, HQ.
  split; simpl; [|apply Hg]. eapply kids_lo; [|done]. by eapply kids_weaken.
Qed.

(** The next child, or the token at the cursor, which is before it. *)
Lemma wp_kid_at lo E kids c (Q : option nat → nat → Prop) : left_at lo E kids c →
  (∀ k e kids', kid lo E kids c k e kids' → Q (Some k) c) →
  (left_at lo E kids (S (sig c)) → Q None c) → wp (kid_at tree kids (sig c)) c Q.
Proof.
  intros Hl HS HN. unfold kid_at. destruct (peek kids) as [k|] eqn:Ep.
  - destruct (left_kid _ _ _ _ _ Hl Ep) as (e & kids' & Hk). pose proof Hk as [_ (f & stop & Hg & Hc & Hs & Hk') Hlo He Hleft Hn].
    apply ewp_bind. eapply wp_first_of; [done|]. apply ewp_ret. case_bool_decide as Hf.
    + by eapply HS.
    + apply HN. destruct Hl as [Hl Hlen]. split; [|done]. unfold peek in Ep. case_bool_decide; [|done].
      injection Ep as <-. subst kids'. econstructor; try done; [apply Hn| |apply He|apply Hleft].
      pose proof (gn_tokens _ _ _ _ Hg). destruct (sig_of_spec toks f) as ([? _] & _); lia.
  - apply ewp_ret, HN. by eapply left_none.
Qed.

Lemma wp_bump lo E kids c k e kids' c' (Q : Kids → nat → Prop) : kid lo E kids c k e kids' →
  Q kids' c' → wp (bump tree kids) c' Q.
Proof.
  intros [Hp (f & stop & _ & _ & Hs & ->) _ _ _ _] HQ. unfold bump. unfold peek in Hp.
  case_bool_decide; [|done]. apply ewp_bind, (wp_lift _ _ _ stop); [done|]. by apply ewp_ret.
Qed.

(** A token of the node: there is one. *)
Lemma wp_tok_in E c (Q : option TokenKind → nat → Prop) : sig c < E → E ≤ n →
  (∀ k, kind (sig c) = Some k → Q (Some k) (S (sig c))) → wp (tok src toks) c Q.
Proof using Hgood. intros Hc HE HQ. apply wp_tok; [done|done|lia]. Qed.

(** The rest of the tokens of a node. *)
Lemma wp_tokens_to i f e stop c (Q : unit → nat → Prop) : good_node i f e stop → c ≤ e → Q tt e →
  wp (tokens_until src toks (Z.of_nat e)) c Q.
Proof using Hgood.
  intros Hg Hc HQ. pose proof (gn_tokens _ _ _ _ Hg). apply wp_tokens_until; [done|lia|].
  intros c' Hc' Hs _. replace c' with e; [done|]. destruct (decide (c' < e)) as [Hlt|]; [|lia].
  pose proof (sig_last _ _ _ _ Hg c' Hlt). lia.
Qed.

Lemma wp_finish i f e stop c (Q : unit → nat → Prop) : good_node i f e stop → c ≤ e → Q tt e →
  wp (finish src toks tree i) c Q.
Proof using Hgood.
  intros Hg Hc HQ. apply ewp_bind. eapply wp_end_of; [done|]. by eapply wp_tokens_to.
Qed.

(** ** The handlers *)

(** What [m] does on the nodes past [lo]: from a cursor that is not past the
    node's first significant token, to the node's end. *)
Definition walks (lo : nat) (m : nat → ST unit) : Prop := ∀ i f e stop c (Q : unit → nat → Prop),
  lo < i → whole i f e stop → c ≤ sig f → Q tt e → wp (m i) c Q.

(** Every node of the tree is whole. *)
Definition nested : Prop := ∀ i, i < len tree → ∃ f e stop, whole i f e stop.

Section handlers.
Context (node : nat → ST unit) (lo : nat) (Hnode : walks lo node) (Hnest : nested).

Lemma good_whole i f e stop : good_node i f e stop → whole i f e stop.
Proof using Hnest.
  intros Hg. destruct (Hnest i) as (f' & e' & stop' & Hw); [pose proof (gn_nodes _ _ _ _ Hg); lia|].
  destruct (gn_first _ _ _ _ Hg) as (z & Hz & <-). destruct (gn_range _ _ _ _ Hg) as (a & y & Hy & <-).
  pose proof Hw as [Hg' _].
  destruct (gn_first _ _ _ _ Hg') as (z' & Hz' & <-). destruct (gn_range _ _ _ _ Hg') as (a' & y' & Hy' & <-).
  pose proof (gn_stop _ _ _ _ Hg) as Hs. pose proof (gn_stop _ _ _ _ Hg') as Hs'. congruence.
Qed.

Lemma wp_child E kids c k e kids' (Q : unit → nat → Prop) : kid lo E kids c k e kids' → Q tt e →
  wp (child src toks tree node k) c Q.
Proof using Hgood Hnode Hnest.
  intros [_ (f & stop & Hg & Hc & _ & _) Hlo [He _] _ _] HQ. pose proof (gn_tokens _ _ _ _ Hg).
  destruct (sig_of_spec toks f) as ([Hf _] & _); [lia|].
  apply ewp_bind. eapply wp_first_of; [done|]. apply ewp_bind, wp_tokens_until; [done|lia|].
  intros c' Hc' _ _. apply ewp_bind. apply (Hnode k f e stop); [done|by apply good_whole|lia|].
  apply ewp_bind. eapply wp_end_of; [done|]. apply ewp_bind, wp_cursor.
  rewrite bool_decide_eq_false_2 by lia. by apply ewp_ret.
Qed.

(** What bounds the rounds of a loop over [kids] from a cursor at [c]. *)
Definition room (kids : Kids) (c : nat) : nat := (n - c) + (k_end kids - k_next kids).

Lemma room_start E kids c : left_at lo E kids c → room kids c < loop_fuel toks tree.
Proof. intros [_ Hl]. unfold room, loop_fuel. lia. Qed.

Lemma room_kid E kids c k e kids' : kid lo E kids c k e kids' → e ≤ n → room kids' e < room kids c.
Proof.
  intros [Hp (f & stop & Hg & _ & _ & Hk') _ He _ Hn] Hen. unfold room. subst kids'. simpl in *. lia.
Qed.

Lemma room_token kids c : sig c < n → room kids (S (sig c)) < room kids c.
Proof.
  intros Hc. unfold room. destruct (decide (c ≤ n)) as [Hn|]; [|rewrite sig_of_end in Hc by lia; lia].
  destruct (sig_of_spec toks c Hn) as ([? _] & _). lia.
Qed.

(** The rounds of a loop that looks at the next significant token, leaves when
    it is past the node, and takes a child or a token. *)
Lemma wp_round {B} E kids c (done_ : ST B) (child_ : nat → ST B) (token_ : nat → ST B) (Q : B → nat → Prop) :
  E ≤ n → c ≤ E → left_at lo E kids c → wp done_ c Q →
  (∀ k e kids', kid lo E kids c k e kids' → wp (child_ k) c Q) →
  (sig c < E → left_at lo E kids (S (sig c)) → wp (token_ (sig c)) c Q) →
  wp (ti ← sig_idx toks;
      if bool_decide (E ≤ ti) then done_
      else c ← kid_at tree kids ti; match c with Some k => child_ k | None => token_ ti end) c Q.
Proof.
  intros HE Hc Hl Hdone Hchild Htoken. apply ewp_bind, wp_sig_idx. case_bool_decide; [done|].
  apply ewp_bind. eapply wp_kid_at; [done|done|]. intros Hl'. apply Htoken; [lia|done].
Qed.

Lemma left_end E kids c k e kids' : kid lo E kids c k e kids' → left_at lo E kids' e.
Proof.
  intros [_ _ _ [He HE] Hl _]. destruct (decide (e ≤ n)) as [Hn|Hn].
  - eapply left_weaken; [done|]. destruct (sig_of_spec toks e Hn) as ([? _] & _). done.
  - by rewrite sig_of_end in Hl by lia.
Qed.

(** A loop that only puts tokens and walks children: [plain_loop]. *)
Lemma wp_plain_loop fuel E kids c (Q : unit → nat → Prop) : E ≤ n → c ≤ E → left_at lo E kids c →
  room kids c < fuel → (∀ c', c' ≤ E → Q tt c') →
  wp (plain_loop src toks tree node fuel E kids) c Q.
Proof using Hgood Hnode Hnest.
  intros HE. revert kids c. induction fuel as [|fuel IH]; intros kids c Hc Hl Hr HQ; [lia|].
  cbn [plain_loop]. eapply wp_round; [done..| | |].
  - apply ewp_ret. by apply HQ.
  - intros k e kids' Hk. pose proof (kd_end _ _ _ _ _ _ _ Hk).
    apply ewp_bind. eapply wp_child; [done|]. apply ewp_bind. eapply wp_bump; [done|].
    apply IH; [lia|by eapply left_end| |done]. pose proof (room_kid _ _ _ _ _ _ Hk). lia.
  - intros Hs Hl'. apply ewp_bind. eapply wp_tok_in; [done..|]. intros k _. simpl.
    apply IH; [lia|done| |done]. pose proof (room_token kids c). lia.
Qed.

(** What a handler does on a node. *)
Definition handles (h : nat → ST unit) : Prop := ∀ i f e stop c (Q : unit → nat → Prop),
  lo ≤ i → whole i f e stop → c ≤ sig f → Q tt e → wp (h i) c Q.

(** A handler's first steps and its last. *)
Lemma whole_bounds i f e stop c : whole i f e stop → c ≤ sig f → e ≤ n ∧ c ≤ e.
Proof.
  intros [Hg _] Hc. pose proof (gn_tokens _ _ _ _ Hg). pose proof (sig_last _ _ _ _ Hg f). lia.
Qed.

Lemma wp_plain : handles (plain src toks tree node).
Proof using Hgood Hnode Hnest.
  intros i f e stop c Q Hi Hw Hc HQ. pose proof (whole_bounds _ _ _ _ _ Hw Hc) as [He Hce].
  pose proof Hw as [Hg _]. apply ewp_bind. eapply wp_end_of; [done|].
  apply ewp_bind. eapply wp_kids_new; [done..|]. intros kids Hl.
  apply ewp_bind. eapply wp_plain_loop; [done..|by eapply room_start|]. intros c' Hc'.
  by eapply wp_finish.
Qed.

(** ** Shaped nodes *)

(** Where a round of [shaped_loop] may end. *)
Definition goes_on (E : nat) (kids : Kids) (c : nat) (kids' : Kids) (c' : nat) : Prop :=
  left_at lo E kids' c' ∧ c' ≤ E ∧ room kids' c' < room kids c.

Lemma goes_kid E kids c k e kids' : E ≤ n → kid lo E kids c k e kids' → goes_on E kids c kids' e.
Proof.
  intros HE Hk. pose proof (kd_end _ _ _ _ _ _ _ Hk) as [? ?].
  split_and!; [by eapply left_end|done|]. eapply room_kid; [done|lia].
Qed.

Lemma goes_token E kids c c' : E ≤ n → sig c < c' ≤ E → left_at lo E kids c' →
  goes_on E kids c kids c'.
Proof.
  intros HE Hc Hl. split_and!; [done|lia|]. pose proof (room_token kids c ltac:(lia)).
  unfold room in *. lia.
Qed.

Lemma wp_shaped_child E always sh c k e kids' (Q : Shape → nat → Prop) :
  kid lo E (sh_kids sh) c k e kids' → (∀ sh', sh_kids sh' = kids' → Q sh' e) →
  wp (shaped_child src toks tree node always sh k) c Q.
Proof using Hgood Hnode Hnest.
  intros Hk HQ. pose proof Hk as [_ (f & stop & Hg & _) _ _ _ _].
  assert (∀ first contracted, wp (child src toks tree node k;; kids ← bump tree (sh_kids sh);
    mret (MkShape kids (sh_close sh) first contracted)) c Q) as Hnext.
  { intros first contracted. apply ewp_bind. eapply wp_child; [done|].
    apply ewp_bind. eapply wp_bump; [done|]. apply ewp_ret. by apply HQ. }
  unfold shaped_child. apply ewp_bind. destruct (is_some (sh_close sh)).
  - apply ewp_bind, wp_when; [|by apply ewp_ret]. intros _. apply ewp_bind, wp_when.
    + intros _. apply wp_set. apply ewp_modify; [done..|]. by apply ewp_ret.
    + apply ewp_modify; [done..|]. by apply ewp_ret.
  - apply ewp_bind. eapply wp_kind_of; [done|]. intros kc _. destruct (kind_eqb kc Kind.Contract).
    + apply ewp_bind, wp_when; [intros _; apply wp_push; [done..|]|];
        apply ewp_bind, wp_set; by apply ewp_ret.
    + by apply ewp_ret.
Qed.

(** A closing token is not in a child. *)
Lemma left_close E kids c k : left_at lo E kids c → c ≤ n → kind (sig c) = Some k → is_close k = true →
  left_at lo E kids (S (sig c)).
Proof.
  intros Hl Hc Hk Hcl. destruct (peek kids) as [j|] eqn:Ep; [|by eapply left_none].
  destruct (left_kid _ _ _ _ _ Hl Ep) as (e & kids' & [_ (f & stop & Hg & Hcf & _) _ _ _ _]).
  pose proof (gn_tokens _ _ _ _ Hg) as Hfe. destruct Hl as [Hkids Hlen].
  unfold peek in Ep. case_bool_decide; [|done]. injection Ep as Ep.
  split; [|done]. revert Hkids Hg Hcf. rewrite Ep. intros Hkids Hg Hcf.
  destruct (sig_of_spec toks f) as ([Hf _] & _ & _); [lia|].
  destruct (decide (sig c < f)) as [Hlt|Hge].
  - destruct Hkids as [|j c f' e' next Hg']; [lia|].
    assert (f' = f) as ->.
    { destruct (gn_first _ _ _ _ Hg) as (z & Hz & <-). destruct (gn_first _ _ _ _ Hg') as (z' & Hz' & <-). congruence. }
    apply (kids_some _ _ _ _ _ f e' next); try done. lia.
  - exfalso. assert (sig c = sig f) as E'.
    { apply Nat.le_antisymm.
      - rewrite <- (sig_of_between toks f (sig f)) by lia. apply sig_of_mono.
        destruct (sig_of_spec toks f) as ([_ ?] & _ & _); lia.
      - rewrite <- (sig_of_between toks c (sig c)); [|destruct (sig_of_spec toks c Hc) as ([? _] & _); lia|done].
        apply sig_of_mono. destruct (sig_of_spec toks c Hc) as ([_ ?] & _). lia. }
    rewrite E' in Hk. pose proof (gn_head _ _ _ _ Hg k Hk). congruence.
Qed.

Lemma wp_shaped_open i f E stop always k sh c (Q : Shape → nat → Prop) : good_node i f E stop →
  c ≤ E → sig c < E → left_at lo E (sh_kids sh) (S (sig c)) → kind (sig c) = Some k →
  is_open k = true → (∀ sh' c', goes_on E (sh_kids sh) c (sh_kids sh') c' → Q sh' c') →
  wp (shaped_open src toks always k sh) c Q.
Proof using Hgood.
  intros Hg Hc Hs Hl Hk Ho HQ. pose proof (gn_tokens _ _ _ _ Hg) as HE.
  destruct (gn_last _ _ _ _ Hg) as (kl & Hkl & _ & Hno).
  assert (S (sig c) < E) as Hlt.
  { destruct (decide (S (sig c) = E)) as [E'|]; [|lia]. replace (E - 1) with (sig c) in Hkl by lia.
    congruence. }
  unfold shaped_open. apply ewp_bind, wp_when.
  1: intros _; apply ewp_bind, wp_push; [done..|]; apply wp_set.
  all: apply ewp_bind; eapply wp_tok_in; [done|lia|]; intros k1 _;
    apply ewp_bind, wp_peek; intros next Hnext;
    destruct (match next with Some k' => _ | None => false end) eqn:Ec.
  1, 3: destruct next as [k'|]; [|done]; apply bool_decide_eq_true in Ec as ->;
    specialize (Hnext _ eq_refl); apply ewp_bind, wp_set, ewp_bind;
    pose proof (sig_last _ _ _ _ Hg _ Hlt); eapply wp_tok_in; [done|lia|]; intros k2 _;
    apply ewp_ret, HQ, goes_token; simpl; [lia|destruct (sig_of_spec toks (S (sig c))); lia|];
    (eapply left_close; [done|lia|done|by destruct k]).
  all: assert (∀ sh', sh_kids sh' = sh_kids sh → Q sh' (S (sig c))) as HQ'
    by (intros sh' Ek; apply HQ; rewrite Ek; apply goes_token; [lia|lia|done]);
    apply ewp_bind; destruct always;
    repeat first [apply ewp_bind, wp_push; [done..|] | apply wp_set]; apply ewp_ret; by apply HQ'.
Qed.

Lemma wp_shaped_close E always k sh c (Q : Shape → nat → Prop) : E ≤ n → c ≤ E → sig c < E →
  left_at lo E (sh_kids sh) (S (sig c)) →
  (∀ sh' c', goes_on E (sh_kids sh) c (sh_kids sh') c' → Q sh' c') →
  wp (shaped_close src toks always k sh) c Q.
Proof using Hgood.
  intros HE Hc Hs Hl HQ.
  assert (sig (sig c) = sig c) as Hss.
  { apply sig_of_between; [|lia]. destruct (sig_of_spec toks c) as ([? ?] & _); lia. }
  assert (wp (push Dedent;;
    set (if always then Sep.Hard else match k with RBrace => Sep.Line | _ => Sep.Soft end);;
    tok src toks;; when (negb always) (push Close);;
    mret (MkShape (sh_kids sh) None (sh_first sh) (sh_contracted sh))) (sig c) Q) as Hrest.
  { apply ewp_bind, wp_push; [done..|]. apply ewp_bind, wp_set, ewp_bind.
    eapply wp_tok_in; [by rewrite Hss|done|]. intros k' _. rewrite Hss.
    assert (wp (mret (MkShape (sh_kids sh) None (sh_first sh) (sh_contracted sh))) (S (sig c)) Q) as Hret.
    { apply ewp_ret, HQ. simpl. apply goes_token; [done|lia|done]. }
    apply ewp_bind, wp_when; [|done]. intros _. by apply wp_push. }
  unfold shaped_close. apply ewp_bind, wp_trivia; [done|]. apply ewp_bind, ewp_gets. intros prev.
  apply ewp_bind, wp_when; [|done]. intros _. by apply wp_push.
Qed.

(** The children of a node are nodes. *)
Lemma child_list_spec lo' E stop k c fuel : kids_at lo' E stop k c → stop - k ≤ fuel →
  ∃ cs, child_list fuel tree (MkChildIter k stop) = Done cs ∧
    Forall (λ j, ∃ f e s, good_node j f e s) cs.
Proof.
  intros Hk. revert fuel. induction Hk as [c|k c f e next Hg Hlo Hn Hc He Hk IH]; intros fuel Hf.
  - exists []. split; [|constructor]. destruct fuel; simpl; unfold child_next; simpl;
      by rewrite bool_decide_eq_true_2 by done.
  - pose proof (gn_nodes _ _ _ _ Hg) as Hnodes. destruct fuel as [|fuel]; [lia|].
    destruct (IH fuel) as (cs & Hcs & Hall); [lia|]. exists (k :: cs). split; [|constructor; eauto].
    cbn [child_list]. unfold child_next. cbn [ci_end ci_next].
    rewrite bool_decide_eq_false_2 by lia. rewrite (gn_stop _ _ _ _ Hg). cbn [mbind res_bind].
    by rewrite Hcs.
Qed.

Lemma wp_last_child i f e stop c (Q : option nat → nat → Prop) : whole i f e stop →
  (∀ r, (∀ j, r = Some j → ∃ f e s, good_node j f e s) → Q r c) →
  wp (last_child tree i) c Q.
Proof.
  intros [Hg Hk] HQ. pose proof (gn_nodes _ _ _ _ Hg) as Hnodes.
  destruct (child_list_spec _ _ _ _ _ (len tree) Hk) as (cs & Hcs & Hall); [lia|].
  apply ewp_bind. eapply (wp_lift _ _ _ cs).
  - unfold children. rewrite (gn_stop _ _ _ _ Hg). cbn [mbind res_bind]. exact Hcs.
  - apply ewp_ret, HQ. intros j Hj. rewrite Forall_forall in Hall. apply Hall.
    apply last_Some in Hj as [l ->]. apply elem_of_app. right. by left.
Qed.

Lemma wp_hugs E kids c (Q : bool → nat → Prop) : c ≤ n → sig c < n → left_at lo E kids c → E ≤ n →
  (∀ b : bool, (b = true → is_Some (peek kids)) → Q b c) → wp (hugs toks tree kids) c Q.
Proof using Hnest.
  intros Hcn Hc Hl HE HQ.
  assert (Q false c) as Hfalse by by apply HQ.
  unfold hugs. destruct (peek kids) as [k|] eqn:Ep; [|by apply ewp_ret].
  destruct (left_kid _ _ _ _ _ Hl Ep) as (e & kids' & Hk).
  pose proof Hk as [_ (f & stop & Hg & _) _ He Hleft' _]. pose proof (gn_tokens _ _ _ _ Hg) as Hfe.
  apply ewp_bind. eapply wp_kind_of; [done|]. intros kc _. destruct (negb _); [by apply ewp_ret|].
  apply ewp_bind. eapply wp_last_child; [by apply good_whole|]. intros [body|] Hbody; [|by apply ewp_ret].
  destruct (Hbody body eq_refl) as (f' & e' & s' & Hg'). apply ewp_bind. eapply wp_kind_of; [done|].
  intros kb _. destruct (negb _); [by apply ewp_ret|]. apply ewp_bind, wp_sig_idx.
  apply ewp_bind. eapply wp_lift; [apply sig_from_spec; lia|]. apply ewp_bind. eapply wp_first_of; [done|].
  destruct (negb _); [by apply ewp_ret|]. apply ewp_bind. eapply wp_end_of; [done|].
  apply ewp_bind. eapply wp_lift; [apply sig_from_spec; lia|].
  case_bool_decide as Hj; [by apply ewp_ret|]. destruct (kind_lt toks (sig e)) as [kj Hkj]; [lia|].
  apply ewp_bind. eapply wp_tok_kind; [done|]. destruct kj; try by apply ewp_ret.
  apply ewp_bind. eapply wp_bump; [done|]. destruct (peek kids') as [k'|] eqn:Ep'.
  - destruct (left_kid _ _ _ _ _ Hleft' Ep') as (e'' & kids'' & [_ (f'' & stop'' & Hg'' & _) _ _ _ _]).
    apply ewp_bind. eapply wp_first_of; [done|]. apply ewp_ret, HQ. eauto.
  - apply ewp_ret, HQ. eauto.
Qed.

Lemma wp_shaped_hug i E sh c k (Q : Shape → nat → Prop) : E ≤ n → sig c < E →
  left_at lo E (sh_kids sh) (S (sig c)) → peek (sh_kids sh) = Some k →
  (∀ sh' c', goes_on E (sh_kids sh) c (sh_kids sh') c' → Q sh' c') →
  wp (shaped_hug src toks tree node i sh) c Q.
Proof using Hgood Hnode Hnest.
  intros HE Hs Hl Hp HQ. destruct (left_kid _ _ _ _ _ Hl Hp) as (e & kids' & Hk).
  apply ewp_bind. eapply wp_tok_in; [done..|]. intros k' _. apply ewp_bind, wp_set, ewp_bind.
  rewrite Hp. simpl. eapply wp_child; [done|]. apply ewp_bind. eapply wp_bump; [done|].
  apply ewp_bind, wp_set, ewp_ret, HQ. simpl.
  destruct (goes_kid _ _ _ _ _ _ HE Hk) as (H1 & H2 & H3). split_and!; [done..|].
  pose proof (room_token (sh_kids sh) c ltac:(lia)). lia.
Qed.

Lemma wp_shaped_token i f E stop always k sh c (Q : option Shape → nat → Prop) :
  good_node i f E stop → c ≤ E → sig c < E → left_at lo E (sh_kids sh) c →
  left_at lo E (sh_kids sh) (S (sig c)) → kind (sig c) = Some k →
  (∀ sh' c', goes_on E (sh_kids sh) c (sh_kids sh') c' → Q (Some sh') c') →
  wp (shaped_token src toks tree node i always k sh) c Q.
Proof using Hgood Hnode Hnest.
  intros Hg Hc Hs Hl Hl' Hk HQ. pose proof (gn_tokens _ _ _ _ Hg) as HE.
  assert (∀ c', sig c < c' ≤ E → left_at lo E (sh_kids sh) c' → Q (Some sh) c') as HQ'
    by (intros c' Hc' Hlc; apply HQ; apply goes_token; [lia|done|done]).
  set (rest := if is_open k && negb (is_some (sh_close sh)) then
      sh ← shaped_open src toks always k sh; mret (Some sh)
    else if match sh_close sh with Some c => token_kind_eqb k c | None => false end then
      sh ← shaped_close src toks always k sh; mret (Some sh)
    else match k with
      | Comma => tok src toks;; set (if always then Sep.Hard else Sep.Line);; mret (Some sh)
      | _ => r ← tok src toks; mret (if is_some r then Some sh else None) end).
  assert (wp rest c Q) as Hrest.
  { subst rest. destruct (is_open k && _) eqn:Eo.
    { apply andb_true_iff in Eo as [Eo _]. apply ewp_bind. eapply wp_shaped_open; [done..|].
      intros sh' c' Hgo. apply ewp_ret. by apply HQ. }
    destruct (match sh_close sh with Some c => _ | None => _ end).
    { apply ewp_bind. apply (wp_shaped_close E); [lia|done..|]. intros sh' c' Hgo. apply ewp_ret. by apply HQ. }
    assert (wp (r ← tok src toks; mret (if is_some r then Some sh else None)) c Q) as Htok.
    { apply ewp_bind. eapply wp_tok_in; [done|lia|]. intros k' _. apply ewp_ret, HQ'; [lia|done]. }
    destruct k; try exact Htok. apply ewp_bind. eapply wp_tok_in; [done|lia|]. intros k' _.
    apply ewp_bind, wp_set, ewp_ret, HQ'; [lia|done]. }
  unfold shaped_token. fold rest. apply ewp_bind. destruct (match k with LParen => _ | _ => false end).
  - apply (wp_hugs E); [lia|lia|done|lia|]. intros [] Hp; [|exact Hrest]. destruct (Hp eq_refl) as [k' Hk'].
    apply ewp_bind. apply (wp_shaped_hug i E sh c k'); [lia|done..|]. intros sh' c' Hgo. apply ewp_ret. by apply HQ.
  - by apply ewp_ret.
Qed.

Lemma wp_shaped_loop i f E stop always fuel sh c (Q : Shape → nat → Prop) : good_node i f E stop →
  c ≤ E → left_at lo E (sh_kids sh) c → room (sh_kids sh) c < fuel → (∀ sh' c', c' ≤ E → Q sh' c') →
  wp (shaped_loop src toks tree node fuel i E always sh) c Q.
Proof using Hgood Hnode Hnest.
  intros Hg. pose proof (gn_tokens _ _ _ _ Hg) as HE. revert sh c.
  induction fuel as [|fuel IH]; intros sh c Hc Hl Hr HQ; [lia|].
  cbn [shaped_loop]. eapply wp_round; [lia|done..| | |].
  - apply ewp_ret. by apply HQ.
  - intros k e kids' Hk. apply ewp_bind. eapply wp_shaped_child; [done|]. intros sh' Hsh.
    destruct (goes_kid _ _ _ _ _ _ (proj2 HE) Hk) as (H1 & H2 & H3).
    apply IH; rewrite ?Hsh; (done || lia).
  - intros Hs Hl'. destruct (kind_lt toks (sig c)) as [k Hk]; [lia|].
    apply ewp_bind. eapply wp_tok_kind; [done|]. apply ewp_bind.
    eapply wp_shaped_token; [done..|]. intros sh' c' (H1 & H2 & H3). apply IH; (done || lia).
Qed.

Lemma wp_shaped_from i f e stop kids always c (Q : unit → nat → Prop) : good_node i f e stop →
  c ≤ e → left_at lo e kids c → Q tt e → wp (shaped_from src toks tree node i kids always) c Q.
Proof using Hgood Hnode Hnest.
  intros Hg Hc Hl HQ. apply ewp_bind. eapply wp_end_of; [done|]. apply ewp_bind.
  eapply wp_shaped_loop; [done..|by eapply room_start|]. intros sh' c' Hc'.
  apply ewp_bind, wp_when; [intros _; apply wp_push; [done..|]|]; by eapply wp_finish.
Qed.

Lemma wp_shaped always : handles (λ i, shaped src toks tree node i always).
Proof using Hgood Hnode Hnest.
  intros i f e stop c Q Hi Hw Hc HQ. pose proof (whole_bounds _ _ _ _ _ Hw Hc) as [He Hce].
  pose proof Hw as [Hg _]. apply ewp_bind. eapply wp_kids_new; [done..|]. intros kids Hl.
  by eapply wp_shaped_from.
Qed.

(** ** The other loops *)

Lemma wp_tight_loop fuel E kids c (Q : unit → nat → Prop) : E ≤ n → c ≤ E → left_at lo E kids c →
  room kids c < fuel → (∀ c', c' ≤ E → Q tt c') →
  wp (tight_loop src toks tree node fuel E kids) c Q.
Proof using Hgood Hnode Hnest.
  intros HE. revert kids c. induction fuel as [|fuel IH]; intros kids c Hc Hl Hr HQ; [lia|].
  cbn [tight_loop]. eapply wp_round; [done..| | |].
  - apply ewp_ret. by apply HQ.
  - intros k e kids' Hk. destruct (goes_kid _ _ _ _ _ _ HE Hk) as (H1 & H2 & H3).
    apply ewp_bind. eapply wp_child; [done|]. apply ewp_bind. eapply wp_bump; [done|]. apply IH; (done || lia).
  - intros Hs Hl'. apply ewp_bind. eapply wp_tok_in; [done..|]. intros k _. simpl.
    pose proof (room_token kids c ltac:(lia)).
    apply ewp_bind. destruct k; try (apply ewp_ret; apply IH; (done || lia)). apply wp_set. apply IH; (done || lia).
Qed.

Lemma wp_tight_prefix : handles (tight_prefix src toks tree node).
Proof using Hgood Hnode Hnest.
  intros i f e stop c Q Hi Hw Hc HQ. pose proof (whole_bounds _ _ _ _ _ Hw Hc) as [He Hce].
  pose proof Hw as [Hg _]. apply ewp_bind. eapply wp_end_of; [done|].
  apply ewp_bind. eapply wp_kids_new; [done..|]. intros kids Hl.
  apply ewp_bind. eapply wp_tight_loop; [done..|by eapply room_start|]. intros c' Hc'. by eapply wp_finish.
Qed.

Lemma wp_pipes_loop fuel E kids c op fin (Q : unit → nat → Prop) : E ≤ n → c ≤ E →
  left_at lo E kids c → room kids c < fuel → (∀ c', c' ≤ E → Q tt c') →
  wp (pipes_loop src toks tree node fuel E kids op fin) c Q.
Proof using Hgood Hnode Hnest.
  intros HE. revert kids c op fin.
  induction fuel as [|fuel IH]; intros kids c op fin Hc Hl Hr HQ; [lia|].
  cbn [pipes_loop]. eapply wp_round; [done..| | |].
  - apply ewp_ret. by apply HQ.
  - intros k e kids' Hk. destruct (goes_kid _ _ _ _ _ _ HE Hk) as (H1 & H2 & H3).
    apply ewp_bind. eapply wp_child; [done|]. apply ewp_bind. eapply wp_bump; [done|]. apply IH; (done || lia).
  - intros Hs Hl'. pose proof (room_token kids c ltac:(lia)).
    destruct (kind_lt toks (sig c)) as [k Hk]; [lia|]. apply ewp_bind. eapply wp_tok_kind; [done|].
    destruct (match k with Pipe => _ | _ => false end); [destruct (negb op)|].
    + apply ewp_bind. eapply wp_tok_in; [done..|]. intros k' _. apply ewp_bind, wp_set. apply IH; (done || lia).
    + apply ewp_bind, wp_set, ewp_bind. eapply wp_tok_in; [done..|]. intros k' _. apply IH; (done || lia).
    + apply ewp_bind. eapply wp_tok_in; [done..|]. intros k' _. simpl.
      apply ewp_bind, wp_when; [intros _; apply wp_set|]; apply IH; (done || lia).
Qed.

Lemma wp_pipes : handles (pipes src toks tree node).
Proof using Hgood Hnode Hnest.
  intros i f e stop c Q Hi Hw Hc HQ. pose proof (whole_bounds _ _ _ _ _ Hw Hc) as [He Hce].
  pose proof Hw as [Hg _]. apply ewp_bind. eapply wp_end_of; [done|].
  apply ewp_bind. eapply wp_kids_new; [done..|]. intros kids Hl.
  apply ewp_bind. eapply wp_pipes_loop; [done..|by eapply room_start|]. intros c' Hc'. by eapply wp_finish.
Qed.

Lemma wp_binary_loop fuel E kids c first ind (Q : bool → nat → Prop) : E ≤ n → c ≤ E →
  left_at lo E kids c → room kids c < fuel → (∀ b c', c' ≤ E → Q b c') →
  wp (binary_loop src toks tree node fuel E kids first ind) c Q.
Proof using Hgood Hnode Hnest.
  intros HE. revert kids c first ind.
  induction fuel as [|fuel IH]; intros kids c first ind Hc Hl Hr HQ; [lia|].
  cbn [binary_loop]. eapply wp_round; [done..| | |].
  - apply ewp_ret. by apply HQ.
  - intros k e kids' Hk. destruct (goes_kid _ _ _ _ _ _ HE Hk) as (H1 & H2 & H3).
    apply ewp_bind. eapply wp_child; [done|]. apply ewp_bind. eapply wp_bump; [done|].
    apply ewp_bind, wp_when; [intros _; apply wp_push; [done..|]|]; apply IH; (done || lia).
  - intros Hs Hl'. pose proof (room_token kids c ltac:(lia)).
    assert (wp (k ← tok src toks; if is_some k then binary_loop src toks tree node fuel E kids first ind
      else mret ind) c Q) as Htok.
    { apply ewp_bind. eapply wp_tok_in; [done..|]. intros k _. simpl. apply IH; (done || lia). }
    apply ewp_bind, wp_when; [intros _; by apply wp_set|done].
Qed.

(** A group is opened past the trivia: the children are still ahead. *)
Lemma left_sig E kids c : left_at lo E kids c → c ≤ n → left_at lo E kids (sig c).
Proof.
  intros [Hk Hl] Hc. split; [|done]. destruct Hk as [c|k c f e next Hg Hlo Hn Hcf He Hk]; [constructor|].
  apply (kids_some _ _ _ _ _ f e next); try done. pose proof (gn_tokens _ _ _ _ Hg).
  destruct (sig_of_spec toks f) as ([Hf Hfn] & _ & _); [lia|].
  rewrite <- (sig_of_between toks f (sig f)) by lia. by apply sig_of_mono.
Qed.

Lemma wp_binary : handles (binary src toks tree node).
Proof using Hgood Hnode Hnest.
  intros i f e stop c Q Hi Hw Hc HQ. pose proof (whole_bounds _ _ _ _ _ Hw Hc) as [He Hce].
  pose proof Hw as [Hg _]. pose proof (gn_tokens _ _ _ _ Hg). apply ewp_bind. eapply wp_end_of; [done|].
  apply ewp_bind. eapply wp_kids_new; [done..|]. intros kids Hl.
  assert (sig c ≤ e) as Hse.
  { assert (c < e) as Hlt by (pose proof (sig_last _ _ _ _ Hg f); lia).
    pose proof (sig_last _ _ _ _ Hg c Hlt). lia. }
  apply ewp_bind, wp_group_open; [done|]. apply ewp_bind.
  eapply wp_binary_loop; [done|done|apply left_sig; [done|lia]|by eapply room_start, left_sig; [|lia]|].
  intros b c' Hc'. apply ewp_bind.
  assert (wp (push Close;; finish src toks tree i) c' Q) as Hend
    by (apply ewp_bind, wp_push; [done..|]; by eapply wp_finish).
  apply wp_when; [intros _; by apply wp_push|done].
Qed.

Lemma wp_sig_child E sg c k e kids' (Q : Sig → nat → Prop) : kid lo E (sg_kids sg) c k e kids' →
  (∀ sg', sg_kids sg' = kids' → Q sg' e) → wp (sig_child src toks tree node sg k) c Q.
Proof using Hgood Hnode Hnest.
  intros Hk HQ. pose proof Hk as [_ (f & stop & Hg & _) _ _ _ _].
  apply ewp_bind. eapply wp_kind_of; [done|]. intros kc _. apply ewp_bind.
  assert (∀ indented tail, wp (child src toks tree node k;; kids ← bump tree (sg_kids sg);
    mret (MkSig kids indented tail)) c Q) as Hnext.
  { intros indented tail. apply ewp_bind. eapply wp_child; [done|].
    apply ewp_bind. eapply wp_bump; [done|]. apply ewp_ret. by apply HQ. }
  assert (∀ s, wp (when (negb (sg_tail sg)) (push Open);; when (negb (sg_indented sg)) (push Indent);;
    set s;; mret (true, true)) c (λ a c', wp (let '(indented, tail) := a in
      child src toks tree node k;; kids ← bump tree (sg_kids sg); mret (MkSig kids indented tail)) c' Q)) as Htail.
  { intros s. apply ewp_bind, wp_when; [intros _; apply wp_push; [done..|]|];
      (apply ewp_bind, wp_when; [intros _; apply wp_push; [done..|]|]);
      apply ewp_bind, wp_set, ewp_ret, Hnext. }
  destruct kc; first [apply Htail | apply ewp_ret, Hnext].
Qed.

Lemma wp_sig_loop fuel E sg c (Q : Sig → nat → Prop) : E ≤ n → c ≤ E → left_at lo E (sg_kids sg) c →
  room (sg_kids sg) c < fuel → (∀ sg' c', c' ≤ E → Q sg' c') →
  wp (sig_loop src toks tree node fuel E sg) c Q.
Proof using Hgood Hnode Hnest.
  intros HE. revert sg c. induction fuel as [|fuel IH]; intros sg c Hc Hl Hr HQ; [lia|].
  cbn [sig_loop]. eapply wp_round; [done..| | |].
  - apply ewp_ret. by apply HQ.
  - intros k e kids' Hk. destruct (goes_kid _ _ _ _ _ _ HE Hk) as (H1 & H2 & H3).
    apply ewp_bind. eapply wp_sig_child; [done|]. intros sg' Hsg. apply IH; rewrite ?Hsg; (done || lia).
  - intros Hs Hl'. apply ewp_bind. eapply wp_tok_in; [done..|]. intros k _. simpl.
    pose proof (room_token (sg_kids sg) c ltac:(lia)). apply IH; (done || lia).
Qed.

(** A cursor before a node's first significant token is before its end, also
    past the trivia. *)
Lemma whole_sig i f e stop c : whole i f e stop → c ≤ sig f → c ≤ n ∧ sig c ≤ sig f ∧ sig c ≤ e.
Proof.
  intros [Hg _] Hc. pose proof (gn_tokens _ _ _ _ Hg). pose proof (sig_last _ _ _ _ Hg f ltac:(lia)).
  destruct (sig_of_spec toks f) as ([Hf Hfn] & _ & _); [lia|].
  assert (sig c ≤ sig f) by (rewrite <- (sig_of_between toks f (sig f)) by lia; apply sig_of_mono; lia).
  lia.
Qed.

Lemma wp_fn_sig brace : handles (λ i, fn_sig src toks tree node i brace).
Proof using Hgood Hnode Hnest.
  intros i f e stop c Q Hi Hw Hc HQ. pose proof (whole_sig _ _ _ _ _ Hw Hc) as (Hcn & _ & Hse).
  pose proof Hw as [Hg _]. pose proof (gn_tokens _ _ _ _ Hg). apply ewp_bind. eapply wp_end_of; [done|].
  apply ewp_bind. eapply wp_kids_new; [done..|]. intros kids Hl. pose proof (left_sig _ _ _ Hl Hcn) as Hl'.
  apply ewp_bind, wp_group_open; [done|]. apply ewp_bind.
  eapply wp_sig_loop; [lia|done|exact Hl'|by eapply room_start|]. intros sg c' Hc'.
  assert (wp (push Close;; push Close;; finish src toks tree i) c' Q) as Hend.
  { apply ewp_bind, wp_push; [done..|]. apply ewp_bind, wp_push; [done..|]. by eapply wp_finish. }
  repeat (apply ewp_bind, wp_when; [intros _; repeat (apply ewp_bind, wp_push; [done..|]); apply wp_push; [done..|]|]);
    done.
Qed.

Lemma wp_any_block lo' E stop k c0 fuel c (Q : bool → nat → Prop) : kids_at lo' E stop k c0 →
  stop - k ≤ fuel → (∀ b, Q b c) → wp (any_block tree fuel (MkChildIter k stop)) c Q.
Proof.
  intros Hk Hf HQ. revert fuel Hf. induction Hk as [c1|k c1 f e next Hg Hlo Hn Hc He Hk IH]; intros fuel Hf.
  - destruct fuel; cbn [any_block]; apply ewp_bind; (eapply wp_lift; [unfold child_next; cbn [ci_end ci_next];
      by rewrite bool_decide_eq_true_2 by done|]); by apply ewp_ret.
  - pose proof (gn_nodes _ _ _ _ Hg). destruct fuel as [|fuel]; [lia|]. cbn [any_block]. apply ewp_bind.
    eapply (wp_lift _ _ _ (Some k, MkChildIter next stop)).
    { unfold child_next. cbn [ci_end ci_next]. rewrite bool_decide_eq_false_2 by lia.
      by rewrite (gn_stop _ _ _ _ Hg). }
    apply ewp_bind. eapply wp_kind_of; [done|]. intros kc _. destruct (kind_eqb _ _); [by apply ewp_ret|].
    apply IH. lia.
Qed.

Lemma wp_fn_like_loop fuel E kids c b (Q : unit → nat → Prop) : E ≤ n → c ≤ E → left_at lo E kids c →
  room kids c < fuel → (∀ c', c' ≤ E → Q tt c') →
  wp (fn_like_loop src toks tree node fuel b kids) c Q.
Proof using Hgood Hnode Hnest.
  intros HE. revert kids c. induction fuel as [|fuel IH]; intros kids c Hc Hl Hr HQ; [lia|].
  cbn [fn_like_loop]. destruct (peek kids) as [k|] eqn:Ep; [|apply ewp_ret; by apply HQ].
  destruct (left_kid _ _ _ _ _ Hl Ep) as (e & kids' & Hk).
  destruct (goes_kid _ _ _ _ _ _ HE Hk) as (H1 & H2 & H3).
  pose proof Hk as [_ (f & stop & Hg & Hcf & _) Hlo _ _ _]. pose proof (gn_tokens _ _ _ _ Hg).
  assert (wp (kids ← bump tree kids; fn_like_loop src toks tree node fuel b kids) e Q) as Hnext.
  { apply ewp_bind. eapply wp_bump; [done|]. apply IH; (done || lia). }
  apply ewp_bind. eapply wp_kind_of; [done|]. intros kc _. apply ewp_bind.
  assert (wp (child src toks tree node k) c (λ a c', wp (kids ← bump tree kids;
    fn_like_loop src toks tree node fuel b kids) c' Q)) as Hchild by by eapply wp_child.
  destruct kc; try exact Hchild.
  - apply ewp_bind. eapply wp_child; [done|]. by apply wp_set.
  - apply ewp_bind. eapply wp_first_of; [done|]. apply ewp_bind, wp_tokens_until; [done|lia|].
    intros c' Hc' _ _. destruct (sig_of_spec toks f) as ([Hf _] & _); [lia|].
    apply ewp_bind. eapply (wp_fn_sig b k f e stop); [lia|by apply good_whole|lia|].
    apply ewp_bind. eapply wp_end_of; [done|]. apply ewp_bind, wp_stay.
    apply wp_when; [intros _; by apply wp_set|done].
Qed.

Lemma wp_fn_like : handles (fn_like src toks tree node).
Proof using Hgood Hnode Hnest.
  intros i f e stop c Q Hi Hw Hc HQ. pose proof (whole_bounds _ _ _ _ _ Hw Hc) as [He Hce].
  pose proof Hw as [Hg Hk]. pose proof (gn_nodes _ _ _ _ Hg). apply ewp_bind.
  eapply wp_kids_new; [done..|]. intros kids Hl.
  apply ewp_bind. eapply (wp_lift _ _ _ (MkChildIter (i + 1) stop)).
  { unfold children. by rewrite (gn_stop _ _ _ _ Hg). }
  apply ewp_bind. eapply wp_any_block; [done|lia|]. intros b. apply ewp_bind.
  eapply wp_fn_like_loop; [done..|by eapply room_start|]. intros c' Hc'. by eapply wp_finish.
Qed.

(** A spine goes down the first children, whose indices grow. *)
Lemma wp_chain_links fuel i f e stop count c (Q : nat → nat → Prop) : good_node i f e stop →
  len tree - i < fuel → (∀ m, Q m c) → wp (chain_links tree fuel i count) c Q.
Proof using Hnest.
  intros Hg Hf HQ. revert i f e stop count Hg Hf.
  induction fuel as [|fuel IH]; intros i f e stop count Hg Hf; [lia|].
  pose proof (gn_nodes _ _ _ _ Hg). cbn [chain_links]. apply ewp_bind. eapply wp_kind_of; [done|].
  intros k _. assert (∀ k', wp (it ← lift (children tree i); r ← lift (child_next tree it);
    match r with
    | (None, _) => mret count
    | (Some c0, _) =>
        count ← (if kind_eqb k' Kind.FieldExpr then k0 ← kind_of tree c0;
                   mret (if kind_eqb k0 Kind.CallExpr then S count else count) else mret count);
        chain_links tree fuel c0 count end) c Q) as Hgo.
  { intros k'. apply ewp_bind. eapply (wp_lift _ _ _ (MkChildIter (i + 1) stop)).
    { unfold children. by rewrite (gn_stop _ _ _ _ Hg). }
    destruct (good_whole _ _ _ _ Hg) as [_ Hk]. inversion Hk as [c1 E1|c0 c1 f0 e0 next Hg0 Hlo Hn Hcf He Hk0]; subst.
    - apply ewp_bind. eapply (wp_lift _ _ _ (None, _)); [|by apply ewp_ret].
      unfold child_next. cbn [ci_end ci_next]. by rewrite bool_decide_eq_true_2 by done.
    - pose proof (gn_nodes _ _ _ _ Hg0). apply ewp_bind.
      eapply (wp_lift _ _ _ (Some (i + 1), MkChildIter next stop)).
      { unfold child_next. cbn [ci_end ci_next]. rewrite bool_decide_eq_false_2 by lia.
        by rewrite (gn_stop _ _ _ _ Hg0). }
      apply ewp_bind. assert (∀ count, wp (chain_links tree fuel (i + 1) count) c Q) as Hnext
        by (intros; eapply IH; [done|lia]).
      destruct (kind_eqb k' _); [|by apply ewp_ret]. apply ewp_bind. eapply wp_kind_of; [done|].
      intros k0 _. by apply ewp_ret. }
  destruct k; try (by apply ewp_ret); apply Hgo.
Qed.

Lemma wp_postfix i f e stop c (Q : unit → nat → Prop) : lo ≤ i → whole i f e stop → c ≤ sig f →
  Q tt e → wp (postfix src toks tree node i) c Q.
Proof using Hgood Hnode Hnest.
  intros Hi Hw Hc HQ. pose proof (whole_bounds _ _ _ _ _ Hw Hc) as [He Hce]. pose proof Hw as [Hg _].
  apply ewp_bind. eapply wp_kids_new; [done..|]. intros kids Hl.
  destruct (peek kids) as [c0|] eqn:Ep; [|by eapply wp_shaped_from].
  destruct (left_kid _ _ _ _ _ Hl Ep) as (e0 & kids' & Hk).
  pose proof Hk as [_ (f0 & stop0 & Hg0 & _) _ [_ He0] _ _]. pose proof (left_end _ _ _ _ _ _ Hk) as Hl'.
  apply ewp_bind. eapply wp_kind_of; [done|]. intros k _.
  apply ewp_bind. eapply wp_kind_of; [done|]. intros k0 _. cbv zeta.
  apply ewp_bind. eapply wp_child; [done|]. apply ewp_bind. eapply wp_bump; [done|].
  apply ewp_bind, ewp_gets. intros in_chain. apply ewp_bind.
  assert (wp (saved ← gets em_in_chain; modify (with_in_chain false);;
    shaped_from src toks tree node i kids' false;; modify (with_in_chain saved)) e0 Q) as Hrest.
  { apply ewp_bind, ewp_gets. intros saved. apply ewp_bind, ewp_modify; [done..|].
    apply ewp_bind. eapply wp_shaped_from; [done..|]. by apply ewp_modify. }
  apply wp_when; [|done]. intros _. apply ewp_bind, ewp_gets. intros indent. apply ewp_bind, wp_when.
  - intros _. apply ewp_bind, wp_push; [done..|]. apply ewp_modify; [done..|]. by apply wp_set.
  - by apply wp_set.
Qed.

Lemma wp_chain_entry : handles (chain_entry src toks tree node).
Proof using Hgood Hnode Hnest.
  intros i f e stop c Q Hi Hw Hc HQ. pose proof (whole_sig _ _ _ _ _ Hw Hc) as (Hcn & Hsf & _).
  pose proof Hw as [Hg _]. pose proof (gn_nodes _ _ _ _ Hg).
  apply ewp_bind, ewp_gets. intros in_chain. apply ewp_bind.
  assert (∀ links, wp (if negb in_chain && bool_decide (2 ≤ links) then
    group_open src toks;; modify (with_in_chain true);; modify (with_chain_indent true);;
    postfix src toks tree node i;; modify (with_in_chain false);; indent ← gets em_chain_indent;
    when (negb indent) (push Dedent);; modify (with_chain_indent false);; push Close
    else postfix src toks tree node i) c Q) as Hrest.
  { intros links. destruct (_ && _); [|by eapply wp_postfix].
    apply ewp_bind, wp_group_open; [done|]. apply ewp_bind, ewp_modify; [done..|].
    apply ewp_bind, ewp_modify; [done..|]. apply ewp_bind. eapply (wp_postfix i f e stop); [done..|].
    apply ewp_bind, ewp_modify; [done..|]. apply ewp_bind, ewp_gets. intros indent.
    apply ewp_bind, wp_when; [intros _; apply wp_push; [done..|]|];
      (apply ewp_bind, ewp_modify; [done..|]); by apply wp_push. }
  destruct in_chain; [apply ewp_ret; apply Hrest|]. eapply wp_chain_links; [done|lia|]. intros m. apply Hrest.
Qed.

(** ** Nodes with a shape of their own *)

(** A [use] has an item, and an arm its arrow between its pattern and its body. *)
Definition use_has_item : Prop := ∀ i f e stop, whole i f e stop →
  SynTree.kinds tree !! i = Some Kind.UseDecl → i + 1 < stop.
Definition arm_has_arrow : Prop := ∀ i f e stop f1 e1 stop1, whole i f e stop →
  SynTree.kinds tree !! i = Some Kind.Arm → i + 1 < stop → good_node (i + 1) f1 e1 stop1 →
  sig e1 < e ∧ ∀ f2 e2 stop2, stop1 < stop → good_node stop1 f2 e2 stop2 → sig e1 < f2.

Lemma wp_kids_first i f e stop c (Q : Kids → nat → Prop) : lo ≤ i → whole i f e stop → c ≤ sig f →
  (left_at lo e (MkKids (i + 1) stop) c → Q (MkKids (i + 1) stop) c) → wp (kids_new tree i) c Q.
Proof.
  intros Hi [Hg Hk] Hc HQ. apply ewp_bind, (wp_lift _ _ _ stop); [apply Hg|]. apply ewp_ret, HQ.
  split; simpl; [|apply Hg]. eapply kids_lo; [|done]. by eapply kids_weaken.
Qed.

(** The cursor may move up to the next child's first significant token. *)
Lemma left_move E kids c k e kids' c' : left_at lo E kids c → kid lo E kids c k e kids' →
  (∀ f stop, good_node k f e stop → c' ≤ sig f) → left_at lo E kids c'.
Proof.
  intros [Hk Hlen] [Hp (f & stop & Hg & Hcf & Hs & ->) Hlo He [Hl _] Hn] Hc. specialize (Hc _ _ Hg).
  split; [|done]. unfold peek in Hp. case_bool_decide; [|done]. injection Hp as Hp. rewrite Hp in *.
  apply (kids_some _ _ _ _ _ f e stop); try done; [apply Hn|apply He].
Qed.

Lemma wp_wrapped i f e stop c (Q : unit → nat → Prop) : use_has_item → lo ≤ i →
  whole i f e stop → SynTree.kinds tree !! i = Some Kind.UseDecl → c ≤ sig f → Q tt e →
  wp (wrapped src toks tree node i) c Q.
Proof using Hgood Hnode Hnest.
  intros Huse Hi Hw Hk Hc HQ. pose proof (whole_sig _ _ _ _ _ Hw Hc) as (Hcn & Hsf & Hse).
  specialize (Huse _ _ _ _ Hw Hk). pose proof Hw as [Hg _]. pose proof (gn_tokens _ _ _ _ Hg).
  apply ewp_bind, wp_group_open; [done|]. apply ewp_bind. eapply wp_kids_first; [done..|]. intros Hl.
  set (kids := MkKids (i + 1) stop) in *.
  assert (peek kids = Some (i + 1)) as Ep by (unfold peek; by rewrite bool_decide_eq_true_2).
  destruct (left_kid _ _ _ _ _ Hl Ep) as (e1 & kids' & Hkid). rewrite Ep.
  pose proof Hkid as [_ (f1 & stop1 & Hg1 & Hcf1 & _) _ He1 _ _]. pose proof (gn_tokens _ _ _ _ Hg1).
  apply ewp_bind, ewp_bind. eapply wp_first_of; [done|]. apply ewp_ret.
  apply ewp_bind, wp_tokens_until; [done|lia|]. intros c' Hc' _ _.
  destruct (sig_of_spec toks f1) as ([Hf1 _] & _); [lia|].
  assert (left_at lo e kids c') as Hl'.
  { eapply left_move; [done..|]. intros f2 stop2 Hg2. destruct (gn_first _ _ _ _ Hg1) as (z & Hz & <-).
    destruct (gn_first _ _ _ _ Hg2) as (z2 & Hz2 & <-). replace z2 with z by congruence. lia. }
  apply ewp_bind, wp_push; [done..|]. apply ewp_bind. eapply wp_shaped_from; [done|lia|done|].
  apply ewp_bind, wp_push; [done..|]. by apply wp_push.
Qed.

(** The arrow of an arm. *)
Lemma wp_arrow c (Q : unit → nat → Prop) : c ≤ n → sig c < n → Q tt (S (sig c)) →
  wp (tokens_until src toks (Z.of_nat (sig c) + 1)) c Q.
Proof using Hgood.
  intros Hc HL HQ. replace (Z.of_nat (sig c) + 1)%Z with (Z.of_nat (S (sig c))) by lia.
  apply wp_tokens_until; [done|done|]. intros c' Hc' Hs _. destruct (sig_of_spec toks c Hc) as ([Hcs _] & _).
  replace c' with (S (sig c)); [done|]. destruct (decide (c' ≤ sig c)) as [Hle|]; [|lia].
  rewrite (sig_of_between toks c c') in Hs by lia. lia.
Qed.

(** The body of an arm and what follows it. *)
Lemma wp_arm_body i f e stop kids c (Q : unit → nat → Prop) : good_node i f e stop → c ≤ e →
  left_at lo e kids c → Q tt e →
  wp (kids ← match peek kids with
         | Some body =>
             k ← kind_of tree body;
             if kind_eqb k Kind.Block then
               set Sep.Space;; child src toks tree node body;; bump tree kids
             else
               group_open src toks;; push Indent;; set Sep.Line;; child src toks tree node body;;
               kids ← bump tree kids; push Dedent;; push Close;; mret kids
         | None => mret kids
         end;
      shaped_from src toks tree node i kids false) c Q.
Proof using Hgood Hnode Hnest.
  intros Hg Hc Hl HQ. pose proof (gn_tokens _ _ _ _ Hg). apply ewp_bind.
  destruct (peek kids) as [body|] eqn:Ep; [|apply ewp_ret; by eapply wp_shaped_from].
  assert (∀ c', left_at lo e kids c' → ∃ e1 kids', kid lo e kids c' body e1 kids' ∧
    wp (shaped_from src toks tree node i kids' false) e1 Q) as Hkid.
  { intros c' Hl'. destruct (left_kid _ _ _ _ _ Hl' Ep) as (e1 & kids' & Hk). exists e1, kids'.
    split; [done|]. pose proof (kd_end _ _ _ _ _ _ _ Hk) as [_ He1]. eapply wp_shaped_from; [done..| |done].
    by eapply left_end. }
  destruct (Hkid c Hl) as (e1 & kids' & Hk & Hrest).
  pose proof Hk as [_ (f1 & stop1 & Hg1 & _) _ _ _ _].
  apply ewp_bind. eapply wp_kind_of; [done|]. intros k _. destruct (kind_eqb k Kind.Block).
  - apply ewp_bind, wp_set, ewp_bind. eapply wp_child; [done|]. by eapply wp_bump.
  - destruct (Hkid (sig c)) as (e2 & kids2 & Hk2 & Hrest2); [apply left_sig; [done|lia]|].
    apply ewp_bind, wp_group_open; [done|]. apply ewp_bind, wp_push; [done..|]. apply ewp_bind, wp_set, ewp_bind.
    eapply wp_child; [done|]. apply ewp_bind. eapply wp_bump; [done|]. apply ewp_bind, wp_push; [done..|].
    apply ewp_bind, wp_push; [done..|]. by apply ewp_ret.
Qed.

Lemma good_unique i f e stop f' e' stop' : good_node i f e stop → good_node i f' e' stop' →
  f = f' ∧ e = e' ∧ stop = stop'.
Proof.
  intros [(z & Hz & <-) (a & y & Hy & <-) Hs _ _ _ _ _] [(z' & Hz' & <-) (a' & y' & Hy' & <-) Hs' _ _ _ _ _].
  split_and!; congruence.
Qed.

Lemma wp_arm i f e stop c (Q : unit → nat → Prop) : arm_has_arrow → lo ≤ i → whole i f e stop →
  SynTree.kinds tree !! i = Some Kind.Arm → c ≤ sig f → Q tt e → wp (arm src toks tree node i) c Q.
Proof using Hgood Hnode Hnest.
  intros Harm Hi Hw Hk Hc HQ. pose proof (whole_sig _ _ _ _ _ Hw Hc) as (Hcn & Hsf & Hse).
  pose proof Hw as [Hg _]. pose proof (gn_tokens _ _ _ _ Hg) as HE.
  pose proof (sig_last _ _ _ _ Hg f ltac:(lia)) as Hsfe.
  unfold arm. apply ewp_bind. eapply wp_kids_first; [done..|]. intros Hl.
  set (kids := MkKids (i + 1) stop) in *. apply ewp_bind.
  assert (∀ kids' c', c' ≤ n → sig c' < e → left_at lo e kids' (S (sig c')) →
    wp (j ← sig_idx toks; tokens_until src toks (Z.of_nat j + 1);;
      kids ← match peek kids' with
         | Some body =>
             k ← kind_of tree body;
             if kind_eqb k Kind.Block then
               set Sep.Space;; child src toks tree node body;; bump tree kids'
             else
               group_open src toks;; push Indent;; set Sep.Line;; child src toks tree node body;;
               kids ← bump tree kids'; push Dedent;; push Close;; mret kids
         | None => mret kids'
         end;
      shaped_from src toks tree node i kids false) c' Q) as Hrest.
  { intros kids' c' Hc' Hs Hl'. apply ewp_bind, wp_sig_idx, ewp_bind. apply wp_arrow; [done|lia|].
    by apply (wp_arm_body i f e stop). }
  destruct (peek kids) as [pat|] eqn:Ep.
  - destruct (left_kid _ _ _ _ _ Hl Ep) as (e1 & kids' & Hkid). pose proof (kd_end _ _ _ _ _ _ _ Hkid) as He1.
    apply ewp_bind. eapply wp_child; [done|]. eapply wp_bump; [done|].
    pose proof Ep as Epat. unfold peek in Epat. case_bool_decide as Hlt; [|done]. injection Epat as <-.
    pose proof Hkid as [_ (f1 & stop1 & Hg1 & _ & _ & Hk1) _ _ Hl1 _]. simpl in Hlt.
    destruct (Harm i f e stop f1 e1 stop1 Hw Hk Hlt Hg1) as [Hs1 Hbody].
    apply Hrest; [lia|done|]. destruct (peek kids') as [k2|] eqn:Ep2; [|by eapply left_none].
    destruct (left_kid _ _ _ _ _ Hl1 Ep2) as (e2 & kids2 & Hkid2). eapply left_move; [done..|].
    intros f2 stop2 Hg2. pose proof (gn_tokens _ _ _ _ Hg2).
    destruct (sig_of_spec toks f2) as ([? _] & _); [lia|].
    unfold peek in Ep2. case_bool_decide as Hlt2; [|done]. injection Ep2 as <-. subst kids'.
    specialize (Hbody f2 e2 stop2 Hlt2 Hg2). lia.
  - apply ewp_ret, Hrest; [done|lia|by eapply left_none].
Qed.

(** ** The file and the dispatch *)

Lemma wp_file_loop fuel E kids c first (Q : unit → nat → Prop) : E ≤ n → c ≤ E → left_at lo E kids c →
  room kids c < fuel → (∀ c', c' ≤ E → Q tt c') →
  wp (file_loop src toks tree node fuel (MkChildIter (k_next kids) (k_end kids)) first) c Q.
Proof using Hgood Hnode Hnest.
  intros HE. revert kids c first. induction fuel as [|fuel IH]; intros kids c first Hc Hl Hr HQ; [lia|].
  cbn [file_loop]. apply ewp_bind. destruct (peek kids) as [k|] eqn:Ep.
  - destruct (left_kid _ _ _ _ _ Hl Ep) as (e & kids' & Hk).
    destruct (goes_kid _ _ _ _ _ _ HE Hk) as (H1 & H2 & H3).
    pose proof Hk as [_ (f & stop & Hg & _ & Hs & Hk') _ _ _ _].
    eapply (wp_lift _ _ _ (Some k, MkChildIter stop (k_end kids))).
    { unfold child_next. cbn [ci_end ci_next]. unfold peek in Ep. case_bool_decide; [|done].
      injection Ep as <-. rewrite bool_decide_eq_false_2 by lia. by rewrite Hs. }
    assert (wp (child src toks tree node k;;
      file_loop src toks tree node fuel (MkChildIter stop (k_end kids)) false) c Q) as Hnext.
    { apply ewp_bind. eapply wp_child; [done|]. subst kids'. apply (IH (MkKids stop (k_end kids))); (done || lia). }
    apply ewp_bind, wp_when; [|done]. intros _. apply ewp_bind, wp_set. by apply ewp_modify.
  - eapply (wp_lift _ _ _ (None, _)).
    { unfold child_next. cbn [ci_end ci_next]. unfold peek in Ep. case_bool_decide; [done|].
      by rewrite bool_decide_eq_true_2 by lia. }
    apply ewp_ret. by apply HQ.
Qed.

Lemma wp_file : handles (file src toks tree node).
Proof using Hgood Hnode Hnest.
  intros i f e stop c Q Hi Hw Hc HQ. pose proof (whole_bounds _ _ _ _ _ Hw Hc) as [He Hce].
  pose proof Hw as [Hg Hk]. apply ewp_bind. eapply (wp_lift _ _ _ (MkChildIter (i + 1) stop)).
  { unfold children. by rewrite (gn_stop _ _ _ _ Hg). }
  assert (left_at lo e (MkKids (i + 1) stop) c) as Hl.
  { split; simpl; [|apply Hg]. eapply kids_lo; [|done]. by eapply kids_weaken. }
  apply ewp_bind. apply (wp_file_loop _ e (MkKids (i + 1) stop)); [done..|by eapply room_start|].
  intros c' Hc'. by eapply wp_finish.
Qed.

Lemma wp_dispatch : use_has_item → arm_has_arrow → handles (dispatch src toks tree node).
Proof using Hgood Hnode Hnest.
  intros Huse Harm i f e stop c Q Hi Hw Hc HQ. pose proof Hw as [Hg _].
  assert (∀ h, handles h → wp (h i) c Q) as Hh by (intros h Hh; by eapply Hh).
  apply ewp_bind. eapply wp_kind_of; [done|]. intros k Hk.
  pose proof (Hh _ (wp_shaped true)) as Hblock. pose proof (Hh _ (wp_shaped false)) as Hshaped.
  pose proof (Hh _ wp_fn_like). pose proof (Hh _ (wp_fn_sig false)). pose proof (Hh _ wp_plain).
  pose proof (Hh _ wp_pipes). pose proof (Hh _ wp_binary). pose proof (Hh _ wp_tight_prefix).
  pose proof (Hh _ wp_chain_entry). pose proof (Hh _ wp_file). clear Hh.
  destruct k; try assumption; [by eapply wp_wrapped|by eapply wp_arm].
Qed.
End handlers.

(** ** The walk *)

Lemma node_walks fuel lo : nested → use_has_item → arm_has_arrow → len tree - lo ≤ fuel →
  walks lo (node src toks tree fuel).
Proof using Hgood.
  intros Hnest Huse Harm. revert lo. induction fuel as [|fuel IH]; intros lo Hf i f e stop c Q Hi Hw Hc HQ.
  - pose proof Hw as [Hg _]. pose proof (gn_nodes _ _ _ _ Hg). lia.
  - cbn [node]. eapply (wp_dispatch _ i); [|done..]. apply IH. lia.
Qed.

(** The emitter never fails, and puts the tokens up to the end of the root. *)
Lemma emit_tree_spec f e stop : nested → use_has_item → arm_has_arrow → whole 0 f e stop →
  ∃ ops, emit_tree src toks tree = Done ops ∧ texts src ops = tok_texts src toks e ∧
    Forall (in_source src) ops ∧ lines_broken src false ops = true.
Proof using Hgood.
  intros Hnest Huse Harm Hw. pose proof Hw as [Hg _]. pose proof (gn_nodes _ _ _ _ Hg) as Hlen.
  assert (inv src toks new) as Hinv.
  { split; [split; simpl; try done; lia|]. left. intros j k Hj. simpl in Hj. lia. }
  assert (wp (run src toks tree) 0 (λ _ c, c = e)) as Hrun.
  { unfold run. destruct (is_empty tree) eqn:E; simpl.
    - unfold is_empty in E. apply bool_decide_eq_true in E. unfold len in Hlen. rewrite E in Hlen. simpl in Hlen. lia.
    - eapply (wp_dispatch _ 0); [|done..|lia|done]. by apply node_walks; [..|lia]. }
  destruct (Hrun new Hinv eq_refl) as (u & e' & He' & [[H1 H2 H3 H4 H5] _] & Hc).
  exists (em_ops e'). unfold emit_tree. rewrite He'. simpl. rewrite <- Hc. by split_and!.
Qed.
End walk.
