(* ===== verification/FmtLexed.v ===== *)
(** * The streams the formatter reads

    What the lexer guarantees of a stream without errors that the layout relies
    on: a comment or a multiline string is followed by the end of its line, and
    two multiline strings are never in a row. *)

From Stdlib Require Import Strings.Byte.
From S2P Require Import Prelude SynTree FmtEmit FmtEmitSteps Token Utf8 Lexer LexScan LexerProps LexTheorems FmtDoc FmtDocProps FmtRelex FmtTokens.
Local Open Scope nat_scope.
Local Open Scope byte_scope.

(** ** Tokens where they stand *)

(** Every item is the token of the text from where it starts. *)
Lemma parses_one l its : parses l its → Forall (λ it, it_code it = None) its →
  ∀ i it, its !! i = Some it → ∃ b, head (drop (total (take i its)) l) = Some b ∧
    ∀ pos lx, lex_one pos b (drop (total (take i its)) l) lx = Done (push (it_kind it) pos lx, it_len it).
Proof.
  intros Hp. induction Hp as [|b l its its' Hb (Hone & Hok & Hn & Hs) Hp IH]; intros Hc i it Hi; [done|].
  apply Forall_app in Hc as [Hc Hc']. destruct its as [|it0 rest]; [unfold total in Hn; simpl in Hn; lia|].
  assert (rest = []) as ->.
  { destruct Hs as [_ Hs]. destruct rest as [|it1 rest]; [done|].
    inversion Hs as [|? ? [c Hcode] _]; subst. inversion Hc as [|? ? _ Hc2]; subst.
    inversion Hc2; subst. congruence. }
  inversion Hc as [|? ? Hcode _]; subst. destruct i as [|i].
  - injection Hi as <-. simpl. rewrite drop_0. exists b. split; [done|]. intros pos lx. rewrite Hone.
    assert (total [it0] = it_len it0) as Ht by (unfold total; simpl; lia). rewrite Ht.
    rewrite (push_emit _ (it_len it0)). destruct it0 as [k m c]. simpl in *. by subst c.
  - change (its' !! i = Some it) in Hi. destruct (IH Hc' i it Hi) as (b' & Hb' & Hone').
    replace (total (take (S i) ([it0] ++ its'))) with (total [it0] + total (take i its'))
      by (by rewrite <- total_app).
    rewrite <- drop_drop. by exists b'.
Qed.

(** Where a line comment and a multiline string stop. *)
Lemma scan_while_stop ok l : stops ok (drop (scan_while ok l) l).
Proof.
  induction l as [|b l IH]; [done|]. simpl. destruct (ok b) eqn:E; [exact IH|]. unfold stops, at_ok. simpl. done.
Qed.

Lemma stops_line_end s : stops (λ b, negb (isb newline b)) s → line_end s.
Proof.
  unfold stops, at_ok. intros Hs c Hc. destruct s as [|c' s]; [done|]. injection Hc as ->. simpl in Hs.
  apply negb_false_iff in Hs. by apply isb_eq in Hs.
Qed.

Lemma comment_ends b l n : lex_one 0 b l (MkLexer [] [] []) = Done (push LineComment 0 (MkLexer [] [] []), n) →
  line_end (drop n l).
Proof.
  intros Hl. destruct (lex_one_line _ _ _ _ Hl eq_refl) as [[_ ?]|[[E _]|[_ ?]]]; [done| |done].
  apply andb_true_iff in E as [Eb E1]. apply isb_eq in Eb as ->. unfold lex_one in Hl.
  replace (is_ws "/") with false in Hl by reflexivity. rewrite E1 in Hl.
  replace (isb "/" "/") with true in Hl by reflexivity. simpl andb in Hl. cbv iota in Hl.
  apply Done_inj in Hl. unfold lex_line_comment in Hl. apply push_kind in Hl as [_ <-].
  rewrite <- drop_drop. apply stops_line_end, scan_while_stop.
Qed.

Lemma multiline_stop fuel l n : scan_multiline_string fuel l = Done n →
  line_end (drop n l) ∧ no_more_lines (drop n l).
Proof.
  revert l n. induction fuel as [|fuel IH]; intros l n; [done|]. cbn [scan_multiline_string].
  set (p := λ b, negb (isb newline b)). set (e := 2 + scan_while p (drop 2 l)).
  set (la := e + scan_while is_ws (drop e l)).
  destruct (at_is l la backslash && at_is l (la + 1) backslash) eqn:E.
  - destruct (scan_multiline_string fuel (drop la l)) as [| |m] eqn:Em; try done.
    intros <-%Done_inj. rewrite <- drop_drop. by apply IH.
  - intros <-%Done_inj. split.
    + subst e. rewrite <- drop_drop. apply stops_line_end, scan_while_stop.
    + unfold no_more_lines, at_is in *. rewrite !lookup_drop. fold la.
      by rewrite Nat.add_assoc.
Qed.

Lemma multiline_ends b l n :
  lex_one 0 b l (MkLexer [] [] []) = Done (push MultilineStr 0 (MkLexer [] [] []), n) →
  line_end (drop n l) ∧ no_more_lines (drop n l).
Proof.
  intros Hl. destruct (lex_one_line _ _ _ _ Hl eq_refl) as [[_ ?]|[[_ ?]|[E _]]]; [done..|].
  apply andb_true_iff in E as [Eb E1]. apply isb_eq in Eb as ->. unfold lex_one in Hl.
  replace (is_ws backslash) with false in Hl by reflexivity. rewrite E1 in Hl.
  replace (isb "/" backslash) with false in Hl by reflexivity.
  replace (isb backslash backslash) with true in Hl by reflexivity. simpl andb in Hl. cbv iota in Hl.
  destruct (scan_multiline_string (length l) l) as [| |m] eqn:Em; try done.
  apply Done_inj, push_kind in Hl as [_ <-]. by eapply multiline_stop.
Qed.

Lemma white_ends b l n :
  lex_one 0 b l (MkLexer [] [] []) = Done (push Whitespace 0 (MkLexer [] [] []), n) → head l = Some b →
  stops is_ws (drop n l) ∧ n = scan_while is_ws l.
Proof.
  intros Hl Hb. destruct (lex_one_line _ _ _ _ Hl eq_refl) as [[E _]|[[_ ?]|[_ ?]]]; [|done..].
  unfold lex_one in Hl. rewrite E in Hl. apply Done_inj in Hl. unfold lex_whitespace in Hl.
  apply push_kind in Hl as [_ <-]. destruct l as [|b' l]; [done|]. injection Hb as ->. simpl. rewrite drop_0, E.
  split; [apply scan_while_stop|done].
Qed.

(** The kind of a text that runs to the end of its line. *)
Lemma line_text_kind k b w : standing k b w → line_text w = true → is_line k = true.
Proof.
  intros [Hh Hl] Ht. specialize (Hl 0 (MkLexer [] [] [])). unfold line_text in Ht.
  unfold at_is in Ht at 1 3. rewrite <- head_lookup, Hh in Ht. unfold lex_one in Hl.
  apply orb_true_iff in Ht as [Ht|Ht]; pose proof Ht as [Eb E1]%andb_true_iff; apply isb_eq in Eb as ->.
  - replace (is_ws "/") with false in Hl by reflexivity. rewrite E1 in Hl.
    replace (isb "/" "/") with true in Hl by reflexivity. simpl andb in Hl. cbv iota in Hl.
    apply Done_inj in Hl. unfold lex_line_comment in Hl. by apply push_kind in Hl as [<- _].
  - replace (is_ws backslash) with false in Hl by reflexivity. rewrite E1 in Hl.
    replace (isb "/" backslash) with false in Hl by reflexivity.
    replace (isb backslash backslash) with true in Hl by reflexivity. simpl andb in Hl. cbv iota in Hl.
    destruct (scan_multiline_string (length w) w) as [| |m]; try done.
    by apply Done_inj, push_kind in Hl as [<- _].
Qed.

(** Neighbours in a filtered list. *)
Lemma filter_neighbours {A} (P : A → bool) L l x y r : List.filter P L = l ++ x :: y :: r →
  ∃ i j, i < j ∧ L !! i = Some x ∧ L !! j = Some y ∧
    ∀ m z, i < m < j → L !! m = Some z → P z = false.
Proof.
  revert l. induction L as [|a L IH]; intros l; simpl; [by destruct l|].
  destruct (P a) eqn:Ea.
  - destruct l as [|b l]; intros [= <- E].
    + clear IH. assert (∃ j, L !! j = Some y ∧ ∀ m z, m < j → L !! m = Some z → P z = false) as (j & Hj & Hm).
      { clear -E. induction L as [|a' L IH]; simpl in E; [done|]. destruct (P a') eqn:Ea'.
        - injection E as -> _. exists 0. split; [done|lia].
        - destruct (IH E) as (j & Hj & Hm). exists (S j). split; [done|]. intros [|m] z Hlt Hz; [by injection Hz as <-|].
          apply (Hm m); [lia|done]. }
      exists 0, (S j). split_and!; [lia|done|done|]. intros [|m] z Hlt Hz; [lia|]. apply (Hm m); [lia|done].
    + destruct (IH l E) as (i & j & Hij & Hi & Hj & Hm). exists (S i), (S j). split_and!; [lia|done|done|].
      intros [|m] z Hlt Hz; [lia|]. apply (Hm m); [lia|done].
  - intros E. destruct (IH l E) as (i & j & Hij & Hi & Hj & Hm). exists (S i), (S j). split_and!; [lia|done|done|].
    intros [|m] z Hlt Hz; [lia|]. apply (Hm m); [lia|done].
Qed.

Section lexed.
Context (source : list byte) (its : list item) (Hf : fits source) (Hp : parses source its).
Context (Hcodes : Forall (λ it, it_code it = None) its).
Abbreviation toks := (stream source its).

Lemma its_total : total its = length source.
Proof using Hp. by apply parses_facts in Hp as [_ ?]. Qed.

Lemma its_kind i : i < length its → Lexer.kinds toks !! i = it_kind <$> its !! i.
Proof. intros Hi. unfold stream. simpl. rewrite lookup_app_l by (by rewrite length_fmap). apply list_lookup_fmap. Qed.

Lemma its_eof i k : Lexer.kinds toks !! i = Some k → length its ≤ i → i = length its ∧ k = Eof.
Proof.
  unfold stream. simpl. intros Hk Hi. rewrite lookup_app_r in Hk by (by rewrite length_fmap).
  rewrite length_fmap in Hk. destruct (i - length its) as [|[]] eqn:E; [|done..].
  injection Hk as <-. split; [lia|done].
Qed.

Lemma its_len : tok_len toks = S (length its).
Proof. unfold tok_len, stream. simpl. rewrite length_app, length_fmap. simpl. lia. Qed.

Lemma its_text i : i ≤ length its → text toks i source = Done (default [] (pieces its source !! i)).
Proof using Hf Hp. intros Hi. apply stream_text; [done|apply its_total|done]. Qed.

Lemma its_alone i it : its !! i = Some it → ∃ b w, text toks i source = Done w ∧
  standing (it_kind it) b w ∧ w ≠ [].
Proof using Hf Hp Hcodes.
  intros Hi. pose proof Hcodes as Hc. rewrite Forall_lookup in Hc. specialize (Hc i it Hi).
  destruct (parses_alone _ _ _ _ Hp Hi Hc) as (b & w & Hw & Hlen & Hlex).
  pose proof (lookup_lt_Some _ _ _ Hi). exists b, (b :: w). rewrite its_text, Hw by lia.
  split_and!; [done| |done]. split; [done|]. intros pos lx. by rewrite Hlex, Hlen.
Qed.

(** A token right after the end of a line is white space that starts with it. *)
Lemma newline_token i it it' : its !! i = Some it → its !! S i = Some it' →
  line_end (drop (it_len it) (drop (total (take i its)) source)) →
  it_kind it' = Whitespace ∧ ∃ m, newlines_in source toks (S i) = Done (S m).
Proof using Hf Hp Hcodes.
  intros Hi Hi' He. destruct (parses_one _ _ Hp Hcodes _ _ Hi') as (b & Hb & Hone).
  rewrite (total_take_S _ _ _ Hi), <- drop_drop in Hb, Hone.
  apply He in Hb as Hbn. subst b. specialize (Hone 0 (MkLexer [] [] [])).
  unfold lex_one in Hone. replace (is_ws newline) with true in Hone by reflexivity.
  apply Done_inj in Hone. unfold lex_whitespace in Hone. apply push_kind in Hone as [Hk Hn].
  split; [done|]. pose proof (lookup_lt_Some _ _ _ Hi'). unfold newlines_in.
  rewrite its_text, (pieces_lookup _ _ _ _ Hi'), (total_take_S _ _ _ Hi), <- drop_drop by lia.
  simpl. rewrite <- Hn. destruct (drop (it_len it) _) as [|c l]; [done|]. injection Hb as ->. simpl. by eexists.
Qed.

Lemma lexed_good : good_tokens source toks.
Proof using Hf Hp Hcodes.
  pose proof its_total as Ht. split.
  - intros i Hi. rewrite its_len in Hi. do 2 eexists. split; [apply stream_range; (done || lia)|].
    pose proof (total_take_le (S i) its). rewrite Ht in *.
    assert (total (take i its) ≤ total (take (S i) its)); [|lia].
    destruct (its !! i) as [it|] eqn:E; [rewrite (total_take_S _ _ _ E); lia|].
    apply lookup_ge_None in E. by rewrite !take_ge by lia.
  - intros i k x Hk Hx Hl. destruct (decide (i < length its)) as [Hi|Hi].
    + destruct (lookup_lt_is_Some_2 its i Hi) as [it Hit]. rewrite its_kind, Hit in Hk by done. injection Hk as <-.
      destruct (its_alone _ _ Hit) as (b & w & Hw & Hst & _). rewrite Hw in Hx. injection Hx as ->.
      by eapply line_text_kind.
    + destruct (its_eof _ _ Hk) as [-> ->]; [lia|]. rewrite its_text in Hx by done.
      rewrite (proj2 (lookup_ge_None _ _)) in Hx by (by rewrite pieces_length). by injection Hx as <-.
  - intros i k Hk Hw Hi. rewrite its_len in Hi. destruct (lookup_lt_is_Some_2 its i) as [it Hit]; [lia|].
    destruct (its_alone _ _ Hit) as (b & w & Hx & _ & Hne). rewrite Hx. by intros [= ->].
  - intros i k Hk Hl. destruct (decide (i < length its)) as [Hi|Hi].
    2:{ destruct (its_eof _ _ Hk) as [_ ->]; [lia|done]. }
    destruct (lookup_lt_is_Some_2 its i Hi) as [it Hit]. rewrite its_kind, Hit in Hk by done. injection Hk as <-.
    destruct (decide (S i < length its)) as [HS|HS].
    + destruct (lookup_lt_is_Some_2 its (S i) HS) as [it' Hit']. rewrite its_kind, Hit' by done.
      exists (it_kind it'). split; [done|]. right. apply (newline_token i it it'); [done..|].
      destruct (parses_one _ _ Hp Hcodes _ _ Hit) as (b & Hb & Hone). specialize (Hone 0 (MkLexer [] [] [])).
      destruct (it_kind it); try done; [by eapply comment_ends|by eapply multiline_ends].
    + exists Eof. split; [|by left]. unfold stream. simpl. rewrite lookup_app_r by (rewrite length_fmap; lia).
      rewrite length_fmap. by replace (S i - length its) with 0 by lia.
Qed.

(** ** The tokens to print *)

Definition printed_tokens : list (TokenKind * list byte) := shown its source.

Lemma zip_lookup i : i < length its → ∃ it w, its !! i = Some it ∧ pieces its source !! i = Some w ∧
  zip (it_kind <$> its) (pieces its source) !! i = Some (it_kind it, w).
Proof.
  intros Hi. destruct (lookup_lt_is_Some_2 its i Hi) as [it Hit].
  destruct (lookup_lt_is_Some_2 (pieces its source) i) as [w Hw]; [by rewrite pieces_length|].
  exists it, w. split_and!; [done..|]. by rewrite lookup_zip_with, list_lookup_fmap, Hit, Hw.
Qed.

Lemma zip_inv i k w : zip (it_kind <$> its) (pieces its source) !! i = Some (k, w) →
  ∃ it, its !! i = Some it ∧ it_kind it = k ∧ pieces its source !! i = Some w.
Proof.
  rewrite lookup_zip_with, list_lookup_fmap. destruct (its !! i) as [it|]; [|done]. simpl.
  destruct (pieces its source !! i) as [w'|]; [|done]. intros [= <- <-]. by exists it.
Qed.

Lemma tok_texts_shown m : m ≤ length its → tok_texts source toks m =
  (List.filter (λ p, negb (is_white p.1)) (take m (zip (it_kind <$> its) (pieces its source)))).*2.
Proof using Hf Hp Hcodes.
  induction m as [|m IH]; intros Hm; [done|]. rewrite tok_texts_S, IH by lia.
  destruct (zip_lookup m) as (it & w & Hit & Hw & Hz); [lia|].
  rewrite (take_S_r _ _ _ Hz), List.filter_app, fmap_app. f_equal. unfold piece.
  rewrite its_kind, Hit by lia. simpl. rewrite its_text, Hw by lia. simpl.
  destruct (is_white (it_kind it)); [done|]. simpl. rewrite bool_decide_eq_false_2; [done|].
  destruct (its_alone _ _ Hit) as (b & w' & Hx & _ & Hne). rewrite its_text, Hw in Hx by lia. by injection Hx as ->.
Qed.

Lemma tok_texts_all : tok_texts source toks (tok_len toks) = printed_tokens.*2.
Proof using Hf Hp Hcodes.
  rewrite its_len, tok_texts_S, tok_texts_shown by done.
  rewrite take_ge by (rewrite length_zip_with, length_fmap, pieces_length; lia).
  replace (piece source toks (length its)) with (@None (list byte)); [by rewrite app_nil_r|].
  unfold piece. destruct (Lexer.kinds toks !! length its) as [k|] eqn:Ek; [|done].
  rewrite its_text by done. rewrite (proj2 (lookup_ge_None _ _)) by (by rewrite pieces_length).
  simpl. by rewrite orb_true_r.
Qed.

Lemma printed_elem k w : (k, w) ∈ printed_tokens → ∃ i it, its !! i = Some it ∧ it_kind it = k ∧
  is_white k = false ∧ text toks i source = Done w.
Proof using Hf Hp.
  unfold printed_tokens, shown. intros Hin. apply list_elem_of_In, filter_In in Hin as [Hin Hw].
  apply list_elem_of_In, list_elem_of_lookup in Hin as [i Hi]. apply zip_inv in Hi as (it & Hit & Hk & Hpc).
  exists i, it. split_and!; [done..|by apply negb_true_iff in Hw|].
  pose proof (lookup_lt_Some _ _ _ Hit). by rewrite its_text, Hpc by lia.
Qed.

Lemma printed_lone : Forall2 lone_token printed_tokens.*1 printed_tokens.*2.
Proof using Hf Hp Hcodes.
  apply Forall2_fmap_2, Forall_Forall2_diag, Forall_forall. intros [k w] Hin. simpl.
  destruct (printed_elem _ _ Hin) as (i & it & Hit & <- & Hw & Hx).
  destruct (its_alone _ _ Hit) as (b & w' & Hx' & [Hh Hone] & _). rewrite Hx in Hx'. injection Hx' as <-.
  pose proof Hcodes as Hc. rewrite Forall_lookup in Hc. specialize (Hc i it Hit).
  apply parses_facts in Hp as [Hok Ht]. rewrite Forall_lookup in Hok.
  destruct (Hok i it Hit) as (_ & Hne & [He _] & _).
  assert (plain_kind (it_kind it) = true) as Hplain.
  { destruct (it_kind it); try done. destruct (He eq_refl) as [c Hcode]. congruence. }
  split_and!; [done..|]. destruct w as [|b' w]; [done|]. injection Hh as ->.
  destruct (lex_alone b w (it_kind it)) as (ds & Hds & _); [|done|by do 2 eexists].
  unfold text in Hx. pose proof (lookup_lt_Some _ _ _ Hit).
  rewrite stream_range in Hx by (done || lia). simpl in Hx. case_bool_decide as Hb; [|done].
  injection Hx as Hx. apply (f_equal length) in Hx. rewrite length_take, length_drop in Hx.
  unfold fits in Hf. simpl in *. lia.
Qed.

(** No token that is not white space stands between two multiline strings. *)
Lemma printed_apart : apart printed_tokens.*1.
Proof using Hf Hp Hcodes.
  intros l r E. unfold printed_tokens, shown in E.
  apply fmap_app_inv in E as (l1 & l2 & -> & E & Hl). destruct l2 as [|[k1 w1] [|[k2 w2] l2]]; try done.
  injection E as <- <- _. apply filter_neighbours in Hl as (i & j & Hij & Hi & Hj & Hm).
  apply zip_inv in Hi as (it & Hit & Hk & _). apply zip_inv in Hj as (jt & Hjt & Hkj & _).
  pose proof (lookup_lt_Some _ _ _ Hjt) as Hlt.
  assert (∀ m, i < m < j → ∃ mt, its !! m = Some mt ∧ it_kind mt = Whitespace) as Hwhite.
  { intros m Hmij. destruct (zip_lookup m) as (mt & w & Hmt & _ & Hz); [lia|].
    specialize (Hm m _ Hmij Hz). exists mt. split; [done|]. simpl in Hm. by destruct (it_kind mt). }
  destruct (parses_one _ _ Hp Hcodes _ _ Hit) as (b & Hb & Hone). specialize (Hone 0 (MkLexer [] [] [])).
  rewrite Hk in Hone. apply multiline_ends in Hone as [He Hn].
  destruct (decide (S i = j)) as [<-|Hne].
  { destruct (newline_token i it jt Hit Hjt He) as [E _]. congruence. }
  destruct (Hwhite (S i)) as (mt & Hmt & Hkm); [lia|].
  destruct (parses_one _ _ Hp Hcodes _ _ Hmt) as (b1 & Hb1 & Hone1). specialize (Hone1 0 (MkLexer [] [] [])).
  rewrite Hkm, (total_take_S _ _ _ Hit), <- drop_drop in *. apply white_ends in Hone1 as [Hs Hlen]; [|done].
  destruct (lookup_lt_is_Some_2 its (S (S i))) as [nt Hnt]; [lia|].
  destruct (parses_one _ _ Hp Hcodes _ _ Hnt) as (b2 & Hb2 & Hone2). specialize (Hone2 0 (MkLexer [] [] [])).
  rewrite (total_take_S _ _ _ Hmt), (total_take_S _ _ _ Hit), <- !drop_drop in *.
  set (s := drop (it_len it) (drop (total (take i its)) source)) in *.
  destruct (decide (S (S i) = j)) as [Ej|Hne2].
  - subst j. rewrite Hjt in Hnt. injection Hnt as <-. rewrite Hkj in Hone2.
    destruct (lex_one_line _ _ _ _ Hone2 eq_refl) as [[_ ?]|[[_ ?]|[E _]]]; [done..|].
    unfold no_more_lines in Hn. rewrite <- Hlen in Hn. apply andb_true_iff in E as [Eb E1].
    unfold at_is in Hn, E1. rewrite lookup_drop in E1. rewrite head_lookup, lookup_drop, Nat.add_0_r in Hb2.
    by rewrite Hb2, Eb, E1 in Hn.
  - destruct (Hwhite (S (S i))) as (nt' & Hnt' & Hkn); [lia|]. rewrite Hnt in Hnt'. injection Hnt' as <-.
    rewrite Hkn in Hone2. destruct (lex_one_line _ _ _ _ Hone2 eq_refl) as [[E _]|[[_ ?]|[_ ?]]]; [|done..].
    unfold stops, at_ok in Hs. rewrite <- head_lookup, Hb2 in Hs. congruence.
Qed.
End lexed.

Lemma apart_strings_apart ks : apart ks → strings_apart ks = true.
Proof.
  induction ks as [|k ks IH]; intros Ha; [done|].
  assert (apart ks) as Ha' by (intros l r ->; by apply (Ha (k :: l) r)).
  specialize (IH Ha'). destruct k; try exact IH. destruct ks as [|[] ks]; try exact IH. by destruct (Ha [] ks).
Qed.
