(* ===== verification/FmtTree.v ===== *)
(** * Trees the formatter walks

    [validate] accepts only trees whose nodes nest; with the conditions on single
    nodes that the parser meets in a file without errors, these are the trees
    FmtEmitWalk walks. *)

From Stdlib Require Import Strings.Byte.
From S2P Require Import Prelude Token Lexer FmtDoc FmtTokens SynTree FmtEmit FmtEmitSteps FmtEmitWalk.
Local Open Scope nat_scope.

(** ** Conditions on single nodes *)

(** The arrow of arm [i], whose nodes end at [stop] and tokens at [e], is between
    its pattern and its body. *)
Definition arm_closed (toks : Tokens) (tree : Tree) (i e stop : nat) : bool :=
  if bool_decide (i + 1 < stop) then
    match token_range tree (i + 1), subtree_end tree (i + 1) with
    | Done (_, e1), Done stop1 =>
        let s := sig_of toks (Z.to_nat e1) in
        bool_decide (s < e) &&
        (if bool_decide (stop1 < stop) then
           match token_range tree stop1 with
           | Done (f2, _) => bool_decide (s < Z.to_nat f2)
           | _ => false
           end
         else true)
    | _, _ => false
    end
  else true.

(** Node [i] has a token, ends on a significant one that opens nothing, and
    starts on one that closes nothing. *)
Definition node_closed (toks : Tokens) (tree : Tree) (i : nat) : bool :=
  match token_range tree i, subtree_end tree i, SynTree.kinds tree !! i with
  | Done (f, e), Done stop, Some k =>
      let f := Z.to_nat f in let e := Z.to_nat e in
      bool_decide (f < e) &&
      match Lexer.kinds toks !! (e - 1) with
      | Some kl => negb (is_trivia kl) && negb (is_open kl)
      | None => false
      end &&
      match Lexer.kinds toks !! sig_of toks f with Some kh => negb (is_close kh) | None => true end &&
      match k with
      | Kind.UseDecl => bool_decide (i + 1 < stop)
      | Kind.Arm => arm_closed toks tree i e stop
      | _ => true
      end
  | _, _, _ => false
  end.

Definition tree_closed (toks : Tokens) (tree : Tree) : bool :=
  forallb (node_closed toks tree) (seq 0 (len tree)).

(** The columns are [u32]s. *)
Definition columns_u32 (tree : Tree) : bool :=
  forallb (λ x, (0 <=? x) && (x <? 2 ^ 32))%Z (first_token tree ++ token_len tree ++ subtree_len tree).

Section valid.
Context (source : list byte) (toks : Tokens) (tree : Tree).
Context (Hclosed : tree_closed toks tree = true) (Hcols : columns_u32 tree = true).
Abbreviation n := (n_toks toks).

Lemma node_closed_at i : i < len tree → node_closed toks tree i = true.
Proof using Hclosed.
  intros Hi. unfold tree_closed in Hclosed. rewrite forallb_forall in Hclosed. apply Hclosed.
  apply in_seq. lia.
Qed.

Lemma subtree_nonneg i z : subtree_len tree !! i = Some z → (0 ≤ z)%Z.
Proof using Hcols.
  intros Hz. unfold columns_u32 in Hcols. rewrite !forallb_app, !andb_true_iff in Hcols.
  destruct Hcols as (_ & _ & Hs). rewrite forallb_forall in Hs. specialize (Hs z).
  rewrite andb_true_iff in Hs. destruct Hs as [Hs _]; [|lia]. apply list_elem_of_In. by eapply list_elem_of_lookup_2.
Qed.

(** The node of a frame. *)
Lemma good_closed i f e sub : i < len tree → token_range tree i = Done (f, e) →
  subtree_len tree !! i = Some sub → sub ≠ 0%Z → i + Z.to_nat sub ≤ len tree → Z.to_nat e ≤ n →
  good_node toks tree i (Z.to_nat f) (Z.to_nat e) (i + Z.to_nat sub).
Proof using Hclosed Hcols.
  intros Hi Hr Hs H0 Hle He. pose proof (node_closed_at i Hi) as Hc. unfold node_closed in Hc.
  assert (subtree_end tree i = Done (i + Z.to_nat sub)) as Hstop
    by (unfold subtree_end; by rewrite Hs).
  rewrite Hr, Hstop in Hc. destruct (SynTree.kinds tree !! i) as [k|] eqn:Ek; [|done]. cbv zeta in Hc.
  rewrite !andb_true_iff in Hc. destruct Hc as (((Hfe & Hl) & Hh) & _). apply bool_decide_eq_true in Hfe.
  pose proof (subtree_nonneg _ _ Hs). split.
  - unfold token_range in Hr. destruct (first_token tree !! i) as [z|]; [|done]. exists z. split; [done|].
    simpl in Hr. destruct (token_len tree !! i); [|done]. simpl in Hr. unfold add32 in Hr.
    destruct (_ <=? _)%Z; [done|]. simpl in Hr. by injection Hr as <- _.
  - by exists f, e.
  - done.
  - by rewrite Ek.
  - lia.
  - lia.
  - destruct (Lexer.kinds toks !! (Z.to_nat e - 1)) as [kl|] eqn:El; [|done].
    apply andb_true_iff in Hl as [H1 H2]. exists kl. split_and!; [done|by apply negb_true_iff in H1|by apply negb_true_iff in H2].
  - intros kh Ekh. rewrite Ekh in Hh. by apply negb_true_iff in Hh.
Qed.

(** ** Nesting *)

Lemma check_parent_ok i k sub first e f rest s' : check_parent i k sub first e (f :: rest) = Ok s' →
  i + sub ≤ fr_end f ∧ (fr_next f ≤ first)%Z ∧ (e ≤ fr_end_tok f)%Z ∧
  s' = MkFrame (fr_end f) (fr_end_tok f) e :: rest.
Proof.
  unfold check_parent. case_bool_decide; [done|]. destruct (_ || _) eqn:E; [done|].
  apply orb_false_iff in E as [E1 E2]. intros [= <-]. split_and!; (done || lia).
Qed.

(** What a node that [validate_node] accepts has, under the stack [s]. *)
Lemma validate_node_ok i s s' : validate_node tree toks source i s = Done (Ok s') →
  ∃ f e sub k s1, token_range tree i = Done (f, e) ∧ subtree_len tree !! i = Some sub ∧ sub ≠ 0%Z ∧
    check_parent i k (Z.to_nat sub) f e (pop_closed i s) = Ok s1 ∧
    s' = MkFrame (i + Z.to_nat sub) e f :: s1.
Proof.
  unfold validate_node. destruct (token_range tree i) as [| |[f e]]; try done.
  destruct (subtree_len tree !! i) as [sub|] eqn:Es; [|done]. cbn [get_ix mbind res_bind].
  destruct (sub =? 0)%Z eqn:E0; [done|]. destruct (SynTree.kinds tree !! i) as [k|] eqn:Ek; [|done].
  cbn [get_ix mbind res_bind].
  destruct (check_parent i k (Z.to_nat sub) f e (pop_closed i s)) as [s1|err] eqn:Ec; [|done].
  destruct (_ && _); [done|]. intros H. exists f, e, sub, k, s1. split_and!; [done..|lia|done|].
  destruct (kind_eqb k Kind.Error); [|by injection H].
  destruct (significant_in _ _ _) as [| |[|s0 rest]]; try done; [by injection H|]. simpl in H.
  destruct (swallowed _ _ _ _ _) as [| |[t|]]; try done. by injection H.
Qed.

(** A closed frame is dropped before the next node. *)
Lemma validate_pop m i f s : fr_end f ≤ i →
  validate_nodes m tree toks source i (f :: s) = validate_nodes m tree toks source i s.
Proof.
  intros Hf. destruct m as [|m]; [done|]. cbn [validate_nodes]. unfold validate_node. simpl pop_closed.
  by rewrite bool_decide_eq_true_2 by done.
Qed.

Definition whole_from (i j : nat) : Prop := ∀ k, i ≤ k < j → ∃ f e stop, whole toks tree k f e stop.

Lemma whole_from_app i j k : whole_from i j → whole_from j k → whole_from i k.
Proof. intros H1 H2 m Hm. destruct (decide (m < j)); [apply H1|apply H2]; lia. Qed.

Lemma sig_le a b : (0 ≤ a ≤ b)%Z → Z.to_nat b ≤ n → sig_of toks (Z.to_nat a) ≤ sig_of toks (Z.to_nat b).
Proof. intros Hab Hb. apply sig_of_mono. lia. Qed.

(** From node [i] on, the nodes under the top frame [F] are its children. *)
Lemma validate_children m i lo F rest : validate_nodes m tree toks source i (F :: rest) = Done (Ok ()) →
  lo < i → i ≤ fr_end F ≤ i + m → fr_end F ≤ len tree → (0 ≤ fr_next F)%Z →
  Z.to_nat (fr_end_tok F) ≤ n →
  kids_at toks tree lo (Z.to_nat (fr_end_tok F)) (fr_end F) i (sig_of toks (Z.to_nat (fr_next F))) ∧
  whole_from i (fr_end F) ∧ ∃ F', fr_end F' = fr_end F ∧
    validate_nodes (m - (fr_end F - i)) tree toks source (fr_end F) (F' :: rest) = Done (Ok ()).
Proof using Hclosed Hcols.
  revert i lo F rest. induction m as [m IH] using lt_wf_ind. intros i lo F rest Hv Hlo Hi HF H0 Hn.
  destruct (decide (i = fr_end F)) as [->|Hne].
  { split_and!; [constructor|intros k; lia|]. exists F. split; [done|]. by rewrite Nat.sub_diag, Nat.sub_0_r. }
  destruct m as [|m]; [lia|]. pose proof Hv as Hv'. cbn [validate_nodes] in Hv.
  destruct (validate_node tree toks source i (F :: rest)) as [| |[s'|err]] eqn:En; try done.
  cbn [mbind res_bind] in Hv. apply validate_node_ok in En as (f & e & sub & k & s1 & Hr & Hs & Hsub & Hc & ->).
  simpl pop_closed in Hc. rewrite bool_decide_eq_false_2 in Hc by lia.
  apply check_parent_ok in Hc as (Hend & Hnext & Hetok & ->).
  pose proof (subtree_nonneg _ _ Hs) as Hnn.
  assert (i < len tree) as Hlen by lia.
  assert (good_node toks tree i (Z.to_nat f) (Z.to_nat e) (i + Z.to_nat sub)) as Hg
    by (apply good_closed; (done || lia)).
  pose proof (gn_tokens _ _ _ _ _ _ Hg) as Hfe. set (stop := i + Z.to_nat sub) in *.
  set (F2 := MkFrame (fr_end F) (fr_end_tok F) e) in *.
  destruct (IH m ltac:(lia) (S i) i (MkFrame stop e f) (F2 :: rest)) as (Hk1 & Hw1 & F' & HF' & Hv1);
    simpl; try done; try lia.
  simpl in HF', Hv1. rewrite validate_pop in Hv1 by lia.
  assert (m - (stop - S i) = S m - (stop - i)) as Em by lia. rewrite Em in Hv1.
  destruct (IH (S m - (stop - i)) ltac:(lia) stop lo F2 rest Hv1) as (Hk2 & Hw2 & F'' & HF'' & Hv2);
    simpl; try done; try lia.
  simpl in Hk2, Hw2, HF'', Hv2. split_and!.
  - apply (kids_some _ _ _ _ _ _ _ (Z.to_nat f) (Z.to_nat e) stop); try done; [apply sig_le; lia|lia].
  - apply (whole_from_app _ (S i)).
    + intros k' Hk'. replace k' with i by lia. exists (Z.to_nat f), (Z.to_nat e), stop. split; [done|].
      rewrite Nat.add_1_r. exact Hk1.
    + by apply (whole_from_app _ stop).
  - exists F''. split; [done|]. by replace (S m - (fr_end F - i)) with (S m - (stop - i) - (fr_end F - stop)) by lia.
Qed.

(** A valid tree: its root has every token, and every node is whole. *)
Lemma validate_whole : validate tree toks source = Done (Ok ()) → (Z.of_nat (tok_len toks) < 2 ^ 32)%Z →
  whole toks tree 0 0 (tok_len toks) (len tree) ∧ nested toks tree.
Proof using Hclosed Hcols.
  unfold validate. case_bool_decide as Hlen; [done|]. intros Hv H32.
  destruct (SynTree.kinds tree !! 0) as [k|]; [|done]. cbn [get_ix mbind res_bind] in Hv.
  destruct (negb _); [done|]. destruct (token_range tree 0) as [| |span] eqn:Er; try done.
  cbn [mbind res_bind] in Hv. destruct (negb (bool_decide (span = _))) eqn:Es; [done|].
  apply negb_false_iff, bool_decide_eq_true in Es as ->.
  assert (wrap 32 (Z.of_nat (tok_len toks)) = Z.of_nat (tok_len toks)) as Ew
    by (unfold wrap; apply Z.mod_small; lia). rewrite Ew in *.
  destruct (subtree_len tree !! 0) as [sub|] eqn:Esub; [|done]. cbn [get_ix mbind res_bind] in Hv.
  destruct (negb _) eqn:En; [done|]. apply negb_false_iff, bool_decide_eq_true in En.
  destruct (validate_nodes _ tree toks source 0 []) as [| |[[]|err]] eqn:Ev; try done. clear Hv.
  destruct (len tree) as [|m] eqn:Em; [done|]. cbn [validate_nodes] in Ev.
  destruct (validate_node tree toks source 0 []) as [| |[s'|err]] eqn:E0; try done.
  cbn [mbind res_bind] in Ev. apply validate_node_ok in E0 as (f & e & sub' & k' & s1 & Hr & Hs & Hsub & Hc & ->).
  rewrite Er in Hr. injection Hr as <- <-. rewrite Esub in Hs. injection Hs as <-.
  simpl in Hc. injection Hc as <-. rewrite Nat.add_0_l, En in Ev.
  assert (good_node toks tree 0 (Z.to_nat 0) (Z.to_nat (Z.of_nat (tok_len toks))) (0 + Z.to_nat sub)) as Hg
    by (apply good_closed; try done; unfold n_toks; lia).
  rewrite Nat2Z.id, Nat.add_0_l, En in Hg. change (Z.to_nat 0) with 0 in Hg.
  destruct (validate_children m 1 0 _ [] Ev) as (Hk & Hw & _); simpl; try lia; [unfold n_toks; lia|].
  simpl in Hk, Hw. rewrite Nat2Z.id in Hk.
  assert (whole toks tree 0 0 (tok_len toks) (S m)) as Hroot by by split.
  split; [done|]. intros i Hi. destruct i as [|i]; [by do 3 eexists|]. apply Hw. lia.
Qed.

Lemma closed_use : use_has_item toks tree.
Proof using Hclosed.
  intros i f e stop [Hg _] Hk. pose proof (gn_nodes _ _ _ _ _ _ Hg).
  pose proof (node_closed_at i ltac:(lia)) as Hc. unfold node_closed in Hc.
  rewrite (gn_stop _ _ _ _ _ _ Hg), Hk in Hc. destruct (token_range tree i) as [| |[f' e']]; try done.
  cbv zeta in Hc. rewrite !andb_true_iff in Hc. destruct Hc as [_ Hc]. by apply bool_decide_eq_true in Hc.
Qed.

Lemma closed_arm : arm_has_arrow toks tree.
Proof using Hclosed.
  intros i f e stop f1 e1 stop1 [Hg _] Hk Hi Hg1. pose proof (gn_nodes _ _ _ _ _ _ Hg).
  pose proof (node_closed_at i ltac:(lia)) as Hc. unfold node_closed in Hc.
  destruct (gn_range _ _ _ _ _ _ Hg) as (a & z & Hr & <-).
  rewrite (gn_stop _ _ _ _ _ _ Hg), Hk, Hr in Hc. cbv zeta in Hc. rewrite !andb_true_iff in Hc.
  destruct Hc as [_ Hc]. unfold arm_closed in Hc. rewrite bool_decide_eq_true_2 in Hc by done.
  destruct (gn_range _ _ _ _ _ _ Hg1) as (a1 & z1 & Hr1 & <-).
  rewrite Hr1, (gn_stop _ _ _ _ _ _ Hg1) in Hc. cbv zeta in Hc. apply andb_true_iff in Hc as [Hs Hb].
  split; [by apply bool_decide_eq_true in Hs|]. intros f2 e2 stop2 Hlt Hg2.
  rewrite bool_decide_eq_true_2 in Hb by done. destruct (gn_range _ _ _ _ _ _ Hg2) as (a2 & z2 & Hr2 & _).
  rewrite Hr2 in Hb. apply bool_decide_eq_true in Hb.
  destruct (gn_first _ _ _ _ _ _ Hg2) as (y & Hy & <-). unfold token_range in Hr2. rewrite Hy in Hr2.
  simpl in Hr2. destruct (token_len tree !! stop1); [|done]. simpl in Hr2. unfold add32 in Hr2.
  destruct (_ <=? _)%Z; [done|]. simpl in Hr2. by injection Hr2 as -> _.
Qed.
End valid.
