(* ===== verification/FmtProps.v ===== *)
(** * The formatter's entry points

    Models [src/crates/fors-fmt/src/lib.rs]: the token comparison the formatter
    checks itself with, [format_source], [check_source] and [format_range].  The
    parser is the class [Front]: its tokens are those of the lexer, and
    [format_source] must not change a token whatever tree it answers. *)

From Stdlib Require Import Strings.Byte.
From S2P Require Import Prelude SynTree FmtEmit Token Lexer FmtDoc FmtDiff FmtEmitSteps FmtEmitWalk FmtTree Utf8 LexScan LexerProps LexTheorems FmtDocProps FmtRelex FmtTokens FmtLexed.
Local Open Scope nat_scope.
Local Open Scope byte_scope.

Definition carriage : byte := x0d.

(** The loop that drops a [\r] before a [\n]. *)
Fixpoint drop_crlf (l : list byte) : list byte :=
  match l with
  | [] => []
  | b :: l1 =>
      if isb carriage b && match l1 with c :: _ => isb newline c | [] => false end
      then drop_crlf l1 else b :: drop_crlf l1
  end.

(** [Cow::Borrowed] is [false], [Cow::Owned] is [true]. *)
Definition normalise_newlines (src : list byte) : bool * list byte :=
  if existsb (isb carriage) src then (true, drop_crlf src) else (false, src).

(** The first token at or after [i] that is not white space. *)
Fixpoint skip_space (fuel i : nat) (t : Tokens) : res nat :=
  if bool_decide (i < tok_len t) then
    k ← get_ix (kinds t !! i);
    match k with
    | Whitespace => match fuel with O => OutOfFuel | S fuel => skip_space fuel (S i) t end
    | _ => Done i
    end
  else Done i.

Fixpoint same_loop (fuel : nat) (a b : list byte) (ta tb : Tokens) (ia ib : nat) : res bool :=
  match fuel with
  | O => OutOfFuel
  | S fuel =>
      ia ← skip_space (tok_len ta) ia ta;
      ib ← skip_space (tok_len tb) ib tb;
      match bool_decide (ia < tok_len ta), bool_decide (ib < tok_len tb) with
      | false, false => Done true
      | true, false | false, true => Done false
      | true, true =>
          ka ← get_ix (kinds ta !! ia);
          kb ← get_ix (kinds tb !! ib);
          if negb (token_kind_eqb ka kb) then Done false
          else
            xa ← text ta ia a;
            xb ← text tb ib b;
            if negb (bool_decide (xa = xb)) then Done false
            else same_loop fuel a b ta tb (S ia) (S ib)
      end
  end.

Definition same_tokens (a b : list byte) : res bool :=
  let a := (normalise_newlines a).2 in
  let b := (normalise_newlines b).2 in
  '(ta, _) ← lex a;
  '(tb, _) ← lex b;
  same_loop (S (tok_len ta)) a b ta tb 0 0.

(** ** Formatting *)

Inductive Status : Type := Formatted_ | ParseFailed | Bailed.
#[export] Instance Status_eq_dec : EqDecision Status.
Proof. solve_decision. Defined.

Record Formatted : Type := MkFormatted {
  f_text : list byte; f_status : Status; f_changed : bool; f_parse_diagnostics : nat }.

(** The parser: the number of its diagnostics, and its tree. *)
Class Front : Type := {
  parse_diags : list byte → nat;
  parse_tree : list byte → Tree }.

Section format.
Context `{Front}.

Definition format_source (src : list byte) : res Formatted :=
  let n := parse_diags src in
  if bool_decide (n ≠ 0) then Done (MkFormatted src ParseFailed false n)
  else
    let '(owned, lf) := normalise_newlines src in
    '(toks, _) ← lex lf;
    ops ← emit_tree lf toks (parse_tree lf);
    out ← render ops lf;
    same ← same_tokens lf out;
    if negb (same : bool) then Done (MkFormatted lf Bailed false 0)
    else Done (MkFormatted out Formatted_ (negb (bool_decide (out = lf)) || owned) 0).

Record Check : Type := MkCheck { c_formatted : bool; c_status : Status; c_edits : list TextEdit }.

Definition check_source (src : list byte) : res Check :=
  f ← format_source src;
  edits ← if f_changed f then diff src (f_text f) else Done [];
  Done (MkCheck (negb (f_changed f)) (f_status f) edits).

(** The filter of [format_range]: the edits that touch [start .. stop]. *)
Fixpoint keep_touching (start stop : Z) (edits : list TextEdit) : res (list TextEdit) :=
  match edits with
  | [] => Done []
  | e :: edits =>
      next ← add32 start 1;
      rest ← keep_touching start stop edits;
      Done (if (te_start e <? Z.max stop next)%Z && (start <? te_end e)%Z then e :: rest else rest)
  end.

Definition format_range (src : list byte) (start stop : Z) : res Check :=
  c ← check_source src;
  edits ← keep_touching start stop (c_edits c);
  Done (MkCheck (c_formatted c) (c_status c) edits).
End format.

(** * What the formatter promises

    [same_tokens] compares the tokens that are not white space; [format_source]
    changes nothing else in a file, whatever the emitter does, and never
    declines when the emitter prints the tokens of the file in order. *)

(** ** The comparison *)

(** The texts of a stream are in its source. *)
Definition sliced (t : Tokens) (src : list byte) : Prop :=
  ∀ i, i < tok_len t → ∃ x, text t i src = Done x.

(** The tokens from [i] on that are not white space. *)
Definition rest_from (t : Tokens) (src : list byte) (i : nat) : list (TokenKind * res (list byte)) :=
  List.filter (λ p, negb (is_white p.1)) (drop i (imap (λ i k, (k, text t i src)) (kinds t))).

Lemma rest_from_at t src i k : kinds t !! i = Some k →
  rest_from t src i =
  (if is_white k then [] else [(k, text t i src)]) ++ rest_from t src (S i).
Proof.
  intros Hk. unfold rest_from.
  rewrite (drop_S _ (k, text t i src) i) by (by rewrite list_lookup_imap, Hk).
  simpl. by destruct (is_white k).
Qed.

Lemma rest_from_end t src i : tok_len t ≤ i → rest_from t src i = [].
Proof. intros Hi. unfold rest_from. by rewrite drop_ge by (by rewrite length_imap). Qed.

(** Where the inner loop stops. *)
Lemma skip_space_spec fuel t src i : tok_len t - i ≤ fuel → ∃ j, skip_space fuel i t = Done j ∧
  i ≤ j ∧ rest_from t src i = rest_from t src j ∧
  (∀ k, kinds t !! j = Some k → is_white k = false).
Proof.
  revert i. induction fuel as [|fuel IH]; intros i Hf.
  { exists i. cbn [skip_space]. rewrite bool_decide_eq_false_2 by lia. split_and!; [done..|].
    intros k Hk%lookup_lt_Some. unfold tok_len in Hf. lia. }
  cbn [skip_space]. case_bool_decide as Hi.
  - destruct (lookup_lt_is_Some_2 (kinds t) i Hi) as [k Hk]. rewrite Hk. simpl.
    assert (is_white k = true → ∃ j, skip_space fuel (S i) t = Done j ∧ i ≤ j ∧
      rest_from t src i = rest_from t src j ∧ (∀ k, kinds t !! j = Some k → is_white k = false)) as Hw.
    { intros Hw. destruct (IH (S i)) as (j & -> & Hj & Hr & Hk'); [lia|].
      exists j. split_and!; [done|lia| |done]. by rewrite (rest_from_at _ _ _ _ Hk), Hw. }
    assert (is_white k = false → ∃ j, Done i = Done j ∧ i ≤ j ∧
      rest_from t src i = rest_from t src j ∧ (∀ k, kinds t !! j = Some k → is_white k = false)) as Hn.
    { intros Hn. exists i. split_and!; [done..|]. congruence. }
    destruct k; try (by apply Hn). by apply Hw.
  - exists i. split_and!; [done..|]. intros k Hk%lookup_lt_Some. done.
Qed.

Lemma same_loop_spec fuel a b ta tb ia ib : sliced ta a → sliced tb b →
  tok_len ta - ia < fuel → ∃ r, same_loop fuel a b ta tb ia ib = Done r ∧
  (r = true ↔ rest_from ta a ia = rest_from tb b ib).
Proof.
  intros Ha Hb. revert ia ib. induction fuel as [|fuel IH]; intros ia ib Hf; [lia|].
  cbn [same_loop].
  destruct (skip_space_spec (tok_len ta) ta a ia) as (ja & -> & Hja & -> & Hwa); [lia|].
  destruct (skip_space_spec (tok_len tb) tb b ib) as (jb & -> & Hjb & -> & Hwb); [lia|].
  cbn [mbind res_bind]. clear ib Hjb. destruct (decide (ja < tok_len ta)) as [Hla|Hla];
    destruct (decide (jb < tok_len tb)) as [Hlb|Hlb].
  - rewrite !bool_decide_eq_true_2 by done.
    destruct (lookup_lt_is_Some_2 _ _ Hla) as [ka Hka]. destruct (lookup_lt_is_Some_2 _ _ Hlb) as [kb Hkb].
    rewrite Hka, Hkb. cbn [get_ix mbind res_bind].
    rewrite (rest_from_at _ _ _ _ Hka), (rest_from_at _ _ _ _ Hkb), (Hwa _ Hka), (Hwb _ Hkb).
    destruct (Ha _ Hla) as [xa Hxa]. destruct (Hb _ Hlb) as [xb Hxb]. rewrite Hxa, Hxb. simpl.
    unfold token_kind_eqb. case_bool_decide as Hk; simpl.
    2:{ exists false. split; [done|]. split; [done|]. intros [= ? ?]. done. }
    case_bool_decide as Hx; simpl.
    2:{ exists false. split; [done|]. split; [done|]. intros [= ? ?]. done. }
    destruct (IH (S ja) (S jb)) as (r & -> & Hr); [lia|]. exists r. split; [done|].
    rewrite Hr. subst. split; [by intros ->|]. by intros [= ?].
  - rewrite bool_decide_eq_true_2, bool_decide_eq_false_2 by done. exists false. split; [done|].
    destruct (lookup_lt_is_Some_2 _ _ Hla) as [ka Hka].
    rewrite (rest_from_at _ _ _ _ Hka), (Hwa _ Hka), (rest_from_end _ _ jb) by lia. done.
  - rewrite bool_decide_eq_false_2, bool_decide_eq_true_2 by done. exists false. split; [done|].
    destruct (lookup_lt_is_Some_2 _ _ Hlb) as [kb Hkb].
    rewrite (rest_from_at _ _ _ _ Hkb), (Hwb _ Hkb), (rest_from_end _ _ ja) by lia. done.
  - rewrite !bool_decide_eq_false_2 by done. exists true. split; [done|].
    rewrite !rest_from_end by lia. done.
Qed.

Lemma lex_sliced src : ∃ t ds, lex src = Done (t, ds) ∧ sliced t src.
Proof.
  destruct (decide (fits src)) as [Hf|Hf].
  - destruct (lex_stream src Hf) as (its & r & Hp & _ & E).
    destruct (parses_facts _ _ Hp) as [_ Ht]. do 2 eexists. split; [exact E|].
    intros i Hi. unfold tok_len, stream in Hi. simpl in Hi. rewrite length_app, length_fmap in Hi.
    simpl in Hi. eexists. apply stream_text; (done || lia).
  - rewrite lex_too_large by done. do 2 eexists. split; [done|].
    unfold fits, MAX_SOURCE_LEN in Hf. assert (0 ≤ 2 ^ 30)%Z as H0 by done.
    generalize dependent (2 ^ 30)%Z. intros z Hf H0 i Hi.
    destruct i as [|[|i]]; [| |unfold tok_len in Hi; simpl in Hi; lia]; unfold text;
      cbn [range starts lookup list_lookup get_ix mbind res_bind];
      rewrite bool_decide_eq_true_2 by lia; eauto.
Qed.

(** The text the comparison reads. *)
Definition lf (src : list byte) : list byte := (normalise_newlines src).2.

Lemma same_tokens_spec a b : ∃ ta da tb db r,
  lex (lf a) = Done (ta, da) ∧ lex (lf b) = Done (tb, db) ∧ same_tokens a b = Done r ∧
  (r = true ↔ significant ta (lf a) = significant tb (lf b)).
Proof.
  destruct (lex_sliced (lf a)) as (ta & da & Ha & Hsa). destruct (lex_sliced (lf b)) as (tb & db & Hb & Hsb).
  destruct (same_loop_spec (S (tok_len ta)) (lf a) (lf b) ta tb 0 0 Hsa Hsb) as (r & Hr & Hiff); [lia|].
  exists ta, da, tb, db, r. split_and!; [done..| |exact Hiff].
  unfold same_tokens, lf in *. rewrite Ha, Hb. exact Hr.
Qed.

(** ** Newlines *)

Lemma normalise_no_carriage src : existsb (isb carriage) src = false → normalise_newlines src = (false, src).
Proof. unfold normalise_newlines. by intros ->. Qed.

Lemma existsb_app_false {A} (f : A → bool) l l' :
  existsb f (l ++ l') = false ↔ existsb f l = false ∧ existsb f l' = false.
Proof. rewrite existsb_app. apply orb_false_iff. Qed.

Lemma laid_no_carriage ts out : laid ts out → Forall (λ t, existsb (isb carriage) t = false) ts →
  existsb (isb carriage) out = false.
Proof.
  induction 1 as [|ts out k n t _ IH _ _ _ _]; intros Hts; [done|].
  apply Forall_app in Hts as [Hts Ht]. apply Forall_inv in Ht. rewrite !existsb_app_false.
  split_and!; [by apply IH|by induction k|by induction n|done].
Qed.

Lemma end_line_no_carriage out : existsb (isb carriage) out = false →
  existsb (isb carriage) (end_line out) = false.
Proof. intros H. unfold end_line. destruct (_ && _); [|done]. by apply existsb_app_false. Qed.

Lemma slice_no_carriage a b src : existsb (isb carriage) src = false →
  existsb (isb carriage) (take b (drop a src)) = false.
Proof.
  intros H. rewrite <- (take_drop a src) in H. apply existsb_app_false in H as [_ H].
  rewrite <- (take_drop b (drop a src)) in H. by apply existsb_app_false in H as [H _].
Qed.

Lemma texts_no_carriage src ops : existsb (isb carriage) src = false →
  Forall (λ t, existsb (isb carriage) t = false) (texts src ops).
Proof.
  intros H. unfold texts. induction ops as [|op ops IH]; [done|]. csimpl.
  destruct (text_of src op) as [t|] eqn:E; [|done]. constructor; [|done].
  destruct op; try done. simpl in E. case_bool_decide; [done|]. injection E as <-. by apply slice_no_carriage.
Qed.

(** ** Sizes *)

Lemma total_width_bound src ops : fits src → Forall (in_source src) ops →
  (Z.of_nat (length ops) < 2 ^ 24)%Z → (total_width src ops < 2 ^ 64)%Z.
Proof.
  intros Hf Hops Hlen. assert (total_width src ops ≤ Z.of_nat (length ops) * 2 ^ 40)%Z as H; [|lia].
  clear Hlen. induction Hops as [|op ops Hop _ IH]; [done|]. simpl total_width. simpl length.
  assert (width src op ≤ 2 ^ 40)%Z as Hw; [|lia]. unfold fits, MAX_SOURCE_LEN in Hf. unfold width.
  destruct op; simpl in *; unfold INF; try lia. rewrite slice_in by done. simpl.
  unfold text_width. destruct (existsb _ _); [unfold INF; lia|].
  pose proof (List.filter_length_le starts_char (take (b - a) (drop a src))) as Hl.
  rewrite length_take, length_drop in Hl. lia.
Qed.

(** ** The front to the back *)

(** A lexed file without errors. *)
Lemma lex_clean src toks : fits src → lex src = Done (toks, []) →
  ∃ its, parses src its ∧ toks = stream src its ∧ Forall (λ it, it_code it = None) its.
Proof.
  intros Hf Hl. destruct (lex_stream src Hf) as (its & r & Hp & _ & E). rewrite E in Hl.
  injection Hl as <- Hd. exists its. split_and!; [done..|].
  assert (item_diags 0 its = []) as Hnil.
  { destruct r as [[at_ e]|]; [|done]. destruct (existsb _ _) eqn:Ee; [done|].
    apply (f_equal length) in Hd. rewrite (Permutation_length (sort_by_start_perm _)), length_app in Hd.
    simpl in Hd. lia. }
  clear -Hnil. revert Hnil. generalize 0 at 1. induction its as [|it its IH]; intros pos; [done|]. simpl.
  destruct (it_code it) eqn:Ec; [done|]. intros H. constructor; [done|by eapply IH].
Qed.

(** The emitter on the tokens of a file and a valid tree over them. *)
Lemma emit_valid src toks its tree : fits src → parses src its → toks = stream src its →
  Forall (λ it, it_code it = None) its → validate tree toks src = Done (Ok ()) →
  tree_closed toks tree = true → columns_u32 tree = true →
  ∃ ops, emit_tree src toks tree = Done ops ∧ texts src ops = (printed_tokens src its).*2 ∧
    Forall (in_source src) ops ∧ lines_broken src false ops = true.
Proof.
  intros Hf Hp Et Hc Hv Hcl Hcols.
  pose proof (lexed_good src its Hf Hp Hc) as Hgood. rewrite <- Et in Hgood.
  assert (Z.of_nat (tok_len toks) < 2 ^ 32)%Z as H32.
  { rewrite Et, its_len. pose proof (its_total src its Hp) as Ht. unfold fits, MAX_SOURCE_LEN in Hf.
    assert (length its ≤ total its); [|lia]. apply parses_facts in Hp as [Hok _].
    clear -Hok. induction Hok as [|it its [Hi _] _ IH]; unfold total in *; simpl; lia. }
  destruct (validate_whole src toks tree Hcl Hcols Hv H32) as [Hroot Hnest].
  destruct (emit_tree_spec src toks tree Hgood 0 (tok_len toks) (len tree) Hnest
    (closed_use toks tree Hcl) (closed_arm toks tree Hcl) Hroot) as (ops & He & Htx & Hs & Hl).
  exists ops. split_and!; [done| |done..]. rewrite Htx, Et. by apply tok_texts_all.
Qed.

Lemma zip_fst_snd {A B} (l : list (A * B)) : zip l.*1 l.*2 = l.
Proof. induction l as [|[a b] l IH]; csimpl; [done|]. by f_equal. Qed.

(** The operations of a valid tree can be laid out. *)
Lemma emit_layable src its ops : fits src → parses src its →
  Forall (λ it, it_code it = None) its → texts src ops = (printed_tokens src its).*2 →
  Forall (in_source src) ops → lines_broken src false ops = true →
  (Z.of_nat (length ops) < 2 ^ 24)%Z → number_split (texts src ops) = false →
  layable src ops (printed_tokens src its).*1.
Proof.
  intros Hf Hp Hc Ht Hs Hl Hlen Hn. split; try done.
  - split; [done|]. by apply total_width_bound.
  - rewrite Ht. by apply printed_lone.
  - by apply apart_strings_apart, printed_apart.
Qed.

(** ** Emitting *)

(** C8: On a file the lexer accepts without diagnostics and a tree over its
    tokens that [validate] accepts, whose nodes each end on a significant token,
    the emitter terminates without a panic: its operations print the tokens that
    are not white space, each once and in order, from their ranges in the
    source, and break the line after each one that runs to the end of it. *)
Theorem emit_lossless src toks tree : fits src → lex src = Done (toks, []) →
  validate tree toks src = Done (Ok ()) → tree_closed toks tree = true → columns_u32 tree = true →
  ∃ ops, emit_tree src toks tree = Done ops ∧
    (Done <$> texts src ops) ++ [Done []] = (significant toks src).*2 ∧
    Forall (in_source src) ops ∧ lines_broken src false ops = true.
Proof.
  intros Hf Hl Hv Hcl Hcols. destruct (lex_clean _ _ Hf Hl) as (its & Hp & Et & Hc).
  destruct (emit_valid _ _ _ _ Hf Hp Et Hc Hv Hcl Hcols) as (ops & He & Ht & Hs & Hb).
  exists ops. split_and!; [done| |done..]. rewrite Et, significant_stream by (done || by apply its_total).
  rewrite fmap_app, Ht, <- !list_fmap_compose. done.
Qed.

(** ** Formatting *)

(** Two texts have the same tokens, but for white space and the [\r] of a
    [\r\n]. *)
Definition same_text (a b : list byte) : Prop := ∃ ta da tb db,
  lex (lf a) = Done (ta, da) ∧ lex (lf b) = Done (tb, db) ∧
  significant ta (lf a) = significant tb (lf b).


(** A file that lexes without diagnostics has no [Error] token. *)
Lemma clean_no_error src its : parses src its → Forall (λ it, it_code it = None) its →
  Error ∉ (significant (stream src its) src).*1.
Proof.
  intros Hp Hc H. apply list_elem_of_fmap in H as ([k x] & Hk & Hin). simpl in Hk. subst k.
  unfold significant in Hin. apply list_elem_of_In, filter_In in Hin as [Hin%list_elem_of_In _].
  apply elem_of_lookup_imap in Hin as (i & k & [= <- _] & Hk). unfold stream in Hk. cbn [kinds] in Hk.
  apply lookup_app_Some in Hk as [Hk|[_ Hk]]; [|by destruct (i - _) as [|[]] in Hk; simplify_eq/=].
  apply list_lookup_fmap_Some in Hk as (it & He & Hi). destruct (parses_facts _ _ Hp) as [Hok _].
  rewrite Forall_lookup in Hok, Hc. destruct (Hok i it Hi) as (_ & _ & [Hx _] & _).
  symmetry in He. apply Hx in He as [c Hcode]. by rewrite (Hc i it Hi) in Hcode.
Qed.

(** A text past the lexer's limit is one [Error] token. *)
Lemma too_large_tokens out toks ds : ¬ fits out → lex out = Done (toks, ds) →
  Error ∈ (significant toks out).*1.
Proof.
  unfold fits, lex. intros Hf. rewrite (proj2 (Z.ltb_lt _ _)) by lia. intros [= <- _].
  unfold significant. simpl. left.
Qed.

(** [format_source] from its steps on. *)
Lemma format_source_steps `{Front} src toks ops out : existsb (isb carriage) (lf src) = false →
  parse_diags src = 0 → lex (lf src) = Done (toks, []) →
  emit_tree (lf src) toks (parse_tree (lf src)) = Done ops → render ops (lf src) = Done out →
  existsb (isb carriage) out = false →
  ∃ t ds r, lex out = Done (t, ds) ∧ (r = true ↔ significant toks (lf src) = significant t out) ∧
    format_source src = Done (if r : bool
      then MkFormatted out Formatted_ (negb (bool_decide (out = lf src)) || existsb (isb carriage) src) 0
      else MkFormatted (lf src) Bailed false 0).
Proof.
  intros Hcr Hd Hl He Hr Hout.
  assert (normalise_newlines src = (existsb (isb carriage) src, lf src)) as En
    by (unfold lf, normalise_newlines; by destruct (existsb _ src)).
  unfold format_source. rewrite Hd, bool_decide_eq_false_2 by lia.
  rewrite En, Hl. cbn [mbind res_bind]. rewrite He. cbn [mbind res_bind]. rewrite Hr. cbn [mbind res_bind].
  destruct (same_tokens_spec (lf src) out) as (ta & da & tb & db & r & Ha & Hb & -> & Hiff).
  assert (lf (lf src) = lf src) as Els by (unfold lf at 1; by rewrite normalise_no_carriage).
  assert (lf out = out) as Elo by (unfold lf; by rewrite normalise_no_carriage).
  rewrite Els in Ha, Hiff. rewrite Elo in Hb, Hiff. rewrite Hl in Ha. injection Ha as <- <-.
  exists tb, db, r. split_and!; [done..|]. by destruct r.
Qed.

(** C7: [format_source] never declines, but for an output over the lexer's size
    limit. For a file of at most that size, whose carriage returns all end
    lines, that the parser reads without diagnostics and that lexes without any,
    with a tree that [validate] accepts, whose nodes end on significant tokens
    and whose columns are 32-bit numbers: what the renderer prints of the
    emitter's operations lexes to the same tokens, so the status is [Formatted],
    unless the output is over [MAX_SOURCE_LEN] (2^30) bytes, when and only when
    it is [Bailed]. The file has no number, dot and number in a row, and the
    operations are fewer than 2^24, so that the widths add up in 64 bits. *)
Theorem format_never_bails `{Front} src toks ops : fits (lf src) →
  existsb (isb carriage) (lf src) = false → parse_diags src = 0 → lex (lf src) = Done (toks, []) →
  validate (parse_tree (lf src)) toks (lf src) = Done (Ok ()) →
  tree_closed toks (parse_tree (lf src)) = true → columns_u32 (parse_tree (lf src)) = true →
  emit_tree (lf src) toks (parse_tree (lf src)) = Done ops → (Z.of_nat (length ops) < 2 ^ 24)%Z →
  number_split (texts (lf src) ops) = false →
  ∃ out, render ops (lf src) = Done out ∧ format_source src =
    Done (if (Z.of_nat (length out) <=? MAX_SOURCE_LEN)%Z
      then MkFormatted out Formatted_ (negb (bool_decide (out = lf src)) || existsb (isb carriage) src) 0
      else MkFormatted (lf src) Bailed false 0).
Proof.
  intros Hf Hcr Hd Hl Hv Hcl Hcols He Hlen Hn.
  destruct (lex_clean _ _ Hf Hl) as (its & Hp & Et & Hc).
  destruct (emit_valid _ _ _ _ Hf Hp Et Hc Hv Hcl Hcols) as (ops' & He' & Ht & Hs & Hb).
  rewrite He in He'. injection He' as <-.
  pose proof (emit_layable _ _ _ Hf Hp Hc Ht Hs Hb Hlen Hn) as Hlay.
  destruct (render_laid (lf src) ops (la_printable _ _ _ Hlay) Hb) as (out & Hr & Hlaid).
  destruct (render_keeps_tokens _ _ _ Hlay) as (out' & Hr' & Hkeep).
  rewrite Hr in Hr'. injection Hr' as <-. exists (end_line out). split; [done|].
  assert (existsb (isb carriage) (end_line out) = false) as Hout.
  { eapply end_line_no_carriage, laid_no_carriage; [done|]. by apply texts_no_carriage. }
  destruct (format_source_steps src toks ops (end_line out)) as (t & ds & r & Hlo & Hiff & ->); [done..|].
  f_equal. destruct (Z.leb_spec (Z.of_nat (length (end_line out))) MAX_SOURCE_LEN) as [Hfo|Hfo].
  - destruct (Hkeep Hfo) as (t' & ds' & Hlo' & Hsig). rewrite Hlo in Hlo'. injection Hlo' as <- <-.
    replace r with true; [done|]. symmetry. apply Hiff.
    rewrite Hsig, Et, significant_stream by (done || by apply its_total). by rewrite Ht, zip_fst_snd.
  - destruct r; [|done]. destruct (clean_no_error _ _ Hp Hc). rewrite <- Et, (proj1 Hiff eq_refl).
    eapply too_large_tokens; [|done]. unfold fits. lia.
Qed.

(** ** A file *)

(** The test [simple_fn], with a comment, and the parser's tree of it. *)
Definition sample : list byte := bytes_of "fn   f( ) {let  x=1+2 ;} // c".
Definition sample_tree : Tree :=
  MkTree [Kind.File; Kind.FnDecl; Kind.FnSig; Kind.Params; Kind.Block; Kind.LetStmt; Kind.Binding;
          Kind.AddExpr; Kind.Literal; Kind.Literal]
    [0; 0; 3; 3; 6; 8; 9; 12; 12; 14]%Z [21; 18; 3; 3; 12; 9; 2; 3; 1; 1]%Z [10; 9; 2; 1; 6; 5; 1; 3; 1; 1]%Z.
Definition sample_front : Front := {| parse_diags := λ _, 0; parse_tree := λ _, sample_tree |}.
Definition sample_tokens : Tokens :=
  MkTokens [KwFn; Whitespace; Ident; LParen; Whitespace; RParen; Whitespace; LBrace; KwLet; Whitespace;
            Ident; Eq; Int; Plus; Int; Whitespace; Semi; RBrace; Whitespace; LineComment; Eof]
    [0; 2; 5; 6; 7; 8; 9; 10; 11; 14; 16; 17; 18; 19; 20; 21; 22; 23; 24; 25; 29; 29]%Z.

Example sample_lexed : lex sample = Done (sample_tokens, []).
Proof. vm_compute. reflexivity. Qed.

Lemma emit_lossless_witness : ∃ ops, emit_tree sample sample_tokens sample_tree = Done ops ∧
  (Done <$> texts sample ops) ++ [Done []] = (significant sample_tokens sample).*2 ∧
  Forall (in_source sample) ops ∧ lines_broken sample false ops = true.
Proof.
  apply emit_lossless; [vm_compute; discriminate|exact sample_lexed|vm_compute; reflexivity..].
Defined.


Definition sample_ops : list Op :=
  match emit_tree sample sample_tokens sample_tree with Done ops => ops | _ => [] end.

Lemma format_never_bails_witness : ∃ out, render sample_ops (lf sample) = Done out ∧
  @format_source sample_front sample =
    Done (if (Z.of_nat (length out) <=? MAX_SOURCE_LEN)%Z
      then MkFormatted out Formatted_
        (negb (bool_decide (out = lf sample)) || existsb (isb carriage) sample) 0
      else MkFormatted (lf sample) Bailed false 0).
Proof.
  apply (@format_never_bails sample_front sample sample_tokens sample_ops);
    first [exact sample_lexed | vm_compute; reflexivity | vm_compute; discriminate].
Defined.

(** C21: [same_tokens] always answers, and answers whether the two texts have
    the same tokens with the same texts, but for white space and the [\\r] of a
    [\\r\\n]. *)
Theorem same_tokens_exact a b : ∃ r, same_tokens a b = Done r ∧ (r = true ↔ same_text a b).
Proof.
  destruct (same_tokens_spec a b) as (ta & da & tb & db & r & Ha & Hb & Hr & Hiff).
  exists r. split; [done|]. rewrite Hiff. split.
  - intros E. by exists ta, da, tb, db.
  - intros (ta' & da' & tb' & db' & Ha' & Hb' & E). rewrite Ha in Ha'. rewrite Hb in Hb'.
    by injection Ha' as <- <-; injection Hb' as <- <-.
Qed.

(** ** What modelling showed *)

(** A file that only a lone carriage return keeps from being its own canonical
    form is never reported as formatted, though there is nothing to edit. *)
Definition lone_return : list byte := bytes_of "// a" ++ carriage :: bytes_of "b" ++ [newline].
Definition empty_file (n : Z) : Tree := MkTree [Kind.File] [0%Z] [n] [1%Z].
Example lone_return_changed :
  @check_source {| parse_diags := λ _, 0; parse_tree := λ _, empty_file 3 |} lone_return =
  Done (MkCheck false Formatted_ []).
Proof. vm_compute. reflexivity. Qed.

(** Two carriage returns before a newline: the output still has one, and
    formatting it again changes it. *)
Definition two_returns : list byte := bytes_of "// a" ++ [carriage; carriage; newline].
Example two_returns_twice :
  let front := {| parse_diags := λ _, 0; parse_tree := λ _, empty_file 3 |} in
  ∃ out, @format_source front two_returns = Done (MkFormatted out Formatted_ true 0) ∧
    ∃ out', @format_source front out = Done (MkFormatted out' Formatted_ true 0) ∧ out' ≠ out.
Proof.
  exists (bytes_of "// a" ++ [carriage; newline]). split; [vm_compute; reflexivity|].
  exists (bytes_of "// a" ++ [newline]). split; [vm_compute; reflexivity|]. discriminate.
Qed.

(** The guard against [1 . 0] looks at a second byte that a token [.] does not
    have: the three tokens come out as one. *)
Definition three_tokens : list Op := [Src 0 1; Src 2 3; Src 4 5].
Example number_dot_glued : render three_tokens (bytes_of "1 . 0") = Done (bytes_of "1.0" ++ [newline]).
Proof. vm_compute. reflexivity. Qed.
