(* ===== verification/SynBuilder.v ===== *)
(** * The tree builder

    Models [TreeBuilder] of [src/crates/fors-syntax/src/tree.rs].  Creation
    indices are [u32]s in [Z], cut where the code casts and wrapped where it adds
    one, as in a release build; the stack of open nodes has its top at the head.
    Writing a column out of its bounds panics. *)

From S2P Require Import Prelude Token Lexer SynTree.
Local Open Scope Z_scope.

Definition NONE : Z := 2 ^ 32 - 1.

Record TreeBuilder : Type := MkBuilder {
  b_kinds : list Kind.NodeKind; b_first_token : list Z; b_end_token : list Z; b_end_idx : list Z;
  b_start_of : list Z; b_wrapper : list Z; b_stack : list Z; b_cur_token : Z; b_last_closed : Z }.

(** [xs[i] = x] *)
Definition put {A} (xs : list A) (i : nat) (x : A) : res (list A) :=
  if bool_decide (i < length xs)%nat then Done (<[i := x]> xs) else Panic.

Module Builder.
Definition new : TreeBuilder := MkBuilder [] [] [] [] [] [] [] 0 NONE.

Definition cur_token (b : TreeBuilder) : Z := b_cur_token b.

Definition set_last_closed (i : Z) (b : TreeBuilder) : TreeBuilder :=
  MkBuilder (b_kinds b) (b_first_token b) (b_end_token b) (b_end_idx b) (b_start_of b) (b_wrapper b)
    (b_stack b) (b_cur_token b) i.

Definition push (kind : Kind.NodeKind) (first start_of : Z) (b : TreeBuilder) : TreeBuilder * Z :=
  let idx := wrap 32 (Z.of_nat (length (b_kinds b))) in
  (MkBuilder (b_kinds b ++ [kind]) (b_first_token b ++ [first]) (b_end_token b ++ [first])
     (b_end_idx b ++ [wrap 32 (idx + 1)])
     (b_start_of b ++ [if start_of =? NONE then idx else start_of]) (b_wrapper b ++ [NONE])
     (idx :: b_stack b) (b_cur_token b) (b_last_closed b), idx).

Definition start_node (kind : Kind.NodeKind) (b : TreeBuilder) : TreeBuilder :=
  set_last_closed NONE (push kind (b_cur_token b) NONE b).1.

Definition finish_node (b : TreeBuilder) : res TreeBuilder :=
  match b_stack b with
  | [] => Done b
  | idx :: stack =>
      end_token ← put (b_end_token b) (Z.to_nat idx) (b_cur_token b);
      end_idx ← put (b_end_idx b) (Z.to_nat idx) (wrap 32 (Z.of_nat (length (b_kinds b))));
      Done (MkBuilder (b_kinds b) (b_first_token b) end_token end_idx (b_start_of b) (b_wrapper b)
              stack (b_cur_token b) idx)
  end.

Definition wrap_last_sibling (kind : Kind.NodeKind) (b : TreeBuilder) : res TreeBuilder :=
  let inner := b_last_closed b in
  if inner =? NONE then Done (start_node kind b)
  else
    first ← get_ix (b_first_token b !! Z.to_nat inner);
    start_of ← get_ix (b_start_of b !! Z.to_nat inner);
    let '(b, idx) := push kind first start_of b in
    wrapper ← put (b_wrapper b) (Z.to_nat inner) idx;
    Done (MkBuilder (b_kinds b) (b_first_token b) (b_end_token b) (b_end_idx b) (b_start_of b) wrapper
            (b_stack b) (b_cur_token b) NONE).

Definition set_kind (idx : Z) (kind : Kind.NodeKind) (b : TreeBuilder) : res TreeBuilder :=
  kinds ← put (b_kinds b) (Z.to_nat idx) kind;
  Done (MkBuilder kinds (b_first_token b) (b_end_token b) (b_end_idx b) (b_start_of b) (b_wrapper b)
          (b_stack b) (b_cur_token b) (b_last_closed b)).

Definition set_current_kind (kind : Kind.NodeKind) (b : TreeBuilder) : res TreeBuilder :=
  match b_stack b with idx :: _ => set_kind idx kind b | [] => Done b end.

Definition set_last_kind (kind : Kind.NodeKind) (b : TreeBuilder) : res TreeBuilder :=
  if b_last_closed b =? NONE then Done b else set_kind (b_last_closed b) kind b.

Definition bump_raw (n : Z) (b : TreeBuilder) : res TreeBuilder :=
  cur ← add32 (b_cur_token b) n;
  Done (MkBuilder (b_kinds b) (b_first_token b) (b_end_token b) (b_end_idx b) (b_start_of b)
          (b_wrapper b) (b_stack b) cur (b_last_closed b)).

Definition empty_node (kind : Kind.NodeKind) (b : TreeBuilder) : res TreeBuilder :=
  finish_node (start_node kind b).

(** ** Finishing *)

(** The [while] of [finish] that closes what is open. *)
Fixpoint finish_all (fuel : nat) (b : TreeBuilder) : res TreeBuilder :=
  match b_stack b, fuel with
  | [], _ => Done b
  | _ :: _, O => OutOfFuel
  | _ :: _, S fuel => b ← finish_node b; finish_all fuel b
  end.

(** The number of nodes from [j] out to its outermost wrapper. *)
Fixpoint chain_length (fuel : nat) (b : TreeBuilder) (j chain : nat) : res nat :=
  w ← get_ix (b_wrapper b !! j);
  if w =? NONE then Done chain
  else match fuel with
       | O => OutOfFuel
       | S fuel => chain_length fuel b (Z.to_nat w) (S chain)
       end.

(** Node [j] of the builder, written at [pos] of the tree. *)
Definition write_node (b : TreeBuilder) (j pos : nat) (tree : Tree) : res Tree :=
  kind ← get_ix (b_kinds b !! j);
  kinds ← put (SynTree.kinds tree) pos kind;
  first ← get_ix (b_first_token b !! j);
  firsts ← put (first_token tree) pos first;
  stop ← get_ix (b_end_token b !! j);
  n ← sub32 stop first;
  lens ← put (token_len tree) pos n;
  end_idx ← get_ix (b_end_idx b !! j);
  start ← get_ix (b_start_of b !! j);
  m ← sub32 end_idx start;
  subs ← put (subtree_len tree) pos m;
  Done (MkTree kinds firsts lens subs).

(** The inner [loop]: the plain node at [pos - 1] and its wrappers before it. *)
Fixpoint write_chain (fuel : nat) (b : TreeBuilder) (j pos : nat) (tree : Tree) : res Tree :=
  match pos with
  | O => Panic
  | S pos =>
      tree ← write_node b j pos tree;
      w ← get_ix (b_wrapper b !! j);
      if w =? NONE then Done tree
      else match fuel with
           | O => OutOfFuel
           | S fuel => write_chain fuel b (Z.to_nat w) pos tree
           end
  end.

(** Nodes [i], .., [i + rest - 1] in creation order, [out] written before: the
    number written after, and the tree. *)
Fixpoint write_nodes (rest : nat) (b : TreeBuilder) (i out : nat) (tree : Tree) : res (nat * Tree) :=
  match rest with
  | O => Done (out, tree)
  | S rest =>
      start ← get_ix (b_start_of b !! i);
      if negb (bool_decide (Z.to_nat start = i)) then write_nodes rest b (S i) out tree
      else
        let n := length (b_kinds b) in
        chain ← chain_length n b i 1;
        tree ← write_chain n b i (out + chain) tree;
        write_nodes rest b (S i) (out + chain) tree
  end.

Definition finish (b : TreeBuilder) : res Tree :=
  b ← finish_all (length (b_stack b)) b;
  let n := length (b_kinds b) in
  '(_, tree) ← write_nodes n b 0 0
    (MkTree (replicate n Kind.Error) (replicate n 0) (replicate n 0) (replicate n 0));
  Done tree.
End Builder.

(** [f(a)] as the parser builds it: [a] is wrapped when [(] is seen. *)
Example wrapped_call :
  (b ← Builder.bump_raw 1 (Builder.start_node Kind.NameExpr (Builder.start_node Kind.File Builder.new));
   b ← Builder.finish_node b;
   b ← Builder.wrap_last_sibling Kind.CallExpr b;
   b ← Builder.bump_raw 1 b;
   b ← Builder.bump_raw 1 (Builder.start_node Kind.NameExpr b);
   b ← Builder.finish_node b;
   b ← Builder.bump_raw 1 b;
   Builder.finish b) =
  Done (MkTree [Kind.File; Kind.CallExpr; Kind.NameExpr; Kind.NameExpr] [0; 0; 0; 2] [4; 4; 1; 1] [4; 3; 1; 1]).
Proof. vm_compute. reflexivity. Qed.

(** * The tree builder builds trees

    What a [TreeBuilder] means: a stack of open nodes, each with the finished
    trees under it.  The operations of the builder are those of this forest, and
    [finish] writes it in pre-order. *)

Local Open Scope nat_scope.

(** ** Trees *)

#[warnings="-register-all"]
Inductive rose : Type := Rose (k : Kind.NodeKind) (first stop : Z) (cs : list rose).
Definition rose_kind (t : rose) : Kind.NodeKind := let 'Rose k _ _ _ := t in k.
Definition rose_first (t : rose) : Z := let 'Rose _ f _ _ := t in f.
Definition rose_stop (t : rose) : Z := let 'Rose _ _ e _ := t in e.
Definition rose_children (t : rose) : list rose := let 'Rose _ _ _ cs := t in cs.

Section rose_ind.
Context (P : rose → Prop) (H : ∀ k f e cs, Forall P cs → P (Rose k f e cs)).
Fixpoint rose_ind' (t : rose) : P t :=
  let 'Rose k f e cs := t in
  H k f e cs ((fix go (l : list rose) : Forall P l :=
     match l with [] => Forall_nil_2 _ | c :: l => Forall_cons_2 _ _ _ (rose_ind' c) (go l) end) cs).
End rose_ind.

Fixpoint size (t : rose) : nat := let 'Rose _ _ _ cs := t in S (sum_list_with size cs).
Definition sizes (ts : list rose) : nat := sum_list_with size ts.

(** A row of the four columns of a [Tree]. *)
Abbreviation trow := (Kind.NodeKind * Z * Z * Z)%type.
Definition tree_of (rows : list trow) : Tree :=
  MkTree (rows.*1.*1.*1) (rows.*1.*1.*2) (rows.*1.*2) (rows.*2).

(** The pre-order of a tree. *)
Fixpoint pre (t : rose) : list trow :=
  let 'Rose k f e cs := t in (k, f, (e - f)%Z, Z.of_nat (size t)) :: concat (pre <$> cs).
Definition pres (ts : list rose) : list trow := concat (pre <$> ts).

Lemma length_pre t : length (pre t) = size t.
Proof.
  induction t as [k f e cs IH] using rose_ind'. simpl. f_equal.
  induction IH as [|c cs E _ IH']; [done|]. rewrite !fmap_cons. simpl.
  rewrite length_app. congruence.
Qed.

Lemma length_pres ts : length (pres ts) = sizes ts.
Proof.
  unfold pres, sizes. induction ts as [|t ts IH]; csimpl; [done|]. by rewrite length_app, length_pre, IH.
Qed.

Lemma pres_app ts ts' : pres (ts ++ ts') = pres ts ++ pres ts'.
Proof. unfold pres. by rewrite fmap_app, concat_app. Qed.
Lemma sizes_app ts ts' : sizes (ts ++ ts') = sizes ts + sizes ts'.
Proof. apply sum_list_with_app. Qed.

(** ** Forests *)

(** An open node: its kind, its first token, the finished trees under it. *)
Record frame : Type := MkOpen { of_kind : Kind.NodeKind; of_first : Z; of_done : list rose }.

(** The open nodes, the innermost at the head; the finished trees under none;
    the raw token the builder is at; whether the last finished tree may still
    be wrapped. *)
Record forest : Type := MkForest {
  fo_frames : list frame; fo_roots : list rose; fo_cur : Z; fo_wrap : bool }.

Definition add_tree (t : rose) (F : forest) : forest :=
  match fo_frames F with
  | [] => MkForest [] (fo_roots F ++ [t]) (fo_cur F) true
  | fr :: frs =>
      MkForest (MkOpen (of_kind fr) (of_first fr) (of_done fr ++ [t]) :: frs) (fo_roots F) (fo_cur F) true
  end.

Definition open_node (k : Kind.NodeKind) (F : forest) : forest :=
  MkForest (MkOpen k (fo_cur F) [] :: fo_frames F) (fo_roots F) (fo_cur F) false.

Definition close_node (F : forest) : forest :=
  match fo_frames F with
  | [] => F
  | fr :: frs =>
      add_tree (Rose (of_kind fr) (of_first fr) (fo_cur F) (of_done fr))
        (MkForest frs (fo_roots F) (fo_cur F) false)
  end.

(** The last finished tree, and the forest without it. *)
Definition last_tree (F : forest) : option (rose * forest) :=
  if fo_wrap F then
    match fo_frames F with
    | [] =>
        match last (fo_roots F) with
        | Some t => Some (t, MkForest [] (removelast (fo_roots F)) (fo_cur F) true)
        | None => None
        end
    | fr :: frs =>
        match last (of_done fr) with
        | Some t => Some (t, MkForest (MkOpen (of_kind fr) (of_first fr) (removelast (of_done fr)) :: frs)
                               (fo_roots F) (fo_cur F) true)
        | None => None
        end
    end
  else None.

Definition wrap_node (k : Kind.NodeKind) (F : forest) : forest :=
  match last_tree F with
  | Some (t, F) => MkForest (MkOpen k (rose_first t) [t] :: fo_frames F) (fo_roots F) (fo_cur F) false
  | None => open_node k F
  end.

Definition rename_node (k : Kind.NodeKind) (F : forest) : forest :=
  match fo_frames F with
  | [] => F
  | fr :: frs => MkForest (MkOpen k (of_first fr) (of_done fr) :: frs) (fo_roots F) (fo_cur F) (fo_wrap F)
  end.

Definition rename_last (k : Kind.NodeKind) (F : forest) : forest :=
  match last_tree F with
  | Some (Rose _ f e cs, F) => add_tree (Rose k f e cs) F
  | None => F
  end.

Definition advance (n : Z) (F : forest) : forest :=
  MkForest (fo_frames F) (fo_roots F) (fo_cur F + n)%Z (fo_wrap F).

(** ** Representation *)

Section repr.
Context (b : TreeBuilder).

(** The columns of node [j], its wrapper apart. *)
Record node_at (j : nat) (k : Kind.NodeKind) (f e : Z) (s hi : nat) : Prop := {
  na_kind : b_kinds b !! j = Some k;
  na_first : b_first_token b !! j = Some f;
  na_end : b_end_token b !! j = Some e;
  na_start : b_start_of b !! j = Some (Z.of_nat s);
  na_idx : b_end_idx b !! j = Some (Z.of_nat hi) }.

(** A finished tree, created from [lo] to [hi], its outermost node [j]: a plain
    node comes before the nodes under it, a wrapper after its first. *)
Inductive enc : nat → nat → nat → rose → Prop :=
  | enc_plain lo hi k f e cs : node_at lo k f e lo hi → encs (S lo) hi cs →
      enc lo hi lo (Rose k f e cs)
  | enc_wrap lo w hi j k f e c cs : enc lo w j c → b_wrapper b !! j = Some (Z.of_nat w) →
      node_at w k f e lo hi → encs (S w) hi cs → enc lo hi w (Rose k f e (c :: cs))
with encs : nat → nat → list rose → Prop :=
  | encs_nil lo : encs lo lo []
  | encs_snoc lo mid hi j ts t : encs lo mid ts → enc mid hi j t → b_wrapper b !! j = Some NONE →
      encs lo hi (ts ++ [t]).

(** An open node [j]. *)
Record open_at (j : nat) (k : Kind.NodeKind) (f : Z) (s : nat) : Prop := {
  oa_kind : b_kinds b !! j = Some k;
  oa_first : b_first_token b !! j = Some f;
  oa_start : b_start_of b !! j = Some (Z.of_nat s);
  oa_wrapper : b_wrapper b !! j = Some NONE }.

(** What an open node starts with: itself, or the tree it wraps. *)
Inductive heads : nat → nat → list rose → Prop :=
  | heads_plain j : heads j j []
  | heads_wrap s w j c : enc s w j c → b_wrapper b !! j = Some (Z.of_nat w) → heads s w [c].

(** The trees from [lo] to [hi], and the last one, if it may be wrapped. *)
Definition done_trees (lo hi : nat) (ts : list rose) (last_closed : Z) (wrap : bool) : Prop :=
  encs lo hi ts ∧
  if wrap then ∃ ts0 t mid j, ts = ts0 ++ [t] ∧ encs lo mid ts0 ∧ enc mid hi j t ∧
    b_wrapper b !! j = Some NONE ∧ last_closed = Z.of_nat j
  else last_closed = NONE.

(** The open nodes, in the columns below [hi]. *)
Inductive opens : nat → list Z → list frame → list rose → Prop :=
  | opens_nil hi roots : encs 0 hi roots → opens hi [] [] roots
  | opens_cons hi j s stack k f hd ts frs roots : heads s j hd → open_at j k f s → encs (S j) hi ts → opens s stack frs roots →
      opens hi (Z.of_nat j :: stack) (MkOpen k f (hd ++ ts) :: frs) roots.

Inductive tops (n : nat) : list Z → list frame → list rose → Z → bool → Prop :=
  | tops_nil roots lc w : done_trees 0 n roots lc w → tops n [] [] roots lc w
  | tops_cons j s stack k f hd ts frs roots lc w : heads s j hd → open_at j k f s →
      done_trees (S j) n ts lc w → opens s stack frs roots →
      tops n (Z.of_nat j :: stack) (MkOpen k f (hd ++ ts) :: frs) roots lc w.

Record columns_ok : Prop := {
  co_first : length (b_first_token b) = length (b_kinds b);
  co_end : length (b_end_token b) = length (b_kinds b);
  co_idx : length (b_end_idx b) = length (b_kinds b);
  co_start : length (b_start_of b) = length (b_kinds b);
  co_wrapper : length (b_wrapper b) = length (b_kinds b) }.

Record repr (F : forest) : Prop := {
  re_cols : columns_ok;
  re_small : (Z.of_nat (length (b_kinds b)) < NONE)%Z;
  re_cur : b_cur_token b = fo_cur F;
  re_tops : tops (length (b_kinds b)) (b_stack b) (fo_frames F) (fo_roots F) (b_last_closed b) (fo_wrap F) }.
End repr.

Scheme enc_mind := Induction for enc Sort Prop
  with encs_mind := Induction for encs Sort Prop.
Combined Scheme enc_encs_ind from enc_mind, encs_mind.

(** ** Regions *)

Lemma enc_range b : (∀ lo hi j t, enc b lo hi j t → lo ≤ j < hi) ∧ (∀ lo hi ts, encs b lo hi ts → lo ≤ hi).
Proof. apply enc_encs_ind; intros; lia. Qed.
Lemma enc_lo b lo hi j t : enc b lo hi j t → lo ≤ j < hi.
Proof. apply enc_range. Qed.
Lemma encs_le b lo hi ts : encs b lo hi ts → lo ≤ hi.
Proof. apply enc_range. Qed.

(** The columns of two builders agree on [lo .. hi]. *)
Definition same_node (b b' : TreeBuilder) (i : nat) : Prop :=
  b_kinds b' !! i = b_kinds b !! i ∧ b_first_token b' !! i = b_first_token b !! i ∧
  b_end_token b' !! i = b_end_token b !! i ∧ b_end_idx b' !! i = b_end_idx b !! i ∧
  b_start_of b' !! i = b_start_of b !! i.
Definition same_wrapper (b b' : TreeBuilder) (i : nat) : Prop := b_wrapper b' !! i = b_wrapper b !! i.
Definition agree (b b' : TreeBuilder) (lo hi : nat) : Prop :=
  ∀ i, lo ≤ i < hi → same_node b b' i ∧ same_wrapper b b' i.

Lemma agree_weaken b b' lo hi lo' hi' : lo ≤ lo' → hi' ≤ hi → agree b b' lo hi → agree b b' lo' hi'.
Proof. intros ? ? H i Hi. apply H. lia. Qed.

Lemma node_same b b' j k f e s hi : same_node b b' j → node_at b j k f e s hi → node_at b' j k f e s hi.
Proof. intros (E1 & E2 & E3 & E4 & E5) []. split; congruence. Qed.

Lemma enc_agree_mut b b' :
  (∀ lo hi j t, enc b lo hi j t → (∀ i, lo ≤ i < hi → same_node b b' i) →
     (∀ i, lo ≤ i < hi → i ≠ j → same_wrapper b b' i) → enc b' lo hi j t) ∧
  (∀ lo hi ts, encs b lo hi ts → agree b b' lo hi → encs b' lo hi ts).
Proof.
  apply enc_encs_ind.
  - intros lo hi k f e cs Hn Hcs IH Hs Hw. pose proof (encs_le _ _ _ _ Hcs).
    constructor; [eapply node_same; [|done]; apply Hs; lia|].
    apply IH. intros i Hi. split; [apply Hs|apply Hw]; lia.
  - intros lo w hi j k f e c cs Hc IHc Ew Hn Hcs IH Hs Hw.
    pose proof (encs_le _ _ _ _ Hcs). pose proof (enc_lo _ _ _ _ _ Hc).
    apply enc_wrap with j; [|rewrite <- Ew; apply Hw; lia|eapply node_same; [|done]; apply Hs; lia|].
    + apply IHc; intros; [apply Hs|apply Hw]; lia.
    + apply IH. intros i Hi. split; [apply Hs|apply Hw]; lia.
  - intros lo _. constructor.
  - intros lo mid hi j ts t Hts IH Ht IHt Ej Ha.
    pose proof (encs_le _ _ _ _ Hts). pose proof (enc_lo _ _ _ _ _ Ht).
    apply encs_snoc with mid j.
    + apply IH. intros i Hi. apply Ha. lia.
    + apply IHt; intros; apply Ha; lia.
    + rewrite <- Ej. apply Ha. lia.
Qed.

Lemma enc_agree b b' lo hi j t : agree b b' lo hi → enc b lo hi j t → enc b' lo hi j t.
Proof. intros Ha He. apply (enc_agree_mut b b'); [done|..]; intros; by apply Ha. Qed.
Lemma encs_agree b b' lo hi ts : agree b b' lo hi → encs b lo hi ts → encs b' lo hi ts.
Proof. intros Ha He. by apply (enc_agree_mut b b'). Qed.

Lemma heads_le b s j hd : heads b s j hd → s ≤ j.
Proof. intros [?|? ? ? ? He]; [done|]. apply enc_lo in He. lia. Qed.

Lemma heads_agree b b' s j hd : agree b b' s j → heads b s j hd → heads b' s j hd.
Proof.
  intros Ha Hh. revert Ha. destruct Hh as [i|s w i c He Ew]; intros Ha; [constructor|].
  pose proof (enc_lo _ _ _ _ _ He).
  apply heads_wrap with i; [by apply (enc_agree b)|]. rewrite <- Ew. apply Ha. lia.
Qed.

Lemma open_same b b' j k f s : same_node b b' j → same_wrapper b b' j → open_at b j k f s → open_at b' j k f s.
Proof. intros (E1 & E2 & E3 & E4 & E5) E6 []. unfold same_wrapper in E6. split; congruence. Qed.

Lemma opens_agree b b' hi stack frs roots : agree b b' 0 hi →
  opens b hi stack frs roots → opens b' hi stack frs roots.
Proof.
  intros Ha Ho. induction Ho as [hi roots Hr|hi j s stack k f hd ts frs roots Hh Hj Hts Ho IH].
  - constructor. by eapply encs_agree.
  - pose proof (heads_le _ _ _ _ Hh). pose proof (encs_le _ _ _ _ Hts).
    apply opens_cons with s; [|destruct (Ha j ltac:(lia)); by eapply open_same| |].
    + eapply heads_agree; [|done]. apply (agree_weaken _ _ 0 hi); (done || lia).
    + eapply encs_agree; [|done]. apply (agree_weaken _ _ 0 hi); (done || lia).
    + apply IH. apply (agree_weaken _ _ 0 hi); (done || lia).
Qed.

Lemma tops_opens b n stack frs roots lc w : tops b n stack frs roots lc w → opens b n stack frs roots.
Proof.
  intros [roots' lc' w' [? _]|j s st k f hd ts frs' roots' lc' w' ? ? [? _] ?]; [by constructor|].
  by apply opens_cons with s.
Qed.

Lemma opens_tops b n stack frs roots : opens b n stack frs roots → tops b n stack frs roots NONE false.
Proof. intros []; [by apply tops_nil; split|]. econstructor; try done. Qed.

(** ** The operations *)

(** A builder with only other stack, cursor and last closed node. *)
Lemma agree_refl b b' : b_kinds b' = b_kinds b → b_first_token b' = b_first_token b →
  b_end_token b' = b_end_token b → b_end_idx b' = b_end_idx b → b_start_of b' = b_start_of b →
  b_wrapper b' = b_wrapper b → ∀ lo hi, agree b b' lo hi.
Proof. intros E1 E2 E3 E4 E5 E6 lo hi i _. unfold same_node, same_wrapper. split_and!; congruence. Qed.

Lemma done_trees_none b lo hi ts : encs b lo hi ts → done_trees b lo hi ts NONE false.
Proof. by split. Qed.

Lemma done_trees_agree b b' lo hi ts lc w : agree b b' lo hi → done_trees b lo hi ts lc w →
  done_trees b' lo hi ts lc w.
Proof.
  intros Ha [Hts Hl]. split; [by apply (encs_agree b)|]. destruct w; [|done].
  destruct Hl as (ts0 & t & mid & j & -> & Hts0 & Ht & Ew & ->).
  pose proof (encs_le _ _ _ _ Hts0). pose proof (enc_lo _ _ _ _ _ Ht).
  exists ts0, t, mid, j. split_and!; try done.
  - apply (encs_agree b); [|done]. apply (agree_weaken _ _ lo hi); (done || lia).
  - apply (enc_agree b); [|done]. apply (agree_weaken _ _ lo hi); (done || lia).
  - rewrite <- Ew. apply Ha. lia.
Qed.

(** Adding a node at the end. *)
Definition appended (b b' : TreeBuilder) (k : Kind.NodeKind) (f s : Z) : Prop :=
  b_kinds b' = b_kinds b ++ [k] ∧ b_first_token b' = b_first_token b ++ [f] ∧
  b_end_token b' = b_end_token b ++ [f] ∧
  (∃ x, b_end_idx b' = b_end_idx b ++ [x]) ∧ b_start_of b' = b_start_of b ++ [s] ∧
  b_wrapper b' = b_wrapper b ++ [NONE].

Lemma appended_agree b b' k f s n : columns_ok b → appended b b' k f s → n = length (b_kinds b) →
  columns_ok b' ∧ agree b b' 0 n ∧ b_kinds b' !! n = Some k ∧ b_first_token b' !! n = Some f ∧
  b_start_of b' !! n = Some s ∧ b_wrapper b' !! n = Some NONE.
Proof.
  intros [] (E1 & E2 & E3 & (x & E4) & E5 & E6) ->. rewrite E1, E2, E5, E6.
  split_and!; try (apply list_lookup_middle; lia).
  - split; rewrite ?E1, ?E2, ?E3, ?E4, ?E5, ?E6, !length_app; simpl; lia.
  - intros i Hi. unfold same_node, same_wrapper. rewrite E1, E2, E3, E4, E5, E6.
    rewrite !lookup_app_l by lia. done.
Qed.

Lemma push_appended k f s b : (Z.of_nat (length (b_kinds b)) < NONE)%Z →
  let '(b', idx) := Builder.push k f s b in
  idx = Z.of_nat (length (b_kinds b)) ∧
  appended b b' k f (if (s =? NONE)%Z then Z.of_nat (length (b_kinds b)) else s) ∧
  b_stack b' = Z.of_nat (length (b_kinds b)) :: b_stack b ∧ b_cur_token b' = b_cur_token b.
Proof.
  intros Hs. unfold Builder.push, NONE in *. simpl.
  assert (wrap 32 (Z.of_nat (length (b_kinds b))) = Z.of_nat (length (b_kinds b))) as ->
    by (unfold wrap; apply Z.mod_small; lia).
  split_and!; try done. unfold appended. simpl. split_and!; try done. by eexists.
Qed.

Definition fits_node (b : TreeBuilder) : Prop := (Z.of_nat (length (b_kinds b)) < NONE)%Z.

Lemma start_node_repr k b F : repr b F → fits_node (Builder.start_node k b) →
  repr (Builder.start_node k b) (open_node k F).
Proof.
  intros [Hc Hs Hcur Ht] Hfit. unfold fits_node, Builder.start_node in *.
  pose proof (push_appended k (b_cur_token b) NONE b Hs) as Hp.
  destruct (Builder.push _ _ _ b) as [b' idx]. destruct Hp as (-> & Ha & Est & Ecur).
  simpl in *. destruct (appended_agree _ _ _ _ _ _ Hc Ha eq_refl) as (Hc' & Hag & Ek & Ef & Es & Ew).
  assert (length (b_kinds b') = S (length (b_kinds b))) as En.
  { destruct Ha as (-> & _). rewrite length_app. simpl. lia. }
  split; simpl; [by destruct Hc'; split|done|congruence|].
  rewrite Est. rewrite En. change [] with ([] ++ [] : list rose).
  apply tops_cons with (length (b_kinds b)); [constructor|by split; rewrite ?Hcur in *| |].
  - apply done_trees_none. constructor.
  - eapply opens_agree; [|by eapply tops_opens]. intros i Hi. by apply Hag.
Qed.

(** Builders that differ only at nodes outside a region agree on it. *)
Lemma put_spec {A} (xs : list A) i x : i < length xs → put xs i x = Done (<[i := x]> xs).
Proof. intros H. unfold put. by rewrite bool_decide_eq_true_2. Qed.

Definition with_row (b : TreeBuilder) (j : nat) (k : Kind.NodeKind) (e x w : Z) (stack : list Z) (lc : Z) :
    TreeBuilder :=
  MkBuilder (<[j := k]> (b_kinds b)) (b_first_token b) (<[j := e]> (b_end_token b))
    (<[j := x]> (b_end_idx b)) (b_start_of b) (<[j := w]> (b_wrapper b)) stack (b_cur_token b) lc.

Lemma with_row_agree b j k e x w stack lc lo hi : ¬ lo ≤ j < hi →
  agree b (with_row b j k e x w stack lc) lo hi.
Proof.
  intros Hj i Hi. unfold same_node, same_wrapper, with_row. simpl.
  rewrite !list_lookup_insert_ne by lia. done.
Qed.

Lemma with_row_columns b j k e x w stack lc : columns_ok b → columns_ok (with_row b j k e x w stack lc).
Proof. intros []. split; simpl; rewrite !length_insert; done. Qed.

(** Closing an open node makes a tree of it. *)
Lemma close_enc b b' j s k f hd ts n e : heads b s j hd → encs b (S j) n ts →
  agree b b' s j → agree b b' (S j) n → node_at b' j k f e s n →
  enc b' s n j (Rose k f e (hd ++ ts)).
Proof.
  intros Hh Hts Ha1 Ha2 Hn. pose proof (encs_agree _ _ _ _ _ Ha2 Hts) as Hts'.
  apply (heads_agree _ _ _ _ _ Ha1) in Hh. destruct Hh as [i|s w i c He Ew]; simpl.
  - by constructor.
  - by apply enc_wrap with i.
Qed.

Lemma finish_node_repr b F : repr b F → ∃ b', Builder.finish_node b = Done b' ∧ repr b' (close_node F) ∧
  length (b_kinds b') = length (b_kinds b).
Proof.
  intros Hr. pose proof Hr as [Hc Hs Hcur Ht]. unfold Builder.finish_node.
  inversion Ht as [roots lc w Hd Est Efr|j s stack k f hd ts frs roots lc w Hh Ho [Hts _] Hop Est Efr];
    subst.
  { exists b. split_and!; [done| |done]. unfold close_node. by rewrite <- Efr. }
  pose proof (encs_le _ _ _ _ Hts) as Hj. pose proof (heads_le _ _ _ _ Hh) as Hsj.
  rewrite Nat2Z.id, !put_spec by (destruct Hc; lia). cbn [mbind res_bind].
  eexists. split; [done|]. split; [|done].
  set (n := length (b_kinds b)) in *.
  assert (wrap 32 (Z.of_nat n) = Z.of_nat n) as Hw by (unfold wrap, NONE in *; apply Z.mod_small; lia).
  rewrite Hw.
  match goal with |- repr ?x _ => assert (x = with_row b j k (b_cur_token b) (Z.of_nat n) NONE stack (Z.of_nat j)) as -> end.
  { unfold with_row. destruct Ho as [Ek _ _ Ew]. by rewrite (list_insert_id (b_kinds b)), (list_insert_id (b_wrapper b)) by done. }
  set (b' := with_row _ _ _ _ _ _ _ _).
  assert (∀ lo hi, ¬ lo ≤ j < hi → agree b b' lo hi) as Hag by (intros; by apply with_row_agree).
  assert (enc b' s n j (Rose k f (fo_cur F) (hd ++ ts))) as Henc.
  { eapply close_enc; [exact Hh|exact Hts|apply Hag; lia|apply Hag; lia|].
    destruct Ho as [Ek Ef Es Ew]. destruct Hc. unfold b', with_row.
    split; simpl; rewrite ?list_lookup_insert_eq by lia; congruence. }
  assert (opens b' s stack frs (fo_roots F)) as Hop'.
  { eapply opens_agree; [apply Hag; lia|done]. }
  assert (b_wrapper b' !! j = Some NONE) as Ew by (simpl; apply list_lookup_insert_eq; destruct Hc; lia).
  assert (length (b_kinds b') = n) as En by (simpl; apply length_insert).
  unfold close_node. rewrite <- Efr. simpl.
  split; [by apply with_row_columns|by rewrite En|..];
    unfold add_tree; simpl; inversion Hop' as [hi roots' Hroots|hi j' s' stack' k' f' hd' ts' frs' roots' Hh' Ho' Hts' Hop'']; subst; simpl; try done;
    rewrite ?length_insert.
  - apply tops_nil. split; [by eapply encs_snoc|]. by exists (fo_roots F), (Rose k f (fo_cur F) (hd ++ ts)), s, j.
  - rewrite <- app_assoc. apply tops_cons with s'; try done. split; [by eapply encs_snoc|].
    by exists ts', (Rose k f (fo_cur F) (hd ++ ts)), s, j.
Qed.

Lemma last_snoc_removelast (ts : list rose) t : last (ts ++ [t]) = Some t ∧ removelast (ts ++ [t]) = ts.
Proof. split; [apply last_snoc|apply removelast_last]. Qed.

Lemma last_tree_repr b F : repr b F →
  match last_tree F with
  | Some (t, F0) => ∃ mid j, b_last_closed b = Z.of_nat j ∧ enc b mid (length (b_kinds b)) j t ∧
      b_wrapper b !! j = Some NONE ∧ opens b mid (b_stack b) (fo_frames F0) (fo_roots F0) ∧
      fo_cur F0 = fo_cur F
  | None => b_last_closed b = NONE
  end.
Proof.
  intros [Hc Hs Hcur Ht]. unfold last_tree.
  inversion Ht as [roots lc w [Hd Hl] Est Efr|j s stack k f hd ts frs roots lc w Hh Ho [Hts Hl] Hop Est Efr];
    subst; destruct (fo_wrap F); simpl; try done;
    destruct Hl as (ts0 & t & mid & j' & -> & Hts0 & Ht' & Ew & ->).
  - rewrite (proj1 (last_snoc_removelast _ _)), (proj2 (last_snoc_removelast _ _)). simpl.
    exists mid, j'. split_and!; try done. by constructor.
  - rewrite app_assoc. rewrite (proj1 (last_snoc_removelast _ _)), (proj2 (last_snoc_removelast _ _)). simpl.
    exists mid, j'. split_and!; try done. by apply opens_cons with s.
Qed.

Lemma enc_outer b lo hi j t : enc b lo hi j t → ∃ k e, node_at b j k (rose_first t) e lo hi.
Proof. intros []; simpl; eauto. Qed.

Lemma with_wrapper_agree b b' j hi : (∀ i, i < hi → same_node b b' i) →
  (∀ i, i < hi → i ≠ j → same_wrapper b b' i) → ∀ lo hi', ¬ lo ≤ j < hi' → hi' ≤ hi → agree b b' lo hi'.
Proof. intros Hn Hw lo hi' Hj Hle i Hi. split; [apply Hn|apply Hw]; lia. Qed.

Lemma wrap_repr k b F : repr b F →
  ∃ b', Builder.wrap_last_sibling k b = Done b' ∧ length (b_kinds b') = S (length (b_kinds b)) ∧
    (fits_node b' → repr b' (wrap_node k F)).
Proof.
  intros Hr. pose proof (last_tree_repr _ _ Hr) as Hl. unfold Builder.wrap_last_sibling, wrap_node.
  destruct (last_tree F) as [[t F0]|].
  2: { rewrite Hl, Z.eqb_refl. eexists. split_and!; [done| |apply start_node_repr; done].
       simpl. rewrite length_app. simpl. lia. }
  destruct Hl as (mid & j & -> & Henc & Ew & Hop & Hcur0).
  pose proof Hr as [Hc Hs Hcur _]. pose proof (enc_lo _ _ _ _ _ Henc) as Hj.
  destruct (enc_outer _ _ _ _ _ Henc) as (k' & e & [Ek Ef Ee Es Ei]).
  destruct (Z.eqb_spec (Z.of_nat j) NONE) as [E|_]; [lia|].
  rewrite Nat2Z.id, Ef. cbn [get_ix mbind res_bind]. rewrite Es. cbn [get_ix mbind res_bind].
  pose proof (push_appended k (rose_first t) (Z.of_nat mid) b Hs) as Hp.
  destruct (Builder.push _ _ _ b) as [b1 idx]. destruct Hp as (-> & Ha & Est & Ecur).
  destruct (Z.eqb_spec (Z.of_nat mid) NONE) as [E|_]; [lia|].
  destruct (appended_agree _ _ _ _ _ _ Hc Ha eq_refl) as (Hc1 & Hag & Ek1 & Ef1 & Es1 & Ew1).
  assert (length (b_kinds b1) = S (length (b_kinds b))) as En.
  { destruct Ha as (-> & _). rewrite length_app. simpl. lia. }
  set (n := length (b_kinds b)) in *.
  rewrite put_spec by (destruct Hc1; lia). cbn [mbind res_bind]. eexists. split_and!; [done|done|].
  unfold fits_node. cbn [b_kinds]. intros Hfit. set (b' := MkBuilder _ _ _ _ _ _ _ _ _).
  assert (∀ i, i < n → same_node b b' i) as Hsn by (intros i Hi; apply (Hag i); lia).
  assert (∀ i, i < n → i ≠ j → same_wrapper b b' i) as Hsw.
  { intros i Hi Hne. unfold same_wrapper, b'. simpl. rewrite list_lookup_insert_ne by done.
    apply (Hag i). lia. }
  assert (enc b' mid n j t) as Henc'.
  { apply (enc_agree_mut b b'); [done|..]; intros; [apply Hsn|apply Hsw]; lia. }
  split; [|done|simpl; congruence|].
  - destruct Hc1. split; simpl; rewrite ?length_insert; done.
  - simpl. rewrite Est, En. change [t] with ([t] ++ [] : list rose).
    apply tops_cons with mid.
    + apply heads_wrap with j; [done|]. simpl. apply list_lookup_insert_eq. destruct Hc1. lia.
    + split; simpl; try done. rewrite list_lookup_insert_ne by lia. done.
    + apply done_trees_none. constructor.
    + eapply opens_agree; [apply (with_wrapper_agree _ _ _ _ Hsn Hsw); lia|done].
Qed.

(** Renaming a node. *)
Lemma rename_agree b j k : (∀ lo hi, ¬ lo ≤ j < hi → 
  agree b (MkBuilder (<[j := k]> (b_kinds b)) (b_first_token b) (b_end_token b) (b_end_idx b)
    (b_start_of b) (b_wrapper b) (b_stack b) (b_cur_token b) (b_last_closed b)) lo hi).
Proof.
  intros lo hi Hj i Hi. unfold same_node, same_wrapper. simpl.
  by rewrite list_lookup_insert_ne by lia.
Qed.

Lemma set_kind_done k b j : j < length (b_kinds b) → Builder.set_kind (Z.of_nat j) k b =
  Done (MkBuilder (<[j := k]> (b_kinds b)) (b_first_token b) (b_end_token b) (b_end_idx b)
    (b_start_of b) (b_wrapper b) (b_stack b) (b_cur_token b) (b_last_closed b)).
Proof. intros Hj. unfold Builder.set_kind. by rewrite Nat2Z.id, put_spec by done. Qed.

Lemma rename_columns b j k : columns_ok b →
  columns_ok (MkBuilder (<[j := k]> (b_kinds b)) (b_first_token b) (b_end_token b) (b_end_idx b)
    (b_start_of b) (b_wrapper b) (b_stack b) (b_cur_token b) (b_last_closed b)).
Proof. intros []. split; simpl; rewrite ?length_insert; done. Qed.

Lemma set_current_kind_repr k b F : repr b F → ∃ b', Builder.set_current_kind k b = Done b' ∧
  repr b' (rename_node k F) ∧ length (b_kinds b') = length (b_kinds b).
Proof.
  intros Hr. pose proof Hr as [Hc Hs Hcur Ht]. unfold Builder.set_current_kind, rename_node.
  inversion Ht as [roots lc w Hd Est Efr|j s stack k' f hd ts frs roots lc w Hh Ho Hd Hop Est Efr];
    subst; [by exists b|].
  pose proof Hd as [Hts _]. pose proof (encs_le _ _ _ _ Hts) as Hj. pose proof (heads_le _ _ _ _ Hh) as Hsj.
  rewrite set_kind_done by lia. eexists. split; [done|]. split; [|apply length_insert].
  set (b' := MkBuilder _ _ _ _ _ _ _ _ _).
  assert (∀ lo hi, ¬ lo ≤ j < hi → agree b b' lo hi) as Hag by (intros; by apply rename_agree).
  split; simpl; [by apply rename_columns|by rewrite length_insert|done|]. rewrite length_insert, <- Est.
  apply tops_cons with s.
  - eapply heads_agree; [|done]. apply Hag. lia.
  - destruct Ho. split; simpl; try done. apply list_lookup_insert_eq. lia.
  - eapply done_trees_agree; [|done]. apply Hag. lia.
  - eapply opens_agree; [apply Hag; lia|done].
Qed.

Lemma advance_repr n b F : repr b F → (0 ≤ n)%Z → (fo_cur F + n < 2 ^ 32)%Z →
  ∃ b', Builder.bump_raw n b = Done b' ∧ repr b' (advance n F) ∧ b_kinds b' = b_kinds b.
Proof.
  intros [Hc Hs Hcur Ht] Hn Hlt. unfold Builder.bump_raw, add32.
  destruct (Z.leb_spec (2 ^ 32) (b_cur_token b + n)); [lia|]. cbn [mbind res_bind].
  eexists. split; [done|]. split; [|done]. set (b' := MkBuilder _ _ _ _ _ _ _ _ _).
  assert (∀ lo hi, agree b b' lo hi) as Hag by (by apply agree_refl).
  split; simpl; [by destruct Hc; split|done|congruence|].
  inversion Ht as [roots lc w Hd Est Efr|j s stack k' f hd ts frs roots lc w Hh Ho Hd Hop Est Efr]; subst.
  - apply tops_nil. by apply (done_trees_agree b).
  - apply tops_cons with s; [by apply (heads_agree b)|by destruct Ho|by apply (done_trees_agree b)|].
    by apply (opens_agree b).
Qed.

Lemma enc_rename b j k hi lo k' f e cs : enc b lo hi j (Rose k' f e cs) → j < length (b_kinds b) →
  enc (MkBuilder (<[j := k]> (b_kinds b)) (b_first_token b) (b_end_token b) (b_end_idx b)
    (b_start_of b) (b_wrapper b) (b_stack b) (b_cur_token b) (b_last_closed b)) lo hi j (Rose k f e cs).
Proof.
  intros He Hj. set (b' := MkBuilder _ _ _ _ _ _ _ _ _).
  assert (∀ lo hi, ¬ lo ≤ j < hi → agree b b' lo hi) as Hag by (intros; by apply rename_agree).
  assert (b_kinds b' !! j = Some k) as Ek by (by apply list_lookup_insert_eq).
  inversion He as [lo' hi' k0 f' e' cs' [] Hcs|lo' w hi' i k0 f' e' c cs' Hc Ew [] Hcs]; subst.
  - constructor; [by split|]. apply (encs_agree b); [|done]. apply Hag. lia.
  - pose proof (enc_lo _ _ _ _ _ Hc). apply enc_wrap with i; [|done|by split|].
    + apply (enc_agree b); [|done]. apply Hag. lia.
    + apply (encs_agree b); [|done]. apply Hag. lia.
Qed.

Lemma set_last_kind_repr k b F : repr b F → ∃ b', Builder.set_last_kind k b = Done b' ∧
  repr b' (rename_last k F) ∧ length (b_kinds b') = length (b_kinds b).
Proof.
  intros Hr. pose proof (last_tree_repr _ _ Hr) as Hl. unfold Builder.set_last_kind, rename_last.
  destruct (last_tree F) as [[[k' f e cs] F0]|].
  2: { rewrite Hl, Z.eqb_refl. by exists b. }
  destruct Hl as (mid & j & Elc & Henc & Ew & Hop & Hcur0). pose proof Hr as [Hc Hs Hcur _].
  pose proof (enc_lo _ _ _ _ _ Henc) as Hj. rewrite Elc.
  destruct (Z.eqb_spec (Z.of_nat j) NONE) as [E|_]; [lia|].
  rewrite set_kind_done by lia. eexists. split; [done|]. split; [|apply length_insert].
  pose proof (enc_rename b j k _ _ _ _ _ _ Henc ltac:(lia)) as Henc'.
  set (b' := MkBuilder _ _ _ _ _ _ _ _ _) in *.
  assert (∀ lo hi, ¬ lo ≤ j < hi → agree b b' lo hi) as Hag by (intros; by apply rename_agree).
  apply (opens_agree b b') in Hop; [|apply Hag; lia].
  unfold add_tree. split.
  - by apply rename_columns.
  - simpl. by rewrite length_insert.
  - destruct (fo_frames F0); simpl; congruence.
  - simpl. rewrite length_insert.
    inversion Hop as [hi roots Hr0 E1 E2 E3|hi i s stack k0 f0 hd ts frs roots Hh Ho Hts Hop' E1 E2 E3]; subst; simpl.
    + rewrite Elc. apply tops_nil. split; [by apply encs_snoc with mid j|]. by do 4 eexists.
    + rewrite <- app_assoc, Elc. apply tops_cons with s; try done. split; [by apply encs_snoc with mid j|].
      by do 4 eexists.
Qed.

(** ** Well-nested trees *)

Inductive well : rose → Prop :=
  | well_node k f e cs : nest f e cs → well (Rose k f e cs)
with nest : Z → Z → list rose → Prop :=
  | nest_nil lo hi : (lo ≤ hi)%Z → nest lo hi []
  | nest_cons lo hi t ts : (lo ≤ rose_first t)%Z → well t → nest (rose_stop t) hi ts → nest lo hi (t :: ts).

Scheme well_mind := Induction for well Sort Prop
  with nest_mind := Induction for nest Sort Prop.
Combined Scheme well_nest_ind from well_mind, nest_mind.

Lemma well_nest_le : (∀ t, well t → (rose_first t ≤ rose_stop t)%Z) ∧ (∀ lo hi ts, nest lo hi ts → (lo ≤ hi)%Z).
Proof. apply well_nest_ind; simpl; intros; lia. Qed.
Lemma well_le t : well t → (rose_first t ≤ rose_stop t)%Z.
Proof. apply well_nest_le. Qed.
Lemma nest_le lo hi ts : nest lo hi ts → (lo ≤ hi)%Z.
Proof. apply well_nest_le. Qed.

Lemma nest_snoc lo hi hi' ts t : nest lo hi ts → well t → (hi ≤ rose_first t)%Z → (rose_stop t ≤ hi')%Z →
  nest lo hi' (ts ++ [t]).
Proof.
  intros Hts Ht Hf Hs. induction Hts as [lo hi Hle|lo hi c cs Hlo Hc Hcs IH]; simpl.
  - constructor; [lia|done|]. constructor. lia.
  - constructor; [done..|]. by apply IH.
Qed.

Lemma nest_weaken lo hi lo' hi' ts : nest lo hi ts → (lo' ≤ lo)%Z → (hi ≤ hi')%Z → nest lo' hi' ts.
Proof.
  intros Hts. revert lo'. induction Hts as [lo hi Hle|lo hi c cs Hlo Hc Hcs IH]; intros lo' Hl Hh.
  - constructor. lia.
  - constructor; [lia|done|]. apply IH; lia.
Qed.

Lemma nest_last lo hi ts t : nest lo hi (ts ++ [t]) →
  nest lo (rose_first t) ts ∧ well t ∧ (rose_stop t ≤ hi)%Z.
Proof.
  revert lo. induction ts as [|c ts IH]; intros lo H; simpl in H; inversion H; subst.
  - split_and!; [by constructor|done|by eapply nest_le].
  - destruct (IH _ ltac:(done)) as (? & ? & ?). split_and!; [by constructor|done..].
Qed.

(** The open nodes up to token [hi]. *)
Inductive upto (roots : list rose) : Z → list frame → Prop :=
  | upto_nil hi : nest 0 hi roots → upto roots hi []
  | upto_cons hi k f ts frs : nest f hi ts → upto roots f frs → upto roots hi (MkOpen k f ts :: frs).
Definition nested (F : forest) : Prop := upto (fo_roots F) (fo_cur F) (fo_frames F).

Lemma upto_weaken roots hi hi' frs : upto roots hi frs → (hi ≤ hi')%Z → upto roots hi' frs.
Proof. intros [? ?|? ? ? ? ? ? ?] Hle; constructor; try done; by eapply nest_weaken. Qed.

Lemma add_tree_nested t F hi : upto (fo_roots F) hi (fo_frames F) → well t →
  (hi ≤ rose_first t)%Z → (rose_stop t ≤ fo_cur F)%Z → nested (add_tree t F).
Proof.
  intros Hu Ht Hf Hs. unfold add_tree, nested. inversion Hu as [? Hn E1 E2|? k f ts frs Hn Hu' E1 E2]; subst; simpl.
  - constructor. by eapply nest_snoc.
  - constructor; [by eapply nest_snoc|done].
Qed.

Lemma open_node_nested k F : nested F → nested (open_node k F).
Proof. intros H. constructor; [by constructor|done]. Qed.

Lemma close_node_nested F : nested F → nested (close_node F).
Proof.
  intros H. unfold close_node. inversion H as [? Hn E1 E2|? k f ts frs Hn Hu E1 E2]; simpl; [done|].
  apply add_tree_nested with f; simpl; [done|by constructor|lia|lia].
Qed.

Lemma last_tree_nested F t F0 : last_tree F = Some (t, F0) → nested F →
  upto (fo_roots F0) (rose_first t) (fo_frames F0) ∧ well t ∧ (rose_stop t ≤ fo_cur F)%Z.
Proof.
  unfold last_tree, nested. destruct (fo_wrap F); [|done]. intros Hl H.
  inversion H as [? Hn E1 E2|? k f ts frs Hn Hu E1 E2]; rewrite <- ?E2 in *; simpl in *.
  - destruct (last (fo_roots F)) as [t'|] eqn:El; [|done]. injection Hl as -> <-.
    apply last_Some in El as (ts & E). rewrite E in Hn |- *.
    apply nest_last in Hn as (Hn & ? & ?). rewrite removelast_last. split_and!; [by constructor|done..].
  - destruct (last ts) as [t'|] eqn:El; [|done]. injection Hl as -> <-.
    apply last_Some in El as (ts' & ->). apply nest_last in Hn as (Hn & ? & ?).
    rewrite removelast_last. split_and!; [by constructor|done..].
Qed.

Lemma wrap_node_nested k F : nested F → nested (wrap_node k F).
Proof.
  intros H. unfold wrap_node. destruct (last_tree F) as [[t F0]|] eqn:El; [|by apply open_node_nested].
  destruct (last_tree_nested _ _ _ El H) as (Hu & Ht & Hs).
  assert (fo_cur F0 = fo_cur F) as Ec.
  { clear -El. unfold last_tree in El. by repeat case_match; simplify_eq. }
  constructor; simpl; [|done]. rewrite Ec. constructor; [lia|done|]. by constructor.
Qed.

Lemma rename_node_nested k F : nested F → nested (rename_node k F).
Proof.
  unfold nested, rename_node. intros H. inversion H as [? Hn E1 E2|? k' f ts frs Hn Hu E1 E2]; subst.
  - by rewrite <- E2 in *.
  - simpl. by constructor.
Qed.

Lemma rename_last_nested k F : nested F → nested (rename_last k F).
Proof.
  intros H. unfold rename_last. destruct (last_tree F) as [[[k' f e cs] F0]|] eqn:El; [|done].
  destruct (last_tree_nested _ _ _ El H) as (Hu & Ht & Hs).
  assert (fo_cur F0 = fo_cur F) as Ec.
  { clear -El. unfold last_tree in El. by repeat case_match; simplify_eq. }
  apply add_tree_nested with f; [done|inversion Ht; by constructor|simpl; lia|simpl in *; lia].
Qed.

Lemma advance_nested n F : nested F → (0 ≤ n)%Z → nested (advance n F).
Proof. intros H Hn. unfold nested, advance. simpl. eapply upto_weaken; [exact H|lia]. Qed.
