(* ===== verification/SynFinish.v ===== *)
(** * Finishing a builder

    [finish] writes the finished trees in pre-order: a plain node with its chain
    of wrappers, the outermost first, then what was created after it.  For any
    sequence of operations the tree is that of the forest the same operations
    build. *)

From S2P Require Import Prelude Token Lexer SynTree SynBuilder.
Local Open Scope nat_scope.

Section write.
Context (b : TreeBuilder).
Abbreviation n := (length (b_kinds b)).

(** The row of node [j]. *)
Definition row_at (j : nat) (r : trow) : Prop :=
  ∃ k f e s hi, node_at b j k f e s hi ∧ (f ≤ e)%Z ∧ s ≤ hi ∧ r = (k, f, (e - f)%Z, Z.of_nat (hi - s)).

Lemma write_node_spec j r rows pos : row_at j r → pos < length rows →
  Builder.write_node b j pos (tree_of rows) = Done (tree_of (<[pos := r]> rows)).
Proof.
  intros (k & f & e & s & hi & [Ek Ef Ee Es Ei] & Hfe & Hs & ->) Hpos.
  unfold Builder.write_node. rewrite Ek, Ef, Ee, Es, Ei. cbn [get_ix mbind res_bind tree_of SynTree.kinds
    first_token token_len subtree_len].
  rewrite !put_spec by (rewrite !length_fmap; done). cbn [get_ix mbind res_bind].
  unfold sub32. destruct (Z.ltb_spec e f), (Z.ltb_spec (Z.of_nat hi) (Z.of_nat s)); try lia.
  cbn [get_ix mbind res_bind]. rewrite !put_spec by (rewrite !length_fmap; done).
  cbn [get_ix mbind res_bind]. unfold tree_of. rewrite !list_fmap_insert. simpl.
  by rewrite Nat2Z.inj_sub by lia.
Qed.

(** The wrappers from [j] out. *)
Fixpoint chain (j : nat) (ups : list nat) : Prop :=
  match ups with
  | [] => b_wrapper b !! j = Some NONE
  | u :: ups => b_wrapper b !! j = Some (Z.of_nat u) ∧ (Z.of_nat u < NONE)%Z ∧ chain u ups
  end.

Lemma chain_length_spec fuel j ups c : chain j ups → length ups ≤ fuel →
  Builder.chain_length fuel b j c = Done (c + length ups).
Proof.
  revert j ups c. induction fuel as [|fuel IH]; intros j [|u ups] c Hc Hf; simpl in *; try lia;
    unfold Builder.chain_length; fold Builder.chain_length.
  - rewrite Hc. cbn [get_ix mbind res_bind]. rewrite Z.eqb_refl. f_equal. lia.
  - rewrite Hc. cbn [get_ix mbind res_bind]. rewrite Z.eqb_refl. f_equal. lia.
  - destruct Hc as (-> & Hu & Hc). cbn [get_ix mbind res_bind].
    destruct (Z.eqb_spec (Z.of_nat u) NONE); [lia|]. rewrite Nat2Z.id, (IH u ups) by (done || lia).
    f_equal. lia.
Qed.

(** The chain, written backwards from [pos]. *)
Lemma write_chain_spec fuel j ups r rs L junk rest : chain j ups → length ups ≤ fuel →
  row_at j r → Forall2 row_at ups rs → length junk = S (length ups) →
  Builder.write_chain fuel b j (length L + S (length ups)) (tree_of (L ++ junk ++ rest)) =
  Done (tree_of (L ++ reverse rs ++ r :: rest)).
Proof.
  revert j ups r rs junk rest. induction fuel as [|fuel IH]; intros j ups r rs junk rest Hc Hf Hr Hrs Hj;
    rewrite Nat.add_succ_r; unfold Builder.write_chain; fold Builder.write_chain;
    (destruct (List.exists_last (l := junk)) as (junk' & x & ->); [by destruct junk|];
     rewrite length_app in Hj; simpl in Hj;
     rewrite (write_node_spec j r) by (done || (rewrite !length_app; simpl; lia)); cbn [mbind res_bind];
     rewrite <- app_assoc, insert_app_r_alt by lia;
     replace (length L + length ups - length L) with (length junk' + 0) by lia;
     rewrite insert_app_r; simpl);
    destruct ups as [|u ups]; simpl in *; try lia; inversion Hrs; subst.
  1,2: rewrite Hc; cbn [get_ix mbind res_bind]; rewrite Z.eqb_refl;
    (destruct junk'; [done|simpl in Hj; lia]).
  destruct Hc as (-> & Hu & Hc). cbn [get_ix mbind res_bind].
  destruct (Z.eqb_spec (Z.of_nat u) NONE); [lia|]. rewrite Nat2Z.id.
  erewrite (IH u ups _ _ junk' (r :: rest)); [|done|lia|done|done|lia].
  by rewrite reverse_cons, <- !app_assoc.
Qed.

Lemma enc_size_mut : (∀ lo hi j t, enc b lo hi j t → size t = hi - lo) ∧
  (∀ lo hi ts, encs b lo hi ts → sizes ts = hi - lo).
Proof.
  apply (enc_encs_ind b); simpl.
  - intros lo hi k f e cs _ Hcs E. pose proof (encs_le _ _ _ _ Hcs). unfold sizes in E. lia.
  - intros lo w hi j k f e c cs Hc E Ew _ Hcs E'. pose proof (encs_le _ _ _ _ Hcs).
    pose proof (enc_lo _ _ _ _ _ Hc). unfold sizes in E'. lia.
  - intros lo. unfold sizes. simpl. lia.
  - intros lo mid hi j ts t Hts E Ht E' Ew. pose proof (encs_le _ _ _ _ Hts).
    pose proof (enc_lo _ _ _ _ _ Ht). rewrite sizes_app. unfold sizes in *. simpl. lia.
Qed.

Lemma enc_row lo hi j t : enc b lo hi j t → well t → row_at j (rose_kind t, rose_first t,
  (rose_stop t - rose_first t)%Z, Z.of_nat (size t)).
Proof.
  intros He Hw. pose proof (proj1 enc_size_mut _ _ _ _ He) as ->. pose proof (enc_lo _ _ _ _ _ He) as Hlo.
  apply well_le in Hw. revert Hlo Hw. destruct He as [lo hi k f e cs Hn _|lo w hi j k f e c cs _ _ Hn _]; simpl; intros Hlo Hw.
  all: exists k, f, e, lo, hi; split_and!; (done || lia).
Qed.

Lemma write_nodes_app a c i out tree : Builder.write_nodes (a + c) b i out tree =
  ('(out, tree) ← Builder.write_nodes a b i out tree; Builder.write_nodes c b (i + a) out tree).
Proof.
  revert i out tree. induction a as [|a IH]; intros i out tree; simpl; [by rewrite Nat.add_0_r|].
  destruct (b_start_of b !! i) as [s|]; [|done]. cbn [get_ix mbind res_bind].
  replace (i + S a) with (S i + a) by lia.
  case_bool_decide; cbn [negb]; [|apply IH].
  destruct (Builder.chain_length _ _ _ _) as [| |c']; try done. cbn [mbind res_bind].
  destruct (Builder.write_chain _ _ _ _ _) as [| |tree']; try done. cbn [mbind res_bind]. apply IH.
Qed.

Lemma split_junk (junk : list trow) a c : length junk = a + c → ∃ j1 j2, junk = j1 ++ j2 ∧
  length j1 = a ∧ length j2 = c.
Proof.
  intros H. exists (take a junk), (drop a junk). rewrite take_drop, length_take, length_drop. split_and!; (done || lia).
Qed.

(** The plain node at [lo] with its chain, and what it starts. *)
Lemma write_plain lo ups r rs L junk rest : b_start_of b !! lo = Some (Z.of_nat lo) → chain lo ups →
  length ups ≤ n → row_at lo r → Forall2 row_at ups rs → length junk = S (length ups) →
  Builder.write_nodes 1 b lo (length L) (tree_of (L ++ junk ++ rest)) =
  Done (length L + S (length ups), tree_of (L ++ reverse rs ++ r :: rest)).
Proof.
  intros Es Hc Hle Hr Hrs Hj. simpl. rewrite Es. cbn [get_ix mbind res_bind].
  rewrite Nat2Z.id, bool_decide_eq_true_2 by done. cbn [negb].
  rewrite (chain_length_spec n lo ups) by done. cbn [mbind res_bind].
  change (1 + length ups) with (S (length ups)).
  by rewrite (write_chain_spec n lo ups r rs L junk rest).
Qed.

Lemma write_spec :
  (∀ lo hi j t, enc b lo hi j t → ∀ ups rs L junk rest, well t → chain j ups → length ups + hi ≤ n →
     (Z.of_nat n < NONE)%Z →
     Forall2 row_at ups rs → length junk = length ups + size t →
     Builder.write_nodes (hi - lo) b lo (length L) (tree_of (L ++ junk ++ rest)) =
     Done (length L + length junk, tree_of (L ++ reverse rs ++ pre t ++ rest))) ∧
  (∀ lo hi ts, encs b lo hi ts → ∀ L junk rest, Forall well ts → hi ≤ n → (Z.of_nat n < NONE)%Z →
     length junk = sizes ts →
     Builder.write_nodes (hi - lo) b lo (length L) (tree_of (L ++ junk ++ rest)) =
     Done (length L + length junk, tree_of (L ++ pres ts ++ rest))).
Proof.
  apply (enc_encs_ind b).
  - intros lo hi k f e cs Hn Hcs IH ups rs L junk rest Hw Hc Hle Hsm Hrs Hj. 
    pose proof (encs_le _ _ _ _ Hcs). pose proof (enc_row lo hi lo _ (enc_plain _ _ _ _ _ _ _ Hn Hcs) Hw) as Hr.
    replace (hi - lo) with (1 + (hi - S lo)) by lia. rewrite write_nodes_app.
    simpl size in Hj. destruct (split_junk junk (S (length ups)) (sizes cs)) as (j1 & j2 & -> & E1 & E2).
    { unfold sizes. lia. }
    rewrite <- app_assoc. erewrite write_plain; try done; [|apply Hn|lia].
    cbn [mbind res_bind]. rewrite Nat.add_1_r.
    pose proof (IH (L ++ reverse rs ++ [(k, f, (e - f)%Z, Z.of_nat (size (Rose k f e cs)))]) j2 rest) as IH'.
    rewrite !length_app, length_reverse, <- (Forall2_length _ _ _ Hrs), <- !app_assoc in IH'. simpl app in IH'.
    change (length [_]) with 1 in IH'. rewrite Nat.add_1_r in IH'. cbn [rose_kind rose_first rose_stop size]. rewrite IH'; try done; try lia.
    { rewrite length_app. do 2 f_equal. lia. }
    inversion Hw as [? ? ? ? Hnest]; subst. clear -Hnest. by induction Hnest; constructor.
  - intros lo w hi j k f e c cs Hc IHc Ew Hn Hcs IH ups rs L junk rest Hw Hch Hle Hsm Hrs Hj.
    pose proof (encs_le _ _ _ _ Hcs). pose proof (enc_lo _ _ _ _ _ Hc).
    pose proof (enc_row lo hi w _ (enc_wrap _ _ _ _ _ _ _ _ _ _ Hc Ew Hn Hcs) Hw) as Hr.
    inversion Hw as [? ? ? ? Hnest]; subst. inversion Hnest as [|? ? ? ? Hf Hwc Hnest']; subst.
    replace (hi - lo) with ((w - lo) + (1 + (hi - S w))) by lia. rewrite write_nodes_app.
    simpl size in Hj. destruct (split_junk junk (S (length ups) + size c) (sizes cs)) as (j1 & j2 & -> & E1 & E2).
    { unfold sizes. lia. }
    set (r := (k, f, (e - f)%Z, Z.of_nat (size (Rose k f e (c :: cs))))).
    rewrite <- app_assoc. rewrite (IHc (w :: ups) (r :: rs) L j1 (j2 ++ rest)); try done; simpl; try lia;
      [|split_and!; (done || lia)|by constructor].
    cbn [mbind res_bind]. replace (lo + (w - lo)) with w by lia.
    rewrite (na_start _ _ _ _ _ _ _ Hn). cbn [get_ix mbind res_bind].
    rewrite Nat2Z.id, bool_decide_eq_false_2 by lia. cbn [negb mbind res_bind].
    pose proof (IH (L ++ reverse rs ++ [r] ++ pre c) j2 rest) as IH'.
    rewrite !length_app, length_reverse, <- (Forall2_length _ _ _ Hrs), <- !app_assoc in IH'.
    change (length [r]) with 1 in IH'. rewrite reverse_cons, <- !app_assoc.
    rewrite length_pre in IH'. replace (length L + length j1) with (length L + (length ups + (1 + size c))) by lia.
    rewrite IH'; try done; try lia; [|clear -Hnest'; by induction Hnest'; constructor].
    rewrite length_app. do 2 f_equal. lia.
  - intros lo L junk rest _ _ _ Hj. unfold sizes in Hj. simpl in Hj. destruct junk; [|done].
    rewrite Nat.sub_diag. simpl. by rewrite Nat.add_0_r.
  - intros lo mid hi j ts t Hts IH Ht IHt Ew L junk rest Hw Hle Hsm Hj.
    pose proof (encs_le _ _ _ _ Hts). pose proof (enc_lo _ _ _ _ _ Ht).
    rewrite sizes_app in Hj. unfold sizes at 2 in Hj. simpl in Hj.
    destruct (split_junk junk (sizes ts) (size t)) as (j1 & j2 & -> & E1 & E2); [lia|].
    apply Forall_app in Hw as [Hw Hwt]. apply Forall_cons in Hwt as [Hwt _].
    replace (hi - lo) with ((mid - lo) + (hi - mid)) by lia. rewrite write_nodes_app, <- app_assoc.
    rewrite IH by (done || lia). cbn [mbind res_bind]. replace (lo + (mid - lo)) with mid by lia.
    pose proof (IHt [] [] (L ++ pres ts) j2 rest) as IH'.
    rewrite length_app, length_pres, <- !app_assoc in IH'. rewrite E1.
    rewrite IH' by (done || (simpl; lia)). rewrite length_app, pres_app, <- !app_assoc.
    replace (pres [t]) with (pre t) by (unfold pres; simpl; by rewrite app_nil_r).
    do 2 f_equal. lia.
Qed.
End write.

(** ** Finishing *)

Fixpoint close_all (k : nat) (F : forest) : forest :=
  match k with O => F | S k => close_all k (close_node F) end.

Lemma tops_length b n stack frs roots lc w : tops b n stack frs roots lc w → length stack = length frs.
Proof.
  assert (∀ hi stack frs roots, opens b hi stack frs roots → length stack = length frs) as Ho.
  { intros hi stack' frs' roots' H. induction H; simpl; congruence. }
  intros H. apply tops_opens in H. by apply Ho in H.
Qed.

Lemma close_node_frames F : fo_frames F ≠ [] → S (length (fo_frames (close_node F))) = length (fo_frames F).
Proof.
  unfold close_node, add_tree. destruct (fo_frames F) as [|fr [|fr' frs]]; [done|..]; done.
Qed.

Lemma finish_all_repr b F : repr b F → ∃ b', Builder.finish_all (length (b_stack b)) b = Done b' ∧
  repr b' (close_all (length (fo_frames F)) F) ∧ b_stack b' = [] ∧ length (b_kinds b') = length (b_kinds b).
Proof.
  intros Hr. pose proof (tops_length _ _ _ _ _ _ _ (re_tops _ _ Hr)) as Hl. rewrite <- Hl.
  remember (length (b_stack b)) as k eqn:Ek. revert b F Hr Ek Hl.
  induction k as [|k IH]; intros b F Hr Ek Hl.
  - exists b. destruct (b_stack b) eqn:Es; [|done]. unfold Builder.finish_all. by rewrite Es.
  - unfold Builder.finish_all; fold Builder.finish_all. destruct (b_stack b) as [|j stack] eqn:Es; [done|].
    destruct (finish_node_repr b F Hr) as (b1 & E1 & Hr1 & En). rewrite E1. cbn [mbind res_bind].
    pose proof (tops_length _ _ _ _ _ _ _ (re_tops _ _ Hr1)) as Hl1.
    assert (S (length (fo_frames (close_node F))) = length (fo_frames F)) as Hc.
    { apply close_node_frames. intros E. rewrite E in Hl. done. }
    destruct (IH b1 (close_node F) Hr1) as (b2 & E2 & Hr2 & Es2 & En2); [lia|lia|].
    exists b2. split_and!; [done|done|done|congruence].
Qed.

Lemma close_all_nested k F : nested F → nested (close_all k F).
Proof. revert F. induction k as [|k IH]; intros F H; simpl; [done|]. by apply IH, close_node_nested. Qed.

(** The tree of a forest: the open nodes closed, in pre-order. *)
Definition forest_trees (F : forest) : list rose := fo_roots (close_all (length (fo_frames F)) F).

Lemma replicate_rows n : MkTree (replicate n Kind.Error) (replicate n 0%Z) (replicate n 0%Z) (replicate n 0%Z) =
  tree_of (replicate n (Kind.Error, 0%Z, 0%Z, 0%Z)).
Proof. unfold tree_of. by rewrite !fmap_replicate. Qed.

Lemma finish_repr b F : repr b F → nested F → Builder.finish b = Done (tree_of (pres (forest_trees F))).
Proof.
  intros Hr Hn. destruct (finish_all_repr b F Hr) as (b' & E & Hr' & Es & En).
  unfold Builder.finish. rewrite E. cbn [mbind res_bind]. rewrite replicate_rows.
  pose proof (close_all_nested (length (fo_frames F)) F Hn) as Hn'. unfold forest_trees.
  set (F' := close_all _ F) in *. destruct Hr' as [_ Hs _ Ht]. rewrite Es in Ht.
  inversion Ht as [roots lc w [Hd _] E1 E2|]; subst.
  unfold nested in Hn'. rewrite <- E2 in Hn'. inversion Hn' as [? Hnest|]; subst.
  pose proof (proj2 (enc_size_mut b') _ _ _ Hd) as Hsz.
  pose proof (proj2 (write_spec b') _ _ _ Hd [] (replicate (length (b_kinds b')) (Kind.Error, 0%Z, 0%Z, 0%Z)) []) as Hw.
  rewrite Nat.sub_0_r in Hw, Hsz. simpl in Hw. rewrite !app_nil_r in Hw.
  rewrite Hw; try done; [clear -Hnest; by induction Hnest; constructor|by rewrite length_replicate].
Qed.

(** ** Any run of the builder *)

Inductive bop : Type :=
  | OStart (k : Kind.NodeKind) | OFinish | OWrap (k : Kind.NodeKind)
  | OKind (k : Kind.NodeKind) | OLast (k : Kind.NodeKind) | OBump (n : Z).

Definition run_op (o : bop) (b : TreeBuilder) : res TreeBuilder :=
  match o with
  | OStart k => Done (Builder.start_node k b)
  | OFinish => Builder.finish_node b
  | OWrap k => Builder.wrap_last_sibling k b
  | OKind k => Builder.set_current_kind k b
  | OLast k => Builder.set_last_kind k b
  | OBump n => Builder.bump_raw n b
  end.
Definition do_op (o : bop) (F : forest) : forest :=
  match o with
  | OStart k => open_node k F
  | OFinish => close_node F
  | OWrap k => wrap_node k F
  | OKind k => rename_node k F
  | OLast k => rename_last k F
  | OBump n => advance n F
  end.
Fixpoint run_ops (os : list bop) (b : TreeBuilder) : res TreeBuilder :=
  match os with [] => Done b | o :: os => b ← run_op o b; run_ops os b end.
Definition empty_forest : forest := MkForest [] [] 0 false.
Definition do_ops (os : list bop) : forest := foldl (flip do_op) empty_forest os.

(** Few enough nodes, and tokens that fit. *)
Definition op_fits (o : bop) : Prop := match o with OBump n => (0 ≤ n)%Z | _ => True end.
Definition op_bump (o : bop) : Z := match o with OBump n => n | _ => 0%Z end.
Definition bumps (os : list bop) : Z := foldr (λ o n, (op_bump o + n)%Z) 0%Z os.

Lemma new_repr : repr Builder.new empty_forest ∧ nested empty_forest.
Proof.
  split; [|by repeat constructor]. split; [by split|done|done|]. apply tops_nil. split; [constructor|done].
Qed.

Definition op_nodes (o : bop) : nat := match o with OStart _ | OWrap _ => 1 | _ => 0 end.
Definition nodes (os : list bop) : nat := sum_list_with op_nodes os.

(** One operation. *)
Lemma run_op_repr o b F : repr b F → nested F → op_fits o → (fo_cur F + op_bump o < 2 ^ 32)%Z →
  (Z.of_nat (length (b_kinds b) + op_nodes o) < NONE)%Z →
  ∃ b', run_op o b = Done b' ∧ repr b' (do_op o F) ∧ nested (do_op o F) ∧
    fo_cur (do_op o F) = (fo_cur F + op_bump o)%Z ∧ length (b_kinds b') = length (b_kinds b) + op_nodes o.
Proof.
  intros Hr Hn Ho Hc Hs. destruct o as [k| |k|k|k|n]; simpl in *.
  - eexists. split; [done|]. assert (length (b_kinds (Builder.start_node k b)) = length (b_kinds b) + 1) as El
      by (simpl; by rewrite length_app).
    split_and!; [apply start_node_repr; [done|unfold fits_node; lia]|by apply open_node_nested|lia|done].
  - destruct (finish_node_repr b F Hr) as (b' & -> & Hr' & E). exists b'.
    split_and!; [done|done|by apply close_node_nested| |lia].
    unfold close_node, add_tree. repeat case_match; simpl; lia.
  - destruct (wrap_repr k b F Hr) as (b' & -> & E & Hr'). exists b'.
    split_and!; [done|apply Hr'; unfold fits_node; lia|by apply wrap_node_nested| |lia].
    unfold wrap_node, last_tree. repeat case_match; simplify_eq; simpl; lia.
  - destruct (set_current_kind_repr k b F Hr) as (b' & -> & Hr' & E). exists b'.
    split_and!; [done|done|by apply rename_node_nested| |lia].
    unfold rename_node. repeat case_match; simpl; lia.
  - destruct (set_last_kind_repr k b F Hr) as (b' & -> & Hr' & E). exists b'.
    split_and!; [done|done|by apply rename_last_nested| |lia].
    unfold rename_last, last_tree, add_tree. repeat case_match; simplify_eq; simpl in *; simplify_eq; simpl; lia.
  - destruct (advance_repr n b F Hr) as (b' & -> & Hr' & E); [done|done|]. exists b'.
    split_and!; [done|done|by apply advance_nested|done|rewrite E; lia].
Qed.

Lemma run_ops_repr os b F : repr b F → nested F → Forall op_fits os → (fo_cur F + bumps os < 2 ^ 32)%Z →
  (Z.of_nat (length (b_kinds b) + nodes os) < NONE)%Z →
  ∃ b', run_ops os b = Done b' ∧ repr b' (foldl (flip do_op) F os) ∧ nested (foldl (flip do_op) F os).
Proof.
  revert b F. induction os as [|o os IH]; intros b F Hr Hn Hos Hc Hs; simpl in *; [by exists b|].
  apply Forall_cons in Hos as [Ho Hos]. unfold nodes in Hs. simpl in Hs.
  assert (0 ≤ bumps os)%Z as Hb.
  { clear -Hos. induction Hos as [|o os Ho _ IH]; simpl; [done|]. destruct o; simpl in *; lia. }
  destruct (run_op_repr o b F Hr Hn Ho) as (b' & -> & Hr' & Hn' & Ec & El); [lia|lia|].
  cbn [mbind res_bind]. apply IH; try done; unfold nodes; lia.
Qed.

(** C15: A sequence of operations on a new builder, with indices that fit in 32
    bits, never panics; [finish] gives the pre-order columns of the trees that
    the same operations build in a forest, wrappers around what they wrap, and
    those trees nest: the tokens of a node contain those of its children, in
    order and without overlap. *)
Theorem builder_builds os : Forall op_fits os → (bumps os < 2 ^ 32)%Z → (Z.of_nat (nodes os) < NONE)%Z →
  ∃ b, run_ops os Builder.new = Done b ∧
    Builder.finish b = Done (tree_of (pres (forest_trees (do_ops os)))) ∧
    nest 0 (fo_cur (close_all (length (fo_frames (do_ops os))) (do_ops os))) (forest_trees (do_ops os)).
Proof.
  intros Hos Hb Hn. destruct new_repr as [Hr0 Hn0].
  destruct (run_ops_repr os _ _ Hr0 Hn0 Hos) as (b & E & Hr & Hne); [done|done|].
  exists b. split_and!; [done|by apply finish_repr|].
  pose proof (finish_all_repr _ _ Hr) as (b' & _ & Hr' & Es & _).
  pose proof (close_all_nested (length (fo_frames (do_ops os))) _ Hne) as Hc.
  pose proof (tops_length _ _ _ _ _ _ _ (re_tops _ _ Hr')) as Hl. rewrite Es in Hl.
  unfold nested in Hc. unfold forest_trees, do_ops in *. destruct (fo_frames (close_all _ _)); [|done].
  by inversion Hc.
Qed.

(** [f(a)]: the call is seen after its callee. *)
Definition call_ops : list bop :=
  [OStart Kind.File; OStart Kind.NameExpr; OBump 1; OFinish; OWrap Kind.CallExpr; OBump 1;
   OStart Kind.NameExpr; OBump 1; OFinish; OBump 1].

Lemma builder_builds_witness : ∃ b, run_ops call_ops Builder.new = Done b ∧
  Builder.finish b = Done (tree_of (pres (forest_trees (do_ops call_ops)))) ∧
  nest 0 (fo_cur (close_all (length (fo_frames (do_ops call_ops))) (do_ops call_ops)))
    (forest_trees (do_ops call_ops)).
Proof. apply builder_builds; [by repeat constructor|done|done]. Defined.
