(* ===== verification/SynCursor.v ===== *)
(** * The parser's cursor and its recovery

    Models the first half of [src/crates/fors-syntax/src/parser.rs]: the state of
    the parser, the token cursor, diagnostics, the synchronisation sets and the
    delimited lists; and [diag.rs].  The state is threaded through a monad.  The
    indices of [sig] are [nat]s, and so are the counters of nesting that its
    length bounds.  The loops have the number of significant tokens as fuel. *)

From Stdlib Require Import Strings.Byte.
From S2P Require Import Prelude SynTree SynBuilder Token Lexer.
Local Open Scope nat_scope.

(** ** Diagnostics *)

Module Fix.
Inductive FixKind : Type :=
  | InsertSemicolon | InsertStdImport | ReplaceIdentifier | FixModuleHeaderPath | CallMethod | ConvertWithAs.
Record Edit : Type := MkEdit { ed_start : Z; ed_end : Z; ed_replacement : string }.
Record Fix : Type := MkFix { fx_title : string; fx_kind : FixKind; fx_edits : list Edit }.

Definition insert (kind : FixKind) (title : string) (at_ : Z) (text : string) : Fix :=
  MkFix title kind [MkEdit at_ at_ text].
End Fix.

Module PDiag.
Inductive DiagCode : Type :=
  | Expected | MissingSemicolon | UnclosedBrace | AssignTargetNotPlace | BitwiseNeedsParens
  | ComparisonChained | NestingTooDeep | LexError | UnexpectedToken | RangeChained.

Definition as_str (c : DiagCode) : string :=
  match c with
  | Expected => "P0001" | MissingSemicolon => "P0002" | UnclosedBrace => "P0003"
  | AssignTargetNotPlace => "P0004" | BitwiseNeedsParens => "P0005" | ComparisonChained => "P0006"
  | NestingTooDeep => "P0007" | LexError => "P0008" | UnexpectedToken => "P0009"
  | RangeChained => "P0010"
  end.

Record Diagnostic : Type := MkDiagnostic {
  start : Z; end_ : Z; code : DiagCode; message : string; fixes : list Fix.Fix }.

Definition new (start end_ : Z) (code : DiagCode) (message : string) : Diagnostic :=
  MkDiagnostic start end_ code message [].
Definition with_fix (fix_ : Fix.Fix) (d : Diagnostic) : Diagnostic :=
  MkDiagnostic (start d) (end_ d) (code d) (message d) (fixes d ++ [fix_]).
End PDiag.

(** A double quote in a message. *)
Definition dq : string := String (Ascii.ascii_of_nat 34) EmptyString.
Definition quoted (s : string) : string := String.append dq (String.append s dq).

(** ** The state *)

Definition USIZE_MAX : Z := 2 ^ 64 - 1.
Definition MAX_DEPTH : nat := 128.
Definition MAX_POSTFIX_CHAIN : nat := 1024.
Definition MAX_ATTR_SCAN : nat := 64.

Record Parser : Type := MkParser {
  pa_p : nat; pa_b : TreeBuilder; pa_diags : list PDiag.Diagnostic; pa_last_err_p : Z; pa_depth : nat;
  pa_depth_reported : bool; pa_in_struct_header : bool; pa_in_member_body : nat }.

Definition PS (A : Type) : Type := Parser → res (A * Parser).
#[export] Instance ps_ret : MRet PS := λ A a s, Done (a, s).
#[export] Instance ps_bind : MBind PS := λ A B f m s,
  match m s with Done (a, s) => f a s | Panic => Panic | OutOfFuel => OutOfFuel end.

Definition lift {A} (r : res A) : PS A := λ s,
  match r with Done a => Done (a, s) | Panic => Panic | OutOfFuel => OutOfFuel end.
Definition gets {A} (f : Parser → A) : PS A := λ s, Done (f s, s).
Definition modify (f : Parser → Parser) : PS unit := λ s, Done (tt, f s).
Definition out_of_fuel {A} : PS A := λ _, OutOfFuel.
Definition when (b : bool) (m : PS unit) : PS unit := if b then m else mret tt.

(** Conditions that are read from the state, left to right. *)
Definition orM (m m' : PS bool) : PS bool := b ← m; if b : bool then mret true else m'.
Definition andM (m m' : PS bool) : PS bool := b ← m; if b : bool then m' else mret false.
Definition notM (m : PS bool) : PS bool := b ← m; mret (negb b).
Definition ifM {A} (c : PS bool) (m m' : PS A) : PS A := b ← c; if b : bool then m else m'.

Declare Scope parser_scope.
Delimit Scope parser_scope with parser.
Infix "|||" := orM (at level 50, left associativity) : parser_scope.
Infix "&&&" := andM (at level 40, left associativity) : parser_scope.
Notation "'If' c 'Then' m 'Else' m'" := (ifM c%parser m m')
  (at level 99, c at level 99, m at level 99, m' at level 99) : stdpp_scope.
Notation "'If' c 'Then' m" := (ifM c%parser m (mret tt))
  (at level 99, c at level 99, m at level 99, only parsing) : stdpp_scope.

Definition with_p (p : nat) (s : Parser) : Parser :=
  MkParser p (pa_b s) (pa_diags s) (pa_last_err_p s) (pa_depth s) (pa_depth_reported s)
    (pa_in_struct_header s) (pa_in_member_body s).
Definition with_b (b : TreeBuilder) (s : Parser) : Parser :=
  MkParser (pa_p s) b (pa_diags s) (pa_last_err_p s) (pa_depth s) (pa_depth_reported s)
    (pa_in_struct_header s) (pa_in_member_body s).
Definition with_diags (ds : list PDiag.Diagnostic) (s : Parser) : Parser :=
  MkParser (pa_p s) (pa_b s) ds (pa_last_err_p s) (pa_depth s) (pa_depth_reported s)
    (pa_in_struct_header s) (pa_in_member_body s).
Definition with_last_err_p (p : Z) (s : Parser) : Parser :=
  MkParser (pa_p s) (pa_b s) (pa_diags s) p (pa_depth s) (pa_depth_reported s)
    (pa_in_struct_header s) (pa_in_member_body s).
Definition with_depth (n : nat) (s : Parser) : Parser :=
  MkParser (pa_p s) (pa_b s) (pa_diags s) (pa_last_err_p s) n (pa_depth_reported s)
    (pa_in_struct_header s) (pa_in_member_body s).
Definition with_depth_reported (s : Parser) : Parser :=
  MkParser (pa_p s) (pa_b s) (pa_diags s) (pa_last_err_p s) (pa_depth s) true
    (pa_in_struct_header s) (pa_in_member_body s).
Definition with_struct_header (h : bool) (s : Parser) : Parser :=
  MkParser (pa_p s) (pa_b s) (pa_diags s) (pa_last_err_p s) (pa_depth s) (pa_depth_reported s)
    h (pa_in_member_body s).
Definition with_member_body (n : nat) (s : Parser) : Parser :=
  MkParser (pa_p s) (pa_b s) (pa_diags s) (pa_last_err_p s) (pa_depth s) (pa_depth_reported s)
    (pa_in_struct_header s) n.

(** The calls of the builder. *)
Definition build (f : TreeBuilder → res TreeBuilder) : PS unit := λ s,
  match f (pa_b s) with Done b => Done (tt, with_b b s) | Panic => Panic | OutOfFuel => OutOfFuel end.
Definition start_node (k : Kind.NodeKind) : PS unit := build (λ b, Done (Builder.start_node k b)).
Definition finish_node : PS unit := build Builder.finish_node.
Definition wrap_last_sibling (k : Kind.NodeKind) : PS unit := build (Builder.wrap_last_sibling k).
Definition set_current_kind (k : Kind.NodeKind) : PS unit := build (Builder.set_current_kind k).
Definition set_last_kind (k : Kind.NodeKind) : PS unit := build (Builder.set_last_kind k).
Definition empty_node (k : Kind.NodeKind) : PS unit := build (Builder.empty_node k).

(** ** Sets of tokens *)

Definition is_mul_op (k : TokenKind) : bool := match k with Star | Slash | Percent => true | _ => false end.
Definition is_add_op (k : TokenKind) : bool := match k with Plus | Minus => true | _ => false end.
Definition is_range_op (k : TokenKind) : bool := match k with DotDotLt | DotDotEq => true | _ => false end.
Definition is_cmp_op (k : TokenKind) : bool :=
  match k with EqEq | NotEq | Lt | Gt | LtEq | GtEq => true | _ => false end.
Definition is_bit_op (k : TokenKind) : bool :=
  match k with Amp | Pipe | Caret | Shl | Shr => true | _ => false end.
Definition is_binop (k : TokenKind) : bool :=
  is_mul_op k || is_add_op k || is_range_op k || is_cmp_op k || is_bit_op k.
Definition is_assign_op (k : TokenKind) : bool :=
  match k with
  | Eq | PlusEq | MinusEq | StarEq | SlashEq | PercentEq | AmpEq | PipeEq | CaretEq | ShlEq | ShrEq => true
  | _ => false
  end.
Definition is_unambiguous_bare_op (k : TokenKind) : bool :=
  match k with Plus | Star | Slash | Percent | Caret | Shl | Shr | KwAnd | KwOr => true | _ => false end
  || is_cmp_op k.
Definition is_stmt_keyword (k : TokenKind) : bool :=
  match k with
  | KwLet | KwVar | KwIf | KwMatch | KwFor | KwWhile | KwBreak | KwContinue | KwReturn | KwRaise | KwWith
  | KwParallel | KwSimd | KwSpawn | KwConsume | KwDiscard | KwComptime | KwDefer | KwErrdefer => true
  | _ => false
  end.
Definition is_opener (k : TokenKind) : bool := match k with LParen | LBracket | LBrace => true | _ => false end.
Definition is_closer (k : TokenKind) : bool := match k with RParen | RBracket | RBrace => true | _ => false end.

Definition open_msg (k : TokenKind) : string :=
  match k with
  | LParen => "expected '('" | LBracket => "expected '['" | LBrace => "expected '{'" | _ => "expected '|'"
  end.
Definition close_msg (k : TokenKind) : string :=
  match k with
  | RParen => "expected ',' or ')'" | RBracket => "expected ',' or ']'" | RBrace => "expected '}'"
  | _ => "expected ',' or '|'"
  end.
Definition unclosed_msg (k : TokenKind) : string :=
  match k with
  | RParen => "unclosed '('" | RBracket => "unclosed '['" | RBrace => "unclosed '{'" | _ => "unclosed '|'"
  end.

(** ** The token cursor *)

(** What a parser reads: [sig] has the raw indices of the significant tokens,
    the last of them [Eof]. *)
Class Input : Type := { tokens : Tokens; source : list byte; sig : list nat }.

Section cursor.
Context `{Input}.

Definition raw (n : nat) : PS nat :=
  p ← gets pa_p; lift (get_ix (sig !! Nat.min (p + n) (length sig - 1))).
Definition nth (n : nat) : PS TokenKind := i ← raw n; lift (get_ix (kinds tokens !! i)).
Definition cur : PS TokenKind := nth 0.
Definition at_ (k : TokenKind) : PS bool := c ← cur; mret (token_kind_eqb c k).
Definition nth_is (n : nat) (k : TokenKind) : PS bool := c ← nth n; mret (token_kind_eqb c k).
Definition word_at (n : nat) (word : string) : PS bool :=
  k ← nth n;
  if token_kind_eqb k Ident then
    i ← raw n;
    t ← lift (text tokens i source);
    mret (bool_decide (t = bytes_of word))
  else mret false.
Definition is_word (word : string) : PS bool := word_at 0 word.
Definition cur_range : PS (Z * Z) := i ← raw 0; lift (range tokens i).
Definition prev_end : PS Z :=
  p ← gets pa_p;
  if bool_decide (p = 0) then mret 0%Z
  else i ← lift (get_ix (sig !! (p - 1))); '(_, e) ← lift (range tokens i); mret e.

(** [(raw + 1).saturating_sub(cur_token)] *)
Definition bump_any : PS unit :=
  p ← gets pa_p;
  i ← lift (get_ix (sig !! p));
  b ← gets pa_b;
  build (Builder.bump_raw (Z.max 0 (Z.of_nat i + 1 - Builder.cur_token b))).
Definition bump : PS unit :=
  p ← gets pa_p;
  if bool_decide (p + 1 < length sig) then bump_any;; modify (with_p (p + 1)) else mret tt.
Definition opt (k : TokenKind) : PS bool := If at_ k Then (bump;; mret true) Else mret false.

(** ** Diagnostics *)

Definition err_at (start stop : Z) (code : PDiag.DiagCode) (msg : string) : PS unit :=
  p ← gets pa_p;
  last ← gets pa_last_err_p;
  if bool_decide (last = Z.of_nat p) then mret tt
  else
    modify (with_last_err_p (Z.of_nat p));;
    ds ← gets pa_diags;
    modify (with_diags (ds ++
      [PDiag.new start (Z.max stop (Z.min (start + 1) (2 ^ 32 - 1))) code msg])).
Definition err_here (code : PDiag.DiagCode) (msg : string) : PS unit :=
  '(s, e) ← cur_range;
  If at_ Eof Then (e ← prev_end; err_at (Z.max 0 (e - 1)) e code msg) Else err_at s e code msg.
Definition expected (msg : string) : PS unit := err_here PDiag.Expected msg.
Definition expect (k : TokenKind) (msg : string) : PS bool :=
  If opt k Then mret true Else (expected msg;; mret false).
(** [expect] as a statement. *)
Definition expect_ (k : TokenKind) (msg : string) : PS unit := expect k msg;; mret tt.

(** ** Synchronisation sets *)

Definition decl_keyword (k : TokenKind) : bool :=
  match k with
  | KwModule | KwUse | KwStruct | KwEnum | KwTrait | KwImpl | KwConst | KwExtern => true
  | _ => false
  end.
Definition pub_keyword (k : TokenKind) : bool :=
  match k with
  | KwUse | KwFn | KwStruct | KwEnum | KwTrait | KwImpl | KwConst | KwExtern => true
  | _ => false
  end.
Definition decl_sync_at (o : nat) : PS bool :=
  k ← nth o;
  match k with
  | KwFn => nth_is (o + 1) Ident
  | KwPub =>
      k1 ← nth (o + 1);
      match k1 with
      | Ident => (nth_is (o + 2) KwStruct &&& word_at (o + 1) "soa")%parser
      | _ => mret (pub_keyword k1)
      end
  | Ident => (nth_is (o + 1) KwStruct &&& word_at o "soa")%parser
  | _ => mret (decl_keyword k)
  end.

(** The end of the parenthesised arguments at [i], if the scan gets there. *)
Fixpoint attr_args_end (fuel i : nat) : PS (option nat) :=
  k ← nth i;
  match k with
  | RParen => mret (Some i)
  | _ =>
      if token_kind_eqb k Eof || bool_decide (MAX_ATTR_SCAN < i) then mret None
      else match fuel with O => out_of_fuel | S fuel => attr_args_end fuel (i + 1) end
  end.
Fixpoint attrs_scan (fuel i : nat) : PS bool :=
  If nth_is i At Then
    If nth_is (i + 1) Ident Then
      match fuel with
      | O => out_of_fuel
      | S fuel =>
          If nth_is (i + 2) LParen Then
            (e ← attr_args_end (length sig) (i + 2);
             match e with Some e => attrs_scan fuel (e + 1) | None => mret false end)
          Else attrs_scan fuel (i + 2)
      end
    Else mret false
  Else decl_sync_at i.
Definition attrs_precede_decl : PS bool := attrs_scan (length sig) 0.

Definition at_decl_sync : PS bool := (decl_sync_at 0 ||| (at_ At &&& attrs_precede_decl))%parser.
Definition at_body_overrun : PS bool :=
  (decl_sync_at 0 &&& notM (at_ KwFn ||| (at_ KwPub &&& nth_is 1 KwFn)))%parser.
Definition at_stmt_sync : PS bool :=
  k ← cur;
  if match k with Semi | RBrace | Eof => true | _ => is_stmt_keyword k end then mret true else at_decl_sync.
Definition at_recovery_stop : PS bool :=
  k ← cur;
  if match k with Semi | Comma | FatArrow | LBrace | KwElse | At | Eof => true
     | _ => is_closer k || is_stmt_keyword k end then mret true else at_decl_sync.

(** ** Recovery *)

Definition loop_fuel : nat := length sig.

(** [depth] after token [k]. *)
Definition nesting (k : TokenKind) (depth : nat) : nat :=
  if is_opener k then depth + 1 else if is_closer k then depth - 1 else depth.

Fixpoint skip_group_loop (fuel depth : nat) : PS unit :=
  If at_ Eof ||| at_decl_sync Then mret tt Else
    match fuel with
    | O => out_of_fuel
    | S fuel =>
        k ← cur;
        bump;;
        if bool_decide (nesting k depth = 0) then mret tt else skip_group_loop fuel (nesting k depth)
    end.
Definition skip_group : PS unit :=
  start_node Kind.Error;; skip_group_loop loop_fuel 0;; finish_node.

(** The skip that [stop] ends outside of groups. *)
Fixpoint skip_to (fuel : nat) (stop : TokenKind → bool) (depth : nat) : PS unit :=
  If at_ Eof ||| at_decl_sync Then mret tt Else
    (k ← cur;
     if bool_decide (depth = 0) && stop k then mret tt
     else match fuel with
          | O => out_of_fuel
          | S fuel => bump;; skip_to fuel stop (nesting k depth)
          end).
(** The same, where the [Error] node is opened by the first token skipped;
    answers [open_node].  ([close] subtracts without saturating, but never at 0:
    its [stop] includes the closers.) *)
Fixpoint skip_open (fuel : nat) (stop : TokenKind → bool) (depth : nat) (open_node : bool) : PS bool :=
  If at_ Eof ||| at_decl_sync Then mret open_node Else
    (k ← cur;
     if bool_decide (depth = 0) && stop k then mret open_node
     else match fuel with
          | O => out_of_fuel
          | S fuel =>
              when (negb open_node) (start_node Kind.Error);;
              bump;;
              skip_open fuel stop (nesting k depth) true
          end).

Definition too_deep : PS unit :=
  reported ← gets pa_depth_reported;
  when (negb reported)
    (modify with_depth_reported;; err_here PDiag.NestingTooDeep "nesting too deep");;
  k ← cur;
  if is_opener k then skip_group else empty_node Kind.Error.
Definition enter : PS bool :=
  depth ← gets pa_depth;
  if bool_decide (depth < MAX_DEPTH) then modify (with_depth (depth + 1));; mret true
  else too_deep;; mret false.
Definition leave : PS unit :=
  depth ← gets pa_depth;
  match depth with O => lift Panic | S depth => modify (with_depth depth) end.

Definition error_node : PS unit :=
  start_node Kind.Error;;
  If at_recovery_stop Then mret tt Else bump;;
  finish_node.

Definition guard_progress (before : nat) : PS unit :=
  p ← gets pa_p;
  eof ← at_ Eof;
  if negb (bool_decide (p = before)) || eof then mret tt
  else
    err_here PDiag.UnexpectedToken "unexpected token";;
    start_node Kind.Error;;
    bump;;
    finish_node.

Definition attach_fix (before : nat) (fix_ : Fix.Fix) : PS unit :=
  ds ← gets pa_diags;
  match last ds with
  | Some d =>
      if bool_decide (before < length ds) then modify (with_diags (removelast ds ++ [PDiag.with_fix fix_ d]))
      else mret tt
  | None => mret tt
  end.

Definition semi_stop (k : TokenKind) : bool :=
  match k with Semi | RBrace => true | _ => is_stmt_keyword k end.
Definition expect_semi : PS unit :=
  If opt Semi Then mret tt Else
  If at_stmt_sync Then
    (e ← prev_end;
     before ← gets (λ s, length (pa_diags s));
     err_at (Z.max 0 (e - 1)) e PDiag.MissingSemicolon "missing ';'";;
     attach_fix before (Fix.insert Fix.InsertSemicolon "insert `;`" e ";"))
  Else
    (expected "expected ';'";;
     start_node Kind.Error;;
     skip_to loop_fuel semi_stop 0;;
     finish_node;;
     opt Semi;;
     mret tt).

(** ** Delimited lists *)

Definition close (open_start open_end : Z) (close : TokenKind) : PS unit :=
  If opt close Then mret tt Else
  If at_ Eof ||| at_decl_sync Then err_at open_start open_end PDiag.UnclosedBrace (unclosed_msg close) Else
    (expected (close_msg close);;
     open_node ← skip_open loop_fuel
       (λ k, token_kind_eqb k close || token_kind_eqb k Semi || is_closer k) 0 false;
     when open_node finish_node;;
     opt close;;
     mret tt).

(** The items of a list; [acc] is what the closure [item] captures. *)
Fixpoint delimited_loop {B} (fuel : nat) (close : TokenKind) (item : B → PS B) (acc : B) : PS B :=
  If at_ close ||| at_ Eof ||| at_decl_sync Then mret acc Else
    (before ← gets pa_p;
     acc ← item acc;
     p ← gets pa_p;
     if bool_decide (p = before) then mret acc
     else
       If opt Comma Then
         match fuel with O => out_of_fuel | S fuel => delimited_loop fuel close item acc end
       Else mret acc).
Definition delimited_with {B} (open close_ : TokenKind) (min_one : option string) (item : B → PS B)
    (acc : B) : PS B :=
  '(os, oe) ← cur_range;
  If expect open (open_msg open) Then
    (match min_one with
     | Some msg => If at_ close_ Then expected msg
     | None => mret tt
     end;;
     acc ← delimited_loop loop_fuel close_ item acc;
     close os oe close_;;
     mret acc)
  Else mret acc.
Definition delimited (open close_ : TokenKind) (min_one : option string) (item : PS unit) : PS unit :=
  delimited_with open close_ min_one (λ _, item) tt.
End cursor.
