(* ===== verification/SynParse.v ===== *)
(** * The grammar inside declarations

    Models the types, statements, expressions and patterns of
    [src/crates/fors-syntax/src/parser.rs].  A production that the code reaches
    by recursion is called through [rec]; [production] ties the knot, with the
    fuel of the recursion.  The loops over tokens have the number of significant
    tokens as fuel. *)

From Stdlib Require Import Strings.Byte.
From S2P Require Import Prelude SynTree SynBuilder Token Lexer SynCursor.
Local Open Scope nat_scope.

(** The productions that are entered by recursion. *)
Inductive Prod : Type :=
  | PType (ret : bool) | PExpr (ns : bool) | PNotExpr (ns : bool) | PUnaryExpr (ns : bool)
  | PTarg | PBlock | PBinding | PPattern.

Section grammar.
Context `{Input} (rec : Prod → PS bool).

Definition do_ (c : Prod) : PS unit := rec c;; mret tt.

(** [self.b.start_node(kind); ..; self.b.finish_node()] *)
Definition in_node (k : Kind.NodeKind) (m : PS unit) : PS unit := start_node k;; m;; finish_node.

(** ** Paths and literals *)

Fixpoint path_loop (fuel : nat) : PS unit :=
  If at_ Dot &&& nth_is 1 Ident Then
    match fuel with O => out_of_fuel | S fuel => bump;; bump;; path_loop fuel end.
Definition path_tokens : PS unit := expect_ Ident "expected identifier";; path_loop loop_fuel.
Definition path (kind : Kind.NodeKind) : PS unit := in_node kind path_tokens.

Definition dot_lit : PS unit :=
  in_node Kind.DotLit
    (expect_ Dot "expected '.'";; expect_ Ident "expected identifier after '.'").

Definition literal : PS bool :=
  k ← cur;
  match k with
  | Int | Float | Str | MultilineStr | KwTrue | KwFalse =>
      in_node Kind.Literal bump;; mret true
  | Dot => If nth_is 1 Ident Then (dot_lit;; mret true) Else mret false
  | _ => mret false
  end.

Definition convention : PS unit :=
  k ← cur;
  let is_kw := match k with KwLet | KwInout | KwSink => true | _ => false end in
  If mret is_kw ||| is_word "set" Then bump
  Else expected "expected a convention (let/inout/sink/set)".

(** ** Types *)

Definition raises : PS unit :=
  If at_ KwRaises Then in_node Kind.Raises (bump;; do_ (PType false)).

Definition fparam : PS unit := in_node Kind.FParam (convention;; do_ (PType false)).

(** ** Places and arguments *)

Definition bracket : PS unit :=
  wrap_last_sibling Kind.Bracket;;
  If enter Then
    (delimited LBracket RBracket None
       (k ← cur;
        match k with
        | KwIso | KwImm | KwSecret | KwFn | KwDyn => do_ (PType false)
        | _ => do_ (PExpr false)
        end);;
     leave);;
  finish_node.

(** The chain of a place, [chain] links so far. *)
Fixpoint place_loop (fuel chain : nat) : PS unit :=
  k ← cur;
  let next :=
    if bool_decide (MAX_POSTFIX_CHAIN ≤ chain + 1) then mret tt
    else match fuel with O => out_of_fuel | S fuel => place_loop fuel (chain + 1) end in
  match k with
  | Dot =>
      wrap_last_sibling Kind.FieldExpr;; bump;; expect_ Ident "expected field name";; finish_node;; next
  | LBracket => bracket;; next
  | _ => mret tt
  end.
Definition place : PS unit :=
  If at_ Ident Then (path Kind.NameExpr;; place_loop MAX_POSTFIX_CHAIN 0)
  Else (expected "expected a place (name, field or index)";; empty_node Kind.Error).

Definition struct_lit_tail : PS unit :=
  wrap_last_sibling Kind.StructLit;;
  If enter Then
    (delimited LBrace RBrace None
       (in_node Kind.FInit
          (expect_ Ident "expected field name";;
           expect_ Colon "expected ':' and the field's value";;
           do_ (PExpr false)));;
     leave);;
  finish_node.

Definition arg : PS unit :=
  named ← (at_ Ident &&& nth_is 1 Colon)%parser;
  when named (start_node Kind.NamedArg;; bump;; bump);;
  k ← cur;
  k1 ← nth 1;
  let ends := match k1 with Comma | RParen => true | _ => false end in
  (if is_unambiguous_bare_op k || (match k with Minus | Pipe | Amp => true | _ => false end && ends) then
     in_node Kind.BareOp bump
   else match k with
        | Amp =>
            in_node Kind.InoutArg
              (bump;;
               If nth_is 1 Ident &&& is_word "out" Then (set_current_kind Kind.SetArg;; bump);;
               place)
        | _ => do_ (PExpr false)
        end);;
  when named finish_node.

(** ** Blocks of expressions *)

Definition comptime_block : PS unit := in_node Kind.ComptimeBlock (bump;; do_ PBlock).

Fixpoint if_loop (fuel : nat) : PS unit :=
  bump;;
  do_ (PExpr true);;
  do_ PBlock;;
  If opt KwElse Then
    If at_ KwIf Then match fuel with O => out_of_fuel | S fuel => if_loop fuel end
    Else do_ PBlock.
Definition if_expr : PS unit := in_node Kind.IfExpr (if_loop loop_fuel).

Definition arm_stop (k : TokenKind) : bool := match k with Comma | RBrace | Semi => true | _ => false end.
Definition arm : PS unit :=
  in_node Kind.Arm
    (do_ PPattern;;
     If expect FatArrow "expected '=>' after the pattern" Then
       If at_ LBrace Then (do_ PBlock;; opt Comma;; mret tt)
       Else
         (do_ (PExpr false);;
          If opt Comma ||| at_ RBrace Then mret tt
          Else expected "expected ',' after the match arm")
     Else
       (in_node Kind.Error (skip_to loop_fuel arm_stop 0);; opt Comma;; mret tt)).

(** The loop over the statements of a block and the arms of a match. *)
Fixpoint items_loop (fuel : nat) (item : PS unit) : PS unit :=
  If at_ RBrace ||| at_ Eof ||| at_decl_sync Then mret tt Else
    (before ← gets pa_p;
     item;;
     guard_progress before;;
     match fuel with O => out_of_fuel | S fuel => items_loop fuel item end).

Definition match_expr : PS unit :=
  in_node Kind.MatchExpr
    (bump;;
     do_ (PExpr true);;
     '(os, oe) ← cur_range;
     If expect LBrace "expected '{' and the match arms" Then
       (items_loop loop_fuel arm;; close os oe RBrace)).

Definition cparam : PS unit :=
  in_node Kind.CParam
    (k ← cur;
     k1 ← nth 1;
     let kw := match k with KwLet | KwInout | KwSink => true | _ => false end in
     let name (k : TokenKind) := match k with Ident | Underscore => true | _ => false end in
     If mret kw ||| (mret (name k1) &&& is_word "set") Then bump;;
     k ← cur;
     (if name k then bump else expected "expected a closure parameter name");;
     If opt Colon Then do_ (PType false)).

(** ** Assembly *)

Definition register : PS unit :=
  expect_ LParen "expected '('";; expect_ Ident "expected a register name";; expect_ RParen "expected ')'".

Definition asm_item : PS bool :=
  start_node Kind.AsmItem;;
  k ← cur;
  is_string ← match k with
    | Str | MultilineStr => bump;; mret true
    | KwIn => bump;; register;; expect_ Eq "expected '='";; do_ (PExpr false);; mret false
    | _ =>
        If is_word "out" Then (bump;; register;; mret false)
        Else If is_word "clobber" Then
          (bump;;
           delimited LParen RParen (Some "expected a register name") (expect_ Ident "expected a register name");;
           mret false)
        Else (expected "expected 'in', 'out', 'clobber', or a string";; error_node;; mret false)
    end;
  finish_node;;
  mret is_string.

Definition asm_expr : PS unit :=
  in_node Kind.AsmExpr
    (bump;;
     expect_ LParen "expected '(' after 'asm'";;
     expect_ Ident "expected an architecture name";;
     expect_ RParen "expected ')'";;
     '(os, oe) ← cur_range;
     has_string ← delimited_with LBrace RBrace (Some "expected an asm item")
       (λ has_string, is_string ← asm_item; mret (is_string || has_string)) false;
     when (negb has_string)
       (err_at os oe PDiag.Expected "an 'asm' block needs at least one string instruction")).

(** ** Primary expressions *)

Fixpoint array_loop (fuel : nat) : PS unit :=
  If opt Comma &&& notM (at_ RBracket) Then
    match fuel with O => out_of_fuel | S fuel => do_ (PExpr false);; array_loop fuel end.
Definition array_lit : PS unit :=
  '(os, oe) ← cur_range;
  in_node Kind.ArrayLit
    (bump;;
     If at_ RBracket Then mret tt
     Else
       (do_ (PExpr false);;
        If opt Semi Then do_ (PExpr false) Else array_loop loop_fuel);;
     close os oe RBracket).

(** The second [match] of [primary_expr], in one more level of nesting. *)
Definition primary_nested (ns : bool) : PS bool :=
  If enter Then
    (k ← cur;
     match k with
     | LParen => in_node Kind.TupleOrParen (delimited LParen RParen None (do_ (PExpr false)))
     | LBracket => array_lit
     | Pipe =>
         in_node Kind.Closure
           (delimited Pipe Pipe None cparam;;
            If at_ LBrace Then do_ PBlock Else do_ (PExpr ns))
     | KwIf => if_expr
     | KwMatch => match_expr
     | KwAsm => asm_expr
     | _ => comptime_block
     end;;
     leave;;
     mret false)
  Else mret false.

(** At an identifier. *)
Definition primary_name (ns : bool) : PS bool :=
  path Kind.NameExpr;;
  If at_ LBrace Then
    if negb ns then struct_lit_tail;; mret false
    else
      (in_header ← gets pa_in_struct_header;
       If mret (negb in_header) &&& nth_is 1 Ident &&& nth_is 2 Colon Then
         (expected "a struct literal here must be parenthesized";; struct_lit_tail;; mret false)
       Else mret true)
  Else mret true.

Definition is_number (k : TokenKind) : bool := match k with Int | Float => true | _ => false end.
Definition no_expr : PS bool := expected "expected an expression";; error_node;; mret false.

Definition primary_expr (ns : bool) : PS bool :=
  If literal Then mret false Else
    (k ← cur;
     match k with
     | Ident => primary_name ns
     | LParen | LBracket | Pipe | KwIf | KwMatch | KwComptime | KwAsm => primary_nested ns
     | KwNot =>
         expected "'not' binds looser than this operator; parenthesize the 'not' expression";;
         do_ (PNotExpr ns);;
         mret false
     | Amp =>
         expected "'&' is only an argument marker (f(&x)), not an expression operator";;
         If enter Then
           (in_node Kind.Error (bump;; do_ (PUnaryExpr ns));; leave);;
         mret false
     | Dot =>
         k1 ← nth 1;
         if is_number k1 then
           expected "a number literal cannot start with '.'; write '0.5'";;
           in_node Kind.Error (bump;; bump);;
           mret false
         else no_expr
     | _ => no_expr
     end).

(** ** Postfix expressions *)

Definition call_tail : PS unit :=
  wrap_last_sibling Kind.CallExpr;;
  If enter Then (delimited LParen RParen None arg;; leave);;
  If at_ KwElse &&& nth_is 1 Pipe Then
    in_node Kind.Handler
      (bump;;
       bump;;
       expect_ Ident "expected the handler's error binding";;
       expect_ Pipe "expected '|'";;
       do_ PBlock);;
  finish_node.

(** One postfix operator: whether the operand is still a place, or [None] where
    none follows. *)
Definition postfix_op (ns is_place is_bare_path : bool) : PS (option bool) :=
  k ← cur;
  match k with
  | Question => wrap_last_sibling Kind.TryExpr;; bump;; finish_node;; mret (Some false)
  | Dot =>
      wrap_last_sibling Kind.FieldExpr;;
      bump;;
      expect_ Ident "expected field or method name after '.'";;
      finish_node;;
      mret (Some is_place)
  | LParen => call_tail;; mret (Some false)
  | LBracket =>
      bracket;;
      If mret (is_bare_path && negb ns) &&& at_ LBrace Then (struct_lit_tail;; mret (Some false))
      Else mret (Some is_place)
  | _ => mret None
  end.

Fixpoint postfix_loop (fuel chain : nat) (ns is_place is_bare_path : bool) : PS bool :=
  r ← postfix_op ns is_place is_bare_path;
  match r with
  | None => mret is_place
  | Some is_place =>
      if bool_decide (MAX_POSTFIX_CHAIN ≤ chain + 1) then
        k ← cur;
        when (is_opener k || match k with Question | Dot => true | _ => false end)
          (err_here PDiag.NestingTooDeep "postfix chain too long");;
        mret is_place
      else match fuel with O => out_of_fuel | S fuel => postfix_loop fuel (chain + 1) ns is_place false end
  end.
Definition postfix_expr (ns : bool) : PS bool :=
  is_place ← primary_expr ns;
  postfix_loop MAX_POSTFIX_CHAIN 0 ns is_place is_place.

Definition unary_expr (ns : bool) : PS bool :=
  k ← cur;
  match k with
  | Minus | KwMove =>
      If enter Then
        (start_node Kind.UnaryExpr;; bump;; do_ (PUnaryExpr ns);; finish_node;; leave;; mret false)
      Else mret false
  | _ => postfix_expr ns
  end.

(** ** Operators *)

Fixpoint cast_loop (fuel : nat) : PS unit :=
  If opt KwAs Then
    match fuel with O => out_of_fuel | S fuel => do_ (PType false);; cast_loop fuel end.
Definition cast_expr (ns : bool) : PS bool :=
  is_place ← unary_expr ns;
  If at_ KwAs Then
    (wrap_last_sibling Kind.CastExpr;; cast_loop loop_fuel;; finish_node;; mret false)
  Else mret is_place.
Definition cast_expr_ (ns : bool) : PS unit := cast_expr ns;; mret tt.

Fixpoint mul_loop (fuel : nat) (ns : bool) : PS unit :=
  k ← cur;
  if is_mul_op k then
    match fuel with O => out_of_fuel | S fuel => bump;; cast_expr_ ns;; mul_loop fuel ns end
  else mret tt.
Definition mul_tail (ns : bool) : PS bool :=
  k ← cur;
  if negb (is_mul_op k) then mret false
  else wrap_last_sibling Kind.MulExpr;; mul_loop loop_fuel ns;; finish_node;; mret true.

Fixpoint add_loop (fuel : nat) (ns : bool) : PS unit :=
  k ← cur;
  if is_add_op k then
    match fuel with
    | O => out_of_fuel
    | S fuel => bump;; cast_expr_ ns;; mul_tail ns;; add_loop fuel ns
    end
  else mret tt.
Definition add_tail (ns : bool) : PS bool :=
  k ← cur;
  if negb (is_add_op k) then mret false
  else wrap_last_sibling Kind.AddExpr;; add_loop loop_fuel ns;; finish_node;; mret true.

Definition add_expr (ns : bool) : PS unit := cast_expr ns;; mul_tail ns;; add_tail ns;; mret tt.

Fixpoint eat_loop (fuel : nat) (ns : bool) : PS unit :=
  k ← cur;
  if is_binop k then
    match fuel with O => out_of_fuel | S fuel => bump;; cast_expr_ ns;; eat_loop fuel ns end
  else mret tt.
Definition eat_operator_tail (ns : bool) : PS unit := eat_loop loop_fuel ns.

Definition mix_error (ns : bool) : PS unit :=
  err_here PDiag.BitwiseNeedsParens
    "a bitwise operator cannot be mixed with arithmetic, range, comparison or a different bitwise operator; parenthesize";;
  eat_operator_tail ns.

(** [while self.at(op)] *)
Fixpoint bit_loop (fuel : nat) (op : TokenKind) (ns : bool) : PS unit :=
  If at_ op Then
    match fuel with O => out_of_fuel | S fuel => bump;; cast_expr_ ns;; bit_loop fuel op ns end.

Definition bit_expr (op : TokenKind) (ns : bool) : PS unit :=
  wrap_last_sibling Kind.BitExpr;;
  match op with
  | Shl | Shr => bump;; cast_expr_ ns
  | _ => bit_loop loop_fuel op ns
  end;;
  k ← cur;
  when (is_binop k) (mix_error ns);;
  finish_node.

Definition range_tail (ns : bool) : PS bool :=
  k ← cur;
  if is_range_op k then
    wrap_last_sibling Kind.RangeExpr;;
    bump;;
    add_expr ns;;
    k ← cur;
    when (is_range_op k)
      (err_here PDiag.RangeChained "range operators do not chain; parenthesize";;
       eat_operator_tail ns);;
    finish_node;;
    mret true
  else mret false.

Definition range_or_bit (ns allow_bit : bool) : PS (bool * bool) :=
  is_place ← cast_expr ns;
  op ← cur;
  if is_bit_op op then
    if negb allow_bit then mix_error ns;; mret (false, false)
    else bit_expr op ns;; mret (false, true)
  else
    mul ← mul_tail ns;
    add ← add_tail ns;
    range ← range_tail ns;
    mret (is_place && negb mul && negb add && negb range, false).

Definition cmp_expr (ns : bool) : PS bool :=
  '(is_place, bitwise) ← range_or_bit ns true;
  if bitwise : bool then mret false
  else
    k ← cur;
    if is_cmp_op k then
      wrap_last_sibling Kind.CmpExpr;;
      bump;;
      range_or_bit ns false;;
      k ← cur;
      when (is_cmp_op k)
        (err_here PDiag.ComparisonChained "comparison operators do not chain; parenthesize";;
         eat_operator_tail ns);;
      finish_node;;
      mret false
    else if is_bit_op k then
      wrap_last_sibling Kind.Error;; mix_error ns;; finish_node;; mret false
    else mret is_place.

Definition not_expr (ns : bool) : PS bool :=
  If at_ KwNot Then
    If enter Then
      (start_node Kind.NotExpr;; bump;; do_ (PNotExpr ns);; finish_node;; leave;; mret false)
    Else mret false
  Else cmp_expr ns.

Fixpoint and_loop (fuel : nat) (ns : bool) : PS unit :=
  If opt KwAnd Then
    match fuel with O => out_of_fuel | S fuel => not_expr ns;; and_loop fuel ns end.
Definition and_expr (ns : bool) : PS bool :=
  is_place ← not_expr ns;
  If at_ KwAnd Then
    (wrap_last_sibling Kind.AndExpr;; and_loop loop_fuel ns;; finish_node;; mret false)
  Else mret is_place.

Fixpoint or_loop (fuel : nat) (ns : bool) : PS unit :=
  If opt KwOr Then
    match fuel with O => out_of_fuel | S fuel => and_expr ns;; or_loop fuel ns end.
Definition expr (ns : bool) : PS bool :=
  is_place ← and_expr ns;
  If at_ KwOr Then
    (wrap_last_sibling Kind.OrExpr;; or_loop loop_fuel ns;; finish_node;; mret false)
  Else mret is_place.

(** ** Types *)

Definition type_app : PS bool :=
  start_node Kind.TypeApp;;
  path_tokens;;
  bare ← notM (at_ LBracket);
  when (negb bare) (delimited LBracket RBracket (Some "expected a generic argument") (do_ PTarg));;
  finish_node;;
  mret bare.

Definition targ : PS unit :=
  k ← cur;
  match k with
  | Int | Float | Str | MultilineStr | KwTrue | KwFalse | Minus => add_expr false
  | Ident =>
      If enter Then
        (bare ← type_app;
         k ← cur;
         when (bare && (is_mul_op k || is_add_op k))
           (set_last_kind Kind.NameExpr;; mul_tail false;; add_tail false;; mret tt);;
         leave)
  | _ => do_ (PType false)
  end.

Definition type_core (ret : bool) : PS unit :=
  k ← cur;
  match k with
  | Ident => type_app;; mret tt
  | LParen => in_node Kind.TupleType (delimited LParen RParen None (do_ (PType ret)))
  | KwFn =>
      in_node Kind.FnType
        (bump;;
         delimited LParen RParen None fparam;;
         If opt Arrow Then do_ (PType false);;
         raises)
  | KwDyn =>
      in_node Kind.DynType
        (bump;;
         If at_ Ident Then (type_app;; mret tt) Else expected "expected a trait path after 'dyn'")
  | _ =>
      expected (if ret then "expected a return type" else "expected a type");; empty_node Kind.Error
  end.

Definition is_qualifier (k : TokenKind) : bool :=
  match k with KwIso | KwImm | KwSecret => true | _ => false end.
Fixpoint qualifiers (fuel : nat) : PS unit :=
  k ← cur;
  if is_qualifier k then match fuel with O => out_of_fuel | S fuel => bump;; qualifiers fuel end
  else mret tt.

Definition type_ (ret : bool) : PS unit :=
  If enter Then
    (scoped ← (mret ret &&& nth_is 1 LParen &&& is_word "scoped")%parser;
     when scoped
       (start_node Kind.ScopedType;;
        bump;;
        bump;;
        expect_ Ident "expected a binding name in 'scoped(...)'";;
        expect_ RParen "expected ')'");;
     k ← cur;
     (if is_qualifier k then in_node Kind.QualType (qualifiers loop_fuel;; type_core ret)
      else type_core ret);;
     when scoped finish_node;;
     leave).

(** ** Patterns and bindings *)

Definition fpat : PS unit :=
  in_node Kind.FPat
    (If at_ KwLet Then (bump;; expect_ Ident "expected an identifier after 'let'")
     Else
       ('(s, e) ← cur_range;
        expect_ Ident "expected field name";;
        If opt Colon Then do_ PPattern
        Else
          err_at s e PDiag.Expected
            (String.append "write " (String.append (quoted "let x")
               (String.append " to bind the field or " (quoted "x: pattern")))))).

Definition payload : PS unit :=
  in_node Kind.Payload
    (If at_ LParen Then
       delimited LParen RParen (Some "expected at least one pattern") (do_ PPattern)
     Else delimited LBrace RBrace (Some "expected at least one field pattern") fpat).

Definition pat_path (k : TokenKind) : PS unit :=
  (match k with
   | Dot => start_node Kind.PatDot;; bump;; expect_ Ident "expected a variant name after '.'"
   | _ => start_node Kind.PatPath;; path_tokens
   end);;
  k ← cur;
  If mret (match k with LParen | LBrace => true | _ => false end) &&& enter Then (payload;; leave);;
  finish_node.

Definition no_pattern : PS unit := expected "expected a pattern";; error_node.
Definition pattern : PS unit :=
  k ← cur;
  match k with
  | KwLet => in_node Kind.PatLet (bump;; expect_ Ident "expected an identifier after 'let'")
  | Underscore => in_node Kind.PatWild bump
  | Int | Float | Str | MultilineStr | KwTrue | KwFalse => in_node Kind.PatLit bump
  | Dot | Ident => pat_path k
  | LParen =>
      If enter Then
        (in_node Kind.PatTuple (delimited LParen RParen None (do_ PPattern));; leave)
  | Minus =>
      k1 ← nth 1;
      if is_number k1 then in_node Kind.PatLit (bump;; bump) else no_pattern
  | _ => no_pattern
  end.

Definition binding : PS unit :=
  k ← cur;
  match k with
  | Ident | Underscore => in_node Kind.Binding bump
  | LParen =>
      If enter Then
        (in_node Kind.TupleBinding
           (delimited LParen RParen (Some "expected at least one binding") (do_ PBinding));;
         leave)
  | _ =>
      expected "expected a binding (a name, '_' or a tuple of bindings)";; empty_node Kind.Error
  end.

(** ** Statements *)

Definition for_head : PS unit :=
  binding;; expect_ KwIn "expected 'in' after the loop binding";; do_ (PExpr true).

Definition attr_arg : PS unit :=
  in_node Kind.AttrArg
    (If at_ Ident &&& nth_is 1 Colon Then (bump;; bump);;
     If literal Then mret tt
     Else If at_ Ident Then path Kind.Path
     Else expected "expected a literal or a path as attribute argument").
Definition attribute : PS unit :=
  in_node Kind.Attribute
    (bump;;
     expect_ Ident "expected attribute name";;
     If at_ LBracket Then
       (expected "attribute arguments take '( )', not '[ ]'";; skip_group)
     Else If at_ LParen Then delimited LParen RParen None attr_arg).

Definition let_stmt : PS unit :=
  in_node Kind.LetStmt
    (bump;;
     binding;;
     If opt Colon Then do_ (PType false);;
     If opt Eq Then do_ (PExpr false);;
     expect_semi).

Definition with_stmt : PS unit :=
  in_node Kind.WithStmt
    (bump;;
     If is_word "arena" ||| is_word "allocator" Then bump
     Else
       (expected "expected 'arena' or 'allocator' after 'with'";;
        If at_ Ident &&& nth_is 1 Ident Then bump);;
     expect_ Ident "expected a name for the region";;
     expect_ Colon "expected ':' and the region's type";;
     do_ (PType false);;
     do_ PBlock).

Definition parallel_stmt : PS unit :=
  in_node Kind.ParallelStmt
    (bump;;
     If opt KwFor Then
       (set_current_kind Kind.ParallelForStmt;;
        for_head;;
        If is_word "grain" Then (bump;; do_ (PExpr true)));;
     do_ PBlock).

Definition expr_stmt : PS unit :=
  is_place ← expr false;
  k ← cur;
  if is_assign_op k then
    when (negb is_place)
      (err_here PDiag.AssignTargetNotPlace
         "the left side of an assignment must be a place (name, field or index)");;
    wrap_last_sibling Kind.AssignStmt;;
    bump;;
    do_ (PExpr false);;
    expect_semi;;
    finish_node
  else
    If at_ RBrace Then mret tt
    Else (wrap_last_sibling Kind.ExprStmt;; expect_semi;; finish_node).

Definition stmt : PS unit :=
  k ← cur;
  match k with
  | KwLet | KwVar => let_stmt
  | KwIf => if_expr
  | KwMatch => match_expr
  | KwComptime => comptime_block
  | KwFor => in_node Kind.ForStmt (bump;; for_head;; do_ PBlock)
  | KwWhile => in_node Kind.WhileStmt (bump;; do_ (PExpr true);; do_ PBlock)
  | KwBreak => in_node Kind.BreakStmt (bump;; expect_semi)
  | KwContinue => in_node Kind.ContinueStmt (bump;; expect_semi)
  | KwReturn =>
      in_node Kind.ReturnStmt
        (bump;;
         k ← cur;
         (match k with Semi | RBrace | Eof => mret tt | _ => do_ (PExpr false) end);;
         expect_semi)
  | KwRaise => in_node Kind.RaiseStmt (bump;; do_ (PExpr false);; expect_semi)
  | KwSpawn => in_node Kind.SpawnStmt (bump;; do_ (PExpr false);; expect_semi)
  | KwWith => with_stmt
  | KwParallel => parallel_stmt
  | KwSimd =>
      in_node Kind.SimdForStmt
        (bump;; expect_ KwFor "expected 'for' after 'simd'";; for_head;; do_ PBlock)
  | KwConsume => in_node Kind.ConsumeStmt (bump;; place;; expect_semi)
  | KwDiscard => in_node Kind.DiscardStmt (bump;; place;; expect_semi)
  | KwDefer | KwErrdefer =>
      in_node (match k with KwDefer => Kind.DeferStmt | _ => Kind.ErrdeferStmt end)
        (bump;; If at_ LBrace Then do_ PBlock Else (do_ (PExpr false);; expect_semi))
  | At => in_node Kind.AttrBlockStmt (attribute;; do_ PBlock)
  | LBrace => do_ PBlock
  | _ => expr_stmt
  end.

Definition block : PS unit :=
  If at_ LBrace Then
    If enter Then
      (start_node Kind.Block;;
       '(os, oe) ← cur_range;
       bump;;
       items_loop loop_fuel stmt;;
       close os oe RBrace;;
       finish_node;;
       leave)
  Else (expected "expected '{'";; empty_node Kind.Error).
End grammar.

(** ** The knot *)

Section production.
Context `{Input}.

Definition with_false (m : PS unit) : PS bool := m;; mret false.
Fixpoint production (fuel : nat) (c : Prod) : PS bool :=
  match fuel with
  | O => out_of_fuel
  | S fuel =>
      let rec := production fuel in
      match c with
      | PType ret => with_false (type_ rec ret)
      | PExpr ns => expr rec ns
      | PNotExpr ns => not_expr rec ns
      | PUnaryExpr ns => unary_expr rec ns
      | PTarg => with_false (targ rec)
      | PBlock => with_false (block rec)
      | PBinding => with_false (binding rec)
      | PPattern => with_false (pattern rec)
      end
  end.
End production.
