(* ===== verification/SynFile.v ===== *)
(** * Declarations and files

    Models the declarations of [src/crates/fors-syntax/src/parser.rs], [file] and
    the entry points [parse_tokens], [parse_file] and [parse].  [FUEL] is the depth
    of recursion, twice [MAX_DEPTH] and two. *)

From Stdlib Require Import Strings.Byte.
From S2P Require Import Prelude SynTree SynBuilder Token Lexer SynCursor SynParse.
Local Open Scope nat_scope.

Definition FUEL : nat := 2 * MAX_DEPTH + 2.

Section file.
Context `{Input}.

Definition type_f : PS unit := do_ (production FUEL) (PType false).
Definition block_f : PS unit := do_ (production FUEL) PBlock.
Definition expr_f (ns : bool) : PS unit := do_ (production FUEL) (PExpr ns).
Definition attribute_f : PS unit := attribute.

(** ** Members *)

Fixpoint bounds_loop (fuel : nat) : PS unit :=
  If opt Plus Then
    match fuel with O => out_of_fuel | S fuel => type_f;; bounds_loop fuel end.
Definition bounds : PS unit := type_f;; bounds_loop loop_fuel.

Definition contract : PS unit := in_node Kind.Contract (bump;; expr_f true).

Definition field : PS unit :=
  in_node Kind.Field
    (opt KwPub;;
     expect_ Ident "expected field name";;
     expect_ Colon "expected ':' and the field's type";;
     type_f).

Definition evariant : PS unit :=
  in_node Kind.EVariant
    (expect_ Ident "expected variant name";;
     If at_ LParen Then delimited LParen RParen (Some "expected at least one payload type") type_f
     Else If at_ LBrace Then delimited LBrace RBrace (Some "expected at least one field") field).

(** ** Generics *)

Definition bound_stop (k : TokenKind) : bool :=
  match k with Comma | RBracket | LBrace | Semi => true | _ => false end.
Definition equality_bound : PS unit :=
  err_here PDiag.UnexpectedToken
    (String.append "associated-type equality bounds do not exist; constrain with " (quoted ":"));;
  in_node Kind.Error (skip_to loop_fuel bound_stop 0).

Definition gconstraint : PS unit :=
  in_node Kind.GConstraint
    (bump;;
     bump;;
     If expect Ident "expected an associated type name after '.'" Then
       If at_ Eq Then equality_bound
       Else If expect Colon "expected ':' and the bounds of the constraint entry" Then bounds).
Definition gparam : PS unit :=
  If at_ Ident &&& nth_is 1 Dot Then gconstraint
  Else
    in_node Kind.GParam
      (expect_ Ident "expected generic parameter name";;
       If opt Colon Then (If is_word "brand" Then bump Else bounds)
       Else If at_ Eq Then equality_bound).
Definition generics : PS unit :=
  in_node Kind.Generics (delimited LBracket RBracket (Some "expected a generic parameter") gparam).

(** ** Signatures *)

Definition RECEIVER_SHORTHAND_MSG : string :=
  String.append "only a parameter named "
    (String.append (quoted "self") ", in a trait or impl body, may omit its type annotation").

Definition param : PS unit :=
  in_node Kind.Param
    (convention;;
     If at_ Ident &&& notM (nth_is 1 Colon) Then
       (in_member_body ← gets pa_in_member_body;
        If mret (bool_decide (0 < in_member_body)) &&& is_word "self" Then bump
        Else (expected RECEIVER_SHORTHAND_MSG;; bump))
     Else
       (expect_ Ident "expected parameter name";;
        expect_ Colon "expected ':' and the parameter's type";;
        type_f)).

Fixpoint contracts_loop (fuel : nat) : PS unit :=
  If is_word "pre" ||| is_word "post" ||| is_word "invariant" Then
    match fuel with O => out_of_fuel | S fuel => contract;; contracts_loop fuel end.
Definition fn_sig : PS unit :=
  in_node Kind.FnSig
    (bump;;
     expect_ Ident "expected function name";;
     If at_ LBracket Then generics;;
     in_node Kind.Params (delimited LParen RParen None param);;
     If opt Arrow Then do_ (production FUEL) (PType true);;
     raises (production FUEL);;
     contracts_loop loop_fuel).

(** ** Structs *)

Fixpoint invariants_loop (fuel : nat) : PS unit :=
  If is_word "invariant" Then
    match fuel with O => out_of_fuel | S fuel => contract;; invariants_loop fuel end.
Definition struct_decl : PS unit :=
  bump;;
  expect_ Ident "expected struct name";;
  If at_ LBracket Then generics;;
  modify (with_struct_header true);;
  invariants_loop loop_fuel;;
  modify (with_struct_header false);;
  delimited LBrace RBrace None field.

(** ** Bodies of traits and impls *)

Definition assoc_stop (k : TokenKind) : bool :=
  match k with Semi | RBrace | KwFn | KwType | KwPub | At => true | _ => false end.
Definition skip_assoc_item : PS unit :=
  open_node ← skip_open loop_fuel assoc_stop 0 false;
  when open_node finish_node;;
  opt Semi;;
  mret tt.

Definition assoc_type_item (impl_body : bool) : PS unit :=
  set_current_kind (if impl_body then Kind.AssocTypeDef else Kind.AssocTypeDecl);;
  bump;;
  If expect Ident "expected associated type name" Then
    ((if impl_body then
        If at_ Eq Then (bump;; type_f)
        Else If at_ Semi ||| at_ Colon Then
          expected (String.append "an impl defines " (quoted "type A = T;"))
        Else expected "expected '=' and the associated type's definition"
      else
        If at_ Eq Then
          err_here PDiag.UnexpectedToken
            (String.append "a trait declares "
               (String.append (quoted "type A;") " - the definition belongs in an impl"))
        Else If opt Colon Then bounds);;
     If opt Semi Then mret tt Else (expected "expected ';'";; skip_assoc_item))
  Else skip_assoc_item.

Fixpoint attributes_loop (fuel : nat) : PS unit :=
  If at_ At Then
    match fuel with O => out_of_fuel | S fuel => attribute_f;; attributes_loop fuel end.

Definition member (impl_body : bool) : PS unit :=
  before ← gets pa_p;
  in_node (if impl_body then Kind.FnDecl else Kind.TraitItem)
    (attributes_loop loop_fuel;;
     when impl_body (opt KwPub;; mret tt);;
     If at_ KwFn Then
       (fn_sig;;
        If mret impl_body ||| notM (opt Semi) Then block_f)
     Else If at_ KwType Then
       (p ← gets pa_p;
        when (negb (bool_decide (p = before)))
          (err_here PDiag.UnexpectedToken "an associated-type item takes no attribute and no 'pub'");;
        assoc_type_item impl_body)
     Else
       (expected "expected 'fn' or 'type'";;
        set_current_kind Kind.Error;;
        p ← gets pa_p;
        If mret (bool_decide (p = before)) &&& notM (at_ Eof) Then bump)).

Fixpoint body_loop (fuel : nat) (impl_body : bool) : PS unit :=
  If at_ RBrace ||| at_ Eof ||| at_body_overrun Then mret tt Else
    match fuel with O => out_of_fuel | S fuel => member impl_body;; body_loop fuel impl_body end.

Definition item_body (impl_body : bool) : PS unit :=
  '(os, oe) ← cur_range;
  If expect LBrace "expected '{'" Then
    (n ← gets pa_in_member_body;
     modify (with_member_body (n + 1));;
     body_loop loop_fuel impl_body;;
     n ← gets pa_in_member_body;
     match n with O => lift Panic | S n => modify (with_member_body n) end;;
     close os oe RBrace).

(** ** Declarations *)

Fixpoint skip_to_decl (fuel : nat) : PS unit :=
  If at_ Eof ||| at_decl_sync ||| at_ At Then mret tt Else
    match fuel with O => out_of_fuel | S fuel => bump;; skip_to_decl fuel end.

Definition extern_decl : PS unit :=
  bump;;
  expect_ Str "expected ABI string after 'extern'";;
  If at_ KwFn Then fn_sig Else expected "expected 'fn' after the ABI string";;
  expect_semi.
Definition enum_decl : PS unit :=
  bump;;
  expect_ Ident "expected enum name";;
  If at_ LBracket Then generics;;
  delimited LBrace RBrace (Some "expected at least one enum variant") evariant.
Definition trait_decl : PS unit :=
  bump;;
  expect_ Ident "expected trait name";;
  If at_ LBracket Then generics;;
  item_body false.
Definition impl_decl : PS unit :=
  bump;;
  If at_ LBracket Then generics;;
  type_f;;
  If opt KwFor Then type_f;;
  item_body true.
Definition const_decl : PS unit :=
  bump;;
  expect_ Ident "expected const name";;
  expect_ Colon "expected ':' and the const's type";;
  type_f;;
  expect_ Eq "expected '=' and the const's value";;
  expr_f false;;
  expect_semi.

(** The last arm of the [match] of [decl]. *)
Definition not_a_decl (before : nat) : PS unit :=
  k ← cur;
  err_here PDiag.UnexpectedToken
    match k with
    | KwUse | KwModule => "'module' and 'use' must precede all declarations"
    | _ => "expected a declaration"
    end;;
  p ← gets pa_p;
  when (bool_decide (p = before)) bump;;
  skip_to_decl loop_fuel.

Definition type_alias : PS unit :=
  err_here PDiag.UnexpectedToken
    (String.append "type aliases do not exist; "
       (String.append (quoted "type") " is legal only inside a trait or impl body"));;
  bump;;
  skip_assoc_item.

Definition decl_body (before : nat) : PS Kind.NodeKind :=
  k ← cur;
  match k with
  | KwFn => fn_sig;; block_f;; mret Kind.FnDecl
  | KwExtern => extern_decl;; mret Kind.ExternFnDecl
  | KwStruct => struct_decl;; mret Kind.StructDecl
  | KwEnum => enum_decl;; mret Kind.EnumDecl
  | KwTrait => trait_decl;; mret Kind.TraitDecl
  | KwImpl => impl_decl;; mret Kind.ImplDecl
  | KwConst => const_decl;; mret Kind.ConstDecl
  | KwType => type_alias;; mret Kind.Error
  | Ident =>
      If nth_is 1 KwStruct &&& is_word "soa" Then (bump;; struct_decl;; mret Kind.StructDecl)
      Else (not_a_decl before;; mret Kind.Error)
  | _ => not_a_decl before;; mret Kind.Error
  end.

Definition decl : PS unit :=
  before ← gets pa_p;
  start_node Kind.Error;;
  attributes_loop loop_fuel;;
  opt KwPub;;
  kind ← decl_body before;
  set_current_kind kind;;
  finish_node.

(** ** The file *)

Definition use_item : PS unit :=
  in_node Kind.UseItem
    (path Kind.Path;;
     If opt KwAs Then expect_ Ident "expected an identifier after 'as'").
Fixpoint use_items (fuel : nat) : PS unit :=
  If opt Comma Then
    match fuel with O => out_of_fuel | S fuel => use_item;; use_items fuel end.
Definition use_decl : PS unit :=
  in_node Kind.UseDecl (opt KwPub;; bump;; use_item;; use_items loop_fuel;; expect_semi).

Definition needs_path : PS unit := If at_ KwAsm Then in_node Kind.Path bump Else path Kind.Path.
Definition input_path : PS unit :=
  k ← cur;
  match k with
  | Str | MultilineStr => literal;; mret tt
  | _ => expected "expected a string"
  end.

Definition module_hdr : PS unit := in_node Kind.ModuleHdr (bump;; path Kind.Path;; expect_semi).
Definition contracts_clause : PS unit :=
  in_node Kind.ContractsClause
    (bump;; expect_ Colon "expected ':' after 'contracts'";; dot_lit;; expect_semi).
Definition needs_clause : PS unit :=
  in_node Kind.NeedsClause (bump;; delimited LBrace RBrace None needs_path;; expect_semi).
Definition inputs_clause : PS unit :=
  in_node Kind.InputsClause (bump;; delimited LBrace RBrace None input_path;; expect_semi).

Fixpoint uses_loop (fuel : nat) : PS unit :=
  If at_ KwUse ||| (at_ KwPub &&& nth_is 1 KwUse) Then
    match fuel with O => out_of_fuel | S fuel => use_decl;; uses_loop fuel end.
Fixpoint decls_loop (fuel : nat) : PS unit :=
  If at_ Eof Then mret tt Else
    match fuel with O => out_of_fuel | S fuel => decl;; decls_loop fuel end.

Definition file : PS unit :=
  in_node Kind.File
    (If at_ KwModule Then module_hdr;;
     If is_word "contracts" Then contracts_clause;;
     If is_word "needs" Then needs_clause;;
     If is_word "inputs" Then inputs_clause;;
     uses_loop loop_fuel;;
     decls_loop loop_fuel;;
     bump_any).
End file.

(** ** Entry points *)

Definition lex_message (code : DiagCode) : string :=
  match code with
  | UnterminatedBlockComment => "unterminated block comment"
  | UnterminatedString => "unterminated string literal"
  | BadEscape => "invalid escape in string literal"
  | BadSuffix => "invalid literal suffix"
  | BadRangeDots => "'..' is not an operator; expected '..<' or '..='"
  | StrayByte => "character is not part of any token"
  | FileTooLarge => "source file too large"
  | InvalidUtf8 => "source is not valid UTF-8"
  end.

Definition lex_diag (d : Diagnostic) : PDiag.Diagnostic :=
  PDiag.new (d_start d) (Z.max (d_end d) (Z.min (d_start d + 1) (2 ^ 32 - 1))) PDiag.LexError
    (lex_message (d_code d)).

(** The indices of the tokens the grammar sees, from index [i]. *)
Fixpoint significant_from (i : nat) (ks : list TokenKind) : list nat :=
  match ks with
  | [] => []
  | k :: ks =>
      if negb (is_trivia k) && negb (token_kind_eqb k Error) then i :: significant_from (S i) ks
      else significant_from (S i) ks
  end.

(** [diags.sort_by_key(|d| d.start)], a stable sort. *)
Fixpoint insert_diag (d : PDiag.Diagnostic) (ds : list PDiag.Diagnostic) : list PDiag.Diagnostic :=
  match ds with
  | [] => [d]
  | d' :: ds => if (PDiag.start d <=? PDiag.start d')%Z then d :: d' :: ds else d' :: insert_diag d ds
  end.
Definition sort_diags (ds : list PDiag.Diagnostic) : list PDiag.Diagnostic := foldr insert_diag [] ds.

Definition new_parser : Parser := MkParser 0 Builder.new [] USIZE_MAX 0 false false 0.

Definition parse_tokens (toks : Tokens) (lex_diags : list Diagnostic) (src : list byte) :
    res (Tree * list PDiag.Diagnostic) :=
  let sg := significant_from 0 (Lexer.kinds toks) in
  let diags := lex_diag <$> lex_diags in
  ends_in_eof ← match last sg with
                | Some i => k ← get_ix (Lexer.kinds toks !! i); Done (token_kind_eqb k Eof)
                | None => Done false
                end;
  if negb (ends_in_eof : bool) then
    b ← Builder.bump_raw (wrap 32 (Z.of_nat (tok_len toks))) (Builder.start_node Kind.File Builder.new);
    b ← Builder.finish_node b;
    tree ← Builder.finish b;
    Done (tree, diags)
  else
    '(_, p) ← file (H := Build_Input toks src sg) new_parser;
    tree ← Builder.finish (pa_b p);
    let all := diags ++ pa_diags p in
    Done (tree, match diags with [] => all | _ => sort_diags all end).

Record Parse : Type := MkParse { ps_tokens : Tokens; ps_tree : Tree; ps_diags : list PDiag.Diagnostic }.

Definition parse_file (src : list byte) : res Parse :=
  '(tokens, lex_diags) ← lex src;
  '(tree, diags) ← parse_tokens tokens lex_diags src;
  Done (MkParse tokens tree diags).

Definition parse (src : list byte) : res (Tree * list PDiag.Diagnostic) :=
  p ← parse_file src; Done (ps_tree p, ps_diags p).

Example parse_fn :
  parse (bytes_of "fn f(let x: i32) -> i32 { x + 1 }") =
  Done (MkTree [Kind.File; Kind.FnDecl; Kind.FnSig; Kind.Params; Kind.Param; Kind.TypeApp; Kind.TypeApp;
                Kind.Block; Kind.AddExpr; Kind.NameExpr; Kind.Literal]
          [0; 0; 0; 3; 4; 8; 13; 15; 17; 17; 21]%Z [26; 25; 15; 8; 6; 2; 2; 10; 6; 2; 2]%Z
          [11; 10; 5; 3; 2; 1; 1; 4; 3; 1; 1]%Z, []).
Proof. vm_compute. reflexivity. Qed.
