(* ===== verification/SynSteps.v ===== *)
(** * Steps of the parser on forests

    The parser acts on the forest its builder stands for.  [wp] says that a step
    neither panics nor runs out of fuel, and where it leads; [runs] counts the
    nodes and the levels of nesting that a step leaves open. *)

From Stdlib Require Import Strings.Byte.
From S2P Require Import Prelude SynTree SynBuilder Token Lexer SynCursor SynParse.
Local Open Scope nat_scope.

(** ** Builders, also past 32 bits *)

Record safe (b : TreeBuilder) : Prop := {
  sf_cols : columns_ok b;
  sf_stack : Forall (λ i, Z.to_nat i < length (b_kinds b)) (b_stack b);
  sf_last : b_last_closed b = NONE ∨ Z.to_nat (b_last_closed b) < length (b_kinds b) }.

Record brep (b : TreeBuilder) (F : forest) : Prop := {
  br_safe : safe b;
  br_cur : b_cur_token b = fo_cur F;
  br_repr : fits_node b → repr b F }.

Lemma wrap32_le n : Z.to_nat (wrap 32 (Z.of_nat n)) ≤ n.
Proof. unfold wrap. pose proof (Z.mod_le (Z.of_nat n) (2 ^ 32)). lia. Qed.

Lemma safe_push k f st b : safe b → safe (Builder.push k f st b).1 ∧
  length (b_kinds (Builder.push k f st b).1) = S (length (b_kinds b)).
Proof.
  intros [[] Hs Hl]. unfold Builder.push. simpl. rewrite length_app, Nat.add_1_r. split; [|done].
  split; simpl; rewrite ?length_app; simpl.
  - split; simpl; rewrite !length_app; simpl; lia.
  - constructor; [pose proof (wrap32_le (length (b_kinds b))); lia|].
    eapply Forall_impl; [exact Hs|]. simpl. lia.
  - lia.
Qed.

Lemma start_node_brep k b F : brep b F → brep (Builder.start_node k b) (open_node k F).
Proof.
  intros [Hs Hc Hr]. pose proof (safe_push k (b_cur_token b) NONE b Hs) as [[Hc' Hs' _] El].
  unfold Builder.start_node. split.
  - split; simpl in *; [by destruct Hc'|done|by left].
  - done.
  - intros Hf. apply start_node_repr; [|done]. apply Hr. unfold fits_node in *.
    unfold Builder.start_node in Hf. simpl in Hf. rewrite length_app in Hf. simpl in Hf. lia.
Qed.

Lemma put_columns {A} (xs : list A) i x : i < length xs → put xs i x = Done (<[i := x]> xs).
Proof. apply put_spec. Qed.

Lemma finish_node_brep b F : brep b F → ∃ b', Builder.finish_node b = Done b' ∧ brep b' (close_node F).
Proof.
  intros [Hs Hc Hr].
  assert (fo_cur (close_node F) = fo_cur F) as Ecur.
  { unfold close_node, add_tree. by repeat case_match. }
  assert (∃ b', Builder.finish_node b = Done b' ∧ safe b' ∧ b_cur_token b' = b_cur_token b ∧
    length (b_kinds b') = length (b_kinds b)) as (b' & E & Hs' & Ec & El).
  { destruct Hs as [[] Hst Hl]. unfold Builder.finish_node. destruct (b_stack b) as [|i stack] eqn:Es.
    - exists b. split_and!; [done| |done..]. split; [done|by rewrite Es|done].
    - apply Forall_cons in Hst as [Hi Hst]. rewrite !put_spec by lia. cbn [mbind res_bind].
      eexists. split_and!; [done| |done..]. split; simpl; [|done|by right].
      split; simpl; rewrite ?length_insert; done. }
  exists b'. split; [done|]. split; [done|congruence|]. intros Hf.
  destruct (finish_node_repr b F) as (b'' & E' & Hr' & _); [apply Hr; unfold fits_node in *; lia|].
  rewrite E in E'. by injection E' as <-.
Qed.

Lemma wrap_brep k b F : brep b F →
  ∃ b', Builder.wrap_last_sibling k b = Done b' ∧ brep b' (wrap_node k F).
Proof.
  intros Hb. pose proof Hb as [Hs Hc Hr].
  assert (fo_cur (wrap_node k F) = fo_cur F) as Ecur.
  { unfold wrap_node, last_tree. repeat case_match; simplify_eq; done. }
  assert (∃ b', Builder.wrap_last_sibling k b = Done b' ∧ safe b' ∧ b_cur_token b' = b_cur_token b ∧
    length (b_kinds b') = S (length (b_kinds b))) as (b' & E & Hs' & Ec & El).
  { unfold Builder.wrap_last_sibling. destruct (Z.eqb_spec (b_last_closed b) NONE) as [El|El].
    - destruct (start_node_brep k b F Hb) as [Hs' _ _]. eexists. split_and!; [done..|].
      simpl. rewrite length_app. simpl. lia.
    - destruct Hs as [Hcols Hst Hl]. destruct Hl as [?|Hl]; [done|].
      pose proof Hcols as [].
      destruct (lookup_lt_is_Some_2 (b_first_token b) (Z.to_nat (b_last_closed b))) as [f Ef]; [lia|].
      destruct (lookup_lt_is_Some_2 (b_start_of b) (Z.to_nat (b_last_closed b))) as [st Est]; [lia|].
      rewrite Ef, Est. cbn [get_ix mbind res_bind].
      pose proof (safe_push k f st b) as [[Hc1 Hs1 Hl1] El1]; [by split; [done|done|right]|].
      destruct (Builder.push k f st b) as [b1 idx] eqn:Ep. simpl in *.
      pose proof Hc1 as []. rewrite put_spec by lia. cbn [mbind res_bind].
      eexists. split_and!; [done| | |done].
      + split; simpl; [split; simpl; rewrite ?length_insert; done|done|by left].
      + unfold Builder.push in Ep. by injection Ep as <- _. }
  exists b'. split; [done|]. split; [done|congruence|]. intros Hf.
  destruct (wrap_repr k b F) as (b'' & E' & _ & Hr'); [apply Hr; unfold fits_node in *; lia|].
  rewrite E in E'. injection E' as <-. by apply Hr'.
Qed.

Lemma set_kind_safe k b i : safe b → Z.to_nat i < length (b_kinds b) →
  ∃ b', Builder.set_kind i k b = Done b' ∧ safe b' ∧ b_cur_token b' = b_cur_token b ∧
    length (b_kinds b') = length (b_kinds b).
Proof.
  intros [[] Hst Hl] Hi. unfold Builder.set_kind. rewrite put_spec by lia. cbn [mbind res_bind].
  eexists. split_and!; [done| |done|simpl; apply length_insert].
  split; simpl; rewrite ?length_insert; [split; simpl; rewrite ?length_insert; done|done|done].
Qed.

Lemma set_current_kind_brep k b F : brep b F →
  ∃ b', Builder.set_current_kind k b = Done b' ∧ brep b' (rename_node k F).
Proof.
  intros [Hs Hc Hr].
  assert (fo_cur (rename_node k F) = fo_cur F) as Ecur by (unfold rename_node; by repeat case_match).
  assert (∃ b', Builder.set_current_kind k b = Done b' ∧ safe b' ∧ b_cur_token b' = b_cur_token b ∧
    length (b_kinds b') = length (b_kinds b)) as (b' & E & Hs' & Ec & El).
  { unfold Builder.set_current_kind. destruct (b_stack b) as [|i stack] eqn:Es; [by exists b|].
    apply set_kind_safe; [done|]. pose proof (sf_stack _ Hs) as Hst. rewrite Es in Hst.
    by apply Forall_cons in Hst as [Hi _]. }
  exists b'. split; [done|]. split; [done|congruence|]. intros Hf.
  destruct (set_current_kind_repr k b F) as (b'' & E' & Hr' & _); [apply Hr; unfold fits_node in *; lia|].
  rewrite E in E'. by injection E' as <-.
Qed.

Lemma set_last_kind_brep k b F : brep b F →
  ∃ b', Builder.set_last_kind k b = Done b' ∧ brep b' (rename_last k F).
Proof.
  intros [Hs Hc Hr].
  assert (fo_cur (rename_last k F) = fo_cur F) as Ecur.
  { unfold rename_last, last_tree, add_tree. repeat case_match; simplify_eq; simpl in *; congruence. }
  assert (∃ b', Builder.set_last_kind k b = Done b' ∧ safe b' ∧ b_cur_token b' = b_cur_token b ∧
    length (b_kinds b') = length (b_kinds b)) as (b' & E & Hs' & Ec & El).
  { unfold Builder.set_last_kind. destruct (Z.eqb_spec (b_last_closed b) NONE) as [El|El]; [by exists b|].
    apply set_kind_safe; [done|]. by destruct (sf_last _ Hs). }
  exists b'. split; [done|]. split; [done|congruence|]. intros Hf.
  destruct (set_last_kind_repr k b F) as (b'' & E' & Hr' & _); [apply Hr; unfold fits_node in *; lia|].
  rewrite E in E'. by injection E' as <-.
Qed.

Lemma bump_raw_brep n b F : brep b F → (0 ≤ n)%Z → (fo_cur F + n < 2 ^ 32)%Z →
  ∃ b', Builder.bump_raw n b = Done b' ∧ brep b' (advance n F).
Proof.
  intros [Hs Hc Hr] Hn Hlt. unfold Builder.bump_raw, add32.
  destruct (Z.leb_spec (2 ^ 32) (b_cur_token b + n)); [lia|]. cbn [mbind res_bind].
  eexists. split; [done|]. split; [by destruct Hs as [[] ? ?]; split; [split|..]|simpl; lia|].
  intros Hf. destruct (advance_repr n b F) as (b'' & E' & Hr' & _); [apply Hr; done|done|done|].
  unfold Builder.bump_raw, add32 in E'. destruct (Z.leb_spec (2 ^ 32) (b_cur_token b + n)); [lia|].
  by injection E' as <-.
Qed.

(** ** Streams of tokens *)

(** What a lexed source gives the parser. *)
Record input_ok `{Input} : Prop := {
  in_kind : ∀ i j, sig !! i = Some j → ∃ k, Lexer.kinds tokens !! j = Some k;
  in_last : ∃ j, sig !! (length sig - 1) = Some j ∧ Lexer.kinds tokens !! j = Some Eof;
  in_eof : ∀ i j, sig !! i = Some j → Lexer.kinds tokens !! j = Some Eof → i = length sig - 1;
  in_mono : ∀ i j a b, i < j → sig !! i = Some a → sig !! j = Some b → a < b;
  in_fits : ∀ i j, sig !! i = Some j → (Z.of_nat j + 1 < 2 ^ 32)%Z;
  in_range : ∀ i j, sig !! i = Some j → ∃ s e, range tokens j = Done (s, e);
  in_text : ∀ i j, sig !! i = Some j → Lexer.kinds tokens !! j = Some Ident → ∃ t, text tokens j source = Done t }.

(** A state of the parser with the forest of its builder. *)
Record conf : Type := MkConf { cf_st : Parser; cf_F : forest }.

Section steps.
Context `{Input}.

Definition tok_at (p : nat) : Z :=
  match p with O => 0 | S q => Z.of_nat (default 0 (sig !! q)) + 1 end.
Abbreviation pos c := (pa_p (cf_st c)).
Abbreviation depth c := (pa_depth (cf_st c)).
Abbreviation members c := (pa_in_member_body (cf_st c)).

Record sane (c : conf) : Prop := {
  sn_b : brep (pa_b (cf_st c)) (cf_F c);
  sn_pos : pos c < length sig;
  sn_cur : fo_cur (cf_F c) = tok_at (pos c);
  sn_nested : nested (cf_F c);
  sn_depth : depth c ≤ MAX_DEPTH }.

Definition kind (c : conf) : TokenKind :=
  default Eof (sig !! pos c ≫= λ i, Lexer.kinds tokens !! i).
Definition left (c : conf) : nat := length sig - 1 - pos c.

Definition wp {A} (m : PS A) (c : conf) (Q : A → conf → Prop) : Prop :=
  sane c → ∃ x st F, m (cf_st c) = Done (x, st) ∧ sane (MkConf st F) ∧ Q x (MkConf st F).

Lemma pwp_ret {A} (a : A) c (Q : A → conf → Prop) : Q a c → wp (mret a) c Q.
Proof. destruct c as [st F]. intros HQ Hc. by exists a, st, F. Qed.

Lemma pwp_bind {A B} (m : PS A) (f : A → PS B) c Q :
  wp m c (λ x c', wp (f x) c' Q) → wp (m ≫= f) c Q.
Proof.
  intros Hm Hc. destruct (Hm Hc) as (x & st & F & E & Hs & Hf). destruct (Hf Hs) as (y & st' & F' & E' & Hs' & HQ).
  exists y, st', F'. split_and!; [|done..]. unfold mbind, ps_bind. rewrite E. exact E'.
Qed.

Lemma pwp_mono {A} (m : PS A) c (Q R : A → conf → Prop) :
  wp m c Q → (∀ x c', Q x c' → R x c') → wp m c R.
Proof.
  intros Hm HQR Hc. destruct (Hm Hc) as (x & st & F & E & Hs & HQ). exists x, st, F.
  split_and!; [done..|]. by apply HQR.
Qed.

Lemma wp_sane {A} (m : PS A) c Q : (sane c → wp m c Q) → wp m c Q.
Proof. intros Hm Hc. by apply Hm. Qed.

Lemma pwp_gets {A} (f : Parser → A) c (Q : A → conf → Prop) : Q (f (cf_st c)) c → wp (gets f) c Q.
Proof. destruct c as [st F]. intros HQ Hc. by exists (f st), st, F. Qed.

Lemma pwp_lift {A} (r : res A) a c (Q : A → conf → Prop) : r = Done a → Q a c → wp (lift r) c Q.
Proof. destruct c as [st F]. intros -> HQ Hc. by exists a, st, F. Qed.

Lemma wp_if {A} (b : bool) (m m' : PS A) c Q : (b = true → wp m c Q) → (b = false → wp m' c Q) →
  wp (if b then m else m') c Q.
Proof. destruct b; auto. Qed.

Lemma wp_ifM {A} b (m m' : PS A) c Q :
  wp b c (λ x c', if x : bool then wp m c' Q else wp m' c' Q) → wp (ifM b m m') c Q.
Proof. intros Hb. apply pwp_bind. eapply pwp_mono; [exact Hb|]. by intros [] c'. Qed.

Lemma wp_orM b b' c Q :
  wp b c (λ x c', if x : bool then Q true c' else wp b' c' Q) → wp (orM b b') c Q.
Proof. intros Hb. apply pwp_bind. eapply pwp_mono; [exact Hb|]. intros [] c'; [apply pwp_ret|done]. Qed.

Lemma wp_andM b b' c Q :
  wp b c (λ x c', if x : bool then wp b' c' Q else Q false c') → wp (andM b b') c Q.
Proof. intros Hb. apply pwp_bind. eapply pwp_mono; [exact Hb|]. intros [] c'; [done|apply pwp_ret]. Qed.

Lemma wp_notM b c Q : wp b c (λ x c', Q (negb x) c') → wp (notM b) c Q.
Proof. intros Hb. apply pwp_bind. eapply pwp_mono; [exact Hb|]. intros x c' HQ. by apply pwp_ret. Qed.

(** A change of a field other than the position, the builder and the depth. *)
Lemma pwp_modify f c (Q : unit → conf → Prop) :
  pa_b (f (cf_st c)) = pa_b (cf_st c) → pa_p (f (cf_st c)) = pos c →
  (pa_depth (f (cf_st c)) ≤ MAX_DEPTH) →
  Q tt (MkConf (f (cf_st c)) (cf_F c)) → wp (modify f) c Q.
Proof.
  intros Eb Ep Hd HQ [Hb Hp Hcur Hn _]. exists tt, (f (cf_st c)), (cf_F c). split_and!; [done| |done].
  split; simpl; rewrite ?Eb, ?Ep; done.
Qed.

(** A call of the builder. *)
Lemma wp_build f g c (Q : unit → conf → Prop) :
  (∀ b F, brep b F → ∃ b', f b = Done b' ∧ brep b' (g F)) →
  (∀ F, fo_cur (g F) = fo_cur F) → (∀ F, nested F → nested (g F)) →
  (∀ b, Q tt (MkConf (with_b b (cf_st c)) (g (cf_F c)))) → wp (build f) c Q.
Proof.
  intros Hf Hcur Hn HQ [Hb Hp Hc Hn' Hd]. destruct (Hf _ _ Hb) as (b & E & Hb').
  exists tt, (with_b b (cf_st c)), (g (cf_F c)).
  split_and!; [unfold build; by rewrite E| |done]. split; simpl; [done..| |auto|done]. by rewrite Hcur.
Qed.

(** ** What a step leaves open *)

(** The same open nodes, with other finished trees under the innermost. *)
Definition same_open (F F' : forest) : Prop :=
  match fo_frames F, fo_frames F' with
  | [], [] => True
  | fr :: frs, fr' :: frs' =>
      of_kind fr' = of_kind fr ∧ of_first fr' = of_first fr ∧ frs' = frs ∧ fo_roots F' = fo_roots F
  | _, _ => False
  end.

Lemma same_open_refl F : same_open F F.
Proof. unfold same_open. by destruct (fo_frames F). Qed.
Lemma same_open_trans F F' F'' : same_open F F' → same_open F' F'' → same_open F F''.
Proof.
  unfold same_open. destruct (fo_frames F), (fo_frames F'), (fo_frames F''); try done.
  intros (? & ? & ? & ?) (? & ? & ? & ?). split_and!; congruence.
Qed.
Lemma add_tree_open t F : same_open F (add_tree t F).
Proof. unfold same_open, add_tree. by destruct (fo_frames F). Qed.
Lemma last_tree_open F t F' : last_tree F = Some (t, F') → same_open F F' ∧ fo_cur F' = fo_cur F.
Proof. unfold last_tree, same_open. intros E. by repeat case_match; simplify_eq/=. Qed.

(** Where a step began. *)
Record origin : Type := MkOrigin { og_pos : nat; og_depth : nat; og_members : nat; og_F : forest }.
Definition here (c : conf) : origin := MkOrigin (pos c) (depth c) (members c) (cf_F c).
Definition after (p : nat) (o : origin) : origin := MkOrigin p (og_depth o) (og_members o) (og_F o).

(** [k] more open nodes and [d] more levels than at [o]. *)
Record opened (k d : nat) (o : origin) (c : conf) : Prop := {
  op_pos : og_pos o ≤ pos c;
  op_depth : depth c = og_depth o + d;
  op_members : members c = og_members o;
  op_F : ∃ inner frs, fo_frames (cf_F c) = inner ++ frs ∧ length inner = k ∧
    same_open (og_F o) (MkForest frs (fo_roots (cf_F c)) 0 false) }.

Lemma opened_here c : opened 0 0 (here c) c.
Proof.
  split; [done|simpl; lia|done|]. exists [], (fo_frames (cf_F c)). split_and!; [done..|].
  unfold same_open. simpl. by destruct (fo_frames (cf_F c)).
Qed.

Lemma opened_trans k d k' d' o c c' : opened k d o c → opened 0 0 (here c) c' → k' = k → d' = d → opened k' d' o c'.
Proof.
  intros [Hp Hd Hm (inner & frs & E & El & Ho)] [Hp' Hd' Hm' (inner' & frs' & E' & El' & Ho')] -> ->.
  simpl in *. split; [lia|lia|congruence|]. destruct inner' as [|]; [|done]. simpl in E'.
  unfold same_open in Ho'. simpl in Ho'. rewrite <- E' in Ho'. destruct inner as [|fr inner]; simpl in *.
  - exists [], (fo_frames (cf_F c')). split_and!; [done..|]. rewrite E in Ho'.
    eapply same_open_trans; [exact Ho|]. unfold same_open. simpl. destruct frs, (fo_frames (cf_F c')); done.
  - rewrite E in Ho'. destruct (fo_frames (cf_F c')) as [|fr' rest]; [done|].
    destruct Ho' as (_ & _ & -> & ->). by exists (fr' :: inner), frs.
Qed.

(** The fields besides the builder are kept. *)
Definition same_place (st st' : Parser) : Prop :=
  pa_p st ≤ pa_p st' ∧ pa_depth st' = pa_depth st ∧ pa_in_member_body st' = pa_in_member_body st.

Lemma opened_touch k d o c st F : opened k d o c → same_place (cf_st c) st → same_open (cf_F c) F →
  opened k d o (MkConf st F).
Proof.
  intros Ho (Hp & Hd & Hm) HF. eapply opened_trans; [exact Ho| |done..]. split; simpl; [done|lia|done|].
  exists [], (fo_frames F). split_and!; [done..|]. unfold same_open in *. simpl. destruct (fo_frames (cf_F c)), (fo_frames F); done.
Qed.

Lemma opened_open k d o c st F fr : opened k d o c → same_place (cf_st c) st → same_open (cf_F c) F →
  ∀ F', fo_frames F' = fr :: fo_frames F → fo_roots F' = fo_roots F → opened (S k) d o (MkConf st F').
Proof.
  intros Ho Hst HF F' E Er. destruct (opened_touch _ _ _ _ _ _ Ho Hst HF) as [Hp Hd Hm (inner & frs & E' & El & Hs)].
  split; [done..|]. simpl in *. exists (fr :: inner), frs. rewrite E, E', Er. split_and!; [done|simpl; lia|done].
Qed.

Lemma opened_close k d o c st : opened (S k) d o c → same_place (cf_st c) st →
  opened k d o (MkConf st (close_node (cf_F c))).
Proof.
  intros [Hp Hd Hm (inner & frs & E & El & Hs)] (Hp' & Hd' & Hm'). destruct inner as [|fr inner]; [done|].
  unfold close_node. rewrite E. simpl.
  eapply (opened_touch _ _ _ (MkConf st (MkForest (inner ++ frs) (fo_roots (cf_F c)) (fo_cur (cf_F c)) false))); [|by split_and!|].
  - split; simpl; [lia|lia|congruence|]. exists inner, frs. split_and!; [done|by injection El|done].
  - apply add_tree_open.
Qed.

Lemma opened_wrap k d o c st kd : opened k d o c → same_place (cf_st c) st →
  opened (S k) d o (MkConf st (wrap_node kd (cf_F c))).
Proof.
  intros Ho Hst. unfold wrap_node. destruct (last_tree (cf_F c)) as [[t F]|] eqn:E.
  - destruct (last_tree_open _ _ _ E) as [HF _]. by eapply opened_open.
  - eapply opened_open; [exact Ho|done|apply same_open_refl|done..].
Qed.

Lemma opened_rename k d o c st kd : opened (S k) d o c → same_place (cf_st c) st →
  opened (S k) d o (MkConf st (rename_node kd (cf_F c))).
Proof.
  intros [Hp Hd Hm (inner & frs & E & El & Hs)] (Hp' & Hd' & Hm'). destruct inner as [|fr inner]; [done|].
  split; simpl; [lia|lia|congruence|]. unfold rename_node. rewrite E. simpl.
  by exists (MkOpen kd (of_first fr) (of_done fr) :: inner), frs.
Qed.

Lemma opened_rename_last k d o c st kd : opened k d o c → same_place (cf_st c) st →
  opened k d o (MkConf st (rename_last kd (cf_F c))).
Proof.
  intros Ho Hst. eapply opened_touch; [exact Ho|done|]. unfold rename_last.
  destruct (last_tree (cf_F c)) as [[[k' f e cs] F]|] eqn:E; [|apply same_open_refl].
  destruct (last_tree_open _ _ _ E) as [HF _]. eapply same_open_trans; [exact HF|apply add_tree_open].
Qed.
End steps.

(** * Steps of the cursor

    What the primitives of the parser do, in the terms of SynSteps: the token
    cursor, diagnostics, the synchronisation sets and the skips of error
    recovery, with the fuel of their loops. *)

Abbreviation pos c := (pa_p (cf_st c)).
Abbreviation depth c := (pa_depth (cf_st c)).

Section cursor.
Context `{Input} (Hin : input_ok).

(** ** Reading tokens *)

Definition kind_at (c : conf) (n : nat) : TokenKind :=
  default Eof (sig !! Nat.min (pos c + n) (length sig - 1) ≫= λ i, Lexer.kinds tokens !! i).

Lemma kind_at_0 c : sane c → kind_at c 0 = kind c.
Proof. intros [_ Hp _ _ _]. unfold kind_at, kind. by rewrite Nat.add_0_r, Nat.min_l by lia. Qed.

Lemma kind_at_end c n : length sig - 1 ≤ pos c + n → kind_at c n = Eof.
Proof using Hin.
  intros Hle. unfold kind_at. rewrite Nat.min_r by lia. destruct (in_last Hin) as (j & -> & Hj). simpl. by rewrite Hj.
Qed.

Lemma left_eof c : sane c → left c = 0 → kind c = Eof.
Proof using Hin. intros Hc Hl. rewrite <- kind_at_0 by done. apply kind_at_end. unfold left in Hl. lia. Qed.

Lemma sig_some p : p < length sig → ∃ i, sig !! p = Some i.
Proof. intros Hp. by apply lookup_lt_is_Some_2. Qed.

Lemma wp_raw n c (Q : nat → conf → Prop) :
  (∀ i, sig !! Nat.min (pos c + n) (length sig - 1) = Some i → Q i c) → wp (raw n) c Q.
Proof.
  intros HQ. apply wp_sane. intros [_ Hp _ _ _]. apply pwp_bind, pwp_gets.
  destruct (sig_some (Nat.min (pos c + n) (length sig - 1))) as [i Hi]; [lia|].
  eapply pwp_lift; [by rewrite Hi|]. by apply HQ.
Qed.

Lemma wp_nth n c (Q : TokenKind → conf → Prop) : Q (kind_at c n) c → wp (nth n) c Q.
Proof using Hin.
  intros HQ. apply pwp_bind, wp_raw. intros i Hi. destruct (in_kind Hin _ _ Hi) as [k Hk].
  eapply pwp_lift; [by rewrite Hk|]. unfold kind_at in HQ. rewrite Hi in HQ. simpl in HQ. by rewrite Hk in HQ.
Qed.

Lemma wp_cur c (Q : TokenKind → conf → Prop) : Q (kind c) c → wp cur c Q.
Proof using Hin. intros HQ. apply wp_sane. intros Hc. apply wp_nth. by rewrite kind_at_0. Qed.

Lemma wp_at k c (Q : bool → conf → Prop) : Q (token_kind_eqb (kind c) k) c → wp (at_ k) c Q.
Proof using Hin. intros HQ. apply pwp_bind, wp_cur, pwp_ret, HQ. Qed.

Lemma wp_nth_is n k c (Q : bool → conf → Prop) : Q (token_kind_eqb (kind_at c n) k) c → wp (nth_is n k) c Q.
Proof using Hin. intros HQ. apply pwp_bind, wp_nth, pwp_ret, HQ. Qed.

Lemma eqb_true k k' : token_kind_eqb k k' = true ↔ k = k'.
Proof. apply bool_decide_eq_true. Qed.
Lemma eqb_false k k' : token_kind_eqb k k' = false ↔ k ≠ k'.
Proof. apply bool_decide_eq_false. Qed.

(** [true] only at an identifier. *)
Lemma wp_word_at n w c (Q : bool → conf → Prop) : (kind_at c n = Ident → Q true c) → Q false c →
  wp (word_at n w) c Q.
Proof using Hin.
  intros HQ HQ'. apply pwp_bind, wp_nth. apply wp_if; [|by intros _; apply pwp_ret].
  intros E%eqb_true. apply pwp_bind, wp_raw. intros i Hi. apply pwp_bind.
  destruct (in_text Hin _ _ Hi) as [t Ht].
  { unfold kind_at in E. rewrite Hi in E. simpl in E. destruct (in_kind Hin _ _ Hi) as [k Hk].
    rewrite Hk in *. simpl in E. by subst k. }
  eapply pwp_lift; [exact Ht|]. apply pwp_ret. case_bool_decide; auto.
Qed.

Lemma wp_is_word w c (Q : bool → conf → Prop) : (kind c = Ident → Q true c) → Q false c → wp (is_word w) c Q.
Proof using Hin. intros HQ HQ'. apply wp_sane. intros Hc. apply wp_word_at; [|done]. by rewrite kind_at_0. Qed.

Lemma wp_cur_range c (Q : Z * Z → conf → Prop) : (∀ r, Q r c) → wp cur_range c Q.
Proof using Hin.
  intros HQ. apply pwp_bind, wp_raw. intros i Hi. destruct (in_range Hin _ _ Hi) as (s & e & E).
  eapply pwp_lift; [exact E|apply HQ].
Qed.

Lemma wp_prev_end c (Q : Z → conf → Prop) : (∀ e, Q e c) → wp prev_end c Q.
Proof using Hin.
  intros HQ. apply wp_sane. intros [_ Hp _ _ _]. apply pwp_bind, pwp_gets. apply wp_if.
  - intros _. by apply pwp_ret.
  - intros Hne%bool_decide_eq_false. destruct (sig_some (pos c - 1)) as [i Hi]; [lia|].
    apply pwp_bind. eapply pwp_lift; [by rewrite Hi|]. destruct (in_range Hin _ _ Hi) as (s & e & E).
    apply pwp_bind. eapply pwp_lift; [exact E|]. by apply pwp_ret.
Qed.

(** ** Moving *)

Lemma tok_at_le p i : sig !! p = Some i → (tok_at p ≤ Z.of_nat i)%Z.
Proof using Hin.
  intros Hi. destruct p as [|q]; simpl; [lia|]. pose proof (lookup_lt_Some _ _ _ Hi).
  destruct (sig_some q) as [j Hj]; [lia|]. rewrite Hj. simpl.
  pose proof (in_mono Hin q (S q) j i ltac:(lia) Hj Hi). lia.
Qed.

Lemma bump_any_spec c i : sane c → sig !! pos c = Some i →
  ∃ b, bump_any (cf_st c) = Done (tt, with_b b (cf_st c)) ∧
    brep b (advance (Z.of_nat i + 1 - tok_at (pos c)) (cf_F c)) ∧
    nested (advance (Z.of_nat i + 1 - tok_at (pos c)) (cf_F c)) ∧
    fo_cur (advance (Z.of_nat i + 1 - tok_at (pos c)) (cf_F c)) = tok_at (S (pos c)).
Proof using Hin.
  intros [Hb Hp Hc Hn Hd] Hi. pose proof (tok_at_le _ _ Hi) as Hle. pose proof (in_fits Hin _ _ Hi) as Hfits.
  assert (fo_cur (advance (Z.of_nat i + 1 - tok_at (pos c)) (cf_F c)) = tok_at (S (pos c))) as Ecur.
  { simpl. rewrite Hc, Hi. simpl. lia. }
  pose proof (br_cur _ _ Hb) as Ec. rewrite Hc in Ec.
  destruct (bump_raw_brep (Z.of_nat i + 1 - tok_at (pos c)) _ _ Hb) as (b & E & Hb').
  { lia. }
  { simpl in Ecur. rewrite Ecur. simpl. rewrite Hi. simpl. lia. }
  exists b. split_and!; [|done|apply advance_nested; [done|lia]|done].
  unfold bump_any, mbind, ps_bind, gets, lift. rewrite Hi. simpl. unfold build, Builder.cur_token.
  rewrite Ec, Z.max_r by lia. by rewrite E.
Qed.

Lemma pwp_bump c (Q : unit → conf → Prop) :
  (∀ c', opened 0 0 (here c) c' → (kind c ≠ Eof → pos c < pos c') → Q tt c') → wp bump c Q.
Proof using Hin.
  intros HQ Hc. pose proof Hc as [Hb Hp Hcur Hn Hd]. unfold bump.
  destruct (decide (pos c + 1 < length sig)) as [Hlt|Hlt].
  - destruct (sig_some (pos c)) as [i Hi]; [lia|].
    destruct (bump_any_spec c i Hc Hi) as (b & E & Hb' & Hn' & Hc').
    set (F := advance _ (cf_F c)) in *.
    exists tt, (with_p (pos c + 1) (with_b b (cf_st c))), F. split_and!.
    + unfold mbind, ps_bind, gets. rewrite bool_decide_eq_true_2 by done. rewrite E. done.
    + split; simpl; [done|done|by rewrite Nat.add_1_r|done|done].
    + apply HQ.
      * apply (opened_touch _ _ _ c); [apply opened_here|split_and!; simpl; [lia|done|done]|].
        unfold same_open, F. simpl. destruct (fo_frames (cf_F c)); [done|]. by split_and!.
      * intros _. simpl. lia.
  - exists tt, (cf_st c), (cf_F c). split_and!; [|by destruct c|].
    + unfold mbind, ps_bind, gets. by rewrite bool_decide_eq_false_2.
    + apply HQ; [destruct c; apply opened_here|]. intros Hk. destruct Hk. apply left_eof; [done|]. unfold left. lia.
Qed.

Lemma wp_opt k c (Q : bool → conf → Prop) :
  (kind c = k → ∀ c', opened 0 0 (here c) c' → (k ≠ Eof → pos c < pos c') → Q true c') →
  (kind c ≠ k → Q false c) → wp (opt k) c Q.
Proof using Hin.
  intros HQ HQ'. apply wp_ifM, wp_at. destruct (token_kind_eqb (kind c) k) eqn:E.
  - apply eqb_true in E. apply pwp_bind, pwp_bump. intros c' Ho Hp. apply pwp_ret, HQ; [done|done|by subst k].
  - apply eqb_false in E. apply pwp_ret, HQ', E.
Qed.

(** ** Diagnostics *)

(** Only the diagnostics may have changed. *)
Record silent (c c' : conf) : Prop := {
  si_pos : pos c' = pos c; si_F : cf_F c' = cf_F c; si_depth : depth c' = depth c;
  si_members : pa_in_member_body (cf_st c') = pa_in_member_body (cf_st c) }.

Lemma silent_refl c : silent c c. Proof. done. Qed.
Lemma silent_trans c c' c'' : silent c c' → silent c' c'' → silent c c''.
Proof. intros [] []. split; congruence. Qed.
Lemma silent_kind c c' : silent c c' → kind c' = kind c.
Proof. intros []. unfold kind. congruence. Qed.
Lemma silent_left c c' : silent c c' → left c' = left c.
Proof. intros []. unfold left. congruence. Qed.
Lemma silent_opened c c' : silent c c' → opened 0 0 (here c) c'.
Proof.
  intros [Hp HF Hd Hm]. pose proof (opened_here c) as [Hp' Hd' Hm' Ho]. simpl in *.
  split; simpl; [lia|lia|congruence|]. by rewrite HF.
Qed.

(** A change of the diagnostics. *)
Lemma wp_note f c (Q : unit → conf → Prop) : (∀ st, pa_p (f st) = pa_p st) → (∀ st, pa_b (f st) = pa_b st) →
  (∀ st, pa_depth (f st) = pa_depth st) → (∀ st, pa_in_member_body (f st) = pa_in_member_body st) →
  (∀ c', silent c c' → Q tt c') → wp (modify f) c Q.
Proof.
  intros Hp Hb Hd Hm HQ. apply wp_sane. intros Hc. pose proof (sn_depth _ Hc).
  apply pwp_modify; [done|done|by rewrite Hd|]. apply HQ. split; simpl; congruence.
Qed.

Lemma wp_err_at s e code msg c (Q : unit → conf → Prop) :
  (∀ c', silent c c' → Q tt c') → wp (err_at s e code msg) c Q.
Proof.
  intros HQ. unfold err_at. apply pwp_bind, pwp_gets, pwp_bind, pwp_gets. apply wp_if; intros _.
  - apply pwp_ret, HQ, silent_refl.
  - apply pwp_bind, wp_note; [done..|]. intros c1 H1. apply pwp_bind, pwp_gets, wp_note; [done..|].
    intros c2 H2. apply HQ. by eapply silent_trans.
Qed.

Lemma wp_err_here code msg c (Q : unit → conf → Prop) :
  (∀ c', silent c c' → Q tt c') → wp (err_here code msg) c Q.
Proof using Hin.
  intros HQ. apply pwp_bind, wp_cur_range. intros [s e]. apply wp_ifM, wp_at.
  destruct (token_kind_eqb _ _); [|by apply wp_err_at].
  apply pwp_bind, wp_prev_end. intros e'. by apply wp_err_at.
Qed.

Lemma wp_expect k msg c (Q : bool → conf → Prop) :
  (∀ b c', opened 0 0 (here c) c' → Q b c') → wp (expect k msg) c Q.
Proof using Hin.
  intros HQ. apply wp_ifM, wp_opt.
  - intros _ c' Ho _. by apply pwp_ret, HQ.
  - intros _. apply pwp_bind, wp_err_here. intros c' Hs. by apply pwp_ret, HQ, silent_opened.
Qed.

Lemma wp_attach_fix before fx c (Q : unit → conf → Prop) :
  (∀ c', silent c c' → Q tt c') → wp (attach_fix before fx) c Q.
Proof.
  intros HQ. apply pwp_bind, pwp_gets. destruct (last _); [|apply pwp_ret, HQ, silent_refl].
  apply wp_if; intros _; [by apply wp_note|apply pwp_ret, HQ, silent_refl].
Qed.

(** ** Synchronisation sets *)

Lemma wp_decl_sync_at o c (Q : bool → conf → Prop) : (∀ b, Q b c) → wp (decl_sync_at o) c Q.
Proof using Hin.
  intros HQ. apply pwp_bind, wp_nth.
  assert (∀ m k w, wp (andM (nth_is m k) (word_at o w)) c Q ∧ wp (andM (nth_is m k) (word_at (o + 1) w)) c Q) as Hw.
  { intros m k w. split; apply wp_andM, wp_nth_is; (destruct (token_kind_eqb _ _); [|apply HQ]); by apply wp_word_at. }
  destruct (kind_at c o); try apply pwp_ret, HQ; try apply Hw; try apply wp_nth_is, HQ.
  apply pwp_bind, wp_nth. destruct (kind_at c (o + 1)); try apply pwp_ret, HQ. apply Hw.
Qed.

Lemma wp_attr_args_end fuel i c (Q : option nat → conf → Prop) : length sig ≤ pos c + i + fuel →
  Q None c → (∀ e, i ≤ e → Q (Some e) c) → wp (attr_args_end fuel i) c Q.
Proof using Hin.
  revert i. induction fuel as [|fuel IH]; intros i Hlen HQ HQ'; cbn [attr_args_end]; apply pwp_bind, wp_nth.
  - rewrite kind_at_end by lia. apply pwp_ret, HQ.
  - destruct (kind_at c i) eqn:E; try (apply pwp_ret, HQ'; lia).
    all: apply wp_if; [intros _; apply pwp_ret, HQ|intros _]; apply IH; [lia|done|intros e He; apply HQ'; lia].
Qed.

Lemma wp_attrs_scan fuel i c (Q : bool → conf → Prop) : length sig ≤ pos c + i + fuel →
  (∀ b, Q b c) → wp (attrs_scan fuel i) c Q.
Proof using Hin.
  revert i. induction fuel as [|fuel IH]; intros i Hlen HQ; cbn [attrs_scan]; apply wp_ifM, wp_nth_is.
  - rewrite kind_at_end by lia. by apply wp_decl_sync_at.
  - destruct (token_kind_eqb _ _); [|by apply wp_decl_sync_at].
    apply wp_ifM, wp_nth_is. destruct (token_kind_eqb _ _); [|apply pwp_ret, HQ].
    apply wp_ifM, wp_nth_is. destruct (token_kind_eqb _ _); [|apply IH; [lia|done]].
    apply pwp_bind, wp_attr_args_end; [lia|apply pwp_ret, HQ|]. intros e He. apply IH; [lia|done].
Qed.

Lemma wp_at_decl_sync c (Q : bool → conf → Prop) : (∀ b, Q b c) → wp at_decl_sync c Q.
Proof using Hin.
  intros HQ. apply wp_orM, wp_decl_sync_at. intros []; [apply HQ|]. apply wp_andM, wp_at.
  destruct (token_kind_eqb _ _); [|apply HQ]. apply wp_attrs_scan; [lia|done].
Qed.

Lemma wp_at_body_overrun c (Q : bool → conf → Prop) : (∀ b, Q b c) → wp at_body_overrun c Q.
Proof using Hin.
  intros HQ. apply wp_andM, wp_decl_sync_at. intros []; [|apply HQ]. apply wp_notM, wp_orM, wp_at.
  destruct (token_kind_eqb _ _); [apply HQ|]. apply wp_andM, wp_at.
  destruct (token_kind_eqb _ _); [|apply HQ]. apply wp_nth_is, HQ.
Qed.

Lemma wp_at_stmt_sync c (Q : bool → conf → Prop) : (∀ b, Q b c) → wp at_stmt_sync c Q.
Proof using Hin.
  intros HQ. apply pwp_bind, wp_cur, wp_if; intros _; [apply pwp_ret, HQ|by apply wp_at_decl_sync].
Qed.
Lemma wp_at_recovery_stop c (Q : bool → conf → Prop) : (∀ b, Q b c) → wp at_recovery_stop c Q.
Proof using Hin.
  intros HQ. apply pwp_bind, wp_cur, wp_if; intros _; [apply pwp_ret, HQ|by apply wp_at_decl_sync].
Qed.

(** A loop's test for [Eof] and another condition. *)
Lemma wp_eof_or m c (Q : bool → conf → Prop) : (∀ R : bool → conf → Prop, (∀ b, R b c) → wp m c R) →
  Q true c → (kind c ≠ Eof → Q false c) → wp (orM (at_ Eof) m) c Q.
Proof using Hin.
  intros Hm HQ HQ'. apply wp_orM, wp_at. destruct (token_kind_eqb _ _) eqn:E; [done|].
  apply eqb_false in E. apply Hm. intros []; auto.
Qed.
End cursor.
