(* ===== verification/SynRules.v ===== *)
(** * Rules for the productions of the parser

    [runs r k d k' d' m]: from a state with [k] more open nodes and [d] more
    levels of nesting than somewhere before, [m] ends, with [k'] and [d'] more,
    the nodes open there unharmed; [r] is the fuel the recursion needs at that
    depth.  The rules follow the syntax of the productions. *)

From Stdlib Require Import Strings.Byte.
From S2P Require Import Prelude SynTree SynBuilder Token Lexer SynCursor SynParse SynSteps.
Local Open Scope nat_scope.

Section rules.
Context `{Input} (Hin : input_ok) (n : nat).

(** Fuel [n] is enough for what needs [r] at the depth of [o]. *)
Definition fuel_at (r : nat) (o : origin) : Prop := 2 * (MAX_DEPTH - og_depth o) + r ≤ n.
Definition runs_to {A} (N r k d k' d' : nat) (m : PS A) : Prop := ∀ o c,
  fuel_at r o → opened k d o c → left c ≤ N → wp m c (λ _ c', opened k' d' o c').
Definition runs {A} (r k d k' d' : nat) (m : PS A) : Prop := ∀ o c,
  fuel_at r o → opened k d o c → wp m c (λ _ c', opened k' d' o c').
Definition keeps {A} (r : nat) (m : PS A) : Prop := runs r 0 0 0 0 m.
(** The same, past at least one token unless at the end. *)
Definition moves {A} (r k d k' d' : nat) (m : PS A) : Prop := ∀ o c, fuel_at r o → opened k d o c →
  kind c ≠ Eof → wp m c (λ _ c', opened k' d' (after (S (pos c)) o) c').

Lemma runs_keeps {A} r r' k d (m : PS A) : keeps r' m → r' ≤ r + 2 * d → runs r k d k d m.
Proof.
  intros Hm Hr o c Hf Ho. apply wp_sane. intros Hc. eapply pwp_mono; [apply (Hm (here c)); [|apply opened_here]|].
  - pose proof (sn_depth _ Hc). pose proof (op_depth _ _ _ _ Ho). unfold fuel_at in *. simpl. lia.
  - intros x c' Ho'. by eapply opened_trans.
Qed.

Lemma runs_here {A} (m : PS A) : (∀ c, wp m c (λ _ c', opened 0 0 (here c) c')) → keeps 0 m.
Proof. intros Hm o c _ Ho. eapply pwp_mono; [apply Hm|]. intros x c' Ho'. by eapply opened_trans. Qed.

Lemma runs_ret {A} r k d (a : A) : runs r k d k d (mret a).
Proof. intros o c _ Ho. by apply pwp_ret. Qed.

Lemma runs_bind {A B} r k d k1 d1 k' d' (m : PS A) (f : A → PS B) :
  runs r k d k1 d1 m → (∀ x, runs r k1 d1 k' d' (f x)) → runs r k d k' d' (m ≫= f).
Proof. intros Hm Hf o c Hr Ho. apply pwp_bind. eapply pwp_mono; [by apply Hm|]. intros x c' Ho'. by apply Hf. Qed.

Lemma runs_ifM {A} r k d k' d' b (m m' : PS A) :
  runs r k d k d b → runs r k d k' d' m → runs r k d k' d' m' → runs r k d k' d' (ifM b m m').
Proof. intros Hb Hm Hm'. apply (runs_bind _ _ _ _ _ _ _ _ _ Hb). by intros []. Qed.

Lemma runs_orM r k d b b' : runs r k d k d b → runs r k d k d b' → runs r k d k d (orM b b').
Proof. intros Hb Hb'. apply (runs_bind _ _ _ _ _ _ _ _ _ Hb). intros []; [apply runs_ret|done]. Qed.
Lemma runs_andM r k d b b' : runs r k d k d b → runs r k d k d b' → runs r k d k d (andM b b').
Proof. intros Hb Hb'. apply (runs_bind _ _ _ _ _ _ _ _ _ Hb). intros []; [done|apply runs_ret]. Qed.
Lemma runs_notM r k d b : runs r k d k d b → runs r k d k d (notM b).
Proof. intros Hb. apply (runs_bind _ _ _ _ _ _ _ _ _ Hb). intros x. apply runs_ret. Qed.
Lemma runs_when r k d (b : bool) m : runs r k d k d m → runs r k d k d (when b m).
Proof. intros Hm. destruct b; [done|apply runs_ret]. Qed.

Lemma wp_assoc {A B C} (m : PS A) (f : A → PS B) (g : B → PS C) c Q :
  wp ((m ≫= f) ≫= g) c Q ↔ wp (m ≫= λ x, f x ≫= g) c Q.
Proof.
  assert (((m ≫= f) ≫= g) (cf_st c) = (m ≫= λ x, f x ≫= g) (cf_st c)) as E.
  { unfold mbind, ps_bind. by destruct (m (cf_st c)) as [| |[]]. }
  split; intros Hm Hc; destruct (Hm Hc) as (x & st & F & E' & Hs & HQ); exists x, st, F; split_and!; congruence.
Qed.
Lemma runs_assoc {A B C} r k d k' d' (m : PS A) (f : A → PS B) (g : B → PS C) :
  runs r k d k' d' (m ≫= λ x, f x ≫= g) → runs r k d k' d' ((m ≫= f) ≫= g).
Proof. intros Hm o c Hr Ho. by apply wp_assoc, Hm. Qed.

(** ** Nodes *)

Lemma same_place_b b st : same_place st (with_b b st). Proof. done. Qed.

Lemma runs_start r k d kd : runs r k d (S k) d (start_node kd).
Proof.
  intros o c _ Ho. apply (wp_build _ (open_node kd)).
  - intros b F Hb. eexists. split; [done|by apply start_node_brep].
  - done.
  - intros F. apply open_node_nested.
  - intros b. eapply opened_open; [exact Ho|apply same_place_b|apply same_open_refl|done..].
Qed.

Lemma runs_finish r k d : runs r (S k) d k d finish_node.
Proof.
  intros o c _ Ho. apply (wp_build _ close_node).
  - apply finish_node_brep.
  - intros F. unfold close_node, add_tree. by repeat case_match.
  - intros F. apply close_node_nested.
  - intros b. by apply (opened_close _ _ o c).
Qed.

Lemma runs_wrap r k d kd : runs r k d (S k) d (wrap_last_sibling kd).
Proof.
  intros o c _ Ho. apply (wp_build _ (wrap_node kd)).
  - apply wrap_brep.
  - intros F. unfold wrap_node. destruct (last_tree F) as [[t F']|] eqn:E; [|done].
    by destruct (last_tree_open _ _ _ E).
  - intros F. apply wrap_node_nested.
  - intros b. by apply opened_wrap.
Qed.

Lemma runs_set_current r k d kd : runs r (S k) d (S k) d (set_current_kind kd).
Proof.
  intros o c _ Ho. apply (wp_build _ (rename_node kd)).
  - apply set_current_kind_brep.
  - intros F. unfold rename_node. by repeat case_match.
  - intros F. apply rename_node_nested.
  - intros b. by apply opened_rename.
Qed.

Lemma runs_set_last r k d kd : runs r k d k d (set_last_kind kd).
Proof.
  intros o c _ Ho. apply (wp_build _ (rename_last kd)).
  - apply set_last_kind_brep.
  - intros F. unfold rename_last. destruct (last_tree F) as [[[k' f e cs] F']|] eqn:E; [|done].
    destruct (last_tree_open _ _ _ E) as [_ Ec]. unfold add_tree. by repeat case_match.
  - intros F. apply rename_last_nested.
  - intros b. by apply opened_rename_last.
Qed.

Lemma runs_empty r k d kd : runs r k d k d (empty_node kd).
Proof.
  intros o c _ Ho. apply (wp_build _ (λ F, close_node (open_node kd F))).
  - intros b F Hb. apply finish_node_brep, start_node_brep, Hb.
  - intros F. unfold close_node, add_tree. simpl. by repeat case_match.
  - intros F HF. by apply close_node_nested, open_node_nested.
  - intros b. apply (opened_close _ _ o (MkConf (with_b b (cf_st c)) (open_node kd (cf_F c)))); [|done].
    eapply opened_open; [exact Ho|apply same_place_b|apply same_open_refl|done..].
Qed.

Lemma runs_node r k d kd m : runs r (S k) d (S k) d m → runs r k d k d (in_node kd m).
Proof.
  intros Hm. eapply runs_bind; [apply runs_start|]. intros _. eapply runs_bind; [exact Hm|].
  intros _. apply runs_finish.
Qed.

(** ** Primitives *)

Lemma keeps_gets {A} (f : Parser → A) : keeps 0 (gets f).
Proof. apply runs_here. intros c. apply pwp_gets, opened_here. Qed.
Lemma keeps_cur : keeps 0 cur.
Proof using Hin. apply runs_here. intros c. apply (wp_cur Hin), opened_here. Qed.
Lemma keeps_nth i : keeps 0 (nth i).
Proof using Hin. apply runs_here. intros c. apply (wp_nth Hin), opened_here. Qed.
Lemma keeps_at k : keeps 0 (at_ k).
Proof using Hin. apply runs_here. intros c. apply (wp_at Hin), opened_here. Qed.
Lemma keeps_nth_is i k : keeps 0 (nth_is i k).
Proof using Hin. apply runs_here. intros c. apply (wp_nth_is Hin), opened_here. Qed.
Lemma keeps_is_word w : keeps 0 (is_word w).
Proof using Hin. apply runs_here. intros c. apply (wp_is_word Hin); [intros _|]; apply opened_here. Qed.
Lemma keeps_cur_range : keeps 0 cur_range.
Proof using Hin. apply runs_here. intros c. apply (wp_cur_range Hin). intros r. apply opened_here. Qed.
Lemma keeps_prev_end : keeps 0 prev_end.
Proof using Hin. apply runs_here. intros c. apply (wp_prev_end Hin). intros r. apply opened_here. Qed.
Lemma keeps_bump : keeps 0 bump.
Proof using Hin. apply runs_here. intros c. by apply (pwp_bump Hin). Qed.
Lemma keeps_opt k : keeps 0 (opt k).
Proof using Hin. apply runs_here. intros c. apply (wp_opt Hin); [done|]. intros _. apply opened_here. Qed.
Lemma keeps_err_at s e code msg : keeps 0 (err_at s e code msg).
Proof. apply runs_here. intros c. apply wp_err_at. intros c'. apply silent_opened. Qed.
Lemma keeps_err_here code msg : keeps 0 (err_here code msg).
Proof using Hin. apply runs_here. intros c. apply (wp_err_here Hin). intros c'. apply silent_opened. Qed.
Lemma keeps_expected msg : keeps 0 (expected msg).
Proof using Hin. apply keeps_err_here. Qed.
Lemma keeps_expect k msg : keeps 0 (expect k msg).
Proof using Hin. apply runs_here. intros c. by apply (wp_expect Hin). Qed.
Lemma keeps_expect_ k msg : keeps 0 (expect_ k msg).
Proof using Hin. eapply runs_bind; [apply keeps_expect|]. intros _. apply runs_ret. Qed.
Lemma keeps_attach_fix before fx : keeps 0 (attach_fix before fx).
Proof. apply runs_here. intros c. apply wp_attach_fix. intros c'. apply silent_opened. Qed.
Lemma keeps_at_decl_sync : keeps 0 at_decl_sync.
Proof using Hin. apply runs_here. intros c. apply (wp_at_decl_sync Hin). intros _. apply opened_here. Qed.
Lemma keeps_at_stmt_sync : keeps 0 at_stmt_sync.
Proof using Hin. apply runs_here. intros c. apply (wp_at_stmt_sync Hin). intros _. apply opened_here. Qed.
Lemma keeps_at_recovery_stop : keeps 0 at_recovery_stop.
Proof using Hin. apply runs_here. intros c. apply (wp_at_recovery_stop Hin). intros _. apply opened_here. Qed.
Lemma keeps_reported : keeps 0 (modify with_depth_reported).
Proof. apply runs_here. intros c. apply wp_note; [done..|]. intros c'. apply silent_opened. Qed.
Lemma keeps_header b : keeps 0 (modify (with_struct_header b)).
Proof. apply runs_here. intros c. apply wp_note; [done..|]. intros c'. apply silent_opened. Qed.

(** ** Loops *)

Lemma runs_all {A} r k d k' d' (m : PS A) : (∀ N, runs_to N r k d k' d' m) → runs r k d k' d' m.
Proof. intros Hm o c Hf Ho. by apply (Hm (left c)). Qed.

Lemma opened_left k d o c c' : opened k d (after (S (pos c)) o) c' → left c' ≤ left c - 1.
Proof. intros [Hp _ _ _]. simpl in Hp. unfold left. lia. Qed.
Lemma opened_after k d o c c' : opened k d o c → opened k d (after (S (pos c)) o) c' → opened k d o c'.
Proof. intros [Hp _ _ _] [Hp' ? ? ?]. simpl in *. split; [lia|done..]. Qed.

(** The rest of a loop, past a token. *)
Lemma to_moves {A B} N r k d k1 d1 k' d' (m : PS A) (f : A → PS B) o c : moves r k d k1 d1 m → kind c ≠ Eof →
  (∀ x, runs_to N r k1 d1 k' d' (f x)) → left c ≤ S N → fuel_at r o → opened k d o c →
  wp (m ≫= f) c (λ _ c', opened k' d' o c').
Proof.
  intros Hm Hk Hf HN Hr Ho. apply pwp_bind. eapply pwp_mono; [by apply Hm|]. intros x c' Ho'.
  apply Hf; [done| |].
  - destruct Ho as [Hp _ _ _], Ho' as [Hp' ? ? ?]. simpl in *. split; [lia|done..].
  - pose proof (opened_left _ _ _ _ _ Ho'). lia.
Qed.

Lemma runs_to_bind {A B} N r k d k1 d1 k' d' (m : PS A) (f : A → PS B) : runs r k d k1 d1 m →
  (∀ x, runs_to N r k1 d1 k' d' (f x)) → runs_to N r k d k' d' (m ≫= f).
Proof.
  intros Hm Hf o c Hr Ho HN. apply pwp_bind. eapply pwp_mono; [apply (Hm (MkOrigin (pos c) (og_depth o) (og_members o) (og_F o)))|].
  - done.
  - destruct Ho. by split.
  - intros x c' [Hp ? ? ?]. simpl in *. apply Hf; [done| |unfold left in *; lia].
    destruct Ho. split; [lia|done..].
Qed.

Lemma left_0 c : sane c → kind c ≠ Eof → left c ≠ 0.
Proof using Hin. intros Hc Hk Hl. destruct Hk. by apply (left_eof Hin). Qed.

Lemma moves_bump r k d : moves r k d k d bump.
Proof using Hin.
  intros o c _ Ho Hk. apply (pwp_bump Hin). intros c' Ho' Hp. specialize (Hp Hk).
  destruct (opened_trans _ _ _ _ _ _ _ Ho Ho' eq_refl eq_refl). by split.
Qed.
Lemma moves_bind {A B} r k d k1 d1 k' d' (m : PS A) (f : A → PS B) : moves r k d k1 d1 m →
  (∀ x, runs r k1 d1 k' d' (f x)) → moves r k d k' d' (m ≫= f).
Proof. intros Hm Hf o c Hr Ho Hk. apply pwp_bind. eapply pwp_mono; [by apply Hm|]. intros x c' Ho'. by apply Hf. Qed.
Lemma moves_start {B} r k d k' d' kd (f : unit → PS B) : moves r (S k) d k' d' (f tt) →
  moves r k d k' d' (start_node kd ≫= f).
Proof.
  intros Hf o c Hr Ho Hk. apply pwp_bind, wp_sane. intros Hc. apply (wp_build _ (open_node kd)).
  - intros b F Hb. eexists. split; [done|by apply start_node_brep].
  - done.
  - intros F. apply open_node_nested.
  - intros b. apply (Hf o (MkConf (with_b b (cf_st c)) (open_node kd (cf_F c)))); [done| |done].
    eapply opened_open; [exact Ho|apply same_place_b|apply same_open_refl|done..].
Qed.
Lemma moves_node r k d kd m : moves r (S k) d (S k) d m → moves r k d k d (in_node kd m).
Proof.
  intros Hm. apply moves_start. eapply moves_bind; [exact Hm|]. intros _. apply runs_finish.
Qed.
End rules.

(** * Recovery and lists

    The skips of error recovery, the levels of nesting and the delimited lists:
    none leaves a node or a level open, and the fuel of each loop is enough. *)

Create HintDb runs.
#[export] Hint Resolve keeps_gets keeps_cur keeps_nth keeps_at keeps_nth_is keeps_is_word keeps_cur_range
  keeps_prev_end keeps_bump keeps_opt keeps_err_at keeps_err_here keeps_expected keeps_expect keeps_expect_
  keeps_attach_fix keeps_at_decl_sync keeps_at_stmt_sync keeps_at_recovery_stop keeps_reported keeps_header : runs.

(** A step of the proof that a production [runs], by its syntax. *)
Ltac run_step :=
  lazymatch goal with
  | |- keeps _ _ _ => unfold keeps
  | |- runs _ _ _ _ _ _ (mret _) => apply runs_ret
  | |- runs _ _ _ _ _ _ (in_node _ _) => apply runs_node
  | |- runs _ _ _ _ _ _ (ifM _ _ _) => apply runs_ifM
  | |- runs _ _ _ _ _ _ (orM _ _) => apply runs_orM
  | |- runs _ _ _ _ _ _ (andM _ _) => apply runs_andM
  | |- runs _ _ _ _ _ _ (notM _) => apply runs_notM
  | |- runs _ _ _ _ _ _ (when _ _) => apply runs_when
  | |- runs _ _ _ _ _ _ (if ?b then _ else _) => destruct b
  | |- runs _ _ _ _ _ _ (match ?x with _ => _ end) => destruct x
  | |- runs _ _ _ _ _ _ ((_ ≫= _) ≫= _) => apply runs_assoc
  | |- runs _ _ _ _ _ _ (start_node _ ≫= _) => eapply runs_bind; [apply runs_start|intros ?]
  | |- runs _ _ _ _ _ _ (finish_node ≫= _) => eapply runs_bind; [apply runs_finish|intros ?]
  | |- runs _ _ _ _ _ _ (wrap_last_sibling _ ≫= _) => eapply runs_bind; [apply runs_wrap|intros ?]
  | |- runs _ _ ?k ?d _ _ (_ ≫= _) => eapply (runs_bind _ _ k d k d); [|intros ?]
  | |- runs _ _ _ _ _ _ finish_node => apply runs_finish
  | |- runs _ _ _ _ _ _ (set_current_kind _) => apply runs_set_current
  | |- runs _ _ _ _ _ _ (set_last_kind _) => apply runs_set_last
  | |- runs _ _ _ _ _ _ (empty_node _) => apply runs_empty
  | |- _ => eapply runs_keeps; [solve [eauto 3 with runs]|simpl; lia]
  end.
Ltac run := repeat run_step.

Section recovery.
Context `{Input} (Hin : input_ok) (n : nat).

(** ** Skipping *)

Lemma nesting_skip_group fuel k d depth : runs_to n fuel 0 k d k d (skip_group_loop fuel depth).
Proof using Hin.
  revert depth. induction fuel as [|fuel IH]; intros dep o c Hr Ho HN; cbn [skip_group_loop]; apply wp_ifM;
    (apply (wp_eof_or Hin); [by intros; apply (wp_at_decl_sync Hin)|by apply pwp_ret|intros Hk]).
  - apply wp_sane. intros Hc. destruct (left_0 Hin c Hc Hk). lia.
  - apply pwp_bind, (wp_cur Hin). eapply (to_moves n fuel); [by apply (moves_bump Hin)|done| |done..].
    intros _ o' c' Hr' Ho' HN'. apply wp_if; intros _; [by apply pwp_ret|by apply IH].
Qed.

Lemma keeps_skip_group : keeps n 0 skip_group.
Proof using Hin.
  unfold skip_group. run. apply runs_all. intros N o c Hr Ho HN.
  apply (nesting_skip_group loop_fuel); [done..|]. unfold left, loop_fuel. lia.
Qed.

Lemma runs_skip_to fuel stop k d depth : runs_to n fuel 0 k d k d (skip_to fuel stop depth).
Proof using Hin.
  revert depth. induction fuel as [|fuel IH]; intros dep o c Hr Ho HN; cbn [skip_to]; apply wp_ifM;
    (apply (wp_eof_or Hin); [by intros; apply (wp_at_decl_sync Hin)|by apply pwp_ret|intros Hk]);
    apply pwp_bind, (wp_cur Hin), wp_if; intros _; try by apply pwp_ret.
  - apply wp_sane. intros Hc. destruct (left_0 Hin c Hc Hk). lia.
  - eapply (to_moves n fuel); [by apply (moves_bump Hin)|done| |done..]. intros _. apply IH.
Qed.

Lemma keeps_skip_to stop depth : keeps n 0 (skip_to loop_fuel stop depth).
Proof using Hin.
  intros o c Hr Ho. apply (runs_skip_to loop_fuel); [done..|]. unfold left, loop_fuel. lia.
Qed.

(** Between [1] and [0] open nodes, as [open_node] says. *)
Lemma runs_skip_open fuel stop dep k d (b : bool) o c : fuel_at n 0 o → opened (if b then S k else k) d o c →
  left c ≤ fuel → wp (skip_open fuel stop dep b) c (λ b c', opened (if b then S k else k) d o c').
Proof using Hin.
  revert dep b c. induction fuel as [|fuel IH]; intros dep b c Hr Ho HN; cbn [skip_open]; apply wp_ifM;
    (apply (wp_eof_or Hin); [by intros; apply (wp_at_decl_sync Hin)|by apply pwp_ret|intros Hk]);
    apply pwp_bind, (wp_cur Hin), wp_if; intros _; try by apply pwp_ret.
  - apply wp_sane. intros Hc. destruct (left_0 Hin c Hc Hk). lia.
  - assert (moves n 0 (if b then S k else k) d (S k) d (when (negb b) (start_node Kind.Error);; bump)) as Hm.
    { destruct b; simpl.
      - intros o' c' Hr' Ho' Hk'. apply pwp_bind, pwp_ret. by apply (moves_bump Hin n 0 (S k) d o' c').
      - apply moves_start, (moves_bump Hin). }
    apply wp_assoc, pwp_bind. eapply pwp_mono; [by apply Hm|]. intros x c' Ho'. pose proof (opened_left _ _ _ _ _ Ho').
    apply (IH _ true); [done| |lia]. destruct Ho as [Hp _ _ _], Ho' as [Hp' ? ? ?]. simpl in *. split; [lia|done..].
Qed.

Lemma runs_skip_close stop k d (f : PS unit) : runs n 0 k d k d f →
  runs n 0 k d k d (b ← skip_open loop_fuel stop 0 false; when b finish_node;; f).
Proof using Hin.
  intros Hf o c Hr Ho. apply pwp_bind. eapply pwp_mono.
  - apply (runs_skip_open loop_fuel _ _ k d false); [done..|]. unfold left, loop_fuel. lia.
  - intros [] c' Ho'.
    + apply (runs_bind n 0 (S k) d k d _ _ finish_node); [apply runs_finish|by intros _|done|done].
    + apply pwp_bind, pwp_ret. by apply Hf.
Qed.

(** ** Levels *)

Lemma keeps_too_deep : keeps n 0 too_deep.
Proof using Hin. pose proof keeps_skip_group. unfold too_deep. run. Qed.

Lemma runs_enter {A} r k d k' d' (m m' : PS A) : runs n r k (S d) k' d' m → runs n r k d k' d' m' →
  runs n r k d k' d' (ifM enter m m').
Proof using Hin.
  intros Hm Hm' o c Hr Ho. apply wp_sane. intros Hc. apply wp_ifM, pwp_bind, pwp_gets, wp_if.
  - intros Hlt%bool_decide_eq_true. apply pwp_bind, pwp_modify; [done|done|simpl; lia|]. apply pwp_ret, Hm; [done|].
    destruct Ho as [Hp Hd Hmb HF]. split; simpl; [done|lia|done|done].
  - intros _. apply pwp_bind. eapply pwp_mono; [apply (runs_keeps n r 0 k d _ keeps_too_deep); [lia|done|done]|].
    intros x c' Ho'. by apply pwp_ret, Hm'.
Qed.

Lemma runs_leave r k d : runs n r k (S d) k d leave.
Proof.
  intros o c Hr [Hp Hd Hmb HF]. apply wp_sane. intros Hc. pose proof (sn_depth _ Hc).
  apply pwp_bind, pwp_gets. rewrite Hd, <- plus_n_Sm. apply pwp_modify; [done|done|simpl; lia|].
  split; simpl; [done|lia|done|done].
Qed.

(** ** Errors and lists *)

Lemma keeps_error_node : keeps n 0 error_node.
Proof using Hin. unfold error_node. run. Qed.

Lemma keeps_expect_semi : keeps n 0 expect_semi.
Proof using Hin. pose proof keeps_skip_to. unfold expect_semi. run. Qed.

Lemma keeps_close s e k : keeps n 0 (close s e k).
Proof using Hin.
  unfold close. apply runs_ifM; [run..|]. apply runs_ifM; [run..|].
  eapply (runs_bind n 0 0 0 0 0); [run|]. intros _. apply runs_skip_close. run.
Qed.

Section delimited.
Context {B : Type} (r : nat) (item : B → PS B) (Hitem : ∀ acc, keeps n r (item acc)).

(** From a state [c] of a loop to the next turn. *)
Lemma runs_delimited_loop fuel k acc : runs_to n fuel r 0 0 0 0 (delimited_loop fuel k item acc).
Proof using Hin Hitem.
  revert acc. induction fuel as [|fuel IH]; intros acc o c Hr Ho HN; cbn [delimited_loop]; apply wp_ifM, wp_orM, wp_orM;
    apply (wp_at Hin); (destruct (token_kind_eqb _ k); [by apply pwp_ret|]);
    apply (wp_at Hin); destruct (token_kind_eqb _ Eof) eqn:E; try by apply pwp_ret.
  all: apply eqb_false in E; apply wp_sane; intros Hc; pose proof (left_0 Hin c Hc E).
  { lia. }
  apply (wp_at_decl_sync Hin). intros []; [by apply pwp_ret|]. apply pwp_bind, pwp_gets, pwp_bind.
  eapply pwp_mono; [apply (runs_keeps n r r 0 0 _ (Hitem acc)) with (o := MkOrigin (pos c) (og_depth o) (og_members o) (og_F o));
    [lia|done|destruct Ho; by split]|].
  intros acc1 c1 Ho1. assert (opened 0 0 o c1) as Ho1' by (destruct Ho, Ho1; simpl in *; split; [lia|done..]).
  apply pwp_bind, pwp_gets, wp_if; [intros _; by apply pwp_ret|]. intros Hne%bool_decide_eq_false.
  pose proof (op_pos _ _ _ _ Ho1) as Hp1. simpl in Hp1. apply wp_ifM, (wp_opt Hin).
  - intros _ c2 Ho2 _. pose proof (op_pos _ _ _ _ Ho2) as Hp2. simpl in Hp2.
    apply IH; [done| |unfold left in *; lia]. by eapply opened_trans.
  - intros _. by apply pwp_ret.
Qed.

Lemma keeps_delimited_with op cl min acc : keeps n r (delimited_with op cl min item acc).
Proof using Hin Hitem.
  unfold delimited_with. eapply (runs_bind n r 0 0 0 0); [run|]. intros [os oe]. apply runs_ifM; [run| |run].
  eapply (runs_bind n r 0 0 0 0); [run|]. intros _. eapply (runs_bind n r 0 0 0 0).
  - apply runs_all. intros N o c Hr Ho HN. apply (runs_delimited_loop loop_fuel); [done..|].
    unfold left, loop_fuel. lia.
  - intros acc'. pose proof keeps_close. run.
Qed.
End delimited.

Lemma keeps_delimited r op cl min item : keeps n r item → keeps n r (delimited op cl min item).
Proof using Hin. intros Hi. by apply keeps_delimited_with. Qed.

(** From the start of a turn of a loop: the position it began at is kept. *)
Lemma keeps_from {A} r (m : PS A) o c : keeps n r m → fuel_at n r o → opened 0 0 o c →
  wp m c (λ _ c', opened 0 0 o c' ∧ pos c ≤ pos c').
Proof.
  intros Hm Hr Ho. eapply pwp_mono.
  - apply Hm with (o := MkOrigin (pos c) (og_depth o) (og_members o) (og_F o)); [done|]. destruct Ho. by split.
  - intros x c' [Hp ? ? ?]. destruct Ho as [Hp0 _ _ _]. simpl in *. split; [|done]. split; [lia|done..].
Qed.

Lemma wp_guard before c (Q : unit → conf → Prop) :
  (∀ c', opened 0 0 (here c) c' → (pos c = before → pos c < pos c' ∨ kind c' = Eof) → Q tt c') →
  wp (guard_progress before) c Q.
Proof using Hin.
  intros HQ. apply pwp_bind, pwp_gets, pwp_bind, (wp_at Hin), wp_if.
  - intros [Hb|Hb]%orb_true_iff; apply pwp_ret, HQ; try apply opened_here; intros Hp.
    + rewrite bool_decide_eq_true_2 in Hb by done. done.
    + right. by apply eqb_true.
  - intros [_ Hk%eqb_false]%orb_false_iff. apply pwp_bind, (wp_err_here Hin). intros c1 Hs.
    assert (moves (2 * MAX_DEPTH) 0 0 0 0 0 (in_node Kind.Error bump)) as Hm by apply moves_node, (moves_bump Hin).
    eapply (pwp_mono (in_node Kind.Error bump)).
    + apply (Hm (here c)); [unfold fuel_at; lia|by apply silent_opened|by rewrite (silent_kind _ _ Hs)].
    + intros [] c' [Hp ? ? ?]. simpl in *. pose proof (si_pos _ _ Hs).
      apply HQ; [split; simpl; [lia|done..]|intros _; left; lia].
Qed.

(** The statements of a block, the arms of a match. *)
Lemma items_loop_end fuel item c (Q : unit → conf → Prop) : kind c = Eof → Q tt c → wp (items_loop fuel item) c Q.
Proof using Hin.
  intros Hk HQ. destruct fuel; cbn [items_loop]; apply wp_ifM, wp_orM, wp_orM, (wp_at Hin);
    rewrite Hk; apply (wp_at Hin); rewrite Hk; by apply pwp_ret.
Qed.

Lemma runs_items_loop r item fuel : keeps n r item → runs_to n fuel r 0 0 0 0 (items_loop fuel item).
Proof using Hin.
  intros Hitem. induction fuel as [|fuel IH]; intros o c Hr Ho HN; cbn [items_loop]; apply wp_ifM, wp_orM, wp_orM;
    apply (wp_at Hin); (destruct (token_kind_eqb _ RBrace); [by apply pwp_ret|]);
    apply (wp_at Hin); destruct (token_kind_eqb _ Eof) eqn:E; try by apply pwp_ret.
  all: apply eqb_false in E; apply wp_sane; intros Hc; pose proof (left_0 Hin c Hc E).
  { lia. }
  apply (wp_at_decl_sync Hin). intros []; [by apply pwp_ret|]. apply pwp_bind, pwp_gets, pwp_bind.
  eapply pwp_mono; [by eapply keeps_from|]. intros x c1 [Ho1 Hp1]. apply pwp_bind, wp_guard. intros c2 Ho2 Hg.
  pose proof (op_pos _ _ _ _ Ho2) as Hp2. simpl in Hp2.
  assert (opened 0 0 o c2) as Ho2' by (by eapply opened_trans).
  destruct (decide (pos c1 = pos c)) as [He|He]; [destruct (Hg He) as [Hlt|Hk]|].
  2: by apply items_loop_end.
  all: apply IH; [done..|unfold left in *; lia].
Qed.

Lemma keeps_items r item : keeps n r item → keeps n r (items_loop loop_fuel item).
Proof using Hin.
  intros Hi o c Hr Ho. apply (runs_items_loop r item loop_fuel); [done..|]. unfold left, loop_fuel. lia.
Qed.

(** Loops that eat a token [k] at each turn. *)
Lemma runs_eat {A} N r k d kd (m : PS A) (loop : nat → PS unit) : kd ≠ Eof →
  (∀ fuel, loop fuel = ifM (opt kd)
     match fuel with O => out_of_fuel | S fuel => m;; loop fuel end (mret tt)) →
  runs n r k d k d m → runs_to n N r k d k d (loop N).
Proof using Hin.
  intros Hkd Hloop Hm. induction N as [|N IH]; intros o c Hr Ho HN; rewrite Hloop; apply wp_ifM, (wp_opt Hin);
    try (intros _; by apply pwp_ret); intros Hk c' Ho' Hp; specialize (Hp Hkd).
  - apply wp_sane. intros [_ Hp' _ _ _]. unfold left in HN. lia.
  - assert (opened k d o c') as Ho1 by (by eapply opened_trans).
    apply (runs_to_bind n N r k d k d k d m (λ _, loop N)); [done|by intros _|done|done|unfold left in *; lia].
Qed.

(** Loops that test the current token, and pass it. *)
Lemma runs_while N r k d (test : TokenKind → bool) (m : PS unit) (loop : nat → PS unit) : test Eof = false →
  (∀ fuel, loop fuel = (x ← cur; if test x then
     match fuel with O => out_of_fuel | S fuel => bump;; m;; loop fuel end else mret tt)) →
  runs n r k d k d m → runs_to n N r k d k d (loop N).
Proof using Hin.
  intros Ht Hloop Hm. induction N as [|N IH]; intros o c Hr Ho HN; rewrite Hloop; apply pwp_bind, (wp_cur Hin), wp_if;
    try (intros _; by apply pwp_ret); intros Hk; (assert (kind c ≠ Eof) as Hne by (intros E; by rewrite E, Ht in Hk)).
  - apply wp_sane. intros Hc. pose proof (left_0 Hin c Hc Hne). lia.
  - eapply (to_moves n N r k d k d); [by apply (moves_bump Hin)|done| |done..].
    intros _. eapply runs_to_bind; [exact Hm|by intros _].
Qed.

(** A list, the statements of a block: inside the levels entered. *)
Lemma runs_list r k d op cl min item : keeps n (r + 2 * d) item → runs n r k d k d (delimited op cl min item).
Proof using Hin. intros Hi. by eapply runs_keeps; [apply keeps_delimited|]. Qed.
Lemma runs_items r k d item : keeps n (r + 2 * d) item → runs n r k d k d (items_loop loop_fuel item).
Proof using Hin. intros Hi. by eapply runs_keeps; [apply keeps_items|]. Qed.

Lemma runs_loop {A} r k d k' d' (m : PS A) : runs_to n loop_fuel r k d k' d' m → runs n r k d k' d' m.
Proof. intros Hm o c Hr Ho. apply Hm; [done..|]. unfold left, loop_fuel. lia. Qed.
End recovery.

#[export] Hint Resolve keeps_skip_group keeps_skip_to keeps_too_deep keeps_error_node keeps_expect_semi
  keeps_close : runs.

(** [run_step] at the levels of nesting. *)
Ltac run_level :=
  lazymatch goal with
  | |- runs _ _ _ _ _ _ (ifM enter _ _) => apply runs_enter; [assumption|..]
  | |- runs _ _ _ _ _ _ (leave ≫= _) => eapply runs_bind; [apply runs_leave|intros ?]
  | |- runs _ _ _ _ _ _ leave => apply runs_leave
  | |- runs _ _ _ _ _ _ (delimited _ _ _ _) => apply runs_list; [assumption|]
  | |- runs _ _ _ _ _ _ (items_loop _ _) => apply runs_items; [assumption|]
  | |- _ => run_step
  end.
Ltac walk := repeat run_level.
