(* ===== verification/SynWalk.v ===== *)
(** * The productions end

    Every production of the grammar, given that the productions it enters by
    recursion do, neither panics nor runs out of fuel and leaves no node and no
    level open. *)

From Stdlib Require Import Strings.Byte.
From S2P Require Import Prelude SynTree SynBuilder Token Lexer SynCursor SynParse SynSteps SynRules.
Local Open Scope nat_scope.

(** The fuel a production needs at its own level: the first ones enter a level
    before they recurse. *)
Definition cost (c : Prod) : nat :=
  match c with PType _ | PBlock | PBinding | PPattern => 1 | _ => 2 end.

Section grammar.
Context `{Input} (Hin : input_ok) (n : nat) (rec : Prod → PS bool).
Context (Hrec : ∀ c, keeps n (cost c) (rec c)).
(** At [not] the level is entered first too. *)
Context (Hnot : ∀ ns o c, fuel_at n 1 o → opened 0 0 o c → kind c = KwNot →
  wp (rec (PNotExpr ns)) c (λ _ c', opened 0 0 o c')).

Lemma keeps_do c r : cost c ≤ r → keeps n r (do_ rec c).
Proof using Hrec.
  intros Hr. unfold do_. eapply (runs_bind n r 0 0 0 0); [|intros _; apply runs_ret].
  eapply runs_keeps; [apply Hrec|lia].
Qed.
Lemma keeps_type b : keeps n 1 (do_ rec (PType b)). Proof using Hrec. by apply keeps_do. Qed.
Lemma keeps_pexpr ns : keeps n 2 (do_ rec (PExpr ns)). Proof using Hrec. by apply keeps_do. Qed.
Lemma keeps_pnot ns : keeps n 2 (do_ rec (PNotExpr ns)). Proof using Hrec. by apply keeps_do. Qed.
Lemma keeps_punary ns : keeps n 2 (do_ rec (PUnaryExpr ns)). Proof using Hrec. by apply keeps_do. Qed.
Lemma keeps_ptarg : keeps n 2 (do_ rec PTarg). Proof using Hrec. by apply keeps_do. Qed.
Lemma keeps_pblock : keeps n 1 (do_ rec PBlock). Proof using Hrec. by apply keeps_do. Qed.
Lemma keeps_pbinding : keeps n 1 (do_ rec PBinding). Proof using Hrec. by apply keeps_do. Qed.
Lemma keeps_ppattern : keeps n 1 (do_ rec PPattern). Proof using Hrec. by apply keeps_do. Qed.
#[local] Hint Resolve keeps_type keeps_pexpr keeps_pnot keeps_punary keeps_ptarg keeps_pblock keeps_pbinding
  keeps_ppattern : runs.

(** ** Paths and literals *)

Lemma keeps_path_tokens : keeps n 0 path_tokens.
Proof using Hin.
  unfold path_tokens. walk. apply runs_loop. generalize loop_fuel. intros N.
  induction N as [|N IH]; intros o c Hr Ho HN; cbn [path_loop]; apply wp_ifM, wp_andM, (wp_at Hin);
    (destruct (token_kind_eqb _ Dot) eqn:E; [|by apply pwp_ret]); apply (wp_nth_is Hin);
    (destruct (token_kind_eqb _ Ident); [|by apply pwp_ret]);
    apply eqb_true in E; (assert (kind c ≠ Eof) as Hne by (by rewrite E)).
  - apply wp_sane. intros Hc. pose proof (left_0 Hin c Hc Hne). lia.
  - eapply (to_moves n N 0 0 0 0 0); [by apply (moves_bump Hin)|done| |done..].
    intros _. eapply (runs_to_bind n N 0 0 0 0 0); [apply keeps_bump; done|by intros _].
Qed.
#[local] Hint Resolve keeps_path_tokens : runs.

Lemma keeps_path k : keeps n 0 (path k).
Proof using Hin. unfold path. walk. Qed.
Lemma keeps_dot_lit : keeps n 0 dot_lit.
Proof using Hin. unfold dot_lit. walk. Qed.
#[local] Hint Resolve keeps_path keeps_dot_lit : runs.
Lemma keeps_literal : keeps n 0 literal.
Proof using Hin. unfold literal. walk. Qed.
Lemma keeps_convention : keeps n 0 convention.
Proof using Hin. unfold convention. walk. Qed.
#[local] Hint Resolve keeps_literal keeps_convention : runs.

Lemma keeps_raises : keeps n 1 (raises rec).
Proof using Hin Hrec. unfold raises. walk. Qed.
Lemma keeps_fparam : keeps n 1 (fparam rec).
Proof using Hin Hrec. unfold fparam. walk. Qed.
#[local] Hint Resolve keeps_raises keeps_fparam : runs.

(** ** Places and arguments *)

Lemma keeps_bracket : keeps n 1 (bracket rec).
Proof using Hin Hrec. unfold bracket. walk. Qed.
#[local] Hint Resolve keeps_bracket : runs.

(** The chain of a place has its own bound. *)
Lemma keeps_place_loop fuel chain : MAX_POSTFIX_CHAIN ≤ fuel + chain → keeps n 1 (place_loop rec fuel chain).
Proof using Hin Hrec.
  revert chain. induction fuel as [|fuel IH]; intros chain Hle; cbn [place_loop]; cbv zeta;
    [rewrite bool_decide_eq_true_2 by lia|]; try case_bool_decide; try (pose proof (IH (chain + 1) ltac:(lia))); walk.
Qed.
Lemma keeps_place : keeps n 1 (place rec).
Proof using Hin Hrec. unfold place. pose proof (keeps_place_loop MAX_POSTFIX_CHAIN 0 ltac:(lia)). walk. Qed.
#[local] Hint Resolve keeps_place : runs.

Lemma keeps_struct_lit_tail : keeps n 1 (struct_lit_tail rec).
Proof using Hin Hrec. unfold struct_lit_tail. walk. Qed.
#[local] Hint Resolve keeps_struct_lit_tail : runs.

(** A node opened and closed on one condition. *)
Ltac walk_cond b := destruct b; unfold when; walk.

Lemma keeps_arg : keeps n 2 (arg rec).
Proof using Hin Hrec.
  unfold arg. eapply (runs_bind n 2 0 0 0 0); [walk|]. intros named. walk_cond named.
Qed.
#[local] Hint Resolve keeps_arg : runs.

(** ** Blocks of expressions *)

Lemma keeps_comptime_block : keeps n 1 (comptime_block rec).
Proof using Hin Hrec. unfold comptime_block. walk. Qed.

Lemma keeps_if_expr : keeps n 2 (if_expr rec).
Proof using Hin Hrec.
  unfold if_expr. apply runs_node, (runs_keeps n 2 2); [|lia]. apply runs_loop. generalize loop_fuel. intros N.
  induction N as [|N IH]; cbn [if_loop].
  all: do 3 (eapply (runs_to_bind n _ 2 0 0 0 0); [walk|intros _]).
  all: intros o c Hr Ho HN; apply wp_ifM, (wp_opt Hin); [|intros _; by apply pwp_ret].
  all: intros _ c1 Ho1 Hp; specialize (Hp ltac:(done)); assert (opened 0 0 o c1) as Ho1' by (by eapply opened_trans).
  - apply wp_sane. intros [_ Hp' _ _ _]. unfold left in HN. lia.
  - apply wp_ifM, (wp_at Hin). destruct (token_kind_eqb _ _).
    + apply IH; [done..|unfold left in *; lia].
    + apply (runs_keeps n 2 1 0 0 _ keeps_pblock); [lia|done|done].
Qed.

Lemma keeps_arm : keeps n 2 (arm rec).
Proof using Hin Hrec. unfold arm. walk. Qed.
#[local] Hint Resolve keeps_arm keeps_if_expr keeps_comptime_block : runs.

Lemma keeps_match_expr : keeps n 2 (match_expr rec).
Proof using Hin Hrec. unfold match_expr. walk. Qed.
Lemma keeps_cparam : keeps n 1 (cparam rec).
Proof using Hin Hrec. unfold cparam. cbv zeta. walk. Qed.
#[local] Hint Resolve keeps_match_expr keeps_cparam : runs.

(** ** Assembly *)

Lemma keeps_register : keeps n 0 register.
Proof using Hin. unfold register. walk. Qed.
#[local] Hint Resolve keeps_register : runs.
Lemma keeps_asm_item : keeps n 2 (asm_item rec).
Proof using Hin Hrec.
  unfold asm_item. eapply runs_bind; [apply runs_start|intros _]. eapply (runs_bind n 2 1 0 1 0); [walk|intros ?].
  assert (keeps n 2 (ifM (is_word "out") (bump;; register;; mret false)
    (ifM (is_word "clobber") (bump;;
       delimited LParen RParen (Some "expected a register name") (expect_ Ident "expected a register name");; mret false)
       (expected "expected 'in', 'out', 'clobber', or a string";; error_node;; mret false)))) as Hw by walk.
  eapply (runs_bind n 2 1 0 1 0); [|intros ?; walk].
  match goal with |- runs _ _ _ _ _ _ (match ?k with _ => _ end) => destruct k end;
    try (eapply runs_keeps; [exact Hw|lia]); walk.
Qed.
#[local] Hint Resolve keeps_asm_item : runs.
Lemma keeps_asm_expr : keeps n 2 (asm_expr rec).
Proof using Hin Hrec.
  unfold asm_expr. walk. eapply runs_keeps; [apply (keeps_delimited_with Hin n 2)|lia]. intros acc. walk.
Qed.
#[local] Hint Resolve keeps_asm_expr : runs.

(** ** Primary expressions *)

Lemma keeps_array_loop : keeps n 2 (array_loop rec loop_fuel).
Proof using Hin Hrec.
  apply runs_loop. generalize loop_fuel. intros N.
  induction N as [|N IH]; intros o c Hr Ho HN; cbn [array_loop]; apply wp_ifM, wp_andM, (wp_opt Hin);
    try (intros _; by apply pwp_ret); intros _ c1 Ho1 Hp; specialize (Hp ltac:(done));
    apply wp_notM, (wp_at Hin); assert (opened 0 0 o c1) as Ho1' by (by eapply opened_trans);
    (destruct (token_kind_eqb _ _); [by apply pwp_ret|]); simpl.
  - apply wp_sane. intros [_ Hp' _ _ _]. unfold left in HN. lia.
  - apply (runs_to_bind n N 2 0 0 0 0 0 0); [walk|by intros _|done|done|unfold left in *; lia].
Qed.
#[local] Hint Resolve keeps_array_loop : runs.
Lemma keeps_array_lit : keeps n 2 (array_lit rec).
Proof using Hin Hrec. unfold array_lit. walk. Qed.
#[local] Hint Resolve keeps_array_lit : runs.

Lemma keeps_primary_nested ns : keeps n 1 (primary_nested rec ns).
Proof using Hin Hrec. unfold primary_nested. walk. Qed.
Lemma keeps_primary_name ns : keeps n 1 (primary_name rec ns).
Proof using Hin Hrec. unfold primary_name. walk. Qed.
Lemma keeps_no_expr : keeps n 0 no_expr.
Proof using Hin. unfold no_expr. walk. Qed.
#[local] Hint Resolve keeps_primary_nested keeps_primary_name keeps_no_expr : runs.

Lemma keeps_primary_expr ns : keeps n 1 (primary_expr rec ns).
Proof using Hin Hrec Hnot.
  unfold primary_expr. apply runs_ifM; [walk..|]. intros o c Hr Ho. apply pwp_bind, (wp_cur Hin).
  assert (∀ m : PS bool, keeps n 1 m → wp m c (λ _ c', opened 0 0 o c')) as Hk by (intros m Hm; by apply Hm).
  assert (wp (primary_nested rec ns) c (λ _ c', opened 0 0 o c')) by (apply Hk; walk).
  assert (wp no_expr c (λ _ c', opened 0 0 o c')) by (apply Hk; walk).
  destruct (kind c) eqn:E; try assumption; try (apply Hk; solve [walk]).
  apply pwp_bind, (wp_err_here Hin). intros c1 Hs. apply pwp_bind, pwp_bind.
  eapply pwp_mono; [apply Hnot; [done| |by rewrite (silent_kind _ _ Hs)]|].
  - eapply opened_trans; [exact Ho|by apply silent_opened|done..].
  - intros x c2 Ho2. by apply pwp_ret, pwp_ret.
Qed.
#[local] Hint Resolve keeps_primary_expr : runs.

(** ** Postfix expressions *)

Lemma keeps_call_tail : keeps n 1 (call_tail rec).
Proof using Hin Hrec. unfold call_tail. walk. Qed.
#[local] Hint Resolve keeps_call_tail : runs.
Lemma keeps_postfix_op ns a b : keeps n 1 (postfix_op rec ns a b).
Proof using Hin Hrec. unfold postfix_op. walk. Qed.
#[local] Hint Resolve keeps_postfix_op : runs.

Lemma keeps_postfix_loop fuel chain ns a b : MAX_POSTFIX_CHAIN ≤ fuel + chain →
  keeps n 1 (postfix_loop rec fuel chain ns a b).
Proof using Hin Hrec.
  revert chain a b. induction fuel as [|fuel IH]; intros chain a b Hle; cbn [postfix_loop];
    (eapply (runs_bind n 1 0 0 0 0); [walk|intros [a'|]; [|walk]]).
  - rewrite bool_decide_eq_true_2 by lia. walk.
  - pose proof (IH (chain + 1) a' false ltac:(lia)). walk.
Qed.

Lemma keeps_postfix_expr ns : keeps n 1 (postfix_expr rec ns).
Proof using Hin Hrec Hnot.
  unfold postfix_expr. eapply (runs_bind n 1 0 0 0 0); [walk|]. intros a. apply keeps_postfix_loop. lia.
Qed.
#[local] Hint Resolve keeps_postfix_expr : runs.
Lemma keeps_unary_expr ns : keeps n 1 (unary_expr rec ns).
Proof using Hin Hrec Hnot. unfold unary_expr. walk. Qed.
#[local] Hint Resolve keeps_unary_expr : runs.

(** ** Operators *)

Lemma keeps_cast_expr ns : keeps n 1 (cast_expr rec ns).
Proof using Hin Hrec Hnot.
  assert (keeps n 1 (cast_loop rec loop_fuel)).
  { apply runs_loop, (runs_eat Hin n _ _ _ _ KwAs (do_ rec (PType false))); [done|by intros []|walk]. }
  unfold cast_expr. walk.
Qed.
#[local] Hint Resolve keeps_cast_expr : runs.
Lemma keeps_cast_expr_ ns : keeps n 1 (cast_expr_ rec ns).
Proof using Hin Hrec Hnot. unfold cast_expr_. walk. Qed.
#[local] Hint Resolve keeps_cast_expr_ : runs.

Lemma keeps_mul_tail ns : keeps n 1 (mul_tail rec ns).
Proof using Hin Hrec Hnot.
  assert (keeps n 1 (mul_loop rec loop_fuel ns)).
  { apply runs_loop, (runs_while Hin n _ _ _ _ is_mul_op (cast_expr_ rec ns) (λ f, mul_loop rec f ns));
      [done|by intros []|walk]. }
  unfold mul_tail. walk.
Qed.
#[local] Hint Resolve keeps_mul_tail : runs.

Lemma keeps_add_tail ns : keeps n 1 (add_tail rec ns).
Proof using Hin Hrec Hnot.
  assert (keeps n 1 (add_loop rec loop_fuel ns)).
  { apply runs_loop. generalize loop_fuel. intros N. induction N as [|N IH]; intros o c Hr Ho HN; cbn [add_loop];
      apply pwp_bind, (wp_cur Hin), wp_if; try (intros _; by apply pwp_ret); intros Hk;
      (assert (kind c ≠ Eof) as Hne by (intros E; by rewrite E in Hk)).
    - apply wp_sane. intros Hc. pose proof (left_0 Hin c Hc Hne). lia.
    - eapply (to_moves n N 1 0 0 0 0); [by apply (moves_bump Hin)|done| |done..].
      intros _. do 2 (eapply (runs_to_bind n N 1 0 0 0 0); [walk|intros _]). exact IH. }
  unfold add_tail. walk.
Qed.
#[local] Hint Resolve keeps_add_tail : runs.
Lemma keeps_add_expr ns : keeps n 1 (add_expr rec ns).
Proof using Hin Hrec Hnot. unfold add_expr. walk. Qed.
#[local] Hint Resolve keeps_add_expr : runs.

Lemma keeps_eat_operator_tail ns : keeps n 1 (eat_operator_tail rec ns).
Proof using Hin Hrec Hnot.
  unfold eat_operator_tail. apply runs_loop, (runs_while Hin n _ _ _ _ is_binop (cast_expr_ rec ns) (λ f, eat_loop rec f ns));
    [done|by intros []|walk].
Qed.
#[local] Hint Resolve keeps_eat_operator_tail : runs.
Lemma keeps_mix_error ns : keeps n 1 (mix_error rec ns).
Proof using Hin Hrec Hnot. unfold mix_error. walk. Qed.
#[local] Hint Resolve keeps_mix_error : runs.

Lemma keeps_bit_loop op ns : op ≠ Eof → keeps n 1 (bit_loop rec loop_fuel op ns).
Proof using Hin Hrec Hnot.
  intros Hop. apply runs_loop. generalize loop_fuel. intros N.
  induction N as [|N IH]; intros o c Hr Ho HN; cbn [bit_loop]; apply wp_ifM, (wp_at Hin);
    (destruct (token_kind_eqb _ _) eqn:E; [|by apply pwp_ret]); apply eqb_true in E;
    (assert (kind c ≠ Eof) as Hne by congruence).
  - apply wp_sane. intros Hc. pose proof (left_0 Hin c Hc Hne). lia.
  - eapply (to_moves n N 1 0 0 0 0); [by apply (moves_bump Hin)|done| |done..].
    intros _. eapply (runs_to_bind n N 1 0 0 0 0); [walk|by intros _].
Qed.
Lemma keeps_bit_expr op ns : op ≠ Eof → keeps n 1 (bit_expr rec op ns).
Proof using Hin Hrec Hnot.
  intros Hop. pose proof (keeps_bit_loop op ns Hop). unfold bit_expr. eapply runs_bind; [apply runs_wrap|intros _].
  eapply (runs_bind n 1 1 0 1 0); [|intros _; walk].
  assert (keeps n 1 (bump;; cast_expr_ rec ns)) by walk.
  destruct op; (eapply runs_keeps; [eassumption|lia]).
Qed.

Lemma keeps_range_tail ns : keeps n 1 (range_tail rec ns).
Proof using Hin Hrec Hnot. unfold range_tail. walk. Qed.
#[local] Hint Resolve keeps_range_tail : runs.
Lemma keeps_range_or_bit ns b : keeps n 1 (range_or_bit rec ns b).
Proof using Hin Hrec Hnot.
  unfold range_or_bit. do 2 (eapply (runs_bind n 1 0 0 0 0); [walk|intros ?]).
  destruct (is_bit_op _) eqn:E; [|walk]. run_step; [walk|].
  eapply (runs_bind n 1 0 0 0 0); [|intros _; walk]. apply keeps_bit_expr. by intros ->.
Qed.
#[local] Hint Resolve keeps_range_or_bit : runs.
Lemma keeps_cmp_expr ns : keeps n 1 (cmp_expr rec ns).
Proof using Hin Hrec Hnot. unfold cmp_expr. walk. Qed.
#[local] Hint Resolve keeps_cmp_expr : runs.

Lemma keeps_not_expr ns : keeps n 1 (not_expr rec ns).
Proof using Hin Hrec Hnot. unfold not_expr. walk. Qed.
(** At [not] the code enters a level at once. *)
Lemma not_expr_low ns o c : fuel_at n 0 o → opened 0 0 o c → kind c = KwNot →
  wp (not_expr rec ns) c (λ _ c', opened 0 0 o c').
Proof using Hin Hrec.
  intros Hr Ho Hk. unfold not_expr. apply wp_ifM, (wp_at Hin). rewrite Hk. simpl.
  assert (keeps n 0 (ifM enter (start_node Kind.NotExpr;; bump;; do_ rec (PNotExpr ns);; finish_node;; leave;; mret false)
    (mret false))) as Hw by walk.
  by apply Hw.
Qed.
#[local] Hint Resolve keeps_not_expr : runs.

Lemma keeps_and_expr ns : keeps n 1 (and_expr rec ns).
Proof using Hin Hrec Hnot.
  assert (keeps n 1 (and_loop rec loop_fuel ns)).
  { apply runs_loop, (runs_eat Hin n _ _ _ _ KwAnd (not_expr rec ns) (λ f, and_loop rec f ns));
      [done|by intros []|walk]. }
  unfold and_expr. walk.
Qed.
#[local] Hint Resolve keeps_and_expr : runs.
Lemma keeps_expr ns : keeps n 1 (expr rec ns).
Proof using Hin Hrec Hnot.
  assert (keeps n 1 (or_loop rec loop_fuel ns)).
  { apply runs_loop, (runs_eat Hin n _ _ _ _ KwOr (and_expr rec ns) (λ f, or_loop rec f ns));
      [done|by intros []|walk]. }
  unfold expr. walk.
Qed.
#[local] Hint Resolve keeps_expr : runs.

(** ** Types *)

Lemma keeps_type_app : keeps n 2 (type_app rec).
Proof using Hin Hrec. unfold type_app. walk. Qed.
#[local] Hint Resolve keeps_type_app : runs.
Lemma keeps_targ : keeps n 1 (targ rec).
Proof using Hin Hrec Hnot. unfold targ. walk. Qed.
Lemma keeps_type_core ret : keeps n 2 (type_core rec ret).
Proof using Hin Hrec. unfold type_core. walk. Qed.
#[local] Hint Resolve keeps_targ keeps_type_core : runs.

Lemma keeps_qualifiers : keeps n 0 (qualifiers loop_fuel).
Proof using Hin.
  apply runs_loop. generalize loop_fuel. intros N. induction N as [|N IH]; intros o c Hr Ho HN; cbn [qualifiers];
    apply pwp_bind, (wp_cur Hin), wp_if; try (intros _; by apply pwp_ret); intros Hk;
    (assert (kind c ≠ Eof) as Hne by (intros E; by rewrite E in Hk)).
  - apply wp_sane. intros Hc. pose proof (left_0 Hin c Hc Hne). lia.
  - eapply (to_moves n N 0 0 0 0 0); [by apply (moves_bump Hin)|done|by intros _|done..].
Qed.
#[local] Hint Resolve keeps_qualifiers : runs.
Lemma keeps_type_ ret : keeps n 0 (type_ rec ret).
Proof using Hin Hrec.
  unfold type_. apply runs_enter; [done| |walk]. eapply (runs_bind n 0 0 1 0 1); [walk|]. intros scoped. walk_cond scoped.
Qed.

(** ** Patterns and bindings *)

Lemma keeps_fpat : keeps n 1 (fpat rec).
Proof using Hin Hrec. unfold fpat. walk. Qed.
#[local] Hint Resolve keeps_fpat : runs.
Lemma keeps_payload : keeps n 1 (payload rec).
Proof using Hin Hrec. unfold payload. walk. Qed.
#[local] Hint Resolve keeps_payload : runs.

Lemma runs_if_and {A} r k d k' d' (b : bool) e (m m' : PS A) : runs n r k d k' d' (ifM e m m') →
  runs n r k d k' d' m' → runs n r k d k' d' (ifM (andM (mret b) e) m m').
Proof.
  intros Hm Hm'. destruct b; [exact Hm|exact Hm'].
Qed.

Lemma keeps_pat_path k : keeps n 0 (pat_path rec k).
Proof using Hin Hrec. 
  assert (runs n 0 0 0 1 0 (start_node Kind.PatDot;; bump;; expect_ Ident "expected a variant name after '.'")) as Hd.
  { eapply runs_bind; [apply runs_start|intros _]. walk. }
  assert (runs n 0 0 0 1 0 (start_node Kind.PatPath;; path_tokens)) as Hp.
  { eapply runs_bind; [apply runs_start|intros _]. walk. }
  unfold pat_path. eapply (runs_bind n 0 0 0 1 0); [by destruct k|intros _].
  eapply (runs_bind n 0 1 0 1 0); [walk|intros k']. eapply (runs_bind n 0 1 0 1 0); [|intros _; apply runs_finish].
  apply runs_if_and; walk.
Qed.
#[local] Hint Resolve keeps_pat_path : runs.

Lemma keeps_no_pattern : keeps n 0 no_pattern.
Proof using Hin. unfold no_pattern. walk. Qed.
#[local] Hint Resolve keeps_no_pattern : runs.
Lemma keeps_pattern : keeps n 0 (pattern rec).
Proof using Hin Hrec. unfold pattern. walk. Qed.
Lemma keeps_binding : keeps n 0 (binding rec).
Proof using Hin Hrec. unfold binding. walk. Qed.
#[local] Hint Resolve keeps_binding : runs.

(** ** Statements *)

Lemma keeps_for_head : keeps n 2 (for_head rec).
Proof using Hin Hrec. unfold for_head. walk. Qed.
Lemma keeps_attr_arg : keeps n 0 attr_arg.
Proof using Hin. unfold attr_arg. walk. Qed.
#[local] Hint Resolve keeps_for_head keeps_attr_arg : runs.
Lemma keeps_attribute : keeps n 0 attribute.
Proof using Hin. unfold attribute. walk. Qed.
#[local] Hint Resolve keeps_attribute : runs.

Lemma keeps_let_stmt : keeps n 2 (let_stmt rec).
Proof using Hin Hrec. unfold let_stmt. walk. Qed.
Lemma keeps_with_stmt : keeps n 2 (with_stmt rec).
Proof using Hin Hrec. unfold with_stmt. walk. Qed.
Lemma keeps_parallel_stmt : keeps n 2 (parallel_stmt rec).
Proof using Hin Hrec. unfold parallel_stmt. walk. Qed.
Lemma keeps_expr_stmt : keeps n 2 (expr_stmt rec).
Proof using Hin Hrec Hnot. unfold expr_stmt. walk. Qed.
#[local] Hint Resolve keeps_let_stmt keeps_with_stmt keeps_parallel_stmt keeps_expr_stmt : runs.

Lemma keeps_stmt : keeps n 2 (stmt rec).
Proof using Hin Hrec Hnot.
  unfold stmt. eapply (runs_bind n 2 0 0 0 0); [walk|]. intros k. destruct k; walk.
Qed.
#[local] Hint Resolve keeps_stmt : runs.
Lemma keeps_block : keeps n 0 (block rec).
Proof using Hin Hrec Hnot. unfold block. walk. Qed.
End grammar.
