(* ===== verification/SynDecls.v ===== *)
(** * Declarations end

    The knot of the grammar has fuel enough, and so has every loop of the
    declarations: each turn goes past a token. *)

From Stdlib Require Import Strings.Byte.
From S2P Require Import Prelude SynTree SynBuilder Token Lexer SynCursor SynParse SynFile SynSteps SynRules SynWalk.
Local Open Scope nat_scope.

Section knot.
Context `{Input} (Hin : input_ok).

Lemma keeps_S {A} n r (m : PS A) : keeps n r m → keeps (S n) (S r) m.
Proof. intros Hm o c Hr Ho. apply Hm; [unfold fuel_at in *; lia|done]. Qed.

Lemma production_keeps n : (∀ c, keeps n (cost c) (production n c)) ∧
  (∀ ns o c, fuel_at n 1 o → opened 0 0 o c → kind c = KwNot →
     wp (production n (PNotExpr ns)) c (λ _ c', opened 0 0 o c')).
Proof using Hin.
  induction n as [|n [IH IHn]].
  - split; [intros c o c' Hr|intros ns o c Hr]; exfalso; unfold fuel_at in Hr; [destruct c|]; simpl in *; lia.
  - assert (∀ m : PS unit, keeps n 0 m → keeps (S n) 1 (with_false m)) as Hw.
    { intros m Hm. unfold with_false. eapply (runs_bind (S n) 1 0 0 0 0); [by apply keeps_S|intros _; apply runs_ret]. }
    split.
    + intros []; cbn [production cost]; cbv zeta.
      * by apply Hw, keeps_type_.
      * by apply keeps_S, keeps_expr.
      * by apply keeps_S, keeps_not_expr.
      * by apply keeps_S, keeps_unary_expr.
      * unfold with_false. eapply (runs_bind (S n) 2 0 0 0 0); [by apply keeps_S, keeps_targ|intros _; apply runs_ret].
      * by apply Hw, keeps_block.
      * by apply Hw, keeps_binding.
      * by apply Hw, keeps_pattern.
    + intros ns o c Hr Ho Hk. cbn [production]; cbv zeta.
      apply (not_expr_low Hin n); [done|unfold fuel_at in *; lia|done|done].
Qed.
End knot.

Section decls.
Context `{Input} (Hin : input_ok).
Abbreviation keepf := (keeps FUEL 2).

Lemma fuel_full o : fuel_at FUEL 2 o.
Proof. unfold fuel_at, FUEL. lia. Qed.

Lemma keeps_f c : keepf (do_ (production FUEL) c).
Proof using Hin. apply keeps_do; [apply production_keeps, Hin|destruct c; simpl; lia]. Qed.
Lemma keeps_type_f : keepf type_f. Proof using Hin. apply keeps_f. Qed.
Lemma keeps_block_f : keepf block_f. Proof using Hin. apply keeps_f. Qed.
Lemma keeps_expr_f ns : keepf (expr_f ns). Proof using Hin. apply keeps_f. Qed.
Lemma keeps_raises_f : keepf (raises (production FUEL)).
Proof using Hin. eapply runs_keeps; [apply keeps_raises; [done|apply production_keeps, Hin]|lia]. Qed.
#[local] Hint Resolve keeps_f keeps_type_f keeps_block_f keeps_expr_f keeps_raises_f keeps_path keeps_path_tokens
  keeps_dot_lit keeps_literal keeps_convention keeps_attribute keeps_attr_arg : runs.

(** ** Members *)

Lemma keeps_bounds : keepf bounds.
Proof using Hin.
  assert (keepf (bounds_loop loop_fuel)).
  { apply runs_loop, (runs_eat Hin FUEL _ _ _ _ Plus type_f); [done|by intros []|walk]. }
  unfold bounds. walk.
Qed.
Lemma keeps_contract : keepf contract.
Proof using Hin. unfold contract. walk. Qed.
Lemma keeps_field : keepf field.
Proof using Hin. unfold field. walk. Qed.
#[local] Hint Resolve keeps_bounds keeps_contract keeps_field : runs.
Lemma keeps_evariant : keepf evariant.
Proof using Hin. unfold evariant. walk. Qed.
Lemma keeps_equality_bound : keepf equality_bound.
Proof using Hin. unfold equality_bound. walk. Qed.
#[local] Hint Resolve keeps_evariant keeps_equality_bound : runs.
Lemma keeps_gparam : keepf gparam.
Proof using Hin. unfold gparam, gconstraint. walk. Qed.
#[local] Hint Resolve keeps_gparam : runs.
Lemma keeps_generics : keepf generics.
Proof using Hin. unfold generics. walk. Qed.
Lemma keeps_param : keepf param.
Proof using Hin. unfold param. walk. Qed.
#[local] Hint Resolve keeps_generics keeps_param : runs.

(** Loops on a condition that is false at the end, whose turn goes past a token. *)
Lemma runs_moves N r k d (cond : PS bool) (m : PS unit) (loop : nat → PS unit) :
  (∀ c Q, (kind c ≠ Eof → Q true c) → Q false c → wp cond c Q) →
  (∀ fuel, loop fuel = ifM cond
     match fuel with O => out_of_fuel | S fuel => m;; loop fuel end (mret tt)) →
  moves FUEL r k d k d m → runs_to FUEL N r k d k d (loop N).
Proof using Hin.
  intros Hc Hloop Hm. induction N as [|N IH]; intros o c Hr Ho HN; rewrite Hloop; apply wp_ifM, Hc;
    try (by apply pwp_ret); intros Hk.
  - apply wp_sane. intros Hs. pose proof (left_0 Hin c Hs Hk). lia.
  - eapply (to_moves FUEL N r k d k d); [exact Hm|done|by intros _|done..].
Qed.

Lemma moves_contract : moves FUEL 2 0 0 0 0 contract.
Proof using Hin. apply moves_node. eapply moves_bind; [by apply moves_bump|]. intros _. walk. Qed.

Lemma word_not_eof w c (Q : bool → conf → Prop) : (kind c ≠ Eof → Q true c) → Q false c → wp (is_word w) c Q.
Proof using Hin. intros HQ HQ'. apply (wp_is_word Hin); [|done]. intros Hk. apply HQ. by rewrite Hk. Qed.

Lemma keeps_contracts_loop : keepf (contracts_loop loop_fuel).
Proof using Hin.
  apply runs_loop, (runs_moves _ _ _ _ (orM (orM (is_word "pre") (is_word "post")) (is_word "invariant")) contract);
    [|by intros []|apply moves_contract].
  intros c Q HQ HQ'. by apply wp_orM, wp_orM, word_not_eof; [..|apply word_not_eof; [|apply word_not_eof]].
Qed.
#[local] Hint Resolve keeps_contracts_loop : runs.
Lemma keeps_fn_sig : keepf fn_sig.
Proof using Hin. unfold fn_sig. walk. Qed.
#[local] Hint Resolve keeps_fn_sig : runs.

Lemma keeps_invariants_loop : keepf (invariants_loop loop_fuel).
Proof using Hin.
  apply runs_loop, (runs_moves _ _ _ _ (is_word "invariant") contract);
    [intros c Q; apply word_not_eof|by intros []|apply moves_contract].
Qed.
#[local] Hint Resolve keeps_invariants_loop : runs.
Lemma keeps_struct_decl : keepf struct_decl.
Proof using Hin. unfold struct_decl. walk. Qed.
#[local] Hint Resolve keeps_struct_decl : runs.

(** ** Bodies of traits and impls *)

(** Past [before] already, or at a token there. *)
Definition past (before : nat) (c : conf) : Prop := before < pos c ∨ pos c = before ∧ kind c ≠ Eof.

Lemma moves_past {A} r k d k' d' (m : PS A) o c before : runs FUEL r k d k' d' m → moves FUEL r k d k' d' m →
  fuel_at FUEL r o → opened k d o c → past before c → wp m c (λ _ c', opened k' d' (after (S before) o) c').
Proof.
  intros Hm Hv Hr Ho [Hlt|[<- Hk]]; [|by apply Hv].
  apply (Hm (after (S before) o)); [done|]. destruct Ho. by split.
Qed.
Lemma runs_after {A} r k d k' d' (m : PS A) o c before : runs FUEL r k d k' d' m → fuel_at FUEL r o →
  opened k d (after (S before) o) c → wp m c (λ _ c', opened k' d' (after (S before) o) c').
Proof. intros Hm Hr Ho. by apply Hm. Qed.

Lemma keeps_skip_assoc_item : keeps FUEL 0 skip_assoc_item.
Proof using Hin. unfold skip_assoc_item. apply (runs_skip_close Hin). walk. Qed.
#[local] Hint Resolve keeps_skip_assoc_item : runs.

Lemma runs_assoc_type_item k d b : runs FUEL 2 (S k) d (S k) d (assoc_type_item b).
Proof using Hin. unfold assoc_type_item. walk. Qed.
Lemma moves_assoc_type_item k d b : moves FUEL 2 (S k) d (S k) d (assoc_type_item b).
Proof using Hin.
  intros o c Hr Ho Hk. apply pwp_bind, (wp_build _ (rename_node (if b then Kind.AssocTypeDef else Kind.AssocTypeDecl))).
  - apply set_current_kind_brep.
  - intros F. unfold rename_node. by repeat case_match.
  - intros F. apply rename_node_nested.
  - intros b'. set (c1 := MkConf _ _).
    assert (opened (S k) d o c1) as Ho1 by (by apply (opened_rename _ _ _ c)).
    apply pwp_bind. eapply pwp_mono; [by apply (moves_bump Hin FUEL 2 (S k) d o c1)|]. intros x c2 Ho2.
    eapply (runs_after 2 (S k) d (S k) d); [walk|done|exact Ho2].
Qed.

Lemma moves_attribute : moves FUEL 2 0 0 0 0 attribute_f.
Proof using Hin. apply moves_node. eapply moves_bind; [by apply moves_bump|]. intros _. walk. Qed.

Lemma at_not_eof k c (Q : bool → conf → Prop) : k ≠ Eof → (kind c ≠ Eof → Q true c) → Q false c → wp (at_ k) c Q.
Proof using Hin.
  intros Hk HQ HQ'. apply (wp_at Hin). destruct (token_kind_eqb _ _) eqn:E; [|done].
  apply eqb_true in E. apply HQ. congruence.
Qed.

Lemma keeps_attributes_loop : keepf (attributes_loop loop_fuel).
Proof using Hin.
  apply runs_loop, (runs_moves _ _ _ _ (at_ At) attribute_f); [|by intros []|apply moves_attribute].
  intros c Q. by apply at_not_eof.
Qed.
#[local] Hint Resolve keeps_attributes_loop : runs.

Lemma moves_fn_sig : moves FUEL 2 0 0 0 0 fn_sig.
Proof using Hin. apply moves_node. eapply moves_bind; [by apply moves_bump|]. intros _. walk. Qed.

Lemma keeps_runs {A} k d (m : PS A) : keepf m → runs FUEL 2 k d k d m.
Proof. intros Hm. eapply runs_keeps; [exact Hm|lia]. Qed.
Lemma moves_keeps {A} k d (m : PS A) : moves FUEL 2 0 0 0 0 m → moves FUEL 2 k d k d m.
Proof.
  intros Hm o c Hr Ho Hk. apply wp_sane. intros Hc. eapply pwp_mono; [apply (Hm (here c)); [|apply opened_here|done]|].
  - pose proof (sn_depth _ Hc). pose proof (op_depth _ _ _ _ Ho). unfold fuel_at, FUEL in *. lia.
  - intros x c' Ho'. pose proof (op_pos _ _ _ _ Ho'). simpl in *.
    assert (opened 0 0 (here c) c') as Ho1 by (destruct Ho'; split; simpl in *; [lia|done..]).
    destruct (opened_trans _ _ _ _ _ _ _ Ho Ho1 eq_refl eq_refl). by split.
Qed.

(** What follows the attributes of a member. *)
Definition member_rest (impl_body : bool) (before : nat) : PS unit :=
  If at_ KwFn Then (fn_sig;; If mret impl_body ||| notM (opt Semi) Then block_f)
  Else If at_ KwType Then
    (p ← gets pa_p;
     when (negb (bool_decide (p = before)))
       (err_here PDiag.UnexpectedToken "an associated-type item takes no attribute and no 'pub'");;
     assoc_type_item impl_body)
  Else
    (expected "expected 'fn' or 'type'";;
     set_current_kind Kind.Error;;
     p ← gets pa_p;
     If mret (bool_decide (p = before)) &&& notM (at_ Eof) Then bump).

Lemma wp_run {A} r k d k' d' (m : PS A) o c : runs FUEL r k d k' d' m → fuel_at FUEL r o → opened k d o c →
  wp m c (λ _ c', opened k' d' o c').
Proof. intros Hm. by apply Hm. Qed.

Lemma opened_silent k d o c c' : opened k d o c → silent c c' → opened k d o c'.
Proof. intros Ho Hs. eapply opened_trans; [exact Ho|by apply silent_opened|done..]. Qed.
Lemma past_silent before c c' : past before c → silent c c' → past before c'.
Proof. intros Hp Hs. unfold past. rewrite (silent_kind _ _ Hs), (si_pos _ _ Hs). exact Hp. Qed.

Lemma member_rest_past b before o c : opened 1 0 o c → past before c →
  wp (member_rest b before) c (λ _ c', opened 1 0 (after (S before) o) c').
Proof using Hin.
  intros Ho Hp. pose proof fuel_full as Hr.
  unfold member_rest. apply wp_ifM, (wp_at Hin). destruct (token_kind_eqb _ KwFn).
  { apply (moves_past 2 1 0); [apply keeps_runs; walk| |done..].
    apply moves_keeps. eapply moves_bind; [apply moves_fn_sig|intros _; walk]. }
  apply wp_ifM, (wp_at Hin). destruct (token_kind_eqb _ KwType).
  { apply pwp_bind, pwp_gets, pwp_bind. eapply pwp_mono with (Q := λ _ c', silent c c').
    - destruct (negb _); [by apply (wp_err_here Hin)|apply pwp_ret, silent_refl].
    - intros x c1 Hs. apply (moves_past 2 1 0);
        [apply runs_assoc_type_item|apply moves_assoc_type_item|done|by eapply opened_silent|by eapply past_silent]. }
  apply pwp_bind, (wp_err_here Hin). intros c1 Hs1.
  apply pwp_bind, (wp_build _ (rename_node Kind.Error)); [apply set_current_kind_brep| |apply rename_node_nested|].
  { intros F. unfold rename_node. by repeat case_match. }
  intros b'. set (c2 := MkConf _ _).
  assert (opened 1 0 o c2) as Ho2 by (apply (opened_rename _ _ _ c1); [by eapply opened_silent|done]).
  pose proof (past_silent _ _ _ Hp Hs1 : past before c2) as Hp2.
  apply pwp_bind, pwp_gets, wp_ifM, wp_andM, pwp_ret. destruct (bool_decide _) eqn:Eb.
  - apply bool_decide_eq_true in Eb. destruct Hp2 as [Hlt|[_ Hk]]; [lia|].
    apply wp_notM, (wp_at Hin). rewrite (proj2 (eqb_false _ _) Hk). simpl.
    rewrite <- Eb. by apply (moves_bump Hin FUEL 2 1 0).
  - apply bool_decide_eq_false in Eb. destruct Hp2 as [Hlt|[? _]]; [|done]. apply pwp_ret.
    destruct Ho2. by split.
Qed.

(** A node whose first steps keep the position or move it. *)
Lemma past_start before c c' : pos c = before → kind c ≠ Eof → opened 0 0 (here c) c' → past before c'.
Proof.
  intros <- Hk [Hp _ _ _]. simpl in Hp. destruct (decide (pos c' = pos c)) as [E|]; [right|left; lia].
  split; [done|]. unfold kind in *. by rewrite E.
Qed.

Lemma moves_member b : moves FUEL 2 0 0 0 0 (member b).
Proof using Hin.
  intros o c Hr Ho Hk. unfold member. apply pwp_bind, pwp_gets, pwp_bind, (wp_build _ (open_node (if b then Kind.FnDecl else Kind.TraitItem))).
  - intros b' F Hb. eexists. split; [done|by apply start_node_brep].
  - done.
  - intros F. apply open_node_nested.
  - intros b'. set (c1 := MkConf _ _).
    assert (opened 1 0 o c1) as Ho1 by (eapply opened_open; [exact Ho|apply same_place_b|apply same_open_refl|done..]).
    assert (keepf (attributes_loop loop_fuel;; when b (opt KwPub;; mret tt))) as Hpre by walk.
    apply pwp_bind. change (wp (attributes_loop loop_fuel;; when b (opt KwPub;; mret tt);; member_rest b (pos c)) c1
      (λ _ c', wp finish_node c' (λ _ c'', opened 0 0 (after (S (pos c)) o) c''))).
    apply wp_assoc, pwp_bind. eapply pwp_mono; [apply (Hpre (here c1)); [apply fuel_full|apply opened_here]|].
    intros x c2 Ho2. eapply pwp_mono; [apply (member_rest_past b (pos c) o)|].
    + by eapply opened_trans.
    + by apply (past_start _ c1).
    + intros y c3 Ho3. by apply (runs_finish FUEL 2 0 0).
Qed.

Lemma keeps_member b : keepf (member b).
Proof using Hin.
  unfold member. eapply (runs_bind FUEL 2 0 0 0 0); [walk|intros before].
  apply runs_node. pose proof (runs_assoc_type_item 0 0 b). 
  eapply (runs_bind FUEL 2 1 0 1 0); [walk|intros _]. eapply (runs_bind FUEL 2 1 0 1 0); [walk|intros _].
  apply runs_ifM; [walk..|]. apply runs_ifM; [walk| |walk].
  do 2 (eapply (runs_bind FUEL 2 1 0 1 0); [walk|intros ?]). done.
Qed.

Lemma keeps_body_loop b : keepf (body_loop loop_fuel b).
Proof using Hin.
  apply runs_loop. generalize loop_fuel. intros N. induction N as [|N IH]; intros o c Hr Ho HN; cbn [body_loop];
    apply wp_ifM, wp_orM, wp_orM, (wp_at Hin);
    (destruct (token_kind_eqb _ RBrace); [by apply pwp_ret|]); apply (wp_at Hin);
    destruct (token_kind_eqb _ Eof) eqn:E; try by apply pwp_ret.
  all: apply eqb_false in E; apply (wp_at_body_overrun Hin); intros []; [by apply pwp_ret|].
  - apply wp_sane. intros Hc. pose proof (left_0 Hin c Hc E). lia.
  - eapply (to_moves FUEL N 2 0 0 0 0); [apply moves_member|done|by intros _|done..].
Qed.

Lemma keeps_item_body b : keepf (item_body b).
Proof using Hin.
  unfold item_body. eapply (runs_bind FUEL 2 0 0 0 0); [walk|intros [os oe]].
  apply runs_ifM; [walk| |walk]. intros o c Hr Ho. apply wp_sane. intros Hc. pose proof (sn_depth _ Hc).
  apply pwp_bind, pwp_gets, pwp_bind, pwp_modify; [done|done|done|]. set (c1 := MkConf _ _).
  apply pwp_bind. eapply pwp_mono; [apply (keeps_body_loop b (here c1)); [apply fuel_full|apply opened_here]|].
  intros x c2 Ho2. apply pwp_bind, pwp_gets. pose proof (op_members _ _ _ _ Ho2) as Hm. simpl in Hm.
  rewrite Hm, Nat.add_1_r. apply wp_sane. intros Hc2. pose proof (sn_depth _ Hc2).
  apply pwp_bind, pwp_modify; [done|done|done|]. set (c3 := MkConf _ _).
  assert (opened 0 0 o c3) as Ho3; [|eapply wp_run; [walk|done|done]].
  eapply (opened_trans 0 0 0 0 o c); [done| |done..].
  destruct Ho2 as [Hp Hd _ HF]. split; [exact Hp|exact Hd|done|exact HF].
Qed.
#[local] Hint Resolve keeps_item_body : runs.

(** ** Declarations *)

Lemma keeps_skip_to_decl : keepf (skip_to_decl loop_fuel).
Proof using Hin.
  apply runs_loop. generalize loop_fuel. intros N. induction N as [|N IH]; intros o c Hr Ho HN; cbn [skip_to_decl];
    apply wp_ifM, wp_orM; (apply (wp_eof_or Hin); [by intros; apply (wp_at_decl_sync Hin)|by apply pwp_ret|intros Hk]);
    apply (wp_at Hin); (destruct (token_kind_eqb _ _); [by apply pwp_ret|]).
  - apply wp_sane. intros Hc. pose proof (left_0 Hin c Hc Hk). lia.
  - eapply (to_moves FUEL N 2 0 0 0 0); [by apply moves_bump|done|by intros _|done..].
Qed.
#[local] Hint Resolve keeps_skip_to_decl : runs.

Lemma keeps_not_a_decl before : keepf (not_a_decl before).
Proof using Hin. unfold not_a_decl. walk. Qed.
Lemma not_a_decl_past before o c : opened 0 0 o c → past before c →
  wp (not_a_decl before) c (λ _ c', opened 0 0 (after (S before) o) c').
Proof using Hin.
  intros Ho Hp. apply pwp_bind, (wp_cur Hin), pwp_bind, (wp_err_here Hin). intros c1 Hs.
  pose proof (opened_silent _ _ _ _ _ Ho Hs) as Ho1. pose proof (past_silent _ _ _ Hp Hs) as Hp1.
  apply pwp_bind, pwp_gets, pwp_bind. eapply pwp_mono with (Q := λ _ c2, opened 0 0 (after (S before) o) c2).
  - destruct (bool_decide _) eqn:E; simpl.
    + apply bool_decide_eq_true in E. destruct Hp1 as [Hlt|[_ Hk]]; [lia|].
      rewrite <- E. apply (moves_bump Hin FUEL 2 0 0); [apply fuel_full|done|done].
    + apply bool_decide_eq_false in E. destruct Hp1 as [Hlt|[? _]]; [|done]. apply pwp_ret.
      destruct Ho1. by split.
  - intros x c2 Ho2. eapply wp_run; [apply keeps_skip_to_decl|apply fuel_full|done].
Qed.
End decls.

(** * Files end

    A file is a list of header clauses, uses and declarations, each one node
    under the root. *)

(** What may stand directly under the root. *)
Definition top_kind (k : Kind.NodeKind) : bool := is_header k || Kind.is_decl k || kind_eqb k Kind.Error.

Section top.
Context `{Input} (Hin : input_ok).

(** One more tree under the innermost node. *)
Definition adds (P : Kind.NodeKind → Prop) (c c' : conf) : Prop := ∃ t, P (rose_kind t) ∧
  fo_frames (cf_F c') = fo_frames (add_tree t (cf_F c)) ∧ fo_roots (cf_F c') = fo_roots (add_tree t (cf_F c)).

Lemma close_adds c c1 c2 kd b st : fo_frames (cf_F c1) = MkOpen kd (fo_cur (cf_F c)) [] :: fo_frames (cf_F c) →
  fo_roots (cf_F c1) = fo_roots (cf_F c) → opened 0 0 (here c1) c2 → ∀ kd',
  adds (eq kd') c (MkConf (with_b b st) (close_node (rename_node kd' (cf_F c2)))).
Proof.
  intros Ef Er [_ _ _ (inner & frs & E & El & Ho)] kd'. destruct inner; [|done]. simpl in *.
  unfold same_open in Ho. rewrite Ef, <- E in Ho. simpl in Ho.
  destruct (fo_frames (cf_F c2)) as [|fr rest] eqn:E2; [done|]. destruct Ho as (Hk & Hf & -> & Er').
  exists (Rose kd' (of_first fr) (fo_cur (cf_F c2)) (of_done fr)). split; [done|].
  unfold close_node, rename_node, add_tree. rewrite E2. simpl.
  destruct (fo_frames (cf_F c)); simpl; split; congruence.
Qed.

Lemma rename_same kd F fr frs : fo_frames F = fr :: frs → of_kind fr = kd → rename_node kd F = F.
Proof. intros E <-. unfold rename_node. rewrite E. destruct F, fr. simpl in *. by subst. Qed.

Lemma node_adds kd m c p : pos c ≤ p →
  (∀ c1, pos c1 = pos c → kind c1 = kind c → wp m c1 (λ _ c2, opened 0 0 (after p (here c1)) c2)) →
  wp (in_node kd m) c (λ _ c', p ≤ pos c' ∧ opened 0 0 (here c) c' ∧ adds (eq kd) c c').
Proof.
  intros Hp Hm. apply pwp_bind, (wp_build _ (open_node kd)).
  { intros b F Hb. eexists. split; [done|by apply start_node_brep]. }
  { done. }
  { intros F. apply open_node_nested. }
  intros b. set (c1 := MkConf _ _). apply pwp_bind.
  eapply pwp_mono; [by apply (Hm c1)|]. intros x c2 Ho2'. pose proof (op_pos _ _ _ _ Ho2') as Hp2. simpl in Hp2.
  assert (opened 0 0 (here c1) c2) as Ho2 by (destruct Ho2'; split; simpl in *; [lia|done..]).
  apply (wp_build _ close_node); [apply finish_node_brep| |apply close_node_nested|].
  { intros F. unfold close_node, add_tree. by repeat case_match. }
  intros b'. split_and!; [done| |].
  - apply (opened_close _ _ (here c) c2); [|done]. eapply opened_trans; [|exact Ho2|done..].
    eapply opened_open; [apply opened_here|apply same_place_b|apply same_open_refl|done..].
  - pose proof Ho2 as [_ _ _ (inner & frs & E & El & Ho)]. destruct inner; [|done]. simpl in *.
    unfold same_open in Ho. simpl in Ho. rewrite <- E in Ho. destruct (fo_frames (cf_F c2)) as [|fr rest] eqn:E2; [done|].
    destruct Ho as (Hk & _). rewrite <- (rename_same kd (cf_F c2) fr rest) by done.
    by apply (close_adds c c1 c2 kd).
Qed.

(** ** Declarations *)

#[local] Hint Resolve keeps_fn_sig keeps_block_f keeps_struct_decl keeps_generics keeps_item_body keeps_type_f
  keeps_expr_f keeps_evariant keeps_field keeps_invariants_loop keeps_skip_assoc_item keeps_attribute keeps_attributes_loop keeps_path keeps_dot_lit
  keeps_literal : runs.

Lemma decl_body_past before o c : opened 0 0 o c → past before c →
  wp (decl_body before) c (λ k c', top_kind k = true ∧ opened 0 0 (after (S before) o) c').
Proof using Hin.
  intros Ho Hp. apply pwp_bind, (wp_cur Hin).
  assert (∀ (m : PS unit) K, keeps FUEL 2 m → moves FUEL 2 0 0 0 0 m → top_kind K = true →
    wp (m;; mret K) c (λ k c', top_kind k = true ∧ opened 0 0 (after (S before) o) c')) as Hm.
  { intros m K Hk Hv HK. apply pwp_bind. eapply pwp_mono; [by apply (moves_past 2 0 0); [..|apply fuel_full| |exact Hp]|].
    intros x c' Ho'. by apply pwp_ret. }
  assert (wp (not_a_decl before;; mret Kind.Error) c (λ k c', top_kind k = true ∧ opened 0 0 (after (S before) o) c')) as Hn.
  { apply pwp_bind. eapply pwp_mono; [by apply not_a_decl_past|]. intros x c' Ho'. by apply pwp_ret. }
  assert (∀ m : PS unit, keeps FUEL 2 m → keeps FUEL 2 (bump;; m) ∧ moves FUEL 2 0 0 0 0 (bump;; m)) as Hb.
  { intros m Hk. split; [walk|]. eapply moves_bind; [by apply moves_bump|by intros _]. }
  destruct (kind c) eqn:Ek; try exact Hn.
  2: apply (wp_assoc fn_sig (λ _, block_f)), Hm; [walk|eapply moves_bind; [by apply moves_fn_sig|intros _; walk]|done].
  2,3,4,5,6,7: apply Hm; [apply Hb; walk|apply Hb; walk|done].
  - apply wp_ifM, wp_andM, (wp_nth_is Hin). destruct (token_kind_eqb _ _); [|exact Hn].
    apply (wp_is_word Hin); [intros _|exact Hn].
    apply (wp_assoc bump (λ _, struct_decl)), Hm; [apply Hb; walk|apply Hb; walk|done].
  - apply pwp_bind, pwp_bind, (wp_err_here Hin). intros c1 Hs. eapply pwp_mono.
    + apply (moves_past 2 0 0) with (before := before) (o := o); [apply (Hb skip_assoc_item); walk..|apply fuel_full| |].
      * by eapply opened_silent.
      * by eapply past_silent.
    + intros x c2 Ho2. by apply pwp_ret.
Qed.

Definition top_added (c c' : conf) : Prop := pos c < pos c' ∧ opened 0 0 (here c) c' ∧ adds (λ k, top_kind k = true) c c'.

Lemma decl_adds c : kind c ≠ Eof → wp decl c (λ _ c', top_added c c').
Proof using Hin.
  intros Hk. unfold decl. apply pwp_bind, pwp_gets, pwp_bind, (wp_build _ (open_node Kind.Error)).
  { intros b F Hb. eexists. split; [done|by apply start_node_brep]. }
  { done. }
  { intros F. apply open_node_nested. }
  intros b. set (c1 := MkConf _ _).
  assert (keeps FUEL 2 (attributes_loop loop_fuel;; opt KwPub)) as Hpre by walk.
  apply (wp_assoc (attributes_loop loop_fuel) (λ _, opt KwPub)), pwp_bind.
  eapply pwp_mono; [apply (Hpre (here c1)); [apply fuel_full|apply opened_here]|]. intros x c2 Ho2.
  apply pwp_bind. eapply pwp_mono; [apply (decl_body_past (pos c) (here c1)); [done|by apply (past_start _ c1)]|].
  intros k c3 [Hk3 Ho3]. apply pwp_bind, (wp_build _ (rename_node k)); [apply set_current_kind_brep| |apply rename_node_nested|].
  { intros F. unfold rename_node. by repeat case_match. }
  intros b'. apply (wp_build _ close_node); [apply finish_node_brep| |apply close_node_nested|].
  { intros F. unfold close_node, add_tree. by repeat case_match. }
  intros b''. pose proof (op_pos _ _ _ _ Ho3) as Hp3. simpl in Hp3.
  assert (opened 0 0 (here c1) c3) as Ho3' by (destruct Ho3; split; simpl in *; [lia|done..]).
  split_and!; [simpl; lia| |].
  - eapply (opened_close _ _ (here c) (MkConf (with_b b' (cf_st c3)) (rename_node k (cf_F c3)))); [|done].
    apply (opened_rename _ _ _ c3); [|done]. eapply opened_trans; [|exact Ho3'|done..].
    eapply opened_open; [apply opened_here|apply same_place_b|apply same_open_refl|done..].
  - destruct (close_adds c c1 c3 Kind.Error b'' (with_b b' (cf_st c3))) with k as (t & Et & Hf & Hr); [done..|].
    exists t. split_and!; [by rewrite <- Et|done..].
Qed.

Lemma keeps_use_item : keeps FUEL 2 use_item.
Proof using Hin. unfold use_item. walk. Qed.
#[local] Hint Resolve keeps_use_item : runs.
Lemma use_body :
  keeps FUEL 2 (opt KwPub;; bump;; use_item;; use_items loop_fuel;; expect_semi) ∧
  moves FUEL 2 0 0 0 0 (opt KwPub;; bump;; use_item;; use_items loop_fuel;; expect_semi).
Proof using Hin.
  assert (keeps FUEL 2 (use_items loop_fuel)).
  { apply runs_loop, (runs_eat Hin FUEL _ _ _ _ Comma use_item); [done|by intros []|walk]. }
  split; [walk|]. intros o c Hr Ho Hk. apply pwp_bind. eapply pwp_mono; [apply (keeps_opt Hin FUEL KwPub (here c))|].
  { unfold fuel_at, FUEL. lia. }
  { apply opened_here. }
  intros x c1 Ho1. apply (moves_past 2 0 0 0 0); [walk| |apply fuel_full|by eapply opened_trans|by apply (past_start _ c)].
  eapply moves_bind; [by apply moves_bump|]. intros _. walk.
Qed.

Lemma use_adds c : kind c ≠ Eof → wp use_decl c (λ _ c', top_added c c').
Proof using Hin.
  intros Hk. eapply pwp_mono; [apply (node_adds Kind.UseDecl _ c (S (pos c))); [lia|]|].
  - intros c1 <- Hk1. apply use_body; [apply fuel_full|apply opened_here|by rewrite Hk1].
  - intros x c' (Hp & Ho & t & Et & Hf & Hr). split_and!; [done..|]. exists t. by rewrite <- Et.
Qed.

(** ** The root *)

(** The root is open, over what may stand under it. *)
Definition rooted (c : conf) : Prop := ∃ ts, fo_frames (cf_F c) = [MkOpen Kind.File 0 ts] ∧
  fo_roots (cf_F c) = [] ∧ Forall (λ t, top_kind (rose_kind t) = true) ts.

Lemma adds_rooted c c' : rooted c → adds (λ k, top_kind k = true) c c' → rooted c'.
Proof.
  intros (ts & Ef & Er & Hts) (t & Ht & Ef' & Er'). exists (ts ++ [t]). unfold add_tree in *.
  rewrite Ef in *. simpl in *. split_and!; [done|congruence|]. by apply Forall_app; split; [|constructor].
Qed.

(** A clause of the header. *)
Lemma clause_rooted (cond : PS bool) kd m c : (∀ Q : bool → conf → Prop, (∀ b, Q b c) → wp cond c Q) →
  is_header kd = true → keeps FUEL 2 m → rooted c →
  wp (If cond Then in_node kd m) c (λ _ c', rooted c').
Proof.
  intros Hc Hkd Hm Hr. apply wp_ifM, Hc. intros []; [|by apply pwp_ret].
  eapply pwp_mono; [apply (node_adds kd m c (pos c)); [done|]|].
  - intros c1 <- _. apply Hm; [apply fuel_full|]. apply opened_here.
  - intros x c' (_ & _ & t & Et & Hf). eapply adds_rooted; [done|]. exists t. split; [|done].
    rewrite <- Et. unfold top_kind. by rewrite Hkd.
Qed.

Lemma left_after c c' : top_added c c' → sane c → left c' < left c ∨ left c = 0.
Proof. intros [Hp _] [_ Hc _ _ _]. unfold left. lia. Qed.

Lemma uses_rooted fuel c : left c ≤ fuel → rooted c → wp (uses_loop fuel) c (λ _ c', rooted c').
Proof using Hin.
  assert (∀ c (Q : bool → conf → Prop), (kind c ≠ Eof → Q true c) → Q false c →
    wp (orM (at_ KwUse) (andM (at_ KwPub) (nth_is 1 KwUse))) c Q) as Hcond.
  { intros c' Q HQ HQ'. apply wp_orM. apply at_not_eof; [done|done|done|].
    apply wp_andM. apply at_not_eof; [done|done| |done]. intros Hk. apply (wp_nth_is Hin). destruct (token_kind_eqb _ _); auto. }
  revert c. induction fuel as [|fuel IH]; intros c HN Hr; cbn [uses_loop]; apply wp_ifM, Hcond;
    [intros Hk|by apply pwp_ret|intros Hk|by apply pwp_ret]; apply wp_sane; intros Hc; pose proof (left_0 Hin c Hc Hk); [lia|].
  apply pwp_bind. eapply pwp_mono; [by apply use_adds|]. intros x c' Hadd.
  destruct (left_after _ _ Hadd Hc); [|lia]. apply IH; [lia|]. eapply adds_rooted; [done|apply Hadd].
Qed.

Lemma decls_rooted fuel c : left c ≤ fuel → rooted c → wp (decls_loop fuel) c (λ _ c', rooted c' ∧ kind c' = Eof).
Proof using Hin.
  revert c. induction fuel as [|fuel IH]; intros c HN Hr; cbn [decls_loop]; apply wp_ifM, (wp_at Hin);
    destruct (token_kind_eqb _ _) eqn:E; try (by apply pwp_ret; apply eqb_true in E);
    apply eqb_false in E; apply wp_sane; intros Hc; pose proof (left_0 Hin c Hc E); [lia|].
  apply pwp_bind. eapply pwp_mono; [by apply decl_adds|]. intros x c' Hadd.
  destruct (left_after _ _ Hadd Hc); [|lia]. apply IH; [lia|]. eapply adds_rooted; [done|apply Hadd].
Qed.

Lemma keeps_clauses : keeps FUEL 2 (bump;; path Kind.Path;; expect_semi) ∧
  keeps FUEL 2 (bump;; expect_ Colon "expected ':' after 'contracts'";; dot_lit;; expect_semi) ∧
  keeps FUEL 2 (bump;; delimited LBrace RBrace None needs_path;; expect_semi) ∧
  keeps FUEL 2 (bump;; delimited LBrace RBrace None input_path;; expect_semi).
Proof using Hin. unfold needs_path, input_path. split_and!; walk. Qed.

(** What a file has before its end. *)
Definition file_body : PS unit :=
  If at_ KwModule Then module_hdr;;
  If is_word "contracts" Then contracts_clause;;
  If is_word "needs" Then needs_clause;;
  If is_word "inputs" Then inputs_clause;;
  uses_loop loop_fuel;;
  decls_loop loop_fuel.

Lemma body_rooted c : rooted c → wp file_body c (λ _ c', rooted c' ∧ kind c' = Eof).
Proof using Hin.
  intros Hr. destruct keeps_clauses as (Hm & Hcc & Hn & Hi). unfold file_body.
  assert (∀ w c Q, (∀ b, Q b c) → wp (is_word w) c Q) as Hw by (intros; by apply (wp_is_word Hin)).
  apply pwp_bind. eapply pwp_mono; [apply clause_rooted; [|done|exact Hm|exact Hr]|].
  { intros Q HQ. apply (wp_at Hin), HQ. }
  clear c Hr. intros x c Hr. do 3 (apply pwp_bind; eapply pwp_mono; [apply clause_rooted; [by intros; apply Hw|done|eassumption|exact Hr]|];
    clear c Hr x; intros x c Hr).
  apply pwp_bind. eapply pwp_mono; [apply uses_rooted; [unfold left, loop_fuel; lia|done]|].
  clear c Hr x. intros x c Hr. apply decls_rooted; [unfold left, loop_fuel; lia|done].
Qed.

Lemma file_steps st st1 st2 st3 : start_node Kind.File st = Done (tt, st1) → file_body st1 = Done (tt, st2) →
  bump_any st2 = Done (tt, st3) → file st = finish_node st3.
Proof.
  intros E1 E2 E3. unfold file, in_node, file_body in *. unfold mbind, ps_bind in E2 |- *. rewrite E1.
  repeat case_match; simplify_eq; try done; congruence.
Qed.

Lemma eof_last c : sane c → kind c = Eof → pos c = length sig - 1.
Proof using Hin.
  intros [_ Hp _ _ _] Hk. destruct (sig_some _ Hp) as [i Hi]. destruct (in_kind Hin _ _ Hi) as [k Hki].
  unfold kind in Hk. rewrite Hi in Hk. simpl in Hk. rewrite Hki in Hk. simpl in Hk. subst k. by eapply (in_eof Hin).
Qed.

(** The parser of a file, at the end of the stream: the root over its clauses
    and declarations. *)
Lemma file_rooted st : sane (MkConf st (MkForest [] [] 0 false)) → pa_p st = 0 →
  ∃ st' F ts, file st = Done (tt, st') ∧ brep (pa_b st') F ∧ nested F ∧ fo_frames F = [] ∧
    fo_roots F = [Rose Kind.File 0 (tok_at (length sig)) ts] ∧
    Forall (λ t, top_kind (rose_kind t) = true) ts.
Proof using Hin.
  intros Hc Hp. pose proof Hc as [Hb Hlt _ Hn Hd].
  set (c1 := MkConf (with_b (Builder.start_node Kind.File (pa_b st)) st) (open_node Kind.File (MkForest [] [] 0 false))).
  assert (sane c1) as Hc1.
  { split; simpl; [exact (start_node_brep Kind.File _ _ Hb)|done|by rewrite Hp|exact (open_node_nested Kind.File _ Hn)|done]. }
  destruct (body_rooted c1) as (x & st2 & F2 & E2 & Hc2 & (ts & Ef & Er & Hts) & Hk); [by exists []|done|].
  destruct x. pose proof (eof_last _ Hc2 Hk) as Hp2. pose proof (sn_pos _ Hc2) as Hlt2. simpl in *.
  destruct (sig_some _ Hlt2) as [i Hi]. destruct (bump_any_spec Hin _ i Hc2 Hi) as (b & E3 & Hb3 & Hn3 & Ec3).
  set (F3 := advance _ _) in *. destruct (finish_node_brep _ _ Hb3) as (b' & E4 & Hb4).
  exists (with_b b' (with_b b st2)), (close_node F3), ts. split_and!.
  - rewrite (file_steps st (cf_st c1) st2 (with_b b st2)); [|done|exact E2|exact E3]. unfold finish_node, build. simpl. by rewrite E4.
  - done.
  - by apply close_node_nested.
  - unfold close_node, F3. simpl. by rewrite Ef.
  - unfold close_node. assert (fo_frames F3 = [MkOpen Kind.File 0 ts]) as -> by done.
    unfold add_tree. cbn [fo_frames fo_roots]. assert (fo_roots F3 = []) as -> by done. rewrite Ec3. cbn [cf_st app of_kind of_first of_done].
    rewrite Hp2, <- Nat.sub_succ_l by lia. by rewrite Nat.sub_succ, Nat.sub_0_r.
  - done.
Qed.
End top.
