(* ===== verification/SynValid.v ===== *)
(** * Nested trees are valid

    A tree whose nodes nest, under a root that has the whole stream, prints the
    source, and the only thing [validate] can say against it is that an [Error]
    node swallows a declaration. *)

From Stdlib Require Import Strings.Byte.
From S2P Require Import Prelude SynTree SynBuilder Token Lexer SynDecls.
Local Open Scope nat_scope.

Section valid.
Context (tokens : Tokens) (source : list byte).
Abbreviation n := (tok_len tokens).
Context (Htext : ∀ i, i < n → ∃ t, text tokens i source = Done t) (Hn : (Z.of_nat n < 2 ^ 32)%Z).

(** ** The source *)

Definition tx (i : nat) : list byte := match text tokens i source with Done t => t | _ => [] end.
Definition txs (lo hi : nat) : list byte := concat (tx <$> seq lo (hi - lo)).

Lemma txs_app lo mid hi : lo ≤ mid ≤ hi → txs lo mid ++ txs mid hi = txs lo hi.
Proof.
  intros Hle. unfold txs. rewrite <- concat_app, <- fmap_app. replace (hi - lo) with ((mid - lo) + (hi - mid)) by lia.
  rewrite seq_app. by replace (lo + (mid - lo)) with mid by lia.
Qed.

Lemma emit_tokens_total m from : from + m ≤ n → emit_tokens m from tokens source = Done (txs from (from + m)).
Proof using Htext.
  unfold txs. replace (from + m - from) with m by lia. revert from.
  induction m as [|m IH]; intros from Hle; [done|]. simpl. destruct (Htext from) as [t Ht]; [lia|].
  rewrite Ht. cbn [mbind res_bind]. rewrite IH by lia. cbn [mbind res_bind]. unfold tx at 2. by rewrite Ht.
Qed.

Lemma emit_range_total lo hi : (0 ≤ lo ≤ hi)%Z → (hi ≤ Z.of_nat n)%Z →
  emit_range lo hi tokens source = Done (txs (Z.to_nat lo) (Z.to_nat hi)).
Proof using Htext Hn.
  intros Hle Hhi. unfold emit_range, wrap. rewrite (Z.mod_small (Z.of_nat n)) by lia. rewrite Z.min_l by lia.
  rewrite emit_tokens_total by lia. do 2 f_equal. lia.
Qed.

(** Tokens that do not go back. *)
Fixpoint climbs (lo : Z) (l : list Z) (hi : Z) : Prop :=
  match l with [] => (lo ≤ hi)%Z | x :: l => (lo ≤ x)%Z ∧ climbs x l hi end.

Lemma climbs_weaken lo lo' l hi : climbs lo l hi → (lo' ≤ lo)%Z → climbs lo' l hi.
Proof. destruct l as [|x l]; simpl; [lia|]. intros [? ?] ?. split; [lia|done]. Qed.
Lemma climbs_app lo l mid l' hi : climbs lo l mid → climbs mid l' hi → climbs lo (l ++ l') hi.
Proof.
  revert lo. induction l as [|x l IH]; intros lo Hl Hl'; simpl in *; [by eapply climbs_weaken|].
  destruct Hl as [? ?]. split; [done|]. by apply IH.
Qed.
Lemma climbs_le lo l hi : climbs lo l hi → (lo ≤ hi)%Z.
Proof. revert lo. induction l as [|x l IH]; intros lo Hl; [done|]. destruct Hl as [? ?%IH]. lia. Qed.

Definition firsts (rows : list trow) : list Z := rows.*1.*1.*2.

Lemma pre_climbs : (∀ t, well t → climbs (rose_first t) (firsts (pre t)) (rose_stop t)) ∧
  (∀ lo hi ts, nest lo hi ts → climbs lo (firsts (pres ts)) hi).
Proof.
  apply well_nest_ind.
  - intros k f e cs _ IH. split; [done|]. exact IH.
  - intros lo hi Hle. exact Hle.
  - intros lo hi t ts Hlo Ht IHt Hts IHts. unfold firsts, pres. rewrite fmap_cons. simpl. rewrite !fmap_app.
    eapply climbs_app; [eapply climbs_weaken; [exact IHt|done]|exact IHts].
Qed.

Lemma reconstruct_climbs l lo hi : climbs lo l hi → (0 ≤ lo)%Z → (hi ≤ Z.of_nat n)%Z →
  ∃ last, reconstruct_nodes l lo tokens source = Done (txs (Z.to_nat lo) (Z.to_nat last), last) ∧
    (lo ≤ last ≤ hi)%Z.
Proof using Htext Hn.
  revert lo. induction l as [|x l IH]; intros lo Hl Hlo Hhi; simpl in *.
  - exists lo. split; [|lia]. unfold txs. by rewrite Nat.sub_diag.
  - destruct Hl as [Hx Hl]. pose proof (climbs_le _ _ _ Hl). rewrite Z.min_l, emit_range_total by lia.
    cbn [mbind res_bind]. destruct (IH x Hl) as (last & -> & Hlast); [lia|done|]. cbn [mbind res_bind].
    exists last. split; [|lia]. rewrite txs_app by lia. done.
Qed.

Lemma columns_all {A} (l : list A) : columns (length l) l = Done l.
Proof. induction l as [|x l IH]; [done|]. simpl. by rewrite IH. Qed.

Lemma lookup_tree_of rows i r : rows !! i = Some r →
  SynTree.kinds (tree_of rows) !! i = Some r.1.1.1 ∧ first_token (tree_of rows) !! i = Some r.1.1.2 ∧
  token_len (tree_of rows) !! i = Some r.1.2 ∧ subtree_len (tree_of rows) !! i = Some r.2.
Proof. intros E. unfold tree_of. simpl. by rewrite !list_lookup_fmap, E. Qed.

Lemma token_range_row rows i k f e m : rows !! i = Some (k, f, (e - f)%Z, m) → (e ≤ Z.of_nat n)%Z →
  token_range (tree_of rows) i = Done (f, e).
Proof using Hn.
  intros E He. destruct (lookup_tree_of _ _ _ E) as (_ & Hf & Hl & _). unfold token_range. rewrite Hf, Hl.
  cbn [get_ix mbind res_bind fst snd]. unfold add32. replace (f + (e - f))%Z with e by lia.
  destruct (Z.leb_spec (2 ^ 32) e); [lia|done].
Qed.

Lemma reconstruct_root k cs : well (Rose k 0 (Z.of_nat n) cs) →
  reconstruct (tree_of (pre (Rose k 0 (Z.of_nat n) cs))) tokens source = Done (txs 0 n).
Proof using Htext Hn.
  intros Hw. set (root := Rose k 0 (Z.of_nat n) cs). set (rows := pre root).
  assert (columns (len (tree_of rows)) (first_token (tree_of rows)) = Done (firsts rows)) as Ec.
  { rewrite <- (columns_all (firsts rows)). f_equal. unfold len, tree_of, firsts. simpl. by rewrite !length_fmap. }
  unfold reconstruct. rewrite Ec. cbn [mbind res_bind].
  destruct (reconstruct_climbs (firsts rows) 0 (Z.of_nat n)) as (last & E & Hlast); [apply (proj1 pre_climbs root Hw)|done|done|].
  rewrite E. cbn [mbind res_bind].
  assert (rows !! 0 = Some (k, 0%Z, (Z.of_nat n - 0)%Z, Z.of_nat (size root))) as E0 by done.
  rewrite (token_range_row _ _ _ _ _ _ E0) by done. unfold is_empty, rows. simpl bool_decide.
  cbn [mbind res_bind]. rewrite emit_range_total by lia. cbn [mbind res_bind].
  by rewrite txs_app, Nat2Z.id by lia.
Qed.

(** ** Validation *)

Lemma significant_total m from : from + m ≤ n → ∃ l, significant_in m from tokens = Done l ∧ Forall (λ i, i < n) l.
Proof.
  revert from. induction m as [|m IH]; intros from Hle; [by exists []|]. simpl.
  destruct (lookup_lt_is_Some_2 (Lexer.kinds tokens) from) as [k Hk]; [unfold tok_len in Hle; lia|].
  rewrite Hk. cbn [get_ix mbind res_bind]. destruct (IH (S from)) as (l & -> & Hl); [lia|]. cbn [mbind res_bind].
  eexists. split; [done|]. case_match; [constructor; [lia|done]|done].
Qed.

Lemma starts_decl_total t next : t < n → ∃ b, starts_decl tokens source t next = Done b.
Proof using Htext.
  intros Ht. destruct (lookup_lt_is_Some_2 (Lexer.kinds tokens) t Ht) as [k Hk]. destruct (Htext t Ht) as [x Hx].
  unfold starts_decl. rewrite Hk. cbn [get_ix mbind res_bind].
  assert (∃ b, (match next with
    | Some KwStruct => x ← text tokens t source; Done (bool_decide (x = bytes_of "soa"))
    | _ => Done false end) = Done b) as Hs.
  { destruct next as [k'|]; [|by eexists]. destruct k'; try by eexists. rewrite Hx. by eexists. }
  destruct k; try exact Hs; by eexists.
Qed.

Lemma swallowed_total l w first : first < n → Forall (λ i, i < n) l → ∃ r, swallowed w first l tokens source = Done r.
Proof using Htext.
  intros Hf Hl. revert w. induction Hl as [|t l Ht Hl IH]; intros w; [by eexists|]. cbn [swallowed].
  assert (∀ i, i < n → ∃ k, Lexer.kinds tokens !! i = Some k) as Hk by (intros i Hi; by apply lookup_lt_is_Some_2).
  assert (∃ next, (match l with u :: _ => k ← get_ix (Lexer.kinds tokens !! u); Done (Some k) | [] => Done None end) = Done next) as [next ->].
  { destruct l as [|u l]; [by eexists|]. inversion Hl as [|? ? Hu]; subst. destruct (Hk u Hu) as [k ->]. by eexists. }
  cbn [mbind res_bind]. destruct (starts_decl_total t next Ht) as [b ->]. cbn [mbind res_bind].
  destruct (Hk first Hf) as [k0 ->].
  destruct b; cbn [mbind res_bind get_ix]; [|apply IH].
  destruct (bool_decide (w = 1)); cbn [mbind res_bind]; [|by eexists].
  destruct k0; try (by eexists); apply IH.
Qed.

(** The loop of [validate], with the stack it ends with. *)
Fixpoint run_nodes (m : nat) (tree : Tree) (i : nat) (stack : list Frame) : res (result Violation (list Frame)) :=
  match m with
  | O => Done (Ok stack)
  | S m => r ← validate_node tree tokens source i stack;
      match r with Err e => Done (Err e) | Ok stack => run_nodes m tree (S i) stack end
  end.

Lemma validate_nodes_run m tree i stack : validate_nodes m tree tokens source i stack =
  (r ← run_nodes m tree i stack; Done (match r with Err e => Err e | Ok _ => Ok () end)).
Proof.
  revert i stack. induction m as [|m IH]; intros i stack; [done|]. simpl.
  destruct (validate_node tree tokens source i stack) as [| |[stack'|e]]; [done..|apply IH|done].
Qed.

Lemma run_nodes_app a b tree i stack : run_nodes (a + b) tree i stack =
  (r ← run_nodes a tree i stack; match r with Err e => Done (Err e) | Ok stack => run_nodes b tree (i + a) stack end).
Proof.
  revert i stack. induction a as [|a IH]; intros i stack; simpl; [by rewrite Nat.add_0_r|].
  destruct (validate_node tree tokens source i stack) as [| |[stack'|e]]; [done..| |done]. simpl.
  by rewrite IH, Nat.add_succ_comm.
Qed.

(** A run that is fine, or stops at a declaration in an [Error] node. *)
Definition fine (r : res (result Violation (list Frame))) (Q : list Frame → Prop) : Prop :=
  (∃ i t, r = Done (Err (SwallowsDecl i t))) ∨ ∃ stack, r = Done (Ok stack) ∧ Q stack.

Definition closed_by (i : nat) (fs : list Frame) : Prop := Forall (λ f, fr_end f ≤ i) fs.

Lemma pop_closed_by i closed f rest : closed_by i closed → i < fr_end f → pop_closed i (closed ++ f :: rest) = f :: rest.
Proof.
  intros Hc Hf. induction Hc as [|g closed Hg _ IH]; simpl.
  - rewrite bool_decide_eq_false_2; [done|lia].
  - by rewrite bool_decide_eq_true_2.
Qed.

(** What a parent asks of a node. *)
Record fits_under (i : nat) (t : rose) (f : Frame) (rest : list Frame) : Prop := {
  fu_end : i + size t ≤ fr_end f; fu_next : (fr_next f ≤ rose_first t)%Z; fu_tok : (rose_stop t ≤ fr_end_tok f)%Z;
  fu_kind : rest = [] → top_kind (rose_kind t) = true }.

Lemma size_pos t : 1 ≤ size t.
Proof. destruct t. simpl. lia. Qed.

Lemma error_checked k f e : (0 ≤ f ≤ e)%Z → (e ≤ Z.of_nat n)%Z →
  ∃ r, (if kind_eqb k Kind.Error then
          sig ← significant_in (Z.to_nat e - Z.to_nat f) (Z.to_nat f) tokens;
          match sig with s0 :: rest => swallowed 1 s0 rest tokens source | [] => Done None end
        else Done None) = Done r.
Proof using Htext.
  intros Hf He. destruct (kind_eqb k Kind.Error); [|by eexists].
  destruct (significant_total (Z.to_nat e - Z.to_nat f) (Z.to_nat f)) as (l & -> & Hl); [lia|]. cbn [mbind res_bind].
  destruct l as [|s0 l]; [by eexists|]. apply Forall_cons in Hl as [H0 Hl]. by apply swallowed_total.
Qed.

Lemma node_checked rows i k f e m stack parent rest : rows !! i = Some (k, f, (e - f)%Z, Z.of_nat (S m)) →
  (0 ≤ f ≤ e)%Z → (e ≤ Z.of_nat n)%Z → pop_closed i stack = parent :: rest →
  i + S m ≤ fr_end parent → (fr_next parent ≤ f)%Z → (e ≤ fr_end_tok parent)%Z → (rest = [] → top_kind k = true) →
  fine (validate_node (tree_of rows) tokens source i stack)
    (λ s, s = MkFrame (i + S m) e f :: MkFrame (fr_end parent) (fr_end_tok parent) e :: rest).
Proof using Htext Hn.
  intros E Hf He Hpop Hend Hnext Htok Htop. unfold validate_node. rewrite Hpop.
  rewrite (token_range_row _ _ _ _ _ _ E He). cbn [mbind res_bind].
  destruct (lookup_tree_of _ _ _ E) as (Hk & _ & _ & Hs). rewrite Hs, Hk. cbn [get_ix mbind res_bind fst snd].
  destruct (Z.eqb_spec (Z.of_nat (S m)) 0); [lia|]. rewrite Nat2Z.id. unfold check_parent.
  rewrite bool_decide_eq_false_2 by lia.
  replace ((f <? fr_next parent)%Z || (fr_end_tok parent <? e)%Z) with false
    by (symmetry; apply orb_false_iff; split; apply Z.ltb_ge; lia).
  replace (bool_decide (length (MkFrame (fr_end parent) (fr_end_tok parent) e :: rest) = 1) &&
    negb (is_header k || Kind.is_decl k || kind_eqb k Kind.Error)) with false.
  2:{ destruct rest as [|g rest]; [|done]. symmetry. apply andb_false_iff. right. apply negb_false_iff. by apply Htop. }
  destruct (error_checked k f e Hf He) as [r ->]. cbn [mbind res_bind].
  destruct r as [t|]; [left; by do 2 eexists|right; by eexists].
Qed.

(** The nodes of a tree, and of a list of siblings, under an open parent. *)
Definition tree_fine (rows : list trow) (t : rose) : Prop := ∀ L R closed f rest, rows = L ++ pre t ++ R →
  closed_by (length L) closed → fits_under (length L) t f rest → (0 ≤ rose_first t)%Z → (rose_stop t ≤ Z.of_nat n)%Z →
  fine (run_nodes (size t) (tree_of rows) (length L) (closed ++ f :: rest))
    (λ s, ∃ closed', s = closed' ++ MkFrame (fr_end f) (fr_end_tok f) (rose_stop t) :: rest ∧
      closed_by (length L + size t) closed').

Lemma fine_bind r (g : list Frame → res (result Violation (list Frame))) P Q : fine r P → (∀ s, P s → fine (g s) Q) →
  fine (r ≫= λ r, match r with Err e => Done (Err e) | Ok s => g s end) Q.
Proof. intros [(i & t & ->)|(s & -> & Hs)] Hg; [left; by do 2 eexists|by apply Hg]. Qed.
Lemma fine_mono r P Q : fine r P → (∀ s, P s → Q s) → fine r Q.
Proof. intros [?|(s & -> & Hs)] HPQ; [by left|right]. exists s. split; [done|by apply HPQ]. Qed.

Lemma nest_cons_inv lo hi t ts : nest lo hi (t :: ts) → (lo ≤ rose_first t)%Z ∧ well t ∧ nest (rose_stop t) hi ts.
Proof. inversion 1; by subst. Qed.

Lemma siblings_fine rows ts : Forall (tree_fine rows) ts → ∀ L R closed f rest lo hi, rows = L ++ pres ts ++ R →
  closed_by (length L) closed → nest lo hi ts → (fr_next f ≤ lo)%Z → (hi ≤ fr_end_tok f)%Z → (0 ≤ lo)%Z →
  (hi ≤ Z.of_nat n)%Z → length L + sizes ts ≤ fr_end f →
  (rest = [] → Forall (λ t, top_kind (rose_kind t) = true) ts) →
  fine (run_nodes (sizes ts) (tree_of rows) (length L) (closed ++ f :: rest))
    (λ s, ∃ closed' next, s = closed' ++ MkFrame (fr_end f) (fr_end_tok f) next :: rest ∧
      closed_by (length L + sizes ts) closed').
Proof.
  intros Hts. induction Hts as [|t ts Ht Hts IH]; intros L R closed f rest lo hi E Hc Hnest Hnext Htok Hlo Hhi Hend Htop.
  - right. eexists. split; [done|]. exists closed, (fr_next f). rewrite Nat.add_0_r. split; [by destruct f|done].
  - apply nest_cons_inv in Hnest as (Hlt & Hw & Hnest'). unfold sizes in *. simpl in Hend |- *.
    unfold pres in E. rewrite fmap_cons in E. simpl in E. rewrite <- (assoc app) in E.
    pose proof (nest_le _ _ _ Hnest'). pose proof (well_le _ Hw).
    rewrite run_nodes_app. eapply fine_bind.
    + apply (Ht L (concat (pre <$> ts) ++ R) closed f rest); [done|done| |lia|lia].
      split; [lia|lia|lia|]. intros Hr. by destruct (Forall_cons_1 _ _ _ (Htop Hr)).
    + intros s (closed' & -> & Hc'). rewrite <- length_pre, <- length_app in *.
      eapply fine_mono; [eapply (IH (L ++ pre t) R closed' (MkFrame _ _ _) rest (rose_stop t) hi); simpl; try done|].
      * by rewrite <- (assoc app).
      * lia.
      * rewrite length_app, length_pre in *. unfold sizes. lia.
      * intros Hr. by destruct (Forall_cons_1 _ _ _ (Htop Hr)).
      * intros s (closed'' & next & -> & Hc''). exists closed'', next. split; [done|].
        rewrite length_app in *. by rewrite Nat.add_assoc.
Qed.

Lemma pre_fine rows t : well t → tree_fine rows t.
Proof using Htext Hn.
  induction t as [k f e cs IH] using rose_ind'. intros Hw. inversion Hw as [? ? ? ? Hnest]; subst.
  intros L R closed fr rest E Hc [Hend Hnext Htok Htop] Hf He. simpl in *.
  pose proof (nest_le _ _ _ Hnest).
  assert (rows !! length L = Some (k, f, (e - f)%Z, Z.of_nat (S (sizes cs)))) as Erow.
  { rewrite E, lookup_app_r, Nat.sub_diag by done. done. }
  change (fine (r ← validate_node (tree_of rows) tokens source (length L) (closed ++ fr :: rest);
    match r with Err e => Done (Err e) | Ok s => run_nodes (sizes cs) (tree_of rows) (S (length L)) s end)
    (λ s, ∃ closed', s = closed' ++ MkFrame (fr_end fr) (fr_end_tok fr) e :: rest ∧
      closed_by (length L + S (sizes cs)) closed')).
  eapply fine_bind.
  - apply (node_checked rows _ _ _ _ _ _ fr rest Erow); [lia|done| |exact Hend|done..].
    apply pop_closed_by; [done|lia].
  - intros s ->. assert (Forall (tree_fine rows) cs) as Hcs.
    { clear -IH Hnest. induction Hnest as [|lo hi t ts Hlo Hw Hts IHn]; [done|].
      apply Forall_cons in IH as [Ht IH]. constructor; [by apply Ht|by apply IHn]. }
    assert (S (length L) = length (L ++ [(k, f, (e - f)%Z, Z.of_nat (size (Rose k f e cs)))])) as El
      by (rewrite length_app; simpl; lia).
    rewrite El. eapply fine_mono; [eapply (siblings_fine rows cs Hcs _ R [] (MkFrame _ _ _) _ f e)|]; simpl; try done.
    + rewrite E, <- (assoc app). done.
    + constructor.
    + rewrite length_app. simpl. lia.
    + intros s (closed' & next & -> & Hc'). exists (closed' ++ [MkFrame (length L + S (sizes cs)) e next]).
      rewrite <- (assoc app). split; [done|]. apply Forall_app. split; [|by constructor].
      rewrite length_app in Hc'. simpl in Hc'. eapply Forall_impl; [exact Hc'|]. simpl. lia.
Qed.

Lemma nest_fine rows lo hi ts : nest lo hi ts → Forall (tree_fine rows) ts.
Proof using Htext Hn. induction 1; constructor; [by apply pre_fine|done]. Qed.

Lemma root_checked rows m : rows !! 0 = Some (Kind.File, 0%Z, (Z.of_nat n - 0)%Z, Z.of_nat (S m)) →
  validate_node (tree_of rows) tokens source 0 [] = Done (Ok [MkFrame (S m) (Z.of_nat n) 0]).
Proof using Hn.
  intros E0. unfold validate_node. cbn [pop_closed]. rewrite (token_range_row _ _ _ _ _ _ E0) by done.
  destruct (lookup_tree_of _ _ _ E0) as (Hk & _ & _ & Hs). rewrite Hs, Hk. cbn [get_ix mbind res_bind fst snd].
  destruct (Z.eqb_spec (Z.of_nat (S m)) 0); [lia|]. by rewrite Nat2Z.id.
Qed.

Lemma root_valid cs : nest 0 (Z.of_nat n) cs → Forall (λ t, top_kind (rose_kind t) = true) cs → txs 0 n = source →
  validate (tree_of (pre (Rose Kind.File 0 (Z.of_nat n) cs))) tokens source = Done (Ok ()) ∨
  ∃ i t, validate (tree_of (pre (Rose Kind.File 0 (Z.of_nat n) cs))) tokens source = Done (Err (SwallowsDecl i t)).
Proof using Htext Hn.
  intros Hnest Htop Hsrc. set (root := Rose Kind.File 0 (Z.of_nat n) cs).
  assert (well root) as Hw by by constructor. pose proof (reconstruct_root _ _ Hw) as Hrec. fold root in Hrec.
  set (rows := pre root) in *.
  assert (rows !! 0 = Some (Kind.File, 0%Z, (Z.of_nat n - 0)%Z, Z.of_nat (S (sizes cs)))) as E0 by done.
  destruct (lookup_tree_of _ _ _ E0) as (Hk & _ & _ & Hs).
  assert (len (tree_of rows) = S (sizes cs)) as Elen.
  { unfold len, tree_of. cbn [SynTree.kinds]. rewrite !length_fmap. apply (length_pre root). }
  assert (validate (tree_of rows) tokens source = (r ← run_nodes (S (sizes cs)) (tree_of rows) 0 [];
    match r with Err e => Done (Err e) | Ok _ => Done (Ok ()) end)) as ->.
  { unfold validate. rewrite Elen, Hk, Hs. rewrite bool_decide_eq_false_2 by done. cbn [get_ix mbind res_bind fst snd].
    rewrite (token_range_row _ _ _ _ _ _ E0) by done. cbn [mbind res_bind]. unfold wrap.
    rewrite Z.mod_small, bool_decide_eq_true_2, bool_decide_eq_true_2 by (done || lia).
    rewrite validate_nodes_run, Hrec, Hsrc. change (kind_eqb Kind.File Kind.File) with true. cbn [negb].
    destruct (run_nodes _ _ _ _) as [| |[s|e]]; [done..| |done]. cbn [mbind res_bind].
    by rewrite bool_decide_eq_true_2. }
  assert (fine (run_nodes (S (sizes cs)) (tree_of rows) 0 []) (λ _, True)) as [(i & t & ->)|(s & -> & _)];
    [|right; by do 2 eexists|by left].
  cbn [run_nodes]. rewrite (root_checked _ _ E0). cbn [mbind res_bind].
  pose proof (nest_fine rows _ _ _ Hnest) as Hcs.
  eapply fine_mono; [|done].
  apply (siblings_fine rows cs Hcs [(Kind.File, 0%Z, (Z.of_nat n - 0)%Z, Z.of_nat (S (sizes cs)))] [] []
    (MkFrame (S (sizes cs)) (Z.of_nat n) 0) [] 0%Z (Z.of_nat n)); simpl; try done.
  - unfold rows. simpl. by rewrite app_nil_r.
  - constructor.
Qed.
End valid.
