(* ===== verification/SynTotal.v ===== *)
(** * The parser ends, and its trees are valid

    On every string of bytes the parser ends without a panic, in the fuel its
    loops and its recursion have; while the nodes fit the builder's indices it
    returns the tree, and [validate] has nothing against that tree but a
    declaration an [Error] node swallows. *)

From Stdlib Require Import Strings.Byte.
From S2P Require Import Prelude SynTree SynBuilder SynFinish Token Utf8 Lexer LexScan LexerProps LexTheorems SynCursor SynParse SynFile SynSteps SynRules SynWalk SynDecls SynValid.
Local Open Scope nat_scope.

(** ** Significant tokens *)

Definition keeps_kind (k : TokenKind) : bool := negb (is_trivia k) && negb (token_kind_eqb k Error).

Lemma significant_spec ks i j q : significant_from i ks !! q = Some j →
  i ≤ j ∧ ∃ k, ks !! (j - i) = Some k ∧ keeps_kind k = true.
Proof.
  revert i q. induction ks as [|k ks IH]; intros i q; [done|]. simpl. fold (keeps_kind k).
  assert (∀ q', significant_from (S i) ks !! q' = Some j → i ≤ j ∧ ∃ k', (k :: ks) !! (j - i) = Some k' ∧ keeps_kind k' = true) as Hr.
  { intros q' Hq. destruct (IH _ _ Hq) as (Hle & k' & Hk & Hs). split; [lia|]. exists k'. split; [|done].
    replace (j - i) with (S (j - S i)) by lia. done. }
  destruct (keeps_kind k) eqn:E; [|apply Hr]. destruct q as [|q]; [|apply Hr].
  intros [= <-]. split; [done|]. exists k. by rewrite Nat.sub_diag.
Qed.

Lemma significant_mono ks i p q a b : p < q → significant_from i ks !! p = Some a →
  significant_from i ks !! q = Some b → a < b.
Proof.
  revert i p q. induction ks as [|k ks IH]; intros i p q Hpq; [done|]. simpl. fold (keeps_kind k).
  destruct (keeps_kind k); [|by apply IH]. destruct q as [|q]; [lia|]. destruct p as [|p]; [|apply IH; lia].
  simpl. intros [= <-] Hb. apply significant_spec in Hb as [Hle _]. lia.
Qed.

Lemma significant_snoc ks i k : keeps_kind k = true →
  significant_from i (ks ++ [k]) = significant_from i ks ++ [i + length ks].
Proof.
  intros Hk. revert i. induction ks as [|k' ks IH]; intros i; simpl.
  - fold (keeps_kind k). by rewrite Hk, Nat.add_0_r.
  - rewrite IH. by destruct (_ && _); rewrite Nat.add_succ_comm.
Qed.

(** ** Lexed sources *)

Definition lexed (toks : Tokens) (src : list byte) : Input := Build_Input toks src (significant_from 0 (Lexer.kinds toks)).

(** A stream that ends with its only [Eof], with a text for each token. *)
Record stream_ok (toks : Tokens) (src : list byte) : Prop := {
  st_eof : ∃ ks, Lexer.kinds toks = ks ++ [Eof] ∧ (Eof ∉ ks);
  st_small : (Z.of_nat (tok_len toks) + 1 < 2 ^ 32)%Z;
  st_range : ∀ i, i < tok_len toks → ∃ s e, range toks i = Done (s, e);
  st_text : ∀ i, Lexer.kinds toks !! i = Some Ident → ∃ t, text toks i src = Done t }.

Lemma stream_input toks src : stream_ok toks src → input_ok (H := lexed toks src).
Proof.
  intros [(ks & Ek & Hks) Hsmall Hrange Htext].
  assert (significant_from 0 (Lexer.kinds toks) = significant_from 0 ks ++ [length ks]) as Es
    by (rewrite Ek; by apply significant_snoc).
  assert (∀ i j, significant_from 0 (Lexer.kinds toks) !! i = Some j → ∃ k, Lexer.kinds toks !! j = Some k) as Hk.
  { intros i j Hi. apply significant_spec in Hi as (_ & k & Hj & _). rewrite Nat.sub_0_r in Hj. by exists k. }
  assert (∀ i j, significant_from 0 (Lexer.kinds toks) !! i = Some j → j < tok_len toks) as Hlt.
  { intros i j Hi. destruct (Hk i j Hi) as [k Hj]. by apply lookup_lt_Some in Hj. }
  split; simpl.
  - exact Hk.
  - exists (length ks). rewrite Es, length_app. simpl. rewrite Nat.add_sub, lookup_app_r, Nat.sub_diag by done.
    split; [done|]. by rewrite Ek, lookup_app_r, Nat.sub_diag.
  - intros i j Hi Hj. assert (j = length ks) as ->.
    { rewrite Ek in Hj. destruct (decide (j < length ks)) as [Hl|Hl].
      - rewrite lookup_app_l in Hj by done. destruct Hks. by eapply list_elem_of_lookup_2.
      - apply lookup_lt_Some in Hj. rewrite length_app in Hj. simpl in Hj. lia. }
    destruct (decide (i = length (significant_from 0 (Lexer.kinds toks)) - 1)) as [|Hne]; [done|].
    pose proof (lookup_lt_Some _ _ _ Hi) as Hl.
    assert (significant_from 0 (Lexer.kinds toks) !! (length (significant_from 0 (Lexer.kinds toks)) - 1) = Some (length ks)) as Hlast.
    { rewrite Es, length_app. simpl. by rewrite Nat.add_sub, lookup_app_r, Nat.sub_diag by done. }
    assert (i < length (significant_from 0 (Lexer.kinds toks)) - 1) as Hlt' by lia.
    pose proof (significant_mono _ _ _ _ _ _ Hlt' Hi Hlast). lia.
  - intros i j a b. apply significant_mono.
  - intros i j Hi. apply Hlt in Hi. lia.
  - intros i j Hi. by apply Hrange, (Hlt i).
  - intros i j _. apply Htext.
Qed.

Lemma stream_lexed src its : fits src → parses src its → stream_ok (stream src its) src.
Proof.
  intros Hf Hp. destruct (parses_facts _ _ Hp) as [Hok Ht].
  assert (tok_len (stream src its) = S (length its)) as El.
  { unfold tok_len, stream. simpl. rewrite length_app, length_fmap. simpl. lia. }
  assert (length its ≤ total its) as Hle.
  { clear -Hok. unfold total. induction Hok as [|it its (Hn & _) _ IH]; simpl; lia. }
  unfold fits, MAX_SOURCE_LEN in Hf. split.
  - exists (it_kind <$> its). split; [done|]. intros (it & Hk & Hin)%list_elem_of_fmap.
    rewrite Forall_forall in Hok. destruct (Hok it Hin) as (_ & Hne & _). congruence.
  - rewrite El. lia.
  - intros i Hi. rewrite El in Hi. do 2 eexists. apply stream_range; (done || lia).
  - intros i Hi. apply lookup_lt_Some in Hi. unfold tok_len in El. rewrite El in Hi.
    eexists. apply stream_text; (done || lia).
Qed.

Lemma lex_ok src : ∃ toks ds, lex src = Done (toks, ds) ∧ stream_ok toks src.
Proof.
  destruct (decide (fits src)) as [Hf|Hf].
  - destruct (lex_stream src Hf) as (its & r & Hp & _ & ->). do 2 eexists. split; [done|]. by apply stream_lexed.
  - rewrite (lex_too_large src Hf). do 2 eexists. split; [done|]. split; simpl.
    + exists [Error]. split; [done|]. intros Hin. by apply list_elem_of_singleton in Hin.
    + done.
    + intros i Hi. destruct i as [|[|i]]; [by do 2 eexists..|]. unfold tok_len in Hi. simpl in Hi. lia.
    + intros [|[|i]]; done.
Qed.

(** ** The parser *)

(** The state in which the grammar ends. *)
Definition parsed (src : list byte) : res Parser :=
  '(toks, _) ← lex src;
  '(_, p) ← file (H := lexed toks src) new_parser;
  Done p.

(** The nodes of a state fit the builder's indices. *)
Definition nodes_fit (p : Parser) : Prop := fits_node (pa_b p).

Lemma new_sane toks src : stream_ok toks src →
  sane (H := lexed toks src) (MkConf new_parser (MkForest [] [] 0 false)).
Proof.
  intros Hs. destruct (in_last (stream_input _ _ Hs)) as (j & Hj & _).
  apply lookup_lt_Some in Hj. destruct new_repr as [Hr Hn].
  split; simpl; [|simpl in Hj; lia|done|exact Hn|unfold MAX_DEPTH; lia].
  split; [|done|intros _; exact Hr]. split; simpl; [by split|constructor|by left].
Qed.

(** The trees under the root, and what [finish] makes of them. *)
Lemma file_tree toks src : stream_ok toks src → ∃ p ts,
  file (H := lexed toks src) new_parser = Done (tt, p) ∧
  nest 0 (Z.of_nat (tok_len toks)) ts ∧ Forall (λ t, top_kind (rose_kind t) = true) ts ∧
  (nodes_fit p → Builder.finish (pa_b p) = Done (tree_of (pre (Rose Kind.File 0 (Z.of_nat (tok_len toks)) ts)))).
Proof.
  intros Hs. pose proof (stream_input _ _ Hs) as Hin.
  destruct (file_rooted Hin new_parser (new_sane _ _ Hs) eq_refl) as (p & F & ts & E & Hb & Hn & Ef & Er & Hts).
  assert (tok_at (H := lexed toks src) (length (sig (Input := lexed toks src))) = Z.of_nat (tok_len toks)) as Et.
  { destruct (in_last Hin) as (j & Hj & Hk). destruct (st_eof _ _ Hs) as (ks & Ek & Hks). simpl in *.
    pose proof (lookup_lt_Some _ _ _ Hj) as Hlt.
    destruct (length (significant_from 0 (Lexer.kinds toks))) as [|q]; [lia|]. simpl in *. rewrite Nat.sub_0_r in Hj.
    rewrite Hj. simpl. unfold tok_len. rewrite Ek, length_app in *. simpl.
    assert (j = length ks) as ->; [|lia]. destruct (decide (j < length ks)) as [Hl|Hl].
    - rewrite lookup_app_l in Hk by done. destruct Hks. by eapply list_elem_of_lookup_2.
    - apply lookup_lt_Some in Hk. rewrite length_app in Hk. simpl in Hk. lia. }
  rewrite Et in Er. exists p, ts. split_and!; [done| |done|].
  - unfold nested in Hn. rewrite Ef, Er in Hn. inversion Hn as [? Hr|]; subst.
    inversion Hr as [|? ? ? ? _ Hw]; subst. by inversion Hw.
  - intros Hfit. rewrite (finish_repr _ F); [|by apply (br_repr _ _ Hb)|done].
    unfold forest_trees. rewrite Ef. simpl. rewrite Er. unfold pres. rewrite fmap_cons. cbn [concat fmap list_fmap].
    by rewrite app_nil_r.
Qed.

Lemma parse_file_steps src toks ds p : lex src = Done (toks, ds) → stream_ok toks src →
  file (H := lexed toks src) new_parser = Done (tt, p) → ∀ tree, Builder.finish (pa_b p) = Done tree →
  ∃ out, parse_file src = Done (MkParse toks tree out).
Proof.
  intros El Hs Ep tree Et. destruct (in_last (stream_input _ _ Hs)) as (j & Hj & Hk). simpl in *.
  assert (last (significant_from 0 (Lexer.kinds toks)) = Some j) as Hlast.
  { rewrite last_lookup. replace (pred _) with (length (significant_from 0 (Lexer.kinds toks)) - 1) by lia. exact Hj. }
  unfold parse_file. rewrite El. cbn [mbind res_bind]. unfold parse_tokens. rewrite Hlast, Hk.
  cbn [get_ix mbind res_bind]. change (token_kind_eqb Eof Eof) with true. cbn [negb].
  unfold lexed in Ep. rewrite Ep. cbn [mbind res_bind]. rewrite Et. cbn [mbind res_bind]. by eexists.
Qed.

(** The texts of a stream are its source. *)
Lemma concat_lookups {A} (l : list (list A)) m : concat ((λ i, default [] (l !! i)) <$> seq 0 m) = concat (take m l).
Proof.
  induction m as [|m IH]; [done|]. rewrite seq_S, fmap_app, concat_app, IH. simpl. rewrite app_nil_r.
  destruct (l !! m) as [x|] eqn:E; simpl.
  - by rewrite (take_S_r _ _ _ E), concat_app; simpl; rewrite app_nil_r.
  - apply lookup_ge_None in E. by rewrite app_nil_r, !take_ge by lia.
Qed.

Lemma stream_source src its : fits src → total its = length src →
  txs (stream src its) src 0 (tok_len (stream src its)) = src.
Proof.
  intros Hf Ht. assert (tok_len (stream src its) = S (length its)) as El.
  { unfold tok_len, stream. simpl. rewrite length_app, length_fmap. simpl. lia. }
  transitivity (concat (pieces its src)); [|by apply pieces_concat].
  rewrite <- (take_ge (pieces its src) (tok_len (stream src its))) by (rewrite pieces_length, El; lia).
  unfold txs. rewrite Nat.sub_0_r.
  rewrite <- concat_lookups. f_equal. apply list_fmap_ext. intros q i Hq. apply lookup_seq in Hq as [-> Hlt].
  unfold tx. rewrite stream_text by (done || lia). done.
Qed.

(** C9: On every string of bytes the lexer and then the grammar end, without a
    panic and within the fuel of the model, twice the bound the code puts on
    nesting for its recursion and the number of tokens for its loops; and when
    the nodes fit the 32-bit indices of the tree builder [parse_file] returns. *)
Theorem parse_total src : ∃ p, parsed src = Done p ∧ (nodes_fit p → ∃ out, parse_file src = Done out).
Proof.
  destruct (lex_ok src) as (toks & ds & El & Hs). destruct (file_tree toks src Hs) as (p & ts & Ep & _ & _ & Et).
  exists p. split.
  - unfold parsed. rewrite El. cbn [mbind res_bind]. by rewrite Ep.
  - intros Hfit. destruct (parse_file_steps _ _ _ _ El Hs Ep _ (Et Hfit)) as [out ->]. by eexists.
Qed.

Definition small_source : list byte := bytes_of "fn f(let x: i32) { x[1].y()? = ; }".
Lemma parse_total_witness : ∃ out, parse_file small_source = Done out.
Proof.
  destruct (parse_total small_source) as (p & E & Hp). apply Hp.
  vm_compute in E. injection E as <-. vm_compute. reflexivity.
Defined.

(** C10: The tree of a source whose nodes fit the builder's 32-bit indices: its
    columns are the pre-order of a tree whose root is [File] with every token of
    the stream, in which nodes nest (the tokens of a node contain those of its
    children, in order and without overlap), and the nodes under the root are
    header clauses, uses, declarations or errors. When the source is also within
    the lexer's size limit, it can be put together again from the tokens of the
    tree, and [validate], which stops at its first complaint, has none or
    complains of a declaration inside an [Error] node. *)
Theorem parse_tree_valid src p : parsed src = Done p → nodes_fit p →
  ∃ out ds ts, parse_file src = Done out ∧ lex src = Done (ps_tokens out, ds) ∧
    ps_tree out = tree_of (pre (Rose Kind.File 0 (Z.of_nat (tok_len (ps_tokens out))) ts)) ∧
    nest 0 (Z.of_nat (tok_len (ps_tokens out))) ts ∧ Forall (λ t, top_kind (rose_kind t) = true) ts ∧
    ((Z.of_nat (length src) ≤ MAX_SOURCE_LEN)%Z →
     reconstruct (ps_tree out) (ps_tokens out) src = Done src ∧
     (validate (ps_tree out) (ps_tokens out) src = Done (Ok ()) ∨
      ∃ i t, validate (ps_tree out) (ps_tokens out) src = Done (Err (SwallowsDecl i t)))).
Proof.
  intros Hp Hfit. destruct (lex_ok src) as (toks & ds & El & Hs).
  destruct (file_tree toks src Hs) as (p' & ts & Ep & Hnest & Htop & Et).
  assert (p' = p) as ->.
  { unfold parsed in Hp. rewrite El in Hp. cbn [mbind res_bind] in Hp. rewrite Ep in Hp. by injection Hp. }
  destruct (parse_file_steps _ _ _ _ El Hs Ep _ (Et Hfit)) as [out Eo].
  exists (MkParse toks (tree_of (pre (Rose Kind.File 0 (Z.of_nat (tok_len toks)) ts))) out), ds, ts.
  cbn [ps_tree ps_tokens]. split_and!; [done..|]. intros Hf.
  destruct (lex_tokens src toks ds Hf El) as (its & Hpar & ->). destruct (parses_facts _ _ Hpar) as [_ Htot].
  pose proof (st_small _ _ Hs) as Hsmall. pose proof (stream_source src its Hf Htot) as Hsrc.
  assert (∀ i, i < tok_len (stream src its) → ∃ t, text (stream src its) i src = Done t) as Htx.
  { intros i Hi. unfold tok_len, stream in Hi. simpl in Hi. rewrite length_app, length_fmap in Hi. simpl in Hi.
    eexists. apply stream_text; (done || lia). }
  split.
  - rewrite reconstruct_root; [by rewrite Hsrc|done|lia|by constructor].
  - apply root_valid; [done|lia|done..].
Qed.

Lemma parse_tree_valid_witness : ∃ p, parsed small_source = Done p ∧ ∃ out ds ts,
  parse_file small_source = Done out ∧ lex small_source = Done (ps_tokens out, ds) ∧
    ps_tree out = tree_of (pre (Rose Kind.File 0 (Z.of_nat (tok_len (ps_tokens out))) ts)) ∧
    nest 0 (Z.of_nat (tok_len (ps_tokens out))) ts ∧ Forall (λ t, top_kind (rose_kind t) = true) ts ∧
    ((Z.of_nat (length small_source) ≤ MAX_SOURCE_LEN)%Z →
     reconstruct (ps_tree out) (ps_tokens out) small_source = Done small_source ∧
     (validate (ps_tree out) (ps_tokens out) small_source = Done (Ok ()) ∨
      ∃ i t, validate (ps_tree out) (ps_tokens out) small_source = Done (Err (SwallowsDecl i t)))).
Proof.
  destruct (parsed small_source) as [| |p] eqn:E; [vm_compute in E; discriminate E..|]. exists p. split; [done|].
  apply (parse_tree_valid small_source p); [exact E|].
  vm_compute in E. injection E as <-. vm_compute. reflexivity.
Defined.

(** * What the parser's trees satisfy

    Two things the comments of the parser claim and its results do not have. *)

(** [mix_error] wraps the whole operand in an [Error] node; the operand of the
    cast is a function type, whose [fn] and identifier look like the start of a
    declaration to [validate]. *)
Definition swallowing : list byte := bytes_of "fn f() { let x = a + b & (c as fn g); }".
Example cast_swallows_decl :
  (p ← parse_file swallowing; validate (ps_tree p) (ps_tokens p) swallowing) = Done (Err (SwallowsDecl 7 27)).
Proof. vm_compute. reflexivity. Qed.

(** The diagnostic of an unclosed brace is reported last and starts at the
    brace; the parser's diagnostics are sorted only when the lexer has some. *)
Example diags_out_of_order :
  (p ← parse_file (bytes_of "@a @b fn f() {} impl T { fn g() { if a {} else if b {} x[1].y()? = 3; } struct S { a: i32 }");
   Done (PDiag.start <$> ps_diags p)) = Done [65; 23]%Z.
Proof. vm_compute. reflexivity. Qed.
