(* ===== verification/FmirData.v ===== *)
(** * FMIR declarations

    fors-fmir/src: the opcodes (op.rs), the rows of the per-declaration pools
    (inst.rs, block.rs, value.rs, place.rs, scope.rs, region.rs, exit.rs,
    site.rs) and the declaration that holds them (decl.rs), with the accessors
    the interpreter reads them by.  Every id is a [u32], here a [Z]; a range is
    a pair.  The alias seeds, the constant pool, the captures and the
    fingerprint of a declaration are left out: nothing modelled reads them. *)

From S2P Require Import Prelude InterpArith.

(** ** Indexing

    [Vec::get]: a position beyond the end gives [None].  The comparison comes
    first, so that a handle of 64 bits is never turned into a unary number. *)
Definition nth_z {A} (l : list A) (i : Z) : option A :=
  if (0 <=? i) && (i <? Z.of_nat (length l)) then l !! Z.to_nat i else None.

Definition len_z {A} (l : list A) : Z := Z.of_nat (length l).

(** [v.resize(i + 1, d)] where [i] is beyond the end, then [v[i] = x]. *)
Definition put_z {A} (d : A) (l : list A) (i : Z) (x : A) : list A :=
  let l' := if len_z l <=? i then l ++ replicate (Z.to_nat (i + 1 - len_z l)) d else l in
  <[Z.to_nat i := x]> l'.

(** [l.iter().position(p)] *)
Fixpoint position_from {A} (p : A → bool) (l : list A) (i : Z) : option Z :=
  match l with
  | [] => None
  | x :: l => if p x then Some i else position_from p l (i + 1)
  end.
Definition position {A} (p : A → bool) (l : list A) : option Z := position_from p l 0.

(** [clamp_range] and the slice it selects. *)
Definition clamp_range (r : Z * Z) (len : Z) : Z * Z :=
  let start := Z.min r.1 len in
  (start, Z.max (Z.min r.2 len) start).

Definition slice_z {A} (l : list A) (r : Z * Z) : list A :=
  let '(s, e) := clamp_range r (len_z l) in
  take (Z.to_nat (e - s)) (drop (Z.to_nat s) l).

(** ** Ids, ids.rs *)

Definition ABSENT : Z := 2 ^ 32 - 1.
Definition NO_OPERAND : Z := ABSENT.
Definition BlockId_NONE : Z := ABSENT.
Definition ScopeId_NONE : Z := ABSENT.
Definition BrandId_NONE : Z := ABSENT.
Definition BODY_END : Z := BlockId_NONE.

(** ** Opcodes, op.rs *)

Inductive Policy : Type := Runtime | Off.
Definition Relax : Type := Z.

Module Op.
Inductive Op : Type :=
  | ConstInt | ConstFloat | ConstBool | ConstUnit | ConstStr | ConstFn
  | Add (m : ArithMode) | Sub (m : ArithMode) | Mul (m : ArithMode) | Div (m : ArithMode)
  | Rem (m : ArithMode) | Shl (m : ArithMode) | Shr (m : ArithMode) | Neg (m : ArithMode)
  | Fadd (r : Relax) | Fsub (r : Relax) | Fmul (r : Relax) | Fdiv (r : Relax)
  | Frem (r : Relax) | Fneg (r : Relax)
  | Icmp (p : CmpPred.CmpPred) | Fcmp (p : CmpPred.CmpPred) | And | Or | Xor | Not
  | ConvChecked | ConvWrap | ConvSat | ConvTrunc
  | AggNew | Field | VariantNew | Discr | Payload | TupleNew
  | MoveFrom | CopyFrom | Init | Borrow | BorrowMut | BorrowOut | Index | SliceRange
  | Alloc | Free | ArenaAlloc | ArenaDeref | ArenaReset
  | CallDirect | CallWitness | CallClosure | Intrinsic
  | CheckPre (p : Policy) | CheckPost (p : Policy) | CheckInv (p : Policy)
  | ReduceTree
  | EraseToDyn | Declassify
  | RegionEnter | RegionExit | Spawn | Sync
  | Br | CondBr | SwitchDiscr | TryBr | Ret | Raise | Trap | Unreachable
  | TileOp.
End Op.

Definition TrapKind_from_u32 (v : Z) : option TrapKind :=
  nth_z [Bounds; Overflow; DivZero; Shift; CheckedConversion; ArenaGeneration; Contract;
         EmptyReduce] v.

Definition is_terminator (op : Op.Op) : bool :=
  match op with
  | Op.Br | Op.CondBr | Op.SwitchDiscr | Op.TryBr | Op.Ret | Op.Raise | Op.Trap
  | Op.Unreachable => true
  | _ => false
  end.

(** ** Instructions, inst.rs *)

Record InstRow : Type := MkInst {
  i_op : Op.Op; i_a : Z; i_b : Z; i_c : Z; i_ty : Z; i_site : Z }.

Inductive Callee : Type :=
  | Direct (key : Z)
  | Witness (table method : Z)
  | Closure (v : Z)
  | CIntrinsic (sym : Z).

Record CallRow : Type := MkCall { callee : Callee; call_args : Z * Z }.
Record ReduceRow : Type := MkReduce {
  red_op : Callee; red_xs : Z; red_identity : Z; red_b : Z; red_l : Z }.
Record SwitchRow : Type := MkSwitch { sw_discr : Z; sw_default : Z; sw_arms : Z * Z }.
Record SwitchArm : Type := MkArm { arm_value : Z; arm_target : Z }.

Record InstPool : Type := MkInsts {
  inst_rows : list InstRow; operands : list Z; calls : list CallRow;
  reduces : list ReduceRow; switches : list SwitchRow; switch_arms : list SwitchArm }.

Definition args (p : InstPool) (r : Z * Z) : list Z := slice_z (operands p) r.

(** ** Values, value.rs *)

Inductive ValDef : Type := DefInst (i : Z) | DefParam (ordinal : Z).

Definition PARAM_TAG : Z := 2 ^ 31.
Definition ValDef_encode (d : ValDef) : Z :=
  match d with
  | DefInst i => i
  | DefParam o => Z.lor PARAM_TAG o
  end.
Definition ValDef_decode (raw : Z) : ValDef :=
  if negb (Z.land raw PARAM_TAG =? 0) then DefParam (Z.land raw 0xFFFF) else DefInst raw.

Record ValRow : Type := MkVal { v_ty : Z; v_flags : Z; v_ct : Z; v_def : Z }.
Definition val_def (r : ValRow) : ValDef := ValDef_decode (v_def r).

(** ** Blocks, places, scopes, regions, sites *)

Record BlockRow : Type := MkBlock {
  first_inst : Z; inst_len : Z; term : InstRow; scope : Z }.

Inductive Seg : Type := SegField (i : Z) | SegIndex (v : Z) | SegDeref.
Record PlaceRow : Type := MkPlace { root : Z; place_segs : Z * Z; place_ty : Z }.
Record PlacePool : Type := MkPlaces { place_rows : list PlaceRow; seg_list : list Seg }.

Inductive DeferKind : Type := Defer | ErrDefer.
Record DeferRow : Type := MkDefer { defer_kind : DeferKind; body : Z; stmt_order : Z }.
Inductive Discharge : Type :=
  | MovedTo (inst : Z) | DeferredBody (scope body : Z) | Raised (inst : Z) | Returned.
Record ScopeRow : Type := MkScope {
  parent : Z; brand : Z; scope_defers : Z * Z; scope_obligations : Z * Z; scope_region : Z }.

Inductive RegionKind : Type := Spawn | Parallel | WithArena.
Record RegionRow : Type := MkRegion { region_kind : RegionKind; captures : Z * Z; region_brand : Z }.
Record SiteRow : Type := MkSite { line : Z; col : Z }.

#[global] Instance DeferKind_eq_dec : EqDecision DeferKind.
Proof. solve_decision. Defined.
#[global] Instance RegionKind_eq_dec : EqDecision RegionKind.
Proof. solve_decision. Defined.

(** ** Exit edges, exit.rs *)

Inductive ExitKind : Type := Normal | Error.
#[global] Instance ExitKind_eq_dec : EqDecision ExitKind.
Proof. solve_decision. Defined.

Record DischargeRow : Type := MkDischarge { dis_place : Z; dis_how : Discharge }.
Record ExitEdgeRow : Type := MkEdge {
  from : Z; to : Z; exit_kind : ExitKind; edge_scopes : Z * Z; edge_pending : Z * Z;
  edge_drops : Z * Z; edge_discharges : Z * Z }.
Record ExitEdgePool : Type := MkEdges {
  edge_rows : list ExitEdgeRow; scope_list : list Z; pending_list : list Z;
  drop_list : list Z; discharge_list : list DischargeRow }.

(** [ExitEdgePool::find], the id only: the interpreter drops the row. *)
Definition find_edge (p : ExitEdgePool) (f t : Z) : option Z :=
  position (λ r, (from r =? f) && (to r =? t)) (edge_rows p).

(** ** The declaration, decl.rs *)

Record DeclFmir : Type := MkDecl {
  decl : Z;
  vals : list ValRow;
  blocks : list BlockRow;
  insts : InstPool;
  scopes : list ScopeRow;
  places : PlacePool;
  regions : list RegionRow;
  sites : list SiteRow;
  obligations : list Z;
  defers : list DeferRow;
  exits : ExitEdgePool;
  entry : Z }.

(** [expected_pending], the bodies an edge leaving [leaving] must run: the
    stable sort by descending statement order is an insertion sort. *)
Fixpoint insert_desc (x : Z * Z) (l : list (Z * Z)) : list (Z * Z) :=
  match l with
  | [] => [x]
  | y :: l' => if y.1 <? x.1 then x :: l else y :: insert_desc x l'
  end.
Definition sort_desc (l : list (Z * Z)) : list (Z * Z) := foldl (λ acc x, insert_desc x acc) [] l.

Definition expected_pending (scopes : list ScopeRow) (defers : list DeferRow)
    (leaving : list Z) (kind : ExitKind) : list Z :=
  flat_map (λ s,
    match nth_z scopes s with
    | None => []
    | Some row =>
        let start := (scope_defers row).1 in
        let rows := slice_z defers (scope_defers row) in
        let here := omap (λ '(i, r),
          if bool_decide (defer_kind r = Defer) || bool_decide (kind = Error)
          then Some (stmt_order r, start + Z.of_nat i) else None) (imap pair rows) in
        (sort_desc here).*2
    end) leaving.
