(* ===== verification/InterpState.v ===== *)
(** * The interpreter's memory objects

    fors-interp/src/mem.rs and value.rs: slots, the bitmap of initialised
    bytes, allocation objects, arenas with their generation counter, and the
    provenance rows a pointer names; ub.rs, the borrow stacks; budget.rs, the
    meters of a comptime evaluation and of a build. *)

From Stdlib Require Import String.
From S2P Require Import Prelude InterpArith FmirData.
From stdpp Require Import gmap.
Local Open Scope Z_scope.

(** ** Slots, value.rs *)

Definition PROV_NONE : Z := 0.

Record Slot : Type := MkSlot {
  bits : Z; prov : Z; init : bool; live : bool; secret : bool }.

Module Slot.
Definition val (b : Z) : Slot := MkSlot b PROV_NONE true true false.
Definition ptr (b p : Z) : Slot := MkSlot b p true true false.
Definition moved_out (s : Slot) : Slot := MkSlot (bits s) (prov s) (init s) false (secret s).
Definition unit : Slot := val 0.
Definition uninit : Slot := MkSlot 0 PROV_NONE false true false.
End Slot.

(** ** The bitmap *)

Definition div_ceil (a b : Z) : Z := (a + b - 1) / b.
Definition saturating_add32 (a b : Z) : Z := Z.min (a + b) (2 ^ 32 - 1).

Record BitVec : Type := MkBits { words : list Z; bv_len : Z }.

Module BitVec.
Definition zeros (len : Z) : BitVec := MkBits (replicate (Z.to_nat (div_ceil len 64)) 0) len.

Definition is_empty (v : BitVec) : bool := bv_len v =? 0.

Definition grow_to (v : BitVec) (len : Z) : BitVec :=
  if bv_len v <? len then MkBits (resize (Z.to_nat (div_ceil len 64)) 0 (words v)) len else v.

(** [self.words[w]] panics out of range; [w < words.len()] is the invariant
    [wf] below, so the default is never read. *)
Definition get (v : BitVec) (i : Z) : bool :=
  if bv_len v <=? i then false
  else Z.testbit (nth (Z.to_nat (i / 64)) (words v) 0) (i mod 64).

Definition set_bit (ws : list Z) (i : Z) (value : bool) : list Z :=
  alter (λ w, if value then Z.lor w (Z.shiftl 1 (i mod 64))
              else Z.ldiff w (Z.shiftl 1 (i mod 64))) (Z.to_nat (i / 64)) ws.

Definition set_range (v : BitVec) (start len : Z) (value : bool) : BitVec :=
  let stop := Z.min (saturating_add32 start len) (bv_len v) in
  MkBits (foldl (λ ws i, set_bit ws i value) (words v) (seqZ start (stop - start))) (bv_len v).

Definition all_set (v : BitVec) (start len : Z) : bool :=
  forallb (get v) (seqZ start (saturating_add32 start len - start)).

(** One word per 64 bits, with nothing set beyond the length. *)
Definition raw (ws : list Z) (i : Z) : bool := Z.testbit (nth (Z.to_nat (i / 64)) ws 0) (i mod 64).
Definition wf (v : BitVec) : Prop :=
  0 ≤ bv_len v ∧ len_z (words v) = div_ceil (bv_len v) 64 ∧
  ∀ i, bv_len v ≤ i → raw (words v) i = false.
End BitVec.

(** ** Allocations *)

Inductive AllocKind : Type :=
  | Stack | Heap (owner : Z) | Arena (id : Z) | Static | Capability.
Inductive AllocState : Type := Live | Freed (site : Z) | Reset (site : Z).

#[global] Instance AllocKind_eq_dec : EqDecision AllocKind.
Proof. solve_decision. Defined.
#[global] Instance AllocState_eq_dec : EqDecision AllocState.
Proof. solve_decision. Defined.

Definition AMBIENT : Z := ABSENT.

Record Alloc : Type := MkAlloc {
  bytes : list Z; inits : BitVec; provs : gmap Z Z; kind : AllocKind;
  generation : Z; state : AllocState; align : Z }.

Module Alloc.
Definition new (size align : Z) (k : AllocKind) (gen : Z) : Alloc :=
  MkAlloc (replicate (Z.to_nat size) 0) (BitVec.zeros size) ∅ k gen Live align.

(** [self.bytes.len() as u32] *)
Definition size (a : Alloc) : Z := wrap 32 (len_z (bytes a)).

Definition grow_to (a : Alloc) (sz : Z) : Alloc :=
  if size a <? sz
  then MkAlloc (resize (Z.to_nat sz) 0 (bytes a)) (BitVec.grow_to (inits a) sz)
         (provs a) (kind a) (generation a) (state a) (align a)
  else a.

Definition forget (a : Alloc) : Alloc :=
  MkAlloc (replicate (length (bytes a)) 0)
    (BitVec.set_range (inits a) 0 (bv_len (inits a)) false)
    ∅ (kind a) (generation a) (state a) (align a).

Definition set_state (a : Alloc) (s : AllocState) : Alloc :=
  MkAlloc (bytes a) (inits a) (provs a) (kind a) (generation a) s (align a).
End Alloc.

(** ** Arenas *)

Definition next_generation (g : Z) : result TrapKind Z :=
  if g =? 2 ^ 32 - 1 then Err ArenaGeneration else Ok (g + 1).

Record ArenaVal : Type := MkArena {
  arena_id : Z; arena_gen : Z; bump : Z; cap : Z; data : Z }.

Module ArenaVal.
Definition new (id data cap : Z) : ArenaVal := MkArena id 0 0 cap data.
Definition reset (a : ArenaVal) : result TrapKind ArenaVal :=
  g ← next_generation (arena_gen a);
  Ok (MkArena (arena_id a) g 0 (cap a) (data a)).
Definition set_bump (a : ArenaVal) (b : Z) : ArenaVal :=
  MkArena (arena_id a) (arena_gen a) b (cap a) (data a).
End ArenaVal.

Module RefVal.
Definition pack (gen off : Z) : Z := Z.lor (Z.shiftl gen 32) off.
Definition unpack (b : Z) : Z * Z := (wrap 32 (Z.shiftr b 32), wrap 32 b).
End RefVal.

(** ** Provenance *)

Inductive MemTarget : Type :=
  | TAlloc (id : Z)
  | TRoot (frame serial root : Z)
  | TArena (arena data : Z).
Record ProvRow : Type := MkProv { target : MemTarget; tag : Z }.

(** ** Properties *)

Lemma pack_unpack g o : unsigned 32 g → unsigned 32 o → RefVal.unpack (RefVal.pack g o) = (g, o).
Proof.
  intros Hg Ho. unfold RefVal.unpack, RefVal.pack.
  rewrite lor_shiftl_add by (done || lia). f_equal.
  - rewrite Z.shiftr_div_pow2, Z.div_add_l, (Z.div_small o) by (unfold unsigned in *; lia).
    rewrite Z.add_0_r. by apply wrap_small.
  - unfold wrap. rewrite Z.add_comm, Z_mod_plus_full. by apply Z.mod_small.
Qed.

Lemma pack_bits64 g o : unsigned 32 g → unsigned 32 o → unsigned 64 (RefVal.pack g o).
Proof.
  intros Hg Ho. unfold RefVal.pack. rewrite lor_shiftl_add by (done || lia).
  unfold unsigned in *. lia.
Qed.

Lemma next_generation_spec g : unsigned 32 g →
  match next_generation g with
  | Ok g' => g' = g + 1 ∧ unsigned 32 g'
  | Err k => k = ArenaGeneration ∧ g = 2 ^ 32 - 1
  end.
Proof.
  unfold next_generation, unsigned. destruct (Z.eqb_spec g (2 ^ 32 - 1)); lia || done.
Qed.

(** The bitmap is the set of its members. *)
Section bitmap.
Implicit Types v : BitVec.

Lemma div_ceil_covers n i : 0 ≤ i < n → 0 ≤ i / 64 < div_ceil n 64.
Proof.
  intros Hi. unfold div_ceil. split; [apply Z.div_pos; lia|].
  assert (i / 64 + 1 ≤ (n + 64 - 1) / 64); [|lia].
  apply Z.div_le_lower_bound; [lia|]. pose proof (Z.mul_div_le i 64). lia.
Qed.

Lemma div_ceil_mono m n : m ≤ n → div_ceil m 64 ≤ div_ceil n 64.
Proof. intros. apply Z.div_le_mono; lia. Qed.

Lemma div_ceil_pos n : 0 ≤ n → 0 ≤ div_ceil n 64.
Proof. intros. apply Z.div_pos; lia. Qed.

Lemma get_raw v i : BitVec.wf v → BitVec.get v i = BitVec.raw (words v) i.
Proof.
  intros (_ & _ & Hhigh). unfold BitVec.get.
  destruct (Z.leb_spec (bv_len v) i); [by rewrite Hhigh|done].
Qed.

Lemma raw_replicate n i : BitVec.raw (replicate n 0) i = false.
Proof.
  unfold BitVec.raw. rewrite nth_lookup. destruct (_ !! _) eqn:E; simpl; [|apply Z.testbit_0_l].
  apply lookup_replicate in E as [-> _]. apply Z.testbit_0_l.
Qed.

Lemma raw_resize ws n i : (length ws ≤ n)%nat →
  BitVec.raw (resize n 0 ws) i = BitVec.raw ws i.
Proof.
  intros Hn. unfold BitVec.raw. f_equal. rewrite !nth_lookup.
  set (k := Z.to_nat (i / 64)). destruct (decide (k < n)%nat).
  - destruct (decide (k < length ws)%nat).
    + by rewrite lookup_resize by done.
    + by rewrite lookup_resize_new, (lookup_ge_None_2 ws) by lia.
  - by rewrite lookup_resize_old, lookup_ge_None_2 by lia.
Qed.

Lemma testbit_one k : Z.testbit 1 k = bool_decide (k = 0).
Proof.
  destruct (Z.ltb_spec k 0); [rewrite Z.testbit_neg_r by done; case_bool_decide; lia || done|].
  case_bool_decide as E; [by subst|]. apply Z.bits_above_log2; simpl; lia.
Qed.

Lemma raw_set_bit ws i b j : 0 ≤ i < 64 * len_z ws → 0 ≤ j →
  BitVec.raw (BitVec.set_bit ws i b) j = if decide (j = i) then b else BitVec.raw ws j.
Proof.
  intros Hi Hj. unfold BitVec.raw, BitVec.set_bit. rewrite !nth_lookup.
  assert (0 ≤ i mod 64 < 64 ∧ 0 ≤ j mod 64 < 64) as [Hi' Hj']
    by (split; apply Z.mod_pos_bound; lia).
  pose proof (Z.div_mod i 64). pose proof (Z.div_mod j 64).
  assert (0 ≤ i / 64 ∧ 0 ≤ j / 64) by (split; apply Z.div_pos; lia).
  destruct (decide (i / 64 = j / 64)) as [Hw|Hw].
  - rewrite Hw, list_lookup_alter_eq.
    assert (i / 64 < len_z ws) by (apply Z.div_lt_upper_bound; lia).
    destruct (lookup_lt_is_Some_2 ws (Z.to_nat (j / 64))) as [w Hl]; [unfold len_z in *; lia|].
    assert (Z.testbit (Z.shiftl 1 (i mod 64)) (j mod 64) = bool_decide (j = i)) as Hbit.
    { rewrite Z.shiftl_spec, testbit_one by lia. apply bool_decide_ext. lia. }
    rewrite Hl. simpl. destruct b; rewrite ?Z.lor_spec, ?Z.ldiff_spec, Hbit;
      case_bool_decide; destruct (decide (j = i)); try done;
      by rewrite ?orb_true_r, ?orb_false_r, ?andb_true_r, ?andb_false_r.
  - rewrite list_lookup_alter_ne by lia. destruct (decide (j = i)); [congruence|done].
Qed.

Lemma raw_set_bits ws js b j : (∀ i, i ∈ js → 0 ≤ i < 64 * len_z ws) → 0 ≤ j →
  BitVec.raw (foldl (λ ws i, BitVec.set_bit ws i b) ws js) j =
  if decide (j ∈ js) then b else BitVec.raw ws j.
Proof.
  revert ws. induction js as [|i js IH]; intros ws Hjs Hj; [done|].
  assert (len_z (BitVec.set_bit ws i b) = len_z ws) as Hlen.
  { unfold len_z, BitVec.set_bit. by rewrite length_alter. }
  simpl. rewrite IH, raw_set_bit by (try rewrite Hlen; set_solver).
  destruct (decide (j ∈ js)), (decide (j ∈ i :: js)), (decide (j = i)); set_solver.
Qed.

Lemma length_set_bits ws js b :
  length (foldl (λ ws i, BitVec.set_bit ws i b) ws js) = length ws.
Proof.
  revert ws. induction js as [|i js IH]; intros ws; [done|]. simpl. rewrite IH.
  unfold BitVec.set_bit. apply length_alter.
Qed.

Lemma zeros_wf n : 0 ≤ n → BitVec.wf (BitVec.zeros n).
Proof.
  intros Hn. split_and!; [done| |].
  - unfold len_z. simpl. rewrite length_replicate, Z2Nat.id; [done|by apply div_ceil_pos].
  - intros. apply raw_replicate.
Qed.

Lemma get_zeros n i : BitVec.get (BitVec.zeros n) i = false.
Proof. unfold BitVec.get. case_match; [done|]. apply raw_replicate. Qed.

Lemma grow_to_wf v n : BitVec.wf v → BitVec.wf (BitVec.grow_to v n).
Proof.
  intros (H0 & Hw & Hhigh). unfold BitVec.grow_to. destruct (Z.ltb_spec (bv_len v) n); [|done].
  pose proof (div_ceil_pos n ltac:(lia)). pose proof (div_ceil_mono (bv_len v) n ltac:(lia)).
  unfold len_z in Hw. split_and!; simpl; [lia| |].
  - unfold len_z. rewrite length_resize. lia.
  - intros i Hi. rewrite raw_resize by lia. apply Hhigh. lia.
Qed.

Lemma get_grow v n i : BitVec.wf v → BitVec.get (BitVec.grow_to v n) i = BitVec.get v i.
Proof.
  intros Hv. rewrite !get_raw by eauto using grow_to_wf. destruct Hv as (H0 & Hw & _).
  unfold BitVec.grow_to. destruct (Z.ltb_spec (bv_len v) n); [|done].
  pose proof (div_ceil_mono (bv_len v) n ltac:(lia)). unfold len_z in Hw.
  simpl. apply raw_resize. lia.
Qed.

Lemma set_range_wf v s l b : 0 ≤ s → BitVec.wf v → BitVec.wf (BitVec.set_range v s l b).
Proof.
  intros Hs (H0 & Hw & Hhigh). split_and!; [done| |].
  - unfold len_z in *. simpl. by rewrite length_set_bits.
  - intros i Hi. simpl in *. rewrite raw_set_bits; [|intros j Hj; apply elem_of_seqZ in Hj|lia].
    + destruct (decide _) as [Hin|]; [apply elem_of_seqZ in Hin; lia|by apply Hhigh].
    + rewrite Hw. pose proof (div_ceil_covers (bv_len v) j ltac:(lia)).
      pose proof (Z.mod_pos_bound j 64). pose proof (Z.div_mod j 64). lia.
Qed.

Lemma get_set_range v s l b i : BitVec.wf v → 0 ≤ s → 0 ≤ i →
  BitVec.get (BitVec.set_range v s l b) i =
  if decide (s ≤ i < Z.min (saturating_add32 s l) (bv_len v)) then b else BitVec.get v i.
Proof.
  intros Hv Hs Hi. rewrite !get_raw by eauto using set_range_wf.
  destruct Hv as (H0 & Hw & _). simpl.
  rewrite raw_set_bits; [|intros j Hj; apply elem_of_seqZ in Hj|done].
  - destruct (decide (i ∈ _)) as [Hin|Hin], (decide (s ≤ i < _)) as [?|?]; try done;
      rewrite elem_of_seqZ in Hin; lia.
  - rewrite Hw. pose proof (div_ceil_covers (bv_len v) j ltac:(lia)).
    pose proof (Z.mod_pos_bound j 64). pose proof (Z.div_mod j 64). lia.
Qed.

Lemma all_set_spec v s l :
  BitVec.all_set v s l = true ↔ ∀ i, s ≤ i < saturating_add32 s l → BitVec.get v i = true.
Proof.
  unfold BitVec.all_set. rewrite forallb_forall. split.
  - intros H i Hi. apply H, list_elem_of_In, elem_of_seqZ. lia.
  - intros H i Hi%list_elem_of_In%elem_of_seqZ. apply H. lia.
Qed.
End bitmap.

(** * Borrow stacks

    fors-interp/src/ub.rs: the classes of a [ub:] report and the stack of
    unique and shared borrows that decides the aliasing one.  The stack is
    listed from its bottom, as the [Vec] is. *)

(** ** Classes *)

Inductive UbClass : Type :=
  | UseAfterMove | DoubleConsume | LinearLeak | UninitRead | Aliasing | ScopeEscape
  | UseAfterFree | AllocatorMismatch | UncheckedOverflow.
#[global] Instance UbClass_eq_dec : EqDecision UbClass.
Proof. solve_decision. Defined.

Module UbClass.
Definition CLASSES : list string :=
  ["use-after-move"; "double-consume"; "linear-leak"; "uninit-read"; "aliasing"; "scope-escape";
   "use-after-free"; "allocator-mismatch"; "unchecked-overflow"]%string.
Definition ALL : list UbClass :=
  [UseAfterMove; DoubleConsume; LinearLeak; UninitRead; Aliasing; ScopeEscape; UseAfterFree;
   AllocatorMismatch; UncheckedOverflow].
Definition index (c : UbClass) : nat :=
  match c with
  | UseAfterMove => 0 | DoubleConsume => 1 | LinearLeak => 2 | UninitRead => 3 | Aliasing => 4
  | ScopeEscape => 5 | UseAfterFree => 6 | AllocatorMismatch => 7 | UncheckedOverflow => 8
  end%nat.
Definition as_str (c : UbClass) : string := nth (index c) CLASSES EmptyString.
End UbClass.

(** [TrapKind::KINDS], fors-fmir/src/op.rs. *)
Definition KINDS : list string :=
  ["bounds"; "overflow"; "div-zero"; "shift"; "checked-conversion"; "arena-generation";
   "contract"; "empty-reduce"]%string.
Definition is_a_trap_kind (c : UbClass) : bool := bool_decide (UbClass.as_str c ∈ KINDS).

(** A report; its [detail] text is not modelled. *)
Record UbReport : Type := MkReport { class : UbClass; rinst : Z; rsite : Z * Z }.

(** ** The stack *)

Inductive Access : Type := Read | Write.
Inductive Violation : Type := IsViolation.
Inductive BorrowItem : Type := Unique (t : Z) | SharedRo (group : list Z).

Definition holds (it : BorrowItem) (t : Z) : bool :=
  match it with
  | Unique t' => t' =? t
  | SharedRo group => existsb (Z.eqb t) group
  end.

Abbreviation BorrowStack := (list BorrowItem).

Module BorrowStack.
Definition rooted (t : Z) : BorrowStack := [Unique t].

Definition depth (s : BorrowStack) : Z := len_z s.

(** The items above the last that is not a shared group are popped. *)
Fixpoint pop_shared (rev_items : list BorrowItem) : list BorrowItem :=
  match rev_items with
  | SharedRo _ :: rest => pop_shared rest
  | _ => rev_items
  end.
Definition push_unique (s : BorrowStack) (t : Z) : BorrowStack :=
  rev (pop_shared (rev s)) ++ [Unique t].

Definition push_shared (s : BorrowStack) (t : Z) : BorrowStack :=
  match last s with
  | Some (SharedRo group) => removelast s ++ [SharedRo (group ++ [t])]
  | _ => s ++ [SharedRo [t]]
  end.

(** [items.iter().rposition(p)] *)
Fixpoint rposition (p : BorrowItem → bool) (s : BorrowStack) : option nat :=
  match s with
  | [] => None
  | it :: s =>
      match rposition p s with
      | Some i => Some (S i)
      | None => if p it then Some 0%nat else None
      end
  end.

Definition access (s : BorrowStack) (t : Z) (how : Access) : BorrowStack * result Violation unit :=
  match rposition (λ it, holds it t) s with
  | None => (s, Err IsViolation)
  | Some i =>
      match how with
      | Read => (s, Ok ())
      | Write =>
          match s !! i with
          | Some (Unique _) => (take (S i) s, Ok ())
          | _ => (s, Err IsViolation)
          end
      end
  end.
End BorrowStack.

(** ** What a stack permits

    A tag reads while it is on the stack; it writes while the topmost item
    that holds it is its own unique one. *)
Definition tags_of (it : BorrowItem) : list Z :=
  match it with Unique t => [t] | SharedRo group => group end.
Definition tags (s : BorrowStack) : list Z := flat_map tags_of s.

Section stack.
Implicit Types (s : BorrowStack) (t : Z).

Lemma holds_spec it t : holds it t = true ↔ t ∈ tags_of it.
Proof.
  destruct it as [t'|group]; simpl.
  - rewrite list_elem_of_singleton. destruct (Z.eqb_spec t' t); naive_solver.
  - rewrite existsb_exists. setoid_rewrite <- list_elem_of_In.
    setoid_rewrite (Z.eqb_eq t). naive_solver.
Qed.

Lemma elem_of_tags s t : t ∈ tags s ↔ ∃ it, it ∈ s ∧ t ∈ tags_of it.
Proof.
  unfold tags. rewrite list_elem_of_In, in_flat_map. setoid_rewrite <- list_elem_of_In. done.
Qed.

Lemma rposition_None p s : BorrowStack.rposition p s = None ↔ ∀ it, it ∈ s → p it = false.
Proof.
  induction s as [|it s IH]; simpl.
  - split; [|done]. intros _ it Hit. by apply elem_of_nil in Hit.
  - destruct (BorrowStack.rposition p s) as [k|] eqn:E.
    + split; [done|]. intros H. assert (Some k = None) as [=]. apply IH. intros it' Hin. apply H. by right.
    + destruct (p it) eqn:Hp; split; try done.
      * intros H. rewrite H in Hp by left. done.
      * intros _ it' [->|Hin]%elem_of_cons; [done|]. by apply IH.
Qed.

Lemma rposition_Some p s i : BorrowStack.rposition p s = Some i →
  ∃ it, s !! i = Some it ∧ p it = true ∧ ∀ j it', (i < j)%nat → s !! j = Some it' → p it' = false.
Proof.
  revert i. induction s as [|it s IH]; intros i; [done|]. simpl.
  destruct (BorrowStack.rposition p s) as [k|] eqn:E.
  - intros [= <-]. destruct (IH k eq_refl) as (it' & Hk & Hp & Habove).
    exists it'. split_and!; [done..|]. intros [|j] it'' Hlt Hj; [lia|].
    apply (Habove j); [lia|done].
  - destruct (p it) eqn:Hp; [|done]. intros [= <-]. exists it. split_and!; [done..|].
    intros [|j] it' Hlt Hj; [lia|]. rewrite rposition_None in E.
    apply E. by eapply (list_elem_of_lookup_2 s j).
Qed.

(** A read is allowed exactly to the tags on the stack, and changes nothing. *)
Lemma access_read s t :
  BorrowStack.access s t Read = (s, if decide (t ∈ tags s) then Ok () else Err IsViolation).
Proof.
  unfold BorrowStack.access. destruct (BorrowStack.rposition _ s) as [i|] eqn:E.
  - apply rposition_Some in E as (it & Hit & Hp & _). rewrite decide_True; [done|].
    apply elem_of_tags. exists it. split; [by eapply list_elem_of_lookup_2|by apply holds_spec].
  - rewrite decide_False; [done|]. intros (it & Hit & Hp%holds_spec)%elem_of_tags.
    rewrite rposition_None in E. by rewrite E in Hp.
Qed.

Definition writable s t : Prop :=
  ∃ below above, s = below ++ Unique t :: above ∧ t ∉ tags above.

(** A write is allowed exactly to the tags the stack holds uniquely, and pops
    whatever was borrowed after. *)
Lemma access_write s t below above :
  s = below ++ Unique t :: above → t ∉ tags above →
  BorrowStack.access s t Write = (below ++ [Unique t], Ok ()).
Proof.
  intros -> Hn. unfold BorrowStack.access.
  assert (BorrowStack.rposition (λ it, holds it t) (below ++ Unique t :: above)
          = Some (length below)) as ->.
  { induction below as [|it below IH]; simpl; [|by rewrite IH].
    assert (BorrowStack.rposition (λ it, holds it t) above = None) as ->.
    { apply rposition_None. intros it Hit. apply not_true_is_false. rewrite holds_spec.
      intros Ht. apply Hn, elem_of_tags. by exists it. }
    by rewrite Z.eqb_refl. }
  rewrite list_lookup_middle by done. f_equal.
  rewrite (cons_middle (Unique t)), app_assoc. apply take_app_length'.
  rewrite length_app. simpl. lia.
Qed.

Lemma access_write_Ok s t s' : BorrowStack.access s t Write = (s', Ok ()) → writable s t.
Proof.
  unfold BorrowStack.access. destruct (BorrowStack.rposition _ s) as [i|] eqn:E; [|done].
  apply rposition_Some in E as (it & Hit & Hp & Habove). rewrite Hit.
  destruct it as [t'|]; [|done]. intros _. simpl in Hp. apply Z.eqb_eq in Hp as ->.
  exists (take i s), (drop (S i) s). split; [by rewrite take_drop_middle|].
  intros (it & Hin & Ht%holds_spec)%elem_of_tags.
  apply list_elem_of_lookup in Hin as [j Hj]. rewrite lookup_drop in Hj.
  rewrite (Habove (S i + j)%nat it) in Ht; [done|lia|done].
Qed.

Lemma access_write_Err s t s' :
  BorrowStack.access s t Write = (s', Err IsViolation) → s' = s.
Proof.
  unfold BorrowStack.access. destruct (BorrowStack.rposition _ s) as [i|]; [|by intros [= <-]].
  destruct (s !! i) as [[]|]; congruence.
Qed.

(** An access never puts a tag on the stack. *)
Lemma access_tags s t how t' : t' ∈ tags (BorrowStack.access s t how).1 → t' ∈ tags s.
Proof.
  destruct how; [by rewrite access_read|].
  unfold BorrowStack.access. destruct (BorrowStack.rposition _ s) as [i|]; [|done].
  destruct (s !! i) as [[]|]; [|done..]. simpl.
  rewrite !elem_of_tags. intros (it & Hin & Ht). exists it. split; [|done].
  rewrite <- (take_drop (S i) s), elem_of_app. by left.
Qed.

Lemma pop_shared_app items :
  ∃ shared, items = shared ++ BorrowStack.pop_shared items ∧
    Forall (λ it, ∃ g, it = SharedRo g) shared ∧
    (∀ g, head (BorrowStack.pop_shared items) ≠ Some (SharedRo g)).
Proof.
  induction items as [|[t|g] items IH]; [by exists []|by exists []|]. simpl.
  destruct IH as (shared & Heq & Hs & Hh). exists (SharedRo g :: shared). split_and!; [|eauto|done].
  simpl. by f_equal.
Qed.

Lemma push_unique_shape s t :
  ∃ kept shared, s = kept ++ shared ∧ Forall (λ it, ∃ g, it = SharedRo g) shared ∧
    (∀ g, last kept ≠ Some (SharedRo g)) ∧
    BorrowStack.push_unique s t = kept ++ [Unique t].
Proof.
  destruct (pop_shared_app (rev s)) as (shared & Heq & Hs & Hh).
  exists (rev (BorrowStack.pop_shared (rev s))), (rev shared). split_and!.
  - by rewrite <- rev_app_distr, <- Heq, rev_involutive.
  - by apply Forall_rev.
  - intros g. destruct (BorrowStack.pop_shared (rev s)) as [|x l]; [done|]. simpl in *.
    rewrite last_snoc. apply Hh.
  - done.
Qed.
End stack.

(** ** Sequences of operations *)

Inductive borrow_op : Type :=
  | PushUnique (t : Z) | PushShared (t : Z) | Use (t : Z) (how : Access).

Definition pushed (o : borrow_op) : option Z :=
  match o with PushUnique t | PushShared t => Some t | Use _ _ => None end.

Definition run_borrow (s : BorrowStack) (o : borrow_op) : BorrowStack :=
  match o with
  | PushUnique t => BorrowStack.push_unique s t
  | PushShared t => BorrowStack.push_shared s t
  | Use t how => (BorrowStack.access s t how).1
  end.

Lemma tags_app s s' : tags (s ++ s') = tags s ++ tags s'.
Proof. apply flat_map_app. Qed.

Lemma push_shared_tags s t : tags (BorrowStack.push_shared s t) = tags s ++ [t].
Proof.
  unfold BorrowStack.push_shared. destruct (last s) as [[u|group]|] eqn:E; rewrite ?tags_app; try done.
  apply last_Some in E as [s' ->]. rewrite removelast_last, !tags_app. simpl.
  by rewrite !app_nil_r, app_assoc.
Qed.

Lemma run_borrow_tags s o t :
  t ∈ tags (run_borrow s o) → t ∈ tags s ∨ pushed o = Some t.
Proof.
  destruct o as [u|u|u how]; simpl.
  - destruct (push_unique_shape s u) as (kept & shared & -> & _ & _ & ->).
    rewrite !tags_app. simpl. set_solver.
  - rewrite push_shared_tags. set_solver.
  - intros Ht%access_tags. by left.
Qed.

Lemma run_borrows_tags ops s t : (∀ o, o ∈ ops → pushed o ≠ Some t) → t ∉ tags s →
  t ∉ tags (foldl run_borrow s ops).
Proof.
  revert s. induction ops as [|o ops IH]; intros s Hops Hs; [done|]. simpl. apply IH; [set_solver|].
  intros [Ht|Ht]%run_borrow_tags; [done|]. by apply (Hops o); [left|].
Qed.

Lemma access_dead s t how : t ∉ tags s → (BorrowStack.access s t how).2 = Err IsViolation.
Proof.
  intros Ht. destruct how; [by rewrite access_read, decide_False|].
  destruct (BorrowStack.access s t Write) as [s' [[]|[]]] eqn:E; [|done].
  apply access_write_Ok in E as (below & above & -> & _). exfalso. apply Ht.
  rewrite tags_app. simpl. set_solver.
Qed.

(** C23: using a borrow exclusively revokes what was borrowed from it: a write
    through [t] succeeds exactly when the stack holds [t] as a unique borrow,
    after it [t] reads and writes again, and a tag the write popped is refused,
    for reads and writes, after any later operations that do not push it. *)
Theorem exclusive_use_revokes s t :
  ((BorrowStack.access s t Write).2 = Ok () ↔ writable s t) ∧
  ∀ s', BorrowStack.access s t Write = (s', Ok ()) →
    (∀ how, (BorrowStack.access s' t how).2 = Ok ()) ∧
    ∀ u ops how, u ∉ tags s' → (∀ o, o ∈ ops → pushed o ≠ Some u) →
      (BorrowStack.access (foldl run_borrow s' ops) u how).2 = Err IsViolation.
Proof.
  split.
  - split.
    + destruct (BorrowStack.access s t Write) as [s' [[]|]] eqn:E; [|done]. intros _.
      by eapply access_write_Ok.
    + intros (below & above & -> & Hn). by rewrite (access_write _ _ below above).
  - intros s' H. split.
    + apply access_write_Ok in H as Hw. destruct Hw as (below & above & -> & Hn).
      rewrite (access_write _ _ below above) in H by done. injection H as <-.
      assert (t ∈ tags (below ++ [Unique t])) as Ht by (rewrite tags_app; simpl; set_solver).
      intros []; [by rewrite access_read, decide_True|].
      by rewrite (access_write _ _ below []); [|done|apply not_elem_of_nil].
    + intros u ops how Hu Hops. by apply access_dead, run_borrows_tags.
Qed.

(** ** What the code computes on the tests of the source *)

Example two_shared : 
  let s := BorrowStack.push_shared (BorrowStack.push_shared (BorrowStack.rooted 0) 1) 2 in
  (BorrowStack.depth s, (BorrowStack.access s 1 Read).2, (BorrowStack.access s 1 Write).2)
  = (2, Ok (), Err IsViolation).
Proof. reflexivity. Qed.

Example classes_are_not_traps : forallb (λ c, negb (is_a_trap_kind c)) UbClass.ALL = true.
Proof. reflexivity. Qed.

(** * Comptime budgets

    fors-interp/src/budget.rs: the meter of one evaluation and the account of
    the whole build. *)

Definition COMPTIME_STEP_BUDGET : Z := Z.shiftl 1 20.
Definition COMPTIME_ALLOC_BUDGET : Z := Z.shiftl 64 20.
Definition COMPTIME_BUILD_STEP_BUDGET : Z := Z.shiftl 1 28.

Record Limits : Type := MkLimits { lim_step : Z; lim_alloc : Z; lim_build_step : Z }.
Definition Limits_default : Limits :=
  MkLimits COMPTIME_STEP_BUDGET COMPTIME_ALLOC_BUDGET COMPTIME_BUILD_STEP_BUDGET.

Inductive Exceeded : Type :=
  | XSteps (steps limit : Z)
  | XBytes (bytes limit : Z)
  | XBuild (build_steps limit : Z) (most_expensive : option (string * Z)).

Definition saturating_add64 (a b : Z) : Z := Z.min (a + b) (2 ^ 64 - 1).
Definition saturating_sub64 (a b : Z) : Z := Z.max (a - b) 0.

Record Meter : Type := MkMeter {
  m_steps : Z; m_bytes : Z; step_limit : Z; alloc_limit : Z; build_remaining : Z }.

Module Meter.
Definition new (l : Limits) (remaining : Z) : Meter :=
  MkMeter 0 0 (lim_step l) (lim_alloc l) remaining.

(** [self.steps += 1], kept at 64 bits. *)
Definition step (m : Meter) : Meter * result Exceeded unit :=
  let m := MkMeter (wrap 64 (m_steps m + 1)) (m_bytes m) (step_limit m) (alloc_limit m)
             (build_remaining m) in
  (m, if (build_remaining m <? m_steps m) && (build_remaining m <? step_limit m)
      then Err (XBuild 0 0 None)
      else if step_limit m <? m_steps m then Err (XSteps (m_steps m) (step_limit m))
      else Ok ()).

Definition bytes (m : Meter) (n : Z) : Meter * result Exceeded unit :=
  let m := MkMeter (m_steps m) (saturating_add64 (m_bytes m) n) (step_limit m) (alloc_limit m)
             (build_remaining m) in
  (m, if alloc_limit m <? m_bytes m then Err (XBytes (m_bytes m) (alloc_limit m)) else Ok ()).
End Meter.

Record BuildMeter : Type := MkBuild {
  b_steps : Z; b_limit : Z; per_decl : list (string * Z) }.

Module BuildMeter.
Definition new (l : Limits) : BuildMeter := MkBuild 0 (lim_build_step l) [].
Definition remaining (b : BuildMeter) : Z := saturating_sub64 (b_limit b) (b_steps b).
Definition charge (b : BuildMeter) (decl : string) (steps : Z) : BuildMeter :=
  MkBuild (saturating_add64 (b_steps b) steps) (b_limit b) (per_decl b ++ [(decl, steps)]).
Definition most_expensive (b : BuildMeter) : option (string * Z) :=
  foldl (λ best row, match best with
                     | None => Some row
                     | Some r => if r.2 <? row.2 then Some row else Some r
                     end) None (per_decl b).
Definition exceeded (b : BuildMeter) : Exceeded :=
  XBuild (b_steps b) (b_limit b) (most_expensive b).
End BuildMeter.

(** ** The meter lets exactly the steps of its budget through *)

(** [n] steps, stopping at the first refusal. *)
Fixpoint steps (n : nat) (m : Meter) : Meter * result Exceeded unit :=
  match n with
  | O => (m, Ok ())
  | S n => let '(m, r) := Meter.step m in
           match r with Ok _ => steps n m | Err e => (m, Err e) end
  end.

Definition allowance (m : Meter) : Z := Z.min (step_limit m) (build_remaining m).

Lemma step_spec m : 0 ≤ m_steps m < 2 ^ 64 - 1 →
  Meter.step m =
  (MkMeter (m_steps m + 1) (m_bytes m) (step_limit m) (alloc_limit m) (build_remaining m),
   if decide (m_steps m < allowance m) then Ok ()
   else if decide (build_remaining m < step_limit m) then Err (XBuild 0 0 None)
   else Err (XSteps (m_steps m + 1) (step_limit m))).
Proof.
  intros Hm. unfold Meter.step, allowance. cbn [m_steps m_bytes step_limit alloc_limit build_remaining].
  rewrite wrap_small by (unfold unsigned; lia). f_equal.
  destruct (Z.ltb_spec (build_remaining m) (m_steps m + 1)),
    (Z.ltb_spec (build_remaining m) (step_limit m)),
    (Z.ltb_spec (step_limit m) (m_steps m + 1)); cbn;
    repeat destruct (decide _); try done; lia.
Qed.

Lemma steps_within n m : 0 ≤ m_steps m → allowance m < 2 ^ 64 - 1 →
  m_steps m + Z.of_nat n ≤ allowance m →
  steps n m =
  (MkMeter (m_steps m + Z.of_nat n) (m_bytes m) (step_limit m) (alloc_limit m)
     (build_remaining m), Ok ()).
Proof.
  revert m. induction n as [|n IH]; intros m H0 Ha Hn.
  - simpl. rewrite Z.add_0_r. by destruct m.
  - cbn [steps]. rewrite step_spec by lia. rewrite decide_True by lia.
    rewrite IH; unfold allowance in *; simpl; try lia. do 2 f_equal. lia.
Qed.

(** C24: a budget is exact: from a meter within its allowance (the smaller of
    the evaluation's own limit and what the build has left), [n] steps succeed
    exactly when the allowance covers them, and the step beyond it names the
    limit that ran out. *)
Theorem meter_is_exact n m : 0 ≤ m_steps m ≤ allowance m → allowance m < 2 ^ 64 - 1 →
  ((steps n m).2 = Ok () ↔ m_steps m + Z.of_nat n ≤ allowance m) ∧
  (m_steps m + Z.of_nat n = allowance m →
   (steps (S n) m).2 = Err (if decide (build_remaining m < step_limit m) then XBuild 0 0 None
                            else XSteps (allowance m + 1) (step_limit m))).
Proof.
  revert m. induction n as [|n IH]; intros m Hm Ha.
  - split; [simpl; split; [lia|done]|]. intros Heq. cbn [steps]. rewrite step_spec by lia.
    rewrite decide_False by lia. simpl in Heq. destruct (decide _); [done|].
    cbn [snd]. do 2 f_equal. lia.
  - change (steps (S n) m) with (let '(m, r) := Meter.step m in
      match r with Ok _ => steps n m | Err e => (m, Err e) end).
    change (steps (S (S n)) m) with (let '(m, r) := Meter.step m in
      match r with Ok _ => steps (S n) m | Err e => (m, Err e) end).
    rewrite step_spec by lia. destruct (decide (m_steps m < allowance m)).
    + set (m' := MkMeter _ _ _ _ _). assert (allowance m' = allowance m) as Hm' by done.
      assert (m_steps m' = m_steps m + 1) as Hs by done.
      assert (build_remaining m' = build_remaining m ∧ step_limit m' = step_limit m) as [Hb Hl] by done.
      clearbody m'. destruct (IH m') as [H1 H2]; [lia..|].
      split; [rewrite H1; lia|]. intros Heq. rewrite H2 by lia. by rewrite Hm', Hb, Hl.
    + split; [|lia]. destruct (decide (build_remaining m < step_limit m)); simpl; split; done || lia.
Qed.
Lemma meter_is_exact_witness :
  let m := Meter.new (MkLimits 3 100 1000) 5 in
  ((steps 3 m).2 = Ok () ↔ m_steps m + Z.of_nat 3 ≤ allowance m) ∧
  (m_steps m + Z.of_nat 3 = allowance m →
   (steps 4 m).2 = Err (if decide (build_remaining m < step_limit m) then XBuild 0 0 None
                        else XSteps (allowance m + 1) (step_limit m))).
Proof. apply meter_is_exact; [split; vm_compute; discriminate|reflexivity]. Defined.

Lemma most_expensive_spec b :
  match BuildMeter.most_expensive b with
  | None => per_decl b = []
  | Some r => ∃ before after, per_decl b = before ++ r :: after ∧
      (∀ x, x ∈ before → x.2 < r.2) ∧ (∀ x, x ∈ after → x.2 ≤ r.2)
  end.
Proof.
  unfold BuildMeter.most_expensive. destruct b as [s l rows]. simpl. clear s l.
  induction rows as [|x rows IH] using rev_ind; [done|].
  rewrite foldl_snoc. destruct (foldl _ None rows) as [r|].
  - destruct IH as (before & after & -> & Hb & Ha). destruct (Z.ltb_spec r.2 x.2).
    + exists (before ++ r :: after), []. split_and!; [done| |set_solver].
      intros y [Hy|[->|Hy]%elem_of_cons]%elem_of_app; [|lia|].
      * specialize (Hb y Hy). lia.
      * specialize (Ha y Hy). lia.
    + exists before, (after ++ [x]). split_and!; [by rewrite <- app_assoc|done|].
      intros y [Hy| ->%list_elem_of_singleton]%elem_of_app; [by apply Ha|lia].
  - rewrite IH. exists [], []. split_and!; [done|set_solver..].
Qed.
