(* ===== verification/InterpHost.v ===== *)
(** * The host of the interpreter

    fors-interp/src/host.rs, shim.rs, intrinsic.rs and fors-fmir/src/caps.rs:
    the oracle that serves and logs (or replays) every capability response,
    the twelve root capabilities and the entry shim's plan, the closed table
    of intrinsics.  The real clock, the entropy device and the descriptors are
    outside: [HostWorld] gives what they answer. *)

From Stdlib Require Import String.
From S2P Require Import Prelude InterpArith FmirData.
Local Open Scope Z_scope.

(** ** Root capabilities, caps.rs *)

Inductive RootCap : Type :=
  | Stdout | Stderr | Stdin | Dir | Net | Exec | Clock | Rng | Env | Args | Device | CapHeap.
#[global] Instance RootCap_eq_dec : EqDecision RootCap.
Proof. solve_decision. Defined.

(** ** The host

    Each function is what the real source answers; the argument is the number
    of live reads (or steps) so far, so that readings may differ in time. *)
Record HostWorld : Type := MkWorld {
  world_mono : Z → Z;                   (** nanoseconds since the first reading *)
  world_wall : Z → Z;
  world_entropy : Z → option Z;         (** [None]: the device cannot be read *)
  world_entropy_ok : bool;
  world_write : Z → Z → list Z → bool   (** step, descriptor, bytes: it all arrived *) }.

(** ** The oracle, host.rs *)

Inductive HostEvent : Type := Mono (v : Z) | Wall (v : Z) | Entropy (v : Z).
#[global] Instance HostEvent_eq_dec : EqDecision HostEvent.
Proof. solve_decision. Defined.

Inductive EventKind : Type := KMono | KWall | KEntropy.
#[global] Instance EventKind_eq_dec : EqDecision EventKind.
Proof. solve_decision. Defined.

Module HostEvent.
Definition kind (e : HostEvent) : EventKind :=
  match e with Mono _ => KMono | Wall _ => KWall | Entropy _ => KEntropy end.
Definition bits (e : HostEvent) : Z :=
  match e with Mono v | Entropy v => v | Wall v => wrap 64 v end.
End HostEvent.

Inductive OracleError : Type :=
  | Malformed (line : Z)
  | Mismatch (index : Z) (expected found : EventKind)
  | Exhausted (index : Z) (wanted : EventKind)
  | Unconsumed (consumed total : Z)
  | LiveReadUnderReplay (what : EventKind)
  | EntropyUnavailable.

Record HostCounters : Type := MkCounters {
  clock_reads : Z; entropy_draws : Z; live_reads : Z; fs_host_calls : Z; net_host_calls : Z }.
Definition no_counts : HostCounters := MkCounters 0 0 0 0 0.

Inductive Mode : Type := MLive | MReplay (events : list HostEvent) (at_ : Z).

Record Oracle : Type := MkOracle {
  mode : Mode; log : list HostEvent; last_mono : option Z; counters : HostCounters }.

(** A call on the oracle changes it whether or not it succeeds. *)
Definition asked (A : Type) : Type := Oracle * result OracleError A.

Module Oracle.
Definition live : Oracle := MkOracle MLive [] None no_counts.
Definition replay_events (evs : list HostEvent) : Oracle := MkOracle (MReplay evs 0) [] None no_counts.
Definition sealed : Oracle := replay_events [].

Definition is_replay (o : Oracle) : bool := match mode o with MReplay _ _ => true | _ => false end.

Definition finish (o : Oracle) : result OracleError unit :=
  match mode o with
  | MReplay evs a => if a =? len_z evs then Ok () else Err (Unconsumed a (len_z evs))
  | MLive => Ok ()
  end.

Definition count (f : HostCounters → HostCounters) (o : Oracle) : Oracle :=
  MkOracle (mode o) (log o) (last_mono o) (f (counters o)).
Definition push_log (e : HostEvent) (o : Oracle) : Oracle :=
  MkOracle (mode o) (log o ++ [e]) (last_mono o) (counters o).
Definition set_mono (v : Z) (o : Oracle) : Oracle :=
  MkOracle (mode o) (log o) (Some v) (counters o).

Definition clock_read (c : HostCounters) : HostCounters :=
  MkCounters (clock_reads c + 1) (entropy_draws c) (live_reads c) (fs_host_calls c) (net_host_calls c).
Definition entropy_draw (c : HostCounters) : HostCounters :=
  MkCounters (clock_reads c) (entropy_draws c + 1) (live_reads c) (fs_host_calls c) (net_host_calls c).
Definition live_read (c : HostCounters) : HostCounters :=
  MkCounters (clock_reads c) (entropy_draws c) (live_reads c + 1) (fs_host_calls c) (net_host_calls c).
Definition fs_call (c : HostCounters) : HostCounters :=
  MkCounters (clock_reads c) (entropy_draws c) (live_reads c) (fs_host_calls c + 1) (net_host_calls c).
Definition net_call (c : HostCounters) : HostCounters :=
  MkCounters (clock_reads c) (entropy_draws c) (live_reads c) (fs_host_calls c) (net_host_calls c + 1).

Definition next_replayed (wanted : EventKind) (o : Oracle) : asked (option Z) :=
  match mode o with
  | MLive => (o, Ok None)
  | MReplay evs a =>
      match nth_z evs a with
      | None => (o, Err (Exhausted a wanted))
      | Some e =>
          if negb (bool_decide (HostEvent.kind e = wanted))
          then (o, Err (Mismatch a (HostEvent.kind e) wanted))
          else (MkOracle (MReplay evs (a + 1)) (log o) (last_mono o) (counters o),
                Ok (Some (HostEvent.bits e)))
      end
  end.

Section world.
Context (w : HostWorld).

Definition ensure_entropy (o : Oracle) : result OracleError unit :=
  match mode o with
  | MReplay _ _ => Ok ()
  | MLive => if world_entropy_ok w then Ok () else Err EntropyUnavailable
  end.

(** [u64::try_from(nanos).unwrap_or(u64::MAX)] *)
Definition real_mono (o : Oracle) : asked Z :=
  if is_replay o then (o, Err (LiveReadUnderReplay KMono))
  else (count live_read o, Ok (Z.min (world_mono w (live_reads (counters o))) (2 ^ 64 - 1))).

Definition real_wall (o : Oracle) : asked Z :=
  if is_replay o then (o, Err (LiveReadUnderReplay KWall))
  else (count live_read o,
        Ok (clamp (world_wall w (live_reads (counters o))) (- 2 ^ 63) (2 ^ 63 - 1))).

Definition real_entropy (o : Oracle) : asked Z :=
  if is_replay o then (o, Err (LiveReadUnderReplay KEntropy))
  else (count live_read o,
        match world_entropy w (live_reads (counters o)) with
        | Some v => Ok v
        | None => Err EntropyUnavailable
        end).

Definition clock_mono (o : Oracle) : asked Z :=
  let o := count clock_read o in
  let '(o, r) := next_replayed KMono o in
  match r with
  | Err e => (o, Err e)
  | Ok replayed =>
      let '(o, r) := match replayed with
                     | Some bits => (o, Ok bits)
                     | None =>
                         let '(o, r) := real_mono o in
                         (o, real ← r;
                             Ok (match last_mono o with
                                 | Some prev => Z.max real (Z.min (prev + 1) (2 ^ 64 - 1))
                                 | None => real
                                 end))
                     end in
      match r with
      | Err e => (o, Err e)
      | Ok v => (push_log (Mono v) (set_mono v o), Ok v)
      end
  end.

Definition clock_wall (o : Oracle) : asked Z :=
  let o := count clock_read o in
  let '(o, r) := next_replayed KWall o in
  match r with
  | Err e => (o, Err e)
  | Ok replayed =>
      let '(o, r) := match replayed with
                     | Some bits => (o, Ok (to_signed 64 bits))
                     | None => real_wall o
                     end in
      match r with
      | Err e => (o, Err e)
      | Ok v => (push_log (Wall v) o, Ok v)
      end
  end.

Definition entropy_u64 (o : Oracle) : asked Z :=
  let o := count entropy_draw o in
  let '(o, r) := next_replayed KEntropy o in
  match r with
  | Err e => (o, Err e)
  | Ok replayed =>
      let '(o, r) := match replayed with
                     | Some bits => (o, Ok bits)
                     | None => real_entropy o
                     end in
      match r with
      | Err e => (o, Err e)
      | Ok v => (push_log (Entropy v) o, Ok v)
      end
  end.
End world.
End Oracle.

(** ** The entry shim, shim.rs *)

Inductive EntryArg : Type := ARoot (c : RootCap) | AUnit.

(** The refusals are texts; [None] here. *)
Fixpoint plan_loop (params : list (option RootCap)) (typed : bool) (seen : list RootCap) :
    option (list EntryArg) :=
  match params with
  | [] => Some []
  | Some c :: params =>
      if bool_decide (c ∈ seen) then None
      else rest ← plan_loop params typed (seen ++ [c]); Some (ARoot c :: rest)
  | None :: params =>
      if negb typed then rest ← plan_loop params typed seen; Some (AUnit :: rest) else None
  end.
Definition plan_entry_args (params : list (option RootCap)) (typed : bool) : option (list EntryArg) :=
  plan_loop params typed [].

(** ** The table of intrinsics, intrinsic.rs *)

Inductive When : Type := Allowed | Forbidden.
#[global] Instance When_eq_dec : EqDecision When.
Proof. solve_decision. Defined.

Inductive Door : Type :=
  | STDOUT_WRITE_LINE | STDOUT_WRITE_UINT | STDERR_WRITE_LINE | STR_BYTE_LEN | STR_BYTE_AT
  | STR_BYTE_SLICE | STR_EQ | SEQ_LEN | AGG_UNINIT | CLOCK_MONO | CLOCK_WALL | CLOCK_SLEEP
  | ENTROPY_U64 | FS_DOOR | NET_DOOR | INPUT_READ.
#[global] Instance Door_eq_dec : EqDecision Door.
Proof. solve_decision. Defined.

Definition door_name (d : Door) : string :=
  match d with
  | STDOUT_WRITE_LINE => "stdout_write_line"
  | STDOUT_WRITE_UINT => "stdout_write_uint"
  | STDERR_WRITE_LINE => "stderr_write_line"
  | STR_BYTE_LEN => "str_byte_len"
  | STR_BYTE_AT => "str_byte_at"
  | STR_BYTE_SLICE => "str_byte_slice"
  | STR_EQ => "str_eq"
  | SEQ_LEN => "seq_len"
  | AGG_UNINIT => "agg_uninit"
  | CLOCK_MONO => "clock_mono"
  | CLOCK_WALL => "clock_wall"
  | CLOCK_SLEEP => "clock_sleep"
  | ENTROPY_U64 => "entropy_u64"
  | FS_DOOR => "fs_door"
  | NET_DOOR => "net_door"
  | INPUT_READ => "input_read"
  end%string.

Record IntrinsicRow : Type := MkRow { row_door : Door; row_run : When; row_comptime : When }.

Definition TABLE : list IntrinsicRow :=
  [MkRow STDOUT_WRITE_LINE Allowed Forbidden;
   MkRow STDOUT_WRITE_UINT Allowed Forbidden;
   MkRow STDERR_WRITE_LINE Allowed Forbidden;
   MkRow STR_BYTE_LEN Allowed Allowed;
   MkRow STR_BYTE_AT Allowed Allowed;
   MkRow STR_BYTE_SLICE Allowed Allowed;
   MkRow STR_EQ Allowed Allowed;
   MkRow SEQ_LEN Allowed Allowed;
   MkRow AGG_UNINIT Allowed Allowed;
   MkRow CLOCK_MONO Allowed Forbidden;
   MkRow CLOCK_WALL Allowed Forbidden;
   MkRow CLOCK_SLEEP Allowed Forbidden;
   MkRow ENTROPY_U64 Allowed Forbidden;
   MkRow FS_DOOR Allowed Forbidden;
   MkRow NET_DOOR Allowed Forbidden;
   MkRow INPUT_READ Forbidden Allowed].

Module Intrinsic.
Definition lookup (name : string) : option IntrinsicRow :=
  List.find (λ r, bool_decide (door_name (row_door r) = name)) TABLE.
End Intrinsic.
