(* ===== verification/InterpMachine.v ===== *)
(** * The interpreter's machine

    fors-interp/src/exec.rs and program.rs: the state of a running program, its
    frames, tables and borrow stacks, the faults an instruction can raise, and
    the small operations on them.  A call of the machine keeps the state it
    reached when it faults, as the code does.  The message texts of an
    [InterpError] are left out. *)

From Stdlib Require Import String.
From S2P Require Import Prelude InterpArith InterpFloat Reduce FmirData InterpState InterpHost.
From stdpp Require Import gmap.
Local Open Scope Z_scope.

(** ** Types, fors-fir/src/ty.rs

    The interpreter reads four columns of the store. *)
Inductive TyTag : Type :=
  | TyError | TyUnit | TyNever | TyPrim | TyNominal | TyTuple | TyFn | TyDyn | TyParam | TyProj
  | TyBrand | TyConstVal.
#[global] Instance TyTag_eq_dec : EqDecision TyTag.
Proof. solve_decision. Defined.
#[global] Instance PrimKind_eq_dec : EqDecision PrimKind.PrimKind.
Proof. solve_decision. Defined.

Record TyStore : Type := MkTys {
  ty_tag : list TyTag; ty_a : list Z; ty_unqual : list Z; ty_args : list (list Z) }.

Definition NO_TY : Z := 2 ^ 32 - 1.
Definition TY_UNIT : Z := 1.

Definition PrimKind_from_u8 (v : Z) : option PrimKind.PrimKind :=
  nth_z [PrimKind.I8; PrimKind.I16; PrimKind.I32; PrimKind.I64; PrimKind.Isize; PrimKind.U8;
         PrimKind.U16; PrimKind.U32; PrimKind.U64; PrimKind.Usize; PrimKind.F32; PrimKind.F64;
         PrimKind.Bool; PrimKind.Str; PrimKind.RawPtr] v.

(** ** Programs, program.rs and names.rs *)

Inductive VariantPayload : Type :=
  | PUnit | PTuple (parts : list Z) | PFields (fields : list (string * Z)).
Record VariantName : Type := MkVariant {
  vn_discr : Z; vn_name : string; vn_payload : VariantPayload }.
Inductive TypeName : Type :=
  | NEnum (path : string) (variants : list VariantName)
  | NStruct (path : string) (fields : list (string * Z)).
Record TypeNames : Type := MkNames {
  name_rows : list (Z * TypeName); name_roots : list (Z * RootCap) }.

Module TypeNames.
Definition get (n : TypeNames) (ty : Z) : option TypeName :=
  snd <$> List.find (λ r, r.1 =? ty) (name_rows n).
Definition root_cap (n : TypeNames) (ty : Z) : option RootCap :=
  snd <$> List.find (λ r, r.1 =? ty) (name_roots n).
End TypeNames.

Record ProgFn : Type := MkFn {
  fn_name : string; fn_decl : DeclFmir; fn_strings : list (Z * list Z);
  fn_intrinsics : list (Z * string) }.
Record Program : Type := MkProgram {
  fns : list ProgFn; prog_entry : Z; ptr_bits : Z; names : TypeNames }.

(** The descriptors of [HostEnv]. *)
Record HostEnv : Type := MkEnv { stdout_fd : option Z; stderr_fd : option Z }.

(** ** Faults *)

Inductive ComptimeFault : Type :=
  | ForbiddenIntrinsic (intrinsic : string) (func : string) (site : Z * Z)
  | UndeclaredInput (path : list Z) (func : string) (site : Z * Z)
  | BudgetFault (e : Exceeded)
  | SealedCall (callee func : string).

Inductive InterpError : Type :=
  | NoEntry | UnknownCallee (key : Z) | UnsupportedOp (op : Op.Op)
  | DanglingOperand (inst slot : Z) | DanglingBlock (b : Z) | UnknownIntrinsic (name : string)
  | MissingString (c : Z) | TypeMismatch | MalformedExitEdge | UnhandledRaise (func : string)
  | RenderError | Unrepresentable | StepBudget | StackOverflow | OracleFault (e : OracleError)
  | HostRefused (owner : string) (op : list Z) | CapabilityError | NotAtRunTime (name : string)
  | ComptimeError (f : ComptimeFault).

Inductive Fault : Type :=
  | FTrap (k : TrapKind) | FUb (r : UbReport) | FError (e : InterpError).

(** ** The tables *)

Inductive CellKind : Type := Agg | SliceDesc | CapCell (c : RootCap) | Withheld (c : RootCap).
#[global] Instance CellKind_eq_dec : EqDecision CellKind.
Proof. solve_decision. Defined.
Record Cells : Type := MkCells { slots : list Slot; cell_kind : CellKind }.
Definition Cells_agg (ss : list Slot) : Cells := MkCells ss Agg.

Inductive BorrowKey : Type := KRoot (frame root : Z) | KAlloc (id : Z).
#[global] Instance BorrowKey_eq_dec : EqDecision BorrowKey.
Proof. solve_decision. Defined.
#[global] Instance BorrowKey_countable : Countable BorrowKey.
Proof.
  refine (inj_countable' (λ k, match k with KRoot f r => inl (f, r) | KAlloc i => inr i end)
            (λ x, match x with inl (f, r) => KRoot f r | inr i => KAlloc i end) _).
  by intros [].
Defined.

Record CtState : Type := MkCt {
  meter : Meter; inputs : list (list Z * list Z); externs : list (Z * string);
  observed_address : bool; inputs_read : list (list Z) }.

(** ** The machine *)

Record ExitRun : Type := MkExitRun {
  edge : Z; done : Z; resume : Z; result_slot : option Slot; raising : bool }.

Record Frame : Type := MkFrame {
  func : Z; serial : Z; fvals : list Slot;
  froots : list Slot; fblock : Z; pc : Z;
  fexits : list ExitRun; raised : bool; raise_ty : Z }.

Record Machine : Type := MkMachine {
  frames : list Frame; pending : list (option Z); cells : list Cells;
  strs : list (list Z); stdout : list Z; stdout_latched : bool;
  stderr : list Z; oracle : Oracle; steps : Z;
  step_cap : Z; allocs : list Alloc; arenas : list ArenaVal;
  arena_region : list Z; prov_rows : list ProvRow; borrows : gmap BorrowKey BorrowStack;
  next_tag : Z; next_serial : Z; ct : option CtState;
  entry_ret_ty : option Z }.

(** Updates of one field. *)
Definition set_func (f : Z → Z) (x : Frame) : Frame :=
  MkFrame (f (func x)) (serial x) (fvals x) (froots x) (fblock x) (pc x) (fexits x) (raised x)
    (raise_ty x).
Definition set_serial (f : Z → Z) (x : Frame) : Frame :=
  MkFrame (func x) (f (serial x)) (fvals x) (froots x) (fblock x) (pc x) (fexits x) (raised x)
    (raise_ty x).
Definition set_fvals (f : list Slot → list Slot) (x : Frame) : Frame :=
  MkFrame (func x) (serial x) (f (fvals x)) (froots x) (fblock x) (pc x) (fexits x) (raised x)
    (raise_ty x).
Definition set_froots (f : list Slot → list Slot) (x : Frame) : Frame :=
  MkFrame (func x) (serial x) (fvals x) (f (froots x)) (fblock x) (pc x) (fexits x) (raised x)
    (raise_ty x).
Definition set_fblock (f : Z → Z) (x : Frame) : Frame :=
  MkFrame (func x) (serial x) (fvals x) (froots x) (f (fblock x)) (pc x) (fexits x) (raised x)
    (raise_ty x).
Definition set_pc (f : Z → Z) (x : Frame) : Frame :=
  MkFrame (func x) (serial x) (fvals x) (froots x) (fblock x) (f (pc x)) (fexits x) (raised x)
    (raise_ty x).
Definition set_fexits (f : list ExitRun → list ExitRun) (x : Frame) : Frame :=
  MkFrame (func x) (serial x) (fvals x) (froots x) (fblock x) (pc x) (f (fexits x)) (raised x)
    (raise_ty x).
Definition set_raised (f : bool → bool) (x : Frame) : Frame :=
  MkFrame (func x) (serial x) (fvals x) (froots x) (fblock x) (pc x) (fexits x) (f (raised x))
    (raise_ty x).
Definition set_raise_ty (f : Z → Z) (x : Frame) : Frame :=
  MkFrame (func x) (serial x) (fvals x) (froots x) (fblock x) (pc x) (fexits x) (raised x)
    (f (raise_ty x)).
Definition set_frames (f : list Frame → list Frame) (x : Machine) : Machine :=
  MkMachine (f (frames x)) (pending x) (cells x) (strs x) (stdout x) (stdout_latched x) (stderr x)
    (oracle x) (steps x) (step_cap x) (allocs x) (arenas x) (arena_region x) (prov_rows x)
    (borrows x) (next_tag x) (next_serial x) (ct x) (entry_ret_ty x).
Definition set_pending (f : list (option Z) → list (option Z)) (x : Machine) : Machine :=
  MkMachine (frames x) (f (pending x)) (cells x) (strs x) (stdout x) (stdout_latched x) (stderr x)
    (oracle x) (steps x) (step_cap x) (allocs x) (arenas x) (arena_region x) (prov_rows x)
    (borrows x) (next_tag x) (next_serial x) (ct x) (entry_ret_ty x).
Definition set_cells (f : list Cells → list Cells) (x : Machine) : Machine :=
  MkMachine (frames x) (pending x) (f (cells x)) (strs x) (stdout x) (stdout_latched x) (stderr x)
    (oracle x) (steps x) (step_cap x) (allocs x) (arenas x) (arena_region x) (prov_rows x)
    (borrows x) (next_tag x) (next_serial x) (ct x) (entry_ret_ty x).
Definition set_strs (f : list (list Z) → list (list Z)) (x : Machine) : Machine :=
  MkMachine (frames x) (pending x) (cells x) (f (strs x)) (stdout x) (stdout_latched x) (stderr x)
    (oracle x) (steps x) (step_cap x) (allocs x) (arenas x) (arena_region x) (prov_rows x)
    (borrows x) (next_tag x) (next_serial x) (ct x) (entry_ret_ty x).
Definition set_stdout (f : list Z → list Z) (x : Machine) : Machine :=
  MkMachine (frames x) (pending x) (cells x) (strs x) (f (stdout x)) (stdout_latched x) (stderr x)
    (oracle x) (steps x) (step_cap x) (allocs x) (arenas x) (arena_region x) (prov_rows x)
    (borrows x) (next_tag x) (next_serial x) (ct x) (entry_ret_ty x).
Definition set_stdout_latched (f : bool → bool) (x : Machine) : Machine :=
  MkMachine (frames x) (pending x) (cells x) (strs x) (stdout x) (f (stdout_latched x)) (stderr x)
    (oracle x) (steps x) (step_cap x) (allocs x) (arenas x) (arena_region x) (prov_rows x)
    (borrows x) (next_tag x) (next_serial x) (ct x) (entry_ret_ty x).
Definition set_stderr (f : list Z → list Z) (x : Machine) : Machine :=
  MkMachine (frames x) (pending x) (cells x) (strs x) (stdout x) (stdout_latched x) (f (stderr x))
    (oracle x) (steps x) (step_cap x) (allocs x) (arenas x) (arena_region x) (prov_rows x)
    (borrows x) (next_tag x) (next_serial x) (ct x) (entry_ret_ty x).
Definition set_oracle (f : Oracle → Oracle) (x : Machine) : Machine :=
  MkMachine (frames x) (pending x) (cells x) (strs x) (stdout x) (stdout_latched x) (stderr x)
    (f (oracle x)) (steps x) (step_cap x) (allocs x) (arenas x) (arena_region x) (prov_rows x)
    (borrows x) (next_tag x) (next_serial x) (ct x) (entry_ret_ty x).
Definition set_steps (f : Z → Z) (x : Machine) : Machine :=
  MkMachine (frames x) (pending x) (cells x) (strs x) (stdout x) (stdout_latched x) (stderr x)
    (oracle x) (f (steps x)) (step_cap x) (allocs x) (arenas x) (arena_region x) (prov_rows x)
    (borrows x) (next_tag x) (next_serial x) (ct x) (entry_ret_ty x).
Definition set_step_cap (f : Z → Z) (x : Machine) : Machine :=
  MkMachine (frames x) (pending x) (cells x) (strs x) (stdout x) (stdout_latched x) (stderr x)
    (oracle x) (steps x) (f (step_cap x)) (allocs x) (arenas x) (arena_region x) (prov_rows x)
    (borrows x) (next_tag x) (next_serial x) (ct x) (entry_ret_ty x).
Definition set_allocs (f : list Alloc → list Alloc) (x : Machine) : Machine :=
  MkMachine (frames x) (pending x) (cells x) (strs x) (stdout x) (stdout_latched x) (stderr x)
    (oracle x) (steps x) (step_cap x) (f (allocs x)) (arenas x) (arena_region x) (prov_rows x)
    (borrows x) (next_tag x) (next_serial x) (ct x) (entry_ret_ty x).
Definition set_arenas (f : list ArenaVal → list ArenaVal) (x : Machine) : Machine :=
  MkMachine (frames x) (pending x) (cells x) (strs x) (stdout x) (stdout_latched x) (stderr x)
    (oracle x) (steps x) (step_cap x) (allocs x) (f (arenas x)) (arena_region x) (prov_rows x)
    (borrows x) (next_tag x) (next_serial x) (ct x) (entry_ret_ty x).
Definition set_arena_region (f : list Z → list Z) (x : Machine) : Machine :=
  MkMachine (frames x) (pending x) (cells x) (strs x) (stdout x) (stdout_latched x) (stderr x)
    (oracle x) (steps x) (step_cap x) (allocs x) (arenas x) (f (arena_region x)) (prov_rows x)
    (borrows x) (next_tag x) (next_serial x) (ct x) (entry_ret_ty x).
Definition set_prov_rows (f : list ProvRow → list ProvRow) (x : Machine) : Machine :=
  MkMachine (frames x) (pending x) (cells x) (strs x) (stdout x) (stdout_latched x) (stderr x)
    (oracle x) (steps x) (step_cap x) (allocs x) (arenas x) (arena_region x) (f (prov_rows x))
    (borrows x) (next_tag x) (next_serial x) (ct x) (entry_ret_ty x).
Definition set_borrows (f : gmap BorrowKey BorrowStack → gmap BorrowKey BorrowStack) (x : Machine) : Machine :=
  MkMachine (frames x) (pending x) (cells x) (strs x) (stdout x) (stdout_latched x) (stderr x)
    (oracle x) (steps x) (step_cap x) (allocs x) (arenas x) (arena_region x) (prov_rows x)
    (f (borrows x)) (next_tag x) (next_serial x) (ct x) (entry_ret_ty x).
Definition set_next_tag (f : Z → Z) (x : Machine) : Machine :=
  MkMachine (frames x) (pending x) (cells x) (strs x) (stdout x) (stdout_latched x) (stderr x)
    (oracle x) (steps x) (step_cap x) (allocs x) (arenas x) (arena_region x) (prov_rows x) (borrows x)
    (f (next_tag x)) (next_serial x) (ct x) (entry_ret_ty x).
Definition set_next_serial (f : Z → Z) (x : Machine) : Machine :=
  MkMachine (frames x) (pending x) (cells x) (strs x) (stdout x) (stdout_latched x) (stderr x)
    (oracle x) (steps x) (step_cap x) (allocs x) (arenas x) (arena_region x) (prov_rows x) (borrows x)
    (next_tag x) (f (next_serial x)) (ct x) (entry_ret_ty x).
Definition set_ct (f : option CtState → option CtState) (x : Machine) : Machine :=
  MkMachine (frames x) (pending x) (cells x) (strs x) (stdout x) (stdout_latched x) (stderr x)
    (oracle x) (steps x) (step_cap x) (allocs x) (arenas x) (arena_region x) (prov_rows x) (borrows x)
    (next_tag x) (next_serial x) (f (ct x)) (entry_ret_ty x).
Definition set_entry_ret_ty (f : option Z → option Z) (x : Machine) : Machine :=
  MkMachine (frames x) (pending x) (cells x) (strs x) (stdout x) (stdout_latched x) (stderr x)
    (oracle x) (steps x) (step_cap x) (allocs x) (arenas x) (arena_region x) (prov_rows x) (borrows x)
    (next_tag x) (next_serial x) (ct x) (f (entry_ret_ty x)).

(** ** Calls of the machine *)

Abbreviation M := (call Machine Fault).

Definition fail {A} (e : Fault) : M A := λ m, (m, Done (Err e)).
Definition error {A} (e : InterpError) : M A := fail (FError e).
Definition trap {A} (k : TrapKind) : M A := fail (FTrap k).
Definition gets {A} (f : Machine → A) : M A := λ m, (m, Done (Ok (f m))).
Definition modify (f : Machine → Machine) : M unit := λ m, (f m, Done (Ok ())).
(** [v[i]], and [o.ok_or(e)?] *)
Definition ix {A} (o : option A) : M A := call_res (get_ix o).
Definition some_or {A} (o : option A) (e : InterpError) : M A :=
  match o with Some a => mret a | None => error e end.
Definition ok_trap {A} (r : result TrapKind A) : M A :=
  match r with Ok a => mret a | Err k => trap k end.
(** A partial operation of the float model. *)
Definition or_fuel {A} (o : option A) : M A :=
  match o with Some a => mret a | None => call_res OutOfFuel end.

Fixpoint mapMM {A B} (f : A → M B) (l : list A) : M (list B) :=
  match l with
  | [] => mret []
  | x :: l => y ← f x; ys ← mapMM f l; mret (y :: ys)
  end.

(** The tag of a root slot's own stack, and the bounds of a run. *)
Definition ROOT_TAG : Z := 0.
Definition STEP_BUDGET : Z := 100000000.
Definition MAX_FRAMES : Z := 1024.

Section machine.
Context (prog : Program) (tys : TyStore).

(** *** Types *)

Definition unqual (ty : Z) : M Z := ix (nth_z (ty_unqual tys) ty).
Definition tag_of (ty : Z) : M TyTag := ix (nth_z (ty_tag tys) ty).
Definition ty_a_of (ty : Z) : M Z := ix (nth_z (ty_a tys) ty).
Definition ty_len : Z := len_z (ty_tag tys).

Definition num_kind (ty : Z) : M (option NumKind) :=
  bare ← unqual ty;
  tag ← tag_of bare;
  if negb (bool_decide (tag = TyPrim)) then mret None
  else
    a ← ty_a_of bare;
    p ← some_or (PrimKind_from_u8 (wrap 8 a)) TypeMismatch;
    if bool_decide (p ∈ [PrimKind.Bool; PrimKind.Str; PrimKind.RawPtr]) then mret None
    else k ← some_or (NumKind_from_prim p) TypeMismatch; mret (Some k).

Definition int_kind (ty : Z) : M IntKind :=
  k ← num_kind ty;
  match k with Some (Int k) => mret k | _ => error TypeMismatch end.

Definition float_kind (ty : Z) : M FloatKind :=
  k ← num_kind ty;
  match k with Some (Float k) => mret k | _ => error TypeMismatch end.

Definition num_kind_of (ty : Z) : M NumKind :=
  k ← num_kind ty; some_or k TypeMismatch.

Definition is_prim (ty : Z) (p : PrimKind.PrimKind) : M bool :=
  bare ← unqual ty;
  tag ← tag_of bare;
  if negb (bool_decide (tag = TyPrim)) then mret false
  else a ← ty_a_of bare; mret (bool_decide (PrimKind_from_u8 (wrap 8 a) = Some p)).

Definition is_raw_ptr (ty : Z) : M bool :=
  if ty_len <=? ty then mret false else is_prim ty PrimKind.RawPtr.
Definition is_bool (ty : Z) : M bool := is_prim ty PrimKind.Bool.

(** *** Frames and values *)

Definition func_at (fi : Z) : M ProgFn := ix (nth_z (fns prog) fi).
Definition frame (fr : Z) : M Frame := fs ← gets frames; ix (nth_z fs fr).
Definition fn_of (fr : Z) : M ProgFn := f ← frame fr; func_at (func f).
Definition decl_of (fr : Z) : M DeclFmir := f ← fn_of fr; mret (fn_decl f).
Definition on_frame (fr : Z) (f : Frame → Frame) : M unit :=
  _ ← frame fr; modify (set_frames (alter f (Z.to_nat fr))).

Definition slot (fr inst v : Z) : M Slot :=
  f ← frame fr; some_or (nth_z (fvals f) v) (DanglingOperand inst v).

Definition Machine_define (fr v : Z) (s : Slot) : M unit :=
  on_frame fr (set_fvals (λ vs, put_z Slot.uninit vs v s)).

Definition define (dest : option Z) (fr : Z) (s : Slot) : M unit :=
  match dest with Some v => Machine_define fr v s | None => mret () end.

(** *** Budgets *)

Definition set_meter (c : CtState) (m : Meter) : CtState :=
  MkCt m (inputs c) (externs c) (observed_address c) (inputs_read c).

Definition comptime_budget (r : result Exceeded unit) : M unit :=
  match r with Ok _ => mret () | Err e => error (ComptimeError (BudgetFault e)) end.

Definition charge : M unit :=
  _ ← modify (set_steps (λ s, wrap 64 (s + 1)));
  c ← gets ct;
  match c with
  | Some c =>
      let '(mt, r) := Meter.step (meter c) in
      _ ← modify (set_ct (λ _, Some (set_meter c mt)));
      comptime_budget r
  | None =>
      s ← gets steps;
      cap ← gets step_cap;
      if cap <? s then error StepBudget else mret ()
  end.

Definition charge_bytes (n : Z) : M unit :=
  c ← gets ct;
  match c with
  | Some c =>
      let '(mt, r) := Meter.bytes (meter c) n in
      _ ← modify (set_ct (λ _, Some (set_meter c mt)));
      comptime_budget r
  | None => mret ()
  end.

Definition new_cells (c : Cells) : M Z :=
  _ ← charge_bytes (8 * len_z (slots c));
  id ← gets (λ m, len_z (cells m));
  _ ← modify (set_cells (λ cs, cs ++ [c]));
  mret id.

Definition new_str (b : list Z) : M Z :=
  _ ← charge_bytes (len_z b);
  id ← gets (λ m, len_z (strs m));
  _ ← modify (set_strs (λ ss, ss ++ [b]));
  mret id.

(** *** Provenance *)

Definition fresh_tag : M Z :=
  _ ← modify (set_next_tag (λ t, wrap 32 (t + 1)));
  gets next_tag.

Definition push_prov (t : MemTarget) (tag : Z) : M Z :=
  id ← gets (λ m, wrap 32 (len_z (prov_rows m)));
  _ ← modify (set_prov_rows (λ ps, ps ++ [MkProv t tag]));
  mret id.

Definition prov_of (s : Slot) : M ProvRow :=
  if prov s =? PROV_NONE then error TypeMismatch
  else ps ← gets prov_rows; some_or (nth_z ps (prov s)) TypeMismatch.

Definition root_address (serial root : Z) : Z :=
  Z.lor (Z.lor (2 ^ 63) (Z.shiftl serial 32)) root.

Definition observe_address (s : Slot) : M Z :=
  row ← prov_of s;
  let addr := match target row with
              | TAlloc id => Z.lor (Z.shiftl id 32) (wrap 32 (bits s))
              | TArena _ data => Z.lor (Z.shiftl data 32) (wrap 32 (bits s))
              | TRoot _ serial root => root_address serial root
              end in
  _ ← modify (set_ct (fmap (λ c, MkCt (meter c) (inputs c) (externs c) true (inputs_read c))));
  mret addr.

Definition alloc_identity (s : Slot) : M Z :=
  row ← prov_of s;
  mret (match target row with
        | TAlloc id => id
        | TArena _ data => data
        | TRoot _ serial root => root_address serial root
        end).

Definition allocator_at (fr block : Z) : M Z :=
  d ← decl_of fr;
  mret (match nth_z (blocks d) block with
        | None => AMBIENT
        | Some row => match nth_z (scopes d) (scope row) with
                      | None => AMBIENT
                      | Some s => brand s
                      end
        end).

Definition site_of (fr site : Z) : M (Z * Z) :=
  d ← decl_of fr;
  mret (match nth_z (sites d) site with Some r => (line r, col r) | None => (0, 0) end).

Definition ub {A} (fr inst site : Z) (c : UbClass) : M A :=
  s ← site_of fr site; fail (FUb (MkReport c inst s)).

(** *** Borrows *)

Definition borrow_access (key : BorrowKey) (t : Z) (how : Access) : M (result Violation unit) :=
  bs ← gets borrows;
  match bs !! key with
  | None => mret (Ok ())
  | Some s =>
      let '(s', r) := BorrowStack.access s t how in
      _ ← modify (set_borrows (<[key := s']>));
      mret r
  end.

Definition on_borrow_stack (key : BorrowKey) (f : BorrowStack → BorrowStack) : M unit :=
  modify (set_borrows (λ bs,
    <[key := f (default (BorrowStack.rooted ROOT_TAG) (bs !! key))]> bs)).
End machine.
