(* ===== verification/InterpExec.v ===== *)
(** * The interpreter's instructions

    fors-interp/src/exec.rs: operands, sequence windows, cells, places and the
    reads and writes through a pointer, with the checks that produce the
    [ub:] reports, the [bounds] trap and the [arena-generation] trap; then the
    instructions and the intrinsics, an arm of the code each. *)

From Stdlib Require Import String.
From S2P Require Import Prelude InterpArith InterpFloat Reduce FmirData InterpState InterpHost InterpMachine InterpFrem.
From S2P Require InterpReduce.
From stdpp Require Import gmap pretty.
Local Open Scope Z_scope.

(** The instruction number of a report that belongs to a terminator. *)
Definition TERMINATOR : Z := 2 ^ 32 - 1.

Section place.
Context (prog : Program) (tys : TyStore).

(** ** Values *)

Definition str_bytes (handle : Slot) : M (list Z) :=
  ss ← gets strs; some_or (nth_z ss (bits handle)) (MissingString (wrap 32 (bits handle))).

(** Dead first, then uninitialised. *)
Definition check_slot (fr inst site : Z) (s : Slot) : M Slot :=
  if negb (live s) then ub prog fr inst site UseAfterMove
  else if negb (init s) then ub prog fr inst site UninitRead
  else mret s.

Definition val_operand (fr inst site raw : Z) : M Slot :=
  if raw =? NO_OPERAND then error TypeMismatch
  else s ← slot fr inst raw; check_slot fr inst site s.

(** [(cell handle, start, len)] *)
Definition seq_window (v : Slot) : M (Z * Z * Z) :=
  cs ← gets cells;
  cell ← some_or (nth_z cs (bits v)) TypeMismatch;
  match cell_kind cell with
  | Agg => mret (bits v, 0, len_z (slots cell))
  | SliceDesc =>
      match slots cell with
      | [base; start; len] =>
          b ← some_or (nth_z cs (bits base)) TypeMismatch;
          if len_z (slots b) <? Z.min (bits start + bits len) (2 ^ 64 - 1) then error TypeMismatch
          else mret (bits base, bits start, bits len)
      | _ => error TypeMismatch
      end
  | CapCell _ | Withheld _ => error CapabilityError
  end.

Definition is_cap (c : Cells) : bool :=
  match cell_kind c with CapCell _ | Withheld _ => true | _ => false end.

Definition cell_slot (fr inst site cell at_ : Z) : M Slot :=
  cs ← gets cells;
  match nth_z cs cell with
  | None => error TypeMismatch
  | Some c =>
      if is_cap c then error CapabilityError
      else s ← some_or (nth_z (slots c) at_) TypeMismatch; check_slot fr inst site s
  end.

Definition index_in_bounds (fr inst site idx len : Z) : M Z :=
  s ← val_operand fr inst site idx;
  if len <=? bits s then trap Bounds else mret (bits s).

(** ** Places *)

Definition place_shape (fr raw : Z) : M (Z * list Seg * Z) :=
  d ← decl_of prog fr;
  match nth_z (place_rows (places d)) raw with
  | None => error TypeMismatch
  | Some row => mret (root row, slice_z (seg_list (places d)) (place_segs row), place_ty row)
  end.

Definition root_or_uninit (f : Frame) (r : Z) : Slot := default Slot.uninit (nth_z (froots f) r).

Definition root_slot (fr inst site r : Z) : M Slot :=
  f ← frame fr; check_slot fr inst site (root_or_uninit f r).

Definition scalar_width (ty : Z) : M Z :=
  bare ← unqual tys ty;
  tag ← tag_of tys bare;
  if negb (bool_decide (tag = TyPrim)) then error TypeMismatch
  else
    a ← ty_a_of tys bare;
    p ← some_or (PrimKind_from_u8 (wrap 8 a)) TypeMismatch;
    mret (match p with
          | PrimKind.Bool | PrimKind.I8 | PrimKind.U8 => 1
          | PrimKind.I16 | PrimKind.U16 => 2
          | PrimKind.I32 | PrimKind.U32 | PrimKind.F32 => 4
          | PrimKind.Isize | PrimKind.Usize | PrimKind.RawPtr => ptr_bits prog / 8
          | _ => 8
          end).

(** ** Dereferences *)

Record Deref : Type := MkDeref { d_key : BorrowKey; d_alloc : option Z; d_off : Z; d_tag : Z }.

Definition alloc_state (m : Machine) (id : Z) : option AllocState := state <$> nth_z (allocs m) id.

Definition check_alloc_live (fr inst site id : Z) : M unit :=
  st ← gets (λ m, alloc_state m id);
  match st with
  | Some Live => mret ()
  | Some (Freed _) => ub prog fr inst site UseAfterFree
  | Some (Reset _) => trap ArenaGeneration
  | None => error TypeMismatch
  end.

Definition check_arena_live (data : Z) : M unit :=
  st ← gets (λ m, alloc_state m data);
  match st with
  | Some Live => mret ()
  | Some _ => trap ArenaGeneration
  | None => error TypeMismatch
  end.

Definition resolve_deref (fr inst site : Z) (ptr : Slot) : M Deref :=
  row ← prov_of ptr;
  match target row with
  | TRoot f sr r =>
      alive ← gets (λ m, match nth_z (frames m) f with
                         | Some x => serial x =? sr
                         | None => false
                         end);
      if negb alive then ub prog fr inst site UseAfterFree
      else mret (MkDeref (KRoot f r) None 0 (tag row))
  | TAlloc id =>
      _ ← check_alloc_live fr inst site id;
      mret (MkDeref (KAlloc id) (Some id) (wrap 32 (bits ptr)) (tag row))
  | TArena arena data =>
      let '(gen, off) := RefVal.unpack (bits ptr) in
      ars ← gets arenas;
      a ← some_or (nth_z ars arena) TypeMismatch;
      if negb (arena_gen a =? gen) then trap ArenaGeneration
      else
        st ← gets (λ m, alloc_state m data);
        if negb (bool_decide (st = Some Live)) then trap ArenaGeneration
        else mret (MkDeref (KAlloc data) (Some data) off (tag row))
  end.

(** The object a pointer at a local slot points at. *)
Definition root_target (ptr : Slot) : M (Z * Z) :=
  row ← prov_of ptr;
  match target row with TRoot f _ r => mret (f, r) | _ => call_res Panic end.

(** Little-endian, [w] bytes from [off]; [None] past the end. *)
Fixpoint read_bytes (bs : list Z) (off : Z) (w : nat) : option Z :=
  match w with
  | O => Some 0
  | S w => b ← nth_z bs off; rest ← read_bytes bs (off + 1) w; Some (Z.lor b (Z.shiftl rest 8))
  end.
Fixpoint write_bytes (bs : list Z) (off : Z) (w : nat) (v : Z) : option (list Z) :=
  match w with
  | O => Some bs
  | S w =>
      _ ← nth_z bs off;
      write_bytes (<[Z.to_nat off := wrap 8 v]> bs) (off + 1) w (Z.shiftr v 8)
  end.

Definition read_through (fr inst site root ty : Z) : M Slot :=
  ptr ← root_slot fr inst site root;
  d ← resolve_deref fr inst site ptr;
  ok ← borrow_access (d_key d) (d_tag d) Read;
  match ok with
  | Err _ => ub prog fr inst site Aliasing
  | Ok _ =>
      match d_alloc d with
      | None =>
          '(f, r) ← root_target ptr;
          x ← gets (λ m, nth_z (frames m) f);
          check_slot fr inst site
            (match x with Some x => root_or_uninit x r | None => Slot.uninit end)
      | Some id =>
          width ← scalar_width ty;
          als ← gets allocs;
          a ← ix (nth_z als id);
          if Alloc.size a <? saturating_add32 (d_off d) width then trap Bounds
          else if negb (BitVec.all_set (inits a) (d_off d) width)
          then ub prog fr inst site UninitRead
          else
            v ← ix (read_bytes (bytes a) (d_off d) (Z.to_nat width));
            mret (Slot.ptr v (default PROV_NONE (provs a !! d_off d)))
      end
  end.

Definition write_through (fr inst site root ty : Z) (v : Slot) : M unit :=
  ptr ← root_slot fr inst site root;
  d ← resolve_deref fr inst site ptr;
  ok ← borrow_access (d_key d) (d_tag d) Write;
  match ok with
  | Err _ => ub prog fr inst site Aliasing
  | Ok _ =>
      match d_alloc d with
      | None =>
          '(f, r) ← root_target ptr;
          fs ← gets frames;
          _ ← some_or (nth_z fs f) TypeMismatch;
          on_frame f (set_froots (λ rs, put_z Slot.uninit rs r v))
      | Some id =>
          width ← scalar_width ty;
          als ← gets allocs;
          a ← ix (nth_z als id);
          if Alloc.size a <? saturating_add32 (d_off d) width then trap Bounds
          else
            bs ← ix (write_bytes (bytes a) (d_off d) (Z.to_nat width) (bits v));
            let ps := if prov v =? PROV_NONE then delete (d_off d) (provs a)
                      else <[d_off d := prov v]> (provs a) in
            modify (set_allocs (<[Z.to_nat id :=
              MkAlloc bs (BitVec.set_range (inits a) (d_off d) width true) ps (kind a)
                (generation a) (state a) (align a)]>))
      end
  end.

(** ** Reading and writing a place *)

Definition element (fr inst site : Z) (seq : Slot) (idx : Z) : M (Z * Z) :=
  '(cell, start, len) ← seq_window seq;
  i ← index_in_bounds fr inst site idx len;
  mret (cell, start + i).

Definition read_place (fr inst site raw : Z) : M Slot :=
  '(root, segs, ty) ← place_shape fr raw;
  match segs with
  | [SegDeref] => read_through fr inst site root ty
  | _ =>
      base ← root_slot fr inst site root;
      match segs with
      | [] => mret base
      | [SegField i] => cell_slot fr inst site (bits base) i
      | [SegIndex idx] =>
          '(cell, i) ← element fr inst site base idx;
          cell_slot fr inst site cell i
      | [SegField f; SegIndex idx] =>
          seq ← cell_slot fr inst site (bits base) f;
          '(cell, i) ← element fr inst site seq idx;
          cell_slot fr inst site cell i
      | _ => error TypeMismatch
      end
  end.

(** [m.cells[cell].slots[i] = v], which panics out of range. *)
Definition put_cell (cell i : Z) (v : Slot) : M unit :=
  cs ← gets cells;
  c ← ix (nth_z cs cell);
  _ ← ix (nth_z (slots c) i);
  modify (set_cells (<[Z.to_nat cell := MkCells (<[Z.to_nat i := v]> (slots c)) (cell_kind c)]>)).

Definition is_deref (segs : list Seg) : bool := match segs with [SegDeref] => true | _ => false end.

Definition write_place (fr inst site raw : Z) (v : Slot) : M unit :=
  '(root, segs, ty) ← place_shape fr raw;
  _ ← (if is_deref segs then mret (Ok ()) else borrow_access (KRoot fr root) ROOT_TAG Write);
  match segs with
  | [] => on_frame fr (set_froots (λ rs, put_z Slot.uninit rs root v))
  | [SegDeref] => write_through fr inst site root ty v
  | [SegField i] =>
      base ← root_slot fr inst site root;
      cs ← gets cells;
      c ← some_or (nth_z cs (bits base)) TypeMismatch;
      _ ← some_or (nth_z (slots c) i) TypeMismatch;
      put_cell (bits base) i v
  | [SegIndex idx] =>
      base ← root_slot fr inst site root;
      '(cell, i) ← element fr inst site base idx;
      put_cell cell i v
  | [SegField f; SegIndex idx] =>
      base ← root_slot fr inst site root;
      cs ← gets cells;
      seq ← some_or (c ← nth_z cs (bits base); nth_z (slots c) f) TypeMismatch;
      '(cell, i) ← element fr inst site seq idx;
      put_cell cell i v
  | _ => error TypeMismatch
  end.
End place.

(** * Executing one instruction

    fors-interp/src/exec.rs, [exec_inst] and what it calls: arithmetic on
    slots, aggregates, slices and reductions, calls, the intrinsic doors,
    moves and borrows, the heap and the arenas. *)

(** ** Reductions over slots, fors-interp/src/reduce.rs *)

Definition ReduceOp_apply (o : InterpReduce.ReduceOp) (a b : Slot) : res (result TrapKind Slot) :=
  match InterpReduce.apply o (bits a) (bits b) with
  | Done (Ok v) => Done (Ok (Slot.val v))
  | Done (Err k) => Done (Err k)
  | Panic => Panic
  | OutOfFuel => OutOfFuel
  end.

(** The closure, which captures nothing. *)
Definition apply_slots (o : InterpReduce.ReduceOp) (a b : Slot) : call unit TrapKind Slot := λ s,
  (s, ReduceOp_apply o a b).

Definition reduce_run (es : list Slot) (b l : Z) (o : InterpReduce.ReduceOp) :
    res (result TrapKind (option Slot)) :=
  tree ← reduce_tree (length es) (Z.to_nat b) (Z.to_nat l);
  (reduce_eval es (apply_slots o) tree ()).2.

(** ** Numbers as text *)
Definition decimal (v : Z) : list Z := string_bytes (pretty (Z.to_N v)).

Section exec.
Context (prog : Program) (tys : TyStore) (host : HostEnv) (world : HostWorld).

(** ** Operands *)

Definition operand (fr inst : Z) (row : InstRow) (raw : Z) : M Slot :=
  val_operand prog fr inst (i_site row) raw.

Definition val_ty (fr inst raw : Z) : M Z :=
  d ← decl_of prog fr;
  r ← some_or (nth_z (vals d) raw) (DanglingOperand inst raw);
  mret (v_ty r).

Definition result_ty (fr inst : Z) (dest : option Z) : M Z :=
  match dest with Some v => val_ty fr inst v | None => error TypeMismatch end.

Definition is_def (inst : Z) (r : ValRow) : bool :=
  match val_def r with DefInst i => i =? inst | DefParam _ => false end.
Definition result_of (fr inst : Z) : M (option Z) :=
  d ← decl_of prog fr; mret (position (is_def inst) (vals d)).

Definition find_string (fr c : Z) : M (list Z) :=
  f ← fn_of prog fr;
  r ← some_or (List.find (λ r, r.1 =? c) (fn_strings f)) (MissingString c);
  mret r.2.

Definition decl_intrinsic_name (fr sym : Z) : M string :=
  f ← fn_of prog fr;
  r ← some_or (List.find (λ r, r.1 =? sym) (fn_intrinsics f)) (UnknownIntrinsic "symbol");
  mret r.2.

(** ** Arithmetic *)

Definition unchecked_overflow_check (fr inst site : Z) (mode : ArithMode)
    (trapping : result TrapKind Z) : M unit :=
  match mode, trapping with
  | Unchecked, Err Overflow => ub prog fr inst site UncheckedOverflow
  | _, _ => mret ()
  end.

Definition exec_binop (fr inst : Z) (row : InstRow) (dest : option Z) (name : string)
    (mode : ArithMode) : M unit :=
  a ← operand fr inst row (i_a row);
  b ← operand fr inst row (i_b row);
  ty ← val_ty fr inst (i_a row);
  k ← int_kind tys ty;
  r ← ok_trap (int_binop name mode (bits a) (bits b) k);
  _ ← unchecked_overflow_check fr inst (i_site row) mode (int_binop name Trap (bits a) (bits b) k);
  define dest fr (Slot.val r).

Definition exec_neg (fr inst : Z) (row : InstRow) (dest : option Z) (mode : ArithMode) : M unit :=
  a ← operand fr inst row (i_a row);
  ty ← val_ty fr inst (i_a row);
  k ← int_kind tys ty;
  r ← ok_trap (int_neg mode (bits a) k);
  _ ← unchecked_overflow_check fr inst (i_site row) mode (int_neg Trap (bits a) k);
  define dest fr (Slot.val r).

Definition frem (k : FloatKind) (a b : f64) : M Z :=
  or_fuel (match k with
         | F32 => frem_f32 (f32_to_bits (to_f32 a)) (f32_to_bits (to_f32 b))
         | F64 => frem_f64 (f64_to_bits a) (f64_to_bits b)
         end).

Definition exec_float (fr inst : Z) (row : InstRow) (dest : option Z)
    (f : FloatKind → f64 → f64 → M Z) : M unit :=
  a ← operand fr inst row (i_a row);
  b ← operand fr inst row (i_b row);
  ty ← val_ty fr inst (i_a row);
  k ← float_kind tys ty;
  r ← f k (float_from_bits k (bits a)) (float_from_bits k (bits b));
  define dest fr (Slot.val r).

Definition exec_fneg (fr inst : Z) (row : InstRow) (dest : option Z) : M unit :=
  a ← operand fr inst row (i_a row);
  ty ← val_ty fr inst (i_a row);
  k ← float_kind tys ty;
  define dest fr (Slot.val (fneg (float_from_bits k (bits a)) k)).

Definition exec_icmp (fr inst : Z) (row : InstRow) (dest : option Z) (p : CmpPred.CmpPred) : M unit :=
  a ← operand fr inst row (i_a row);
  b ← operand fr inst row (i_b row);
  ty ← val_ty fr inst (i_a row);
  raw ← is_raw_ptr tys ty;
  if raw : bool then
    ia ← alloc_identity a;
    ib ← alloc_identity b;
    '(x, y) ← (if ia =? ib then mret (bits a, bits b)
               else x ← observe_address a; y ← observe_address b; mret (x, y));
    define dest fr (Slot.val (b2z (icmp x y U64 p)))
  else
    k ← num_kind tys ty;
    r ← match k with
        | Some (Int k) => mret (icmp (bits a) (bits b) k p)
        | None =>
            b8 ← is_bool tys ty;
            if b8 : bool then mret (icmp (bits a) (bits b) U8 p) else error TypeMismatch
        | Some (Float _) => error TypeMismatch
        end;
    define dest fr (Slot.val (b2z r)).

Definition exec_fcmp (fr inst : Z) (row : InstRow) (dest : option Z) (p : CmpPred.CmpPred) : M unit :=
  a ← operand fr inst row (i_a row);
  b ← operand fr inst row (i_b row);
  ty ← val_ty fr inst (i_a row);
  k ← float_kind tys ty;
  define dest fr (Slot.val (b2z (fcmp (float_from_bits k (bits a)) (float_from_bits k (bits b)) p))).

Definition exec_logic (fr inst : Z) (row : InstRow) (dest : option Z) (f : Z → Z → Z) : M unit :=
  a ← operand fr inst row (i_a row);
  b ← operand fr inst row (i_b row);
  define dest fr (Slot.val (f (bits a) (bits b))).

Definition exec_not (fr inst : Z) (row : InstRow) (dest : option Z) : M unit :=
  a ← operand fr inst row (i_a row);
  ty ← val_ty fr inst (i_a row);
  b ← is_bool tys ty;
  r ← (if b : bool then mret (b2z (bits a =? 0))
       else k ← int_kind tys ty; mret (Kind.narrow k (2 ^ 64 - 1 - bits a)));
  define dest fr (Slot.val r).

Definition convert (op : Op.Op) (v : Z) (from to : NumKind) : M Z :=
  match op with
  | Op.ConvChecked => ok_trap (conv_checked v from to)
  | Op.ConvWrap => or_fuel (conv_wrap v from to)
  | Op.ConvSat => or_fuel (conv_sat v from to)
  | _ => or_fuel (conv_trunc v from to)
  end.

Definition exec_conv (fr inst : Z) (row : InstRow) (dest : option Z) : M unit :=
  a ← operand fr inst row (i_a row);
  from_ty ← val_ty fr inst (i_a row);
  to_ty ← result_ty fr inst dest;
  raw ← is_raw_ptr tys from_ty;
  r ← (if raw : bool then
         addr ← observe_address a;
         to ← num_kind_of tys to_ty;
         convert (i_op row) addr (Int U64) to
       else
         from ← num_kind_of tys from_ty;
         to ← num_kind_of tys to_ty;
         convert (i_op row) (bits a) from to);
  define dest fr (Slot.val r).

(** ** Aggregates *)

Definition spilled (fr inst : Z) (r : Z * Z) : M (list Slot) :=
  d ← decl_of prog fr; mapMM (slot fr inst) (args (insts d) r).

Definition exec_agg (fr inst : Z) (row : InstRow) (dest : option Z) : M unit :=
  ss ← spilled fr inst (i_a row, i_b row);
  id ← new_cells (Cells_agg ss);
  define dest fr (Slot.val id).

Definition exec_variant_new (fr inst : Z) (row : InstRow) (dest : option Z) : M unit :=
  d ← decl_of prog fr;
  if bool_decide (args (insts d) (i_a row, i_b row) = []) then error TypeMismatch
  else exec_agg fr inst row dest.

(** [field], [discr] and [payload]: component [at_] of the operand's cell. *)
Definition exec_component (fr inst : Z) (row : InstRow) (dest : option Z) (at_ : Z) : M unit :=
  base ← operand fr inst row (i_a row);
  s ← cell_slot prog fr inst (i_site row) (bits base) at_;
  define dest fr s.

Definition exec_slice_range (fr inst : Z) (row : InstRow) (dest : option Z) : M unit :=
  base ← operand fr inst row (i_a row);
  lo ← operand fr inst row (i_b row);
  hi ← operand fr inst row (i_c row);
  '(cell, start, base_len) ← seq_window base;
  if (bits hi <? bits lo) || (base_len <? bits hi) then trap Bounds
  else
    id ← new_cells (MkCells [Slot.val cell; Slot.val (start + bits lo);
                             Slot.val (bits hi - bits lo)] SliceDesc);
    define dest fr (Slot.val id).

Definition exec_index (fr inst : Z) (row : InstRow) (dest : option Z) : M unit :=
  base ← operand fr inst row (i_a row);
  idx ← operand fr inst row (i_b row);
  '(cell, start, len) ← seq_window base;
  if len <=? bits idx then trap Bounds
  else
    s ← cell_slot prog fr inst (i_site row) cell (start + bits idx);
    define dest fr s.

Fixpoint charge_n (n : nat) : M unit :=
  match n with O => mret () | S n => _ ← charge; charge_n n end.

Definition exec_reduce (fr inst : Z) (row : InstRow) (dest : option Z) : M unit :=
  d ← decl_of prog fr;
  red ← some_or (nth_z (reduces (insts d)) (i_a row)) TypeMismatch;
  op_sym ← match red_op red with CIntrinsic s => mret s | _ => error TypeMismatch end;
  xs ← slot fr inst (red_xs red);
  '(base, start, n) ← seq_window xs;
  if n =? 0 then
    if red_identity red =? ABSENT then trap EmptyReduce
    else e ← slot fr inst (red_identity red); define dest fr e
  else
    cs ← gets cells;
    cell ← some_or (nth_z cs base) TypeMismatch;
    es ← (if len_z (slots cell) <? start + n then error TypeMismatch
          else mret (take (Z.to_nat n) (drop (Z.to_nat start) (slots cell))));
    kind ← num_kind_of tys (i_ty row);
    name ← decl_intrinsic_name fr op_sym;
    op ← some_or (InterpReduce.resolve name kind) (UnknownIntrinsic name);
    _ ← charge_n (op_applications (Z.to_nat (wrap 32 n)));
    r ← call_res (reduce_run es (red_b red) (red_l red) op);
    r ← ok_trap r;
    r ← some_or r TypeMismatch;
    define dest fr r.

(** ** Calls *)

Fixpoint insert_asc (x : Z * Z) (l : list (Z * Z)) : list (Z * Z) :=
  match l with
  | [] => [x]
  | y :: l' =>
      if (x.1 <? y.1) || ((x.1 =? y.1) && (x.2 <=? y.2)) then x :: l else y :: insert_asc x l'
  end.

(** The parameters of a declaration by ordinal, with their value ids. *)
Definition params_of (d : DeclFmir) : list (Z * Z) :=
  foldr insert_asc [] (omap (λ '(i, r), match val_def r with
                                        | DefParam o => Some (o, Z.of_nat i)
                                        | DefInst _ => None
                                        end) (imap pair (vals d))).

Definition enter (fi : Z) (dest : option Z) (argv : list Slot) : M unit :=
  fs ← gets frames;
  if MAX_FRAMES <=? len_z fs then error StackOverflow
  else
    f ← func_at prog fi;
    let d := fn_decl f in
    let given := imap (λ i p, (p.2, default Slot.unit (argv !! i))) (params_of d) in
    let vs := foldl (λ vs '(v, s), <[Z.to_nat v := s]> vs)
                (replicate (length (vals d)) Slot.uninit) given in
    sr ← gets next_serial;
    _ ← modify (set_pending (λ p, p ++ [dest]));
    _ ← modify (set_next_serial (λ n, wrap 32 (n + 1)));
    modify (set_frames (λ fs,
      fs ++ [MkFrame fi sr vs given.*2 (entry d) 0 [] false NO_TY])).

Definition exec_call (fr inst : Z) (row : InstRow) (dest : option Z) : M unit :=
  d ← decl_of prog fr;
  crow ← some_or (nth_z (calls (insts d)) (i_a row)) TypeMismatch;
  key ← match callee crow with Direct k => mret k | _ => error TypeMismatch end;
  argv ← spilled fr inst (call_args crow);
  match position (λ f, decl (fn_decl f) =? key) (fns prog) with
  | Some t => enter t dest argv
  | None =>
      c ← gets ct;
      f ← fn_of prog fr;
      match c ≫= λ c, List.find (λ e, e.1 =? key) (externs c) with
      | Some e => error (ComptimeError (SealedCall e.2 (fn_name f)))
      | None => error (UnknownCallee key)
      end
  end.

(** ** Intrinsic doors *)

Definition gate_intrinsic (fr site : Z) (name : string) : M Door :=
  r ← some_or (Intrinsic.lookup name) (UnknownIntrinsic name);
  c ← gets ct;
  match c with
  | Some _ =>
      if bool_decide (row_comptime r = Forbidden) then
        f ← fn_of prog fr;
        s ← site_of prog fr site;
        error (ComptimeError (ForbiddenIntrinsic name (fn_name f) s))
      else mret (row_door r)
  | None =>
      if bool_decide (row_run r = Forbidden) then error (NotAtRunTime name)
      else mret (row_door r)
  end.

Definition arg_or_unit (argv : list Slot) (i : nat) : Slot := default Slot.unit (argv !! i).

Definition host_operand (argv : list Slot) (i : nat) : M Slot := some_or (argv !! i) CapabilityError.

Definition cap_receiver (recv : Slot) (want : RootCap) : M unit :=
  cs ← gets cells;
  match nth_z cs (bits recv) with
  | Some c =>
      if bool_decide (cell_kind c = CapCell want) && init recv && live recv then mret ()
      else error CapabilityError
  | None => error CapabilityError
  end.

(** [host_write] to an optional descriptor: did it arrive? *)
Definition arrives (fd : option Z) (b : list Z) : M bool :=
  n ← gets steps;
  mret (match fd with Some fd => world_write world n fd b | None => true end).

Definition write_stdout (b : list Z) : M unit :=
  ok ← arrives (stdout_fd host) b;
  if ok : bool then modify (set_stdout (λ o, o ++ b)) else modify (set_stdout_latched (λ _, true)).

Definition write_stderr (b : list Z) : M unit :=
  ok ← arrives (stderr_fd host) b;
  if ok : bool then modify (set_stderr (λ o, o ++ b)) else mret ().

(** A question to the oracle. *)
Definition ask {A} (f : Oracle → asked A) : M A :=
  o ← gets oracle;
  let '(o, r) := f o in
  _ ← modify (set_oracle (λ _, o));
  match r with Ok a => mret a | Err e => error (OracleFault e) end.

Definition host_door (argv : list Slot) (cap : RootCap) (owner : string)
    (note : HostCounters → HostCounters) : M unit :=
  _ ← modify (set_oracle (Oracle.count note));
  recv ← host_operand argv 0;
  _ ← cap_receiver recv cap;
  op ← host_operand argv 1;
  b ← str_bytes op;
  error (HostRefused owner b).

Definition input_read (fr : Z) (argv : list Slot) : M (list Z) :=
  p ← host_operand argv 0;
  path ← str_bytes p;
  f ← fn_of prog fr;
  c ← gets ct;
  c ← some_or c (NotAtRunTime (door_name INPUT_READ));
  i ← some_or (List.find (λ r, bool_decide (r.1 = path)) (inputs c))
        (ComptimeError (UndeclaredInput path (fn_name f) (0, 0)));
  _ ← modify (set_ct (fmap (λ c, MkCt (meter c) (inputs c) (externs c) (observed_address c)
        (if bool_decide (path ∈ inputs_read c) then inputs_read c else inputs_read c ++ [path]))));
  mret i.2.

Definition exec_intrinsic (fr : Z) (dest : option Z) (d : Door) (argv : list Slot) : M unit :=
  match d with
  | STDOUT_WRITE_LINE =>
      b ← str_bytes (arg_or_unit argv 1);
      _ ← write_stdout (b ++ [10]);
      define dest fr Slot.unit
  | STDERR_WRITE_LINE =>
      b ← str_bytes (arg_or_unit argv 1);
      _ ← write_stderr (b ++ [10]);
      define dest fr Slot.unit
  | STDOUT_WRITE_UINT =>
      _ ← write_stdout (decimal (bits (arg_or_unit argv 1)));
      define dest fr Slot.unit
  | STR_BYTE_LEN =>
      b ← str_bytes (arg_or_unit argv 0);
      define dest fr (Slot.val (len_z b))
  | STR_BYTE_AT =>
      b ← str_bytes (arg_or_unit argv 0);
      match nth_z b (bits (arg_or_unit argv 1)) with
      | None => trap Bounds
      | Some x => define dest fr (Slot.val x)
      end
  | STR_BYTE_SLICE =>
      let start := bits (arg_or_unit argv 1) in
      let stop := bits (arg_or_unit argv 2) in
      b ← str_bytes (arg_or_unit argv 0);
      if (stop <? start) || (len_z b <? stop) then trap Bounds
      else
        id ← new_str (take (Z.to_nat (stop - start)) (drop (Z.to_nat start) b));
        define dest fr (Slot.val id)
  | SEQ_LEN =>
      '(_, _, len) ← seq_window (arg_or_unit argv 0);
      define dest fr (Slot.val len)
  | STR_EQ =>
      x ← str_bytes (arg_or_unit argv 0);
      y ← str_bytes (arg_or_unit argv 1);
      define dest fr (Slot.val (b2z (bool_decide (x = y))))
  | AGG_UNINIT =>
      id ← new_cells (Cells_agg (replicate (Z.to_nat (bits (arg_or_unit argv 0))) Slot.uninit));
      define dest fr (Slot.val id)
  | CLOCK_MONO =>
      recv ← host_operand argv 0;
      _ ← cap_receiver recv Clock;
      v ← ask (Oracle.clock_mono world);
      define dest fr (Slot.val v)
  | CLOCK_WALL =>
      recv ← host_operand argv 0;
      _ ← cap_receiver recv Clock;
      v ← ask (Oracle.clock_wall world);
      define dest fr (Slot.val (wrap 64 v))
  | CLOCK_SLEEP =>
      recv ← host_operand argv 0;
      _ ← cap_receiver recv Clock;
      _ ← host_operand argv 1;
      define dest fr Slot.unit
  | ENTROPY_U64 =>
      recv ← host_operand argv 0;
      _ ← cap_receiver recv Rng;
      v ← ask (Oracle.entropy_u64 world);
      define dest fr (Slot.val v)
  | FS_DOOR => host_door argv Dir "std.fs.Dir" Oracle.fs_call
  | NET_DOOR => host_door argv Net "std.net.Net" Oracle.net_call
  | INPUT_READ =>
      b ← input_read fr argv;
      id ← new_str b;
      define dest fr (Slot.val id)
  end.

Definition exec_intrinsic_call (fr inst : Z) (row : InstRow) (dest : option Z) : M unit :=
  d ← decl_of prog fr;
  crow ← some_or (nth_z (calls (insts d)) (i_a row)) TypeMismatch;
  sym ← match callee crow with CIntrinsic s => mret s | _ => error TypeMismatch end;
  name ← decl_intrinsic_name fr sym;
  argv ← spilled fr inst (call_args crow);
  door ← gate_intrinsic fr (i_site row) name;
  exec_intrinsic fr dest door argv.

(** ** Moves and borrows *)

Definition exec_move_from (fr inst : Z) (row : InstRow) (dest : option Z) : M unit :=
  s ← read_place prog tys fr inst (i_site row) (i_a row);
  '(root, segs, _) ← place_shape prog fr (i_a row);
  _ ← (match segs with
       | [] => on_frame fr (set_froots (λ rs,
                 match nth_z rs root with
                 | Some x => <[Z.to_nat root := Slot.moved_out x]> rs
                 | None => rs
                 end))
       | _ => mret ()
       end);
  define dest fr s.

Inductive BorrowMode : Type := BShared | BMut | BOut.

Definition exec_borrow (fr : Z) (row : InstRow) (dest : option Z) (mode : BorrowMode) : M unit :=
  '(root, segs, _) ← place_shape prog fr (i_a row);
  match segs with
  | _ :: _ => error TypeMismatch
  | [] =>
      t ← fresh_tag;
      _ ← on_borrow_stack (KRoot fr root) (λ s,
            match mode with
            | BShared => BorrowStack.push_shared s t
            | _ => BorrowStack.push_unique s t
            end);
      _ ← (match mode with
           | BOut => on_frame fr (set_froots (λ rs, put_z Slot.uninit rs root Slot.uninit))
           | _ => mret ()
           end);
      f ← frame fr;
      p ← push_prov (TRoot fr (serial f) root) t;
      define dest fr (Slot.ptr 0 p)
  end.

Definition exec_init (fr inst : Z) (row : InstRow) : M unit :=
  v ← operand fr inst row (i_b row);
  write_place prog tys fr inst (i_site row) (i_a row) v.

(** ** The heap *)

(** A new object with its own borrow stack; the pointer's provenance row. *)
Definition push_alloc (a : Alloc) (target : Z → MemTarget) : M Z :=
  id ← gets (λ m, wrap 32 (len_z (allocs m)));
  _ ← modify (set_allocs (λ l, l ++ [a]));
  t ← fresh_tag;
  _ ← modify (set_borrows (<[KAlloc id := BorrowStack.rooted t]>));
  push_prov (target id) t.

Definition exec_alloc (fr inst : Z) (row : InstRow) (dest : option Z) : M unit :=
  sz ← operand fr inst row (i_a row);
  al ← operand fr inst row (i_b row);
  let size := wrap 32 (bits sz) in
  _ ← charge_bytes size;
  f ← frame fr;
  owner ← allocator_at prog fr (fblock f);
  p ← push_alloc (Alloc.new size (Z.max (wrap 32 (bits al)) 1) (Heap owner) 0) TAlloc;
  define dest fr (Slot.ptr 0 p).

Definition exec_free (fr inst : Z) (row : InstRow) (dest : option Z) : M unit :=
  ptr ← operand fr inst row (i_a row);
  r ← prov_of ptr;
  match target r with
  | TAlloc id =>
      _ ← check_alloc_live prog fr inst (i_site row) id;
      f ← frame fr;
      freeing ← allocator_at prog fr (fblock f);
      als ← gets allocs;
      a ← ix (nth_z als id);
      if bool_decide (kind a = Heap freeing) then
        _ ← modify (set_allocs (<[Z.to_nat id := Alloc.set_state a (Freed (i_site row))]>));
        define dest fr Slot.unit
      else ub prog fr inst (i_site row) AllocatorMismatch
  | _ => ub prog fr inst (i_site row) AllocatorMismatch
  end.

(** ** Arenas *)

Definition exec_region_enter (fr : Z) (row : InstRow) (dest : option Z) : M unit :=
  d ← decl_of prog fr;
  let region := i_a row in
  match region_kind <$> nth_z (regions d) region with
  | Some WithArena =>
      arena ← gets (λ m, wrap 32 (len_z (arenas m)));
      data ← gets (λ m, wrap 32 (len_z (allocs m)));
      p ← push_alloc (Alloc.new 0 16 (Arena arena) 0) (TArena arena);
      _ ← modify (set_arenas (λ l, l ++ [ArenaVal.new arena data (2 ^ 64 - 1)]));
      _ ← modify (set_arena_region (λ l, l ++ [region]));
      define dest fr (Slot.ptr 0 p)
  | Some _ => define dest fr Slot.unit
  | None => error TypeMismatch
  end.

(** [rposition], from the last arena down. *)
Fixpoint live_arena (als : list Alloc) (region : Z) (rows : list (ArenaVal * Z)) : M (option ArenaVal) :=
  match rows with
  | [] => mret None
  | (a, r) :: rows =>
      if r =? region then
        al ← ix (nth_z als (data a));
        if bool_decide (state al = Live) then mret (Some a) else live_arena als region rows
      else live_arena als region rows
  end.

Definition exec_region_exit (fr : Z) (row : InstRow) (dest : option Z) : M unit :=
  d ← decl_of prog fr;
  let region := i_a row in
  _ ← (if bool_decide (region_kind <$> nth_z (regions d) region = Some WithArena) then
         als ← gets allocs;
         rows ← gets (λ m, rev (zip (arenas m) (arena_region m)));
         a ← live_arena als region rows;
         a ← some_or a TypeMismatch;
         al ← ix (nth_z als (data a));
         modify (set_allocs (<[Z.to_nat (data a) := Alloc.set_state al (Reset (i_site row))]>))
       else mret ());
  define dest fr Slot.unit.

Definition arena_target (p : ProvRow) : M (Z * Z) :=
  match target p with TArena a d => mret (a, d) | _ => error TypeMismatch end.

Definition exec_arena_alloc (fr inst : Z) (row : InstRow) (dest : option Z) : M unit :=
  arena_slot ← operand fr inst row (i_a row);
  sz ← operand fr inst row (i_b row);
  let size := wrap 32 (bits sz) in
  pr ← prov_of arena_slot;
  '(arena, data) ← arena_target pr;
  _ ← check_arena_live data;
  _ ← charge_bytes size;
  ars ← gets arenas;
  a ← ix (nth_z ars arena);
  let stop := bump a + size in
  if 2 ^ 32 <=? stop then error Unrepresentable
  else
    _ ← modify (set_arenas (<[Z.to_nat arena := ArenaVal.set_bump a stop]>));
    als ← gets allocs;
    al ← ix (nth_z als data);
    _ ← modify (set_allocs (<[Z.to_nat data := Alloc.grow_to al stop]>));
    p ← push_prov (TArena arena data) (tag pr);
    define dest fr (Slot.ptr (RefVal.pack (arena_gen a) (stop - size)) p).

Definition exec_arena_deref (fr inst : Z) (row : InstRow) (dest : option Z) : M unit :=
  r ← operand fr inst row (i_a row);
  d ← resolve_deref prog fr inst (i_site row) r;
  id ← some_or (d_alloc d) TypeMismatch;
  p ← push_prov (TAlloc id) (d_tag d);
  define dest fr (Slot.ptr (d_off d) p).

Definition exec_arena_reset (fr inst : Z) (row : InstRow) (dest : option Z) : M unit :=
  arena_slot ← operand fr inst row (i_a row);
  pr ← prov_of arena_slot;
  '(arena, data) ← arena_target pr;
  _ ← check_arena_live data;
  ars ← gets arenas;
  a ← ix (nth_z ars arena);
  a' ← ok_trap (ArenaVal.reset a);
  _ ← modify (set_arenas (<[Z.to_nat arena := a']>));
  als ← gets allocs;
  al ← ix (nth_z als data);
  _ ← modify (set_allocs (<[Z.to_nat data := Alloc.forget al]>));
  define dest fr Slot.unit.

Definition exec_check (fr inst : Z) (row : InstRow) (dest : option Z) (p : Policy) : M unit :=
  _ ← (match p with
       | Runtime =>
           c ← operand fr inst row (i_a row);
           if bits c =? 0 then trap Contract else mret ()
       | Off => mret ()
       end);
  define dest fr Slot.unit.

(** ** The dispatch *)

Definition exec_const_str (fr : Z) (row : InstRow) (dest : option Z) : M unit :=
  b ← find_string fr (i_a row);
  id ← new_str b;
  define dest fr (Slot.val id).

Definition exec_inst (fr inst : Z) (row : InstRow) : M unit :=
  dest ← result_of fr inst;
  match i_op row with
  | Op.ConstInt | Op.ConstFloat =>
      define dest fr (Slot.val (Z.lor (Z.shiftl (i_b row) 32) (i_a row)))
  | Op.ConstBool => define dest fr (Slot.val (b2z (negb (i_a row =? 0))))
  | Op.ConstUnit => define dest fr Slot.unit
  | Op.ConstFn => define dest fr (Slot.val (i_a row))
  | Op.ConstStr => exec_const_str fr row dest
  | Op.Add m => exec_binop fr inst row dest "add" m
  | Op.Sub m => exec_binop fr inst row dest "sub" m
  | Op.Mul m => exec_binop fr inst row dest "mul" m
  | Op.Div m => exec_binop fr inst row dest "div" m
  | Op.Rem m => exec_binop fr inst row dest "rem" m
  | Op.Shl m => exec_binop fr inst row dest "shl" m
  | Op.Shr m => exec_binop fr inst row dest "shr" m
  | Op.Neg m => exec_neg fr inst row dest m
  | Op.Fadd _ => exec_float fr inst row dest (λ k a b, mret (fadd a b k))
  | Op.Fsub _ => exec_float fr inst row dest (λ k a b, mret (fsub a b k))
  | Op.Fmul _ => exec_float fr inst row dest (λ k a b, mret (fmul a b k))
  | Op.Fdiv _ => exec_float fr inst row dest (λ k a b, mret (fdiv a b k))
  | Op.Frem _ => exec_float fr inst row dest frem
  | Op.Fneg _ => exec_fneg fr inst row dest
  | Op.Icmp p => exec_icmp fr inst row dest p
  | Op.Fcmp p => exec_fcmp fr inst row dest p
  | Op.And => exec_logic fr inst row dest Z.land
  | Op.Or => exec_logic fr inst row dest Z.lor
  | Op.Xor => exec_logic fr inst row dest Z.lxor
  | Op.Not => exec_not fr inst row dest
  | Op.ConvChecked | Op.ConvWrap | Op.ConvSat | Op.ConvTrunc => exec_conv fr inst row dest
  | Op.AggNew | Op.TupleNew => exec_agg fr inst row dest
  | Op.Field => exec_component fr inst row dest (i_b row)
  | Op.VariantNew => exec_variant_new fr inst row dest
  | Op.Discr => exec_component fr inst row dest 0
  | Op.Payload => exec_component fr inst row dest (i_b row + 1)
  | Op.SliceRange => exec_slice_range fr inst row dest
  | Op.Index => exec_index fr inst row dest
  | Op.ReduceTree => exec_reduce fr inst row dest
  | Op.CallDirect => exec_call fr inst row dest
  | Op.Intrinsic => exec_intrinsic_call fr inst row dest
  | Op.CopyFrom => s ← read_place prog tys fr inst (i_site row) (i_a row); define dest fr s
  | Op.MoveFrom => exec_move_from fr inst row dest
  | Op.Borrow => exec_borrow fr row dest BShared
  | Op.BorrowMut => exec_borrow fr row dest BMut
  | Op.BorrowOut => exec_borrow fr row dest BOut
  | Op.Init => exec_init fr inst row
  | Op.Alloc => exec_alloc fr inst row dest
  | Op.Free => exec_free fr inst row dest
  | Op.RegionEnter => exec_region_enter fr row dest
  | Op.RegionExit => exec_region_exit fr row dest
  | Op.ArenaAlloc => exec_arena_alloc fr inst row dest
  | Op.ArenaDeref => exec_arena_deref fr inst row dest
  | Op.ArenaReset => exec_arena_reset fr inst row dest
  | Op.CheckPre p | Op.CheckPost p | Op.CheckInv p => exec_check fr inst row dest p
  | op => error (UnsupportedOp op)
  end.
End exec.
