(* ===== verification/InterpRun.v ===== *)
(** * Running a program

    fors-interp/src/render.rs: the line an error leaving [main] writes, by the
    static type of the error; the recursion has the code's own bound on its
    depth as fuel.  Then exec.rs: terminators, the exit sequence, the dispatch
    loop, the entry shim and comptime runs. *)

From Stdlib Require Import String.
From S2P Require Import Prelude InterpArith InterpFloat Reduce FmirData InterpState InterpHost InterpMachine InterpExec.
From stdpp Require Import gmap pretty.
Local Open Scope Z_scope.

Definition RENDER_DEPTH_MAX : nat := 64.

Definition text (s : string) : list Z := string_bytes s.

(** The pieces with a separator between. *)
Fixpoint join_bytes (sep : list Z) (l : list (list Z)) : list Z :=
  match l with
  | [] => []
  | [x] => x
  | x :: l => x ++ sep ++ join_bytes sep l
  end.

(** [to_string] of an integer. *)
Definition signed_decimal (v : Z) : list Z :=
  if v <? 0 then 45 :: string_bytes (pretty (Z.to_N (- v))) else string_bytes (pretty (Z.to_N v)).

Definition escape_byte (b : Z) : list Z :=
  if b =? 92 then [92; 92]
  else if b =? 34 then [92; 34]
  else if b =? 10 then [92; 110]
  else if b =? 13 then [92; 114]
  else if b =? 9 then [92; 116]
  else [b].

Section render.
Context (prog : Program) (tys : TyStore).

Definition cell_of (handle : Z) : M (list Slot) :=
  cs ← gets cells; c ← some_or (nth_z cs handle) RenderError; mret (slots c).
Definition component (cell : list Slot) (i : nat) : M Slot := some_or (cell !! i) RenderError.

Definition render_prim (v : Slot) (bare : Z) : M (list Z) :=
  a ← ty_a_of tys bare;
  p ← some_or (PrimKind_from_u8 (wrap 8 a)) RenderError;
  match p with
  | PrimKind.Bool => mret (text (if negb (bits v =? 0) then "true" else "false"))
  | PrimKind.Str =>
      ss ← gets strs;
      b ← some_or (nth_z ss (bits v)) RenderError;
      mret ([34] ++ flat_map escape_byte b ++ [34])
  | _ =>
      mret (match Kind.from_prim p with
            | Some k =>
                if Kind.is_signed k then signed_decimal (Kind.as_signed k (bits v))
                else signed_decimal (Kind.as_unsigned k (bits v))
            | None => text ".."
            end)
  end.

Fixpoint render_into (fuel : nat) (v : Slot) (ty : Z) : M (list Z) :=
  match fuel with
  | O => error RenderError
  | S fuel =>
      bare ← unqual tys ty;
      if ty_len tys <=? bare then error RenderError
      else
        tag ← tag_of tys bare;
        let named := if bool_decide (tag = TyNominal)
                     then match TypeNames.get (names prog) bare with
                          | Some n => Some n
                          | None => TypeNames.get (names prog) ty
                          end
                     else None in
        let field := λ '(n, b), text n ++ text ": " ++ b in
        match named with
        | Some (NEnum path variants) =>
            cell ← cell_of (bits v);
            d ← component cell 0;
            w ← some_or (List.find (λ w, vn_discr w =? bits d) variants) RenderError;
            let head := text path ++ text "." ++ text (vn_name w) in
            match vn_payload w with
            | PUnit => mret head
            | PTuple parts =>
                bs ← mapMM (λ '(i, t), s ← component cell (S i); render_into fuel s t)
                       (imap pair parts);
                mret (head ++ text "(" ++ join_bytes (text ", ") bs ++ text ")")
            | PFields fields =>
                bs ← mapMM (λ '(i, (n, t)), s ← component cell (S i);
                                            b ← render_into fuel s t; mret (field (n, b)))
                       (imap pair fields);
                mret (head ++ text "{ " ++ join_bytes (text ", ") bs ++ text " }")
            end
        | Some (NStruct path fields) =>
            cell ← cell_of (bits v);
            bs ← mapMM (λ '(i, (n, t)), s ← component cell i;
                                        b ← render_into fuel s t; mret (field (n, b)))
                   (imap pair fields);
            mret (text path ++ text "{ " ++ join_bytes (text ", ") bs ++ text " }")
        | None =>
            match tag with
            | TyTuple =>
                parts ← ix (nth_z (ty_args tys) bare);
                cell ← cell_of (bits v);
                bs ← mapMM (λ '(i, t), s ← component cell i; render_into fuel s t)
                       (imap pair parts);
                mret (text "(" ++ join_bytes (text ", ") bs ++ text ")")
            | TyPrim => render_prim v bare
            | TyUnit => mret (text "()")
            | _ => mret (text "..")
            end
        end
  end.

(** Depths [0 .. RENDER_DEPTH_MAX] are allowed. *)
Definition error_line (v : Slot) (ty : Z) : M (list Z) :=
  b ← render_into (S RENDER_DEPTH_MAX) v ty;
  mret (text "error: " ++ b ++ [10]).
End render.

(** * Running a program

    fors-interp/src/exec.rs: terminators, the exit sequence of a scope, the
    dispatch loop from the first frame to the outcome, the entry shim and the
    comptime entry; shim.rs, the exit status.  The loop has fuel; each turn
    charges a step, so one more than the cap is enough. *)

Inductive FrameStep : Type :=
  | Continue | Return (v : Slot) | RaiseStep (e : Slot) | TrapStep (k : TrapKind) (site : Z)
  | UbStep (r : UbReport).

Inductive Exit : Type := ExitReturn | ExitRaise | ExitTrap (k : TrapKind) | ExitUb (c : UbClass).

Record Outcome : Type := MkOutcome {
  exit : Exit; out_stdout : list Z; out_latched : bool; out_site : option (Z * Z);
  out_ub : option UbReport; out_stderr : list Z; out_steps : Z }.

Section run.
Context (prog : Program) (tys : TyStore) (host : HostEnv) (world : HostWorld).

(** ** Transfers *)

Definition goto (fr b : Z) : M unit :=
  d ← decl_of prog fr;
  _ ← some_or (nth_z (blocks d) b) (DanglingBlock b);
  on_frame fr (λ f, set_pc (λ _, 0) (set_fblock (λ _, b) f)).

Definition finish_transfer (fr to : Z) (result : option Slot) (raising : bool) : M FrameStep :=
  if to =? BlockId_NONE then
    let v := default Slot.unit result in
    mret (if raising then RaiseStep v else Return v)
  else _ ← goto fr to; mret Continue.

(** ** The exit sequence *)

(** The first place discharged twice, then the first obligation that is not
    discharged. *)
Fixpoint doubled (seen : list Z) (ds : list DischargeRow) : bool :=
  match ds with
  | [] => false
  | d :: ds => bool_decide (dis_place d ∈ seen) || doubled (seen ++ [dis_place d]) ds
  end.

Definition obligations_of (d : DeclFmir) (leaving : list Z) : list Z :=
  flat_map (λ s, match nth_z (scopes d) s with
                 | Some row => slice_z (obligations d) (scope_obligations row)
                 | None => []
                 end) leaving.

Definition check_obligations (fr : Z) (run : ExitRun) (leaving : list Z)
    (discharges : list DischargeRow) : M unit :=
  d ← decl_of prog fr;
  row ← ix (nth_z (edge_rows (exits d)) (edge run));
  let site := match nth_z (blocks d) (from row) with
              | Some b => i_site (term b)
              | None => 0
              end in
  if doubled [] discharges then ub prog fr TERMINATOR site DoubleConsume
  else if forallb (λ p, bool_decide (p ∈ dis_place <$> discharges)) (obligations_of d leaving)
  then mret ()
  else ub prog fr TERMINATOR site LinearLeak.

(** The body the innermost exit runs next. *)
Definition next_body (d : DeclFmir) (run : ExitRun) : M (option Z) :=
  row ← ix (nth_z (edge_rows (exits d)) (edge run));
  match nth_z (slice_z (pending_list (exits d)) (edge_pending row)) (done run) with
  | None => mret None
  | Some id =>
      match slice_z (defers d) (id, wrap 32 (id + 1)) with
      | [] => error MalformedExitEdge
      | r :: _ =>
          if bool_decide (defer_kind r = ErrDefer) && bool_decide (exit_kind row = Normal)
          then error MalformedExitEdge
          else mret (Some (body r))
      end
  end.

(** [moved_out] on a root that exists. *)
Definition drop_root (rs : list Slot) (r : Z) : list Slot :=
  match nth_z rs r with Some s => <[Z.to_nat r := Slot.moved_out s]> rs | None => rs end.

Fixpoint drop_places (fr : Z) (ps : list Z) : M unit :=
  match ps with
  | [] => mret ()
  | p :: ps =>
      '(root, _, _) ← place_shape prog fr p;
      _ ← on_frame fr (set_froots (λ rs, drop_root rs root));
      drop_places fr ps
  end.

Definition last_exit (fr : Z) : M ExitRun :=
  f ← frame fr; some_or (last (fexits f)) (DanglingBlock ABSENT).

Definition bump_done (r : ExitRun) : ExitRun :=
  MkExitRun (edge r) (done r + 1) (resume r) (result_slot r) (raising r).

Definition advance_exit (fr : Z) : M FrameStep :=
  run ← last_exit fr;
  d ← decl_of prog fr;
  nb ← next_body d run;
  match nb with
  | Some b =>
      _ ← on_frame fr (set_fexits (λ es, removelast es ++ [bump_done run]));
      _ ← goto fr b;
      mret Continue
  | None =>
      row ← ix (nth_z (edge_rows (exits d)) (edge run));
      _ ← drop_places fr (slice_z (drop_list (exits d)) (edge_drops row));
      _ ← check_obligations fr run (slice_z (scope_list (exits d)) (edge_scopes row))
            (slice_z (discharge_list (exits d)) (edge_discharges row));
      _ ← on_frame fr (set_fexits (λ es, removelast es));
      finish_transfer fr (resume run) (result_slot run) (raising run)
  end.

Definition begin_exit_or_goto (fr from to : Z) (result : option Slot) (raising : bool) : M FrameStep :=
  d ← decl_of prog fr;
  match find_edge (exits d) from to with
  | Some e =>
      _ ← on_frame fr (set_fexits (λ es, es ++ [MkExitRun e 0 to result raising]));
      advance_exit fr
  | None => finish_transfer fr to result raising
  end.

(** ** Terminators *)

Definition read_terminator_operand (fr site raw : Z) : M Slot :=
  val_operand prog fr TERMINATOR site raw.

(** The first arm whose value has the scrutinee's bits. *)
Definition select_arm (arms : list SwitchArm) (default : Z) (v : Z) : Z :=
  match List.find (λ a, wrap 64 (arm_value a) =? v) arms with
  | Some a => arm_target a
  | None => default
  end.

Definition exec_switch (fr block : Z) (t : InstRow) : M FrameStep :=
  d ← decl_of prog fr;
  sw ← some_or (nth_z (switches (insts d)) (i_a t)) TypeMismatch;
  let '(s, e) := sw_arms sw in
  if (e <? s) || (len_z (switch_arms (insts d)) <? e) then error TypeMismatch
  else
    v ← read_terminator_operand fr (i_site t) (sw_discr sw);
    begin_exit_or_goto fr block
      (select_arm (slice_z (switch_arms (insts d)) (s, e)) (sw_default sw) (bits v)) None false.

Definition exec_leave (fr block : Z) (t : InstRow) (is_raise : bool) : M FrameStep :=
  v ← (if i_a t =? NO_OPERAND then mret Slot.unit
       else read_terminator_operand fr (i_site t) (i_a t));
  c ← gets ct;
  _ ← (if is_raise then on_frame fr (set_raise_ty (λ _, i_ty t))
       else if (fr =? 0) && bool_decide (is_Some c) && negb (i_a t =? NO_OPERAND) then
         ty ← val_ty prog fr TERMINATOR (i_a t);
         modify (set_entry_ret_ty (λ _, Some ty))
       else mret ());
  begin_exit_or_goto fr block BlockId_NONE (Some v) is_raise.

Definition exec_term (fr block : Z) (t : InstRow) : M FrameStep :=
  match i_op t with
  | Op.Br =>
      if i_a t =? BODY_END then advance_exit fr
      else begin_exit_or_goto fr block (i_a t) None false
  | Op.CondBr =>
      c ← read_terminator_operand fr (i_site t) (i_a t);
      begin_exit_or_goto fr block (if bits c =? 0 then i_c t else i_b t) None false
  | Op.SwitchDiscr => exec_switch fr block t
  | Op.TryBr =>
      f ← frame fr;
      _ ← on_frame fr (set_raised (λ _, false));
      begin_exit_or_goto fr block (if raised f then i_c t else i_b t) None false
  | Op.Ret => exec_leave fr block t false
  | Op.Raise => exec_leave fr block t true
  | Op.Trap =>
      k ← some_or (TrapKind_from_u32 (i_a t)) TypeMismatch;
      mret (TrapStep k (i_site t))
  | Op.Unreachable => error TypeMismatch
  | op => error (UnsupportedOp op)
  end.

(** ** One step *)

(** Traps and reports are values of the step; only an [InterpError] ends it. *)
Definition settle_fault (site : Z) (m : M FrameStep) : M FrameStep := λ s,
  match m s with
  | (s, Done (Err (FTrap k))) => (s, Done (Ok (TrapStep k site)))
  | (s, Done (Err (FUb r))) => (s, Done (Ok (UbStep r)))
  | r => r
  end.

Definition step_frame (fr : Z) : M FrameStep :=
  _ ← charge;
  f ← frame fr;
  d ← decl_of prog fr;
  row ← some_or (nth_z (blocks d) (fblock f)) (DanglingBlock (fblock f));
  if pc f <? inst_len row then
    let id := wrap 32 (first_inst row + pc f) in
    inst ← some_or (nth_z (inst_rows (insts d)) id) (DanglingBlock (fblock f));
    _ ← on_frame fr (set_pc (λ p, wrap 32 (p + 1)));
    settle_fault (i_site inst)
      (_ ← exec_inst prog tys host world fr id inst; mret Continue)
  else settle_fault (i_site (term row)) (exec_term fr (fblock f) (term row)).

(** ** The dispatch loop *)

Definition settle (e : Exit) (site : option (Z * Z)) (r : option UbReport) : M Outcome :=
  o ← gets (λ m, MkOutcome e (stdout m) (stdout_latched m) site r (stderr m) (steps m));
  _ ← modify (λ m, set_stdout (λ _, []) (set_stderr (λ _, []) m));
  mret o.

Definition error_exit (err : Slot) (ty : Z) (site : option (Z * Z)) : M Outcome :=
  l ← error_line prog tys err ty;
  _ ← modify (set_stderr (λ o, o ++ l));
  settle ExitRaise site None.

Definition at_try_br (f : Frame) : M bool :=
  p ← func_at prog (func f);
  mret (match nth_z (blocks (fn_decl p)) (fblock f) with
        | None => false
        | Some row =>
            match i_op (term row) with
            | Op.TryBr =>
                (pc f =? inst_len row) && (0 <? inst_len row) &&
                (i_a (term row) =? wrap 32 (first_inst row + inst_len row - 1))
            | _ => false
            end
        end).

(** A key that is not a root of frame [fr]. *)
Definition not_root_of (fr : Z) (k : BorrowKey) : bool :=
  match k with KRoot f _ => negb (f =? fr) | KAlloc _ => true end.

(** The innermost frame and its borrow stacks. *)
Definition pop_frame : M unit :=
  n ← gets (λ m, len_z (frames m));
  _ ← modify (set_frames (λ fs, removelast fs));
  modify (set_borrows (filter (λ kv, not_root_of (n - 1) kv.1 = true))).

Definition pop_pending : M (option Z) :=
  p ← gets pending;
  _ ← modify (set_pending (λ p, removelast p));
  mret (default None (last p)).

(** What a step leads to: another turn, or the outcome with the value the
    entry frame returned. *)
Definition after_step (fr : Z) (s : FrameStep) : M (option (Outcome * Slot)) :=
  match s with
  | Continue => mret None
  | Return v =>
      _ ← pop_frame;
      dest ← pop_pending;
      n ← gets (λ m, len_z (frames m));
      if n =? 0 then o ← settle ExitReturn None None; mret (Some (o, v))
      else _ ← define dest (n - 1) v; mret None
  | RaiseStep err =>
      n ← gets (λ m, len_z (frames m));
      if 1 <? n then
        p ← fn_of prog fr;
        _ ← pop_frame;
        dest ← pop_pending;
        f ← frame (n - 2);
        ok ← at_try_br f;
        if negb ok then error (UnhandledRaise (fn_name p))
        else
          _ ← define dest (n - 2) err;
          _ ← on_frame (n - 2) (set_raised (λ _, true));
          mret None
      else
        f ← frame fr;
        p ← func_at prog (func f);
        site ← match nth_z (blocks (fn_decl p)) (fblock f) with
               | Some b => s ← site_of prog fr (i_site (term b)); mret (Some s)
               | None => mret None
               end;
        o ← error_exit err (raise_ty f) site;
        mret (Some (o, Slot.unit))
  | TrapStep k site =>
      s ← site_of prog fr site;
      o ← settle (ExitTrap k) (Some s) None;
      mret (Some (o, Slot.unit))
  | UbStep r =>
      o ← settle (ExitUb (class r)) (Some (rsite r)) (Some r);
      mret (Some (o, Slot.unit))
  end.

Definition turn : M (option (Outcome * Slot)) :=
  n ← gets (λ m, len_z (frames m));
  s ← step_frame (n - 1);
  after_step (n - 1) s.

Fixpoint drive (fuel : nat) : M (Outcome * Slot) :=
  match fuel with
  | O => call_res OutOfFuel
  | S fuel => r ← turn; match r with Some o => mret o | None => drive fuel end
  end.

(** ** The entry *)

Definition new_machine (o : Oracle) (c : option CtState) : Machine :=
  MkMachine [] [] [] [] [] false [] o 0 STEP_BUDGET [Alloc.new 0 1 Static 0] [] []
    [MkProv (TAlloc 0) 0] ∅ 0 0 c None.

(** The types of the parameters in order. *)
Definition param_types (d : DeclFmir) : list Z :=
  (foldr insert_asc [] (omap (λ r, match val_def r with
                                   | DefParam o => Some (o, v_ty r)
                                   | DefInst _ => None
                                   end) (vals d))).*2.

Definition root_cap_of (ty : Z) : M (option RootCap) :=
  bare ← (if ty <? ty_len tys then unqual tys ty else mret ty);
  mret (TypeNames.root_cap (names prog) bare).

Definition push_cap (c : RootCap) : M Slot :=
  id ← gets (λ m, len_z (cells m));
  _ ← modify (set_cells (λ cs, cs ++ [MkCells [] (CapCell c)]));
  mret (Slot.val id).

Definition entry_arg (a : EntryArg) : M Slot :=
  match a with
  | AUnit => mret Slot.unit
  | ARoot c =>
      _ ← (if bool_decide (c = Rng) then
             o ← gets oracle;
             match Oracle.ensure_entropy world o with
             | Ok _ => mret ()
             | Err e => error (OracleFault e)
             end
           else mret ());
      push_cap c
  end.

Definition entry_args : M (list Slot) :=
  f ← func_at prog (prog_entry prog);
  caps ← mapMM root_cap_of (param_types (fn_decl f));
  plan ← some_or (plan_entry_args caps (bool_decide (name_roots (names prog) ≠ []))) CapabilityError;
  mapMM entry_arg plan.

(** [run_machine]; an entry outside the program has no function. *)
Definition run_machine (fuel : nat) (max_steps : Z) : M Outcome :=
  _ ← modify (set_step_cap (λ _, max_steps));
  if len_z (fns prog) <=? prog_entry prog then error NoEntry
  else
    argv ← entry_args;
    _ ← enter prog (prog_entry prog) None argv;
    r ← drive fuel;
    mret r.1.

Definition run_with_oracle_capped (fuel : nat) (o : Oracle) (max_steps : Z) :
    Oracle * res (result Fault Outcome) :=
  let '(m, r) := run_machine fuel (Z.min max_steps STEP_BUDGET) (new_machine o None) in
  (oracle m, match r with
             | Done (Ok out) =>
                 match Oracle.finish (oracle m) with
                 | Ok _ => Done (Ok out)
                 | Err e => Done (Err (FError (OracleFault e)))
                 end
             | r => r
             end).

(** ** Comptime mode *)

Definition ct_param (ty : Z) : M Slot :=
  c ← root_cap_of ty;
  match c with
  | Some c => id ← new_cells (MkCells [] (Withheld c)); mret (Slot.val id)
  | None => mret Slot.uninit
  end.

(** Little-endian, [n] bytes. *)
Fixpoint le_bytes (n : nat) (v : Z) : list Z :=
  match n with O => [] | S n => wrap 8 v :: le_bytes n (Z.shiftr v 8) end.

(** The tags of [comptime::encode]. *)
Definition ENC_UNIT : Z := 0.
Definition ENC_BOOL : Z := 1.
Definition ENC_INT : Z := 2.
Definition ENC_FLOAT : Z := 3.
Definition ENC_STR : Z := 4.

(** [None]: the shape has no encoding. *)
Definition encode_result (v : Slot) : M (option (list Z)) :=
  t ← gets entry_ret_ty;
  match t with
  | None => mret (Some [ENC_UNIT])
  | Some ty =>
      if ty =? TY_UNIT then mret (Some [ENC_UNIT])
      else
        b ← is_bool tys ty;
        if b : bool then mret (Some [ENC_BOOL; b2z (negb (bits v =? 0))])
        else
          s ← is_prim tys ty PrimKind.Str;
          if s : bool then
            ss ← gets strs;
            mret (b ← nth_z ss (bits v); Some ([ENC_STR] ++ le_bytes 8 (len_z b) ++ b))
          else λ m,
            match num_kind tys ty m with
            | (m, Done (Ok (Some (Int k)))) =>
                (m, Done (Ok (Some ([ENC_INT; Kind.width k; b2z (Kind.is_signed k)] ++ le_bytes 8 (bits v)))))
            | (m, Done (Ok (Some (Float k)))) =>
                (m, Done (Ok (Some ([ENC_FLOAT; match k with F32 => 32 | F64 => 64 end] ++ le_bytes 8 (bits v)))))
            | (m, Done _) => (m, Done (Ok None))
            | (m, Panic) => (m, Panic)
            | (m, OutOfFuel) => (m, OutOfFuel)
            end
  end.

Definition comptime_body (fuel : nat) : M (Outcome * option (list Z)) :=
  if len_z (fns prog) <=? prog_entry prog then error NoEntry
  else
    f ← func_at prog (prog_entry prog);
    argv ← mapMM ct_param (param_types (fn_decl f));
    _ ← enter prog (prog_entry prog) None argv;
    '(o, v) ← drive fuel;
    b ← encode_result v;
    mret (o, b).

(** The oracle of a comptime run answers nothing. *)
Definition run_comptime (fuel : nat) (c : CtState) :
    Machine * res (result Fault (Outcome * option (list Z))) :=
  comptime_body fuel (new_machine Oracle.sealed (Some c)).
End run.

(** ** Exit status, shim.rs *)

Definition UB_EXIT_STATUS : Z := 70.
Inductive ExitStatus : Type := Status (s : Z) | StatusTrap (k : TrapKind).

Definition entry_exit (o : Outcome) : ExitStatus :=
  match exit o with
  | ExitTrap k => StatusTrap k
  | ExitUb _ => Status UB_EXIT_STATUS
  | ExitRaise => Status 1
  | ExitReturn => if out_latched o then Status 2 else Status 0
  end.

(** ** Small programs *)

Module Sample.
Definition tys : TyStore :=
  MkTys [TyError; TyUnit; TyNever; TyPrim; TyPrim; TyPrim; TyNominal] [0; 0; 0; 7; 14; 8; 0]
    [0; 1; 2; 3; 4; 5; 6] [].
Definition U32_TY : Z := 3.
Definition PTR_TY : Z := 4.
Definition U64_TY : Z := 5.
Definition CLOCK_TY : Z := 6.
Definition host : HostEnv := MkEnv (Some 1) None.
Definition world : HostWorld := MkWorld (λ n, 10 * n) (λ n, n) (λ n, Some n) true (λ _ _ _, true).

Definition inst (op : Op.Op) (a b c : Z) : InstRow := MkInst op a b c 1 0.
Definition val (i ty : Z) : ValRow := MkVal ty 0 0 i.
Definition main (vs : list ValRow) (is_ : list InstRow) (ret : Z) (ps : list PlaceRow)
    (cs : list CallRow) (ops : list Z) (regs : list RegionRow) : DeclFmir :=
  MkDecl 0 vs [MkBlock 0 (len_z is_) (inst Op.Ret ret NO_OPERAND NO_OPERAND) 0]
    (MkInsts is_ ops cs [] [] []) [MkScope ABSENT 9 (0, 0) (0, 0) ABSENT]
    (MkPlaces ps [SegDeref]) regs [MkSite 1 1] [] [] (MkEdges [] [] [] [] []) 0.
Definition program (d : DeclFmir) (intr : list (Z * string)) (roots : list (Z * RootCap)) : Program :=
  MkProgram [MkFn "main" d [] intr] 0 64 (MkNames [] roots).

(** An arena, a reference into it, a pointer made from the reference, a reset,
    a second allocation in which 77 is stored, and a read through the pointer. *)
Definition arena_prog : Program := program
  (main
    [val 0 PTR_TY; val 1 U64_TY; val 2 PTR_TY; val 3 PTR_TY; val 5 1; val 6 PTR_TY; val 7 PTR_TY;
     val 9 U32_TY; val 11 U32_TY]
    [inst Op.RegionEnter 0 0 0; inst Op.ConstInt 4 0 0; inst Op.ArenaAlloc 0 1 0;
     inst Op.ArenaDeref 2 0 0; inst Op.Init 0 3 0; inst Op.ArenaReset 0 0 0;
     inst Op.ArenaAlloc 0 1 0; inst Op.ArenaDeref 5 0 0; inst Op.Init 1 6 0;
     inst Op.ConstInt 77 0 0; inst Op.Init 3 7 0; inst Op.CopyFrom 2 0 0]
    8 [MkPlace 0 (0, 0) PTR_TY; MkPlace 1 (0, 0) PTR_TY; MkPlace 0 (0, 1) U32_TY;
       MkPlace 1 (0, 1) U32_TY] [] [] [MkRegion WithArena (0, 0) 0]) [] [].

(** A heap object, stored through, freed, and read again. *)
Definition heap_prog : Program := program
  (main
    [val 0 U64_TY; val 1 PTR_TY; val 3 U32_TY; val 5 1; val 6 U32_TY]
    [inst Op.ConstInt 4 0 0; inst Op.Alloc 0 0 0; inst Op.Init 0 1 0; inst Op.ConstInt 5 0 0;
     inst Op.Init 1 2 0; inst Op.Free 1 0 0; inst Op.CopyFrom 1 0 0]
    4 [MkPlace 0 (0, 0) PTR_TY; MkPlace 0 (0, 1) U32_TY] [] [] []) [] [].

(** [main(clock)] reads the monotonic clock twice. *)
Definition clock_prog : Program := program
  (main
    [val PARAM_TAG CLOCK_TY; val 0 U64_TY; val 1 U64_TY]
    [inst Op.Intrinsic 0 0 0; inst Op.Intrinsic 0 0 0] 2 []
    [MkCall (CIntrinsic 7) (0, 1)] [0] []) [(7, "clock_mono")] [(CLOCK_TY, Clock)].

(** [k] turns from the start of [main]. *)
Definition start (p : Program) : Machine := (enter p 0 None [] (new_machine Oracle.live None)).1.
Fixpoint after (p : Program) (k : nat) : Machine :=
  match k with O => start p | S k => (turn p tys host world (after p k)).1 end.
End Sample.

Example arena_prog_runs :
  (drive Sample.arena_prog Sample.tys Sample.host Sample.world 20 (Sample.start Sample.arena_prog)).2
  = Done (Ok (MkOutcome ExitReturn [] false None None [] 13, Slot.val 77)).
Proof. vm_compute. reflexivity. Qed.

Example heap_prog_reports :
  (run_with_oracle_capped Sample.heap_prog Sample.tys Sample.host Sample.world 20 Oracle.live 100).2
  = Done (Ok (MkOutcome (ExitUb UseAfterFree) [] false (Some (1, 1))
      (Some (MkReport UseAfterFree 6 (1, 1))) [] 7)).
Proof. vm_compute. reflexivity. Qed.

Example clock_prog_reads :
  log (run_with_oracle_capped Sample.clock_prog Sample.tys Sample.host Sample.world 20 Oracle.live 100).1
  = [Mono 0; Mono 10].
Proof. vm_compute. reflexivity. Qed.
