(* ===== verification/InterpWp.v ===== *)
(** * Reasoning about calls of the machine

    First, the operations the machine calls with fuel of their own are total:
    no bit pattern, no shape and no operation exhausts the fuel of the exact
    remainder and of the reduce tree.  Then a weakest precondition for the
    machine's monad. *)

From S2P Require Import Prelude InterpArith InterpFrem InterpFloat Reduce ReduceProps FmirData InterpState InterpHost InterpMachine InterpExec.
From S2P Require InterpReduce.
From stdpp Require Import gmap.
Local Open Scope Z_scope.

(** ** The remainder *)

Lemma powmod_loop_total fuel e base acc m :
  e < 2 ^ Z.of_nat fuel → is_Some (powmod_loop (S fuel) e base acc m).
Proof.
  revert e base acc. induction fuel as [|fuel IH]; intros e base acc He.
  - cbn [powmod_loop]. destruct (Z.leb_spec e 0); [by eexists|]. simpl in He. lia.
  - rewrite Nat2Z.inj_succ, Z.pow_succ_r in He by lia.
    change (powmod_loop (S (S fuel)) e base acc m) with
      (if e <=? 0 then Some acc
       else powmod_loop (S fuel) (Z.shiftr e 1) (mul128 base base mod m)
              (if Z.land e 1 =? 1 then mul128 acc base mod m else acc) m).
    destruct (Z.leb_spec e 0); [by eexists|]. apply IH.
    rewrite Z.shiftr_div_pow2 by lia. apply Z.div_lt_upper_bound; lia.
Qed.

Lemma frem_units_total a b : a.2 - b.2 < 2 ^ 31 → is_Some (frem_units a b).
Proof.
  destruct a as [ma ea], b as [mb eb]. intros H. simpl in H. unfold frem_units.
  destruct (eb <=? ea).
  - unfold powmod. destruct (powmod_loop_total 31 (ea - eb) (2 mod mb) (1 mod mb) mb) as [s ->]; [done|].
    by eexists.
  - destruct ((64 <=? eb - ea) || (ma <? shl128 mb (eb - ea))); by eexists.
Qed.

Lemma frem_soft_total a b neg mb eb bias emin :
  a.2 - b.2 < 2 ^ 31 → is_Some (frem_soft a b neg mb eb bias emin).
Proof.
  intros [u Hu]%frem_units_total. unfold frem_soft. rewrite Hu. destruct u as [units e]. simpl.
  destruct (units =? 0); [by eexists|]. destruct (emin <=? e + lead units); by eexists.
Qed.

Lemma decompose_f64_exp bits : -1074 ≤ (decompose_f64 bits).2 ≤ 972.
Proof.
  rewrite decompose_f64_eq. pose proof (field_range 52 11 bits ltac:(lia) ltac:(lia)) as [H _].
  destruct (Z.eqb_spec (exp_field 52 11 bits) 0); simpl; lia.
Qed.
Lemma decompose_f32_exp bits : -149 ≤ (decompose_f32 bits).2 ≤ 105.
Proof.
  rewrite decompose_f32_eq. pose proof (field_range 23 8 bits ltac:(lia) ltac:(lia)) as [H _].
  destruct (Z.eqb_spec (exp_field 23 8 bits) 0); simpl; lia.
Qed.

Lemma frem_f64_total a b : is_Some (frem_f64 a b).
Proof.
  unfold frem_f64. repeat case_match; try by eexists. apply frem_soft_total.
  pose proof (decompose_f64_exp a). pose proof (decompose_f64_exp b). lia.
Qed.
Lemma frem_f32_total a b : is_Some (frem_f32 a b).
Proof.
  unfold frem_f32. repeat case_match; try by eexists. apply frem_soft_total.
  pose proof (decompose_f32_exp a). pose proof (decompose_f32_exp b). lia.
Qed.

(** ** Conversions *)

Lemma trunc_float_to_int_total v k : is_Some (trunc_float_to_int v k).
Proof.
  unfold trunc_float_to_int. destruct (f_is_nan v); [by eexists|].
  edestruct frem_f64_total as [r ->]. by eexists.
Qed.

Lemma conv_wrap_total v from to : is_Some (conv_wrap v from to).
Proof.
  destruct from as [k|[]], to as [k'|[]]; (try by eexists); apply trunc_float_to_int_total.
Qed.
Lemma conv_trunc_total v from to : is_Some (conv_trunc v from to).
Proof. destruct from, to; (try by eexists); apply conv_wrap_total. Qed.
Lemma conv_sat_total v from to : is_Some (conv_sat v from to).
Proof. destruct from, to; (try by eexists); apply conv_wrap_total. Qed.

(** ** The reduce tree *)

Definition fueled {S E A} (c : call S E A) : Prop := ∀ s, (c s).2 ≠ OutOfFuel.

Section fueled.
Context {S E T : Type}.

Lemma fueled_bind {A B} (c : call S E A) (f : A → call S E B) :
  fueled c → (∀ a, fueled (f a)) → fueled (c ≫= f).
Proof.
  intros Hc Hf s. unfold mbind, call_bind. specialize (Hc s).
  destruct (c s) as [s' [| |[a|e]]]; try done. apply Hf.
Qed.
Lemma fueled_ret {A} (a : A) : fueled (S := S) (E := E) (mret a).
Proof. done. Qed.
Lemma fueled_ix {A} (o : option A) : fueled (S := S) (E := E) (call_res (get_ix o)).
Proof. by destruct o. Qed.

Context (op : T → T → call S E T) (Hop : ∀ a b, fueled (op a b)).

Lemma combine_level_fueled items : fueled (combine_level op items).
Proof using Hop.
  induction items as [|a|a b items IH] using list_pair_ind; [done..|].
  apply fueled_bind; [destruct a, b; try done; by apply fueled_bind|].
  intros c. by apply fueled_bind.
Qed.

Lemma combine_level_length items s s' next :
  combine_level op items s = (s', Done (Ok next)) → (2 * length next ≤ length items + 1)%nat.
Proof.
  revert s s' next. induction items as [|a|a b items IH] using list_pair_ind; intros s s' next H.
  - injection H as _ <-. simpl. lia.
  - injection H as _ <-. simpl. lia.
  - simpl in H. unfold mbind, call_bind in H.
    match type of H with (let '(_, _) := ?c s in _) = _ => destruct (c s) as [s1 [| |[c0|e]]] end; try done.
    destruct (combine_level op items s1) as [s2 [| |[rest|e]]] eqn:Hr; try done.
    injection H as _ <-. apply IH in Hr. simpl. lia.
Qed.

Lemma combine_loop_fueled fuel items : (length items ≤ fuel)%nat → fueled (combine_loop fuel op items).
Proof using Hop.
  revert items. induction fuel as [|fuel IH]; intros items Hl s; cbn [combine_loop].
  - rewrite bool_decide_false by lia. done.
  - case_bool_decide; [|done]. unfold mbind, call_bind.
    pose proof (combine_level_fueled items s) as Hf.
    destruct (combine_level op items s) as [s' [| |[next|e]]] eqn:Hn; try done.
    apply IH. apply combine_level_length in Hn. lia.
Qed.

Lemma lane_fold_fueled xs acc es : fueled (lane_fold xs op acc es).
Proof using Hop.
  revert acc. induction es as [|e es IH]; intros acc; [done|].
  apply fueled_bind; [apply fueled_ix|]. intros rhs.
  apply fueled_bind; [by destruct acc|]. intros a. apply IH.
Qed.

Lemma eval_lanes_fueled xs ls : fueled (eval_lanes xs op ls).
Proof using Hop.
  induction ls as [|l ls IH]; [done|]. apply fueled_bind; [apply lane_fold_fueled|].
  intros acc. by apply fueled_bind.
Qed.

Lemma eval_blocks_fueled xs bs : fueled (eval_blocks xs op bs).
Proof using Hop.
  induction bs as [|b bs IH]; [done|]. apply fueled_bind; [apply eval_lanes_fueled|].
  intros ls. apply fueled_bind; [by apply combine_loop_fueled|].
  intros p. by apply fueled_bind.
Qed.

Lemma reduce_eval_fueled xs t : fueled (reduce_eval xs op t).
Proof using Hop.
  unfold reduce_eval. case_bool_decide; [|done]. apply fueled_bind; [apply eval_blocks_fueled|].
  intros ps. by apply combine_loop_fueled.
Qed.
End fueled.

Lemma reduce_blocks_fueled fuel n b l start k : (0 < b)%nat → (n - start ≤ fuel)%nat →
  reduce_blocks fuel n b l start k ≠ OutOfFuel.
Proof.
  intros Hb. revert start k. induction fuel as [|fuel IH]; intros start k Hf; cbn [reduce_blocks].
  - rewrite bool_decide_false by lia. done.
  - case_bool_decide; [|done]. specialize (IH (start + Nat.min (n - start) b)%nat (S k) ltac:(lia)).
    destruct (reduce_blocks fuel _ _ _ _ _); [done..|].
    done.
Qed.

Lemma reduce_tree_fueled n b l : reduce_tree n b l ≠ OutOfFuel.
Proof.
  unfold reduce_tree. do 2 (case_bool_decide; [done|]). simpl.
  pose proof (reduce_blocks_fueled n n b l 0 0 ltac:(lia) ltac:(lia)) as Hr.
  by destruct (reduce_blocks n n b l 0 0).
Qed.

Lemma apply_slots_fueled o a b : fueled (apply_slots o a b).
Proof.
  intros s. unfold apply_slots, ReduceOp_apply. simpl. destruct o as [op k|[] k]; simpl; try done.
  - by destruct (int_binop _ _ _ _ _).
  - destruct k; [edestruct frem_f32_total as [r ->]|edestruct frem_f64_total as [r ->]]; done.
Qed.

Lemma reduce_run_fueled es b l o : reduce_run es b l o ≠ OutOfFuel.
Proof.
  unfold reduce_run. pose proof (reduce_tree_fueled (length es) (Z.to_nat b) (Z.to_nat l)) as H.
  destruct (reduce_tree _ _ _) as [| |t]; [done..|]. simpl.
  apply reduce_eval_fueled, apply_slots_fueled.
Qed.

(** ** The weakest precondition

    What holds of the state
    when a call returns and when it faults, under a given price [pan] for a
    panic.  A call that satisfies one never runs out of the model's fuel. *)

Definition wp (pan : Prop) {A} (c : M A) (Q : A → Machine → Prop)
    (E : Fault → Machine → Prop) (m : Machine) : Prop :=
  match c m with
  | (m', Done (Ok a)) => Q a m'
  | (m', Done (Err e)) => E e m'
  | (_, Panic) => pan
  | (_, OutOfFuel) => False
  end.

Section wp.
Context (pan : Prop).
Implicit Types (m : Machine) (E : Fault → Machine → Prop).

Lemma wp_ret {A} (a : A) (Q : A → Machine → Prop) E m : Q a m → wp pan (mret a) Q E m.
Proof. done. Qed.

Lemma wp_bind {A B} (c : M A) (f : A → M B) (Q : B → Machine → Prop) E m :
  wp pan c (λ a m', wp pan (f a) Q E m') E m → wp pan (c ≫= f) Q E m.
Proof.
  unfold wp, mbind, call_bind. destruct (c m) as [m' [| |[a|e]]]; done.
Qed.

Lemma wp_mono {A} (c : M A) (Q Q' : A → Machine → Prop) E E' m :
  wp pan c Q E m → (∀ a m', Q a m' → Q' a m') → (∀ e m', E e m' → E' e m') → wp pan c Q' E' m.
Proof. unfold wp. destruct (c m) as [m' [| |[a|e]]]; naive_solver. Qed.

Lemma wp_gets {A} (f : Machine → A) (Q : A → Machine → Prop) E m :
  Q (f m) m → wp pan (gets f) Q E m.
Proof. done. Qed.

Lemma wp_modify f (Q : unit → Machine → Prop) E m : Q () (f m) → wp pan (modify f) Q E m.
Proof. done. Qed.

Lemma wp_fail {A} e (Q : A → Machine → Prop) E m : E e m → wp pan (fail e) Q E m.
Proof. done. Qed.

Lemma wp_ix {A} (o : option A) (Q : A → Machine → Prop) E m :
  (∀ a, o = Some a → Q a m) → (o = None → pan) → wp pan (ix o) Q E m.
Proof. destruct o; unfold wp; simpl; eauto. Qed.

Lemma wp_some_or {A} (o : option A) e (Q : A → Machine → Prop) E m :
  (∀ a, o = Some a → Q a m) → (o = None → E (FError e) m) → wp pan (some_or o e) Q E m.
Proof. destruct o; unfold wp; simpl; eauto. Qed.

Lemma wp_ok_trap {A} (r : result TrapKind A) (Q : A → Machine → Prop) E m :
  (∀ a, r = Ok a → Q a m) → (∀ k, r = Err k → E (FTrap k) m) → wp pan (ok_trap r) Q E m.
Proof. destruct r; unfold wp; simpl; eauto. Qed.

Lemma wp_or_fuel {A} (o : option A) (Q : A → Machine → Prop) E m :
  (∃ a, o = Some a ∧ Q a m) → wp pan (or_fuel o) Q E m.
Proof. by intros (a & -> & H). Qed.

Lemma wp_call_res {A} (r : res A) (Q : A → Machine → Prop) E m :
  r ≠ OutOfFuel → (∀ a, r = Done a → Q a m) → (r = Panic → pan) → wp pan (call_res r) Q E m.
Proof. destruct r; unfold wp; simpl; eauto. Qed.

Lemma wp_mapMM {A B} (f : A → M B) l (I : Machine → Prop) E m :
  I m → (∀ x m', x ∈ l → I m' → wp pan (f x) (λ _, I) E m') → wp pan (mapMM f l) (λ _, I) E m.
Proof.
  revert m. induction l as [|x l IH]; intros m Hm Hf; [done|]. simpl.
  apply wp_bind. eapply wp_mono; [apply Hf; [by left|done]| |done]. intros y m' Hm'. simpl.
  apply wp_bind. eapply wp_mono; [apply IH; [done|]| |done]; [|done].
  intros z m2 Hz. apply Hf. by right.
Qed.

End wp.

(** ** Calls that only read *)

Definition reads {A} (c : M A) : Prop :=
  ∀ m, wp True c (λ _ m', m' = m) (λ _ m', m' = m) m.

Lemma reads_ret {A} (a : A) : reads (mret a).
Proof. done. Qed.
Lemma reads_bind {A B} (c : M A) (f : A → M B) :
  reads c → (∀ a, reads (f a)) → reads (c ≫= f).
Proof.
  unfold reads, wp, mbind, call_bind. intros Hc Hf m. specialize (Hc m).
  destruct (c m) as [m' [| |[a|e]]]; subst; try done. apply Hf.
Qed.
Lemma reads_gets {A} (f : Machine → A) : reads (gets f).
Proof. done. Qed.
Lemma reads_fail {A} e : reads (A := A) (fail e).
Proof. done. Qed.
Lemma reads_error {A} e : reads (A := A) (error e).
Proof. done. Qed.
Lemma reads_trap {A} k : reads (A := A) (trap k).
Proof. done. Qed.
Lemma reads_ix {A} (o : option A) : reads (ix o).
Proof. by destruct o. Qed.
Lemma reads_some_or {A} (o : option A) e : reads (some_or o e).
Proof. by destruct o. Qed.
Lemma reads_ok_trap {A} (r : result TrapKind A) : reads (ok_trap r).
Proof. by destruct r. Qed.
Lemma reads_panic {A} : reads (A := A) (call_res Panic).
Proof. done. Qed.
Lemma reads_mapMM {A B} (f : A → M B) l : (∀ x, reads (f x)) → reads (mapMM f l).
Proof. intros Hf m. apply (wp_mapMM True f l (λ m', m' = m)); [done|]. intros x m' _ ->. apply Hf. Qed.

Create HintDb reads.
#[export] Hint Resolve reads_ret reads_gets reads_fail reads_error reads_trap reads_ix reads_some_or
  reads_ok_trap reads_panic : reads.

(** [reading] walks through the binds and branches of a call. *)
Ltac reading_step :=
  match goal with
  | |- ∀ _, _ => intro
  | |- reads (mbind _ _) => apply reads_bind
  | |- reads (mapMM _ _) => apply reads_mapMM
  | |- reads (match ?x with _ => _ end) => destruct x
  | |- reads _ => solve [auto with reads nocore]
  end.
Ltac reading := repeat reading_step.

(** ** The readers of the machine *)

Section readers.
Context (prog : Program) (tys : TyStore).

Lemma reads_unqual ty : reads (unqual tys ty).
Proof. apply reads_ix. Qed.
Lemma reads_tag_of ty : reads (tag_of tys ty).
Proof. apply reads_ix. Qed.
Lemma reads_ty_a_of ty : reads (ty_a_of tys ty).
Proof. apply reads_ix. Qed.
#[local] Hint Resolve reads_unqual reads_tag_of reads_ty_a_of : reads.

Lemma reads_num_kind ty : reads (num_kind tys ty).
Proof. unfold num_kind. reading. Qed.
#[local] Hint Resolve reads_num_kind : reads.
Lemma reads_int_kind ty : reads (int_kind tys ty).
Proof. unfold int_kind. reading. Qed.
Lemma reads_float_kind ty : reads (float_kind tys ty).
Proof. unfold float_kind. reading. Qed.
Lemma reads_num_kind_of ty : reads (num_kind_of tys ty).
Proof. unfold num_kind_of. reading. Qed.
Lemma reads_is_prim ty p : reads (is_prim tys ty p).
Proof. unfold is_prim. reading. Qed.
#[local] Hint Resolve reads_is_prim : reads.
Lemma reads_is_raw_ptr ty : reads (is_raw_ptr tys ty).
Proof. unfold is_raw_ptr. reading. Qed.
Lemma reads_is_bool ty : reads (is_bool tys ty).
Proof. unfold is_bool. reading. Qed.

Lemma reads_func_at fi : reads (func_at prog fi).
Proof. apply reads_ix. Qed.
Lemma reads_frame fr : reads (frame fr).
Proof. unfold frame. reading. Qed.
#[local] Hint Resolve reads_func_at reads_frame : reads.
Lemma reads_fn_of fr : reads (fn_of prog fr).
Proof. unfold fn_of. reading. Qed.
#[local] Hint Resolve reads_fn_of : reads.
Lemma reads_decl_of fr : reads (decl_of prog fr).
Proof. unfold decl_of. reading. Qed.
#[local] Hint Resolve reads_decl_of : reads.
Lemma reads_slot fr inst v : reads (slot fr inst v).
Proof. unfold slot. reading. Qed.
Lemma reads_prov_of s : reads (prov_of s).
Proof. unfold prov_of. reading. Qed.
#[local] Hint Resolve reads_prov_of : reads.
Lemma reads_alloc_identity s : reads (alloc_identity s).
Proof. unfold alloc_identity. reading. Qed.
Lemma reads_allocator_at fr b : reads (allocator_at prog fr b).
Proof. unfold allocator_at. reading. Qed.
Lemma reads_site_of fr s : reads (site_of prog fr s).
Proof. unfold site_of. reading. Qed.
#[local] Hint Resolve reads_site_of : reads.
Lemma reads_ub {A} fr i s c : reads (A := A) (ub prog fr i s c).
Proof. unfold ub. reading. Qed.
End readers.
#[export] Hint Resolve reads_unqual reads_tag_of reads_ty_a_of reads_num_kind reads_int_kind
  reads_float_kind reads_num_kind_of reads_is_prim reads_is_raw_ptr reads_is_bool reads_func_at
  reads_frame reads_fn_of reads_decl_of reads_slot reads_prov_of reads_alloc_identity
  reads_allocator_at reads_site_of reads_ub : reads.

(** * How a machine evolves

    The relation between two states of one run that every call of the machine
    respects, whatever the program: dead objects are frozen, arenas keep their
    identity and never lower their generation, tables only grow, no capability
    appears, a logged answer was granted, and a comptime run asks the host
    nothing.  [paced] adds the clock: a call that returns has kept within the
    budget. *)

(** ** Tables whose rows evolve *)

Definition extends {A} (R : A → A → Prop) (fresh : A → Prop) (l l' : list A) : Prop :=
  (length l ≤ length l')%nat ∧
  ∀ i x', l' !! i = Some x' → match l !! i with Some x => R x x' | None => fresh x' end.

Section extends.
Context {A : Type} (R : A → A → Prop) (fresh : A → Prop).
Context (Hrefl : ∀ x, R x x) (Htrans : ∀ x y z, R x y → R y z → R x z).
Context (Hfresh : ∀ x y, fresh x → R x y → fresh y).
Implicit Types l : list A.

Lemma extends_refl l : extends R fresh l l.
Proof using Hrefl. split; [done|]. intros i x' Hx. by rewrite Hx. Qed.

Lemma extends_trans l1 l2 l3 :
  extends R fresh l1 l2 → extends R fresh l2 l3 → extends R fresh l1 l3.
Proof using Htrans Hfresh.
  intros [Hl1 H1] [Hl2 H2]. split; [lia|]. intros i z Hz. specialize (H2 i z Hz).
  destruct (l2 !! i) as [y|] eqn:Hy.
  - specialize (H1 i y Hy). destruct (l1 !! i); eauto.
  - rewrite lookup_ge_None_2; [done|]. apply lookup_ge_None in Hy. lia.
Qed.

Lemma extends_snoc l x : fresh x → extends R fresh l (l ++ [x]).
Proof using Hrefl.
  intros Hx. split; [rewrite length_app; lia|]. intros i y Hy.
  destruct (l !! i) as [z|] eqn:Hz.
  - rewrite (lookup_app_l_Some _ _ _ _ Hz) in Hy. by injection Hy as ->.
  - rewrite lookup_app_r in Hy by by apply lookup_ge_None.
    apply list_lookup_singleton_Some in Hy as [_ <-]. done.
Qed.

Lemma extends_insert l i x y : l !! i = Some x → R x y → extends R fresh l (<[i := y]> l).
Proof using Hrefl.
  intros Hi HR. split; [by rewrite length_insert|]. intros j z Hz.
  destruct (decide (i = j)) as [<-|Hne].
  - rewrite list_lookup_insert_eq in Hz by (by apply lookup_lt_Some in Hi).
    rewrite Hi. by injection Hz as <-.
  - rewrite list_lookup_insert_ne in Hz by done. by rewrite Hz.
Qed.

(** An old row is still there. *)
Lemma extends_lookup l l' i x :
  extends R fresh l l' → l !! i = Some x → ∃ x', l' !! i = Some x' ∧ R x x'.
Proof.
  intros [Hl H] Hi. destruct (lookup_lt_is_Some_2 l' i) as [x' Hx'].
  { apply lookup_lt_Some in Hi. lia. }
  exists x'. split; [done|]. specialize (H i x' Hx'). by rewrite Hi in H.
Qed.
End extends.

Lemma nth_z_Some {A} (l : list A) i x :
  nth_z l i = Some x ↔ 0 ≤ i ∧ l !! Z.to_nat i = Some x.
Proof.
  unfold nth_z. destruct (Z.leb_spec 0 i) as [Hi|Hi]; simpl; [|by split; [|intros []; lia]].
  destruct (Z.ltb_spec i (Z.of_nat (length l))) as [|Hge]; [by split; [|intros []]|].
  split; [done|]. intros [_ Hx]. apply lookup_lt_Some in Hx. lia.
Qed.

Lemma extends_nth_z {A} (R : A → A → Prop) fresh l l' i x :
  extends R fresh l l' → nth_z l i = Some x → ∃ x', nth_z l' i = Some x' ∧ R x x'.
Proof.
  intros H [Hi Hx]%nth_z_Some. destruct (extends_lookup _ _ _ _ _ _ H Hx) as (x' & Hx' & HR).
  exists x'. by rewrite nth_z_Some.
Qed.

(** ** The rows *)

Definition alloc_evolves (a a' : Alloc) : Prop :=
  kind a' = kind a ∧ (state a ≠ Live → a' = a).
Definition arena_evolves (a a' : ArenaVal) : Prop :=
  arena_id a' = arena_id a ∧ data a' = data a ∧ arena_gen a ≤ arena_gen a'.
Definition cell_evolves (c c' : Cells) : Prop :=
  cell_kind c' = cell_kind c ∧ length (slots c') = length (slots c).

Lemma alloc_evolves_trans a b c : alloc_evolves a b → alloc_evolves b c → alloc_evolves a c.
Proof.
  intros [H1 H2] [H3 H4]. split; [congruence|]. intros Ha. specialize (H2 Ha) as ->. by apply H4.
Qed.
Lemma arena_evolves_trans a b c : arena_evolves a b → arena_evolves b c → arena_evolves a c.
Proof. unfold arena_evolves. intros (?&?&?) (?&?&?). split_and!; congruence || lia. Qed.
Lemma cell_evolves_trans a b c : cell_evolves a b → cell_evolves b c → cell_evolves a c.
Proof. unfold cell_evolves. intros [??] [??]. split; congruence. Qed.

(** ** Capabilities and answers *)

Definition cells_grant (cs : list Cells) (c : RootCap) : Prop :=
  ∃ i x, cs !! i = Some x ∧ cell_kind x = CapCell c.
Definition granted (m : Machine) : RootCap → Prop := cells_grant (cells m).

Definition event_cap (e : HostEvent) : RootCap :=
  match e with Mono _ | Wall _ => Clock | Entropy _ => Rng end.

Definition log_evolves (m m' : Machine) : Prop :=
  ∃ evs, log (oracle m') = log (oracle m) ++ evs ∧ ∀ e, e ∈ evs → granted m (event_cap e).

(** ** Comptime *)

Definition ct_evolves (m m' : Machine) : Prop :=
  match ct m, ct m' with
  | None, None => True
  | Some c, Some c' =>
      inputs c' = inputs c ∧ externs c' = externs c ∧
      allowance (meter c') = allowance (meter c) ∧ oracle m' = oracle m ∧
      (stdout m = [] → stdout m' = [])
  | _, _ => False
  end.

Definition spent (m : Machine) : Z :=
  match ct m with Some c => m_steps (meter c) | None => steps m end.
Definition budget (m : Machine) : Z :=
  match ct m with Some c => allowance (meter c) | None => step_cap m end.

(** ** The relation *)

Record evolves (m m' : Machine) : Prop := MkEvolves {
  ev_allocs : extends alloc_evolves (λ _, True) (allocs m) (allocs m');
  ev_arenas : extends arena_evolves (λ _, True) (arenas m) (arenas m');
  ev_regions : arena_region m `prefix_of` arena_region m';
  ev_prov : prov_rows m `prefix_of` prov_rows m';
  ev_strs : strs m `prefix_of` strs m';
  ev_cells : extends cell_evolves (λ c, is_cap c = false) (cells m) (cells m');
  ev_log : log_evolves m m';
  ev_ct : ct_evolves m m';
  ev_cap : step_cap m' = step_cap m }.

Definition within (m : Machine) : Prop := 0 ≤ spent m ≤ budget m ∧ budget m < 2 ^ 64 - 1.
Definition paced (m m' : Machine) : Prop := within m → within m' ∧ spent m ≤ spent m'.
Definition goes (m m' : Machine) : Prop := evolves m m' ∧ paced m m'.

Lemma cells_refl l : extends cell_evolves (λ c, is_cap c = false) l l.
Proof. by apply extends_refl. Qed.
Lemma allocs_refl l : extends alloc_evolves (λ _, True) l l.
Proof. by apply extends_refl. Qed.
Lemma arenas_refl l : extends arena_evolves (λ _, True) l l.
Proof. apply extends_refl. intros a. split_and!; done || lia. Qed.
Lemma log_refl m m' : oracle m' = oracle m → log_evolves m m'.
Proof. intros H. exists []. rewrite H, app_nil_r. split; [done|]. intros e He. by apply elem_of_nil in He. Qed.
Lemma ct_refl m m' :
  ct m' = ct m → oracle m' = oracle m → stdout m' = stdout m → ct_evolves m m'.
Proof. unfold ct_evolves. intros -> -> ->. by destruct (ct m). Qed.

Lemma evolves_refl m : evolves m m.
Proof.
  split; eauto using cells_refl, allocs_refl, arenas_refl, log_refl, ct_refl.
Qed.

Lemma is_cap_spec c : is_cap c = true ↔ ∃ r, cell_kind c = CapCell r ∨ cell_kind c = Withheld r.
Proof.
  unfold is_cap. destruct (cell_kind c); split; try done; try (intros [? [?|?]]; done); eauto.
Qed.

Lemma granted_back cs cs' c :
  extends cell_evolves (λ c, is_cap c = false) cs cs' → cells_grant cs' c → cells_grant cs c.
Proof.
  intros [_ H] (i & x & Hi & Hx). specialize (H i x Hi). destruct (cs !! i) as [y|] eqn:Hy.
  - exists i, y. destruct H as [Hk _]. split; [done|congruence].
  - assert (is_cap x = true) by (apply is_cap_spec; eauto). congruence.
Qed.

Lemma granted_forth cs cs' c :
  extends cell_evolves (λ c, is_cap c = false) cs cs' → cells_grant cs c → cells_grant cs' c.
Proof.
  intros H (i & x & Hi & Hx). destruct (extends_lookup _ _ _ _ _ _ H Hi) as (x' & Hx' & [Hk _]).
  exists i, x'. split; [done|congruence].
Qed.

Lemma log_trans m1 m2 m3 :
  extends cell_evolves (λ c, is_cap c = false) (cells m1) (cells m2) →
  log_evolves m1 m2 → log_evolves m2 m3 → log_evolves m1 m3.
Proof.
  intros Hc (e1 & H1 & G1) (e2 & H2 & G2). exists (e1 ++ e2).
  rewrite H2, H1, app_assoc. split; [done|].
  intros e [He|He]%elem_of_app; [by apply G1|]. eapply granted_back; [done|by apply G2].
Qed.

Lemma evolves_trans m1 m2 m3 : evolves m1 m2 → evolves m2 m3 → evolves m1 m3.
Proof.
  intros [] []. split; try (etrans; done).
  - eapply extends_trans; eauto using alloc_evolves_trans.
  - eapply extends_trans; eauto using arena_evolves_trans.
  - eapply extends_trans; eauto using cell_evolves_trans.
    intros x y Hx [Hk _]. unfold is_cap in *. by rewrite Hk.
  - by eapply log_trans.
  - unfold ct_evolves in *. destruct (ct m1), (ct m2), (ct m3); try done.
    destruct_and!. split_and!; try congruence. eauto.
Qed.

Lemma goes_refl m : goes m m.
Proof. split; [apply evolves_refl|]. split; [done|lia]. Qed.

Lemma goes_trans m1 m2 m3 : goes m1 m2 → goes m2 m3 → goes m1 m3.
Proof.
  intros [H1 P1] [H2 P2]. split; [by eapply evolves_trans|].
  intros [W S]%P1. specialize (P2 W) as [W' S']. split; [done|lia].
Qed.

(** The states an update does not touch are compared by computation. *)
Ltac untouched := first
  [ apply cells_refl | apply allocs_refl | apply arenas_refl | by apply log_refl
  | by apply ct_refl | done ].

Lemma goes_of m m' : evolves m m' → spent m' = spent m → budget m' = budget m → goes m m'.
Proof. intros H Hs Hb. split; [done|]. unfold paced, within. rewrite Hs, Hb. split; [done|lia]. Qed.

(** ** Calls that evolve the machine *)

Definition walks {A} (c : M A) : Prop :=
  ∀ m, wp True c (λ _ m', goes m m') (λ _ m', evolves m m') m.

Lemma walks_reads {A} (c : M A) : reads c → walks c.
Proof.
  intros Hc m. eapply wp_mono; [apply Hc| |]; simpl.
  - intros _ m' ->. apply goes_refl.
  - intros _ m' ->. apply evolves_refl.
Qed.

(** From a state the run has reached, a walking call goes on from there. *)
Lemma wp_walks {A} (c : M A) m0 m (Q : A → Machine → Prop) :
  walks c → goes m0 m → (∀ a m', goes m0 m' → Q a m') →
  wp True c Q (λ _ m', evolves m0 m') m.
Proof.
  intros Hc Hm HQ. eapply wp_mono; [apply Hc| |]; simpl.
  - intros a m' Hm'. apply HQ. by eapply goes_trans.
  - intros e m' Hm'. destruct Hm. by eapply evolves_trans.
Qed.

Lemma walks_bind {A B} (c : M A) (f : A → M B) :
  walks c → (∀ a, walks (f a)) → walks (c ≫= f).
Proof.
  intros Hc Hf m. apply wp_bind. apply wp_walks; [done|apply goes_refl|].
  intros a m' Hm'. eapply wp_walks; eauto.
Qed.

Lemma walks_modify f : (∀ m, goes m (f m)) → walks (modify f).
Proof. intros Hf m. apply wp_modify, Hf. Qed.

Lemma walks_mapMM {A B} (f : A → M B) l : (∀ x, walks (f x)) → walks (mapMM f l).
Proof.
  intros Hf. induction l as [|x l IH]; [by apply walks_reads|]. simpl.
  apply walks_bind; [done|]. intros y. apply walks_bind; [done|]. intros ys.
  apply walks_reads, reads_ret.
Qed.

Lemma walks_or_fuel {A} (o : option A) : is_Some o → walks (or_fuel o).
Proof. intros [a ->]. apply walks_reads, reads_ret. Qed.

Lemma walks_call_res {A} (r : res A) : r ≠ OutOfFuel → walks (call_res r).
Proof. intros Hr m. destruct r; [done|done|apply goes_refl]. Qed.

Create HintDb walks.

(** [walking] walks through the binds and branches of a call. *)
Ltac walking_step :=
  match goal with
  | |- ∀ _, _ => intro
  | |- walks (mbind _ _) => apply walks_bind
  | |- walks (mapMM _ _) => apply walks_mapMM
  | |- walks (match ?x with _ => _ end) => destruct x
  | |- walks _ => solve [auto with walks nocore]
  | |- walks _ => apply walks_reads; solve [auto with reads nocore]
  end.
Ltac walking := repeat walking_step.

(** ** The small operations *)

(** An update of a field the relation does not look at. *)
Lemma walks_frames f : walks (modify (set_frames f)).
Proof. apply walks_modify. intros m. apply goes_of; [|done..]. split; untouched. Qed.
Lemma walks_pending f : walks (modify (set_pending f)).
Proof. apply walks_modify. intros m. apply goes_of; [|done..]. split; untouched. Qed.
Lemma walks_borrows f : walks (modify (set_borrows f)).
Proof. apply walks_modify. intros m. apply goes_of; [|done..]. split; untouched. Qed.
Lemma walks_next_tag f : walks (modify (set_next_tag f)).
Proof. apply walks_modify. intros m. apply goes_of; [|done..]. split; untouched. Qed.
Lemma walks_next_serial f : walks (modify (set_next_serial f)).
Proof. apply walks_modify. intros m. apply goes_of; [|done..]. split; untouched. Qed.
Lemma walks_stderr f : walks (modify (set_stderr f)).
Proof. apply walks_modify. intros m. apply goes_of; [|done..]. split; untouched. Qed.
Lemma walks_latched f : walks (modify (set_stdout_latched f)).
Proof. apply walks_modify. intros m. apply goes_of; [|done..]. split; untouched. Qed.
Lemma walks_entry_ret_ty f : walks (modify (set_entry_ret_ty f)).
Proof. apply walks_modify. intros m. apply goes_of; [|done..]. split; untouched. Qed.

Lemma walks_push_prov t g : walks (push_prov t g).
Proof.
  apply walks_bind; [by apply walks_reads|]. intros id.
  apply walks_bind; [|intros; by apply walks_reads].
  apply walks_modify. intros m. apply goes_of; [|done..]. split; try untouched.
  by apply prefix_app_r.
Qed.

Lemma walks_push_alloc_row a : walks (modify (set_allocs (λ l, l ++ [a]))).
Proof.
  apply walks_modify. intros m. apply goes_of; [|done..]. split; try untouched.
  by apply extends_snoc.
Qed.
Lemma walks_push_arena a : walks (modify (set_arenas (λ l, l ++ [a]))).
Proof.
  apply walks_modify. intros m. apply goes_of; [|done..]. split; try untouched.
  apply extends_snoc; [|done]. intros x. split_and!; done || lia.
Qed.
Lemma walks_push_region r : walks (modify (set_arena_region (λ l, l ++ [r]))).
Proof.
  apply walks_modify. intros m. apply goes_of; [|done..]. split; try untouched.
  by apply prefix_app_r.
Qed.
#[export] Hint Resolve walks_frames walks_pending walks_borrows walks_next_tag walks_next_serial
  walks_stderr walks_latched walks_entry_ret_ty walks_push_prov walks_push_alloc_row
  walks_push_arena walks_push_region : walks.

Lemma walks_on_frame fr f : walks (on_frame fr f).
Proof. unfold on_frame. walking. Qed.
#[export] Hint Resolve walks_on_frame : walks.
Lemma walks_Machine_define fr v s : walks (Machine_define fr v s).
Proof. unfold Machine_define. walking. Qed.
#[export] Hint Resolve walks_Machine_define : walks.
Lemma walks_define d fr s : walks (define d fr s).
Proof. unfold define. walking. Qed.
Lemma walks_fresh_tag : walks fresh_tag.
Proof. unfold fresh_tag. walking. Qed.
#[export] Hint Resolve walks_define walks_fresh_tag : walks.
Lemma walks_borrow_access k t h : walks (borrow_access k t h).
Proof. unfold borrow_access. walking. Qed.
Lemma walks_on_borrow_stack k f : walks (on_borrow_stack k f).
Proof. unfold on_borrow_stack. walking. Qed.
#[export] Hint Resolve walks_borrow_access walks_on_borrow_stack : walks.
