(* ===== verification/InterpStep.v ===== *)
(** * Every instruction evolves the machine

    The walk through the operations of exec.rs: budgets, cells and strings,
    memory accesses, the doors, the heap, the arenas and calls, down to
    [exec_inst]. *)

From Stdlib Require Import String.
From S2P Require Import Prelude InterpArith InterpFloat Reduce FmirData InterpState InterpHost InterpMachine InterpExec InterpWp InterpRun.
From S2P Require InterpReduce.
From stdpp Require Import gmap.
Local Open Scope Z_scope.

(** ** Budgets *)

(** An update of the meter that keeps its limits. *)
Lemma evolves_meter m c mt :
  ct m = Some c → allowance mt = allowance (meter c) →
  evolves m (set_ct (λ _, Some (set_meter c mt)) m).
Proof.
  intros Hc Ha. split; try untouched. unfold ct_evolves. simpl. rewrite Hc. by split_and!.
Qed.

Lemma evolves_steps m f : evolves m (set_steps f m).
Proof. split; untouched. Qed.

Lemma charge_spec m :
  wp True charge
    (λ _ m', evolves m m' ∧ (within m → within m' ∧ spent m' = spent m + 1))
    (λ _ m', evolves m m') m.
Proof.
  unfold charge. apply wp_bind, wp_modify, wp_bind, wp_gets.
  change (ct (set_steps (λ s, wrap 64 (s + 1)) m)) with (ct m).
  destruct (ct m) as [c|] eqn:Hc.
  - destruct (Meter.step (meter c)) as [mt r] eqn:Hstep.
    assert (allowance mt = allowance (meter c)) as Ha.
    { unfold Meter.step in Hstep. by injection Hstep as <- _. }
    assert (evolves m (set_ct (λ _, Some (set_meter c mt)) (set_steps (λ s, wrap 64 (s + 1)) m))) as Hev.
    { eapply evolves_trans; [apply evolves_steps|by apply evolves_meter]. }
    apply wp_bind, wp_modify. destruct r as [[]|e]; [|by apply wp_fail].
    apply wp_ret. split; [done|]. unfold within, spent, budget. rewrite Hc. simpl. rewrite Ha.
    intros [Hs Hb]. rewrite step_spec in Hstep by lia. injection Hstep as <- Hr. simpl.
    destruct (decide (m_steps (meter c) < allowance (meter c))); [lia|].
    by destruct (decide (build_remaining (meter c) < step_limit (meter c))).
  - apply wp_bind, wp_gets, wp_bind, wp_gets. simpl.
    destruct (Z.ltb_spec (step_cap m) (wrap 64 (steps m + 1))); [apply wp_fail, evolves_steps|].
    apply wp_ret. split; [apply evolves_steps|]. unfold within, spent, budget. simpl. rewrite Hc.
    intros [Hs Hb]. rewrite wrap_small in * by (unfold unsigned; lia). lia.
Qed.

Lemma walks_charge : walks charge.
Proof.
  intros m. eapply wp_mono; [apply charge_spec| |done]. intros _ m' [H Hp]. split; [done|].
  intros [??]%Hp. split; [done|lia].
Qed.

Lemma walks_charge_n n : walks (charge_n n).
Proof. induction n; simpl; [walking|]. apply walks_bind; [apply walks_charge|done]. Qed.

Lemma walks_charge_bytes n : walks (charge_bytes n).
Proof.
  intros m. unfold charge_bytes. apply wp_bind, wp_gets. destruct (ct m) as [c|] eqn:Hc.
  - unfold Meter.bytes. apply wp_bind, wp_modify.
    match goal with |- wp _ _ _ _ (set_ct (λ _, Some (set_meter c ?x)) m) => set (mt := x) end.
    assert (goes m (set_ct (λ _, Some (set_meter c mt)) m)) as Hg.
    { apply goes_of; [by apply evolves_meter|unfold spent; simpl; by rewrite Hc|].
      unfold budget. simpl. by rewrite Hc. }
    destruct (alloc_limit mt <? m_bytes mt); [apply wp_fail, Hg|by apply wp_ret].
  - apply wp_ret, goes_refl.
Qed.
#[export] Hint Resolve walks_charge walks_charge_n walks_charge_bytes : walks.

(** ** Cells and strings *)

Lemma walks_push_cells c : is_cap c = false → walks (modify (set_cells (λ cs, cs ++ [c]))).
Proof.
  intros Hc. apply walks_modify. intros m. apply goes_of; [|done..]. split; try untouched.
  by apply extends_snoc.
Qed.
Lemma walks_new_cells c : is_cap c = false → walks (new_cells c).
Proof. intros Hc. unfold new_cells. pose proof (walks_push_cells c Hc). walking. Qed.

Lemma walks_push_str b : walks (modify (set_strs (λ ss, ss ++ [b]))).
Proof.
  apply walks_modify. intros m. apply goes_of; [|done..]. split; try untouched.
  by apply prefix_app_r.
Qed.
#[export] Hint Resolve walks_push_str : walks.
Lemma walks_new_str b : walks (new_str b).
Proof. unfold new_str. walking. Qed.
#[export] Hint Resolve walks_new_str : walks.
#[export] Hint Extern 1 (walks (new_cells _)) => apply walks_new_cells; reflexivity : walks.

(** ** Observing an address *)

Lemma walks_observe : walks (modify (set_ct (fmap
  (λ c, MkCt (meter c) (inputs c) (externs c) true (inputs_read c))))).
Proof.
  apply walks_modify. intros m. apply goes_of; [split; try untouched|..];
    unfold ct_evolves, spent, budget; simpl; by destruct (ct m).
Qed.
#[export] Hint Resolve walks_observe : walks.
Lemma walks_observe_address s : walks (observe_address s).
Proof. unfold observe_address. walking. Qed.
#[export] Hint Resolve walks_observe_address : walks.

(** ** Places *)

Section place.
Context (prog : Program) (tys : TyStore).

Lemma reads_str_bytes h : reads (str_bytes h).
Proof. unfold str_bytes. reading. Qed.
Lemma reads_check_slot fr i s v : reads (check_slot prog fr i s v).
Proof. unfold check_slot. reading. Qed.
#[local] Hint Resolve reads_str_bytes reads_check_slot : reads.
Lemma reads_val_operand fr i s r : reads (val_operand prog fr i s r).
Proof. unfold val_operand. reading. Qed.
Lemma reads_seq_window v : reads (seq_window v).
Proof. unfold seq_window. reading. Qed.
Lemma reads_cell_slot fr i s c a : reads (cell_slot prog fr i s c a).
Proof. unfold cell_slot. reading. Qed.
#[local] Hint Resolve reads_val_operand reads_seq_window reads_cell_slot : reads.
Lemma reads_index_in_bounds fr i s x n : reads (index_in_bounds prog fr i s x n).
Proof. unfold index_in_bounds. reading. Qed.
Lemma reads_place_shape fr r : reads (place_shape prog fr r).
Proof. unfold place_shape. reading. Qed.
Lemma reads_root_slot fr i s r : reads (root_slot prog fr i s r).
Proof. unfold root_slot. reading. Qed.
Lemma reads_scalar_width ty : reads (scalar_width prog tys ty).
Proof. unfold scalar_width. reading. Qed.
Lemma reads_check_alloc_live fr i s id : reads (check_alloc_live prog fr i s id).
Proof. unfold check_alloc_live. reading. Qed.
Lemma reads_check_arena_live d : reads (check_arena_live d).
Proof. unfold check_arena_live. reading. Qed.
#[local] Hint Resolve reads_index_in_bounds reads_place_shape reads_root_slot reads_scalar_width
  reads_check_alloc_live reads_check_arena_live : reads.
Lemma reads_resolve_deref fr i s p : reads (resolve_deref prog fr i s p).
Proof. unfold resolve_deref. reading. Qed.
Lemma reads_root_target p : reads (root_target p).
Proof. unfold root_target. reading. Qed.
Lemma reads_element fr i s v x : reads (element prog fr i s v x).
Proof. unfold element. reading. Qed.
End place.
#[export] Hint Resolve reads_str_bytes reads_check_slot reads_val_operand reads_seq_window
  reads_cell_slot reads_index_in_bounds reads_place_shape reads_root_slot reads_scalar_width
  reads_check_alloc_live reads_check_arena_live reads_resolve_deref reads_root_target
  reads_element : reads.

(** A step of a symbolic run from [m0]: a reader, or a call that walks.  *)
Lemma wp_reads {A} (c : M A) m0 m (Q : A → Machine → Prop) :
  reads c → evolves m0 m → (∀ a, c m = (m, Done (Ok a)) → Q a m) →
  wp True c Q (λ _ m', evolves m0 m') m.
Proof.
  intros Hc Hm HQ. specialize (Hc m). unfold wp in *.
  destruct (c m) as [m' [| |[a|e]]]; simpl in *; subst; eauto.
Qed.

Lemma call_bind_Ok {A B} (c : M A) (f : A → M B) m m' b :
  (c ≫= f) m = (m', Done (Ok b)) →
  ∃ a m1, c m = (m1, Done (Ok a)) ∧ f a m1 = (m', Done (Ok b)).
Proof.
  unfold mbind, call_bind. destruct (c m) as [m1 [| |[a|e]]]; [done|done| |done]. eauto.
Qed.

(** ** What the readers tell *)

Lemma wp_read_bind {A B} (c : M A) (f : A → M B) m0 m (Q : B → Machine → Prop) :
  reads c → evolves m0 m →
  (∀ a, c m = (m, Done (Ok a)) → wp True (f a) Q (λ _ m', evolves m0 m') m) →
  wp True (c ≫= f) Q (λ _ m', evolves m0 m') m.
Proof. intros. apply wp_bind. by apply wp_reads. Qed.

Lemma read_bind_Ok {A B} (c : M A) (f : A → M B) m m' b :
  reads c → (c ≫= f) m = (m', Done (Ok b)) →
  ∃ a, c m = (m, Done (Ok a)) ∧ f a m = (m', Done (Ok b)).
Proof.
  intros Hc (a & m1 & H & Hf)%call_bind_Ok. specialize (Hc m). unfold wp in Hc.
  rewrite H in Hc. subst. eauto.
Qed.

Section live.
Context (prog : Program) (tys : TyStore).

Lemma check_alloc_live_Ok fr i s id m u :
  check_alloc_live prog fr i s id m = (m, Done (Ok u)) → alloc_state m id = Some Live.
Proof.
  intros (st & Hst & H)%read_bind_Ok; [|auto with reads].
  injection Hst as <-. destruct (alloc_state m id) as [[]|]; try done.
  apply read_bind_Ok in H as (? & _ & ?); [done|auto with reads].
Qed.

Lemma check_arena_live_Ok d m u :
  check_arena_live d m = (m, Done (Ok u)) → alloc_state m d = Some Live.
Proof.
  intros (st & Hst & H)%read_bind_Ok; [|auto with reads].
  injection Hst as <-. by destruct (alloc_state m d) as [[]|].
Qed.

Lemma alloc_state_Some m id a :
  nth_z (allocs m) id = Some a → alloc_state m id = Some (state a).
Proof. unfold alloc_state. by intros ->. Qed.

Lemma resolve_deref_Ok fr i s p m d id :
  resolve_deref prog fr i s p m = (m, Done (Ok d)) → d_alloc d = Some id →
  alloc_state m id = Some Live.
Proof.
  intros (row & _ & H)%read_bind_Ok; [|auto with reads]. destruct (target row) as [j|f sr r|a dd].
  - apply read_bind_Ok in H as (u & Hl & H); [|auto with reads].
    injection H as <-. intros [= <-]. by eapply check_alloc_live_Ok.
  - apply read_bind_Ok in H as (al & _ & H); [|auto with reads]. destruct al; simpl in H.
    + by injection H as <-.
    + apply read_bind_Ok in H as (? & _ & ?); [done|auto with reads].
  - destruct (RefVal.unpack (bits p)) as [g off].
    apply read_bind_Ok in H as (ars & _ & H); [|auto with reads].
    apply read_bind_Ok in H as (x & _ & H); [|auto with reads].
    destruct (arena_gen x =? g); [|done]. simpl in H.
    apply read_bind_Ok in H as (st & Hst & H); [|auto with reads].
    case_bool_decide as Hl; [|done]. injection H as <-. intros [= <-]. by injection Hst as <-.
Qed.
End live.

Lemma set_borrows_id m : set_borrows (λ _, borrows m) m = m.
Proof. by destruct m. Qed.
Lemma set_ct_id m : set_ct (λ _, ct m) m = m.
Proof. by destruct m. Qed.

Lemma borrow_access_state k t h m :
  ∃ b r, borrow_access k t h m = (set_borrows (λ _, b) m, Done (Ok r)).
Proof.
  unfold borrow_access, mbind, call_bind. simpl. destruct (borrows m !! k) as [s|].
  - destruct (BorrowStack.access s t h) as [s' r]. by exists (<[k := s']> (borrows m)), r.
  - exists (borrows m), (Ok ()). by rewrite set_borrows_id.
Qed.

Lemma charge_bytes_state n m : ∃ c r, charge_bytes n m = (set_ct (λ _, c) m, r).
Proof.
  unfold charge_bytes, mbind, call_bind. simpl. destruct (ct m) as [c|] eqn:Hc.
  - destruct (_ <? _); eexists _, _; reflexivity.
  - exists None, (Done (Ok ())). rewrite <- Hc. by rewrite set_ct_id.
Qed.

(** ** Updates of one row *)

Lemma goes_alloc m id a a' :
  nth_z (allocs m) id = Some a → alloc_evolves a a' →
  goes m (set_allocs (<[Z.to_nat id := a']>) m).
Proof.
  intros [_ Ha]%nth_z_Some Hev. apply goes_of; [|done..]. split; try untouched.
  by eapply extends_insert.
Qed.

Lemma arena_evolves_refl a : arena_evolves a a.
Proof. split_and!; done || lia. Qed.

Lemma goes_arena m id a a' :
  nth_z (arenas m) id = Some a → arena_evolves a a' →
  goes m (set_arenas (<[Z.to_nat id := a']>) m).
Proof.
  intros [_ Ha]%nth_z_Some Hev. apply goes_of; [|done..]. split; try untouched.
  eapply extends_insert; eauto using arena_evolves_refl.
Qed.

Lemma goes_cells m id c c' :
  nth_z (cells m) id = Some c → cell_evolves c c' →
  goes m (set_cells (<[Z.to_nat id := c']>) m).
Proof.
  intros [_ Hc]%nth_z_Some Hev. apply goes_of; [|done..]. split; try untouched.
  by eapply extends_insert.
Qed.

Lemma alloc_evolves_live a a' : state a = Live → kind a' = kind a → alloc_evolves a a'.
Proof. by split. Qed.

Lemma walks_put_cell cell i v : walks (put_cell cell i v).
Proof.
  intros m. unfold put_cell. apply wp_bind, wp_gets, wp_bind, wp_ix; [|done]. intros c Hc.
  apply wp_bind, wp_ix; [|done]. intros s _. apply wp_modify.
  apply (goes_cells m cell c); [done|]. split; [done|]. apply length_insert.
Qed.
#[export] Hint Resolve walks_put_cell : walks.

(** ** Accesses through a pointer *)

Section access.
Context (prog : Program) (tys : TyStore).

Lemma walks_read_through fr i s r ty : walks (read_through prog tys fr i s r ty).
Proof. unfold read_through. walking. Qed.

Lemma walks_write_through fr i s r ty v : walks (write_through prog tys fr i s r ty v).
Proof.
  intros m. unfold write_through.
  apply wp_read_bind; [auto with reads|apply evolves_refl|]. intros ptr _.
  apply wp_read_bind; [auto with reads|apply evolves_refl|]. intros d Hd.
  destruct (borrow_access_state (d_key d) (d_tag d) Write m) as (b & ok & Hok).
  set (m1 := set_borrows (λ _, b) m) in *.
  assert (goes m m1) as Hg by (apply goes_of; [split; untouched|done..]).
  apply wp_bind. unfold wp at 1. rewrite Hok. destruct ok as [[]|[]].
  2: { eapply wp_walks; [apply walks_reads; auto with reads|done|done]. }
  destruct (d_alloc d) as [id|] eqn:Hid.
  2: { eapply wp_walks; [walking|done|done]. }
  apply wp_read_bind; [auto with reads|apply Hg|]. intros width _.
  apply wp_bind, wp_gets. apply wp_bind, wp_ix; [|done]. intros a Ha.
  assert (state a = Live) as Hlive.
  { apply (resolve_deref_Ok _ _ _ _ _ _ _ _ Hd) in Hid. change (allocs m1) with (allocs m) in Ha.
    apply alloc_state_Some in Ha. congruence. }
  destruct (_ <? _); [apply wp_fail, Hg|].
  apply wp_bind, wp_ix; [|done]. intros bs _. apply wp_modify.
  eapply goes_trans; [done|]. apply (goes_alloc m1 id a); [done|by apply alloc_evolves_live].
Qed.
#[local] Hint Resolve walks_read_through walks_write_through : walks.

Lemma walks_read_place fr i s r : walks (read_place prog tys fr i s r).
Proof. unfold read_place. walking. Qed.
Lemma walks_write_place fr i s r v : walks (write_place prog tys fr i s r v).
Proof. unfold write_place. walking. Qed.
End access.
#[export] Hint Resolve walks_read_through walks_write_through walks_read_place walks_write_place : walks.

(** * Instructions, terminators and runs evolve the machine

    The second half of the walk: [exec_inst], the exit sequence, [turn], and
    the loop of turns. *)

Section exec.
Context (prog : Program) (tys : TyStore) (host : HostEnv) (world : HostWorld).

(** ** Operands *)

Lemma reads_operand fr i row r : reads (operand prog fr i row r).
Proof. unfold operand. reading. Qed.
Lemma reads_val_ty fr i r : reads (val_ty prog fr i r).
Proof. unfold val_ty. reading. Qed.
#[local] Hint Resolve reads_operand reads_val_ty : reads.
Lemma reads_result_ty fr i d : reads (result_ty prog fr i d).
Proof. unfold result_ty. reading. Qed.
Lemma reads_result_of fr i : reads (result_of prog fr i).
Proof. unfold result_of. reading. Qed.
Lemma reads_find_string fr c : reads (find_string prog fr c).
Proof. unfold find_string. reading. Qed.
Lemma reads_decl_intrinsic_name fr s : reads (decl_intrinsic_name prog fr s).
Proof. unfold decl_intrinsic_name. reading. Qed.
Lemma reads_overflow_check fr i s md t : reads (unchecked_overflow_check prog fr i s md t).
Proof. unfold unchecked_overflow_check. reading. Qed.
Lemma reads_spilled fr i r : reads (spilled prog fr i r).
Proof. unfold spilled. reading. Qed.
Lemma reads_gate_intrinsic fr s n : reads (gate_intrinsic prog fr s n).
Proof. unfold gate_intrinsic. reading. Qed.
Lemma reads_host_operand a i : reads (host_operand a i).
Proof. apply reads_some_or. Qed.
Lemma reads_cap_receiver r c : reads (cap_receiver r c).
Proof. unfold cap_receiver. reading. Qed.
Lemma reads_arrives fd b : reads (arrives world fd b).
Proof. unfold arrives. reading. Qed.
Lemma reads_arena_target p : reads (arena_target p).
Proof. unfold arena_target. reading. Qed.
Lemma reads_live_arena als r rows : reads (live_arena als r rows).
Proof. induction rows as [|[a r'] rows IH]; simpl; reading. Qed.
#[local] Hint Resolve reads_result_ty reads_result_of reads_find_string reads_decl_intrinsic_name
  reads_overflow_check reads_spilled reads_gate_intrinsic reads_host_operand reads_cap_receiver
  reads_arrives reads_arena_target reads_live_arena : reads.

(** ** Arithmetic *)

Lemma walks_exec_binop fr i row d n m : walks (exec_binop prog tys fr i row d n m).
Proof. unfold exec_binop. walking. Qed.
Lemma walks_exec_neg fr i row d m : walks (exec_neg prog tys fr i row d m).
Proof. unfold exec_neg. walking. Qed.
Lemma walks_frem k a b : walks (frem k a b).
Proof. apply walks_or_fuel. destruct k; [apply frem_f32_total|apply frem_f64_total]. Qed.
Lemma walks_exec_float fr i row d f :
  (∀ k a b, walks (f k a b)) → walks (exec_float prog tys fr i row d f).
Proof. intros Hf. unfold exec_float. walking. Qed.
Lemma walks_exec_fneg fr i row d : walks (exec_fneg prog tys fr i row d).
Proof. unfold exec_fneg. walking. Qed.
Lemma walks_exec_icmp fr i row d p : walks (exec_icmp prog tys fr i row d p).
Proof. unfold exec_icmp. walking. Qed.
Lemma walks_exec_fcmp fr i row d p : walks (exec_fcmp prog tys fr i row d p).
Proof. unfold exec_fcmp. walking. Qed.
Lemma walks_exec_logic fr i row d f : walks (exec_logic prog fr i row d f).
Proof. unfold exec_logic. walking. Qed.
Lemma walks_exec_not fr i row d : walks (exec_not prog tys fr i row d).
Proof. unfold exec_not. walking. Qed.
Lemma walks_convert op v a b : walks (convert op v a b).
Proof.
  unfold convert. destruct op; try (apply walks_or_fuel, conv_trunc_total).
  - apply walks_reads. auto with reads.
  - apply walks_or_fuel, conv_wrap_total.
  - apply walks_or_fuel, conv_sat_total.
Qed.
#[local] Hint Resolve walks_exec_binop walks_exec_neg walks_frem walks_exec_float walks_exec_fneg
  walks_exec_icmp walks_exec_fcmp walks_exec_logic walks_exec_not walks_convert : walks.
Lemma walks_exec_conv fr i row d : walks (exec_conv prog tys fr i row d).
Proof. unfold exec_conv. walking. Qed.

(** ** Aggregates *)

Lemma walks_exec_agg fr i row d : walks (exec_agg prog fr i row d).
Proof. unfold exec_agg. walking. Qed.
#[local] Hint Resolve walks_exec_agg : walks.
Lemma walks_exec_variant_new fr i row d : walks (exec_variant_new prog fr i row d).
Proof. unfold exec_variant_new. walking. Qed.
Lemma walks_exec_component fr i row d a : walks (exec_component prog fr i row d a).
Proof. unfold exec_component. walking. Qed.
Lemma walks_exec_slice_range fr i row d : walks (exec_slice_range prog fr i row d).
Proof. unfold exec_slice_range. walking. Qed.
Lemma walks_exec_index fr i row d : walks (exec_index prog fr i row d).
Proof. unfold exec_index. walking. Qed.
Lemma walks_reduce_run es b l o : walks (call_res (reduce_run es b l o)).
Proof. apply walks_call_res, reduce_run_fueled. Qed.
#[local] Hint Resolve walks_reduce_run : walks.
Lemma walks_exec_reduce fr i row d : walks (exec_reduce prog tys fr i row d).
Proof. unfold exec_reduce. walking. Qed.

(** ** Calls *)

Lemma walks_enter fi d a : walks (enter prog fi d a).
Proof. unfold enter. walking. Qed.
#[local] Hint Resolve walks_enter : walks.
Lemma walks_exec_call fr i row d : walks (exec_call prog fr i row d).
Proof. unfold exec_call. walking. Qed.

(** ** Moves and borrows *)

Lemma walks_exec_move_from fr i row d : walks (exec_move_from prog tys fr i row d).
Proof. unfold exec_move_from. walking. Qed.
Lemma walks_exec_borrow fr row d m : walks (exec_borrow prog fr row d m).
Proof. unfold exec_borrow. walking. Qed.
Lemma walks_exec_init fr i row : walks (exec_init prog tys fr i row).
Proof. unfold exec_init. walking. Qed.
Lemma walks_exec_check fr i row d p : walks (exec_check prog fr i row d p).
Proof. unfold exec_check. walking. Qed.
Lemma walks_exec_const_str fr row d : walks (exec_const_str prog fr row d).
Proof. unfold exec_const_str. walking. Qed.

(** ** The heap *)

Lemma walks_push_alloc a t : walks (push_alloc a t).
Proof. unfold push_alloc. walking. Qed.
#[local] Hint Resolve walks_push_alloc : walks.
Lemma walks_exec_alloc fr i row d : walks (exec_alloc prog fr i row d).
Proof. unfold exec_alloc. walking. Qed.

Lemma walks_exec_free fr i row d : walks (exec_free prog fr i row d).
Proof.
  intros m. pose proof (evolves_refl m) as Hr. unfold exec_free.
  apply wp_read_bind; [auto with reads|done|]. intros ptr _.
  apply wp_read_bind; [auto with reads|done|]. intros r _.
  destruct (target r) as [id| |].
  2,3: by apply walks_reads; auto with reads.
  apply wp_read_bind; [auto with reads|done|]. intros u Hlive%check_alloc_live_Ok.
  apply wp_read_bind; [auto with reads|done|]. intros f _.
  apply wp_read_bind; [auto with reads|done|]. intros fb _.
  apply wp_bind, wp_gets. apply wp_bind, wp_ix; [|done]. intros a Ha.
  apply alloc_state_Some in Ha as Hs.
  case_bool_decide; [|by apply walks_reads; auto with reads].
  apply wp_bind, wp_modify.
  eapply wp_walks; [walking|apply (goes_alloc m id a); [done|]|done].
  apply alloc_evolves_live; [congruence|done].
Qed.

(** ** Arenas *)

Lemma walks_exec_region_enter fr row d : walks (exec_region_enter prog fr row d).
Proof. unfold exec_region_enter. walking. Qed.

Lemma live_arena_Ok als r rows m o :
  live_arena als r rows m = (m, Done (Ok o)) →
  match o with Some a => ∃ al, nth_z als (data a) = Some al ∧ state al = Live | None => True end.
Proof.
  induction rows as [|[a r'] rows IH]; simpl; [by intros [= <-]|].
  destruct (r' =? r); [|done]. intros (al & Hal & H)%read_bind_Ok; [|auto with reads].
  case_bool_decide as Hl; [|by apply IH]. injection H as <-. exists al.
  unfold ix in Hal. destruct (nth_z als (data a)); [|done]. by injection Hal as <-.
Qed.

Lemma walks_exec_region_exit fr row d : walks (exec_region_exit prog fr row d).
Proof.
  unfold exec_region_exit. apply walks_bind; [walking|]. intros dd. apply walks_bind; [|walking].
  case_bool_decide; [|walking]. intros m. pose proof (evolves_refl m) as Hr.
  apply wp_bind, wp_gets, wp_bind, wp_gets.
  apply wp_read_bind; [auto with reads|done|]. intros o Ho%live_arena_Ok.
  apply wp_bind, wp_some_or; [|done]. intros a ->. destruct Ho as (al & Hal & Hlive).
  apply wp_bind, wp_ix; [|done]. intros al' Hal'. assert (al' = al) as -> by congruence.
  apply wp_modify. apply (goes_alloc m (data a) al); [done|by apply alloc_evolves_live].
Qed.

Lemma kind_grow_to a n : kind (Alloc.grow_to a n) = kind a.
Proof. unfold Alloc.grow_to. by destruct (_ <? _). Qed.

Lemma walks_exec_arena_alloc fr i row d : walks (exec_arena_alloc prog fr i row d).
Proof.
  intros m. pose proof (evolves_refl m) as Hr. unfold exec_arena_alloc.
  apply wp_read_bind; [auto with reads|done|]. intros aslot _.
  apply wp_read_bind; [auto with reads|done|]. intros sz _. cbv zeta.
  apply wp_read_bind; [auto with reads|done|]. intros pr _.
  apply wp_read_bind; [auto with reads|done|]. intros [arena dat] _.
  apply wp_read_bind; [auto with reads|done|]. intros u Hlive%check_arena_live_Ok.
  destruct (charge_bytes_state (wrap 32 (bits sz)) m) as (c & r & Hc).
  apply wp_bind. pose proof (walks_charge_bytes (wrap 32 (bits sz)) m) as Hg.
  unfold wp in *. rewrite Hc in *. destruct r as [| |[[]|e]]; try done.
  set (m1 := set_ct (λ _, c) m) in *.
  match goal with |- match ?t m1 with _ => _ end =>
    change (wp True t (λ _ m', goes m m') (λ _ m', evolves m m') m1) end.
  apply wp_bind, wp_gets. apply wp_bind, wp_ix; [|done]. intros a Ha.
  destruct (2 ^ 32 <=? _); [apply wp_fail, Hg|].
  apply wp_bind, wp_modify, wp_bind, wp_gets. apply wp_bind, wp_ix; [|done]. intros al Hal.
  apply alloc_state_Some in Hal as Hs.
  apply wp_bind, wp_modify.
  eapply wp_walks; [walking| |done].
  assert (∀ b, arena_evolves a (ArenaVal.set_bump a b)) as Hb by (intros b; split_and!; simpl; done || lia).
  eapply goes_trans; [done|]. eapply goes_trans; [by eapply (goes_arena m1)|].
  eapply goes_alloc; [done|]. apply alloc_evolves_live; [|apply kind_grow_to].
  change (alloc_state m dat = Some (state al)) in Hs. congruence.
Qed.

Lemma walks_exec_arena_deref fr i row d : walks (exec_arena_deref prog fr i row d).
Proof. unfold exec_arena_deref. walking. Qed.

Lemma arena_reset_evolves a a' : ArenaVal.reset a = Ok a' → arena_evolves a a' ∧ arena_gen a' = arena_gen a + 1.
Proof.
  unfold ArenaVal.reset, next_generation. destruct (_ =? _); [done|]. intros [= <-].
  split; [|done]. split_and!; simpl; [done..|lia].
Qed.

Lemma walks_exec_arena_reset fr i row d : walks (exec_arena_reset prog fr i row d).
Proof.
  intros m. pose proof (evolves_refl m) as Hr. unfold exec_arena_reset.
  apply wp_read_bind; [auto with reads|done|]. intros aslot _.
  apply wp_read_bind; [auto with reads|done|]. intros pr _.
  apply wp_read_bind; [auto with reads|done|]. intros [arena dat] _.
  apply wp_read_bind; [auto with reads|done|]. intros u Hlive%check_arena_live_Ok.
  apply wp_bind, wp_gets. apply wp_bind, wp_ix; [|done]. intros a Ha.
  apply wp_bind, wp_ok_trap; [|done]. intros a' [Hev _]%arena_reset_evolves.
  apply wp_bind, wp_modify, wp_bind, wp_gets. apply wp_bind, wp_ix; [|done]. intros al Hal.
  apply alloc_state_Some in Hal as Hs.
  apply wp_bind, wp_modify.
  eapply wp_walks; [walking| |done].
  eapply goes_trans; [by eapply (goes_arena m)|]. eapply goes_alloc; [done|].
  apply alloc_evolves_live; [|done]. change (alloc_state m dat = Some (state al)) in Hs. congruence.
Qed.

(** ** The doors *)

(** The doors the table allows at compile time. *)
Definition quiet (d : Door) : bool :=
  match d with
  | STR_BYTE_LEN | STR_BYTE_AT | STR_BYTE_SLICE | STR_EQ | SEQ_LEN | AGG_UNINIT | INPUT_READ => true
  | _ => false
  end.

Lemma gate_quiet fr s n m d :
  gate_intrinsic prog fr s n m = (m, Done (Ok d)) → ct m = None ∨ quiet d = true.
Proof.
  unfold gate_intrinsic. intros (r & Hr & H)%read_bind_Ok; [|auto with reads].
  apply read_bind_Ok in H as (c & Hc & H); [|auto with reads]. injection Hc as <-.
  destruct (ct m) as [c|]; [|by left]. right. case_bool_decide as Hf.
  - apply read_bind_Ok in H as (? & _ & H); [|auto with reads].
    by apply read_bind_Ok in H as (? & _ & H); [|auto with reads].
  - injection H as <-. destruct (Intrinsic.lookup n) as [r'|] eqn:Hl; [|done]. injection Hr as ->.
    apply find_Some_elem in Hl as [Hin _].
    assert (Forall (λ r, row_comptime r ≠ Forbidden → quiet (row_door r) = true) TABLE) as Hall
      by (repeat constructor; done).
    rewrite Forall_forall in Hall. by apply Hall.
Qed.

(** A run that is not comptime. *)
Definition walks_rt {A} (c : M A) : Prop :=
  ∀ m, ct m = None → wp True c (λ _ m', goes m m') (λ _ m', evolves m m') m.

Lemma goes_rt m m' : goes m m' → ct m = None → ct m' = None.
Proof. intros [[] _] Hc. unfold ct_evolves in *. rewrite Hc in *. by destruct (ct m'). Qed.

Lemma rt_walks {A} (c : M A) : walks c → walks_rt c.
Proof. intros Hc m _. apply Hc. Qed.

Lemma rt_bind {A B} (c : M A) (f : A → M B) :
  walks_rt c → (∀ a, walks_rt (f a)) → walks_rt (c ≫= f).
Proof.
  intros Hc Hf m Hm. apply wp_bind. eapply wp_mono; [by apply Hc| |done].
  simpl. intros a m1 H1. eapply wp_mono; [by eapply Hf, goes_rt| |]; simpl.
  - intros b m2 H2. by eapply goes_trans.
  - intros e m2 H2. destruct H1. by eapply evolves_trans.
Qed.

Lemma rt_goes m m' :
  allocs m' = allocs m → arenas m' = arenas m → arena_region m' = arena_region m →
  prov_rows m' = prov_rows m → strs m' = strs m → cells m' = cells m → ct m' = ct m →
  step_cap m' = step_cap m → steps m' = steps m → ct m = None → log_evolves m m' → goes m m'.
Proof.
  intros H1 H2 H3 H4 H5 H6 H7 H8 H9 Hc Hl. apply goes_of.
  - split; rewrite ?H1, ?H2, ?H3, ?H4, ?H5, ?H6, ?H8; try untouched.
    unfold ct_evolves. by rewrite H7, Hc.
  - unfold spent. by rewrite H7, H9.
  - unfold budget. by rewrite H7, H8.
Qed.

Lemma rt_write_stdout b : walks_rt (write_stdout host world b).
Proof.
  apply rt_bind; [apply rt_walks, walks_reads, reads_arrives|]. intros ok m Hm.
  destruct ok; apply wp_modify; apply rt_goes; done || by apply log_refl.
Qed.
Lemma rt_write_stderr b : walks_rt (write_stderr host world b).
Proof.
  apply rt_bind; [apply rt_walks, walks_reads, reads_arrives|]. intros ok m Hm.
  destruct ok; [apply wp_modify|apply wp_ret]; apply rt_goes; done || by apply log_refl.
Qed.

(** The door opens to the row the receiver names. *)
Lemma cap_receiver_cell r c m m' u :
  cap_receiver r c m = (m', Done (Ok u)) →
  ∃ x, 0 ≤ bits r ∧ cells m !! Z.to_nat (bits r) = Some x ∧ cell_kind x = CapCell c.
Proof.
  unfold cap_receiver. intros (cs & Hcs & H)%read_bind_Ok; [|auto with reads].
  injection Hcs as <-. destruct (nth_z (cells m) (bits r)) as [x|] eqn:Hx; [|done].
  case_bool_decide as Hk; [|done]. apply nth_z_Some in Hx as [? Hx]. by exists x.
Qed.
Lemma cap_receiver_Ok r c m m' u :
  cap_receiver r c m = (m', Done (Ok u)) → granted m c.
Proof. intros (x & _ & Hx & Hk)%cap_receiver_cell. by exists (Z.to_nat (bits r)), x. Qed.

(** A question that logs only events of one capability. *)
Definition logs_only {A} (c : RootCap) (f : Oracle → asked A) : Prop :=
  ∀ o, ∃ evs, log (f o).1 = log o ++ evs ∧ ∀ e, e ∈ evs → event_cap e = c.

Lemma rt_ask {A} c (f : Oracle → asked A) m :
  ct m = None → granted m c → logs_only c f →
  wp True (ask f) (λ _ m', goes m m') (λ _ m', evolves m m') m.
Proof.
  intros Hm Hg Hf. unfold ask. apply wp_bind, wp_gets.
  destruct (Hf (oracle m)) as (evs & Hlog & Hevs).
  destruct (f (oracle m)) as [o r] eqn:Hfo. simpl in Hlog.
  assert (goes m (set_oracle (λ _, o) m)) as Hgo.
  { apply rt_goes; try done. exists evs. split; [done|]. intros e He. by rewrite Hevs. }
  apply wp_bind, wp_modify. destruct r; [by apply wp_ret|apply wp_fail, Hgo].
Qed.

Lemma rt_question {A} c (f : Oracle → asked A) recv (g : A → M unit) :
  logs_only c f → (∀ a, walks (g a)) →
  walks_rt (_ ← cap_receiver recv c; v ← ask f; g v).
Proof.
  intros Hf Hg m Hm. apply wp_read_bind; [auto with reads|apply evolves_refl|].
  intros u Hc%cap_receiver_Ok. apply wp_bind. eapply wp_mono; [by eapply rt_ask| |done].
  simpl. intros v m1 H1. by eapply wp_walks.
Qed.

Lemma next_replayed_log k o : log (Oracle.next_replayed k o).1 = log o.
Proof. unfold Oracle.next_replayed. repeat case_match; done. Qed.

(** What one question adds to the log. *)
Definition one_event (o o' : Oracle) (P : HostEvent → Prop) : Prop :=
  log o' = log o ∨ ∃ e, log o' = log o ++ [e] ∧ P e.

Lemma one_event_logs {A} c (f : Oracle → asked A) :
  (∀ o, one_event o (f o).1 (λ e, event_cap e = c)) → logs_only c f.
Proof.
  intros H o. destruct (H o) as [->|(e & -> & He)].
  - exists []. rewrite app_nil_r. split; [done|]. intros e He. by apply elem_of_nil in He.
  - exists [e]. split; [done|]. by intros e' ->%list_elem_of_singleton.
Qed.

Lemma clock_mono_logs : logs_only Clock (Oracle.clock_mono world).
Proof.
  apply one_event_logs. intros o. unfold Oracle.clock_mono.
  pose proof (next_replayed_log KMono (Oracle.count Oracle.clock_read o)) as Hl.
  destruct (Oracle.next_replayed _ _) as [o1 [[b|]|e]]; simpl in Hl; [| |by left].
  - right. eexists. simpl. by rewrite Hl.
  - unfold Oracle.real_mono. destruct (Oracle.is_replay o1); simpl; [by left|].
    right. eexists. simpl. by rewrite Hl.
Qed.
Lemma clock_wall_logs : logs_only Clock (Oracle.clock_wall world).
Proof.
  apply one_event_logs. intros o. unfold Oracle.clock_wall.
  pose proof (next_replayed_log KWall (Oracle.count Oracle.clock_read o)) as Hl.
  destruct (Oracle.next_replayed _ _) as [o1 [[b|]|e]]; simpl in Hl; [| |by left].
  - right. eexists. simpl. by rewrite Hl.
  - unfold Oracle.real_wall. destruct (Oracle.is_replay o1); simpl; [by left|].
    right. eexists. simpl. by rewrite Hl.
Qed.
Lemma entropy_logs : logs_only Rng (Oracle.entropy_u64 world).
Proof.
  apply one_event_logs. intros o. unfold Oracle.entropy_u64.
  pose proof (next_replayed_log KEntropy (Oracle.count Oracle.entropy_draw o)) as Hl.
  destruct (Oracle.next_replayed _ _) as [o1 [[b|]|e]]; simpl in Hl; [| |by left].
  - right. eexists. simpl. by rewrite Hl.
  - unfold Oracle.real_entropy. destruct (Oracle.is_replay o1); simpl; [by left|].
    destruct (world_entropy _ _); simpl; [right; eexists; simpl; by rewrite Hl|by left].
Qed.

Lemma rt_host_door a c o note : walks_rt (host_door a c o note).
Proof.
  apply rt_bind.
  { intros m Hm. apply wp_modify, rt_goes; try done. by exists []; rewrite app_nil_r; split; [|by intros e ?%elem_of_nil]. }
  intros u. apply rt_walks, walks_reads. reading.
Qed.

Lemma walks_inputs_read f :
  walks (modify (set_ct (fmap (λ c, MkCt (meter c) (inputs c) (externs c) (observed_address c) (f c))))).
Proof.
  apply walks_modify. intros m. apply goes_of; [split; try untouched|..];
    unfold ct_evolves, spent, budget; simpl; by destruct (ct m).
Qed.
#[local] Hint Resolve walks_inputs_read : walks.

Lemma walks_input_read fr a : walks (input_read prog fr a).
Proof. unfold input_read. walking. Qed.
#[local] Hint Resolve walks_input_read : walks.

Lemma walks_quiet fr d i a : quiet i = true → walks (exec_intrinsic prog host world fr d i a).
Proof. destruct i; try done; intros _; simpl; walking. Qed.

Lemma rt_exec_intrinsic fr d i a : walks_rt (exec_intrinsic prog host world fr d i a).
Proof.
  assert (∀ c, walks (A := unit) c → walks_rt c) as Hw by (intros; by apply rt_walks).
  assert (∀ a i, walks_rt (host_operand a i)) as Hop by (intros; apply rt_walks, walks_reads, reads_host_operand).
  destruct i; try (by apply rt_walks, walks_quiet); simpl.
  - apply rt_bind; [apply rt_walks; walking|]. intros b. apply rt_bind; [apply rt_write_stdout|].
    intros _. apply Hw. walking.
  - apply rt_bind; [apply rt_write_stdout|]. intros _. apply Hw. walking.
  - apply rt_bind; [apply rt_walks; walking|]. intros b. apply rt_bind; [apply rt_write_stderr|].
    intros _. apply Hw. walking.
  - apply rt_bind; [done|]. intros r. apply rt_question; [apply clock_mono_logs|walking].
  - apply rt_bind; [done|]. intros r. apply rt_question; [apply clock_wall_logs|walking].
  - apply Hw. walking.
  - apply rt_bind; [done|]. intros r. apply rt_question; [apply entropy_logs|walking].
  - apply rt_host_door.
  - apply rt_host_door.
Qed.

Lemma walks_exec_intrinsic_call fr i row d : walks (exec_intrinsic_call prog host world fr i row d).
Proof.
  unfold exec_intrinsic_call. do 5 (apply walks_bind; [walking|intros ?]).
  intros m. apply wp_read_bind; [auto with reads|apply evolves_refl|].
  intros door [Hm|Hq]%gate_quiet; [by apply rt_exec_intrinsic|by apply walks_quiet].
Qed.

(** ** The dispatch *)

#[local] Hint Resolve walks_exec_conv walks_exec_variant_new walks_exec_component
  walks_exec_slice_range walks_exec_index walks_exec_reduce walks_exec_call walks_exec_move_from
  walks_exec_borrow walks_exec_init walks_exec_check walks_exec_const_str walks_exec_alloc
  walks_exec_free walks_exec_region_enter walks_exec_region_exit walks_exec_arena_alloc
  walks_exec_arena_deref walks_exec_arena_reset walks_exec_intrinsic_call : walks.

Lemma walks_exec_inst fr i row : walks (exec_inst prog tys host world fr i row).
Proof.
  unfold exec_inst. apply walks_bind; [walking|]. intros d.
  destruct (i_op row); try (apply walks_exec_float; intros); walking.
Qed.

(** ** Terminators *)

Lemma walks_goto fr b : walks (goto prog fr b).
Proof. unfold goto. walking. Qed.
#[local] Hint Resolve walks_goto : walks.
Lemma walks_finish_transfer fr b r k : walks (finish_transfer prog fr b r k).
Proof. unfold finish_transfer. walking. Qed.
Lemma reads_check_obligations fr r l ds : reads (check_obligations prog fr r l ds).
Proof. unfold check_obligations. reading. Qed.
Lemma reads_next_body d r : reads (next_body d r).
Proof. unfold next_body. reading. Qed.
Lemma reads_last_exit fr : reads (last_exit fr).
Proof. unfold last_exit. reading. Qed.
Lemma walks_drop_places fr ps : walks (drop_places prog fr ps).
Proof. induction ps as [|p ps IH]; simpl; walking. Qed.
#[local] Hint Resolve walks_finish_transfer walks_drop_places : walks.
#[local] Hint Resolve reads_check_obligations reads_next_body reads_last_exit : reads.
Lemma walks_advance_exit fr : walks (advance_exit prog fr).
Proof. unfold advance_exit. walking. Qed.
#[local] Hint Resolve walks_advance_exit : walks.
Lemma walks_begin_exit fr a b r k : walks (begin_exit_or_goto prog fr a b r k).
Proof. unfold begin_exit_or_goto. walking. Qed.
Lemma reads_terminator_operand fr s r : reads (read_terminator_operand prog fr s r).
Proof. unfold read_terminator_operand. reading. Qed.
#[local] Hint Resolve walks_begin_exit : walks.
#[local] Hint Resolve reads_terminator_operand : reads.
Lemma walks_exec_switch fr b t : walks (exec_switch prog fr b t).
Proof. unfold exec_switch. walking. Qed.
Lemma walks_exec_leave fr b t r : walks (exec_leave prog fr b t r).
Proof. unfold exec_leave. walking. Qed.
#[local] Hint Resolve walks_exec_switch walks_exec_leave : walks.
Lemma walks_exec_term fr b t : walks (exec_term prog fr b t).
Proof. unfold exec_term. walking. Qed.

(** ** One turn *)

(** The step ends the run. *)
Definition ends (fs : FrameStep) : bool :=
  match fs with TrapStep _ _ | UbStep _ => true | _ => false end.

Lemma settle_fault_walks s (c : M FrameStep) m :
  walks c →
  wp True (settle_fault s c)
    (λ fs m', evolves m m' ∧ (ends fs = false → paced m m')) (λ _ m', evolves m m') m.
Proof.
  intros Hc. specialize (Hc m). unfold wp, settle_fault in *.
  destruct (c m) as [m' [| |[a|[k|r|e]]]]; simpl in *; try done.
  destruct Hc as [H1 H2]. by split.
Qed.

(** A step charges one unit, and goes on only within the budget. *)
Definition clocked (m m' : Machine) : Prop := within m → within m' ∧ spent m + 1 ≤ spent m'.

Lemma step_frame_spec fr m :
  wp True (step_frame prog tys host world fr)
    (λ fs m', evolves m m' ∧ (ends fs = false → clocked m m')) (λ _ m', evolves m m') m.
Proof.
  unfold step_frame. apply wp_bind. eapply wp_mono; [apply charge_spec| |done]. simpl.
  intros _ m1 [He1 Hp1].
  apply wp_read_bind; [auto with reads|done|]. intros f _.
  apply wp_read_bind; [auto with reads|done|]. intros d _.
  apply wp_read_bind; [auto with reads|done|]. intros row _.
  assert (∀ m2, goes m1 m2 → evolves m m2 ∧ clocked m m2) as Hgo.
  { intros m2 [He2 Hp2]. split; [by eapply evolves_trans|].
    intros [W1 S1]%Hp1. specialize (Hp2 W1) as [W2 S2]. split; [done|lia]. }
  assert (∀ s (c : M FrameStep) m2, goes m1 m2 → walks c → wp True (settle_fault s c)
    (λ fs m', evolves m m' ∧ (ends fs = false → clocked m m')) (λ _ m', evolves m m') m2) as Hst.
  { intros s c m2 [He2 Hp2] Hc. eapply wp_mono; [by apply settle_fault_walks| |]; simpl.
    - intros fs m3 [He3 Hp3].
      split; [by eapply evolves_trans, evolves_trans|]. intros Hend.
      apply Hgo. eapply goes_trans; by split; auto.
    - intros e m3 He3. by eapply evolves_trans, evolves_trans. }
  destruct (pc f <? inst_len row).
  - apply wp_read_bind; [auto with reads|done|]. intros inst _.
    apply wp_bind. pose proof (walks_on_frame fr (set_pc (λ p, wrap 32 (p + 1))) m1) as Hw.
    eapply wp_mono; [done| |]; simpl; [|intros e m2 He2; by eapply evolves_trans].
    intros _ m2 Hm2. apply Hst; [done|]. apply walks_bind; [apply walks_exec_inst|walking].
  - apply Hst; [apply goes_refl|apply walks_exec_term].
Qed.

Lemma walks_settle e s r : walks (settle e s r).
Proof.
  unfold settle. apply walks_bind; [walking|]. intros o. apply walks_bind; [|walking].
  apply walks_modify. intros m. apply goes_of; [split; try untouched|done..].
  unfold ct_evolves. simpl. by destruct (ct m).
Qed.
Lemma reads_cell_of h : reads (cell_of h).
Proof. unfold cell_of. reading. Qed.
Lemma reads_component c i : reads (component c i).
Proof. apply reads_some_or. Qed.
Lemma reads_render_prim v b : reads (render_prim tys v b).
Proof. unfold render_prim. reading. Qed.
#[local] Hint Resolve reads_cell_of reads_component reads_render_prim : reads.
Lemma reads_render_into n v ty : reads (render_into prog tys n v ty).
Proof.
  revert v ty. induction n as [|n IH]; intros v ty; [apply reads_error|]. cbn [render_into].
  reading.
Qed.
#[local] Hint Resolve reads_render_into : reads.
Lemma reads_error_line v ty : reads (error_line prog tys v ty).
Proof. unfold error_line. reading. Qed.
#[local] Hint Resolve reads_error_line : reads.
#[local] Hint Resolve walks_settle : walks.
Lemma walks_error_exit v ty s : walks (error_exit prog tys v ty s).
Proof. unfold error_exit. walking. Qed.
Lemma reads_at_try_br f : reads (at_try_br prog f).
Proof. unfold at_try_br. reading. Qed.
Lemma walks_pop_frame : walks pop_frame.
Proof. unfold pop_frame. walking. Qed.
Lemma walks_pop_pending : walks pop_pending.
Proof. unfold pop_pending. walking. Qed.
#[local] Hint Resolve reads_at_try_br : reads.
#[local] Hint Resolve walks_error_exit walks_pop_frame walks_pop_pending : walks.
Lemma walks_after_step fr s : walks (after_step prog tys fr s).
Proof. unfold after_step. walking. Qed.

Lemma after_step_ends fr fs m :
  ends fs = true →
  wp True (after_step prog tys fr fs) (λ r m', evolves m m' ∧ r ≠ None) (λ _ m', evolves m m') m.
Proof.
  assert (∀ e s r m0, evolves m m0 →
    wp True (o ← settle e s r; mret (Some (o, Slot.unit)))
      (λ r m', evolves m m' ∧ r ≠ None) (λ _ m', evolves m m') m0) as Hs.
  { intros e s r m0 H0. apply wp_bind. eapply wp_mono; [apply walks_settle| |]; simpl.
    - intros o m1 [H1 _]. apply wp_ret. split; [by eapply evolves_trans|done].
    - intros e' m1 H1. by eapply evolves_trans. }
  destruct fs; try done; intros _; unfold after_step.
  - apply wp_read_bind; [auto with reads|apply evolves_refl|]. intros st _.
    apply Hs, evolves_refl.
  - apply Hs, evolves_refl.
Qed.

Lemma turn_spec m :
  wp True (turn prog tys host world)
    (λ r m', evolves m m' ∧ (r = None → clocked m m')) (λ _ m', evolves m m') m.
Proof.
  unfold turn. apply wp_bind, wp_gets, wp_bind.
  eapply wp_mono; [apply step_frame_spec| |done]. simpl. intros fs m1 [He1 Hp1].
  destruct (ends fs) eqn:Hend.
  - eapply wp_mono; [by apply after_step_ends| |]; simpl.
    + intros r m2 [He2 Hr]. split; [by eapply evolves_trans|by intros ->].
    + intros e m2 He2. by eapply evolves_trans.
  - eapply wp_mono; [apply walks_after_step| |]; simpl.
    + intros r m2 [He2 Hp2]. split; [by eapply evolves_trans|]. intros _ W.
      destruct (Hp1 eq_refl W) as [W1 S1]. destruct (Hp2 W1). split; [done|lia].
    + intros e m2 He2. by eapply evolves_trans.
Qed.

(** ** Runs *)

(** One turn that goes on. *)
Definition turns (m m' : Machine) : Prop := turn prog tys host world m = (m', Done (Ok None)).

Lemma turns_evolves m m' : turns m m' → evolves m m'.
Proof. intros H. pose proof (turn_spec m) as Ht. unfold wp in Ht. rewrite H in Ht. apply Ht. Qed.

Lemma run_evolves m m' : rtc turns m m' → evolves m m'.
Proof.
  induction 1; [apply evolves_refl|]. eapply evolves_trans; [by apply turns_evolves|done].
Qed.

(** Enough fuel: one turn for each step left in the budget, and the one that is
    refused. *)
Lemma drive_total fuel m :
  within m → budget m - spent m < Z.of_nat fuel →
  wp True (drive prog tys host world fuel) (λ _ m', evolves m m') (λ _ m', evolves m m') m.
Proof.
  revert m. induction fuel as [|fuel IH]; intros m W Hf; [destruct W as [[]]; lia|].
  cbn [drive]. apply wp_bind. eapply wp_mono; [apply turn_spec| |done]. simpl.
  intros r m1 [He1 Hp1]. destruct r as [[o v]|]; [by apply wp_ret|].
  destruct (Hp1 eq_refl W) as [W1 S1].
  assert (budget m1 = budget m) as Hb.
  { unfold budget. destruct He1. unfold ct_evolves in *.
    destruct (ct m), (ct m1); try done. by destruct_and!. }
  eapply wp_mono; [apply IH; [done|lia]| |]; simpl.
  - intros _ m2 H2. by eapply evolves_trans.
  - intros _ m2 H2. by eapply evolves_trans.
Qed.
End exec.
#[export] Hint Resolve reads_operand reads_val_ty reads_result_ty reads_result_of reads_find_string
  reads_decl_intrinsic_name reads_overflow_check reads_spilled reads_gate_intrinsic
  reads_host_operand reads_cap_receiver reads_arrives reads_arena_target reads_live_arena
  reads_check_obligations reads_next_body reads_last_exit reads_terminator_operand reads_cell_of
  reads_component reads_render_prim reads_error_line reads_at_try_br : reads.
#[export] Hint Resolve walks_enter walks_push_alloc walks_goto walks_finish_transfer
  walks_drop_places walks_advance_exit walks_begin_exit walks_exec_term walks_exec_inst
  walks_settle walks_error_exit walks_pop_frame walks_pop_pending : walks.
