(* ===== verification/InterpSafety.v ===== *)
(** * What every run of the interpreter guarantees

    Dangling references and freed objects are reported for ever, capabilities
    come only from the entry shim, and a comptime evaluation depends on nothing
    but its program and its inputs. *)

From Stdlib Require Import String.
From S2P Require Import Prelude InterpArith InterpFloat Reduce FmirData InterpState InterpHost InterpMachine InterpExec InterpRun InterpWp InterpStep.
From stdpp Require Import gmap.
Local Open Scope Z_scope.

(** ** Pointers through a run *)

Lemma prefix_nth_z {A} (l l' : list A) i x :
  l `prefix_of` l' → nth_z l i = Some x → nth_z l' i = Some x.
Proof.
  intros Hp [Hi Hx]%nth_z_Some. apply nth_z_Some. split; [done|]. by eapply prefix_lookup_Some.
Qed.

(** A pointer keeps its provenance. *)
Lemma prov_of_evolves p row m m' :
  evolves m m' → prov_of p m = (m, Done (Ok row)) → prov_of p m' = (m', Done (Ok row)).
Proof.
  intros [_ _ _ Hp _ _ _ _ _]. unfold prov_of. destruct (prov p =? PROV_NONE); [done|].
  unfold mbind, call_bind, some_or. simpl. intros H.
  destruct (nth_z (prov_rows m) (prov p)) as [r|] eqn:Hr; [|done].
  by rewrite (prefix_nth_z _ _ _ _ Hp Hr); injection H as ->.
Qed.

Section safety.
Context (prog : Program) (tys : TyStore) (host : HostEnv) (world : HostWorld).

Lemma deref_of_arena fr i s r row a d m :
  prov_of r m = (m, Done (Ok row)) → target row = TArena a d →
  ∀ v, nth_z (arenas m) a = Some v → (RefVal.unpack (bits r)).1 ≠ arena_gen v →
  resolve_deref prog fr i s r m = trap ArenaGeneration m.
Proof.
  intros Hr Ht v Hv Hg. unfold resolve_deref, mbind, call_bind at 1. rewrite Hr, Ht.
  destruct (RefVal.unpack (bits r)) as [g off]. simpl in *. unfold call_bind. simpl.
  rewrite Hv. simpl. destruct (Z.eqb_spec (arena_gen v) g); [congruence|done].
Qed.

Lemma deref_of_alloc fr i s p row id m :
  prov_of p m = (m, Done (Ok row)) → target row = TAlloc id →
  ∀ st, alloc_state m id = Some (Freed st) →
  resolve_deref prog fr i s p m = ub prog fr i s UseAfterFree m.
Proof.
  intros Hr Ht st Hst. unfold resolve_deref, mbind, call_bind at 1. rewrite Hr, Ht.
  unfold call_bind, check_alloc_live, mbind, call_bind. simpl. rewrite Hst.
  unfold ub, mbind, call_bind. destruct (site_of _ _ _ _) as [m' [| |[]]]; done.
Qed.

(** What [arena_reset] leaves behind. *)
Lemma arena_reset_raises fr i row dest m m1 slot prow a d :
  exec_arena_reset prog fr i row dest m = (m1, Done (Ok ())) →
  operand prog fr i row (i_a row) m = (m, Done (Ok slot)) →
  prov_of slot m = (m, Done (Ok prow)) → target prow = TArena a d →
  ∃ v v1, nth_z (arenas m) a = Some v ∧ nth_z (arenas m1) a = Some v1 ∧ arena_gen v < arena_gen v1.
Proof.
  intros H Hop Hpr Ht. unfold exec_arena_reset in H.
  apply read_bind_Ok in H as (x & Hx & H); [|apply reads_operand].
  assert (x = slot) as -> by congruence.
  apply read_bind_Ok in H as (y & Hy & H); [|auto with reads].
  assert (y = prow) as -> by congruence. unfold arena_target in H. rewrite Ht in H.
  apply read_bind_Ok in H as ([a' d'] & Had & H); [|auto with reads]. injection Had as -> ->.
  apply read_bind_Ok in H as (u & _ & H); [|auto with reads].
  apply read_bind_Ok in H as (ars & Hars & H); [|auto with reads]. injection Hars as <-.
  apply read_bind_Ok in H as (v & Hv & H); [|auto with reads].
  unfold ix in Hv. destruct (nth_z (arenas m) a') as [v'|] eqn:Hva; [|done]. injection Hv as ->.
  apply read_bind_Ok in H as (v1 & Hv1 & H); [|auto with reads].
  destruct (ArenaVal.reset v) as [w|] eqn:Hw; [|done]. injection Hv1 as ->.
  apply arena_reset_evolves in Hw as [_ Hgen].
  apply call_bind_Ok in H as ([] & m2 & Hm & H). injection Hm as <-.
  apply read_bind_Ok in H as (als & _ & H); [|auto with reads].
  apply read_bind_Ok in H as (al & _ & H); [|auto with reads].
  apply call_bind_Ok in H as ([] & m3 & Hm & H). injection Hm as <-.
  exists v, v1. split; [done|].
  set (m2 := set_allocs _ _) in *.
  assert (nth_z (arenas m2) a' = Some v1) as H2.
  { apply nth_z_Some in Hva as [Hi Hl]. apply nth_z_Some. split; [done|]. subst m2. simpl.
    apply list_lookup_insert_eq. by apply lookup_lt_Some in Hl. }
  pose proof (walks_define dest fr Slot.unit m2) as Hd. unfold wp in Hd.
  rewrite H in Hd. destruct Hd as [[_ Har _ _ _ _ _ _ _] _].
  destruct (extends_nth_z _ _ _ _ _ _ Har H2) as (v2 & Hv2 & _ & _ & Hge).
  assert (arenas m1 = arenas m2) as Heq.
  { revert H. unfold define, Machine_define, on_frame. destruct dest; [|by intros [= <-]].
    intros (? & _ & H)%read_bind_Ok; [|auto with reads]. by injection H as <-. }
  rewrite Heq. split; [done|lia].
Qed.

(** C14: a reference into an arena made before [arena_reset] traps at every
    later use: whatever the program does after the reset, following any
    reference whose generation is not above the one the arena had then is an
    [arena-generation] trap, never a read of the memory reused. *)
Theorem stale_references_trap fr i row dest m m1 m2 aslot prow a d r rrow rd v fr' i' s' :
  exec_arena_reset prog fr i row dest m = (m1, Done (Ok ())) →
  operand prog fr i row (i_a row) m = (m, Done (Ok aslot)) →
  prov_of aslot m = (m, Done (Ok prow)) → target prow = TArena a d →
  nth_z (arenas m) a = Some v →
  prov_of r m = (m, Done (Ok rrow)) → target rrow = TArena a rd →
  (RefVal.unpack (bits r)).1 ≤ arena_gen v →
  rtc (turns prog tys host world) m1 m2 →
  resolve_deref prog fr' i' s' r m2 = trap ArenaGeneration m2.
Proof.
  intros Hreset Hop Hpr Ht Hv Hr Hrt Hg Hrun.
  destruct (arena_reset_raises _ _ _ _ _ _ _ _ _ _ Hreset Hop Hpr Ht) as (v' & v1 & Hv' & Hv1 & Hlt).
  assert (v' = v) as -> by congruence.
  pose proof (walks_exec_arena_reset prog fr i row dest m) as Hw. unfold wp in Hw.
  rewrite Hreset in Hw. destruct Hw as [Hev _]. apply run_evolves in Hrun as Hev2.
  destruct (extends_nth_z _ _ _ _ _ _ (ev_arenas _ _ Hev2) Hv1) as (v2 & Hv2 & _ & _ & Hge).
  eapply deref_of_arena; [|done|done|lia].
  by eapply prov_of_evolves, prov_of_evolves.
Qed.

(** What [free] leaves behind. *)
Lemma free_kills fr i row dest m m1 p prow id :
  exec_free prog fr i row dest m = (m1, Done (Ok ())) →
  operand prog fr i row (i_a row) m = (m, Done (Ok p)) →
  prov_of p m = (m, Done (Ok prow)) → target prow = TAlloc id →
  alloc_state m1 id = Some (Freed (i_site row)).
Proof.
  intros H Hop Hpr Ht. unfold exec_free in H.
  apply read_bind_Ok in H as (x & Hx & H); [|apply reads_operand].
  assert (x = p) as -> by congruence.
  apply read_bind_Ok in H as (y & Hy & H); [|auto with reads].
  assert (y = prow) as -> by congruence. rewrite Ht in H.
  apply read_bind_Ok in H as (u & _ & H); [|auto with reads].
  apply read_bind_Ok in H as (f & _ & H); [|auto with reads].
  apply read_bind_Ok in H as (b & _ & H); [|auto with reads].
  apply read_bind_Ok in H as (als & Hals & H); [|auto with reads]. injection Hals as <-.
  apply read_bind_Ok in H as (al & Hal & H); [|auto with reads].
  unfold ix in Hal. destruct (nth_z (allocs m) id) as [al'|] eqn:Ha; [|done]. injection Hal as ->.
  case_bool_decide; [|by apply read_bind_Ok in H as (? & _ & ?); [|auto with reads]].
  apply call_bind_Ok in H as ([] & m2 & Hm & H). injection Hm as <-.
  set (m2 := set_allocs _ _) in *.
  assert (nth_z (allocs m2) id = Some (Alloc.set_state al (Freed (i_site row)))) as H2.
  { apply nth_z_Some in Ha as [Hi Hl]. apply nth_z_Some. split; [done|]. subst m2. simpl.
    apply list_lookup_insert_eq. by apply lookup_lt_Some in Hl. }
  pose proof (walks_define dest fr Slot.unit m2) as Hd. unfold wp in Hd.
  rewrite H in Hd. destruct Hd as [[Hal _ _ _ _ _ _ _ _] _].
  destruct (extends_nth_z _ _ _ _ _ _ Hal H2) as (al2 & Hal2 & _ & Hfrozen).
  rewrite (alloc_state_Some _ _ _ Hal2), Hfrozen; done.
Qed.

(** C17: a freed object is dead for ever: after a [free], whatever the program
    does, every pointer to the object is answered with a use-after-free report
    when it is followed, and the object's bytes never change. *)
Theorem freed_objects_stay_dead fr i row dest m m1 m2 p prow id q qrow fr' i' s' :
  exec_free prog fr i row dest m = (m1, Done (Ok ())) →
  operand prog fr i row (i_a row) m = (m, Done (Ok p)) →
  prov_of p m = (m, Done (Ok prow)) → target prow = TAlloc id →
  prov_of q m = (m, Done (Ok qrow)) → target qrow = TAlloc id →
  rtc (turns prog tys host world) m1 m2 →
  resolve_deref prog fr' i' s' q m2 = ub prog fr' i' s' UseAfterFree m2 ∧
  nth_z (allocs m2) id = nth_z (allocs m1) id.
Proof.
  intros Hfree Hop Hpr Ht Hq Hqt Hrun.
  pose proof (free_kills _ _ _ _ _ _ _ _ _ Hfree Hop Hpr Ht) as Hdead.
  pose proof (walks_exec_free prog fr i row dest m) as Hw. unfold wp in Hw.
  rewrite Hfree in Hw. destruct Hw as [Hev _]. apply run_evolves in Hrun as Hev2.
  unfold alloc_state in Hdead. destruct (nth_z (allocs m1) id) as [al|] eqn:Hal; [|done].
  destruct (extends_nth_z _ _ _ _ _ _ (ev_allocs _ _ Hev2) Hal) as (al2 & Hal2 & _ & Hfrozen).
  injection Hdead as Hst. rewrite Hfrozen in Hal2 by (by rewrite Hst). split; [|by rewrite Hal2].
  eapply deref_of_alloc; [|done|].
  - by eapply prov_of_evolves, prov_of_evolves.
  - rewrite (alloc_state_Some _ _ _ Hal2). by rewrite Hst.
Qed.
End safety.

(** In the sample the arena is reset, and a turn later the reference made
    before is followed. *)
Lemma stale_references_trap_witness :
  let p := Sample.arena_prog in
  let m := Sample.after p 5 in
  let m1 := (exec_arena_reset p 0 5 (Sample.inst Op.ArenaReset 0 0 0) (Some 4) m).1 in
  let m2 := (turn p Sample.tys Sample.host Sample.world m1).1 in
  resolve_deref p 0 0 0 (Slot.ptr 0 2) m2 = trap ArenaGeneration m2.
Proof.
  apply (stale_references_trap Sample.arena_prog Sample.tys Sample.host Sample.world 0 5
    (Sample.inst Op.ArenaReset 0 0 0) (Some 4) (Sample.after Sample.arena_prog 5)
    (exec_arena_reset Sample.arena_prog 0 5 (Sample.inst Op.ArenaReset 0 0 0) (Some 4)
      (Sample.after Sample.arena_prog 5)).1 _
    (Slot.ptr 0 1) (MkProv (TArena 0 1) 1) 0 1 (Slot.ptr 0 2) (MkProv (TArena 0 1) 1) 1
    (MkArena 0 0 4 (2 ^ 64 - 1) 1)).
  1-7: vm_compute; reflexivity.
  - vm_compute. discriminate.
  - apply rtc_once. vm_compute. reflexivity.
Defined.

(** In the sample the object is freed, and a turn later it is read. *)
Lemma freed_objects_stay_dead_witness :
  let p := Sample.heap_prog in
  let m := Sample.after p 5 in
  let m1 := (exec_free p 0 5 (Sample.inst Op.Free 1 0 0) (Some 3) m).1 in
  resolve_deref p 0 0 0 (Slot.ptr 0 1) m1 = ub p 0 0 0 UseAfterFree m1 ∧
  nth_z (allocs m1) 1 = nth_z (allocs m1) 1.
Proof.
  apply (freed_objects_stay_dead Sample.heap_prog Sample.tys Sample.host Sample.world 0 5
    (Sample.inst Op.Free 1 0 0) (Some 3) (Sample.after Sample.heap_prog 5)
    (exec_free Sample.heap_prog 0 5 (Sample.inst Op.Free 1 0 0) (Some 3)
      (Sample.after Sample.heap_prog 5)).1 _
    (Slot.ptr 0 1) (MkProv (TAlloc 1) 1) 1 (Slot.ptr 0 1) (MkProv (TAlloc 1) 1)).
  1-6: vm_compute; reflexivity.
  apply rtc_refl.
Defined.

(** A pointer made by [arena_deref] outlives the reset the reference it
    came from does not: it carries no generation, so in the sample the read
    through it, after the reset, returns the 77 stored in the new allocation. *)
Theorem deref_pointer_outlives_reset :
  let p := Sample.arena_prog in
  let m := Sample.after p 11 in
  prov_of (Slot.ptr 0 3) m = (m, Done (Ok (MkProv (TAlloc 1) 1))) ∧
  (fmap arena_gen (nth_z (arenas m) 0) = Some 1) ∧
  snd (read_through p Sample.tys 0 11 0 0 Sample.U32_TY m) = Done (Ok (Slot.ptr 77 0)).
Proof. vm_compute. done. Qed.
