(* ===== verification/InterpRuns.v ===== *)
(** * Whole runs

    Termination within the budget, the capabilities a run can use, and the
    independence of comptime evaluation from the host. *)

From Stdlib Require Import String.
From S2P Require Import Prelude InterpArith InterpFloat Reduce FmirData InterpState InterpHost InterpMachine InterpExec InterpRun InterpWp InterpStep.
From stdpp Require Import gmap.
Local Open Scope Z_scope.

(** ** Termination *)

Section runs.
Context (prog : Program) (tys : TyStore) (host : HostEnv) (world : HostWorld).

(** More fuel than a run needs changes nothing. *)
Lemma drive_more fuel k m :
  (drive prog tys host world fuel m).2 ≠ OutOfFuel →
  drive prog tys host world (fuel + k) m = drive prog tys host world fuel m.
Proof.
  revert m. induction fuel as [|fuel IH]; intros m H; [done|].
  revert H. cbn [drive Nat.add]. unfold mbind, call_bind.
  destruct (turn prog tys host world m) as [m1 [| |[[o|]|e]]]; try done. apply IH.
Qed.

Lemma reads_root_cap_of ty : reads (root_cap_of prog tys ty).
Proof. unfold root_cap_of. reading. Qed.

(** *** The shim *)

(** The machine the shim hands over: nothing spent, only the granted cells. *)
Definition fresh (m0 m : Machine) : Prop := ∃ cs, m = set_cells (λ l, l ++ cs) m0.

Lemma fresh_refl m : fresh m m.
Proof. exists []. destruct m. unfold set_cells. simpl. by rewrite app_nil_r. Qed.
Lemma fresh_trans m1 m2 m3 : fresh m1 m2 → fresh m2 m3 → fresh m1 m3.
Proof.
  intros [c1 ->] [c2 ->]. exists (c1 ++ c2). destruct m1. unfold set_cells. simpl.
  by rewrite app_assoc.
Qed.

Lemma entry_arg_fresh a m :
  wp True (entry_arg world a) (λ _ m', fresh m m') (λ _ m', fresh m m') m.
Proof.
  destruct a as [c|]; simpl; [|apply wp_ret, fresh_refl]. apply wp_bind.
  eapply wp_mono with (Q := λ _ m', m' = m) (E := λ _ m', m' = m); simpl.
  - case_bool_decide; [|by apply wp_ret]. apply wp_bind, wp_gets.
    destruct (Oracle.ensure_entropy _ _); [by apply wp_ret|by apply wp_fail].
  - intros _ m' ->. apply wp_bind, wp_gets, wp_bind, wp_modify, wp_ret. by eexists.
  - intros _ m' ->. apply fresh_refl.
Qed.

Lemma entry_args_fresh m :
  wp True (entry_args prog tys world) (λ _ m', fresh m m') (λ _ m', fresh m m') m.
Proof.
  unfold entry_args. apply wp_bind.
  eapply wp_mono; [apply reads_func_at| |intros _ m' ->; apply fresh_refl].
  intros f m' ->. simpl. apply wp_bind.
  eapply wp_mono; [apply reads_mapMM, reads_root_cap_of| |intros _ m' ->; apply fresh_refl].
  intros caps m' ->. simpl. apply wp_bind, wp_some_or; [|intros _; apply fresh_refl].
  intros plan _. apply (wp_mapMM True (entry_arg world) plan (fresh m)); [apply fresh_refl|].
  intros a m1 _ H1. eapply wp_mono; [apply entry_arg_fresh|..]; simpl; intros _ m2; by apply fresh_trans.
Qed.

(** What starting a frame leaves. *)
Lemma enter_starts fi d a m m' :
  enter prog fi d a m = (m', Done (Ok ())) → ct m' = ct m ∧ steps m' = steps m ∧
    step_cap m' = step_cap m ∧ cells m' = cells m ∧ oracle m' = oracle m ∧ stdout m' = stdout m.
Proof.
  unfold enter. intros (fs & _ & H)%read_bind_Ok; [|auto with reads].
  destruct (MAX_FRAMES <=? len_z fs); [done|].
  apply read_bind_Ok in H as (f & _ & H); [|auto with reads].
  apply read_bind_Ok in H as (sr & _ & H); [|auto with reads].
  by injection H as <-.
Qed.

Lemma spent_fresh m m' :
  ct m' = ct m → steps m' = steps m → step_cap m' = step_cap m → within m →
  within m' ∧ budget m' = budget m ∧ spent m' = spent m.
Proof.
  intros Hc Hs Hp W. assert (budget m' = budget m ∧ spent m' = spent m) as [Hb Hsp].
  { unfold budget, spent. by rewrite Hc, Hs, Hp. }
  split; [|done]. unfold within in *. by rewrite Hb, Hsp.
Qed.

(** The shim leaves the meter as it was, or the run is over. *)
Lemma run_starts max_steps o : 0 ≤ max_steps < 2 ^ 64 - 1 →
  (∃ m r, ∀ fuel, run_machine prog tys host world fuel max_steps (new_machine o None) = (m, r) ∧
     r ≠ OutOfFuel) ∨
  ∃ m, within m ∧ budget m - spent m = max_steps ∧
    ∀ fuel, run_machine prog tys host world fuel max_steps (new_machine o None) =
      (r ← drive prog tys host world fuel; mret r.1) m.
Proof.
  intros Hcap. unfold run_machine, mbind, call_bind. cbn [modify]. set (m0 := set_step_cap _ _).
  assert (within m0 ∧ budget m0 - spent m0 = max_steps) as [W Hm].
  { unfold within, budget, spent. simpl. lia. }
  destruct (_ <=? _); [left; by exists m0, (Done (Err (FError NoEntry)))|].
  pose proof (entry_args_fresh m0) as Hf. unfold wp in Hf.
  destruct (entry_args prog tys world m0) as [m1 [| |[argv|e]]]; [done|..].
  1,3: left; by eexists _, _.
  destruct Hf as [cs ->]. set (m1 := set_cells _ m0).
  pose proof (walks_enter prog (prog_entry prog) None argv m1) as He. unfold wp in He.
  destruct (enter _ _ _ _ m1) as [m2 [| |[[]|e]]] eqn:Hent; [done|..].
  1,3: left; by eexists _, _.
  apply enter_starts in Hent as (Hc & Hs & Hp & _).
  destruct (spent_fresh m0 m2) as (W2 & Hb2 & Hs2); [done..|].
  right. exists m2. split_and!; [done|lia|done].
Qed.

(** C6: a run ends: with one turn of fuel more than the step cap the interpreter
    returns an outcome or an error (or panics), on every program, every host and
    every well-typed or ill-typed input; and any greater fuel gives the same
    machine and the same result. *)
Theorem runs_end max_steps o fuel fuel' :
  0 ≤ max_steps < 2 ^ 64 - 1 → max_steps < Z.of_nat fuel → (fuel ≤ fuel')%nat →
  (run_machine prog tys host world fuel max_steps (new_machine o None)).2 ≠ OutOfFuel ∧
  run_machine prog tys host world fuel' max_steps (new_machine o None) =
  run_machine prog tys host world fuel max_steps (new_machine o None).
Proof.
  intros Hcap Hfuel Hle.
  destruct (run_starts max_steps o Hcap) as [(m & r & H)|(m & W & Hb & H)].
  { destruct (H fuel) as [-> Hr]. by destruct (H fuel') as [-> _]. }
  rewrite !H. pose proof (drive_total prog tys host world fuel m W ltac:(lia)) as Hd.
  replace fuel' with (fuel + (fuel' - fuel))%nat by lia. unfold mbind, call_bind, wp in *.
  rewrite drive_more; destruct (drive _ _ _ _ fuel m) as [m3 [| |[[]|]]]; done.
Qed.

(** ** Comptime *)

Lemma ct_kept m m' : evolves m m' → is_Some (ct m) → is_Some (ct m').
Proof.
  intros [_ _ _ _ _ _ _ Hc _] [c Hm]. unfold ct_evolves in Hc. rewrite Hm in Hc.
  by destruct (ct m').
Qed.

(** Two calls that agree in comptime mode. *)
Definition same_ct {A} (c1 c2 : M A) : Prop := ∀ m, is_Some (ct m) → c1 m = c2 m.

Lemma same_refl {A} (c : M A) : same_ct c c.
Proof. done. Qed.
Lemma same_bind {A B} (c1 c2 : M A) (f1 f2 : A → M B) :
  same_ct c1 c2 → (∀ m, is_Some (ct m) →
    match c2 m with (m', Done (Ok a)) => f1 a m' = f2 a m' | _ => True end) →
  same_ct (c1 ≫= f1) (c2 ≫= f2).
Proof.
  intros Hc Hf m Hm. unfold mbind, call_bind. rewrite (Hc m Hm). specialize (Hf m Hm).
  by destruct (c2 m) as [m' [| |[a|e]]].
Qed.
Lemma same_walks {A B} (c : M A) (f1 f2 : A → M B) :
  walks c → (∀ a, same_ct (f1 a) (f2 a)) → same_ct (c ≫= f1) (c ≫= f2).
Proof.
  intros Hc Hf. apply same_bind; [done|]. intros m Hm. specialize (Hc m). unfold wp in Hc.
  destruct (c m) as [m' [| |[a|e]]]; try done. destruct Hc as [He _].
  by apply Hf, (ct_kept m).
Qed.
Lemma same_settle s (c1 c2 : M FrameStep) :
  same_ct c1 c2 → same_ct (settle_fault s c1) (settle_fault s c2).
Proof. intros H m Hm. unfold settle_fault. by rewrite H. Qed.

(** *** Two hosts *)
Context (host' : HostEnv) (world' : HostWorld).

Lemma same_quiet fr d i a m : quiet i = true →
  exec_intrinsic prog host world fr d i a m = exec_intrinsic prog host' world' fr d i a m.
Proof. by destruct i. Qed.

Lemma same_intrinsic_call fr i row d :
  same_ct (exec_intrinsic_call prog host world fr i row d)
          (exec_intrinsic_call prog host' world' fr i row d).
Proof.
  unfold exec_intrinsic_call. do 5 (apply same_walks; [walking|intros ?]).
  apply same_bind; [done|]. intros m Hm.
  pose proof (reads_gate_intrinsic prog fr (i_site row)) as Hg.
  match goal with |- context [gate_intrinsic prog fr (i_site row) ?n m] => specialize (Hg n m);
    destruct (gate_intrinsic prog fr (i_site row) n m) as [m' [| |[door|e]]] eqn:Hgate end; try done.
  unfold wp in Hg. rewrite Hgate in Hg. subst m'.
  apply gate_quiet in Hgate as [Hn|Hq]; [|exact (same_quiet _ _ _ _ _ Hq)]. destruct Hm as [? Hm]. by rewrite Hm in Hn.
Qed.

Lemma same_exec_inst fr i row :
  same_ct (exec_inst prog tys host world fr i row) (exec_inst prog tys host' world' fr i row).
Proof.
  unfold exec_inst. apply same_walks; [apply walks_reads, reads_result_of|]. intros d.
  destruct (i_op row);
    match goal with
    | |- same_ct (exec_intrinsic_call _ _ _ _ _ _ _) _ => apply same_intrinsic_call
    | _ => apply same_refl
    end.
Qed.

Lemma same_step_frame fr :
  same_ct (step_frame prog tys host world fr) (step_frame prog tys host' world' fr).
Proof.
  unfold step_frame. do 4 (apply same_walks; [walking|intros ?]). destruct (_ <? _); [|apply same_refl].
  do 2 (apply same_walks; [walking|intros ?]). apply same_settle.
  apply same_bind; [apply same_exec_inst|]. intros m Hm. by destruct (exec_inst _ _ _ _ _ _ _ m) as [? [| |[]]].
Qed.

Lemma same_turn : same_ct (turn prog tys host world) (turn prog tys host' world').
Proof.
  unfold turn. apply same_walks; [walking|]. intros n.
  apply same_bind; [apply same_step_frame|]. intros m Hm.
  by destruct (step_frame _ _ _ _ _ m) as [? [| |[]]].
Qed.

Lemma same_drive fuel : same_ct (drive prog tys host world fuel) (drive prog tys host' world' fuel).
Proof.
  induction fuel as [|fuel IH]; [done|]. cbn [drive]. apply same_bind; [apply same_turn|].
  intros m Hm. pose proof (turn_spec prog tys host' world' m) as Ht. unfold wp in Ht.
  destruct (turn prog tys host' world' m) as [m' [| |[r|e]]]; [exact I|exact I| |exact I].
  destruct Ht as [He _]. destruct r; [reflexivity|]. exact (IH m' (ct_kept _ _ He Hm)).
Qed.

(** *** The parameters, whose withheld capabilities are cells of their own *)

Definition sealed (m m' : Machine) : Prop :=
  is_Some (ct m') ∧ oracle m' = oracle m ∧ budget m' = budget m.
Definition seals {A} (c : M A) : Prop :=
  ∀ m, is_Some (ct m) → wp True c (λ _ m', sealed m m' ∧ paced m m') (λ _ m', sealed m m') m.

Lemma sealed_refl m : is_Some (ct m) → sealed m m.
Proof. by split. Qed.
Lemma sealed_trans m1 m2 m3 : sealed m1 m2 → sealed m2 m3 → sealed m1 m3.
Proof. intros (?&?&?) (?&?&?). split_and!; congruence. Qed.
Lemma paced_trans m1 m2 m3 : paced m1 m2 → paced m2 m3 → paced m1 m3.
Proof. intros P1 P2 [W S]%P1. destruct (P2 W) as [W' S']. split; [done|lia]. Qed.

Lemma evolves_sealed m m' : evolves m m' → is_Some (ct m) → sealed m m'.
Proof.
  intros He Hm. split; [by eapply ct_kept|]. destruct He as [_ _ _ _ _ _ _ Hc _].
  destruct Hm as [c Hm]. unfold ct_evolves, budget in *. rewrite Hm in *.
  destruct (ct m'); [|done]. by destruct_and!.
Qed.

Lemma seals_walks {A} (c : M A) : walks c → seals c.
Proof.
  intros Hc m Hm. eapply wp_mono; [apply Hc| |]; simpl.
  - intros _ m' [He Hp]. split; [by apply evolves_sealed|done].
  - intros _ m' He. by apply evolves_sealed.
Qed.

Lemma seals_bind {A B} (c : M A) (f : A → M B) : seals c → (∀ a, seals (f a)) → seals (c ≫= f).
Proof.
  intros Hc Hf m Hm. apply wp_bind. eapply wp_mono; [by apply Hc| |done]; simpl.
  intros a m1 [H1 P1]. eapply wp_mono; [apply Hf, H1| |]; simpl.
  - intros b m2 [H2 P2]. split; [by eapply sealed_trans|by eapply paced_trans].
  - intros e m2 H2. by eapply sealed_trans.
Qed.

Lemma seals_mapMM {A B} (f : A → M B) l : (∀ x, seals (f x)) → seals (mapMM f l).
Proof.
  intros Hf. induction l as [|x l IH]; [by apply seals_walks, walks_reads|]. simpl.
  apply seals_bind; [done|]. intros y. apply seals_bind; [done|]. intros ys.
  apply seals_walks, walks_reads, reads_ret.
Qed.

Lemma seals_new_cells c : seals (new_cells c).
Proof.
  unfold new_cells. do 2 (apply seals_bind; [apply seals_walks; walking|intros ?]).
  apply seals_bind; [|intros; apply seals_walks; walking].
  intros m Hm. apply wp_modify. split; [done|]. intros W. split; [exact W|apply Z.le_refl].
Qed.

Lemma seals_ct_param ty : seals (ct_param prog tys ty).
Proof.
  unfold ct_param. apply seals_bind; [apply seals_walks, walks_reads, reads_root_cap_of|].
  intros [c|]; [|apply seals_walks; walking].
  apply seals_bind; [apply seals_new_cells|intros; apply seals_walks; walking].
Qed.

Lemma walks_encode_result v : walks (encode_result tys v).
Proof.
  unfold encode_result. walking. intros m. unfold wp.
  match goal with |- context [num_kind tys ?t m] => pose proof (reads_num_kind tys t m) as Hr end.
  unfold wp in Hr.
  destruct (num_kind _ _ m) as [m' [| |[[[k|k]|]|e]]]; try done; subst; apply goes_refl.
Qed.

Lemma same_seals {A B} (c : M A) (f1 f2 : A → M B) :
  seals c → (∀ a, same_ct (f1 a) (f2 a)) → same_ct (c ≫= f1) (c ≫= f2).
Proof.
  intros Hc Hf. apply same_bind; [apply same_refl|]. intros m Hm. specialize (Hc m Hm).
  unfold wp in Hc. destruct (c m) as [m' [| |[a|e]]]; [exact I|exact I| |exact I].
  apply Hf, Hc.
Qed.

Lemma same_comptime_body fuel :
  same_ct (comptime_body prog tys host world fuel) (comptime_body prog tys host' world' fuel).
Proof.
  unfold comptime_body. destruct (_ <=? _); [apply same_refl|].
  apply same_walks; [walking|intros f].
  apply same_seals; [apply seals_mapMM, seals_ct_param|intros argv].
  apply same_walks; [walking|intros []].
  apply same_bind; [apply same_drive|]. intros m Hm.
  destruct (drive prog tys host' world' fuel m) as [m' [| |[[o v]|e]]]; [exact I|exact I| |exact I].
  reflexivity.
Qed.

(** Everything around the turns. *)
Lemma comptime_body_seals fuel m :
  is_Some (ct m) → within m → budget m - spent m < Z.of_nat fuel →
  wp True (comptime_body prog tys host world fuel) (λ _ m', sealed m m') (λ _ m', sealed m m') m.
Proof.
  intros Hm W Hf. unfold comptime_body. destruct (_ <=? _); [by apply wp_fail, sealed_refl|].
  apply wp_bind. eapply wp_mono; [apply reads_func_at| |intros _ m' ->; by apply sealed_refl].
  intros f m' ->. simpl. apply wp_bind.
  eapply wp_mono; [by apply (seals_mapMM _ _ seals_ct_param)| |done]. simpl. intros argv m1 [S1 P1].
  apply wp_bind.
  eapply wp_mono; [apply (seals_walks _ (walks_enter prog (prog_entry prog) None argv)), S1|..]; simpl;
    [|intros e m2 S2; by eapply sealed_trans].
  intros _ m2 [S2 P2]. destruct (P1 W) as [W1 L1], (P2 W1) as [W2 L2].
  pose proof S1 as (_ & _ & B1). pose proof S2 as (_ & _ & B2).
  assert (∀ m3, evolves m2 m3 → sealed m m3) as Hgo.
  { intros m3 He. eapply sealed_trans; [done|]. eapply sealed_trans; [done|].
    apply evolves_sealed; [done|apply S2]. }
  apply wp_bind. eapply wp_mono; [apply drive_total; [done|lia]| |]; simpl.
  - intros [o v] m3 He3. apply wp_bind.
    eapply wp_mono; [apply walks_encode_result| |]; simpl; intros x m4 H4; [apply wp_ret; destruct H4|];
      apply Hgo; by eapply evolves_trans.
  - intros e m3 He3. by apply Hgo.
Qed.
End runs.

(** C4: comptime evaluation is hermetic: its result and its final state do not
    depend on the clock, the entropy device or the descriptors of the host, and
    the oracle it is given is never asked anything. *)
Theorem comptime_is_hermetic prog tys fuel c host world host' world' :
  let run := run_comptime prog tys host world fuel c in
  run = run_comptime prog tys host' world' fuel c ∧
  (0 ≤ m_steps (meter c) ≤ allowance (meter c) →
   allowance (meter c) < 2 ^ 64 - 1 → allowance (meter c) - m_steps (meter c) < Z.of_nat fuel →
   match run with
   | (m, Done _) => oracle m = Oracle.sealed
   | (_, r) => r = Panic
   end).
Proof.
  split; [by apply same_comptime_body|]. intros Hs Ha Hf. unfold run_comptime.
  pose proof (comptime_body_seals prog tys host world fuel (new_machine Oracle.sealed (Some c))
    ltac:(done) ltac:(done) Hf) as H.
  unfold wp in H. destruct (comptime_body _ _ _ _ _ _) as [m' [| |[r|e]]]; try done; apply H.
Qed.

(** * Capabilities

    A run answers a question of the host only through a capability cell, and
    the only such cells are those the entry shim makes for the parameters of
    the entry function. *)

Section caps.
Context (prog : Program) (tys : TyStore) (host : HostEnv) (world : HostWorld).

(** A run that returned evolved the machine, whatever its fuel. *)
Lemma drive_evolves fuel m m' r :
  drive prog tys host world fuel m = (m', Done r) → evolves m m'.
Proof.
  revert m. induction fuel as [|fuel IH]; intros m; [done|]. cbn [drive].
  unfold mbind, call_bind. pose proof (turn_spec prog tys host world m) as Ht. unfold wp in Ht.
  destruct (turn prog tys host world m) as [m1 [| |[[o|]|e]]]; try done.
  - intros [= <- <-]. apply Ht.
  - intros H. eapply evolves_trans; [apply Ht|by apply IH].
  - by intros [= <- <-].
Qed.

(** The capability a parameter of type [ty] asks for. *)
Definition entry_cap (ty : Z) : option RootCap :=
  bare ← (if ty <? ty_len tys then nth_z (ty_unqual tys) ty else Some ty);
  TypeNames.root_cap (names prog) bare.

Lemma root_cap_of_Ok ty m m' c :
  root_cap_of prog tys ty m = (m', Done (Ok c)) → m' = m ∧ c = entry_cap ty.
Proof.
  unfold root_cap_of, entry_cap. intros (b & Hb & H)%read_bind_Ok; [|reading].
  injection H as <- <-. split; [done|]. destruct (ty <? ty_len tys).
  - unfold unqual, ix in Hb. destruct (nth_z (ty_unqual tys) ty); [|done]. by injection Hb as ->.
  - by injection Hb as <-.
Qed.

Lemma root_caps_Ok l m m' cs :
  mapMM (root_cap_of prog tys) l m = (m', Done (Ok cs)) → m' = m ∧ cs = entry_cap <$> l.
Proof.
  revert m m' cs. induction l as [|x l IH]; intros m m' cs; simpl; [by intros [= <- <-]|].
  intros (c & m1 & [-> ->]%root_cap_of_Ok & H)%call_bind_Ok.
  apply call_bind_Ok in H as (cs' & m2 & [-> ->]%IH & H). by injection H as <- <-.
Qed.

Lemma plan_loop_roots params typed seen plan c :
  plan_loop params typed seen = Some plan → ARoot c ∈ plan → Some c ∈ params.
Proof.
  revert seen plan. induction params as [|[c'|] params IH]; intros seen plan; simpl.
  - intros [= <-] H. by apply elem_of_nil in H.
  - case_bool_decide; [done|]. destruct (plan_loop params typed _) as [rest|] eqn:Hr; [|done].
    intros [= <-] [[= ->]|H']%elem_of_cons; [by left|]. right. by eapply IH.
  - destruct typed; [done|]. simpl. destruct (plan_loop params false seen) as [rest|] eqn:Hr; [|done].
    intros [= <-] [|H']%elem_of_cons; [done|]. right. by eapply IH.
Qed.

(** No capability but those of [l] appears between two states. *)
Definition grants_of (l : list EntryArg) (m m' : Machine) : Prop :=
  oracle m' = oracle m ∧ ∀ c, granted m' c → granted m c ∨ ARoot c ∈ l.

Lemma entry_arg_grants l a m0 m : a ∈ l → grants_of l m0 m →
  wp True (entry_arg world a) (λ _, grants_of l m0) (λ _, grants_of l m0) m.
Proof.
  intros Ha [Ho Hg]. destruct a as [c|]; simpl; [|by apply wp_ret].
  apply wp_bind. eapply wp_mono with (Q := λ _ m', m' = m) (E := λ _ m', m' = m); simpl.
  - case_bool_decide; [|by apply wp_ret]. apply wp_bind, wp_gets.
    destruct (Oracle.ensure_entropy _ _); [by apply wp_ret|by apply wp_fail].
  - intros _ m' ->. apply wp_bind, wp_gets, wp_bind, wp_modify, wp_ret. split; [done|].
    intros c' (i & x & Hi & Hx). simpl in Hi.
    apply lookup_app_Some in Hi as [Hi|[_ Hi]]; [apply Hg; by exists i, x|].
    apply list_lookup_singleton_Some in Hi as [_ <-]. injection Hx as <-. by right.
  - by intros _ m' ->.
Qed.

(** A parameter of the entry function asks for [c]. *)
Definition entry_asks (c : RootCap) : Prop :=
  ∃ f ty, nth_z (fns prog) (prog_entry prog) = Some f ∧ ty ∈ param_types (fn_decl f) ∧
    entry_cap ty = Some c.

Lemma entry_args_grant m m' r :
  entry_args prog tys world m = (m', Done r) →
  oracle m' = oracle m ∧ ∀ c, granted m' c → granted m c ∨ entry_asks c.
Proof.
  intros H. assert (wp True (entry_args prog tys world)
    (λ _ m', oracle m' = oracle m ∧ ∀ c, granted m' c → granted m c ∨ entry_asks c)
    (λ _ m', oracle m' = oracle m ∧ ∀ c, granted m' c → granted m c ∨ entry_asks c) m) as Hw.
  2: { unfold wp in Hw. rewrite H in Hw. by destruct r. }
  unfold entry_args. apply wp_bind, wp_ix; [|done]. intros f Hf. apply wp_bind.
  pose proof (reads_mapMM (root_cap_of prog tys) (param_types (fn_decl f)) (reads_root_cap_of prog tys) m) as Hr.
  unfold wp at 1. unfold wp in Hr.
  destruct (mapMM (root_cap_of prog tys) (param_types (fn_decl f)) m) as [m1 [| |[caps|e]]] eqn:Hcaps;
    try done; subst m1; [|split; auto].
  apply root_caps_Ok in Hcaps as [_ ->].
  apply wp_bind, wp_some_or; [|split; auto]. intros plan Hplan.
  assert (∀ m', grants_of plan m m' → oracle m' = oracle m ∧
    ∀ c, granted m' c → granted m c ∨ entry_asks c) as Hgo.
  { intros m2 [Ho Hg]. split; [done|]. intros c [Hc|Hc]%Hg; [by left|right].
    apply (plan_loop_roots _ _ _ _ _ Hplan) in Hc.
    apply list_elem_of_fmap in Hc as (ty & Hty & Hin). exists f, ty. split_and!; try done. }
  eapply wp_mono; [apply (wp_mapMM True (entry_arg world) plan (grants_of plan m))| |].
  - split; auto.
  - intros a m2 Ha. by apply entry_arg_grants.
  - intros x m2. apply Hgo.
  - intros x m2. apply Hgo.
Qed.

(** C5: every answer the host gives a run, live or replayed, is to a question of
    a capability that a parameter of the entry function asks for: a program
    whose [main] takes no [Clock] reads no clock, and one that takes no [Rng]
    draws no entropy, whatever else it computes. *)
Theorem host_answers_were_granted fuel o max_steps m r :
  run_machine prog tys host world fuel max_steps (new_machine o None) = (m, Done r) →
  ∃ evs, log (oracle m) = log o ++ evs ∧ ∀ e, e ∈ evs → entry_asks (event_cap e).
Proof.
  set (m0 := set_step_cap (λ _, max_steps) (new_machine o None)).
  assert (∀ m1 m2, oracle m1 = o → (∀ c, granted m1 c → entry_asks c) → evolves m1 m2 →
    ∃ evs, log (oracle m2) = log o ++ evs ∧ ∀ e, e ∈ evs → entry_asks (event_cap e)) as Hgo.
  { intros m1 m2 <- Hg [_ _ _ _ _ _ (evs & Hl & He) _ _]. exists evs. split; [done|].
    intros e Hin. apply Hg, He, Hin. }
  assert (∀ c, ¬ granted m0 c) as Hnone.
  { intros c (i & x & Hi & _). by destruct i. }
  unfold run_machine, mbind, call_bind. cbn [modify]. fold m0.
  destruct (_ <=? _). { intros [= <- _]. apply (Hgo m0 m0); [done| |apply evolves_refl]. by intros c ?%Hnone. }
  destruct (entry_args prog tys world m0) as [m1 r1] eqn:Hargs.
  destruct r1 as [| |r1]; [done|done|]. apply entry_args_grant in Hargs as [Ho1 Hg1].
  assert (∀ c, granted m1 c → entry_asks c) as Hm1 by (intros c [?%Hnone|?]%Hg1; done).
  destruct r1 as [argv|e]; [|intros [= <- _]; apply (Hgo m1 m1); eauto using evolves_refl].
  pose proof (walks_enter prog (prog_entry prog) None argv m1) as He. unfold wp in He.
  destruct (enter _ _ _ _ m1) as [m2 [| |[[]|e]]]; try done.
  2: { intros [= <- _]. by apply (Hgo m1 m2). }
  destruct (drive prog tys host world fuel m2) as [m3 [| |r3]] eqn:Hd; try done.
  apply drive_evolves in Hd. destruct He as [He _]. pose proof (evolves_trans _ _ _ He Hd) as He3.
  destruct r3 as [[out v]|e]; intros [= <- _]; by apply (Hgo m1 m3).
Qed.

(** The capability cell in row [i], a door that is open or withheld. *)
Definition cap_at (m : Machine) (i : nat) : option Cells :=
  x ← cells m !! i; if is_cap x then Some x else None.

(** Capability cells hold no slots, as the shim makes them. *)
Definition caps_empty (m : Machine) : Prop := ∀ i x, cap_at m i = Some x → slots x = [].

Lemma cap_at_Some m i x : cap_at m i = Some x ↔ cells m !! i = Some x ∧ is_cap x = true.
Proof.
  unfold cap_at. destruct (cells m !! i) as [y|]; simpl; [|split; [done|by intros [? _]]].
  destruct (is_cap y) eqn:Hy; split; try done; [by intros [= <-]|by intros [[= <-] _]|].
  intros [[= <-] Hx]. congruence.
Qed.

Lemma is_cap_evolves x y : cell_evolves x y → is_cap y = is_cap x.
Proof. intros [Hk _]. unfold is_cap. by rewrite Hk. Qed.

Lemma cap_at_evolves m m' i : caps_empty m → evolves m m' → cap_at m' i = cap_at m i.
Proof.
  intros He Hev%ev_cells. destruct (cells m !! i) as [x|] eqn:Hx.
  - destruct (extends_lookup _ _ _ _ _ _ Hev Hx) as (x' & Hx' & Hxx).
    unfold cap_at. rewrite Hx, Hx'. simpl. rewrite (is_cap_evolves x x' Hxx).
    destruct (is_cap x) eqn:Hc; [|done]. f_equal.
    assert (slots x = []) as Hs by (apply (He i), cap_at_Some; done).
    destruct Hxx as [Hk Hl], x as [ss k], x' as [ss' k']. simpl in *. subst.
    by rewrite (nil_length_inv ss').
  - unfold cap_at. rewrite Hx. simpl. destruct (cells m' !! i) as [x'|] eqn:Hx'; simpl; [|done].
    destruct Hev as [_ Hev]. specialize (Hev i x' Hx'). rewrite Hx in Hev. by rewrite Hev.
Qed.

(** What the shim grants are such cells. *)
Lemma entry_arg_caps a m : caps_empty m →
  wp True (entry_arg world a) (λ _, caps_empty) (λ _, caps_empty) m.
Proof.
  intros Hm. destruct a as [c|]; simpl; [|by apply wp_ret].
  apply wp_bind. eapply wp_mono with (Q := λ _ m', m' = m) (E := λ _ m', m' = m); simpl.
  - case_bool_decide; [|by apply wp_ret]. apply wp_bind, wp_gets.
    destruct (Oracle.ensure_entropy _ _); [by apply wp_ret|by apply wp_fail].
  - intros _ m' ->. apply wp_bind, wp_gets, wp_bind, wp_modify, wp_ret.
    intros i x [Hi Hc]%cap_at_Some. simpl in Hi.
    apply lookup_app_Some in Hi as [Hi|[_ Hi]]; [by apply (Hm i), cap_at_Some|].
    by apply list_lookup_singleton_Some in Hi as [_ <-].
  - by intros _ m' ->.
Qed.

Lemma shim_caps_empty m m' argv : caps_empty m →
  entry_args prog tys world m = (m', Done (Ok argv)) → caps_empty m'.
Proof.
  intros Hm H. assert (wp True (entry_args prog tys world) (λ _, caps_empty) (λ _, caps_empty) m) as Hw.
  2: { unfold wp in Hw. by rewrite H in Hw. }
  unfold entry_args. apply wp_bind.
  eapply wp_mono; [apply reads_func_at| |by intros _ m1 ->].
  intros f m1 ->. simpl. apply wp_bind.
  eapply wp_mono; [apply reads_mapMM, reads_root_cap_of| |by intros _ m1 ->].
  intros caps m1 ->. simpl. apply wp_bind, wp_some_or; [|done].
  intros plan _. apply (wp_mapMM True (entry_arg world) plan caps_empty); [done|].
  intros a m1 _. apply entry_arg_caps.
Qed.

(** C18: capabilities are unforgeable. From a machine whose capability cells
    hold no slots, as the shim makes them ([shim_caps_empty]), no sequence of
    turns of a program makes, changes, moves or destroys one: each row that held
    a capability cell holds that very cell, and no other row holds one. So a
    door opens only to a receiver that names a row where a cell of the
    capability asked for already was. *)
Theorem capabilities_are_unforgeable m m' :
  caps_empty m → rtc (turns prog tys host world) m m' →
  caps_empty m' ∧ (∀ i, cap_at m' i = cap_at m i) ∧
  ∀ recv c m'', cap_receiver recv c m' = (m'', Done (Ok ())) →
    0 ≤ bits recv ∧ ∃ x, cap_at m (Z.to_nat (bits recv)) = Some x ∧ cell_kind x = CapCell c.
Proof.
  intros He Hrun%run_evolves. assert (∀ i, cap_at m' i = cap_at m i) as Hat.
  { intros i. by apply cap_at_evolves. }
  split; [|split; [done|]].
  { intros i x Hx. rewrite Hat in Hx. by apply (He i). }
  intros recv c m'' (x & Hi & Hx & Hk)%cap_receiver_cell. split; [done|]. exists x.
  rewrite <- Hat. split; [|done]. apply cap_at_Some. split; [done|]. apply is_cap_spec. eauto.
Qed.
End caps.

(** The sample that reads the clock ends within a cap of 10 steps. *)
Lemma runs_end_witness :
  let run fuel := run_machine Sample.clock_prog Sample.tys Sample.host Sample.world fuel 10
    (new_machine Oracle.live None) in
  (run 11%nat).2 ≠ OutOfFuel ∧ run 30%nat = run 11%nat.
Proof.
  apply (runs_end Sample.clock_prog Sample.tys Sample.host Sample.world 10 Oracle.live 11 30); lia.
Defined.

(** A comptime evaluation of the arena sample. *)
Definition sample_ct : CtState := MkCt (Meter.new Limits_default (2 ^ 28)) [] [] false [].
Lemma comptime_is_hermetic_witness :
  let other := MkWorld (λ n, 7) (λ n, 7) (λ n, None) false (λ _ _ _, false) in
  let run := run_comptime Sample.arena_prog Sample.tys Sample.host Sample.world (Z.to_nat 1048577) sample_ct in
  run = run_comptime Sample.arena_prog Sample.tys (MkEnv None None) other (Z.to_nat 1048577) sample_ct ∧
  match run with (m, Done _) => oracle m = Oracle.sealed | (_, r) => r = Panic end.
Proof.
  destruct (comptime_is_hermetic Sample.arena_prog Sample.tys (Z.to_nat 1048577) sample_ct
    Sample.host Sample.world (MkEnv None None)
    (MkWorld (λ n, 7) (λ n, 7) (λ n, None) false (λ _ _ _, false))) as [H1 H2].
  split; [exact H1|]. apply H2.
  - split; vm_compute; discriminate.
  - reflexivity.
  - rewrite Z2Nat.id by (vm_compute; discriminate). reflexivity.
Defined.

(** The sample whose [main] takes a clock logs two readings of it. *)
Lemma host_answers_were_granted_witness :
  ∃ evs, log (run_machine Sample.clock_prog Sample.tys Sample.host Sample.world 20 100
                (new_machine Oracle.live None)).1.(oracle) = log Oracle.live ++ evs ∧
    ∀ e, e ∈ evs → entry_asks Sample.clock_prog Sample.tys (event_cap e).
Proof.
  eapply (host_answers_were_granted Sample.clock_prog Sample.tys Sample.host Sample.world 20
    Oracle.live 100).
  vm_compute. reflexivity.
Defined.

(** The clock sample, its clock granted in row 0, and a turn later. *)
Definition with_clock : Machine :=
  (enter Sample.clock_prog 0 None [Slot.val 0]
    (set_cells (λ _, [MkCells [] (CapCell Clock)]) (new_machine Oracle.live None))).1.
Definition with_clock_later : Machine :=
  (turn Sample.clock_prog Sample.tys Sample.host Sample.world with_clock).1.

Lemma capabilities_are_unforgeable_witness :
  cap_receiver (Slot.val 0) Clock with_clock_later = (with_clock_later, Done (Ok ())) ∧
  ∃ x, cap_at with_clock 0 = Some x ∧ cell_kind x = CapCell Clock.
Proof.
  destruct (capabilities_are_unforgeable Sample.clock_prog Sample.tys Sample.host Sample.world
    with_clock with_clock_later) as (_ & _ & H).
  - intros [|i] x Hx; [injection Hx as <-; reflexivity|]. destruct i; discriminate Hx.
  - apply rtc_once. vm_compute. reflexivity.
  - split; [reflexivity|]. exact (proj2 (H (Slot.val 0) Clock with_clock_later eq_refl)).
Defined.
