(* ===== verification/InterpReplay.v ===== *)
(** * Record and replay

    A run against the live host and the replay of its log step through the same
    machines, apart from their oracles. *)

From Stdlib Require Import String.
From S2P Require Import Prelude InterpArith InterpFloat Reduce FmirData InterpState InterpHost InterpMachine InterpExec InterpRun InterpWp.
From stdpp Require Import gmap.
Local Open Scope Z_scope.

Abbreviation with_oracle o := (set_oracle (λ _, o)).

(** ** Calls that do not look at the oracle *)

Definition blind {A} (c : M A) : Prop :=
  ∀ m o, c (with_oracle o m) = (with_oracle o (c m).1, (c m).2) ∧ oracle (c m).1 = oracle m.

Lemma blind_ret {A} (a : A) : blind (mret a).
Proof. done. Qed.
Lemma blind_bind {A B} (c : M A) (f : A → M B) :
  blind c → (∀ a, blind (f a)) → blind (c ≫= f).
Proof.
  intros Hc Hf m o. destruct (Hc m o) as [H1 H2]. unfold mbind, call_bind. rewrite H1.
  destruct (c m) as [m' [| |[a|e]]]; simpl in *; try done.
  destruct (Hf a m' o) as [H3 H4]. split; [done|congruence].
Qed.
Lemma blind_res {A} (r : res A) : blind (call_res r).
Proof. done. Qed.
Lemma blind_fail {A} e : blind (A := A) (fail e).
Proof. done. Qed.
Lemma blind_mapMM {A B} (f : A → M B) l : (∀ x, blind (f x)) → blind (mapMM f l).
Proof.
  intros Hf. induction l as [|x l IH]; [done|]. simpl.
  apply blind_bind; [done|]. intros y. by apply blind_bind.
Qed.

(** [blinding] unfolds a call down to the primitives. *)
Ltac head_of t := match t with ?f _ => head_of f | _ => t end.
Create HintDb blind.
Ltac blinding_step :=
  match goal with
  | |- ∀ _, _ => intro
  | |- blind (mbind _ _) => apply blind_bind
  | |- blind (mapMM _ _) => apply blind_mapMM
  | |- blind (match ?x with _ => _ end) => destruct x
  | |- blind (mret _) => apply blind_ret
  | |- blind (gets _) => intros ??; split; reflexivity
  | |- blind (modify _) => intros ??; split; reflexivity
  | |- blind (call_res _) => apply blind_res
  | |- blind (fail _) => apply blind_fail
  | |- blind _ => solve [auto with blind nocore]
  | |- blind ?c => let h := head_of c in unfold h
  end.
Ltac blinding := repeat blinding_step.

Section blind.
Context (prog : Program) (tys : TyStore) (host : HostEnv) (world : HostWorld).

Lemma blind_val_operand fr i s r : blind (val_operand prog fr i s r).
Proof. blinding. Qed.
Lemma blind_define d fr s : blind (define d fr s).
Proof. blinding. Qed.
Lemma blind_num_kind ty : blind (num_kind tys ty).
Proof. blinding. Qed.
Lemma blind_charge : blind charge.
Proof. blinding. Qed.
Lemma blind_charge_n n : blind (charge_n n).
Proof. induction n; simpl; [done|]. apply blind_bind; [apply blind_charge|done]. Qed.
#[local] Hint Resolve blind_val_operand blind_define blind_num_kind blind_charge blind_charge_n : blind.
Lemma blind_read_place fr i s r : blind (read_place prog tys fr i s r).
Proof. blinding. Qed.
Lemma blind_write_place fr i s r v : blind (write_place prog tys fr i s r v).
Proof. blinding. Qed.
#[local] Hint Resolve blind_read_place blind_write_place : blind.
Lemma blind_live_arena als r rows : blind (live_arena als r rows).
Proof. induction rows as [|[a r'] rows IH]; simpl; blinding. Qed.
Lemma blind_drop_places fr ps : blind (drop_places prog fr ps).
Proof. induction ps as [|p ps IH]; simpl; blinding. Qed.
Lemma blind_render_into n v ty : blind (render_into prog tys n v ty).
Proof. revert v ty. induction n as [|n IH]; intros v ty; [done|]. cbn [render_into]. blinding. Qed.
#[local] Hint Resolve blind_live_arena blind_drop_places blind_render_into : blind.
Lemma blind_exec_term fr b t : blind (exec_term prog fr b t).
Proof. blinding. Qed.
Lemma blind_after_step fr s : blind (after_step prog tys fr s).
Proof. blinding. Qed.
Lemma blind_root_cap_of ty : blind (root_cap_of prog tys ty).
Proof. blinding. Qed.
Lemma blind_enter fi d a : blind (enter prog fi d a).
Proof. blinding. Qed.
End blind.
#[export] Hint Resolve blind_val_operand blind_define blind_num_kind blind_charge blind_charge_n
  blind_read_place blind_write_place blind_live_arena blind_drop_places blind_render_into
  blind_exec_term blind_after_step blind_root_cap_of blind_enter : blind.

(** ** Recording and replaying *)

(** The oracle [o2] replays the events [L], of which [o1] has recorded the
    first. *)
Definition replays (L : list HostEvent) (o1 o2 : Oracle) : Prop :=
  mode o1 = MLive ∧ mode o2 = MReplay L (len_z (log o1)) ∧ log o2 = log o1.

Definition oracle_fault {A} (r : res (result Fault A)) : Prop :=
  ∃ e, r = Done (Err (FError (OracleFault e))).

(** [c1] on the live machine, [c2] on the replaying one. *)
Definition mirrors {A} (c1 c2 : M A) : Prop := ∀ m,
  log (oracle m) `prefix_of` log (oracle (c1 m).1) ∧
  ∀ L o2, replays L (oracle m) o2 → log (oracle (c1 m).1) `prefix_of` L →
    ¬ oracle_fault (c1 m).2 →
    ∃ o2', c2 (with_oracle o2 m) = (with_oracle o2' (c1 m).1, (c1 m).2) ∧
           replays L (oracle (c1 m).1) o2'.

Lemma mirrors_blind {A} (c : M A) : blind c → mirrors c c.
Proof.
  intros Hc m. destruct (Hc m (oracle m)) as [_ Ho]. rewrite Ho. split; [done|].
  intros L o2 HL _ _. exists o2. split; [apply Hc|done].
Qed.

Lemma mirrors_bind {A B} (c1 c2 : M A) (f1 f2 : A → M B) :
  mirrors c1 c2 → (∀ a, mirrors (f1 a) (f2 a)) → mirrors (c1 ≫= f1) (c2 ≫= f2).
Proof.
  intros Hc Hf m. destruct (Hc m) as [Hp Hm]. unfold mbind, call_bind.
  destruct (c1 m) as [m1 [| |[a|e]]] eqn:Hc1; cbn [fst snd] in *.
  - split; [done|]. intros L o2 HL Hpre _. destruct (Hm L o2 HL Hpre) as (o2' & -> & HL'); [by intros []|].
    by exists o2'.
  - split; [done|]. intros L o2 HL Hpre _. destruct (Hm L o2 HL Hpre) as (o2' & -> & HL'); [by intros []|].
    by exists o2'.
  - destruct (Hf a m1) as [Hp1 Hm1]. split; [by etrans|].
    intros L o2 HL Hpre Hnf.
    destruct (Hm L o2 HL) as (o2' & -> & HL'); [by etrans|by intros []|].
    by apply Hm1.
  - split; [done|]. intros L o2 HL Hpre Hnf.
    destruct (Hm L o2 HL Hpre) as (o2' & -> & HL'); [|by exists o2'].
    intros [e' [= He]]. apply Hnf. exists e'. by rewrite He.
Qed.

Lemma mirrors_settle s (c1 c2 : M FrameStep) :
  mirrors c1 c2 → mirrors (settle_fault s c1) (settle_fault s c2).
Proof.
  intros Hc m. destruct (Hc m) as [Hp Hm]. unfold settle_fault.
  destruct (c1 m) as [m1 [| |[a|[k|r|e]]]] eqn:Hc1; cbn [fst snd] in *; (split; [done|]);
    intros L o2 HL Hpre Hnf; destruct (Hm L o2 HL Hpre) as (o2' & -> & HL'); eauto;
    by intros [].
Qed.

(** *** The oracle's answers *)

Section two_worlds.
Context (w w' : HostWorld) (Hwrite : ∀ n fd b, world_write w' n fd b = world_write w n fd b).

(** A question answered live is answered the same by its record. *)
Definition recorded {A} (f1 f2 : Oracle → asked A) : Prop := ∀ o,
  log o `prefix_of` log (f1 o).1 ∧
  ∀ L o2 v, replays L o o2 → log (f1 o).1 `prefix_of` L → (f1 o).2 = Ok v →
    (f2 o2).2 = Ok v ∧ replays L (f1 o).1 (f2 o2).1.

Lemma mirrors_ask {A} (f1 f2 : Oracle → asked A) :
  recorded f1 f2 → mirrors (ask f1) (ask f2).
Proof.
  intros Hf m. destruct (Hf (oracle m)) as [Hp Hr]. unfold ask, mbind, call_bind. simpl.
  destruct (f1 (oracle m)) as [o1 [v|e]] eqn:Hf1; simpl in *; (split; [done|]); intros L o2 HL Hpre Hnf.
  - destruct (Hr L o2 v HL Hpre eq_refl) as [Hv HL']. destruct (f2 o2) as [o2' r]. simpl in *.
    subst r. by exists o2'.
  - destruct Hnf. by exists e.
Qed.

Lemma next_event (L : list HostEvent) e l : l ++ [e] `prefix_of` L → nth_z L (len_z l) = Some e.
Proof.
  intros [L' ->]. apply nth_z_Some. unfold len_z. split; [lia|]. rewrite Nat2Z.id, <- app_assoc.
  by apply list_lookup_middle.
Qed.

(** The replaying oracle serves the event the live one has just logged. *)
Lemma next_replayed_event L o o2 e k note :
  replays L o o2 → log o ++ [e] `prefix_of` L → HostEvent.kind e = k →
  Oracle.next_replayed k (Oracle.count note o2) =
  (MkOracle (MReplay L (len_z (log o) + 1)) (log o2) (last_mono o2) (note (counters o2)),
   Ok (Some (HostEvent.bits e))).
Proof.
  intros (_ & Hm & _) He%next_event <-. unfold Oracle.next_replayed. simpl. rewrite Hm, He.
  by rewrite bool_decide_true.
Qed.

Lemma len_snoc {A} (l : list A) x : len_z (l ++ [x]) = len_z l + 1.
Proof. unfold len_z. rewrite length_app. simpl. lia. Qed.

Lemma next_live k o : mode o = MLive → Oracle.next_replayed k o = (o, Ok None).
Proof. unfold Oracle.next_replayed. by intros ->. Qed.

Ltac log_grows o :=
  unfold Oracle.next_replayed, Oracle.count, Oracle.push_log, Oracle.is_replay; simpl;
  destruct (mode o); repeat case_match; simplify_eq; simpl; by eauto using prefix_app_r.

(** What a live question returns. *)
Lemma clock_mono_live o : mode o = MLive →
  let real := Z.min (world_mono w (live_reads (counters o))) (2 ^ 64 - 1) in
  let v := match last_mono o with Some prev => Z.max real (Z.min (prev + 1) (2 ^ 64 - 1)) | None => real end in
  Oracle.clock_mono w o =
  (Oracle.push_log (Mono v) (Oracle.set_mono v (Oracle.count Oracle.live_read (Oracle.count Oracle.clock_read o))),
   Ok v).
Proof.
  intros Hl. unfold Oracle.clock_mono. rewrite next_live by done.
  unfold Oracle.real_mono, Oracle.is_replay. simpl. by rewrite Hl.
Qed.
Lemma clock_wall_live o : mode o = MLive →
  let v := clamp (world_wall w (live_reads (counters o))) (- 2 ^ 63) (2 ^ 63 - 1) in
  Oracle.clock_wall w o =
  (Oracle.push_log (Wall v) (Oracle.count Oracle.live_read (Oracle.count Oracle.clock_read o)), Ok v).
Proof.
  intros Hl. unfold Oracle.clock_wall. rewrite next_live by done.
  unfold Oracle.real_wall, Oracle.is_replay. simpl. by rewrite Hl.
Qed.
Lemma entropy_live o : mode o = MLive →
  let o' := Oracle.count Oracle.live_read (Oracle.count Oracle.entropy_draw o) in
  Oracle.entropy_u64 w o =
  match world_entropy w (live_reads (counters o)) with
  | Some v => (Oracle.push_log (Entropy v) o', Ok v)
  | None => (o', Err EntropyUnavailable)
  end.
Proof.
  intros Hl. unfold Oracle.entropy_u64. rewrite next_live by done.
  unfold Oracle.real_entropy, Oracle.is_replay. simpl. rewrite Hl. by destruct (world_entropy w _).
Qed.

Lemma recorded_mono : recorded (Oracle.clock_mono w) (Oracle.clock_mono w').
Proof.
  intros o. split.
  { unfold Oracle.clock_mono, Oracle.real_mono. log_grows o. }
  intros L o2 v HL. pose proof HL as (Hl & Hm & Hlog). rewrite clock_mono_live by done.
  cbn [fst snd]. intros Hpre [= <-]. unfold Oracle.clock_mono.
  rewrite (next_replayed_event L o o2 _ _ _ HL Hpre) by done. simpl.
  split; [done|]. split_and!; simpl; [done|by rewrite len_snoc|by rewrite Hlog].
Qed.

Lemma recorded_wall : recorded (Oracle.clock_wall w) (Oracle.clock_wall w').
Proof.
  intros o. split.
  { unfold Oracle.clock_wall, Oracle.real_wall. log_grows o. }
  intros L o2 v HL. pose proof HL as (Hl & Hm & Hlog). rewrite clock_wall_live by done.
  cbn [fst snd]. intros Hpre [= <-]. unfold Oracle.clock_wall.
  rewrite (next_replayed_event L o o2 _ _ _ HL Hpre) by done. simpl.
  rewrite to_signed_wrap_small by (try done; unfold signed, clamp; repeat case_match; lia).
  split; [done|]. split_and!; simpl; [done|by rewrite len_snoc|by rewrite Hlog].
Qed.

Lemma recorded_entropy : recorded (Oracle.entropy_u64 w) (Oracle.entropy_u64 w').
Proof.
  intros o. split.
  { unfold Oracle.entropy_u64, Oracle.real_entropy. log_grows o. }
  intros L o2 v HL. pose proof HL as (Hl & Hm & Hlog). rewrite entropy_live by done.
  destruct (world_entropy w _) as [x|]; [|done].
  cbn [fst snd]. intros Hpre [= <-]. unfold Oracle.entropy_u64.
  rewrite (next_replayed_event L o o2 _ _ _ HL Hpre) by done. simpl.
  split; [done|]. split_and!; simpl; [done|by rewrite len_snoc|by rewrite Hlog].
Qed.

(** *** The machine *)

Section machine.
Context (prog : Program) (tys : TyStore) (host : HostEnv).

Lemma mirrors_arrives fd b : mirrors (arrives w fd b) (arrives w' fd b).
Proof using Hwrite.
  assert (blind (arrives w fd b)) as Hb by blinding. intros m.
  destruct (mirrors_blind _ Hb m) as [H1 H2]. split; [done|].
  intros L o2 HL Hp Hn. destruct (H2 L o2 HL Hp Hn) as (o2' & Hr & HL'). exists o2'. split; [|done].
  rewrite <- Hr. unfold arrives, mbind, call_bind. simpl. destruct fd; simpl; [|done].
  by rewrite Hwrite.
Qed.

Lemma mirrors_host_door a c o note : mirrors (host_door a c o note) (host_door a c o note).
Proof.
  unfold host_door. apply mirrors_bind; [|intros _; apply mirrors_blind; blinding].
  intros m. split; [done|]. intros L o2 HL _ _. by exists (Oracle.count note o2).
Qed.

Lemma mirrors_intrinsic fr d i a :
  mirrors (exec_intrinsic prog host w fr d i a) (exec_intrinsic prog host w' fr d i a).
Proof using Hwrite.
  assert (∀ A (c : M A), blind c → mirrors c c) as Hb by apply @mirrors_blind.
  destruct i; cbn [exec_intrinsic]; try (apply mirrors_blind; solve [blinding]).
  - apply mirrors_bind; [apply Hb; blinding|intros b].
    apply mirrors_bind; [|intros; apply Hb; blinding].
    apply mirrors_bind; [apply mirrors_arrives|intros ok; apply Hb; blinding].
  - apply mirrors_bind; [|intros; apply Hb; blinding].
    apply mirrors_bind; [apply mirrors_arrives|intros ok; apply Hb; blinding].
  - apply mirrors_bind; [apply Hb; blinding|intros b].
    apply mirrors_bind; [|intros; apply Hb; blinding].
    apply mirrors_bind; [apply mirrors_arrives|intros ok; apply Hb; blinding].
  - do 2 (apply mirrors_bind; [apply Hb; blinding|intros ?]).
    apply mirrors_bind; [apply mirrors_ask, recorded_mono|intros v; apply Hb; blinding].
  - do 2 (apply mirrors_bind; [apply Hb; blinding|intros ?]).
    apply mirrors_bind; [apply mirrors_ask, recorded_wall|intros v; apply Hb; blinding].
  - do 2 (apply mirrors_bind; [apply Hb; blinding|intros ?]).
    apply mirrors_bind; [apply mirrors_ask, recorded_entropy|intros v; apply Hb; blinding].
  - apply mirrors_host_door.
  - apply mirrors_host_door.
Qed.

Lemma mirrors_intrinsic_call fr i row d :
  mirrors (exec_intrinsic_call prog host w fr i row d) (exec_intrinsic_call prog host w' fr i row d).
Proof using Hwrite.
  unfold exec_intrinsic_call.
  do 6 (apply mirrors_bind; [apply mirrors_blind; blinding|intros ?]). apply mirrors_intrinsic.
Qed.

Lemma mirrors_exec_inst fr i row :
  mirrors (exec_inst prog tys host w fr i row) (exec_inst prog tys host w' fr i row).
Proof using Hwrite.
  unfold exec_inst. apply mirrors_bind; [apply mirrors_blind; blinding|intros d].
  destruct (i_op row);
    match goal with
    | |- mirrors (exec_intrinsic_call _ _ _ _ _ _ _) _ => apply mirrors_intrinsic_call
    | _ => apply mirrors_blind
    end; blinding.
Qed.

Lemma mirrors_step_frame fr :
  mirrors (step_frame prog tys host w fr) (step_frame prog tys host w' fr).
Proof using Hwrite.
  unfold step_frame. do 4 (apply mirrors_bind; [apply mirrors_blind; blinding|intros ?]).
  destruct (_ <? _); [|apply mirrors_settle, mirrors_blind; auto with blind].
  do 2 (apply mirrors_bind; [apply mirrors_blind; blinding|intros ?]).
  apply mirrors_settle, mirrors_bind; [apply mirrors_exec_inst|intros ?; apply mirrors_blind; blinding].
Qed.

Lemma mirrors_drive fuel : mirrors (drive prog tys host w fuel) (drive prog tys host w' fuel).
Proof using Hwrite.
  induction fuel as [|fuel IH]; cbn [drive]; [apply mirrors_blind; blinding|].
  apply mirrors_bind.
  - unfold turn. apply mirrors_bind; [apply mirrors_blind; blinding|intros n].
    apply mirrors_bind; [apply mirrors_step_frame|intros fs; apply mirrors_blind; auto with blind].
  - intros [r|]; [apply mirrors_blind; blinding|done].
Qed.

(** The shim asks only whether entropy can be had, which a replay always
    grants. *)
Lemma mirrors_entry_arg a : mirrors (entry_arg w a) (entry_arg w' a).
Proof.
  destruct a as [c|]; simpl; [|apply mirrors_blind; blinding].
  apply mirrors_bind; [|intros; apply mirrors_blind; blinding].
  case_bool_decide; [|apply mirrors_blind; blinding].
  intros m. unfold mbind, call_bind. simpl. destruct (Oracle.ensure_entropy w (oracle m)) as [[]|e] eqn:He;
    simpl; (split; [done|]); intros L o2 HL _ Hnf.
  - exists o2. split; [|done]. destruct HL as (_ & Hm & _). unfold Oracle.ensure_entropy. by rewrite Hm.
  - destruct Hnf. by exists e.
Qed.

Lemma mirrors_mapMM {A B} (f1 f2 : A → M B) l :
  (∀ x, mirrors (f1 x) (f2 x)) → mirrors (mapMM f1 l) (mapMM f2 l).
Proof.
  intros Hf. induction l as [|x l IH]; [by apply mirrors_blind|]. simpl.
  apply mirrors_bind; [done|]. intros y. apply mirrors_bind; [done|].
  intros ys. by apply mirrors_blind.
Qed.

Lemma mirrors_run_machine fuel cap :
  mirrors (run_machine prog tys host w fuel cap) (run_machine prog tys host w' fuel cap).
Proof using Hwrite.
  unfold run_machine. apply mirrors_bind; [apply mirrors_blind; blinding|intros _].
  destruct (_ <=? _); [apply mirrors_blind; blinding|].
  apply mirrors_bind.
  - unfold entry_args. do 3 (apply mirrors_bind; [apply mirrors_blind; blinding|intros ?]).
    apply mirrors_mapMM, mirrors_entry_arg.
  - intros argv. apply mirrors_bind; [apply mirrors_blind; auto with blind|intros _].
    apply mirrors_bind; [apply mirrors_drive|intros r; by apply mirrors_blind].
Qed.
End machine.
End two_worlds.

(** Record and replay: replaying the log of a run reproduces the run. If a
    run against the live host ended with no complaint of the oracle, then the
    run that replays its log, on a host whose clocks and entropy device answer
    anything at all, has the same outcome, consumes the whole log and records it
    again. *)
Theorem replay_reproduces_the_run prog tys host w w' fuel cap o r :
  (∀ n fd b, world_write w' n fd b = world_write w n fd b) →
  run_with_oracle_capped prog tys host w fuel Oracle.live cap = (o, r) →
  ¬ oracle_fault r →
  ∃ o', run_with_oracle_capped prog tys host w' fuel (Oracle.replay_events (log o)) cap = (o', r) ∧
        log o' = log o.
Proof.
  intros Hwrite. unfold run_with_oracle_capped.
  destruct (mirrors_run_machine w w' Hwrite prog tys host fuel (Z.min cap STEP_BUDGET)
    (new_machine Oracle.live None)) as [_ Hm].
  destruct (run_machine prog tys host w fuel _ _) as [m1 r1]. cbn [fst snd] in Hm.
  intros [= <- <-] Hnf.
  destruct (Hm (log (oracle m1)) (Oracle.replay_events (log (oracle m1)))) as (o' & Hr & HL).
  { by split_and!. }
  { done. }
  { intros [e ->]. apply Hnf. by exists e. }
  change (new_machine (Oracle.replay_events (log (oracle m1))) None) with
    (with_oracle (Oracle.replay_events (log (oracle m1))) (new_machine Oracle.live None)).
  rewrite Hr. exists o'. destruct HL as (Hl & Hmode & Hlog). split; [|done]. f_equal.
  destruct r1 as [| |[out|e]]; try done. simpl.
  unfold Oracle.finish. rewrite Hl, Hmode. by rewrite Z.eqb_refl.
Qed.

(** The clock sample, recorded and replayed where the clock is stuck. *)
Lemma replay_reproduces_the_run_witness :
  let other := MkWorld (λ n, 7) (λ n, 7) (λ n, None) false (λ _ _ _, true) in
  let run := run_with_oracle_capped Sample.clock_prog Sample.tys Sample.host Sample.world 20 Oracle.live 100 in
  ∃ o', run_with_oracle_capped Sample.clock_prog Sample.tys Sample.host other 20
          (Oracle.replay_events (log run.1)) 100 = (o', run.2) ∧ log o' = log run.1.
Proof.
  apply (replay_reproduces_the_run Sample.clock_prog Sample.tys Sample.host Sample.world
    (MkWorld (λ n, 7) (λ n, 7) (λ n, None) false (λ _ _ _, true)) 20 100).
  - reflexivity.
  - vm_compute. reflexivity.
  - intros [e He]. vm_compute in He. discriminate He.
Defined.
