(* ===== verification/InterpRecord.v ===== *)
(** * The text of an oracle record

    fors-interp/src/host.rs: the file [--oracle-record] writes and
    [--oracle-replay] reads.  A record is a text of one line per response of
    the host; the parser takes exactly the texts the printer writes, so
    replaying the file of a run reproduces the run and the file. *)

From Stdlib Require Import String Ascii Strings.Byte.
From S2P Require Import Prelude Utf8 InterpArith InterpFloat Reduce FmirData InterpState InterpHost InterpMachine InterpExec InterpRun InterpReplay.
From stdpp Require Import gmap pretty.
Local Open Scope Z_scope.

(** ** Texts *)

#[local] Instance byte_eq_dec : EqDecision byte := Byte.byte_eq_dec.
Abbreviation text := (list byte).
Definition str (s : string) : text := list_byte_of_string s.
Definition NEWLINE : byte := x0a.
Definition SPACE : byte := x20.

(** [str::split]: the pieces between the separators. *)
Fixpoint split_on (sep : byte) (l : text) : list text :=
  match l with
  | [] => [[]]
  | b :: l =>
      if bool_decide (b = sep) then [] :: split_on sep l
      else match split_on sep l with
           | piece :: rest => (b :: piece) :: rest
           | [] => [[b]]
           end
  end.

(** [str::split_once] *)
Fixpoint split_once (sep : byte) (l : text) : option (text * text) :=
  match l with
  | [] => None
  | b :: l =>
      if bool_decide (b = sep) then Some ([], l)
      else '(k, v) ← split_once sep l; Some (b :: k, v)
  end.

Definition strip_suffix (b : byte) (l : text) : option text :=
  match rev l with c :: r => if bool_decide (c = b) then Some (rev r) else None | [] => None end.

(** ** Numbers as text *)

Definition byte_z (b : byte) : Z := Z.of_N (Byte.to_N b).

(** [char::to_digit] *)
Definition to_digit (radix : Z) (b : byte) : option Z :=
  let c := byte_z b in
  let d := if (48 <=? c) && (c <=? 57) then c - 48
           else if (97 <=? c) && (c <=? 122) then c - 87
           else if (65 <=? c) && (c <=? 90) then c - 55
           else radix in
  if d <? radix then Some d else None.

Definition in_range (lo hi v : Z) : option Z := if (lo <=? v) && (v <=? hi) then Some v else None.

(** The digits are added, or subtracted after a minus sign; every step is
    checked. *)
Fixpoint digits_value (radix lo hi sign acc : Z) (l : text) : option Z :=
  match l with
  | [] => Some acc
  | b :: l =>
      d ← to_digit radix b;
      acc ← in_range lo hi (acc * radix);
      acc ← in_range lo hi (acc + sign * d);
      digits_value radix lo hi sign acc l
  end.

(** [from_str_radix] of the integer type from [lo] to [hi]; a minus sign is no
    digit of an unsigned one. *)
Definition from_str_radix (radix lo hi : Z) (l : text) : option Z :=
  match l with
  | [] => None
  | b :: l' =>
      let plus := bool_decide (b = x2b) in
      let minus := bool_decide (b = x2d) in
      if (plus || minus) && bool_decide (l' = []) then None
      else if plus then digits_value radix lo hi 1 0 l'
      else if minus && (lo <? 0) then digits_value radix lo hi (-1) 0 l'
      else digits_value radix lo hi 1 0 l
  end.

Definition parse_u64 : text → option Z := from_str_radix 10 0 (2 ^ 64 - 1).
Definition parse_i64 : text → option Z := from_str_radix 10 (- 2 ^ 63) (2 ^ 63 - 1).

(** [{v}] *)
Definition digits (v : Z) : text := str (pretty (Z.to_N v)).
Definition print_int (v : Z) : text := if v <? 0 then x2d :: digits (- v) else digits v.

(** [{v:016x}] *)
Definition hex_digit (d : Z) : byte :=
  default x00 (Byte.of_N (Z.to_N (if d <? 10 then 48 + d else 87 + d))).
Definition hex16 (v : Z) : text :=
  map (λ i, hex_digit (Z.land (Z.shiftr v (4 * Z.of_nat i)) 15)) (rev (seq 0 16)).

(** [is_ascii_hexdigit] and not upper case *)
Definition is_lower_hex (b : byte) : bool :=
  let c := byte_z b in ((48 <=? c) && (c <=? 57)) || ((97 <=? c) && (c <=? 102)).

(** ** Records *)

Definition RECORD_HEADER : text := str "fors-oracle-record 1".

(** [HostEvent::line], without its newline *)
Definition event_line (e : HostEvent) : text :=
  match e with
  | Mono v => str "mono " ++ print_int v
  | Wall v => str "wall " ++ print_int v
  | Entropy v => str "entropy " ++ hex16 v
  end.

Definition record_bytes (evs : list HostEvent) : text :=
  RECORD_HEADER ++ [NEWLINE] ++ flat_map (λ e, event_line e ++ [NEWLINE]) evs.
Definition log_bytes (o : Oracle) : text := record_bytes (log o).

Definition parse_event (l : text) : option HostEvent :=
  '(kind, val) ← split_once SPACE l;
  if bool_decide (kind = str "mono") then Mono <$> parse_u64 val
  else if bool_decide (kind = str "wall") then Wall <$> parse_i64 val
  else if bool_decide (kind = str "entropy") && (len_z val =? 16) && forallb is_lower_hex val
  then Entropy <$> from_str_radix 16 0 (2 ^ 64 - 1) val
  else None.

(** The lines of the body, from line [n] on. *)
Fixpoint parse_lines (n : Z) (last_mono : option Z) (ls : list text) (out : list HostEvent) :
    result OracleError (list HostEvent) :=
  match ls with
  | [] => Ok out
  | l :: ls =>
      match parse_event l with
      | None => Err (Malformed n)
      | Some ev =>
          if negb (bool_decide (event_line ev = l)) then Err (Malformed n)
          else match ev with
               | Mono v =>
                   if match last_mono with Some p => v <=? p | None => false end
                   then Err (Malformed n)
                   else parse_lines (n + 1) (Some v) ls (out ++ [ev])
               | _ => parse_lines (n + 1) last_mono ls (out ++ [ev])
               end
      end
  end.

Definition parse_record (record : text) : res (result OracleError (list HostEvent)) :=
  bad ← from_utf8 record;
  Done match bad with
       | Some _ => Err (Malformed 1)
       | None =>
           match strip_suffix NEWLINE record with
           | None => Err (Malformed 1)
           | Some body =>
               match split_on NEWLINE body with
               | header :: ls =>
                   if bool_decide (header = RECORD_HEADER) then parse_lines 2 None ls []
                   else Err (Malformed 1)
               | [] => Err (Malformed 1)
               end
           end
       end.

(** [Oracle::replay] *)
Definition replay (record : text) : res (result OracleError Oracle) :=
  r ← parse_record record;
  Done (evs ← r; Ok (Oracle.replay_events evs)).

(** ** Reading back what was printed *)

(** *** Numbers *)

Lemma in_range_Some lo hi v : lo ≤ v ≤ hi → in_range lo hi v = Some v.
Proof. intros H. unfold in_range. destruct (Z.leb_spec lo v), (Z.leb_spec v hi); simpl; done || lia. Qed.
Lemma in_range_inv lo hi v x : in_range lo hi v = Some x → x = v ∧ lo ≤ v ≤ hi.
Proof.
  unfold in_range. destruct (Z.leb_spec lo v), (Z.leb_spec v hi); simpl; try done. by intros [= ->].
Qed.

Lemma digits_value_range radix lo hi sg acc l v : lo ≤ acc ≤ hi →
  digits_value radix lo hi sg acc l = Some v → lo ≤ v ≤ hi.
Proof.
  revert acc. induction l as [|b l IH]; intros acc Ha; simpl; [by intros [= <-]|].
  destruct (to_digit radix b) as [d|]; [|done]. simpl.
  destruct (in_range lo hi (acc * radix)) as [a|]; [|done]. simpl.
  destruct (in_range lo hi (a + sg * d)) as [a'|] eqn:E; [|done]. apply in_range_inv in E as [-> ?].
  by apply IH.
Qed.
Lemma from_str_radix_range radix lo hi l v : lo ≤ 0 ≤ hi → from_str_radix radix lo hi l = Some v → lo ≤ v ≤ hi.
Proof.
  intros H0. destruct l as [|b l]; [done|]. cbn -[digits_value].
  repeat case_match; try done; by apply digits_value_range.
Qed.

Lemma some_bind {A B} (x : A) (f : A → option B) : Some x ≫= f = f x.
Proof. done. Qed.
Lemma decimal_char n : (n < 10)%N →
  to_digit 10 (byte_of_ascii (pretty_N_char n)) = Some (Z.of_N n).
Proof. intros H. destruct n as [|[[[[]|[]|]|[[]|[]|]|]|[[[]|[]|]|[[]|[]|]|]|]]; try done; lia. Qed.

Lemma pretty_digits n s sg lo hi : (sg = 1 ∨ sg = -1) → lo ≤ 0 ≤ hi → lo ≤ sg * Z.of_N n ≤ hi →
  digits_value 10 lo hi sg 0 (str (pretty_N_go n s)) = digits_value 10 lo hi sg (sg * Z.of_N n) (str s).
Proof.
  intros Hs H0. revert s. induction (N.lt_wf_0 n) as [n _ IH]. intros s Hn.
  destruct (decide (n = 0%N)) as [->|Hne]; [rewrite pretty_N_go_0; by destruct Hs as [-> | ->]|].
  rewrite pretty_N_go_step by lia.
  assert (Z.of_N n = 10 * Z.of_N (n `div` 10) + Z.of_N (n `mod` 10)) as Hn'.
  { rewrite (N.div_mod n 10) at 1 by done. by rewrite N2Z.inj_add, N2Z.inj_mul. }
  pose proof (N.mod_lt n 10 ltac:(done)). pose proof (N2Z.is_nonneg (n `mod` 10)).
  pose proof (N2Z.is_nonneg (n `div` 10)).
  assert (n `div` 10 < n)%N by (apply N.div_lt; lia).
  rewrite IH; [|done|destruct Hs as [-> | ->]; lia].
  unfold str. cbn [list_byte_of_string String.list_ascii_of_string map digits_value].
  rewrite decimal_char by lia. rewrite some_bind.
  rewrite in_range_Some by (destruct Hs as [-> | ->]; lia). rewrite some_bind.
  rewrite in_range_Some by (destruct Hs as [-> | ->]; lia). rewrite some_bind. f_equal.
  destruct Hs as [-> | ->]; lia.
Qed.

Lemma pretty_go_bytes n s b : b ∈ str (pretty_N_go n s) → b ∈ str s ∨ is_Some (to_digit 10 b).
Proof.
  revert s. induction (N.lt_wf_0 n) as [n _ IH]. intros s.
  destruct (decide (n = 0%N)) as [->|Hne]; [rewrite pretty_N_go_0; by left|].
  rewrite pretty_N_go_step by lia. intros [Hb|?]%IH; [|by right|apply N.div_lt; lia].
  unfold str in Hb. cbn in Hb. apply elem_of_cons in Hb as [->|Hb]; [|by left]. right.
  rewrite decimal_char by (apply N.mod_lt; lia). eauto.
Qed.
Lemma digits_bytes v b : b ∈ digits v → is_Some (to_digit 10 b).
Proof.
  unfold digits, pretty, pretty_N. case_decide; [|by intros [Hn%elem_of_nil|]%pretty_go_bytes].
  intros Hb. apply list_elem_of_singleton in Hb as ->. eexists. reflexivity.
Qed.
Lemma digits_of v sg lo hi : 0 ≤ v → (sg = 1 ∨ sg = -1) → lo ≤ 0 ≤ hi → lo ≤ sg * v ≤ hi →
  digits v ≠ [] ∧ digits_value 10 lo hi sg 0 (digits v) = Some (sg * v).
Proof.
  intros Hv Hs H0 Hr. unfold digits, pretty, pretty_N. case_decide as Hz.
  { assert (v = 0) as -> by lia. rewrite Z.mul_0_r. split; [done|]. cbn.
    rewrite in_range_Some by lia. simpl. rewrite Z.mul_0_r. by rewrite in_range_Some by lia. }
  assert (digits_value 10 lo hi sg 0 (str (pretty_N_go (Z.to_N v) "")) = Some (sg * v)) as H.
  { rewrite pretty_digits by (done || rewrite Z2N.id; lia). by rewrite Z2N.id by lia. }
  split; [|done]. intros He. rewrite He in H. cbn in H. destruct Hs as [-> | ->]; injection H; lia.
Qed.

(** A decimal that begins with a digit is read from its first byte. *)
Lemma unsigned_text radix lo hi l : l ≠ [] → (∀ b, b ∈ l → b ≠ x2b ∧ b ≠ x2d) →
  from_str_radix radix lo hi l = digits_value radix lo hi 1 0 l.
Proof.
  destruct l as [|b l]; [done|]. intros _ Hb. destruct (Hb b) as [H1 H2]; [by apply list_elem_of_here|].
  unfold from_str_radix. by rewrite (bool_decide_false (b = x2b)), (bool_decide_false (b = x2d)).
Qed.
Lemma digit_no_sign radix b : is_Some (to_digit radix b) → b ≠ x2b ∧ b ≠ x2d.
Proof.
  intros [d Hd]. split; intros ->; revert Hd; unfold to_digit; cbn;
    (destruct (Z.ltb_spec radix radix); [lia|done]).
Qed.

Lemma print_int_reads lo hi v : lo ≤ v ≤ hi → lo ≤ 0 ≤ hi →
  from_str_radix 10 lo hi (print_int v) = Some v.
Proof.
  intros Hv H0. unfold print_int. destruct (Z.ltb_spec v 0) as [Hneg|Hpos].
  - destruct (digits_of (- v) (-1) lo hi) as [Hne Hd]; [lia|by right|lia|lia|].
    unfold from_str_radix. rewrite (bool_decide_false (digits (- v) = [])) by done.
    destruct (Z.ltb_spec lo 0); [|lia]. cbn -[digits_value digits]. rewrite Hd. f_equal. lia.
  - destruct (digits_of v 1 lo hi) as [Hne Hd]; [lia|by left|lia|lia|].
    rewrite unsigned_text; [rewrite Hd; f_equal; lia|done|].
    intros b Hb. by eapply digit_no_sign, digits_bytes.
Qed.

Lemma hex_char d : 0 ≤ d < 16 → to_digit 16 (hex_digit d) = Some d ∧ is_lower_hex (hex_digit d) = true.
Proof.
  intros H. assert (d ∈ seqZ 0 16) as Hd by (apply elem_of_seqZ; lia).
  assert (Forall (λ d, to_digit 16 (hex_digit d) = Some d ∧ is_lower_hex (hex_digit d) = true) (seqZ 0 16))
    as HF by (vm_compute; repeat constructor).
  rewrite Forall_forall in HF. by apply HF.
Qed.

Lemma nibble v i : 0 ≤ v → Z.land (Z.shiftr v (4 * Z.of_nat i)) 15 = (v `div` 16 ^ Z.of_nat i) `mod` 16.
Proof.
  intros Hv. change 15 with (Z.ones 4). rewrite Z.land_ones, Z.shiftr_div_pow2 by lia.
  by rewrite Z.pow_mul_r by lia.
Qed.

Lemma hex_reads n v acc hi : 0 ≤ v → 0 ≤ acc → acc * 16 ^ Z.of_nat n + v `mod` 16 ^ Z.of_nat n ≤ hi →
  digits_value 16 0 hi 1 acc
    (map (λ i, hex_digit (Z.land (Z.shiftr v (4 * Z.of_nat i)) 15)) (rev (seq 0 n))) =
  Some (acc * 16 ^ Z.of_nat n + v `mod` 16 ^ Z.of_nat n).
Proof.
  intros Hv. revert acc. induction n as [|n IH]; intros acc Ha Hh.
  { simpl. f_equal. change (16 ^ 0) with 1 in *. rewrite Z.mod_1_r. lia. }
  rewrite seq_S, rev_app_distr. simpl. rewrite nibble by done.
  set (p := 16 ^ Z.of_nat n) in *.
  assert (0 < p) as Hp by (apply Z.pow_pos_nonneg; lia).
  assert (16 ^ Z.of_nat (S n) = p * 16) as Hs.
  { unfold p. rewrite Nat2Z.inj_succ, Z.pow_succ_r by lia. lia. }
  rewrite Hs in *. rewrite Z.rem_mul_r in * by lia.
  pose proof (Z.mod_pos_bound (v `div` p) 16 ltac:(lia)). pose proof (Z.mod_pos_bound v p Hp).
  set (d := (v `div` p) `mod` 16) in *.
  destruct (hex_char d) as [-> _]; [lia|]. rewrite some_bind, in_range_Some, some_bind by nia.
  rewrite Z.mul_1_l, in_range_Some, some_bind by nia. rewrite IH by nia. f_equal. lia.
Qed.

Lemma hex16_reads v : unsigned 64 v →
  len_z (hex16 v) = 16 ∧ forallb is_lower_hex (hex16 v) = true ∧
  from_str_radix 16 0 (2 ^ 64 - 1) (hex16 v) = Some v.
Proof.
  intros [H0 H1].
  assert (∀ b, b ∈ hex16 v → is_lower_hex b = true ∧ is_Some (to_digit 16 b)) as Hall.
  { intros b (i & -> & _)%list_elem_of_fmap. rewrite nibble by done.
    destruct (hex_char ((v `div` 16 ^ Z.of_nat i) `mod` 16)); [apply Z.mod_pos_bound; lia|eauto]. }
  split_and!; [done|apply forallb_forall; intros b Hb; apply Hall, list_elem_of_In, Hb|].
  rewrite unsigned_text; [|done|intros b Hb; by eapply digit_no_sign, Hall].
  unfold hex16. rewrite hex_reads; [|done|done|]; change (16 ^ Z.of_nat 16) with (2 ^ 64);
    rewrite Z.mod_small by lia; [done|lia].
Qed.

(** *** Lines *)

(** The events a record can hold. *)
Definition event_ok (e : HostEvent) : Prop :=
  match e with Mono v | Entropy v => unsigned 64 v | Wall v => signed 64 v end.

Lemma event_line_reads e : event_ok e → parse_event (event_line e) = Some e.
Proof.
  destruct e as [v|v|v]; intros Hv; cbn in Hv.
  - change (parse_event (event_line (Mono v))) with (Mono <$> parse_u64 (print_int v)).
    unfold parse_u64. rewrite print_int_reads; [done|unfold unsigned in *; lia..].
  - change (parse_event (event_line (Wall v))) with (Wall <$> parse_i64 (print_int v)).
    unfold parse_i64. rewrite print_int_reads; [done|unfold signed in *; lia..].
  - destruct (hex16_reads v Hv) as (Hl & Hh & Hr).
    change (parse_event (event_line (Entropy v))) with
      (if (len_z (hex16 v) =? 16) && forallb is_lower_hex (hex16 v)
       then Entropy <$> from_str_radix 16 0 (2 ^ 64 - 1) (hex16 v) else None).
    by rewrite Hl, Hh, Hr.
Qed.

Lemma parse_event_ok l e : parse_event l = Some e → event_ok e.
Proof.
  unfold parse_event. destruct (split_once SPACE l) as [[k v]|]; [|done]. simpl.
  repeat case_match; try done; intros (x & Hx & ->)%fmap_Some;
    apply from_str_radix_range in Hx; unfold event_ok, unsigned, signed; lia.
Qed.

(** The monotonic readings rise. *)
Fixpoint rising (last_mono : option Z) (evs : list HostEvent) : Prop :=
  match evs with
  | [] => True
  | Mono v :: evs => (∀ p, last_mono = Some p → p < v) ∧ rising (Some v) evs
  | _ :: evs => rising last_mono evs
  end.

Lemma parse_lines_exact n last ls out r :
  parse_lines n last ls out = Ok r ↔
  ∃ evs, r = out ++ evs ∧ ls = map event_line evs ∧ Forall event_ok evs ∧ rising last evs.
Proof.
  revert n last out. induction ls as [|l ls IH]; intros n last out; simpl.
  { split; [intros [= <-]; exists []; by rewrite app_nil_r|].
    intros ([|e evs] & -> & [=] & _). by rewrite app_nil_r. }
  split.
  - destruct (parse_event l) as [ev|] eqn:E; [|done]. case_bool_decide as Hl; [|done]. simpl.
    assert (∀ n' last', (∀ evs, rising last' evs → rising last (ev :: evs)) →
      parse_lines n' last' ls (out ++ [ev]) = Ok r →
      ∃ evs, r = out ++ evs ∧ l :: ls = map event_line evs ∧ Forall event_ok evs ∧ rising last evs) as Hgo.
    { intros n' last' Hr (evs & -> & -> & Hok & Hri)%IH. exists (ev :: evs).
      rewrite <- app_assoc. split_and!; [done|by rewrite <- Hl|by constructor; [eapply parse_event_ok|]|auto]. }
    destruct ev as [v|v|v]; [|by apply Hgo..].
    destruct last as [p|]; [destruct (Z.leb_spec v p); [done|]|]; apply Hgo; intros evs Hr;
      (split; [|done]); intros q [= <-]; lia.
  - intros (evs & -> & Hls & Hok & Hr). destruct evs as [|e evs]; [done|]. simplify_list_eq.
    inversion_clear Hok. rewrite event_line_reads, bool_decide_true by done. simpl.
    assert (∀ n' last', rising last' evs →
      parse_lines n' last' (map event_line evs) (out ++ [e]) = Ok (out ++ e :: evs)) as Hgo.
    { intros n' last' Hr'. apply IH. exists evs. by rewrite <- app_assoc. }
    destruct e as [v|v|v]; [|by apply Hgo..]. destruct Hr as [Hp Hr].
    destruct last as [p|]; [|by apply Hgo]. destruct (Z.leb_spec v p) as [|]; [|by apply Hgo].
    specialize (Hp p eq_refl). lia.
Qed.

(** *** The text as lines *)

Definition unlines (ls : list text) : text := flat_map (λ l, l ++ [NEWLINE]) ls.

Lemma strip_suffix_exact b l body : strip_suffix b l = Some body ↔ l = body ++ [b].
Proof.
  unfold strip_suffix. split.
  - destruct (rev l) as [|c r] eqn:E; [done|]. case_bool_decide as Hc; [|done]. intros [= <-].
    apply (f_equal (@rev byte)) in E. rewrite rev_involutive in E. by rewrite E, <- Hc.
  - intros ->. rewrite rev_app_distr. simpl. rewrite bool_decide_true by done. by rewrite rev_involutive.
Qed.

Lemma split_on_last sep l : sep ∉ l → split_on sep l = [l].
Proof.
  induction l as [|b l IH]; [done|]. intros [Hb Hl]%not_elem_of_cons. simpl.
  rewrite bool_decide_false by congruence. by rewrite IH.
Qed.
Lemma split_on_piece sep l r : sep ∉ l → split_on sep (l ++ sep :: r) = l :: split_on sep r.
Proof.
  induction l as [|b l IH]; simpl; [by rewrite bool_decide_true|].
  intros [Hb Hl]%not_elem_of_cons. rewrite bool_decide_false by congruence. by rewrite IH.
Qed.

(** Splitting undoes [unlines]. *)
Lemma split_lines l ls : Forall (λ l, NEWLINE ∉ l) (l :: ls) →
  ∃ body, unlines (l :: ls) = body ++ [NEWLINE] ∧ split_on NEWLINE body = l :: ls.
Proof.
  revert l. induction ls as [|l' ls IH]; intros l Hl; inversion_clear Hl as [|? ? Hn Hls].
  - exists l. split; [unfold unlines; simpl; by rewrite app_nil_r|by apply split_on_last].
  - destruct (IH l' Hls) as (body & Hu & Hs). exists (l ++ NEWLINE :: body).
    change (unlines (l :: l' :: ls)) with ((l ++ [NEWLINE]) ++ unlines (l' :: ls)).
    rewrite Hu, split_on_piece, Hs by done. by rewrite <- !app_assoc.
Qed.
Lemma unlines_split body : unlines (split_on NEWLINE body) = body ++ [NEWLINE].
Proof.
  unfold unlines. induction body as [|b l IH]; [done|]. simpl. case_bool_decide as Hb.
  - rewrite Hb. simpl. by rewrite IH.
  - destruct (split_on NEWLINE l) as [|p ps]; simpl in *; [by destruct l|by rewrite IH].
Qed.

(** *** What is printed is plain text *)

Definition plain (b : byte) : Prop := Utf8.between 0x00 0x7F b = true ∧ b ≠ NEWLINE.
#[local] Instance plain_dec b : Decision (plain b).
Proof. unfold plain. apply _. Defined.

Lemma digit_plain b : is_Some (to_digit 10 b) → plain b.
Proof. intros [d Hd]. destruct b; (by vm_compute in Hd) || by split. Qed.
Lemma lower_hex_plain b : is_lower_hex b = true → plain b.
Proof. destruct b; (by intros [=]) || by split. Qed.
Lemma literal_plain s : bool_decide (Forall plain (str s)) = true → Forall plain (str s).
Proof. by intros ?%bool_decide_eq_true. Qed.
Lemma print_int_plain v : Forall plain (print_int v).
Proof.
  assert (∀ x, Forall plain (digits x)) as Hd.
  { intros x. apply Forall_forall. intros b Hb. by eapply digit_plain, digits_bytes. }
  unfold print_int. destruct (v <? 0); [|done]. constructor; [by split|done].
Qed.
Lemma event_line_plain e : event_ok e → Forall plain (event_line e).
Proof.
  destruct e as [v|v|v]; intros Hv; unfold event_line; apply Forall_app;
    (split; [by apply literal_plain|]);
    try apply print_int_plain.
  apply Forall_forall. intros b Hb. apply lower_hex_plain.
  destruct (hex16_reads v Hv) as (_ & Hh & _). rewrite forallb_forall in Hh. by apply Hh, list_elem_of_In.
Qed.

Lemma ascii_valid l : Forall (λ b, Utf8.between 0x00 0x7F b = true) l → valid_utf8 l.
Proof.
  induction 1 as [|b l Hb _ IH]; [constructor|]. apply (valid_char _ _ 1); [|done].
  unfold utf8_char. by rewrite Hb.
Qed.

Lemma parse_record_iff t evs :
  parse_record t = Done (Ok evs) ↔ t = record_bytes evs ∧ Forall event_ok evs ∧ rising None evs.
Proof.
  assert (∀ evs, record_bytes evs = unlines (RECORD_HEADER :: map event_line evs)) as Hrec.
  { intros l. change (unlines (RECORD_HEADER :: ?ls)) with ((RECORD_HEADER ++ [NEWLINE]) ++ unlines ls).
    unfold record_bytes. rewrite <- app_assoc. do 2 f_equal.
    induction l as [|e l IH]; [done|]. simpl. by rewrite IH. }
  unfold parse_record. destruct (from_utf8_total t) as (bad & -> & Hv & _). simpl. split.
  - destruct bad; [done|]. destruct (strip_suffix NEWLINE t) as [body|] eqn:Hs; [|done].
    apply strip_suffix_exact in Hs. subst t.
    pose proof (unlines_split body) as Hu. destruct (split_on NEWLINE body) as [|h ls]; [done|].
    case_bool_decide; [|done]. subst h. intros [= (evs' & -> & -> & Hok & Hr)%parse_lines_exact].
    cbn [app]. by rewrite Hrec, Hu.
  - intros (-> & Hok & Hr). rewrite Hrec in *.
    assert (Forall (Forall plain) (RECORD_HEADER :: map event_line evs)) as Hpl.
    { constructor; [by apply literal_plain|]. apply Forall_map.
      eapply Forall_impl; [done|]. apply event_line_plain. }
    destruct (split_lines RECORD_HEADER (map event_line evs)) as (body & Hu & Hsp).
    { eapply Forall_impl; [done|]. intros l Hl Hn. rewrite Forall_forall in Hl. by destruct (Hl _ Hn). }
    destruct bad as [x|].
    { exfalso. assert (Some x = None) as [=]. apply Hv, ascii_valid, Forall_forall.
      intros b (l & Hl & Hb)%list_elem_of_In%in_flat_map. rewrite Forall_forall in Hpl.
      apply list_elem_of_In in Hb. apply elem_of_app in Hb as [Hb|Hb].
      - apply list_elem_of_In, Hpl in Hl. rewrite Forall_forall in Hl. by apply Hl.
      - apply list_elem_of_singleton in Hb as ->. done. }
    assert (strip_suffix NEWLINE (unlines (RECORD_HEADER :: map event_line evs)) = Some body) as ->.
    { by apply strip_suffix_exact. }
    rewrite Hsp, bool_decide_true by done. f_equal. apply parse_lines_exact. by exists evs.
Qed.

(** C32: the parser of records accepts exactly what the printer writes: a text
    parses to a list of events if and only if it is the record of those events,
    each within its integer type, with strictly increasing monotonic readings. *)
Theorem parse_record_exact t evs :
  parse_record t = Done (Ok evs) ↔ t = record_bytes evs ∧ Forall event_ok evs ∧ rising None evs.
Proof. apply parse_record_iff. Qed.
Example record_reads :
  let l := [Mono 5; Wall (-120); Entropy 43794; Mono 7] in parse_record (record_bytes l) = Done (Ok l).
Proof. vm_compute. done. Qed.
Example record_backwards : parse_record (record_bytes [Mono 5; Mono 5]) = Done (Err (Malformed 3)).
Proof. vm_compute. done. Qed.

(** ** What a run records *)

(** A call leads from oracles in [I] to oracles in [I]. *)
Definition logs (I : Oracle → Prop) {A} (c : M A) : Prop := ∀ m, I (oracle m) → I (oracle (c m).1).

Section logs.
Context (I : Oracle → Prop).

Lemma logs_blind {A} (c : M A) : blind c → logs I c.
Proof. intros Hc m Hm. destruct (Hc m (oracle m)) as [_ Ho]. by rewrite Ho. Qed.
Lemma logs_bind {A B} (c : M A) (f : A → M B) : logs I c → (∀ a, logs I (f a)) → logs I (c ≫= f).
Proof.
  intros Hc Hf m Hm. specialize (Hc m Hm). unfold mbind, call_bind.
  destruct (c m) as [m' [| |[a|e]]]; try done. by apply Hf.
Qed.
Lemma logs_mapMM {A B} (f : A → M B) l : (∀ x, logs I (f x)) → logs I (mapMM f l).
Proof.
  intros Hf. induction l as [|x l IH]; [by apply logs_blind|]. simpl.
  apply logs_bind; [done|]. intros y. apply logs_bind; [done|]. intros ys. by apply logs_blind.
Qed.
Lemma logs_settle s (c : M FrameStep) : logs I c → logs I (settle_fault s c).
Proof.
  intros Hc m Hm. specialize (Hc m Hm). unfold settle_fault.
  by destruct (c m) as [m' [| |[a|[k|r|e]]]].
Qed.
Lemma logs_ask {A} (f : Oracle → asked A) : (∀ o, I o → I (f o).1) → logs I (ask f).
Proof.
  intros Hf m Hm. specialize (Hf _ Hm). unfold ask, mbind, call_bind. simpl.
  by destruct (f (oracle m)) as [o [v|e]].
Qed.

Context (world : HostWorld) (prog : Program) (tys : TyStore) (host : HostEnv).
Context (Hmono : ∀ o, I o → I (Oracle.clock_mono world o).1).
Context (Hwall : ∀ o, I o → I (Oracle.clock_wall world o).1).
Context (Hentropy : ∀ o, I o → I (Oracle.entropy_u64 world o).1).
Context (Hcount : ∀ note o, I o → I (Oracle.count note o)).

Lemma logs_intrinsic fr d i a : logs I (exec_intrinsic prog host world fr d i a).
Proof using Hmono Hwall Hentropy Hcount.
  assert (∀ A (c : M A), blind c → logs I c) as Hb by apply @logs_blind.
  destruct i; cbn [exec_intrinsic]; try (apply Hb; solve [blinding]).
  - do 2 (apply logs_bind; [apply Hb; blinding|intros ?]).
    apply logs_bind; [by apply logs_ask|intros v; apply Hb; blinding].
  - do 2 (apply logs_bind; [apply Hb; blinding|intros ?]).
    apply logs_bind; [by apply logs_ask|intros v; apply Hb; blinding].
  - do 2 (apply logs_bind; [apply Hb; blinding|intros ?]).
    apply logs_bind; [by apply logs_ask|intros v; apply Hb; blinding].
  - unfold host_door. apply logs_bind; [intros m Hm; by apply Hcount|intros; apply Hb; blinding].
  - unfold host_door. apply logs_bind; [intros m Hm; by apply Hcount|intros; apply Hb; blinding].
Qed.

Lemma logs_exec_inst fr i row : logs I (exec_inst prog tys host world fr i row).
Proof using Hmono Hwall Hentropy Hcount.
  unfold exec_inst. apply logs_bind; [apply logs_blind; blinding|intros d].
  destruct (i_op row); try (apply logs_blind; solve [blinding]).
  unfold exec_intrinsic_call.
  do 6 (apply logs_bind; [apply logs_blind; blinding|intros ?]). apply logs_intrinsic.
Qed.

Lemma logs_drive fuel : logs I (drive prog tys host world fuel).
Proof using Hmono Hwall Hentropy Hcount.
  induction fuel as [|fuel IH]; cbn [drive]; [apply logs_blind; blinding|].
  apply logs_bind; [|intros [r|]; [apply logs_blind; blinding|done]].
  unfold turn. apply logs_bind; [apply logs_blind; blinding|intros n].
  apply logs_bind; [|intros fs; apply logs_blind; auto with blind].
  unfold step_frame. do 4 (apply logs_bind; [apply logs_blind; blinding|intros ?]).
  destruct (_ <? _); [|apply logs_settle, logs_blind; auto with blind].
  do 2 (apply logs_bind; [apply logs_blind; blinding|intros ?]).
  apply logs_settle, logs_bind; [apply logs_exec_inst|intros ?; apply logs_blind; blinding].
Qed.

Lemma logs_run_machine fuel cap : logs I (run_machine prog tys host world fuel cap).
Proof using Hmono Hwall Hentropy Hcount.
  unfold run_machine. apply logs_bind; [apply logs_blind; blinding|intros _].
  destruct (_ <=? _); [apply logs_blind; blinding|]. apply logs_bind.
  - unfold entry_args. do 3 (apply logs_bind; [apply logs_blind; blinding|intros ?]).
    apply logs_mapMM. intros [c|]; simpl; [|apply logs_blind; blinding].
    apply logs_bind; [|intros; apply logs_blind; blinding].
    case_bool_decide; [|apply logs_blind; blinding].
    apply logs_bind; [by intros m Hm|intros o].
    apply logs_blind; blinding.
  - intros argv. apply logs_bind; [apply logs_blind; auto with blind|intros _].
    apply logs_bind; [apply logs_drive|intros r; by apply logs_blind].
Qed.
End logs.

(** *** A live run can be replayed from its file *)

Fixpoint last_reading (last_mono : option Z) (evs : list HostEvent) : option Z :=
  match evs with
  | [] => last_mono
  | Mono v :: evs => last_reading (Some v) evs
  | _ :: evs => last_reading last_mono evs
  end.

Lemma rising_snoc last evs e : rising last evs →
  (∀ v p, e = Mono v → last_reading last evs = Some p → p < v) → rising last (evs ++ [e]).
Proof.
  revert last. induction evs as [|e' evs IH]; intros last Hr Hp; simpl in *.
  - destruct e; [|done..]. split; [|done]. intros p Hl. by eapply Hp.
  - destruct e'; [destruct Hr; split; [done|]|..]; by apply IH.
Qed.
Lemma last_reading_snoc last evs e :
  last_reading last (evs ++ [e]) = match e with Mono v => Some v | _ => last_reading last evs end.
Proof.
  revert last. induction evs as [|e' evs IH]; intros last; [by destruct e|]. destruct e'; simpl; by rewrite IH.
Qed.
Lemma last_reading_in evs p last : last_reading last evs = Some p → last = Some p ∨ Mono p ∈ evs.
Proof.
  revert last. induction evs as [|e evs IH]; intros last; simpl; [by left|].
  destruct e; intros [|]%IH; try (right; by apply list_elem_of_further); [|by left..].
  right. simplify_eq. apply list_elem_of_here.
Qed.

(** What the clock and the entropy device of a host return: nanoseconds since
    the first reading, and eight bytes. *)
Definition world_ok (w : HostWorld) : Prop :=
  (∀ n, 0 ≤ world_mono w n) ∧ (∀ n v, world_entropy w n = Some v → unsigned 64 v).

(** The largest reading, where the clock stops rising. *)
Definition STUCK : HostEvent := Mono (2 ^ 64 - 1).
Definition recordable (o : Oracle) : Prop :=
  mode o = MLive ∧ Forall event_ok (log o) ∧
  (STUCK ∈ log o ∨ last_mono o = last_reading None (log o) ∧ rising None (log o)).

Section recordable.
Context (w : HostWorld) (Hw : world_ok w).

Lemma recordable_other o e o' : recordable o → event_ok e → (∀ v, e ≠ Mono v) →
  mode o' = MLive → log o' = log o ++ [e] → last_mono o' = last_mono o → recordable o'.
Proof.
  intros (_ & Hok & Hr) He Hne Hm Hl Hlm. split_and!; [done|rewrite Hl; by apply Forall_app; auto|].
  rewrite Hl, Hlm, last_reading_snoc. destruct Hr as [Hs|[-> Hr]]; [left; set_solver|right]. split.
  - destruct e as [v| |]; [by destruct (Hne v)|done..].
  - apply rising_snoc; [done|]. intros v p ->. by destruct (Hne v).
Qed.

Lemma recordable_mono o : recordable o → recordable (Oracle.clock_mono w o).1.
Proof using Hw.
  intros (Hm & Hok & Hr). rewrite (clock_mono_live w o Hm). cbv zeta. cbn [fst].
  pose proof (proj1 Hw (live_reads (counters o))) as Hpos.
  set (real := Z.min _ _). assert (0 ≤ real ≤ 2 ^ 64 - 1) as Hreal by (unfold real; lia).
  set (v := match last_mono o with Some _ => _ | None => _ end).
  destruct (decide (STUCK ∈ log o)) as [Hs|Hs].
  - split_and!; [done| |left; simpl; set_solver]. simpl. apply Forall_app. split; [done|].
    constructor; [|done]. unfold event_ok, unsigned, v. destruct (last_mono o); lia.
  - destruct Hr as [|[Hl Hr]]; [done|].
    assert (unsigned 64 v ∧ ((∀ p, last_mono o = Some p → p < v) ∨ v = 2 ^ 64 - 1)) as [Hv Hlt].
    { unfold v, unsigned. destruct (last_mono o) as [p|]; [|split; [lia|by left]].
      split; [lia|]. destruct (decide (p + 1 ≤ 2 ^ 64 - 1)); [left; intros ? [= <-]; lia|right; lia]. }
    split_and!; [done|simpl; apply Forall_app; by auto|]. simpl.
    destruct Hlt as [Hlt| ->]; [right|left; unfold STUCK; set_solver].
    rewrite last_reading_snoc. split; [done|]. apply rising_snoc; [done|].
    intros v' p [= <-]. rewrite <- Hl. apply Hlt.
Qed.

Lemma recordable_wall o : recordable o → recordable (Oracle.clock_wall w o).1.
Proof.
  intros Ho. pose proof Ho as (Hm & _ & _). rewrite (clock_wall_live w o Hm). cbv zeta. cbn [fst].
  eapply (recordable_other o (Wall _)); [done| |done..].
  unfold event_ok, signed, clamp. repeat case_match; lia.
Qed.

Lemma recordable_entropy o : recordable o → recordable (Oracle.entropy_u64 w o).1.
Proof using Hw.
  intros Ho. pose proof Ho as (Hm & _ & _). rewrite (entropy_live w o Hm). cbv zeta.
  destruct (world_entropy w _) as [v|] eqn:E; cbn [fst]; [|done].
  eapply (recordable_other o (Entropy v)); [done| |done..]. by eapply (proj2 Hw).
Qed.
End recordable.

(** C3: the file a live run records replays it: if a run against a live host
    ends with no complaint of the oracle, and the clock never stood at the
    largest reading, then the text it records is accepted, and replaying it, on
    a host whose clocks and entropy device answer anything at all, has the same
    outcome and records the same text byte for byte. *)
Theorem recorded_run_replays prog tys host w w' fuel cap o r :
  world_ok w → (∀ n fd b, world_write w' n fd b = world_write w n fd b) →
  run_with_oracle_capped prog tys host w fuel Oracle.live cap = (o, r) →
  ¬ oracle_fault r → STUCK ∉ log o →
  ∃ o1 o2, replay (log_bytes o) = Done (Ok o1) ∧
    run_with_oracle_capped prog tys host w' fuel o1 cap = (o2, r) ∧ log_bytes o2 = log_bytes o.
Proof.
  intros Hw Hwrite Hrun Hnf Hns.
  destruct (replay_reproduces_the_run prog tys host w w' fuel cap o r) as (o2 & H2 & Hl); [done..|].
  exists (Oracle.replay_events (log o)), o2. unfold log_bytes. rewrite Hl. split_and!; [|done|done].
  assert (recordable o) as (_ & Hok & [|[_ Hr]]); [|done|].
  { unfold run_with_oracle_capped in Hrun.
    pose proof (logs_run_machine recordable w prog tys host (recordable_mono w Hw) (recordable_wall w Hw)
      (recordable_entropy w Hw) ltac:(done) fuel (Z.min cap STEP_BUDGET) (new_machine Oracle.live None)) as H.
    destruct (run_machine _ _ _ _ _ _ _) as [m1 r1]. injection Hrun as <- _. apply H.
    split_and!; [done|constructor|by right]. }
  unfold replay. by rewrite (proj2 (parse_record_iff _ (log o))).
Qed.

(** The clock sample, recorded to a text and replayed where the clock is stuck. *)
Lemma recorded_run_replays_witness :
  let other := MkWorld (λ n, 7) (λ n, 7) (λ n, None) false (λ _ _ _, true) in
  let w := MkWorld (λ n, Z.max 0 (10 * n)) (λ n, n) (λ n, None) true (λ _ _ _, true) in
  let run := run_with_oracle_capped Sample.clock_prog Sample.tys Sample.host w 20 Oracle.live 100 in
  ∃ o1 o2, replay (log_bytes run.1) = Done (Ok o1) ∧
    run_with_oracle_capped Sample.clock_prog Sample.tys Sample.host other 20 o1 100 = (o2, run.2) ∧
    log_bytes o2 = log_bytes run.1.
Proof.
  apply (recorded_run_replays Sample.clock_prog Sample.tys Sample.host
    (MkWorld (λ n, Z.max 0 (10 * n)) (λ n, n) (λ n, None) true (λ _ _ _, true))
    (MkWorld (λ n, 7) (λ n, 7) (λ n, None) false (λ _ _ _, true)) 20 100).
  - split; [simpl; lia|done].
  - reflexivity.
  - vm_compute. reflexivity.
  - intros [e He]. vm_compute in He. discriminate He.
  - vm_compute. intros H. repeat (inversion H as [|? ? ? H']; clear H; subst; rename H' into H).
Defined.
