(* ===== verification/InterpMemory.v ===== *)
(** * The interpreter's memory, along a run

    An invariant of the allocations, kept by every turn of every program: the
    bitmap of initialised bytes has one bit per byte and an object's size fits
    its 32-bit handle.  Under it a load returns what the last store left. *)

From Stdlib Require Import String.
From S2P Require Import Prelude InterpArith InterpFloat Reduce FmirData InterpState InterpHost InterpMachine InterpExec InterpRun InterpWp InterpStep.
From stdpp Require Import gmap.
Local Open Scope Z_scope.

(** ** Calls that keep an invariant *)

Definition keeps (I : Machine → Prop) {A} (c : M A) : Prop :=
  ∀ m, I m → wp True c (λ _, I) (λ _, I) m.

Section keeps.
Context (I : Machine → Prop).

Lemma keeps_reads {A} (c : M A) : reads c → keeps I c.
Proof. intros Hc m Hm. eapply wp_mono; [apply Hc|by intros _ ? ->..]. Qed.
Lemma keeps_bind {A B} (c : M A) (f : A → M B) :
  keeps I c → (∀ a, keeps I (f a)) → keeps I (c ≫= f).
Proof.
  intros Hc Hf m Hm. apply wp_bind. eapply wp_mono; [by apply Hc| |done].
  intros a m' Hm'. by apply Hf.
Qed.
Lemma keeps_modify f : (∀ m, I m → I (f m)) → keeps I (modify f).
Proof. intros Hf m Hm. by apply wp_modify, Hf. Qed.
Lemma keeps_mapMM {A B} (f : A → M B) l : (∀ x, keeps I (f x)) → keeps I (mapMM f l).
Proof. intros Hf m Hm. apply wp_mapMM; [done|]. intros x m' _ Hm'. by apply Hf. Qed.
Lemma keeps_res {A} (r : res A) : r ≠ OutOfFuel → keeps I (call_res r).
Proof. intros Hr m Hm. by apply wp_call_res. Qed.
Lemma keeps_or_fuel {A} (o : option A) : is_Some o → keeps I (or_fuel o).
Proof. intros [a ->] m Hm. done. Qed.
Lemma keeps_settle s (c : M FrameStep) : keeps I c → keeps I (settle_fault s c).
Proof.
  intros Hc m Hm. specialize (Hc m Hm). unfold wp, settle_fault in *.
  by destruct (c m) as [m' [| |[a|[k|r|e]]]].
Qed.
End keeps.

Create HintDb keeps.
Ltac head_const t := match t with ?f _ => head_const f | _ => t end.
(** [keeping] walks through a call, unfolding what it does not know. *)
Ltac keeping_step :=
  match goal with
  | |- ∀ _, _ => intro
  | |- keeps _ (mbind _ _) => apply keeps_bind
  | |- keeps _ (mapMM _ _) => apply keeps_mapMM
  | |- keeps _ (settle_fault _ _) => apply keeps_settle
  | |- keeps _ (match ?x with _ => _ end) => destruct x
  | |- keeps _ (modify _) => apply keeps_modify; done
  | |- keeps _ _ => solve [auto with keeps nocore]
  | |- keeps _ _ => apply keeps_reads; solve [auto with reads nocore]
  | |- keeps _ ?c => let h := head_const c in unfold h
  end.
Ltac keeping := repeat keeping_step.

(** ** The invariant *)

Definition alloc_ok (a : Alloc) : Prop :=
  BitVec.wf (inits a) ∧ bv_len (inits a) = len_z (bytes a) ∧ len_z (bytes a) < 2 ^ 32.
Definition memory_ok (m : Machine) : Prop := Forall alloc_ok (allocs m).

Lemma new_ok size al k g : unsigned 32 size → alloc_ok (Alloc.new size al k g).
Proof.
  intros [H0 H1]. unfold alloc_ok, Alloc.new, len_z. simpl. rewrite length_replicate, Z2Nat.id by lia.
  split_and!; [by apply zeros_wf|done|done].
Qed.
Lemma size_ok a : alloc_ok a → Alloc.size a = len_z (bytes a).
Proof. intros (_ & _ & H). unfold Alloc.size. apply wrap_small. unfold unsigned, len_z in *. lia. Qed.
Lemma grow_ok a n : alloc_ok a → n < 2 ^ 32 → alloc_ok (Alloc.grow_to a n).
Proof.
  intros Ha Hn. unfold Alloc.grow_to. rewrite size_ok by done.
  destruct (Z.ltb_spec (len_z (bytes a)) n) as [Hlt|]; [|done]. destruct Ha as (Hwf & Hlen & Hlt32).
  assert (0 ≤ len_z (bytes a)) by (unfold len_z; lia).
  unfold alloc_ok. simpl. split_and!; [by apply grow_to_wf| |].
  - unfold BitVec.grow_to. destruct (Z.ltb_spec (bv_len (inits a)) n); [|lia]. simpl.
    unfold len_z. rewrite length_resize. lia.
  - unfold len_z. rewrite length_resize. lia.
Qed.
Lemma forget_ok a : alloc_ok a → alloc_ok (Alloc.forget a).
Proof.
  intros (Hwf & Hlen & Hlt). unfold alloc_ok, Alloc.forget. simpl. split_and!.
  - by apply set_range_wf.
  - unfold len_z in *. by rewrite length_replicate.
  - unfold len_z in *. by rewrite length_replicate.
Qed.
Lemma set_state_ok a s : alloc_ok a → alloc_ok (Alloc.set_state a s).
Proof. done. Qed.

(** ** Loads and stores of bytes *)

Lemma nth_z_insert_eq {A} (l : list A) i x : is_Some (nth_z l i) → nth_z (<[Z.to_nat i := x]> l) i = Some x.
Proof.
  intros [y [Hi Hy]%nth_z_Some]. apply nth_z_Some. split; [done|].
  apply list_lookup_insert_eq. by apply lookup_lt_Some in Hy.
Qed.
Lemma nth_z_insert_ne {A} (l : list A) i j x : 0 ≤ i → i ≠ j →
  nth_z (<[Z.to_nat i := x]> l) j = nth_z l j.
Proof.
  intros Hi Hij. unfold nth_z. rewrite length_insert.
  destruct (Z.leb_spec 0 j); simpl; [|done]. destruct (Z.ltb_spec j (Z.of_nat (length l))); [|done].
  apply list_lookup_insert_ne. lia.
Qed.

(** A store changes the bytes of its range only. *)
Lemma write_bytes_spec w bs off v bs' :
  write_bytes bs off w v = Some bs' →
  length bs' = length bs ∧ (w ≠ O → 0 ≤ off ∧ off + Z.of_nat w ≤ len_z bs) ∧
  (∀ j, j < off ∨ off + Z.of_nat w ≤ j → nth_z bs' j = nth_z bs j) ∧
  read_bytes bs' off w = Some (wrap (8 * Z.of_nat w) v).
Proof.
  revert bs off v. induction w as [|w IH]; intros bs off v.
  { intros [= <-]. split_and!; [done..|]. simpl. unfold wrap. by rewrite Z.mod_1_r. }
  cbn [write_bytes]. destruct (nth_z bs off) as [b|] eqn:Hb; [|done]. simpl.
  intros H. destruct (IH _ _ _ H) as (Hlen & Hin & Hout & Hread).
  pose proof Hb as [Hoff Hl%lookup_lt_Some]%nth_z_Some.
  unfold len_z in *. rewrite length_insert in Hlen, Hin. split_and!; [done|..].
  - intros _. destruct w; [lia|]. destruct Hin; [done|]. lia.
  - intros j Hj. rewrite Hout by lia. apply nth_z_insert_ne; lia.
  - cbn [read_bytes]. rewrite Hout, nth_z_insert_eq, Hread by (eauto || lia). simpl. f_equal.
    rewrite Z.lor_comm, lor_shiftl_add by (try apply wrap_range; lia).
    rewrite Z.shiftr_div_pow2 by lia. unfold wrap.
    replace (8 * Z.of_nat (S w)) with (8 + 8 * Z.of_nat w) by lia.
    rewrite Z.pow_add_r, Z.rem_mul_r by (try apply Z.pow_nonzero; lia || apply pow2_pos; lia). lia.
Qed.

(** ** The invariant is kept *)

Lemma memory_lookup m id a : memory_ok m → nth_z (allocs m) id = Some a → alloc_ok a.
Proof. intros Hm [_ Ha]%nth_z_Some. by eapply Forall_lookup_1. Qed.
Lemma memory_insert m id a : memory_ok m → alloc_ok a →
  memory_ok (set_allocs (<[Z.to_nat id := a]>) m).
Proof. intros Hm Ha. by apply Forall_insert. Qed.
Lemma memory_snoc m a : memory_ok m → alloc_ok a → memory_ok (set_allocs (λ l, l ++ [a]) m).
Proof. intros Hm Ha. apply Forall_app. split; [done|]. by constructor. Qed.

Section walk.
Context (prog : Program) (tys : TyStore) (host : HostEnv) (world : HostWorld).

(** A reader, whose result is known. *)
Lemma wp_reader {A B} (c : M A) (f : A → M B) Q E m :
  reads c → (∀ e, E e m) → (∀ a, c m = (m, Done (Ok a)) → wp True (f a) Q E m) →
  wp True (c ≫= f) Q E m.
Proof.
  intros Hc HE Hf. apply wp_bind. specialize (Hc m). unfold wp in *.
  destruct (c m) as [m' [| |[a|e]]] eqn:Hcm; try done; subst; [by apply Hf|done].
Qed.
Lemma wp_kept {A} (I : Machine → Prop) (c : M A) m :
  keeps I c → I m → wp True c (λ _, I) (λ _, I) m.
Proof. auto. Qed.

Lemma memory_define d fr s : keeps memory_ok (define d fr s).
Proof. keeping. Qed.
Lemma memory_fresh_tag : keeps memory_ok fresh_tag.
Proof. keeping. Qed.
Lemma memory_charge_bytes n : keeps memory_ok (charge_bytes n).
Proof. keeping. Qed.
Lemma memory_charge_n n : keeps memory_ok (charge_n n).
Proof. induction n; simpl; keeping. Qed.
#[local] Hint Resolve memory_define memory_fresh_tag memory_charge_bytes memory_charge_n : keeps.

Lemma deref_offset fr i s p m d :
  resolve_deref prog fr i s p m = (m, Done (Ok d)) → unsigned 32 (d_off d).
Proof.
  intros (row & _ & H)%read_bind_Ok; [|auto with reads]. destruct (target row) as [j|f sr r|a dd].
  - apply read_bind_Ok in H as (u & _ & H); [|auto with reads]. injection H as <-.
    simpl. by apply wrap_range.
  - apply read_bind_Ok in H as (al & _ & H); [|auto with reads]. destruct al; simpl in H.
    + by injection H as <-.
    + by apply read_bind_Ok in H as (? & _ & ?); [|auto with reads].
  - unfold RefVal.unpack in H.
    apply read_bind_Ok in H as (ars & _ & H); [|auto with reads].
    apply read_bind_Ok in H as (x & _ & H); [|auto with reads].
    destruct (arena_gen x =? _); [|done]. simpl in H.
    apply read_bind_Ok in H as (st & _ & H); [|auto with reads].
    case_bool_decide; [|done]. injection H as <-. simpl. by apply wrap_range.
Qed.

Lemma memory_write_through fr i s r ty v : keeps memory_ok (write_through prog tys fr i s r ty v).
Proof.
  intros m Hm. unfold write_through.
  apply wp_reader; [auto with reads|done|]. intros ptr _.
  apply wp_reader; [auto with reads|done|]. intros d Hd%deref_offset.
  destruct (borrow_access_state (d_key d) (d_tag d) Write m) as (b & ok & Hok).
  apply wp_bind. unfold wp at 1. rewrite Hok. destruct ok as [[]|[]].
  2: apply wp_kept; [keeping|done].
  destruct (d_alloc d) as [id|]; [|apply wp_kept; [keeping|done]].
  apply wp_reader; [auto with reads|done|]. intros width _.
  apply wp_bind, wp_gets. apply wp_bind, wp_ix; [|done]. intros a Ha.
  destruct (_ <? _); [by apply wp_fail|].
  apply wp_bind, wp_ix; [|done]. intros bs Hbs. apply wp_modify, memory_insert; [done|].
  apply write_bytes_spec in Hbs as (Hlen & _ & _ & _).
  destruct (memory_lookup m _ _ Hm Ha) as (Hwf & Hbl & Hlt).
  unfold alloc_ok, len_z in *. simpl. rewrite Hlen. split_and!; [|done..].
  apply set_range_wf; [apply Hd|done].
Qed.

Lemma memory_push_alloc a t : alloc_ok a → keeps memory_ok (push_alloc a t).
Proof.
  intros Ha. unfold push_alloc. apply keeps_bind; [keeping|intros id].
  apply keeps_bind; [apply keeps_modify; intros m Hm; by apply memory_snoc|intros ?]. keeping.
Qed.

Lemma memory_exec_alloc fr i row d : keeps memory_ok (exec_alloc prog fr i row d).
Proof.
  unfold exec_alloc. do 5 (apply keeps_bind; [keeping|intros ?]).
  apply keeps_bind; [apply memory_push_alloc, new_ok; by apply wrap_range|keeping].
Qed.

Lemma memory_exec_free fr i row d : keeps memory_ok (exec_free prog fr i row d).
Proof.
  unfold exec_free. do 2 (apply keeps_bind; [keeping|intros ?]). destruct (target _); [|keeping..].
  do 3 (apply keeps_bind; [keeping|intros ?]). intros m Hm.
  apply wp_bind, wp_gets, wp_bind, wp_ix; [|done]. intros al Hal.
  case_bool_decide; [|apply wp_kept; [keeping|done]].
  apply wp_bind, wp_modify, wp_kept; [keeping|].
  apply memory_insert; [done|]. by apply set_state_ok, (memory_lookup m id).
Qed.

Lemma memory_region_enter fr row d : keeps memory_ok (exec_region_enter prog fr row d).
Proof.
  unfold exec_region_enter. apply keeps_bind; [keeping|intros ?].
  destruct (region_kind <$> _) as [[]|]; [keeping..| |keeping].
  do 2 (apply keeps_bind; [keeping|intros ?]).
  apply keeps_bind; [by apply memory_push_alloc, new_ok|keeping].
Qed.

Lemma memory_region_exit fr row d : keeps memory_ok (exec_region_exit prog fr row d).
Proof.
  unfold exec_region_exit. apply keeps_bind; [keeping|intros dd]. apply keeps_bind; [|keeping].
  case_bool_decide; [|keeping]. intros m Hm. apply wp_bind, wp_gets, wp_bind, wp_gets.
  apply wp_reader; [auto with reads|done|]. intros o _.
  apply wp_bind, wp_some_or; [|done]. intros a _. apply wp_bind, wp_ix; [|done].
  intros al Hal. apply wp_modify, memory_insert; [done|]. by apply set_state_ok, (memory_lookup m (data a)).
Qed.

Lemma memory_arena_alloc fr i row d : keeps memory_ok (exec_arena_alloc prog fr i row d).
Proof.
  unfold exec_arena_alloc. apply keeps_bind; [keeping|intros aslot].
  apply keeps_bind; [keeping|intros sz]. cbv zeta. apply keeps_bind; [keeping|intros pr].
  apply keeps_bind; [keeping|intros [arena dat]].
  do 2 (apply keeps_bind; [keeping|intros _]). apply keeps_bind; [keeping|intros ars]. apply keeps_bind; [keeping|intros a].
  destruct (Z.leb_spec (2 ^ 32) (bump a + wrap 32 (bits sz))); [keeping|].
  apply keeps_bind; [keeping|intros _]. intros m Hm.
  apply wp_bind, wp_gets, wp_bind, wp_ix; [|done]. intros al Hal.
  apply wp_bind, wp_modify, wp_kept; [keeping|].
  apply memory_insert; [done|]. apply grow_ok; [by apply (memory_lookup m dat)|done].
Qed.

Lemma memory_arena_reset fr i row d : keeps memory_ok (exec_arena_reset prog fr i row d).
Proof.
  unfold exec_arena_reset. apply keeps_bind; [keeping|intros aslot].
  apply keeps_bind; [keeping|intros pr]. apply keeps_bind; [keeping|intros [arena dat]].
  do 4 (apply keeps_bind; [keeping|intros ?]).
  apply keeps_bind; [keeping|intros _]. intros m Hm.
  apply wp_bind, wp_gets, wp_bind, wp_ix; [|done]. intros al Hal.
  apply wp_bind, wp_modify, wp_kept; [keeping|].
  apply memory_insert; [done|]. by apply forget_ok, (memory_lookup m dat).
Qed.
#[local] Hint Resolve memory_write_through memory_exec_alloc memory_exec_free memory_region_enter
  memory_region_exit memory_arena_alloc memory_arena_reset : keeps.

(** *** The rest of the interpreter *)

Lemma memory_write_place fr i s r v : keeps memory_ok (write_place prog tys fr i s r v).
Proof. keeping. Qed.
Lemma memory_read_place fr i s r : keeps memory_ok (read_place prog tys fr i s r).
Proof. keeping. Qed.
Lemma memory_frem k a b : keeps memory_ok (frem k a b).
Proof. apply keeps_or_fuel. destruct k; [apply frem_f32_total|apply frem_f64_total]. Qed.
Lemma memory_convert op v a b : keeps memory_ok (convert op v a b).
Proof.
  unfold convert. destruct op; try (apply keeps_or_fuel, conv_trunc_total).
  - keeping.
  - apply keeps_or_fuel, conv_wrap_total.
  - apply keeps_or_fuel, conv_sat_total.
Qed.
Lemma memory_reduce es b l o : keeps memory_ok (call_res (reduce_run es b l o)).
Proof. apply keeps_res, reduce_run_fueled. Qed.
#[local] Hint Resolve memory_write_place memory_read_place memory_frem memory_convert memory_reduce : keeps.

Lemma memory_intrinsic_call fr i row d : keeps memory_ok (exec_intrinsic_call prog host world fr i row d).
Proof.
  unfold exec_intrinsic_call. do 6 (apply keeps_bind; [keeping|intros ?]).
  match goal with |- keeps _ (exec_intrinsic _ _ _ _ _ ?x _) => destruct x end;
    cbn [exec_intrinsic]; keeping.
Qed.
Lemma memory_exec_inst fr i row : keeps memory_ok (exec_inst prog tys host world fr i row).
Proof.
  pose proof (memory_intrinsic_call fr i row).
  unfold exec_inst. apply keeps_bind; [keeping|intros d]. destruct (i_op row); keeping.
Qed.
Lemma memory_drop_places fr ps : keeps memory_ok (drop_places prog fr ps).
Proof. induction ps as [|p ps IH]; simpl; keeping. Qed.
#[local] Hint Resolve memory_exec_inst memory_drop_places : keeps.
Lemma memory_turn : keeps memory_ok (turn prog tys host world).
Proof.
  assert (∀ fr b t, keeps memory_ok (exec_term prog fr b t)) as Ht by (intros; keeping).
  assert (∀ fr s, keeps memory_ok (after_step prog tys fr s)) as Ha by (intros; keeping).
  unfold turn. apply keeps_bind; [keeping|intros n]. apply keeps_bind; [keeping|done].
Qed.
End walk.

Section theorems.
Context (prog : Program) (tys : TyStore) (host : HostEnv) (world : HostWorld).

Lemma memory_kept_turns m0 m : memory_ok m0 → rtc (turns prog tys host world) m0 m → memory_ok m.
Proof.
  intros Hm0 Hrun. induction Hrun as [|m1 m2 m3 Hstep _ IH]; [done|]. apply IH.
  pose proof (memory_turn prog tys host world m1 Hm0) as H. unfold wp in H. unfold turns in Hstep.
  by rewrite Hstep in H.
Qed.

(** C13: the memory stays well formed: from the one static object a machine
    starts with, whatever the program does, every object has a bitmap with
    exactly one bit per byte and nothing beyond, and a size that fits its
    handle. *)
Theorem memory_stays_well_formed o c m0 m :
  allocs m0 = allocs (new_machine o c) → rtc (turns prog tys host world) m0 m →
  Forall alloc_ok (allocs m).
Proof.
  intros H0 Hrun. eapply memory_kept_turns; [|done]. unfold memory_ok. rewrite H0.
  constructor; [by apply new_ok|constructor].
Qed.

(** *** A load after a store *)

(** The readers of types look at no state. *)
Definition stateless {A} (c : M A) : Prop := ∃ r, ∀ m, c m = (m, r).
Lemma stateless_bind {A B} (c : M A) (f : A → M B) :
  stateless c → (∀ a, stateless (f a)) → stateless (c ≫= f).
Proof.
  intros [r Hr] Hf. destruct r as [| |[a|e]].
  - exists OutOfFuel. intros m. unfold mbind, call_bind. by rewrite Hr.
  - exists Panic. intros m. unfold mbind, call_bind. by rewrite Hr.
  - destruct (Hf a) as [r Hfa]. exists r. intros m. unfold mbind, call_bind. by rewrite Hr, Hfa.
  - exists (Done (Err e)). intros m. unfold mbind, call_bind. by rewrite Hr.
Qed.
Lemma stateless_of {A} (c : M A) (r : res (result Fault A)) : (∀ m, c m = (m, r)) → stateless c.
Proof. by exists r. Qed.

Lemma scalar_width_stateless ty : stateless (scalar_width prog tys ty).
Proof.
  unfold scalar_width. apply stateless_bind; [by eapply stateless_of|intros bare].
  apply stateless_bind; [by eapply stateless_of|intros tag].
  destruct (negb _); [by eapply stateless_of|].
  apply stateless_bind; [by eapply stateless_of|intros a].
  apply stateless_bind; [destruct (PrimKind_from_u8 _); by eapply stateless_of|intros p].
  by eapply stateless_of.
Qed.

Lemma get_ix_Ok {A} (o : option A) m m' a : ix o m = (m', Done (Ok a)) → o = Some a.
Proof. destruct o; unfold ix, call_res; simpl; congruence. Qed.

Lemma access_after_write s t s' :
  BorrowStack.access s t Write = (s', Ok ()) → BorrowStack.access s' t Read = (s', Ok ()).
Proof.
  intros H. pose proof (access_write_Ok _ _ _ H) as (below & above & -> & Hn).
  rewrite (access_write _ _ _ _ eq_refl Hn) in H. injection H as <-.
  rewrite access_read, decide_True; [done|]. rewrite tags_app. simpl. set_solver.
Qed.

(** Writing through a borrow leaves it readable. *)
Lemma borrow_read_after_write k t m b :
  borrow_access k t Write m = (set_borrows (λ _, b) m, Done (Ok (Ok ()))) →
  ∀ m1, borrows m1 = b → borrow_access k t Read m1 = (m1, Done (Ok (Ok ()))).
Proof.
  unfold borrow_access, mbind, call_bind. simpl. intros H m1 <-.
  destruct (borrows m !! k) as [s|] eqn:Hk.
  - destruct (BorrowStack.access s t Write) as [s' [[]|[]]] eqn:Ha; [|done].
    apply (f_equal (λ x, borrows x.1)) in H as Hb. simpl in Hb. symmetry in Hb.
    rewrite Hb, lookup_insert_eq. apply access_after_write in Ha. rewrite Ha. simpl.
    do 2 f_equal. destruct m1. simpl in *. subst. unfold set_borrows. simpl.
    by rewrite insert_insert_eq.
  - apply (f_equal (λ x, borrows x.1)) in H. simpl in H. by rewrite <- H, Hk.
Qed.

Lemma deref_stable fr i s p m d id a a' :
  resolve_deref prog fr i s p m = (m, Done (Ok d)) → d_alloc d = Some id →
  nth_z (allocs m) id = Some a → state a' = state a →
  ∀ m1, frames m1 = frames m → prov_rows m1 = prov_rows m → arenas m1 = arenas m →
    allocs m1 = <[Z.to_nat id := a']> (allocs m) →
    resolve_deref prog fr i s p m1 = (m1, Done (Ok d)).
Proof.
  intros H Hid Ha Hst m1 Hf Hp Har Hal.
  assert (∀ j, alloc_state m1 j = alloc_state m j) as Hstate.
  { intros j. unfold alloc_state. rewrite Hal. destruct (decide (j = id)) as [->|Hne].
    - rewrite nth_z_insert_eq by eauto. rewrite Ha. simpl. by rewrite Hst.
    - apply nth_z_Some in Ha as [Hi _]. by rewrite nth_z_insert_ne by done. }
  revert H. unfold resolve_deref, prov_of, check_alloc_live, mbind, call_bind. simpl.
  destruct (prov p =? PROV_NONE); [done|]. simpl. rewrite Hp.
  destruct (nth_z (prov_rows m) (prov p)) as [row|]; simpl; [|done].
  destruct (target row) as [j|f sr r|ar dd]; simpl.
  - rewrite Hstate. destruct (alloc_state m j) as [[]|]; simpl; try done.
    + by intros [= <-].
    + unfold ub, site_of, mbind, call_bind. by destruct (decl_of _ _ _) as [? [| |[]]].
  - rewrite Hf. destruct (negb _); simpl; [|by intros [= <-]].
    unfold ub, site_of, mbind, call_bind. by destruct (decl_of _ _ _) as [? [| |[]]].
  - destruct (RefVal.unpack (bits p)) as [g off]. simpl. rewrite Har.
    destruct (nth_z (arenas m) ar) as [v|]; simpl; [|done].
    destruct (negb _); [done|]. simpl. rewrite Hstate. destruct (negb _); [done|]. by intros [= <-].
Qed.

Lemma root_slot_stable fr i s r m m1 p :
  root_slot prog fr i s r m = (m, Done (Ok p)) → frames m1 = frames m →
  root_slot prog fr i s r m1 = (m1, Done (Ok p)).
Proof.
  unfold root_slot, frame, mbind, call_bind. simpl. intros H ->.
  destruct (nth_z (frames m) fr) as [f|]; [|done]. simpl in *. revert H. unfold check_slot.
  destruct (negb _); [|destruct (negb _); [|by intros [= <-]]];
    intros (? & _ & ?)%read_bind_Ok; done || auto with reads.
Qed.

(** A load of freshly stored bytes. *)
Lemma load_stored fr i s r ty m1 ptr d id w bs a v ps :
  root_slot prog fr i s r m1 = (m1, Done (Ok ptr)) →
  resolve_deref prog fr i s ptr m1 = (m1, Done (Ok d)) → d_alloc d = Some id →
  borrow_access (d_key d) (d_tag d) Read m1 = (m1, Done (Ok (Ok ()))) →
  (∀ m, scalar_width prog tys ty m = (m, Done (Ok w))) → 0 < w →
  nth_z (allocs m1) id = Some (MkAlloc bs (BitVec.set_range (inits a) (d_off d) w true) ps (kind a)
    (generation a) (state a) (align a)) →
  alloc_ok a → length bs = length (bytes a) → 0 ≤ d_off d → d_off d + w ≤ len_z bs →
  read_bytes bs (d_off d) (Z.to_nat w) = Some v →
  read_through prog tys fr i s r ty m1 =
    (m1, Done (Ok (Slot.ptr v (default PROV_NONE (ps !! d_off d))))).
Proof.
  intros Hptr Hd Hid Hb Hw Hw0 Ha (Hwf & Hbl & Hlt) Hlen Hoff Hin Hread.
  assert (len_z bs = len_z (bytes a)) as Hl by (unfold len_z; by rewrite Hlen).
  assert (saturating_add32 (d_off d) w = d_off d + w) as Hsat by (unfold saturating_add32; lia).
  unfold read_through, mbind, call_bind. rewrite Hptr, Hd, Hb, Hid, Hw. simpl. rewrite Ha. simpl.
  unfold Alloc.size. simpl. rewrite Hl, wrap_small by (unfold unsigned, len_z in *; lia).
  rewrite Hsat. destruct (Z.ltb_spec (len_z (bytes a)) (d_off d + w)); [lia|].
  assert (BitVec.all_set (BitVec.set_range (inits a) (d_off d) w true) (d_off d) w = true) as ->.
  { apply all_set_spec. intros j Hj. rewrite get_set_range by (done || lia).
    rewrite decide_True; [done|]. lia. }
  simpl. by rewrite Hread.
Qed.

(** C16: a load returns what the store before it left: if storing through a
    pointer to an object succeeds, then loading through the same pointer at the
    same type succeeds and gives the low bytes of the stored value, with the
    stored value's provenance; the borrow that wrote can still read. *)
Theorem load_after_store fr i s r ty v m m1 ptr d id :
  memory_ok m →
  write_through prog tys fr i s r ty v m = (m1, Done (Ok ())) →
  root_slot prog fr i s r m = (m, Done (Ok ptr)) →
  resolve_deref prog fr i s ptr m = (m, Done (Ok d)) → d_alloc d = Some id →
  ∃ w, scalar_width prog tys ty m = (m, Done (Ok w)) ∧
    (0 < w → read_through prog tys fr i s r ty m1 =
       (m1, Done (Ok (Slot.ptr (wrap (8 * w) (bits v)) (prov v))))).
Proof.
  intros Hmem H Hptr Hd Hid. pose proof (deref_offset _ _ _ _ _ _ _ Hd) as [Hoff _].
  unfold write_through in H.
  apply read_bind_Ok in H as (ptr' & Hptr' & H); [|auto with reads].
  assert (ptr' = ptr) as -> by congruence. clear Hptr'.
  apply read_bind_Ok in H as (d' & Hd' & H); [|auto with reads].
  assert (d' = d) as -> by congruence. clear Hd'.
  destruct (borrow_access_state (d_key d) (d_tag d) Write m) as (b & ok & Hok).
  apply call_bind_Ok in H as (ok' & m2 & Hok' & H). rewrite Hok in Hok'. injection Hok' as <- <-.
  destruct ok as [[]|[]]; [|by apply read_bind_Ok in H as (? & _ & ?); [|auto with reads]].
  rewrite Hid in H. destruct (scalar_width_stateless ty) as [rw Hrw].
  apply read_bind_Ok in H as (w & Hw & H); [|auto with reads]. rewrite Hrw in Hw. injection Hw as ->.
  exists w. split; [done|]. intros Hwpos.
  apply read_bind_Ok in H as (als & Hals & H); [|auto with reads]. injection Hals as <-.
  apply read_bind_Ok in H as (a & Ha & H); [|auto with reads].
  apply get_ix_Ok in Ha. change (nth_z (allocs m) id = Some a) in Ha.
  destruct (_ <? _); [done|].
  apply read_bind_Ok in H as (bs & Hbs & H); [|auto with reads]. apply get_ix_Ok in Hbs.
  destruct (write_bytes_spec _ _ _ _ _ Hbs) as (Hlen & Hin & _ & Hread).
  specialize (Hin ltac:(lia)) as [_ Hin]. rewrite Z2Nat.id in Hread, Hin by lia.
  set (ps := if prov v =? PROV_NONE then _ else _) in H.
  assert (default PROV_NONE (ps !! d_off d) = prov v) as <-.
  { subst ps. destruct (Z.eqb_spec (prov v) PROV_NONE) as [->|].
    - by rewrite lookup_delete_eq.
    - by rewrite lookup_insert_eq. }
  injection H as <-.
  eapply load_stored; try done.
  - by eapply root_slot_stable.
  - by apply (deref_stable fr i s ptr m d id a (MkAlloc bs (BitVec.set_range (inits a) (d_off d) w true)
      ps (kind a) (generation a) (state a) (align a))).
  - by eapply borrow_read_after_write.
  - apply nth_z_insert_eq. eexists. exact Ha.
  - by eapply memory_lookup.
  - unfold len_z in *. lia.
Qed.
End theorems.

(** In the sample the 5 stored in the heap object is loaded back. *)
Lemma load_after_store_witness :
  let p := Sample.heap_prog in
  let m := Sample.after p 3 in
  let m1 := (write_through p Sample.tys 0 4 0 0 Sample.U32_TY (Slot.val 5) m).1 in
  ∃ w, scalar_width p Sample.tys Sample.U32_TY m = (m, Done (Ok w)) ∧
    (0 < w → read_through p Sample.tys 0 4 0 0 Sample.U32_TY m1 =
       (m1, Done (Ok (Slot.ptr (wrap (8 * w) 5) 0)))).
Proof.
  apply (load_after_store Sample.heap_prog Sample.tys 0 4 0 0 Sample.U32_TY (Slot.val 5)
    (Sample.after Sample.heap_prog 3) _ (Slot.ptr 0 1) (MkDeref (KAlloc 1) (Some 1) 0 1) 1).
  - apply (memory_kept_turns Sample.heap_prog Sample.tys Sample.host Sample.world
      (Sample.start Sample.heap_prog)).
    + constructor; [by apply new_ok|constructor].
    + do 3 (eapply rtc_l; [vm_compute; reflexivity|]). apply rtc_refl.
  - vm_compute. reflexivity.
  - vm_compute. reflexivity.
  - vm_compute. reflexivity.
  - reflexivity.
Defined.

Lemma memory_stays_well_formed_witness :
  Forall alloc_ok (allocs (Sample.after Sample.heap_prog 1)).
Proof.
  eapply (memory_stays_well_formed Sample.heap_prog Sample.tys Sample.host Sample.world Oracle.live
    None (Sample.start Sample.heap_prog)).
  - reflexivity.
  - apply rtc_once. vm_compute. reflexivity.
Defined.
