(* ===== verification/TyCons.v ===== *)
(** * The hash-consing table

    fors-fir/src/cons.rs: open addressing with linear probing over a power of
    two of slots.  A slot holds a key and a value; the value [EMPTY] marks a
    free one.  The probing loops have the number of slots as fuel: the table is
    never full, so a free slot ends each of them. *)

From S2P Require Import Prelude QueryKey.
Local Open Scope Z_scope.

Definition EMPTY : Z := 2 ^ 32 - 1.
Definition LOAD_NUM : Z := 7.
Definition LOAD_DEN : Z := 8.

(** [keys] and [vals] side by side. *)
Record ConsTable : Type := MkCons { slots : list (Z * Z); mask : Z; ct_len : Z }.

Module ConsTable.
Definition capacity (t : ConsTable) : Z := Z.of_nat (length (slots t)).
Definition free_slots (n : Z) : list (Z * Z) := replicate (Z.to_nat n) (0, EMPTY).

(** [capacity.max(8).next_power_of_two()] *)
Definition with_capacity (capacity : Z) : ConsTable :=
  let cap := 2 ^ Z.log2_up (Z.max capacity 8) in MkCons (free_slots cap) (cap - 1) 0.
Definition new : ConsTable := with_capacity 64.

Definition key3 (salt a b c : Z) : Z :=
  let h := splitmix64 (Z.lxor salt a) in
  let h := splitmix64 (Z.lxor h b) in
  splitmix64 (Z.lxor h c).
Definition key_iter (salt len : Z) (xs : list Z) : Z :=
  foldl (λ h x, splitmix64 (Z.lxor h x)) (splitmix64 (Z.lxor salt len)) xs.

Definition slot_at (ss : list (Z * Z)) (i : Z) : res (Z * Z) := get_ix (ss !! Z.to_nat i).

Fixpoint probe (fuel : nat) (t : ConsTable) (key : Z) (eq : Z → bool) (i : Z) : res (option Z) :=
  match fuel with
  | O => OutOfFuel
  | S fuel =>
      '(k, v) ← slot_at (slots t) i;
      if v =? EMPTY then Done None
      else if (k =? key) && eq v then Done (Some v)
      else probe fuel t key eq (Z.land (i + 1) (mask t))
  end.
Definition lookup (t : ConsTable) (key : Z) (eq : Z → bool) : res (option Z) :=
  probe (length (slots t)) t key eq (Z.land key (mask t)).

(** The first free slot from [i] on takes the entry. *)
Fixpoint place_from (fuel : nat) (ss : list (Z * Z)) (m key val i : Z) : res (list (Z * Z)) :=
  match fuel with
  | O => OutOfFuel
  | S fuel =>
      '(_, v) ← slot_at ss i;
      if v =? EMPTY then Done (<[Z.to_nat i := (key, val)]> ss)
      else place_from fuel ss m key val (Z.land (i + 1) m)
  end.
Definition place (ss : list (Z * Z)) (m key val : Z) : res (list (Z * Z)) :=
  place_from (length ss) ss m key val (Z.land key m).

Fixpoint rehash (ss : list (Z * Z)) (m : Z) (old : list (Z * Z)) : res (list (Z * Z)) :=
  match old with
  | [] => Done ss
  | (k, v) :: old =>
      if v =? EMPTY then rehash ss m old
      else ss ← place ss m k v; rehash ss m old
  end.
Definition grow (t : ConsTable) : res ConsTable :=
  let cap := capacity t * 2 in
  ss ← rehash (free_slots cap) (cap - 1) (slots t);
  Done (MkCons ss (cap - 1) (ct_len t)).

Definition insert (t : ConsTable) (key val : Z) : res ConsTable :=
  t ← (if capacity t * LOAD_NUM <? (ct_len t + 1) * LOAD_DEN then grow t else Done t);
  ss ← place (slots t) (mask t) key val;
  Done (MkCons ss (mask t) (ct_len t + 1)).
End ConsTable.

(** ** What a table holds *)

Definition full (s : Z * Z) : Prop := s.2 ≠ EMPTY.
#[global] Instance full_dec s : Decision (full s).
Proof. unfold full. apply _. Defined.

Definition holds_slot (ss : list (Z * Z)) (k v : Z) : Prop := ∃ j, ss !! j = Some (k, v) ∧ v ≠ EMPTY.
Definition stored (t : ConsTable) (k v : Z) : Prop := holds_slot (slots t) k v.

(** Position [d] of the probe sequence of a key. *)
Definition pos (cap : nat) (key : Z) (d : nat) : nat := (Z.to_nat (key mod Z.of_nat cap) + d) mod cap.

Record slots_ok (ss : list (Z * Z)) : Prop := {
  so_cap : ∃ p, 3 ≤ p ∧ Z.of_nat (length ss) = 2 ^ p;
  so_free : (length (filter full ss) < length ss)%nat;
  so_reach : ∀ j k v, ss !! j = Some (k, v) → v ≠ EMPTY →
    ∃ d, (d < length ss)%nat ∧ j = pos (length ss) k d ∧
      ∀ e, (e < d)%nat → ∃ s, ss !! pos (length ss) k e = Some s ∧ full s
}.

Record cons_ok (t : ConsTable) : Prop := {
  co_slots : slots_ok (slots t);
  co_mask : mask t = ConsTable.capacity t - 1;
  co_len : ct_len t = Z.of_nat (length (filter full (slots t)));
  co_load : ct_len t * LOAD_DEN ≤ ConsTable.capacity t * LOAD_NUM
}.

(** ** Probing *)

Section slots_props.
Context (ss : list (Z * Z)) (Hcap : ∃ p, 3 ≤ p ∧ Z.of_nat (length ss) = 2 ^ p).
Let cap := length ss.

Lemma cap_pos : (8 ≤ cap)%nat.
Proof using Hcap.
  destruct Hcap as (p & Hp & Hl). unfold cap.
  assert (2 ^ 3 ≤ 2 ^ p) by (apply Z.pow_le_mono_r; lia). lia.
Qed.

Lemma land_table x : Z.land x (Z.of_nat cap - 1) = x mod Z.of_nat cap.
Proof using Hcap.
  destruct Hcap as (p & Hp & Hl). fold cap in Hl. rewrite Hl.
  replace (2 ^ p - 1) with (Z.ones p) by (rewrite Z.ones_equiv; lia). apply Z.land_ones. lia.
Qed.

Lemma pos_0 key : Z.of_nat (pos cap key 0) = key mod Z.of_nat cap.
Proof using Hcap.
  pose proof cap_pos. pose proof (Z.mod_pos_bound key (Z.of_nat cap) ltac:(lia)).
  unfold pos. rewrite Nat.add_0_r, Nat.mod_small; lia.
Qed.
Lemma pos_S key d : Z.land (Z.of_nat (pos cap key d) + 1) (Z.of_nat cap - 1) = Z.of_nat (pos cap key (S d)).
Proof using Hcap.
  pose proof cap_pos. rewrite land_table. unfold pos.
  set (h := Z.to_nat _). rewrite !Nat2Z.inj_mod, !Nat2Z.inj_add, Nat2Z.inj_succ.
  rewrite Z.add_mod_idemp_l by lia. f_equal. lia.
Qed.
Lemma pos_lt key d : (pos cap key d < cap)%nat.
Proof using Hcap. pose proof cap_pos. unfold pos. apply Nat.mod_upper_bound. lia. Qed.
Lemma pos_surj key j : (j < cap)%nat → ∃ d, (d < cap)%nat ∧ pos cap key d = j.
Proof using Hcap.
  intros Hj. pose proof cap_pos. unfold pos.
  pose proof (Z.mod_pos_bound key (Z.of_nat cap) ltac:(lia)). set (h := Z.to_nat _).
  assert (h < cap)%nat as Hh by (unfold h; lia). clearbody h.
  destruct (decide (h ≤ j)%nat).
  - exists (j - h)%nat. split; [lia|]. rewrite Nat.mod_small; lia.
  - exists (j + cap - h)%nat. split; [lia|]. replace (h + (j + cap - h))%nat with (j + 1 * cap)%nat by lia.
    rewrite Nat.Div0.mod_add. by apply Nat.mod_small.
Qed.
End slots_props.

Lemma filter_full_lt (ss : list (Z * Z)) :
  (length (filter full ss) < length ss)%nat → ∃ j s, ss !! j = Some s ∧ ¬ full s.
Proof.
  intros H. destruct (decide (Forall full ss)) as [Hf|Hf].
  - exfalso. assert (filter full ss = ss) as Heq; [|rewrite Heq in H; lia].
    clear H. induction Hf as [|s ss Hs _ IH]; [done|]. rewrite filter_cons, decide_True, IH by done. done.
  - apply not_Forall_Exists in Hf; [|apply _]. apply Exists_exists in Hf as (s & Hs & Hn).
    apply list_elem_of_lookup in Hs as [j Hj]. eauto.
Qed.

(** Some position of every probe sequence is free. *)
Lemma free_pos ss key : slots_ok ss →
  ∃ d s, (d < length ss)%nat ∧ ss !! pos (length ss) key d = Some s ∧ ¬ full s.
Proof.
  intros [Hc Hf _]. destruct (filter_full_lt ss Hf) as (j & s & Hj & Hn).
  destruct (pos_surj ss Hc key j) as (d & Hd & Hp); [by apply lookup_lt_Some in Hj|].
  exists d, s. by rewrite Hp.
Qed.

Lemma slot_at_Some ss (j : nat) s : ss !! j = Some s → ConsTable.slot_at ss (Z.of_nat j) = Done s.
Proof. intros H. unfold ConsTable.slot_at. by rewrite Nat2Z.id, H. Qed.

Lemma probe_spec t key eq : cons_ok t → ∀ fuel d, (fuel + d = length (slots t))%nat →
  (∀ e, (e < d)%nat → ∃ k v, slots t !! pos (length (slots t)) key e = Some (k, v) ∧ v ≠ EMPTY ∧
    (k = key → eq v = false)) →
  ∃ r, ConsTable.probe fuel t key eq (Z.of_nat (pos (length (slots t)) key d)) = Done r ∧
  match r with
  | Some v => stored t key v ∧ eq v = true
  | None => ∃ d' s, slots t !! pos (length (slots t)) key d' = Some s ∧ ¬ full s ∧
      ∀ e, (e < d')%nat → ∃ k v, slots t !! pos (length (slots t)) key e = Some (k, v) ∧ v ≠ EMPTY ∧
        (k = key → eq v = false)
  end.
Proof.
  intros [Hs Hm _ _]. pose proof (so_cap _ Hs) as Hcap. induction fuel as [|fuel IH]; intros d Hd Hall.
  { exfalso. destruct (free_pos (slots t) key Hs) as (f & s & Hf & Hsf & Hn).
    destruct (Hall f) as (k & v & Hkv & Hv & _); [lia|]. rewrite Hkv in Hsf. simplify_eq. by apply Hn. }
  cbn [ConsTable.probe].
  destruct (lookup_lt_is_Some_2 (slots t) (pos (length (slots t)) key d)) as [[k v] Hkv].
  { by apply pos_lt. }
  rewrite (slot_at_Some _ _ _ Hkv). cbn [mbind res_bind].
  destruct (Z.eqb_spec v EMPTY) as [He|He].
  { exists None. split; [done|]. exists d, (k, v). split_and!; [done|by intros []|done]. }
  destruct (decide (k = key ∧ eq v = true)) as [[-> Heq]|Hno].
  { exists (Some v). rewrite Z.eqb_refl, Heq. split_and!; [done| |done]. by eexists. }
  assert ((k =? key) && eq v = false) as ->.
  { destruct (Z.eqb_spec k key); [|done]. simpl. destruct (eq v) eqn:?; [by destruct Hno|done]. }
  rewrite Hm. unfold ConsTable.capacity. rewrite pos_S by done. apply IH; [lia|].
  intros e He'. destruct (decide (e = d)) as [->|]; [|apply Hall; lia].
  exists k, v. split_and!; [done..|]. intros ->. destruct (eq v) eqn:?; [by destruct Hno|done].
Qed.

(** A lookup ends; what it finds is stored under the key and passes the test,
    and when it finds nothing no stored value does. *)
Lemma lookup_spec t key eq : cons_ok t →
  ∃ r, ConsTable.lookup t key eq = Done r ∧
  match r with
  | Some v => stored t key v ∧ eq v = true
  | None => ∀ v, stored t key v → eq v = false
  end.
Proof.
  intros Ht. pose proof Ht as [Hs Hm _ _]. pose proof (so_cap _ Hs) as Hcap.
  destruct (probe_spec t key eq Ht (length (slots t)) 0) as (r & Hr & Hspec); [lia|lia|].
  rewrite pos_0 in Hr by done. unfold ConsTable.lookup. rewrite Hm. unfold ConsTable.capacity.
  rewrite land_table by done. exists r. split; [done|]. destruct r as [v|]; [done|].
  destruct Hspec as (d' & s & Hd & Hn & Hall). intros v (j & Hj & Hv).
  destruct (so_reach _ Hs j key v Hj Hv) as (d & Hlt & -> & Hfull).
  destruct (decide (d < d')%nat) as [Hlt'|Hge].
  { destruct (Hall d Hlt') as (k & v' & Hkv & _ & He). rewrite Hj in Hkv. simplify_eq. by apply He. }
  exfalso. apply Hn. destruct (decide (d = d')) as [->|].
  - rewrite Hj in Hd. by simplify_eq.
  - destruct (Hfull d') as (s' & Hs' & ?); [lia|]. rewrite Hd in Hs'. by simplify_eq.
Qed.

(** ** Placing an entry *)

Lemma filter_full_insert (ss : list (Z * Z)) i s s' : ss !! i = Some s → ¬ full s → full s' →
  length (filter full (<[i := s']> ss)) = S (length (filter full ss)).
Proof.
  revert i. induction ss as [|x ss IH]; intros [|i] Hi Hn Hf; simpl in *; try done.
  - simplify_eq. rewrite !filter_cons, decide_True, decide_False by done. done.
  - rewrite !filter_cons. case_decide; simpl; by rewrite (IH i Hi Hn Hf).
Qed.

Lemma place_from_spec ss m key val : slots_ok ss → m = Z.of_nat (length ss) - 1 →
  ∀ fuel d, (fuel + d = length ss)%nat →
  (∀ e, (e < d)%nat → ∃ s, ss !! pos (length ss) key e = Some s ∧ full s) →
  ∃ d' s, ConsTable.place_from fuel ss m key val (Z.of_nat (pos (length ss) key d)) =
      Done (<[pos (length ss) key d' := (key, val)]> ss) ∧
    (d' < length ss)%nat ∧ ss !! pos (length ss) key d' = Some s ∧ ¬ full s ∧
    ∀ e, (e < d')%nat → ∃ s, ss !! pos (length ss) key e = Some s ∧ full s.
Proof.
  intros Hs ->. pose proof (so_cap _ Hs) as Hcap. induction fuel as [|fuel IH]; intros d Hd Hall.
  { exfalso. destruct (free_pos ss key Hs) as (f & s & Hf & Hsf & Hn).
    destruct (Hall f) as (s' & Hs' & ?); [lia|]. rewrite Hs' in Hsf. by simplify_eq. }
  cbn [ConsTable.place_from].
  destruct (lookup_lt_is_Some_2 ss (pos (length ss) key d)) as [[k v] Hkv]; [by apply pos_lt|].
  rewrite (slot_at_Some _ _ _ Hkv). cbn [mbind res_bind].
  destruct (Z.eqb_spec v EMPTY) as [He|He].
  - exists d, (k, v). rewrite Nat2Z.id. split_and!; [done|lia|done|by intros []|done].
  - rewrite pos_S by done. apply IH; [lia|]. intros e He'.
    destruct (decide (e = d)) as [->|]; [by exists (k, v)|apply Hall; lia].
Qed.

Lemma place_spec ss m key val : slots_ok ss → m = Z.of_nat (length ss) - 1 → val ≠ EMPTY →
  (S (length (filter full ss)) < length ss)%nat →
  ∃ ss', ConsTable.place ss m key val = Done ss' ∧ slots_ok ss' ∧ length ss' = length ss ∧
    length (filter full ss') = S (length (filter full ss)) ∧
    ∀ k v, holds_slot ss' k v ↔ holds_slot ss k v ∨ (k = key ∧ v = val).
Proof.
  intros Hs Hm Hval Hroom. pose proof (so_cap _ Hs) as Hcap.
  destruct (place_from_spec ss m key val Hs Hm (length ss) 0) as (d & s & Hp & Hd & Hj & Hn & Hfull); [lia|lia|].
  rewrite pos_0 in Hp by done. unfold ConsTable.place. rewrite Hm. rewrite land_table by done. rewrite <- Hm.
  set (j := pos (length ss) key d) in *. exists (<[j:=(key, val)]> ss).
  assert (j < length ss)%nat as Hjlt by (by apply lookup_lt_Some in Hj).
  assert (∀ i s', ss !! i = Some s' → full s' → <[j:=(key, val)]> ss !! i = Some s') as Hkeep.
  { intros i s' Hi Hf. rewrite list_lookup_insert_ne; [done|]. intros <-. rewrite Hj in Hi. by simplify_eq. }
  assert (length (filter full (<[j:=(key, val)]> ss)) = S (length (filter full ss))) as Hcount.
  { by eapply filter_full_insert. }
  split_and!; [done| |by rewrite length_insert|done|].
  - split; rewrite ?length_insert, ?Hcount; [done|done|]. intros i k v Hi Hv.
    destruct (decide (i = j)) as [->|Hne].
    + rewrite list_lookup_insert_eq in Hi by done. simplify_eq. exists d. split_and!; [done..|].
      intros e He. destruct (Hfull e He) as (s' & Hs' & Hf). eauto.
    + rewrite list_lookup_insert_ne in Hi by done.
      destruct (so_reach _ Hs i k v Hi Hv) as (d' & Hd' & -> & Hf'). exists d'. split_and!; [done..|].
      intros e He. destruct (Hf' e He) as (s' & Hs' & Hf''). eauto.
  - intros k v. split.
    + intros (i & Hi & Hv). destruct (decide (i = j)) as [->|Hne].
      * rewrite list_lookup_insert_eq in Hi by done. simplify_eq. by right.
      * rewrite list_lookup_insert_ne in Hi by done. left. by exists i.
    + intros [(i & Hi & Hv)|[-> ->]]; [exists i; split; [by apply Hkeep|done]|].
      exists j. by rewrite list_lookup_insert_eq.
Qed.

(** ** Insertion *)

Lemma free_slots_ok p : 3 ≤ p → slots_ok (ConsTable.free_slots (2 ^ p)).
Proof.
  intros Hp. assert (2 ^ 3 ≤ 2 ^ p) by (apply Z.pow_le_mono_r; lia).
  unfold ConsTable.free_slots. split.
  - exists p. rewrite length_replicate. split; [done|lia].
  - rewrite length_replicate. replace (filter full _) with (@nil (Z * Z)); [simpl; lia|].
    symmetry. induction (Z.to_nat (2 ^ p)) as [|n IH]; [done|]. simpl. by rewrite filter_cons, decide_False by (by intros []).
  - intros j k v [Hj _]%lookup_replicate Hv. by simplify_eq.
Qed.
Lemma free_slots_empty n : filter full (ConsTable.free_slots n) = [] ∧ ∀ k v, ¬ holds_slot (ConsTable.free_slots n) k v.
Proof.
  unfold ConsTable.free_slots. split.
  - induction (Z.to_nat n) as [|i IH]; [done|]. simpl. by rewrite filter_cons, decide_False by (by intros []).
  - intros k v (j & [Hj _]%lookup_replicate & Hv). by simplify_eq.
Qed.

Lemma cons_new_ok : cons_ok ConsTable.new ∧ ∀ k v, ¬ stored ConsTable.new k v.
Proof.
  assert (slots_ok (slots ConsTable.new)) as Hs by (apply (free_slots_ok 6); done).
  split; [split; [done|done|..]|].
  - unfold ConsTable.new, ConsTable.with_capacity. simpl ct_len. simpl slots.
    by rewrite (proj1 (free_slots_empty _)).
  - done.
  - intros k v. apply free_slots_empty.
Qed.

Lemma rehash_spec old : ∀ ss m, slots_ok ss → m = Z.of_nat (length ss) - 1 →
  (length (filter full ss) + length (filter full old) < length ss)%nat →
  ∃ ss', ConsTable.rehash ss m old = Done ss' ∧ slots_ok ss' ∧ length ss' = length ss ∧
    length (filter full ss') = (length (filter full ss) + length (filter full old))%nat ∧
    ∀ k v, holds_slot ss' k v ↔ holds_slot ss k v ∨ holds_slot old k v.
Proof.
  induction old as [|[k v] old IH]; intros ss m Hs Hm Hroom; cbn [ConsTable.rehash].
  { exists ss. split_and!; [done..|simpl; lia|]. intros k v. split; [by left|].
    intros [|(j & ? & _)]; [done|]. by rewrite lookup_nil in *. }
  rewrite filter_cons in *. destruct (Z.eqb_spec v EMPTY) as [->|Hv].
  - rewrite decide_False in * by (by intros []). destruct (IH ss m Hs Hm Hroom) as (ss' & -> & ? & ? & ? & Hst).
    exists ss'. split_and!; [done..|]. intros k' v'. rewrite Hst. split; (intros [|(j & Hj & Hv)]; [by left|right]).
    + by exists (S j).
    + destruct j as [|j]; [simpl in Hj; by simplify_eq|by exists j].
  - rewrite decide_True in * by done. simpl in Hroom.
    destruct (place_spec ss m k v Hs Hm Hv) as (ss1 & -> & Hs1 & Hl1 & Hf1 & Hst1); [lia|]. simpl.
    destruct (IH ss1 m Hs1) as (ss' & -> & ? & Hl & Hf & Hst); [by rewrite Hl1|lia|].
    exists ss'. split_and!; [done|done|congruence|lia|]. intros k' v'. rewrite Hst, Hst1. split.
    + intros [[|[-> ->]]|(j & Hj & ?)]; [by left|right; by exists 0%nat|right; by exists (S j)].
    + intros [|(j & Hj & ?)]; [by do 2 left|]. destruct j as [|j]; [|right; by exists j].
      simpl in Hj. simplify_eq. left. by right.
Qed.

(** An insertion adds its entry and keeps all others, growing when needed. *)
Lemma insert_spec t key val : cons_ok t → val ≠ EMPTY →
  ∃ t', ConsTable.insert t key val = Done t' ∧ cons_ok t' ∧
    ∀ k v, stored t' k v ↔ stored t k v ∨ (k = key ∧ v = val).
Proof.
  intros [Hs Hm Hl Hload] Hval. pose proof (so_cap _ Hs) as (p & Hp & Hcap). pose proof (cap_pos _ (so_cap _ Hs)).
  unfold ConsTable.insert. unfold LOAD_DEN, LOAD_NUM, ConsTable.capacity in *.
  assert (∀ t1, slots_ok (slots t1) → mask t1 = Z.of_nat (length (slots t1)) - 1 →
    ct_len t1 = Z.of_nat (length (filter full (slots t1))) →
    (ct_len t1 + 1) * 8 ≤ Z.of_nat (length (slots t1)) * 7 →
    (∀ k v, stored t1 k v ↔ stored t k v) →
    ∃ t', (ss ← ConsTable.place (slots t1) (mask t1) key val; Done (MkCons ss (mask t1) (ct_len t1 + 1))) = Done t' ∧
      cons_ok t' ∧ ∀ k v, stored t' k v ↔ stored t k v ∨ (k = key ∧ v = val)) as Hgo.
  { intros t1 Hs1 Hm1 Hl1 Hload1 Hst1. pose proof (cap_pos _ (so_cap _ Hs1)).
    destruct (place_spec (slots t1) (mask t1) key val Hs1 Hm1 Hval) as (ss & -> & Hss & Hlen & Hf & Hst); [lia|].
    eexists. split; [done|]. split; [split; simpl; unfold ConsTable.capacity, LOAD_DEN, LOAD_NUM; simpl;
      [done|rewrite Hlen; lia|lia|rewrite Hlen; lia]|].
    intros k v. unfold stored at 1. simpl. rewrite Hst. by rewrite <- Hst1. }
  destruct (Z.ltb_spec (Z.of_nat (length (slots t)) * 7) ((ct_len t + 1) * 8)); [|by apply Hgo].
  unfold ConsTable.grow, ConsTable.capacity.
  destruct (free_slots_empty (Z.of_nat (length (slots t)) * 2)) as [He Hno].
  assert (Z.of_nat (length (slots t)) * 2 = 2 ^ (p + 1)) as Hpow by (rewrite Z.pow_add_r by lia; lia).
  assert (length (ConsTable.free_slots (Z.of_nat (length (slots t)) * 2)) = (length (slots t) * 2)%nat) as Hlen.
  { unfold ConsTable.free_slots. rewrite length_replicate. lia. }
  destruct (rehash_spec (slots t) (ConsTable.free_slots (Z.of_nat (length (slots t)) * 2))
    (Z.of_nat (length (slots t)) * 2 - 1)) as (ss & -> & Hss & Hl' & Hf & Hst).
  { rewrite Hpow. apply free_slots_ok. lia. }
  { rewrite Hlen. lia. }
  { rewrite He, Hlen. simpl. pose proof (so_free _ Hs). lia. }
  cbn [mbind res_bind]. rewrite Hlen in Hl'. rewrite He in Hf. simpl in Hf. apply Hgo; simpl; [done|lia..|].
  intros k v. unfold stored. simpl. rewrite Hst. split; [intros [[]%Hno|]; done|by right].
Qed.
