(* ===== verification/TyStore.v ===== *)
(** * The type universe

    fors-fir/src/ty.rs: types as rows of a store, hash-consed, so that equality
    of types is equality of their ids.  A row is a tag, two operands that name
    entries of the pools (argument lists, trait references, projection keys,
    function types, brands, constants), qualifiers, and two derived columns
    filled when the row is made.  The [debug_assert]s of a debug build are left
    out. *)

From S2P Require Import Prelude QueryKey TyCons.
From S2P Require InterpArith.
Local Open Scope Z_scope.

(** ** Data *)

Definition TY_ERROR : Z := 0.
Definition TY_UNIT : Z := 1.
Definition TY_NEVER : Z := 2.
Definition NO_TY : Z := 2 ^ 32 - 1.
Definition NO_ARGS : Z := 0.

Inductive TyTag : Type :=
  | TError | TUnit | TNever | TPrim | TNominal | TTuple | TFn | TDyn | TParam | TProj | TBrand | TConstVal.
#[global] Instance TyTag_eq_dec : EqDecision TyTag.
Proof. solve_decision. Defined.
(** [tag as u64] *)
Definition tag_num (t : TyTag) : Z :=
  match t with
  | TError => 0 | TUnit => 1 | TNever => 2 | TPrim => 3 | TNominal => 4 | TTuple => 5
  | TFn => 6 | TDyn => 7 | TParam => 8 | TProj => 9 | TBrand => 10 | TConstVal => 11
  end.

(** [k as u32] *)
Definition prim_num (k : InterpArith.PrimKind.PrimKind) : Z :=
  match k with
  | InterpArith.PrimKind.I8 => 0 | InterpArith.PrimKind.I16 => 1 | InterpArith.PrimKind.I32 => 2
  | InterpArith.PrimKind.I64 => 3 | InterpArith.PrimKind.Isize => 4 | InterpArith.PrimKind.U8 => 5
  | InterpArith.PrimKind.U16 => 6 | InterpArith.PrimKind.U32 => 7 | InterpArith.PrimKind.U64 => 8
  | InterpArith.PrimKind.Usize => 9 | InterpArith.PrimKind.F32 => 10 | InterpArith.PrimKind.F64 => 11
  | InterpArith.PrimKind.Bool => 12 | InterpArith.PrimKind.Str => 13 | InterpArith.PrimKind.RawPtr => 14
  end.

Module Quals.
Definition NONE : Z := 0.
Definition ISO : Z := 1.
Definition IMM : Z := 2.
Definition SECRET : Z := 4.
Definition is_none (q : Z) : bool := q =? 0.
Definition union (q r : Z) : Z := Z.lor q r.
End Quals.

Definition F_PARAM : Z := 1.
Definition F_PROJ : Z := 2.
Definition F_BRAND : Z := 4.
Definition F_ERROR : Z := 8.
Definition F_FRESH : Z := 16.
Definition F_OPEN : Z := Z.lor (Z.lor F_PARAM F_PROJ) F_BRAND.

(** ch01's parameter conventions, sig.rs. *)
Inductive Conv : Type := CLet | CInout | CSink | CSet.
#[global] Instance Conv_eq_dec : EqDecision Conv.
Proof. solve_decision. Defined.
Definition conv_num (c : Conv) : Z := match c with CLet => 0 | CInout => 1 | CSink => 2 | CSet => 3 end.

Inductive BrandRow : Type := BParam (owner ordinal : Z) | BFresh (owner ordinal : Z).
#[global] Instance BrandRow_eq_dec : EqDecision BrandRow.
Proof. solve_decision. Defined.
(** [BrandRow::kind], as the operand [a] of a brand's row. *)
Definition brand_kind (b : BrandRow) : Z := match b with BParam _ _ => 0 | BFresh _ _ => 1 end.

(** constval.rs *)
Inductive ConstValue : Type := CI (v : Z) | CB (v : bool) | CS (s : Z).
#[global] Instance ConstValue_eq_dec : EqDecision ConstValue.
Proof. solve_decision. Defined.

Record Row : Type := MkRow {
  r_tag : TyTag; r_a : Z; r_b : Z; r_quals : Z; r_flags : Z; r_unqual : Z }.

Record FnTy : Type := MkFnTy { p_start : Z; p_len : Z; fn_result : Z; fn_raises : Z; fn_closure : bool }.

(** The columns side by side; [copyable] apart, since it is a cache. *)
Record TyStore : Type := MkStore {
  rows : list Row;
  copyable : list Z;
  args_flat : list Z; args_at : list (Z * Z);
  trait_refs : list (Z * Z);
  proj_keys : list (Z * Z);
  fn_params : list (Conv * Z); fn_tys : list FnTy;
  brands : list BrandRow;
  consts : list ConstValue;
  rows_cons : ConsTable; args_cons : ConsTable; tr_cons : ConsTable; pk_cons : ConsTable;
  fn_cons : ConsTable; brand_cons : ConsTable; const_cons : ConsTable }.

Definition SALT_ROW : Z := 0x524f5700524f5700.
Definition SALT_ARGS : Z := 0x4152475341524753.
Definition SALT_TR : Z := 0x5452454654524546.
Definition SALT_PK : Z := 0x504b4559504b4559.
Definition SALT_FN : Z := 0x464e5459464e5459.
Definition SALT_BRAND : Z := 0x42524e4442524e44.
Definition SALT_CONST : Z := 0x434f4e53544f4e53.

(** ** Operations on a store *)

Definition op (A : Type) : Type := TyStore → res (TyStore * A).
#[global] Instance op_ret : MRet op := λ A a s, Done (s, a).
#[global] Instance op_bind : MBind op := λ A B f c s, r ← c s; f r.2 r.1.
Definition read {A} (f : TyStore → res A) : op A := λ s, a ← f s; Done (s, a).

Definition len {A} (l : list A) : Z := Z.of_nat (length l).
Definition at_ix {A} (l : list A) (i : Z) : option A :=
  if (0 <=? i) && (i <? len l) then l !! Z.to_nat i else None.
Definition slice {A} (l : list A) (start n : Z) : option (list A) :=
  if (0 <=? start) && (start + n <=? len l) then Some (take (Z.to_nat n) (drop (Z.to_nat start) l)) else None.

Definition row (s : TyStore) (t : Z) : option Row := at_ix (rows s) t.
Definition tag (s : TyStore) (t : Z) : res TyTag := r ← get_ix (row s t); Done (r_tag r).
Definition ty_a (s : TyStore) (t : Z) : res Z := r ← get_ix (row s t); Done (r_a r).
Definition ty_b (s : TyStore) (t : Z) : res Z := r ← get_ix (row s t); Done (r_b r).
Definition quals (s : TyStore) (t : Z) : res Z := r ← get_ix (row s t); Done (r_quals r).
Definition flags (s : TyStore) (t : Z) : res Z := r ← get_ix (row s t); Done (r_flags r).
Definition unqual (s : TyStore) (t : Z) : res Z := r ← get_ix (row s t); Done (r_unqual r).
Definition is_monomorphic (s : TyStore) (t : Z) : res bool :=
  f ← flags s t; Done (Z.land f F_OPEN =? 0).
Definition is_rigid (s : TyStore) (t : Z) : res bool :=
  g ← tag s t; Done (bool_decide (g ∈ [TParam; TProj])).
Definition args_of (s : TyStore) (id : Z) : option (list Z) :=
  '(st, n) ← at_ix (args_at s) id; slice (args_flat s) st n.
Definition params_of (s : TyStore) (id : Z) : option (list (Conv * Z)) :=
  f ← at_ix (fn_tys s) id; slice (fn_params s) (p_start f) (p_len f).

Definition set_copyable (t : Z) (answer : bool) : op unit := λ s,
  _ ← get_ix (at_ix (copyable s) t);
  Done (MkStore (rows s) (<[Z.to_nat t := if answer then 1 else 2]> (copyable s))
    (args_flat s) (args_at s) (trait_refs s) (proj_keys s) (fn_params s) (fn_tys s) (brands s) (consts s)
    (rows_cons s) (args_cons s) (tr_cons s) (pk_cons s) (fn_cons s) (brand_cons s) (const_cons s), ()).

(** ** The pools *)

Definition args_key (xs : list Z) : Z := ConsTable.key_iter SALT_ARGS (len xs) xs.
Definition intern_args (xs : list Z) : op Z := λ s,
  let key := args_key xs in
  found ← ConsTable.lookup (args_cons s) key (λ v, bool_decide (args_of s v = Some xs));
  match found with
  | Some id => Done (s, id)
  | None =>
      let id := wrap 32 (len (args_at s)) in
      if 2 ^ 16 <=? len xs then Panic
      else
        t ← ConsTable.insert (args_cons s) key id;
        Done (MkStore (rows s) (copyable s) (args_flat s ++ xs)
                (args_at s ++ [(wrap 32 (len (args_flat s)), len xs)])
                (trait_refs s) (proj_keys s) (fn_params s) (fn_tys s) (brands s) (consts s)
                (rows_cons s) t (tr_cons s) (pk_cons s) (fn_cons s) (brand_cons s) (const_cons s), id)
  end.

Definition tr_key (p : Z * Z) : Z := ConsTable.key3 SALT_TR p.1 p.2 0.
Definition intern_trait_ref (trait_def args : Z) : op Z := λ s,
  let key := tr_key (trait_def, args) in
  found ← ConsTable.lookup (tr_cons s) key (λ v, bool_decide (at_ix (trait_refs s) v = Some (trait_def, args)));
  match found with
  | Some id => Done (s, id)
  | None =>
      let id := wrap 32 (len (trait_refs s)) in
      t ← ConsTable.insert (tr_cons s) key id;
      Done (MkStore (rows s) (copyable s) (args_flat s) (args_at s) (trait_refs s ++ [(trait_def, args)])
              (proj_keys s) (fn_params s) (fn_tys s) (brands s) (consts s)
              (rows_cons s) (args_cons s) t (pk_cons s) (fn_cons s) (brand_cons s) (const_cons s), id)
  end.

Definition pk_key (p : Z * Z) : Z := ConsTable.key3 SALT_PK p.1 p.2 0.
Definition intern_proj_key (tr name : Z) : op Z := λ s,
  let key := pk_key (tr, name) in
  found ← ConsTable.lookup (pk_cons s) key (λ v, bool_decide (at_ix (proj_keys s) v = Some (tr, name)));
  match found with
  | Some id => Done (s, id)
  | None =>
      let id := wrap 32 (len (proj_keys s)) in
      t ← ConsTable.insert (pk_cons s) key id;
      Done (MkStore (rows s) (copyable s) (args_flat s) (args_at s) (trait_refs s)
              (proj_keys s ++ [(tr, name)]) (fn_params s) (fn_tys s) (brands s) (consts s)
              (rows_cons s) (args_cons s) (tr_cons s) t (fn_cons s) (brand_cons s) (const_cons s), id)
  end.

(** A function type, out of its columns. *)
Abbreviation FnSig := (list (Conv * Z) * Z * Z * bool)%type.
Definition fn_sig_of (s : TyStore) (id : Z) : option FnSig :=
  f ← at_ix (fn_tys s) id;
  ps ← slice (fn_params s) (p_start f) (p_len f);
  Some (ps, fn_result f, fn_raises f, fn_closure f).
Definition fn_key (x : FnSig) : Z :=
  let '(ps, result, raises, closure) := x in
  ConsTable.key_iter SALT_FN (len ps * 2 + 3)
    (flat_map (λ p, [conv_num p.1; p.2]) ps ++ [result; raises; b2z closure]).
Definition intern_fn_ty (params : list (Conv * Z)) (result raises : Z) (closure : bool) : op Z := λ s,
  let key := fn_key (params, result, raises, closure) in
  found ← ConsTable.lookup (fn_cons s) key
    (λ v, bool_decide (fn_sig_of s v = Some (params, result, raises, closure)));
  match found with
  | Some id => Done (s, id)
  | None =>
      let id := wrap 32 (len (fn_tys s)) in
      if 2 ^ 8 <=? len params then Panic
      else
        t ← ConsTable.insert (fn_cons s) key id;
        Done (MkStore (rows s) (copyable s) (args_flat s) (args_at s) (trait_refs s) (proj_keys s)
                (fn_params s ++ params)
                (fn_tys s ++ [MkFnTy (wrap 32 (len (fn_params s))) (len params) result raises closure])
                (brands s) (consts s)
                (rows_cons s) (args_cons s) (tr_cons s) (pk_cons s) t (brand_cons s) (const_cons s), id)
  end.

Definition brand_key (b : BrandRow) : Z :=
  match b with
  | BParam owner ordinal => ConsTable.key3 SALT_BRAND 0 owner ordinal
  | BFresh owner ordinal => ConsTable.key3 SALT_BRAND 1 owner ordinal
  end.
Definition intern_brand (b : BrandRow) : op Z := λ s,
  let key := brand_key b in
  found ← ConsTable.lookup (brand_cons s) key (λ v, bool_decide (at_ix (brands s) v = Some b));
  match found with
  | Some id => Done (s, id)
  | None =>
      let id := wrap 32 (len (brands s)) in
      t ← ConsTable.insert (brand_cons s) key id;
      Done (MkStore (rows s) (copyable s) (args_flat s) (args_at s) (trait_refs s) (proj_keys s)
              (fn_params s) (fn_tys s) (brands s ++ [b]) (consts s)
              (rows_cons s) (args_cons s) (tr_cons s) (pk_cons s) (fn_cons s) t (const_cons s), id)
  end.

Definition const_key (c : ConstValue) : Z :=
  let '(k, payload) := match c with
                       | CI n => (0, wrap 128 n)
                       | CB b => (1, b2z b)
                       | CS s => (2, s)
                       end in
  ConsTable.key3 SALT_CONST k (wrap 64 payload) (wrap 64 (Z.shiftr payload 64)).
Definition intern_const (c : ConstValue) : op Z := λ s,
  let key := const_key c in
  found ← ConsTable.lookup (const_cons s) key (λ v, bool_decide (at_ix (consts s) v = Some c));
  match found with
  | Some id => Done (s, id)
  | None =>
      let id := wrap 32 (len (consts s)) in
      t ← ConsTable.insert (const_cons s) key id;
      Done (MkStore (rows s) (copyable s) (args_flat s) (args_at s) (trait_refs s) (proj_keys s)
              (fn_params s) (fn_tys s) (brands s) (consts s ++ [c])
              (rows_cons s) (args_cons s) (tr_cons s) (pk_cons s) (fn_cons s) (brand_cons s) t, id)
  end.

(** ** Rows *)

Definition or_flags (s : TyStore) (ts : list Z) : res Z :=
  foldl (λ acc t, f ← acc; x ← flags s t; Done (Z.lor f x)) (Done 0) ts.
Definition or_args (s : TyStore) (id : Z) : res Z := xs ← get_ix (args_of s id); or_flags s xs.

Definition child_flags (s : TyStore) (g : TyTag) (a b : Z) : res Z :=
  match g with
  | TError => Done F_ERROR
  | TUnit | TNever | TPrim => Done 0
  | TNominal | TTuple => or_args s b
  | TFn =>
      '(ps, result, raises, _) ← get_ix (fn_sig_of s a);
      f ← or_flags s (map snd ps);
      r ← flags s result;
      let f := Z.lor f r in
      if raises =? NO_TY then Done f else e ← flags s raises; Done (Z.lor f e)
  | TDyn => tr ← get_ix (at_ix (trait_refs s) a); or_args s tr.2
  | TParam => Done F_PARAM
  | TProj =>
      h ← flags s a;
      pk ← get_ix (at_ix (proj_keys s) b);
      tr ← get_ix (at_ix (trait_refs s) pk.1);
      f ← or_args s tr.2;
      Done (Z.lor (Z.lor F_PROJ h) f)
  | TBrand =>
      br ← get_ix (at_ix (brands s) b);
      Done (if brand_kind br =? 1 then Z.lor F_BRAND F_FRESH else F_BRAND)
  | TConstVal => flags s b
  end.

Abbreviation RowKey := (TyTag * Z * Z * Z)%type.
Definition key_of (r : Row) : RowKey := (r_tag r, r_a r, r_b r, r_quals r).
Definition row_key (k : RowKey) : Z :=
  let '(g, a, b, q) := k in ConsTable.key3 SALT_ROW (Z.lor (Z.shiftl (tag_num g) 8) q) a b.

Definition lookup_row (s : TyStore) (k : RowKey) : res (option Z) :=
  ConsTable.lookup (rows_cons s) (row_key k) (λ v, bool_decide (key_of <$> row s v = Some k)).

(** The end of [intern]: the new row, with its derived columns. *)
Definition push_row (g : TyTag) (a b q child : Z) (bare : option Z) : op Z := λ s,
  let id := wrap 32 (len (rows s)) in
  t ← ConsTable.insert (rows_cons s) (row_key (g, a, b, q)) id;
  Done (MkStore (rows s ++ [MkRow g a b q child (default id bare)]) (copyable s ++ [0])
          (args_flat s) (args_at s) (trait_refs s) (proj_keys s) (fn_params s) (fn_tys s) (brands s) (consts s)
          t (args_cons s) (tr_cons s) (pk_cons s) (fn_cons s) (brand_cons s) (const_cons s), id).

(** [intern] of an unqualified row, which does not recurse. *)
Definition intern_bare (g : TyTag) (a b : Z) : op Z := λ s,
  found ← lookup_row s (g, a, b, Quals.NONE);
  match found with
  | Some id => Done (s, id)
  | None => child ← child_flags s g a b; push_row g a b Quals.NONE child None s
  end.

Definition intern (g : TyTag) (a b q : Z) : op Z := λ s,
  if Quals.is_none q then intern_bare g a b s
  else
    found ← lookup_row s (g, a, b, q);
    match found with
    | Some id => Done (s, id)
    | None =>
        child ← child_flags s g a b;
        '(s, bare) ← intern_bare g a b s;
        push_row g a b q child (Some bare) s
    end.

(** ** Convenience *)

Definition prim (k : InterpArith.PrimKind.PrimKind) : op Z := intern TPrim (prim_num k) 0 Quals.NONE.
Definition nominal (def args : Z) : op Z := intern TNominal def args Quals.NONE.
Definition nominal_of (def : Z) (xs : list Z) : op Z := a ← intern_args xs; nominal def a.
Definition tuple (args : Z) : op Z := intern TTuple 0 args Quals.NONE.
Definition tuple_of (xs : list Z) : op Z := a ← intern_args xs; tuple a.
Definition fn_ty (id : Z) : op Z := intern TFn id 0 Quals.NONE.
Definition dyn_ty (tr : Z) : op Z := intern TDyn tr 0 Quals.NONE.
Definition param (owner ordinal : Z) : op Z := intern TParam owner ordinal Quals.NONE.
Definition proj (head key : Z) : op Z := intern TProj head key Quals.NONE.
Definition proj_of (head trait_def : Z) (trait_args : list Z) (name : Z) : op Z :=
  a ← intern_args trait_args;
  tr ← intern_trait_ref trait_def a;
  pk ← intern_proj_key tr name;
  proj head pk.
Definition brand_ty (b : BrandRow) : op Z :=
  id ← intern_brand b; intern TBrand (brand_kind b) id Quals.NONE.
Definition const_ty (c : ConstValue) (ty : Z) : op Z :=
  id ← intern_const c; intern TConstVal id ty Quals.NONE.

Definition qualified (t q : Z) : op Z := λ s,
  r ← get_ix (row s t);
  let merged := Quals.union (r_quals r) q in
  if merged =? r_quals r then Done (s, t) else intern (r_tag r) (r_a r) (r_b r) merged s.

Definition empty : TyStore :=
  let c := ConsTable.new in MkStore [] [] [] [] [] [] [] [] [] [] c c c c c c c.
(** [TyStore::new] *)
Definition new : res TyStore :=
  r ← (e ← intern_args [];
       err ← intern TError 0 0 Quals.NONE;
       unit ← intern TUnit 0 0 Quals.NONE;
       never ← intern TNever 0 0 Quals.NONE;
       mret (e, err, unit, never)) empty;
  if bool_decide (r.2 = (NO_ARGS, TY_ERROR, TY_UNIT, TY_NEVER)) then Done r.1 else Panic.

(** ** A pool and its table

    [get] reads the pool, of [n] entries; the table holds the key of each. *)

Record pool_ok {R : Type} (t : ConsTable) (get : Z → option R) (key : R → Z) (n : Z) : Prop := {
  po_cons : cons_ok t;
  po_size : 0 ≤ n ≤ EMPTY;
  po_dom : ∀ i, is_Some (get i) ↔ 0 ≤ i < n;
  po_inj : ∀ i j x, get i = Some x → get j = Some x → i = j;
  po_keys : ∀ k v, stored t k v ↔ ∃ x, get v = Some x ∧ k = key x }.
Arguments po_cons {R t get key n}. Arguments po_size {R t get key n}. Arguments po_dom {R t get key n}.
Arguments po_inj {R t get key n}. Arguments po_keys {R t get key n}.

Section pool.
Context {R : Type} `{EqDecision R} (t : ConsTable) (get : Z → option R) (key : R → Z) (n : Z).

Lemma pool_lookup x : pool_ok t get key n →
  ∃ r, ConsTable.lookup t (key x) (λ v, bool_decide (get v = Some x)) = Done r ∧
    match r with Some v => get v = Some x | None => ∀ v, get v ≠ Some x end.
Proof.
  intros H. destruct (lookup_spec t (key x) (λ v, bool_decide (get v = Some x)) (po_cons H)) as (r & Hr & Hspec).
  exists r. split; [done|]. destruct r as [v|].
  - destruct Hspec as [_ Hv]. by apply bool_decide_eq_true in Hv.
  - intros v Hv. assert (stored t (key x) v) as Hst by (apply (po_keys H); eauto).
    specialize (Hspec v Hst). by rewrite bool_decide_true in Hspec.
Qed.

Lemma pool_insert x get' : pool_ok t get key n → (∀ v, get v ≠ Some x) → n < EMPTY →
  (∀ i y, get' i = Some y ↔ get i = Some y ∨ (i = n ∧ y = x)) →
  ∃ t', ConsTable.insert t (key x) (wrap 32 n) = Done t' ∧ pool_ok t' get' key (n + 1).
Proof.
  intros H Hnew Hn Hget. pose proof (po_size H) as Hsz.
  assert (wrap 32 n = n) as -> by (apply wrap_small; unfold unsigned, EMPTY in *; lia).
  destruct (insert_spec t (key x) n (po_cons H)) as (t' & -> & Ht' & Hst); [lia|].
  exists t'. split; [done|].
  assert (∀ y, get n ≠ Some y) as Hfresh.
  { intros y Hy. assert (is_Some (get n)) as Hs by eauto. apply (po_dom H) in Hs. lia. }
  split; [done|lia| | |].
  - intros i. split.
    + intros [y [Hy|[-> _]]%Hget]; [|lia]. assert (is_Some (get i)) as Hs by eauto. apply (po_dom H) in Hs. lia.
    + intros Hi. destruct (decide (i = n)) as [->|].
      * exists x. apply Hget. by right.
      * assert (is_Some (get i)) as [y Hy] by (apply (po_dom H); lia). exists y. apply Hget. by left.
  - intros i j y [Hi|[-> ->]]%Hget [Hj|[-> Hy]]%Hget; [by eapply (po_inj H)| |by apply Hnew in Hj|done].
    subst y. by apply Hnew in Hi.
  - intros k v. rewrite Hst, (po_keys H). split.
    + intros [(y & Hy & ->)|[-> ->]]; [exists y|exists x]; (split; [apply Hget|done]); auto.
    + intros (y & [Hy|[-> ->]]%Hget & ->); eauto.
Qed.
End pool.

(** ** Reading lists *)

Lemma at_ix_Some {A} (l : list A) i x : at_ix l i = Some x ↔ 0 ≤ i ∧ l !! Z.to_nat i = Some x.
Proof.
  unfold at_ix, len. split.
  - destruct (Z.leb_spec 0 i), (Z.ltb_spec i (Z.of_nat (length l))); try done.
  - intros [Hi Hl]. apply lookup_lt_Some in Hl as Hlt.
    destruct (Z.leb_spec 0 i), (Z.ltb_spec i (Z.of_nat (length l))); done || lia.
Qed.
Lemma at_ix_is_Some {A} (l : list A) i : is_Some (at_ix l i) ↔ 0 ≤ i < len l.
Proof.
  unfold len. split.
  - intros [x [Hi Hl%lookup_lt_Some]%at_ix_Some]. lia.
  - intros Hi. destruct (lookup_lt_is_Some_2 l (Z.to_nat i)) as [x Hx]; [lia|].
    exists x. apply at_ix_Some. by split; [lia|].
Qed.
Lemma at_ix_snoc {A} (l : list A) x i y :
  at_ix (l ++ [x]) i = Some y ↔ at_ix l i = Some y ∨ (i = len l ∧ y = x).
Proof.
  rewrite !at_ix_Some. unfold len. split.
  - intros [Hi Hl]. destruct (decide (Z.to_nat i < length l)%nat).
    + rewrite lookup_app_l in Hl by done. by left.
    + right. rewrite lookup_app_r in Hl by lia. apply list_lookup_singleton_Some in Hl as [? ->].
      split; [lia|done].
  - intros [[Hi Hl]|[-> ->]]; [split; [done|]; by apply lookup_app_l_Some|]. split; [lia|].
    rewrite Nat2Z.id. by apply list_lookup_middle.
Qed.
Lemma at_ix_prefix {A} (l l' : list A) i x : l `prefix_of` l' → at_ix l i = Some x → at_ix l' i = Some x.
Proof. intros Hp [Hi Hl]%at_ix_Some. apply at_ix_Some. split; [done|]. by eapply prefix_lookup_Some. Qed.

Lemma len_app {A} (l l' : list A) : len (l ++ l') = len l + len l'.
Proof. unfold len. rewrite length_app. lia. Qed.
Lemma slice_prefix {A} (l l' xs : list A) st n : l `prefix_of` l' → slice l st n = Some xs → slice l' st n = Some xs.
Proof.
  intros [k ->]. unfold slice. rewrite len_app. pose proof (Zle_0_nat (length k)).
  destruct (Z.leb_spec 0 st); [|done].
  destruct (Z.leb_spec (st + n) (len l)) as [Hle|]; [|done]. intros [= <-].
  destruct (Z.leb_spec (st + n) (len l + len k)) as [|Hgt]; [|unfold len in *; lia]. f_equal.
  unfold len in *. destruct (decide (Z.to_nat st ≤ length l)%nat).
  - rewrite drop_app_le by done. apply take_app_le. rewrite length_drop. lia.
  - replace (Z.to_nat n) with 0%nat by lia. by rewrite !take_0.
Qed.
Lemma slice_end {A} (l xs : list A) : slice (l ++ xs) (len l) (len xs) = Some xs.
Proof.
  unfold slice. rewrite len_app, Z.leb_refl. assert ((0 <=? len l) = true) as -> by (apply Z.leb_le; unfold len; lia).
  simpl. unfold len. rewrite !Nat2Z.id, drop_app_length. by rewrite take_ge.
Qed.

(** ** What a row stands for

    A label and the ids of its component types; [None] for operands that name
    nothing, or that are not the ones the constructors write. *)

Inductive label : Type :=
  | LError | LUnit | LNever
  | LPrim (k : Z)
  | LNominal (def : Z)
  | LTuple
  | LFn (convs : list Conv) (closure raises : bool)
  | LDyn (trait_def : Z)
  | LParam (owner ordinal : Z)
  | LProj (trait_def name : Z)
  | LBrand (b : BrandRow)
  | LConst (c : ConstValue).
#[global] Instance label_eq_dec : EqDecision label.
Proof. solve_decision. Defined.

Definition fn_parts (x : FnSig) : label * list Z :=
  let '(ps, result, raises, closure) := x in
  (LFn (map fst ps) closure (negb (raises =? NO_TY)),
   map snd ps ++ [result] ++ (if raises =? NO_TY then [] else [raises])).

Definition parts (s : TyStore) (g : TyTag) (a b : Z) : option (label * list Z) :=
  match g with
  | TError => if (a =? 0) && (b =? 0) then Some (LError, []) else None
  | TUnit => if (a =? 0) && (b =? 0) then Some (LUnit, []) else None
  | TNever => if (a =? 0) && (b =? 0) then Some (LNever, []) else None
  | TPrim => if b =? 0 then Some (LPrim a, []) else None
  | TNominal => xs ← args_of s b; Some (LNominal a, xs)
  | TTuple => if a =? 0 then xs ← args_of s b; Some (LTuple, xs) else None
  | TFn => if b =? 0 then fn_parts <$> fn_sig_of s a else None
  | TDyn => if b =? 0 then tr ← at_ix (trait_refs s) a; xs ← args_of s tr.2; Some (LDyn tr.1, xs) else None
  | TParam => Some (LParam a b, [])
  | TProj =>
      pk ← at_ix (proj_keys s) b;
      tr ← at_ix (trait_refs s) pk.1;
      xs ← args_of s tr.2;
      Some (LProj tr.1 pk.2, a :: xs)
  | TBrand => br ← at_ix (brands s) b; if a =? brand_kind br then Some (LBrand br, []) else None
  | TConstVal => c ← at_ix (consts s) a; Some (LConst c, [b])
  end.

Definition own_flags (l : label) : Z :=
  match l with
  | LError => F_ERROR
  | LParam _ _ => F_PARAM
  | LProj _ _ => F_PROJ
  | LBrand (BParam _ _) => F_BRAND
  | LBrand (BFresh _ _) => Z.lor F_BRAND F_FRESH
  | _ => 0
  end.
Definition flags_at (s : TyStore) (t : Z) : Z := default 0 (r_flags <$> row s t).
Definition flags_in (s : TyStore) (cs : list Z) : Z := foldr (λ c f, Z.lor (flags_at s c) f) 0 cs.

(** Components come before the row; the flags are the row's own and theirs;
    [unqual] is the same row without qualifiers. *)
Record row_ok (s : TyStore) (i : Z) (r : Row) : Prop := {
  ro_parts : ∃ l cs, parts s (r_tag r) (r_a r) (r_b r) = Some (l, cs) ∧
    Forall (λ c, 0 ≤ c < i) cs ∧ r_flags r = Z.lor (own_flags l) (flags_in s cs);
  ro_quals : 0 ≤ r_quals r;
  ro_bare : ∃ u, row s (r_unqual r) = Some u ∧ key_of u = (r_tag r, r_a r, r_b r, 0) ∧ r_unqual r ≤ i }.

Record store_ok (s : TyStore) : Prop := {
  st_rows : pool_ok (rows_cons s) (λ i, key_of <$> row s i) row_key (len (rows s));
  st_args : pool_ok (args_cons s) (args_of s) args_key (len (args_at s));
  st_tr : pool_ok (tr_cons s) (at_ix (trait_refs s)) tr_key (len (trait_refs s));
  st_pk : pool_ok (pk_cons s) (at_ix (proj_keys s)) pk_key (len (proj_keys s));
  st_fn : pool_ok (fn_cons s) (fn_sig_of s) fn_key (len (fn_tys s));
  st_brand : pool_ok (brand_cons s) (at_ix (brands s)) brand_key (len (brands s));
  st_const : pool_ok (const_cons s) (at_ix (consts s)) const_key (len (consts s));
  st_short : ∀ i xs, args_of s i = Some xs → len xs < 2 ^ 16;
  st_few : ∀ i ps e r c, fn_sig_of s i = Some (ps, e, r, c) → len ps < 2 ^ 8;
  st_row : ∀ i r, row s i = Some r → row_ok s i r }.

(** *** Stores only grow *)

Record ext (s s' : TyStore) : Prop := {
  ex_rows : rows s `prefix_of` rows s';
  ex_flat : args_flat s `prefix_of` args_flat s';
  ex_args : args_at s `prefix_of` args_at s';
  ex_tr : trait_refs s `prefix_of` trait_refs s';
  ex_pk : proj_keys s `prefix_of` proj_keys s';
  ex_params : fn_params s `prefix_of` fn_params s';
  ex_fn : fn_tys s `prefix_of` fn_tys s';
  ex_brands : brands s `prefix_of` brands s';
  ex_consts : consts s `prefix_of` consts s' }.
#[global] Instance ext_preorder : PreOrder ext.
Proof.
  split; [by split|]. intros s1 s2 s3 [] []. split; by etrans.
Qed.

(** The size of the largest column. *)
Definition foot (s : TyStore) : Z :=
  foldr Z.max 0 [len (rows s); len (args_flat s); len (args_at s); len (trait_refs s); len (proj_keys s);
                 len (fn_params s); len (fn_tys s); len (brands s); len (consts s)].

Section ext.
Context (s s' : TyStore) (He : ext s s').

Lemma row_ext i r : row s i = Some r → row s' i = Some r.
Proof using He. apply at_ix_prefix, He. Qed.
Lemma args_ext i xs : args_of s i = Some xs → args_of s' i = Some xs.
Proof using He.
  unfold args_of. destruct (at_ix (args_at s) i) as [[st n]|] eqn:E; [|done]. simpl.
  rewrite (at_ix_prefix _ _ _ _ (ex_args _ _ He) E). simpl. apply slice_prefix, He.
Qed.
Lemma fn_sig_ext i x : fn_sig_of s i = Some x → fn_sig_of s' i = Some x.
Proof using He.
  unfold fn_sig_of. destruct (at_ix (fn_tys s) i) as [f|] eqn:E; [|done]. simpl.
  rewrite (at_ix_prefix _ _ _ _ (ex_fn _ _ He) E). simpl.
  destruct (slice (fn_params s) _ _) as [ps|] eqn:E2; [|done]. simpl.
  by rewrite (slice_prefix _ _ _ _ _ (ex_params _ _ He) E2).
Qed.
Lemma parts_ext g a b lc : parts s g a b = Some lc → parts s' g a b = Some lc.
Proof using He.
  destruct g; simpl; try done; repeat case_match; try done.
  - intros (xs & Hx & H)%bind_Some. apply args_ext in Hx. by rewrite Hx.
  - intros (xs & Hx & Hl)%bind_Some. apply args_ext in Hx. by rewrite Hx.
  - intros (x & Hx & ->)%fmap_Some. by rewrite (fn_sig_ext _ _ Hx).
  - intros (tr & Ht & (xs & Hx & Hl)%bind_Some)%bind_Some.
    apply (at_ix_prefix _ _ _ _ (ex_tr _ _ He)) in Ht. apply args_ext in Hx. by rewrite Ht; simpl; rewrite Hx.
  - intros (pk & Hp & (tr & Ht & (xs & Hx & Hl)%bind_Some)%bind_Some)%bind_Some.
    apply (at_ix_prefix _ _ _ _ (ex_pk _ _ He)) in Hp. apply (at_ix_prefix _ _ _ _ (ex_tr _ _ He)) in Ht.
    apply args_ext in Hx. rewrite Hp. simpl. rewrite Ht. simpl. by rewrite Hx.
  - intros (br & Hb & Hl)%bind_Some. by rewrite (at_ix_prefix _ _ _ _ (ex_brands _ _ He) Hb).
  - intros (c & Hc & Hl)%bind_Some. by rewrite (at_ix_prefix _ _ _ _ (ex_consts _ _ He) Hc).
Qed.

Lemma flags_in_ext cs : Forall (λ c, is_Some (row s c)) cs → flags_in s' cs = flags_in s cs.
Proof using He.
  induction 1 as [|c cs [r Hr] _ IH]; [done|]. simpl. rewrite IH. f_equal. unfold flags_at.
  by rewrite Hr, (row_ext _ _ Hr).
Qed.
Lemma row_ok_ext i r : row_ok s i r → 0 ≤ i < len (rows s) ∨ i = len (rows s) → row_ok s' i r.
Proof using He.
  intros [(l & cs & Hp & Hc & Hf) Hq (u & Hu & Hk & Hle)] Hi. split; [|done|].
  - exists l, cs. split_and!; [by apply parts_ext|done|]. rewrite flags_in_ext; [done|].
    eapply Forall_impl; [done|]. intros c Hc'. cbv beta in Hc'. apply at_ix_is_Some. lia.
  - exists u. split_and!; [by apply row_ext|done..].
Qed.
End ext.

(** ** A call that interns

    [c] ends without a panic, in a good store that extends the first by at most
    [n] entries in each column. *)
Definition does {A} (c : op A) (s : TyStore) (n : Z) (Q : TyStore → A → Prop) : Prop :=
  ∃ s' a, c s = Done (s', a) ∧ store_ok s' ∧ ext s s' ∧ foot s' ≤ foot s + n ∧ Q s' a.

Lemma does_ret {A} (a : A) s n Q : store_ok s → 0 ≤ n → Q s a → does (mret a) s n Q.
Proof. intros Hs Hn HQ. exists s, a. split_and!; [done|done|done|lia|done]. Qed.
Lemma does_bind {A B} (c : op A) (f : A → op B) s n1 n2 Q R :
  does c s n1 Q →
  (∀ s' a, store_ok s' → ext s s' → foot s' ≤ foot s + n1 → Q s' a → does (f a) s' n2 R) →
  does (c ≫= f) s (n1 + n2) R.
Proof.
  intros (s1 & a & Hc & Hok & He & Hn & HQ) Hf.
  destruct (Hf s1 a Hok He Hn HQ) as (s2 & b & Hf2 & Hok2 & He2 & Hn2 & HR).
  exists s2, b. split_and!; [|done|by etrans|lia|done].
  unfold mbind, op_bind. rewrite Hc. done.
Qed.
Lemma does_mono {A} (c : op A) s n n' Q Q' : does c s n Q → n ≤ n' →
  (∀ s' a, store_ok s' → ext s s' → Q s' a → Q' s' a) → does c s n' Q'.
Proof.
  intros (s1 & a & Hc & Hok & He & Hn & HQ) Hle HQ'. exists s1, a. split_and!; [done..|lia|by apply HQ'].
Qed.

(** *** Interning in a pool *)

Lemma pool_grow {R} `{EqDecision R} (t : ConsTable) (get get' : Z → option R) (key : R → Z) n x :
  pool_ok t get key n → (∀ v, get v ≠ Some x) → n < EMPTY →
  (∀ i y, get i = Some y → get' i = Some y) → get' n = Some x →
  (∀ i, is_Some (get' i) → 0 ≤ i < n + 1) →
  ∃ t', ConsTable.insert t (key x) (wrap 32 n) = Done t' ∧ pool_ok t' get' key (n + 1).
Proof.
  intros H Hnew Hn Hext Hx Hdom. apply (pool_insert t get); [done..|]. intros i y. split.
  - intros Hi. destruct (decide (i = n)) as [->|Hne]; [right; split; [done|congruence]|left].
    destruct (proj2 (po_dom H i)) as [y' Hy']; [assert (is_Some (get' i)) as Hs%Hdom by eauto; lia|].
    pose proof (Hext i y' Hy'). congruence.
  - intros [Hi|[-> ->]]; auto.
Qed.

Lemma list_grow {A} (t : ConsTable) (l : list A) `{EqDecision A} (key : A → Z) x :
  pool_ok t (at_ix l) key (len l) → (∀ v, at_ix l v ≠ Some x) → len l < EMPTY →
  ∃ t', ConsTable.insert t (key x) (wrap 32 (len l)) = Done t' ∧
    pool_ok t' (at_ix (l ++ [x])) key (len (l ++ [x])).
Proof.
  intros H Hnew Hn. rewrite len_app. apply (pool_insert t (at_ix l)); [done..|]. intros i y. apply at_ix_snoc.
Qed.

(** Only the rows look at other pools, and those look the same. *)
Lemma rows_kept s s' : ext s s' → rows s' = rows s → store_ok s → ∀ i r, row s' i = Some r → row_ok s' i r.
Proof.
  intros He Hr Hs i r Hi. assert (row s i = Some r) as Hi' by (unfold row in *; by rewrite <- Hr).
  apply (row_ok_ext s s' He); [by apply (st_row _ Hs)|left]. apply at_ix_is_Some. unfold row in Hi'. by rewrite Hi'.
Qed.

Lemma foot_above s :
  0 ≤ foot s ∧ len (rows s) ≤ foot s ∧ len (args_flat s) ≤ foot s ∧ len (args_at s) ≤ foot s ∧
  len (trait_refs s) ≤ foot s ∧ len (proj_keys s) ≤ foot s ∧ len (fn_params s) ≤ foot s ∧
  len (fn_tys s) ≤ foot s ∧ len (brands s) ≤ foot s ∧ len (consts s) ≤ foot s.
Proof. unfold foot. cbn [foldr]. split_and!; lia. Qed.
Lemma foot_least s n : 0 ≤ n →
  len (rows s) ≤ n → len (args_flat s) ≤ n → len (args_at s) ≤ n → len (trait_refs s) ≤ n →
  len (proj_keys s) ≤ n → len (fn_params s) ≤ n → len (fn_tys s) ≤ n → len (brands s) ≤ n →
  len (consts s) ≤ n → foot s ≤ n.
Proof. intros. unfold foot. cbn [foldr]. repeat (apply Z.max_lub; [done|]). done. Qed.
Ltac foot_lia :=
  repeat match goal with
         | H : context [foot ?s] |- _ => lazymatch goal with
             | _ : len (rows s) ≤ foot s |- _ => fail
             | _ => pose proof (foot_above s) as (? & ? & ? & ? & ? & ? & ? & ? & ? & ?)
             end
         end;
  try (apply foot_least; cbn); rewrite ?len_app;
  repeat match goal with |- context [len [_]] => change (len [_]) with 1 end;
  cbn; unfold EMPTY, len in *; lia.
Ltac grows := split; cbn; done || by apply prefix_app_r.

Lemma does_trait_ref d a s : store_ok s → foot s + 1 ≤ EMPTY →
  does (intern_trait_ref d a) s 1 (λ s' id, at_ix (trait_refs s') id = Some (d, a)).
Proof.
  intros Hs Hroom. unfold does, intern_trait_ref.
  destruct (pool_lookup _ _ _ _ (d, a) (st_tr _ Hs)) as ([id|] & -> & Hid); cbn [mbind res_bind].
  { exists s, id. split_and!; done || lia. }
  assert (len (trait_refs s) < EMPTY) as Hlt by foot_lia.
  destruct (list_grow _ _ _ (d, a) (st_tr _ Hs) Hid Hlt) as (t & -> & Ht). cbn [mbind res_bind].
  eexists _, _. split; [done|]. match goal with |- store_ok ?x ∧ _ => set (s' := x) end.
  assert (ext s s') as He by grows. split_and!; [|done|subst s'; foot_lia|].
  - split; try apply Hs; [done|]. by apply (rows_kept s).
  - cbn. apply at_ix_snoc. right. split; [apply wrap_small; unfold unsigned, EMPTY, len in *; lia|done].
Qed.

Lemma does_proj_key tr n s : store_ok s → foot s + 1 ≤ EMPTY →
  does (intern_proj_key tr n) s 1 (λ s' id, at_ix (proj_keys s') id = Some (tr, n)).
Proof.
  intros Hs Hroom. unfold does, intern_proj_key.
  destruct (pool_lookup _ _ _ _ (tr, n) (st_pk _ Hs)) as ([id|] & -> & Hid); cbn [mbind res_bind].
  { exists s, id. split_and!; done || lia. }
  assert (len (proj_keys s) < EMPTY) as Hlt by foot_lia.
  destruct (list_grow _ _ _ (tr, n) (st_pk _ Hs) Hid Hlt) as (t & -> & Ht). cbn [mbind res_bind].
  eexists _, _. split; [done|]. match goal with |- store_ok ?x ∧ _ => set (s' := x) end.
  assert (ext s s') as He by grows. split_and!; [|done|subst s'; foot_lia|].
  - split; try apply Hs; [done|]. by apply (rows_kept s).
  - cbn. apply at_ix_snoc. right. split; [apply wrap_small; unfold unsigned, EMPTY, len in *; lia|done].
Qed.

Lemma does_brand b s : store_ok s → foot s + 1 ≤ EMPTY →
  does (intern_brand b) s 1 (λ s' id, at_ix (brands s') id = Some b).
Proof.
  intros Hs Hroom. unfold does, intern_brand.
  destruct (pool_lookup _ _ _ _ b (st_brand _ Hs)) as ([id|] & -> & Hid); cbn [mbind res_bind].
  { exists s, id. split_and!; done || lia. }
  assert (len (brands s) < EMPTY) as Hlt by foot_lia.
  destruct (list_grow _ _ _ b (st_brand _ Hs) Hid Hlt) as (t & -> & Ht). cbn [mbind res_bind].
  eexists _, _. split; [done|]. match goal with |- store_ok ?x ∧ _ => set (s' := x) end.
  assert (ext s s') as He by grows. split_and!; [|done|subst s'; foot_lia|].
  - split; try apply Hs; [done|]. by apply (rows_kept s).
  - cbn. apply at_ix_snoc. right. split; [apply wrap_small; unfold unsigned, EMPTY, len in *; lia|done].
Qed.

Lemma does_const c s : store_ok s → foot s + 1 ≤ EMPTY →
  does (intern_const c) s 1 (λ s' id, at_ix (consts s') id = Some c).
Proof.
  intros Hs Hroom. unfold does, intern_const.
  destruct (pool_lookup _ _ _ _ c (st_const _ Hs)) as ([id|] & -> & Hid); cbn [mbind res_bind].
  { exists s, id. split_and!; done || lia. }
  assert (len (consts s) < EMPTY) as Hlt by foot_lia.
  destruct (list_grow _ _ _ c (st_const _ Hs) Hid Hlt) as (t & -> & Ht). cbn [mbind res_bind].
  eexists _, _. split; [done|]. match goal with |- store_ok ?x ∧ _ => set (s' := x) end.
  assert (ext s s') as He by grows. split_and!; [|done|subst s'; foot_lia|].
  - split; try apply Hs; [done|]. by apply (rows_kept s).
  - cbn. apply at_ix_snoc. right. split; [apply wrap_small; unfold unsigned, EMPTY, len in *; lia|done].
Qed.

Lemma does_args xs s : store_ok s → len xs < 2 ^ 16 → foot s + (1 + len xs) ≤ EMPTY →
  does (intern_args xs) s (1 + len xs) (λ s' id, args_of s' id = Some xs).
Proof.
  intros Hs Hxs Hroom. unfold does, intern_args.
  destruct (pool_lookup _ _ _ _ xs (st_args _ Hs)) as ([id|] & -> & Hid); cbn [mbind res_bind].
  { exists s, id. split_and!; done || (unfold len; lia). }
  destruct (Z.leb_spec (2 ^ 16) (len xs)); [lia|].
  assert (0 ≤ len (args_at s) < EMPTY ∧ 0 ≤ len (args_flat s) < EMPTY) as [Hlt Hflat] by foot_lia.
  rewrite (wrap_small 32 (len (args_flat s))) by (unfold unsigned, EMPTY in *; lia).
  match goal with |- context [MkStore ?a ?b ?c ?d ?e ?f ?g ?h ?i ?j ?k _ ?m ?n ?o ?p ?q] =>
    set (mk := λ t, MkStore a b c d e f g h i j k t m n o p q) end.
  assert (∀ t, ext s (mk t)) as He by (intros t; grows).
  assert (args_of (mk ConsTable.new) (len (args_at s)) = Some xs) as Hnew.
  { unfold args_of. cbn. rewrite (proj2 (at_ix_snoc _ _ _ _)) by (right; done). cbn. apply slice_end. }
  destruct (pool_grow _ _ (args_of (mk ConsTable.new)) _ _ xs (st_args _ Hs) Hid) as (t & Ht & Hp); [lia| |done| |].
  { intros i y. apply args_ext, He. }
  { intros i [y (st & Hst & _)%bind_Some]. assert (is_Some (at_ix (args_at (mk ConsTable.new)) i)) as Hi by eauto.
    apply at_ix_is_Some in Hi. cbn in Hi. rewrite len_app in Hi. done. }
  rewrite Ht. cbn [mbind res_bind]. exists (mk t), (wrap 32 (len (args_at s))).
  split_and!; [done| |done|subst mk; foot_lia|].
  - split; try apply Hs; [cbn; by rewrite len_app| |by apply (rows_kept s)].
    intros i ys Hi. assert (is_Some (args_of (mk t) i)) as Hd by eauto. apply (po_dom Hp) in Hd.
    destruct (decide (i = len (args_at s))) as [->|Hne].
    { assert (Some ys = Some xs) as [= ->]; [|done]. by rewrite <- Hi, <- Hnew. }
    destruct (proj2 (po_dom (st_args _ Hs) i)) as [zs Hz]; [lia|].
    assert (Some ys = Some zs) as [= ->]; [|by eapply (st_short _ Hs)].
    rewrite <- Hi. by apply (args_ext s _ (He t)).
  - rewrite wrap_small by (unfold unsigned, EMPTY in *; lia). done.
Qed.

Lemma does_fn_ty ps res raises cl s : store_ok s → len ps < 2 ^ 8 → foot s + (1 + len ps) ≤ EMPTY →
  does (intern_fn_ty ps res raises cl) s (1 + len ps) (λ s' id, fn_sig_of s' id = Some (ps, res, raises, cl)).
Proof.
  intros Hs Hps Hroom. unfold does, intern_fn_ty.
  destruct (pool_lookup _ _ _ _ (ps, res, raises, cl) (st_fn _ Hs)) as ([id|] & -> & Hid); cbn [mbind res_bind].
  { exists s, id. split_and!; done || (unfold len; lia). }
  destruct (Z.leb_spec (2 ^ 8) (len ps)); [lia|].
  assert (0 ≤ len (fn_tys s) < EMPTY ∧ 0 ≤ len (fn_params s) < EMPTY) as [Hlt Hflat] by foot_lia.
  rewrite (wrap_small 32 (len (fn_params s))) by (unfold unsigned, EMPTY in *; lia).
  match goal with |- context [MkStore ?a ?b ?c ?d ?e ?f ?g ?h ?i ?j ?k ?l ?m ?n _ ?p ?q] =>
    set (mk := λ t, MkStore a b c d e f g h i j k l m n t p q) end.
  assert (∀ t, ext s (mk t)) as He by (intros t; grows).
  assert (fn_sig_of (mk ConsTable.new) (len (fn_tys s)) = Some (ps, res, raises, cl)) as Hnew.
  { unfold fn_sig_of. cbn. rewrite (proj2 (at_ix_snoc _ _ _ _)) by (right; done). cbn. by rewrite slice_end. }
  destruct (pool_grow _ _ (fn_sig_of (mk ConsTable.new)) _ _ _ (st_fn _ Hs) Hid) as (t & Ht & Hp); [lia| |done| |].
  { intros i y. apply fn_sig_ext, He. }
  { intros i [y (f & Hf & _)%bind_Some]. assert (is_Some (at_ix (fn_tys (mk ConsTable.new)) i)) as Hi by eauto.
    apply at_ix_is_Some in Hi. cbn in Hi. rewrite len_app in Hi. done. }
  rewrite Ht. cbn [mbind res_bind]. exists (mk t), (wrap 32 (len (fn_tys s))).
  split_and!; [done| |done|subst mk; foot_lia|].
  - split; try apply Hs; [cbn; by rewrite len_app| |by apply (rows_kept s)].
    intros i qs e r c Hi. assert (is_Some (fn_sig_of (mk t) i)) as Hd by eauto. apply (po_dom Hp) in Hd.
    destruct (decide (i = len (fn_tys s))) as [->|Hne].
    { assert (Some (qs, e, r, c) = Some (ps, res, raises, cl)) as [= -> _ _ _]; [|done]. by rewrite <- Hi, <- Hnew. }
    destruct (proj2 (po_dom (st_fn _ Hs) i)) as [zs Hz]; [lia|].
    assert (Some (qs, e, r, c) = Some zs) as [= <-]; [|by eapply (st_few _ Hs)].
    rewrite <- Hi. by apply (fn_sig_ext s _ (He t)).
  - rewrite wrap_small by (unfold unsigned, EMPTY in *; lia). done.
Qed.

(** *** Interning a row *)

Lemma flags_found s t : is_Some (row s t) → flags s t = Done (flags_at s t).
Proof. intros [r Hr]. unfold flags, flags_at. by rewrite Hr. Qed.
Lemma flags_in_app s xs ys : flags_in s (xs ++ ys) = Z.lor (flags_in s xs) (flags_in s ys).
Proof. induction xs as [|x xs IH]; [done|]. simpl. rewrite IH. apply Z.lor_assoc. Qed.
Lemma or_flags_spec s ts : Forall (λ c, is_Some (row s c)) ts → or_flags s ts = Done (flags_in s ts).
Proof.
  intros H. unfold or_flags. rewrite <- (Z.lor_0_l (flags_in s ts)). generalize 0 as f.
  induction H as [|t ts Ht _ IH]; intros f; simpl; [by rewrite Z.lor_0_r|].
  rewrite flags_found by done. simpl. by rewrite IH, Z.lor_assoc.
Qed.

(** The flags computed for a new row are its own and its components'. *)
Lemma child_flags_spec s g a b l cs : parts s g a b = Some (l, cs) → Forall (λ c, is_Some (row s c)) cs →
  child_flags s g a b = Done (Z.lor (own_flags l) (flags_in s cs)).
Proof.
  intros Hp Hc. destruct g; simpl in Hp |- *; unfold or_args.
  1-4: by repeat case_match; simplify_eq.
  - apply bind_Some in Hp as (xs & Hx & [= <- <-]). rewrite Hx. simpl. by apply or_flags_spec.
  - destruct (a =? 0); [|done]. apply bind_Some in Hp as (xs & Hx & [= <- <-]). rewrite Hx. simpl.
    by apply or_flags_spec.
  - destruct (b =? 0); [|done]. apply fmap_Some in Hp as ([[[ps res] raises] cl] & Hx & Hl).
    injection Hl as -> ->. rewrite Hx. simpl. apply Forall_app in Hc as [Hps [Hres Hr]%Forall_cons].
    rewrite or_flags_spec, (flags_found s res) by done. simpl. rewrite flags_in_app. simpl.
    destruct (raises =? NO_TY); simpl; [by rewrite Z.lor_0_r, Z.lor_0_l|]. apply Forall_cons in Hr as [Hr _].
    rewrite flags_found by done. simpl. by rewrite Z.lor_0_r, Z.lor_0_l, Z.lor_assoc.
  - destruct (b =? 0); [|done]. apply bind_Some in Hp as (tr & Ht & (xs & Hx & [= <- <-])%bind_Some).
    rewrite Ht. simpl. rewrite Hx. simpl. by apply or_flags_spec.
  - by injection Hp as <- <-.
  - apply bind_Some in Hp as (pk & Hk & (tr & Ht & (xs & Hx & [= <- <-])%bind_Some)%bind_Some).
    apply Forall_cons in Hc as [Ha Hxs]. rewrite flags_found, Hk by done. simpl. rewrite Ht. simpl. rewrite Hx. simpl.
    rewrite or_flags_spec by done. simpl. by rewrite Z.lor_assoc.
  - apply bind_Some in Hp as (br & Hb & Hl). rewrite Hb. simpl. destruct (a =? brand_kind br); [|done].
    injection Hl as <- <-. by destruct br.
  - apply bind_Some in Hp as (c & _ & [= <- <-]). apply Forall_cons in Hc as [Hb _].
    rewrite flags_found by done. simpl. by rewrite Z.lor_0_r.
Qed.

Definition has_key (s : TyStore) (k : RowKey) (t : Z) : Prop := key_of <$> row s t = Some k.

Lemma row_snoc s l r i : rows s = l ++ [r] → row s i = at_ix (l ++ [r]) i.
Proof. unfold row. by intros ->. Qed.

Lemma does_push_row g a b q l cs bare s : store_ok s → foot s + 1 ≤ EMPTY →
  parts s g a b = Some (l, cs) → Forall (λ c, 0 ≤ c < len (rows s)) cs → 0 ≤ q →
  (∀ v, ¬ has_key s (g, a, b, q) v) →
  match bare with Some u => has_key s (g, a, b, 0) u | None => q = 0 end →
  does (push_row g a b q (Z.lor (own_flags l) (flags_in s cs)) bare) s 1
    (λ s' t, has_key s' (g, a, b, q) t ∧ ∀ k v, has_key s' k v → has_key s k v ∨ k = (g, a, b, q)).
Proof.
  intros Hs Hroom Hp Hc Hq Hnew Hbare. unfold does, push_row.
  assert (0 ≤ len (rows s) < EMPTY) as Hlt by foot_lia.
  rewrite (wrap_small 32 (len (rows s))) by (unfold unsigned, EMPTY in *; lia).
  set (r := MkRow _ _ _ _ _ _).
  match goal with |- context [MkStore ?a ?b ?c ?d ?e ?f ?g ?h ?i ?j _ ?l ?m ?n ?o ?p ?q] =>
    set (mk := λ t, MkStore a b c d e f g h i j t l m n o p q) end.
  assert (∀ t, ext s (mk t)) as He by (intros t; grows).
  assert (∀ t i y, row (mk t) i = Some y ↔ row s i = Some y ∨ (i = len (rows s) ∧ y = r)) as Hrow.
  { intros t i y. apply at_ix_snoc. }
  destruct (pool_insert _ (λ i, key_of <$> row s i) row_key _ (g, a, b, q)
    (λ i, key_of <$> row (mk ConsTable.new) i) (st_rows _ Hs) Hnew) as (t & Ht & Hpool); [lia| |].
  { intros i y. rewrite !fmap_Some. setoid_rewrite Hrow. split.
    - intros (x & [Hx|[-> ->]] & ->); [left|right]; eauto.
    - intros [(x & Hx & ->)|[-> ->]]; [exists x|exists r]; auto. }
  rewrite wrap_small in Ht by (unfold unsigned, EMPTY in *; lia). rewrite Ht. cbn [mbind res_bind].
  exists (mk t), (len (rows s)). split; [done|]. split; [|split; [done|split; [subst mk; foot_lia|]]].
  - split; try apply Hs; [cbn; rewrite len_app; exact Hpool|].
    intros i y [Hi|[-> ->]]%Hrow.
    { apply (row_ok_ext s _ (He t)); [by apply (st_row _ Hs)|]. left. apply at_ix_is_Some. eauto. }
    split; [|done|].
    + exists l, cs. split_and!; [by apply (parts_ext s _ (He t))|done|]. simpl.
      rewrite (flags_in_ext s _ (He t)); [done|]. eapply Forall_impl; [done|]. intros c Hcr. by apply at_ix_is_Some.
    + simpl. destruct bare as [u|]; simpl.
      * unfold has_key in Hbare. apply fmap_Some in Hbare as (x & Hx & Hk). exists x. split_and!; [by apply Hrow; left|done|].
        assert (is_Some (row s u)) as Hu%at_ix_is_Some by eauto. lia.
      * subst q. exists r. split_and!; [apply Hrow; by right|done|lia].
  - unfold has_key. split; [rewrite (proj2 (Hrow t (len (rows s)) r)); [done|by right]|].
    intros k v (y & [Hy|[-> ->]]%Hrow & ->)%fmap_Some; [left|by right]. by rewrite Hy.
Qed.

Lemma lookup_row_spec s k : store_ok s →
  ∃ r, lookup_row s k = Done r ∧ match r with Some t => has_key s k t | None => ∀ v, ¬ has_key s k v end.
Proof. intros Hs. apply (pool_lookup _ _ _ _ k (st_rows _ Hs)). Qed.

Lemma comps_found s cs : Forall (λ c, 0 ≤ c < len (rows s)) cs → Forall (λ c, is_Some (row s c)) cs.
Proof. intros H. eapply Forall_impl; [done|]. intros c. apply at_ix_is_Some. Qed.

Lemma does_intern_bare g a b l cs s : store_ok s → foot s + 1 ≤ EMPTY →
  parts s g a b = Some (l, cs) → Forall (λ c, 0 ≤ c < len (rows s)) cs →
  does (intern_bare g a b) s 1
    (λ s' t, has_key s' (g, a, b, 0) t ∧ ∀ k v, has_key s' k v → has_key s k v ∨ k = (g, a, b, 0)).
Proof.
  intros Hs Hroom Hp Hc. unfold intern_bare.
  destruct (lookup_row_spec s (g, a, b, Quals.NONE) Hs) as (r & Hl & Hr). unfold does. rewrite Hl.
  destruct r as [t|]; cbn [mbind res_bind]; [exists s, t; split_and!; try done; [lia|by left]|].
  rewrite (child_flags_spec s g a b l cs) by (done || by apply comps_found). cbn [mbind res_bind].
  by apply does_push_row.
Qed.

(** Interning finds the row or makes it, with the columns the key stands for. *)
Lemma does_intern g a b q l cs s : store_ok s → foot s + 2 ≤ EMPTY → 0 ≤ q →
  parts s g a b = Some (l, cs) → Forall (λ c, 0 ≤ c < len (rows s)) cs →
  does (intern g a b q) s 2 (λ s' t, has_key s' (g, a, b, q) t).
Proof.
  intros Hs Hroom Hq Hp Hc. unfold intern, Quals.is_none. destruct (Z.eqb_spec q 0) as [->|Hne].
  { eapply does_mono; [eapply (does_intern_bare g a b l cs); done || lia|lia|intros s' t _ _ [H _]; exact H]. }
  destruct (lookup_row_spec s (g, a, b, q) Hs) as (r & Hl & Hr). unfold does at 1. rewrite Hl.
  destruct r as [t|]; cbn [mbind res_bind]; [exists s, t; split_and!; done || lia|].
  rewrite (child_flags_spec s g a b l cs) by (done || by apply comps_found). cbn [mbind res_bind].
  destruct (does_intern_bare g a b l cs s Hs ltac:(lia) Hp Hc) as (s1 & u & -> & Hs1 & He1 & Hf1 & Hu & Hold).
  cbn [mbind res_bind].
  assert (len (rows s) ≤ len (rows s1)) as Hle.
  { destruct (ex_rows _ _ He1) as [k ->]. rewrite len_app. unfold len. lia. }
  assert (∀ v, ¬ has_key s1 (g, a, b, q) v) as Hnew.
  { intros v [Hv|[=]]%Hold; [by apply (Hr v)|done]. }
  rewrite <- (flags_in_ext s s1 He1) by (by apply comps_found).
  destruct (does_push_row g a b q l cs (Some u) s1) as (s2 & t & -> & Hs2 & He2 & Hf2 & Ht & _);
    [done|lia|by apply (parts_ext s s1)| |done..|].
  { eapply Forall_impl; [done|]. simpl. lia. }
  exists s2, t. split_and!; [done|done|by etrans|lia|done].
Qed.
