(* ===== verification/TyTerms.v ===== *)
(** * Types as terms

    The meaning of an id of a store: a term, whose nodes are labels with
    qualifiers.  In every store the constructors build, equality of ids is
    equality of terms (ch09 R9), and the flags of a row are those of its whole
    term. *)

From S2P Require Import Prelude QueryKey TyCons TyStore.
From S2P Require InterpArith.
Local Open Scope Z_scope.

#[warnings="-register-all"]
Inductive term : Type := Node (q : Z) (l : label) (ts : list term).

Section term_ind.
Context (P : term → Prop) (HP : ∀ q l ts, Forall P ts → P (Node q l ts)).
Fixpoint term_induction (T : term) : P T :=
  match T with
  | Node q l ts =>
      HP q l ts ((fix go (ts : list term) : Forall P ts :=
                    match ts with
                    | [] => List.Forall_nil P
                    | T :: ts => @List.Forall_cons _ P T ts (term_induction T) (go ts)
                    end) ts)
  end.
End term_ind.

Fixpoint flags_of (T : term) : Z :=
  match T with Node _ l ts => Z.lor (own_flags l) (foldr (λ T f, Z.lor (flags_of T) f) 0 ts) end.
(** The number of nodes. *)
Fixpoint size (T : term) : Z :=
  match T with Node _ _ ts => 1 + foldr (λ T n, size T + n) 0 ts end.
Definition term_quals (T : term) : Z := match T with Node q _ _ => q end.
Definition set_quals (q : Z) (T : term) : term := match T with Node _ l ts => Node q l ts end.
Definition bare (T : term) : term := set_quals 0 T.

#[warnings="-register-all"]
Inductive denotes (s : TyStore) : Z → term → Prop :=
  | denotes_node t r l cs ts :
      row s t = Some r → parts s (r_tag r) (r_a r) (r_b r) = Some (l, cs) → Forall2 (denotes s) cs ts →
      denotes s t (Node (r_quals r) l ts).

(** ** Every id of a store stands for one term *)

Lemma denotes_ext s s' t T : ext s s' → denotes s t T → denotes s' t T.
Proof.
  intros He. revert t. induction T as [q l ts IH] using term_induction. intros t H.
  inversion H as [t' r l' cs ts' Hr Hp Hts]; subst. econstructor; [by eapply row_ext|by eapply parts_ext|].
  clear -IH Hts. induction Hts; [done|]. apply Forall_cons in IH as [IH1 IH2]. constructor; auto.
Qed.

Lemma denotes_range s t T : denotes s t T → 0 ≤ t < len (rows s).
Proof. inversion 1; subst. apply at_ix_is_Some. eauto. Qed.

Lemma denotes_total s t : store_ok s → 0 ≤ t < len (rows s) → ∃ T, denotes s t T.
Proof.
  intros Hs. revert t. assert (∀ n t, (Z.to_nat t < n)%nat → 0 ≤ t < len (rows s) → ∃ T, denotes s t T) as H.
  { induction n as [|n IH]; intros t Ht Hr; [lia|].
    apply at_ix_is_Some in Hr as [r Hr]. fold (row s t) in Hr.
    destruct (st_row _ Hs _ _ Hr) as [(l & cs & Hp & Hc & _) _ _].
    assert (∃ ts, Forall2 (denotes s) cs ts) as [ts Hts]; [|eexists; by econstructor].
    assert (0 ≤ t < len (rows s)) as Hlt by (apply at_ix_is_Some; eauto).
    clear Hp. induction Hc as [|c cs Hc _ [ts Hts]]; [by exists []|].
    destruct (IH c) as [T HT]; [lia..|]. exists (T :: ts). by constructor. }
  intros t. apply (H (S (Z.to_nat t))). lia.
Qed.

Lemma denotes_det s t T T' : denotes s t T → denotes s t T' → T = T'.
Proof.
  revert t T'. induction T as [q l ts IH] using term_induction. intros t T' H H'.
  inversion H as [? r ? cs ? Hr Hp Hts]; subst. inversion H' as [? r' ? cs' ts' Hr' Hp' Hts']; subst.
  rewrite Hr in Hr'. injection Hr' as <-. rewrite Hp in Hp'. injection Hp' as <- <-. f_equal.
  clear -IH Hts Hts'. revert ts' Hts'. induction Hts as [|c T cs ts Hc _ IHts]; intros ts' Hts';
    inversion Hts'; subst; [done|]. apply Forall_cons in IH as [IH1 IH2]. f_equal; eauto.
Qed.

(** ** Different ids stand for different terms *)

Lemma fn_parts_inj x y : fn_parts x = fn_parts y → x = y.
Proof.
  destruct x as [[[ps r] e] c], y as [[[ps' r'] e'] c']. unfold fn_parts. intros [= Hf -> He Hs].
  assert (ps = ps' ∧ [r] ++ (if e =? NO_TY then [] else [e]) = [r'] ++ (if e' =? NO_TY then [] else [e']))
    as [-> Hr].
  { clear -Hf Hs. revert ps' Hf Hs. induction ps as [|[f1 s1] ps IH]; intros [|[f2 s2] ps'] Hf Hs;
      simpl in Hf, Hs; try done. injection Hf as -> Hf. injection Hs as -> Hs.
    destruct (IH ps' Hf Hs) as [-> Hr]. done. }
  injection Hr as -> Hr. destruct (Z.eqb_spec e NO_TY), (Z.eqb_spec e' NO_TY); try done; congruence.
Qed.

Lemma pair_eq {A B} (p p' : A * B) : p.1 = p'.1 → p.2 = p'.2 → p = p'.
Proof. destruct p, p'. by intros [= ->] [= ->]. Qed.

Definition label_tag (l : label) : TyTag :=
  match l with
  | LError => TError | LUnit => TUnit | LNever => TNever | LPrim _ => TPrim | LNominal _ => TNominal
  | LTuple => TTuple | LFn _ _ _ => TFn | LDyn _ => TDyn | LParam _ _ => TParam | LProj _ _ => TProj
  | LBrand _ => TBrand | LConst _ => TConstVal
  end.

(** What a label and its components say about the operands. *)
Lemma parts_spec s g a b l cs : parts s g a b = Some (l, cs) →
  g = label_tag l ∧
  match l with
  | LError | LUnit | LNever => a = 0 ∧ b = 0 ∧ cs = []
  | LPrim k => a = k ∧ b = 0 ∧ cs = []
  | LNominal d => a = d ∧ args_of s b = Some cs
  | LTuple => a = 0 ∧ args_of s b = Some cs
  | LFn _ _ _ => b = 0 ∧ ∃ x, fn_sig_of s a = Some x ∧ fn_parts x = (l, cs)
  | LDyn d => b = 0 ∧ ∃ id, at_ix (trait_refs s) a = Some (d, id) ∧ args_of s id = Some cs
  | LParam o i => a = o ∧ b = i ∧ cs = []
  | LProj d n => ∃ tr id xs, at_ix (proj_keys s) b = Some (tr, n) ∧ at_ix (trait_refs s) tr = Some (d, id) ∧
      args_of s id = Some xs ∧ cs = a :: xs
  | LBrand br => at_ix (brands s) b = Some br ∧ a = brand_kind br ∧ cs = []
  | LConst c => at_ix (consts s) a = Some c ∧ cs = [b]
  end.
Proof.
  destruct g; simpl; intros H;
    repeat match goal with
           | H : (if ?x =? ?y then _ else _) = _ |- _ => destruct (Z.eqb_spec x y); try done
           | H : (if (?x =? ?y) && _ then _ else _) = _ |- _ =>
               destruct (Z.eqb_spec x y); try done; cbn [andb] in H
           | H : _ ≫= _ = Some _ |- _ => apply bind_Some in H as ([? ?] & ? & H) || apply bind_Some in H as (? & ? & H)
           | H : _ <$> _ = Some _ |- _ => apply fmap_Some in H as (? & ? & H)
           end; simplify_eq/=; try (split; [done|]); eauto 10.
  destruct x as [[[ps r] e] c]. simpl in H. simplify_eq. split; [done|]. eauto.
Qed.

(** A label and components come from one row only. *)
Lemma parts_inj s g a b g' a' b' lc : store_ok s → parts s g a b = Some lc → parts s g' a' b' = Some lc →
  (g, a, b) = (g', a', b').
Proof.
  intros Hs H H'. destruct lc as [l cs]. apply parts_spec in H as [-> H]. apply parts_spec in H' as [-> H'].
  pose proof (po_inj (st_args _ Hs)) as Harg. pose proof (po_inj (st_tr _ Hs)) as Htr.
  pose proof (po_inj (st_pk _ Hs)) as Hpk. pose proof (po_inj (st_fn _ Hs)) as Hfn.
  pose proof (po_inj (st_brand _ Hs)) as Hbr. pose proof (po_inj (st_const _ Hs)) as Hco.
  destruct l; try by destruct H as (-> & -> & _), H' as (-> & -> & _).
  - destruct H as [-> H], H' as [-> H']. by rewrite (Harg b b' cs).
  - destruct H as [-> H], H' as [-> H']. by rewrite (Harg b b' cs).
  - destruct H as (-> & x & Hx & Hp), H' as (-> & x' & Hx' & Hp').
    rewrite <- Hp' in Hp. apply fn_parts_inj in Hp as ->. by rewrite (Hfn a a' x').
  - destruct H as (-> & i & Hi & Hx), H' as (-> & i' & Hi' & Hx').
    rewrite (Harg i i' cs) in Hi by done. by rewrite (Htr a a' (trait_def, i')).
  - destruct H as (tr & i & xs & Hb & Ht & Hx & ->), H' as (tr' & i' & xs' & Hb' & Ht' & Hx' & [= -> ->]).
    rewrite (Harg i i' xs') in Ht by done. rewrite (Htr tr tr' (trait_def, i')) in Hb by done.
    by rewrite (Hpk b b' (tr', name)).
  - destruct H as (Hb & -> & _), H' as (Hb' & -> & _). by rewrite (Hbr b b' b0).
  - destruct H as [Ha ->], H' as [Ha' [= ->]]. by rewrite (Hco a a' c).
Qed.

Lemma denotes_inj s t t' T : store_ok s → denotes s t T → denotes s t' T → t = t'.
Proof.
  intros Hs. revert t t'. induction T as [q l ts IH] using term_induction. intros t t' H H'.
  inversion H as [? r ? cs ? Hr Hp Hts Hq]; subst. inversion H' as [? r' ? cs' ? Hr' Hp' Hts' Hq' Hq2]; subst.
  assert (cs = cs') as <-.
  { clear -IH Hts Hts'. revert cs' Hts'. induction Hts as [|c T cs ts Hc _ IHts]; intros cs' Hts';
      inversion Hts'; subst; [done|]. apply Forall_cons in IH as [IH1 IH2]. f_equal; eauto. }
  pose proof (parts_inj _ _ _ _ _ _ _ _ Hs Hp Hp') as Heq.
  apply (po_inj (st_rows _ Hs) t t' (key_of r)); [by rewrite Hr|]. rewrite Hr'. simpl. f_equal.
  unfold key_of. congruence.
Qed.

Lemma denotes_flags s t T : store_ok s → denotes s t T → flags_at s t = flags_of T.
Proof.
  intros Hs. revert t. induction T as [q l ts IH] using term_induction. intros t H.
  inversion H as [? r ? cs ? Hr Hp Hts]; subst.
  destruct (st_row _ Hs _ _ Hr) as [(l' & cs' & Hp' & _ & Hf) _ _]. rewrite Hp in Hp'. injection Hp' as <- <-.
  unfold flags_at. rewrite Hr. simpl. rewrite Hf. f_equal. clear -IH Hts.
  induction Hts as [|c T cs ts Hc _ IHts]; [done|]. apply Forall_cons in IH as [IH1 IH2]. simpl. f_equal; auto.
Qed.

(** ** Building a node *)

Lemma has_key_denotes s g a b q t l cs ts : has_key s (g, a, b, q) t → parts s g a b = Some (l, cs) →
  Forall2 (denotes s) cs ts → denotes s t (Node q l ts).
Proof.
  intros (r & Hr & Hk)%fmap_Some Hp Hts. unfold key_of in Hk. injection Hk as -> -> -> ->. by econstructor.
Qed.
Lemma denotes_all_ext s s' cs ts : ext s s' → Forall2 (denotes s) cs ts → Forall2 (denotes s') cs ts.
Proof. intros He H. eapply Forall2_impl; [done|]. intros ??. by apply denotes_ext. Qed.
Lemma denotes_all_range s cs ts : Forall2 (denotes s) cs ts → Forall (λ c, 0 ≤ c < len (rows s)) cs.
Proof. induction 1; constructor; eauto using denotes_range. Qed.

Lemma does_node g a b q l cs ts s : store_ok s → foot s + 2 ≤ EMPTY → 0 ≤ q →
  parts s g a b = Some (l, cs) → Forall2 (denotes s) cs ts →
  does (intern g a b q) s 2 (λ s' t, denotes s' t (Node q l ts)).
Proof.
  intros Hs Hroom Hq Hp Hts.
  eapply does_mono; [eapply (does_intern g a b q l cs); try done; by eapply denotes_all_range|lia|].
  intros s' t Hs' He Hk. eapply has_key_denotes; [exact Hk|by eapply parts_ext|by eapply denotes_all_ext].
Qed.

Section build.
Context (s : TyStore) (Hs : store_ok s).

Lemma does_leaf g a b l : parts s g a b = Some (l, []) → foot s + 2 ≤ EMPTY →
  does (intern g a b Quals.NONE) s 2 (λ s' t, denotes s' t (Node 0 l [])).
Proof using Hs. intros Hp Hroom. by eapply does_node. Qed.

Context (xs : list Z) (ts : list term) (Hts : Forall2 (denotes s) xs ts) (Hlen : len xs < 2 ^ 16).

Lemma does_nominal_of def : foot s + (3 + len xs) ≤ EMPTY →
  does (nominal_of def xs) s (3 + len xs) (λ s' t, denotes s' t (Node 0 (LNominal def) ts)).
Proof using All.
  intros Hroom. replace (3 + len xs) with ((1 + len xs) + 2) in * by lia.
  eapply does_bind; [apply does_args; done || lia|]. intros s1 id Hs1 He1 Hf1 Hid.
  eapply does_node; [done|lia|done| |by eapply denotes_all_ext]. simpl. by rewrite Hid.
Qed.
Lemma does_tuple_of : foot s + (3 + len xs) ≤ EMPTY →
  does (tuple_of xs) s (3 + len xs) (λ s' t, denotes s' t (Node 0 LTuple ts)).
Proof using All.
  intros Hroom. replace (3 + len xs) with ((1 + len xs) + 2) in * by lia.
  eapply does_bind; [apply does_args; done || lia|]. intros s1 id Hs1 He1 Hf1 Hid.
  eapply does_node; [done|lia|done| |by eapply denotes_all_ext]. simpl. by rewrite Hid.
Qed.
Lemma does_dyn_of def : foot s + (4 + len xs) ≤ EMPTY →
  does (a ← intern_args xs; tr ← intern_trait_ref def a; dyn_ty tr) s (4 + len xs)
    (λ s' t, denotes s' t (Node 0 (LDyn def) ts)).
Proof using All.
  intros Hroom. replace (4 + len xs) with ((1 + len xs) + (1 + 2)) in * by lia.
  eapply does_bind; [apply does_args; done || lia|]. intros s1 id Hs1 He1 Hf1 Hid.
  eapply does_bind; [apply does_trait_ref; done || lia|]. intros s2 tr Hs2 He2 Hf2 Htr.
  eapply does_node; [done|lia|done| |apply (denotes_all_ext s); [by etrans|done]]. simpl.
  rewrite Htr. simpl. by rewrite (args_ext _ _ He2 _ _ Hid).
Qed.
(** The key of a projection; the head may have been found in between. *)
Lemma does_proj_pool def name : foot s + (3 + len xs) ≤ EMPTY →
  does (a ← intern_args xs; tr ← intern_trait_ref def a; intern_proj_key tr name) s (3 + len xs)
    (λ s' k, ∀ head, parts s' TProj head k = Some (LProj def name, head :: xs)).
Proof using Hs Hlen.
  intros Hroom. replace (3 + len xs) with ((1 + len xs) + (1 + 1)) in * by lia.
  eapply does_bind; [apply does_args; done || lia|]. intros s1 id Hs1 He1 Hf1 Hid.
  eapply does_bind; [apply does_trait_ref; done || lia|]. intros s2 tr Hs2 He2 Hf2 Htr.
  eapply does_mono; [apply does_proj_key; done || lia|lia|]. intros s3 k Hs3 He3 Hk head. simpl.
  rewrite Hk. simpl. rewrite (at_ix_prefix _ _ _ _ (ex_tr _ _ He3) Htr). simpl.
  by rewrite (args_ext _ _ He3 _ _ (args_ext _ _ He2 _ _ Hid)).
Qed.
End build.

Lemma does_fn_of s ps result raises cl ts : store_ok s → len ps < 2 ^ 8 →
  Forall2 (denotes s) (map snd ps ++ [result] ++ (if raises =? NO_TY then [] else [raises])) ts →
  foot s + (3 + len ps) ≤ EMPTY →
  does (id ← intern_fn_ty ps result raises cl; fn_ty id) s (3 + len ps)
    (λ s' t, denotes s' t (Node 0 (LFn (map fst ps) cl (negb (raises =? NO_TY))) ts)).
Proof.
  intros Hs Hps Hts Hroom. replace (3 + len ps) with ((1 + len ps) + 2) in * by lia.
  eapply does_bind; [apply does_fn_ty; done || lia|]. intros s1 id Hs1 He1 Hf1 Hid.
  eapply does_node; [done|lia|done|simpl; by rewrite Hid|by apply (denotes_all_ext s)].
Qed.

Lemma does_const_ty s c ty T : store_ok s → denotes s ty T → foot s + 3 ≤ EMPTY →
  does (const_ty c ty) s 3 (λ s' t, denotes s' t (Node 0 (LConst c) [T])).
Proof.
  intros Hs HT Hroom. change 3 with (1 + 2). eapply does_bind; [apply does_const; done || lia|].
  intros s1 id Hs1 He1 Hf1 Hid. eapply does_node; [done|lia|done|simpl; by rewrite Hid|].
  constructor; [by eapply denotes_ext|done].
Qed.
Lemma does_brand_ty s b : store_ok s → foot s + 3 ≤ EMPTY →
  does (brand_ty b) s 3 (λ s' t, denotes s' t (Node 0 (LBrand b) [])).
Proof.
  intros Hs Hroom. change 3 with (1 + 2). eapply does_bind; [apply does_brand; done || lia|].
  intros s1 id Hs1 He1 Hf1 Hid. eapply does_node; [done|lia|done| |done].
  simpl. rewrite Hid. simpl. by rewrite Z.eqb_refl.
Qed.

Lemma does_qualified s t q T : store_ok s → denotes s t T → 0 ≤ q → foot s + 2 ≤ EMPTY →
  does (qualified t q) s 2 (λ s' t', denotes s' t' (set_quals (Z.lor (term_quals T) q) T)).
Proof.
  intros Hs HT Hq Hroom. inversion HT as [? r l cs ts Hr Hp Hts]; subst. simpl.
  pose proof (ro_quals _ _ _ (st_row _ Hs _ _ Hr)) as Hrq.
  unfold qualified, does. rewrite Hr. cbn [get_ix mbind res_bind]. unfold Quals.union.
  destruct (Z.eqb_spec (Z.lor (r_quals r) q) (r_quals r)) as [->|].
  - exists s, t. split_and!; done || lia.
  - eapply does_node; [done|done|by apply Z.lor_nonneg|done|done].
Qed.

Lemma does_proj_of s head def xs name ts : store_ok s → len xs < 2 ^ 16 →
  Forall2 (denotes s) (head :: xs) ts → foot s + (5 + len xs) ≤ EMPTY →
  does (proj_of head def xs name) s (5 + len xs) (λ s' t, denotes s' t (Node 0 (LProj def name) ts)).
Proof.
  intros Hs Hxs Hts Hroom. replace (5 + len xs) with ((1 + len xs) + (1 + (1 + 2))) in * by lia.
  eapply does_bind; [apply does_args; done || lia|]. intros s1 id Hs1 He1 Hf1 Hid.
  eapply does_bind; [apply does_trait_ref; done || lia|]. intros s2 tr Hs2 He2 Hf2 Htr.
  eapply does_bind; [apply does_proj_key; done || lia|]. intros s3 k Hs3 He3 Hf3 Hk.
  eapply does_node; [done|lia|done| |apply (denotes_all_ext s); [by transitivity s1; [|by transitivity s2]|done]]. simpl.
  rewrite Hk. simpl. rewrite (at_ix_prefix _ _ _ _ (ex_tr _ _ He3) Htr). simpl.
  by rewrite (args_ext _ _ He3 _ _ (args_ext _ _ He2 _ _ Hid)).
Qed.

(** ** The constructors as requests

    What a client asks of a store: one constructor, the ids it gives it, the
    room it needs and the type it means. *)

Inductive request : Type :=
  | RPrim (k : InterpArith.PrimKind.PrimKind)
  | RNominal (def : Z) (xs : list Z)
  | RTuple (xs : list Z)
  | RFn (ps : list (Conv * Z)) (result raises : Z) (closure : bool)
  | RDyn (trait_def : Z) (xs : list Z)
  | RParam (owner ordinal : Z)
  | RProj (head trait_def : Z) (xs : list Z) (name : Z)
  | RBrand (b : BrandRow)
  | RConst (c : ConstValue) (ty : Z)
  | RQualified (t q : Z).

Definition construct (r : request) : op Z :=
  match r with
  | RPrim k => prim k
  | RNominal def xs => nominal_of def xs
  | RTuple xs => tuple_of xs
  | RFn ps result raises closure => id ← intern_fn_ty ps result raises closure; fn_ty id
  | RDyn trait_def xs => a ← intern_args xs; tr ← intern_trait_ref trait_def a; dyn_ty tr
  | RParam owner ordinal => param owner ordinal
  | RProj head trait_def xs name => proj_of head trait_def xs name
  | RBrand b => brand_ty b
  | RConst c ty => const_ty c ty
  | RQualified t q => qualified t q
  end.

(** The types a request is made of. *)
Definition children (r : request) : list Z :=
  match r with
  | RNominal _ xs | RTuple xs | RDyn _ xs => xs
  | RFn ps result raises _ => map snd ps ++ [result] ++ (if raises =? NO_TY then [] else [raises])
  | RProj head _ xs _ => head :: xs
  | RConst _ ty => [ty]
  | RQualified t _ => [t]
  | RPrim _ | RParam _ _ | RBrand _ => []
  end.
Definition fits (r : request) : Prop :=
  match r with
  | RNominal _ xs | RTuple xs | RDyn _ xs | RProj _ _ xs _ => len xs < 2 ^ 16
  | RFn ps _ _ _ => len ps < 2 ^ 8
  | RQualified _ q => 0 ≤ q
  | _ => True
  end.
#[global] Instance fits_dec r : Decision (fits r).
Proof. destruct r; simpl; apply _. Defined.
Definition cost (r : request) : Z := 5 + len (children r).

Definition meaning (r : request) (ts : list term) : term :=
  match r with
  | RPrim k => Node 0 (LPrim (prim_num k)) ts
  | RNominal def _ => Node 0 (LNominal def) ts
  | RTuple _ => Node 0 LTuple ts
  | RFn ps _ raises closure => Node 0 (LFn (map fst ps) closure (negb (raises =? NO_TY))) ts
  | RDyn trait_def _ => Node 0 (LDyn trait_def) ts
  | RParam owner ordinal => Node 0 (LParam owner ordinal) ts
  | RProj _ trait_def _ name => Node 0 (LProj trait_def name) ts
  | RBrand b => Node 0 (LBrand b) ts
  | RConst c _ => Node 0 (LConst c) ts
  | RQualified _ q => match ts with T :: _ => set_quals (Z.lor (term_quals T) q) T | [] => Node q LError [] end
  end.

Ltac room := unfold len in *; rewrite ?length_cons, ?length_app, ?length_map, ?length_nil in *; lia.

Lemma does_construct r ts s : store_ok s → fits r → foot s + cost r ≤ EMPTY →
  Forall2 (denotes s) (children r) ts →
  does (construct r) s (cost r) (λ s' t, denotes s' t (meaning r ts)).
Proof.
  intros Hs Hr Hroom Hts.
  assert (∀ n, does (construct r) s n (λ s' t, denotes s' t (meaning r ts)) → n ≤ cost r →
    does (construct r) s (cost r) (λ s' t, denotes s' t (meaning r ts))) as Hmono.
  { intros n H Hn. by eapply does_mono. }
  unfold cost in *. destruct r; cbn [children construct meaning fits] in *;
    repeat match goal with
           | H : Forall2 _ [] _ |- _ => apply Forall2_nil_inv_l in H as ->
           | H : Forall2 _ [_] _ |- _ =>
               apply Forall2_cons_inv_l in H as (? & ? & ? & ->%Forall2_nil_inv_l & ->)
           end.
  - eapply Hmono; [apply does_leaf; [done|done|room]|room].
  - eapply Hmono; [apply does_nominal_of; [done..|room]|room].
  - eapply Hmono; [apply does_tuple_of; [done..|room]|room].
  - eapply Hmono; [apply does_fn_of; [done..|room]|room].
  - eapply Hmono; [apply does_dyn_of; [done..|room]|room].
  - eapply Hmono; [apply does_leaf; [done|done|room]|room].
  - eapply Hmono; [apply (does_proj_of _ _ _ _ _ ts); [done..|room]|room].
  - eapply Hmono; [apply does_brand_ty; [done|room]|room].
  - eapply Hmono; [apply does_const_ty; [done..|room]|room].
  - eapply Hmono; [apply does_qualified; [done..|room]|room].
Qed.

(** ** Stores as a run of the compiler builds them *)

Lemma pool_empty {R} (get : Z → option R) key : (∀ i, get i = None) → pool_ok ConsTable.new get key 0.
Proof.
  intros Hget. destruct cons_new_ok as [Hok Hno]. split; [done|done| |by intros i j x Hi; rewrite Hget in Hi|].
  - intros i. rewrite Hget. split; [by intros []|lia].
  - intros k v. split; [by intros ?%Hno|]. intros (x & Hx & _). by rewrite Hget in Hx.
Qed.
Lemma at_ix_nil {A} i : at_ix (@nil A) i = None.
Proof. apply eq_None_not_Some. rewrite at_ix_is_Some. unfold len. cbn. lia. Qed.

Lemma empty_ok : store_ok empty.
Proof.
  split; try (apply pool_empty; intros i); unfold row, args_of, fn_sig_of; cbn; intros *; rewrite ?at_ix_nil; done.
Qed.

Lemma store_new_ok : ∃ s, new = Done s ∧ store_ok s ∧ foot s ≤ 8 ∧
  denotes s TY_ERROR (Node 0 LError []) ∧ denotes s TY_UNIT (Node 0 LUnit []) ∧ denotes s TY_NEVER (Node 0 LNever []).
Proof.
  set (c := (e ← intern_args []; err ← intern TError 0 0 Quals.NONE; unit ← intern TUnit 0 0 Quals.NONE;
             never ← intern TNever 0 0 Quals.NONE; mret (e, err, unit, never)) : op (Z * Z * Z * Z)).
  assert (does c empty 7 (λ s r, denotes s r.1.1.2 (Node 0 LError []) ∧ denotes s r.1.2 (Node 0 LUnit []) ∧
    denotes s r.2 (Node 0 LNever []))) as (s & r & Hr & Hs & _ & Hf & H).
  { assert (foot empty = 0) as Hf0 by done.
    eapply (does_bind _ _ _ 1 6); [apply does_args; [apply empty_ok|done|done]|]. intros s1 e Hs1 He1 Hf1 _.
    eapply (does_bind _ _ _ 2 4); [apply does_leaf; [done|done|unfold EMPTY; lia]|]. intros s2 t0 Hs2 He2 Hf2 H0.
    eapply (does_bind _ _ _ 2 2); [apply does_leaf; [done|done|unfold EMPTY; lia]|]. intros s3 t1 Hs3 He3 Hf3 H1.
    eapply (does_bind _ _ _ 2 0); [apply does_leaf; [done|done|unfold EMPTY; lia]|]. intros s4 t2 Hs4 He4 Hf4 H2.
    apply does_ret; [done|done|]. simpl. split_and!; [|by apply (denotes_ext s3)|done].
    apply (denotes_ext s2); [by transitivity s3|done]. }
  assert (match new with Done _ => true | _ => false end = true) as Hnew by (vm_compute; reflexivity).
  unfold new in Hnew |- *. fold c in Hnew |- *. rewrite Hr in Hnew |- *. cbn [mbind res_bind fst snd] in *.
  case_bool_decide as Hids; [|done]. subst r. exists s. cbn [fst snd] in H. split_and!; [done|done| |apply H..].
  assert (foot empty = 0) by done. lia.
Qed.

Definition in_store (s : TyStore) (r : request) : Prop := Forall (λ c, 0 ≤ c < len (rows s)) (children r).

Inductive built : TyStore → Prop :=
  | built_new s : new = Done s → built s
  | built_call s r s' t :
      built s → fits r → in_store s r → foot s + cost r ≤ EMPTY → construct r s = Done (s', t) → built s'.

Lemma denotes_all s cs : store_ok s → Forall (λ c, 0 ≤ c < len (rows s)) cs → ∃ ts, Forall2 (denotes s) cs ts.
Proof.
  intros Hs. induction 1 as [|c cs Hc _ [ts Hts]]; [by exists []|].
  destruct (denotes_total s c Hs Hc) as [T HT]. exists (T :: ts). by constructor.
Qed.

Lemma built_ok s : built s → store_ok s.
Proof.
  induction 1 as [s Hs|s r s' t Hb Hs Hr Hc Hroom Hcall].
  - destruct store_new_ok as (s' & Hs' & Hok & _). rewrite Hs in Hs'. by injection Hs' as ->.
  - destruct (denotes_all s (children r) Hs Hc) as [ts Hts].
    destruct (does_construct r ts s Hs Hr Hroom Hts) as (s1 & t1 & H1 & Hok & _).
    rewrite Hcall in H1. by injection H1 as -> _.
Qed.

(** C12: ch09 R9, hash-consing makes id equality type equality. In every store
    that the constructors of the type universe build from [TyStore::new], each
    id stands for one type, its flag byte is the union of the flags of every
    node of that type, and two ids are equal exactly when their types are. *)
Theorem ids_are_types s : built s →
  (∀ t, 0 ≤ t < len (rows s) → ∃ T, denotes s t T ∧ flags s t = Done (flags_of T)) ∧
  (∀ t t' T T', denotes s t T → denotes s t' T' → t = t' ↔ T = T').
Proof.
  intros Hs%built_ok. split.
  - intros t Ht. destruct (denotes_total s t Hs Ht) as [T HT]. exists T. split; [done|].
    rewrite flags_found by (by apply at_ix_is_Some). by rewrite (denotes_flags s t T).
  - intros t t' T T' HT HT'. split; [|intros ->; by eapply denotes_inj].
    intros ->. by eapply denotes_det.
Qed.
Lemma ids_are_types_witness : ∃ s, new = Done s ∧
  ∀ t t' T T', denotes s t T → denotes s t' T' → t = t' ↔ T = T'.
Proof.
  destruct store_new_ok as (s & Hs & _). exists s. split; [done|]. apply (ids_are_types s). by constructor.
Defined.

(** C29: a constructor called on ids of the store returns, without a panic while
    the columns have room, the id of exactly the type it is asked for, and every
    id given out before keeps its type. *)
Theorem constructors_mean s r ts : built s → fits r → foot s + cost r ≤ EMPTY →
  Forall2 (denotes s) (children r) ts →
  ∃ s' t, construct r s = Done (s', t) ∧ built s' ∧ denotes s' t (meaning r ts) ∧
    ∀ u T, denotes s u T → denotes s' u T.
Proof.
  intros Hb Hr Hroom Hts.
  destruct (does_construct r ts s (built_ok s Hb) Hr Hroom Hts) as (s' & t & Hc & _ & He & _ & HT).
  exists s', t. split_and!; [done| |done|intros u T; by apply denotes_ext].
  eapply built_call; [done..| |done|done]. by eapply denotes_all_range.
Qed.
Lemma constructors_mean_witness : ∃ s s' t, new = Done s ∧
  construct (RTuple [TY_UNIT; TY_NEVER]) s = Done (s', t) ∧
  denotes s' t (Node 0 LTuple [Node 0 LUnit []; Node 0 LNever []]).
Proof.
  destruct store_new_ok as (s & Hs & _ & Hf & _ & Hu & Hn).
  destruct (constructors_mean s (RTuple [TY_UNIT; TY_NEVER]) [Node 0 LUnit []; Node 0 LNever []])
    as (s' & t & Hc & _ & HT & _).
  - by constructor.
  - done.
  - change (cost _) with 7. unfold EMPTY. lia.
  - by repeat constructor.
  - exists s, s', t. split; [exact Hs|]. split; [exact Hc|exact HT].
Defined.
