(* ===== verification/TySubst.v ===== *)
(** * Substitution

    fors-fir/src/subst.rs: a binding of the type parameters of some owners, and
    [subst_norm], which replaces bound parameters and re-interns.  Substitution
    on ids is shown to be substitution on the types they stand for.  A
    projection solver is a parameter; its own state is left out. *)

From S2P Require Import Prelude QueryKey TyCons TyStore TyTerms.
Local Open Scope Z_scope.

(** ** Bindings *)

Record OwnerSlots : Type := MkOwner { os_owner : Z; os_start : Z; os_len : Z }.
Record Binding : Type := MkBinding { b_owners : list OwnerSlots; b_slots : list Z }.

Module Binding.
Definition new (owners : list (Z * Z)) : Binding :=
  foldl (λ b o, MkBinding (b_owners b ++ [MkOwner o.1 (wrap 32 (len (b_slots b))) o.2])
                          (b_slots b ++ replicate (Z.to_nat o.2) NO_TY))
    (MkBinding [] []) owners.
Definition owns (b : Binding) (owner : Z) : bool := existsb (λ o, os_owner o =? owner) (b_owners b).
Definition slot_ix (b : Binding) (owner ordinal : Z) : option Z :=
  o ← find (λ o, os_owner o =? owner) (b_owners b);
  if os_len o <=? ordinal then None else Some (os_start o + ordinal).
Definition slot (b : Binding) (owner ordinal : Z) : res Z :=
  match slot_ix b owner ordinal with
  | Some i => get_ix (at_ix (b_slots b) i)
  | None => Done NO_TY
  end.
Definition bind (b : Binding) (owner ordinal ty : Z) : res (Binding * bool) :=
  match slot_ix b owner ordinal with
  | None => Done (b, false)
  | Some i =>
      v ← get_ix (at_ix (b_slots b) i);
      if v =? NO_TY then Done (MkBinding (b_owners b) (<[Z.to_nat i := ty]> (b_slots b)), true)
      else Done (b, v =? ty)
  end.
Definition is_complete (b : Binding) : bool := forallb (λ v, negb (v =? NO_TY)) (b_slots b).
Definition owner_count (b : Binding) : Z := len (b_owners b).
End Binding.

(** ** Substitution *)

Definition op_try {A B} (c : op (option A)) (f : A → op (option B)) : op (option B) :=
  r ← c; match r with Some x => f x | None => mret None end.
Notation "x ←? c ; k" := (op_try c (λ x, k)) (at level 20, c at level 100, k at level 200).

(** [NeutralOnly] *)
Definition NeutralOnly (head key : Z) : op (option Z) := mret None.

Section subst.
Context (solve : Z → Z → op (option Z)) (b : Binding).

(** A slot of ours, [None] while it is unbound. *)
Definition slot_value (owner ordinal : Z) : op (option Z) :=
  v ← read (λ _, Binding.slot b owner ordinal); mret (if v =? NO_TY then None else Some v).

Fixpoint subst_args (rec : Z → op (option Z)) (xs : list Z) : op (option (list Z)) :=
  match xs with
  | [] => mret (Some [])
  | x :: xs => y ←? rec x; ys ←? subst_args rec xs; mret (Some (y :: ys))
  end.

Definition subst_core (rec : Z → op (option Z)) (ty : Z) : op (option Z) :=
  g ← read (λ s, tag s ty); a ← read (λ s, ty_a s ty); bb ← read (λ s, ty_b s ty);
  match g with
  | TParam => if negb (Binding.owns b a) then mret (Some ty) else slot_value a (wrap 16 bb)
  | TBrand =>
      br ← read (λ s, get_ix (at_ix (brands s) bb));
      match br with
      | BParam owner ordinal => if Binding.owns b owner then slot_value owner ordinal else mret (Some ty)
      | BFresh _ _ => mret (Some ty)
      end
  | TNominal =>
      xs ← read (λ s, get_ix (args_of s bb)); ys ←? subst_args rec xs;
      t ← nominal_of a ys; mret (Some t)
  | TTuple =>
      xs ← read (λ s, get_ix (args_of s bb)); ys ←? subst_args rec xs; t ← tuple_of ys; mret (Some t)
  | TDyn =>
      r ← read (λ s, get_ix (at_ix (trait_refs s) a));
      xs ← read (λ s, get_ix (args_of s r.2)); ys ←? subst_args rec xs;
      t ← (id ← intern_args ys; tr ← intern_trait_ref r.1 id; dyn_ty tr); mret (Some t)
  | TFn =>
      f ← read (λ s, get_ix (fn_sig_of s a));
      let '(ps, result, raises, closure) := f in
      tys ←? subst_args rec (map snd ps);
      result ←? rec result;
      raises ←? (if raises =? NO_TY then mret (Some NO_TY) else rec raises);
      id ← intern_fn_ty (zip (map fst ps) tys) result raises closure; t ← fn_ty id; mret (Some t)
  | TProj =>
      pk ← read (λ s, get_ix (at_ix (proj_keys s) bb));
      r ← read (λ s, get_ix (at_ix (trait_refs s) pk.1));
      xs ← read (λ s, get_ix (args_of s r.2)); ys ←? subst_args rec xs;
      id ← intern_args ys; tr2 ← intern_trait_ref r.1 id; key ← intern_proj_key tr2 pk.2;
      head ←? rec a;
      rigid ← read (λ s, is_rigid s head);
      if (rigid : bool) then t ← proj head key; mret (Some t) else solve head key
  | TConstVal =>
      t ←? rec bb;
      v ← read (λ s, get_ix (at_ix (consts s) a)); t' ← const_ty v t; mret (Some t')
  | TError | TUnit | TNever | TPrim => mret (Some ty)
  end.

(** [fuel] bounds the depth; an id above that of the type is enough. *)
Fixpoint subst_norm_with (fuel : nat) (ty : Z) : op (option Z) :=
  match fuel with
  | O => λ _, OutOfFuel
  | S fuel =>
      mono ← read (λ s, is_monomorphic s ty);
      if (mono : bool) then mret (Some ty)
      else
        q ← read (λ s, quals s ty);
        base ← read (λ s, unqual s ty);
        out ←? subst_core (subst_norm_with fuel) base;
        if Quals.is_none q then mret (Some out)
        else
          oq ← read (λ s, quals s out);
          if negb (Quals.is_none oq) then mret None else t ← qualified out q; mret (Some t)
  end.
End subst.

Definition depth (ty : Z) : nat := S (Z.to_nat ty).
Definition subst_norm (ty : Z) (b : Binding) : op (option Z) := subst_norm_with NeutralOnly b (depth ty) ty.

(** ** Substitution on terms

    [β] is [None] for a parameter of no owner of the binding, and [Some None]
    for one that is not bound yet. *)

Abbreviation binding_t := (Z → Z → option (option term)).
Definition rigid_t (T : term) : bool :=
  match T with Node _ (LParam _ _) _ | Node _ (LProj _ _) _ => true | _ => false end.

(** A node whose components have become [m]. *)
Definition subst_node (β : binding_t) (l : label) (ts : list term) (m : option (list term)) : option term :=
  match l with
  | LParam owner ordinal => default (Some (Node 0 l ts)) (β owner (wrap 16 ordinal))
  | LBrand (BParam owner ordinal) => default (Some (Node 0 l ts)) (β owner ordinal)
  | LProj _ _ =>
      ts' ← m;
      match ts' with
      | head :: _ => if rigid_t head then Some (Node 0 l ts') else None
      | [] => None
      end
  | _ => ts' ← m; Some (Node 0 l ts')
  end.
(** A qualified position takes only an unqualified type. *)
Definition requalify (q : Z) (out : term) : option term :=
  if q =? 0 then Some out else if term_quals out =? 0 then Some (set_quals q out) else None.
Fixpoint subst_t (β : binding_t) (T : term) : option term :=
  match T with
  | Node q l ts => out ← subst_node β l ts (mapM (subst_t β) ts); requalify q out
  end.

(** Every node of a term. *)
Fixpoint nodes (P : Z → label → Prop) (T : term) : Prop :=
  match T with Node q l ts => P q l ∧ foldr (λ T (R : Prop), nodes P T ∧ R) True ts end.
Lemma nodes_children P (ts : list term) : foldr (λ T (R : Prop), nodes P T ∧ R) True ts ↔ Forall (nodes P) ts.
Proof. induction ts as [|T ts IH]; simpl; [done|]. by rewrite Forall_cons, IH. Qed.
(** Ordinals are [u16]. *)
Definition ordinal_ok (q : Z) (l : label) : Prop := match l with LBrand (BParam _ i) => 0 ≤ i | _ => True end.

Definition closed (T : term) : Prop := Z.land (flags_of T) F_OPEN = 0.
Lemma closed_node q l ts : closed (Node q l ts) ↔ Z.land (own_flags l) F_OPEN = 0 ∧ Forall closed ts.
Proof.
  unfold closed. simpl. rewrite Z.land_lor_distr_l, Z.lor_eq_0_iff.
  assert (Z.land (foldr (λ T f, Z.lor (flags_of T) f) 0 ts) F_OPEN = 0 ↔
    Forall (λ T, Z.land (flags_of T) F_OPEN = 0) ts) as ->; [|done].
  induction ts as [|T ts IH]; [done|]. cbn [foldr]. by rewrite Z.land_lor_distr_l, Z.lor_eq_0_iff, IH, Forall_cons.
Qed.

(** The flags byte answers for the whole walk. *)
Lemma subst_closed β T : closed T → subst_t β T = Some T.
Proof.
  induction T as [q l ts IH] using term_induction. intros [Hl Hts]%closed_node.
  assert (mapM (subst_t β) ts = Some ts) as Hm.
  { apply mapM_Some. clear -IH Hts. induction Hts as [|T ts HT _ IHts]; [done|].
    apply Forall_cons in IH as [IH1 IH2]. constructor; auto. }
  assert (requalify q (Node 0 l ts) = Some (Node q l ts)) as Hq.
  { unfold requalify. simpl. by destruct (Z.eqb_spec q 0) as [->|]. }
  cbn [subst_t]. rewrite Hm. destruct l as [| | | | | | | | | |[]|]; done.
Qed.

(** ** A binding in a store *)

(** The slots of the owners are there. *)
Definition binding_ok (b : Binding) : Prop :=
  Forall (λ o, 0 ≤ os_start o ∧ os_start o + os_len o ≤ len (b_slots b)) (b_owners b).

Lemma slot_ix_range b owner ordinal i : binding_ok b → 0 ≤ ordinal →
  Binding.slot_ix b owner ordinal = Some i → 0 ≤ i < len (b_slots b).
Proof.
  intros Hb Ho. unfold Binding.slot_ix. intros (o & Hf & H)%bind_Some.
  apply find_some in Hf as [Hin _]. unfold binding_ok in Hb. rewrite Forall_forall in Hb.
  specialize (Hb o). rewrite list_elem_of_In in Hb. specialize (Hb Hin).
  destruct (Z.leb_spec (os_len o) ordinal); [done|]. injection H as <-. lia.
Qed.

Lemma binding_new_ok owners : foldr (λ o n, o.2 + n) 0 owners < 2 ^ 32 → Forall (λ o, 0 ≤ o.2) owners →
  binding_ok (Binding.new owners).
Proof.
  intros Hsum Hpos. unfold Binding.new.
  assert (∀ b, binding_ok b → len (b_slots b) + foldr (λ o n, o.2 + n) 0 owners < 2 ^ 32 →
    binding_ok (foldl (λ b o, MkBinding (b_owners b ++ [MkOwner o.1 (wrap 32 (len (b_slots b))) o.2])
                          (b_slots b ++ replicate (Z.to_nat o.2) NO_TY)) b owners)) as H.
  { clear Hsum. induction Hpos as [|o owners Ho Hpos IH]; intros b Hb Hlt; [done|]. simpl in Hlt |- *.
    assert (0 ≤ foldr (λ o n, o.2 + n) 0 owners) by (clear -Hpos; induction Hpos; simpl; lia).
    assert (len (b_slots b ++ replicate (Z.to_nat o.2) NO_TY) = len (b_slots b) + o.2) as Hlen.
    { rewrite len_app. unfold len at 2. rewrite length_replicate. lia. }
    assert (0 ≤ len (b_slots b)) by (unfold len; lia).
    apply IH; [|cbn [b_slots]; rewrite Hlen; lia]. unfold binding_ok in *. cbn [b_slots b_owners].
    rewrite Hlen. apply Forall_app. split; [eapply Forall_impl; [done|]; simpl; lia|].
    constructor; [|done]. cbn. rewrite wrap_small by (unfold unsigned; lia). lia. }
  apply H; [by constructor|done].
Qed.

(** What the slots of a binding stand for. *)
Definition bound (s : TyStore) (b : Binding) (β : binding_t) : Prop :=
  ∀ owner ordinal, 0 ≤ ordinal →
    if Binding.owns b owner then
      ∃ v, Binding.slot b owner ordinal = Done v ∧
        if v =? NO_TY then β owner ordinal = Some None else ∃ T, denotes s v T ∧ β owner ordinal = Some (Some T)
    else β owner ordinal = None.
Lemma bound_ext s s' b β : ext s s' → bound s b β → bound s' b β.
Proof.
  intros He H owner ordinal Ho. specialize (H owner ordinal Ho). destruct (Binding.owns b owner); [|done].
  destruct H as (v & Hv & H). exists v. split; [done|]. destruct (v =? NO_TY); [done|].
  destruct H as (T & HT & H). exists T. split; [by eapply denotes_ext|done].
Qed.

(** ** Substitution on ids does substitution on terms *)

Definition outcome (s : TyStore) (o : option term) (r : option Z) : Prop :=
  match o with Some T => ∃ t, r = Some t ∧ denotes s t T | None => r = None end.
Definition outcomes (s : TyStore) (n : nat) (o : option (list term)) (r : option (list Z)) : Prop :=
  match o with
  | Some ts => ∃ xs, r = Some xs ∧ length xs = n ∧ Forall2 (denotes s) xs ts
  | None => r = None
  end.
Definition sizes (ts : list term) : Z := foldr (λ T n, size T + n) 0 ts.
Lemma term_size_pos T : 1 ≤ size T.
Proof.
  induction T as [q l ts IH] using term_induction. simpl.
  assert (0 ≤ foldr (λ T n, size T + n) 0 ts); [|lia]. induction IH; simpl; lia.
Qed.
Lemma term_sizes_app ts ts' : sizes (ts ++ ts') = sizes ts + sizes ts'.
Proof. unfold sizes. induction ts as [|T ts IH]; simpl; [done|]. rewrite IH. lia. Qed.
Lemma sizes_len ts : len ts ≤ sizes ts.
Proof.
  unfold len, sizes. induction ts as [|T ts IH]; simpl; [done|]. pose proof (term_size_pos T). lia.
Qed.

Lemma does_look {A B} (f : TyStore → res A) a (k : A → op B) s n Q :
  f s = Done a → does (k a) s n Q → does (read f ≫= k) s n Q.
Proof. unfold does, read, mbind, op_bind, res_bind. by intros ->. Qed.
Lemma does_try {A B} (c : op (option A)) (f : A → op (option B)) s n1 n2 Q R : 0 ≤ n2 →
  does c s n1 Q →
  (∀ s' x, store_ok s' → ext s s' → foot s' ≤ foot s + n1 → Q s' (Some x) → does (f x) s' n2 R) →
  (∀ s', store_ok s' → ext s s' → Q s' None → R s' None) →
  does (op_try c f) s (n1 + n2) R.
Proof.
  intros Hn Hc Hsome Hnone. unfold op_try. eapply does_bind; [done|]. intros s' [x|] Hs' He Hf HQ; [by apply Hsome|].
  apply does_ret; [done|done|]. by apply Hnone.
Qed.

(** The same store, without qualifiers. *)
Lemma denotes_unqual s t q l ts : store_ok s → denotes s t (Node q l ts) →
  ∃ u, unqual s t = Done u ∧ denotes s u (Node 0 l ts) ∧ u ≤ t ∧ quals s t = Done q.
Proof.
  intros Hs H. inversion H as [? r ? cs ? Hr Hp Hts]; subst.
  destruct (ro_bare _ _ _ (st_row _ Hs _ _ Hr)) as (u & Hu & Hk & Hle).
  exists (r_unqual r). unfold unqual, quals. rewrite Hr. split_and!; [done| |done|done].
  eapply (has_key_denotes s (r_tag r) (r_a r) (r_b r) 0); [|done..]. unfold has_key. by rewrite Hu, <- Hk.
Qed.
Lemma denotes_monomorphic s t T : store_ok s → denotes s t T →
  is_monomorphic s t = Done (bool_decide (closed T)).
Proof.
  intros Hs H. unfold is_monomorphic. rewrite flags_found by (apply at_ix_is_Some; by eapply denotes_range).
  simpl. rewrite (denotes_flags s t T Hs H). f_equal. unfold closed.
  apply eq_bool_prop_intro. rewrite bool_decide_spec. by rewrite Is_true_true, Z.eqb_eq.
Qed.
Lemma denotes_rigid s t T : denotes s t T → is_rigid s t = Done (rigid_t T).
Proof.
  intros H. inversion H as [? r l cs ts Hr Hp Hts]; subst. apply parts_spec in Hp as [Hg _].
  unfold is_rigid, tag. rewrite Hr. simpl. rewrite Hg. by destruct l.
Qed.

Definition subst_ok (b : Binding) (β : binding_t) (rec : Z → op (option Z)) (lim : Z) (T : term) : Prop :=
  ∀ c s, store_ok s → denotes s c T → c < lim → foot s + 9 * size T ≤ EMPTY → bound s b β →
    nodes ordinal_ok T →
    does (rec c) s (9 * size T - 1) (λ s' r, outcome s' (subst_t β T) r).

Lemma outcome_slot s b β owner ordinal T n : store_ok s → bound s b β → 0 ≤ ordinal → 0 ≤ n →
  Binding.owns b owner = true →
  does (slot_value b owner ordinal) s n (λ s' r, outcome s' (default T (β owner ordinal)) r).
Proof.
  intros Hs Hb Ho Hn Hown. specialize (Hb owner ordinal Ho). rewrite Hown in Hb. destruct Hb as (v & Hv & H).
  unfold slot_value. eapply does_look; [done|]. apply does_ret; [done|done|].
  destruct (v =? NO_TY); [by rewrite H|]. destruct H as (T' & HT & ->). simpl. eauto.
Qed.

Section core.
Context (b : Binding) (β : binding_t) (rec : Z → op (option Z)) (lim : Z).

Lemma does_subst_args ts : Forall (subst_ok b β rec lim) ts → Forall (nodes ordinal_ok) ts →
  ∀ xs s, store_ok s → Forall2 (denotes s) xs ts → Forall (λ c, c < lim) xs → bound s b β →
  foot s + 9 * sizes ts ≤ EMPTY →
  does (subst_args rec xs) s (9 * sizes ts - len xs) (λ s' r, outcomes s' (length xs) (mapM (subst_t β) ts) r).
Proof.
  induction 1 as [|T ts HT _ IH]; intros Hord xs s Hs Hxs Hlim Hb Hroom; inversion Hxs as [|x ? xs' ? Hx Hxs']; subst.
  { apply does_ret; [done|done|]. by exists []. }
  apply Forall_cons in Hord as [Ho1 Ho2], Hlim as [Hl1 Hl2]. cbn [sizes foldr] in *. fold (sizes ts) in *.
  pose proof (term_size_pos T). pose proof (sizes_len ts) as Hle.
  assert (len xs' = len ts) as Hlen by (unfold len; by rewrite (Forall2_length _ _ _ Hxs')).
  assert (0 ≤ len xs') by (unfold len; lia).
  replace (9 * (size T + sizes ts) - len (x :: xs'))
    with ((9 * size T - 1) + ((9 * sizes ts - len xs') + 0)) by (unfold len; cbn [length]; lia).
  cbn [subst_args mapM]. eapply does_try; [lia|apply HT; done || lia| |].
  - intros s1 y Hs1 He1 Hf1 Hy. eapply does_try; [lia|apply IH; try done| |].
    + by apply (denotes_all_ext s).
    + by apply (bound_ext s).
    + lia.
    + intros s2 ys Hs2 He2 Hf2 Hys. apply does_ret; [done|done|].
      destruct (subst_t β T) as [T'|]; [|done]. destruct Hy as (t & [= ->] & Ht). cbn [mbind option_bind].
      destruct (mapM (subst_t β) ts) as [ts'|]; [|done]. destruct Hys as (zs & [= ->] & Hn & Hzs).
      exists (t :: zs). split_and!; [done|simpl; by rewrite Hn|]. constructor; [by eapply denotes_ext|done].
    + intros s2 Hs2 He2 Hys. destruct (subst_t β T) as [T'|]; [|done]. cbn [mbind option_bind].
      destruct (mapM (subst_t β) ts) as [ts'|]; [by destruct Hys as (? & [=] & _)|done].
  - intros s1 Hs1 He1 Hy. destruct (subst_t β T) as [T'|]; [by destruct Hy as (? & [=] & _)|done].
Qed.

(** A constructor applied to substituted components. *)
Lemma does_rebuild (k : list Z → op Z) l n s ts xs : Forall (subst_ok b β rec lim) ts →
  Forall (nodes ordinal_ok) ts → store_ok s → Forall2 (denotes s) xs ts → Forall (λ c, c < lim) xs → bound s b β →
  0 ≤ n → foot s + (9 * sizes ts + n) ≤ EMPTY → len xs < 2 ^ 16 →
  (∀ s' ys ts', store_ok s' → ext s s' → foot s' + (len ys + n) ≤ EMPTY → len ys < 2 ^ 16 → length ys = length xs →
     Forall2 (denotes s') ys ts' → does (k ys) s' (len ys + n) (λ s' t, denotes s' t (Node 0 l ts'))) →
  does (ys ←? subst_args rec xs; t ← k ys; mret (Some t)) s (9 * sizes ts + n)
    (λ s' r, outcome s' (ts' ← mapM (subst_t β) ts; Some (Node 0 l ts')) r).
Proof.
  intros Hrec Hord Hs Hxs Hlim Hb Hn Hroom Hshort Hk.
  assert (0 ≤ len xs ≤ 9 * sizes ts) as Hlen.
  { pose proof (sizes_len ts). unfold len in *. rewrite (Forall2_length _ _ _ Hxs) in *. lia. }
  replace (9 * sizes ts + n) with ((9 * sizes ts - len xs) + ((len xs + n) + 0)) by lia.
  eapply does_try; [lia|apply does_subst_args; done || lia| |].
  - intros s1 ys Hs1 He1 Hf1 Hys. destruct (mapM (subst_t β) ts) as [ts'|]; [|done].
    destruct Hys as (zs & [= ->] & Hl & Hzs). assert (len zs = len xs) as Hz by (unfold len; by rewrite Hl).
    eapply does_bind; [rewrite <- Hz; apply (Hk s1 zs ts'); done || lia|].
    intros s2 t Hs2 He2 Hf2 Ht. apply does_ret; [done|done|]. by exists t.
  - intros s1 Hs1 He1 Hys. destruct (mapM (subst_t β) ts); [by destruct Hys as (? & [=] & _)|done].
Qed.
End core.

Lemma mapM_app {A B} (f : A → option B) (xs ys : list A) :
  mapM f (xs ++ ys) = (xs' ← mapM f xs; ys' ← mapM f ys; Some (xs' ++ ys')).
Proof.
  induction xs as [|x xs IH]; simpl; [by destruct (mapM f ys)|]. destruct (f x); simpl; [|done].
  rewrite IH. destruct (mapM f xs); simpl; [|done]. by destruct (mapM f ys).
Qed.
Lemma zip_convs {A B C} (ps : list (A * B)) (ys : list C) : length ys = length ps →
  map fst (zip (map fst ps) ys) = map fst ps ∧ map snd (zip (map fst ps) ys) = ys.
Proof.
  revert ys. induction ps as [|p ps IH]; intros [|y ys] H; simplify_eq/=; [done|].
  destruct (IH ys H) as [H1 H2]. by rewrite H1, H2.
Qed.

Section core.
Context (b : Binding) (β : binding_t) (rec : Z → op (option Z)) (base : Z).

Lemma does_core_raises s raises ts : Forall (subst_ok b β rec base) ts → Forall (nodes ordinal_ok) ts →
  store_ok s → bound s b β → Forall2 (denotes s) (if raises =? NO_TY then [] else [raises]) ts →
  Forall (λ c, c < base) (if raises =? NO_TY then [] else [raises]) → foot s + 9 * sizes ts ≤ EMPTY →
  does (if raises =? NO_TY then mret (Some NO_TY) else rec raises) s (9 * sizes ts)
    (λ s' r, match mapM (subst_t β) ts with
             | Some ts' => ∃ e, r = Some e ∧ Forall2 (denotes s') (if e =? NO_TY then [] else [e]) ts' ∧
                 (e =? NO_TY) = (raises =? NO_TY)
             | None => r = None
             end).
Proof.
  intros Hrec Hord Hs Hb Hts Hlim Hroom. destruct (raises =? NO_TY) eqn:E.
  { inversion Hts; subst. apply does_ret; [done|done|]. by exists NO_TY. }
  apply Forall2_cons_inv_l in Hts as (T & ? & HT & ->%Forall2_nil_inv_l & ->).
  rewrite Forall_singleton in Hrec, Hord. apply Forall_cons in Hlim as [Hlim _]. cbn [sizes foldr mapM] in *.
  eapply does_mono; [apply Hrec; done || lia|lia|]. intros s' r Hs' _ Hr.
  destruct (subst_t β T) as [T'|]; [|done]. destruct Hr as (e & -> & He). cbn [mbind option_bind].
  assert (e < NO_TY) as Hlt.
  { apply denotes_range in He. pose proof (po_size (st_rows _ Hs')). unfold EMPTY, NO_TY in *. lia. }
  exists e. destruct (Z.eqb_spec e NO_TY); [lia|]. split_and!; [done|by repeat constructor|done].
Qed.

Lemma does_core_fn s ps result raises cl ts : Forall (subst_ok b β rec base) ts →
  Forall (nodes ordinal_ok) ts → store_ok s → bound s b β → len ps < 2 ^ 8 →
  Forall2 (denotes s) (map snd ps ++ [result] ++ (if raises =? NO_TY then [] else [raises])) ts →
  Forall (λ c, c < base) (map snd ps ++ [result] ++ (if raises =? NO_TY then [] else [raises])) →
  foot s + (9 * sizes ts + 6) ≤ EMPTY →
  does (tys ←? subst_args rec (map snd ps);
        result' ←? rec result;
        raises' ←? (if raises =? NO_TY then mret (Some NO_TY) else rec raises);
        id ← intern_fn_ty (zip (map fst ps) tys) result' raises' cl; t ← fn_ty id; mret (Some t)) s (9 * sizes ts + 6)
    (λ s' r, outcome s' (ts' ← mapM (subst_t β) ts;
                         Some (Node 0 (LFn (map fst ps) cl (negb (raises =? NO_TY))) ts')) r).
Proof.
  intros Hrec Hord Hs Hb Hps Hts Hlim Hroom.
  apply Forall2_app_inv_l in Hts as (t1 & t2 & Ht1 & Ht2 & ->).
  apply Forall2_cons_inv_l in Ht2 as (tr & t3 & Htr & Ht3 & ->).
  rewrite Forall_app in Hrec, Hord. apply Forall_app in Hlim. destruct Hrec as [Hr1 [Hr2 Hr3]%Forall_cons].
  destruct Hord as [Ho1 [Ho2 Ho3]%Forall_cons], Hlim as [Hl1 [Hl2 Hl3]%Forall_cons].
  rewrite term_sizes_app in *. cbn [sizes foldr] in *. fold (sizes t3) in *.
  pose proof (term_size_pos tr). pose proof (sizes_len t3). assert (0 ≤ len t3) by (unfold len; lia).
  assert (0 ≤ len ps) by (unfold len; lia).
  assert (len (map snd ps) = len ps) as Hsnd by (unfold len; by rewrite length_map).
  replace (9 * (sizes t1 + (size tr + sizes t3)) + 6)
    with ((9 * sizes t1 - len (map snd ps)) + ((9 * size tr - 1) + (9 * sizes t3 + (len ps + 7)))) by lia.
  rewrite mapM_app. cbn [mapM].
  eapply does_try; [lia|apply (does_subst_args b β rec base); done || lia| |].
  2:{ intros s1 _ _ Hys. destruct (mapM (subst_t β) t1); [by destruct Hys as (? & [=] & _)|done]. }
  intros s1 tys Hs1 He1 Hf1 Hys. destruct (mapM (subst_t β) t1) as [t1'|]; [|done].
  destruct Hys as (ys & [= ->] & Hny & Hys). cbn [mbind option_bind].
  eapply does_try; [lia|apply Hr2; [done|by apply (denotes_ext s)|done|lia|by apply (bound_ext s)|done]| |].
  2:{ intros s2 _ _ Hy. destruct (subst_t β tr); [by destruct Hy as (? & [=] & _)|done]. }
  intros s2 r' Hs2 He2 Hf2 Hr'. destruct (subst_t β tr) as [tr'|]; [|done].
  destruct Hr' as (y & [= ->] & Hy). cbn [mbind option_bind].
  assert (ext s s2) as He by by transitivity s1.
  eapply does_try; [lia|apply (does_core_raises s2 raises t3)| |]; try done.
  { by apply (bound_ext s). } { by apply (denotes_all_ext s). } { lia. }
  2:{ intros s3 _ _ Hz. destruct (mapM (subst_t β) t3); [by destruct Hz as (? & [=] & _)|done]. }
  intros s3 e Hs3 He3 Hf3 Hz. destruct (mapM (subst_t β) t3) as [t3'|]; [|done].
  destruct Hz as (z & [= ->] & Hz & Hne). cbn [mbind option_bind].
  rewrite length_map in Hny. destruct (zip_convs ps ys Hny) as [Hf Hsn].
  assert (len (zip (map fst ps) ys) = len ps) as Hzl.
  { unfold len. by rewrite <- (length_map fst), Hf, length_map. }
  replace (len ps + 7) with ((1 + len ps) + (2 + 4)) by lia.
  assert (fn_parts (zip (map fst ps) ys, y, z, cl) =
    (LFn (map fst ps) cl (negb (raises =? NO_TY)), ys ++ [y] ++ (if z =? NO_TY then [] else [z]))) as Hparts.
  { unfold fn_parts. by rewrite Hf, Hsn, Hne. }
  eapply does_bind; [rewrite <- Hzl; apply does_fn_ty; rewrite ?Hzl; done || lia|]. intros s4 id Hs4 He4 Hf4 Hid.
  eapply does_bind; [|intros s5 t Hs5 He5 Hf5 Ht; apply does_ret; [done|done|]; exists t; split; [done|exact Ht]].
  eapply does_node; [done|lia|done|simpl; by rewrite Hid, <- Hparts|].
  apply (denotes_all_ext s3); [done|]. apply Forall2_app; [apply (denotes_all_ext s1); [by transitivity s2|done]|].
  constructor; [by apply (denotes_ext s2)|done].
Qed.

Lemma does_core_proj s head trait_def name k tr id xs ts : Forall (subst_ok b β rec base) ts →
  Forall (nodes ordinal_ok) ts → store_ok s → bound s b β →
  at_ix (proj_keys s) k = Some (tr, name) → at_ix (trait_refs s) tr = Some (trait_def, id) →
  args_of s id = Some xs → Forall2 (denotes s) (head :: xs) ts → Forall (λ c, c < base) (head :: xs) →
  foot s + (9 * sizes ts + 6) ≤ EMPTY →
  does (pk ← read (λ s, get_ix (at_ix (proj_keys s) k));
        r ← read (λ s, get_ix (at_ix (trait_refs s) pk.1));
        xs ← read (λ s, get_ix (args_of s r.2)); ys ←? subst_args rec xs;
        id ← intern_args ys; tr2 ← intern_trait_ref r.1 id; key ← intern_proj_key tr2 pk.2;
        h ←? rec head;
        rigid ← read (λ s, is_rigid s h);
        if (rigid : bool) then t ← proj h key; mret (Some t) else NeutralOnly h key) s (9 * sizes ts + 6)
    (λ s' r, outcome s' (subst_node β (LProj trait_def name) ts (mapM (subst_t β) ts)) r).
Proof.
  intros Hrec Hord Hs Hb Hk Htr Hid Hts Hlim Hroom.
  apply Forall2_cons_inv_l in Hts as (H & Xs & HH & HXs & ->).
  apply Forall_cons in Hrec as [Hr1 Hr2], Hord as [Ho1 Ho2], Hlim as [Hl1 Hl2].
  cbn [sizes foldr] in *. fold (sizes Xs) in *. pose proof (term_size_pos H). pose proof (st_short _ Hs _ _ Hid).
  assert (0 ≤ len xs ≤ 9 * sizes Xs) as Hlen.
  { pose proof (sizes_len Xs). unfold len in *. rewrite (Forall2_length _ _ _ HXs) in *. lia. }
  eapply does_look; [by rewrite Hk|]. eapply does_look; [cbn; by rewrite Htr|].
  eapply does_look; [cbn; by rewrite Hid|].
  cbn [fst snd].
  replace (9 * (size H + sizes Xs) + 6)
    with ((9 * sizes Xs - len xs) + ((1 + len xs) + (1 + (1 + ((9 * size H - 1) + 4))))) by lia.
  cbn [mapM subst_node].
  eapply does_try; [lia|apply (does_subst_args b β rec base); done || lia| |].
  2:{ intros s1 _ _ Hys. destruct (mapM (subst_t β) Xs); [by destruct Hys as (? & [=] & _)|].
      by destruct (subst_t β H). }
  intros s1 ys' Hs1 He1 Hf1 Hys. destruct (mapM (subst_t β) Xs) as [Xs'|]; [|done].
  destruct Hys as (ys & [= ->] & Hny & Hys). assert (len ys = len xs) as Hz by (unfold len; by rewrite Hny).
  eapply does_bind; [rewrite <- Hz; apply does_args; rewrite ?Hz; done || lia|]. intros s2 i2 Hs2 He2 Hf2 Hi2.
  eapply does_bind; [apply does_trait_ref; done || lia|]. intros s3 tr2 Hs3 He3 Hf3 Ht3.
  eapply does_bind; [apply does_proj_key; done || lia|]. intros s4 key Hs4 He4 Hf4 Hk4.
  assert (ext s1 s4) as He14 by (transitivity s2; [done|by transitivity s3]).
  assert (ext s s4) as He by by transitivity s1.
  eapply does_try; [lia|apply Hr1; [done|by apply (denotes_ext s)|done|lia|by apply (bound_ext s)|done]| |].
  2:{ intros s5 _ _ Hy. destruct (subst_t β H); [by destruct Hy as (? & [=] & _)|done]. }
  intros s5 h' Hs5 He5 Hf5 Hh. destruct (subst_t β H) as [H'|]; [|done]. destruct Hh as (h & [= ->] & Hh).
  eapply does_look; [by apply denotes_rigid|]. cbn [mbind option_bind mret option_ret].
  destruct (rigid_t H'); [|unfold NeutralOnly; apply does_ret; [done|lia|done]].
  eapply (does_bind _ _ _ 2 2); [|intros s6 t Hs6 He6 Hf6 Ht; apply does_ret; [done|done|]; exists t; split; [done|exact Ht]].
  eapply does_node; [done|lia|done| |constructor; [done|apply (denotes_all_ext s1); [by transitivity s4|done]]].
  cbn [parts]. rewrite (at_ix_prefix _ _ _ _ (ex_pk _ _ He5) Hk4). cbn [mbind option_bind fst snd].
  assert (ext s3 s5) as He35 by by transitivity s4. assert (ext s2 s5) as He25 by by transitivity s3.
  rewrite (at_ix_prefix _ _ _ _ (ex_tr _ _ He35) Ht3). cbn [mbind option_bind fst snd].
  by rewrite (args_ext _ _ He25 _ _ Hi2).
Qed.
End core.

Lemma nodes_inv P q l ts : nodes P (Node q l ts) → P q l ∧ Forall (nodes P) ts.
Proof. simpl. by rewrite nodes_children. Qed.

Lemma does_subst_core b β rec base s l cs ts g k1 k2 : Forall (subst_ok b β rec base) ts →
  Forall (nodes ordinal_ok) ts → ordinal_ok 0 l → store_ok s → bound s b β →
  tag s base = Done g → ty_a s base = Done k1 → ty_b s base = Done k2 →
  parts s g k1 k2 = Some (l, cs) → Forall2 (denotes s) cs ts → Forall (λ c, c < base) cs →
  denotes s base (Node 0 l ts) → foot s + (9 * sizes ts + 6) ≤ EMPTY →
  does (subst_core NeutralOnly b rec base) s (9 * sizes ts + 6)
    (λ s' r, outcome s' (subst_node β l ts (mapM (subst_t β) ts)) r).
Proof.
  intros Hrec Hord Hl Hs Hb Hg Ha Hbb Hp Hts Hlim HT Hroom. apply parts_spec in Hp as [-> Hp].
  assert (0 ≤ sizes ts) by (pose proof (sizes_len ts); unfold len in *; lia).
  unfold subst_core. eapply does_look; [exact Hg|]. eapply does_look; [exact Ha|]. eapply does_look; [exact Hbb|].
  assert (∀ n, 0 ≤ n → does (mret (Some base)) s n (λ s' r, outcome s' (Some (Node 0 l ts)) r)) as Hkeep.
  { intros n Hn. apply does_ret; [done|done|]. by exists base. }
  assert (mapM (subst_t β) [] = Some []) as Hnil by done.
  destruct l; cbn [label_tag subst_node].
  1-4: destruct Hp as (_ & _ & ->); inversion Hts; subst; rewrite Hnil; apply Hkeep; lia.
  - destruct Hp as [-> Hp]. eapply does_look; [by rewrite Hp|].
    apply (does_rebuild b β rec base (nominal_of def)); try done; [by eapply st_short|].
    intros s' ys ts' Hs' _ Hf Hy _ Hys. eapply does_mono; [apply does_nominal_of; done || lia|lia|done].
  - destruct Hp as [-> Hp]. eapply does_look; [by rewrite Hp|].
    apply (does_rebuild b β rec base tuple_of); try done; [by eapply st_short|].
    intros s' ys ts' Hs' _ Hf Hy _ Hys. eapply does_mono; [apply does_tuple_of; done || lia|lia|done].
  - destruct Hp as [-> ([[[ps result] e] cl] & Hx & Hparts)]. injection Hparts as <- <- <- <-.
    eapply does_look; [by rewrite Hx|]. apply (does_core_fn b β rec base); try done. by eapply st_few.
  - destruct Hp as [-> (id & Htr & Hp)]. eapply does_look; [by rewrite Htr|]. cbn [fst snd].
    eapply does_look; [by rewrite Hp|].
    apply (does_rebuild b β rec base (λ ys, id ← intern_args ys; tr ← intern_trait_ref trait_def id; dyn_ty tr));
      try done; [by eapply st_short|].
    intros s' ys ts' Hs' _ Hf Hy _ Hys. eapply does_mono; [apply (does_dyn_of s' Hs' ys ts'); done || lia|lia|done].
  - destruct Hp as (-> & -> & _). pose proof (Hb owner (wrap 16 ordinal)) as Hown.
    destruct (Binding.owns b owner) eqn:E; cbn [negb].
    + apply outcome_slot; try done; [apply Z.mod_pos_bound|]; lia.
    + rewrite Hown by (apply Z.mod_pos_bound; lia). apply Hkeep. lia.
  - destruct Hp as (tr & id & xs & Hk & Htr & Hx & ->). by eapply (does_core_proj b β rec base).
  - destruct Hp as (Hbr & -> & ->). inversion Hts; subst. eapply does_look; [by rewrite Hbr|]. rewrite Hnil. destruct b0 as [owner ordinal|]; cbn.
    + pose proof (Hb owner ordinal) as Hown. destruct (Binding.owns b owner) eqn:E.
      * apply outcome_slot; try done; lia.
      * rewrite Hown by done. by apply Hkeep.
    + by apply Hkeep.
  - destruct Hp as [Hc ->]. apply Forall2_cons_inv_l in Hts as (T & ? & HT' & ->%Forall2_nil_inv_l & ->).
    apply Forall_cons in Hrec as [Hr _], Hord as [Ho _], Hlim as [Hl1 _]. cbn [sizes foldr mapM] in *.
    pose proof (term_size_pos T).
    replace (9 * (size T + 0) + 6) with ((9 * size T - 1) + 7) by lia.
    eapply does_try; [lia|apply Hr; done || lia| |].
    2:{ intros s1 _ _ Hy. destruct (subst_t β T); [by destruct Hy as (? & [=] & _)|done]. }
    intros s1 y' Hs1 He1 Hf1 Hy. destruct (subst_t β T) as [T'|]; [|done]. destruct Hy as (y & [= ->] & Hy).
    eapply does_look; [by rewrite (at_ix_prefix _ _ _ _ (ex_consts _ _ He1) Hc)|].
    eapply (does_bind _ _ _ 3 4); [apply does_const_ty; done || lia|]. intros s2 t Hs2 He2 Hf2 Ht.
    apply does_ret; [done|done|]. exists t. split; [done|exact Ht].
Qed.

Lemma does_subst b β T : ∀ fuel t s, store_ok s → denotes s t T → (Z.to_nat t < fuel)%nat →
  foot s + 9 * size T ≤ EMPTY → bound s b β → nodes ordinal_ok T →
  does (subst_norm_with NeutralOnly b fuel t) s (9 * size T - 1) (λ s' r, outcome s' (subst_t β T) r).
Proof.
  induction T as [q l ts IH] using term_induction. intros [|fuel] t s Hs HT Hfuel Hroom Hb Hord; [lia|].
  cbn [subst_norm_with]. eapply does_look; [by eapply denotes_monomorphic|]. case_bool_decide as Hc.
  { apply does_ret; [done|pose proof (term_size_pos (Node q l ts)); lia|].
    rewrite subst_closed by done. by exists t. }
  destruct (denotes_unqual s t q l ts Hs HT) as (u & Hu & HU & Hle & Hq).
  eapply does_look; [done|]. eapply does_look; [done|].
  inversion HU as [? r ? cs ? Hr Hp Hts Hrq]; subst. apply nodes_inv in Hord as [Hol Hots].
  assert (Forall (λ c, c < u) cs) as Hlim.
  { destruct (st_row _ Hs _ _ Hr) as [(l' & cs' & Hp' & Hlim & _) _ _]. rewrite Hp in Hp'.
    injection Hp' as <- <-. eapply Forall_impl; [done|]. simpl. lia. }
  cbn [size subst_t] in *. fold (sizes ts) in *.
  replace (9 * (1 + sizes ts) - 1) with ((9 * sizes ts + 6) + 2) by lia.
  eapply does_try; [lia|eapply (does_subst_core b β); try done|..].
  - eapply Forall_impl; [exact IH|]. intros T HT' c s' Hs' Hc' Hlt Hf Hb' Ho. apply HT'; try done.
    assert (0 ≤ c) by (by eapply denotes_range). lia.
  - unfold tag. by rewrite Hr.
  - unfold ty_a. by rewrite Hr.
  - unfold ty_b. by rewrite Hr.
  - lia.
  - intros s1 o Hs1 He1 Hf1 Ho. destruct (subst_node β l ts _) as [O|]; [|done].
    destruct Ho as (o' & [= ->] & HO). cbn [mbind option_bind]. unfold Quals.is_none, requalify.
    destruct (q =? 0) eqn:E; [apply does_ret; [done|lia|by exists o']|].
    destruct O as [qo lo tos]. destruct (denotes_unqual s1 o' qo lo tos Hs1 HO) as (_ & _ & _ & _ & Hqo).
    eapply does_look; [done|]. cbn [term_quals]. destruct (Z.eqb_spec qo 0) as [->|]; cbn [negb].
    + eapply (does_bind _ _ _ 2 0).
      * apply does_qualified; [done|done| |lia]. inversion HT as [? rt ? ? ? Hrt]; subst.
        exact (ro_quals _ _ _ (st_row _ Hs _ _ Hrt)).
      * intros s2 t' Hs2 He2 Hf2 Ht'. apply does_ret; [done|done|]. exists t'. split; [done|]. exact Ht'.
    + apply does_ret; [done|lia|done].
  - intros s1 _ _ Ho. destruct (subst_node β l ts _); [by destruct Ho as (? & [=] & _)|done].
Qed.

(** C28: substitution on ids is substitution on types. [subst_norm] returns
    without a panic, keeps the store's invariant and the type of every id, and
    answers the id of the type with the bound parameters replaced, or [None]
    where the term-level function has no answer: an unbound parameter, a
    projection whose head is no longer rigid, a qualified position filled with a
    qualified type. *)
Theorem subst_norm_substitutes s b β t T : store_ok s → denotes s t T → bound s b β → nodes ordinal_ok T →
  foot s + 9 * size T ≤ EMPTY →
  ∃ s' r, subst_norm t b s = Done (s', r) ∧ store_ok s' ∧ (∀ u U, denotes s u U → denotes s' u U) ∧
    outcome s' (subst_t β T) r.
Proof.
  intros Hs HT Hb Ho Hroom.
  destruct (does_subst b β T (depth t) t s Hs HT ltac:(unfold depth; lia) Hroom Hb Ho) as (s' & r & Hc & Hs' & He & _ & Hr).
  exists s', r. split_and!; [done|done|intros u U; by apply denotes_ext|done].
Qed.

(** ** A store with a parameter *)

Definition impl_T : term := Node 0 (LParam 7 0) [].

Lemma param_store : ∃ s p, store_ok s ∧ foot s ≤ 20 ∧ denotes s p impl_T ∧ 3 ≤ len (rows s) ∧
  denotes s TY_UNIT (Node 0 LUnit []).
Proof.
  destruct store_new_ok as (s & Hs & Hok & Hf & _ & Hu & Hn).
  destruct (does_construct (RParam 7 0) [] s Hok) as (s' & p & _ & Hok' & He & Hf' & Hp).
  { exact I. } { change (cost _) with 5. unfold EMPTY. lia. } { constructor. }
  change (cost _) with 5 in Hf'. exists s', p. split_and!; [exact Hok'|lia|exact Hp| |apply (denotes_ext s); [exact He|exact Hu]].
  apply (denotes_ext s s') in Hn; [|done]. apply denotes_range in Hn. unfold TY_NEVER in Hn. lia.
Qed.
Definition unit_binding : Binding := MkBinding [MkOwner 7 0 1] [TY_UNIT].
Definition unit_means : binding_t := λ owner ordinal,
  if 7 =? owner then Some (if ordinal =? 0 then Some (Node 0 LUnit []) else None) else None.
Lemma unit_bound s : denotes s TY_UNIT (Node 0 LUnit []) → bound s unit_binding unit_means.
Proof.
  intros Hu owner ordinal Ho. unfold Binding.owns, Binding.slot, Binding.slot_ix, unit_means.
  cbn [unit_binding b_owners b_slots existsb find os_owner os_len os_start].
  destruct (7 =? owner); cbn [orb mbind option_bind os_len os_start]; [|done]. destruct (Z.leb_spec 1 ordinal), (Z.eqb_spec ordinal 0) as [->|]; try lia.
  - by exists NO_TY.
  - exists TY_UNIT. split; [done|]. exists (Node 0 LUnit []). done.
Qed.

Lemma subst_norm_substitutes_witness : ∃ s p, denotes s p impl_T ∧
  ∃ s' t, subst_norm p unit_binding s = Done (s', Some t) ∧ denotes s' t (Node 0 LUnit []).
Proof.
  destruct param_store as (s & p & Hs & Hf & Hp & _ & Hu). exists s, p. split; [exact Hp|].
  destruct (subst_norm_substitutes s unit_binding unit_means p impl_T) as (s' & r & Hc & _ & _ & t & -> & Ht).
  - exact Hs.
  - exact Hp.
  - by apply unit_bound.
  - by repeat constructor.
  - change (size impl_T) with 1. unfold EMPTY. lia.
  - exists s', t. split; [exact Hc|exact Ht].
Defined.
