(* ===== verification/TyMatch.v ===== *)
(** * The one-way match

    fors-fir/src/subst.rs, [one_way_match] of ch09 R38: walks a pattern and a
    target in lockstep and fills the binding.  On patterns without projections
    the match is the inverse of substitution: it succeeds exactly when some
    binding above the given one turns the pattern into the target, and then it
    returns the least. *)

From S2P Require Import Prelude QueryKey TyCons TyStore TyTerms TySubst.
Local Open Scope Z_scope.

(** ** The one-way match *)

Inductive MatchMode : Type := Strict | NoFail.
#[global] Instance MatchMode_eq_dec : EqDecision MatchMode.
Proof. solve_decision. Defined.

Fixpoint proj_head_unbound (fuel : nat) (s : TyStore) (p : Z) (b : Binding) : res bool :=
  match fuel with
  | O => OutOfFuel
  | S fuel =>
      g ← tag s p;
      match g with
      | TProj => a ← ty_a s p; proj_head_unbound fuel s a b
      | TParam =>
          owner ← ty_a s p; ord ← ty_b s p;
          if negb (Binding.owns b owner) then Done false
          else v ← Binding.slot b owner (wrap 16 ord); Done (v =? NO_TY)
      | _ => Done false
      end
  end.

(** A match reads and fills the binding; it may intern on the way. *)
Definition matcher : Type := Binding → op (Binding * bool).
Definition says (x : bool) : matcher := λ b, mret (b, x).
Definition and_then (m1 m2 : matcher) : matcher := λ b,
  '(b, ok) ← m1 b; if (ok : bool) then m2 b else mret (b, false).
Definition binds (owner ordinal ty : Z) : matcher := λ b, read (λ _, Binding.bind b owner ordinal ty).

Section match_with.
Context (rec : Z → Z → matcher).
Fixpoint match_all (ps ts : list Z) : matcher :=
  match ps, ts with
  | p :: ps, t :: ts => and_then (rec p t) (match_all ps ts)
  | _, _ => says true
  end.
Definition match_args (p t : Z) : matcher := λ b,
  ps ← read (λ s, get_ix (args_of s p)); ts ← read (λ s, get_ix (args_of s t));
  if negb (len ts =? len ps) then mret (b, false) else match_all ps ts b.
Fixpoint match_params (ps ts : list (Conv * Z)) : matcher :=
  match ps, ts with
  | (pc, p) :: ps, (tc, t) :: ts =>
      if negb (bool_decide (pc = tc)) then says false else and_then (rec p t) (match_params ps ts)
  | _, _ => says true
  end.
Definition match_fn (p t : Z) : matcher := λ b,
  f ← read (λ s, get_ix (fn_sig_of s p)); g ← read (λ s, get_ix (fn_sig_of s t));
  let '(ps, pr, pe, pcl) := f in
  let '(ts, tr, te, tcl) := g in
  if negb (eqb pcl tcl) then mret (b, false)
  else if negb (len ts =? len ps) then mret (b, false)
  else
    and_then (match_params ps ts)
      (and_then (rec pr tr)
        (match pe =? NO_TY, te =? NO_TY with
         | true, true => says true
         | false, false => rec pe te
         | _, _ => says false
         end)) b.

(** The arms of the match, where the qualifiers agree. *)
Definition match_core (mode : MatchMode) (pattern target : Z) : matcher := λ b,
  g ← read (λ s, tag s pattern); a ← read (λ s, ty_a s pattern); bb ← read (λ s, ty_b s pattern);
  tg ← read (λ s, tag s target); ta ← read (λ s, ty_a s target); tb ← read (λ s, ty_b s target);
  match g with
  | TBrand =>
      if bool_decide (mode = NoFail) then mret (b, true)
      else
        br ← read (λ s, get_ix (at_ix (brands s) bb));
        match br with
        | BParam owner ordinal =>
            if Binding.owns b owner then binds owner ordinal target b else mret (b, pattern =? target)
        | BFresh _ _ => mret (b, pattern =? target)
        end
  | TNominal =>
      if negb (bool_decide (tg = TNominal)) || negb (ta =? a) then mret (b, false) else match_args bb tb b
  | TTuple => if negb (bool_decide (tg = TTuple)) then mret (b, false) else match_args bb tb b
  | TDyn =>
      if negb (bool_decide (tg = TDyn)) then mret (b, false)
      else
        p ← read (λ s, get_ix (at_ix (trait_refs s) a)); t ← read (λ s, get_ix (at_ix (trait_refs s) ta));
        if p.1 =? t.1 then match_args p.2 t.2 b else mret (b, false)
  | TFn => if negb (bool_decide (tg = TFn)) then mret (b, false) else match_fn a ta b
  | TConstVal =>
      if negb (bool_decide (tg = TConstVal)) || negb (ta =? a) then mret (b, false) else rec bb tb b
  | _ => mret (b, pattern =? target)
  end.
End match_with.

Section matching.
Context (solve : Z → Z → op (option Z)) (mode : MatchMode).

Fixpoint one_way_match_mode (fuel : nat) (pattern target : Z) : matcher := λ b,
  match fuel with
  | O => λ _, OutOfFuel
  | S fuel =>
      mono ← read (λ s, is_monomorphic s pattern);
      if (mono : bool) then mret (b, pattern =? target)
      else
        g ← read (λ s, tag s pattern); a ← read (λ s, ty_a s pattern); bb ← read (λ s, ty_b s pattern);
        pq ← read (λ s, quals s pattern); aq ← read (λ s, quals s target);
        match g with
        | TProj =>
            u ← read (λ s, proj_head_unbound (depth pattern) s pattern b);
            if (u : bool) then mret (b, true)
            else r ← subst_norm_with solve b (depth pattern) pattern; mret (b, bool_decide (r = Some target))
        | TParam =>
            if negb (Binding.owns b a) then mret (b, pattern =? target)
            else if Quals.is_none pq then binds a (wrap 16 bb) target b
            else if negb (pq =? aq) then mret (b, false)
            else v ← read (λ s, unqual s target); binds a (wrap 16 bb) v b
        | _ =>
            if negb (pq =? aq) then mret (b, false)
            else match_core (one_way_match_mode fuel) mode pattern target b
        end
  end.
End matching.

Definition one_way_match_with (solve : Z → Z → op (option Z)) (pattern target : Z) : matcher :=
  one_way_match_mode solve Strict (depth pattern) pattern target.
Definition one_way_match (pattern target : Z) : matcher := one_way_match_with NeutralOnly pattern target.

(** ** The order of bindings *)

(** [b'] has the slots of [b], and possibly more of them filled. *)
Record below (b b' : Binding) : Prop := {
  be_owners : b_owners b' = b_owners b;
  be_len : length (b_slots b') = length (b_slots b);
  be_slots : ∀ k v, b_slots b !! k = Some v → v ≠ NO_TY → b_slots b' !! k = Some v }.
#[global] Instance below_preorder : PreOrder below.
Proof.
  split; [by split|]. intros b1 b2 b3 [H1 H2 H3] [H1' H2' H3']. split; [by rewrite H1'|by rewrite H2'|auto].
Qed.

(** The slots are there, and hold types of the store. *)
Definition good (s : TyStore) (b : Binding) : Prop :=
  binding_ok b ∧ Forall (λ v, v = NO_TY ∨ 0 ≤ v < len (rows s)) (b_slots b).

Fixpoint term_at (fuel : nat) (s : TyStore) (t : Z) : option term :=
  match fuel with
  | O => None
  | S fuel =>
      r ← row s t;
      '(l, cs) ← parts s (r_tag r) (r_a r) (r_b r);
      ts ← mapM (term_at fuel s) cs; Some (Node (r_quals r) l ts)
  end.
Lemma term_at_denotes s t T : store_ok s → denotes s t T → ∀ fuel, (Z.to_nat t < fuel)%nat → term_at fuel s t = Some T.
Proof.
  intros Hs. revert t. induction T as [q l ts IH] using term_induction. intros t H [|fuel] Hf; [lia|].
  inversion H as [? r ? cs ? Hr Hp Hts]; subst. cbn [term_at]. rewrite Hr. cbn [mbind option_bind]. rewrite Hp.
  cbn [mbind option_bind].
  destruct (st_row _ Hs _ _ Hr) as [(l' & cs' & Hp' & Hlim & _) _ _]. rewrite Hp in Hp'. injection Hp' as <- <-.
  assert (mapM (term_at fuel s) cs = Some ts) as ->; [|done]. apply mapM_Some.
  assert (0 ≤ t) as Ht by by eapply denotes_range. clear -IH Hts Hlim Hf Ht.
  induction Hts as [|c T cs ts Hc _ IHts]; [done|]. apply Forall_cons in IH as [IH1 IH2], Hlim as [Hl1 Hl2].
  constructor; [|auto]. apply IH1; [done|lia].
Qed.

Definition sigma (s : TyStore) (b : Binding) : binding_t := λ owner ordinal,
  if Binding.owns b owner then
    match Binding.slot b owner ordinal with
    | Done v => Some (if v =? NO_TY then None else term_at (depth v) s v)
    | _ => None
    end
  else None.

Lemma slot_good s b owner ordinal : good s b → 0 ≤ ordinal →
  ∃ v, Binding.slot b owner ordinal = Done v ∧ (v = NO_TY ∨ 0 ≤ v < len (rows s)).
Proof.
  intros [Hb Hg] Ho. unfold Binding.slot. destruct (Binding.slot_ix b owner ordinal) as [i|] eqn:E; [|eauto].
  apply slot_ix_range in E as Hi; [|done..]. destruct (proj2 (at_ix_is_Some _ _) Hi) as [v Hv].
  exists v. rewrite Hv. split; [done|]. apply at_ix_Some in Hv as [_ Hv]. by apply (Forall_lookup_1 _ _ _ _ Hg Hv).
Qed.
Lemma sigma_bound s b : store_ok s → good s b → bound s b (sigma s b).
Proof.
  intros Hs Hg owner ordinal Ho. unfold sigma. destruct (Binding.owns b owner); [|done].
  destruct (slot_good s b owner ordinal Hg Ho) as (v & -> & Hv). exists v. split; [done|].
  destruct (Z.eqb_spec v NO_TY); [done|]. destruct Hv as [|Hv]; [done|].
  destruct (denotes_total s v Hs Hv) as [T HT]. exists T. split; [done|].
  by rewrite (term_at_denotes s v T) by (done || unfold depth; lia).
Qed.

Lemma below_same_slots b b' owner ordinal : below b b' →
  Binding.owns b' owner = Binding.owns b owner ∧ Binding.slot_ix b' owner ordinal = Binding.slot_ix b owner ordinal.
Proof. intros [H _ _]. unfold Binding.owns, Binding.slot_ix. by rewrite H. Qed.

Section answers.
Context (brand : Z → Z → Prop) (s : TyStore).

(** Brand parameters are filled with types without qualifiers. *)
Definition plain (b : Binding) : Prop :=
  ∀ owner ordinal v, brand owner ordinal → Binding.slot b owner ordinal = Done v → v ≠ NO_TY → quals s v = Done 0.

(** [b'] and [r] are the answer of a match that looks for the bindings above
    [b] that satisfy [φ]: there are none, or [b'] is the least. *)
Definition least (φ : Binding → Prop) (b b' : Binding) (r : bool) : Prop :=
  good s b' ∧ below b b' ∧
  ∀ bf, good s bf → below b bf →
    (r = true → below b' bf → φ bf) ∧ (plain bf → φ bf → r = true ∧ below b' bf).
Definition answers (c : op (Binding * bool)) (b : Binding) (φ : Binding → Prop) : Prop :=
  ∃ b' r, c s = Done (s, (b', r)) ∧ least φ b b' r.

Lemma answers_look {A} (f : TyStore → res A) x k b φ : f s = Done x → answers (k x) b φ → answers (read f ≫= k) b φ.
Proof. intros Hf (b' & r & Hk & H). exists b', r. split; [|done]. unfold mbind, op_bind, read. by rewrite Hf. Qed.
Lemma answers_says x b φ : good s b →
  (∀ bf, good s bf → below b bf → (x = true → φ bf) ∧ (plain bf → φ bf → x = true)) → answers (mret (b, x)) b φ.
Proof.
  intros Hb H. exists b, x. split; [done|]. split_and!; [done|done|]. intros bf Hg Hle.
  destruct (H bf Hg Hle). auto.
Qed.
Lemma answers_iff c b φ ψ : (∀ bf, good s bf → below b bf → φ bf ↔ ψ bf) → answers c b φ → answers c b ψ.
Proof.
  intros H (b' & r & Hc & Hg & Hle & Hl). exists b', r. split; [done|]. split_and!; [done|done|].
  intros bf Hf Hb. destruct (Hl bf Hf Hb). by rewrite <- H.
Qed.
Lemma answers_then (m1 m2 : matcher) b φ1 φ2 : answers (m1 b) b φ1 →
  (∀ b', good s b' → below b b' → answers (m2 b') b' φ2) →
  answers (and_then m1 m2 b) b (λ bf, φ1 bf ∧ φ2 bf).
Proof.
  intros (b1 & r1 & H1 & Hg1 & Hle1 & Hl1) H2. unfold and_then, answers, mbind, op_bind. rewrite H1.
  cbn [mbind res_bind fst snd]. destruct r1.
  - destruct (H2 b1 Hg1 Hle1) as (b2 & r2 & H2' & Hg2 & Hle2 & Hl2). exists b2, r2. split; [done|].
    split_and!; [done|by transitivity b1|]. intros bf Hf Hb. destruct (Hl1 bf Hf Hb) as [Hs1 Hc1]. split.
    + intros Hr Hbf. assert (below b1 bf) as Hb1 by by transitivity b2. split; [auto|]. by apply Hl2.
    + intros Hp [H H']. destruct (Hc1 Hp H) as [_ Hb1]. by apply Hl2.
  - exists b1, false. split; [done|]. split_and!; [done|done|]. intros bf Hf Hb.
    destruct (Hl1 bf Hf Hb) as [_ Hc1]. split; [done|]. intros Hp [H _]. auto.
Qed.

Lemma good_range b v k : good s b → b_slots b !! k = Some v → v = NO_TY ∨ 0 ≤ v < len (rows s).
Proof. intros [_ Hg] Hk. by apply (Forall_lookup_1 _ _ _ _ Hg Hk). Qed.

(** Binding a slot finds the least binding whose slot holds the type. *)
Lemma answers_bind b owner ordinal t : store_ok s → good s b → 0 ≤ ordinal → 0 ≤ t < len (rows s) →
  answers (binds owner ordinal t b) b (λ bf, Binding.slot bf owner ordinal = Done t).
Proof.
  intros Hs Hg Ho Ht. unfold binds, Binding.bind.
  assert (t ≠ NO_TY) as Hne by (pose proof (po_size (st_rows _ Hs)); unfold EMPTY, NO_TY in *; lia).
  assert (∀ bf, below b bf → Binding.slot_ix bf owner ordinal = Binding.slot_ix b owner ordinal) as Hix.
  { intros bf Hbf. by apply below_same_slots. }
  unfold Binding.slot, answers, read. destruct (Binding.slot_ix b owner ordinal) as [i|] eqn:E.
  2:{ exists b, false. split; [done|]. split_and!; [done|done|]. intros bf _ Hbf. rewrite (Hix bf Hbf).
      split; [done|]. by intros _ [=]. }
  apply slot_ix_range in E as Hi; [|apply Hg|done]. destruct (proj2 (at_ix_is_Some _ _) Hi) as [v Hv].
  rewrite Hv. cbn [get_ix mbind res_bind]. apply at_ix_Some in Hv as [Hi0 Hv].
  destruct (Z.eqb_spec v NO_TY) as [->|Hvne]; cbn [mbind res_bind].
  - set (b' := MkBinding _ _). exists b', true. split; [done|].
    assert (length (b_slots b') = length (b_slots b)) as Hlen by (subst b'; cbn; apply length_insert).
    split_and!.
    + split; [|apply Forall_insert; [apply Hg|by right]]. destruct Hg as [Hok _]. unfold binding_ok, len in *. by rewrite Hlen.
    + split; [done|done|]. intros k v' Hk Hv'. subst b'. cbn. rewrite list_lookup_insert_ne; [done|]. congruence.
    + intros bf Hf Hbf. rewrite (Hix bf Hbf). split; cycle 1.
      * intros _ Hslot. split; [done|]. destruct (at_ix (b_slots bf) i) as [w|] eqn:Hw; [|done]. injection Hslot as ->.
        apply at_ix_Some in Hw as [_ Hw]. split; [by rewrite (be_owners _ _ Hbf)|by rewrite Hlen, (be_len _ _ Hbf)|].
        intros k w Hk Hkne. subst b'. cbn in Hk. apply list_lookup_insert_Some in Hk as [(<- & <- & _)|[_ Hk]]; [done|].
        by apply (be_slots _ _ Hbf).
      * intros _ Hle. assert (b_slots bf !! Z.to_nat i = Some t) as Hw.
        { apply (be_slots _ _ Hle); [|done]. subst b'. cbn. apply list_lookup_insert_eq. by apply lookup_lt_Some in Hv. }
        by rewrite (proj2 (at_ix_Some _ _ _) (conj Hi0 Hw)).
  - exists b, (v =? t). split; [done|]. split_and!; [done|done|]. intros bf Hf Hbf. rewrite (Hix bf Hbf).
    rewrite (proj2 (at_ix_Some _ i v)); [|split; [done|by apply (be_slots _ _ Hbf)]]. cbn.
    rewrite Z.eqb_eq. split; [by intros -> _|]. by intros _ [= ->].
Qed.

(** *** The match, case by case *)

(** The patterns the match inverts: no projections, brand parameters bare. *)
Definition pattern_ok (q : Z) (l : label) : Prop :=
  match l with
  | LProj _ _ => False
  | LBrand (BParam owner ordinal) => q = 0 ∧ 0 ≤ ordinal ∧ brand owner ordinal
  | _ => True
  end.
Definition means (T A : term) (bf : Binding) : Prop := subst_t (sigma s bf) T = Some A.
Definition mean (Ts As : list term) (bf : Binding) : Prop := mapM (subst_t (sigma s bf)) Ts = Some As.

Definition match_ok (rec : Z → Z → matcher) (lim : Z) (T : term) : Prop :=
  ∀ p a A b, denotes s p T → denotes s a A → p < lim → good s b → answers (rec p a b) b (means T A).

Lemma mean_cons T Ts A As bf : mean (T :: Ts) (A :: As) bf ↔ means T A bf ∧ mean Ts As bf.
Proof.
  unfold mean, means. cbn [mapM]. destruct (subst_t (sigma s bf) T); simpl; [|by split; [intros [=]|intros [[=] _]]].
  destruct (mapM _ Ts); simpl; [|by split; [intros [=]|intros [_ [=]]]].
  split; [by intros [= -> ->]|by intros [[= ->] [= ->]]].
Qed.
Lemma mean_app Ts1 Ts2 As1 As2 bf : length Ts1 = length As1 →
  mean (Ts1 ++ Ts2) (As1 ++ As2) bf ↔ mean Ts1 As1 bf ∧ mean Ts2 As2 bf.
Proof.
  revert As1. induction Ts1 as [|T Ts1 IH]; intros [|A As1] Hl; simplify_eq/=.
  - split; [done|by intros [_ H]].
  - rewrite !mean_cons, IH by done. tauto.
Qed.
Lemma mean_length Ts As bf : mean Ts As bf → length Ts = length As.
Proof. intros H%mapM_Some. by eapply Forall2_length. Qed.

Section rec.
Context (rec : Z → Z → matcher) (lim : Z).

Lemma answers_all Ts : Forall (match_ok rec lim) Ts → ∀ ps xs As b,
  Forall2 (denotes s) ps Ts → Forall2 (denotes s) xs As → Forall (λ c, c < lim) ps → length ps = length xs →
  good s b → answers (match_all rec ps xs b) b (mean Ts As).
Proof.
  induction 1 as [|T Ts HT _ IH]; intros ps xs As b Hps Hxs Hlim Hlen Hg;
    inversion Hps as [|p ? ps' ? Hp Hps']; subst; inversion Hxs as [|x A xs' As' Hx Hxs']; subst; try done.
  { by apply answers_says. }
  apply Forall_cons in Hlim as [Hl1 Hl2]. injection Hlen as Hlen.
  eapply answers_iff; [intros bf _ _; symmetry; apply mean_cons|]. cbn [match_all].
  apply answers_then; [by apply HT|]. intros b' Hg' _. by apply IH.
Qed.

Lemma answers_args Ts i j ps xs As b : Forall (match_ok rec lim) Ts →
  args_of s i = Some ps → args_of s j = Some xs → Forall2 (denotes s) ps Ts → Forall2 (denotes s) xs As →
  Forall (λ c, c < lim) ps → good s b → answers (match_args rec i j b) b (mean Ts As).
Proof.
  intros HT Hi Hj Hps Hxs Hlim Hg. unfold match_args. eapply answers_look; [by rewrite Hi|].
  eapply answers_look; [by rewrite Hj|]. unfold len. destruct (Z.eqb_spec (Z.of_nat (length xs)) (Z.of_nat (length ps))); cbn [negb].
  - apply answers_all; done || lia.
  - apply answers_says; [done|]. intros bf _ _. split; [done|]. intros _ Hm%mean_length.
    rewrite <- (Forall2_length _ _ _ Hps), <- (Forall2_length _ _ _ Hxs) in Hm. lia.
Qed.

Lemma answers_params Ts : Forall (match_ok rec lim) Ts → ∀ ps xs As b,
  Forall2 (denotes s) (map snd ps) Ts → Forall2 (denotes s) (map snd xs) As →
  Forall (λ c, c < lim) (map snd ps) → length ps = length xs → good s b →
  answers (match_params rec ps xs b) b (λ bf, map fst ps = map fst xs ∧ mean Ts As bf).
Proof.
  induction 1 as [|T Ts HT _ IH]; intros ps xs As b Hps Hxs Hlim Hlen Hg;
    destruct ps as [|[pc p] ps]; destruct xs as [|[xc x] xs]; simplify_eq/=;
    inversion Hps as [|? ? ? ? Hp Hps']; subst; inversion Hxs as [|? A ? As' Hx Hxs']; subst.
  { by apply answers_says. }
  apply Forall_cons in Hlim as [Hl1 Hl2].
  case_bool_decide as Hc; cbn [negb].
  - subst xc. eapply answers_iff; [|apply answers_then; [by apply HT|intros b' Hg' _; by apply IH]].
    intros bf _ _. cbv beta. rewrite mean_cons. cbn [map fst]. split.
    + intros (HA & -> & Hm). done.
    + intros ([= Hf] & HA & Hm). done.
  - apply answers_says; [done|]. intros bf _ _. split; [done|]. by intros _ [[= ? _] _].
Qed.

Lemma answers_raises pe xe Ts As b : Forall (match_ok rec lim) Ts → good s b →
  Forall2 (denotes s) (if pe =? NO_TY then [] else [pe]) Ts →
  Forall2 (denotes s) (if xe =? NO_TY then [] else [xe]) As →
  Forall (λ c, c < lim) (if pe =? NO_TY then [] else [pe]) →
  answers ((match pe =? NO_TY, xe =? NO_TY with
            | true, true => says true
            | false, false => rec pe xe
            | _, _ => says false
            end) b) b (λ bf, (pe =? NO_TY) = (xe =? NO_TY) ∧ mean Ts As bf).
Proof.
  intros HT Hg Hps Hxs Hlim. destruct (pe =? NO_TY), (xe =? NO_TY).
  - inversion Hps; subst. inversion Hxs; subst. by apply answers_says.
  - apply answers_says; [done|]. intros bf _ _. split; [done|]. by intros _ [[=] _].
  - apply answers_says; [done|]. intros bf _ _. split; [done|]. by intros _ [[=] _].
  - apply Forall2_cons_inv_l in Hps as (T & ? & Hp & ->%Forall2_nil_inv_l & ->).
    apply Forall2_cons_inv_l in Hxs as (A & ? & Hx & ->%Forall2_nil_inv_l & ->).
    apply Forall_cons in HT as [HT _], Hlim as [Hlim _].
    eapply answers_iff; [|by apply HT]. intros bf _ _. cbv beta. rewrite mean_cons. by split; [intros ?|intros [_ [? _]]].
Qed.

Lemma answers_fn i j ps pr pe pcl xs xr xe xcl Ts As b : Forall (match_ok rec lim) Ts → good s b →
  fn_sig_of s i = Some (ps, pr, pe, pcl) → fn_sig_of s j = Some (xs, xr, xe, xcl) →
  Forall2 (denotes s) (map snd ps ++ [pr] ++ (if pe =? NO_TY then [] else [pe])) Ts →
  Forall2 (denotes s) (map snd xs ++ [xr] ++ (if xe =? NO_TY then [] else [xe])) As →
  Forall (λ c, c < lim) (map snd ps ++ [pr] ++ (if pe =? NO_TY then [] else [pe])) →
  answers (match_fn rec i j b) b
    (λ bf, LFn (map fst ps) pcl (negb (pe =? NO_TY)) = LFn (map fst xs) xcl (negb (xe =? NO_TY)) ∧ mean Ts As bf).
Proof.
  intros HT Hg Hi Hj Hps Hxs Hlim. unfold match_fn. eapply answers_look; [by rewrite Hi|].
  eapply answers_look; [by rewrite Hj|]. cbn [fst snd].
  destruct (eqb pcl xcl) eqn:Ecl; cbn [negb].
  2:{ apply answers_says; [done|]. intros bf _ _. split; [done|]. intros _ [[= _ -> _] _]. by rewrite eqb_reflx in Ecl. }
  apply eqb_prop in Ecl as ->. unfold len.
  destruct (Z.eqb_spec (Z.of_nat (length xs)) (Z.of_nat (length ps))) as [Hlen|Hlen]; cbn [negb].
  2:{ apply answers_says; [done|]. intros bf _ _. split; [done|]. intros _ [[= Hf _] _].
      apply (f_equal length) in Hf. rewrite !length_map in Hf. lia. }
  apply Forall2_app_inv_l in Hps as (t1 & t2 & Hp1 & Hp2 & ->).
  apply Forall2_cons_inv_l in Hp2 as (tr & t3 & Hpr & Hp3 & ->).
  apply Forall2_app_inv_l in Hxs as (a1 & a2 & Hx1 & Hx2 & ->).
  apply Forall2_cons_inv_l in Hx2 as (ar & a3 & Hxr & Hx3 & ->).
  apply Forall_app in HT as [HT1 [HT2 HT3]%Forall_cons], Hlim as [Hl1 [Hl2 Hl3]%Forall_cons].
  assert (length t1 = length a1) as Hla.
  { rewrite <- (Forall2_length _ _ _ Hp1), <- (Forall2_length _ _ _ Hx1), !length_map. lia. }
  eapply answers_iff; [|apply answers_then; [apply (answers_params t1 HT1 ps xs a1); [done..|lia|done]|
    intros b1 Hg1 _; apply answers_then; [by apply HT2|intros b2 Hg2 _; by apply (answers_raises pe xe t3 a3)]]].
  intros bf _ _. cbv beta. rewrite mean_app, mean_cons by done. split.
  - intros ([-> H1] & H2 & -> & H3). done.
  - intros ([= -> He] & H1 & H2 & H3). split_and!; [done..| |done]. by destruct (pe =? NO_TY), (xe =? NO_TY).
Qed.

Lemma means_node q l Ts q' l' As bf :
  match l with LParam _ _ | LProj _ _ | LBrand (BParam _ _) => False | _ => True end →
  means (Node q l Ts) (Node q' l' As) bf ↔ q' = q ∧ l' = l ∧ mean Ts As bf.
Proof.
  intros Hl. unfold means, mean. cbn [subst_t].
  assert (subst_node (sigma s bf) l Ts (mapM (subst_t (sigma s bf)) Ts) =
    (ts' ← mapM (subst_t (sigma s bf)) Ts; Some (Node 0 l ts'))) as ->.
  { by destruct l as [| | | | | | | | | |[]|]. }
  destruct (mapM _ Ts) as [Ts'|]; cbn [mbind option_bind]; [|by split; [intros [=]|intros (_ & _ & [=])]].
  unfold requalify. cbn [term_quals set_quals]. destruct (Z.eqb_spec q 0) as [->|]; cbn [Z.eqb].
  - split; [by intros [= <- <- <-]|by intros (-> & -> & [= ->])].
  - split; [by intros [= <- <- <-]|by intros (-> & -> & [= ->])].
Qed.

(** A parameter of ours stands for what its slot holds. *)
Lemma sigma_slot bf owner ordinal d A a : store_ok s → good s bf → denotes s a A → 0 ≤ ordinal →
  Binding.owns bf owner = true →
  default d (sigma s bf owner ordinal) = Some A ↔ Binding.slot bf owner ordinal = Done a.
Proof.
  intros Hs Hg Ha Ho Hown. pose proof (sigma_bound s bf Hs Hg owner ordinal Ho) as H. rewrite Hown in H.
  destruct H as (w & Hslot & H). rewrite Hslot. destruct (Z.eqb_spec w NO_TY) as [->|Hw].
  - rewrite H. split; [by intros [=]|]. intros [= <-]. apply denotes_range in Ha.
    pose proof (po_size (st_rows _ Hs)). unfold EMPTY, NO_TY in *. lia.
  - destruct H as (W & HW & ->). cbn [default from_option id]. split.
    + intros [= ->]. f_equal. by eapply denotes_inj.
    + intros [= ->]. f_equal. by eapply denotes_det.
Qed.
Lemma sigma_rigid bf owner ordinal d : Binding.owns bf owner = false → default d (sigma s bf owner ordinal) = d.
Proof. unfold sigma. by intros ->. Qed.

Lemma answers_same p a P A b : store_ok s → good s b → denotes s p P → denotes s a A →
  (∀ bf, below b bf → subst_t (sigma s bf) P = Some P) → answers (mret (b, p =? a)) b (means P A).
Proof.
  intros Hs Hg Hp Ha HP. apply answers_says; [done|]. intros bf _ Hbf. unfold means. rewrite (HP bf Hbf). split.
  - intros ->%Z.eqb_eq. f_equal. by eapply denotes_det.
  - intros _ [= ->]. apply Z.eqb_eq. by eapply denotes_inj.
Qed.

Lemma means_slot bf owner ordinal d A a : store_ok s → good s bf → denotes s a A → 0 ≤ ordinal →
  Binding.owns bf owner = true →
  (out ← default d (sigma s bf owner ordinal); requalify 0 out) = Some A ↔ Binding.slot bf owner ordinal = Done a.
Proof.
  intros Hs Hg Ha Ho Hown. rewrite <- (sigma_slot bf owner ordinal d A a) by done.
  by destruct (default d (sigma s bf owner ordinal)).
Qed.

Lemma answers_brand p a q br Ts A b k : store_ok s → good s b → pattern_ok q (LBrand br) →
  denotes s p (Node q (LBrand br) Ts) → Ts = [] → denotes s a A → at_ix (brands s) k = Some br →
  answers ((br ← read (λ s, get_ix (at_ix (brands s) k));
            match br with
            | BParam owner ordinal =>
                if Binding.owns b owner then binds owner ordinal a b else mret (b, p =? a)
            | BFresh _ _ => mret (b, p =? a)
            end)) b (means (Node q (LBrand br) Ts) A).
Proof.
  intros Hs Hg Hpat Hp -> Ha Hbr. eapply answers_look; [by rewrite Hbr|].
  destruct br as [owner ordinal|owner ordinal]; cbn [pattern_ok] in Hpat.
  - destruct Hpat as (-> & Ho & _). destruct (Binding.owns b owner) eqn:E.
    + eapply answers_iff; [|apply answers_bind; try done; by eapply denotes_range].
      intros bf Hf Hbf. unfold means. cbn [subst_t mapM subst_node]. rewrite (means_slot bf owner ordinal _ A a); try done.
      by rewrite (proj1 (below_same_slots b bf owner ordinal Hbf)).
    + apply answers_same; try done. intros bf Hbf. cbn [subst_t mapM subst_node]. rewrite sigma_rigid; [done|].
      by rewrite (proj1 (below_same_slots b bf owner ordinal Hbf)).
  - apply answers_same; try done. intros bf Hbf. cbn. unfold requalify. cbn. by destruct (Z.eqb_spec q 0) as [->|].
Qed.

Definition constructor (l : label) : Prop :=
  match l with LParam _ _ | LProj _ _ | LBrand (BParam _ _) => False | _ => True end.

Section node.
Context (p a : Z) (l l' : label) (Ts As : list term) (r r' : Row) (ps xs : list Z) (b : Binding).
Context (Hs : store_ok s) (Hg : good s b) (Hr : row s p = Some r) (Hr' : row s a = Some r')
  (Hq : r_quals r' = r_quals r)
  (Hpp : parts s (r_tag r) (r_a r) (r_b r) = Some (l, ps))
  (Hpa : parts s (r_tag r') (r_a r') (r_b r') = Some (l', xs))
  (Hps : Forall2 (denotes s) ps Ts) (Hxs : Forall2 (denotes s) xs As)
  (HT : Forall (match_ok rec lim) Ts) (Hlim : Forall (λ c, c < lim) ps).
Abbreviation node_means := (means (Node (r_quals r) l Ts) (Node (r_quals r) l' As)).

Lemma node_p : denotes s p (Node (r_quals r) l Ts).
Proof using All. by econstructor. Qed.
Lemma node_a : denotes s a (Node (r_quals r) l' As).
Proof using All. rewrite <- Hq. by econstructor. Qed.
Lemma node_no : l' ≠ l → constructor l → answers (mret (b, false)) b node_means.
Proof using All.
  intros Hne Hl. apply answers_says; [done|]. intros bf _ _. split; [done|]. by intros _ (_ & ? & _)%means_node.
Qed.
Lemma node_yes c : l' = l → constructor l → answers c b (mean Ts As) → answers c b node_means.
Proof using All.
  intros -> Hl Hc. eapply answers_iff; [|exact Hc]. intros bf _ _. rewrite means_node by done.
  by split; [|intros (_ & _ & ?)].
Qed.
Lemma node_leaf : Ts = [] → (∀ β, subst_node β l [] (Some []) = Some (Node 0 l [])) →
  answers (mret (b, p =? a)) b node_means.
Proof using All.
  intros HTs Hl. apply answers_same; [done|done|apply node_p|apply node_a|]. intros bf _. rewrite HTs.
  cbn [subst_t mapM mret option_ret]. rewrite Hl.
  cbn. unfold requalify. cbn. by destruct (Z.eqb_spec (r_quals r) 0) as [->|].
Qed.

Lemma answers_core : pattern_ok (r_quals r) l → (∀ o i, l ≠ LParam o i) →
  answers (match_core rec Strict p a b) b node_means.
Proof using All.
  intros Hpat Hpar.
  pose proof node_p as Hp. pose proof node_a as Ha. pose proof node_no as Hno. pose proof node_yes as Hyes.
  pose proof node_leaf as Hleaf.
  destruct (parts_spec _ _ _ _ _ _ Hpp) as [Hg1 Hp1], (parts_spec _ _ _ _ _ _ Hpa) as [Hg2 Hp2].
  unfold match_core, tag, ty_a, ty_b. do 3 (eapply answers_look; [by rewrite Hr|]).
  do 3 (eapply answers_look; [by rewrite Hr'|]). rewrite Hg1, Hg2. destruct l; cbn [label_tag].
  1-4: destruct Hp1 as (_ & _ & ->); apply Hleaf; [by inversion Hps|done].
  - destruct l'; cbn [label_tag]; try (by apply Hno). rewrite bool_decide_true by done. cbn [negb orb].
    destruct Hp1 as [-> H1], Hp2 as [-> H2]. destruct (Z.eqb_spec def0 def) as [->|Hne]; cbn [negb].
    + apply Hyes; [done|done|]. by eapply answers_args.
    + apply Hno; [congruence|done].
  - destruct l'; cbn [label_tag]; try (by apply Hno). rewrite bool_decide_true by done. cbn [negb].
    destruct Hp1 as [_ H1], Hp2 as [_ H2]. apply Hyes; [done|done|]. by eapply answers_args.
  - destruct l'; cbn [label_tag]; try (by apply Hno). rewrite bool_decide_true by done. cbn [negb].
    destruct Hp1 as (_ & [[[ps1 pr] pe] pcl] & H1 & HP1), Hp2 as (_ & [[[xs1 xr] xe] xcl] & H2 & HP2).
    injection HP1 as <- <- <- <-. injection HP2 as <- <- <- <-.
    eapply answers_iff; [|by eapply answers_fn]. intros bf _ _. cbv beta. rewrite means_node by done.
    by split; [intros [<- ?]|intros (_ & <- & ?)].
  - destruct l'; cbn [label_tag]; try (by apply Hno). rewrite bool_decide_true by done. cbn [negb].
    destruct Hp1 as (_ & i & H1 & H1'), Hp2 as (_ & j & H2 & H2').
    eapply answers_look; [by rewrite H1|]. eapply answers_look; [by rewrite H2|]. cbn [fst snd].
    destruct (Z.eqb_spec trait_def trait_def0) as [->|Hne].
    + apply Hyes; [done|done|]. by eapply answers_args.
    + apply Hno; [congruence|done].
  - by destruct (Hpar owner ordinal).
  - done.
  - destruct Hp1 as (Hbr & _ & ->). apply (answers_brand p a (r_quals r) b0 Ts); try done. by inversion Hps.
  - destruct l'; cbn [label_tag]; try (by apply Hno). rewrite bool_decide_true by done. cbn [negb orb].
    destruct Hp1 as [H1 ->], Hp2 as [H2 ->].
    apply Forall2_cons_inv_l in Hps as (T & ? & HT1 & ->%Forall2_nil_inv_l & ->).
    apply Forall2_cons_inv_l in Hxs as (A & ? & HA1 & ->%Forall2_nil_inv_l & ->).
    destruct (Z.eqb_spec (r_a r') (r_a r)) as [E|Hne]; cbn [negb].
    + rewrite E, H1 in H2. injection H2 as <-. apply Hyes; [done|done|].
      apply Forall_cons in HT as [HT0 _], Hlim as [Hl _].
      eapply answers_iff; [|by apply HT0]. intros bf _ _. rewrite mean_cons. by split; [|intros [? _]].
    + apply Hno; [|done]. intros [= ->]. apply Hne. eapply (po_inj (st_const _ Hs)); [exact H2|exact H1].
Qed.
End node.
End rec.

Lemma requalify_inv q out l As : q ≠ 0 → requalify q out = Some (Node q l As) ↔ out = Node 0 l As.
Proof.
  intros Hq. unfold requalify. destruct (Z.eqb_spec q 0); [done|]. destruct out as [qo lo ts].
  cbn [term_quals set_quals]. destruct (Z.eqb_spec qo 0) as [->|]; split; try done; try by intros [= -> ->].
Qed.
Lemma requalify_quals q out A : q ≠ 0 → requalify q out = Some A → term_quals A = q.
Proof.
  unfold requalify. intros Hq. destruct (Z.eqb_spec q 0); [done|]. destruct (term_quals out =? 0); [|done].
  intros [= <-]. by destruct out.
Qed.

Lemma quals_agree bf q l Ts A a : store_ok s → good s bf → plain bf → denotes s a A →
  pattern_ok q l → (∀ o i, l ≠ LParam o i) → means (Node q l Ts) A bf → term_quals A = q.
Proof.
  intros Hs Hg Hplain Ha Hpat Hpar Hm. destruct A as [qa la As].
  assert (constructor l → qa = q) as Hc by (intros Hl; by apply means_node in Hm as (? & _)).
  destruct l as [| | | | | | | |owner ordinal|trait_def name|[owner ordinal|]|]; try (apply Hc; exact I);
    [by destruct (Hpar owner ordinal)|destruct Hpat|].
  destruct Hpat as (-> & Ho & Hbr). unfold means in Hm. cbn [subst_t subst_node] in Hm.
  destruct (Binding.owns bf owner) eqn:E.
  - rewrite (means_slot bf owner ordinal _ _ a) in Hm by done.
    assert (a ≠ NO_TY) as Hne.
    { apply denotes_range in Ha. pose proof (po_size (st_rows _ Hs)). unfold EMPTY, NO_TY in *. lia. }
    pose proof (Hplain owner ordinal a Hbr Hm Hne) as H0.
    destruct (denotes_unqual s a qa la As Hs Ha) as (_ & _ & _ & _ & H). rewrite H in H0. by injection H0.
  - rewrite sigma_rigid in Hm by done. by injection Hm as <- _ _.
Qed.

(** A parameter of the pattern. *)
Lemma answers_param p a q owner ordinal A b : store_ok s → good s b →
  denotes s p (Node q (LParam owner ordinal) []) → denotes s a A →
  answers (if negb (Binding.owns b owner) then mret (b, p =? a)
           else if Quals.is_none q then binds owner (wrap 16 ordinal) a b
           else if negb (q =? term_quals A) then mret (b, false)
           else v ← read (λ s, unqual s a); binds owner (wrap 16 ordinal) v b) b
    (means (Node q (LParam owner ordinal) []) A).
Proof.
  intros Hs Hg Hp Ha.
  assert (0 ≤ wrap 16 ordinal) as Hw by (apply Z.mod_pos_bound; lia).
  assert (∀ bf, below b bf → Binding.owns bf owner = Binding.owns b owner) as Hown.
  { intros bf Hbf. by apply (below_same_slots b bf owner 0). }
  destruct (Binding.owns b owner) eqn:E; cbn [negb].
  2:{ apply answers_same; try done. intros bf Hbf. cbn [subst_t mapM subst_node].
      rewrite sigma_rigid by auto. unfold requalify. cbn. by destruct (Z.eqb_spec q 0) as [->|]. }
  unfold Quals.is_none. destruct (Z.eqb_spec q 0) as [->|Hq].
  { eapply answers_iff; [|apply answers_bind; try done; by eapply denotes_range]. intros bf Hf Hbf.
    unfold means. cbn [subst_t mapM subst_node]. by rewrite (means_slot bf owner _ _ A a) by auto. }
  destruct A as [qa la As]. cbn [term_quals]. destruct (Z.eqb_spec q qa) as [<-|Hne]; cbn [negb].
  - destruct (denotes_unqual s a q la As Hs Ha) as (u & Hu & HU & _ & _). eapply answers_look; [exact Hu|].
    eapply answers_iff; [|apply answers_bind; try done; by eapply denotes_range]. intros bf Hf Hbf.
    unfold means. cbn [subst_t mapM subst_node].
    rewrite <- (sigma_slot bf owner _ (Some (Node 0 (LParam owner ordinal) [])) (Node 0 la As) u) by auto.
    destruct (default _ _) as [out|]; cbn [mbind option_bind]; [|by split].
    rewrite requalify_inv by done. by split; intros Heq; simplify_eq.
  - apply answers_says; [done|]. intros bf _ _. split; [done|]. intros _ Hm. unfold means in Hm.
    cbn [subst_t mapM] in Hm. apply bind_Some in Hm as (out & _ & Hm%requalify_quals); [|done]. by destruct Hne.
Qed.

Lemma answers_match P : store_ok s → nodes pattern_ok P → ∀ fuel p a A b, (Z.to_nat p < fuel)%nat →
  denotes s p P → denotes s a A → good s b →
  answers (one_way_match_mode NeutralOnly Strict fuel p a b) b (means P A).
Proof.
  intros Hs. induction P as [q l Ts IH] using term_induction.
  intros [Hpat Hpats]%nodes_inv [|fuel] p a A b Hfuel Hp Ha Hg; [lia|]. cbn [one_way_match_mode].
  eapply answers_look; [by eapply denotes_monomorphic|]. case_bool_decide as Hc.
  { apply answers_same; try done. intros bf _. by apply subst_closed. }
  inversion Hp as [? r ? ps ? Hr Hpp Hps Hrq]; subst. inversion Ha as [? r' l' xs As Hr' Hpa Hxs]; subst.
  assert (0 ≤ p) as Hp0 by by eapply denotes_range.
  unfold tag, ty_a, ty_b, quals. do 4 (eapply answers_look; [by rewrite Hr|]). eapply answers_look; [by rewrite Hr'|].
  destruct (parts_spec _ _ _ _ _ _ Hpp) as [Hg1 Hp1].
  destruct (st_row _ Hs _ _ Hr) as [(l1 & cs1 & Hp' & Hlim & _) _ _]. rewrite Hpp in Hp'. injection Hp' as <- <-.
  assert (Forall (match_ok (one_way_match_mode NeutralOnly Strict fuel) p) Ts) as HT.
  { rewrite Forall_forall in IH, Hpats |- *. intros T HT c x X b' Hc' Hx Hlt Hb'. apply IH; try done; [auto|].
    assert (0 ≤ c) by by eapply denotes_range. lia. }
  assert ((∀ o i, l ≠ LParam o i) → answers (if negb (r_quals r =? r_quals r') then mret (b, false)
      else match_core (one_way_match_mode NeutralOnly Strict fuel) Strict p a b) b
    (means (Node (r_quals r) l Ts) (Node (r_quals r') l' As))) as Hcore.
  { intros Hpar. destruct (Z.eqb_spec (r_quals r) (r_quals r')) as [E|Hne]; cbn [negb].
    - rewrite <- E. eapply (answers_core _ p p a l l' Ts As r r' ps xs); try done.
      eapply Forall_impl; [exact Hlim|]. simpl. lia.
    - apply answers_says; [done|]. intros bf Hf _. split; [done|]. intros Hplain Hm.
      by apply (quals_agree bf _ l Ts _ a Hs Hf Hplain Ha Hpat Hpar) in Hm. }
  rewrite Hg1. destruct l; cbn [label_tag]; try (by apply Hcore); [|by destruct Hpat].
  destruct Hp1 as (-> & -> & ->). inversion Hps; subst.
  apply (answers_param p a (r_quals r) _ _ (Node (r_quals r') l' As)); done.
Qed.
End answers.

Lemma nodes_impl (P Q : Z → label → Prop) T : (∀ q l, P q l → Q q l) → nodes P T → nodes Q T.
Proof.
  intros H. induction T as [q l ts IH] using term_induction. intros [Hl Hts]%nodes_inv. simpl.
  rewrite nodes_children. split; [auto|]. rewrite Forall_forall in IH, Hts |- *. auto.
Qed.

Lemma subst_norm_answers s p P bf : store_ok s → denotes s p P → good s bf → nodes ordinal_ok P →
  foot s + 9 * size P ≤ EMPTY → ∀ a A, denotes s a A →
  subst_t (sigma s bf) P = Some A ↔ ∃ s', subst_norm p bf s = Done (s', Some a).
Proof.
  intros Hs Hp Hg Ho Hroom a A Ha.
  destruct (does_subst bf (sigma s bf) P (depth p) p s) as (s' & r & Hc & Hs' & He & _ & Hr);
    try done; [unfold depth; lia|by apply sigma_bound|].
  unfold subst_norm. rewrite Hc. apply (denotes_ext s s' a A He) in Ha. split.
  - intros HA. rewrite HA in Hr. destruct Hr as (t & -> & Ht). exists s'. do 3 f_equal. by eapply denotes_inj.
  - intros (s2 & [= <- ->]). destruct (subst_t _ P) as [A'|]; [|done]. destruct Hr as (t & [= <-] & Ht).
    f_equal. by eapply denotes_det.
Qed.

(** C11: the one-way match of ch09 R38 is the inverse of substitution. On a
    pattern without projections, whose brand parameters are bare, the match
    returns without touching the store. When it succeeds, substituting the
    pattern under its binding, or under any binding above it, gives exactly the
    target. Whenever some binding above the given one (with bare types in brand
    slots) turns the pattern into the target, the match succeeds, and its
    binding is below that one: it is the least. *)
Theorem match_inverts_substitution brand s p a P b : store_ok s → denotes s p P → nodes (pattern_ok brand) P →
  0 ≤ a < len (rows s) → good s b → foot s + 9 * size P ≤ EMPTY →
  ∃ b' r, one_way_match p a b s = Done (s, (b', r)) ∧ good s b' ∧ below b b' ∧
    ∀ bf, good s bf → below b bf →
      (r = true → below b' bf → ∃ s', subst_norm p bf s = Done (s', Some a)) ∧
      (plain brand s bf → (∃ s', subst_norm p bf s = Done (s', Some a)) → r = true ∧ below b' bf).
Proof.
  intros Hs Hp Hpat Ha Hg Hroom. destruct (denotes_total s a Hs Ha) as [A HA].
  destruct (answers_match brand s P Hs Hpat (depth p) p a A b) as (b' & r & Hm & Hg' & Hle & Hl);
    try done; [unfold depth; lia|].
  exists b', r. split_and!; [done..|]. intros bf Hf Hbf. destruct (Hl bf Hf Hbf) as [H1 H2]. unfold means in *.
  assert (nodes ordinal_ok P) as Ho.
  { eapply nodes_impl; [|exact Hpat]. intros q l. destruct l as [| | | | | | | | | |[]|]; try done. by intros (_ & ? & _). }
  rewrite (subst_norm_answers s p P bf Hs Hp Hf Ho Hroom a A HA) in H1, H2. done.
Qed.

Lemma fresh_good s : good s (Binding.new [(7, 1)]).
Proof. split; [apply binding_new_ok; [done|by repeat constructor]|]. repeat constructor. Qed.
Lemma unit_good s : 3 ≤ len (rows s) → good s unit_binding.
Proof.
  intros Hlen. split; [constructor; [vm_compute; by split|by constructor]|].
  constructor; [right; unfold TY_UNIT; lia|by constructor].
Qed.
Lemma unit_above : below (Binding.new [(7, 1)]) unit_binding.
Proof.
  split; [reflexivity|reflexivity|]. intros [|k] v Hk Hv; cbn in Hk; [|done].
  injection Hk as <-. by destruct Hv.
Qed.
Lemma unit_subst s : store_ok s → denotes s TY_UNIT (Node 0 LUnit []) →
  subst_t (sigma s unit_binding) impl_T = Some (Node 0 LUnit []).
Proof.
  intros Hs Hu. cbn [subst_t mapM subst_node impl_T].
  assert (sigma s unit_binding 7 (wrap 16 0) = Some (term_at (depth TY_UNIT) s TY_UNIT)) as -> by reflexivity.
  rewrite (term_at_denotes s TY_UNIT (Node 0 LUnit []) Hs Hu) by (unfold depth; lia). reflexivity.
Qed.
Lemma match_inverts_substitution_witness : ∃ s p, denotes s p impl_T ∧
  ∃ b' s', one_way_match p TY_UNIT (Binding.new [(7, 1)]) s = Done (s, (b', true)) ∧
    subst_norm p b' s = Done (s', Some TY_UNIT).
Proof.
  destruct param_store as (s & p & Hs & Hf & Hp & Hlen & Hu). exists s, p. split; [exact Hp|].
  assert (nodes (pattern_ok (λ _ _, False)) impl_T) as Hpat by by repeat constructor.
  assert (foot s + 9 * size impl_T ≤ EMPTY) as Hroom by (change (size impl_T) with 1; unfold EMPTY; lia).
  destruct (match_inverts_substitution (λ _ _, False) s p TY_UNIT impl_T (Binding.new [(7, 1)]))
    as (b' & r & Hm & Hg & Hle & H); [exact Hs|exact Hp|exact Hpat|unfold TY_UNIT; lia|apply fresh_good|exact Hroom|].
  destruct (H unit_binding (unit_good s Hlen) unit_above) as [_ H2]. destruct H2 as [-> _].
  - intros owner ordinal v [].
  - apply (subst_norm_answers s p impl_T unit_binding) with (Node 0 LUnit []);
      [exact Hs|exact Hp|by apply unit_good|by repeat constructor|exact Hroom|exact Hu|by apply unit_subst].
  - destruct (H b' Hg Hle) as [H1 _]. destruct H1 as [s' Hs']; [reflexivity|reflexivity|].
    exists b', s'. split; [exact Hm|exact Hs'].
Defined.
