(* ===== verification/TyMemo.v ===== *)
(** * The memo of substitutions and the first unbound parameter

    fors-fir/src/subst.rs: [subst_norm_cached], which remembers answers by type
    and hashed binding, and [first_unbound], which names the parameter that
    keeps a substitution from being completed. *)

From stdpp Require Import gmap.
From S2P Require Import Prelude QueryKey TyCons TyStore TyTerms TySubst TyMatch.
Local Open Scope Z_scope.

(** ** The memo of substitutions *)

Definition KEY_SALT_LO : Z := 0x42494e444b45594c.
Definition KEY_SALT_HI : Z := 0x42494e444b455948.
Definition mix (h x : Z) : Z := splitmix64 (Z.lxor h x).
Definition binding_fold (b : Binding) (salt : Z) : Z :=
  let h := mix salt (len (b_owners b)) in
  let h := foldl (λ h o, mix (mix h (os_owner o)) (os_len o)) h (b_owners b) in
  let h := mix h (len (b_slots b)) in
  foldl mix h (b_slots b).
Definition binding_key (b : Binding) : Z :=
  Z.lor (Z.shiftl (binding_fold b KEY_SALT_HI) 64) (binding_fold b KEY_SALT_LO).

(** By type and key of the binding. *)
Definition SubstMemo : Type := gmap (Z * Z) Z.

Definition subst_norm_cached (solve : Z → Z → op (option Z)) (ty : Z) (b : Binding) (memo : SubstMemo) :
    op (option Z * SubstMemo) :=
  mono ← read (λ s, is_monomorphic s ty);
  if (mono : bool) then mret (Some ty, memo)
  else
    let key := binding_key b in
    match memo !! (ty, key) with
    | Some hit => mret (Some hit, memo)
    | None =>
        r ← subst_norm_with solve b (depth ty) ty;
        match r with
        | Some out => mret (Some out, <[(ty, key) := out]> memo)
        | None => mret (None, memo)
        end
    end.

Lemma subst_t_ext β β' T : (∀ owner ordinal, β owner ordinal = β' owner ordinal) → subst_t β T = subst_t β' T.
Proof.
  intros H. induction T as [q l ts IH] using term_induction. cbn [subst_t].
  assert (mapM (subst_t β) ts = mapM (subst_t β') ts) as ->.
  { induction IH as [|T ts HT _ IHts]; [done|]. cbn [mapM]. by rewrite HT, IHts. }
  assert (subst_node β l ts (mapM (subst_t β') ts) = subst_node β' l ts (mapM (subst_t β') ts)) as ->; [|done].
  by destruct l as [| | | | | | | | | |[]|]; cbn [subst_node]; rewrite ?H.
Qed.

Lemma good_ext s s' b : ext s s' → good s b → good s' b.
Proof.
  intros He [Hb Hg]. split; [done|]. eapply Forall_impl; [exact Hg|]. intros v [->|Hv]; [by left|right].
  destruct (ex_rows _ _ He) as [k ->]. rewrite len_app. unfold len in *. lia.
Qed.
Lemma sigma_ext s s' b owner ordinal : store_ok s → store_ok s' → ext s s' → good s b →
  sigma s' b owner ordinal = sigma s b owner ordinal.
Proof.
  intros Hs Hs' He Hg. unfold sigma. destruct (Binding.owns b owner); [|done]. unfold Binding.slot.
  destruct (Binding.slot_ix b owner ordinal) as [i|]; [|done].
  destruct (at_ix (b_slots b) i) as [v|] eqn:E; cbn [get_ix]; [|done]. apply at_ix_Some in E as [_ Hv].
  destruct (Z.eqb_spec v NO_TY); [done|]. destruct (good_range s b v _ Hg Hv) as [|Hr]; [done|].
  destruct (denotes_total s v Hs Hr) as [V HV].
  rewrite (term_at_denotes s v V) by (done || (unfold depth; lia)).
  by rewrite (term_at_denotes s' v V) by (done || by apply (denotes_ext s) || (unfold depth; lia)).
Qed.

Section memo.
Context (U : Binding → Prop) (HU : ∀ b b', U b → U b' → binding_key b = binding_key b' → b = b').

(** Every entry is the substitution of its type under a binding in use. *)
Definition memo_ok (s : TyStore) (memo : SubstMemo) : Prop :=
  ∀ ty key out, memo !! (ty, key) = Some out →
    ∃ b T A, U b ∧ binding_key b = key ∧ good s b ∧ denotes s ty T ∧
      subst_t (sigma s b) T = Some A ∧ denotes s out A.

Lemma memo_ok_ext s s' memo : store_ok s → store_ok s' → ext s s' → memo_ok s memo → memo_ok s' memo.
Proof using Type.
  intros Hs Hs' He Hm ty key out Hk. destruct (Hm ty key out Hk) as (b & T & A & Hb & Hkey & Hg & HT & HA & Hout).
  exists b, T, A. split_and!; [done|done|by apply (good_ext s)|by apply (denotes_ext s)| |by apply (denotes_ext s)].
  rewrite (subst_t_ext _ (sigma s b)); [done|]. intros owner ordinal. by apply sigma_ext.
Qed.

Lemma read_done {A B} (f : TyStore → res A) x (k : A → op B) s : f s = Done x → (read f ≫= k) s = k x s.
Proof. intros H. unfold mbind, op_bind, read. by rewrite H. Qed.

(** The same id, whatever store the substitution has grown. *)
Lemma outcome_id s s1 out A r : store_ok s1 → ext s s1 → denotes s out A → outcome s1 (Some A) r → r = Some out.
Proof.
  intros Hs1 He Hout (t & -> & Ht). f_equal. eapply denotes_inj; [done|done|by apply (denotes_ext s)].
Qed.

Lemma cached_step s s1 r memo b t T : store_ok s → memo_ok s memo → U b → good s b → denotes s t T →
  subst_norm t b s = Done (s1, r) → store_ok s1 → ext s s1 → outcome s1 (subst_t (sigma s b) T) r →
  ∃ s2 memo', subst_norm_cached NeutralOnly t b memo s = Done (s2, (r, memo')) ∧ store_ok s2 ∧ memo_ok s2 memo'.
Proof using HU.
  intros Hs Hm Hb Hg HT Hc1 Hs1 He1 Hr. unfold subst_norm_cached.
  rewrite (read_done _ (bool_decide (closed T))) by by apply denotes_monomorphic. case_bool_decide as Hc.
  { exists s, memo. rewrite subst_closed in Hr by done. by rewrite (outcome_id s s1 t T r). }
  destruct (memo !! (t, binding_key b)) as [hit|] eqn:E.
  - exists s, memo. destruct (Hm _ _ _ E) as (b' & T' & A & Hb' & Hk & _ & HT' & HA & Hout).
    apply HU in Hk as ->; [|done..]. rewrite <- (denotes_det s t T T') in HA by done. rewrite HA in Hr.
    by rewrite (outcome_id s s1 hit A r).
  - unfold subst_norm in Hc1. unfold mbind, op_bind. rewrite Hc1. cbn [mbind res_bind fst snd].
    pose proof (memo_ok_ext s s1 memo Hs Hs1 He1 Hm) as Hm1.
    destruct (subst_t (sigma s b) T) as [A|] eqn:EA; [|rewrite Hr; by exists s1, memo].
    destruct Hr as (out & -> & Hout). eexists s1, _. split; [done|]. split; [done|].
    intros ty key o [[[= <- <-] <-]|[_ Hk]]%lookup_insert_Some; [|by apply Hm1].
    exists b, T, A. split_and!; [done|done|by apply (good_ext s)|by apply (denotes_ext s)| |done].
    rewrite (subst_t_ext _ (sigma s b)); [done|]. intros owner ordinal. by apply sigma_ext.
Qed.
End memo.

(** C31: the memo does not change answers. [subst_norm_cached] returns the very
    id [subst_norm] returns, and leaves every entry of the memo valid, in the
    store it leaves as well, as long as no two bindings in use have the same
    128-bit key. *)
Theorem cached_substitution_agrees (U : Binding → Prop) s memo b t T :
  (∀ b b', U b → U b' → binding_key b = binding_key b' → b = b') →
  store_ok s → memo_ok U s memo → U b → good s b → denotes s t T → nodes ordinal_ok T →
  foot s + 9 * size T ≤ EMPTY →
  ∃ s1 s2 r memo', subst_norm t b s = Done (s1, r) ∧
    subst_norm_cached NeutralOnly t b memo s = Done (s2, (r, memo')) ∧ store_ok s2 ∧ memo_ok U s2 memo'.
Proof.
  intros HU Hs Hm Hb Hg HT Ho Hroom.
  destruct (does_subst b (sigma s b) T (depth t) t s) as (s1 & r & Hc1 & Hs1 & He1 & _ & Hr);
    try done; [unfold depth; lia|by apply sigma_bound|].
  destruct (cached_step U HU s s1 r memo b t T) as (s2 & memo' & Hc2 & Hs2 & Hm2); try done.
  by exists s1, s2, r, memo'.
Qed.
Lemma cached_substitution_agrees_witness : ∃ s p, denotes s p impl_T ∧
  ∃ s1 s2 r memo', subst_norm p unit_binding s = Done (s1, r) ∧
    subst_norm_cached NeutralOnly p unit_binding ∅ s = Done (s2, (r, memo')).
Proof.
  destruct param_store as (s & p & Hs & Hf & Hp & Hlen & _). exists s, p. split; [exact Hp|].
  destruct (cached_substitution_agrees (λ b, b = unit_binding) s ∅ unit_binding p impl_T)
    as (s1 & s2 & r & memo' & H1 & H2 & _).
  - intros b b' -> -> _. reflexivity.
  - exact Hs.
  - intros ty key out []%lookup_empty_Some.
  - reflexivity.
  - by apply unit_good.
  - exact Hp.
  - by repeat constructor.
  - change (size impl_T) with 1. unfold EMPTY. lia.
  - exists s1, s2, r, memo'. split; [exact H1|exact H2].
Defined.

(** ** The first unbound parameter *)

Definition unbound_slot (b : Binding) (owner ordinal : Z) (brand : bool) : res (option (Z * Z * bool)) :=
  if negb (Binding.owns b owner) then Done None
  else v ← Binding.slot b owner ordinal; Done (if v =? NO_TY then Some (owner, ordinal, brand) else None).

Fixpoint find_first {A} (rec : Z → res (option A)) (xs : list Z) : res (option A) :=
  match xs with
  | [] => Done None
  | x :: xs => r ← rec x; match r with Some _ => Done r | None => find_first rec xs end
  end.

(** [levels] more levels are looked at. *)
Fixpoint first_unbound_at (levels : nat) (s : TyStore) (ty : Z) (b : Binding) : res (option (Z * Z * bool)) :=
  match levels with
  | O => Done None
  | S levels =>
      f ← flags s ty;
      if Z.land f F_OPEN =? 0 then Done None
      else
        base ← unqual s ty; a ← ty_a s base; bb ← ty_b s base; g ← tag s base;
        let rec := λ x, first_unbound_at levels s x b in
        match g with
        | TParam => unbound_slot b a (wrap 16 bb) false
        | TBrand =>
            br ← get_ix (at_ix (brands s) bb);
            match br with
            | BParam owner ordinal => unbound_slot b owner ordinal true
            | BFresh _ _ => Done None
            end
        | TNominal | TTuple => xs ← get_ix (args_of s bb); find_first rec xs
        | TDyn => tr ← get_ix (at_ix (trait_refs s) a); xs ← get_ix (args_of s tr.2); find_first rec xs
        | TFn =>
            '(ps, result, raises, _) ← get_ix (fn_sig_of s a);
            find_first rec (map snd ps ++ [result] ++ (if raises =? NO_TY then [] else [raises]))
        | TProj =>
            pk ← get_ix (at_ix (proj_keys s) bb); tr ← get_ix (at_ix (trait_refs s) pk.1);
            h ← rec a;
            match h with
            | Some _ => Done h
            | None => xs ← get_ix (args_of s tr.2); find_first rec xs
            end
        | TConstVal => rec bb
        | TError | TUnit | TNever | TPrim => Done None
        end
  end.
(** Depths 0 to 64. *)
Definition first_unbound (s : TyStore) (ty : Z) (b : Binding) : res (option (Z * Z * bool)) :=
  first_unbound_at 65 s ty b.

(** The parameters a type mentions, in order, and how deep it is. *)
Fixpoint mentioned (T : term) : list (Z * Z * bool) :=
  match T with
  | Node _ l ts =>
      match l with
      | LParam owner ordinal => [(owner, wrap 16 ordinal, false)]
      | LBrand (BParam owner ordinal) => [(owner, ordinal, true)]
      | _ => foldr (λ T xs, mentioned T ++ xs) [] ts
      end
  end.
Fixpoint height (T : term) : nat :=
  match T with Node _ _ ts => S (foldr (λ T n, Nat.max (height T) n) 0%nat ts) end.
Definition is_unbound (b : Binding) (x : Z * Z * bool) : bool :=
  Binding.owns b x.1.1 && match Binding.slot b x.1.1 x.1.2 with Done v => v =? NO_TY | _ => false end.

Lemma closed_mentions T : closed T → mentioned T = [].
Proof.
  induction T as [q l ts IH] using term_induction. intros [Hl Hts]%closed_node.
  assert (foldr (λ T xs, mentioned T ++ xs) [] ts = []) as Hm.
  { induction Hts as [|T ts HT _ IHts]; [done|]. apply Forall_cons in IH as [IH1 IH2]. simpl. by rewrite IH1, IHts. }
  by destruct l as [| | | | | | | | | |[]|].
Qed.
Lemma find_first_half {A} (f : A → bool) xs ys :
  find f (xs ++ ys) = match find f xs with Some x => Some x | None => find f ys end.
Proof. induction xs as [|x xs IH]; simpl; [done|]. by destruct (f x). Qed.

Section first_unbound.
Context (s : TyStore) (b : Binding) (Hs : store_ok s) (Hg : good s b).

Lemma unbound_slot_spec owner ordinal brand : 0 ≤ ordinal →
  unbound_slot b owner ordinal brand = Done (find (is_unbound b) [(owner, ordinal, brand)]).
Proof using Hg.
  intros Ho. unfold unbound_slot, is_unbound. cbn [find fst snd].
  destruct (slot_good s b owner ordinal Hg Ho) as (v & -> & _). cbn [mbind res_bind].
  destruct (Binding.owns b owner); cbn [negb andb]; [|done]. by destruct (v =? NO_TY).
Qed.

Lemma find_first_spec rec xs ts : Forall2 (λ x T, rec x = Done (find (is_unbound b) (mentioned T))) xs ts →
  find_first rec xs = Done (find (is_unbound b) (foldr (λ T xs, mentioned T ++ xs) [] ts)).
Proof using Type.
  induction 1 as [|x T xs ts Hx _ IH]; [done|]. cbn [find_first foldr]. rewrite Hx, find_first_half.
  cbn [mbind res_bind]. by destruct (find (is_unbound b) (mentioned T)).
Qed.

Lemma first_unbound_at_spec T : nodes ordinal_ok T → ∀ levels t, (height T ≤ levels)%nat → denotes s t T →
  first_unbound_at levels s t b = Done (find (is_unbound b) (mentioned T)).
Proof using Hs Hg.
  induction T as [q l ts IH] using term_induction. intros [Hol Hots]%nodes_inv [|levels] t Hh HT; [simpl in Hh; lia|].
  cbn [first_unbound_at]. rewrite flags_found by (apply at_ix_is_Some; by eapply denotes_range).
  rewrite (denotes_flags s t _ Hs HT). cbn [mbind res_bind].
  destruct (Z.eqb_spec (Z.land (flags_of (Node q l ts)) F_OPEN) 0) as [Hc|_].
  { by rewrite (closed_mentions (Node q l ts) Hc). }
  destruct (denotes_unqual s t q l ts Hs HT) as (u & -> & HU & _). cbn [mbind res_bind].
  inversion HU as [? r ? cs ? Hr Hp Hts Hrq]; subst. unfold ty_a, ty_b, tag. rewrite Hr. cbn [get_ix mbind res_bind].
  assert (Forall2 (λ x T, first_unbound_at levels s x b = Done (find (is_unbound b) (mentioned T))) cs ts) as Hall.
  { cbn [height] in Hh. clear -IH Hots Hts Hh. induction Hts as [|x T cs ts Hx _ IHts]; [done|].
    apply Forall_cons in IH as [IH1 IH2], Hots as [Ho1 Ho2]. cbn [foldr] in Hh. constructor.
    - apply IH1; [done|lia|done].
    - apply IHts; try done. lia. }
  apply parts_spec in Hp as [-> Hp]. cbn [mentioned].
  destruct l; cbn [label_tag]; try by destruct Hp as (_ & _ & ->); inversion Hall; subst.
  - destruct Hp as [_ ->]. by apply find_first_spec.
  - destruct Hp as [_ ->]. by apply find_first_spec.
  - destruct Hp as (_ & [[[ps result] e] cl] & -> & Hparts). injection Hparts as <- <- <- <-. by apply find_first_spec.
  - destruct Hp as (_ & id & -> & Hp). cbn [get_ix mbind res_bind fst snd]. rewrite Hp. by apply find_first_spec.
  - destruct Hp as (-> & -> & _). apply unbound_slot_spec. apply Z.mod_pos_bound. lia.
  - destruct Hp as (tr & id & xs & -> & Htr & Hx & ->). cbn [get_ix mbind res_bind fst snd]. rewrite Htr.
    cbn [get_ix mbind res_bind fst snd]. inversion Hall as [|? Hd ? Ts HH HTs]; subst. rewrite HH. cbn [mbind res_bind foldr].
    rewrite find_first_half. destruct (find (is_unbound b) (mentioned Hd)); [done|]. rewrite Hx. by apply find_first_spec.
  - destruct Hp as (-> & _ & ->). cbn [get_ix mbind res_bind]. destruct b0 as [owner ordinal|]; [|by inversion Hall; subst].
    by apply unbound_slot_spec.
  - destruct Hp as (_ & ->). inversion Hall as [|? T ? ? HT1 HTs]; subst. inversion HTs; subst. rewrite HT1.
    cbn [foldr]. by rewrite app_nil_r.
Qed.

(** No projection and no qualifier in the way. *)
Definition bare_ok (q : Z) (l : label) : Prop := q = 0 ∧ ordinal_ok q l ∧ match l with LProj _ _ => False | _ => True end.

Lemma sigma_answers owner ordinal d brand : 0 ≤ ordinal →
  is_Some (default (Some d) (sigma s b owner ordinal)) ↔ find (is_unbound b) [(owner, ordinal, brand)] = None.
Proof using Hs Hg.
  intros Ho. pose proof (sigma_bound s b Hs Hg owner ordinal Ho) as H. unfold is_unbound. cbn [find fst snd].
  destruct (Binding.owns b owner); [|rewrite H; by split].
  destruct H as (v & -> & H). cbn [andb]. destruct (v =? NO_TY).
  - rewrite H. split; [by intros []|done].
  - destruct H as (V & _ & ->). by split.
Qed.

Lemma substitutes_iff_bound T : nodes bare_ok T →
  is_Some (subst_t (sigma s b) T) ↔ find (is_unbound b) (mentioned T) = None.
Proof using Hs Hg.
  induction T as [q l ts IH] using term_induction. intros [(-> & Hol & Hl) Hts]%nodes_inv.
  assert (is_Some (mapM (subst_t (sigma s b)) ts) ↔ find (is_unbound b) (foldr (λ T xs, mentioned T ++ xs) [] ts) = None) as Hm.
  { clear Hol Hl. induction Hts as [|T ts HT _ IHts]; [by split|]. apply Forall_cons in IH as [IH1 IH2].
    cbn [mapM foldr]. rewrite find_first_half. specialize (IH1 HT). specialize (IHts IH2).
    destruct (subst_t (sigma s b) T), (find (is_unbound b) (mentioned T)), (mapM (subst_t (sigma s b)) ts); simpl in *;
      rewrite ?is_Some_alt in *; simpl in *; intuition (congruence || eauto). }
  cbn [subst_t mentioned].
  assert (∀ o, is_Some (out ← o; requalify 0 out) ↔ is_Some o) as Hreq.
  { intros [o|]; simpl; [|done]. unfold requalify. simpl. split; eauto. }
  rewrite Hreq. assert (∀ m : option (list term), is_Some (ts' ← m; Some (Node 0 l ts')) ↔ is_Some m) as Hnode.
  { intros [m|]; simpl; [|done]. split; eauto. }
  destruct l as [| | | | | | | |owner ordinal| |[owner ordinal|]|]; cbn [subst_node]; try (by rewrite Hnode, Hm); [|done|].
  - apply sigma_answers. apply Z.mod_pos_bound. lia.
  - by apply sigma_answers.
Qed.
End first_unbound.

(** C30: [first_unbound] answers the first parameter of the binding's owners
    that the type mentions and that is still unbound, for types at most 65 nodes
    deep. Where no qualifier and no projection is in the way, it answers [None]
    exactly when substitution succeeds: that is what tells an undetermined
    parameter from a projection that cannot be reduced. *)
Theorem first_unbound_exact s t b T : store_ok s → denotes s t T → nodes ordinal_ok T → good s b →
  (height T ≤ 65)%nat →
  first_unbound s t b = Done (find (is_unbound b) (mentioned T)) ∧
  (nodes bare_ok T → foot s + 9 * size T ≤ EMPTY →
     first_unbound s t b = Done None ↔ ∃ s' r, subst_norm t b s = Done (s', Some r)).
Proof.
  intros Hs HT Ho Hg Hh. pose proof (first_unbound_at_spec s b Hs Hg T Ho 65 t Hh HT) as Hfu.
  split; [exact Hfu|]. intros Hbare Hroom. unfold first_unbound. rewrite Hfu.
  pose proof (substitutes_iff_bound s b Hs Hg T Hbare) as Hiff.
  destruct (does_subst b (sigma s b) T (depth t) t s) as (s1 & r & Hc1 & Hs1 & He1 & _ & Hr);
    try done; [unfold depth; lia|by apply sigma_bound|].
  unfold subst_norm. rewrite Hc1. split.
  - intros [= Hf]. apply Hiff in Hf as [A HA]. rewrite HA in Hr. destruct Hr as (o & -> & _). eauto.
  - intros (s' & o & [= <- ->]). f_equal. apply Hiff. destruct (subst_t (sigma s b) T); [eauto|done].
Qed.
Lemma first_unbound_exact_witness : ∃ s p, denotes s p impl_T ∧
  first_unbound s p (Binding.new [(7, 1)]) = Done (Some (7, 0, false)).
Proof.
  destruct param_store as (s & p & Hs & Hf & Hp & Hlen & _). exists s, p. split; [exact Hp|].
  destruct (first_unbound_exact s p (Binding.new [(7, 1)]) impl_T) as [H _].
  - exact Hs.
  - exact Hp.
  - by repeat constructor.
  - apply fresh_good.
  - vm_compute. lia.
  - exact H.
Defined.

(** Below the last level nothing is looked at, bound or not. *)
Fixpoint nest (n : nat) (T : term) : term := match n with O => T | S n => Node 0 LTuple [nest n T] end.
Lemma first_unbound_gives_up s b T n t : store_ok s → denotes s t (nest n T) → first_unbound_at n s t b = Done None.
Proof.
  intros Hs. revert t. induction n as [|n IH]; intros t HT; [done|]. cbn [first_unbound_at nest] in *.
  rewrite flags_found by (apply at_ix_is_Some; by eapply denotes_range). cbn [mbind res_bind].
  destruct (Z.land (flags_at s t) F_OPEN =? 0); [done|].
  destruct (denotes_unqual s t 0 LTuple _ Hs HT) as (u & -> & HU & _). cbn [mbind res_bind].
  inversion HU as [? r ? cs ? Hr Hp Hts Hrq]; subst. unfold ty_a, ty_b, tag. rewrite Hr. cbn [get_ix mbind res_bind].
  apply parts_spec in Hp as [-> [_ ->]]. cbn [label_tag get_ix mbind res_bind].
  apply Forall2_cons_inv_r in Hts as (c & ? & Hc & ->%Forall2_nil_inv_r & ->). cbn [find_first]. by rewrite IH.
Qed.
